(* ===== verification/_CoqProject ===== *)
-Q . S2P
Prelude.v
AsyncOp.v
JsonValue.v
JsString.v
JsonText.v
JsInt.v
TextCodec.v
SchemaLink.v
Sha256.v
MediaSecurity.v
ClientStorage.v
KeyedSort.v
AgentChatCache.v
ChatStorage.v
ChatReducers.v
AppletLifecycle.v
AppletRegistry.v
AppletPermissions.v
AppletScheduler.v
AppletManifest.v
AppletManifestFacts.v
AppletManifestAnswers.v
AppletManifestSafety.v
AppletKernel.v
MobileTypes.v
TopoSort.v
MobileReducer.v
MobileKernel.v
MobileKernelFacts.v
MobileKernelRuns.v
MobileKernelSafety.v
MobileNavigation.v
EventIngress.v
EventIngressFacts.v
EventIngressSafety.v
RecoveryProjection.v
MutationAdmission.v
SocialProjection.v
SocialProjectionFacts.v
SocialProjectionRuns.v
SocialProjectionEnd.v
SocialProjectionHistory.v
SocialProjectionSafety.v
MessagingRuntime.v
MessagingFacts.v
MessagingDeliveries.v
MessagingReconcile.v
MessagingSafety.v
CommandRuntime.v
CallState.v
CallStateFacts.v
CallStateSafety.v
SessionRuntime.v
SessionFacts.v
SessionSafety.v
SessionDescriptor.v
