(* ===== verification/Prelude.v ===== *)
(** * Peers-Touch client runtimes: a verification development

    Peers-Touch is a peer-to-peer social platform: Go stations, native Tauri hosts in
    Rust, and TypeScript clients for desktop and mobile. The clients' own logic is in
    TypeScript; this development verifies the parts of it that decide what may run and
    what may be written:

    - the applet kernel (packages/applet-contract, packages/applet-kernel), which checks the
      manifests of small applications and takes them through their life cycle on desktop
      and mobile;
    - the lifecycle kernel of the mobile app (apps/mobile/src/app/lifecycle), which
      starts, suspends, resumes and tears down a graph of runtimes and fences every
      change of station or account;
    - the navigation store of the mobile app (apps/mobile/src/app/navigation);
    - the event ingress, the recovery projection, the admission of mutations and the durable
      command runtime (apps/mobile/src/runtimes/socialEventIngress.ts,
      recoveryProjection.ts, mutationAdmission.ts, commandRuntime.ts), through which server
      events reach the app, which together decide whether a write may be sent, and which
      recover commands and drafts after a crash;
    - the social projection runtime that owns that ingress (socialProjectionRuntime.ts): it
      routes the events of the wire, reconciles the projections and reopens writes; and the
      messaging runtime (messagingRuntime.ts) that activates the native messaging engine
      for the session, reconciles it and publishes its projection events in order;
    - the session runtime of the mobile app (apps/mobile/src/runtimes/sessionRuntime.ts) and
      its call state machine (apps/mobile/src/features/call/callState.ts);
    - the packages both clients share: links and their text codecs (packages/schema),
      the encryption of media (packages/client-media-security), the cache of rebuildable
      data (packages/client-storage), and the replica of agent chats, the projection of
      chat storage and the reducers of the chat state (packages/client-chat-core).

    The parts meet as follows. The host asks the applet kernel to dispatch lifecycle
    events; the resource scheduler proposes events of its own, and the orchestrator
    carries both out on the instance registry. The mobile kernel orders its runtimes by
    their dependencies and calls their hooks; one of the runtimes is the
    session, another the social projection runtime, which owns the event ingress, binds it
    to the admission of mutations and reopens writes when its projections are repaired. The permissions of a manifest that was accepted are registered
    with the permission manager. The ingress reports its state to the recovery projection, which
    also reads the availability of the runtimes from the kernel's state; a mutation is
    admitted only if session, ingress and recovery projection all allow it. The agent chat
    cache reads and writes through repositories of the client storage.

    ** Files

    - [Prelude]: thrown errors, JavaScript maps, sets and the stable sort, list lemmas,
      tactics and hint databases.
    - [AsyncOp]: the state and error monad of the operations that run between two awaits.
    - [JsonValue], [JsString]: what JSON.parse returns; trimming and searching of strings.
    - [JsonText]: the JSON texts that serve as map keys, which determine their arrays.
    - [JsInt], [TextCodec]: 32-bit arithmetic, bytes, trimming, base32 and base64url.
    - [SchemaLink]: link.ts. The URL parser of the platform and the generated protobuf
      codec are parameters with their documented laws.
    - [Sha256]: the streaming hash of client-media-security, against FIPS 180-4.
    - [MediaSecurity]: the rest of that file; AES-GCM and the platform digest are a class
      [Platform].
    - [ClientStorage]: keys, envelopes and the cache store, over a platform adapter and a
      JSON codec with laws.
    - [KeyedSort]: maps keyed by a field of their values, comparator sorts and the locale.
    - [AgentChatCache]: agentChatCache.ts against the class [Repository] with
      [RepositoryLaws], which the repositories of [ClientStorage] discharge. The fuel of
      [refreshConversation] counts pages. The promise chain per conversation is the step
      relation [queue_step].
    - [ChatStorage]: chatStorageProjection.ts and storageBatch.ts. Each request is split at
      its awaits into call, answer and settling, so that they interleave in any order; a
      change of scope and its publication to the listeners are two steps.
    - [ChatReducers]: the reducers of client-chat-core/src/index.ts.
    - [AppletLifecycle]: lifecycle.ts and capability.ts of the contract (states, events,
      the transition function and the documented edges as an inductive relation).
    - [AppletRegistry]: instance-registry.ts, as a class [InstanceRegistry] with laws and
      an instance that discharges them; the clients below are proved against the laws.
    - [AppletPermissions]: permission-manager.ts with its audit log.
    - [AppletScheduler]: resource-scheduler.ts, the sweep as three passes and the
      reaction to memory pressure.
    - [AppletKernel]: lifecycle-orchestrator.ts and index.ts. A dispatch is split at its
      awaits ([dispatch_start], [dispatch_resume]), so that dispatches interleave as the
      step relation [orch_step]; [spec_dispatch] is the abstract specification.
    - [AppletManifest]: manifest.ts of the contract, in a monad of checks that report errors or
      throw. [AppletManifestFacts] says what each check accepts, [AppletManifestAnswers] when
      none throws, [AppletManifestSafety] has the properties and the counterexamples.
    - [MobileTypes], [TopoSort], [MobileReducer]: types.ts, topologicalSort.ts,
      lifecycleReducer.ts, runtimeAvailability.ts.
    - [MobileKernel]: MobileLifecycleKernel.ts in a state, error and log monad. Every
      await asks the class [KernelEnv] for its outcome, which may depend on everything
      logged so far and may change the kernel the way reentrant calls can; hooks may fail
      or time out. [MobileKernelFacts] has the invariants of single calls,
      [MobileKernelRuns] those of the bootstrap, suspend, resume and teardown passes,
      [MobileKernelSafety] the properties of sessions of operations.
    - [MobileNavigation]: navigationStore.ts and navigationDescriptors.ts.
    - [EventIngress]: socialEventIngress.ts. The state is the closure of the controller;
      the drain loop is cut at its awaits into tasks ([drain_task]) that interleave with
      the other calls in [ingress_run]. [EventIngressFacts] has the invariant,
      [EventIngressSafety] the properties.
    - [RecoveryProjection]: recoveryProjection.ts, one slot per kind of failure.
    - [MutationAdmission]: mutationAdmission.ts over the two before it.
    - [SocialProjection]: socialProjectionRuntime.ts over [EventIngress] and
      [MutationAdmission]. Jobs and event handlers wait at each of their awaits for answers
      that come in any order; a controller call, a task or an answer is one step of
      [app_run]. [SocialProjectionFacts] says what a step does to the ingress,
      [SocialProjectionRuns] has the invariant of recovery, [SocialProjectionEnd] the rank
      of pending work, [SocialProjectionHistory] what came to pass for the job at the head of
      the queue, [SocialProjectionSafety] the properties and the races.
    - [MessagingRuntime]: messagingRuntime.ts with runtimeSessionTransition.ts, the module
      variables and the closure of the descriptor as one record; transitions, deliveries,
      promises and hooks wait at their awaits. [MessagingFacts] and [MessagingDeliveries]
      say what steps change, [MessagingReconcile] runs a reconcile through the refresh of the
      social store to its end, [MessagingSafety] has the properties and the counterexamples.
    - [CommandRuntime]: commandRuntime.ts. A native call is one [invoke]: it is recorded, other
      tasks act on the drafts ([Native.meanwhile]), and the class [Native] answers.
    - [CallState]: callState.ts. Every await of a call is a task that answers come to in any
      order. [CallStateFacts] has the invariant, [CallStateSafety] the properties.
    - [SessionRuntime]: the controller of sessionRuntime.ts, split at its awaits in the same
      way; [SessionFacts] has the invariant, [SessionSafety] the properties, and
      [SessionDescriptor] the hooks the mobile kernel calls and the mutations they admit.

    ** What is shown

    - Applet kernel: a dispatch implements its abstract specification whatever adapter
      and backend answer; interleaved dispatches keep the registry well formed and
      resurrect nothing, but can leave the contract (a proved counterexample); a sweep
      proposes legal events, oldest first, and running it restores the policy's bounds;
      permissions follow the latest registration and every check is audited. A manifest
      that is accepted is well formed, is accepted as itself again and has only permissions
      that are granted; names of inherited properties escape the integrity check (proved
      counterexamples).
    - Mobile kernel: the sort is a topological order and its search terminates; the
      reducer keeps states well formed; availability is defined and exact; the four
      passes call the hooks they should in the order they should; between operations the
      kernel rests in a stable phase; generations never decrease; a change of owner runs
      only on a cold, fenced kernel; stale readiness updates change nothing.
    - Navigation: every intent is accepted, the detail stack has no duplicate locations,
      and location keys determine locations where the parts are unambiguous.
    - Ingress: queues and windows stay bounded; the drain always empties the queues;
      events with a cursor are delivered once while their keys fit the window; lost events leave their domain stale
      until it is repaired; admission opens only when all data domains are fresh.
    - Recovery and admission: the snapshot is exactly the reported failures in order of
      severity; reports do not disturb one another; a mutation is admitted exactly when
      all three readers allow it, and lost events fence mutations end to end.
    - Social projections: while a projection is stale, closed writes wait for a successful
      answer for it, and reopen only with a job that succeeded throughout; an undisturbed
      runtime recovers; jobs and handlers never block each other and end; an event of the
      wire is queued whole, in a part for each domain it concerns; teardown is final. Three theorems show that a job under way
      can reopen writes or set back a cursor on behalf of events it has not seen.
    - Messaging: accounts that are active on the native side are tracked until they are
      deactivated; published events are for the active scope and in the order of their
      lane; a transition answered with success makes the runtime ready; what it reports
      of itself is true. Four theorems show failures that strand a session, leave an
      account active or mix two accounts.
    - Shared packages: codecs and links decode exactly what they encode; the streaming
      hash is SHA-256 whatever the chunks; decryption undoes encryption and accepts only
      content with the recorded hashes; nonces differ; the cache refines a map that may
      forget; merging messages loses no version and is idempotent; synchronisation never
      moves backwards; a refresh ends; operations of a conversation are serialised; the
      storage projection takes in nothing of another scope and shows nothing of one once the
      change is published; messages and receipts converge
      whatever the order they arrive in; the outbox loses nothing.
    - Commands and drafts: a restored draft reaches a composer of its address at most once and,
      where none was seen yet, waits for one; projections are acknowledged only after they were applied; recovery calls
      exactly the commands that allow it; the retry timer stays within its range.
    - Sessions: a session is shown exactly when it is owned, and writes are allowed only while
      it is active; late answers change nothing, a 401 to a request under way excepted; refreshing never hands it to another actor;
      a session reported as revoked was purged; every operation ends; a mutation needs an
      active session, and the runtime's own binding is released with it. Eight theorems show
      races the code does not handle.
    - Calls: ending a call stops its tracks, and none runs without a call unless one was taken
      away while an acceptance awaited; a call moves along its life cycle; between operations
      whatever rings has its timer; media is opened by consent and once; sending signals ends. Counterexamples show
      where two calls disturb each other.

    ** Bounds and fuel

    The depth-first search of [TopoSort] takes one unit of fuel per visit plus one, and
    [topologicalSort_total] shows that more changes nothing. Availability takes one more
    than the number of runtimes, enough on well-formed states
    ([readRuntimeAvailability_correct]); on others the call stack of the source
    overflows, here an error value. A refresh of an agent conversation has a fuel that
    suffices whatever pages come ([refreshConversation_correct]), as its cursor grows and is
    a safe integer. A signal that fails may
    send one more, to the depth [SEND_DEPTH], and more fuel changes nothing ([send_depth]);
    operations of a session have a rank that every answer decreases, and so have the jobs
    and handlers of the social projection runtime ([jobs_and_handlers_end]).
    The tasks of the drain need no fuel: a run is a list
    of tasks, and [drain_completes] says how many are enough. Numbers are [Z]; where the
    source tests [Number.isSafeInteger] so does the model. Clocks are arguments.

    ** What is not modelled

    Rendering, native commands, network transport, the primitives of AES-GCM, the URL
    parser and generated protocol code; hooks of the runtimes, the platform adapter, the
    applet backend and the fetchers are environments that answer arbitrarily. Callbacks of
    listeners are logs of calls; a listener that calls back is left out. Durations measured
    for diagnostics are left out. Strings of manifests hold characters below 256. WebRTC, getUserMedia and JSON.parse
    are parameters. The composer keyboard rules, attachment classification, search filters
    and calendar grouping of client-chat-core/src/index.ts, the auth, access, station and private
    moments runtimes of the mobile app, the resolver of its runtime registry, the native lifecycle
    bridge, the screens of both clients, the desktop's services, the Go stations and the Rust
    hosts are not modelled. *)
From Stdlib Require Import Ascii.
From stdpp Require Import base gmap strings list sorting.
From Stdlib Require Import Lia ZArith.

Declare Scope peers_scope.
Delimit Scope peers_scope with peers.
Open Scope Z_scope.
Open Scope list_scope.

(** ** Thrown errors

    A TypeScript function that may throw returns a [result]; the message is the
    one of the [Error] object the source constructs. *)
Inductive result (A : Type) : Type :=
| Ok (a : A)
| Err (message : string).
Arguments Ok {A} a.
Arguments Err {A} message.

(** An error ends the function that meets it. *)
#[export] Instance result_bind : MBind result := fun A B k r => match r with Ok a => k a | Err m => Err m end.

Lemma bind_ok {A B} (r : result A) (k : A -> result B) b : (r ≫= k) = Ok b -> exists a, r = Ok a /\ k a = Ok b.
Proof. destruct r as [a|]; [eauto | done]. Qed.

Definition is_ok {A} (r : result A) : bool :=
  match r with Ok _ => true | Err _ => false end.

(** ** JavaScript [Map] with string keys

    A [Map] iterates in insertion order, and [set] on a present key keeps its
    position; both matter to the sources ([Array.from(map.values())] feeds a
    stable sort), so a [Map] is an association list behind a record. *)
Record jsmap (V : Type) : Type := JsMap { entries : list (string * V) }.
Arguments JsMap {V} entries.
Arguments entries {V} _.

Fixpoint assoc_get {V} (k : string) (l : list (string * V)) : option V :=
  match l with
  | [] => None
  | (k', v) :: l' => if decide (k = k') then Some v else assoc_get k l'
  end.

Fixpoint assoc_set {V} (k : string) (v : V) (l : list (string * V)) : list (string * V) :=
  match l with
  | [] => [(k, v)]
  | (k', v') :: l' => if decide (k = k') then (k, v) :: l' else (k', v') :: assoc_set k v l'
  end.

Fixpoint assoc_delete {V} (k : string) (l : list (string * V)) : list (string * V) :=
  match l with
  | [] => []
  | (k', v') :: l' => if decide (k = k') then assoc_delete k l' else (k', v') :: assoc_delete k l'
  end.

#[export] Instance jsmap_empty {V} : Empty (jsmap V) := JsMap [].
#[export] Instance jsmap_lookup {V} : Lookup string V (jsmap V) := fun k m => assoc_get k (entries m).
#[export] Instance jsmap_insert {V} : Insert string V (jsmap V) := fun k v m => JsMap (assoc_set k v (entries m)).
#[export] Instance jsmap_delete {V} : Delete string (jsmap V) := fun k m => JsMap (assoc_delete k (entries m)).

(** [Map.keys()], [Map.values()], [Map.has]. *)
Definition jm_keys {V} (m : jsmap V) : list string := (entries m).*1.
Definition jm_values {V} (m : jsmap V) : list V := (entries m).*2.
Definition jm_has {V} (k : string) (m : jsmap V) : bool := bool_decide (is_Some (m !! k)).

(** A [Map] holds one entry per key. *)
Definition jm_wf {V} (m : jsmap V) : Prop := NoDup (jm_keys m).

(** ** JavaScript [Set] of strings, in insertion order *)
Definition js_set_add (x : string) (s : list string) : list string :=
  if decide (x ∈ s) then s else s ++ [x].
Definition js_set_has (x : string) (s : list string) : bool := bool_decide (x ∈ s).
Definition js_set_delete (x : string) (s : list string) : list string := filter (fun y => y <> x) s.
Definition js_set_of (l : list string) : list string := fold_left (fun s x => js_set_add x s) l [].

(** ** [Array.prototype.sort] with a numeric key

    The sort of ECMAScript is stable, which fixes its result: insertion sort
    from the right that puts an equal key in front computes it. *)
Fixpoint sort_insert {A} (key : A -> Z) (x : A) (l : list A) : list A :=
  match l with
  | [] => [x]
  | y :: l' => if key x <=? key y then x :: y :: l' else y :: sort_insert key x l'
  end.

Definition sort_by {A} (key : A -> Z) (l : list A) : list A := foldr (sort_insert key) [] l.

(** ** Boolean tests on strings: [startsWith] and truthiness *)
Definition starts_with (prefix s : string) : bool := String.prefix prefix s.
Definition truthy (s : string) : bool := negb (bool_decide (s = ""%string)).

(** [Array.prototype.join]. *)
Definition join (sep : string) (l : list string) : string := String.concat sep l.

(** ** Lemmas: maps *)
Create HintDb jsmap.
Create Rewrite HintDb jsmap.

Section jsmap.
Context {V : Type}.
Implicit Types (m : jsmap V) (k : string) (v : V).

Lemma jm_lookup_set m k k' v :
  (<[k:=v]> m : jsmap V) !! k' = if decide (k = k') then Some v else m !! k'.
Proof.
  destruct m as [l]. unfold lookup, insert, jsmap_lookup, jsmap_insert; cbn.
  induction l as [|[k0 v0] l IH]; cbn; repeat (case_decide; cbn; subst); congruence.
Qed.

Lemma jm_lookup_set_eq m k v : (<[k:=v]> m : jsmap V) !! k = Some v.
Proof. rewrite jm_lookup_set. by rewrite decide_True. Qed.

Lemma jm_lookup_set_ne m k k' v : k <> k' -> (<[k:=v]> m : jsmap V) !! k' = m !! k'.
Proof. intros. rewrite jm_lookup_set. by rewrite decide_False. Qed.

Lemma jm_lookup_delete m k k' :
  (delete k m : jsmap V) !! k' = if decide (k = k') then None else m !! k'.
Proof.
  destruct m as [l]. unfold lookup, delete, jsmap_lookup, jsmap_delete; cbn.
  induction l as [|[k0 v0] l IH]; cbn; repeat (case_decide; cbn in *; subst); congruence.
Qed.

Lemma jm_lookup_delete_eq m k : (delete k m : jsmap V) !! k = None.
Proof. rewrite jm_lookup_delete. by rewrite decide_True. Qed.

Lemma jm_lookup_delete_ne m k k' : k <> k' -> (delete k m : jsmap V) !! k' = m !! k'.
Proof. intros. rewrite jm_lookup_delete. by rewrite decide_False. Qed.

Lemma jm_lookup_empty k : (∅ : jsmap V) !! k = None.
Proof. done. Qed.

Lemma assoc_set_keys_in k v (l : list (string * V)) :
  k ∈ l.*1 -> (assoc_set k v l).*1 = l.*1.
Proof.
  induction l as [|[k0 v0] l IH]; cbn; [by intros ?%not_elem_of_nil|].
  intros [->|Hin]%elem_of_cons; case_decide; cbn; subst; try done. by rewrite IH.
Qed.

Lemma assoc_set_keys_notin k v (l : list (string * V)) :
  k ∉ l.*1 -> (assoc_set k v l).*1 = l.*1 ++ [k].
Proof.
  induction l as [|[k0 v0] l IH]; cbn; [done|].
  intros [Hne Hni]%not_elem_of_cons. rewrite decide_False by done. cbn. by rewrite IH.
Qed.

Lemma jm_keys_set m k v :
  jm_keys (<[k:=v]> m) = if decide (k ∈ jm_keys m) then jm_keys m else jm_keys m ++ [k].
Proof.
  destruct m as [l]. unfold jm_keys, insert, jsmap_insert; simpl entries.
  case_decide; [by apply assoc_set_keys_in | by apply assoc_set_keys_notin].
Qed.

Lemma assoc_delete_keys k (l : list (string * V)) :
  (assoc_delete k l).*1 = filter (fun k' => k' <> k) l.*1.
Proof.
  induction l as [|[k0 v0] l IH]; [done|].
  rewrite fmap_cons, filter_cons. cbn [assoc_delete fst].
  repeat case_decide; subst; try done. rewrite fmap_cons. by rewrite IH.
Qed.

Lemma jm_keys_delete m k : jm_keys (delete k m) = filter (fun k' => k' <> k) (jm_keys m).
Proof. destruct m as [l]. apply assoc_delete_keys. Qed.

Lemma jm_elem_of_keys m k : k ∈ jm_keys m <-> is_Some (m !! k).
Proof.
  destruct m as [l]. unfold jm_keys, lookup, jsmap_lookup; cbn.
  induction l as [|[k0 v0] l IH]; cbn.
  - split; [set_solver | by intros [? ?]].
  - rewrite elem_of_cons, IH. case_decide; subst; naive_solver.
Qed.

Lemma jm_keys_set_present m k v : is_Some (m !! k) -> jm_keys (<[k:=v]> m) = jm_keys m.
Proof. intros H%jm_elem_of_keys. rewrite jm_keys_set. by rewrite decide_True. Qed.

Lemma jm_wf_empty : jm_wf (∅ : jsmap V).
Proof. constructor. Qed.

Lemma jm_wf_set m k v : jm_wf m -> jm_wf (<[k:=v]> m).
Proof.
  unfold jm_wf. intros H. rewrite jm_keys_set. case_decide; [done|].
  apply NoDup_app. split; [done|]. split; [set_solver | apply NoDup_singleton].
Qed.

Lemma jm_wf_delete m k : jm_wf m -> jm_wf (delete k m).
Proof. unfold jm_wf. intros H. rewrite jm_keys_delete. by apply NoDup_filter. Qed.

Lemma jm_lookup_entries m k v : jm_wf m -> m !! k = Some v <-> (k, v) ∈ entries m.
Proof.
  destruct m as [l]. unfold jm_wf, jm_keys, lookup, jsmap_lookup; cbn.
  induction l as [|[k0 v0] l IH]; cbn; intros Hnd.
  - split; [done | set_solver].
  - apply NoDup_cons in Hnd as [Hni Hnd]. rewrite elem_of_cons.
    case_decide; subst.
    + split; [naive_solver|]. intros [?|Hin]; [naive_solver|].
      destruct Hni. by apply (list_elem_of_fmap_2 fst) in Hin.
    + rewrite IH by done. naive_solver.
Qed.

Lemma jm_elem_of_values m v : jm_wf m -> v ∈ jm_values m <-> exists k, m !! k = Some v.
Proof.
  intros Hwf. unfold jm_values. rewrite list_elem_of_fmap. split.
  - intros ([k v'] & -> & Hin). exists k. by apply jm_lookup_entries.
  - intros [k Hk]. exists (k, v). split; [done|]. by apply jm_lookup_entries.
Qed.

Lemma jm_has_spec k m : jm_has k m = true <-> is_Some (m !! k).
Proof. unfold jm_has. apply bool_decide_eq_true. Qed.
End jsmap.

#[export] Hint Resolve jm_wf_empty jm_wf_set jm_wf_delete : jsmap.
#[export] Hint Rewrite @jm_lookup_set_eq @jm_lookup_delete_eq @jm_lookup_empty : jsmap.
#[export] Hint Rewrite @jm_lookup_set_ne @jm_lookup_delete_ne using done : jsmap.

(** ** Lemmas: sets *)
Lemma js_set_add_elem x y s : y ∈ js_set_add x s <-> y = x \/ y ∈ s.
Proof. unfold js_set_add. case_decide; set_solver. Qed.

Lemma js_set_add_NoDup x s : NoDup s -> NoDup (js_set_add x s).
Proof.
  unfold js_set_add. intros. case_decide; [done|].
  apply NoDup_app. split; [done|]. split; [set_solver | apply NoDup_singleton].
Qed.

Lemma js_set_of_acc l acc :
  NoDup acc ->
  let s := fold_left (fun s x => js_set_add x s) l acc in
  NoDup s /\ forall y, y ∈ s <-> y ∈ acc \/ y ∈ l.
Proof.
  revert acc. induction l as [|x l IH]; cbn; intros acc Hnd; [set_solver|].
  destruct (IH (js_set_add x acc)) as [Hs He]; [by apply js_set_add_NoDup|].
  split; [done|]. intros y. rewrite He, js_set_add_elem. set_solver.
Qed.

Lemma js_set_of_NoDup l : NoDup (js_set_of l).
Proof. apply (js_set_of_acc l []). constructor. Qed.

Lemma js_set_of_elem l y : y ∈ js_set_of l <-> y ∈ l.
Proof. destruct (js_set_of_acc l [] (NoDup_nil_2)) as [_ H]. unfold js_set_of. rewrite H. set_solver. Qed.

Lemma js_set_of_nodup_id_acc l acc :
  NoDup (acc ++ l) -> fold_left (fun s x => js_set_add x s) l acc = acc ++ l.
Proof.
  revert acc. induction l as [|x l IH]; cbn; intros acc Hnd; [by rewrite app_nil_r|].
  unfold js_set_add at 2. rewrite decide_False.
  - rewrite IH; rewrite <- (assoc_L (++)); done.
  - apply NoDup_app in Hnd. set_solver.
Qed.

Lemma js_set_of_nodup_id l : NoDup l -> js_set_of l = l.
Proof. intros H. unfold js_set_of. by rewrite js_set_of_nodup_id_acc. Qed.

Lemma js_set_delete_elem x y s : y ∈ js_set_delete x s <-> y <> x /\ y ∈ s.
Proof. unfold js_set_delete. by rewrite list_elem_of_filter. Qed.

Lemma js_set_has_spec x s : js_set_has x s = true <-> x ∈ s.
Proof. apply bool_decide_eq_true. Qed.

Lemma truthy_spec s : truthy s = true <-> s <> ""%string.
Proof. unfold truthy. by rewrite negb_true_iff, bool_decide_eq_false. Qed.

Lemma truthy_true s : s <> ""%string -> truthy s = true.
Proof. apply truthy_spec. Qed.

(** ** Lemmas: the stable sort *)
Create HintDb sorting.

Section sort_by.
Context {A : Type} (key : A -> Z).

Definition key_le (x y : A) : Prop := key x <= key y.

Lemma sort_insert_perm x l : sort_insert key x l ≡ₚ x :: l.
Proof.
  induction l as [|y l IH]; cbn; [done|].
  destruct (key x <=? key y); [done|]. rewrite IH. apply Permutation_swap.
Qed.

Lemma sort_by_perm l : sort_by key l ≡ₚ l.
Proof. induction l as [|x l IH]; cbn; [done|]. by rewrite sort_insert_perm, IH. Qed.

Lemma sort_insert_sorted x l :
  StronglySorted key_le l -> StronglySorted key_le (sort_insert key x l).
Proof.
  induction 1 as [|y l Hs IH Hall]; cbn; [repeat constructor|].
  destruct (Z.leb_spec (key x) (key y)).
  - constructor; [by constructor|]. constructor; [done|].
    eapply Forall_impl; [done|]. unfold key_le. intros. lia.
  - constructor; [done|]. rewrite sort_insert_perm. constructor; [|done].
    unfold key_le. lia.
Qed.

Lemma sort_by_sorted l : StronglySorted key_le (sort_by key l).
Proof. induction l; cbn; [constructor | by apply sort_insert_sorted]. Qed.

Lemma sort_by_elem l x : x ∈ sort_by key l <-> x ∈ l.
Proof. by rewrite sort_by_perm. Qed.

Lemma sort_by_length l : length (sort_by key l) = length l.
Proof. by rewrite sort_by_perm. Qed.

(** A prefix of the sorted list holds keys no larger than the rest. *)
Lemma sort_by_take_le l n x y :
  x ∈ take n (sort_by key l) -> y ∈ drop n (sort_by key l) -> key x <= key y.
Proof.
  intros Hx Hy. pose proof (sort_by_sorted l) as Hs.
  rewrite <- (take_drop n (sort_by key l)) in Hs.
  eapply StronglySorted_app_1_elem_of in Hs; eauto.
Qed.

(** Elements with the same key keep their order. *)
Lemma sort_insert_filter k x l :
  filter (fun z => key z = k) (sort_insert key x l) = filter (fun z => key z = k) (x :: l).
Proof.
  induction l as [|y l IH]; [done|]. cbn [sort_insert].
  destruct (Z.leb_spec (key x) (key y)) as [|Hlt]; [done|].
  rewrite (filter_cons _ y), IH, !filter_cons. repeat case_decide; try done. lia.
Qed.

Lemma sort_by_stable k l :
  filter (fun z => key z = k) (sort_by key l) = filter (fun z => key z = k) l.
Proof.
  induction l as [|x l IH]; cbn [sort_by foldr]; [done|].
  rewrite sort_insert_filter, !filter_cons. unfold sort_by in IH. by rewrite IH.
Qed.
End sort_by.

#[export] Hint Resolve sort_by_perm sort_by_sorted sort_by_length : sorting.

(** ** Lemmas: lists *)
Lemma NoDup_fmap_fst_inj {A B} (l : list (A * B)) k v v' :
  NoDup (l.*1) -> (k, v) ∈ l -> (k, v') ∈ l -> v = v'.
Proof.
  intros Hnd H1 H2. induction l as [|[a b] l IH]; [set_solver|].
  cbn in Hnd. apply NoDup_cons in Hnd as [Hni Hnd].
  apply elem_of_cons in H1 as [H1|H1], H2 as [H2|H2]; simplify_eq; try done; [| |by apply IH];
    destruct Hni; apply list_elem_of_fmap; eexists (_, _); split; try eassumption; reflexivity.
Qed.

Lemma elem_of_rev {A} (l : list A) x : x ∈ rev l <-> x ∈ l.
Proof. by rewrite <- Permutation_rev. Qed.

Lemma NoDup_reversed {A} (l : list A) : NoDup l -> NoDup (rev l).
Proof. by rewrite <- Permutation_rev. Qed.

Lemma NoDup_fmap_inj {A B} (f : A -> B) (l : list A) x y :
  NoDup (f <$> l) -> x ∈ l -> y ∈ l -> f x = f y -> x = y.
Proof.
  intros Hnd Hx Hy Hf. induction l as [|z l IH]; [by apply elem_of_nil in Hx|].
  rewrite fmap_cons in Hnd. apply NoDup_cons in Hnd as [Hni Hnd].
  apply elem_of_cons in Hx as [->|Hx], Hy as [->|Hy]; [done|..|by apply IH];
    destruct Hni; apply list_elem_of_fmap; eauto.
Qed.

(** The one element of a list that fails a predicate fixes its prefix. *)
Lemma split_unique {A} (P : A -> Prop) (l1 l2 m1 m2 : list A) x y :
  Forall P l1 -> Forall P l2 -> ~ P y -> l1 ++ x :: l2 = m1 ++ y :: m2 -> m1 = l1 /\ y = x.
Proof.
  intros H1 H2 Hy. revert m1. induction H1 as [|z l1 Hz H1 IH]; intros [|w m1] Heq; simplify_eq/=; try done.
  - destruct Hy. rewrite Forall_forall in H2. apply H2. set_solver.
  - by destruct (IH m1) as [-> ->].
Qed.

Lemma filter_ext_in {A} (P Q : A -> Prop)
  `{!forall x, Decision (P x)} `{!forall x, Decision (Q x)} (l : list A) :
  (forall x, x ∈ l -> P x <-> Q x) -> filter P l = filter Q l.
Proof.
  induction l as [|x l IH]; intros Hpq; [done|]. rewrite !filter_cons.
  rewrite IH by (intros; apply Hpq; by right).
  pose proof (Hpq x (list_elem_of_here _ _)). repeat case_decide; naive_solver.
Qed.

Lemma filter_all {A} (P : A -> Prop) `{!forall x, Decision (P x)} (l : list A) :
  (forall x, x ∈ l -> P x) -> filter P l = l.
Proof.
  induction l as [|x l IH]; intros Hp; [done|].
  rewrite filter_cons_True by (apply Hp; left). rewrite IH; [done|]. intros y Hy. apply Hp. by right.
Qed.

Lemma length_filter_mono {A} (P Q : A -> Prop)
  `{!forall x, Decision (P x)} `{!forall x, Decision (Q x)} (l : list A) :
  (forall x, x ∈ l -> P x -> Q x) -> (length (filter P l) <= length (filter Q l))%nat.
Proof.
  induction l as [|x l IH]; intros Hpq; [done|]. rewrite !filter_cons.
  pose proof (Hpq x (list_elem_of_here _ _)).
  specialize (IH (fun y Hy => Hpq y (list_elem_of_further _ _ _ Hy))).
  repeat case_decide; cbn; try lia; naive_solver.
Qed.

Lemma length_filter_split {A} (P Q : A -> Prop)
  `{!forall x, Decision (P x)} `{!forall x, Decision (Q x)} (l : list A) :
  (length (filter P l) =
   length (filter (fun x => P x /\ Q x) l) + length (filter (fun x => P x /\ ~ Q x) l))%nat.
Proof.
  induction l as [|x l IH]; [done|]. rewrite !filter_cons.
  repeat case_decide; cbn; rewrite ?IH; cbn; try lia; naive_solver.
Qed.

(** ** Tactics *)

(** Case analysis on the [if]s and [match]es of the goal and hypotheses. *)
Ltac split_cases :=
  repeat (case_match; try done; simplify_eq/=).

(** Settles a closed decidable goal by evaluating its decision procedure. *)
Ltac by_computation :=
  match goal with |- ?P => refine (bool_decide_eq_true_1 P _); vm_compute; reflexivity end.

(** Reflect boolean connectives of the sources into propositions. *)
Ltac reflect_bool :=
  repeat match goal with
  | H : _ && _ = true |- _ => apply andb_prop in H as [? ?]
  | H : _ || _ = false |- _ => apply orb_false_elim in H as [? ?]
  | H : negb _ = true |- _ => apply negb_true_iff in H
  | H : negb _ = false |- _ => apply negb_false_iff in H
  | H : bool_decide _ = true |- _ => apply bool_decide_eq_true in H
  | H : bool_decide _ = false |- _ => apply bool_decide_eq_false in H
  | H : (_ <=? _) = true |- _ => apply Z.leb_le in H
  | H : (_ <=? _) = false |- _ => apply Z.leb_gt in H
  | H : (_ <? _) = true |- _ => apply Z.ltb_lt in H
  | H : (_ <? _) = false |- _ => apply Z.ltb_ge in H
  | H : (_ =? _) = true |- _ => apply Z.eqb_eq in H
  | H : (_ =? _) = false |- _ => apply Z.eqb_neq in H
  end.

Lemma length_filter_lt {A} (P Q : A -> Prop)
  `{!forall x, Decision (P x)} `{!forall x, Decision (Q x)} (l : list A) y :
  (forall x, x ∈ l -> P x -> Q x) -> y ∈ l -> Q y -> ~ P y ->
  (length (filter P l) < length (filter Q l))%nat.
Proof.
  induction l as [|x l IH]; intros Hpq Hy Hq Hp; [by apply elem_of_nil in Hy|].
  rewrite !filter_cons. pose proof (Hpq x (list_elem_of_here _ _)) as Hx.
  pose proof (length_filter_mono P Q l (fun z Hz => Hpq z (list_elem_of_further _ _ _ Hz))) as Hmono.
  apply elem_of_cons in Hy as [->|Hy].
  - rewrite decide_False, (decide_True (P := Q x)) by done. cbn. lia.
  - specialize (IH (fun z Hz => Hpq z (list_elem_of_further _ _ _ Hz)) Hy Hq Hp).
    repeat case_decide; cbn; try lia; naive_solver.
Qed.

(** ** Strings of fields separated by colons *)
Fixpoint has_colon (s : string) : bool :=
  match s with
  | EmptyString => false
  | String c s => bool_decide (c = ":"%char) || has_colon s
  end.

Fixpoint split_colon (s : string) : list string :=
  match s with
  | EmptyString => [""%string]
  | String c s =>
      if decide (c = ":"%char) then ""%string :: split_colon s
      else match split_colon s with
           | h :: t => String c h :: t
           | [] => [String c ""]
           end
  end.

Fixpoint join_colon (l : list string) : string :=
  match l with
  | [] => ""
  | [a] => a
  | a :: l => a ++ ":" ++ join_colon l
  end.

Definition colon_free (s : string) : Prop := has_colon s = false.

Lemma split_colon_free s : colon_free s -> split_colon s = [s].
Proof.
  unfold colon_free. induction s as [|c s IH]; cbn [has_colon split_colon]; intros Hf; [done|]. reflect_bool.
  rewrite decide_False by done. by rewrite IH.
Qed.

Lemma split_colon_cons a b : colon_free a -> split_colon (a ++ ":" ++ b) = a :: split_colon b.
Proof.
  unfold colon_free. induction a as [|c a IH]; intros Hf; [done|].
  change (String c a ++ ":" ++ b)%string with (String c (a ++ ":" ++ b)).
  cbn [has_colon split_colon] in *. reflect_bool.
  rewrite decide_False by done. rewrite IH by done. done.
Qed.

Lemma split_join_colon l : l <> [] -> Forall colon_free l -> split_colon (join_colon l) = l.
Proof.
  intros Hne Hf. induction Hf as [|a l Ha Hl IH]; [done|].
  destruct l as [|b l]; [by apply split_colon_free|].
  change (join_colon (a :: b :: l)) with (a ++ ":" ++ join_colon (b :: l))%string.
  by rewrite split_colon_cons, IH by done.
Qed.

Lemma join_colon_inj l l' :
  l <> [] -> l' <> [] -> Forall colon_free l -> Forall colon_free l' -> join_colon l = join_colon l' -> l = l'.
Proof. intros Hl Hl' Hf Hf' Heq. by rewrite <- (split_join_colon l), Heq, split_join_colon. Qed.

Lemma app_empty_r (s : string) : (s ++ "")%string = s.
Proof. induction s as [|c s IH]; [done|]. unfold String.append in *. cbn. by rewrite IH. Qed.

Lemma app_assoc_string (a b c : string) : ((a ++ b) ++ c)%string = (a ++ b ++ c)%string.
Proof. induction a as [|d a IH]; [done|]. unfold String.append in *. cbn. by rewrite IH. Qed.
