(* ===== verification/AsyncOp.v ===== *)
(** * Asynchronous operations

    An [async] function of the sources runs on shared state, may throw, and lets other
    tasks run whenever it awaits. [Op S A] is such a function on the state [S]; an [await]
    notes what is asked, lets the other tasks act, and takes the answer. The lemmas carry a
    relation on states, and an assertion on results, through whole operations. *)
From Stdlib Require Import Lia ZArith.
From stdpp Require Import base numbers relations strings list.
From S2P Require Import Prelude.

Definition Op (S A : Type) : Type := S -> S * result A.

#[export] Instance op_bind {S} : MBind (Op S) := fun A B k m s => match m s with (s, Ok a) => k a s | (s, Err e) => (s, Err e) end.
#[export] Instance op_ret {S} : MRet (Op S) := fun A a s => (s, Ok a).

Section operations.
Context {S : Type}.

Definition lift {A} (r : result A) : Op S A := fun s => (s, r).
Definition throw {A} (message : string) : Op S A := lift (Err message).
Definition modify (f : S -> S) : Op S unit := fun s => (f s, Ok tt).
Definition gets {A} (f : S -> A) : Op S A := fun s => (s, Ok (f s)).

(** [try { m } catch (e) { h(e) }] *)
Definition catch {A} (m : Op S A) (h : string -> Op S A) : Op S A := fun s =>
  match m s with (s, Ok a) => (s, Ok a) | (s, Err e) => h e s end.

(** [m.catch(() => undefined)] *)
Definition forgive (m : Op S unit) : Op S unit := catch m (fun _ => mret tt).

(** [for (const x of l) await f(x)] *)
Fixpoint for_each {X} (f : X -> Op S unit) (l : list X) : Op S unit :=
  match l with
  | [] => mret tt
  | x :: l => _ ← f x; for_each f l
  end.

(** What the other tasks do, one after the other. *)
Definition performed {Act} (act : Act -> S -> S) (l : list Act) (s : S) : S := fold_left (fun s a => act a s) l s.

(** [await q]: the question goes out, other tasks run, the answer comes. *)
Definition await {Q Act A} (note : Q -> S -> S) (act : Act -> S -> S) (meanwhile : S -> list Act) (q : Q) (answer : S -> result A) : Op S A :=
  fun s => (performed act (meanwhile s) (note q s), answer s).

(** ** Relations that every run stays in *)
Definition steps (R : relation S) {A} (m : Op S A) : Prop := forall s, R s (m s).1.

(** The operation keeps an assertion. *)
Definition keeps (P : S -> Prop) {A} (m : Op S A) : Prop := steps (fun s s' => P s -> P s') m.

(** From a state with [P] it leaves one with [Q], whatever it returns or throws. *)
Definition leads (P : S -> Prop) {A} (m : Op S A) (Q : result A -> S -> Prop) : Prop := forall s, P s -> Q (m s).2 (m s).1.

Section steps.
Context (R : relation S) `{!PreOrder R}.

Lemma steps_bind {A B} (m : Op S A) (k : A -> Op S B) : steps R m -> (forall a, steps R (k a)) -> steps R (m ≫= k).
Proof.
  intros Hm Hk s. specialize (Hm s). unfold mbind, op_bind. destruct (m s) as [s1 [a|e]]; [|done].
  transitivity s1; [done | apply Hk].
Qed.

(** The same from one state, keeping what the first part did. *)
Lemma steps_bind_at {A B} (m : Op S A) (k : A -> Op S B) s :
  R s (m s).1 -> (forall a s1, m s = (s1, Ok a) -> R s1 (k a s1).1) -> R s ((m ≫= k) s).1.
Proof.
  intros Hm Hk. unfold mbind, op_bind. destruct (m s) as [s1 [a|e]] eqn:Hs; [|done].
  transitivity s1; [done | by apply Hk].
Qed.

Lemma steps_ret {A} (a : A) : steps R (mret a).
Proof. intros s. reflexivity. Qed.

Lemma steps_lift {A} (r : result A) : steps R (lift r).
Proof. intros s. reflexivity. Qed.

Lemma steps_throw {A} e : steps R (throw e : Op S A).
Proof. apply steps_lift. Qed.

Lemma steps_gets {A} (f : S -> A) : steps R (gets f).
Proof. intros s. reflexivity. Qed.

Lemma steps_modify f : (forall s, R s (f s)) -> steps R (modify f).
Proof. intros Hf s. apply Hf. Qed.

Lemma steps_catch {A} (m : Op S A) h : steps R m -> (forall e, steps R (h e)) -> steps R (catch m h).
Proof.
  intros Hm Hh s. specialize (Hm s). unfold catch. destruct (m s) as [s1 [a|e]]; [done|]. transitivity s1; [done | apply Hh].
Qed.

Lemma steps_forgive (m : Op S unit) : steps R m -> steps R (forgive m).
Proof. intros Hm. apply steps_catch; [done|]. intros. apply steps_ret. Qed.

Lemma steps_for_each {X} (f : X -> Op S unit) l : (forall x, steps R (f x)) -> steps R (for_each f l).
Proof. intros Hf. induction l as [|x l IH]; [apply steps_ret | by apply steps_bind]. Qed.

Lemma steps_performed {Act} (act : Act -> S -> S) l s : (forall a s, a ∈ l -> R s (act a s)) -> R s (performed act l s).
Proof.
  revert s. induction l as [|a l IH]; intros s Ha; [reflexivity|].
  transitivity (act a s); [apply Ha; by left|]. apply IH. intros. apply Ha. by right.
Qed.

Lemma steps_await {Q Act A} note (act : Act -> S -> S) meanwhile (q : Q) (answer : S -> result A) :
  (forall s, R s (note q s)) -> (forall s0 a s, a ∈ meanwhile s0 -> R s (act a s)) -> steps R (await note act meanwhile q answer).
Proof. intros Hn Ha s. transitivity (note q s); [done|]. apply steps_performed. intros. by eapply Ha. Qed.
End steps.

#[export] Instance kept_preorder (P : S -> Prop) : PreOrder (fun s s' => P s -> P s').
Proof. split; [by intros s Hs|]. intros s1 s2 s3 H12 H23 H1. auto. Qed.

(** Continuations that agree where the first part ends make equal operations. *)
Lemma bind_agree {A B} (m : Op S A) (k1 k2 : A -> Op S B) s :
  (forall a s1, m s = (s1, Ok a) -> k1 a s1 = k2 a s1) -> (m ≫= k1) s = (m ≫= k2) s.
Proof. intros Hk. unfold mbind, op_bind. destruct (m s) as [s1 [a|e]] eqn:Hm; [by apply Hk | done]. Qed.

(** The same for assertions. *)
Section keeps.
Context (P : S -> Prop).

Lemma keeps_bind {A B} (m : Op S A) (k : A -> Op S B) : keeps P m -> (forall a, keeps P (k a)) -> keeps P (m ≫= k).
Proof. apply (steps_bind (fun s s' => P s -> P s')). Qed.

Lemma keeps_ret {A} (a : A) : keeps P (mret a).
Proof. apply (steps_ret (fun s s' => P s -> P s')). Qed.

Lemma keeps_lift {A} (r : result A) : keeps P (lift r).
Proof. apply (steps_lift (fun s s' => P s -> P s')). Qed.

Lemma keeps_modify f : (forall s, P s -> P (f s)) -> keeps P (modify f).
Proof. apply (steps_modify (fun s s' => P s -> P s')). Qed.

Lemma keeps_catch {A} (m : Op S A) h : keeps P m -> (forall e, keeps P (h e)) -> keeps P (catch m h).
Proof. apply (steps_catch (fun s s' => P s -> P s')). Qed.

Lemma keeps_for_each {X} (f : X -> Op S unit) l : (forall x, keeps P (f x)) -> keeps P (for_each f l).
Proof. apply (steps_for_each (fun s s' => P s -> P s')). Qed.

Lemma keeps_performed {Act} (act : Act -> S -> S) l s : (forall a s, P s -> P (act a s)) -> P s -> P (performed act l s).
Proof. intros Ha. apply (steps_performed (fun s s' => P s -> P s') act l). intros. by apply Ha. Qed.

Lemma keeps_await {Q Act A} note (act : Act -> S -> S) meanwhile (q : Q) (answer : S -> result A) :
  (forall s, P s -> P (note q s)) -> (forall a s, P s -> P (act a s)) -> keeps P (await note act meanwhile q answer).
Proof. intros Hn Ha. apply (steps_await (fun s s' => P s -> P s')); [done|]. intros _ a s _. apply Ha. Qed.
End keeps.

Lemma steps_mono (R R' : relation S) {A} (m : Op S A) : (forall s s', R s s' -> R' s s') -> steps R m -> steps R' m.
Proof. intros HR Hm s. apply HR, Hm. Qed.

(** ** Assertions on results *)
Section leads.
Implicit Types P : S -> Prop.

Lemma leads_bind {A B} P (m : Op S A) (k : A -> Op S B) (Q : result A -> S -> Prop) (Q' : result B -> S -> Prop) :
  leads P m Q -> (forall a, leads (Q (Ok a)) (k a) Q') -> (forall e s, Q (Err e) s -> Q' (Err e) s) -> leads P (m ≫= k) Q'.
Proof.
  intros Hm Hk He s Hs. specialize (Hm s Hs). unfold mbind, op_bind. destruct (m s) as [s1 [a|e]]; [by apply Hk | by apply He].
Qed.

Lemma leads_catch {A} P (m : Op S A) h (Q : result A -> S -> Prop) (Q' : result A -> S -> Prop) :
  leads P m Q -> (forall a s, Q (Ok a) s -> Q' (Ok a) s) -> (forall e, leads (Q (Err e)) (h e) Q') -> leads P (catch m h) Q'.
Proof.
  intros Hm Ha Hh s Hs. specialize (Hm s Hs). unfold catch. destruct (m s) as [s1 [a|e]]; [by apply Ha | by apply Hh].
Qed.

Lemma leads_weaken {A} P P' (m : Op S A) (Q Q' : result A -> S -> Prop) :
  leads P' m Q -> (forall s, P s -> P' s) -> (forall r s, Q r s -> Q' r s) -> leads P m Q'.
Proof. intros Hm HP HQ s Hs. apply HQ, Hm, HP, Hs. Qed.

Lemma leads_ret {A} P (a : A) (Q : result A -> S -> Prop) : (forall s, P s -> Q (Ok a) s) -> leads P (mret a) Q.
Proof. intros H s Hs. by apply H. Qed.

Lemma leads_lift {A} P (r : result A) (Q : result A -> S -> Prop) : (forall s, P s -> Q r s) -> leads P (lift r) Q.
Proof. intros H s Hs. by apply H. Qed.

Lemma leads_modify P f (Q : result unit -> S -> Prop) : (forall s, P s -> Q (Ok tt) (f s)) -> leads P (modify f) Q.
Proof. intros H s Hs. by apply H. Qed.

Lemma leads_keeps {A} P (m : Op S A) : keeps P m <-> leads P m (fun _ => P).
Proof. done. Qed.
End leads.
End operations.

Create HintDb steps.

(** Walk through an operation; the hints know its parts. *)
Ltac op_step :=
  lazymatch goal with
  | |- steps _ (mbind _ _) => apply steps_bind; [apply _ | | intros ?]
  | |- steps _ (mret _) => apply steps_ret, _
  | |- steps _ (lift _) => apply steps_lift, _
  | |- steps _ (throw _) => apply steps_throw, _
  | |- steps _ (gets _) => apply steps_gets, _
  | |- steps _ (modify _) => apply steps_modify; intros ?
  | |- steps _ (catch _ _) => apply steps_catch; [apply _ | | intros ?]
  | |- steps _ (forgive _) => apply steps_forgive; [apply _ |]
  | |- steps _ (for_each _ _) => apply steps_for_each; [apply _ | intros ?]
  | |- steps _ (if ?b then _ else _) => destruct b
  | |- steps _ (match ?x with _ => _ end) => destruct x
  | |- steps _ _ => solve [auto with steps]
  end.
Ltac op_steps := repeat op_step.
