(* ===== verification/JsonValue.v ===== *)
(** * JSON values

    What [JSON.parse] returns, and how the sources read untyped values. *)
From Stdlib Require Import ZArith.
From stdpp Require Import base numbers strings list.
From S2P Require Import Prelude.

Set Warnings "-register-all".

(** A number has a value here when it is an integer. *)
Inductive Json : Set :=
| jnull
| jbool (b : bool)
| jnumber (n : option Z)
| jstring (s : string)
| jarray (l : list Json)
| jobject (l : list (string * Json)).

(** [value.name]; no value for [undefined]. Reading a field of [null] throws. *)
Definition field (name : string) (v : Json) : result (option Json) :=
  match v with
  | jnull => Err "TypeError"
  | jobject l => Ok (assoc_get name l)
  | _ => Ok None
  end.

(** [typeof value === 'string' ? value : ''] *)
Definition stringValue (v : option Json) : string :=
  match v with Some (jstring s) => s | _ => ""%string end.

(** [typeof value === 'number' && Number.isInteger(value) ? value : undefined] *)
Definition numberValue (v : option Json) : option Z :=
  match v with Some (jnumber n) => n | _ => None end.

(** [value === s] *)
Definition is_text (s : string) (v : option Json) : bool :=
  match v with Some (jstring x) => bool_decide (x = s) | _ => false end.
