(* ===== verification/JsString.v ===== *)
(** * JavaScript strings

    Trimming, searching and cutting of strings, as several sources do it. A character
    stands for a code point below 256. *)
From Stdlib Require Import Ascii.
From stdpp Require Import base strings list.
From S2P Require Import Prelude.

(** ** [String.prototype.trim]

    A character stands for a code point below 256; these are the ECMAScript white space
    and line terminators among them. *)
Definition js_space (c : ascii) : bool :=
  let n := N_of_ascii c in ((9 <=? n)%N && (n <=? 13)%N) || (n =? 32)%N || (n =? 160)%N.

Fixpoint trim_start (s : string) : string :=
  match s with
  | String c rest => if js_space c then trim_start rest else s
  | EmptyString => s
  end.

Fixpoint trim_end (s : string) : string :=
  match s with
  | String c rest =>
      let rest := trim_end rest in
      if js_space c && negb (truthy rest) then EmptyString else String c rest
  | EmptyString => s
  end.

Definition trim (s : string) : string := trim_end (trim_start s).

(** ** Searching and cutting *)

(** [s.includes(sub)] *)
Fixpoint contains (sub s : string) : bool :=
  starts_with sub s || match s with EmptyString => false | String _ s => contains sub s end.

(** The rest of [s] after its first [n] characters. *)
Fixpoint skip (n : nat) (s : string) : string :=
  match n, s with S n, String _ s => skip n s | _, _ => s end.

(** [url.replace(/\/+$/, '')] *)
Fixpoint strip_slashes (s : string) : string :=
  match s with
  | String c rest =>
      let rest := strip_slashes rest in
      if bool_decide (c = "/"%char) && negb (truthy rest) then EmptyString else String c rest
  | EmptyString => EmptyString
  end.

(** ** Separators *)
Fixpoint no_char (c : ascii) (s : string) : bool :=
  match s with EmptyString => true | String x rest => negb (Ascii.eqb x c) && no_char c rest end.

(** ** Lemmas *)

(** A text without the separator ends at the first separator. *)
Lemma char_split c s s' r r' : no_char c s = true -> no_char c s' = true -> (s ++ String c r = s' ++ String c r')%string -> s = s' /\ r = r'.
Proof.
  revert s'. induction s as [|x s IH]; intros [|x' s'] Hs Hs' Heq; unfold String.append in Heq; fold String.append in Heq.
  - by injection Heq as ->.
  - injection Heq as <- _. cbn in Hs'. by rewrite Ascii.eqb_refl in Hs'.
  - injection Heq as -> _. cbn in Hs. by rewrite Ascii.eqb_refl in Hs.
  - injection Heq as <- Heq. cbn in Hs, Hs'. apply andb_true_iff in Hs as [_ Hs]. apply andb_true_iff in Hs' as [_ Hs']. destruct (IH s') as [-> ->]; done.
Qed.

Lemma trim_end_idem s : trim_end (trim_end s) = trim_end s.
Proof.
  induction s as [|c s IH]; [done|]. cbn.
  destruct (js_space c && negb (truthy (trim_end s))) eqn:Hc; [done|]. cbn. by rewrite IH, Hc.
Qed.

Lemma trim_start_head s : trim_start s = EmptyString \/ exists c r, trim_start s = String c r /\ js_space c = false.
Proof. induction s as [|c s IH]; [by left|]. cbn. destruct (js_space c) eqn:Hc; [done|]. right. eauto. Qed.

Lemma trim_start_id s : (forall c r, s = String c r -> js_space c = false) -> trim_start s = s.
Proof. destruct s as [|c s]; [done|]. intros Hs. cbn. by rewrite (Hs c s eq_refl). Qed.

Lemma trim_idem s : trim (trim s) = trim s.
Proof.
  unfold trim. rewrite (trim_start_id (trim_end (trim_start s))); [apply trim_end_idem|].
  intros c r. destruct (trim_start_head s) as [->|(c' & r' & -> & Hc)]; [done|]. cbn. rewrite Hc. cbn. by intros [= <- _].
Qed.

Lemma strip_idem s : strip_slashes (strip_slashes s) = strip_slashes s.
Proof.
  induction s as [|c s IH]; [done|]. cbn.
  destruct (bool_decide (c = "/"%char) && negb (truthy (strip_slashes s))) eqn:Hc; [done|]. cbn. by rewrite IH, Hc.
Qed.
