(* ===== verification/JsonText.v ===== *)
(** * JSON texts of flat arrays

    [JSON.stringify] of arrays of strings and integers, which the sources use as map keys.
    Strings are their UTF-8 bytes; bytes above ASCII stand for themselves, as their
    characters do. The main fact is that different arrays have different texts. *)
From Stdlib Require Import Ascii Lia ZArith.
From stdpp Require Import base numbers strings list pretty.
From S2P Require Import Prelude.
#[local] Open Scope string_scope.

Definition quote_char : ascii := ascii_of_nat 34.
Definition hex_digit (n : nat) : ascii := ascii_of_nat (if decide (n < 10)%nat then 48 + n else 87 + n).

(** The [QuoteJSONString] of ECMAScript on one character. *)
Definition json_escape (c : ascii) : string :=
  let n := nat_of_ascii c in
  if decide (n = 8)%nat then "\b" else if decide (n = 9)%nat then "\t" else if decide (n = 10)%nat then "\n"
  else if decide (n = 12)%nat then "\f" else if decide (n = 13)%nat then "\r"
  else if decide (n = 34)%nat then String "\" (String quote_char "")
  else if decide (n = 92)%nat then "\\"
  else if decide (n < 32)%nat then "\u00" ++ String (hex_digit (Nat.div n 16)) (String (hex_digit (Nat.modulo n 16)) "")
  else String c "".

Fixpoint json_escapes (s : string) : string :=
  match s with EmptyString => "" | String c s => json_escape c ++ json_escapes s end.

Definition json_string (s : string) : string := String quote_char (json_escapes s ++ String quote_char "").

Inductive JsonItem : Set := json_text (s : string) | json_int (z : Z).

Definition json_item (i : JsonItem) : string := match i with json_text s => json_string s | json_int z => pretty z end.

Fixpoint json_items (l : list JsonItem) : string :=
  match l with
  | [] => ""
  | [i] => json_item i
  | i :: l => json_item i ++ "," ++ json_items l
  end.

Definition json_array (l : list JsonItem) : string := "[" ++ json_items l ++ "]".

(** ** Reading back *)
Definition unhex (c : ascii) : nat := let n := nat_of_ascii c in if decide (n < 58)%nat then n - 48 else n - 87.

(** The first character that a text of escapes stands for, and the rest. *)
Definition read_escape (s : string) : option (ascii * string) :=
  match s with
  | String c (String d s') =>
      if decide (c = "\"%char) then
        match nat_of_ascii d with
        | 98 => Some (ascii_of_nat 8, s') | 116 => Some (ascii_of_nat 9, s') | 110 => Some (ascii_of_nat 10, s')
        | 102 => Some (ascii_of_nat 12, s') | 114 => Some (ascii_of_nat 13, s')
        | 117 => match s' with
                 | String _ (String _ (String a (String b s'))) => Some (ascii_of_nat (16 * unhex a + unhex b), s')
                 | _ => None
                 end
        | _ => Some (d, s')
        end
      else Some (c, String d s')
  | String c s' => Some (c, s')
  | EmptyString => None
  end%nat.

Lemma read_escape_of c s : read_escape (json_escape c ++ s) = Some (c, s).
Proof. destruct c as [[] [] [] [] [] [] [] []]; try reflexivity; destruct s; reflexivity. Qed.

(** An escape does not start with the quote that ends the string. *)
Lemma escape_not_quote c s s' : json_escape c ++ s <> String quote_char s'.
Proof. destruct c as [[] [] [] [] [] [] [] []]; discriminate. Qed.

Lemma json_escapes_inj s1 s2 r1 r2 :
  json_escapes s1 ++ String quote_char r1 = json_escapes s2 ++ String quote_char r2 -> s1 = s2 /\ r1 = r2.
Proof.
  revert s2. induction s1 as [|c s1 IH]; intros [|d s2]; cbn [json_escapes]; rewrite ?app_assoc_string; intros He.
  - by injection He as ->.
  - symmetry in He. by apply escape_not_quote in He.
  - by apply escape_not_quote in He.
  - apply (f_equal read_escape) in He. rewrite !read_escape_of in He. injection He as -> He. by apply IH in He as [-> ->].
Qed.

(** A text that none of the characters [c] interrupts. *)
Fixpoint free_of (c : ascii) (s : string) : Prop := match s with EmptyString => True | String d s => d <> c /\ free_of c s end.

Lemma free_of_cut c s1 s2 r1 r2 : free_of c s1 -> free_of c s2 -> s1 ++ String c r1 = s2 ++ String c r2 -> s1 = s2 /\ r1 = r2.
Proof.
  revert s2. induction s1 as [|d s1 IH]; intros [|d2 s2] Hs1 Hs2 He.
  - by injection He as ->.
  - injection He as -> _. by destruct Hs2 as [[] _].
  - injection He as -> _. by destruct Hs1 as [[] _].
  - injection He as -> He. destruct Hs1 as [_ Hs1], Hs2 as [_ Hs2]. by destruct (IH s2 Hs1 Hs2 He) as [-> ->].
Qed.

Definition not_digit (c : ascii) : Prop := forall n, pretty_N_char n <> c.

Lemma pretty_N_go_free c x s : not_digit c -> free_of c s -> free_of c (pretty_N_go x s).
Proof.
  intros Hc. revert s. induction (N.lt_wf_0 x) as [x _ IH]; intros s Hs.
  destruct (decide (x = 0)%N) as [->|Hx]; [by rewrite pretty_N_go_0|].
  rewrite pretty_N_go_step by lia. apply IH; [by apply N.div_lt; lia | by split].
Qed.

Lemma pretty_N_free c (n : N) : not_digit c -> free_of c (pretty n).
Proof.
  intros Hc. unfold pretty, pretty_N. destruct (decide (n = 0)%N); [split; [by apply (Hc 0%N) | done] | by apply pretty_N_go_free].
Qed.

Lemma pretty_Z_free c (z : Z) : not_digit c -> c <> "-"%char -> free_of c (pretty z).
Proof.
  intros Hc Hd. destruct z as [|p|p]; [by apply (pretty_N_free c 0) | by apply (pretty_N_free c (N.pos p))|].
  split; [done | by apply (pretty_N_free c (N.pos p))].
Qed.

Lemma comma_not_digit : not_digit ","%char.
Proof. intros n Hn. unfold pretty_N_char in Hn. by repeat (discriminate || case_match). Qed.

(** ** The text of an array determines its items *)
Lemma json_string_cut s1 s2 r1 r2 : json_string s1 ++ r1 = json_string s2 ++ r2 -> s1 = s2 /\ r1 = r2.
Proof.
  unfold json_string. intros He. injection He as He. rewrite !app_assoc_string in He. by apply json_escapes_inj in He.
Qed.

Lemma pretty_Z_cut (z1 z2 : Z) r1 r2 : pretty z1 ++ String "," r1 = pretty z2 ++ String "," r2 -> z1 = z2 /\ r1 = r2.
Proof.
  intros He. destruct (free_of_cut "," (pretty z1) (pretty z2) r1 r2) as [Hz ->]; try done;
    try (apply pretty_Z_free; [apply comma_not_digit | done]).
  by apply (inj pretty) in Hz as ->.
Qed.

Lemma string_tail c s1 s2 : String c "" ++ s1 = String c "" ++ s2 -> s1 = s2.
Proof. intros He. by injection He. Qed.

(** An array of two strings, an integer and a string. *)
Lemma json_key_inj a1 b1 n1 c1 a2 b2 n2 c2 :
  json_array [json_text a1; json_text b1; json_int n1; json_text c1] = json_array [json_text a2; json_text b2; json_int n2; json_text c2] ->
  a1 = a2 /\ b1 = b2 /\ n1 = n2 /\ c1 = c2.
Proof.
  unfold json_array. cbn [json_items json_item]. rewrite !app_assoc_string. intros He. apply string_tail in He.
  apply json_string_cut in He as [-> He]. apply string_tail in He.
  apply json_string_cut in He as [-> He]. apply string_tail in He.
  apply pretty_Z_cut in He as [-> He].
  by apply json_string_cut in He as [-> _].
Qed.
