(* ===== verification/JsInt.v ===== *)
(** * 32-bit integers and bytes of JavaScript

    The bitwise operators of ECMAScript convert their operands to 32-bit integers; [+],
    [-] and [*] on the safe integers the sources use are exact, so numbers are [Z] and
    only the bitwise operators wrap. Also the big-endian bit strings that relate bytes,
    32-bit words and the symbols of text encodings. *)
From stdpp Require Import base numbers list.
From Stdlib Require Import Lia ZArith Btauto.
From S2P Require Import Prelude.

(** ** Operators *)
Definition toUint32 (x : Z) : Z := x mod 2 ^ 32.
Definition toInt32 (x : Z) : Z := let u := x mod 2 ^ 32 in if u <? 2 ^ 31 then u else u - 2 ^ 32.

Definition js_and (a b : Z) : Z := Z.land (toInt32 a) (toInt32 b).
Definition js_or (a b : Z) : Z := Z.lor (toInt32 a) (toInt32 b).
Definition js_xor (a b : Z) : Z := Z.lxor (toInt32 a) (toInt32 b).
Definition js_not (a : Z) : Z := Z.lnot (toInt32 a).
Definition js_shl (a n : Z) : Z := toInt32 (Z.shiftl (toInt32 a) (n mod 32)).
Definition js_ushr (a n : Z) : Z := Z.shiftr (toUint32 a) (n mod 32).

Declare Scope js_scope.
Delimit Scope js_scope with js.
Notation "a & b" := (js_and a b) (at level 41, left associativity) : js_scope.
Notation "a ^^ b" := (js_xor a b) (at level 42, left associativity) : js_scope.
Notation "a 'or' b" := (js_or a b) (at level 43, left associativity) : js_scope.
Notation "a << b" := (js_shl a b) (at level 36, left associativity) : js_scope.
Notation "a >>> b" := (js_ushr a b) (at level 36, left associativity) : js_scope.

Create Rewrite HintDb uint32.

Lemma toUint32_range x : 0 <= toUint32 x < 2 ^ 32.
Proof. apply Z.mod_pos_bound. lia. Qed.

Lemma toUint32_small x : 0 <= x < 2 ^ 32 -> toUint32 x = x.
Proof. apply Z.mod_small. Qed.

Lemma toInt32_uint x : toUint32 (toInt32 x) = toUint32 x.
Proof.
  unfold toUint32, toInt32. cbv zeta. destruct (_ <? _).
  - apply Z.mod_mod. lia.
  - rewrite Zminus_mod, Z.mod_same, Z.sub_0_r, !Z.mod_mod by lia. done.
Qed.

Lemma toInt32_small x : 0 <= x < 2 ^ 31 -> toInt32 x = x.
Proof. intros H. unfold toInt32. rewrite Z.mod_small by lia. cbv zeta. rewrite (proj2 (Z.ltb_lt _ _)); lia. Qed.

Lemma uint_ones x : toUint32 x = Z.land x (Z.ones 32).
Proof. unfold toUint32. by rewrite Z.land_ones by lia. Qed.

Lemma uint_and a b : toUint32 (js_and a b) = Z.land (toUint32 a) (toUint32 b).
Proof.
  unfold js_and. rewrite <- (toInt32_uint a), <- (toInt32_uint b), !uint_ones.
  apply Z.bits_inj'. intros n Hn. rewrite !Z.land_spec. btauto.
Qed.

Lemma uint_or a b : toUint32 (js_or a b) = Z.lor (toUint32 a) (toUint32 b).
Proof.
  unfold js_or. rewrite <- (toInt32_uint a), <- (toInt32_uint b), !uint_ones.
  apply Z.bits_inj'. intros n Hn. rewrite !Z.land_spec, !Z.lor_spec, !Z.land_spec. btauto.
Qed.

Lemma uint_xor a b : toUint32 (js_xor a b) = Z.lxor (toUint32 a) (toUint32 b).
Proof.
  unfold js_xor. rewrite <- (toInt32_uint a), <- (toInt32_uint b), !uint_ones.
  apply Z.bits_inj'. intros n Hn. rewrite !Z.land_spec, !Z.lxor_spec, !Z.land_spec. btauto.
Qed.

Lemma uint_not a : toUint32 (js_not a) = Z.lxor (toUint32 a) (Z.ones 32).
Proof.
  unfold js_not. rewrite <- (toInt32_uint a), !uint_ones.
  apply Z.bits_inj'. intros n Hn. rewrite Z.land_spec, Z.lxor_spec, Z.land_spec, Z.lnot_spec by lia. btauto.
Qed.

Lemma uint_ushr a n : toUint32 (js_ushr a n) = Z.shiftr (toUint32 a) (n mod 32).
Proof.
  unfold js_ushr. apply toUint32_small. pose proof (toUint32_range a).
  pose proof (Z.mod_pos_bound n 32 ltac:(lia)). rewrite Z.shiftr_div_pow2 by lia.
  assert (1 <= 2 ^ (n mod 32)) by (apply (Z.pow_le_mono_r 2 0); lia).
  split; [apply Z.div_pos; lia|]. apply (Z.le_lt_trans _ (toUint32 a)); [|lia].
  apply Z.div_le_upper_bound; nia.
Qed.

Lemma uint_shl a n : toUint32 (js_shl a n) = toUint32 (Z.shiftl (toUint32 a) (n mod 32)).
Proof.
  unfold js_shl. rewrite toInt32_uint. pose proof (Z.mod_pos_bound n 32 ltac:(lia)).
  rewrite !Z.shiftl_mul_pow2 by lia. rewrite <- (toInt32_uint a). unfold toUint32 at 2 3.
  unfold toUint32. by rewrite Z.mul_mod_idemp_l by lia.
Qed.

Lemma uint_add_l a b : toUint32 (toUint32 a + b) = toUint32 (a + b).
Proof. unfold toUint32. by rewrite Z.add_mod_idemp_l by lia. Qed.

Lemma uint_add_r a b : toUint32 (a + toUint32 b) = toUint32 (a + b).
Proof. unfold toUint32. by rewrite Z.add_mod_idemp_r by lia. Qed.

Lemma uint_idem a : toUint32 (toUint32 a) = toUint32 a.
Proof. apply toUint32_small, toUint32_range. Qed.

#[export] Hint Rewrite uint_and uint_or uint_xor uint_not uint_ushr uint_shl uint_idem toInt32_uint : uint32.

(** ** Bit strings *)

(** The [n] low bits of [z], the highest first. *)
Fixpoint to_bits (n : nat) (z : Z) : list bool :=
  match n with
  | O => []
  | S n => Z.testbit z (Z.of_nat n) :: to_bits n z
  end.

Fixpoint of_bits_acc (acc : Z) (l : list bool) : Z :=
  match l with
  | [] => acc
  | b :: l => of_bits_acc (2 * acc + Z.b2z b) l
  end.

Definition of_bits (l : list bool) : Z := of_bits_acc 0 l.

Lemma length_to_bits n z : length (to_bits n z) = n.
Proof. induction n; cbn; congruence. Qed.

Lemma to_bits_mod n m z : (n <= m)%nat -> to_bits n (z mod 2 ^ Z.of_nat m) = to_bits n z.
Proof.
  induction n as [|n IH]; intros Hle; cbn; [done|]. rewrite IH by lia. f_equal.
  rewrite Z.mod_pow2_bits_low by lia. done.
Qed.

Lemma testbit_above m b i : 0 <= m -> 0 <= b < 2 ^ m -> m <= i -> Z.testbit b i = false.
Proof. intros Hm Hb Hi. rewrite <- (Z.mod_small b (2 ^ m)) by done. by apply Z.mod_pow2_bits_high. Qed.

(** Concatenation is shifting. *)
Lemma to_bits_app n m a b :
  0 <= b < 2 ^ Z.of_nat m -> to_bits (n + m) (Z.lor (Z.shiftl a (Z.of_nat m)) b) = to_bits n a ++ to_bits m b.
Proof.
  intros Hb. induction n as [|n IH]; cbn [Nat.add to_bits app].
  - assert (Hgen : forall k, (k <= m)%nat -> to_bits k (Z.lor (Z.shiftl a (Z.of_nat m)) b) = to_bits k b); [|by apply Hgen].
    induction k as [|k IHk]; intros Hk; cbn; [done|]. rewrite IHk by lia. f_equal.
    rewrite Z.lor_spec, Z.shiftl_spec_low by lia. done.
  - rewrite IH. f_equal. rewrite Z.lor_spec, Z.shiftl_spec by lia.
    rewrite (testbit_above (Z.of_nat m) b) by lia.
    rewrite orb_false_r. f_equal. lia.
Qed.

(** The high bits of a number. *)
Lemma to_bits_split n m z : to_bits (n + m) z = to_bits n (Z.shiftr z (Z.of_nat m)) ++ to_bits m z.
Proof.
  induction n as [|n IH]; cbn [Nat.add to_bits app]; [done|]. rewrite IH. f_equal.
  rewrite Z.shiftr_spec by lia. f_equal. lia.
Qed.

Lemma of_bits_acc_spec acc l : of_bits_acc acc l = acc * 2 ^ Z.of_nat (length l) + of_bits l.
Proof.
  unfold of_bits. revert acc. induction l as [|b l IH]; intros acc; cbn [of_bits_acc length]; [lia|].
  rewrite IH, (IH (2 * 0 + Z.b2z b)). rewrite Nat2Z.inj_succ, Z.pow_succ_r by lia. lia.
Qed.

Lemma of_to_bits n z : 0 <= z < 2 ^ Z.of_nat n -> of_bits (to_bits n z) = z.
Proof.
  revert z. induction n as [|n IH]; intros z Hz; [cbn in *; lia|].
  cbn [to_bits]. unfold of_bits. cbn [of_bits_acc]. rewrite of_bits_acc_spec, length_to_bits.
  rewrite <- (to_bits_mod n n z) by lia.
  rewrite IH by (apply Z.mod_pos_bound; lia).
  rewrite Nat2Z.inj_succ, Z.pow_succ_r in Hz by lia.
  assert (Hd : z / 2 ^ Z.of_nat n = 0 \/ z / 2 ^ Z.of_nat n = 1).
  { assert (0 <= z / 2 ^ Z.of_nat n < 2) by (split; [apply Z.div_pos; lia | apply Z.div_lt_upper_bound; lia]). lia. }
  rewrite Z.testbit_spec' by lia.
  pose proof (Z.div_mod z (2 ^ Z.of_nat n) ltac:(lia)). destruct Hd as [Hd|Hd]; rewrite Hd in *;
    [change (0 mod 2) with 0 | change (1 mod 2) with 1]; lia.
Qed.

(** ** The operators on small numbers *)
Section small.
Implicit Types a b n : Z.

Lemma js_shl_small a n : 0 <= a -> 0 <= n < 32 -> a * 2 ^ n < 2 ^ 31 -> js_shl a n = Z.shiftl a n.
Proof.
  intros Ha Hn Hs. assert (1 <= 2 ^ n) by (apply (Z.pow_le_mono_r 2 0); lia).
  unfold js_shl. rewrite (Z.mod_small n) by lia. rewrite (toInt32_small a) by nia.
  apply toInt32_small. rewrite Z.shiftl_mul_pow2 by lia. nia.
Qed.

Lemma js_or_small a b : 0 <= a < 2 ^ 31 -> 0 <= b < 2 ^ 31 -> js_or a b = Z.lor a b.
Proof. intros. unfold js_or. by rewrite !toInt32_small. Qed.

Lemma js_and_small a b : 0 <= a < 2 ^ 31 -> 0 <= b < 2 ^ 31 -> js_and a b = Z.land a b.
Proof. intros. unfold js_and. by rewrite !toInt32_small. Qed.

Lemma js_ushr_small a n : 0 <= a < 2 ^ 32 -> 0 <= n < 32 -> js_ushr a n = Z.shiftr a n.
Proof. intros. unfold js_ushr. by rewrite toUint32_small, Z.mod_small. Qed.

(** [(1 << n) - 1] masks the low [n] bits. *)
Lemma js_mask a n : 0 <= a < 2 ^ 31 -> 0 <= n < 31 -> js_and a (js_shl 1 n - 1) = a mod 2 ^ n.
Proof.
  intros Ha Hn. assert (2 ^ n < 2 ^ 31) by (apply Z.pow_lt_mono_r; lia).
  assert (1 <= 2 ^ n) by (apply (Z.pow_le_mono_r 2 0); lia).
  rewrite js_shl_small by lia. rewrite Z.shiftl_1_l. rewrite js_and_small by lia.
  rewrite <- Z.land_ones by lia. f_equal. rewrite Z.ones_equiv. lia.
Qed.

Lemma shiftl_lor_range a b k m :
  0 <= k -> 0 <= m -> 0 <= a < 2 ^ k -> 0 <= b < 2 ^ m -> 0 <= Z.lor (Z.shiftl a m) b < 2 ^ (k + m).
Proof.
  intros Hk Hm Ha Hb.
  assert (Heq : Z.lor (Z.shiftl a m) b = a * 2 ^ m + b).
  { rewrite <- Z.shiftl_mul_pow2 by lia. pose proof (Z.add_lor_land (Z.shiftl a m) b) as Hl.
    assert (H0 : Z.land (Z.shiftl a m) b = 0); [|lia]. apply Z.bits_inj'. intros i Hi.
    rewrite Z.land_spec, Z.bits_0. destruct (Z.lt_ge_cases i m); [by rewrite Z.shiftl_spec_low|].
    rewrite (testbit_above m b i) by lia. apply andb_false_r. }
  rewrite Heq, Z.pow_add_r by lia. nia.
Qed.
End small.
