(* ===== verification/TextCodec.v ===== *)
(** * Text encodings of binary payloads

    Models [packages/schema/src/base32.ts] and the base64url functions of
    [packages/schema/src/link.ts]. A text is a list of characters, bytes are numbers below
    256. The base32 loops keep the source's 32-bit operators; [btoa] and [atob] of the
    platform are modelled after the HTML standard. *)
From Stdlib Require Import Ascii Lia ZArith.
From stdpp Require Import base numbers strings list.
From S2P Require Import Prelude JsInt.

Abbreviation text := (list ascii).
Definition T (s : string) : text := String.list_ascii_of_string s.

(** [trim]: white space of the characters below 256. *)
Definition js_space (c : ascii) : bool :=
  let n := N_of_ascii c in ((9 <=? n) && (n <=? 13) || (n =? 32) || (n =? 160))%N.

Fixpoint trim_start (t : text) : text :=
  match t with c :: r => if js_space c then trim_start r else t | [] => [] end.

Definition trim (t : text) : text := rev (trim_start (rev (trim_start t))).

Definition is_byte (b : Z) : Prop := 0 <= b < 256.

(** ** Base32 *)
Definition alphabet : text := T "ABCDEFGHIJKLMNOPQRSTUVWXYZ234567".

(** [alphabet[i]]; the indices the sources form are in range. *)
Definition alphabet_at (i : Z) : ascii := nth (Z.to_nat i) alphabet "?"%char.

(** [alphabet.indexOf(c)] *)
Fixpoint index_of (c : ascii) (l : text) (i : Z) : Z :=
  match l with
  | [] => -1
  | c' :: l => if Ascii.eqb c c' then i else index_of c l (i + 1)
  end.

(** The inner [while] loop; each turn takes five bits, so [Z.to_nat bits] turns are enough. *)
Fixpoint emit_symbols (fuel : nat) (buffer bits : Z) (result : text) : text * Z :=
  match fuel with
  | O => (result, bits)
  | S fuel =>
      if 5 <=? bits then
        let bits := bits - 5 in
        emit_symbols fuel buffer bits (result ++ [alphabet_at ((buffer >>> bits) & 31)%js])
      else (result, bits)
  end.

Definition base32_byte (st : text * Z * Z) (byte : Z) : text * Z * Z :=
  let '(result, buffer, bits) := st in
  let buffer := ((buffer << 8) or byte)%js in
  let bits := bits + 8 in
  let (result, bits) := emit_symbols (Z.to_nat bits) buffer bits result in
  (result, (buffer & ((1 << bits) - 1))%js, bits).

Definition base32 (bytes : list Z) : text :=
  let '(result, buffer, bits) := fold_left base32_byte bytes ([], 0, 0) in
  if bits =? 0 then result else result ++ [alphabet_at ((buffer << (5 - bits)) & 31)%js].

Definition unbase32_char (st : list Z * Z * Z) (character : ascii) : list Z * Z * Z :=
  let '(bytes, buffer, bits) := st in
  let buffer := ((buffer << 5) or index_of character alphabet 0)%js in
  let bits := bits + 5 in
  let (bytes, bits) :=
    if 8 <=? bits then (bytes ++ [((buffer >>> (bits - 8)) & 255)%js], bits - 8) else (bytes, bits) in
  (bytes, (buffer & ((1 << bits) - 1))%js, bits).

(** [/^[A-Z2-7]+$/] *)
Definition base32_char (c : ascii) : bool :=
  let n := N_of_ascii c in ((65 <=? n) && (n <=? 90) || (50 <=? n) && (n <=? 55))%N.

Definition unbase32 (value : text) : result (list Z) :=
  if bool_decide (value = []) || negb (forallb base32_char value) then Err "INVALID_LINK"
  else
    let '(bytes, _, _) := fold_left unbase32_char value ([], 0, 0) in
    if decide (base32 bytes <> value) then Err "INVALID_LINK" else Ok bytes.

(** ** The symbols of a text *)
Definition symbol_bits (syms : list Z) : list bool := concat (to_bits 5 <$> syms).
Definition byte_bits (bytes : list Z) : list bool := concat (to_bits 8 <$> bytes).
Definition is_symbol (s : Z) : Prop := 0 <= s < 32.

Lemma alphabet_index s : is_symbol s -> index_of (alphabet_at s) alphabet 0 = s /\ base32_char (alphabet_at s) = true.
Proof.
  intros Hs.
  assert (Hall : Forall (fun s => index_of (alphabet_at s) alphabet 0 = s /\ base32_char (alphabet_at s) = true) (seqZ 0 32)).
  { by_computation. }
  rewrite Forall_forall in Hall. apply Hall, elem_of_seqZ. unfold is_symbol in Hs. lia.
Qed.

Lemma bits_app_byte l l' : byte_bits (l ++ l') = byte_bits l ++ byte_bits l'.
Proof. unfold byte_bits. by rewrite fmap_app, concat_app. Qed.
Lemma bits_app_symbol l l' : symbol_bits (l ++ l') = symbol_bits l ++ symbol_bits l'.
Proof. unfold symbol_bits. by rewrite fmap_app, concat_app. Qed.
Lemma symbol_bits_1 s : symbol_bits [s] = to_bits 5 s.
Proof. unfold symbol_bits. cbn [fmap list_fmap concat]. by rewrite app_nil_r. Qed.
Lemma byte_bits_1 s : byte_bits [s] = to_bits 8 s.
Proof. unfold byte_bits. cbn [fmap list_fmap concat]. by rewrite app_nil_r. Qed.

Lemma length_byte_bits l : length (byte_bits l) = (8 * length l)%nat.
Proof. induction l as [|b l IH]; [done|]. change (byte_bits (b :: l)) with (to_bits 8 b ++ byte_bits l). rewrite length_app, IH, length_to_bits. cbn. lia. Qed.

Lemma byte_bits_inj l l' : Forall is_byte l -> Forall is_byte l' -> byte_bits l = byte_bits l' -> l = l'.
Proof.
  intros Hl. revert l'. induction Hl as [|b l Hb Hl IH]; intros l' Hl' Heq.
  - destruct l' as [|b' l']; [done|]. apply (f_equal length) in Heq. rewrite !length_byte_bits in Heq. cbn in Heq. lia.
  - destruct Hl' as [|b' l' Hb' Hl']; [apply (f_equal length) in Heq; rewrite !length_byte_bits in Heq; cbn in Heq; lia|].
    change (byte_bits (b :: l)) with (to_bits 8 b ++ byte_bits l) in Heq.
    change (byte_bits (b' :: l')) with (to_bits 8 b' ++ byte_bits l') in Heq.
    apply app_inj_1 in Heq as [H1 H2]; [|by rewrite !length_to_bits].
    apply (f_equal of_bits) in H1. rewrite !of_to_bits in H1 by done. subst. f_equal. by apply IH.
Qed.

(** ** The encoder *)
Lemma emit_spec fuel buffer k res :
  (k <= fuel)%nat -> (k < 14)%nat -> 0 <= buffer < 2 ^ 14 ->
  exists syms k', emit_symbols fuel buffer (Z.of_nat k) res = (res ++ (alphabet_at <$> syms), Z.of_nat k')
    /\ Forall is_symbol syms /\ (k' < 5)%nat /\ (k' <= k)%nat /\ to_bits k buffer = symbol_bits syms ++ to_bits k' buffer.
Proof.
  revert k res. induction fuel as [|fuel IH]; intros k res Hf Hk Hb.
  - assert (k = 0%nat) as -> by lia. exists [], 0%nat. cbn. rewrite app_nil_r. repeat split; try lia. constructor.
  - cbn [emit_symbols]. destruct (Z.leb_spec 5 (Z.of_nat k)) as [Hle|Hlt].
    + replace (Z.of_nat k - 5) with (Z.of_nat (k - 5)) by lia.
      set (s := ((buffer >>> Z.of_nat (k - 5)) & 31)%js).
      assert (Hs : s = Z.shiftr buffer (Z.of_nat (k - 5)) mod 2 ^ 5).
      { subst s. rewrite js_ushr_small by lia. change 31 with (js_shl 1 5 - 1). apply js_mask; [|lia].
        rewrite Z.shiftr_div_pow2 by lia. assert (1 <= 2 ^ Z.of_nat (k - 5)) by (apply (Z.pow_le_mono_r 2 0); lia).
        split; [apply Z.div_pos; lia|]. apply Z.div_lt_upper_bound; nia. }
      destruct (IH (k - 5)%nat (res ++ [alphabet_at s]) ltac:(lia) ltac:(lia) Hb) as (syms & k' & He & Hsy & Hk' & Hle' & Hbits).
      exists (s :: syms), k'. rewrite He. split_and!; [|constructor; [|done]|done|lia|].
      * cbn [fmap list_fmap]. by rewrite <- (assoc_L (++)).
      * unfold is_symbol. rewrite Hs. apply (Z.mod_pos_bound _ (2 ^ 5)). lia.
      * replace k with (5 + (k - 5))%nat at 1 by lia. rewrite to_bits_split, Hbits.
        change (symbol_bits (s :: syms)) with (to_bits 5 s ++ symbol_bits syms). rewrite <- (assoc_L (++)). f_equal.
        rewrite Hs. by rewrite (to_bits_mod 5 5).
    + exists [], k. cbn. rewrite app_nil_r. repeat split; try lia. constructor.
Qed.

Definition encoder_inv (bytes : list Z) (st : text * Z * Z) : Prop :=
  exists syms k buffer, st = (alphabet_at <$> syms, buffer, Z.of_nat k) /\ Forall is_symbol syms /\ (k < 5)%nat
    /\ 0 <= buffer < 2 ^ Z.of_nat k /\ byte_bits bytes = symbol_bits syms ++ to_bits k buffer.

Lemma encoder_step bytes st b : is_byte b -> encoder_inv bytes st -> encoder_inv (bytes ++ [b]) (base32_byte st b).
Proof.
  intros Hb (syms & k & buffer & -> & Hsy & Hk & Hbu & Hbits). unfold is_byte in Hb. cbn [base32_byte].
  assert (2 ^ Z.of_nat k <= 2 ^ 4) by (apply Z.pow_le_mono_r; lia).
  rewrite js_shl_small by lia. rewrite js_or_small by (try rewrite Z.shiftl_mul_pow2; lia).
  assert (Hr : 0 <= Z.lor (Z.shiftl buffer 8) b < 2 ^ (Z.of_nat k + 8)) by (apply shiftl_lor_range; lia).
  assert (2 ^ (Z.of_nat k + 8) <= 2 ^ 12) by (apply Z.pow_le_mono_r; lia).
  assert (2 ^ 12 < 2 ^ 14) by lia.
  pose proof (to_bits_app k 8 buffer b ltac:(lia)) as Happ. change (Z.of_nat 8) with 8 in Happ.
  set (buffer' := Z.lor (Z.shiftl buffer 8) b) in *. clearbody buffer'.
  replace (Z.of_nat k + 8) with (Z.of_nat (k + 8)) in * by lia. rewrite Nat2Z.id.
  destruct (emit_spec (k + 8) buffer' (k + 8) (alphabet_at <$> syms)) as (syms' & k' & -> & Hsy' & Hk' & _ & Hbits'); [lia..|].
  exists (syms ++ syms'), k', (buffer' mod 2 ^ Z.of_nat k'). split_and!.
  - rewrite fmap_app, js_mask by lia. done.
  - by apply Forall_app.
  - done.
  - apply Z.mod_pos_bound. lia.
  - apply Z.mod_pos_bound. lia.
  - rewrite bits_app_byte, Hbits, byte_bits_1, bits_app_symbol, <- !(assoc_L (++)). f_equal.
    rewrite to_bits_mod by lia. by rewrite <- Hbits', Happ.
Qed.

Lemma encoder_run bytes : Forall is_byte bytes -> encoder_inv bytes (fold_left base32_byte bytes ([], 0, 0)).
Proof.
  intros H. induction bytes as [|b bytes IH] using rev_ind.
  - exists [], 0%nat, 0. split_and!; try done; lia.
  - apply Forall_app in H as [H Hb]. inversion_clear Hb. rewrite fold_left_app. cbn [fold_left].
    apply encoder_step; auto.
Qed.

Lemma base32_spec bytes :
  Forall is_byte bytes ->
  exists syms pad, base32 bytes = alphabet_at <$> syms /\ Forall is_symbol syms /\ (pad < 5)%nat
    /\ symbol_bits syms = byte_bits bytes ++ replicate pad false.
Proof.
  intros H. destruct (encoder_run bytes H) as (syms & k & buffer & Hst & Hsy & Hk & Hbu & Hbits).
  unfold base32. rewrite Hst. destruct (Z.eqb_spec (Z.of_nat k) 0) as [Hz|Hz].
  - exists syms, 0%nat. assert (k = 0%nat) as -> by lia. split_and!; try done. by rewrite Hbits, !app_nil_r.
  - assert (2 ^ Z.of_nat k <= 2 ^ 4) by (apply Z.pow_le_mono_r; lia).
    assert (Hp : 2 ^ (5 - Z.of_nat k) <= 2 ^ 5) by (apply Z.pow_le_mono_r; lia).
    assert (1 <= 2 ^ (5 - Z.of_nat k)) by (apply (Z.pow_le_mono_r 2 0); lia).
    set (s := ((buffer << (5 - Z.of_nat k)) & 31)%js).
    assert (Hs : s = Z.lor (Z.shiftl buffer (Z.of_nat (5 - k))) 0).
    { subst s. rewrite js_shl_small by nia. change 31 with (js_shl 1 5 - 1).
      rewrite js_mask by (try rewrite Z.shiftl_mul_pow2; nia). rewrite Z.lor_0_r.
      replace (Z.of_nat (5 - k)) with (5 - Z.of_nat k) by lia. apply Z.mod_small. rewrite Z.shiftl_mul_pow2 by lia.
      replace (2 ^ 5) with (2 ^ Z.of_nat k * 2 ^ (5 - Z.of_nat k)) by (rewrite <- Z.pow_add_r by lia; f_equal; lia). nia. }
    exists (syms ++ [s]), (5 - k)%nat. split_and!.
    + by rewrite fmap_app.
    + apply Forall_app. split; [done|]. apply Forall_singleton. unfold is_symbol. rewrite Hs.
      pose proof (shiftl_lor_range buffer 0 (Z.of_nat k) (Z.of_nat (5 - k)) ltac:(lia) ltac:(lia) ltac:(lia) ltac:(lia)) as Hr.
      by replace (Z.of_nat k + Z.of_nat (5 - k)) with 5 in Hr by lia.
    + lia.
    + rewrite bits_app_symbol, symbol_bits_1, Hs. replace 5%nat with (k + (5 - k))%nat at 1 by lia.
      rewrite to_bits_app by lia. rewrite Hbits, <- (assoc_L (++)). do 2 f_equal.
      clear. induction (5 - k)%nat as [|n IH]; [done|]. cbn [to_bits replicate]. by rewrite IH, Z.bits_0.
Qed.

(** ** The decoder *)
Definition decoder_inv (syms : list Z) (st : list Z * Z * Z) : Prop :=
  exists bytes k buffer, st = (bytes, buffer, Z.of_nat k) /\ Forall is_byte bytes /\ (k < 8)%nat
    /\ 0 <= buffer < 2 ^ Z.of_nat k /\ symbol_bits syms = byte_bits bytes ++ to_bits k buffer.

Lemma decoder_step syms st s :
  is_symbol s -> decoder_inv syms st -> decoder_inv (syms ++ [s]) (unbase32_char st (alphabet_at s)).
Proof.
  intros Hs (bytes & k & buffer & -> & Hby & Hk & Hbu & Hbits). cbn [unbase32_char].
  rewrite (proj1 (alphabet_index s Hs)). unfold is_symbol in Hs.
  assert (2 ^ Z.of_nat k <= 2 ^ 7) by (apply Z.pow_le_mono_r; lia).
  rewrite js_shl_small by lia. rewrite js_or_small by (try rewrite Z.shiftl_mul_pow2; lia).
  assert (Hr : 0 <= Z.lor (Z.shiftl buffer 5) s < 2 ^ (Z.of_nat k + 5)) by (apply shiftl_lor_range; lia).
  assert (2 ^ (Z.of_nat k + 5) <= 2 ^ 12) by (apply Z.pow_le_mono_r; lia).
  pose proof (to_bits_app k 5 buffer s ltac:(lia)) as Happ. change (Z.of_nat 5) with 5 in Happ.
  set (buffer' := Z.lor (Z.shiftl buffer 5) s) in *. clearbody buffer'.
  assert (Hbits' : symbol_bits (syms ++ [s]) = byte_bits bytes ++ to_bits (k + 5) buffer').
  { by rewrite bits_app_symbol, symbol_bits_1, Hbits, Happ, <- (assoc_L (++)). }
  replace (Z.of_nat k + 5) with (Z.of_nat (k + 5)) in * by lia.
  destruct (Z.leb_spec 8 (Z.of_nat (k + 5))) as [Hle|Hlt].
  - set (m := (k + 5 - 8)%nat). replace (Z.of_nat (k + 5) - 8) with (Z.of_nat m) by lia.
    set (b := ((buffer' >>> Z.of_nat m) & 255)%js).
    assert (Hb : b = Z.shiftr buffer' (Z.of_nat m) mod 2 ^ 8).
    { subst b. rewrite js_ushr_small by lia. change 255 with (js_shl 1 8 - 1). apply js_mask; [|lia].
      rewrite Z.shiftr_div_pow2 by lia. assert (1 <= 2 ^ Z.of_nat m) by (apply (Z.pow_le_mono_r 2 0); lia).
      split; [apply Z.div_pos; lia|]. apply Z.div_lt_upper_bound; nia. }
    exists (bytes ++ [b]), m, (buffer' mod 2 ^ Z.of_nat m). split_and!.
    + by rewrite js_mask by lia.
    + apply Forall_app. split; [done|]. constructor; [|constructor]. unfold is_byte. rewrite Hb.
      apply (Z.mod_pos_bound _ (2 ^ 8)). lia.
    + lia.
    + apply Z.mod_pos_bound. lia.
    + apply Z.mod_pos_bound. lia.
    + rewrite Hbits'. replace (k + 5)%nat with (8 + m)%nat by lia. rewrite to_bits_split, bits_app_byte, byte_bits_1.
      rewrite <- (assoc_L (++)), Hb, (to_bits_mod 8 8), to_bits_mod by lia. done.
  - exists bytes, (k + 5)%nat, buffer'. split_and!; try done; try lia.
    rewrite js_mask by lia. by rewrite Z.mod_small.
Qed.

Lemma decoder_run syms :
  Forall is_symbol syms -> decoder_inv syms (fold_left unbase32_char (alphabet_at <$> syms) ([], 0, 0)).
Proof.
  intros H. induction syms as [|s syms IH] using rev_ind.
  - exists [], 0%nat, 0. split_and!; try done; lia.
  - apply Forall_app in H as [H Hs]. inversion_clear Hs. rewrite fmap_app, fold_left_app. cbn [fold_left fmap list_fmap].
    apply decoder_step; auto.
Qed.

(** Decoding undoes encoding; only the empty payload has no link. *)
Lemma unbase32_base32 bytes : Forall is_byte bytes -> bytes <> [] -> unbase32 (base32 bytes) = Ok bytes.
Proof.
  intros Hby Hne. destruct (base32_spec bytes Hby) as (syms & pad & He & Hsy & Hpad & Hbits).
  unfold unbase32.
  assert (Hnil : base32 bytes <> []).
  { intros Hn. rewrite He in Hn. apply fmap_nil_inv in Hn. subst. apply (f_equal length) in Hbits.
    rewrite length_app, length_byte_bits in Hbits. destruct bytes; [done|]. cbn in Hbits. lia. }
  rewrite bool_decide_false by done. cbn [orb].
  assert (Hch : forallb base32_char (base32 bytes) = true).
  { rewrite He. apply forallb_forall. intros c Hc. apply list_elem_of_In, list_elem_of_fmap in Hc as (s & -> & Hs).
    rewrite Forall_forall in Hsy. by apply alphabet_index, Hsy. }
  rewrite Hch. cbn [negb].
  destruct (decoder_run syms Hsy) as (bytes' & k & buffer & Hst & Hby' & Hk & Hbu & Hbits'). rewrite <- He in Hst. rewrite Hst.
  assert (Heq : bytes' = bytes).
  { rewrite Hbits in Hbits'. apply byte_bits_inj; [done..|].
    assert (Hlen : length (byte_bits bytes) = length (byte_bits bytes')).
    { apply (f_equal length) in Hbits'. rewrite !length_app, length_replicate, length_to_bits, !length_byte_bits in *. lia. }
    apply app_inj_1 in Hbits' as [-> _]; done. }
  subst. rewrite decide_False; [done|]. by intros [].
Qed.

Lemma unbase32_ok value bytes : unbase32 value = Ok bytes -> base32 bytes = value /\ Forall is_byte bytes /\ bytes <> [].
Proof.
  unfold unbase32. destruct (bool_decide (value = [])) eqn:Hn; [done|]. apply bool_decide_eq_false in Hn. cbn [orb].
  destruct (forallb base32_char value) eqn:Hc; [|done]. cbn [negb].
  assert (Hs : exists syms, value = alphabet_at <$> syms /\ Forall is_symbol syms).
  { clear Hn. induction value as [|c value IH]; [exists []; split; [done|constructor]|]. cbn in Hc. apply andb_prop in Hc as [Hc Hr].
    destruct (IH Hr) as (syms & -> & Hsy).
    assert (Hall : forall c, base32_char c = true -> alphabet_at (index_of c alphabet 0) = c /\ is_symbol (index_of c alphabet 0)).
    { clear. intros [[] [] [] [] [] [] [] []]; vm_compute; intuition (try discriminate; congruence). }
    destruct (Hall c Hc) as [Hx Hy]. exists (index_of c alphabet 0 :: syms). split; [by rewrite fmap_cons, Hx | by constructor]. }
  destruct Hs as (syms & -> & Hsy).
  destruct (decoder_run syms Hsy) as (bytes' & k & buffer & Hst & Hby' & _). rewrite Hst.
  case_decide as Heq; [done|]. intros [= <-]. split_and!; [done|done|].
  intros ->. apply Hn. by rewrite <- Heq.
Qed.

(** ** Base64 of the platform *)
Definition alphabet64 : text := T "ABCDEFGHIJKLMNOPQRSTUVWXYZabcdefghijklmnopqrstuvwxyz0123456789+/".
Definition char64 (i : Z) : ascii := nth (Z.to_nat i) alphabet64 "?"%char.

(** Three bytes are four symbols; a rest of one or two bytes is two or three. *)
Fixpoint sextets (bytes : list Z) : list Z :=
  match bytes with
  | a :: b :: c :: rest =>
      a / 4 :: (a mod 4) * 16 + b / 16 :: (b mod 16) * 4 + c / 64 :: c mod 64 :: sextets rest
  | [a; b] => [a / 4; (a mod 4) * 16 + b / 16; (b mod 16) * 4]
  | [a] => [a / 4; (a mod 4) * 16]
  | [] => []
  end.

Fixpoint octets (syms : list Z) : option (list Z) :=
  match syms with
  | s :: t :: u :: v :: rest =>
      match octets rest with
      | Some bytes => Some (s * 4 + t / 16 :: (t mod 16) * 16 + u / 4 :: (u mod 4) * 64 + v :: bytes)
      | None => None
      end
  | [s; t; u] => Some [s * 4 + t / 16; (t mod 16) * 16 + u / 4]
  | [s; t] => Some [s * 4 + t / 16]
  | [] => Some []
  | [_] => None
  end.

Definition pad64 (n : nat) : nat := match (n mod 3)%nat with 1 => 2 | 2 => 1 | _ => 0 end%nat.

Definition btoa (bytes : list Z) : text :=
  (char64 <$> sextets bytes) ++ replicate (pad64 (length bytes)) "="%char.

Definition ascii_space (c : ascii) : Prop :=
  c = "009"%char \/ c = "010"%char \/ c = "012"%char \/ c = "013"%char \/ c = " "%char.

#[export] Instance ascii_space_dec c : Decision (ascii_space c).
Proof. unfold ascii_space. apply _. Defined.

(** At most two trailing pad characters, of a text whose length is a multiple of four. *)
Definition strip_pad (t : text) : text :=
  if negb (Nat.eqb (length t mod 4) 0) then t
  else match rev t with
       | "="%char :: "="%char :: r => rev r
       | "="%char :: r => rev r
       | _ => t
       end.

Definition atob (t : text) : result (list Z) :=
  let t := strip_pad (filter (fun c => ~ ascii_space c) t) in
  let syms := (fun c => index_of c alphabet64 0) <$> t in
  if existsb (fun s => s =? -1) syms then Err "InvalidCharacterError"
  else match octets syms with Some bytes => Ok bytes | None => Err "InvalidCharacterError" end.

(** ** Base64url *)

(** [t.split(a).join(b)] for one character [a]. *)
Definition replace_char (a b : ascii) (t : text) : text := (fun c => if Ascii.eqb c a then b else c) <$> t.

(** [t.replace(/=+$/, '')] *)
Fixpoint strip_trailing (t : text) : text :=
  match t with
  | [] => []
  | c :: r =>
      let r := strip_trailing r in
      if Ascii.eqb c "="%char && bool_decide (r = []) then [] else c :: r
  end.

Definition base64url (bytes : list Z) : text :=
  strip_trailing (replace_char "/" "_" (replace_char "+" "-" (btoa bytes))).

(** [/^[A-Za-z0-9_-]+$/] *)
Definition base64url_char (c : ascii) : bool :=
  let n := N_of_ascii c in
  ((65 <=? n) && (n <=? 90) || (97 <=? n) && (n <=? 122) || (48 <=? n) && (n <=? 57) || (n =? 95) || (n =? 45))%N.

Definition unbase64url (value : text) : result (list Z) :=
  if bool_decide (value = []) || negb (forallb base64url_char value) || Nat.eqb (length value mod 4) 1
  then Err "INVALID_LINK"
  else
    match atob (replace_char "_" "/" (replace_char "-" "+" value)) with
    | Err m => Err m
    | Ok bytes => if decide (base64url bytes <> value) then Err "INVALID_LINK" else Ok bytes
    end.

Definition is_sextet (s : Z) : Prop := 0 <= s < 64.

(** Induction over the bytes three at a time. *)
Lemma list_ind3 {A} (P : list A -> Prop) :
  P [] -> (forall a, P [a]) -> (forall a b, P [a; b]) -> (forall a b c l, P l -> P (a :: b :: c :: l)) -> forall l, P l.
Proof.
  intros H0 H1 H2 H3 l. enough (P l /\ (forall a, P (a :: l)) /\ (forall a b, P (a :: b :: l))) by tauto.
  induction l as [|x l (IH1 & IH2 & IH3)]; split_and!; eauto.
Qed.

Lemma sextets_range bytes : Forall is_byte bytes -> Forall is_sextet (sextets bytes).
Proof.
  unfold is_sextet, is_byte. induction bytes as [|a|a b|a b c l IH] using list_ind3; intros H;
    repeat match goal with H : Forall _ (_ :: _) |- _ => inversion_clear H end; cbn [sextets];
    repeat (apply Forall_cons; split); try (Z.div_mod_to_equations; lia); try constructor; by apply IH.
Qed.

Lemma octets_sextets bytes : Forall is_byte bytes -> octets (sextets bytes) = Some bytes.
Proof.
  unfold is_byte. induction bytes as [|a|a b|a b c l IH] using list_ind3; intros H;
    repeat match goal with H : Forall _ (_ :: _) |- _ => inversion_clear H end; cbn [sextets octets]; [done|..|rewrite IH by done];
    repeat f_equal; Z.div_mod_to_equations; lia.
Qed.

Lemma length_sextets bytes :
  (length (sextets bytes) mod 4)%nat = match (length bytes mod 3)%nat with 0 => 0 | 1 => 2 | _ => 3 end%nat.
Proof.
  induction bytes as [|a|a b|a b c l IH] using list_ind3; try done. cbn [sextets length].
  replace (S (S (S (S (length (sextets l)))))) with (length (sextets l) + 1 * 4)%nat by lia.
  replace (S (S (S (length l)))) with (length l + 1 * 3)%nat by lia.
  by rewrite !Nat.Div0.mod_add.
Qed.

Definition swap (a b c : ascii) : ascii := if Ascii.eqb c a then b else c.
Definition to_url (c : ascii) : ascii := swap "/" "_" (swap "+" "-" c).
Definition from_url (c : ascii) : ascii := swap "_" "/" (swap "-" "+" c).

Lemma char64_spec s :
  is_sextet s -> index_of (char64 s) alphabet64 0 = s /\ ~ ascii_space (char64 s) /\ char64 s <> "="%char
    /\ base64url_char (to_url (char64 s)) = true /\ to_url (char64 s) <> "="%char
    /\ from_url (to_url (char64 s)) = char64 s.
Proof.
  intros Hs. assert (Hin : s ∈ seqZ 0 64) by (apply elem_of_seqZ; unfold is_sextet in Hs; lia).
  clear Hs. revert s Hin. apply Forall_forall. by_computation.
Qed.

Lemma replace_twice a b c d t : replace_char c d (replace_char a b t) = (fun x => swap c d (swap a b x)) <$> t.
Proof. unfold replace_char. by rewrite <- list_fmap_compose. Qed.

Lemma strip_trailing_pad t n : Forall (fun c => c <> "="%char) t -> strip_trailing (t ++ replicate n "="%char) = t.
Proof.
  intros H. induction H as [|c t Hc H IH]; cbn [app strip_trailing].
  - induction n as [|n IH]; [done|]. cbn [replicate strip_trailing]. by rewrite IH.
  - rewrite IH. destruct (Ascii.eqb_spec c "="%char); [done|]. done.
Qed.

(** The text is the translated symbols, without padding. *)
Lemma base64url_spec bytes : Forall is_byte bytes -> base64url bytes = to_url <$> (char64 <$> sextets bytes).
Proof.
  intros H. unfold base64url. rewrite replace_twice. unfold btoa. rewrite fmap_app, fmap_replicate.
  change (swap "/" "_" (swap "+" "-" "=")) with "="%char. apply strip_trailing_pad.
  rewrite Forall_forall. intros c Hc. apply list_elem_of_fmap in Hc as (x & -> & Hx). apply list_elem_of_fmap in Hx as (s & -> & Hs).
  pose proof (sextets_range bytes H) as Hr. rewrite Forall_forall in Hr. by apply char64_spec, Hr.
Qed.

Lemma strip_pad_spec syms n :
  Forall is_sextet syms -> n = 0%nat \/ ((n <= 2)%nat /\ ((length syms + n) mod 4 = 0)%nat) ->
  strip_pad ((char64 <$> syms) ++ replicate n "="%char) = char64 <$> syms.
Proof.
  intros Hs Hn. rewrite Forall_forall in Hs. unfold strip_pad. rewrite length_app, length_fmap, length_replicate.
  assert (Hr : forall c r, rev (char64 <$> syms) = c :: r -> c <> "="%char).
  { intros c r Hr. assert (Hin : c ∈ char64 <$> syms) by (apply list_elem_of_In, in_rev; rewrite Hr; by left).
    apply list_elem_of_fmap in Hin as (s & -> & Hx). by apply char64_spec, Hs. }
  pose proof (rev_involutive (char64 <$> syms)) as Hrr. rewrite rev_app_distr.
  destruct (Nat.eqb_spec ((length syms + n) mod 4) 0) as [|Hm]; cbn [negb].
  - destruct n as [|[|[|n]]]; [..|lia]; cbn [replicate rev app]; rewrite ?app_nil_r;
      (destruct (rev (char64 <$> syms)) as [|c r]; [exact Hrr || reflexivity|]; specialize (Hr c r eq_refl);
       by destruct c as [[] [] [] [] [] [] [] []]).
  - destruct Hn as [->|[_ ?]]; [|done]. cbn [replicate]. by rewrite app_nil_r.
Qed.

Lemma atob_padded syms bytes n :
  Forall is_sextet syms -> octets syms = Some bytes -> n = 0%nat \/ ((n <= 2)%nat /\ ((length syms + n) mod 4 = 0)%nat) ->
  atob ((char64 <$> syms) ++ replicate n "="%char) = Ok bytes.
Proof.
  intros Hs Ho Hn. unfold atob. pose proof (strip_pad_spec syms n Hs Hn) as Hp. rewrite Forall_forall in Hs.
  rewrite filter_all, Hp.
  2:{ intros c Hc. apply elem_of_app in Hc as [Hc|Hc].
      - apply list_elem_of_fmap in Hc as (s & -> & Hx). by apply char64_spec, Hs.
      - apply elem_of_replicate in Hc as [-> _]. by_computation. }
  assert (Hi : (fun c => index_of c alphabet64 0) <$> (char64 <$> syms) = syms).
  { rewrite <- list_fmap_compose. rewrite <- (list_fmap_id syms) at 2. apply list_fmap_ext. intros i s Hx.
    apply list_elem_of_lookup_2 in Hx. by apply char64_spec, Hs. }
  rewrite Hi, Ho. replace (existsb (fun s => s =? -1) syms) with false; [done|]. symmetry.
  apply not_true_iff_false. intros Hx. apply existsb_exists in Hx as (s & Hin & Hx). apply list_elem_of_In in Hin.
  pose proof (Hs s Hin) as Hr. unfold is_sextet in Hr. lia.
Qed.

Lemma atob_plain syms bytes :
  Forall is_sextet syms -> octets syms = Some bytes -> atob (char64 <$> syms) = Ok bytes.
Proof.
  intros Hs Ho. pose proof (atob_padded syms bytes 0 Hs Ho (or_introl eq_refl)) as Ha. cbn [replicate] in Ha.
  by rewrite app_nil_r in Ha.
Qed.

Lemma pad64_spec bytes : ((length (sextets bytes) + pad64 (length bytes)) mod 4 = 0)%nat /\ (pad64 (length bytes) <= 2)%nat.
Proof.
  induction bytes as [|a|a b|a b c l IH] using list_ind3; [cbn; lia..|].
  assert (Hp : pad64 (length (a :: b :: c :: l)) = pad64 (length l)).
  { unfold pad64. replace (length (a :: b :: c :: l)) with (length l + 1 * 3)%nat by (cbn; lia). by rewrite Nat.Div0.mod_add. }
  rewrite Hp. cbn [sextets length] in *.
  replace (S (S (S (S (length (sextets l))))) + pad64 (length l))%nat with (length (sextets l) + pad64 (length l) + 1 * 4)%nat by lia.
  by rewrite Nat.Div0.mod_add.
Qed.

(** The platform's base64 round trips. *)
Lemma atob_btoa bytes : Forall is_byte bytes -> atob (btoa bytes) = Ok bytes.
Proof.
  intros Hb. apply atob_padded; [by apply sextets_range | by apply octets_sextets|]. right.
  destruct (pad64_spec bytes). done.
Qed.

Lemma unbase64url_base64url bytes : Forall is_byte bytes -> bytes <> [] -> unbase64url (base64url bytes) = Ok bytes.
Proof.
  intros Hby Hne. unfold unbase64url. pose proof (sextets_range bytes Hby) as Hr.
  pose proof (base64url_spec bytes Hby) as He.
  assert (Hnil : base64url bytes <> []).
  { rewrite He. destruct bytes as [|a [|b [|c l]]]; done. }
  rewrite bool_decide_false by done. cbn [orb].
  assert (Hch : forallb base64url_char (base64url bytes) = true).
  { rewrite He. apply forallb_forall. intros c Hc. apply list_elem_of_In, list_elem_of_fmap in Hc as (x & -> & Hx).
    apply list_elem_of_fmap in Hx as (s & -> & Hs). rewrite Forall_forall in Hr. by apply char64_spec, Hr. }
  rewrite Hch. cbn [negb orb].
  assert (Hlen : Nat.eqb (length (base64url bytes) mod 4) 1 = false).
  { rewrite He, !length_fmap, length_sextets. destruct (length bytes mod 3)%nat as [|[|]]; done. }
  rewrite Hlen, replace_twice.
  assert (Hu : (fun x => swap "_" "/" (swap "-" "+" x)) <$> base64url bytes = char64 <$> sextets bytes).
  { rewrite He, <- !list_fmap_compose. apply list_fmap_ext. intros i s Hx. apply list_elem_of_lookup_2 in Hx.
    rewrite Forall_forall in Hr. by apply char64_spec, Hr. }
  rewrite Hu, (atob_plain _ bytes Hr (octets_sextets bytes Hby)). rewrite decide_False; [done|]. by intros [].
Qed.

(** Induction over the symbols four at a time. *)
Lemma list_ind4 {A} (P : list A -> Prop) :
  P [] -> (forall a, P [a]) -> (forall a b, P [a; b]) -> (forall a b c, P [a; b; c]) ->
  (forall a b c d l, P l -> P (a :: b :: c :: d :: l)) -> forall l, P l.
Proof.
  intros H0 H1 H2 H3 H4 l.
  enough (P l /\ (forall a, P (a :: l)) /\ (forall a b, P (a :: b :: l)) /\ (forall a b c, P (a :: b :: c :: l))) by tauto.
  induction l as [|x l (IH1 & IH2 & IH3 & IH4)]; split_and!; eauto.
Qed.

Lemma octets_range syms bytes : Forall is_sextet syms -> octets syms = Some bytes -> Forall is_byte bytes.
Proof.
  unfold is_sextet, is_byte. revert bytes. induction syms as [|a|a b|a b c|a b c d l IH] using list_ind4; intros bytes H He;
    repeat match goal with H : Forall _ (_ :: _) |- _ => inversion_clear H end; cbn [octets] in He;
    [|done|..|destruct (octets l) as [bs|]; [|done]]; injection He as <-; repeat (apply Forall_cons; split);
    try (Z.div_mod_to_equations; lia); try constructor. by apply IH.
Qed.

Lemma index_of_range c l i : 0 <= i -> index_of c l i = -1 \/ i <= index_of c l i < i + Z.of_nat (length l).
Proof.
  revert i. induction l as [|c' l IH]; intros i Hi; cbn [index_of length]; [by left|].
  destruct (Ascii.eqb c c'); [lia|]. destruct (IH (i + 1)); lia.
Qed.

Lemma atob_range t bytes : atob t = Ok bytes -> Forall is_byte bytes.
Proof.
  unfold atob. set (t' := strip_pad _). destruct (existsb _ _) eqn:Hx; [done|].
  destruct (octets _) as [bs|] eqn:Ho; [|done]. intros [= <-]. eapply octets_range; [|exact Ho].
  rewrite Forall_forall. intros s Hs. pose proof Hs as Hin. apply list_elem_of_fmap in Hs as (c & -> & _).
  destruct (index_of_range c alphabet64 0) as [Hm|Hr]; [done| |exact Hr].
  exfalso. apply not_true_iff_false in Hx. apply Hx, existsb_exists. eexists. split; [by apply list_elem_of_In|]. by rewrite Hm.
Qed.

Lemma unbase64url_ok value bytes :
  unbase64url value = Ok bytes -> base64url bytes = value /\ Forall is_byte bytes /\ bytes <> [].
Proof.
  unfold unbase64url. destruct (bool_decide (value = [])) eqn:Hn; [done|]. apply bool_decide_eq_false in Hn. cbn [orb].
  destruct (_ || _); [done|]. destruct (atob _) as [bs|] eqn:Ha; [|done]. case_decide as Heq; [done|]. intros [= <-].
  split_and!; [done | by eapply atob_range |]. intros ->. apply Hn. by rewrite <- Heq.
Qed.

(** C36: both text encodings of link payloads are one-to-one: a text decodes to some
    bytes exactly when it is the encoding of those bytes, so there is no second spelling
    of a payload, and every non-empty payload has one. The base32 loops stay within 32
    bits for payloads of any length. *)
Theorem link_codecs_exact value bytes :
  (unbase32 value = Ok bytes <-> (Forall is_byte bytes /\ bytes <> []) /\ base32 bytes = value)
  /\ (unbase64url value = Ok bytes <-> (Forall is_byte bytes /\ bytes <> []) /\ base64url bytes = value).
Proof.
  split; split.
  - intros H. apply unbase32_ok in H as (? & ? & ?). done.
  - intros [[Hb Hn] <-]. by apply unbase32_base32.
  - intros H. apply unbase64url_ok in H as (? & ? & ?). done.
  - intros [[Hb Hn] <-]. by apply unbase64url_base64url.
Qed.

Example base32_foobar : base32 [102; 111; 111; 98; 97] = T "MZXW6YTB".
Proof. reflexivity. Qed.

Example base64url_sample : base64url [251; 255; 1; 2] = T "-_8BAg".
Proof. reflexivity. Qed.
