(* ===== verification/SchemaLink.v ===== *)
(** * Links of the application

    Models [packages/schema/src/link.ts]: parsing and encoding of navigation links, action
    links with a protobuf payload, connection links, OAuth callbacks and plain URLs. The
    protobuf runtime with the generated schemas and the URL class of the platform are
    parameters. *)
From Stdlib Require Import Ascii Lia ZArith.
From stdpp Require Import base numbers strings list.
From S2P Require Import Prelude JsInt TextCodec.

(** ** Texts *)
Fixpoint starts_with (p v : text) : bool :=
  match p, v with
  | [], _ => true
  | c :: p, d :: v => Ascii.eqb c d && starts_with p v
  | _ :: _, [] => false
  end.

(** [value.split(sep)] for one character. *)
Fixpoint split_on (sep : ascii) (t : text) : list text :=
  match t with
  | [] => [[]]
  | c :: t =>
      match split_on sep t with
      | part :: parts => if Ascii.eqb c sep then [] :: part :: parts else (c :: part) :: parts
      | [] => [[]]
      end
  end.

(** Bytes of the UTF-8 encoding; characters are code points below 256. *)
Definition utf8_length (t : text) : Z :=
  foldr (fun c n => (if (N_of_ascii c <? 128)%N then 1 else 2) + n) 0 t.

(** ** Messages *)

(** The fields the code reads; the others are references. *)
Record DeviceLinkLocator : Set := {
  loc_protocolVersion : Z;
  loc_offerDigest : list Z;
  loc_expiresAtUnixMs : Z;
  loc_stationRootEd25519 : list Z;
  loc_bootstrapSecret : list Z;
  loc_canonicalDiscoveryOrigin : text;
  loc_endpointRole : Z;
  loc_relayEd25519 : list Z;
  loc_endpointTlsTrust : option nat
}.

Record PublicEndpointConnectionMaterial : Set := {
  mat_schemaVersion : Z;
  mat_canonicalDiscoveryOrigin : text;
  mat_rest : nat
}.

Record StationConnectionEnvelope : Set := {
  env_protocolVersion : Z;
  env_relayOrigin : text;
  env_routeAttestation : option nat;
  env_connectionGrant : option nat
}.

Inductive ActionCase : Set :=
| deviceLinkOffer (offer : nat)
| deviceLinkLocator (locator : DeviceLinkLocator)
| publicConnection (material : PublicEndpointConnectionMaterial)
| circuitConnection (circuit : StationConnectionEnvelope)
| conversationId (id : text)
| actorPtid (id : text)
| inviteCode (id : text).

Record SchemaAction : Set := { protocolVersion : Z; action : option ActionCase }.

Inductive NavigationResource : Set :=
| cron | sessions | settings | channels | marketplace | evaluation | documents | chat | moments.

#[export] Instance NavigationResource_eq_dec : EqDecision NavigationResource.
Proof. solve_decision. Defined.

(** [nav_runs]: [subResource] is ['runs']. *)
Record NavigationLink : Set := {
  nav_resource : NavigationResource;
  nav_id : option text;
  nav_runs : bool;
  nav_subId : option text
}.

#[export] Instance NavigationLink_eq_dec : EqDecision NavigationLink.
Proof. solve_decision. Defined.

Inductive LinkInput : Set :=
| in_url (value : text)
| in_navigation (value : NavigationLink)
| in_action (value : SchemaAction).

Inductive ParsedLink : Set :=
| link_url (value : text)
| link_navigation (value : NavigationLink)
| link_action (value : SchemaAction)
| link_oauth_callback (value : text).

Inductive ParseResult : Set :=
| recognized (link : ParsedLink)
| malformed (code : string)
| unsupported (code : string).

(** What the code reads of a parsed URL. *)
Record URL : Set := {
  url_username : text;
  url_password : text;
  url_protocol : text;
  url_hostname : text;
  url_pathname : text;
  url_port : text;
  url_searchParams : list (text * text)
}.

(** The protobuf runtime and the URL parser. A decoder that throws has no value. *)
Class LinkEnv := {
  action_fromBinary : list Z -> option SchemaAction;
  action_toBinary : SchemaAction -> list Z;
  locator_fromBinary : list Z -> option DeviceLinkLocator;
  locator_toBinary : DeviceLinkLocator -> list Z;
  material_fromBinary : list Z -> option PublicEndpointConnectionMaterial;
  material_toBinary : PublicEndpointConnectionMaterial -> list Z;
  circuit_fromBinary : list Z -> option StationConnectionEnvelope;
  circuit_toBinary : StationConnectionEnvelope -> list Z;
  url_parse : text -> option URL
}.

Definition MAX_LINK_BYTES : Z := 32768.
Definition DEVICE_PREFIX : text := T "peers-touch://device/link#".
Definition DEVICE_REFERENCE_PREFIX : text := DEVICE_PREFIX ++ T "B32:".
Definition ACTION_PREFIX : text := T "peers-touch://action/v1#".
Definition INVALID_LINK : string := "INVALID_LINK".
Definition UNREGISTERED_ACTION : string := "UNREGISTERED_ACTION".
Definition PAYLOAD_TOO_LARGE : string := "PAYLOAD_TOO_LARGE".

(** [/[\u0000-\u0020\u007f]/] *)
Definition control_char (c : ascii) : bool := let n := N_of_ascii c in ((n <=? 32) || (n =? 127))%N.

Definition bounded (value : text) : result unit :=
  if MAX_LINK_BYTES <? utf8_length value then Err PAYLOAD_TOO_LARGE
  else if bool_decide (value = []) || existsb (fun c => control_char c || Ascii.eqb c "\") value then Err INVALID_LINK
  else Ok tt.

Definition validateAction (value : SchemaAction) : result unit :=
  if decide (protocolVersion value <> 1) then Err UNREGISTERED_ACTION
  else
    match action value with
    | None => Err UNREGISTERED_ACTION
    | Some (conversationId text | actorPtid text | inviteCode text) =>
        if bool_decide (text = []) || (512 <? utf8_length text) || existsb control_char text
        then Err INVALID_LINK else Ok tt
    | Some _ => Ok tt
    end.

Definition isDeviceAction (value : SchemaAction) : bool :=
  match action value with Some (deviceLinkOffer _ | deviceLinkLocator _) => true | _ => false end.

(** [/^[A-Za-z0-9_.~-]{1,256}$/] *)
Definition segment_char (c : ascii) : bool :=
  base64url_char c || Ascii.eqb c "." || Ascii.eqb c "~".

Definition segment (part : text) : bool :=
  forallb segment_char part && (1 <=? Z.of_nat (length part)) && (Z.of_nat (length part) <=? 256).

Definition resource_name (r : NavigationResource) : text :=
  match r with
  | cron => T "cron" | sessions => T "sessions" | settings => T "settings" | channels => T "channels"
  | marketplace => T "marketplace" | evaluation => T "evaluation" | documents => T "documents"
  | chat => T "chat" | moments => T "moments"
  end.

Definition all_resources : list NavigationResource :=
  [cron; sessions; settings; channels; marketplace; evaluation; documents; chat; moments].

Definition resource_of (name : text) : option NavigationResource :=
  head (filter (fun r => resource_name r = name) all_resources).

(** A non-empty text. *)
Definition truthy_text (t : text) : bool := negb (bool_decide (t = [])).

Definition nav (r : NavigationResource) (id : option text) (runs : bool) (subId : option text) : NavigationLink :=
  {| nav_resource := r; nav_id := id; nav_runs := runs; nav_subId := subId |}.

Definition PT : text := T "pt://".

Definition parseNavigation (value : text) : option NavigationLink :=
  if negb (starts_with PT value) then None
  else
    let parts := split_on "/" (drop 5 value) in
    if existsb (fun part => negb (segment part) || bool_decide (part = T ".") || bool_decide (part = T "..")) parts
    then None
    else
      match parts with
      | [] => None
      | name :: path =>
          match resource_of name with
          | None => None
          | Some cron =>
              match path with
              | [] => Some (nav cron None false None)
              | [jobs; id] => if decide (jobs = T "jobs") then Some (nav cron (Some id) false None) else None
              | [jobs; id; runs; subId] =>
                  if decide (jobs = T "jobs" /\ runs = T "runs") then Some (nav cron (Some id) true (Some subId)) else None
              | _ => None
              end
          | Some ((sessions | settings | channels | moments) as r) =>
              match path with
              | [] => Some (nav r None false None)
              | [id] => Some (nav r (if truthy_text id then Some id else None) false None)
              | _ => None
              end
          | Some r => match path with [] => Some (nav r None false None) | _ => None end
          end
      end.

(** ** Parsing and encoding *)
Section link.
Context `{LinkEnv}.

(** A decoder of the protobuf runtime throws an error of its own. *)
Definition decoded {A} (o : option A) : result A :=
  match o with Some a => Ok a | None => Err "DecodeError" end.

Definition canonicalAction (bytes : list Z) : result SchemaAction :=
  a ← decoded (action_fromBinary bytes);
  _ ← validateAction a;
  if decide (action_toBinary a <> bytes) then Err INVALID_LINK else Ok a.

Definition locator_acceptable (reference : DeviceLinkLocator) (bytes : list Z) : Prop :=
  loc_protocolVersion reference = 1 /\ length (loc_bootstrapSecret reference) = 32%nat
  /\ length (loc_stationRootEd25519 reference) = 32%nat /\ length (loc_offerDigest reference) = 32%nat
  /\ loc_canonicalDiscoveryOrigin reference <> [] /\ 0 < loc_expiresAtUnixMs reference
  /\ (loc_endpointRole reference = 1 \/ loc_endpointRole reference = 2)
  /\ length (loc_relayEd25519 reference) = (if decide (loc_endpointRole reference = 2) then 32%nat else 0%nat)
  /\ ~ (loc_endpointRole reference = 2
        /\ loc_relayEd25519 reference = take (length (loc_relayEd25519 reference)) (loc_stationRootEd25519 reference))
  /\ locator_toBinary reference = bytes.

#[export] Instance locator_acceptable_dec reference bytes : Decision (locator_acceptable reference bytes).
Proof. unfold locator_acceptable. apply _. Defined.

Definition registered (c : ActionCase) : SchemaAction := {| protocolVersion := 1; action := Some c |}.

Definition oauth_keys : list text := [T "code"; T "state"; T "error"; T "error_description"].

(** [searchParams.get], empty when absent; only its truth matters. *)
Definition param (u : URL) (key : text) : text :=
  default [] (snd <$> head (filter (fun kv => kv.1 = key) (url_searchParams u))).

Definition parse_action_link (prefix value : text) : result ParsedLink :=
  bytes ← unbase64url (drop (length prefix) value);
  a ← canonicalAction bytes;
  match action a with
  | Some (deviceLinkLocator _) => Err INVALID_LINK
  | _ =>
      if negb (eqb (isDeviceAction a) (bool_decide (prefix = DEVICE_PREFIX))) then Err INVALID_LINK
      else Ok (link_action a)
  end.

Definition parse_url (value : text) : result ParsedLink :=
  match url_parse value with
  | None => Err UNREGISTERED_ACTION
  | Some url =>
      if truthy_text (url_username url) || truthy_text (url_password url) then Err INVALID_LINK
      else if bool_decide (url_protocol url = T "http:" \/ url_protocol url = T "https:") then Ok (link_url value)
      else if starts_with (T "peers-touch://oauth/callback?") value && bool_decide (url_hostname url = T "oauth")
              && bool_decide (url_pathname url = T "/callback") && negb (truthy_text (url_port url))
              && negb (bool_decide ("#"%char ∈ value))
      then
        let keys := (url_searchParams url).*1 in
        if negb (bool_decide (NoDup keys)) || negb (truthy_text (param url (T "state")))
           || eqb (truthy_text (param url (T "code"))) (truthy_text (param url (T "error")))
        then Err INVALID_LINK
        else if existsb (fun key => negb (bool_decide (key ∈ oauth_keys))) keys then Err INVALID_LINK
        else Ok (link_oauth_callback value)
      else Err UNREGISTERED_ACTION
  end.

Definition CONNECT_PREFIX : text := T "peers-touch://connect#".

Definition parse_circuit (connection : text) : result ParsedLink :=
  raw ← unbase64url connection;
  circuit ← decoded (circuit_fromBinary raw);
  if decide (env_protocolVersion circuit <> 1 \/ env_connectionGrant circuit = None
             \/ env_routeAttestation circuit = None \/ env_relayOrigin circuit = []
             \/ circuit_toBinary circuit <> raw)
  then Err INVALID_LINK
  else Ok (link_action (registered (circuitConnection circuit))).

Definition parse_material (connection : text) : result ParsedLink :=
  raw ← unbase64url connection;
  material ← decoded (material_fromBinary raw);
  if decide (mat_schemaVersion material <> 1 \/ mat_canonicalDiscoveryOrigin material = []
             \/ material_toBinary material <> raw)
  then Err INVALID_LINK
  else Ok (link_action (registered (publicConnection material))).

Definition parse_locator (reference : text) : result ParsedLink :=
  bytes ← unbase32 reference;
  locator ← decoded (locator_fromBinary bytes);
  if decide (locator_acceptable locator bytes)
  then Ok (link_action (registered (deviceLinkLocator locator))) else Err INVALID_LINK.

Definition parseRecognized (value : text) : result ParsedLink :=
  _ ← bounded value;
  if starts_with DEVICE_REFERENCE_PREFIX value then parse_locator (drop (length DEVICE_REFERENCE_PREFIX) value)
  else if starts_with PT value then
    match parseNavigation value with
    | None => Err INVALID_LINK
    | Some navigation => Ok (link_navigation navigation)
    end
  else if starts_with DEVICE_PREFIX value then parse_action_link DEVICE_PREFIX value
  else if starts_with ACTION_PREFIX value then parse_action_link ACTION_PREFIX value
  else if starts_with (T "ptm1:") value then parse_material (drop 5 value)
  else if starts_with (T "ptc1:") value then parse_circuit (drop 5 value)
  else if starts_with CONNECT_PREFIX value then parse_circuit (drop 22 value)
  else parse_url value.

(** The [catch]: every error that is not one of the three codes becomes [INVALID_LINK]. *)
Definition parse (value : text) : ParseResult :=
  match parseRecognized value with
  | Ok link => recognized link
  | Err code =>
      if decide (code = UNREGISTERED_ACTION) then unsupported UNREGISTERED_ACTION
      else if decide (code = PAYLOAD_TOO_LARGE) then malformed PAYLOAD_TOO_LARGE
      else malformed INVALID_LINK
  end.

Definition navigation_text (n : NavigationLink) : text :=
  PT ++ resource_name (nav_resource n)
  ++ (if truthy_text (default [] (nav_id n))
      then (if decide (nav_resource n = cron) then T "/jobs/" else T "/") ++ default [] (nav_id n) else [])
  ++ (if nav_runs n || truthy_text (default [] (nav_subId n)) then T "/runs/" ++ default [] (nav_subId n) else []).

Definition link_text (input : LinkInput) : result text :=
  match input with
  | in_action a =>
      _ ← validateAction a;
      Ok (match action a with
          | Some (deviceLinkLocator locator) => DEVICE_REFERENCE_PREFIX ++ base32 (locator_toBinary locator)
          | _ => (if isDeviceAction a then DEVICE_PREFIX else ACTION_PREFIX) ++ base64url (action_toBinary a)
          end)
  | in_navigation n => Ok (navigation_text n)
  | in_url value => Ok value
  end.

Definition same_kind (link : ParsedLink) (input : LinkInput) : bool :=
  match link, input with
  | link_url _, in_url _ | link_navigation _, in_navigation _ | link_action _, in_action _ => true
  | _, _ => false
  end.

Definition encode (input : LinkInput) : result text :=
  value ← link_text input;
  match parse value with
  | recognized link => if same_kind link input then Ok value else Err INVALID_LINK
  | malformed code | unsupported code => Err code
  end.
End link.

(** ** Texts and parts *)
Lemma starts_with_app p v : starts_with p (p ++ v) = true.
Proof. induction p as [|c p IH]; [done|]. cbn. by rewrite Ascii.eqb_refl. Qed.

Lemma starts_with_spec p v : starts_with p v = true -> v = p ++ drop (length p) v.
Proof.
  revert v. induction p as [|c p IH]; intros v Hs; [done|]. destruct v as [|d v]; [done|]. cbn in Hs |- *.
  destruct (Ascii.eqb_spec c d) as [->|]; [|done]. f_equal. by apply IH.
Qed.

Lemma starts_with_app_l p q v : starts_with (p ++ q) (p ++ v) = starts_with q v.
Proof. induction p as [|c p IH]; [done|]. cbn. by rewrite Ascii.eqb_refl. Qed.

Definition no_slash (t : text) : Prop := "/"%char ∉ t.

Lemma split_on_nonempty sep t : split_on sep t <> [].
Proof. induction t as [|c t IH]; [done|]. cbn. destruct (split_on sep t); [done|]. by destruct (Ascii.eqb c sep). Qed.

Lemma split_on_plain t : no_slash t -> split_on "/" t = [t].
Proof.
  unfold no_slash. induction t as [|c t IH]; intros Hn; [done|]. apply not_elem_of_cons in Hn as [Hc Hn]. cbn [split_on]. rewrite IH by done.
  destruct (Ascii.eqb_spec c "/"%char); [congruence | done].
Qed.

Lemma split_on_sep t r : no_slash t -> split_on "/" (t ++ T "/" ++ r) = t :: split_on "/" r.
Proof.
  unfold no_slash. induction t as [|c t IH]; intros Hn.
  - cbn. pose proof (split_on_nonempty "/" r). by destruct (split_on "/" r).
  - apply not_elem_of_cons in Hn as [Hc Hn]. change ((c :: t) ++ T "/" ++ r) with (c :: (t ++ T "/" ++ r)). cbn [split_on].
    rewrite IH by done. destruct (Ascii.eqb_spec c "/"%char); [congruence | done].
Qed.

Fixpoint join_slash (parts : list text) : text :=
  match parts with
  | [] => []
  | [p] => p
  | p :: rest => p ++ T "/" ++ join_slash rest
  end.

Lemma join_split t : join_slash (split_on "/" t) = t.
Proof.
  induction t as [|c t IH]; [done|]. cbn [split_on]. destruct (split_on "/" t) as [|p ps] eqn:Hs; [by apply split_on_nonempty in Hs|].
  destruct (Ascii.eqb_spec c "/"%char) as [->|Hc]; rewrite <- IH; by destruct ps.
Qed.

(** A part the navigation syntax allows. *)
Definition nav_segment (p : text) : Prop := segment p = true /\ p <> T "." /\ p <> T "..".

Lemma segment_no_slash p : segment p = true -> no_slash p.
Proof.
  unfold segment, no_slash. intros Hs Hin. apply andb_prop in Hs as [Hs _]. apply andb_prop in Hs as [Hs _].
  rewrite forallb_forall in Hs. apply list_elem_of_In in Hin. specialize (Hs _ Hin). discriminate.
Qed.

Lemma segments_of parts :
  existsb (fun part => negb (segment part) || bool_decide (part = T ".") || bool_decide (part = T "..")) parts = false
  <-> Forall nav_segment parts.
Proof.
  induction parts as [|p ps IH]; cbn [existsb]; [done|]. rewrite orb_false_iff, IH, Forall_cons.
  unfold nav_segment. rewrite !orb_false_iff, negb_false_iff, !bool_decide_eq_false. tauto.
Qed.

Lemma resource_of_name r : resource_of (resource_name r) = Some r.
Proof. by destruct r. Qed.

Lemma resource_of_spec name r : resource_of name = Some r -> name = resource_name r.
Proof.
  unfold resource_of. intros Hh. apply head_Some_elem_of in Hh. by apply list_elem_of_filter in Hh as [<- _].
Qed.

Lemma resource_segment r : nav_segment (resource_name r).
Proof. destruct r; repeat split; by_computation. Qed.

(** The links the syntax can express. *)
Inductive nav_wf : NavigationLink -> Prop :=
| wf_plain r : nav_wf (nav r None false None)
| wf_id r id : r = sessions \/ r = settings \/ r = channels \/ r = moments -> nav_segment id -> nav_wf (nav r (Some id) false None)
| wf_job id : nav_segment id -> nav_wf (nav cron (Some id) false None)
| wf_run id sub : nav_segment id -> nav_segment sub -> nav_wf (nav cron (Some id) true (Some sub)).

Lemma segment_truthy p : nav_segment p -> truthy_text p = true.
Proof.
  intros (Hs & _). destruct p; [|done]. done.
Qed.

Lemma split_join p parts : Forall nav_segment (p :: parts) -> split_on "/" (join_slash (p :: parts)) = p :: parts.
Proof.
  revert p. induction parts as [|q parts IH]; intros p Hf; inversion_clear Hf as [|? ? [Hp _] Hf'].
  - by apply split_on_plain, segment_no_slash.
  - change (join_slash (p :: q :: parts)) with (p ++ T "/" ++ join_slash (q :: parts)).
    rewrite split_on_sep by (by apply segment_no_slash). by rewrite IH.
Qed.

(** The path of a link. *)
Definition nav_path (n : NavigationLink) : list text :=
  match nav_id n, nav_subId n with
  | None, _ => []
  | Some id, None => if decide (nav_resource n = cron) then [T "jobs"; id] else [id]
  | Some id, Some sub => [T "jobs"; id; T "runs"; sub]
  end.

Lemma wf_text n : nav_wf n -> navigation_text n = PT ++ join_slash (resource_name (nav_resource n) :: nav_path n).
Proof.
  intros Hn. destruct Hn as [r|r id Hr Hid|id Hid|id sub Hid Hs]; unfold navigation_text;
    repeat match goal with H : nav_segment ?p |- _ => apply segment_truthy in H end;
    cbn [nav nav_path nav_resource nav_id nav_runs nav_subId from_option orb]; unfold Datatypes.id.
  - by destruct r.
  - rewrite Hid. destruct_or! Hr; subst r; cbn; by rewrite app_nil_r.
  - rewrite Hid. cbn. by rewrite app_nil_r.
  - rewrite Hid. cbn. by rewrite <- (assoc_L (++)).
Qed.

Lemma wf_path n : nav_wf n -> Forall nav_segment (resource_name (nav_resource n) :: nav_path n).
Proof.
  intros Hn. constructor; [apply resource_segment|].
  assert (Hj : nav_segment (T "jobs")) by (repeat split; by_computation).
  assert (Hr : nav_segment (T "runs")) by (repeat split; by_computation).
  destruct Hn as [r|r id Hor Hid|id Hid|id sub Hid Hs]; cbn [nav nav_path nav_resource nav_id nav_runs nav_subId];
    repeat case_decide; repeat (apply Forall_cons_2; [done|]); apply Forall_nil_2.
Qed.

(** The navigation parser accepts exactly the texts of expressible links. *)
Lemma parseNavigation_spec v n : parseNavigation v = Some n <-> nav_wf n /\ navigation_text n = v.
Proof.
  unfold parseNavigation. split.
  - destruct (starts_with PT v) eqn:Hp; [|done]. cbn [negb]. apply starts_with_spec in Hp. change (length PT) with 5%nat in Hp.
    pose proof (join_split (drop 5 v)) as Hj. destruct (existsb _ _) eqn:Hx; [done|]. apply segments_of in Hx.
    destruct (split_on "/" (drop 5 v)) as [|name path]; [done|]. destruct (resource_of name) as [r|] eqn:Hr; [|done].
    apply resource_of_spec in Hr as ->. apply Forall_cons in Hx as [_ Hx]. rewrite Hp, <- Hj. intros Hn.
    destruct r, path as [|p1 [|p2 [|p3 [|p4 [|p5 ps]]]]]; try done;
      repeat match goal with H : Forall _ (_ :: _) |- _ => apply Forall_cons in H as [? H] end;
      try (case_decide; [|done]); destruct_and?; subst;
      try (rewrite segment_truthy in Hn by done);
      injection Hn as <-;
      match goal with |- nav_wf ?n /\ _ =>
        assert (Hw : nav_wf n)
          by first [apply wf_plain | by apply wf_job | by apply wf_run | apply wf_id; [tauto | done]];
        split; [exact Hw | exact (wf_text _ Hw)]
      end.
  - intros [Hn <-]. rewrite wf_text, starts_with_app by done. cbn [negb].
    change (drop 5 (PT ++ ?t)) with t. rewrite split_join by (by apply wf_path).
    rewrite (proj2 (segments_of _)) by (by apply wf_path). rewrite resource_of_name.
    destruct Hn as [r|r id Hor Hid|id Hid|id sub Hid Hs]; cbn [nav nav_path nav_resource nav_id nav_runs nav_subId].
    + by destruct r.
    + pose proof (segment_truthy _ Hid). destruct_or! Hor; subst r; rewrite decide_False by done; by rewrite H.
    + rewrite decide_True by done. by rewrite decide_True.
    + by rewrite decide_True.
Qed.

(** ** Bounds of a navigation text *)
Lemma utf8_length_bound t : 0 <= utf8_length t <= 2 * Z.of_nat (length t).
Proof.
  induction t as [|c t IH]; [done|]. change (utf8_length (c :: t)) with ((if (N_of_ascii c <? 128)%N then 1 else 2) + utf8_length t).
  cbn [length]. destruct (_ <? _)%N; lia.
Qed.

Lemma segment_length p : segment p = true -> (length p <= 256)%nat.
Proof. unfold segment. intros Hs. apply andb_prop in Hs as [_ Hs]. lia. Qed.

(** No character of it is refused by [bounded]. *)
Definition clean_char (c : ascii) : bool := negb (control_char c || Ascii.eqb c "\").
Definition clean (t : text) : Prop := Forall (fun c => clean_char c = true) t.

Lemma segment_char_clean c : segment_char c = true -> clean_char c = true.
Proof. by destruct c as [[] [] [] [] [] [] [] []]. Qed.

Lemma segment_clean p : nav_segment p -> clean p.
Proof.
  intros (Hs & _). unfold segment in Hs. apply andb_prop in Hs as [Hs _]. apply andb_prop in Hs as [Hs _].
  rewrite forallb_forall in Hs. apply Forall_forall. intros c Hc. apply segment_char_clean, Hs. by apply list_elem_of_In.
Qed.

Lemma clean_app t t' : clean t -> clean t' -> clean (t ++ t').
Proof. intros. by apply Forall_app. Qed.

Lemma join_clean parts : Forall nav_segment parts -> clean (join_slash parts).
Proof.
  induction 1 as [|p ps Hp Hps IH]; [constructor|]. destruct ps as [|q ps]; [by apply segment_clean|].
  change (join_slash (p :: q :: ps)) with (p ++ T "/" ++ join_slash (q :: ps)).
  apply clean_app; [by apply segment_clean|]. apply clean_app; [|done]. by_computation.
Qed.

Lemma join_length parts : Forall nav_segment parts -> (length (join_slash parts) <= 257 * length parts)%nat.
Proof.
  induction 1 as [|p ps [Hp _] Hps IH]; [done|]. apply segment_length in Hp. destruct ps as [|q ps]; [cbn; lia|].
  change (join_slash (p :: q :: ps)) with (p ++ T "/" ++ join_slash (q :: ps)).
  rewrite !length_app. change (length (T "/")) with 1%nat. cbn [length] in *. lia.
Qed.

Lemma bounded_clean v : v <> [] -> clean v -> utf8_length v <= MAX_LINK_BYTES -> bounded v = Ok tt.
Proof.
  intros Hn Hc Hl. unfold bounded. rewrite (proj2 (Z.ltb_ge _ _)) by done. rewrite bool_decide_false by done. cbn [orb].
  destruct (existsb _ v) eqn:Hx; [|done]. exfalso. apply existsb_exists in Hx as (c & Hin & Hb).
  unfold clean in Hc. rewrite Forall_forall in Hc. apply list_elem_of_In in Hin. specialize (Hc c Hin).
  unfold clean_char in Hc. by rewrite Hb in Hc.
Qed.

Lemma wf_bounded n : nav_wf n -> bounded (navigation_text n) = Ok tt.
Proof.
  intros Hn. pose proof (wf_path n Hn) as Hp. rewrite wf_text by done. apply bounded_clean.
  - done.
  - apply clean_app; [by_computation | by apply join_clean].
  - pose proof (join_length _ Hp) as Hl. pose proof (utf8_length_bound (PT ++ join_slash (resource_name (nav_resource n) :: nav_path n))) as Hu.
    rewrite length_app in Hu. change (length PT) with 5%nat in Hu. unfold MAX_LINK_BYTES.
    assert (length (nav_path n) <= 4)%nat by (unfold nav_path; destruct (nav_id n), (nav_subId n); try case_decide; cbn; lia).
    cbn [length] in Hl. lia.
Qed.

(** ** Round trips *)
Section link_facts.
Context `{LinkEnv}.

Lemma parse_recognized v l : parse v = recognized l <-> parseRecognized v = Ok l.
Proof. unfold parse. destruct (parseRecognized v); [|by repeat case_decide]. split; congruence. Qed.

Lemma encode_ok input v :
  encode input = Ok v <-> link_text input = Ok v /\ exists l, parseRecognized v = Ok l /\ same_kind l input = true.
Proof.
  unfold encode. split.
  - intros Hb. apply bind_ok in Hb as (v' & Ht & Hp). destruct (parse v') as [l|c|c] eqn:Hl; [|done..].
    apply parse_recognized in Hl. destruct (same_kind l input) eqn:Hk; [|done]. injection Hp as ->. eauto.
  - intros (-> & l & Hp%parse_recognized & Hk). cbn. by rewrite Hp, Hk.
Qed.

(** What a recognised text is, per kind of link. *)
Inductive spelled (v : text) : ParsedLink -> Prop :=
| spelled_locator l :
    locator_fromBinary (locator_toBinary l) = Some l -> locator_acceptable l (locator_toBinary l) ->
    v = DEVICE_REFERENCE_PREFIX ++ base32 (locator_toBinary l) ->
    spelled v (link_action (registered (deviceLinkLocator l)))
| spelled_navigation n : nav_wf n -> v = navigation_text n -> spelled v (link_navigation n)
| spelled_action a :
    action_fromBinary (action_toBinary a) = Some a -> validateAction a = Ok tt ->
    (forall l, action a <> Some (deviceLinkLocator l)) ->
    v = (if isDeviceAction a then DEVICE_PREFIX else ACTION_PREFIX) ++ base64url (action_toBinary a) ->
    spelled v (link_action a)
| spelled_material m :
    material_fromBinary (material_toBinary m) = Some m -> mat_schemaVersion m = 1 -> mat_canonicalDiscoveryOrigin m <> [] ->
    v = T "ptm1:" ++ base64url (material_toBinary m) ->
    spelled v (link_action (registered (publicConnection m)))
| spelled_circuit c prefix :
    circuit_fromBinary (circuit_toBinary c) = Some c -> env_protocolVersion c = 1 -> env_relayOrigin c <> [] ->
    is_Some (env_connectionGrant c) -> is_Some (env_routeAttestation c) ->
    prefix = T "ptc1:" \/ prefix = CONNECT_PREFIX -> v = prefix ++ base64url (circuit_toBinary c) ->
    spelled v (link_action (registered (circuitConnection c)))
| spelled_url u :
    url_parse v = Some u -> url_username u = [] -> url_password u = [] ->
    url_protocol u = T "http:" \/ url_protocol u = T "https:" -> spelled v (link_url v)
| spelled_oauth u :
    url_parse v = Some u -> url_username u = [] -> url_password u = [] ->
    starts_with (T "peers-touch://oauth/callback?") v = true -> NoDup (url_searchParams u).*1 ->
    (url_searchParams u).*1 ⊆ oauth_keys -> param u (T "state") <> [] ->
    (param u (T "code") <> [] <-> param u (T "error") = []) -> spelled v (link_oauth_callback v).

Lemma truthy_text_spec t : truthy_text t = true <-> t <> [].
Proof. unfold truthy_text. by rewrite negb_true_iff, bool_decide_eq_false. Qed.
Lemma truthy_text_false t : truthy_text t = false <-> t = [].
Proof. unfold truthy_text. by rewrite negb_false_iff, bool_decide_eq_true. Qed.

Lemma decoded_ok {A} (o : option A) a : decoded o = Ok a -> o = Some a.
Proof. destruct o; cbn; congruence. Qed.

Lemma parse_locator_ok t l :
  parse_locator t = Ok l -> spelled (DEVICE_REFERENCE_PREFIX ++ t) l.
Proof.
  intros Hb. apply bind_ok in Hb as (bytes & Hu & Hb). apply bind_ok in Hb as (loc & Hd & Hb). apply decoded_ok in Hd.
  case_decide as Ha; [|done]. injection Hb as <-. apply unbase32_ok in Hu as (<- & _).
  pose proof Ha as Ha'. unfold locator_acceptable in Ha'. destruct_and! Ha'. subst bytes. by constructor.
Qed.

Lemma parse_action_ok prefix t l :
  prefix = DEVICE_PREFIX \/ prefix = ACTION_PREFIX -> parse_action_link prefix (prefix ++ t) = Ok l -> spelled (prefix ++ t) l.
Proof.
  intros Hpre Hb. unfold parse_action_link in Hb. rewrite drop_app_length in Hb.
  apply bind_ok in Hb as (bytes & Hu & Hb). apply bind_ok in Hb as (a & Hc & Hb).
  apply bind_ok in Hc as (a' & Hd & Hc). apply decoded_ok in Hd. apply bind_ok in Hc as ([] & Hv & Hc).
  case_decide as Heq; [done|]. injection Hc as ->. apply unbase64url_ok in Hu as (<- & _). subst bytes.
  assert (Hk : (if isDeviceAction a then DEVICE_PREFIX else ACTION_PREFIX) = prefix /\ l = link_action a
               /\ forall l, action a <> Some (deviceLinkLocator l)).
  { destruct (action a) as [[]|] eqn:Hac; try done;
      (destruct (negb _) eqn:Hn; [done|]; injection Hb as <-; apply negb_false_iff, eqb_prop in Hn; split_and!; try done;
       rewrite Hn; destruct Hpre as [->| ->]; by case_bool_decide). }
  destruct Hk as (<- & -> & Hnl). by constructor.
Qed.

Lemma parse_material_ok t l : parse_material t = Ok l -> spelled (T "ptm1:" ++ t) l.
Proof.
  intros Hb. apply bind_ok in Hb as (bytes & Hu & Hb). apply bind_ok in Hb as (m & Hd & Hb). apply decoded_ok in Hd.
  case_decide as Ha; [done|]. injection Hb as <-. apply unbase64url_ok in Hu as (<- & _).
  assert (Heq : material_toBinary m = bytes) by (apply dec_stable; tauto). subst bytes.
  constructor; try done; [apply dec_stable|]; tauto.
Qed.

Lemma parse_circuit_ok prefix t l :
  prefix = T "ptc1:" \/ prefix = CONNECT_PREFIX -> parse_circuit t = Ok l -> spelled (prefix ++ t) l.
Proof.
  intros Hp Hb. apply bind_ok in Hb as (bytes & Hu & Hb). apply bind_ok in Hb as (c & Hd & Hb). apply decoded_ok in Hd.
  case_decide as Ha; [done|]. injection Hb as <-. apply unbase64url_ok in Hu as (<- & _).
  assert (Heq : circuit_toBinary c = bytes) by (apply dec_stable; tauto). subst bytes.
  apply (spelled_circuit _ c prefix); try done; try (apply not_eq_None_Some); [apply dec_stable| |..]; tauto.
Qed.

Lemma parse_url_ok v l : parse_url v = Ok l -> spelled v l.
Proof.
  unfold parse_url. destruct (url_parse v) as [u|] eqn:Hu; [|done]. destruct (_ || _) eqn:Hc; [done|].
  apply orb_false_iff in Hc as [Hc1%truthy_text_false Hc2%truthy_text_false].
  case_bool_decide as Hpr; [intros [= <-]; by eapply spelled_url|].
  destruct (_ && _ && _ && _ && _) eqn:Ho; [|done]. do 4 (apply andb_prop in Ho as [Ho _]).
  destruct (_ || _) eqn:Hk; [done|]. apply orb_false_iff in Hk as [[Hk1 Hk2]%orb_false_iff Hk3].
  destruct (existsb _ _) eqn:Hx; [done|]. intros [= <-].
  apply negb_false_iff, bool_decide_eq_true in Hk1. apply negb_false_iff, truthy_text_spec in Hk2.
  eapply spelled_oauth; try done.
  - intros key Hin. destruct (decide (key ∈ oauth_keys)) as [|Hn]; [done|]. exfalso.
    apply not_true_iff_false in Hx. apply Hx, existsb_exists. exists key. split; [by apply list_elem_of_In|].
    by rewrite bool_decide_false.
  - rewrite <- truthy_text_spec, <- truthy_text_false. apply eqb_false_iff in Hk3.
    destruct (truthy_text (param u _)), (truthy_text (param u _)); intuition congruence.
Qed.

Lemma parseRecognized_spelled v l : parseRecognized v = Ok l -> spelled v l.
Proof.
  intros Hb. apply bind_ok in Hb as ([] & _ & Hb).
  destruct (starts_with DEVICE_REFERENCE_PREFIX v) eqn:H1.
  { rewrite (starts_with_spec _ _ H1). by apply parse_locator_ok. }
  destruct (starts_with PT v) eqn:H2.
  { destruct (parseNavigation v) as [n|] eqn:Hn; [|done]. injection Hb as <-. apply parseNavigation_spec in Hn as [? <-]. by constructor. }
  destruct (starts_with DEVICE_PREFIX v) eqn:H3.
  { rewrite (starts_with_spec _ _ H3) in Hb |- *. apply parse_action_ok; auto. }
  destruct (starts_with ACTION_PREFIX v) eqn:H4.
  { rewrite (starts_with_spec _ _ H4) in Hb |- *. apply parse_action_ok; auto. }
  destruct (starts_with (T "ptm1:") v) eqn:H5.
  { rewrite (starts_with_spec _ _ H5). by apply parse_material_ok. }
  destruct (starts_with (T "ptc1:") v) eqn:H6.
  { rewrite (starts_with_spec _ _ H6). apply parse_circuit_ok; auto. }
  destruct (starts_with CONNECT_PREFIX v) eqn:H7.
  { rewrite (starts_with_spec _ _ H7). apply parse_circuit_ok; auto. }
  by apply parse_url_ok.
Qed.

Lemma navigation_recognized n : nav_wf n -> parseRecognized (navigation_text n) = Ok (link_navigation n).
Proof.
  intros Hn. unfold parseRecognized. rewrite wf_bounded by done. cbn [mbind result_bind].
  assert (Hp : parseNavigation (navigation_text n) = Some n) by (by apply parseNavigation_spec).
  rewrite Hp, wf_text by done. by rewrite (starts_with_app PT).
Qed.

(** The two prefixes of device links do not overlap: a colon is not a base64url character. *)
Lemma base64url_not_reference bytes :
  Forall is_byte bytes -> starts_with DEVICE_REFERENCE_PREFIX (DEVICE_PREFIX ++ base64url bytes) = false.
Proof.
  intros Hb. unfold DEVICE_REFERENCE_PREFIX. rewrite starts_with_app_l. apply not_true_iff_false. intros Hs.
  apply starts_with_spec in Hs. rewrite (base64url_spec bytes Hb) in Hs.
  assert (Hin : ":"%char ∈ to_url <$> (char64 <$> sextets bytes)) by (rewrite Hs; apply elem_of_app; left; by_computation).
  apply list_elem_of_fmap in Hin as (c & Hc & Hin). apply list_elem_of_fmap in Hin as (s & -> & Hin).
  pose proof (sextets_range bytes Hb) as Hr. rewrite Forall_forall in Hr. specialize (Hr s Hin).
  pose proof (char64_spec s Hr) as Hch. destruct_and! Hch. rewrite <- Hc in *. discriminate.
Qed.

Lemma reparse_64 bytes bytes' :
  Forall is_byte bytes -> unbase64url (base64url bytes) = Ok bytes' -> bytes' = bytes.
Proof.
  intros Hb Hu. destruct (decide (bytes = [])) as [->|Hn]; [done|].
  rewrite unbase64url_base64url in Hu by done. congruence.
Qed.

Lemma reparse_32 bytes bytes' : Forall is_byte bytes -> unbase32 (base32 bytes) = Ok bytes' -> bytes' = bytes.
Proof.
  intros Hb Hu. destruct (decide (bytes = [])) as [->|Hn]; [done|].
  rewrite unbase32_base32 in Hu by done. congruence.
Qed.

Lemma validated a : validateAction a = Ok tt -> protocolVersion a = 1 /\ is_Some (action a).
Proof.
  unfold validateAction. case_decide; [done|]. intros Hv. split; [done|]. destruct (action a); [eauto | done].
Qed.

(** The payload of [a] survives the protobuf runtime. *)
Definition transportable (a : SchemaAction) : Prop :=
  match action a with
  | Some (deviceLinkLocator l) => locator_fromBinary (locator_toBinary l) = Some l /\ Forall is_byte (locator_toBinary l)
  | _ => action_fromBinary (action_toBinary a) = Some a /\ Forall is_byte (action_toBinary a)
  end.

Lemma locator_reparsed l link :
  locator_fromBinary (locator_toBinary l) = Some l -> Forall is_byte (locator_toBinary l) ->
  parseRecognized (DEVICE_REFERENCE_PREFIX ++ base32 (locator_toBinary l)) = Ok link ->
  link = link_action (registered (deviceLinkLocator l)).
Proof.
  intros Hl Hb Hp. apply bind_ok in Hp as (_ & _ & Hp). rewrite starts_with_app, drop_app_length in Hp.
  apply bind_ok in Hp as (bytes & Hu & Hp). apply reparse_32 in Hu as ->; [|done]. rewrite Hl in Hp. cbn [decoded mbind result_bind] in Hp.
  case_decide; [congruence | done].
Qed.

Lemma action_reparsed a link :
  action_fromBinary (action_toBinary a) = Some a -> Forall is_byte (action_toBinary a) ->
  parseRecognized ((if isDeviceAction a then DEVICE_PREFIX else ACTION_PREFIX) ++ base64url (action_toBinary a)) = Ok link ->
  link = link_action a.
Proof.
  intros Ha Hb Hp. apply bind_ok in Hp as (_ & _ & Hp).
  assert (Hl : parse_action_link (if isDeviceAction a then DEVICE_PREFIX else ACTION_PREFIX)
                 ((if isDeviceAction a then DEVICE_PREFIX else ACTION_PREFIX) ++ base64url (action_toBinary a)) = Ok link).
  { destruct (isDeviceAction a); [rewrite base64url_not_reference in Hp by done|]; exact Hp. }
  clear Hp. unfold parse_action_link in Hl. rewrite drop_app_length in Hl.
  apply bind_ok in Hl as (bytes & Hu & Hl). apply reparse_64 in Hu as ->; [|done].
  apply bind_ok in Hl as (a' & Hc & Hl). apply bind_ok in Hc as (a'' & Hd & Hc). apply decoded_ok in Hd.
  apply bind_ok in Hc as (_ & _ & Hc). case_decide; [done|]. assert (a' = a) as -> by congruence.
  destruct (action a) as [[]|]; try done; destruct (negb _); congruence.
Qed.

(** The navigation links a text can express are exactly those the encoder
    produces, each from one text: [parse] recognises a text as a link precisely when the
    link has the shape of the syntax (a known resource, segments of 1 to 256 allowed
    characters other than dot and dot-dot, runs only below a cron job) and [encode]
    returns that text for it. *)
Theorem navigation_links_exact v n :
  parse v = recognized (link_navigation n) <-> nav_wf n /\ encode (in_navigation n) = Ok v.
Proof.
  rewrite parse_recognized, encode_ok. split.
  - intros Hp. pose proof (parseRecognized_spelled _ _ Hp) as Hs. inversion Hs; subst. eauto 6.
  - intros (Hn & Ht & _). injection Ht as <-. by apply navigation_recognized.
Qed.

(** Action links round trip. An encoded action is parsed back to the same action,
    provided the protobuf runtime decodes what it encoded for it; and a text recognised as
    an action is the one text [encode] gives for that action, unless it is one of the
    short connection links. *)
Theorem action_links_round_trip a v :
  transportable a ->
  (encode (in_action a) = Ok v -> parse v = recognized (link_action a))
  /\ (parse v = recognized (link_action a) ->
      encode (in_action a) = Ok v
      \/ (exists m, action a = Some (publicConnection m) /\ v = T "ptm1:" ++ base64url (material_toBinary m))
      \/ (exists c, action a = Some (circuitConnection c)
           /\ (v = T "ptc1:" ++ base64url (circuit_toBinary c) \/ v = CONNECT_PREFIX ++ base64url (circuit_toBinary c)))).
Proof.
  intros Htr. rewrite parse_recognized, encode_ok. split.
  - intros (Ht & link & Hp & _). rewrite Hp. f_equal. apply bind_ok in Ht as ([] & Hv & Ht). injection Ht as <-.
    unfold transportable in Htr. apply validated in Hv as [Hver [c Hc]]. rewrite Hc in *.
    destruct c; try (destruct Htr; by apply action_reparsed). destruct Htr as [Hl Hb].
    rewrite (locator_reparsed _ _ Hl Hb Hp). destruct a; cbn in *; by subst.
  - intros Hp. pose proof (parseRecognized_spelled _ _ Hp) as Hs. inversion Hs as [l| |a' Ha Hv Hnl| | | |]; subst.
    + left. eauto.
    + left. split; [|eauto]. cbn [link_text]. rewrite Hv. cbn [mbind result_bind]. f_equal.
      destruct (action a) as [[]|]; try done. by edestruct Hnl.
    + right. left. eauto.
    + right. right. eexists. split; [done|]. destruct_or!; subst; auto.
Qed.

(** What a recognised web link or OAuth callback is. A web link is a URL over http or
    https without credentials, taken unchanged; an OAuth callback has unique parameters
    from the four known ones, a state, and exactly one of a code and an error. *)
Theorem recognized_urls_safe v w :
  (parse v = recognized (link_url w) ->
     w = v /\ exists u, url_parse v = Some u /\ url_username u = [] /\ url_password u = []
       /\ (url_protocol u = T "http:" \/ url_protocol u = T "https:"))
  /\ (parse v = recognized (link_oauth_callback w) ->
     w = v /\ exists u, url_parse v = Some u /\ url_username u = [] /\ url_password u = []
       /\ NoDup (url_searchParams u).*1 /\ (url_searchParams u).*1 ⊆ oauth_keys
       /\ param u (T "state") <> [] /\ (param u (T "code") <> [] <-> param u (T "error") = [])).
Proof.
  rewrite !parse_recognized. split; intros Hp%parseRecognized_spelled; inversion Hp; subst; eauto 12.
Qed.
End link_facts.

(** ** Witnesses *)

(** A runtime that writes an invite code as its characters. *)
Module LinkDemo.
Definition invite (code : text) : SchemaAction := registered (inviteCode code).

#[local] Instance env : LinkEnv := {|
  action_fromBinary := fun b => Some (invite ((fun z => ascii_of_N (Z.to_N z)) <$> b));
  action_toBinary := fun a =>
    match action a with Some (inviteCode t) => (fun c => Z.of_N (N_of_ascii c)) <$> t | _ => [] end;
  locator_fromBinary := fun _ => None; locator_toBinary := fun _ => [];
  material_fromBinary := fun _ => None; material_toBinary := fun _ => [];
  circuit_fromBinary := fun _ => None; circuit_toBinary := fun _ => [];
  url_parse := fun v =>
    if starts_with (T "https:") v
    then Some {| url_username := []; url_password := []; url_protocol := T "https:"; url_hostname := []; url_pathname := [];
                 url_port := []; url_searchParams := [] |}
    else None |}.

Definition invite_text : text := T "peers-touch://action/v1#YWJj".

Lemma action_links_round_trip_witness :
  transportable (invite (T "abc")) /\ encode (in_action (invite (T "abc"))) = Ok invite_text
  /\ parse invite_text = recognized (link_action (invite (T "abc"))).
Proof.
  assert (Ht : transportable (invite (T "abc"))) by (split; [reflexivity | by_computation]).
  assert (He : encode (in_action (invite (T "abc"))) = Ok invite_text) by reflexivity.
  split; [exact Ht|]. split; [exact He|]. exact (proj1 (action_links_round_trip _ invite_text Ht) He).
Defined.

Lemma recognized_urls_safe_witness :
  exists u, url_parse (T "https://a") = Some u /\ url_username u = [] /\ url_protocol u = T "https:".
Proof.
  destruct (proj1 (@recognized_urls_safe env (T "https://a") (T "https://a")) eq_refl) as (_ & u & Hu & Hn & _ & Hp).
  exists u. split; [exact Hu|]. split; [exact Hn|]. injection Hu as <-. reflexivity.
Defined.

(** The encoder checks the kind of the link it parses back and not the link: an identifier
    that holds a slash gives the text of another link. *)
Example navigation_confusion :
  let n := nav cron (Some (T "x/runs/y")) false None in
  exists v, encode (in_navigation n) = Ok v
    /\ parse v = recognized (link_navigation (nav cron (Some (T "x")) true (Some (T "y")))).
Proof. eexists. split; reflexivity. Qed.
End LinkDemo.
