(* ===== verification/Sha256.v ===== *)
(** * The streaming SHA-256 of the media package

    Models the class [Sha256] of [packages/client-media-security/src/index.ts]: the state
    with its 64-byte buffer, [update], [digest] and [processBlock], with the 32-bit operators
    of the source. [reference] is the hash of FIPS 180-4 over a whole message. *)
From Stdlib Require Import Ascii Lia ZArith.
From stdpp Require Import base numbers strings list.
From S2P Require Import Prelude JsInt TextCodec.

(** ** Typed arrays and views *)

(** [array.set(source, offset)], in range. *)
Definition set_range (offset : nat) (source array : list Z) : list Z :=
  take offset array ++ source ++ drop (offset + length source) array.

(** [array.fill(value, from, to)] *)
Definition fill (value : Z) (from to : nat) (array : list Z) : list Z :=
  set_range from (replicate (to - from) value) array.

(** [DataView.getUint32] and [setUint32], big endian. *)
Definition be_word (a b c d : Z) : Z := ((a * 256 + b) * 256 + c) * 256 + d.

Definition getUint32 (view : list Z) (i : nat) : Z :=
  be_word (nth i view 0) (nth (i + 1) view 0) (nth (i + 2) view 0) (nth (i + 3) view 0).

Definition word_bytes (w : Z) : list Z :=
  let w := toUint32 w in [w / 2 ^ 24; w / 2 ^ 16 mod 256; w / 2 ^ 8 mod 256; w mod 256].

Definition setUint32 (i : nat) (value : Z) (view : list Z) : list Z := set_range i (word_bytes value) view.

(** ** The class *)
Definition quad (a b c d : Z) : list Z := [a; b; c; d].

Definition SHA256_K : list Z :=
  quad 0x428a2f98 0x71374491 0xb5c0fbcf 0xe9b5dba5
  ++ quad 0x3956c25b 0x59f111f1 0x923f82a4 0xab1c5ed5
  ++ quad 0xd807aa98 0x12835b01 0x243185be 0x550c7dc3
  ++ quad 0x72be5d74 0x80deb1fe 0x9bdc06a7 0xc19bf174
  ++ quad 0xe49b69c1 0xefbe4786 0x0fc19dc6 0x240ca1cc
  ++ quad 0x2de92c6f 0x4a7484aa 0x5cb0a9dc 0x76f988da
  ++ quad 0x983e5152 0xa831c66d 0xb00327c8 0xbf597fc7
  ++ quad 0xc6e00bf3 0xd5a79147 0x06ca6351 0x14292967
  ++ quad 0x27b70a85 0x2e1b2138 0x4d2c6dfc 0x53380d13
  ++ quad 0x650a7354 0x766a0abb 0x81c2c92e 0x92722c85
  ++ quad 0xa2bfe8a1 0xa81a664b 0xc24b8b70 0xc76c51a3
  ++ quad 0xd192e819 0xd6990624 0xf40e3585 0x106aa070
  ++ quad 0x19a4c116 0x1e376c08 0x2748774c 0x34b0bcb5
  ++ quad 0x391c0cb3 0x4ed8aa4a 0x5b9cca4f 0x682e6ff3
  ++ quad 0x748f82ee 0x78a5636f 0x84c87814 0x8cc70208
  ++ quad 0x90befffa 0xa4506ceb 0xbef9a3f7 0xc67178f2.

(** Eight working variables, [h0] to [h7] or [a] to [h]. *)
Record W8 : Set := Words { wa : Z; wb : Z; wc : Z; wd : Z; we : Z; wf : Z; wg : Z; wh : Z }.

Record Sha256 : Set := {
  words : W8;
  buffer : list Z;
  bufferLength : nat;
  bytesHashed : Z;
  finished : bool
}.

Definition initial_words : W8 :=
  Words 0x6a09e667 0xbb67ae85 0x3c6ef372 0xa54ff53a 0x510e527f 0x9b05688c 0x1f83d9ab 0x5be0cd19.

Definition new_Sha256 : Sha256 :=
  {| words := initial_words; buffer := replicate 64 0; bufferLength := 0; bytesHashed := 0; finished := false |}.

Definition rotr (value shift : Z) : Z := ((value >>> shift) or (value << (32 - shift)))%js.

Definition load_word (chunk : list Z) (w : list Z) (i : nat) : list Z := <[i := getUint32 chunk (i * 4)]> w.

Definition extend_word (w : list Z) (i : nat) : list Z :=
  let at_ j := nth (i - j) w 0 in
  let s0 := (rotr (at_ 15%nat) 7 ^^ rotr (at_ 15%nat) 18 ^^ (at_ 15%nat >>> 3))%js in
  let s1 := (rotr (at_ 2%nat) 17 ^^ rotr (at_ 2%nat) 19 ^^ (at_ 2%nat >>> 10))%js in
  <[i := ((at_ 16%nat + s0 + at_ 7%nat + s1) >>> 0)%js]> w.

Definition round (st : W8) (k w : Z) : W8 :=
  let '(Words a b c d e f g h) := st in
  let s1 := (rotr e 6 ^^ rotr e 11 ^^ rotr e 25)%js in
  let ch := ((e & f) ^^ (js_not e & g))%js in
  let temp1 := ((h + s1 + ch + k + w) >>> 0)%js in
  let s0 := (rotr a 2 ^^ rotr a 13 ^^ rotr a 22)%js in
  let maj := ((a & b) ^^ (a & c) ^^ (b & c))%js in
  let temp2 := ((s0 + maj) >>> 0)%js in
  Words ((temp1 + temp2) >>> 0)%js a b c ((d + temp1) >>> 0)%js e f g.

Definition load_schedule (chunk : list Z) : list Z :=
  fold_left extend_word (seq 16 48) (fold_left (load_word chunk) (seq 0 16) (replicate 64 0)).

Definition rounds (st : W8) (w : list Z) : W8 :=
  fold_left (fun st i => round st (nth i SHA256_K 0) (nth i w 0)) (seq 0 64) st.

Definition processBlock (st : W8) (chunk : list Z) : W8 :=
  let '(Words h0 h1 h2 h3 h4 h5 h6 h7) := st in
  let '(Words a b c d e f g h) := rounds st (load_schedule chunk) in
  Words ((h0 + a) >>> 0)%js ((h1 + b) >>> 0)%js ((h2 + c) >>> 0)%js ((h3 + d) >>> 0)%js
        ((h4 + e) >>> 0)%js ((h5 + f) >>> 0)%js ((h6 + g) >>> 0)%js ((h7 + h) >>> 0)%js.

(** The [while] loop; each turn takes at least one byte, so the length of [data] is enough
    fuel. *)
Fixpoint update_loop (fuel position : nat) (data : list Z) (st : Sha256) : Sha256 :=
  match fuel with
  | O => st
  | S fuel =>
      if (position <? length data)%nat then
        let take_ := Nat.min (length data - position) (64 - bufferLength st) in
        let buffer' := set_range (bufferLength st) (take take_ (drop position data)) (buffer st) in
        let full := (bufferLength st + take_ =? 64)%nat in
        update_loop fuel (position + take_) data
          {| words := if full then processBlock (words st) buffer' else words st; buffer := buffer';
             bufferLength := if full then 0 else bufferLength st + take_;
             bytesHashed := bytesHashed st; finished := finished st |}
      else st
  end.

Definition update (data : list Z) (st : Sha256) : result Sha256 :=
  if finished st then Err "client-media:hash-finalized"
  else
    Ok (update_loop (length data) 0 data
          {| words := words st; buffer := buffer st; bufferLength := bufferLength st;
             bytesHashed := bytesHashed st + Z.of_nat (length data); finished := false |}).

Definition finish (st : Sha256) : Sha256 :=
  let bitLength := bytesHashed st * 8 in
  let buf := <[bufferLength st := 0x80]> (buffer st) in
  let len := (bufferLength st + 1)%nat in
  let '(ws, buf, len) :=
    if (56 <? len)%nat then let buf := fill 0 len 64 buf in (processBlock (words st) buf, buf, 0%nat)
    else (words st, buf, len) in
  let buf := fill 0 len 56 buf in
  let buf := setUint32 56 (bitLength / 0x100000000) buf in
  let buf := setUint32 60 (bitLength >>> 0)%js buf in
  {| words := processBlock ws buf; buffer := buf; bufferLength := len; bytesHashed := bytesHashed st; finished := true |}.

Definition output (ws : W8) : list Z :=
  let '(Words h0 h1 h2 h3 h4 h5 h6 h7) := ws in
  concat ((fun word => word_bytes (word >>> 0)%js) <$> [h0; h1; h2; h3; h4; h5; h6; h7]).

Definition digest (st : Sha256) : Sha256 * list Z :=
  let st := if finished st then st else finish st in (st, output (words st)).

(** Successive calls of [update]. *)
Fixpoint updates (chunks : list (list Z)) (st : Sha256) : result Sha256 :=
  match chunks with
  | [] => Ok st
  | data :: chunks => match update data st with Ok st => updates chunks st | Err m => Err m end
  end.

(** ** The reference *)
Module reference.
Definition ROTR (n x : Z) : Z := Z.lor (Z.shiftr x n) (Z.shiftl x (32 - n) mod 2 ^ 32).
Definition SHR (n x : Z) : Z := Z.shiftr x n.
Definition Ch (x y z : Z) : Z := Z.lxor (Z.land x y) (Z.land (Z.lxor x (Z.ones 32)) z).
Definition Maj (x y z : Z) : Z := Z.lxor (Z.lxor (Z.land x y) (Z.land x z)) (Z.land y z).
Definition Sigma0 (x : Z) : Z := Z.lxor (Z.lxor (ROTR 2 x) (ROTR 13 x)) (ROTR 22 x).
Definition Sigma1 (x : Z) : Z := Z.lxor (Z.lxor (ROTR 6 x) (ROTR 11 x)) (ROTR 25 x).
Definition sigma0 (x : Z) : Z := Z.lxor (Z.lxor (ROTR 7 x) (ROTR 18 x)) (SHR 3 x).
Definition sigma1 (x : Z) : Z := Z.lxor (Z.lxor (ROTR 17 x) (ROTR 19 x)) (SHR 10 x).

(** The [n]-th last word of the schedule so far. *)
Definition back (n : nat) (w : list Z) : Z := nth (length w - n) w 0.

Definition next_word (w : list Z) : Z := (sigma1 (back 2 w) + back 7 w + sigma0 (back 15 w) + back 16 w) mod 2 ^ 32.

Fixpoint parse_words (bytes : list Z) : list Z :=
  match bytes with
  | a :: b :: c :: d :: rest => be_word a b c d :: parse_words rest
  | _ => []
  end.

Fixpoint expand (n : nat) (w : list Z) : list Z :=
  match n with O => w | S n => expand n (w ++ [next_word w]) end.

Definition schedule (block : list Z) : list Z := expand 48 (parse_words block).

Definition step (st : W8) (kw : Z * Z) : W8 :=
  let '(Words a b c d e f g h) := st in
  let T1 := (h + Sigma1 e + Ch e f g + kw.1 + kw.2) mod 2 ^ 32 in
  let T2 := (Sigma0 a + Maj a b c) mod 2 ^ 32 in
  Words ((T1 + T2) mod 2 ^ 32) a b c ((d + T1) mod 2 ^ 32) e f g.

Definition add_words (x y : W8) : W8 :=
  let '(Words a b c d e f g h) := x in
  let '(Words a' b' c' d' e' f' g' h') := y in
  Words ((a + a') mod 2 ^ 32) ((b + b') mod 2 ^ 32) ((c + c') mod 2 ^ 32) ((d + d') mod 2 ^ 32)
        ((e + e') mod 2 ^ 32) ((f + f') mod 2 ^ 32) ((g + g') mod 2 ^ 32) ((h + h') mod 2 ^ 32).

Definition compress (st : W8) (block : list Z) : W8 :=
  add_words st (fold_left step (zip SHA256_K (schedule block)) st).

(** One 1 bit, the least number of 0 bits, the length in bits on 64 bits. *)
Definition pad (message : list Z) : list Z :=
  let bits := Z.of_nat (length message) * 8 in
  message ++ [0x80] ++ replicate (Z.to_nat ((55 - Z.of_nat (length message)) mod 64)) 0
  ++ word_bytes (bits / 2 ^ 32) ++ word_bytes (bits mod 2 ^ 32).

Fixpoint blocks (n : nat) (bytes : list Z) : list (list Z) :=
  match n with O => [] | S n => take 64 bytes :: blocks n (drop 64 bytes) end.

Definition word_list (ws : W8) : list Z :=
  let '(Words a b c d e f g h) := ws in [a; b; c; d; e; f; g; h].

Definition sha256 (message : list Z) : list Z :=
  let padded := pad message in
  concat (word_bytes <$> word_list (fold_left compress (blocks (length padded / 64) padded) initial_words)).
End reference.

Example sha256_abc :
  reference.sha256 [97; 98; 99]
  = concat (word_bytes <$> [0xba7816bf; 0x8f01cfea; 0x414140de; 0x5dae2223; 0xb00361a3; 0x96177a9c; 0xb410ff61; 0xf20015ad]).
Proof. vm_compute. reflexivity. Qed.

Example class_abc :
  match updates [[97]; [98; 99]] new_Sha256 with Ok st => (digest st).2 = reference.sha256 [97; 98; 99] | Err _ => False end.
Proof. vm_compute. reflexivity. Qed.

(** ** Words *)
Definition is_word (x : Z) : Prop := 0 <= x < 2 ^ 32.
Definition words_ok (ws : W8) : Prop := Forall is_word (reference.word_list ws).

Lemma uint_word x : is_word x -> toUint32 x = x.
Proof. apply toUint32_small. Qed.
Lemma word_uint x : is_word (toUint32 x).
Proof. apply toUint32_range. Qed.
Lemma ushr_0 x : (x >>> 0)%js = toUint32 x.
Proof. unfold js_ushr. by rewrite Z.mod_0_l, Z.shiftr_0_r. Qed.

Lemma mod_uint x : x mod 2 ^ 32 = toUint32 x.
Proof. done. Qed.

Lemma uint_congr a a' b b' : toUint32 a = toUint32 a' -> toUint32 b = toUint32 b' -> toUint32 (a + b) = toUint32 (a' + b').
Proof. intros Ha Hb. by rewrite <- (uint_add_l a), <- (uint_add_r _ b), Ha, Hb, uint_add_l, uint_add_r. Qed.

Lemma uint_rotr x n : 0 < n < 32 -> is_word x -> toUint32 (rotr x n) = reference.ROTR n x.
Proof.
  intros Hn Hx. unfold rotr, reference.ROTR. rewrite uint_or, uint_ushr, uint_shl, uint_word by done.
  by rewrite !Z.mod_small by lia.
Qed.

Lemma uint_shr x n : 0 <= n < 32 -> is_word x -> toUint32 (x >>> n)%js = reference.SHR n x.
Proof. intros Hn Hx. rewrite uint_ushr, uint_word by done. by rewrite Z.mod_small by lia. Qed.

Ltac uint_simpl := rewrite ?uint_xor, ?uint_and, ?uint_not, ?uint_rotr, ?uint_shr by (done || lia); rewrite ?uint_word by done.

Section functions.
Context (x y z : Z) (Hx : is_word x) (Hy : is_word y) (Hz : is_word z).

Lemma uint_Sigma0 : toUint32 (rotr x 2 ^^ rotr x 13 ^^ rotr x 22)%js = reference.Sigma0 x.
Proof. by uint_simpl. Qed.
Lemma uint_Sigma1 : toUint32 (rotr x 6 ^^ rotr x 11 ^^ rotr x 25)%js = reference.Sigma1 x.
Proof. by uint_simpl. Qed.
Lemma uint_sigma0 : toUint32 (rotr x 7 ^^ rotr x 18 ^^ (x >>> 3))%js = reference.sigma0 x.
Proof. by uint_simpl. Qed.
Lemma uint_sigma1 : toUint32 (rotr x 17 ^^ rotr x 19 ^^ (x >>> 10))%js = reference.sigma1 x.
Proof. by uint_simpl. Qed.
Lemma uint_Ch : toUint32 ((x & y) ^^ (js_not x & z))%js = reference.Ch x y z.
Proof. by uint_simpl. Qed.
Lemma uint_Maj : toUint32 ((x & y) ^^ (x & z) ^^ (y & z))%js = reference.Maj x y z.
Proof. by uint_simpl. Qed.
End functions.

Create Rewrite HintDb sha.
#[export] Hint Rewrite uint_Sigma0 uint_Sigma1 uint_sigma0 uint_sigma1 uint_Ch uint_Maj using done : sha.

(** A function of the class and its reference agree as summands. *)
Lemma uint_eq_sum a b : toUint32 a = b -> toUint32 a = toUint32 b.
Proof. intros <-. by rewrite uint_idem. Qed.

Lemma round_step st k w :
  words_ok st -> is_word k -> is_word w -> round st k w = reference.step st (k, w) /\ words_ok (round st k w).
Proof.
  destruct st as [a b c d e f g h]. intros Hok Hk Hw. unfold words_ok, reference.word_list in Hok.
  repeat (apply Forall_cons in Hok as [? Hok]). split.
  - cbn [round reference.step fst snd]. rewrite !ushr_0, !uint_add_l, !uint_add_r.
    rewrite !mod_uint, ?uint_add_l, ?uint_add_r.
    f_equal; repeat (apply uint_congr); try done; apply uint_eq_sum; by autorewrite with sha.
  - cbn [round]. rewrite !ushr_0. unfold words_ok, reference.word_list.
    repeat (apply Forall_cons; split; [first [done | apply word_uint]|]). constructor.
Qed.

(** ** The message schedule *)
Lemma parse_words_ok n bytes :
  length bytes = (4 * n)%nat -> Forall is_byte bytes ->
  length (reference.parse_words bytes) = n /\ Forall is_word (reference.parse_words bytes).
Proof.
  revert bytes. induction n as [|n IH]; intros bytes Hl Hb.
  - destruct bytes; [|done]. split; [done | constructor].
  - do 4 (destruct bytes as [|? bytes]; [cbn in Hl; lia|]). cbn [reference.parse_words length].
    repeat (apply Forall_cons in Hb as [? Hb]). destruct (IH bytes) as [Hn Hf]; [cbn in Hl; lia | done|].
    split; [lia|]. constructor; [|done]. unfold is_byte, is_word, be_word in *. lia.
Qed.

Lemma load_words chunk :
  length chunk = 64%nat ->
  fold_left (load_word chunk) (seq 0 16) (replicate 64 0) = reference.parse_words chunk ++ replicate 48 0.
Proof. intros Hl. do 64 (destruct chunk as [|? chunk]; [done|]). by destruct chunk. Qed.

Lemma nth_is_word i w : Forall is_word w -> is_word (nth i w 0).
Proof.
  intros Hw. destruct (nth_in_or_default i w 0) as [Hin| ->]; [|unfold is_word; lia].
  rewrite Forall_forall in Hw. by apply Hw, list_elem_of_In.
Qed.

Lemma extend_word_spec w m :
  (16 <= length w)%nat -> Forall is_word w ->
  extend_word (w ++ replicate (S m) 0) (length w) = (w ++ [reference.next_word w]) ++ replicate m 0
  /\ Forall is_word (w ++ [reference.next_word w]).
Proof.
  intros Hl Hw. split.
  - unfold extend_word. rewrite !app_nth1 by lia. rewrite ushr_0, insert_app_r_alt, Nat.sub_diag by lia.
    cbn [replicate]. rewrite <- (assoc_L (++)). f_equal. cbn. f_equal.
    unfold reference.next_word, reference.back. rewrite mod_uint.
    pose proof (nth_is_word (length w - 15) w Hw). pose proof (nth_is_word (length w - 2) w Hw).
    match goal with |- toUint32 (?a + ?s0 + ?b + ?s1) = _ => replace (a + s0 + b + s1) with (s1 + b + s0 + a) by lia end.
    repeat (apply uint_congr); try done; apply uint_eq_sum; by autorewrite with sha.
  - apply Forall_app. split; [done|]. constructor; [|constructor]. unfold reference.next_word. rewrite mod_uint. apply word_uint.
Qed.

Lemma extend_words n w :
  (16 <= length w)%nat -> Forall is_word w ->
  fold_left extend_word (seq (length w) n) (w ++ replicate n 0) = reference.expand n w
  /\ Forall is_word (reference.expand n w) /\ length (reference.expand n w) = (length w + n)%nat.
Proof.
  revert w. induction n as [|n IH]; intros w Hl Hw.
  - cbn. rewrite app_nil_r. split_and!; (done || lia).
  - destruct (extend_word_spec w n Hl Hw) as [Hs Hok]. cbn [seq fold_left reference.expand]. rewrite Hs.
    assert (Hlen : length (w ++ [reference.next_word w]) = S (length w)) by (rewrite length_app; cbn; lia).
    rewrite <- Hlen. destruct (IH (w ++ [reference.next_word w])) as (H1 & H2 & H3); [lia | done|].
    split_and!; [done..|]. lia.
Qed.

Lemma schedule_spec chunk :
  length chunk = 64%nat -> Forall is_byte chunk ->
  load_schedule chunk = reference.schedule chunk
  /\ Forall is_word (reference.schedule chunk) /\ length (reference.schedule chunk) = 64%nat.
Proof.
  intros Hl Hb. unfold load_schedule. rewrite load_words by done. destruct (parse_words_ok 16 chunk Hl Hb) as [Hn Hw].
  unfold reference.schedule. pose proof (extend_words 48 (reference.parse_words chunk)) as He. rewrite Hn in He.
  apply He; [lia | done].
Qed.

(** ** A block *)
Lemma fold_zip (f : W8 -> Z -> Z -> W8) p q ks ws st :
  length p = length q -> length ks = length ws ->
  fold_left (fun st i => f st (nth i (p ++ ks) 0) (nth i (q ++ ws) 0)) (seq (length p) (length ks)) st
  = fold_left (fun st kw => f st kw.1 kw.2) (zip ks ws) st.
Proof.
  revert p q ws st. induction ks as [|k ks IH]; intros p q [|w ws] st Hpq Hl; [done..|]. cbn [length seq fold_left zip zip_with].
  rewrite nth_middle, Hpq, nth_middle. specialize (IH (p ++ [k]) (q ++ [w]) ws).
  rewrite <- !(assoc_L (++)), !length_app in IH. cbn [app length] in IH. rewrite !Nat.add_1_r, Hpq in IH.
  apply IH; cbn in Hl; lia.
Qed.

Lemma rounds_spec kws st :
  Forall (fun kw => is_word kw.1 /\ is_word kw.2) kws -> words_ok st ->
  fold_left (fun st kw => round st kw.1 kw.2) kws st = fold_left reference.step kws st
  /\ words_ok (fold_left reference.step kws st).
Proof.
  intros Hf. revert st. induction Hf as [|[k w] kws [Hk Hw] Hf IH]; intros st Hok; [done|]. cbn [fold_left fst snd].
  destruct (round_step st k w Hok Hk Hw) as [<- Hok']. by apply IH.
Qed.

Lemma SHA256_K_words : Forall is_word SHA256_K.
Proof. unfold is_word. by_computation. Qed.

Lemma add_words_ok x y : words_ok (reference.add_words x y).
Proof.
  destruct x, y. cbn [reference.add_words]. rewrite !mod_uint. unfold words_ok, reference.word_list.
  repeat (apply Forall_cons; split; [apply word_uint|]). constructor.
Qed.

Lemma rounds_zip st w : length w = 64%nat -> rounds st w = fold_left (fun st kw => round st kw.1 kw.2) (zip SHA256_K w) st.
Proof. intros Hl. apply (fold_zip round [] []); [done | by rewrite Hl]. Qed.

Lemma rounds_reference st w :
  words_ok st -> length w = 64%nat -> Forall is_word w -> rounds st w = fold_left reference.step (zip SHA256_K w) st.
Proof.
  intros Hok Hl Hw. rewrite rounds_zip by done. apply rounds_spec; [|done].
  apply Forall_forall. intros [k x] Hin. pose proof SHA256_K_words as HK. rewrite Forall_forall in HK, Hw.
  split; [apply HK; by eapply elem_of_zip_l | apply Hw; by eapply elem_of_zip_r].
Qed.

Lemma processBlock_spec st chunk :
  words_ok st -> length chunk = 64%nat -> Forall is_byte chunk ->
  processBlock st chunk = reference.compress st chunk /\ words_ok (reference.compress st chunk).
Proof.
  intros Hok Hl Hb. destruct (schedule_spec chunk Hl Hb) as (Hs & Hw & Hlen).
  split; [|apply add_words_ok]. unfold processBlock, reference.compress.
  rewrite Hs, rounds_reference by done. generalize (fold_left reference.step (zip SHA256_K (reference.schedule chunk)) st).
  intros [a b c d e f g h]. destruct st. cbn [reference.add_words]. by rewrite !ushr_0.
Qed.

(** ** The buffer *)
Definition hash_blocks (bs : list (list Z)) : W8 := fold_left reference.compress bs initial_words.

(** The state has absorbed [message]: whole blocks are compressed, the rest is at the front
    of the buffer. *)
Definition absorbed (message : list Z) (st : Sha256) : Prop :=
  exists bs tail,
    message = concat bs ++ tail /\ Forall (fun b => length b = 64%nat) bs /\ Forall is_byte message
    /\ words st = hash_blocks bs /\ words_ok (words st) /\ length (buffer st) = 64%nat
    /\ bufferLength st = length tail /\ (length tail < 64)%nat /\ take (length tail) (buffer st) = tail
    /\ finished st = false.

Lemma take_set_range n src arr :
  (n + length src <= length arr)%nat -> take (n + length src) (set_range n src arr) = take n arr ++ src.
Proof.
  intros Hl. unfold set_range. rewrite (assoc_L (++)), take_app_le by (rewrite length_app, length_take; lia).
  apply take_ge. rewrite length_app, length_take. lia.
Qed.

Lemma length_set_range n src arr :
  (n + length src <= length arr)%nat -> length (set_range n src arr) = length arr.
Proof. intros Hl. unfold set_range. rewrite !length_app, length_take, length_drop. lia. Qed.

Lemma hash_blocks_snoc bs b : hash_blocks (bs ++ [b]) = reference.compress (hash_blocks bs) b.
Proof. unfold hash_blocks. by rewrite fold_left_app. Qed.

(** One turn of the loop. *)
Lemma absorb_piece message st piece :
  absorbed message st -> piece <> [] -> Forall is_byte piece -> (bufferLength st + length piece <= 64)%nat ->
  let buffer' := set_range (bufferLength st) piece (buffer st) in
  let full := (bufferLength st + length piece =? 64)%nat in
  absorbed (message ++ piece)
    {| words := if full then processBlock (words st) buffer' else words st; buffer := buffer';
       bufferLength := if full then 0 else bufferLength st + length piece;
       bytesHashed := bytesHashed st; finished := finished st |}.
Proof.
  intros (bs & tail & Hm & Hbs & Hby & Hw & Hok & Hlen & Hn & Hlt & Ht & Hf) Hne Hp Hfit. cbv zeta.
  rewrite Hn in *. assert (Hby' : Forall is_byte (message ++ piece)) by (by apply Forall_app).
  pose proof (take_set_range (length tail) piece (buffer st) ltac:(lia)) as Hts. rewrite Ht, <- length_app in Hts.
  pose proof (length_set_range (length tail) piece (buffer st) ltac:(lia)) as Hls.
  destruct (Nat.eqb_spec (length tail + length piece) 64) as [Hfull|Hpart].
  - assert (Hb : set_range (length tail) piece (buffer st) = tail ++ piece).
    { rewrite <- Hts. symmetry. apply take_ge. rewrite length_app. lia. }
    assert (Hbb : Forall is_byte (tail ++ piece)).
    { rewrite Hm, <- (assoc_L (++)) in Hby'. by apply Forall_app in Hby' as [_ ?]. }
    destruct (processBlock_spec (words st) (tail ++ piece)) as [Hpb Hok']; [done | by rewrite length_app | done|].
    rewrite Hb. exists (bs ++ [tail ++ piece]), []. cbn [words buffer bufferLength finished length].
    rewrite Hpb, concat_app, app_nil_r. cbn [concat]. rewrite app_nil_r. split_and!; try done.
    + by rewrite Hm, <- (assoc_L (++)).
    + apply Forall_app. split; [done|]. constructor; [by rewrite length_app | constructor].
    + by rewrite hash_blocks_snoc, Hw.
    + by rewrite length_app.
    + lia.
  - exists bs, (tail ++ piece). cbn [words buffer bufferLength finished]. rewrite length_app in *.
    split_and!; try done; try lia. by rewrite Hm, <- (assoc_L (++)).
Qed.

Lemma update_loop_spec fuel position data message st :
  absorbed message st -> Forall is_byte data -> (length data - position <= fuel)%nat ->
  absorbed (message ++ drop position data) (update_loop fuel position data st)
  /\ bytesHashed (update_loop fuel position data st) = bytesHashed st.
Proof.
  revert position message st. induction fuel as [|fuel IH]; intros position message st Ha Hd Hf; cbn [update_loop].
  - rewrite drop_ge by lia. by rewrite app_nil_r.
  - destruct (Nat.ltb_spec position (length data)) as [Hlt|Hge]; [|rewrite drop_ge by lia; by rewrite app_nil_r].
    set (n := Nat.min _ _). assert (Hbl : (bufferLength st < 64)%nat) by (destruct Ha as (? & ? & ?); destruct_and!; congruence).
    assert (Hn : length (take n (drop position data)) = n) by (rewrite length_take, length_drop; lia).
    pose proof (absorb_piece message st (take n (drop position data)) Ha) as Hp. cbv zeta in Hp. rewrite Hn in Hp.
    assert (Hpos : (0 < n)%nat) by lia.
    destruct (IH (position + n)%nat (message ++ take n (drop position data))
                 {| words := if (bufferLength st + n =? 64)%nat
                             then processBlock (words st) (set_range (bufferLength st) (take n (drop position data)) (buffer st)) else words st;
                    buffer := set_range (bufferLength st) (take n (drop position data)) (buffer st);
                    bufferLength := if (bufferLength st + n =? 64)%nat then 0 else bufferLength st + n;
                    bytesHashed := bytesHashed st; finished := finished st |}) as [H1 H2]; [|done|lia|].
    { apply Hp; [|by apply Forall_take, Forall_drop | lia]. intros Hnil. apply (f_equal length) in Hnil. rewrite Hn in Hnil. cbn in Hnil. lia. }
    split; [|done]. rewrite <- (assoc_L (++)), <- drop_drop, take_drop in H1. exact H1.
Qed.

Definition holds (message : list Z) (st : Sha256) : Prop := absorbed message st /\ bytesHashed st = Z.of_nat (length message).

Lemma update_spec message st data :
  holds message st -> Forall is_byte data -> exists st', update data st = Ok st' /\ holds (message ++ data) st'.
Proof.
  intros [Ha Hb] Hd. unfold update. pose proof Ha as (? & ? & ?). destruct_and!. replace (finished st) with false by done.
  match goal with |- context [update_loop _ _ _ ?s] => destruct (update_loop_spec (length data) 0 data message s) as [Hab Hby] end;
    [|done|lia|].
  { destruct Ha as (bs & tail & Ha). exists bs, tail. destruct_and! Ha. by split_and!. }
  eexists. split; [done|]. split; [exact Hab|]. rewrite Hby. cbn [bytesHashed]. rewrite Hb, length_app. lia.
Qed.

(** ** The padding *)
Lemma set_range_app n p src q : length p = n -> set_range n src (p ++ q) = p ++ src ++ drop (length src) q.
Proof. intros <-. unfold set_range. by rewrite take_app_length, drop_app_add. Qed.

Lemma length_word_bytes w : length (word_bytes w) = 4%nat.
Proof. done. Qed.

Lemma word_bytes_ok w : Forall is_byte (word_bytes w).
Proof.
  unfold word_bytes. cbv zeta. pose proof (toUint32_range w). unfold is_byte.
  repeat (apply Forall_cons; split); try apply Forall_nil_2; try (apply Z.mod_pos_bound; lia).
  split; [apply Z.div_pos; lia | apply Z.div_lt_upper_bound; lia].
Qed.

Lemma last_block p q hi lo :
  (length p <= 56)%nat -> length (p ++ q) = 64%nat ->
  setUint32 60 lo (setUint32 56 hi (fill 0 (length p) 56 (p ++ q)))
  = p ++ replicate (56 - length p) 0 ++ word_bytes hi ++ word_bytes lo.
Proof.
  intros Hp Hl. unfold setUint32, fill. rewrite set_range_app, length_replicate by done. rewrite length_app in Hl.
  set (z := replicate (56 - length p) 0). set (q1 := drop _ q).
  assert (Hz : length (p ++ z) = 56%nat) by (subst z; rewrite length_app, length_replicate; lia).
  assert (Hq1 : length q1 = 8%nat) by (subst q1; rewrite length_drop; lia).
  rewrite (assoc_L (++) p z), (set_range_app 56), length_word_bytes by done.
  assert (Hy : length ((p ++ z) ++ word_bytes hi) = 60%nat) by (rewrite length_app, Hz; done).
  rewrite (assoc_L (++) (p ++ z)), (set_range_app 60), length_word_bytes by done.
  rewrite (drop_ge _ 4), app_nil_r by (rewrite length_drop; lia). by rewrite <- !(assoc_L (++)).
Qed.

Lemma blocks_concat bs n rest :
  Forall (fun b => length b = 64%nat) bs ->
  reference.blocks (length bs + n) (concat bs ++ rest) = bs ++ reference.blocks n rest.
Proof.
  induction 1 as [|b bs Hb Hbs IH]; [done|]. cbn [length Nat.add reference.blocks concat]. rewrite <- (assoc_L (++)).
  rewrite <- Hb at 1 2. by rewrite take_app_length, drop_app_length, IH.
Qed.

Lemma length_concat64 bs : Forall (fun b : list Z => length b = 64%nat) bs -> length (concat bs) = (64 * length bs)%nat.
Proof. induction 1 as [|b bs Hb Hbs IH]; [done|]. cbn [concat length]. rewrite length_app. lia. Qed.

Lemma pad_zeros (n m : nat) :
  (n < 64)%nat ->
  Z.to_nat ((55 - Z.of_nat (64 * m + n)) mod 64) = if decide (n < 56)%nat then (55 - n)%nat else (119 - n)%nat.
Proof.
  intros Hn. case_decide.
  - replace ((55 - Z.of_nat (64 * m + n)) mod 64) with (55 - Z.of_nat n); [lia|].
    apply (Z.mod_unique _ _ (- Z.of_nat m)); lia.
  - replace ((55 - Z.of_nat (64 * m + n)) mod 64) with (119 - Z.of_nat n); [lia|].
    apply (Z.mod_unique _ _ (- Z.of_nat m - 1)); lia.
Qed.

(** What remains after the whole blocks. *)
Definition final_part (tail : list Z) (bits : Z) : list Z :=
  tail ++ [0x80] ++ replicate (if decide (length tail < 56)%nat then 55 - length tail else 119 - length tail) 0
  ++ word_bytes (bits / 2 ^ 32) ++ word_bytes (bits mod 2 ^ 32).

Lemma reference_pad bs tail :
  Forall (fun b => length b = 64%nat) bs -> (length tail < 64)%nat ->
  let bits := Z.of_nat (length (concat bs ++ tail)) * 8 in
  reference.sha256 (concat bs ++ tail)
  = concat (word_bytes <$> reference.word_list
      (fold_left reference.compress (reference.blocks (length (final_part tail bits) / 64) (final_part tail bits)) (hash_blocks bs))).
Proof.
  intros Hbs Ht bits. unfold reference.sha256.
  assert (Hpad : reference.pad (concat bs ++ tail) = concat bs ++ final_part tail bits).
  { unfold reference.pad, final_part. cbv zeta. rewrite <- (assoc_L (++)). do 4 f_equal.
    rewrite length_app, length_concat64 by done. by rewrite pad_zeros. }
  rewrite Hpad. do 3 f_equal. rewrite length_app, length_concat64 by done.
  rewrite (Nat.mul_comm 64), Nat.div_add_l by lia. rewrite blocks_concat by done. by rewrite fold_left_app.
Qed.

Lemma output_words ws : words_ok ws -> output ws = concat (word_bytes <$> reference.word_list ws).
Proof.
  destruct ws as [a b c d e f g h]. intros Hok. unfold words_ok, output, reference.word_list in *. f_equal.
  apply list_fmap_ext. intros i x Hx. rewrite ushr_0, uint_word; [done|]. rewrite Forall_forall in Hok. apply Hok.
  by eapply list_elem_of_lookup_2.
Qed.

Lemma Forall_zeros n : Forall is_byte (replicate n 0).
Proof. apply Forall_replicate. unfold is_byte. lia. Qed.

Lemma final_ok tail bits : Forall is_byte tail -> Forall is_byte (final_part tail bits).
Proof.
  intros Ht. unfold final_part. repeat (apply Forall_app; split); try done; try apply word_bytes_ok; try apply Forall_zeros.
  constructor; [unfold is_byte; lia | constructor].
Qed.

Lemma finish_short tail bits p q ws :
  p = tail ++ [0x80] -> (length tail < 56)%nat -> length (p ++ q) = 64%nat -> Forall is_byte tail -> words_ok ws ->
  let block := setUint32 60 (bits >>> 0)%js (setUint32 56 (bits / 0x100000000) (fill 0 (length p) 56 (p ++ q))) in
  processBlock ws block = fold_left reference.compress (reference.blocks (length (final_part tail bits) / 64) (final_part tail bits)) ws
  /\ words_ok (processBlock ws block).
Proof.
  intros -> Ht Hl Hb Hok block. pose proof (final_ok tail bits Hb) as Hfb.
  assert (Hblock : block = final_part tail bits).
  { unfold block. rewrite last_block by (done || (rewrite length_app; cbn; lia)). unfold final_part. rewrite decide_True by done.
    rewrite length_app. cbn [length]. rewrite ushr_0, <- mod_uint, <- !(assoc_L (++)). do 3 f_equal. f_equal. lia. }
  assert (Hlen : length (final_part tail bits) = 64%nat).
  { unfold final_part. rewrite decide_True by done. rewrite !length_app, length_replicate. cbn. lia. }
  rewrite Hblock, Hlen. change (64 / 64)%nat with 1%nat. cbn [reference.blocks fold_left]. rewrite take_ge by lia.
  destruct (processBlock_spec ws (final_part tail bits) Hok Hlen Hfb) as [-> ?]. done.
Qed.

Lemma finish_long tail bits p q ws :
  p = tail ++ [0x80] -> (56 <= length tail < 64)%nat -> length (p ++ q) = 64%nat -> Forall is_byte tail -> words_ok ws ->
  let block1 := fill 0 (length p) 64 (p ++ q) in
  let block2 := setUint32 60 (bits >>> 0)%js (setUint32 56 (bits / 0x100000000) (fill 0 0 56 block1)) in
  processBlock (processBlock ws block1) block2
  = fold_left reference.compress (reference.blocks (length (final_part tail bits) / 64) (final_part tail bits)) ws
  /\ words_ok (processBlock (processBlock ws block1) block2).
Proof.
  intros -> Ht Hl Hb Hok block1 block2. rewrite length_app in Hl. cbn [length] in Hl.
  set (p1 := (tail ++ [0x80]) ++ replicate (63 - length tail) 0).
  assert (Hp1 : length p1 = 64%nat) by (unfold p1; rewrite !length_app, length_replicate; cbn; lia).
  assert (H1 : block1 = p1).
  { unfold block1, fill, p1. rewrite set_range_app, length_replicate by done. rewrite length_app in *. cbn [length] in *.
    rewrite drop_ge, app_nil_r by lia. do 2 f_equal. lia. }
  set (p2 := replicate 56 0 ++ word_bytes (bits / 2 ^ 32) ++ word_bytes (bits mod 2 ^ 32)).
  assert (H2 : block2 = p2).
  { unfold block2. rewrite H1. pose proof (last_block [] p1 (bits / 2 ^ 32) (bits mod 2 ^ 32) ltac:(cbn; lia) Hp1) as Hlb.
    cbn [length app] in Hlb. rewrite ushr_0, <- mod_uint. exact Hlb. }
  assert (Hf : final_part tail bits = p1 ++ p2).
  { unfold final_part, p1, p2. rewrite decide_False by lia.
    replace (119 - length tail)%nat with ((63 - length tail) + 56)%nat by lia. by rewrite replicate_add, <- !(assoc_L (++)). }
  pose proof (final_ok tail bits Hb) as Hfb. rewrite Hf in *. apply Forall_app in Hfb as [Hb1 Hb2].
  assert (Hp2 : length p2 = 64%nat) by done. rewrite length_app, Hp1, Hp2. change ((64 + 64) / 64)%nat with 2%nat.
  cbn [reference.blocks fold_left]. rewrite take_app_length', drop_app_length', (take_ge p2) by lia.
  rewrite H1, H2. destruct (processBlock_spec ws p1 Hok Hp1 Hb1) as [-> Hok1].
  destruct (processBlock_spec (reference.compress ws p1) p2 Hok1 Hp2 Hb2) as [-> ?]. done.
Qed.

Lemma insert_at (p : list Z) x r n : length p = n -> r <> [] -> <[n := x]> (p ++ r) = (p ++ [x]) ++ drop 1 r.
Proof.
  intros <- Hr. rewrite insert_app_r_alt, Nat.sub_diag by lia. destruct r as [|y r]; [done|]. by rewrite <- (assoc_L (++)).
Qed.

Lemma finish_spec message st : holds message st -> output (words (finish st)) = reference.sha256 message.
Proof.
  intros [(bs & tail & Hm & Hbs & Hby & Hw & Hok & Hlen & Hn & Hlt & Ht & Hf) Hb].
  assert (Htb : Forall is_byte tail) by (rewrite Hm in Hby; by apply Forall_app in Hby as [_ ?]).
  rewrite Hm, reference_pad by done. rewrite <- Hm. rewrite Hw in *. set (bits := Z.of_nat (length message) * 8).
  assert (Hbuf : <[bufferLength st := 0x80]> (buffer st) = (tail ++ [0x80]) ++ drop 1 (drop (length tail) (buffer st))).
  { rewrite Hn, <- (take_drop (length tail) (buffer st)) at 1. rewrite Ht. apply insert_at; [done|].
    intros Hnil. apply (f_equal length) in Hnil. rewrite length_drop in Hnil. cbn in Hnil. lia. }
  set (q := drop 1 _) in Hbuf.
  assert (Hl : length ((tail ++ [0x80]) ++ q) = 64%nat) by (rewrite <- Hbuf, length_insert; done).
  unfold finish. rewrite Hbuf, Hn, Hb, Hw. fold bits. replace (length tail + 1)%nat with (length (tail ++ [0x80])) by (by rewrite length_app).
  assert (Hp : length (tail ++ [0x80]) = S (length tail)) by (rewrite length_app; cbn; lia).
  destruct (Nat.ltb_spec 56 (length (tail ++ [0x80]))) as [Hlong|Hshort]; cbn [words].
  - destruct (finish_long tail bits (tail ++ [0x80]) q (hash_blocks bs)) as [Heq Hok']; [done | lia | done..|].
    rewrite output_words by exact Hok'. by rewrite Heq.
  - destruct (finish_short tail bits (tail ++ [0x80]) q (hash_blocks bs)) as [Heq Hok']; [done | lia | done..|].
    rewrite output_words by exact Hok'. by rewrite Heq.
Qed.

(** ** The stream *)
Lemma holds_new : holds [] new_Sha256.
Proof.
  split; [|done]. exists [], []. split_and!; try done; try (cbn; lia). unfold words_ok, is_word. by_computation.
Qed.

Lemma updates_spec chunks message st :
  holds message st -> Forall (Forall is_byte) chunks ->
  exists st', updates chunks st = Ok st' /\ holds (message ++ concat chunks) st'.
Proof.
  intros Hh Hc. revert message st Hh. induction Hc as [|data chunks Hd Hc IH]; intros message st Hh.
  - exists st. by rewrite app_nil_r.
  - destruct (update_spec message st data Hh Hd) as (st1 & Hu & Hh1). cbn [updates concat]. rewrite Hu.
    destruct (IH (message ++ data) st1 Hh1) as (st2 & Hu2 & Hh2). exists st2. by rewrite <- (assoc_L (++)) in Hh2.
Qed.

Lemma finish_finished st : finished (finish st) = true.
Proof. unfold finish. by destruct (56 <? _)%nat. Qed.

Lemma digest_spec message st :
  holds message st ->
  (digest st).2 = reference.sha256 message /\ finished (digest st).1 = true /\ digest (digest st).1 = digest st.
Proof.
  intros Hh. pose proof Hh as [(bs & tail & Ha) _]. destruct_and! Ha. unfold digest. replace (finished st) with false by done.
  cbn [fst snd].
  rewrite finish_finished. split; [by apply finish_spec|]. done.
Qed.

(** C4: the streaming hash is SHA-256: however a message is cut into chunks, empty ones
    included, the digest after all updates is the one FIPS 180-4 defines for the whole
    message; the signed 32-bit intermediate values of the source never show. A second
    call of [digest] returns the same bytes, and [update] after [digest] is refused. *)
Theorem streaming_sha256 chunks :
  Forall (Forall is_byte) chunks ->
  exists st, updates chunks new_Sha256 = Ok st
    /\ (digest st).2 = reference.sha256 (concat chunks)
    /\ digest (digest st).1 = digest st
    /\ forall data, update data (digest st).1 = Err "client-media:hash-finalized".
Proof.
  intros Hc. destruct (updates_spec chunks [] new_Sha256 holds_new Hc) as (st & Hu & Hh).
  destruct (digest_spec _ _ Hh) as (H1 & H2 & H3). exists st. split_and!; try done.
  intros data. unfold update. by rewrite H2.
Qed.

Lemma streaming_sha256_witness :
  exists st, updates [[97]; []; [98; 99]] new_Sha256 = Ok st
    /\ (digest st).2 = concat (word_bytes <$>
         [0xba7816bf; 0x8f01cfea; 0x414140de; 0x5dae2223; 0xb00361a3; 0x96177a9c; 0xb410ff61; 0xf20015ad]).
Proof.
  destruct (streaming_sha256 [[97]; []; [98; 99]]) as (st & Hu & Hd & _).
  - unfold is_byte. by_computation.
  - exists st. split; [exact Hu|]. rewrite Hd. vm_compute. reflexivity.
Defined.
