(* ===== verification/MediaSecurity.v ===== *)
(** * Encryption of media

    Models [packages/client-media-security/src/index.ts]: encryption of a blob in one piece
    or in chunks, decryption with its checks, and the recognition of descriptors. AES-GCM
    and the digest of the platform's [crypto.subtle] are parameters, random bytes are
    arguments. Calls of [onProgress] are returned as a log. *)
From Stdlib Require Import Ascii Lia ZArith.
From stdpp Require Import base numbers strings list pretty.
From S2P Require Import Prelude JsInt TextCodec Sha256.

(** ** The platform *)

(** [aes_gcm_encrypt key iv additionalData tagBits plaintext]; a tag that does not verify
    has no plaintext. [Number_of] is [Number(...)] on strings, without a value for [NaN]. *)
Class Platform := {
  aes_gcm_encrypt : list Z -> list Z -> list Z -> Z -> list Z -> list Z;
  aes_gcm_decrypt : list Z -> list Z -> list Z -> Z -> list Z -> option (list Z);
  subtle_digest : list Z -> list Z;
  Number_of : text -> option Z
}.

Record Blob : Set := { blob_bytes : list Z; blob_type : string }.

Definition size (b : list Z) : Z := Z.of_nat (length b).

(** [blob.slice(from, to)] and [array.subarray(from, to)] with [0 <= from]; both clamp. *)
Definition slice (from to : Z) (bytes : list Z) : list Z := take (Z.to_nat (to - from)) (drop (Z.to_nat from) bytes).

(** ** Constants *)
Definition CLIENT_MEDIA_ENCRYPTION_VERSION : Z := 1.
Definition CLIENT_MEDIA_ENCRYPTION_SUITE : text := T "AES-256-GCM".
Definition CLIENT_MEDIA_CHUNKED_ENCRYPTION_VERSION : Z := 2.
Definition CLIENT_MEDIA_CHUNKED_ENCRYPTION_SUITE : text := T "AES-256-GCM-CHUNKED".
Definition CLIENT_MEDIA_CHUNKING_FIXED_V1 : text := T "fixed-v1".
Definition CLIENT_MEDIA_NONCE_STRATEGY_COUNTER32_BE : text := T "prefix-counter32-be".
Definition CLIENT_MEDIA_CHUNK_AAD_DOMAIN : text := T "peers-touch:attachment:aes-256-gcm-chunked:1".
Definition CLIENT_MEDIA_MAX_CHUNK_COUNT : Z := 2048.
Definition CLIENT_MEDIA_MAX_PLAINTEXT_SIZE : Z := 2 * 1024 * 1024 * 1024.
Definition AES_GCM_NONCE_BYTES : nat := 12.
Definition AES_GCM_TAG_BYTES : Z := 16.
Definition DEFAULT_CHUNK_SIZE : Z := 1024 * 1024.

(** [Partial<ClientMediaEncryptionDescriptor>]; a number without a value is [undefined] or
    [NaN]. *)
Record Descriptor : Set := {
  encrypted : option bool;
  version : option Z;
  suite : option text;
  keyB64 : option text;
  nonceB64 : option text;
  plaintextSha256B64 : option text;
  ciphertextSha256B64 : option text;
  plaintextSize : option Z;
  ciphertextSize : option Z;
  chunking : option text;
  chunkSize : option Z;
  chunkCount : option Z;
  chunkCiphertextSha256B64 : option (list text);
  tagSize : option Z;
  nonceStrategy : option text
}.

Record Asset : Set := { encryptedBlob : Blob; descriptor : Descriptor }.

Inductive Phase : Set := read | encrypt | hash | done_.
Definition Progress : Set := (Phase * Z * Z)%type.

(** ** Helpers *)
Definition base64FromBytes (bytes : list Z) : text := btoa bytes.
Definition bytesFromBase64 (value : text) : result (list Z) := atob value.

(** Raw AES keys have 128, 192 or 256 bits. *)
Definition importKey (bytes : list Z) : result (list Z) :=
  if decide (length bytes ∈ [16; 24; 32]%nat) then Ok bytes else Err "DataError".

Definition nonceForChunk (baseNonce : list Z) (chunkIndex : Z) : result (list Z) :=
  if negb (length baseNonce =? AES_GCM_NONCE_BYTES)%nat then Err "client-media:invalid-nonce"
  else if (chunkIndex <? 0) || (CLIENT_MEDIA_MAX_CHUNK_COUNT <=? chunkIndex) then Err "client-media:invalid-chunk-index"
  else Ok (setUint32 (AES_GCM_NONCE_BYTES - 4) chunkIndex baseNonce).

(** The UTF-8 bytes of an ASCII text. *)
Definition encode_ascii (t : text) : list Z := (fun c => Z.of_N (N_of_ascii c)) <$> t.

Definition aadForChunk (chunkIndex plaintextSize chunkSize : Z) : list Z :=
  encode_ascii (CLIENT_MEDIA_CHUNK_AAD_DOMAIN ++ T ":" ++ T (pretty chunkIndex) ++ T ":" ++ T (pretty plaintextSize)
                ++ T ":" ++ T (pretty chunkSize)).

Section media.
Context `{Platform}.

(** ** Encryption *)

(** The loop of [drainBlobForProgress] from [offset]; it reads every slice and only counts. *)
Fixpoint drain_loop (fuel : nat) (blob : list Z) (chunkSize offset loaded : Z) : list Z :=
  match fuel with
  | O => []
  | S fuel =>
      if offset <? size blob then
        let loaded := loaded + size (slice offset (Z.min (offset + chunkSize) (size blob)) blob) in
        loaded :: drain_loop fuel blob chunkSize (offset + chunkSize) loaded
      else []
  end.

(** With [1 <= chunkSize] there are no more turns than bytes. *)
Definition drainBlobForProgress (blob : list Z) (chunkSize : Z) : list Z := drain_loop (length blob) blob chunkSize 0 0.

Definition sha256_b64 (bytes : list Z) : text := base64FromBytes (subtle_digest bytes).

Definition encryptClientMediaBlob (blob : Blob) (chunkSize_ : option Z) (keyBytes nonce : list Z) : result (Asset * list Progress) :=
  let chunkSize := Z.max 1 (default DEFAULT_CHUNK_SIZE chunkSize_) in
  let plaintext := blob_bytes blob in
  let total := size plaintext in
  key ← importKey keyBytes;
  let ciphertext := aes_gcm_encrypt key nonce [] 128 plaintext in
  let asset := {|
    encryptedBlob := {| blob_bytes := ciphertext; blob_type := "application/octet-stream" |};
    descriptor := {|
      encrypted := Some true;
      version := Some CLIENT_MEDIA_ENCRYPTION_VERSION;
      suite := Some CLIENT_MEDIA_ENCRYPTION_SUITE;
      keyB64 := Some (base64FromBytes keyBytes);
      nonceB64 := Some (base64FromBytes nonce);
      plaintextSha256B64 := Some (sha256_b64 plaintext);
      ciphertextSha256B64 := Some (sha256_b64 ciphertext);
      plaintextSize := Some total;
      ciphertextSize := Some (size ciphertext);
      chunking := None; chunkSize := None; chunkCount := None; chunkCiphertextSha256B64 := None;
      tagSize := None; nonceStrategy := None |} |} in
  Ok (asset,
      [(read, 0, total)]
      ++ (if chunkSize <? total then (fun loaded => (read, loaded, total)) <$> drainBlobForProgress plaintext chunkSize else [])
      ++ [(read, total, total); (encrypt, 0, total); (encrypt, total, total); (hash, 0, total + size ciphertext);
          (hash, total + size ciphertext, total + size ciphertext); (done_, total, total)]).

(** What the loop over the chunks accumulates. *)
Record Encryption : Set := {
  plaintextHash : Sha256;
  ciphertextHash : Sha256;
  encryptedParts : list (list Z);
  chunkHashes : list text;
  loaded : Z;
  ciphertextTotal : Z;
  progress : list Progress
}.

Definition encrypt_chunk (blob key noncePrefix : list Z) (chunkSize : Z) (acc : Encryption) (chunkIndex : Z) : result Encryption :=
  let offset := chunkIndex * chunkSize in
  let plaintext := slice offset (Z.min (offset + chunkSize) (size blob)) blob in
  plaintextHash' ← update plaintext (plaintextHash acc);
  nonce ← nonceForChunk noncePrefix chunkIndex;
  let aad := aadForChunk chunkIndex (size blob) chunkSize in
  let ciphertext := aes_gcm_encrypt key nonce aad (AES_GCM_TAG_BYTES * 8) plaintext in
  ciphertextHash' ← update ciphertext (ciphertextHash acc);
  chunkHash ← update ciphertext new_Sha256;
  Ok {| plaintextHash := plaintextHash'; ciphertextHash := ciphertextHash';
        encryptedParts := encryptedParts acc ++ [ciphertext];
        chunkHashes := chunkHashes acc ++ [base64FromBytes (digest chunkHash).2];
        loaded := loaded acc + size plaintext; ciphertextTotal := ciphertextTotal acc + size ciphertext;
        progress := progress acc ++ [(encrypt, loaded acc + size plaintext, size blob)] |}.

Fixpoint encrypt_chunks (blob key noncePrefix : list Z) (chunkSize : Z) (indices : list Z) (acc : Encryption) : result Encryption :=
  match indices with
  | [] => Ok acc
  | i :: indices =>
      acc ← encrypt_chunk blob key noncePrefix chunkSize acc i;
      encrypt_chunks blob key noncePrefix chunkSize indices acc
  end.

(** [Math.ceil(a / b)] *)
Definition ceil_div (a b : Z) : Z := (a + b - 1) / b.

Definition chunk_count (total chunkSize : Z) : Z := Z.max 1 (ceil_div total chunkSize).

Definition encryptClientMediaBlobChunked (blob : Blob) (chunkSize_ : option Z) (keyBytes nonceBytes : list Z)
    : result (Asset * list Progress) :=
  let chunkSize := Z.max 1 (default DEFAULT_CHUNK_SIZE chunkSize_) in
  let total := size (blob_bytes blob) in
  let chunkCount := chunk_count total chunkSize in
  if CLIENT_MEDIA_MAX_PLAINTEXT_SIZE <? total then Err "client-media:plaintext-size-exceeded"
  else if CLIENT_MEDIA_MAX_CHUNK_COUNT <? chunkCount then Err "client-media:chunk-count-exceeded"
  else
    let noncePrefix := set_range (AES_GCM_NONCE_BYTES - 4) [0; 0; 0; 0] nonceBytes in
    key ← importKey keyBytes;
    acc ← encrypt_chunks (blob_bytes blob) key noncePrefix chunkSize (seqZ 0 chunkCount)
            {| plaintextHash := new_Sha256; ciphertextHash := new_Sha256; encryptedParts := []; chunkHashes := [];
               loaded := 0; ciphertextTotal := 0; progress := [(encrypt, 0, total)] |};
    Ok ({| encryptedBlob := {| blob_bytes := concat (encryptedParts acc); blob_type := "application/octet-stream" |};
           descriptor := {|
             encrypted := Some true;
             version := Some CLIENT_MEDIA_CHUNKED_ENCRYPTION_VERSION;
             suite := Some CLIENT_MEDIA_CHUNKED_ENCRYPTION_SUITE;
             keyB64 := Some (base64FromBytes keyBytes);
             nonceB64 := Some (base64FromBytes noncePrefix);
             plaintextSha256B64 := Some (base64FromBytes (digest (plaintextHash acc)).2);
             ciphertextSha256B64 := Some (base64FromBytes (digest (ciphertextHash acc)).2);
             plaintextSize := Some total;
             ciphertextSize := Some (ciphertextTotal acc);
             chunking := Some CLIENT_MEDIA_CHUNKING_FIXED_V1;
             chunkSize := Some chunkSize;
             chunkCount := Some chunkCount;
             chunkCiphertextSha256B64 := Some (chunkHashes acc);
             tagSize := Some AES_GCM_TAG_BYTES;
             nonceStrategy := Some CLIENT_MEDIA_NONCE_STRATEGY_COUNTER32_BE |} |},
        progress acc ++ [(done_, total, total)]).

(** ** Descriptors *)
Definition truthy_field (o : option text) : bool := negb (bool_decide (default [] o = [])).

Definition isClientMediaEncryptionDescriptor (descriptor : option Descriptor) : bool :=
  match descriptor with
  | None => false
  | Some d =>
      bool_decide (encrypted d = Some true)
      && (bool_decide (version d = Some CLIENT_MEDIA_ENCRYPTION_VERSION) && bool_decide (suite d = Some CLIENT_MEDIA_ENCRYPTION_SUITE)
          || bool_decide (version d = Some CLIENT_MEDIA_CHUNKED_ENCRYPTION_VERSION)
             && bool_decide (suite d = Some CLIENT_MEDIA_CHUNKED_ENCRYPTION_SUITE))
      && truthy_field (keyB64 d) && truthy_field (nonceB64 d) && truthy_field (plaintextSha256B64 d)
      && truthy_field (ciphertextSha256B64 d)
  end.

Definition isSafeInteger (z : Z) : bool := Z.abs z <=? 2 ^ 53 - 1.

Definition positive_safe (o : option Z) : bool :=
  match o with Some z => isSafeInteger z && (0 <? z) | None => false end.

Definition isChunkedDescriptor (d : Descriptor) : bool :=
  bool_decide (version d = Some CLIENT_MEDIA_CHUNKED_ENCRYPTION_VERSION)
  && bool_decide (suite d = Some CLIENT_MEDIA_CHUNKED_ENCRYPTION_SUITE)
  && bool_decide (chunking d = Some CLIENT_MEDIA_CHUNKING_FIXED_V1)
  && bool_decide (nonceStrategy d = Some CLIENT_MEDIA_NONCE_STRATEGY_COUNTER32_BE)
  && positive_safe (chunkSize d) && positive_safe (chunkCount d) && bool_decide (tagSize d = Some AES_GCM_TAG_BYTES).

(** ** Decryption *)
Inductive Ciphertext : Set := as_blob (b : Blob) | as_bytes (bytes : list Z).

Definition bytesFromCiphertext (c : Ciphertext) : list Z :=
  match c with as_blob b => blob_bytes b | as_bytes bytes => bytes end.

Definition opened (o : option (list Z)) : result (list Z) :=
  match o with Some p => Ok p | None => Err "OperationError" end.

Definition check_chunk_hash (expectedChunkHash : option text) (ciphertextChunk : list Z) : result unit :=
  if truthy_field expectedChunkHash then
    chunkHash ← update ciphertextChunk new_Sha256;
    if bool_decide (Some (base64FromBytes (digest chunkHash).2) = expectedChunkHash) then Ok tt
    else Err "client-media:chunk-hash-mismatch"
  else Ok tt.

(** One turn of the loop: the plaintext of the chunk and the length of its ciphertext. *)
Definition decrypt_chunk (d : Descriptor) (key ciphertextBytes : list Z) (chunkSize offset chunkIndex : Z)
    : result (list Z * Z) :=
  match plaintextSize d with
  | None => Err "client-media:chunk-size-mismatch"
  | Some plaintextSize =>
      let plaintextRemaining := plaintextSize - chunkIndex * chunkSize in
      let plaintextChunkSize := Z.min chunkSize (Z.max 0 plaintextRemaining) in
      let ciphertextChunkSize := plaintextChunkSize + default 0 (tagSize d) in
      let ciphertextChunk := slice offset (offset + ciphertextChunkSize) ciphertextBytes in
      if negb (size ciphertextChunk =? ciphertextChunkSize) then Err "client-media:chunk-size-mismatch"
      else
        _ ← check_chunk_hash (chunkCiphertextSha256B64 d ≫= (fun hashes => hashes !! Z.to_nat chunkIndex)) ciphertextChunk;
        base ← bytesFromBase64 (default [] (nonceB64 d));
        iv ← nonceForChunk base chunkIndex;
        plaintext ← opened (aes_gcm_decrypt key iv (aadForChunk chunkIndex plaintextSize chunkSize)
                              (default 0 (tagSize d) * 8) ciphertextChunk);
        Ok (plaintext, ciphertextChunkSize)
  end.

(** The loop from [chunkIndex]: the plaintext parts, their hash and the offset reached. *)
Fixpoint decrypt_chunks (turns : nat) (d : Descriptor) (key ciphertextBytes : list Z) (chunkSize offset chunkIndex : Z)
    (parts : list (list Z)) (plaintextHash : Sha256) : result (list (list Z) * Sha256 * Z) :=
  match turns with
  | O => Ok (parts, plaintextHash, offset)
  | S turns =>
      r ← decrypt_chunk d key ciphertextBytes chunkSize offset chunkIndex;
      plaintextHash ← update r.1 plaintextHash;
      decrypt_chunks turns d key ciphertextBytes chunkSize (offset + r.2) (chunkIndex + 1) (parts ++ [r.1]) plaintextHash
  end.

Definition decryptClientMediaBlob (ciphertext : Ciphertext) (descriptor : option Descriptor) (mimeType : string) : result Blob :=
  match descriptor with
  | Some d =>
      if negb (isClientMediaEncryptionDescriptor descriptor)
      then Ok (match ciphertext with as_blob b => b | as_bytes bytes => {| blob_bytes := bytes; blob_type := mimeType |} end)
      else
        let ciphertextBytes := bytesFromCiphertext ciphertext in
        if negb (bool_decide (Some (sha256_b64 ciphertextBytes) = ciphertextSha256B64 d))
        then Err "client-media:ciphertext-hash-mismatch"
        else
          keyBytes ← bytesFromBase64 (default [] (keyB64 d));
          key ← importKey keyBytes;
          if isChunkedDescriptor d then
            r ← decrypt_chunks (Z.to_nat (default 0 (chunkCount d))) d key ciphertextBytes (default 0 (chunkSize d)) 0 0 [] new_Sha256;
            let '(parts, plaintextHash, offset) := r in
            if negb (offset =? size ciphertextBytes) then Err "client-media:ciphertext-size-mismatch"
            else if negb (bool_decide (Some (base64FromBytes (digest plaintextHash).2) = plaintextSha256B64 d))
            then Err "client-media:plaintext-hash-mismatch"
            else Ok {| blob_bytes := concat parts; blob_type := mimeType |}
          else
            iv ← bytesFromBase64 (default [] (nonceB64 d));
            plaintext ← opened (aes_gcm_decrypt key iv [] 128 ciphertextBytes);
            if negb (bool_decide (Some (sha256_b64 plaintext) = plaintextSha256B64 d))
            then Err "client-media:plaintext-hash-mismatch"
            else Ok {| blob_bytes := plaintext; blob_type := mimeType |}
  | None => Ok (match ciphertext with as_blob b => b | as_bytes bytes => {| blob_bytes := bytes; blob_type := mimeType |} end)
  end.

(** ** Descriptors of attachments *)
Inductive Value : Set := v_number (n : option Z) | v_bigint (n : Z) | v_string (t : text).

Definition numberFromDescriptorValue (value : option Value) : option Z :=
  match value with
  | Some (v_number n) => n
  | Some (v_bigint n) => Some n
  | Some (v_string t) => if truthy_field (Some (trim t)) then Number_of t else Some 0
  | None => Some 0
  end.

(** [ClientMediaEncryptionDescriptorLike]. *)
Record DescriptorLike : Set := {
  l_encrypted : option bool; l_version : option Z; l_suite : option text; l_keyB64 : option text;
  l_nonceB64 : option text; l_plaintextSha256B64 : option text; l_ciphertextSha256B64 : option text;
  l_plaintextSize : option Value; l_ciphertextSize : option Value; l_chunking : option text;
  l_chunkSize : option Value; l_chunkCount : option Value; l_chunkCiphertextSha256B64 : option (list text);
  l_tagSize : option Value; l_nonceStrategy : option text
}.

Definition normalizeDescriptor (descriptor : option DescriptorLike) : option Descriptor :=
  match descriptor with
  | None => None
  | Some l => Some {|
      encrypted := if bool_decide (l_encrypted l = Some true) then Some true else None;
      version := l_version l; suite := l_suite l; keyB64 := l_keyB64 l; nonceB64 := l_nonceB64 l;
      plaintextSha256B64 := l_plaintextSha256B64 l; ciphertextSha256B64 := l_ciphertextSha256B64 l;
      plaintextSize := numberFromDescriptorValue (l_plaintextSize l);
      ciphertextSize := numberFromDescriptorValue (l_ciphertextSize l);
      chunking := l_chunking l;
      chunkSize := numberFromDescriptorValue (l_chunkSize l);
      chunkCount := numberFromDescriptorValue (l_chunkCount l);
      chunkCiphertextSha256B64 := l_chunkCiphertextSha256B64 l;
      tagSize := numberFromDescriptorValue (l_tagSize l);
      nonceStrategy := l_nonceStrategy l |}
  end.

(** The flat fields of an attachment after the choice between the two spellings: every pair
    [a.camelCase ?? a.snake_case] is one field. *)
Record Attachment : Set := {
  a_mediaEncryption : option DescriptorLike;
  a_encryptionSuite : option text; a_encryptionKeyB64 : option text; a_encryptionNonceB64 : option text;
  a_plaintextSha256B64 : option text; a_ciphertextSha256B64 : option text;
  a_plaintextSize : option Value; a_ciphertextSize : option Value; a_chunking : option text;
  a_chunkSize : option Value; a_chunkCount : option Value; a_chunkCiphertextSha256B64 : option (list text);
  a_tagSize : option Value; a_nonceStrategy : option text
}.

Definition with_key (key : text) (d : Descriptor) : Descriptor := {|
  encrypted := encrypted d; version := version d; suite := suite d; keyB64 := Some key; nonceB64 := nonceB64 d;
  plaintextSha256B64 := plaintextSha256B64 d; ciphertextSha256B64 := ciphertextSha256B64 d;
  plaintextSize := plaintextSize d; ciphertextSize := ciphertextSize d; chunking := chunking d; chunkSize := chunkSize d;
  chunkCount := chunkCount d; chunkCiphertextSha256B64 := chunkCiphertextSha256B64 d; tagSize := tagSize d;
  nonceStrategy := nonceStrategy d |}.

Definition number_value (v : option Value) : option Value := Some (v_number (numberFromDescriptorValue v)).

Definition clientMediaEncryptionDescriptorFromAttachment (a : Attachment) (keyB64Override : option text) : option Descriptor :=
  let normalizedKeyOverride := keyB64Override ≫= (fun k => if truthy_field (Some (trim k)) then Some (trim k) else None) in
  let embeddedBase := normalizeDescriptor (a_mediaEncryption a) in
  let embedded :=
    match embeddedBase, normalizedKeyOverride with
    | Some d, Some key => if truthy_field (keyB64 d) then Some d else Some (with_key key d)
    | _, _ => embeddedBase
    end in
  if isClientMediaEncryptionDescriptor embedded then embedded
  else
    let descriptor := normalizeDescriptor (Some {|
      l_encrypted := Some true; l_version := Some CLIENT_MEDIA_ENCRYPTION_VERSION; l_suite := a_encryptionSuite a;
      l_keyB64 := match normalizedKeyOverride with Some k => Some k | None => a_encryptionKeyB64 a end;
      l_nonceB64 := a_encryptionNonceB64 a; l_plaintextSha256B64 := a_plaintextSha256B64 a;
      l_ciphertextSha256B64 := a_ciphertextSha256B64 a; l_plaintextSize := number_value (a_plaintextSize a);
      l_ciphertextSize := number_value (a_ciphertextSize a); l_chunking := a_chunking a;
      l_chunkSize := number_value (a_chunkSize a); l_chunkCount := number_value (a_chunkCount a);
      l_chunkCiphertextSha256B64 := a_chunkCiphertextSha256B64 a; l_tagSize := number_value (a_tagSize a);
      l_nonceStrategy := a_nonceStrategy a |}) in
    if isClientMediaEncryptionDescriptor descriptor then descriptor else None.
End media.

(** ** Chunks *)
Section chunks.
Context (p : list Z) (cs : Z) (Hcs : 1 <= cs).

Definition chunk (i : nat) : list Z := slice (Z.of_nat i * cs) (Z.min (Z.of_nat i * cs + cs) (size p)) p.

Lemma chunk_alt i : chunk i = take (Z.to_nat cs) (drop (Z.to_nat (Z.of_nat i * cs)) p).
Proof.
  unfold chunk, slice, size. destruct (Z.le_ge_cases (Z.of_nat i * cs + cs) (Z.of_nat (length p))).
  - rewrite Z.min_l by lia. f_equal. lia.
  - rewrite Z.min_r by lia. rewrite !take_ge; [done|rewrite length_drop; lia..].
Qed.

Lemma size_chunk i : size (chunk i) = Z.min cs (Z.max 0 (size p - Z.of_nat i * cs)).
Proof. rewrite chunk_alt. unfold size. rewrite length_take, length_drop. lia. Qed.

Lemma concat_chunks n : concat (chunk <$> seq 0 n) = take (Z.to_nat (Z.of_nat n * cs)) p.
Proof.
  induction n as [|n IH]; [done|]. rewrite seq_S, fmap_app, concat_app, IH. cbn [fmap list_fmap concat Nat.add].
  rewrite app_nil_r, chunk_alt. replace (Z.to_nat (Z.of_nat (S n) * cs)) with (Z.to_nat (Z.of_nat n * cs) + Z.to_nat cs)%nat by lia.
  by rewrite take_take_drop.
Qed.

Lemma concat_all n : size p <= Z.of_nat n * cs -> concat (chunk <$> seq 0 n) = p.
Proof. intros Hn. rewrite concat_chunks. apply take_ge. unfold size in Hn. lia. Qed.

Lemma chunk_bytes i : Forall is_byte p -> Forall is_byte (chunk i).
Proof. intros Hp. rewrite chunk_alt. by apply Forall_take, Forall_drop. Qed.
End chunks.

Lemma chunk_count_covers total cs : 1 <= cs -> 0 <= total -> 1 <= chunk_count total cs /\ total <= chunk_count total cs * cs.
Proof.
  intros Hcs Ht. unfold chunk_count, ceil_div. pose proof (Z.div_mod (total + cs - 1) cs ltac:(lia)).
  pose proof (Z.mod_pos_bound (total + cs - 1) cs ltac:(lia)). nia.
Qed.

Lemma fmap_seq_S {A} (f : nat -> A) k : f <$> seq 0 (S k) = (f <$> seq 0 k) ++ [f k].
Proof. by rewrite seq_S, fmap_app. Qed.

Lemma fmap_seq_lt {A} (f : nat -> A) k n :
  (k < n)%nat -> f <$> seq 0 n = (f <$> seq 0 k) ++ f k :: (f <$> seq (S k) (n - S k)).
Proof.
  intros Hk. replace n with (k + S (n - S k))%nat at 1 by lia. rewrite seq_app, fmap_app. by rewrite Nat.add_0_l.
Qed.

Lemma slice_middle a x b : slice (size a) (size a + size x) (a ++ x ++ b) = x.
Proof.
  unfold slice, size. rewrite drop_app_length' by lia. by rewrite take_app_length' by lia.
Qed.

(** ** Nonces *)
Definition chunk_nonce (base : list Z) (i : nat) : list Z := setUint32 8 (Z.of_nat i) base.

Lemma nonceForChunk_ok base i :
  length base = 12%nat -> Z.of_nat i < CLIENT_MEDIA_MAX_CHUNK_COUNT -> nonceForChunk base (Z.of_nat i) = Ok (chunk_nonce base i).
Proof.
  unfold CLIENT_MEDIA_MAX_CHUNK_COUNT. intros Hb Hi. unfold nonceForChunk, CLIENT_MEDIA_MAX_CHUNK_COUNT. rewrite Hb. cbn [Nat.eqb AES_GCM_NONCE_BYTES negb].
  rewrite (proj2 (Z.ltb_ge _ _)), (proj2 (Z.leb_gt _ _)) by lia. done.
Qed.

Lemma length_nonce base i : length base = 12%nat -> length (chunk_nonce base i) = 12%nat.
Proof. intros Hb. unfold chunk_nonce, setUint32. rewrite length_set_range; [done|]. cbn. lia. Qed.

Lemma word_bytes_inj a b : is_word a -> is_word b -> word_bytes a = word_bytes b -> a = b.
Proof.
  intros Ha Hb. unfold word_bytes. rewrite !uint_word by done. cbv zeta. unfold is_word in *. intros [= H1 H2 H3 H4].
  assert (Hd : forall x, 0 <= x < 2 ^ 32 -> x = x / 2 ^ 24 * 2 ^ 24 + (x / 2 ^ 16 mod 256) * 2 ^ 16 + (x / 2 ^ 8 mod 256) * 2 ^ 8 + x mod 256).
  { intros x _. change (2 ^ 24) with (256 * 256 * 256). change (2 ^ 16) with (256 * 256). change (2 ^ 8) with 256.
    rewrite <- !Z.div_div by lia. pose proof (Z.div_mod x 256). pose proof (Z.div_mod (x / 256) 256).
    pose proof (Z.div_mod (x / 256 / 256) 256). lia. }
  rewrite (Hd a Ha), (Hd b Hb). lia.
Qed.

Lemma chunk_nonce_inj base i j :
  length base = 12%nat -> (i < 2048)%nat -> (j < 2048)%nat -> chunk_nonce base i = chunk_nonce base j -> i = j.
Proof.
  intros Hb Hi Hj. unfold chunk_nonce, setUint32, set_range. intros Heq.
  apply app_inj_1 in Heq as [_ Heq]; [|done]. apply app_inj_1 in Heq as [Heq _]; [|done].
  apply word_bytes_inj in Heq; unfold is_word; lia.
Qed.

(** ** What the platform promises *)
Class PlatformLaws `{Platform} : Prop := {
  gcm_opens key iv aad m :
    length key ∈ [16; 24; 32]%nat -> length iv = 12%nat ->
    aes_gcm_decrypt key iv aad 128 (aes_gcm_encrypt key iv aad 128 m) = Some m;
  gcm_size key iv aad m : size (aes_gcm_encrypt key iv aad 128 m) = size m + 16;
  gcm_encrypt_bytes key iv aad m : Forall is_byte m -> Forall is_byte (aes_gcm_encrypt key iv aad 128 m);
  gcm_decrypt_bytes key iv aad c m : Forall is_byte c -> aes_gcm_decrypt key iv aad 128 c = Some m -> Forall is_byte m;
  digest_sha256 m : subtle_digest m = reference.sha256 m
}.

Section round_trip.
Context `{PlatformLaws}.

Definition b64_sha (m : list Z) : text := btoa (reference.sha256 m).

Lemma digest_b64 m st : holds m st -> base64FromBytes (digest st).2 = b64_sha m.
Proof. intros Hh. unfold base64FromBytes. by destruct (digest_spec m st Hh) as [-> _]. Qed.

Lemma sha256_b64_spec m : sha256_b64 m = b64_sha m.
Proof. unfold sha256_b64, base64FromBytes. by rewrite digest_sha256. Qed.

Lemma hash_once m : Forall is_byte m -> exists st, update m new_Sha256 = Ok st /\ holds m st.
Proof. intros Hm. apply (update_spec [] new_Sha256 m holds_new Hm). Qed.

Lemma b64_sha_truthy m : truthy_field (Some (b64_sha m)) = true.
Proof.
  unfold truthy_field, b64_sha. cbn [default]. rewrite bool_decide_false; [done|]. unfold reference.sha256.
  destruct (fold_left _ _ _) as [a b c d e f g h]. unfold reference.word_list, word_bytes. cbn [fmap list_fmap concat app]. done.
Qed.

Section chunked.
Context (p key prefix : list Z) (cs : Z).
Context (Hcs : 1 <= cs) (Hp : Forall is_byte p) (Hkey : length key ∈ [16; 24; 32]%nat) (Hprefix : length prefix = 12%nat).

(** The ciphertext of chunk [i]. *)
Definition enc (i : nat) : list Z :=
  aes_gcm_encrypt key (chunk_nonce prefix i) (aadForChunk (Z.of_nat i) (size p) cs) 128 (chunk p cs i).

Definition encrypted_to (k : nat) (acc : Encryption) : Prop :=
  holds (concat (chunk p cs <$> seq 0 k)) (plaintextHash acc) /\ holds (concat (enc <$> seq 0 k)) (ciphertextHash acc)
  /\ encryptedParts acc = enc <$> seq 0 k /\ chunkHashes acc = (fun i => b64_sha (enc i)) <$> seq 0 k
  /\ loaded acc = size (concat (chunk p cs <$> seq 0 k)) /\ ciphertextTotal acc = size (concat (enc <$> seq 0 k)).

Lemma enc_bytes i : Forall is_byte (enc i).
Proof. apply gcm_encrypt_bytes, chunk_bytes; done. Qed.

Lemma concat_snoc {A} (f : nat -> list A) k : concat (f <$> seq 0 (S k)) = concat (f <$> seq 0 k) ++ f k.
Proof. rewrite fmap_seq_S, concat_app. cbn. by rewrite app_nil_r. Qed.

Lemma encrypt_chunk_ok k acc :
  encrypted_to k acc -> (k < 2048)%nat ->
  exists acc', encrypt_chunk p key prefix cs acc (Z.of_nat k) = Ok acc' /\ encrypted_to (S k) acc'.
Proof.
  intros (Hph & Hch & Hparts & Hhashes & Hl & Ht) Hk. unfold encrypt_chunk. fold (chunk p cs k).
  destruct (update_spec _ _ (chunk p cs k) Hph) as (ph' & Hpu & Hph'); [by apply chunk_bytes|]. rewrite Hpu. cbn [mbind result_bind].
  rewrite nonceForChunk_ok by (done || unfold CLIENT_MEDIA_MAX_CHUNK_COUNT; lia). cbn [mbind result_bind].
  change (AES_GCM_TAG_BYTES * 8) with 128. fold (enc k).
  destruct (update_spec _ _ (enc k) Hch) as (ch' & Hcu & Hch'); [by apply enc_bytes|]. rewrite Hcu. cbn [mbind result_bind].
  destruct (hash_once (enc k) (enc_bytes k)) as (kh & Hku & Hkh). rewrite Hku. cbn [mbind result_bind].
  eexists. split; [done|]. unfold encrypted_to. cbn [plaintextHash ciphertextHash encryptedParts chunkHashes loaded ciphertextTotal].
  rewrite !concat_snoc, !fmap_seq_S, Hparts, Hhashes, (digest_b64 _ _ Hkh), Hl, Ht. unfold size. rewrite !length_app. split_and!; (done || lia).
Qed.

Lemma encrypt_chunks_ok m k acc :
  encrypted_to k acc -> (k + m <= 2048)%nat ->
  exists acc', encrypt_chunks p key prefix cs (seqZ (Z.of_nat k) (Z.of_nat m)) acc = Ok acc' /\ encrypted_to (k + m) acc'.
Proof.
  revert k acc. induction m as [|m IH]; intros k acc Hacc Hkm.
  - exists acc. by rewrite Nat.add_0_r.
  - rewrite seqZ_cons by lia. cbn [encrypt_chunks]. destruct (encrypt_chunk_ok k acc Hacc) as (acc1 & He & Hacc1); [lia|].
    rewrite He. cbn [mbind result_bind]. replace (Z.succ (Z.of_nat k)) with (Z.of_nat (S k)) by lia.
    replace (Z.pred (Z.of_nat (S m))) with (Z.of_nat m) by lia.
    destruct (IH (S k) acc1 Hacc1) as (acc2 & He2 & Hacc2); [lia|]. exists acc2. split; [done|]. by rewrite <- Nat.add_succ_comm.
Qed.

(** *** Decryption *)
Context (d : Descriptor) (n : nat) (Hn : (n <= 2048)%nat).
Context (Hsize : plaintextSize d = Some (size p)) (Htag : tagSize d = Some 16)
  (Hnonce : bytesFromBase64 (default [] (nonceB64 d)) = Ok prefix)
  (Hhashes : chunkCiphertextSha256B64 d = Some ((fun i => b64_sha (enc i)) <$> seq 0 n)).

Lemma decrypt_chunk_ok k :
  (k < n)%nat ->
  decrypt_chunk d key (concat (enc <$> seq 0 n)) cs (size (concat (enc <$> seq 0 k))) (Z.of_nat k)
  = Ok (chunk p cs k, size (enc k)).
Proof.
  intros Hk. unfold decrypt_chunk. rewrite Hsize, Htag. cbn [default from_option]. change (id 16) with 16.
  rewrite <- size_chunk by done. change (16 * 8) with 128.
  assert (Hes : size (chunk p cs k) + 16 = size (enc k)) by (unfold enc; by rewrite gcm_size). rewrite Hes.
  assert (Hsl : slice (size (concat (enc <$> seq 0 k))) (size (concat (enc <$> seq 0 k)) + size (enc k)) (concat (enc <$> seq 0 n)) = enc k).
  { rewrite (fmap_seq_lt enc k n Hk) at 1. rewrite concat_app. cbn [concat]. apply slice_middle. }
  rewrite Hsl, Z.eqb_refl. cbn [negb].
  rewrite Hhashes. cbn [mbind option_bind]. rewrite Nat2Z.id, list_lookup_fmap, lookup_seq_lt by done. cbn [fmap option_fmap option_map].
  destruct (hash_once (enc k) (enc_bytes k)) as (kh & Hku & Hkh). unfold check_chunk_hash. rewrite Nat.add_0_l, b64_sha_truthy, Hku.
  cbn [mbind result_bind]. rewrite (digest_b64 _ _ Hkh), bool_decide_true by done. rewrite Hnonce. cbn [mbind result_bind].
  rewrite nonceForChunk_ok by (done || unfold CLIENT_MEDIA_MAX_CHUNK_COUNT; lia). cbn [mbind result_bind].
  assert (Ho : aes_gcm_decrypt key (chunk_nonce prefix k) (aadForChunk (Z.of_nat k) (size p) cs) 128 (enc k) = Some (chunk p cs k))
    by (apply gcm_opens; [done | by apply length_nonce]).
  by rewrite Ho.
Qed.

Lemma decrypt_chunks_ok m k hash :
  (k + m = n)%nat -> holds (concat (chunk p cs <$> seq 0 k)) hash ->
  exists hash',
    decrypt_chunks m d key (concat (enc <$> seq 0 n)) cs (size (concat (enc <$> seq 0 k))) (Z.of_nat k) (chunk p cs <$> seq 0 k) hash
    = Ok (chunk p cs <$> seq 0 n, hash', size (concat (enc <$> seq 0 n)))
    /\ holds (concat (chunk p cs <$> seq 0 n)) hash'.
Proof.
  revert k hash. induction m as [|m IH]; intros k hash Hkm Hh.
  - rewrite Nat.add_0_r in Hkm. subst k. by exists hash.
  - cbn [decrypt_chunks]. rewrite decrypt_chunk_ok by lia. cbn [mbind result_bind fst snd].
    destruct (update_spec _ _ (chunk p cs k) Hh) as (h' & Hu & Hh'); [by apply chunk_bytes|]. rewrite Hu. cbn [mbind result_bind].
    destruct (IH (S k) h') as (h2 & Hd & Hh2); [lia | by rewrite concat_snoc|]. exists h2. split; [|done].
    rewrite concat_snoc, fmap_seq_S in Hd. unfold size in Hd |- *. rewrite length_app, Nat2Z.inj_add in Hd.
    replace (Z.of_nat k + 1) with (Z.of_nat (S k)) by lia. exact Hd.
Qed.
End chunked.

Lemma btoa_truthy bytes : bytes <> [] -> truthy_field (Some (btoa bytes)) = true.
Proof. intros Hn. unfold truthy_field. rewrite bool_decide_false; [done|]. by destruct bytes as [|a [|b [|c l]]]. Qed.

Lemma encrypted_nothing p key prefix cs total :
  encrypted_to p key prefix cs 0
    {| plaintextHash := new_Sha256; ciphertextHash := new_Sha256; encryptedParts := []; chunkHashes := [];
       loaded := 0; ciphertextTotal := 0; progress := [(encrypt, 0, total)] |}.
Proof. unfold encrypted_to. split_and!; try done; apply holds_new. Qed.

(** Random bytes of the right lengths. *)
Definition material (key nonce : list Z) : Prop :=
  length key = 32%nat /\ length nonce = 12%nat /\ Forall is_byte key /\ Forall is_byte nonce.

Lemma importKey_32 (key : list Z) : length key = 32%nat -> importKey key = Ok key.
Proof. intros Hk. unfold importKey. rewrite Hk. by rewrite decide_True by by_computation. Qed.

Lemma key_length (key : list Z) : length key = 32%nat -> length key ∈ [16; 24; 32]%nat.
Proof. intros ->. by_computation. Qed.

Lemma b64_ok bytes : Forall is_byte bytes -> bytesFromBase64 (default [] (Some (base64FromBytes bytes))) = Ok bytes.
Proof. apply atob_btoa. Qed.

Lemma prefix_ok (nonce : list Z) :
  length nonce = 12%nat -> Forall is_byte nonce ->
  length (set_range 8 [0; 0; 0; 0] nonce) = 12%nat /\ Forall is_byte (set_range 8 [0; 0; 0; 0] nonce).
Proof.
  intros Hl Hb. split; [rewrite length_set_range; cbn; lia|]. unfold set_range.
  apply Forall_app. split; [by apply Forall_take|]. apply Forall_app. split; [|by apply Forall_drop]. unfold is_byte. by_computation.
Qed.

Definition chosen_size (chunkSize_ : option Z) : Z := Z.max 1 (default DEFAULT_CHUNK_SIZE chunkSize_).

Definition within_limits (total : Z) (chunkSize_ : option Z) : Prop :=
  total <= CLIENT_MEDIA_MAX_PLAINTEXT_SIZE /\ chunk_count total (chosen_size chunkSize_) <= CLIENT_MEDIA_MAX_CHUNK_COUNT.

(** The descriptor of an encryption in [n] chunks. *)
Definition chunked_descriptor (p key prefix : list Z) (cs : Z) (n : nat) : Descriptor := {|
  encrypted := Some true; version := Some CLIENT_MEDIA_CHUNKED_ENCRYPTION_VERSION;
  suite := Some CLIENT_MEDIA_CHUNKED_ENCRYPTION_SUITE; keyB64 := Some (btoa key); nonceB64 := Some (btoa prefix);
  plaintextSha256B64 := Some (b64_sha p); ciphertextSha256B64 := Some (b64_sha (concat (enc p key prefix cs <$> seq 0 n)));
  plaintextSize := Some (size p); ciphertextSize := Some (size (concat (enc p key prefix cs <$> seq 0 n)));
  chunking := Some CLIENT_MEDIA_CHUNKING_FIXED_V1; chunkSize := Some cs; chunkCount := Some (Z.of_nat n);
  chunkCiphertextSha256B64 := Some ((fun i => b64_sha (enc p key prefix cs i)) <$> seq 0 n);
  tagSize := Some AES_GCM_TAG_BYTES; nonceStrategy := Some CLIENT_MEDIA_NONCE_STRATEGY_COUNTER32_BE |}.

Lemma chunked_encrypts blob chunkSize_ key nonce :
  material key nonce -> Forall is_byte (blob_bytes blob) -> within_limits (size (blob_bytes blob)) chunkSize_ ->
  let p := blob_bytes blob in
  let cs := chosen_size chunkSize_ in
  let prefix := set_range 8 [0; 0; 0; 0] nonce in
  let n := Z.to_nat (chunk_count (size p) cs) in
  exists log, encryptClientMediaBlobChunked blob chunkSize_ key nonce
    = Ok ({| encryptedBlob := {| blob_bytes := concat (enc p key prefix cs <$> seq 0 n); blob_type := "application/octet-stream" |};
             descriptor := chunked_descriptor p key prefix cs n |}, log).
Proof.
  intros (Hk & Hn & Hkb & Hnb) Hp [Htot Hcount] p cs prefix n.
  assert (Hcs : 1 <= cs) by (unfold cs, chosen_size; lia).
  destruct (chunk_count_covers (size p) cs Hcs ltac:(unfold size; lia)) as [Hc1 Hcov].
  fold p cs in Hcount. unfold CLIENT_MEDIA_MAX_CHUNK_COUNT in Hcount.
  assert (HnZ : chunk_count (size p) cs = Z.of_nat n) by lia.
  destruct (encrypt_chunks_ok p key prefix cs Hcs Hp (proj1 (prefix_ok nonce Hn Hnb)) n 0 _
              (encrypted_nothing p key prefix cs (size p)) ltac:(lia)) as (acc & He & Hph & Hch & Hparts & Hhashes & _ & Hct).
  rewrite Nat.add_0_l in *. rewrite concat_all in Hph by lia. change (Z.of_nat 0) with 0 in He.
  unfold encryptClientMediaBlobChunked. cbv zeta. change (Z.max 1 (default DEFAULT_CHUNK_SIZE chunkSize_)) with cs. fold p.
  rewrite (proj2 (Z.ltb_ge _ _)) by done. rewrite (proj2 (Z.ltb_ge _ _)) by done.
  rewrite importKey_32 by done. cbn [mbind result_bind]. rewrite HnZ. change (AES_GCM_NONCE_BYTES - 4)%nat with 8%nat.
  fold prefix. rewrite He. cbn [mbind result_bind]. eexists.
  by rewrite Hparts, Hhashes, Hct, (digest_b64 _ _ Hph), (digest_b64 _ _ Hch).
Qed.

Lemma chunked_descriptor_ok p key prefix cs n :
  key <> [] -> prefix <> [] -> 1 <= cs -> isSafeInteger cs = true -> (0 < n <= 2048)%nat ->
  isClientMediaEncryptionDescriptor (Some (chunked_descriptor p key prefix cs n)) = true
  /\ isChunkedDescriptor (chunked_descriptor p key prefix cs n) = true.
Proof.
  intros Hk Hp Hcs Hsafe Hn. split.
  - unfold isClientMediaEncryptionDescriptor, chunked_descriptor.
    cbn [encrypted version suite keyB64 nonceB64 plaintextSha256B64 ciphertextSha256B64].
    by rewrite !b64_sha_truthy, !btoa_truthy.
  - unfold isChunkedDescriptor, chunked_descriptor. cbn [version suite chunking nonceStrategy chunkSize chunkCount tagSize].
    unfold positive_safe, isSafeInteger in *. rewrite Hsafe, !(proj2 (Z.ltb_lt _ _)), (proj2 (Z.leb_le _ _)) by lia. done.
Qed.

Lemma chunked_decrypts p key prefix cs n mime c :
  material key prefix -> Forall is_byte p -> 1 <= cs -> isSafeInteger cs = true -> (0 < n <= 2048)%nat ->
  size p <= Z.of_nat n * cs -> bytesFromCiphertext c = concat (enc p key prefix cs <$> seq 0 n) ->
  decryptClientMediaBlob c (Some (chunked_descriptor p key prefix cs n)) mime = Ok {| blob_bytes := p; blob_type := mime |}.
Proof.
  intros (Hk & Hpl & Hkb & Hpb) Hp Hcs Hsafe Hn Hcov Hc. set (d := chunked_descriptor p key prefix cs n).
  destruct (chunked_descriptor_ok p key prefix cs n) as [Hd Hdc]; [by intros -> | by intros -> | done..|].
  fold d in Hd, Hdc. unfold decryptClientMediaBlob. rewrite Hd, Hdc, Hc, sha256_b64_spec. cbn [negb].
  rewrite bool_decide_true by done. cbn [negb]. change (keyB64 d) with (Some (base64FromBytes key)).
  rewrite b64_ok by done. cbn [mbind result_bind]. rewrite importKey_32 by done. cbn [mbind result_bind].
  change (default 0 (chunkCount d)) with (Z.of_nat n). change (default 0 (chunkSize d)) with cs. rewrite Nat2Z.id.
  destruct (decrypt_chunks_ok p key prefix cs Hcs Hp (key_length key Hk) Hpl d n ltac:(lia) eq_refl eq_refl (b64_ok prefix Hpb)
              eq_refl n 0 new_Sha256 eq_refl holds_new) as (hash' & Hdec & Hh').
  rewrite concat_all in Hh' by lia. cbn [fmap list_fmap seq concat] in Hdec. change (size []) with 0 in Hdec.
  change (Z.of_nat 0) with 0 in Hdec. rewrite Hdec. cbn [mbind result_bind]. rewrite Z.eqb_refl. cbn [negb].
  change (plaintextSha256B64 d) with (Some (b64_sha p)).
  rewrite (digest_b64 _ _ Hh'), bool_decide_true by done. cbn [negb]. by rewrite concat_all by lia.
Qed.

(** C3: decryption undoes encryption. Within the size and chunk limits the chunked
    encryption succeeds and, with the descriptor it returns, decryption gives back the
    blob, every hash check included: the streaming hash the encryption computes and the
    platform's digest agree. The same holds of the encryption in one piece. *)
Theorem media_round_trip blob chunkSize_ key nonce mime :
  material key nonce -> Forall is_byte (blob_bytes blob) -> isSafeInteger (chosen_size chunkSize_) = true ->
  (within_limits (size (blob_bytes blob)) chunkSize_ ->
   exists asset log,
     encryptClientMediaBlobChunked blob chunkSize_ key nonce = Ok (asset, log)
     /\ decryptClientMediaBlob (as_blob (encryptedBlob asset)) (Some (descriptor asset)) mime
        = Ok {| blob_bytes := blob_bytes blob; blob_type := mime |})
  /\ exists asset log,
       encryptClientMediaBlob blob chunkSize_ key nonce = Ok (asset, log)
       /\ decryptClientMediaBlob (as_blob (encryptedBlob asset)) (Some (descriptor asset)) mime
          = Ok {| blob_bytes := blob_bytes blob; blob_type := mime |}.
Proof.
  intros Hm Hp Hsafe. pose proof Hm as (Hk & Hn & Hkb & Hnb). split.
  - intros Hlim. destruct (chunked_encrypts blob chunkSize_ key nonce Hm Hp Hlim) as [log He].
    destruct (prefix_ok nonce Hn Hnb) as [Hpl Hpb]. destruct Hlim as [_ Hc]. unfold CLIENT_MEDIA_MAX_CHUNK_COUNT in Hc.
    eexists _, log. split; [exact He|]. assert (Hcs : 1 <= chosen_size chunkSize_) by (unfold chosen_size; lia).
    destruct (chunk_count_covers (size (blob_bytes blob)) (chosen_size chunkSize_) Hcs ltac:(unfold size; lia)) as [Hc1 Hcov].
    apply chunked_decrypts; try done; lia.
  - unfold encryptClientMediaBlob. cbv zeta. rewrite importKey_32 by done. cbn [mbind result_bind].
    eexists _, _. split; [reflexivity|]. cbn [encryptedBlob descriptor]. unfold decryptClientMediaBlob, isClientMediaEncryptionDescriptor, isChunkedDescriptor.
    cbn [encrypted version suite keyB64 nonceB64 plaintextSha256B64 ciphertextSha256B64 bytesFromCiphertext blob_bytes].
    rewrite !sha256_b64_spec, !b64_sha_truthy. unfold base64FromBytes. rewrite !btoa_truthy by (intros Hnil; by rewrite Hnil in * ).
    rewrite !bool_decide_true by done. rewrite (bool_decide_false (Some _ = Some CLIENT_MEDIA_CHUNKED_ENCRYPTION_VERSION)) by done. cbn [negb andb orb].
    cbn [from_option]. unfold id, bytesFromBase64. rewrite !atob_btoa by done. cbn [mbind result_bind].
    rewrite importKey_32 by done. cbn [mbind result_bind]. rewrite gcm_opens by (done || by apply key_length). cbn [opened mbind result_bind].
    by rewrite sha256_b64_spec, !bool_decide_true.
Qed.

(** *** Integrity *)
Lemma slice_bytes a b bytes : Forall is_byte bytes -> Forall is_byte (slice a b bytes).
Proof. intros. by apply Forall_take, Forall_drop. Qed.

Lemma decrypt_chunk_bytes d key bytes cs offset i plain len :
  Forall is_byte bytes -> tagSize d = Some 16 -> decrypt_chunk d key bytes cs offset i = Ok (plain, len) -> Forall is_byte plain.
Proof.
  intros Hb Htag. unfold decrypt_chunk. destruct (plaintextSize d) as [total|]; [|done]. cbv zeta. rewrite Htag.
  destruct (negb _); [done|]. intros Hd. apply bind_ok in Hd as (_ & _ & Hd). apply bind_ok in Hd as (base & _ & Hd).
  apply bind_ok in Hd as (iv & _ & Hd). apply bind_ok in Hd as (pl & Ho & Hd). injection Hd as -> _.
  destruct (aes_gcm_decrypt _ _ _ _ _) as [m|] eqn:Hdec; [|done]. injection Ho as ->.
  eapply gcm_decrypt_bytes; [|exact Hdec]. by apply slice_bytes.
Qed.

Lemma decrypt_chunks_hash turns d key bytes cs offset i parts hash parts' hash' offset' :
  Forall is_byte bytes -> tagSize d = Some 16 -> holds (concat parts) hash ->
  decrypt_chunks turns d key bytes cs offset i parts hash = Ok (parts', hash', offset') -> holds (concat parts') hash'.
Proof.
  intros Hb Htag. revert offset i parts hash. induction turns as [|turns IH]; intros offset i parts hash Hh; cbn [decrypt_chunks].
  - by intros [= <- <- _].
  - intros Hd. apply bind_ok in Hd as ([plain len] & Hc & Hd). apply decrypt_chunk_bytes in Hc; [|done..].
    apply bind_ok in Hd as (h1 & Hu & Hd). destruct (update_spec _ _ plain Hh Hc) as (h2 & Hu2 & Hh2).
    cbn [fst snd] in *. assert (h1 = h2) as -> by congruence. eapply IH; [|exact Hd].
    rewrite concat_app. cbn [concat]. by rewrite app_nil_r.
Qed.

(** Nothing unchecked is returned. When a blob is decrypted with a
    recognised descriptor, the SHA-256 of the ciphertext and of the returned plaintext are
    the two hashes of the descriptor, in one piece and in chunks. *)
Theorem decrypted_media_matches_descriptor c d mime blob :
  isClientMediaEncryptionDescriptor (Some d) = true -> Forall is_byte (bytesFromCiphertext c) ->
  decryptClientMediaBlob c (Some d) mime = Ok blob ->
  ciphertextSha256B64 d = Some (b64_sha (bytesFromCiphertext c)) /\ plaintextSha256B64 d = Some (b64_sha (blob_bytes blob))
  /\ blob_type blob = mime.
Proof.
  intros Hd Hb. unfold decryptClientMediaBlob. rewrite Hd. cbn [negb]. rewrite sha256_b64_spec.
  case_bool_decide as Hc; [|done]. cbn [negb]. intros Hr. apply bind_ok in Hr as (kb & _ & Hr). apply bind_ok in Hr as (key & _ & Hr).
  split; [done|]. destruct (isChunkedDescriptor d) eqn:Hch.
  - unfold isChunkedDescriptor in Hch. rewrite !andb_true_iff in Hch. destruct Hch as [_ Htag%bool_decide_eq_true].
    apply bind_ok in Hr as ([[parts hash] offset] & Hloop & Hr). apply decrypt_chunks_hash in Hloop; [|done|done|apply holds_new].
    destruct (negb _); [done|]. rewrite (digest_b64 _ _ Hloop) in Hr. case_bool_decide; [|done]. by injection Hr as <-.
  - apply bind_ok in Hr as (iv & _ & Hr). apply bind_ok in Hr as (plain & _ & Hr). rewrite sha256_b64_spec in Hr.
    case_bool_decide; [|done]. by injection Hr as <-.
Qed.
End round_trip.

(** No nonce is used twice under a key: within one file the nonces of different
    chunks differ, keep the random prefix, and exist for exactly the 2048 indices the
    format allows. *)
Theorem chunk_nonces_distinct base i :
  ((exists nonce, nonceForChunk base i = Ok nonce) <-> length base = 12%nat /\ 0 <= i < CLIENT_MEDIA_MAX_CHUNK_COUNT)
  /\ forall nonce, nonceForChunk base i = Ok nonce ->
       length nonce = 12%nat /\ take 8 nonce = take 8 base
       /\ forall j nonce', nonceForChunk base j = Ok nonce' -> nonce = nonce' -> i = j.
Proof.
  assert (Hok : forall i nonce, nonceForChunk base i = Ok nonce ->
            length base = 12%nat /\ (Z.to_nat i < 2048)%nat /\ 0 <= i /\ nonce = chunk_nonce base (Z.to_nat i)).
  { clear i. intros i nonce. unfold nonceForChunk, CLIENT_MEDIA_MAX_CHUNK_COUNT.
    destruct (Nat.eqb_spec (length base) AES_GCM_NONCE_BYTES) as [Hl|]; [|done]. cbn [negb].
    destruct (Z.ltb_spec i 0); [done|]. destruct (Z.leb_spec 2048 i); [done|]. cbn [orb]. intros [= <-].
    unfold chunk_nonce. rewrite Z2Nat.id by lia. split_and!; try done; lia. }
  unfold CLIENT_MEDIA_MAX_CHUNK_COUNT. split.
  - split.
    + intros [nonce Hn]. apply Hok in Hn as (? & ? & ? & ?). split; [done|lia].
    + intros [Hl Hi]. exists (chunk_nonce base (Z.to_nat i)). rewrite <- nonceForChunk_ok by (done || unfold CLIENT_MEDIA_MAX_CHUNK_COUNT; lia).
      by rewrite Z2Nat.id by lia.
  - intros nonce Hn. apply Hok in Hn as (Hl & Hi & H0 & ->). split_and!.
    + by apply length_nonce.
    + unfold chunk_nonce, setUint32, set_range. by rewrite take_app_length' by (rewrite length_take; lia).
    + intros j nonce' Hn' Heq. apply Hok in Hn' as (_ & Hj & H0' & ->). apply chunk_nonce_inj in Heq; [lia|done..].
Qed.

(** The default chunk size of 1 MiB and the limit of 2048 chunks fit the limit of
    2 GiB exactly: a blob within the size limit is never refused for its number of chunks,
    and one byte more would need a further chunk. *)
Theorem default_chunk_limits total :
  0 <= total ->
  (total <= CLIENT_MEDIA_MAX_PLAINTEXT_SIZE <-> chunk_count total (chosen_size None) <= CLIENT_MEDIA_MAX_CHUNK_COUNT).
Proof.
  intros Ht. unfold chunk_count, ceil_div, chosen_size, CLIENT_MEDIA_MAX_PLAINTEXT_SIZE, CLIENT_MEDIA_MAX_CHUNK_COUNT, DEFAULT_CHUNK_SIZE.
  cbn [default]. change (Z.max 1 (1024 * 1024)) with 1048576. pose proof (Z.div_mod (total + 1048576 - 1) 1048576).
  pose proof (Z.mod_pos_bound (total + 1048576 - 1) 1048576). lia.
Qed.

(** Descriptors read from an attachment are always complete, and an attachment that
    carries its encryption in flat fields is never recognised with the chunked suite, as
    the version is fixed to that of the one-piece format. *)
Theorem attachment_descriptors `{Platform} a key :
  (forall d, clientMediaEncryptionDescriptorFromAttachment a key = Some d -> isClientMediaEncryptionDescriptor (Some d) = true)
  /\ (a_mediaEncryption a = None -> a_encryptionSuite a = Some CLIENT_MEDIA_CHUNKED_ENCRYPTION_SUITE ->
      clientMediaEncryptionDescriptorFromAttachment a key = None).
Proof.
  unfold clientMediaEncryptionDescriptorFromAttachment. cbv zeta. split.
  - intros d. destruct (isClientMediaEncryptionDescriptor _) eqn:H1; [intros Hd; by rewrite Hd in H1|].
    match goal with |- context [if ?b then _ else _] => destruct b eqn:H2 end; [|done]. intros Hd. by rewrite Hd in H2.
  - intros -> Hs. cbn [normalizeDescriptor isClientMediaEncryptionDescriptor]. rewrite Hs.
    cbn [encrypted version suite l_encrypted l_version l_suite].
    rewrite (bool_decide_false (Some CLIENT_MEDIA_CHUNKED_ENCRYPTION_SUITE = Some CLIENT_MEDIA_ENCRYPTION_SUITE)) by done.
    rewrite (bool_decide_false (Some CLIENT_MEDIA_ENCRYPTION_VERSION = Some CLIENT_MEDIA_CHUNKED_ENCRYPTION_VERSION)) by done.
    by destruct (bool_decide (Some CLIENT_MEDIA_ENCRYPTION_VERSION = _)).
Qed.

(** ** Witnesses *)

(** A cipher that only appends a tag of zeros. *)
Module MediaDemo.
#[local] Instance platform : Platform := {|
  aes_gcm_encrypt := fun _ _ _ _ m => m ++ replicate 16 0;
  aes_gcm_decrypt := fun _ _ _ _ c =>
    if bool_decide (drop (length c - 16) c = replicate 16 0) then Some (take (length c - 16) c) else None;
  subtle_digest := reference.sha256;
  Number_of := fun _ => None |}.

#[local] Instance platform_laws : PlatformLaws.
Proof.
  split; cbn [aes_gcm_encrypt aes_gcm_decrypt subtle_digest platform].
  - intros key iv aad m _ _. rewrite length_app, length_replicate, Nat.add_sub.
    by rewrite drop_app_length, take_app_length, bool_decide_true.
  - intros key iv aad m. unfold size. rewrite length_app, length_replicate. lia.
  - intros key iv aad m Hm. apply Forall_app. split; [done | apply Forall_zeros].
  - intros key iv aad c m Hc. case_bool_decide; [|done]. intros [= <-]. by apply Forall_take.
  - done.
Defined.

Definition file : Blob := {| blob_bytes := [1; 2; 3]; blob_type := "" |}.
Definition some_key : list Z := replicate 32 7.
Definition some_nonce : list Z := replicate 12 9.

Lemma some_material : material some_key some_nonce.
Proof. unfold material, is_byte. by_computation. Qed.

Lemma media_round_trip_witness :
  exists asset log,
    encryptClientMediaBlobChunked file (Some 2) some_key some_nonce = Ok (asset, log)
    /\ decryptClientMediaBlob (as_blob (encryptedBlob asset)) (Some (descriptor asset)) "image/png"
       = Ok {| blob_bytes := [1; 2; 3]; blob_type := "image/png" |}.
Proof.
  destruct (proj1 (media_round_trip file (Some 2) some_key some_nonce "image/png" some_material
              ltac:(unfold is_byte; by_computation) eq_refl) ltac:(unfold within_limits; by_computation)) as (asset & log & He & Hd).
  exists asset, log. split; [exact He | exact Hd].
Defined.

Definition plain_descriptor : Descriptor :=
  {| encrypted := Some true; version := Some 1; suite := Some CLIENT_MEDIA_ENCRYPTION_SUITE;
     keyB64 := Some (btoa some_key); nonceB64 := Some (btoa some_nonce);
     plaintextSha256B64 := Some (b64_sha [5]); ciphertextSha256B64 := Some (b64_sha ([5] ++ replicate 16 0));
     plaintextSize := Some 1; ciphertextSize := Some 17; chunking := None; chunkSize := None; chunkCount := None;
     chunkCiphertextSha256B64 := None; tagSize := None; nonceStrategy := None |}.

Lemma decrypted_media_matches_descriptor_witness :
  decryptClientMediaBlob (as_bytes ([5] ++ replicate 16 0)) (Some plain_descriptor) "image/png"
  = Ok {| blob_bytes := [5]; blob_type := "image/png" |}
  /\ plaintextSha256B64 plain_descriptor = Some (b64_sha [5]).
Proof.
  assert (Hr : decryptClientMediaBlob (as_bytes ([5] ++ replicate 16 0)) (Some plain_descriptor) "image/png"
               = Ok {| blob_bytes := [5]; blob_type := "image/png" |}) by (vm_compute; reflexivity).
  split; [exact Hr|].
  exact (proj1 (proj2 (decrypted_media_matches_descriptor (as_bytes ([5] ++ replicate 16 0)) plain_descriptor "image/png"
           {| blob_bytes := [5]; blob_type := "image/png" |} ltac:(vm_compute; reflexivity)
           ltac:(unfold is_byte; by_computation) Hr))).
Defined.

Lemma chunk_nonces_distinct_witness :
  nonceForChunk some_nonce 1 = Ok (chunk_nonce some_nonce 1) /\ chunk_nonce some_nonce 0 <> chunk_nonce some_nonce 1.
Proof.
  split; [reflexivity|]. intros Heq.
  destruct (proj2 (chunk_nonces_distinct some_nonce 0) (chunk_nonce some_nonce 0) eq_refl) as (_ & _ & Hinj).
  discriminate (Hinj 1 (chunk_nonce some_nonce 1) eq_refl Heq).
Defined.

Lemma default_chunk_limits_witness : chunk_count (2 * 1024 * 1024 * 1024) (chosen_size None) = 2048.
Proof.
  pose proof (proj1 (default_chunk_limits (2 * 1024 * 1024 * 1024) ltac:(lia)) ltac:(by_computation)) as Hle.
  vm_compute. reflexivity.
Defined.

Definition flat_attachment : Attachment :=
  {| a_mediaEncryption := None; a_encryptionSuite := Some CLIENT_MEDIA_CHUNKED_ENCRYPTION_SUITE;
     a_encryptionKeyB64 := Some (T "k"); a_encryptionNonceB64 := Some (T "n"); a_plaintextSha256B64 := Some (T "p");
     a_ciphertextSha256B64 := Some (T "c"); a_plaintextSize := Some (v_bigint 1); a_ciphertextSize := Some (v_bigint 17);
     a_chunking := Some CLIENT_MEDIA_CHUNKING_FIXED_V1; a_chunkSize := Some (v_bigint 1); a_chunkCount := Some (v_bigint 1);
     a_chunkCiphertextSha256B64 := None; a_tagSize := Some (v_bigint 16);
     a_nonceStrategy := Some CLIENT_MEDIA_NONCE_STRATEGY_COUNTER32_BE |}.

Lemma attachment_descriptors_witness :
  a_encryptionSuite flat_attachment = Some CLIENT_MEDIA_CHUNKED_ENCRYPTION_SUITE
  /\ clientMediaEncryptionDescriptorFromAttachment flat_attachment None = None.
Proof. split; [reflexivity|]. exact (proj2 (attachment_descriptors flat_attachment None) eq_refl eq_refl). Defined.
End MediaDemo.
