(* ===== verification/ClientStorage.v ===== *)
(** * The cache of the client storage package

    Models [packages/client-storage/src/index.ts]: domains and their policies, scoped
    storage keys, the cache store over a storage adapter, repositories, the kernel and the
    local storage adapter. The adapter is an interface with laws; [JSON] is a parameter. The
    clock is an argument. *)
From Stdlib Require Import Ascii Lia ZArith.
From stdpp Require Import base numbers strings list sets countable.
From S2P Require Import Prelude TextCodec.

(** ** Domains *)
Inductive ClientStorageDomainId : Set :=
| asset_avatar | chat_conversation_settings | chat_message | chat_message_flag | config_preference
| crypto_sender_key_ledger | identity_trust | profile_peer | station_registry | runtime_projection
| agent_conversation | agent_message | agent_turn_event | agent_cursor.

#[export] Instance domain_eq_dec : EqDecision ClientStorageDomainId.
Proof. solve_decision. Defined.

Inductive StorageScopeLevel : Set := scope_app | scope_station | scope_actor | scope_device | scope_session | scope_process.

#[export] Instance scope_level_eq_dec : EqDecision StorageScopeLevel.
Proof. solve_decision. Defined.

Definition domain_id (d : ClientStorageDomainId) : string :=
  match d with
  | asset_avatar => "asset.avatar"
  | chat_conversation_settings => "chat.conversation-settings"
  | chat_message => "chat.message"
  | chat_message_flag => "chat.message-flag"
  | config_preference => "config.preference"
  | crypto_sender_key_ledger => "crypto.sender-key-ledger"
  | identity_trust => "identity.trust"
  | profile_peer => "profile.peer"
  | station_registry => "station.registry"
  | runtime_projection => "runtime.projection"
  | agent_conversation => "agent.conversation"
  | agent_message => "agent.message"
  | agent_turn_event => "agent.turn-event"
  | agent_cursor => "agent.cursor"
  end.

Record ClientStorageDomain : Set := { scope_level : StorageScopeLevel; domain_ttlMs : option Z; persistent : bool }.

Definition CLIENT_STORAGE_DOMAINS (d : ClientStorageDomainId) : ClientStorageDomain :=
  let policy level ttl keep := {| scope_level := level; domain_ttlMs := ttl; persistent := keep |} in
  match d with
  | asset_avatar => policy scope_actor (Some (7 * 24 * 60 * 60 * 1000)) true
  | chat_conversation_settings => policy scope_actor (Some (24 * 60 * 60 * 1000)) true
  | chat_message => policy scope_actor None true
  | chat_message_flag => policy scope_actor None true
  | config_preference => policy scope_actor None true
  | crypto_sender_key_ledger => policy scope_actor None true
  | identity_trust => policy scope_actor None true
  | profile_peer => policy scope_actor (Some (30 * 60 * 1000)) true
  | station_registry => policy scope_app None true
  | runtime_projection => policy scope_session (Some (5 * 60 * 1000)) false
  | agent_conversation => policy scope_actor None true
  | agent_message => policy scope_actor None true
  | agent_turn_event => policy scope_actor None true
  | agent_cursor => policy scope_actor None true
  end.

(** [Object.values(CLIENT_STORAGE_DOMAINS)] *)
Definition all_domains : list ClientStorageDomainId :=
  [asset_avatar; chat_conversation_settings; chat_message; chat_message_flag; config_preference; crypto_sender_key_ledger;
   identity_trust; profile_peer; station_registry; runtime_projection; agent_conversation; agent_message; agent_turn_event;
   agent_cursor].

(** ** Keys *)
Record ClientStorageScope : Set := {
  sc_app : string; sc_station : option string; sc_actor : option string; sc_device : option string;
  sc_session : option string; sc_process : option string
}.

(** [[a-zA-Z0-9._-]] *)
Definition safe_char (c : ascii) : bool := base64url_char c || Ascii.eqb c ".".

Definition safe_text (value : string) : text :=
  let trimmed := trim (T value) in
  if bool_decide (trimmed = []) then T "_"
  else take 160 ((fun c => if safe_char c then c else "_"%char) <$> trimmed).

Definition safeSegment (value : string) : string := String.string_of_list_ascii (safe_text value).

Definition ROOT_PREFIX : string := "peers-touch.client-storage.v1".

Definition scope_segments (scope : ClientStorageScope) : list string :=
  [safeSegment (sc_app scope); safeSegment (default "station" (sc_station scope));
   safeSegment (default "actor" (sc_actor scope)); safeSegment (default "device" (sc_device scope));
   safeSegment (default "session" (sc_session scope)); safeSegment (default "process" (sc_process scope))].

Definition domainStoragePrefix (scope : ClientStorageScope) (d : ClientStorageDomainId) : string :=
  join ":" ([ROOT_PREFIX] ++ scope_segments scope ++ [safeSegment (domain_id d)]).

Definition scopedStorageKey (scope : ClientStorageScope) (d : ClientStorageDomainId) (key : string) : string :=
  domainStoragePrefix scope d +:+ ":" +:+ safeSegment key.

Definition safeStorageKey (parts : list string) : string := join "." (filter (fun p => p <> ""%string) (safeSegment <$> parts)).

(** ** Envelopes *)
Record CacheEnvelope (V : Type) : Type := {
  env_schemaVersion : Z; env_domain : ClientStorageDomainId; env_key : string; env_scope : ClientStorageScope;
  env_value : V; env_cachedAt : Z; env_expiresAt : option Z;
  env_revision : option string; env_cursor : option string; env_stale : option bool
}.
Arguments env_schemaVersion {V} _. Arguments env_domain {V} _. Arguments env_key {V} _. Arguments env_scope {V} _.
Arguments env_value {V} _. Arguments env_cachedAt {V} _. Arguments env_expiresAt {V} _. Arguments env_revision {V} _.
Arguments env_cursor {V} _. Arguments env_stale {V} _.

(** [ttlMs] is undefined, null or a number. *)
Record CacheWriteOptions : Set := {
  opt_cachedAt : option Z; opt_ttlMs : option (option Z); opt_revision : option string; opt_cursor : option string;
  opt_stale : option bool
}.

Definition no_options : CacheWriteOptions :=
  {| opt_cachedAt := None; opt_ttlMs := None; opt_revision := None; opt_cursor := None; opt_stale := None |}.

Record CacheReadResult (V : Type) : Type := { envelope : option (CacheEnvelope V); hit : bool; stale : bool }.
Arguments envelope {V} _. Arguments hit {V} _. Arguments stale {V} _.

(** What [parseEnvelope] looks at in a parsed object: fields that are absent or of another
    type have no value, and the rest is the object itself. *)
Record PartialEnvelope (V : Type) : Type := {
  p_schemaVersion : option Z; p_domain : option string; p_key : option string; p_value : option V;
  p_cachedAt : option Z; p_envelope : CacheEnvelope V
}.
Arguments p_schemaVersion {V} _. Arguments p_domain {V} _. Arguments p_key {V} _. Arguments p_value {V} _.
Arguments p_cachedAt {V} _. Arguments p_envelope {V} _.

(** [JSON.stringify] and [JSON.parse]; a text that is not JSON has no object. *)
Class Json (V : Type) := {
  stringify : CacheEnvelope V -> string;
  parse_json : string -> option (PartialEnvelope V)
}.

(** ** Adapters *)
Class PlatformStorageAdapter (S : Type) := {
  getItem : string -> S -> option string;
  setItem : string -> string -> S -> result S;
  removeItem : string -> S -> S;
  keys : option (string -> S -> list string)
}.

Definition CLIENT_STORAGE_SCHEMA_VERSION : Z := 1.

Section store.
Context {S V : Type} `{PlatformStorageAdapter S} `{Json V} (scope : ClientStorageScope).

Definition storageKey (d : ClientStorageDomainId) (key : string) : string := scopedStorageKey scope d key.

Definition parseEnvelope (raw : string) (d : ClientStorageDomainId) (key : string) : option (CacheEnvelope V) :=
  match parse_json raw with
  | None => None
  | Some parsed =>
      if negb (bool_decide (p_schemaVersion parsed = Some CLIENT_STORAGE_SCHEMA_VERSION)) then None
      else if negb (bool_decide (p_domain parsed = Some (domain_id d))) || negb (bool_decide (p_key parsed = Some key)) then None
      else match p_value parsed, p_cachedAt parsed with
           | Some _, Some _ => Some (p_envelope parsed)
           | _, _ => None
           end
  end.

Definition miss : CacheReadResult V := {| envelope := None; hit := false; stale := false |}.

(** [envelope.expiresAt && envelope.expiresAt <= clock()]: zero is no expiry. *)
Definition expired (e : CacheEnvelope V) (now : Z) : bool :=
  match env_expiresAt e with Some t => negb (t =? 0) && (t <=? now) | None => false end.

Definition read (now : Z) (d : ClientStorageDomainId) (key : string) (s : S) : CacheReadResult V :=
  match getItem (storageKey d key) s with
  | None => miss
  | Some raw =>
      if negb (truthy raw) then miss
      else match parseEnvelope raw d key with
           | None => miss
           | Some e => {| envelope := Some e; hit := true; stale := default false (env_stale e) || expired e now |}
           end
  end.

Definition non_empty (o : option string) : option string := o ≫= (fun s => if truthy s then Some s else None).

Definition new_envelope (now : Z) (d : ClientStorageDomainId) (key : string) (value : V) (options : CacheWriteOptions) : CacheEnvelope V :=
  let cachedAt := default now (opt_cachedAt options) in
  let ttlMs := match opt_ttlMs options with None => domain_ttlMs (CLIENT_STORAGE_DOMAINS d) | Some ttl => ttl end in
  {| env_schemaVersion := CLIENT_STORAGE_SCHEMA_VERSION; env_domain := d; env_key := key; env_scope := scope;
     env_value := value; env_cachedAt := cachedAt; env_expiresAt := (fun ttl => cachedAt + ttl) <$> ttlMs;
     env_revision := non_empty (opt_revision options); env_cursor := non_empty (opt_cursor options);
     env_stale := opt_stale options |}.

Definition write (now : Z) (d : ClientStorageDomainId) (key : string) (value : V) (options : CacheWriteOptions) (s : S)
    : result (S * CacheEnvelope V) :=
  let e := new_envelope now d key value options in
  s ← setItem (storageKey d key) (stringify e) s;
  Ok (s, e).

Definition remove (d : ClientStorageDomainId) (key : string) (s : S) : S := removeItem (storageKey d key) s.

Definition invalidateDomain (d : ClientStorageDomainId) (s : S) : S :=
  let prefix := domainStoragePrefix scope d in
  let found := match keys with Some f => f prefix s | None => [] end in
  fold_left (fun s key => removeItem key s) found s.

Definition invalidateDomains (ds : list ClientStorageDomainId) (s : S) : S := fold_left (fun s d => invalidateDomain d s) ds s.

Definition invalidateSession (s : S) : S :=
  invalidateDomains
    (filter (fun d => scope_level (CLIENT_STORAGE_DOMAINS d) = scope_session \/ scope_level (CLIENT_STORAGE_DOMAINS d) = scope_process)
            all_domains) s.

(** [readValue] of a repository. *)
Definition readValue (now : Z) (d : ClientStorageDomainId) (key : string) (s : S) : option V :=
  env_value <$> envelope (read now d key s).
End store.

(** ** Local storage *)

(** [Storage | null]; a quota can refuse a write. *)
Definition starts_with_key (prefix : string) (k : string) : bool := Prelude.starts_with prefix k.

Definition createLocalStorageAdapter (quota : string -> string -> jsmap string -> bool)
    : PlatformStorageAdapter (option (jsmap string)) := {|
  getItem := fun key s => s ≫= (fun m => m !! key);
  setItem := fun key value s =>
    match s with
    | Some m => if quota key value m then Ok (Some (<[key := value]> m)) else Err "QuotaExceededError"
    | None => Ok None
    end;
  removeItem := fun key s => delete key <$> s;
  keys := Some (fun prefix s => match s with Some m => filter (fun k => starts_with_key prefix k = true) (jm_keys m) | None => [] end)
|}.

#[export] Existing Instance createLocalStorageAdapter.

(** ** What adapters and [JSON] promise *)

(** [attached]: the state is a store at all. *)
Class StorageLaws (S : Type) `{PlatformStorageAdapter S} := {
  attached : S -> Prop;
  get_set k v s s' : attached s -> setItem k v s = Ok s' -> attached s' /\ forall k', getItem k' s' = if decide (k = k') then Some v else getItem k' s;
  get_remove k k' s : getItem k' (removeItem k s) = if decide (k = k') then None else getItem k' s;
  attached_remove k s : attached s -> attached (removeItem k s);
  keys_spec f prefix k s : keys = Some f -> k ∈ f prefix s <-> Prelude.starts_with prefix k = true /\ is_Some (getItem k s)
}.

Definition whole_envelope {V} (e : CacheEnvelope V) : PartialEnvelope V :=
  {| p_schemaVersion := Some (env_schemaVersion e); p_domain := Some (domain_id (env_domain e)); p_key := Some (env_key e);
     p_value := Some (env_value e); p_cachedAt := Some (env_cachedAt e); p_envelope := e |}.

Class JsonLaws (V : Type) `{Json V} : Prop := {
  parse_stringify e : parse_json (stringify e) = Some (whole_envelope e);
  stringify_truthy e : truthy (stringify e) = true
}.

#[export] Program Instance local_storage_laws quota : @StorageLaws (option (jsmap string)) (createLocalStorageAdapter quota) := {|
  attached := fun s => exists m, s = Some m /\ jm_wf m
|}.
Next Obligation.
  intros quota k v s s' [m [-> Hw]] Hs. cbn in Hs. destruct (quota k v m); [|done]. injection Hs as <-.
  split; [eauto with jsmap|]. intros k'. cbn. apply jm_lookup_set.
Qed.
Next Obligation.
  intros quota k k' [m|]; cbn; [|by case_decide]. apply jm_lookup_delete.
Qed.
Next Obligation. intros quota k s [m [-> Hw]]. cbn. eauto with jsmap. Qed.
Next Obligation.
  intros quota f prefix k s. cbn. intros [= <-]. destruct s as [m|]; cbn.
  - rewrite list_elem_of_filter, jm_elem_of_keys. done.
  - split; [by intros ?%elem_of_nil|]. intros [_ [? ?]]. done.
Qed.

(** ** Segments *)
Lemma domain_id_inj d d' : domain_id d = domain_id d' -> d = d'.
Proof. by destruct d, d'. Qed.

Lemma domain_segment d : safeSegment (domain_id d) = domain_id d.
Proof. by destruct d. Qed.

Lemma string_of_text_colon t : Forall (fun c => c <> ":"%char) t -> colon_free (String.string_of_list_ascii t).
Proof.
  unfold colon_free. induction 1 as [|c t Hc Ht IH]; [done|]. cbn [String.string_of_list_ascii has_colon].
  by rewrite bool_decide_false, IH.
Qed.

Lemma safe_segment_colon value : colon_free (safeSegment value).
Proof.
  apply string_of_text_colon. unfold safe_text. case_bool_decide; [by_computation|].
  apply Forall_take, Forall_fmap, Forall_forall. intros c _. cbn. destruct (safe_char c) eqn:Hs; [|done]. by intros ->.
Qed.

Definition key_segments (scope : ClientStorageScope) (d : ClientStorageDomainId) (key : string) : list string :=
  [ROOT_PREFIX] ++ scope_segments scope ++ [safeSegment (domain_id d); safeSegment key].

Lemma storage_key_segments scope d key : scopedStorageKey scope d key = join_colon (key_segments scope d key).
Proof.
  unfold scopedStorageKey, domainStoragePrefix, key_segments, join, scope_segments. cbn [app join_colon String.concat].
  by rewrite !app_assoc_string.
Qed.

Lemma key_segments_free scope d key : Forall colon_free (key_segments scope d key).
Proof. unfold key_segments, scope_segments. cbn [app]. repeat (apply Forall_cons_2; [first [apply safe_segment_colon | done]|]). apply Forall_nil_2. Qed.

Lemma storage_key_inj scope scope' d d' key key' :
  scopedStorageKey scope d key = scopedStorageKey scope' d' key'
  <-> scope_segments scope = scope_segments scope' /\ d = d' /\ safeSegment key = safeSegment key'.
Proof.
  rewrite !storage_key_segments. split.
  - intros Heq%join_colon_inj; [|done|done|apply key_segments_free..]. unfold key_segments in Heq.
    injection Heq as H1 H2 H3 H4 H5 H6 Hd Hk. rewrite !domain_segment in Hd. apply domain_id_inj in Hd.
    unfold scope_segments. by rewrite H1, H2, H3, H4, H5, H6.
  - intros (Hs & -> & Hk). unfold key_segments. by rewrite Hs, Hk.
Qed.

(** The domains whose entries an invalidation of [d] reaches. *)
Definition reached (d d' : ClientStorageDomainId) : Prop := d' = d \/ (d = chat_message /\ d' = chat_message_flag).

#[export] Instance reached_dec d d' : Decision (reached d d').
Proof. unfold reached. apply _. Defined.

Lemma prefix_app (p a b : string) : String.prefix (p ++ a) (p ++ b) = String.prefix a b.
Proof.
  induction p as [|c p IH]; [done|].
  change (String c p ++ ?x)%string with (String c (p ++ x)). cbn. destruct (Ascii.ascii_dec c c); [exact IH | done].
Qed.

Lemma domain_prefix_spec scope d d' key :
  Prelude.starts_with (domainStoragePrefix scope d) (scopedStorageKey scope d' key) = bool_decide (reached d d').
Proof.
  unfold Prelude.starts_with, scopedStorageKey.
  assert (Hp : exists p, forall d, domainStoragePrefix scope d = (p ++ domain_id d)%string).
  { exists (join_colon (ROOT_PREFIX :: scope_segments scope) ++ ":")%string. intros d0. unfold domainStoragePrefix, join, scope_segments.
    cbn [app join_colon String.concat]. rewrite !app_assoc_string, domain_segment. done. }
  destruct Hp as [p Hp]. rewrite !Hp, app_assoc_string, prefix_app. by destruct d, d'.
Qed.

(** ** The store *)
Section cache.
Context {S V : Type} `{StorageLaws S} `{JsonLaws V} (scope : ClientStorageScope).
Implicit Types (s : S) (e : CacheEnvelope V).

(** What a read makes of the text at its key. *)
Definition result_of (now : Z) (e : CacheEnvelope V) : CacheReadResult V :=
  {| envelope := Some e; hit := true; stale := default false (env_stale e) || expired e now |}.

Lemma read_none now d key s : getItem (storageKey scope d key) s = None -> read scope now d key s = (miss : CacheReadResult V).
Proof. unfold read. by intros ->. Qed.

(** An envelope at a storage key is returned under its own domain and key only. *)
Lemma read_some now d key s e :
  getItem (storageKey scope d key) s = Some (stringify e) -> env_schemaVersion e = CLIENT_STORAGE_SCHEMA_VERSION ->
  read scope now d key s = if decide (env_domain e = d /\ env_key e = key) then result_of now e else miss.
Proof.
  intros Hg Hv. unfold read. rewrite Hg, stringify_truthy. cbn [negb]. unfold parseEnvelope. rewrite parse_stringify.
  cbn [p_schemaVersion p_domain p_key p_value p_cachedAt p_envelope whole_envelope]. rewrite Hv, bool_decide_true by done. cbn [negb].
  case_decide as Hd.
  - destruct Hd as [-> ->]. by rewrite !bool_decide_true.
  - case_bool_decide as Hd1; [|done]. case_bool_decide as Hd2; [|done]. destruct Hd. split; [|congruence].
    apply domain_id_inj. congruence.
Qed.

Lemma read_ext now d key s s' :
  getItem (storageKey scope d key) s' = getItem (storageKey scope d key) s -> read scope now d key s' = (read scope now d key s : CacheReadResult V).
Proof. unfold read. by intros ->. Qed.

Lemma write_ok now d key (v : V) options s s' e :
  attached s -> write scope now d key v options s = Ok (s', e) ->
  e = new_envelope scope now d key v options /\ attached s'
  /\ forall k, getItem k s' = if decide (storageKey scope d key = k) then Some (stringify e) else getItem k s.
Proof.
  intros Ha Hw. apply bind_ok in Hw as (s1 & Hs & Hw). injection Hw as -> <-.
  destruct (get_set _ _ _ _ Ha Hs) as [Ha' Hg]. done.
Qed.

(** *** Invalidation *)
Lemma get_remove_all ks k s :
  getItem k (fold_left (fun s key => removeItem key s) ks s) = if decide (k ∈ ks) then None else getItem k s.
Proof.
  revert s. induction ks as [|k0 ks IH]; intros s; [done|]. cbn [fold_left]. rewrite IH, get_remove.
  repeat case_decide; set_solver.
Qed.

Lemma attached_remove_all ks s : attached s -> attached (fold_left (fun s key => removeItem key s) ks s).
Proof. revert s. induction ks as [|k ks IH]; intros s Ha; [done|]. apply IH. by apply attached_remove. Qed.

Lemma get_invalidate d d' key s :
  is_Some (keys (S := S)) ->
  getItem (storageKey scope d' key) (invalidateDomain scope d s)
  = if decide (reached d d') then None else getItem (storageKey scope d' key) s.
Proof.
  intros [f Hf]. unfold invalidateDomain. rewrite Hf, get_remove_all. unfold storageKey.
  pose proof (keys_spec f (domainStoragePrefix scope d) (scopedStorageKey scope d' key) s Hf) as Hk.
  rewrite domain_prefix_spec in Hk. case_decide as Hin; case_decide as Hr; try done.
  - rewrite bool_decide_eq_true in Hk. by apply Hk in Hin as [? _].
  - rewrite bool_decide_true in Hk by done. destruct (getItem _ s) eqn:Hg; [|done]. destruct Hin. apply Hk. eauto.
Qed.

Lemma read_invalidate now d d' key s :
  is_Some (keys (S := S)) ->
  read scope now d' key (invalidateDomain scope d s)
  = if decide (reached d d') then miss else (read scope now d' key s : CacheReadResult V).
Proof.
  intros Hk. pose proof (get_invalidate d d' key s Hk) as Hg. case_decide; [by apply read_none | by apply read_ext].
Qed.

Lemma read_invalidates now ds d' key s :
  is_Some (keys (S := S)) ->
  read scope now d' key (invalidateDomains scope ds s)
  = if decide (Exists (fun d => reached d d') ds) then miss else (read scope now d' key s : CacheReadResult V).
Proof.
  intros Hk. unfold invalidateDomains. revert s. induction ds as [|d ds IH]; intros s; cbn [fold_left].
  - rewrite decide_False; [done | intros Hx; by apply Exists_nil in Hx].
  - rewrite IH, read_invalidate by done. repeat case_decide; try done;
      rewrite Exists_cons in *; tauto.
Qed.

(** What an invalidation reaches. With an adapter that lists its keys, invalidating a
    domain turns every read of it into a miss and leaves all other domains as they were,
    except that invalidating [chat.message] also drops [chat.message-flag], whose name it
    is a prefix of; the session invalidation drops the runtime projections only. *)
Theorem invalidation_reach now d d' key s :
  is_Some (keys (S := S)) ->
  read scope now d' key (invalidateDomain scope d s)
    = (if decide (d' = d \/ (d = chat_message /\ d' = chat_message_flag)) then miss else (read scope now d' key s : CacheReadResult V))
  /\ read scope now d' key (invalidateSession scope s)
    = (if decide (d' = runtime_projection) then miss else (read scope now d' key s : CacheReadResult V)).
Proof.
  intros Hk. split; [by apply read_invalidate|]. unfold invalidateSession. rewrite read_invalidates by done.
  replace (filter _ all_domains) with [runtime_projection] by done.
  assert (He : Exists (fun d => reached d d') [runtime_projection] <-> d' = runtime_projection).
  { rewrite Exists_cons. split; [|by left; left]. by intros [[?|[? _]]|[]%Exists_nil]. }
  repeat case_decide; tauto.
Qed.

(** *** Reading what was written *)

(** After a successful write the key reads back the new envelope with the value,
    stale exactly when it was written so or when its time to live, of the options or else
    of the domain, has run out; a key with another storage key reads as before, and one
    that shares the storage key reads as a miss, never as the value of the other key. *)
Theorem read_after_write now now' d key (v : V) options s s' e :
  attached s -> write scope now d key v options s = Ok (s', e) ->
  read scope now' d key s' = result_of now' e
  /\ env_value e = v
  /\ (stale (result_of now' e) = true <->
      opt_stale options = Some true
      \/ exists ttl, match opt_ttlMs options with Some t => t | None => domain_ttlMs (CLIENT_STORAGE_DOMAINS d) end = Some ttl
           /\ default now (opt_cachedAt options) + ttl <> 0 /\ default now (opt_cachedAt options) + ttl <= now')
  /\ forall d' key', (d', key') <> (d, key) ->
       read scope now' d' key' s'
       = if decide (storageKey scope d' key' = storageKey scope d key) then miss else (read scope now' d' key' s : CacheReadResult V).
Proof.
  intros Ha Hw. destruct (write_ok _ _ _ _ _ _ _ _ Ha Hw) as (-> & Ha' & Hg). split_and!.
  - rewrite (read_some now' d key s' (new_envelope scope now d key v options)); [|by rewrite Hg, decide_True|done].
    by rewrite decide_True.
  - done.
  - unfold result_of, expired, new_envelope. cbn [stale env_stale env_expiresAt]. rewrite orb_true_iff. apply ZifyClasses.or_morph.
    + destruct (opt_stale options) as [[]|]; cbn; naive_solver.
    + destruct (match opt_ttlMs options with Some t => t | None => _ end) as [ttl|]; cbn [fmap option_fmap option_map]; [|naive_solver].
      rewrite andb_true_iff, negb_true_iff, Z.eqb_neq, Z.leb_le. naive_solver.
  - intros d' key' Hne. pose proof (Hg (storageKey scope d' key')) as Hk. case_decide as Hs.
    + rewrite (decide_True (P := storageKey _ _ _ = _)) by done. rewrite (read_some _ _ _ _ _ Hk) by done.
      rewrite decide_False; [done|]. cbn. naive_solver.
    + rewrite decide_False by congruence. by apply read_ext.
Qed.

(** *** Histories *)

(** What a client that never forgets would hold. *)
Definition Spec : Type := ClientStorageDomainId -> string -> option (CacheEnvelope V).

Inductive CacheOp : Type :=
| op_write (now : Z) (d : ClientStorageDomainId) (key : string) (v : V) (options : CacheWriteOptions)
| op_remove (d : ClientStorageDomainId) (key : string)
| op_invalidate (d : ClientStorageDomainId)
| op_invalidate_session.

Definition put (d : ClientStorageDomainId) (key : string) (o : option (CacheEnvelope V)) (m : Spec) : Spec :=
  fun d' key' => if decide (d' = d /\ key' = key) then o else m d' key'.

Definition forget_domain (d : ClientStorageDomainId) (m : Spec) : Spec := fun d' key' => if decide (d' = d) then None else m d' key'.

Definition step (op : CacheOp) (st : S * Spec) : S * Spec :=
  let (s, m) := st in
  match op with
  | op_write now d key v options =>
      match write scope now d key v options s with Ok (s', e) => (s', put d key (Some e) m) | Err _ => (s, m) end
  | op_remove d key => (remove scope d key s, put d key None m)
  | op_invalidate d => (invalidateDomain scope d s, forget_domain d m)
  | op_invalidate_session => (invalidateSession scope s, forget_domain runtime_projection m)
  end.

Definition run (ops : list CacheOp) (st : S * Spec) : S * Spec := fold_left (fun st op => step op st) ops st.

(** Every text of this scope is an envelope of the specification, at its storage key. *)
Definition backed (s : S) (m : Spec) : Prop :=
  forall d key raw, getItem (storageKey scope d key) s = Some raw ->
    exists e, raw = stringify e /\ env_schemaVersion e = CLIENT_STORAGE_SCHEMA_VERSION
      /\ storageKey scope (env_domain e) (env_key e) = storageKey scope d key /\ m (env_domain e) (env_key e) = Some e.

Lemma backed_shrink s s' m m' :
  backed s m ->
  (forall d key raw, getItem (storageKey scope d key) s' = Some raw ->
     getItem (storageKey scope d key) s = Some raw
     /\ forall d' key', storageKey scope d' key' = storageKey scope d key -> m' d' key' = m d' key') ->
  backed s' m'.
Proof.
  intros Hb Hs d key raw Hg. destruct (Hs _ _ _ Hg) as [Hg' Hm]. destruct (Hb _ _ _ Hg') as (e & Hr & Hv & Hk & He).
  exists e. by rewrite Hm.
Qed.

Lemma backed_invalidate d s m : is_Some (keys (S := S)) -> backed s m -> backed (invalidateDomain scope d s) (forget_domain d m).
Proof.
  intros Hk Hb. eapply backed_shrink; [exact Hb|]. intros d' key raw. rewrite get_invalidate by done. case_decide as Hr; [done|].
  intros Hg. split; [done|]. intros d2 key2 (_ & -> & _)%storage_key_inj. unfold forget_domain. rewrite decide_False; [done|].
  intros ->. apply Hr. by left.
Qed.

Lemma invalidateSession_alt s : invalidateSession scope s = invalidateDomain scope runtime_projection s.
Proof. done. Qed.

Lemma backed_step op s m :
  is_Some (keys (S := S)) -> attached s -> backed s m ->
  attached (step op (s, m)).1 /\ backed (step op (s, m)).1 (step op (s, m)).2.
Proof.
  intros Hk Ha Hb. destruct op as [now d key v options|d key|d|]; cbn [step].
  - destruct (write scope now d key v options s) as [[s' e]|msg] eqn:Hw; [|done]. cbn [fst snd].
    destruct (write_ok _ _ _ _ _ _ _ _ Ha Hw) as (-> & Ha' & Hg). split; [done|]. intros d' key' raw Hr. rewrite Hg in Hr.
    case_decide as Hs.
    + injection Hr as <-. eexists. split; [done|]. split; [done|]. split; [exact Hs|]. unfold put. by rewrite decide_True.
    + destruct (Hb _ _ _ Hr) as (e & -> & Hv & Hse & He). exists e. split_and!; try done. unfold put. rewrite decide_False; [done|].
      intros [Hd' Hk']. apply Hs. by rewrite <- Hd', <- Hk'.
  - cbn [fst snd]. split; [by apply attached_remove|]. eapply backed_shrink; [exact Hb|]. intros d' key' raw. unfold remove.
    rewrite get_remove. case_decide as Hs; [done|]. intros Hg. split; [done|]. intros d2 key2 Heq. unfold put. rewrite decide_False; [done|].
    intros [-> ->]. done.
  - cbn [fst snd]. split; [|by apply backed_invalidate]. unfold invalidateDomain. by apply attached_remove_all.
  - cbn [fst snd]. rewrite invalidateSession_alt. split; [|by apply backed_invalidate]. by apply attached_remove_all.
Qed.

Lemma backed_run ops s m :
  is_Some (keys (S := S)) -> attached s -> backed s m ->
  attached (run ops (s, m)).1 /\ backed (run ops (s, m)).1 (run ops (s, m)).2.
Proof.
  intros Hk. unfold run. revert s m. induction ops as [|op ops IH]; intros s m Ha Hb; [done|]. cbn [fold_left].
  destruct (backed_step op s m Hk Ha Hb) as [Ha' Hb']. destruct (step op (s, m)) as [s' m']. by apply IH.
Qed.

(** C35: the cache implements a map that may forget. After any history of writes, failed
    ones included, removals and invalidations from a storage without entries of the scope,
    reading a key of a domain either misses or returns exactly the envelope of the last
    write of that key that no later removal or invalidation undid. *)
Theorem cache_refines_forgetful_map ops s now d key :
  is_Some (keys (S := S)) -> attached s -> (forall d key, getItem (storageKey scope d key) s = None) ->
  let (s', m) := run ops (s, fun _ _ => None) in
  read scope now d key s' = miss \/ exists e, m d key = Some e /\ read scope now d key s' = result_of now e.
Proof.
  intros Hk Ha Hnone. destruct (backed_run ops s (fun _ _ => None) Hk Ha) as [_ Hb]; [intros d' key' raw; by rewrite Hnone|].
  destruct (run ops _) as [s' m]. cbn [fst snd] in Hb.
  destruct (getItem (storageKey scope d key) s') as [raw|] eqn:Hg; [|left; by apply read_none].
  destruct (Hb _ _ _ Hg) as (e & -> & Hv & _ & He). rewrite (read_some _ _ _ _ _ Hg Hv).
  case_decide as Hd; [|by left]. destruct Hd as [<- <-]. right. eauto.
Qed.
End cache.

(** ** Scopes *)

(** A scope part, or a key, that needs no repair. *)
Definition clean_part (value : string) : Prop := safeSegment value = value.

(** When two entries share a storage key. They do exactly when the domains are equal
    and the repaired parts of the scopes and the repaired keys are; so scopes and keys
    whose parts need no repair never share one unless they are equal. *)
Theorem storage_keys_separate scope scope' d d' key key' :
  (scopedStorageKey scope d key = scopedStorageKey scope' d' key'
   <-> scope_segments scope = scope_segments scope' /\ d = d' /\ safeSegment key = safeSegment key')
  /\ (sc_actor scope <> sc_actor scope' -> (exists a a', sc_actor scope = Some a /\ sc_actor scope' = Some a' /\ clean_part a /\ clean_part a') ->
      scopedStorageKey scope d key <> scopedStorageKey scope' d' key').
Proof.
  split; [apply storage_key_inj|]. intros Hne (a & a' & Ha & Ha' & Hc & Hc') Heq%storage_key_inj.
  destruct Heq as [Hs _]. unfold scope_segments in Hs. rewrite Ha, Ha' in Hs. cbn [default from_option] in Hs. unfold id in Hs.
  rewrite Hc, Hc' in Hs. congruence.
Qed.

(** ** Witnesses *)

(** Local storage without a quota, and envelopes of numbers written as binary digits. *)
Module StorageDemo.
Definition quota (_ _ : string) (_ : jsmap string) : bool := true.
#[local] Instance local_storage : PlatformStorageAdapter (option (jsmap string)) := createLocalStorageAdapter quota.
#[local] Instance storage_laws : StorageLaws (option (jsmap string)) := local_storage_laws quota.

#[local] Program Instance domain_countable : Countable ClientStorageDomainId :=
  inj_countable domain_id (fun s => head (filter (fun d => domain_id d = s) all_domains)) _.
Next Obligation. by intros []. Qed.

Definition scope_tuple (sc : ClientStorageScope) :=
  (sc_app sc, sc_station sc, sc_actor sc, sc_device sc, sc_session sc, sc_process sc).
#[local] Program Instance scope_countable : @Countable ClientStorageScope (ltac:(intros x y; solve_decision)) :=
  inj_countable' scope_tuple
    (fun t => match t with (a, b, c, d, e, f) =>
       {| sc_app := a; sc_station := b; sc_actor := c; sc_device := d; sc_session := e; sc_process := f |} end) _.
Next Obligation. by intros []. Qed.

Definition envelope_tuple (e : CacheEnvelope nat) :=
  (env_schemaVersion e, env_domain e, env_key e, env_scope e, env_value e, env_cachedAt e, env_expiresAt e, env_revision e,
   env_cursor e, env_stale e).
Definition tuple_envelope (t : Z * ClientStorageDomainId * string * ClientStorageScope * nat * Z * option Z * option string
                               * option string * option bool) : CacheEnvelope nat :=
  match t with (a, b, c, d, e, f, g, h, i, j) =>
    {| env_schemaVersion := a; env_domain := b; env_key := c; env_scope := d; env_value := e; env_cachedAt := f;
       env_expiresAt := g; env_revision := h; env_cursor := i; env_stale := j |} end.

Fixpoint digits (p : positive) : string :=
  match p with xH => "." | xO p => String "0" (digits p) | xI p => String "1" (digits p) end.
Fixpoint of_digits (s : string) : positive :=
  match s with String c s => if Ascii.eqb c "0" then xO (of_digits s) else if Ascii.eqb c "1" then xI (of_digits s) else xH | "" => xH end.

Lemma of_digits_digits p : of_digits (digits p) = p.
Proof. induction p as [p IH|p IH|]; cbn; [by rewrite IH..|done]. Qed.

#[local] Instance json : Json nat := {|
  stringify := fun e => digits (encode (envelope_tuple e));
  parse_json := fun s => (fun t => whole_envelope (tuple_envelope t)) <$> decode (of_digits s) |}.

#[local] Instance json_laws : JsonLaws nat.
Proof.
  split.
  - intros e. cbn. rewrite of_digits_digits, decode_encode. cbn. by destruct e.
  - intros e. cbn. unfold truthy. rewrite bool_decide_false; [done|]. by destruct (encode _).
Defined.

Definition scope_of (name : string) : ClientStorageScope :=
  {| sc_app := "mobile"; sc_station := None; sc_actor := Some name; sc_device := None; sc_session := None; sc_process := None |}.
Definition empty_storage : option (jsmap string) := Some ∅.

Lemma empty_attached : attached empty_storage.
Proof. exists ∅. split; [done | apply jm_wf_empty]. Defined.

Definition written (scope : ClientStorageScope) (d : ClientStorageDomainId) (key : string) (v : nat) (s : option (jsmap string)) :=
  match write scope 0 d key v no_options s with Ok (s', _) => s' | Err _ => s end.

Lemma read_after_write_witness :
  envelope (read (scope_of "ann") 1 chat_message "m" (written (scope_of "ann") chat_message "m" 7%nat empty_storage))
  = Some (new_envelope (scope_of "ann") 0 chat_message "m" 7%nat no_options).
Proof.
  destruct (read_after_write (scope_of "ann") 0 1 chat_message "m" 7%nat no_options empty_storage
              (written (scope_of "ann") chat_message "m" 7%nat empty_storage)
              (new_envelope (scope_of "ann") 0 chat_message "m" 7%nat no_options) empty_attached) as (Hr & _); [reflexivity|].
  by rewrite Hr.
Defined.

(** Dropping the messages drops their flags. *)
Lemma invalidation_reach_witness :
  let s := written (scope_of "ann") chat_message_flag "m" 7%nat empty_storage in
  hit (read (V := nat) (scope_of "ann") 0 chat_message_flag "m" s) = true
  /\ hit (read (V := nat) (scope_of "ann") 0 chat_message_flag "m" (invalidateDomain (scope_of "ann") chat_message s)) = false.
Proof.
  intros s. split; [vm_compute; reflexivity|].
  rewrite (proj1 (invalidation_reach (V := nat) (scope_of "ann") 0 chat_message chat_message_flag "m" s ltac:(eexists; reflexivity))).
  reflexivity.
Defined.

Lemma cache_refines_forgetful_map_witness :
  let ops := [op_write 0 chat_message "a b" 1%nat no_options; op_write 0 chat_message "a_b" 2%nat no_options] in
  (let (s', m) := run (scope_of "ann") ops (empty_storage, fun _ _ => None) in
   read (V := nat) (scope_of "ann") 0 chat_message "a b" s' = miss
   \/ exists e, m chat_message "a b" = Some e /\ read (scope_of "ann") 0 chat_message "a b" s' = result_of 0 e)
  /\ env_value <$> envelope (read (V := nat) (scope_of "ann") 0 chat_message "a_b" (run (scope_of "ann") ops (empty_storage, fun _ _ => None)).1) = Some 2%nat.
Proof.
  intros ops. split; [|vm_compute; reflexivity].
  exact (cache_refines_forgetful_map (scope_of "ann") ops empty_storage 0 chat_message "a b"
    ltac:(eexists; reflexivity) empty_attached ltac:(reflexivity)).
Defined.

Lemma storage_keys_separate_witness :
  scopedStorageKey (scope_of "ann") chat_message "m" <> scopedStorageKey (scope_of "bob") chat_message "m".
Proof.
  apply (proj2 (storage_keys_separate (scope_of "ann") (scope_of "bob") chat_message chat_message "m" "m")).
  - discriminate.
  - exists "ann"%string, "bob"%string. split_and!; reflexivity.
Defined.

(** Two actors whose names differ in repaired characters only read each other's entries. *)
Example scopes_collide :
  let s := written (scope_of "ann:1") chat_message "m" 7%nat empty_storage in
  sc_actor (scope_of "ann:1") <> sc_actor (scope_of "ann/1")
  /\ env_value <$> envelope (read (V := nat) (scope_of "ann/1") 0 chat_message "m" s) = Some 7%nat.
Proof. split; [discriminate | vm_compute; reflexivity]. Qed.
End StorageDemo.
