(* ===== verification/KeyedSort.v ===== *)
(** * Keyed maps and comparator sorts

    What the packages share of JavaScript's [Map] whose values carry their own key, of
    [Array.prototype.sort] with a comparator, and of the platform's locale. *)
From Stdlib Require Import Ascii Lia ZArith.
From stdpp Require Import base numbers strings list sets sorting.
From S2P Require Import Prelude.

(** ** [Map]s whose values carry their key, and [Array.prototype.sort] with a comparator *)
Section keyed.
Context {A K : Type} `{EqDecision K} (key : A -> K).

Fixpoint keyed_set (x : A) (l : list A) : list A :=
  match l with
  | [] => [x]
  | y :: l => if decide (key y = key x) then x :: l else y :: keyed_set x l
  end.

Fixpoint keyed_get (k : K) (l : list A) : option A :=
  match l with [] => None | y :: l => if decide (key y = k) then Some y else keyed_get k l end.
End keyed.

Section sort.
Context {A : Type} (compare : A -> A -> Z).

Fixpoint insert_sorted (x : A) (l : list A) : list A :=
  match l with
  | [] => [x]
  | y :: l' => if compare x y <=? 0 then x :: l else y :: insert_sorted x l'
  end.

Definition sort_with (l : list A) : list A := foldr insert_sorted [] l.
End sort.

(** ** The locale *)

(** [Date.parse] without a value for [NaN]. *)
Class Locale := {
  Date_parse : string -> option Z;
  localeCompare : string -> string -> Z
}.

Class LocaleLaws `{Locale} : Prop := {
  locale_total a b : localeCompare a b <= 0 \/ localeCompare b a <= 0;
  locale_trans a b c : localeCompare a b <= 0 -> localeCompare b c <= 0 -> localeCompare a c <= 0
}.

(** ** Lemmas: keyed maps and sorting *)
Section keyed_facts.
Context {A K : Type} `{EqDecision K} (key : A -> K).

Lemma keyed_set_keys x l : key <$> keyed_set key x l = if decide (key x ∈ key <$> l) then key <$> l else (key <$> l) ++ [key x].
Proof.
  induction l as [|y l IH]; [done|]. cbn [keyed_set]. rewrite fmap_cons. destruct (decide (key y = key x)) as [Hy|Hy].
  - rewrite decide_True by (rewrite Hy; left). by rewrite fmap_cons, Hy.
  - rewrite fmap_cons, IH. case_decide as Hin; case_decide as Hc; try done.
    + destruct Hc. by right.
    + apply elem_of_cons in Hc as [?|?]; congruence.
Qed.

Lemma keyed_set_NoDup x l : NoDup (key <$> l) -> NoDup (key <$> keyed_set key x l).
Proof.
  intros Hn. rewrite keyed_set_keys. case_decide; [done|]. apply NoDup_app. split; [done|].
  split; [set_solver | apply NoDup_singleton].
Qed.

Lemma keyed_set_elem x l m : NoDup (key <$> l) -> m ∈ keyed_set key x l <-> m = x \/ (m ∈ l /\ key m <> key x).
Proof.
  induction l as [|y l IH]; intros Hn; [set_solver|]. rewrite fmap_cons in Hn. apply NoDup_cons in Hn as [Hy Hn].
  cbn [keyed_set]. case_decide as Hk; rewrite !elem_of_cons.
  - split; [|naive_solver]. intros [->|Hin]; [by left|]. right. split; [by right|]. intros Heq. destruct Hy. rewrite Hk, <- Heq.
    by apply (list_elem_of_fmap_2 key).
  - rewrite IH by done. naive_solver.
Qed.

Lemma keyed_get_spec k l m : NoDup (key <$> l) -> keyed_get key k l = Some m <-> m ∈ l /\ key m = k.
Proof.
  induction l as [|y l IH]; intros Hn; [set_solver|]. rewrite fmap_cons in Hn. apply NoDup_cons in Hn as [Hy Hn].
  cbn [keyed_get]. rewrite elem_of_cons. case_decide as Hk.
  - split; [naive_solver|]. intros [[->|Hin] Hm]; [done|]. destruct Hy. rewrite Hk, <- Hm. by apply (list_elem_of_fmap_2 key).
  - rewrite IH by done. naive_solver.
Qed.

Lemma keyed_get_none k l : keyed_get key k l = None <-> k ∉ key <$> l.
Proof.
  induction l as [|y l IH]; [set_solver|]. cbn [keyed_get]. rewrite fmap_cons, not_elem_of_cons. case_decide as Hk; [naive_solver|].
  rewrite IH. naive_solver.
Qed.

(** Values of distinct keys are kept as they are. *)
Lemma keyed_set_new l : NoDup (key <$> l) -> fold_left (fun m x => keyed_set key x m) l [] = l.
Proof.
  enough (Hg : forall acc, NoDup (key <$> (acc ++ l)) -> fold_left (fun m x => keyed_set key x m) l acc = acc ++ l)
    by (intros; by apply (Hg [])).
  induction l as [|x l IH]; intros acc Hn; cbn [fold_left]; [by rewrite app_nil_r|].
  assert (Hs : keyed_set key x acc = acc ++ [x]).
  { assert (Hni : key x ∉ key <$> acc) by (rewrite fmap_app, fmap_cons in Hn; apply NoDup_app in Hn; set_solver).
    clear IH Hn. induction acc as [|y acc IH]; [done|]. rewrite fmap_cons in Hni. apply not_elem_of_cons in Hni as [Hy Hni].
    cbn [keyed_set]. rewrite decide_False by congruence. by rewrite IH. }
  rewrite Hs, IH; rewrite <- (assoc_L (++)); done.
Qed.

(** Setting the value a key already has changes nothing. *)
Lemma keyed_set_same x l : NoDup (key <$> l) -> x ∈ l -> keyed_set key x l = l.
Proof.
  induction l as [|y l IH]; intros Hn Hx; [by apply elem_of_nil in Hx|]. rewrite fmap_cons in Hn. apply NoDup_cons in Hn as [Hy Hn].
  cbn [keyed_set]. apply elem_of_cons in Hx as [->|Hx]; [by rewrite decide_True|].
  rewrite decide_False; [by rewrite IH|]. intros Hk. destruct Hy. rewrite Hk. by apply (list_elem_of_fmap_2 key).
Qed.
End keyed_facts.

Section sort_facts.
Context {A : Type} (compare : A -> A -> Z).
Definition cmp_le (x y : A) : Prop := compare x y <= 0.
Context (Htotal : forall x y, cmp_le x y \/ cmp_le y x) (Htrans : forall x y z, cmp_le x y -> cmp_le y z -> cmp_le x z).

Lemma insert_perm x l : insert_sorted compare x l ≡ₚ x :: l.
Proof. induction l as [|y l IH]; cbn; [done|]. destruct (_ <=? _); [done|]. rewrite IH. apply Permutation_swap. Qed.

Lemma sort_with_perm l : sort_with compare l ≡ₚ l.
Proof. induction l as [|x l IH]; cbn; [done|]. by rewrite insert_perm, IH. Qed.

Lemma sort_with_elem l x : x ∈ sort_with compare l <-> x ∈ l.
Proof. by rewrite sort_with_perm. Qed.

Lemma insert_strongly x l : StronglySorted cmp_le l -> StronglySorted cmp_le (insert_sorted compare x l).
Proof using Htotal Htrans.
  induction 1 as [|y l Hs IH Hall]; cbn; [repeat constructor|]. destruct (Z.leb_spec (compare x y) 0) as [Hle|Hgt].
  - constructor; [by constructor|]. constructor; [done|]. eapply Forall_impl; [exact Hall|]. intros z Hz. by eapply Htrans.
  - constructor; [done|]. rewrite insert_perm. constructor; [|done]. destruct (Htotal y x) as [|Hxy]; [done|]. unfold cmp_le in Hxy. lia.
Qed.

Lemma sort_with_sorted l : StronglySorted cmp_le (sort_with compare l).
Proof using Htotal Htrans. induction l; cbn; [constructor | by apply insert_strongly]. Qed.

(** A sorted list is not touched. *)
Lemma sort_with_id l : StronglySorted cmp_le l -> sort_with compare l = l.
Proof.
  induction 1 as [|x l Hs IH Hall]; [done|]. cbn. unfold sort_with in IH. rewrite IH.
  destruct Hall as [|y l Hxy Hall]; [done|]. cbn. unfold cmp_le in Hxy. by rewrite (proj2 (Z.leb_le _ _)).
Qed.
End sort_facts.
