(* ===== verification/AgentChatCache.v ===== *)
(** * The agent chat cache

    Models [packages/client-chat-core/src/agentChatCache.ts]: the replica of agent
    conversations, messages, turn events and cursors over the repositories of the client
    storage, merged by id, and the queue that serialises the operations of a conversation.
    Repositories are an interface that the client storage implements; the station's answers,
    [Date.parse] and [localeCompare] are parameters. *)
From Stdlib Require Import Ascii Lia ZArith.
From stdpp Require Import base numbers countable relations strings list sets sorting.
From S2P Require Import Prelude KeyedSort TextCodec ClientStorage.

(** ** Messages *)
Inductive AgentRole : Set := system | user | assistant | tool.

Record CachedAgentAttachment : Set := {
  at_attachmentId : string; at_objectRef : string; at_mimeType : string; at_sizeBytes : Z; at_checksum : string;
  at_filename : string; at_authorizationScope : string; at_expiresAt : string; at_extractedContentRef : string
}.

Inductive ReconciliationSource : Set := station_list | station_snapshot.

#[export] Instance source_eq_dec : EqDecision ReconciliationSource.
Proof. solve_decision. Defined.

(** An optional field without a value is absent from the object. *)
Record CachedAgentMessage : Set := {
  messageId : string;
  conversationId : string;
  turnId : option string;
  modelName : option string;
  role : AgentRole;
  status : option string;
  content : string;
  seq_ : Z;
  branchId : option string;
  replacesMessageId : option string;
  reasoningJson : option string;
  toolCallsJson : option string;
  metadataJson : option string;
  errorJson : option string;
  attachments : option (list CachedAgentAttachment);
  reconciliationSource : option ReconciliationSource;
  createdAt : string;
  updatedAt : string
}.

(** The payload of an event is a reference. *)
Record CachedAgentTurnEvent : Set := {
  eventSeq : Z; ev_conversationId : string; ev_turnId : string; eventType : string; payload : nat; ev_createdAt : string
}.

Record CachedAgentConversation : Set := {
  cv_conversationId : string; cv_agentId : string; cv_ptid : string; cv_title : string; cv_description : option string;
  cv_providerId : option string; cv_modelName : option string; cv_status : string; cv_parentId : option string;
  cv_activeBranchMessageId : string; cv_queuedTurnCount : Z; cv_version : Z; cv_createdAt : string; cv_updatedAt : string
}.

Record StationMessagesResult : Set := {
  page_messages : list CachedAgentMessage;
  page_turnEvents : option (list CachedAgentTurnEvent);
  page_nextCursor : option Z;
  page_hasMore : option bool
}.

(** ** Merging *)

Section merge.
Context `{Locale}.

Definition compareMessageBySeq (a b : CachedAgentMessage) : Z :=
  if negb (seq_ a =? seq_ b) then seq_ a - seq_ b else localeCompare (messageId a) (messageId b).

Definition authority (m : CachedAgentMessage) : Z := if decide (reconciliationSource m = Some station_snapshot) then 1 else 0.

Definition incomingIsNewer (current incoming : CachedAgentMessage) : bool :=
  (seq_ current <? seq_ incoming)
  || ((seq_ incoming =? seq_ current)
      && ((authority current <? authority incoming)
          || ((authority incoming =? authority current)
              && match Date_parse (updatedAt current), Date_parse (updatedAt incoming) with
                 | Some c, Some i => c <=? i
                 | _, _ => true
                 end))).

(** The first value of two optional ones: an absent member of the spread, or [??]. *)
Definition over {A} (first second : option A) : option A := match first with Some _ => first | None => second end.

(** [{ ...fallback, ...authoritative, ... }] *)
Definition spread (fallback authoritative : CachedAgentMessage) : CachedAgentMessage := {|
  messageId := messageId authoritative;
  conversationId := conversationId authoritative;
  turnId := over (turnId authoritative) (turnId fallback);
  modelName := over (modelName authoritative) (modelName fallback);
  role := role authoritative;
  status := over (status authoritative) (status fallback);
  content := content authoritative;
  seq_ := seq_ authoritative;
  branchId := over (branchId authoritative) (branchId fallback);
  replacesMessageId := over (replacesMessageId authoritative) (replacesMessageId fallback);
  reasoningJson := over (reasoningJson authoritative) (reasoningJson fallback);
  toolCallsJson := over (toolCallsJson authoritative) (toolCallsJson fallback);
  metadataJson := over (metadataJson authoritative) (metadataJson fallback);
  errorJson := over (errorJson authoritative) (errorJson fallback);
  attachments := over (attachments authoritative) (attachments fallback);
  reconciliationSource := over (reconciliationSource authoritative) (reconciliationSource fallback);
  createdAt := createdAt authoritative;
  updatedAt := updatedAt authoritative
|}.

Definition reconcileMessage (current incoming : CachedAgentMessage) : CachedAgentMessage :=
  if incomingIsNewer current incoming then spread current incoming else spread incoming current.

Definition merge_message (byId : list CachedAgentMessage) (message : CachedAgentMessage) : list CachedAgentMessage :=
  keyed_set messageId
    (match keyed_get messageId (messageId message) byId with
     | Some current => reconcileMessage current message
     | None => message
     end) byId.

Definition mergeAgentMessages (incoming existing : list CachedAgentMessage) : list CachedAgentMessage :=
  let byId := fold_left (fun m x => keyed_set messageId x m) existing [] in
  sort_with compareMessageBySeq (fold_left merge_message incoming byId).

Definition mergeTurnEvents (incoming existing : list CachedAgentTurnEvent) : list CachedAgentTurnEvent :=
  let bySeq := fold_left (fun m x => keyed_set eventSeq x m) (existing ++ incoming) [] in
  sort_with (fun a b => eventSeq a - eventSeq b) bySeq.

Definition compareConversationByUpdatedAt (a b : CachedAgentConversation) : Z :=
  match Date_parse (cv_updatedAt b), Date_parse (cv_updatedAt a) with
  | Some tb, Some ta => if negb (tb - ta =? 0) then tb - ta else localeCompare (cv_conversationId a) (cv_conversationId b)
  | _, _ => localeCompare (cv_conversationId a) (cv_conversationId b)
  end.
End merge.

(** ** Repositories *)

(** A [DomainCacheRepository] over a storage state. *)
Class Repository (S V : Type) := {
  readValue : string -> S -> option V;
  repo_write : string -> V -> S -> result S;
  repo_remove : string -> S -> S
}.

(** It reads back what was written; other keys keep their value or lose it. *)
Class RepositoryLaws (S V : Type) `{Repository S V} := {
  usable : S -> Prop;
  usable_write k v s s' : usable s -> repo_write k v s = Ok s' -> usable s';
  usable_remove k s : usable s -> usable (repo_remove k s);
  read_written k v s s' : usable s -> repo_write k v s = Ok s' -> readValue k s' = Some v;
  read_other k k' v s s' : usable s -> repo_write k v s = Ok s' -> k' <> k -> readValue k' s' = readValue k' s \/ readValue k' s' = None;
  read_removed k s : usable s -> readValue k (repo_remove k s) = None;
  read_other_removed k k' s : usable s -> k' <> k -> readValue k' (repo_remove k s) = readValue k' s \/ readValue k' (repo_remove k s) = None
}.

(** The client storage implements the interface, in every domain of every scope. *)
Section storage_repository.
Context {S V : Type} `{StorageLaws S} `{JsonLaws V} (scope : ClientStorageScope) (d : ClientStorageDomainId) (now : Z).

Definition createDomainRepository : Repository S V := {|
  readValue := fun k s => ClientStorage.readValue scope now d k s;
  repo_write := fun k v s => '(s, _) ← write scope now d k v no_options s; Ok s;
  repo_remove := fun k s => remove scope d k s
|}.
#[local] Existing Instance createDomainRepository.

Lemma storage_write k v s s' :
  attached s -> repo_write k v s = Ok s' ->
  attached s' /\ forall k', getItem k' s' = if decide (storageKey scope d k = k') then Some (stringify (new_envelope scope now d k v no_options)) else getItem k' s.
Proof.
  intros Ha Hw. apply bind_ok in Hw as ([s1 e] & Hw & Hs). injection Hs as <-.
  destruct (write_ok scope now d k v no_options s s1 e Ha Hw) as (-> & Ha' & Hg). done.
Qed.

Lemma same_or_none k' s s' :
  getItem (storageKey scope d k') s' = getItem (storageKey scope d k') s -> readValue k' s' = readValue k' s.
Proof. intros Hg. cbn. unfold ClientStorage.readValue. by rewrite (read_ext scope now d k' s s' Hg). Qed.

#[local] Program Instance storage_repository_laws : RepositoryLaws S V := {| usable := attached |}.
Next Obligation. intros k v s s' Ha Hw. by destruct (storage_write k v s s' Ha Hw). Qed.
Next Obligation. intros k s Ha. by apply attached_remove. Qed.
Next Obligation.
  intros k v s s' Ha Hw. destruct (storage_write k v s s' Ha Hw) as [_ Hg]. cbn. unfold ClientStorage.readValue.
  specialize (Hg (storageKey scope d k)). rewrite decide_True in Hg by done.
  rewrite (read_some scope now d k s' _ Hg) by done. by rewrite decide_True.
Qed.
Next Obligation.
  intros k k' v s s' Ha Hw Hne. destruct (storage_write k v s s' Ha Hw) as [_ Hg]. specialize (Hg (storageKey scope d k')).
  case_decide as Hk; [|left; by apply same_or_none]. right. cbn. unfold ClientStorage.readValue.
  rewrite (read_some scope now d k' s' _ Hg) by done. rewrite decide_False; [done|]. cbn. intros [_ ->]. done.
Qed.
Next Obligation.
  intros k s _. cbn. unfold ClientStorage.readValue, remove. rewrite read_none; [done|]. rewrite get_remove. by rewrite decide_True.
Qed.
Next Obligation.
  intros k k' s _ Hne. pose proof (get_remove (storageKey scope d k) (storageKey scope d k') s) as Hg. case_decide as Hk.
  - right. cbn. unfold ClientStorage.readValue. by rewrite read_none.
  - left. by apply same_or_none.
Qed.
End storage_repository.

(** ** The cache *)
Section cache.
Context `{Locale} {SM SE SC SV : Type}.
Context `{Repository SM (jsmap (list CachedAgentMessage))} `{Repository SE (jsmap (list CachedAgentTurnEvent))}
  `{Repository SC Z} `{Repository SV (jsmap CachedAgentConversation)}.

(** The four repositories; they belong to different domains. *)
Record Cache : Type := { messageRepo : SM; turnEventRepo : SE; cursorRepo : SC; conversationRepo : SV }.

Definition set_messages (s : SM) (c : Cache) : Cache :=
  {| messageRepo := s; turnEventRepo := turnEventRepo c; cursorRepo := cursorRepo c; conversationRepo := conversationRepo c |}.
Definition set_turn_events (s : SE) (c : Cache) : Cache :=
  {| messageRepo := messageRepo c; turnEventRepo := s; cursorRepo := cursorRepo c; conversationRepo := conversationRepo c |}.
Definition set_cursors (s : SC) (c : Cache) : Cache :=
  {| messageRepo := messageRepo c; turnEventRepo := turnEventRepo c; cursorRepo := s; conversationRepo := conversationRepo c |}.
Definition set_conversations (s : SV) (c : Cache) : Cache :=
  {| messageRepo := messageRepo c; turnEventRepo := turnEventRepo c; cursorRepo := cursorRepo c; conversationRepo := s |}.

(** An operation may fail after it changed the cache. *)
Definition Op (A : Type) : Type := Cache -> Cache * result A.

#[local] Instance op_bind : MBind Op := fun A B k m c => match m c with (c, Ok a) => k a c | (c, Err e) => (c, Err e) end.
#[local] Instance op_ret : MRet Op := fun A a c => (c, Ok a).

(** The station's answer to the [n]-th request of an operation. *)
Definition Fetcher : Type := nat -> string -> Z -> result StationMessagesResult.

Definition lift {A} (r : result A) : Op A := fun c => (c, r).

Definition stored_messages (conv : string) (c : Cache) : jsmap (list CachedAgentMessage) := default ∅ (readValue conv (messageRepo c)).

(** The messages of a conversation in the cache. *)
Definition cached (conv : string) (c : Cache) : list CachedAgentMessage := default [] (stored_messages conv c !! conv).

Definition readMessages (conv : string) : Op (list CachedAgentMessage) := fun c => (c, Ok (cached conv c)).

Definition put_messages (conv : string) (messages : list CachedAgentMessage) : Op unit := fun c =>
  match repo_write conv (<[conv := messages]> (stored_messages conv c)) (messageRepo c) with
  | Ok s => (set_messages s c, Ok tt)
  | Err e => (c, Err e)
  end.

Definition writeMessages (conv : string) (messages : list CachedAgentMessage) : Op unit := fun c =>
  put_messages conv (mergeAgentMessages messages (cached conv c)) c.

Definition replaceMessages (conv : string) (messages : list CachedAgentMessage) : Op unit := fun c =>
  let retainedSnapshots := filter (fun m => messageId m ∈ messageId <$> messages) (cached conv c) in
  put_messages conv (mergeAgentMessages messages retainedSnapshots) c.

Definition stored_events (conv : string) (c : Cache) : jsmap (list CachedAgentTurnEvent) := default ∅ (readValue conv (turnEventRepo c)).
Definition cached_events (conv : string) (c : Cache) : list CachedAgentTurnEvent := default [] (stored_events conv c !! conv).

Definition readTurnEvents (conv : string) : Op (list CachedAgentTurnEvent) := fun c => (c, Ok (cached_events conv c)).

Definition writeTurnEvents (conv : string) (events : list CachedAgentTurnEvent) : Op unit := fun c =>
  match repo_write conv (<[conv := mergeTurnEvents events (cached_events conv c)]> (stored_events conv c)) (turnEventRepo c) with
  | Ok s => (set_turn_events s c, Ok tt)
  | Err e => (c, Err e)
  end.

Definition cursor (conv : string) (c : Cache) : Z := default 0 (readValue conv (cursorRepo c)).

Definition readCursor (conv : string) : Op Z := fun c => (c, Ok (cursor conv c)).

Definition writeCursor (conv : string) (value : Z) : Op unit := fun c =>
  match repo_write conv value (cursorRepo c) with
  | Ok s => (set_cursors s c, Ok tt)
  | Err e => (c, Err e)
  end.

Definition highest_seq (from : Z) (messages : list CachedAgentMessage) : Z := fold_left (fun h m => Z.max h (seq_ m)) messages from.

Definition syncConversation (fetch : Fetcher) (conv : string) : Op (list CachedAgentMessage) :=
  since ← readCursor conv;
  result ← lift (fetch 0%nat conv since);
  _ ← (if decide (page_messages result = []) then mret tt
       else _ ← writeMessages conv (page_messages result);
            writeCursor conv (highest_seq since (page_messages result)));
  _ ← (match page_turnEvents result with
       | Some (e :: events) => writeTurnEvents conv (e :: events)
       | _ => mret tt
       end);
  readMessages conv.

Definition isSafeInteger (z : Z) : bool := Z.abs z <=? 2 ^ 53 - 1.

(** The [while (true)] of [refreshConversation], without a value when the fuel runs out. *)
Fixpoint fetch_pages (fuel : nat) (fetch : Fetcher) (n : nat) (conv : string) (afterSeq : Z)
    (messages : list CachedAgentMessage) (turnEvents : list CachedAgentTurnEvent)
    : option (result (list CachedAgentMessage * list CachedAgentTurnEvent)) :=
  match fuel with
  | O => None
  | S fuel =>
      match fetch n conv afterSeq with
      | Err e => Some (Err e)
      | Ok page =>
          let messages := messages ++ page_messages page in
          let turnEvents := turnEvents ++ default [] (page_turnEvents page) in
          if negb (default false (page_hasMore page)) then Some (Ok (messages, turnEvents))
          else
            let nextCursor := default (highest_seq afterSeq (page_messages page)) (page_nextCursor page) in
            if negb (isSafeInteger nextCursor) || (nextCursor <=? afterSeq)
            then Some (Err "clientChatCache.error.invalidPaginationCursor")
            else fetch_pages fuel fetch (S n) conv nextCursor messages turnEvents
      end
  end.

Definition commit_refresh (conv : string) (fetched : list CachedAgentMessage * list CachedAgentTurnEvent) : Op (list CachedAgentMessage) :=
  let (messages, turnEvents) := fetched in
  _ ← replaceMessages conv messages;
  _ ← writeCursor conv (highest_seq 0 messages);
  _ ← (if decide (turnEvents = []) then mret tt else writeTurnEvents conv turnEvents);
  readMessages conv.

Definition refreshConversation (fuel : nat) (fetch : Fetcher) (conv : string) (c : Cache) : option (Cache * result (list CachedAgentMessage)) :=
  (fun fetched => (fetched ← lift fetched; commit_refresh conv fetched) c) <$> fetch_pages fuel fetch 0 conv 0 [] [].

Definition upsertMessage (message : CachedAgentMessage) : Op unit :=
  let conv := conversationId message in
  _ ← writeMessages conv [message];
  since ← readCursor conv;
  if since <? seq_ message then writeCursor conv (seq_ message) else mret tt.

Definition clearConversation (conv : string) : Op unit := fun c =>
  ({| messageRepo := repo_remove conv (messageRepo c); turnEventRepo := repo_remove conv (turnEventRepo c);
      cursorRepo := repo_remove conv (cursorRepo c); conversationRepo := conversationRepo c |}, Ok tt).

(** What the caller gets at once; the reconciliation it starts is a [syncConversation] of
    its own in the queue. *)
Definition getMessages (conv : string) : Op (list CachedAgentMessage) := readMessages conv.
Definition getTurnEvents (conv : string) : Op (list CachedAgentTurnEvent) := readTurnEvents conv.

Definition readConversationBundle (agentId : string) (c : Cache) : jsmap CachedAgentConversation :=
  default ∅ (readValue agentId (conversationRepo c)).

(** The [try] covers the request and the write. *)
Definition listConversations (answer : result (list CachedAgentConversation)) (agentId : string) : Op (list CachedAgentConversation) := fun c =>
  let cached_ := readConversationBundle agentId c in
  let sorted m := sort_with compareConversationByUpdatedAt (jm_values m) in
  match answer with
  | Err _ => (c, Ok (sorted cached_))
  | Ok conversations =>
      let next := fold_left (fun m v => <[cv_conversationId v := v]> m) conversations ∅ in
      match repo_write agentId next (conversationRepo c) with
      | Ok s => (set_conversations s c, Ok (sorted next))
      | Err _ => (c, Ok (sorted cached_))
      end
  end.
End cache.

(** ** Merging is right *)
Section merge_facts.
Context `{Locale}.

Definition ids (l : list CachedAgentMessage) : list string := messageId <$> l.

Lemma compare_total `{!LocaleLaws} x y : cmp_le compareMessageBySeq x y \/ cmp_le compareMessageBySeq y x.
Proof.
  unfold cmp_le, compareMessageBySeq. destruct (Z.eqb_spec (seq_ x) (seq_ y)), (Z.eqb_spec (seq_ y) (seq_ x)); cbn [negb]; try lia.
  apply locale_total.
Qed.

Lemma compare_trans `{!LocaleLaws} x y z :
  cmp_le compareMessageBySeq x y -> cmp_le compareMessageBySeq y z -> cmp_le compareMessageBySeq x z.
Proof.
  unfold cmp_le, compareMessageBySeq.
  destruct (Z.eqb_spec (seq_ x) (seq_ y)), (Z.eqb_spec (seq_ y) (seq_ z)), (Z.eqb_spec (seq_ x) (seq_ z)); cbn [negb]; try lia.
  apply locale_trans.
Qed.

(** One message is at least as recent a version of the other. *)
Definition at_least (x m : CachedAgentMessage) : Prop := messageId m = messageId x /\ seq_ x <= seq_ m.
Definition version_of (x m : CachedAgentMessage) : Prop := messageId m = messageId x /\ seq_ m = seq_ x /\ content m = content x.

Lemma reconcile_spec c i :
  messageId c = messageId i ->
  at_least c (reconcileMessage c i) /\ at_least i (reconcileMessage c i)
  /\ (version_of c (reconcileMessage c i) \/ version_of i (reconcileMessage c i)).
Proof.
  intros Hid. unfold reconcileMessage, at_least, version_of.
  destruct (incomingIsNewer c i) eqn:Hn; unfold incomingIsNewer in Hn; cbn [spread messageId seq_ content].
  - assert (seq_ c <= seq_ i). { destruct (Z.ltb_spec (seq_ c) (seq_ i)); [lia|]. destruct (Z.eqb_spec (seq_ i) (seq_ c)); [lia | done]. }
    split_and!; auto; lia.
  - destruct (Z.ltb_spec (seq_ c) (seq_ i)); [done|]. split_and!; auto; lia.
Qed.

(** Reconciling the same message again changes nothing. *)
Lemma over_idem {A} (a b : option A) : over (over a b) b = over a b.
Proof. by destruct a, b. Qed.
Lemma over_idem_l {A} (a b : option A) : over (over a b) a = over a b.
Proof. by destruct a, b. Qed.
Lemma over_absorb {A} (a b : option A) : over a (over a b) = over a b.
Proof. by destruct a, b. Qed.

Lemma reconcile_idem c i : messageId c = messageId i -> reconcileMessage (reconcileMessage c i) i = reconcileMessage c i.
Proof.
  intros Hid. unfold reconcileMessage at 2 3. destruct (incomingIsNewer c i) eqn:Hn.
  - unfold reconcileMessage. destruct (incomingIsNewer (spread c i) i) eqn:Hn2; unfold spread; cbn; by rewrite ?over_idem, ?over_idem_l, ?over_absorb.
  - assert (Hn2 : incomingIsNewer (spread i c) i = false).
    { unfold incomingIsNewer in *. cbn [spread seq_ updatedAt]. destruct (seq_ c <? seq_ i); [done|]. cbn [orb] in *.
      destruct (seq_ i =? seq_ c); [|done]. cbn [andb] in *. unfold authority in *. cbn [spread reconciliationSource].
      destruct (reconciliationSource c) as [[]|], (reconciliationSource i) as [[]|]; cbn in *; done. }
    unfold reconcileMessage. rewrite Hn2. unfold spread; cbn; by rewrite ?over_idem, ?over_idem_l, ?over_absorb.
Qed.

Lemma merge_message_ids l x : NoDup (ids l) -> NoDup (ids (merge_message l x)) /\ forall i, i ∈ ids (merge_message l x) <-> i ∈ ids l \/ i = messageId x.
Proof.
  intros Hn. unfold merge_message. destruct (keyed_get messageId (messageId x) l) as [c|] eqn:Hg.
  - apply keyed_get_spec in Hg as [Hc Hid]; [|done]. split; [by apply keyed_set_NoDup|]. intros i. unfold ids. rewrite keyed_set_keys.
    destruct (reconcile_spec c x Hid) as (_ & [Hx _] & _). rewrite Hx.
    rewrite decide_True by (rewrite <- Hid; by apply (list_elem_of_fmap_2 messageId)).
    split; [by left|]. intros [?| ->]; [done|]. rewrite <- Hid. by apply (list_elem_of_fmap_2 messageId).
  - split; [by apply keyed_set_NoDup|]. intros i. unfold ids. rewrite keyed_set_keys. apply keyed_get_none in Hg.
    rewrite decide_False by done. rewrite elem_of_app, list_elem_of_singleton. done.
Qed.

Lemma merge_message_versions l x :
  NoDup (ids l) ->
  (forall y, y ∈ l \/ y = x -> exists m, m ∈ merge_message l x /\ at_least y m)
  /\ forall m, m ∈ merge_message l x -> exists y, (y ∈ l \/ y = x) /\ version_of y m.
Proof.
  intros Hn. unfold merge_message. destruct (keyed_get messageId (messageId x) l) as [c|] eqn:Hg.
  - apply keyed_get_spec in Hg as [Hc Hid]; [|done]. destruct (reconcile_spec c x Hid) as (H1 & H2 & H3). split.
    + intros y Hy. destruct (decide (messageId y = messageId x)) as [Heq|Hne].
      * exists (reconcileMessage c x). split; [apply keyed_set_elem; [done | by left]|].
        destruct Hy as [Hy| ->]; [|done]. assert (y = c) as -> by (eapply (NoDup_fmap_inj messageId); [exact Hn|done..|congruence]). done.
      * destruct Hy as [Hy| ->]; [|done]. exists y. split; [|split; [done|lia]]. apply keyed_set_elem; [done|]. right.
        split; [done|]. destruct H2 as [-> _]. done.
    + intros m Hm. rewrite keyed_set_elem in Hm by done. destruct Hm as [->|[Hm _]].
      * destruct H3; [exists c | exists x]; auto.
      * exists m. split; [by left | done].
  - apply keyed_get_none in Hg. split.
    + intros y [Hy| ->]; [|exists x; split; [apply keyed_set_elem; [done | by left] | split; [done|lia]]].
      exists y. split; [|split; [done|lia]]. apply keyed_set_elem; [done|]. right. split; [done|]. intros Heq. apply Hg. rewrite <- Heq.
      by apply (list_elem_of_fmap_2 messageId).
    + intros m Hm. rewrite keyed_set_elem in Hm by done. destruct Hm as [->|[Hm _]]; [exists x | exists m]; (split; [auto|done]).
Qed.

Lemma at_least_trans x y z : at_least x y -> at_least y z -> at_least x z.
Proof. unfold at_least. intros [-> ?] [-> ?]. split; [done|lia]. Qed.
Lemma version_of_trans x y z : version_of x y -> version_of y z -> version_of x z.
Proof. unfold version_of. intros (-> & -> & ->) (-> & -> & ->). done. Qed.

Lemma merge_fold incoming l :
  NoDup (ids l) ->
  let r := fold_left merge_message incoming l in
  NoDup (ids r) /\ (forall i, i ∈ ids r <-> i ∈ ids l \/ i ∈ ids incoming)
  /\ (forall y, y ∈ l \/ y ∈ incoming -> exists m, m ∈ r /\ at_least y m)
  /\ forall m, m ∈ r -> exists y, (y ∈ l \/ y ∈ incoming) /\ version_of y m.
Proof.
  cbv zeta. revert l. induction incoming as [|x incoming IH]; intros l Hn; cbn [fold_left].
  - split; [done|]. split; [unfold ids; set_solver|]. split.
    + intros y [Hy|Hy]; [|by apply elem_of_nil in Hy]. exists y. split; [done|]. split; [done|lia].
    + intros m Hm. exists m. split; [by left | done].
  - destruct (merge_message_ids l x Hn) as [Hn1 Hi1]. destruct (merge_message_versions l x Hn) as [Ha1 Hv1].
    destruct (IH _ Hn1) as (Hn2 & Hi2 & Ha2 & Hv2). split; [done|]. split; [|split].
    + intros i. rewrite Hi2, Hi1. unfold ids. rewrite fmap_cons, elem_of_cons. tauto.
    + intros y Hy. assert (Hc : (y ∈ l \/ y = x) \/ y ∈ incoming) by (destruct Hy as [?|[?|?]%elem_of_cons]; auto).
      destruct Hc as [Hc|Hc]; [|by apply Ha2; right]. destruct (Ha1 y Hc) as (m & Hm & Hym).
      destruct (Ha2 m (or_introl Hm)) as (m2 & Hm2 & Hmm). exists m2. split; [done|]. by eapply at_least_trans.
    + intros m Hm. destruct (Hv2 m Hm) as (y & [Hy|Hy] & Hym); [|exists y; split; [right; by right | done]].
      destruct (Hv1 y Hy) as (z & Hz & Hzy). exists z. split; [|by eapply version_of_trans].
      destruct Hz as [?| ->]; [by left|]. right. left.
Qed.

Lemma over_same {A} (a : option A) : over a a = a.
Proof. by destruct a. Qed.

Lemma reconcile_self x : reconcileMessage x x = x.
Proof. unfold reconcileMessage. assert (Hs : spread x x = x) by (destruct x; unfold spread; cbn; by rewrite !over_same). rewrite Hs. by destruct (incomingIsNewer x x). Qed.

(** The entry of a merged message absorbs it. *)
Definition settled (l : list CachedAgentMessage) (x : CachedAgentMessage) : Prop :=
  exists m, m ∈ l /\ messageId m = messageId x /\ reconcileMessage m x = m.

Lemma settled_merged l x : NoDup (ids l) -> settled (merge_message l x) x.
Proof.
  intros Hn. unfold merge_message, settled. destruct (keyed_get messageId (messageId x) l) as [c|] eqn:Hg.
  - apply keyed_get_spec in Hg as [Hc Hid]; [|done]. exists (reconcileMessage c x). destruct (reconcile_spec c x Hid) as (_ & [Hx _] & _).
    split_and!; [apply keyed_set_elem; [done | by left] | done | by apply reconcile_idem].
  - exists x. split_and!; [apply keyed_set_elem; [done | by left] | done | apply reconcile_self].
Qed.

Lemma settled_kept l x y : NoDup (ids l) -> messageId y <> messageId x -> settled l x -> settled (merge_message l y) x.
Proof.
  intros Hn Hne (m & Hm & Hid & Hr). exists m. split; [|done]. unfold merge_message. apply keyed_set_elem; [done|]. right. split; [done|].
  destruct (keyed_get messageId (messageId y) l) as [c|] eqn:Hg; [|congruence]. apply keyed_get_spec in Hg as [Hc Hcy]; [|done].
  destruct (reconcile_spec c y Hcy) as (_ & [-> _] & _). congruence.
Qed.

Lemma settled_fold incoming l x :
  NoDup (ids l) -> x ∉ incoming -> (forall y, y ∈ incoming -> messageId y <> messageId x) -> settled l x -> settled (fold_left merge_message incoming l) x.
Proof.
  revert l. induction incoming as [|y incoming IH]; intros l Hn Hx Hd Hs; [done|]. cbn [fold_left]. apply not_elem_of_cons in Hx as [_ Hx].
  apply IH; [by apply merge_message_ids | done | intros z Hz; apply Hd; by right |]. apply settled_kept; [done | apply Hd; left | done].
Qed.

Lemma settled_all incoming l : NoDup (ids l) -> NoDup (ids incoming) -> Forall (settled (fold_left merge_message incoming l)) incoming.
Proof.
  revert l. induction incoming as [|x incoming IH]; intros l Hn Hi; [constructor|]. cbn [fold_left].
  unfold ids in Hi. rewrite fmap_cons in Hi. apply NoDup_cons in Hi as [Hx Hi]. constructor; [|by apply IH; [apply merge_message_ids|]].
  assert (Hne : forall y, y ∈ incoming -> messageId y <> messageId x) by (intros y Hy Heq; apply Hx; rewrite <- Heq; by apply (list_elem_of_fmap_2 messageId)).
  apply settled_fold; [by apply merge_message_ids | by intros Hin; apply (Hne x Hin) | done | by apply settled_merged].
Qed.

Lemma merge_settled incoming l : NoDup (ids l) -> Forall (settled l) incoming -> fold_left merge_message incoming l = l.
Proof.
  intros Hn. induction 1 as [|x incoming (m & Hm & Hid & Hr) Hf IH]; [done|]. cbn [fold_left].
  assert (Hs : merge_message l x = l); [|by rewrite Hs]. unfold merge_message.
  rewrite (proj2 (keyed_get_spec messageId (messageId x) l m Hn)) by done. rewrite Hr. by apply keyed_set_same.
Qed.

Lemma settled_perm l l' x : l ≡ₚ l' -> settled l x -> settled l' x.
Proof. intros Hp (m & Hm & Hs). exists m. by rewrite <- Hp. Qed.

Lemma ids_perm l l' : l ≡ₚ l' -> ids l ≡ₚ ids l'.
Proof. intros Hp. unfold ids. by rewrite Hp. Qed.

Lemma merge_perm incoming existing :
  NoDup (ids existing) -> mergeAgentMessages incoming existing ≡ₚ fold_left merge_message incoming existing.
Proof. intros Hn. unfold mergeAgentMessages. rewrite sort_with_perm, keyed_set_new by done. done. Qed.

Lemma merge_facts incoming existing :
  NoDup (ids existing) ->
  let r := mergeAgentMessages incoming existing in
  NoDup (ids r) /\ (forall i, i ∈ ids r <-> i ∈ ids existing \/ i ∈ ids incoming)
  /\ (forall y, y ∈ existing \/ y ∈ incoming -> exists m, m ∈ r /\ at_least y m)
  /\ forall m, m ∈ r -> exists y, (y ∈ existing \/ y ∈ incoming) /\ version_of y m.
Proof.
  intros Hn. cbv zeta. pose proof (merge_perm incoming existing Hn) as Hp. pose proof (ids_perm _ _ Hp) as Hip.
  destruct (merge_fold incoming existing Hn) as (H1 & H2 & H3 & H4). split_and!.
  - by rewrite Hip.
  - intros i. rewrite Hip. apply H2.
  - intros y Hy. destruct (H3 y Hy) as (m & Hm & Ha). exists m. by rewrite Hp.
  - intros m Hm. rewrite Hp in Hm. by apply H4.
Qed.

(** Merging messages into the replica. The result has one entry per id, of exactly
    the ids of both sides, ordered by [seq] and then by id; no entry goes back to a lower
    [seq] and none is invented: each has the [seq] and content of a message of one of the
    sides. Merging the same messages again changes nothing. *)
Theorem mergeAgentMessages_correct `{!LocaleLaws} incoming existing :
  NoDup (ids existing) ->
  let r := mergeAgentMessages incoming existing in
  (NoDup (ids r) /\ (forall i, i ∈ ids r <-> i ∈ ids existing \/ i ∈ ids incoming))
  /\ StronglySorted (fun x y => compareMessageBySeq x y <= 0) r
  /\ (forall y, y ∈ existing \/ y ∈ incoming -> exists m, m ∈ r /\ messageId m = messageId y /\ seq_ y <= seq_ m)
  /\ (forall m, m ∈ r -> exists y, (y ∈ existing \/ y ∈ incoming) /\ messageId m = messageId y /\ seq_ m = seq_ y /\ content m = content y)
  /\ (NoDup (ids incoming) -> mergeAgentMessages incoming r = r).
Proof.
  intros Hn r. destruct (merge_facts incoming existing Hn) as (H1 & H2 & H3 & H4). split_and!; try done.
  - apply (sort_with_sorted compareMessageBySeq); [apply compare_total | apply compare_trans].
  - intros Hi. unfold mergeAgentMessages at 1. rewrite keyed_set_new by done. rewrite merge_settled; [|done|].
    + apply sort_with_id, (sort_with_sorted compareMessageBySeq); [apply compare_total | apply compare_trans].
    + eapply Forall_impl; [by apply (settled_all incoming existing)|]. intros x Hx. eapply settled_perm; [|exact Hx]. symmetry. by apply merge_perm.
Qed.
End merge_facts.

(** ** The operations *)
Section operations.
Context `{Locale} {SM SE SC SV : Type}.
Context `{RepositoryLaws SM (jsmap (list CachedAgentMessage))} `{RepositoryLaws SE (jsmap (list CachedAgentTurnEvent))}
  `{RepositoryLaws SC Z} `{Repository SV (jsmap CachedAgentConversation)}.
Abbreviation cache := (Cache (SM := SM) (SE := SE) (SC := SC) (SV := SV)).
#[local] Existing Instances op_bind op_ret.
Implicit Types (c : cache) (conv : string).

Definition usable_cache c : Prop := usable (messageRepo c) /\ usable (turnEventRepo c) /\ usable (cursorRepo c).

Definition well_kept conv c : Prop := usable_cache c /\ NoDup (ids (cached conv c)).

Lemma put_messages_spec conv ms c c' r :
  usable_cache c -> put_messages conv ms c = (c', r) ->
  usable_cache c' /\ cursorRepo c' = cursorRepo c
  /\ ((r = Ok tt /\ cached conv c' = ms) \/ ((exists e, r = Err e) /\ c' = c)).
Proof.
  intros (Hm & He & Hc) Hp. unfold put_messages in Hp. destruct (repo_write _ _ _) as [s|e] eqn:Hw; injection Hp as <- <-.
  - unfold usable_cache. cbn [set_messages messageRepo turnEventRepo cursorRepo]. split; [|split; [done|]].
    + split; [|done]. by eapply usable_write.
    + left. split; [done|]. unfold cached, stored_messages. cbn [set_messages messageRepo]. rewrite (read_written _ _ _ _ Hm Hw). cbn.
      by rewrite jm_lookup_set_eq.
  - split; [done|]. split; [done|]. right. eauto.
Qed.

Lemma writeCursor_spec conv v c c' r :
  usable_cache c -> writeCursor conv v c = (c', r) ->
  usable_cache c' /\ messageRepo c' = messageRepo c
  /\ ((r = Ok tt /\ cursor conv c' = v) \/ ((exists e, r = Err e) /\ c' = c)).
Proof.
  intros (Hm & He & Hc) Hp. unfold writeCursor in Hp. destruct (repo_write _ _ _) as [s|e] eqn:Hw; injection Hp as <- <-.
  - unfold usable_cache. cbn [set_cursors messageRepo turnEventRepo cursorRepo]. split; [|split; [done|]].
    + split; [done|]. split; [done|]. by eapply usable_write.
    + left. split; [done|]. unfold cursor. cbn [set_cursors cursorRepo]. by rewrite (read_written _ _ _ _ Hc Hw).
  - split; [done|]. split; [done|]. right. eauto.
Qed.

Lemma writeTurnEvents_spec conv events c c' r :
  usable_cache c -> writeTurnEvents conv events c = (c', r) ->
  usable_cache c' /\ messageRepo c' = messageRepo c /\ cursorRepo c' = cursorRepo c.
Proof.
  intros (Hm & He & Hc) Hp. unfold writeTurnEvents in Hp. destruct (repo_write _ _ _) as [s|e] eqn:Hw; injection Hp as <- <-; [|done].
  unfold usable_cache. cbn [set_turn_events messageRepo turnEventRepo cursorRepo]. split; [|done]. split; [done|]. split; [|done].
  by eapply usable_write.
Qed.

Lemma cached_same conv c c' : messageRepo c' = messageRepo c -> cached conv c' = cached conv c.
Proof. unfold cached, stored_messages. by intros ->. Qed.
Lemma cursor_same conv c c' : cursorRepo c' = cursorRepo c -> cursor conv c' = cursor conv c.
Proof. unfold cursor. by intros ->. Qed.

Lemma highest_seq_ge from l : from <= highest_seq from l /\ forall x, x ∈ l -> seq_ x <= highest_seq from l.
Proof.
  unfold highest_seq. revert from. induction l as [|y l IH]; intros from; cbn [fold_left].
  - split; [lia|]. intros x Hx. by apply elem_of_nil in Hx.
  - destruct (IH (Z.max from (seq_ y))) as [Hle Hall]. split; [lia|]. intros x [->|Hx]%elem_of_cons; [lia | by apply Hall].
Qed.

(** What was cached is still there, in the same or a later version. *)
Definition kept conv c c' : Prop := forall y, y ∈ cached conv c -> exists m, m ∈ cached conv c' /\ at_least y m.

Lemma kept_refl conv c c' : cached conv c' = cached conv c -> kept conv c c'.
Proof. intros Heq y Hy. exists y. rewrite Heq. split; [done|]. split; [done|lia]. Qed.

(** Writing messages merges them or does nothing. *)
Lemma writeMessages_spec conv ms c c' r :
  well_kept conv c -> writeMessages conv ms c = (c', r) ->
  well_kept conv c' /\ cursorRepo c' = cursorRepo c /\ kept conv c c'
  /\ ((r = Ok tt /\ forall y, y ∈ ms -> exists m, m ∈ cached conv c' /\ at_least y m) \/ ((exists e, r = Err e) /\ c' = c)).
Proof.
  intros [Hu Hn] Hw. unfold writeMessages in Hw. destruct (put_messages_spec _ _ _ _ _ Hu Hw) as (Hu' & Hc & [[-> Hm]|[He ->]]).
  - destruct (merge_facts ms (cached conv c) Hn) as (Hnd & _ & Ha & _). unfold well_kept, kept. rewrite Hm. split_and!; try done.
    + intros y Hy. apply Ha. by left.
    + left. split; [done|]. intros y Hy. apply Ha. by right.
  - split; [done|]. split; [done|]. split; [by apply kept_refl|]. right. eauto.
Qed.

(** *** The station and the replica *)

(** A page holds station messages, and all of them from the cursor up to its highest. *)
Definition honest_page (station : list CachedAgentMessage) (since : Z) (page : StationMessagesResult) : Prop :=
  forall x, x ∈ station -> since < seq_ x <= highest_seq since (page_messages page) -> x ∈ page_messages page.

(** Every station message up to the cursor is cached. *)
Definition replica (station : list CachedAgentMessage) conv c : Prop :=
  forall x, x ∈ station -> seq_ x <= cursor conv c -> exists m, m ∈ cached conv c /\ at_least x m.

Definition honest (station : list CachedAgentMessage) (fetch : Fetcher) conv : Prop :=
  forall n since page, fetch n conv since = Ok page -> honest_page station since page.

(** What a step of an operation leaves behind, the failed ones included. *)
Definition step_ok (station : list CachedAgentMessage) conv c c' : Prop :=
  well_kept conv c' /\ kept conv c c' /\ cursor conv c <= cursor conv c' /\ (replica station conv c -> replica station conv c').

Lemma replica_kept station conv c c' :
  kept conv c c' -> cursor conv c' = cursor conv c -> replica station conv c -> replica station conv c'.
Proof.
  intros Hk Hc Hr x Hx Hle. rewrite Hc in Hle. destruct (Hr x Hx Hle) as (m & Hm & Ha). destruct (Hk m Hm) as (m2 & Hm2 & Ha2).
  exists m2. split; [done|]. by eapply at_least_trans.
Qed.

Lemma step_ok_refl station conv c c' :
  well_kept conv c -> usable_cache c' -> messageRepo c' = messageRepo c -> cursorRepo c' = cursorRepo c -> step_ok station conv c c'.
Proof.
  intros [_ Hn] Hu Hm Hc. pose proof (cached_same conv c c' Hm) as Hca. pose proof (cursor_same conv c c' Hc) as Hcu.
  assert (Hk : kept conv c c') by (by apply kept_refl). split; [split; [done | by rewrite Hca]|]. split; [done|]. split; [lia|].
  by apply replica_kept.
Qed.

Lemma step_ok_trans station conv c1 c2 c3 : step_ok station conv c1 c2 -> step_ok station conv c2 c3 -> step_ok station conv c1 c3.
Proof.
  intros (_ & Hk1 & Hc1 & Hr1) (Hw & Hk2 & Hc2 & Hr2). split; [done|]. split; [|split; [lia | auto]].
  intros y Hy. destruct (Hk1 y Hy) as (m & Hm & Ha). destruct (Hk2 m Hm) as (m2 & Hm2 & Ha2). exists m2. split; [done|]. by eapply at_least_trans.
Qed.

(** Storing messages and moving the cursor to the highest of them. *)
Lemma store_page station conv ms top c c' r :
  well_kept conv c -> cursor conv c <= top ->
  (forall x, x ∈ station -> cursor conv c < seq_ x <= top -> exists y, y ∈ ms /\ at_least x y) ->
  (writeMessages conv ms ≫= fun _ => writeCursor conv top) c = (c', r) ->
  step_ok station conv c c' /\ (is_ok r = true -> forall y, y ∈ ms -> exists m, m ∈ cached conv c' /\ at_least y m).
Proof.
  intros Hw Htop Hpage Hs. unfold mbind, op_bind in Hs. destruct (writeMessages conv ms c) as [c1 r1] eqn:Hwm.
  destruct (writeMessages_spec _ _ _ _ _ Hw Hwm) as (Hw1 & Hc1 & Hk1 & Hcases). pose proof (cursor_same conv c c1 Hc1) as Hcu1.
  destruct Hcases as [[-> Hms]|[[e ->] ->]]; [|injection Hs as <- <-; split; [by apply step_ok_refl; [|apply Hw| |] | done]].
  destruct (writeCursor_spec _ _ _ _ _ (proj1 Hw1) Hs) as (Hu2 & Hm2 & [[-> Hcur]|[[e ->] ->]]).
  - pose proof (cached_same conv c1 c' Hm2) as Hca. split; [|by rewrite Hca].
    assert (Hk : kept conv c c') by (intros y Hy; rewrite Hca; by apply Hk1).
    split; [split; [done | rewrite Hca; apply Hw1]|]. split; [done|]. rewrite Hcur. split; [done|]. intros Hr x Hx Hle. rewrite Hcur in Hle.
    destruct (Z.le_gt_cases (seq_ x) (cursor conv c)) as [Hle2|Hgt].
    + destruct (Hr x Hx Hle2) as (m & Hm & Ha). destruct (Hk m Hm) as (m2 & Hmm & Ha2). exists m2. split; [done|]. by eapply at_least_trans.
    + destruct (Hpage x Hx ltac:(lia)) as (y & Hy & Hxy). destruct (Hms y Hy) as (m & Hm & Ha). exists m. rewrite Hca. split; [done|].
      by eapply at_least_trans.
  - split; [|done]. split; [done|]. split; [done|]. split; [lia|]. by apply replica_kept.
Qed.

Lemma events_step station conv events c c' r :
  well_kept conv c ->
  (match events with Some (e :: events) => writeTurnEvents conv (e :: events) | _ => mret tt end) c = (c', r) -> step_ok station conv c c'.
Proof.
  intros Hw He. destruct events as [[|e events]|].
  - injection He as <- _. by apply step_ok_refl; [|apply Hw| |].
  - destruct (writeTurnEvents_spec _ _ _ _ _ (proj1 Hw) He) as (Hu & Hm & Hc). by apply step_ok_refl.
  - injection He as <- _. by apply step_ok_refl; [|apply Hw| |].
Qed.

Lemma op_bind_run {A B} (m : Op A) (k : A -> Op B) c c' r :
  (m ≫= k) c = (c', r) -> exists c1 r1, m c = (c1, r1) /\ match r1 with Ok a => k a c1 = (c', r) | Err e => c' = c1 /\ r = Err e end.
Proof.
  unfold mbind, op_bind. destruct (m c) as [c1 [a|e]] eqn:Hm; intros Hk; eexists _, _; (split; [done|]); [done|].
  by injection Hk as <- <-.
Qed.

(** A synchronisation never loses cached history and never moves the cursor back,
    whatever the station answers and whichever write fails. When the pages of the station
    have no gaps it keeps the replica complete up to the cursor, and when the page also
    reaches the end, the messages it returns hold every message of the station. *)
Theorem syncConversation_correct station fetch conv c c' r :
  well_kept conv c -> honest station fetch conv -> syncConversation fetch conv c = (c', r) ->
  (well_kept conv c' /\ kept conv c c' /\ cursor conv c <= cursor conv c')
  /\ (replica station conv c -> replica station conv c')
  /\ forall ms page, r = Ok ms -> fetch 0%nat conv (cursor conv c) = Ok page ->
       (forall x, x ∈ station -> cursor conv c < seq_ x -> x ∈ page_messages page) -> replica station conv c ->
       ms = cached conv c' /\ forall x, x ∈ station -> exists m, m ∈ ms /\ at_least x m.
Proof.
  intros Hw Hh Hs. unfold syncConversation in Hs. apply op_bind_run in Hs as (c0 & r0 & H0r & Hs). injection H0r as <- <-.
  apply op_bind_run in Hs as (c0 & r0 & H0r & Hs). injection H0r as <- <-.
  destruct (fetch 0%nat conv (cursor conv c)) as [page|e] eqn:Hf.
  2:{ destruct Hs as [-> ->]. assert (Hok : step_ok station conv c c) by (by apply step_ok_refl; [|apply Hw| |]).
      destruct Hok as (? & ? & ? & ?). split; [done|]. split; [done|]. intros ms page Hr. done. }
  apply op_bind_run in Hs as (c1 & r1 & Hst & Hs).
  assert (Hstore : step_ok station conv c c1 /\ (is_ok r1 = true -> forall y, y ∈ page_messages page -> exists m, m ∈ cached conv c1 /\ at_least y m)).
  { case_decide as Hnil.
    - injection Hst as <- <-. split; [by apply step_ok_refl; [|apply Hw| |]|]. intros _ y Hy. rewrite Hnil in Hy. by apply elem_of_nil in Hy.
    - apply (store_page station) in Hst; [done|done|apply highest_seq_ge|]. intros x Hx Hle. exists x.
      split; [by eapply Hh|]. split; [done|lia]. }
  destruct Hstore as [Hok1 Hms]. destruct r1 as [[]|e].
  2:{ destruct Hs as [-> ->]. destruct Hok1 as (? & ? & ? & ?). split; [done|]. split; [done|]. done. }
  apply op_bind_run in Hs as (c2 & r2 & Hev & Hs). apply (events_step station) in Hev; [|apply Hok1].
  pose proof (step_ok_trans _ _ _ _ _ Hok1 Hev) as Hok2.
  destruct r2 as [[]|e]; [|destruct Hs as [-> ->]; destruct Hok2 as (? & ? & ? & ?); split; [done|]; split; done].
  injection Hs as <- <-. pose proof Hok2 as (? & Hkept & ? & Hrep). split; [done|]. split; [done|].
  intros ms page' [= <-] [= <-] Hall Hr. split; [done|]. intros x Hx.
  destruct (Z.le_gt_cases (seq_ x) (cursor conv c)) as [Hle|Hgt].
  - destruct (Hr x Hx Hle) as (m & Hm & Ha). destruct (Hkept m Hm) as (m2 & Hm2 & Ha2). exists m2. split; [done|]. by eapply at_least_trans.
  - destruct (Hms eq_refl x (Hall x Hx ltac:(lia))) as (m & Hm & Ha). destruct Hev as (_ & Hk2 & _).
    destruct (Hk2 m Hm) as (m2 & Hm2 & Ha2). exists m2. split; [done|]. by eapply at_least_trans.
Qed.

(** Storing one message keeps the history and moves the cursor forward only. The
    replica stays complete when no other station message lies between the cursor and the
    stored one; nothing in the code ensures that. *)
Theorem upsertMessage_correct station message c c' r :
  let conv := conversationId message in
  well_kept conv c -> upsertMessage message c = (c', r) ->
  (well_kept conv c' /\ kept conv c c' /\ cursor conv c <= cursor conv c')
  /\ (r = Ok tt -> (exists m, m ∈ cached conv c' /\ messageId m = messageId message) /\ seq_ message <= cursor conv c')
  /\ ((forall x, x ∈ station -> cursor conv c < seq_ x <= seq_ message -> messageId x = messageId message) ->
      replica station conv c -> replica station conv c').
Proof.
  intros conv Hw Hs. unfold upsertMessage in Hs. fold conv in Hs. apply op_bind_run in Hs as (c1 & r1 & Hwm & Hs).
  destruct (writeMessages_spec _ _ _ _ _ Hw Hwm) as (Hw1 & Hc1 & Hk1 & Hcases). pose proof (cursor_same conv c c1 Hc1) as Hcu1.
  destruct Hcases as [[-> Hms]|[[e ->] ->]].
  2:{ destruct Hs as [-> ->]. split; [split; [done|]; split; [by apply kept_refl | lia]|]. done. }
  destruct (Hms message (list_elem_of_here _ _)) as (m0 & Hm0 & Ham0).
  apply op_bind_run in Hs as (c0 & r0 & H0r & Hs). injection H0r as <- <-. rewrite Hcu1 in Hs.
  destruct (Z.ltb_spec (cursor conv c) (seq_ message)) as [Hlt|Hge].
  - destruct (writeCursor_spec _ _ _ _ _ (proj1 Hw1) Hs) as (Hu2 & Hm2 & [[-> Hcur]|[[e ->] ->]]).
    + pose proof (cached_same conv c1 c' Hm2) as Hca.
      assert (Hk : kept conv c c') by (intros y Hy; rewrite Hca; by apply Hk1).
      split; [split; [split; [done | rewrite Hca; apply Hw1]|]; split; [done | lia]|].
      split; [intros _; split; [exists m0; rewrite Hca; split; [done | apply Ham0] | lia]|].
      intros Hgap Hr x Hx Hle. rewrite Hcur in Hle. destruct (Z.le_gt_cases (seq_ x) (cursor conv c)) as [Hle2|Hgt].
      * destruct (Hr x Hx Hle2) as (m & Hm & Ha). destruct (Hk m Hm) as (m2 & Hmm & Ha2). exists m2. split; [done|]. by eapply at_least_trans.
      * exists m0. rewrite Hca. split; [done|]. destruct Ham0 as [Hi Hq]. split; [rewrite Hi; symmetry; apply Hgap; [done | lia] | lia].
    + split; [split; [done|]; split; [done | lia]|]. split; [done|]. intros _. by apply replica_kept.
  - injection Hs as <- <-. split; [split; [done|]; split; [done | lia]|].
    split; [intros _; split; [exists m0; split; [done | apply Ham0] | lia]|]. intros _. by apply replica_kept.
Qed.

(** *** Refreshing *)

(** Every turn of the loop raises the cursor, which stays a safe integer. *)
Lemma fetch_pages_total fuel fetch n conv afterSeq ms es :
  2 ^ 53 - 1 - afterSeq < Z.of_nat fuel -> afterSeq <= 2 ^ 53 - 1 -> exists r, fetch_pages fuel fetch n conv afterSeq ms es = Some r.
Proof.
  revert n afterSeq ms es. induction fuel as [|fuel IH]; intros n afterSeq ms es Hf Ha; [lia|]. cbn [fetch_pages].
  destruct (fetch n conv afterSeq) as [page|e]; [|eauto]. cbv zeta. destruct (negb (default false _)); [eauto|].
  set (next := default _ _). unfold isSafeInteger. destruct (Z.leb_spec (Z.abs next) (2 ^ 53 - 1)), (Z.leb_spec next afterSeq);
    cbn [negb orb]; eauto. apply IH; lia.
Qed.

Lemma fetch_pages_more fuel fuel' fetch n conv afterSeq ms es r :
  (fuel <= fuel')%nat -> fetch_pages fuel fetch n conv afterSeq ms es = Some r -> fetch_pages fuel' fetch n conv afterSeq ms es = Some r.
Proof.
  revert fuel' n afterSeq ms es. induction fuel as [|fuel IH]; intros fuel' n afterSeq ms es Hle Hr; [done|].
  destruct fuel' as [|fuel']; [lia|]. cbn [fetch_pages] in *. destruct (fetch n conv afterSeq) as [page|e]; [|done]. cbv zeta in *.
  destruct (negb (default false _)); [done|]. destruct (negb _ || _); [done|]. apply IH; [lia | done].
Qed.

(** A station that pages through its messages: each page holds those up to the next cursor,
    the last page all that remain. *)
Definition honest_paging (station : list CachedAgentMessage) (fetch : Fetcher) conv : Prop :=
  forall n since page, fetch n conv since = Ok page ->
    (forall x, x ∈ page_messages page -> x ∈ station)
    /\ forall x, x ∈ station -> since < seq_ x ->
         (default false (page_hasMore page) = true -> seq_ x <= default (highest_seq since (page_messages page)) (page_nextCursor page)) ->
         x ∈ page_messages page.

Lemma fetch_pages_complete station fuel fetch n conv afterSeq ms es ms' es' :
  honest_paging station fetch conv -> (forall x, x ∈ station -> seq_ x <= afterSeq -> x ∈ ms) -> (forall x, x ∈ ms -> x ∈ station) ->
  fetch_pages fuel fetch n conv afterSeq ms es = Some (Ok (ms', es')) -> forall x, x ∈ station <-> x ∈ ms'.
Proof.
  intros Hh. revert n afterSeq ms es. induction fuel as [|fuel IH]; intros n afterSeq ms es Hc Hin Hf; [done|]. cbn [fetch_pages] in Hf.
  destruct (fetch n conv afterSeq) as [page|e] eqn:Hp; [|done]. cbv zeta in Hf. destruct (Hh _ _ _ Hp) as [Hsub Hall].
  destruct (default false (page_hasMore page)) eqn:Hmore; cbn [negb] in Hf.
  - destruct (negb _ || _) eqn:Hg; [done|]. apply orb_false_elim in Hg as [_ Hg]. apply Z.leb_gt in Hg. eapply IH; [| |exact Hf].
    + intros x Hx Hle. apply elem_of_app. destruct (Z.le_gt_cases (seq_ x) afterSeq); [left; by apply Hc | right; apply Hall; [done | lia | done]].
    + intros x [Hx|Hx]%elem_of_app; auto.
  - injection Hf as <- _. intros x. rewrite elem_of_app. split; [|naive_solver]. intros Hx.
    destruct (Z.le_gt_cases (seq_ x) afterSeq); [left; by apply Hc | right; apply Hall; [done | lia | done]].
Qed.

Lemma replaceMessages_spec conv ms c c' r :
  well_kept conv c -> replaceMessages conv ms c = (c', r) ->
  well_kept conv c' /\ cursorRepo c' = cursorRepo c
  /\ ((r = Ok tt /\ (forall i, i ∈ ids (cached conv c') <-> i ∈ ids ms) /\ forall y, y ∈ ms -> exists m, m ∈ cached conv c' /\ at_least y m)
      \/ ((exists e, r = Err e) /\ c' = c)).
Proof.
  intros [Hu Hn] Hw. unfold replaceMessages in Hw. set (kept_ := filter _ _) in Hw.
  assert (Hnk : NoDup (ids kept_)).
  { unfold kept_, ids. clear Hw. revert Hn. unfold ids. induction (cached conv c) as [|x l IH]; [done|]. intros Hn. rewrite fmap_cons in Hn.
    apply NoDup_cons in Hn as [Hx Hn]. rewrite filter_cons. case_decide; [|by apply IH]. rewrite fmap_cons. apply NoDup_cons.
    split; [|by apply IH]. intros Hin. apply Hx. apply list_elem_of_fmap in Hin as (y & -> & Hy). apply list_elem_of_filter in Hy as [_ Hy].
    by apply (list_elem_of_fmap_2 messageId). }
  destruct (put_messages_spec _ _ _ _ _ Hu Hw) as (Hu' & Hc & [[-> Hm]|[He ->]]); [|split; [done|]; split; [done|]; right; eauto].
  destruct (merge_facts ms kept_ Hnk) as (Hnd & Hi & Ha & _). unfold well_kept. rewrite Hm. split; [done|]. split; [done|]. left.
  split; [done|]. split; [|intros y Hy; apply Ha; by right]. intros i. rewrite Hi. split; [|by right]. intros [Hk|]; [|done].
  apply list_elem_of_fmap in Hk as (y & -> & Hy). by apply list_elem_of_filter in Hy as [Hy _].
Qed.

Lemma commit_refresh_spec conv ms es c c' r :
  well_kept conv c -> commit_refresh conv (ms, es) c = (c', r) ->
  well_kept conv c'
  /\ (cached conv c' = cached conv c /\ cursor conv c' = cursor conv c /\ is_ok r = false
      \/ (forall i, i ∈ ids (cached conv c') <-> i ∈ ids ms) /\ (forall y, y ∈ ms -> exists m, m ∈ cached conv c' /\ at_least y m))
  /\ forall result, r = Ok result -> result = cached conv c' /\ cursor conv c' = highest_seq 0 ms.
Proof.
  intros Hw Hs. unfold commit_refresh in Hs. apply op_bind_run in Hs as (c1 & r1 & Hrm & Hs).
  destruct (replaceMessages_spec _ _ _ _ _ Hw Hrm) as (Hw1 & Hc1 & [(-> & Hi & Hms)|[[e ->] ->]]).
  2:{ destruct Hs as [-> ->]. split; [done|]. split; [by left|]. done. }
  apply op_bind_run in Hs as (c2 & r2 & Hwc & Hs).
  destruct (writeCursor_spec _ _ _ _ _ (proj1 Hw1) Hwc) as (Hu2 & Hm2 & Hcases). pose proof (cached_same conv c1 c2 Hm2) as Hca2.
  assert (Hw2 : well_kept conv c2) by (split; [done | rewrite Hca2; apply Hw1]).
  destruct Hcases as [[-> Hcur]|[[e ->] ->]].
  2:{ destruct Hs as [-> ->]. split; [done|]. split; [by right|]. done. }
  apply op_bind_run in Hs as (c3 & r3 & Hev & Hs).
  assert (Hevs : usable_cache c3 /\ messageRepo c3 = messageRepo c2 /\ cursorRepo c3 = cursorRepo c2).
  { case_decide; [by injection Hev as <- _|]. by apply (writeTurnEvents_spec conv es c2 c3 r3). }
  destruct Hevs as (Hu3 & Hm3 & Hc3). pose proof (cached_same conv c2 c3 Hm3) as Hca3. pose proof (cursor_same conv c2 c3 Hc3) as Hcu3.
  assert (Hfin : c' = c3 /\ forall result, r = Ok result -> result = cached conv c3) by (destruct r3 as [[]|e]; [injection Hs as <- <- | destruct Hs as [-> ->]]; split; congruence).
  destruct Hfin as [-> Hres]. rewrite Hca3, Hca2. split; [split; [done | rewrite Hca3; apply Hw2]|]. split; [by right|].
  intros result Hr. rewrite (Hres result Hr), Hca3, Hca2, Hcu3, Hcur. done.
Qed.

(** C32: a refresh always ends: the cursor it pages with grows and is a safe integer. A
    failed request, or a page that does not advance the cursor, leaves the cache untouched;
    a refresh that succeeds makes the cached ids exactly those fetched, each message in the
    fetched or a later version, and the cursor their highest [seq]; with a station that
    pages without gaps these are exactly the messages of the station. *)
Theorem refreshConversation_correct fetch conv c :
  well_kept conv c ->
  exists c' r enough, (forall fuel, (enough <= fuel)%nat -> refreshConversation fuel fetch conv c = Some (c', r))
  /\ well_kept conv c'
  /\ ((exists e, r = Err e /\ c' = c)
      \/ exists ms, (is_ok r = true -> cursor conv c' = highest_seq 0 ms)
           /\ (r = Ok (cached conv c') \/ is_ok r = false)
           /\ (cached conv c' = cached conv c /\ is_ok r = false
               \/ (forall i, i ∈ ids (cached conv c') <-> i ∈ ids ms) /\ (forall y, y ∈ ms -> exists m, m ∈ cached conv c' /\ at_least y m))
           /\ forall station, honest_paging station fetch conv -> (forall x, x ∈ station -> 0 < seq_ x) -> forall x, x ∈ station <-> x ∈ ms).
Proof.
  intros Hw. assert (He : exists enough, 2 ^ 53 - 1 - 0 < Z.of_nat enough) by (exists (Z.to_nat (2 ^ 53)); rewrite Z2Nat.id by lia; lia).
  destruct He as [enough He]. destruct (fetch_pages_total enough fetch 0 conv 0 [] [] He ltac:(lia)) as [fetched Hf].
  assert (Hrun : forall fuel, (enough <= fuel)%nat -> refreshConversation fuel fetch conv c = Some ((f ← lift fetched; commit_refresh conv f) c)).
  { intros fuel Hle. unfold refreshConversation. by rewrite (fetch_pages_more _ _ _ _ _ _ _ _ _ Hle Hf). }
  destruct ((f ← lift fetched; commit_refresh conv f) c) as [c' r] eqn:Hc. exists c', r, enough. split; [done|].
  apply op_bind_run in Hc as (c0 & r0 & Hl & Hc). injection Hl as <- <-. clear Hrun He. destruct fetched as [[ms es]|e].
  - destruct (commit_refresh_spec _ _ _ _ _ _ Hw Hc) as (Hw' & Hcases & Hres). split; [done|]. right. exists ms. split_and!.
    + intros Hok. destruct r as [result|]; [|done]. by destruct (Hres result eq_refl).
    + destruct r as [result|]; [|by right]. left. by destruct (Hres result eq_refl) as [-> _].
    + destruct Hcases as [(? & _ & ?)|?]; [by left | by right].
    + intros station Hh Hpos. eapply fetch_pages_complete; [exact Hh| | |exact Hf].
      * intros x Hx Hle. specialize (Hpos x Hx). lia.
      * intros x Hx. by apply elem_of_nil in Hx.
  - destruct Hc as [-> ->]. split; [done|]. left. eauto.
Qed.
End operations.

(** ** The queue of operations *)

(** [runConversationOperation]: an operation waits for the promise that was the tail of its
    conversation when it was called, runs, settles, and finally removes the tail if it is
    still its own. Operations are numbered in the order of their calls. *)
Inductive OpState : Set := waiting | running | settled_ | cleaned.

#[export] Instance op_state_eq_dec : EqDecision OpState.
Proof. solve_decision. Defined.

Record QueuedOp : Set := { q_conv : string; predecessor : option nat; q_state : OpState }.

Record Queue : Set := { queued : list QueuedOp; conversationOperations : jsmap nat }.

Definition empty_queue : Queue := {| queued := []; conversationOperations := ∅ |}.

Definition set_state (s : OpState) (o : QueuedOp) : QueuedOp := {| q_conv := q_conv o; predecessor := predecessor o; q_state := s |}.

Definition set_op (i : nat) (s : OpState) (o : QueuedOp) (q : Queue) : Queue :=
  {| queued := <[i := set_state s o]> (queued q); conversationOperations := conversationOperations q |}.

Definition enqueue (conv : string) (q : Queue) : Queue :=
  {| queued := queued q ++ [{| q_conv := conv; predecessor := conversationOperations q !! conv; q_state := waiting |}];
     conversationOperations := <[conv := length (queued q)]> (conversationOperations q) |}.

Definition finally (i : nat) (o : QueuedOp) (q : Queue) : Queue :=
  let q := set_op i cleaned o q in
  if decide (conversationOperations q !! q_conv o = Some i)
  then {| queued := queued q; conversationOperations := delete (q_conv o) (conversationOperations q) |}
  else q.

Definition is_settled (o : QueuedOp) : Prop := q_state o = settled_ \/ q_state o = cleaned.

Definition predecessor_settled (q : Queue) (o : QueuedOp) : Prop :=
  match predecessor o with None => True | Some p => exists o', queued q !! p = Some o' /\ is_settled o' end.

Inductive queue_step : Queue -> Queue -> Prop :=
| step_call conv q : queue_step q (enqueue conv q)
| step_start i o q : queued q !! i = Some o -> q_state o = waiting -> predecessor_settled q o -> queue_step q (set_op i running o q)
| step_settle i o q : queued q !! i = Some o -> q_state o = running -> queue_step q (set_op i settled_ o q)
| step_finally i o q : queued q !! i = Some o -> q_state o = settled_ -> queue_step q (finally i o q).

(** *** The invariant *)
Definition all_settled (q : Queue) (conv : string) (below : nat) : Prop :=
  forall j o, (j < below)%nat -> queued q !! j = Some o -> q_conv o = conv -> is_settled o.

Definition last_of (q : Queue) (conv : string) (p below : nat) : Prop :=
  (exists o, queued q !! p = Some o /\ q_conv o = conv)
  /\ forall j o, (p < j < below)%nat -> queued q !! j = Some o -> q_conv o <> conv.

Record queue_ok (q : Queue) : Prop := {
  ok_tail conv :
    match conversationOperations q !! conv with
    | None => all_settled q conv (length (queued q))
    | Some p => last_of q conv p (length (queued q))
    end;
  ok_pred i o :
    queued q !! i = Some o ->
    match predecessor o with None => all_settled q (q_conv o) i | Some p => (p < i)%nat /\ last_of q (q_conv o) p i end;
  ok_started i o : queued q !! i = Some o -> q_state o <> waiting -> all_settled q (q_conv o) i;
  ok_live conv p o : conversationOperations q !! conv = Some p -> queued q !! p = Some o -> q_state o <> cleaned
}.

(** A change of state that does not unsettle an operation. *)
Lemma lookup_set i s o q j o' :
  queued q !! i = Some o -> queued (set_op i s o q) !! j = Some o' ->
  exists o0, queued q !! j = Some o0 /\ q_conv o' = q_conv o0 /\ predecessor o' = predecessor o0
    /\ ((j <> i /\ o' = o0) \/ (j = i /\ o0 = o /\ q_state o' = s)).
Proof.
  intros Hi Hj. cbn in Hj. destruct (decide (i = j)) as [->|Hne].
  - rewrite list_lookup_insert_eq in Hj by (by eapply lookup_lt_Some). injection Hj as <-. exists o. cbn. split_and!; auto.
  - rewrite list_lookup_insert_ne in Hj by done. exists o'. split_and!; auto.
Qed.

Lemma all_settled_set i s o q conv below :
  queued q !! i = Some o -> (is_settled o -> s = cleaned \/ s = settled_) -> all_settled q conv below -> all_settled (set_op i s o q) conv below.
Proof.
  intros Hi Hs Ha j o' Hj Ho Hc. destruct (lookup_set _ _ _ _ _ _ Hi Ho) as (o0 & Ho0 & Hc0 & _ & [[_ ->]|(-> & -> & Hst)]).
  - by apply (Ha j o0).
  - unfold is_settled. rewrite Hst. assert (Hso : is_settled o) by (apply (Ha i o); [done..|congruence]). destruct (Hs Hso); auto.
Qed.

Lemma last_of_set i s o q conv p below : queued q !! i = Some o -> last_of q conv p below -> last_of (set_op i s o q) conv p below.
Proof.
  intros Hi [(o1 & H1 & Hc1) Hl]. split.
  - cbn. destruct (decide (i = p)) as [->|Hne].
    + exists (set_state s o). rewrite list_lookup_insert_eq by (by eapply lookup_lt_Some). split; [done|]. cbn. congruence.
    + exists o1. by rewrite list_lookup_insert_ne.
  - intros j o' Hj Ho. destruct (lookup_set _ _ _ _ _ _ Hi Ho) as (o0 & Ho0 & -> & _). by eapply Hl.
Qed.

Lemma length_set_op i s o q : length (queued (set_op i s o q)) = length (queued q).
Proof. cbn. apply length_insert. Qed.

Lemma length_enqueue conv q : length (queued (enqueue conv q)) = S (length (queued q)).
Proof. cbn. rewrite length_app. cbn. lia. Qed.

(** The invariant but for the live tails, under a change of state. *)
Lemma queue_ok_set i s o q :
  queue_ok q -> queued q !! i = Some o -> (is_settled o -> s = cleaned \/ s = settled_) ->
  (s <> waiting -> all_settled q (q_conv o) i) -> (s = cleaned -> conversationOperations q !! q_conv o <> Some i) ->
  queue_ok (set_op i s o q).
Proof.
  intros [Ht Hp Hs Hl] Hi Hset Hst Hcl. split.
  - intros conv. specialize (Ht conv). rewrite length_set_op. cbn [set_op conversationOperations].
    destruct (_ !! conv); [by apply last_of_set | by apply all_settled_set].
  - intros j o' Hj. destruct (lookup_set _ _ _ _ _ _ Hi Hj) as (o0 & Ho0 & -> & -> & _). specialize (Hp j o0 Ho0).
    destruct (predecessor o0); [destruct Hp; split; [done | by apply last_of_set] | by apply all_settled_set].
  - intros j o' Hj Hw. destruct (lookup_set _ _ _ _ _ _ Hi Hj) as (o0 & Ho0 & Hc & _ & [[_ ->]|(-> & -> & Hs')]).
    + apply all_settled_set; [done..|]. by apply Hs.
    + rewrite Hc. apply all_settled_set; [done..|]. apply Hst. congruence.
  - intros conv p o' Htail Hj. cbn [set_op conversationOperations] in Htail.
    destruct (lookup_set _ _ _ _ _ _ Hi Hj) as (o0 & Ho0 & Hc & _ & [[_ ->]|(-> & -> & Hs')]); [by eapply Hl|].
    rewrite Hs'. intros Heq. apply (Hcl Heq). specialize (Ht conv). rewrite Htail in Ht. destruct Ht as [(o1 & Ho1 & <-) _]. congruence.
Qed.

(** The predecessor of an operation that starts has settled, and with it all earlier ones. *)
Lemma started_after q i o :
  queue_ok q -> queued q !! i = Some o -> predecessor_settled q o -> all_settled q (q_conv o) i.
Proof.
  intros [_ Hp Hs _] Hi Hpre. specialize (Hp i o Hi). unfold predecessor_settled in Hpre. destruct (predecessor o) as [p|]; [|done].
  destruct Hp as (Hlt & (o1 & Ho1 & Hc1) & Hbetween). destruct Hpre as (o' & Ho' & Hset). assert (o1 = o') as -> by congruence.
  intros j o2 Hj Ho2 Hc2. destruct (decide (j < p)%nat) as [Hjp|Hjp].
  - apply (Hs p o' Ho') with j; [|done|done|congruence]. destruct Hset as [-> | ->]; done.
  - destruct (decide (j = p)) as [->|Hne]; [congruence|]. exfalso. apply (Hbetween j o2); [lia|done..].
Qed.

Section enqueue.
Context (conv : string) (q : Queue).

Lemma lookup_enqueue j o :
  queued (enqueue conv q) !! j = Some o ->
  (queued q !! j = Some o /\ (j < length (queued q))%nat)
  \/ (j = length (queued q) /\ o = {| q_conv := conv; predecessor := conversationOperations q !! conv; q_state := waiting |}).
Proof.
  intros Hj. cbn in Hj. apply lookup_app_Some in Hj as [Hj|[Hge Hj]]; [left; split; [done | by eapply lookup_lt_Some]|]. right.
  destruct (j - length (queued q))%nat as [|k] eqn:Hk; [|done]. cbn in Hj. injection Hj as <-. split; [lia | done].
Qed.

Lemma all_settled_enqueue conv' below :
  (below <= length (queued q))%nat -> all_settled q conv' below -> all_settled (enqueue conv q) conv' below.
Proof. intros Hb Ha j o Hj Ho Hc. destruct (lookup_enqueue j o Ho) as [[Ho' _]|[-> _]]; [by apply (Ha j o) | lia]. Qed.

Lemma last_of_enqueue conv' p below :
  (below <= length (queued q))%nat -> last_of q conv' p below -> last_of (enqueue conv q) conv' p below.
Proof.
  intros Hb [(o & Ho & Hc) Hl]. split.
  - exists o. split; [|done]. cbn. by apply lookup_app_l_Some.
  - intros j o' Hj Ho'. destruct (lookup_enqueue j o' Ho') as [[Ho'' _]|[-> _]]; [by eapply Hl | lia].
Qed.

Lemma tail_enqueue conv' :
  queue_ok q ->
  match conversationOperations (enqueue conv q) !! conv' with
  | None => all_settled (enqueue conv q) conv' (length (queued (enqueue conv q)))
  | Some p => last_of (enqueue conv q) conv' p (length (queued (enqueue conv q)))
  end.
Proof.
  intros [Ht _ _ _]. cbn [enqueue conversationOperations]. rewrite jm_lookup_set, length_enqueue. case_decide as Hc.
  - subst conv'. split; [eexists; split; [cbn; by apply list_lookup_middle | done]|]. intros j o Hj Ho. lia.
  - specialize (Ht conv'). destruct (_ !! conv') as [p|].
    + destruct Ht as [Hex Hl]. destruct (last_of_enqueue conv' p (length (queued q)) ltac:(lia) (conj Hex Hl)) as [Hex' _]. split; [done|].
      intros j o Hj Ho. destruct (lookup_enqueue j o Ho) as [[Ho' ?]|[-> ->]]; [|cbn; congruence]. apply (Hl j o); [lia|done].
    + intros j o Hj Ho Hco. destruct (lookup_enqueue j o Ho) as [[Ho' ?]|[-> ->]]; [|cbn in Hco; congruence]. by apply (Ht j o).
Qed.

Lemma queue_ok_enqueue : queue_ok q -> queue_ok (enqueue conv q).
Proof.
  intros Hok. pose proof Hok as [Ht Hp Hs Hl]. split; [intros; by apply tail_enqueue|..].
  - intros j o Ho. destruct (lookup_enqueue j o Ho) as [[Ho' Hlt]|[-> ->]].
    + specialize (Hp j o Ho'). destruct (predecessor o); [destruct Hp; split; [done | apply last_of_enqueue; [lia | done]] | apply all_settled_enqueue; [lia | done]].
    + cbn. specialize (Ht conv). destruct (_ !! conv) as [p|]; [|by apply all_settled_enqueue]. split; [|by apply last_of_enqueue].
      destruct Ht as [(o & Ho2 & _) _]. by eapply lookup_lt_Some.
  - intros j o Ho Hw. destruct (lookup_enqueue j o Ho) as [[Ho' Hlt]|[-> ->]]; [|done]. apply all_settled_enqueue; [lia | by apply Hs].
  - intros conv' p o Htail Ho. cbn [enqueue conversationOperations] in Htail. rewrite jm_lookup_set in Htail.
    destruct (lookup_enqueue p o Ho) as [[Ho' Hlt]|[-> ->]]; [|done]. case_decide; [injection Htail as <-; lia | by eapply Hl].
Qed.
End enqueue.

Lemma queue_ok_finally i o q : queue_ok q -> queued q !! i = Some o -> q_state o = settled_ -> queue_ok (finally i o q).
Proof.
  intros Hok Hi Hst. unfold finally. cbn [set_op conversationOperations queued]. case_decide as Htail.
  2:{ apply queue_ok_set; [done..|auto| |done]. intros _. apply Hok; [done | congruence]. }
  pose proof Hok as [Ht Hp Hs Hl]. split.
  - intros conv. cbn [conversationOperations queued]. rewrite jm_lookup_delete, length_insert. specialize (Ht conv). case_decide as Hc.
    + subst conv. rewrite Htail in Ht. destruct Ht as [_ Hlast]. apply (all_settled_set i cleaned o q); [done|auto|].
      intros j o' Hj Ho' Hco. destruct (decide (j < i)%nat) as [Hji|Hji]; [apply (Hs i o Hi ltac:(congruence) j o'); done|].
      destruct (decide (j = i)) as [->|Hne]; [left; congruence | exfalso; apply (Hlast j o'); [lia|done..]].
    + destruct (_ !! conv); [by apply (last_of_set i cleaned o q) | apply (all_settled_set i cleaned o q); auto].
  - intros j o' Hj. destruct (lookup_set i cleaned o q j o' Hi Hj) as (o0 & Ho0 & -> & -> & _). specialize (Hp j o0 Ho0).
    destruct (predecessor o0); [destruct Hp; split; [done | by apply (last_of_set i cleaned o q)] | apply (all_settled_set i cleaned o q); auto].
  - intros j o' Hj Hw. destruct (lookup_set i cleaned o q j o' Hi Hj) as (o0 & Ho0 & Hc & _ & [[_ ->]|(-> & -> & Hs')]).
    + apply (all_settled_set i cleaned o q); auto.
    + rewrite Hc. apply (all_settled_set i cleaned o q); auto. apply Hs; [done | congruence].
  - intros conv p o' Hp' Hj. cbn [conversationOperations] in Hp'. rewrite jm_lookup_delete in Hp'. case_decide as Hc; [done|].
    destruct (lookup_set i cleaned o q p o' Hi Hj) as (o0 & Ho0 & _ & _ & [[_ ->]|(-> & -> & _)]); [by eapply Hl|].
    exfalso. specialize (Ht conv). rewrite Hp' in Ht. destruct Ht as [(o1 & Ho1 & Hc1) _]. congruence.
Qed.

Lemma queue_ok_step q q' : queue_ok q -> queue_step q q' -> queue_ok q'.
Proof.
  intros Hok Hstep. destruct Hstep as [conv q|i o q Hi Hw Hpre|i o q Hi Hr|i o q Hi Hst].
  - by apply queue_ok_enqueue.
  - apply queue_ok_set; [done..| |by intros _; apply started_after|done]. intros [He|He]; congruence.
  - apply queue_ok_set; [done..|auto| |done]. intros _. apply Hok; [done | congruence].
  - by apply queue_ok_finally.
Qed.

Lemma queue_ok_reachable q : rtc queue_step empty_queue q -> queue_ok q.
Proof.
  intros Hr. remember empty_queue as q0 eqn:Hq0. assert (Hok : queue_ok q0).
  { subst. split; [intros conv j o _ Hj; done | intros i o Hi; done | intros i o Hi; done | intros conv p o Hp; done]. }
  clear Hq0. induction Hr as [q|q1 q2 q3 Hs Hr IH]; [done|]. apply IH. by eapply queue_ok_step.
Qed.

(** The first operation of a conversation that has not settled. *)
Lemma first_unsettled q conv i o :
  queued q !! i = Some o -> q_conv o = conv -> ~ is_settled o ->
  exists j o', (j <= i)%nat /\ queued q !! j = Some o' /\ q_conv o' = conv /\ ~ is_settled o' /\ all_settled q conv j.
Proof.
  revert o. induction (lt_wf i) as [i _ IH]. intros o Hi Hc Hs.
  destruct (decide (Exists (fun jo : nat * QueuedOp => q_conv jo.2 = conv /\ ~ (q_state jo.2 = settled_ \/ q_state jo.2 = cleaned))
              (zip (seq 0 i) (take i (queued q))))) as [He|He].
  - apply Exists_exists in He as ([j o'] & Hin & Hc' & Hs'). cbn [snd] in *. apply list_elem_of_lookup in Hin as [k Hk].
    apply lookup_zip_with_Some in Hk as (j' & o1 & Heq & Hj & Ho). injection Heq as -> ->. apply lookup_seq in Hj as [-> Hlt].
    rewrite lookup_take_lt in Ho by lia. destruct (IH (0 + k)%nat ltac:(lia) o1 Ho Hc' Hs') as (j & o2 & Hle & Hrest).
    exists j, o2. split; [lia | done].
  - exists i, o. split; [lia|]. split_and!; try done. intros j o' Hj Ho Hc'. unfold is_settled.
    destruct (decide (q_state o' = settled_ \/ q_state o' = cleaned)) as [|Hn]; [done|]. destruct He. apply Exists_exists.
    exists (j, o'). split; [|done]. apply list_elem_of_lookup. exists j. apply lookup_zip_with_Some. exists j, o'. split; [done|].
    rewrite lookup_take_lt by lia. split; [|done]. apply lookup_seq. lia.
Qed.

(** C33: the operations of a conversation are serialised. In every reachable state of the
    queue, under every interleaving of calls, starts, settlements and clean-ups over all
    conversations: when an operation has started, all earlier ones of its conversation
    have settled, so no two run at once and they run in the order of their calls; as long
    as one has not settled, one of them runs or can start; and when all are cleaned up, the
    map holds no entry for the conversation. *)
Theorem operations_serialised q :
  rtc queue_step empty_queue q ->
  (forall i o j o', queued q !! i = Some o -> q_state o <> waiting -> (j < i)%nat -> queued q !! j = Some o' -> q_conv o' = q_conv o ->
     q_state o' = settled_ \/ q_state o' = cleaned)
  /\ (forall i j o o', queued q !! i = Some o -> queued q !! j = Some o' -> q_state o = running -> q_state o' = running ->
        q_conv o = q_conv o' -> i = j)
  /\ (forall i o, queued q !! i = Some o -> ~ (q_state o = settled_ \/ q_state o = cleaned) ->
        exists j o', queued q !! j = Some o' /\ q_conv o' = q_conv o
          /\ (q_state o' = running \/ queue_step q (set_op j running o' q)))
  /\ forall conv, (forall i o, queued q !! i = Some o -> q_conv o = conv -> q_state o = cleaned) -> conversationOperations q !! conv = None.
Proof.
  intros Hr. apply queue_ok_reachable in Hr as [Ht Hp Hs Hl].
  assert (Hord : forall i o j o', queued q !! i = Some o -> q_state o <> waiting -> (j < i)%nat -> queued q !! j = Some o' -> q_conv o' = q_conv o -> is_settled o')
    by (intros i o j o' Hi Hw Hj Ho' Hc; by apply (Hs i o Hi Hw j o')).
  split; [done|]. split; [|split].
  - intros i j o o' Hi Hj Hri Hrj Hc. destruct (Nat.lt_trichotomy i j) as [Hlt|[->|Hlt]]; [|done|]; exfalso.
    + destruct (Hord j o' i o) as [He|He]; congruence.
    + destruct (Hord i o j o') as [He|He]; congruence.
  - intros i o Hi Hn. destruct (first_unsettled q (q_conv o) i o Hi eq_refl Hn) as (j & o' & _ & Hj & Hc & Hu & Hall).
    exists j, o'. split; [done|]. split; [done|]. destruct (q_state o') eqn:Hst; [right|by left|destruct Hu; by left|destruct Hu; by right].
    apply step_start; [done..|]. unfold predecessor_settled. specialize (Hp j o' Hj). destruct (predecessor o') as [p|]; [|done].
    destruct Hp as (Hlt & (o1 & Ho1 & Hc1) & _). exists o1. split; [done|]. apply (Hall p o1); [done..|congruence].
  - intros conv Hall. specialize (Ht conv). destruct (_ !! conv) as [p|] eqn:Hp'; [|done]. exfalso.
    destruct Ht as [(o & Ho & Hc) _]. by apply (Hl conv p o Hp' Ho), (Hall p o Ho).
Qed.

(** ** Witnesses *)
Module ChatDemo.
#[local] Instance locale : Locale := {| Date_parse := fun _ => None; localeCompare := fun a b => Z.pos (encode a) - Z.pos (encode b) |}.

#[local] Instance locale_laws : LocaleLaws.
Proof. split; cbn; lia. Defined.

(** A repository that is a map. *)
#[local] Instance map_repository V : Repository (jsmap V) V :=
  {| readValue := fun k s => s !! k; repo_write := fun k v s => Ok (<[k := v]> s); repo_remove := fun k s => delete k s |}.

#[local] Program Instance map_repository_laws V : RepositoryLaws (jsmap V) V := {| usable := fun _ => True |}.
Next Obligation. done. Qed.
Next Obligation. done. Qed.
Next Obligation. intros V k v s s' _ [= <-]. apply jm_lookup_set_eq. Qed.
Next Obligation. intros V k k' v s s' _ [= <-] Hne. left. by apply jm_lookup_set_ne. Qed.
Next Obligation. intros V k s _. apply jm_lookup_delete_eq. Qed.
Next Obligation. intros V k k' s _ Hne. left. by apply jm_lookup_delete_ne. Qed.

Definition message (id : string) (seq : Z) : CachedAgentMessage :=
  {| messageId := id; conversationId := "c"; turnId := None; modelName := None; role := user; status := None; content := id; seq_ := seq;
     branchId := None; replacesMessageId := None; reasoningJson := None; toolCallsJson := None; metadataJson := None; errorJson := None;
     attachments := None; reconciliationSource := None; createdAt := ""; updatedAt := "" |}.

Definition DemoCache : Type :=
  Cache (SM := jsmap (jsmap (list CachedAgentMessage))) (SE := jsmap (jsmap (list CachedAgentTurnEvent))) (SC := jsmap Z)
        (SV := jsmap (jsmap CachedAgentConversation)).

Definition empty_cache : DemoCache := {| messageRepo := ∅; turnEventRepo := ∅; cursorRepo := ∅; conversationRepo := ∅ |}.

Lemma empty_kept : well_kept "c" empty_cache.
Proof. split; [done | constructor]. Defined.

Definition station : list CachedAgentMessage := [message "a" 1; message "b" 2].

(** A station that answers with all messages after the cursor. *)
Definition fetch_all : Fetcher := fun _ _ since =>
  Ok {| page_messages := filter (fun m => since < seq_ m) station; page_turnEvents := None; page_nextCursor := None; page_hasMore := None |}.

Lemma fetch_all_honest : honest station fetch_all "c".
Proof. intros n since page [= <-] x Hx [Hlt _]. by apply list_elem_of_filter. Defined.

Lemma mergeAgentMessages_correct_witness :
  NoDup (ids (mergeAgentMessages [message "b" 2; message "a" 1] [message "a" 0])).
Proof.
  apply (proj1 (proj1 (mergeAgentMessages_correct [message "b" 2; message "a" 1] [message "a" 0] ltac:(by_computation)))).
Defined.

Lemma syncConversation_correct_witness :
  exists c' ms, syncConversation fetch_all "c" empty_cache = (c', Ok ms) /\ ms = station
    /\ (forall x, x ∈ station -> exists m, m ∈ ms /\ at_least x m).
Proof.
  destruct (syncConversation fetch_all "c" empty_cache) as [c' r] eqn:Hs. pose proof Hs as Hs2. vm_compute in Hs2.
  assert (Hr : r = Ok station) by (by injection Hs2 as <- <-). subst r.
  exists c', station. split; [reflexivity|]. split; [reflexivity|].
  apply (proj2 (proj2 (syncConversation_correct station fetch_all "c" empty_cache c' (Ok station) empty_kept fetch_all_honest Hs))
           station {| page_messages := station; page_turnEvents := None; page_nextCursor := None; page_hasMore := None |});
    [reflexivity | reflexivity | | ].
  - intros x Hx _. exact Hx.
  - intros x Hx Hle. change (cursor "c" empty_cache) with 0 in Hle. exfalso. unfold station in Hx.
    apply elem_of_cons in Hx as [->|[->|[]%elem_of_nil]%elem_of_cons]; cbn in Hle; lia.
Defined.

Lemma upsertMessage_correct_witness :
  exists c', upsertMessage (message "a" 1) empty_cache = (c', Ok tt) /\ seq_ (message "a" 1) <= cursor "c" c'.
Proof.
  destruct (upsertMessage (message "a" 1) empty_cache) as [c' r] eqn:Hs. pose proof Hs as Hs2. vm_compute in Hs2.
  assert (Hr : r = Ok tt) by (by injection Hs2 as <- <-). subst r. exists c'. split; [reflexivity|].
  exact (proj2 (proj1 (proj2 (upsertMessage_correct station (message "a" 1) empty_cache c' (Ok tt) empty_kept Hs)) eq_refl)).
Defined.

(** Storing the newest message alone moves the cursor past the others: no later
    synchronisation asks for them. *)
Example upsert_leaves_gap :
  let c := (upsertMessage (message "b" 2) empty_cache).1 in
  cursor "c" c = 2 /\ (syncConversation fetch_all "c" c).2 = Ok [message "b" 2] /\ message "a" 1 ∈ station.
Proof. split; [reflexivity|]. split; [vm_compute; reflexivity|]. left. Qed.

Lemma refreshConversation_correct_witness :
  well_kept "c" empty_cache /\ exists c' r enough, forall fuel, (enough <= fuel)%nat -> refreshConversation fuel fetch_all "c" empty_cache = Some (c', r).
Proof.
  split; [exact empty_kept|].
  destruct (refreshConversation_correct fetch_all "c" empty_cache empty_kept) as (c' & r & enough & Hrun & _).
  exists c', r, enough. exact Hrun.
Defined.

Lemma operations_serialised_witness :
  let q := enqueue "c" (enqueue "c" empty_queue) in
  rtc queue_step empty_queue q /\ exists j o', queued q !! j = Some o' /\ q_conv o' = "c"%string.
Proof.
  assert (Hr : rtc queue_step empty_queue (enqueue "c" (enqueue "c" empty_queue))).
  { eapply rtc_l; [apply step_call|]. eapply rtc_l; [apply step_call|]. apply rtc_refl. }
  split; [exact Hr|].
  destruct (proj1 (proj2 (proj2 (operations_serialised _ Hr))) 1%nat
              {| q_conv := "c"; predecessor := Some 0%nat; q_state := waiting |} eq_refl ltac:(intros [?|?]; discriminate)) as (j & o' & Hj & Hc & _).
  exists j, o'. split; [exact Hj | exact Hc].
Defined.
End ChatDemo.
