(* ===== verification/ChatStorage.v ===== *)
(** * The chat storage projection

    Models [packages/client-chat-core/src/chatStorageProjection.ts] and [storageBatch.ts]:
    the projection of a device's chat storage, measured, cleaned and swept by asynchronous
    requests that a change of scope overtakes. A request is split where the code awaits:
    its call, the handler of its answer, and its [finally]. The ports are parameters; those
    about the scope are one current scope, which [captureScope] returns and
    [isCurrentScope] compares with. The scope of the ports changes in one step and is
    published to the listeners of [subscribeScope] in another: the messaging runtime has work
    to do between the two. *)
From Stdlib Require Import Ascii Lia ZArith.
From stdpp Require Import base numbers strings list sets pretty.
From S2P Require Import Prelude JsString TextCodec.

(** ** Identities, snapshots and results *)
Record ChatStorageScopeIdentity : Set := {
  stationPeerId : string; actorPtid : string; deviceId : string; activationGeneration : Z
}.

Record SnapshotScope : Set := { ss_stationPeerId : option string; ss_actorPtid : option string; ss_deviceId : option string }.

(** Further fields are references. *)
Record Snapshot : Set := { revision : option string; snapshot_scope : option SnapshotScope; snapshot_rest : nat }.

Record Operation : Set := {
  scopeRevision : option string; operation_scope : option SnapshotScope;
  physicalBytesBefore : option Z; physicalBytesAfter : option Z
}.

(** [r_error]: a truthy error, with its message when it has one. *)
Record Result : Set := { r_snapshot : option Snapshot; r_operation : option Operation; r_error : option (option string) }.

#[export] Instance SnapshotScope_eq_dec : EqDecision SnapshotScope.
Proof. solve_decision. Defined.
#[export] Instance Snapshot_eq_dec : EqDecision Snapshot.
Proof. solve_decision. Defined.

Definition unit_separator : string := String (ascii_of_nat 31) "".

Definition chatStorageScopeRevision (scope : ChatStorageScopeIdentity) : string :=
  join unit_separator [stationPeerId scope; actorPtid scope; deviceId scope; pretty (activationGeneration scope)].

Definition scope_matches (scope : ChatStorageScopeIdentity) (s : option SnapshotScope) : bool :=
  match s with
  | None => false
  | Some s => bool_decide (ss_stationPeerId s = Some (stationPeerId scope)) && bool_decide (ss_actorPtid s = Some (actorPtid scope))
              && bool_decide (ss_deviceId s = Some (deviceId scope))
  end.

Definition chatStorageSnapshotMatches (scope : ChatStorageScopeIdentity) (snapshot : Snapshot) : bool :=
  bool_decide (revision snapshot = Some (chatStorageScopeRevision scope)) && scope_matches scope (snapshot_scope snapshot).

Definition chatStorageResultMatches (scope : ChatStorageScopeIdentity) (result : Result) : bool :=
  let operationMatches :=
    match r_operation result with
    | None => bool_decide (is_Some (r_error result))
    | Some operation => bool_decide (scopeRevision operation = Some (chatStorageScopeRevision scope)) && scope_matches scope (operation_scope operation)
    end in
  match r_snapshot result with
  | None => false
  | Some snapshot => chatStorageSnapshotMatches scope snapshot && operationMatches
  end.

Definition chatStorageReleasedBytes (result : option Result) : option Z :=
  match result ≫= r_operation with
  | Some {| physicalBytesBefore := Some before; physicalBytesAfter := Some after |} =>
      Some (if after <? before then before - after else 0)
  | _ => None
  end.

Definition resultErrorMessage (result : Result) (fallback : string) : string :=
  match r_error result with
  | Some (Some message) => if truthy message then message else fallback
  | _ => fallback
  end.

(** ** The projection *)
Inductive ActivityStatus : Set := activity_idle | activity_running | activity_succeeded | activity_failed.

Record Activity : Set := { a_status : ActivityStatus; a_result : option Result; a_error : option string }.

Inductive ProjectionStatus : Set := idle | measuring | ready | stale_ | unavailable.

Record Projection : Set := {
  status : ProjectionStatus; snapshot : option Snapshot; stale : bool; error : option string;
  cleanup : Activity; retention : Activity
}.

Definition idle_activity : Activity := {| a_status := activity_idle; a_result := None; a_error := None |}.
Definition running_activity : Activity := {| a_status := activity_running; a_result := None; a_error := None |}.
Definition failed_activity (message : string) : Activity := {| a_status := activity_failed; a_result := None; a_error := Some message |}.

Definition idleChatStorageProjection : Projection :=
  {| status := idle; snapshot := None; stale := false; error := None; cleanup := idle_activity; retention := idle_activity |}.

Definition with_cleanup (a : Activity) (p : Projection) : Projection :=
  {| status := status p; snapshot := snapshot p; stale := stale p; error := error p; cleanup := a; retention := retention p |}.
Definition with_retention (a : Activity) (p : Projection) : Projection :=
  {| status := status p; snapshot := snapshot p; stale := stale p; error := error p; cleanup := cleanup p; retention := a |}.
Definition with_status (st : ProjectionStatus) (s : option Snapshot) (stale : bool) (e : option string) (p : Projection) : Projection :=
  {| status := st; snapshot := s; stale := stale; error := e; cleanup := cleanup p; retention := retention p |}.

Record Messages : Set := {
  staleCleanup : string; cleanupIncomplete : string; staleRetention : string; retentionIncomplete : string;
  staleConversationCleanup : string; acceptanceUnavailable : string; acceptanceAmbiguous : string
}.

(** The ports that do not wait. *)
Class Ports (Scope Retention : Type) := {
  scopeIdentity : Scope -> ChatStorageScopeIdentity;
  retentionPreset : Snapshot -> option Retention;
  retentionIsForever : Retention -> bool;
  operationSucceeded : Result -> bool;
  messages : Messages;
  retentionSweepIntervalMs : option Z
}.

Definition DEFAULT_RETENTION_SWEEP_INTERVAL_MS : Z := 24 * 60 * 60000.

Record Scenario : Set := { delayMs : Z; failureConversationId : option string; scopeChangeConversationId : option string }.

Section runtime.
Context {Scope Retention : Type} `{EqDecision Scope} `{Ports Scope Retention}.

(** A request on its way, with what its handlers captured. *)
Inductive Request : Type :=
| req_refresh (scope : Scope) (previous : option Snapshot)
| req_cleanup (scope : Scope)
| req_retention (scope : Scope) (r : Retention)
| req_conversation (scope : Scope) (conversationId : string).

(** [current] is the scope of the ports; [requests] holds the unanswered requests by number,
    and [log] the published projections, the last one first. *)
Record Runtime : Type := {
  projection : Projection;
  log : list Projection;
  installed : bool;
  inFlight : option (string * nat);
  cleanupInFlight : option (string * nat);
  retentionInFlight : option (string * nat);
  conversationClearInFlight : option (string * string * nat);
  batchAcceptanceScenario : option Scenario;
  lastRetentionSweepAtUnixMs : Z;
  requests : list (nat * Request);
  next_request : nat;
  current : option Scope
}.

Definition new_runtime (scope : option Scope) : Runtime := {|
  projection := idleChatStorageProjection; log := []; installed := false; inFlight := None; cleanupInFlight := None;
  retentionInFlight := None; conversationClearInFlight := None; batchAcceptanceScenario := None; lastRetentionSweepAtUnixMs := 0;
  requests := []; next_request := 0; current := scope |}.

Definition publish (p : Projection) (r : Runtime) : Runtime := {|
  projection := p; log := p :: log r; installed := installed r; inFlight := inFlight r; cleanupInFlight := cleanupInFlight r;
  retentionInFlight := retentionInFlight r; conversationClearInFlight := conversationClearInFlight r;
  batchAcceptanceScenario := batchAcceptanceScenario r; lastRetentionSweepAtUnixMs := lastRetentionSweepAtUnixMs r;
  requests := requests r; next_request := next_request r; current := current r |}.

Definition set_slots (a b c : option (string * nat)) (d : option (string * string * nat)) (r : Runtime) : Runtime := {|
  projection := projection r; log := log r; installed := installed r; inFlight := a; cleanupInFlight := b;
  retentionInFlight := c; conversationClearInFlight := d;
  batchAcceptanceScenario := batchAcceptanceScenario r; lastRetentionSweepAtUnixMs := lastRetentionSweepAtUnixMs r;
  requests := requests r; next_request := next_request r; current := current r |}.

Definition set_base (inst : bool) (scenario : option Scenario) (sweep : Z) (cur : option Scope) (r : Runtime) : Runtime := {|
  projection := projection r; log := log r; installed := inst; inFlight := inFlight r; cleanupInFlight := cleanupInFlight r;
  retentionInFlight := retentionInFlight r; conversationClearInFlight := conversationClearInFlight r;
  batchAcceptanceScenario := scenario; lastRetentionSweepAtUnixMs := sweep;
  requests := requests r; next_request := next_request r; current := cur |}.

Definition set_requests (l : list (nat * Request)) (n : nat) (r : Runtime) : Runtime := {|
  projection := projection r; log := log r; installed := installed r; inFlight := inFlight r; cleanupInFlight := cleanupInFlight r;
  retentionInFlight := retentionInFlight r; conversationClearInFlight := conversationClearInFlight r;
  batchAcceptanceScenario := batchAcceptanceScenario r; lastRetentionSweepAtUnixMs := lastRetentionSweepAtUnixMs r;
  requests := l; next_request := n; current := current r |}.

Definition sweep_at (t : Z) (r : Runtime) : Runtime := set_base (installed r) (batchAcceptanceScenario r) t (current r) r.

Definition send (req : Request) (r : Runtime) : Runtime := set_requests (requests r ++ [(next_request r, req)]) (S (next_request r)) r.

Definition isCurrentScope (scope : Scope) (r : Runtime) : bool := bool_decide (current r = Some scope).

Definition revision_of (scope : Scope) : string := chatStorageScopeRevision (scopeIdentity scope).

(** A request of this revision is on its way already. *)
Definition same_revision (slot : option (string * nat)) (rev : string) : bool :=
  match slot with Some (rev', _) => bool_decide (rev' = rev) | None => false end.

(** ** Calls *)
Definition refresh (r : Runtime) : Runtime :=
  match current r with
  | None => publish idleChatStorageProjection r
  | Some scope =>
      let rev := revision_of scope in
      if same_revision (inFlight r) rev then r
      else
        let previous := snapshot (projection r) ≫= (fun s => if bool_decide (revision s = Some rev) then Some s else None) in
        let r := publish (with_status measuring previous (bool_decide (is_Some previous)) None (projection r)) r in
        let id := next_request r in
        set_slots (Some (rev, id)) (cleanupInFlight r) (retentionInFlight r) (conversationClearInFlight r)
          (send (req_refresh scope previous) r)
  end.

Definition clearCache (r : Runtime) : Runtime :=
  match current r with
  | None => r
  | Some scope =>
      let rev := revision_of scope in
      if same_revision (cleanupInFlight r) rev then r
      else
        let r := publish (with_cleanup running_activity (projection r)) r in
        let id := next_request r in
        set_slots (inFlight r) (Some (rev, id)) (retentionInFlight r) (conversationClearInFlight r) (send (req_cleanup scope) r)
  end.

Definition setRetention (preset : Retention) (r : Runtime) : Runtime :=
  match current r with
  | None => r
  | Some scope =>
      let rev := revision_of scope in
      if same_revision (retentionInFlight r) rev then r
      else
        let r := publish (with_retention running_activity (projection r)) r in
        let id := next_request r in
        set_slots (inFlight r) (cleanupInFlight r) (Some (rev, id)) (conversationClearInFlight r) (send (req_retention scope preset) r)
  end.

Definition clearConversation (conversationId : string) (r : Runtime) : Runtime :=
  match current r with
  | None => r
  | Some scope =>
      let rev := revision_of scope in
      if bool_decide (trim (T conversationId) = []) then r
      else if match conversationClearInFlight r with
              | Some (rev', conv, _) => bool_decide (rev' = rev) && bool_decide (conv = conversationId)
              | None => false
              end
      then r
      else
        let id := next_request r in
        set_slots (inFlight r) (cleanupInFlight r) (retentionInFlight r) (Some (rev, conversationId, id))
          (send (req_conversation scope conversationId) r)
  end.

(** What [reconcile] does after its refresh has settled. *)
Definition reconcile_resume (now : Z) (r : Runtime) : Runtime :=
  match snapshot (projection r) ≫= retentionPreset with
  | None => r
  | Some preset =>
      if negb (retentionIsForever preset)
         && match status (projection r) with ready => true | _ => false end
         && match a_status (retention (projection r)) with activity_running => false | _ => true end
         && (default DEFAULT_RETENTION_SWEEP_INTERVAL_MS retentionSweepIntervalMs <=? now - lastRetentionSweepAtUnixMs r)
      then setRetention preset r else r
  end.

(** The listener [install] registers. *)
Definition scope_listener (scope : option Scope) (r : Runtime) : Runtime :=
  let r := publish idleChatStorageProjection (sweep_at 0 r) in
  match scope with Some _ => refresh r | None => r end.

Definition install (r : Runtime) : Runtime :=
  if installed r then r else set_base true (batchAcceptanceScenario r) (lastRetentionSweepAtUnixMs r) (current r) r.

Definition teardown (r : Runtime) : Runtime :=
  publish idleChatStorageProjection (set_base false None 0 (current r) (set_slots None None None None r)).

(** The first part of [bootstrap]; the rest is [reconcile_resume]. *)
Definition bootstrap (active : bool) (r : Runtime) : Runtime :=
  let r := publish idleChatStorageProjection r in if active then refresh r else r.

(** ** Answers *)
Definition answer_refresh (scope : Scope) (previous : option Snapshot) (answer : result Snapshot) (r : Runtime) : Runtime :=
  match answer with
  | Ok s =>
      if isCurrentScope scope r && chatStorageSnapshotMatches (scopeIdentity scope) s
      then publish (with_status ready (Some s) false None (projection r)) r else r
  | Err message =>
      if negb (isCurrentScope scope r) then r
      else match previous with
           | Some s => publish (with_status stale_ (Some s) true (Some message) (projection r)) r
           | None => publish (with_status unavailable None false (Some message) (projection r)) r
           end
  end.

Definition done_activity (result : Result) (incomplete : string) : Activity :=
  let succeeded := operationSucceeded result in
  {| a_status := if succeeded then activity_succeeded else activity_failed; a_result := Some result;
     a_error := if succeeded then None else Some (resultErrorMessage result incomplete) |}.

Definition answer_cleanup (scope : Scope) (answer : result Result) (r : Runtime) : Runtime :=
  if negb (isCurrentScope scope r) then r
  else match answer with
       | Ok result =>
           if negb (chatStorageResultMatches (scopeIdentity scope) result)
           then publish (with_cleanup (failed_activity (staleCleanup messages)) (projection r)) r
           else publish (with_cleanup (done_activity result (cleanupIncomplete messages))
                           (with_status ready (r_snapshot result) false None (projection r))) r
       | Err message => publish (with_cleanup (failed_activity message) (projection r)) r
       end.

Definition answer_retention (now : Z) (scope : Scope) (answer : result Result) (r : Runtime) : Runtime :=
  if negb (isCurrentScope scope r) then r
  else match answer with
       | Ok result =>
           if negb (chatStorageResultMatches (scopeIdentity scope) result)
           then publish (with_retention (failed_activity (staleRetention messages)) (projection r)) r
           else
             let r := if operationSucceeded result then sweep_at now r else r in
             publish (with_retention (done_activity result (retentionIncomplete messages))
                        (with_status ready (r_snapshot result) false None (projection r))) r
       | Err message => publish (with_retention (failed_activity message) (projection r)) r
       end.

(** The value of the promise of [clearConversation] and what it leaves. *)
Definition answer_conversation (scope : Scope) (answer : result Result) (r : Runtime) : Runtime * result (option Result) :=
  match answer with
  | Err message => (r, Err message)
  | Ok result =>
      if negb (isCurrentScope scope r) then (r, Ok None)
      else if negb (chatStorageResultMatches (scopeIdentity scope) result) then (r, Err (staleConversationCleanup messages))
      else (match r_snapshot result with
            | Some s => publish (with_status ready (Some s) false None (projection r)) r
            | None => r
            end, Ok (Some result))
  end.

Fixpoint take_request (id : nat) (l : list (nat * Request)) : option (Request * list (nat * Request)) :=
  match l with
  | [] => None
  | (id', req) :: l =>
      if decide (id' = id) then Some (req, l)
      else match take_request id l with Some (found, rest) => Some (found, (id', req) :: rest) | None => None end
  end.

(** An answer of the device: a snapshot for a refresh, a result for the others. *)
Inductive Answer : Type := answer_snapshot (a : result Snapshot) | answer_result (a : result Result).

Definition answer (now : Z) (id : nat) (a : Answer) (r : Runtime) : Runtime :=
  match take_request id (requests r) with
  | None => r
  | Some (req, rest) =>
      let r' := set_requests rest (next_request r) r in
      match req, a with
      | req_refresh scope previous, answer_snapshot a => answer_refresh scope previous a r'
      | req_cleanup scope, answer_result a => answer_cleanup scope a r'
      | req_retention scope _, answer_result a => answer_retention now scope a r'
      | req_conversation scope _, answer_result a => (answer_conversation scope a r').1
      | _, _ => r
      end
  end.

Definition release (id : nat) (slot : option (string * nat)) : option (string * nat) :=
  match slot with Some (_, id') => if decide (id' = id) then None else slot | None => None end.

(** The [finally] of a request. *)
Definition settle (id : nat) (r : Runtime) : Runtime :=
  set_slots (release id (inFlight r)) (release id (cleanupInFlight r)) (release id (retentionInFlight r))
    (match conversationClearInFlight r with
     | Some (_, _, id') => if decide (id' = id) then None else conversationClearInFlight r
     | None => None
     end) r.

(** The scope of the ports changes: what [captureScope] returns and [isCurrentScope]
    compares with. Nobody is told yet. *)
Definition scope_changes (scope : option Scope) (r : Runtime) : Runtime :=
  set_base (installed r) (batchAcceptanceScenario r) (lastRetentionSweepAtUnixMs r) scope r.

(** The ports publish the scope they have: a runtime that is installed hears of it. *)
Definition scope_published (r : Runtime) : Runtime := if installed r then scope_listener (current r) r else r.

Definition configureAcceptanceBatchScenario (enabled : bool) (scenario : option Scenario) (r : Runtime) : result Runtime :=
  let set s := Ok (set_base (installed r) s (lastRetentionSweepAtUnixMs r) (current r) r) in
  if negb enabled then Err (acceptanceUnavailable messages)
  else match scenario with
       | None => set None
       | Some s =>
           let clean o := o ≫= (fun v => let t := trim (T v) in if bool_decide (t = []) then None else Some (String.string_of_list_ascii t)) in
           match clean (failureConversationId s), clean (scopeChangeConversationId s) with
           | Some _, Some _ => Err (acceptanceAmbiguous messages)
           | f, c => set (Some {| delayMs := Z.max 0 (Z.min 2000 (delayMs s)); failureConversationId := f; scopeChangeConversationId := c |})
           end
       end.

Inductive Event : Type :=
| ev_refresh | ev_clearCache | ev_setRetention (preset : Retention) | ev_clearConversation (conversationId : string)
| ev_reconcile_resume (now : Z) | ev_answer (now : Z) (id : nat) (a : Answer) | ev_settle (id : nat)
| ev_scope (scope : option Scope) | ev_published | ev_bootstrap (active : bool) | ev_install | ev_teardown.

Definition handle (e : Event) (r : Runtime) : Runtime :=
  match e with
  | ev_refresh => refresh r
  | ev_clearCache => clearCache r
  | ev_setRetention preset => setRetention preset r
  | ev_clearConversation id => clearConversation id r
  | ev_reconcile_resume now => reconcile_resume now r
  | ev_answer now id a => answer now id a r
  | ev_settle id => settle id r
  | ev_scope scope => scope_changes scope r
  | ev_published => scope_published r
  | ev_bootstrap active => bootstrap active r
  | ev_install => install r
  | ev_teardown => teardown r
  end.

Definition handle_all (events : list Event) (r : Runtime) : Runtime := fold_left (fun r e => handle e r) events r.
End runtime.

(** ** Clearing a batch of conversations *)
Inductive ItemState : Set := item_succeeded | item_failed | item_scope_changed.

Record ItemResult : Set := { state : ItemState; releasedBytes : option Z }.

Inductive BatchStatus : Set := batch_succeeded | batch_partial_failure | batch_scope_changed.

Record BatchResult : Set := {
  batch_status : BatchStatus; requestedIds : list string; succeededIds : list string; failedIds : list string;
  remainingIds : list string; completedCount : Z; batch_releasedBytes : Z
}.

(** [onProgress] calls: completed, total, id. *)
Definition BatchProgress : Set := (Z * Z * string)%type.

Definition requested (conversationIds : list string) : list string :=
  js_set_of (filter (fun id => id <> ""%string) ((fun id => String.string_of_list_ascii (trim (T id))) <$> conversationIds)).

(** The loop; [clear] answers in turn, a rejection counts as a failure. *)
Fixpoint batch_loop (clear : string -> result ItemResult) (all rest succeeded failed : list string) (completed bytes : Z)
    (progress : list BatchProgress) : BatchResult * list BatchProgress :=
  match rest with
  | [] =>
      ({| batch_status := if decide (failed = []) then batch_succeeded else batch_partial_failure; requestedIds := all;
          succeededIds := succeeded; failedIds := failed; remainingIds := []; completedCount := completed;
          batch_releasedBytes := bytes |}, progress)
  | id :: rest' =>
      let item := match clear id with Ok item => item | Err _ => {| state := item_failed; releasedBytes := None |} end in
      let progress' := progress ++ [(completed + 1, Z.of_nat (length all), id)] in
      match state item with
      | item_scope_changed =>
          ({| batch_status := batch_scope_changed; requestedIds := all; succeededIds := succeeded; failedIds := failed;
              remainingIds := rest; completedCount := completed; batch_releasedBytes := bytes |}, progress)
      | item_succeeded =>
          let released := default 0 (releasedBytes item) in
          batch_loop clear all rest' (succeeded ++ [id]) failed (completed + 1) (if 0 <? released then bytes + released else bytes) progress'
      | item_failed => batch_loop clear all rest' succeeded (failed ++ [id]) (completed + 1) bytes progress'
      end
  end.

Definition runConversationClearBatch (conversationIds : list string) (clear : string -> result ItemResult) : BatchResult * list BatchProgress :=
  batch_loop clear (requested conversationIds) (requested conversationIds) [] [] 0 0 [].

(** The [clearConversation] that [clearConversations] passes: whether the scope is current
    before and after the request, the scenario, and the answer. *)
Definition clear_item {Scope Retention} `{Ports Scope Retention} (current_before current_after : bool) (scenario : option Scenario)
    (conversationId : string) (answer : result (option Result)) : result ItemResult * option Scenario :=
  if negb current_before then (Ok {| state := item_scope_changed; releasedBytes := None |}, scenario)
  else if bool_decide (scenario ≫= failureConversationId = Some conversationId)
  then (Ok {| state := item_failed; releasedBytes := None |}, None)
  else if bool_decide (scenario ≫= scopeChangeConversationId = Some conversationId)
  then (Ok {| state := item_scope_changed; releasedBytes := None |}, None)
  else
    match answer with
    | Err message => (Err message, scenario)
    | Ok result =>
        if negb current_after then (Ok {| state := item_scope_changed; releasedBytes := None |}, scenario)
        else match result with
             | Some res =>
                 if operationSucceeded res
                 then (Ok {| state := item_succeeded; releasedBytes := Some (default 0 (chatStorageReleasedBytes result)) |}, scenario)
                 else (Ok {| state := item_failed; releasedBytes := None |}, scenario)
             | None => (Ok {| state := item_failed; releasedBytes := None |}, scenario)
             end
    end.

(** * What the projection shows *)

(** ** A snapshot belongs to one scope *)
Lemma join_tail_inj sep (a b c d d' : string) : join sep [a; b; c; d] = join sep [a; b; c; d'] -> d = d'.
Proof. unfold join. cbn. intros Hj. by simplify_eq. Qed.

Lemma scope_matches_fields scope s :
  scope_matches scope s = true <->
  s = Some {| ss_stationPeerId := Some (stationPeerId scope); ss_actorPtid := Some (actorPtid scope); ss_deviceId := Some (deviceId scope) |}.
Proof.
  destruct s as [[a b c]|]; cbn; [|by split].
  rewrite !andb_true_iff, !bool_decide_eq_true. split; [by intros [[-> ->] ->] | by intros [= -> -> ->]].
Qed.

Lemma chatStorageSnapshotMatches_spec scope s :
  chatStorageSnapshotMatches scope s = true <->
  revision s = Some (chatStorageScopeRevision scope) /\ scope_matches scope (snapshot_scope s) = true.
Proof. unfold chatStorageSnapshotMatches. by rewrite andb_true_iff, bool_decide_eq_true. Qed.

(** The scope fields of a snapshot settle all but the generation; its revision settles that. *)
Lemma snapshot_of_one_scope a b s :
  chatStorageSnapshotMatches a s = true -> chatStorageSnapshotMatches b s = true -> a = b.
Proof.
  rewrite !chatStorageSnapshotMatches_spec, !scope_matches_fields.
  intros [Hra Ha] [Hrb Hb]. destruct a as [a1 a2 a3 a4], b as [b1 b2 b3 b4]. cbn in *.
  rewrite Ha in Hb. injection Hb as <- <- <-. rewrite Hra in Hrb. injection Hrb as Hj.
  unfold chatStorageScopeRevision in Hj. cbn [stationPeerId actorPtid deviceId activationGeneration] in Hj.
  apply join_tail_inj in Hj. by apply (inj pretty) in Hj as ->.
Qed.

Lemma result_matches_snapshot scope res :
  chatStorageResultMatches scope res = true ->
  exists s, r_snapshot res = Some s /\ chatStorageSnapshotMatches scope s = true.
Proof.
  unfold chatStorageResultMatches. destruct (r_snapshot res) as [s|]; [|done].
  intros [Hs _]%andb_true_iff. by exists s.
Qed.

Section facts.
Context {Scope Retention : Type} `{EqDecision Scope} `{Ports Scope Retention}.
Implicit Types (r : @Runtime Scope Retention) (p : Projection).

(** ** The shape of a projection *)
Definition activity_shape (a : Activity) : Prop :=
  match a_status a with
  | activity_idle | activity_running => a_result a = None /\ a_error a = None
  | activity_succeeded => is_Some (a_result a) /\ a_error a = None
  | activity_failed => is_Some (a_error a)
  end.

Definition status_shape (p : Projection) : Prop :=
  match status p with
  | idle => snapshot p = None /\ stale p = false /\ error p = None
  | measuring => stale p = bool_decide (is_Some (snapshot p)) /\ error p = None
  | ready => is_Some (snapshot p) /\ stale p = false /\ error p = None
  | stale_ => is_Some (snapshot p) /\ stale p = true /\ is_Some (error p)
  | unavailable => snapshot p = None /\ stale p = false /\ is_Some (error p)
  end.

Definition shape (p : Projection) : Prop := status_shape p /\ activity_shape (cleanup p) /\ activity_shape (retention p).

(** What the runtime shows and all it has shown has its shape. *)
Definition shown (r : @Runtime Scope Retention) : Prop := Forall shape (projection r :: log r).

Lemma shape_idle : shape idleChatStorageProjection.
Proof. by repeat split. Qed.

Lemma shown_publish p r : shape p -> shown r -> shown (publish p r).
Proof. intros Hp [_ Hl]%Forall_cons. unfold shown. cbn. rewrite !Forall_cons. by split_and!. Qed.

Lemma shown_projection r : shown r -> shape (projection r).
Proof. by intros [? _]%Forall_cons. Qed.

Lemma shape_with_cleanup a p : activity_shape a -> shape p -> shape (with_cleanup a p).
Proof. intros ? (? & ? & ?). by split_and!. Qed.
Lemma shape_with_retention a p : activity_shape a -> shape p -> shape (with_retention a p).
Proof. intros ? (? & ? & ?). by split_and!. Qed.
Lemma shape_with_status st s b e p :
  status_shape {| status := st; snapshot := s; stale := b; error := e; cleanup := idle_activity; retention := idle_activity |} ->
  shape p -> shape (with_status st s b e p).
Proof. intros ? (? & ? & ?). by split_and!. Qed.

Lemma done_activity_shape result incomplete : activity_shape (done_activity result incomplete).
Proof. unfold done_activity, activity_shape. cbn. destruct (operationSucceeded _); cbn; [split; done | done]. Qed.

Lemma failed_activity_shape m : activity_shape (failed_activity m).
Proof. by exists m. Qed.

Ltac shapes :=
  lazymatch goal with
  | |- shown (publish _ _) => apply shown_publish; shapes
  | |- shown _ => assumption
  | |- shape (with_cleanup _ _) => apply shape_with_cleanup; shapes
  | |- shape (with_retention _ _) => apply shape_with_retention; shapes
  | |- shape (with_status _ _ _ _ _) => apply shape_with_status; shapes
  | |- shape idleChatStorageProjection => apply shape_idle
  | |- shape (projection _) => by apply shown_projection
  | |- activity_shape (done_activity _ _) => apply done_activity_shape
  | |- activity_shape (failed_activity _) => apply failed_activity_shape
  | |- _ => repeat split; try done; eauto
  end.

Lemma shown_refresh r : shown r -> shown (refresh r).
Proof.
  intros Hr. unfold refresh. destruct (current r) as [sc|]; [|by apply shown_publish; [apply shape_idle|]].
  destruct (same_revision _ _); [done|].
  change (shown (publish (with_status measuring
            (snapshot (projection r) ≫= (fun s => if bool_decide (revision s = Some (revision_of sc)) then Some s else None))
            (bool_decide (is_Some (snapshot (projection r) ≫= (fun s => if bool_decide (revision s = Some (revision_of sc)) then Some s else None))))
            None (projection r)) r)).
  shapes.
Qed.

Lemma shown_clearCache r : shown r -> shown (clearCache r).
Proof.
  intros Hr. unfold clearCache. destruct (current r); [|done]. destruct (same_revision _ _); [done|].
  change (shown (publish (with_cleanup running_activity (projection r)) r)). shapes.
Qed.

Lemma shown_setRetention preset r : shown r -> shown (setRetention preset r).
Proof.
  intros Hr. unfold setRetention. destruct (current r); [|done]. destruct (same_revision _ _); [done|].
  change (shown (publish (with_retention running_activity (projection r)) r)). shapes.
Qed.

Lemma shown_clearConversation id r : shown r -> shown (clearConversation id r).
Proof.
  intros Hr. unfold clearConversation. destruct (current r); [|done]. case_bool_decide; [done|].
  destruct (match conversationClearInFlight r with Some _ => _ | None => _ end); done.
Qed.

Lemma shown_answer now id a r : shown r -> shown (answer now id a r).
Proof.
  intros Hr. unfold answer. destruct (take_request id (requests r)) as [[req rest]|]; [|done].
  set (r' := set_requests rest (next_request r) r). assert (Hr' : shown r') by exact Hr. clearbody r'.
  destruct req as [sc prev|sc|sc pr|sc conv], a as [a|a]; try exact Hr.
  - unfold answer_refresh. destruct a as [s|m].
    + destruct (_ && _); [|done]. shapes.
    + destruct (isCurrentScope sc r'); [|done]. cbn [negb]. destruct prev; shapes.
  - unfold answer_cleanup. destruct (isCurrentScope sc r'); [|done]. cbn [negb]. destruct a as [res|m]; [|shapes].
    destruct (chatStorageResultMatches _ res) eqn:Hm; cbn [negb]; [|shapes].
    apply result_matches_snapshot in Hm as (s & Hs & _). rewrite Hs. shapes.
  - unfold answer_retention. destruct (isCurrentScope sc r'); [|done]. cbn [negb]. destruct a as [res|m]; [|shapes].
    destruct (chatStorageResultMatches _ res) eqn:Hm; cbn [negb]; [|shapes].
    apply result_matches_snapshot in Hm as (s & Hs & _). rewrite Hs.
    destruct (operationSucceeded _); [change (projection (sweep_at now r')) with (projection r')|]; shapes.
  - unfold answer_conversation. destruct a as [res|m]; [|done]. destruct (isCurrentScope sc r'); [|done]. cbn [negb].
    destruct (chatStorageResultMatches _ res); [|done]. destruct (r_snapshot res); [|done]. cbn. shapes.
Qed.

Lemma shown_handle e r : shown r -> shown (handle e r).
Proof.
  intros Hr. destruct e; cbn [handle]; eauto using shown_refresh, shown_clearCache, shown_setRetention, shown_clearConversation, shown_answer.
  - unfold reconcile_resume. destruct (_ ≫= _); [|done]. destruct (_ && _); [|done]. by apply shown_setRetention.
  - unfold scope_published. destruct (installed r); [|done]. unfold scope_listener.
    assert (Hp : shown (publish idleChatStorageProjection (sweep_at 0 r))) by shapes.
    destruct (current r); [by apply shown_refresh | done].
  - unfold bootstrap. destruct active; [apply shown_refresh|]; shapes.
  - unfold install. by destruct (installed r).
  - unfold teardown. shapes.
Qed.

(** ** The fence *)
Lemma take_request_perm id (l : list (nat * @Request Scope Retention)) req rest :
  take_request id l = Some (req, rest) -> l ≡ₚ (id, req) :: rest.
Proof.
  revert req rest. induction l as [|[id' req'] l IH]; intros req rest; cbn; [done|].
  destruct (decide (id' = id)) as [->|]; [by intros [= -> ->]|].
  destruct (take_request id l) as [[found rest']|]; [|done]. intros [= <- <-]. rewrite (IH _ _ eq_refl). by constructor.
Qed.

Definition owns (cur : option Scope) (s : option Snapshot) : Prop :=
  match s with Some s => exists sc, cur = Some sc /\ chatStorageSnapshotMatches (scopeIdentity sc) s = true | None => True end.

Definition outcome_of (cur : option Scope) (a : Activity) : Prop :=
  match a_result a with Some res => exists sc, cur = Some sc /\ chatStorageResultMatches (scopeIdentity sc) res = true | None => True end.

(** A running activity has its request on the way. *)
Definition backed (cur : option Scope) (l : list (nat * @Request Scope Retention)) (is_request : Scope -> Request -> Prop) (a : Activity) : Prop :=
  a_status a = activity_running -> exists sc id req, cur = Some sc /\ is_request sc req /\ (id, req) ∈ l.

Definition is_cleanup (sc : Scope) (req : @Request Scope Retention) : Prop := req = req_cleanup sc.
Definition is_retention (sc : Scope) (req : @Request Scope Retention) : Prop := exists preset, req = req_retention sc preset.

Record fenced_at (cur : option Scope) (l : list (nat * @Request Scope Retention)) (p : Projection) : Prop := {
  fenced_snapshot : owns cur (snapshot p);
  fenced_cleanup : outcome_of cur (cleanup p);
  fenced_retention : outcome_of cur (retention p);
  backed_cleanup : backed cur l is_cleanup (cleanup p);
  backed_retention : backed cur l is_retention (retention p)
}.

Definition keeps_own (l : list (nat * @Request Scope Retention)) : Prop :=
  forall id sc s, (id, req_refresh sc (Some s)) ∈ l -> chatStorageSnapshotMatches (scopeIdentity sc) s = true.

Definition fenced r : Prop := keeps_own (requests r) /\ fenced_at (current r) (requests r) (projection r).

Lemma fenced_idle cur l : fenced_at cur l idleChatStorageProjection.
Proof. by split. Qed.

Lemma backed_idle cur l is_request a : a_status a <> activity_running -> backed cur l is_request a.
Proof. by intros ??. Qed.

Lemma fenced_send cur l id req p : fenced_at cur l p -> fenced_at cur (l ++ [(id, req)]) p.
Proof.
  intros [? ? ? Hc Hr]. split; [done..| |]; intros Hrun; [destruct (Hc Hrun) as (sc & i & q & ? & ? & ?) | destruct (Hr Hrun) as (sc & i & q & ? & ? & ?)];
    exists sc, i, q; rewrite elem_of_app; auto.
Qed.

Lemma fenced_with_status cur l st s b e p : owns cur s -> fenced_at cur l p -> fenced_at cur l (with_status st s b e p).
Proof. by intros ? []. Qed.
Lemma fenced_with_cleanup cur l a p : outcome_of cur a -> backed cur l is_cleanup a -> fenced_at cur l p -> fenced_at cur l (with_cleanup a p).
Proof. by intros ?? []. Qed.
Lemma fenced_with_retention cur l a p : outcome_of cur a -> backed cur l is_retention a -> fenced_at cur l p -> fenced_at cur l (with_retention a p).
Proof. by intros ?? []. Qed.

Lemma fenced_refresh r : fenced r -> fenced (refresh r).
Proof.
  intros Hr. pose proof Hr as (Hk & Hf). unfold refresh. destruct (current r) as [sc|] eqn:Hcur; [|split_and!; [done..|apply fenced_idle]].
  destruct (same_revision _ _); [exact Hr|].
  set (previous := snapshot (projection r) ≫= _).
  assert (Hp : forall s, previous = Some s -> chatStorageSnapshotMatches (scopeIdentity sc) s = true).
  { subst previous. pose proof (fenced_snapshot _ _ _ Hf) as Ho. destruct (snapshot (projection r)) as [s0|]; [|done]. cbn.
    case_bool_decide; [|done]. intros s [= <-]. by destruct Ho as (? & [= <-] & ?). }
  split.
  - intros id sc' s. cbn. rewrite elem_of_app, list_elem_of_singleton. intros [Hin|[= _ -> Hs]]; [by eapply Hk | by apply Hp].
  - cbn. rewrite Hcur. apply fenced_send, fenced_with_status; [|done]. destruct previous as [s|]; [|done]. exists sc. auto.
Qed.

Lemma fenced_clearCache r : fenced r -> fenced (clearCache r).
Proof.
  intros Hr. pose proof Hr as (Hk & Hf). unfold clearCache. destruct (current r) as [sc|] eqn:Hcur; [|exact Hr].
  destruct (same_revision _ _); [exact Hr|]. split.
  - intros id sc' s. cbn. rewrite elem_of_app, list_elem_of_singleton. intros [Hin|[=]]. by eapply Hk.
  - cbn. rewrite Hcur. apply fenced_with_cleanup; [done | | by apply fenced_send].
    intros _. exists sc, (next_request r), (req_cleanup sc). rewrite elem_of_app, list_elem_of_singleton. split_and!; [done..|auto].
Qed.

Lemma fenced_setRetention preset r : fenced r -> fenced (setRetention preset r).
Proof.
  intros Hr. pose proof Hr as (Hk & Hf). unfold setRetention. destruct (current r) as [sc|] eqn:Hcur; [|exact Hr].
  destruct (same_revision _ _); [exact Hr|]. split.
  - intros id sc' s. cbn. rewrite elem_of_app, list_elem_of_singleton. intros [Hin|[=]]. by eapply Hk.
  - cbn. rewrite Hcur. apply fenced_with_retention; [done | | by apply fenced_send].
    intros _. exists sc, (next_request r), (req_retention sc preset). rewrite elem_of_app, list_elem_of_singleton.
    split_and!; [done | by exists preset | auto].
Qed.

Lemma fenced_clearConversation id r : fenced r -> fenced (clearConversation id r).
Proof.
  intros Hr. pose proof Hr as (Hk & Hf). unfold clearConversation. destruct (current r) as [sc|] eqn:Hcur; [|exact Hr].
  case_bool_decide; [exact Hr|]. destruct (match conversationClearInFlight r with Some _ => _ | None => _ end); [exact Hr|].
  split.
  - intros i sc' s. cbn. rewrite elem_of_app, list_elem_of_singleton. intros [Hin|[=]]. by eapply Hk.
  - cbn. rewrite Hcur. by apply fenced_send.
Qed.

Lemma backed_rest cur l l' id req is_request a :
  l ≡ₚ (id, req) :: l' -> (forall sc, cur = Some sc -> ~ is_request sc req) -> backed cur l is_request a -> backed cur l' is_request a.
Proof.
  intros Hp Hnot Hb Hrun. destruct (Hb Hrun) as (sc & i & q & Hc & Hq & Hin). rewrite Hp, elem_of_cons in Hin.
  destruct Hin as [[= -> ->]|Hin]; [by destruct (Hnot sc Hc) | by exists sc, i, q].
Qed.

(** What is left when a request has been taken out: all but the activity it backed. *)
Lemma fenced_taken cur l l' id req p :
  l ≡ₚ (id, req) :: l' -> (forall sc, cur = Some sc -> ~ is_cleanup sc req) -> (forall sc, cur = Some sc -> ~ is_retention sc req) ->
  fenced_at cur l p -> fenced_at cur l' p.
Proof. intros Hp Hc Hr []. split; try done; by eapply backed_rest. Qed.

Lemma keeps_own_rest l l' id req : l ≡ₚ (id, req) :: l' -> keeps_own l -> keeps_own l'.
Proof. intros Hp Hk i sc s Hin. apply (Hk i). rewrite Hp. by right. Qed.

Lemma isCurrentScope_spec sc r : isCurrentScope sc r = true <-> current r = Some sc.
Proof. apply bool_decide_eq_true. Qed.

Lemma done_not_running result incomplete : a_status (done_activity result incomplete) <> activity_running.
Proof. unfold done_activity. cbn. by destruct (operationSucceeded _). Qed.

Lemma outcome_done sc result incomplete :
  chatStorageResultMatches (scopeIdentity sc) result = true -> outcome_of (Some sc) (done_activity result incomplete).
Proof. intros Hm. exists sc. auto. Qed.

Lemma owns_result sc result :
  chatStorageResultMatches (scopeIdentity sc) result = true -> owns (Some sc) (r_snapshot result).
Proof. intros (s & -> & Hs)%result_matches_snapshot. exists sc. auto. Qed.

Lemma fenced_answer_refresh sc previous a r :
  fenced r -> (forall s, previous = Some s -> chatStorageSnapshotMatches (scopeIdentity sc) s = true) -> fenced (answer_refresh sc previous a r).
Proof.
  intros Hr Hprev. pose proof Hr as (Hk & Hf). unfold answer_refresh.
  destruct (isCurrentScope sc r) eqn:Hcur; destruct a as [s|m]; cbn [negb andb]; try exact Hr; apply isCurrentScope_spec in Hcur.
  - destruct (chatStorageSnapshotMatches _ s) eqn:Hs; [|exact Hr]. split_and!; [done..|].
    apply fenced_with_status; [|done]. exists sc. auto.
  - destruct previous as [s|]; (split_and!; [done..|]); apply fenced_with_status; try done. exists sc. auto.
Qed.

Lemma fenced_answer_conversation sc a r : fenced r -> fenced (answer_conversation sc a r).1.
Proof.
  intros Hr. pose proof Hr as (Hk & Hf). unfold answer_conversation. destruct a as [res|m]; [|exact Hr].
  destruct (isCurrentScope sc r) eqn:Hcur; cbn [negb]; [|exact Hr]. apply isCurrentScope_spec in Hcur.
  destruct (chatStorageResultMatches _ res) eqn:Hm; cbn [negb]; [|exact Hr].
  apply owns_result in Hm. destruct (r_snapshot res) as [s|]; [|exact Hr]. split_and!; [done..|].
  apply fenced_with_status; [|done]. by rewrite <- Hcur in Hm.
Qed.

Lemma fenced_end_cleanup cur l l' id sc a p :
  l ≡ₚ (id, req_cleanup sc) :: l' -> fenced_at cur l p -> outcome_of cur a -> a_status a <> activity_running ->
  fenced_at cur l' (with_cleanup a p).
Proof.
  intros Hp [Hs Hc Hret Hbc Hbr] Ha Hrun. split; try done; [by apply backed_idle|].
  eapply backed_rest; [exact Hp | by intros ? _ [] | exact Hbr].
Qed.

Lemma fenced_end_retention cur l l' id sc preset a p :
  l ≡ₚ (id, req_retention sc preset) :: l' -> fenced_at cur l p -> outcome_of cur a -> a_status a <> activity_running ->
  fenced_at cur l' (with_retention a p).
Proof.
  intros Hp [Hs Hc Hret Hbc Hbr] Ha Hrun. split; try done; [|by apply backed_idle].
  eapply backed_rest; [exact Hp | by intros ? _ [=] | exact Hbc].
Qed.

(** The state in which an answer's handler runs: its request is no longer on the way. *)
Definition taken (id : nat) (req : Request) r : Prop :=
  keeps_own (requests r) /\ exists l, l ≡ₚ (id, req) :: requests r /\ fenced_at (current r) l (projection r).

Lemma fenced_answer_cleanup id sc a r : taken id (req_cleanup sc) r -> fenced (answer_cleanup sc a r).
Proof.
  intros (Hk & l & Hp & Hf). unfold answer_cleanup. destruct (isCurrentScope sc r) eqn:Hcur; cbn [negb].
  2: { split_and!; [done..|]. eapply fenced_taken; [exact Hp | | by intros ? _ [] | exact Hf].
       intros sc' Hc [= ->]. by rewrite (proj2 (isCurrentScope_spec sc' r) Hc) in Hcur. }
  apply isCurrentScope_spec in Hcur.
  assert (Hfail : forall m, fenced (publish (with_cleanup (failed_activity m) (projection r)) r)).
  { intros m. split_and!; [done..|]. by eapply fenced_end_cleanup. }
  destruct a as [res|m]; [|apply Hfail]. destruct (chatStorageResultMatches _ res) eqn:Hm; cbn [negb]; [|apply Hfail].
  split_and!; [done..|]. change (current (publish _ r)) with (current r). rewrite Hcur in Hf |- *.
  eapply fenced_end_cleanup; [exact Hp | | by apply outcome_done | apply done_not_running].
  apply fenced_with_status; [by apply owns_result | done].
Qed.

Lemma fenced_answer_retention now id sc preset a r : taken id (req_retention sc preset) r -> fenced (answer_retention now sc a r).
Proof.
  intros (Hk & l & Hp & Hf). unfold answer_retention. destruct (isCurrentScope sc r) eqn:Hcur; cbn [negb].
  2: { split_and!; [done..|]. eapply fenced_taken; [exact Hp | by intros ? _ [=] | | exact Hf].
       intros sc' Hc [? [= -> ->]]. by rewrite (proj2 (isCurrentScope_spec sc' r) Hc) in Hcur. }
  apply isCurrentScope_spec in Hcur.
  assert (Hfail : forall m, fenced (publish (with_retention (failed_activity m) (projection r)) r)).
  { intros m. split_and!; [done..|]. by eapply fenced_end_retention. }
  destruct a as [res|m]; [|apply Hfail]. destruct (chatStorageResultMatches _ res) eqn:Hm; cbn [negb]; [|apply Hfail].
  rewrite Hcur in Hf.
  assert (Hend : fenced_at (Some sc) (requests r)
            (with_retention (done_activity res (retentionIncomplete messages)) (with_status ready (r_snapshot res) false None (projection r)))).
  { eapply fenced_end_retention; [exact Hp | | by apply outcome_done | apply done_not_running].
    apply fenced_with_status; [by apply owns_result | done]. }
  destruct (operationSucceeded _); (split_and!; [done..|]); cbn -[done_activity]; by rewrite Hcur.
Qed.

Lemma fenced_answer now id a r : fenced r -> fenced (answer now id a r).
Proof.
  intros Hr. unfold answer. destruct (take_request id (requests r)) as [[req rest]|] eqn:Ht; [|exact Hr].
  apply take_request_perm in Ht. pose proof Hr as (Hk & Hf).
  assert (Hk' : keeps_own rest) by (by eapply keeps_own_rest).
  assert (Htaken : taken id req (set_requests rest (next_request r) r)) by (split_and!; [done..|]; by exists (requests r)).
  assert (Hplain : (forall sc, ~ is_cleanup sc req) -> (forall sc, ~ is_retention sc req) -> fenced (set_requests rest (next_request r) r)).
  { intros Hc Hret. split_and!; [done..|]. eapply fenced_taken; [exact Ht | by intros ? _ ?%Hc | by intros ? _ ?%Hret | exact Hf]. }
  destruct req as [sc prev|sc|sc pr|sc conv], a as [a|a]; try exact Hr.
  - apply fenced_answer_refresh; [apply Hplain; [by intros ? [=] | by intros ? [? [=]]]|].
    intros s ->. apply (Hk id). rewrite Ht. by left.
  - by eapply fenced_answer_cleanup.
  - by eapply fenced_answer_retention.
  - apply fenced_answer_conversation, Hplain; [by intros ? [=] | by intros ? [? [=]]].
Qed.

Lemma keeps_own_nil : keeps_own [].
Proof. by intros ??? ?%elem_of_nil. Qed.

Lemma fenced_idle_runtime r : keeps_own (requests r) -> projection r = idleChatStorageProjection -> fenced r.
Proof. intros Hk Hp. split; [done|]. rewrite Hp. apply fenced_idle. Qed.

(** The projection starts over: the listener of the scope, [bootstrap] and [teardown] publish
    the idle one first. *)
Definition starts_over (e : @Event Scope Retention) r : bool :=
  match e with ev_published => installed r | ev_bootstrap _ | ev_teardown => true | _ => false end.

Lemma fenced_starts_over e r : starts_over e r = true -> keeps_own (requests r) -> fenced (handle e r).
Proof.
  intros He Hk. destruct e; try discriminate; cbn [handle].
  - unfold scope_published. cbn in He. rewrite He. unfold scope_listener.
    destruct (current r); [apply fenced_refresh|]; by apply fenced_idle_runtime.
  - unfold bootstrap. destruct active; [apply fenced_refresh|]; by apply fenced_idle_runtime.
  - by apply fenced_idle_runtime.
Qed.

(** The scope changes to another one. *)
Definition leaves_scope (e : @Event Scope Retention) r : bool :=
  match e with ev_scope scope => negb (bool_decide (scope = current r)) | _ => false end.

Lemma fenced_handle e r : leaves_scope e r = false -> fenced r -> fenced (handle e r).
Proof.
  intros Hl Hr. destruct (starts_over e r) eqn:He; [by apply fenced_starts_over, Hr|].
  destruct e; cbn [handle]; try discriminate;
    eauto using fenced_refresh, fenced_clearCache, fenced_setRetention, fenced_clearConversation, fenced_answer.
  - unfold reconcile_resume. destruct (_ ≫= _); [|exact Hr]. destruct (_ && _); [|exact Hr]. by apply fenced_setRetention.
  - cbn in Hl. apply negb_false_iff, bool_decide_eq_true in Hl as ->. exact Hr.
  - unfold scope_published. cbn in He. by rewrite He.
  - unfold install. by destruct (installed r).
Qed.

(** ** At any time

    What holds also between a change of scope and its publication, and around a teardown. *)

(** Identifiers without the separator of revisions. *)
Definition plain_identity (i : ChatStorageScopeIdentity) : Prop :=
  no_char (ascii_of_nat 31) (stationPeerId i) = true /\ no_char (ascii_of_nat 31) (actorPtid i) = true
  /\ no_char (ascii_of_nat 31) (deviceId i) = true.

Lemma revision_fields (i : ChatStorageScopeIdentity) :
  chatStorageScopeRevision i =
    (stationPeerId i ++ String (ascii_of_nat 31) (actorPtid i ++ String (ascii_of_nat 31)
      (deviceId i ++ String (ascii_of_nat 31) (pretty (activationGeneration i)))))%string.
Proof. done. Qed.

Lemma revision_identifies (a b : ChatStorageScopeIdentity) :
  plain_identity a -> plain_identity b -> chatStorageScopeRevision a = chatStorageScopeRevision b -> a = b.
Proof.
  intros (Ha1 & Ha2 & Ha3) (Hb1 & Hb2 & Hb3). rewrite !revision_fields.
  intros [H1 [H2 [H3 H4]%char_split]%char_split]%char_split; try done. apply (inj pretty) in H4.
  destruct a, b. cbn in *. by subst.
Qed.

(** The snapshot shown is one that some scope accepted. *)
Definition accepted r : Prop :=
  keeps_own (requests r)
  /\ forall s, snapshot (projection r) = Some s -> exists sc : Scope, chatStorageSnapshotMatches (scopeIdentity sc) s = true.

(** A step shows the snapshot it found, none, or one of the scope then current. *)
Definition shows_current r r' : Prop :=
  forall s, snapshot (projection r') = Some s -> snapshot (projection r) = Some s \/ owns (current r') (Some s).

Lemma shows_same r r' : snapshot (projection r') = snapshot (projection r) -> shows_current r r'.
Proof. intros E s. rewrite E. by left. Qed.

Lemma shows_trans r r1 r2 : shows_current r r1 -> shows_current r1 r2 -> current r2 = current r1 -> shows_current r r2.
Proof. intros H1 H2 Hc s [Hs|Hs]%H2; [|by right]. destruct (H1 s Hs) as [|Ho]; [by left | right; by rewrite Hc]. Qed.

Lemma shows_refresh r : shows_current r (refresh r).
Proof.
  unfold refresh. destruct (current r) as [sc|]; [|by intros ?]. destruct (same_revision _ _); [by apply shows_same|].
  intros s. cbn. destruct (snapshot (projection r)) as [s0|]; [|done]. cbn. case_bool_decide; [|done]. by left.
Qed.

Lemma shows_idle r r' : projection r' = idleChatStorageProjection -> shows_current r r'.
Proof. intros E s. by rewrite E. Qed.

Lemma current_refresh r : current (refresh r) = current r.
Proof. unfold refresh. destruct (current r) as [sc|] eqn:E; [|done]. by destruct (same_revision _ _). Qed.

Lemma keeps_own_send l id req : (forall sc s, req = req_refresh sc (Some s) -> chatStorageSnapshotMatches (scopeIdentity sc) s = true) ->
  keeps_own l -> keeps_own (l ++ [(id, req)]).
Proof. intros Hreq Hk i sc s. rewrite elem_of_app, list_elem_of_singleton. intros [Hin|[= _ E]]; [by eapply Hk | by apply Hreq]. Qed.

(** The answers. *)
Lemma shows_answer now id a r : keeps_own (requests r) -> shows_current r (answer now id a r) /\ keeps_own (requests (answer now id a r)).
Proof.
  intros Hk. unfold answer. destruct (take_request id (requests r)) as [[req rest]|] eqn:Ht; [|by split; [apply shows_same|]].
  apply take_request_perm in Ht. assert (Hk' : keeps_own rest) by (by eapply keeps_own_rest).
  assert (Hown : forall sc s, req = req_refresh sc (Some s) -> chatStorageSnapshotMatches (scopeIdentity sc) s = true).
  { intros sc s ->. apply (Hk id). rewrite Ht. by left. }
  set (r' := set_requests rest (next_request r) r). assert (Hr' : keeps_own (requests r')) by exact Hk'.
  assert (Hs' : snapshot (projection r') = snapshot (projection r)) by done. clearbody r'.
  assert (Hsame : shows_current r r' /\ keeps_own (requests r')) by (by split; [apply shows_same|]).
  assert (Hcur : forall sc s, isCurrentScope sc r' = true -> chatStorageSnapshotMatches (scopeIdentity sc) s = true -> owns (current r') (Some s)).
  { intros sc s Hc%isCurrentScope_spec Hm. exists sc. auto. }
  assert (Hres : forall sc res, isCurrentScope sc r' = true -> chatStorageResultMatches (scopeIdentity sc) res = true -> owns (current r') (r_snapshot res)).
  { intros sc res Hc%isCurrentScope_spec Hm. rewrite Hc. by apply owns_result. }
  assert (Hold : forall s, snapshot (projection r') = Some s -> snapshot (projection r) = Some s \/ owns (current r') (Some s)).
  { intros s. rewrite Hs'. by left. }
  destruct req as [sc prev|sc|sc pr|sc conv], a as [a|a]; try (by split; [apply shows_same|]).
  - unfold answer_refresh. destruct (isCurrentScope sc r') eqn:Hc; destruct a as [s|m]; cbn [negb andb]; try done.
    + destruct (chatStorageSnapshotMatches _ s) eqn:Hm; [|done]. split; [|done]. intros s0 [= <-]. right. by eapply Hcur.
    + destruct prev as [s|]; (split; [|done]); [|by intros ?]. intros s0 [= <-]. right. by eapply Hcur, Hown.
  - unfold answer_cleanup. destruct (isCurrentScope sc r') eqn:Hc; cbn [negb]; [|done]. destruct a as [res|m]; [|done].
    destruct (chatStorageResultMatches _ res) eqn:Hm; cbn [negb]; [|done]. split; [|done].
    intros s Hs. cbn -[done_activity] in Hs. right. rewrite <- Hs. by eapply Hres.
  - unfold answer_retention. destruct (isCurrentScope sc r') eqn:Hc; cbn [negb]; [|done]. destruct a as [res|m]; [|done].
    destruct (chatStorageResultMatches _ res) eqn:Hm; cbn [negb]; [|done].
    split; [|by destruct (operationSucceeded _)]. intros s Hs. right. apply (Hres sc res Hc) in Hm.
    destruct (operationSucceeded _); cbn -[done_activity owns] in Hs |- *; by rewrite <- Hs.
  - unfold answer_conversation. destruct a as [res|m]; [|done]. destruct (isCurrentScope sc r') eqn:Hc; cbn [negb]; [|done].
    destruct (chatStorageResultMatches _ res) eqn:Hm; cbn [negb]; [|done].
    destruct (r_snapshot res) as [s|] eqn:E; [|done]. split; [|done]. intros s0 [= <-]. right. rewrite <- E. by eapply Hres.
Qed.

Section any_time.
Hypothesis plain_scopes : forall scope : Scope, plain_identity (scopeIdentity scope).

Lemma keeps_refresh r : accepted r -> keeps_own (requests (refresh r)).
Proof.
  intros [Hk Ha]. unfold refresh. destruct (current r) as [sc|]; [|done]. destruct (same_revision _ _); [done|].
  apply keeps_own_send; [|done]. intros sc' s [= <- Hs]. destruct (snapshot (projection r)) as [s0|]; [|done].
  cbn in Hs. case_bool_decide as Hrev; [|done]. injection Hs as ->. destruct (Ha s eq_refl) as [sc0 Hm].
  pose proof Hm as [Hm' _]%chatStorageSnapshotMatches_spec. rewrite Hrev in Hm'. injection Hm' as Hm'.
  apply revision_identifies in Hm' as ->; auto.
Qed.

Lemma accepted_idle r : keeps_own (requests r) -> projection r = idleChatStorageProjection -> accepted r.
Proof. intros Hk Hp. split; [done|]. intros s. by rewrite Hp. Qed.

Lemma step_shows e r : accepted r -> shows_current r (handle e r) /\ keeps_own (requests (handle e r)).
Proof.
  intros Ha. pose proof Ha as [Hk Hs].
  assert (Hret : forall preset, shows_current r (setRetention preset r) /\ keeps_own (requests (setRetention preset r))).
  { intros preset. unfold setRetention. destruct (current r); [|by split; [apply shows_same|]].
    destruct (same_revision _ _); (split; [by apply shows_same|]); [done|]. by apply keeps_own_send. }
  destruct e; cbn [handle].
  - split; [apply shows_refresh | by apply keeps_refresh].
  - unfold clearCache. destruct (current r); [|by split; [apply shows_same|]].
    destruct (same_revision _ _); (split; [by apply shows_same|]); [done|]. by apply keeps_own_send.
  - apply Hret.
  - unfold clearConversation. destruct (current r); [|by split; [apply shows_same|]]. case_bool_decide; [by split; [apply shows_same|]|].
    destruct (match conversationClearInFlight r with Some _ => _ | None => _ end); (split; [by apply shows_same|]); [done|]. by apply keeps_own_send.
  - unfold reconcile_resume. destruct (_ ≫= _); [|by split; [apply shows_same|]]. destruct (_ && _); [apply Hret | by split; [apply shows_same|]].
  - by apply shows_answer.
  - by split; [apply shows_same|].
  - by split; [apply shows_same|].
  - unfold scope_published. destruct (installed r); [|by split; [apply shows_same|]]. unfold scope_listener.
    destruct (current r); [|by split; [apply shows_idle|]]. split; [|by apply keeps_refresh, accepted_idle].
    eapply shows_trans; [|apply shows_refresh|by rewrite current_refresh]. by apply shows_idle.
  - unfold bootstrap. destruct active; [|by split; [apply shows_idle|]]. split; [|by apply keeps_refresh, accepted_idle].
    eapply shows_trans; [|apply shows_refresh|by rewrite current_refresh]. by apply shows_idle.
  - unfold install. by destruct (installed r); (split; [apply shows_same|]).
  - by split; [apply shows_idle|].
Qed.

Lemma step_accepted e r : accepted r -> accepted (handle e r).
Proof.
  intros Ha. destruct (step_shows e r Ha) as [Hsh Hk]. split; [done|]. intros s [Hs|(sc & _ & Hm)]%Hsh; [by apply Ha | by exists sc].
Qed.
End any_time.

(** Whether the scope has changed since the projection last started over, for a runtime of
    which [behind] says it before the events. *)
Fixpoint left_behind (behind : bool) (events : list (@Event Scope Retention)) r : bool :=
  match events with
  | [] => behind
  | e :: events => left_behind (if starts_over e r then false else behind || leaves_scope e r) events (handle e r)
  end.

Lemma run_fenced (Hplain : forall scope : Scope, plain_identity (scopeIdentity scope)) events behind r :
  accepted r -> (behind = false -> fenced r) ->
  accepted (handle_all events r) /\ (left_behind behind events r = false -> fenced (handle_all events r)).
Proof.
  revert behind r. induction events as [|e events IH]; intros behind r Ha Hf; [done|]. cbn. apply IH; [by apply step_accepted|].
  destruct (starts_over e r) eqn:He; [intros _; by apply fenced_starts_over, Ha|]. intros [-> Hl]%orb_false_iff. apply fenced_handle; auto.
Qed.

(** ** The properties *)

(** Whatever the calls, answers, failures and changes of scope, every
    projection the runtime ever publishes has one of the shapes that the union types of the
    projection describe: idle and unavailable without a snapshot, ready with a fresh one and
    no error, stale with a snapshot and an error, measuring with the snapshot it kept; an
    activity has a result exactly as its status allows. *)
Theorem projection_shapes (scope : option Scope) (events : list Event) :
  Forall shape (projection (handle_all events (new_runtime scope)) :: log (handle_all events (new_runtime scope))).
Proof.
  change (shown (handle_all events (new_runtime scope))).
  assert (Hall : forall r, shown r -> shown (handle_all events r)).
  { induction events as [|e events IH]; intros r Hr; [exact Hr|]. cbn. by apply IH, shown_handle. }
  apply Hall. constructor; [apply shape_idle | constructor].
Qed.

(** C30: for scopes whose identifiers hold no separator of revisions, whatever
    the order in which calls, answers of requests of any scope, changes and publications of
    the scope, teardowns and installations come. First, at any moment at all, the next event
    shows the snapshot that was shown, none, or one that belongs to the scope then current:
    no answer of another scope is ever taken in. Second, as long as the scope has not changed
    since the projection last started over (a publication that an installed runtime heard,
    a bootstrap, a teardown, or the making of the runtime): the snapshot shown, and the
    result shown of a cleanup or of a retention change, belong to the current scope, and no
    other scope identity matches that snapshot; and an activity shown as running has its
    request of the current scope still on the way, so it never waits for an answer that
    came. Between a change and its publication what the runtime showed may stay. *)
Theorem projection_fenced (scope : option Scope) (events : list Event) :
  (forall scope : Scope, plain_identity (scopeIdentity scope)) ->
  let r := handle_all events (new_runtime scope) in
  (forall e s, snapshot (projection (handle e r)) = Some s ->
     snapshot (projection r) = Some s
     \/ exists sc, current (handle e r) = Some sc /\ chatStorageSnapshotMatches (scopeIdentity sc) s = true)
  /\ (left_behind false events (new_runtime scope) = false ->
      (forall s, snapshot (projection r) = Some s ->
         exists sc, current r = Some sc /\ forall identity, chatStorageSnapshotMatches identity s = true <-> identity = scopeIdentity sc)
      /\ (forall res, a_result (cleanup (projection r)) = Some res \/ a_result (retention (projection r)) = Some res ->
            exists sc, current r = Some sc /\ chatStorageResultMatches (scopeIdentity sc) res = true)
      /\ (a_status (cleanup (projection r)) = activity_running -> exists sc id, current r = Some sc /\ (id, req_cleanup sc) ∈ requests r)
      /\ (a_status (retention (projection r)) = activity_running ->
            exists sc id preset, current r = Some sc /\ (id, req_retention sc preset) ∈ requests r)).
Proof.
  intros Hplain r. destruct (run_fenced Hplain events false (new_runtime scope)) as [Ha Hf].
  { apply accepted_idle; [apply keeps_own_nil | done]. } { intros _. apply fenced_idle_runtime; [apply keeps_own_nil | done]. }
  fold r in Ha, Hf. split; [intros e; by apply step_shows|]. intros Hb. destruct (Hf Hb) as (_ & [Hs Hc Hret Hbc Hbr]). split_and!.
  - intros s E. rewrite E in Hs. destruct Hs as (sc & Hcur & Hm). exists sc. split; [done|]. intros identity.
    split; [intros Hi; by eapply snapshot_of_one_scope | by intros ->].
  - unfold outcome_of in Hc, Hret. by intros res [E|E]; [rewrite E in Hc | rewrite E in Hret].
  - intros Hrun. destruct (Hbc Hrun) as (sc & id & req & Hcur & -> & Hin). by exists sc, id.
  - intros Hrun. destruct (Hbr Hrun) as (sc & id & req & Hcur & [preset ->] & Hin). by exists sc, id, preset.
Qed.
End facts.

(** ** A batch *)
Section batch.
Variable clear : string -> result ItemResult.

Definition outcome (id : string) : ItemState := match clear id with Ok item => state item | Err _ => item_failed end.

#[local] Instance ItemState_eq_dec : EqDecision ItemState.
Proof. solve_decision. Defined.

Definition succeeds (id : string) : Prop := outcome id = item_succeeded.
Definition fails (id : string) : Prop := outcome id = item_failed.
Definition released_of (id : string) : Z := match clear id with Ok item => Z.max 0 (default 0 (releasedBytes item)) | Err _ => 0 end.
Fixpoint sum_of (l : list string) : Z := match l with [] => 0 | id :: l => released_of id + sum_of l end.

#[local] Instance succeeds_dec id : Decision (succeeds id).
Proof. apply ItemState_eq_dec. Defined.
#[local] Instance fails_dec id : Decision (fails id).
Proof. apply ItemState_eq_dec. Defined.

(** The progress of a batch of [total] conversations that has [done] behind it. *)
Definition progress_of (total : Z) (done : list string) : list BatchProgress :=
  imap (fun i id => (Z.of_nat i + 1, total, id)) done.

(** What a batch reports after having done [done] of [all]. *)
Record reports (all done : list string) (b : BatchResult) (progress : list BatchProgress) : Prop := {
  reports_requested : requestedIds b = all;
  reports_split : all = done ++ remainingIds b;
  reports_succeeded : succeededIds b = filter succeeds done;
  reports_failed : failedIds b = filter fails done;
  reports_done : Forall (fun id => outcome id <> item_scope_changed) done;
  reports_status : match batch_status b with
                   | batch_succeeded => remainingIds b = [] /\ failedIds b = []
                   | batch_partial_failure => remainingIds b = [] /\ failedIds b <> []
                   | batch_scope_changed => exists id rest, remainingIds b = id :: rest /\ outcome id = item_scope_changed
                   end;
  reports_completed : completedCount b = Z.of_nat (length done);
  reports_bytes : batch_releasedBytes b = sum_of (filter succeeds done);
  reports_progress : progress = progress_of (Z.of_nat (length all)) done
}.

Lemma sum_of_app l k : sum_of (l ++ k) = sum_of l + sum_of k.
Proof. induction l as [|id l IH]; cbn; [done|]. rewrite IH. lia. Qed.

Lemma progress_of_snoc total l id :
  progress_of total (l ++ [id]) = progress_of total l ++ [(Z.of_nat (length l) + 1, total, id)].
Proof. unfold progress_of. rewrite imap_app. cbn. by rewrite Nat.add_0_r. Qed.

Lemma after_success done_ id : outcome id = item_succeeded ->
  filter succeeds (done_ ++ [id]) = filter succeeds done_ ++ [id] /\ filter fails (done_ ++ [id]) = filter fails done_.
Proof.
  intros Ho. rewrite !filter_app, (filter_singleton_True succeeds id []), (filter_singleton_False fails id []), app_nil_r; [done| |done].
  unfold fails. by rewrite Ho.
Qed.

Lemma after_failure done_ id : outcome id = item_failed ->
  filter succeeds (done_ ++ [id]) = filter succeeds done_ /\ filter fails (done_ ++ [id]) = filter fails done_ ++ [id].
Proof.
  intros Ho. rewrite !filter_app, (filter_singleton_False succeeds id []), (filter_singleton_True fails id []), app_nil_r; [done|done|].
  unfold succeeds. by rewrite Ho.
Qed.

(** The loop, when [done_] is behind it. *)
Definition loop_after (all done_ rest : list string) : BatchResult * list BatchProgress :=
  batch_loop clear all rest (filter succeeds done_) (filter fails done_) (Z.of_nat (length done_)) (sum_of (filter succeeds done_))
    (progress_of (Z.of_nat (length all)) done_).

Lemma loop_after_item all done_ id rest :
  loop_after all done_ (id :: rest) =
    match outcome id with
    | item_scope_changed =>
        ({| batch_status := batch_scope_changed; requestedIds := all; succeededIds := filter succeeds done_;
            failedIds := filter fails done_; remainingIds := id :: rest; completedCount := Z.of_nat (length done_);
            batch_releasedBytes := sum_of (filter succeeds done_) |}, progress_of (Z.of_nat (length all)) done_)
    | _ => loop_after all (done_ ++ [id]) rest
    end.
Proof.
  unfold loop_after. rewrite progress_of_snoc, length_app, Nat2Z.inj_add. cbn [batch_loop].
  destruct (outcome id) eqn:Ho; [destruct (after_success done_ id Ho) as [-> ->] | destruct (after_failure done_ id Ho) as [-> ->] |];
    unfold outcome in Ho; destruct (clear id) as [[st bytes]|m] eqn:Hc; try discriminate; cbn [state releasedBytes] in *; subst; try done.
  rewrite sum_of_app. cbn [sum_of]. unfold released_of. rewrite Hc, Z.add_0_r. cbn [releasedBytes].
  do 2 f_equal. case_match; lia.
Qed.

Lemma loop_after_reports all rest done_ :
  all = done_ ++ rest -> Forall (fun id => outcome id <> item_scope_changed) done_ ->
  exists done', reports all done' (loop_after all done_ rest).1 (loop_after all done_ rest).2.
Proof.
  revert done_. induction rest as [|id rest IH]; intros done_ Hall Hdone.
  - exists done_. split; try done. unfold loop_after. cbn. by destruct (decide _).
  - rewrite loop_after_item. destruct (outcome id) eqn:Ho.
    3: { exists done_. split; try done. by exists id, rest. }
    all: apply IH; [by rewrite <- (assoc_L (++)) | apply Forall_app_2; [done|]; constructor; [by rewrite Ho | constructor]].
Qed.

(** Clearing a batch asks once for each distinct non-blank trimmed id, in the
    order given, until an answer reports a change of scope. The ids done are exactly the
    succeeded and the failed ones, a rejected request counting as failed; what remains
    starts at the id that found the scope changed and is empty otherwise; every id is
    reported in one of the three lists; progress counts the done ids one by one up to the
    completed count; and the released bytes are the sum of what the succeeded ones released,
    negative amounts left out. *)
Theorem runConversationClearBatch_correct (conversationIds : list string) :
  let '(b, progress) := runConversationClearBatch conversationIds clear in
  NoDup (requestedIds b)
  /\ (forall id, id ∈ requestedIds b <-> id <> ""%string /\ exists c, c ∈ conversationIds /\ id = String.string_of_list_ascii (trim (T c)))
  /\ requestedIds b ≡ₚ succeededIds b ++ failedIds b ++ remainingIds b
  /\ exists done_, reports (requestedIds b) done_ b progress.
Proof.
  destruct (runConversationClearBatch conversationIds clear) as [b progress] eqn:Hb.
  destruct (loop_after_reports (requested conversationIds) (requested conversationIds) [] eq_refl (Forall_nil_2 _)) as [done_ Hrep].
  change (loop_after (requested conversationIds) [] (requested conversationIds)) with (runConversationClearBatch conversationIds clear) in Hrep.
  rewrite Hb in Hrep. cbn [fst snd] in Hrep. rewrite (reports_requested _ _ _ _ Hrep). split_and!.
  - apply js_set_of_NoDup.
  - intros id. unfold requested. rewrite js_set_of_elem, list_elem_of_filter, list_elem_of_fmap. naive_solver.
  - rewrite (reports_split _ _ _ _ Hrep) at 1. rewrite (reports_succeeded _ _ _ _ Hrep), (reports_failed _ _ _ _ Hrep), (assoc_L (++)).
    f_equiv. pose proof (reports_done _ _ _ _ Hrep) as Hd. clear -Hd. induction Hd as [|id l Hid Hd IH]; [done|].
    destruct (outcome id) eqn:Ho; [| |done].
    + rewrite (filter_cons_True succeeds), (filter_cons_False fails); [cbn; by constructor | unfold fails; by rewrite Ho | done].
    + rewrite (filter_cons_False succeeds), (filter_cons_True fails); [|done | unfold succeeds; by rewrite Ho].
      rewrite <- Permutation_middle. by constructor.
  - by exists done_.
Qed.
End batch.

(** ** Concrete runs *)
Module ProjectionDemo.

(** Scopes are their activation generations, retention presets days, 0 for ever. *)
#[local] Instance ports : Ports Z Z := {|
  scopeIdentity g := {| stationPeerId := "station"; actorPtid := "actor"; deviceId := "device"; activationGeneration := g |};
  retentionPreset s := Some (Z.of_nat (snapshot_rest s));
  retentionIsForever days := bool_decide (days = 0);
  operationSucceeded res := bool_decide (is_Some (r_operation res));
  messages := {| staleCleanup := "stale"; cleanupIncomplete := "incomplete"; staleRetention := "stale"; retentionIncomplete := "incomplete";
                 staleConversationCleanup := "stale"; acceptanceUnavailable := "unavailable"; acceptanceAmbiguous := "ambiguous" |};
  retentionSweepIntervalMs := None
|}.

Definition of_scope (g : Z) (s : SnapshotScope) : Snapshot :=
  {| revision := Some (revision_of g); snapshot_scope := Some s; snapshot_rest := 30 |}.

Definition device : SnapshotScope := {| ss_stationPeerId := Some "station"; ss_actorPtid := Some "actor"; ss_deviceId := Some "device" |}%string.

Definition cleaned (g : Z) : Result := {|
  r_snapshot := Some (of_scope g device);
  r_operation := Some {| scopeRevision := Some (revision_of g); operation_scope := Some device; physicalBytesBefore := Some 9; physicalBytesAfter := Some 4 |};
  r_error := None |}.

Lemma plain_ports (g : Z) : plain_identity (scopeIdentity g).
Proof. by split_and!. Qed.

(** A refresh and a cleanup of generation 1, overtaken by generation 2, of which the runtime
    hears after the answers of generation 1 have come; then it is torn down and installed
    again in the middle of a refresh. *)
Definition overtaken : list (@Event Z Z) :=
  [ev_install; ev_refresh; ev_clearCache; ev_scope (Some 2); ev_answer 0 0 (answer_snapshot (Ok (of_scope 1 device)));
   ev_answer 0 1 (answer_result (Ok (cleaned 1))); ev_published; ev_teardown; ev_install; ev_clearCache;
   ev_answer 0 2 (answer_snapshot (Ok (of_scope 2 device)))].

Example overtaken_run :
  let r := handle_all overtaken (new_runtime (Some 1)) in
  status (projection r) = ready /\ snapshot (projection r) = Some (of_scope 2 device)
  /\ a_status (cleanup (projection r)) = activity_running /\ (fun q => q.1) <$> requests r = [3%nat].
Proof. split_and!; vm_compute; reflexivity. Qed.

Lemma projection_fenced_witness :
  let r := handle_all overtaken (new_runtime (Some 1)) in
  left_behind false overtaken (new_runtime (Some 1)) = false
  /\ (exists sc, current r = Some sc /\ forall identity, chatStorageSnapshotMatches identity (of_scope 2 device) = true <-> identity = scopeIdentity sc)
  /\ exists sc id, current r = Some sc /\ (id, req_cleanup sc) ∈ requests r.
Proof.
  intros r. destruct (projection_fenced (Some 1) overtaken plain_ports) as [_ Hf].
  assert (Hb : left_behind false overtaken (new_runtime (Some 1)) = false) by (vm_compute; reflexivity).
  destruct (Hf Hb) as (Hs & _ & Hc & _).
  split_and!; [exact Hb | apply Hs; vm_compute; reflexivity | apply Hc; vm_compute; reflexivity].
Defined.

(** Between a change of scope and its publication the snapshot of the earlier scope is
    still shown as ready. *)
Definition unpublished : list (@Event Z Z) := [ev_install; ev_refresh; ev_answer 0 0 (answer_snapshot (Ok (of_scope 1 device))); ev_scope (Some 2)].

Example shown_until_published :
  let r := handle_all unpublished (new_runtime (Some 1)) in
  left_behind false unpublished (new_runtime (Some 1)) = true
  /\ snapshot (projection r) = Some (of_scope 1 device) /\ status (projection r) = ready
  /\ snapshot (projection (handle ev_published r)) = None.
Proof. split_and!; vm_compute; reflexivity. Qed.

(** A runtime that is installed again does not start over: what came after its teardown is
    shown under a scope that has changed meanwhile, the result of a cleanup also once a
    refresh has begun. *)
Definition reinstalled : list (@Event Z Z) :=
  [ev_install; ev_clearCache; ev_teardown; ev_answer 0 0 (answer_result (Ok (cleaned 1))); ev_scope (Some 2); ev_published; ev_install].

Example reinstalled_shows_earlier_scope :
  let r := handle_all reinstalled (new_runtime (Some 1)) in
  installed r = true /\ current r = Some 2 /\ snapshot (projection r) = Some (of_scope 1 device) /\ status (projection r) = ready
  /\ a_result (cleanup (projection (handle ev_refresh r))) = Some (cleaned 1).
Proof. split_and!; vm_compute; reflexivity. Qed.

(** An answer that does not match, while its scope is still the current one, is dropped
    without a word: nothing is on the way any more and the projection keeps measuring. *)
Example measuring_without_request :
  let r := handle_all [ev_refresh; ev_answer 0 0 (answer_snapshot (Ok (of_scope 7 device))); ev_settle 0] (install (new_runtime (Some 1))) in
  status (projection r) = measuring /\ requests r = [] /\ inFlight r = None /\ current r = Some 1.
Proof. split_and!; vm_compute; reflexivity. Qed.

(** A refresh that its teardown does not overtake publishes into the torn down runtime. *)
Example published_after_teardown :
  let r := handle_all [ev_refresh; ev_teardown; ev_answer 0 0 (answer_snapshot (Ok (of_scope 1 device)))] (install (new_runtime (Some 1))) in
  installed r = false /\ status (projection r) = ready.
Proof. split; vm_compute; reflexivity. Qed.
End ProjectionDemo.
