(* ===== verification/ChatReducers.v ===== *)
(** * The chat reducers

    Models the pure functions of [packages/client-chat-core/src/index.ts] through which both
    clients keep their chat state: the outbox, the merging of messages and notifications,
    receipts, mutations, threads, typing, presence, unread counters and the projections of
    conversations. A message has the fields that the functions read and a reference for the
    others. Objects used as maps are finite maps: no function depends on the order of their
    keys. Timestamps, [localeCompare] and the case mapping of search texts are parameters. *)
From Stdlib Require Import Ascii Lia ZArith.
From stdpp Require Import base numbers strings list gmap sets sorting.
From S2P Require Import Prelude TextCodec KeyedSort.

(** ** The outbox *)
Inductive ChatOutboxScope : Set := scope_friend | scope_group.
Inductive ChatOutboxOperation : Set := send_message | edit_message | recall_message | delete_message | ack_read.
Inductive ChatOutboxStatus : Set := queued | sending | failed.

Record ChatOutboxDraft (P : Type) : Type := {
  dr_localId : string; dr_scope : ChatOutboxScope; dr_conversationId : string; dr_operation : ChatOutboxOperation; dr_payload : P
}.
Arguments dr_localId {P} _.

Record ChatOutboxItem (P : Type) : Type := {
  draft_of : ChatOutboxDraft P; status : ChatOutboxStatus; attempts : Z; createdAt : Z; updatedAt : Z; nextAttemptAt : option Z;
  error : option string
}.
Arguments draft_of {P} _. Arguments status {P} _. Arguments attempts {P} _. Arguments createdAt {P} _.
Arguments updatedAt {P} _. Arguments nextAttemptAt {P} _. Arguments error {P} _.

Section outbox.
Context {P : Type}.
Implicit Types (q : list (ChatOutboxItem P)).

Definition localId (i : ChatOutboxItem P) : string := dr_localId (draft_of i).

Definition enqueueChatOutboxItem q (draft : ChatOutboxDraft P) (now : Z) : list (ChatOutboxItem P) :=
  if existsb (fun i => bool_decide (localId i = dr_localId draft)) q then q
  else q ++ [{| draft_of := draft; status := queued; attempts := 0; createdAt := now; updatedAt := now; nextAttemptAt := None; error := None |}].

Definition on_item (id : string) (f : ChatOutboxItem P -> ChatOutboxItem P) (i : ChatOutboxItem P) : ChatOutboxItem P :=
  if decide (localId i = id) then f i else i.

Definition sending_item (now : Z) (i : ChatOutboxItem P) : ChatOutboxItem P :=
  {| draft_of := draft_of i; status := sending; attempts := attempts i + 1; createdAt := createdAt i; updatedAt := now;
     nextAttemptAt := None; error := None |}.

Definition markChatOutboxSending q (id : string) (now : Z) : list (ChatOutboxItem P) := on_item id (sending_item now) <$> q.

Definition completeChatOutboxItem q (id : string) : list (ChatOutboxItem P) := filter (fun i => localId i <> id) q.

Definition failed_item (now delay : Z) (message : option string) (i : ChatOutboxItem P) : ChatOutboxItem P :=
  {| draft_of := draft_of i; status := failed; attempts := attempts i; createdAt := createdAt i; updatedAt := now;
     nextAttemptAt := Some (now + delay);
     error := match message with Some m => if truthy m then Some m else error i | None => error i end |}.

Definition failChatOutboxItem q (id : string) (now : Z) (retryDelayMs : option Z) (message : option string) : list (ChatOutboxItem P) :=
  on_item id (failed_item now (default 5000 retryDelayMs) message) <$> q.

Definition ready_at (now : Z) (i : ChatOutboxItem P) : bool :=
  match status i with queued => true | sending => false | failed => default 0 (nextAttemptAt i) <=? now end.

Definition chatOutboxReadyToDrain q (now : Z) : list (ChatOutboxItem P) := filter (fun i => ready_at now i = true) q.
End outbox.

(** ** End-to-end encryption status *)
Inductive ChatE2eeStatus : Set := e2ee_unknown | e2ee_preparing | e2ee_ready | e2ee_blocked | e2ee_error.

Record ChatE2eeProjectionEntry : Set := { e2ee_status : ChatE2eeStatus; e2ee_updatedAt : Z; e2ee_message : option string }.

#[export] Instance ChatE2eeProjectionEntry_eq_dec : EqDecision ChatE2eeProjectionEntry.
Proof. assert (EqDecision ChatE2eeStatus) by solve_decision. solve_decision. Defined.

Definition trimmed (s : string) : string := String.string_of_list_ascii (trim (T s)).

(** No value when the projection itself is returned. *)
Definition setChatE2eeProjectionStatus (p : gmap string ChatE2eeProjectionEntry) (key : string) (st : ChatE2eeStatus) (now : Z)
    (message : option string) : option (gmap string ChatE2eeProjectionEntry) :=
  let normalizedKey := trimmed key in
  if negb (truthy normalizedKey) then None
  else
    let next := {| e2ee_status := st; e2ee_updatedAt := now; e2ee_message := match message with Some m => if truthy m then Some m else None | None => None end |} in
    if bool_decide (p !! normalizedKey = Some next) then None else Some (<[normalizedKey := next]> p).

Definition clearChatE2eeProjectionStatus (p : gmap string ChatE2eeProjectionEntry) (key : string) : gmap string ChatE2eeProjectionEntry := delete key p.

Definition chatE2eeProjectionCanSend (p : gmap string ChatE2eeProjectionEntry) (key : string) : bool :=
  match p !! key with Some {| e2ee_status := e2ee_ready |} => true | _ => false end.

(** ** Messages *)
Record ChatMessage : Set := {
  ulid : option string; senderPtid : option string; content : option string; replyToUlid : option string; threadRootUlid : option string;
  recalled : option bool; m_status : option Z; encryptedPayload : option (list Z); editedAt : option Z; message_rest : nat
}.

Definition id_of (m : ChatMessage) : string := default ""%string (ulid m).

(** [if (message.ulid)] *)
Definition has_id (m : ChatMessage) : bool := truthy (id_of m).

Definition isOwnChatMessage (m : ChatMessage) (currentUserPtid : option string) : bool :=
  match currentUserPtid with Some u => truthy u && bool_decide (senderPtid m = Some u) | None => false end.

Definition messageReplyToUlid (m : ChatMessage) : string := default ""%string (replyToUlid m).
Definition messageThreadRootUlid (m : ChatMessage) : string := default ""%string (threadRootUlid m).
Definition isExplicitChatThreadReply (m : ChatMessage) : bool := truthy (messageThreadRootUlid m).
Definition isRecalledChatMessage (m : ChatMessage) : bool := bool_decide (recalled m = Some true).

Inductive ChatMessageDisplayKind : Set := display_text | display_recalled | display_encrypted | display_empty.

Definition chatMessageDisplayKind (content : option string) (recalled encrypted : bool) : ChatMessageDisplayKind :=
  if recalled then display_recalled else if encrypted then display_encrypted
  else if truthy (trimmed (default ""%string content)) then display_text else display_empty.

Definition chatMessageSearchText (m : ChatMessage) (encrypted : bool) : string :=
  if default false (recalled m) || encrypted then "" else default ""%string (content m).

Definition canEditChatMessage (own recalled encrypted : bool) (content : option string) : bool :=
  own && negb recalled && negb encrypted && truthy (trimmed (default ""%string content)).

Definition chatMessageSenderPtids (messages : list ChatMessage) (currentUserPtid : option string) : list string :=
  js_set_of (omap (fun m => match senderPtid m with Some d => if truthy d && negb (bool_decide (currentUserPtid = Some d)) then Some d else None | None => None end) messages).

Section ordered.
Context `{Locale} (resolveTimestampMs : ChatMessage -> Z).

Definition compareMessages (a b : ChatMessage) : Z :=
  let timestampDelta := resolveTimestampMs a - resolveTimestampMs b in
  if negb (timestampDelta =? 0) then timestampDelta else localeCompare (id_of a) (id_of b).

Definition by_ulid (messages : list ChatMessage) : jsmap ChatMessage :=
  fold_left (fun m x => if has_id x then <[id_of x := x]> m else m) messages ∅.

Definition mergeChatMessages (messages : list ChatMessage) (incoming : ChatMessage) (shouldInclude : option (ChatMessage -> bool))
    (mergeExisting : option (ChatMessage -> ChatMessage -> ChatMessage)) : list ChatMessage :=
  if negb (has_id incoming) then messages
  else if match shouldInclude with Some include => negb (include incoming) | None => false end then messages
  else
    let byUlid := by_ulid messages in
    let merged := match byUlid !! id_of incoming, mergeExisting with
                  | Some current, Some merge => merge current incoming
                  | _, _ => incoming
                  end in
    sort_with compareMessages (jm_values (<[id_of incoming := merged]> byUlid)).

Definition CHAT_THREAD_ROOT_PREVIEW_LIMIT : Z := 10.

(** [slice] from the front, a negative count counting none. *)
Definition slice_from {A} (n : Z) (l : list A) : list A := drop (Z.to_nat n) l.

Definition thread_reply (rootUlid : string) (m : ChatMessage) : bool :=
  has_id m && negb (bool_decide (id_of m = rootUlid)) && bool_decide (messageThreadRootUlid m = rootUlid).

Definition collectChatThreadPreviewMessages (rootUlid : string) (currentMessages loadedThreadMessages : list ChatMessage) (limit : Z) : list ChatMessage :=
  if negb (truthy rootUlid) || (limit <=? 0) then []
  else
    let byUlid := fold_left (fun m x => if thread_reply rootUlid x then <[id_of x := x]> m else m) (currentMessages ++ loadedThreadMessages) (∅ : jsmap ChatMessage) in
    let sortedMessages := sort_with compareMessages (jm_values byUlid) in
    slice_from (Z.max 0 (Z.of_nat (length sortedMessages) - limit)) sortedMessages.
End ordered.

Definition countChatThreadReplies (messages : list ChatMessage) (rootUlid : string) : Z :=
  if negb (truthy rootUlid) then 0 else Z.of_nat (length (filter (fun m => messageThreadRootUlid m = rootUlid) messages)).

Definition countHiddenEarlierChatThreadReplies (total preview : Z) : Z := Z.max 0 (total - preview).

Fixpoint unique_messages (seen : list string) (l : list ChatMessage) : list ChatMessage :=
  match l with
  | [] => []
  | m :: l => if negb (has_id m) || js_set_has (id_of m) seen then unique_messages seen l else m :: unique_messages (js_set_add (id_of m) seen) l
  end.

Definition mergeUniqueChatMessages (existing incoming : list ChatMessage) : list ChatMessage := unique_messages [] (existing ++ incoming).

Record ChatThreadSurface : Set := { rootMessage : option ChatMessage; replies : list ChatMessage; displayMessages : list ChatMessage }.

Definition find_message (id : string) (l : list ChatMessage) : option ChatMessage := head (filter (fun m => ulid m = Some id) l).

Definition buildChatThreadSurface (rootUlid : option string) (currentMessages loadedThreadMessages : list ChatMessage) : ChatThreadSurface :=
  let find l := match rootUlid with Some id => if truthy id then find_message id l else None | None => None end in
  let root := match find loadedThreadMessages, find currentMessages with
              | Some m, _ => Some m
              | None, Some m => Some m
              | None, None => head loadedThreadMessages
              end in
  match root with
  | None => {| rootMessage := None; replies := []; displayMessages := [] |}
  | Some root =>
      let loadedReplies := filter (fun m => ulid m <> ulid root) loadedThreadMessages in
      let replies := if decide (loadedReplies = [])
                     then filter (fun m => ulid m <> ulid root /\ Some (messageThreadRootUlid m) = ulid root) currentMessages
                     else loadedReplies in
      {| rootMessage := Some root; replies := replies; displayMessages := root :: replies |}
  end.

Definition chatThreadReplyTargetUlid (root replyTarget : option ChatMessage) : string :=
  let id o := default ""%string (o ≫= ulid) in if truthy (id replyTarget) then id replyTarget else id root.

(** *** Receipts, mutations, decrypted content

    No value when nothing changed. *)
Record ChatReceiptStatusMap : Set := { delivered : Z; read : Z }.

Inductive ReceiptKind : Set := kind_number (n : Z) | kind_text (s : string).

#[export] Instance ReceiptKind_eq_dec : EqDecision ReceiptKind.
Proof. solve_decision. Defined.

Definition resolveChatMessageReceiptStatus (kind : ReceiptKind) (statuses : ChatReceiptStatusMap) : option Z :=
  if bool_decide (kind = kind_number (delivered statuses)) || bool_decide (kind = kind_text "DELIVERED") then Some (delivered statuses)
  else if bool_decide (kind = kind_number (read statuses)) || bool_decide (kind = kind_text "READ") then Some (read statuses)
  else None.

Definition with_status (st : Z) (m : ChatMessage) : ChatMessage := {|
  ulid := ulid m; senderPtid := senderPtid m; content := content m; replyToUlid := replyToUlid m; threadRootUlid := threadRootUlid m;
  recalled := recalled m; m_status := Some st; encryptedPayload := encryptedPayload m; editedAt := editedAt m; message_rest := message_rest m |}.

Definition with_content (c : option string) (m : ChatMessage) : ChatMessage := {|
  ulid := ulid m; senderPtid := senderPtid m; content := c; replyToUlid := replyToUlid m; threadRootUlid := threadRootUlid m;
  recalled := recalled m; m_status := m_status m; encryptedPayload := encryptedPayload m; editedAt := editedAt m; message_rest := message_rest m |}.

(** [messages.map(f)] with the flag that some call of [f] set. *)
Definition map_changed (f : ChatMessage -> option ChatMessage) (messages : list ChatMessage) : option (list ChatMessage) :=
  if existsb (fun m => bool_decide (is_Some (f m))) messages then Some ((fun m => default m (f m)) <$> messages) else None.

Definition receipt_on (messageUlid : string) (nextStatus : Z) (m : ChatMessage) : option ChatMessage :=
  if bool_decide (ulid m <> Some messageUlid) || (nextStatus <=? default 0 (m_status m)) then None else Some (with_status nextStatus m).

Definition applyChatMessageReceiptToList (messages : list ChatMessage) (messageUlid : string) (nextStatus : option Z) : option (list ChatMessage) :=
  match nextStatus with None => None | Some st => map_changed (receipt_on messageUlid st) messages end.

Inductive ChatMessageMutation : Set := RECALL | EDIT (newContent : option string) (newCiphertext : option (list Z)) (mutatedTsUnixMs : option Z) | DELETE.

Section mutate.
Variables (now : Z) (createEditedAt : option (Z -> option Z)) (emptyCiphertext : list Z) (canMutateMessage : option (ChatMessage -> bool)).

Definition recall_message_ (m : ChatMessage) : ChatMessage := {|
  ulid := ulid m; senderPtid := senderPtid m; content := Some ""%string; replyToUlid := replyToUlid m; threadRootUlid := threadRootUlid m;
  recalled := Some true; m_status := m_status m; encryptedPayload := Some emptyCiphertext; editedAt := editedAt m; message_rest := message_rest m |}.

Definition edit_message_ (newContent : option string) (newCiphertext : option (list Z)) (mutatedTsUnixMs : option Z) (m : ChatMessage) : ChatMessage := {|
  ulid := ulid m; senderPtid := senderPtid m; content := match newContent with Some c => if truthy c then Some c else content m | None => content m end;
  replyToUlid := replyToUlid m; threadRootUlid := threadRootUlid m; recalled := recalled m; m_status := m_status m;
  encryptedPayload := match newCiphertext with
                      | Some (b :: bytes) => Some (b :: bytes)
                      | _ => Some (default emptyCiphertext (encryptedPayload m))
                      end;
  editedAt := match createEditedAt ≫= (fun create => create (default now mutatedTsUnixMs)) with Some t => Some t | None => editedAt m end;
  message_rest := message_rest m |}.

Definition mutate_on (messageUlid : string) (mutation : ChatMessageMutation) (m : ChatMessage) : option ChatMessage :=
  if bool_decide (ulid m <> Some messageUlid) then None
  else if match canMutateMessage with Some can => negb (can m) | None => false end then None
  else match mutation with
       | RECALL => if default false (recalled m) then None else Some (recall_message_ m)
       | EDIT c b t => Some (edit_message_ c b t m)
       | DELETE => None
       end.

Definition applyChatMessageMutationToList (messages : list ChatMessage) (messageUlid : string) (mutation : ChatMessageMutation) : option (list ChatMessage) :=
  match mutation with
  | DELETE =>
      if existsb (fun m => bool_decide (ulid m = Some messageUlid)) messages
      then Some (filter (fun m => ulid m <> Some messageUlid) messages) else None
  | _ => map_changed (mutate_on messageUlid mutation) messages
  end.
End mutate.

Definition applyChatDecryptedContentToList (messages : list ChatMessage) (messageUlid plaintext : string) : option (list ChatMessage) :=
  if negb (truthy plaintext) then None
  else map_changed (fun m => if bool_decide (ulid m <> Some messageUlid) || bool_decide (content m = Some plaintext) then None
                             else Some (with_content (Some plaintext) m)) messages.

(** ** Typing and presence *)
Record ChatTypingEntry : Set := { typing : bool; lastUpdate : Z }.
Abbreviation ChatTypingPeers := (gmap string (gmap string ChatTypingEntry)).

Definition applyChatTypingStateToMap (typingPeers : ChatTypingPeers) (sessionUlid fromActorId : string) (typing : bool) (now : Z) : option ChatTypingPeers :=
  let sessionMap := default ∅ (typingPeers !! sessionUlid) in
  if negb typing && negb (bool_decide (is_Some (sessionMap !! fromActorId))) then None
  else Some (<[sessionUlid := <[fromActorId := {| typing := typing; lastUpdate := now |}]> sessionMap]> typingPeers).

Definition fresh_entry (staleBefore : Z) (e : ChatTypingEntry) : bool := typing e && (staleBefore <=? lastUpdate e).

Definition fresh_actors (staleBefore : Z) (byActor : gmap string ChatTypingEntry) : gmap string ChatTypingEntry :=
  filter (fun kv => fresh_entry staleBefore kv.2 = true) byActor.

(** A session with nobody fresh is left out. *)
Definition fresh_session (staleBefore : Z) (byActor : gmap string ChatTypingEntry) : option (gmap string ChatTypingEntry) :=
  let nextActors := fresh_actors staleBefore byActor in if decide (nextActors = ∅) then None else Some nextActors.

Definition pruneChatTypingPeers (typingPeers : ChatTypingPeers) (staleBefore : Z) : option ChatTypingPeers :=
  let changed := existsb (fun session => existsb (fun actor => negb (fresh_entry staleBefore actor.2)) (map_to_list session.2)) (map_to_list typingPeers) in
  if changed then Some (omap (fresh_session staleBefore) typingPeers) else None.

Definition applyChatPresenceToMap (presence : gmap string bool) (actorPtid : string) (online : bool) : option (gmap string bool) :=
  if negb (truthy actorPtid) then None
  else if bool_decide (presence !! actorPtid = Some online) then None
  else Some (<[actorPtid := online]> presence).

Definition seedChatPresenceFromParticipants (participants : list (option string * bool)) : gmap string bool :=
  fold_left (fun presence p => match p with
    | (Some actor, online) => if negb (truthy actor) || bool_decide (is_Some (presence !! actor)) then presence else <[actor := online]> presence
    | (None, _) => presence
    end) participants ∅.

(** ** Notifications *)
Record ChatNotification : Set := {
  n_id : option string; n_status : option Z; n_category : option ReceiptKind; readAt : option string; n_rest : option nat
}.

Definition nid (n : ChatNotification) : string := default ""%string (n_id n).

(** [{ ...existing, ...notification }]: fields that are absent in the second come from the first. *)
Definition overlay (existing n : ChatNotification) : ChatNotification := {|
  n_id := n_id n; n_status := match n_status n with Some s => Some s | None => n_status existing end;
  n_category := match n_category n with Some s => Some s | None => n_category existing end;
  readAt := match readAt n with Some s => Some s | None => readAt existing end;
  n_rest := match n_rest n with Some s => Some s | None => n_rest existing end |}.

Section notifications.
Context `{Locale} (resolveCreatedAt : ChatNotification -> Z).

Definition compareNotifications (a b : ChatNotification) : Z :=
  let timestampDelta := resolveCreatedAt b - resolveCreatedAt a in
  if negb (timestampDelta =? 0) then timestampDelta else localeCompare (nid b) (nid a).

Definition add_notification (byId : jsmap ChatNotification) (n : ChatNotification) : jsmap ChatNotification :=
  if negb (truthy (nid n)) then byId
  else <[nid n := match byId !! nid n with Some existing => overlay existing n | None => n end]> byId.

Definition mergeChatNotifications (current incoming : list ChatNotification) (limit : option Z) : list ChatNotification :=
  let merged := sort_with compareNotifications (jm_values (fold_left add_notification (current ++ incoming) ∅)) in
  match limit with
  | Some l => if l =? 0 then merged else if l <? 0 then take (length merged - Z.to_nat (- l)) merged else take (Z.to_nat l) merged
  | None => merged
  end.
End notifications.

Definition filterUnreadChatNotifications (l : list ChatNotification) (unreadStatus : Z) : list ChatNotification :=
  filter (fun n => n_status n = Some unreadStatus) l.

Definition projectChatNotificationUnreadCount (l : list ChatNotification) (unreadStatus unreadTotal : Z) : Z :=
  if 0 <? unreadTotal then unreadTotal else Z.of_nat (length (filterUnreadChatNotifications l unreadStatus)).

Definition read_notification (readStatus : Z) (at_ : string) (n : ChatNotification) : ChatNotification :=
  {| n_id := n_id n; n_status := Some readStatus; n_category := n_category n; readAt := Some at_; n_rest := n_rest n |}.

Definition targeted (ids : list string) (n : ChatNotification) : bool := truthy (nid n) && bool_decide (nid n ∈ ids).

Definition applyChatNotificationsRead (l : list ChatNotification) (ids : list string) (readStatus : Z) (at_ : string) : list ChatNotification :=
  (fun n => if targeted ids n then read_notification readStatus at_ n else n) <$> l.

Definition applyAllChatNotificationsRead (l : list ChatNotification) (readStatus : Z) (at_ : string) (category : option ReceiptKind) : list ChatNotification :=
  (fun n => match category with
            | Some c => if bool_decide (n_category n = Some c) then read_notification readStatus at_ n else n
            | None => read_notification readStatus at_ n
            end) <$> l.

Definition deleteChatNotifications (l : list ChatNotification) (ids : list string) : list ChatNotification :=
  filter (fun n => targeted ids n = false) l.

(** ** Unread counters *)
Definition sumChatUnreadCounters (counters : gmap string Z) : Z := map_fold (fun _ count sum => sum + count) 0 counters.

Definition bumpChatUnreadCounter (counters : gmap string Z) (conversationId : string) : option (gmap string Z) :=
  if negb (truthy conversationId) then None else Some (<[conversationId := default 0 (counters !! conversationId) + 1]> counters).

Definition clearChatUnreadCounter (counters : gmap string Z) (conversationId : string) : option (gmap string Z) :=
  if negb (truthy conversationId) || bool_decide (default 0 (counters !! conversationId) = 0) then None else Some (delete conversationId counters).

Record ChatParticipantUnread : Set := {
  p_ulid : option string; participantAPtid : option string; participantBPtid : option string; unreadCountA : option Z; unreadCountB : option Z;
  p_rest : nat
}.

Definition viewer (viewerDid : option string) : option string := match viewerDid with Some v => if truthy v then Some v else None | None => None end.

Definition chatUnreadForParticipant (session : ChatParticipantUnread) (viewerDid : option string) : Z :=
  let unreadA := default 0 (unreadCountA session) in
  let unreadB := default 0 (unreadCountB session) in
  match viewer viewerDid with
  | None => Z.max unreadA unreadB
  | Some v => if bool_decide (participantAPtid session = Some v) then unreadA
              else if bool_decide (participantBPtid session = Some v) then unreadB else Z.max unreadA unreadB
  end.

Definition clear_session (v : string) (s : ChatParticipantUnread) : ChatParticipantUnread :=
  let set a b := {| p_ulid := p_ulid s; participantAPtid := participantAPtid s; participantBPtid := participantBPtid s;
                    unreadCountA := a; unreadCountB := b; p_rest := p_rest s |} in
  if bool_decide (participantAPtid s = Some v) then set (Some 0) (unreadCountB s)
  else if bool_decide (participantBPtid s = Some v) then set (unreadCountA s) (Some 0) else s.

Definition clearChatUnreadForParticipant (sessions : list ChatParticipantUnread) (sessionUlid viewerDid : option string) : list ChatParticipantUnread :=
  match viewer sessionUlid, viewer viewerDid with
  | Some id, Some v => (fun s => if bool_decide (p_ulid s = Some id) then clear_session v s else s) <$> sessions
  | _, _ => sessions
  end.

(** ** Conversations *)
Record ChatConversationPreference : Set := { sticky : option bool; muted : option bool; alertEnabled : option bool }.

Definition chatConversationSuppressesAlerts (p : option ChatConversationPreference) : bool :=
  match p with Some p => default false (muted p) || bool_decide (alertEnabled p = Some false) | None => false end.

Definition visibleChatConversationUnread (unread : Z) (p : option ChatConversationPreference) : Z :=
  if chatConversationSuppressesAlerts p then 0 else unread.

Inductive IMConversationKind : Set := im_friend | im_group.
Definition im_kind_text (k : IMConversationKind) : string := match k with im_friend => "friend" | im_group => "group" end.

(** Counts and times are finite; preview, status, error and cursor are one reference. *)
Record IMConversationProjectionInput : Set := {
  i_kind : IMConversationKind; i_id : string; i_title : string; i_avatar : option string; i_lastActivityMs : Z; i_unread : Z;
  i_muted : option bool; i_alertEnabled : option bool; i_hidden : option bool; i_rest : nat
}.

Record IMConversationProjection : Set := {
  c_kind : IMConversationKind; c_id : string; c_title : string; c_avatar : string; c_lastActivityMs : Z; c_unread : Z; c_visibleUnread : Z;
  c_muted : bool; c_alertEnabled : bool; c_hidden : bool; c_rest : nat
}.

Definition projectIMConversation (i : IMConversationProjectionInput) : IMConversationProjection :=
  let muted := default false (i_muted i) in
  let alertEnabled := negb (bool_decide (i_alertEnabled i = Some false)) in
  let unread := Z.max 0 (i_unread i) in
  {| c_kind := i_kind i; c_id := i_id i; c_title := i_title i; c_avatar := default ""%string (i_avatar i); c_lastActivityMs := i_lastActivityMs i;
     c_unread := unread;
     c_visibleUnread := visibleChatConversationUnread unread (Some {| sticky := None; muted := Some muted; alertEnabled := Some alertEnabled |});
     c_muted := muted; c_alertEnabled := alertEnabled; c_hidden := default false (i_hidden i); c_rest := i_rest i |}.

Definition compareConversations `{Locale} (a b : IMConversationProjection) : Z :=
  let activityDelta := c_lastActivityMs b - c_lastActivityMs a in
  if negb (activityDelta =? 0) then activityDelta
  else localeCompare (im_kind_text (c_kind a) ++ ":" ++ c_id a) (im_kind_text (c_kind b) ++ ":" ++ c_id b).

Definition projectIMConversations `{Locale} (inputs : list IMConversationProjectionInput) : list IMConversationProjection :=
  sort_with compareConversations (filter (fun c => c_hidden c = false) (projectIMConversation <$> inputs)).

(** * What the reducers keep *)

(** ** The outbox *)
Section outbox_facts.
Context {P : Type}.
Implicit Types (q : list (ChatOutboxItem P)) (i : ChatOutboxItem P).

Inductive OutboxOp : Type :=
| ob_enqueue (draft : ChatOutboxDraft P) (now : Z)
| ob_sending (id : string) (now : Z)
| ob_complete (id : string)
| ob_fail (id : string) (now : Z) (retryDelayMs : option Z) (message : option string).

Definition run_outbox q (o : OutboxOp) : list (ChatOutboxItem P) :=
  match o with
  | ob_enqueue draft now => enqueueChatOutboxItem q draft now
  | ob_sending id now => markChatOutboxSending q id now
  | ob_complete id => completeChatOutboxItem q id
  | ob_fail id now delay m => failChatOutboxItem q id now delay m
  end.

Definition item_ok i : Prop :=
  match status i with
  | queued => attempts i = 0 /\ nextAttemptAt i = None /\ error i = None
  | sending => 1 <= attempts i /\ nextAttemptAt i = None /\ error i = None
  | failed => 0 <= attempts i /\ is_Some (nextAttemptAt i)
  end.

Definition ids_of q : list string := localId <$> q.

(** What the history [ops] leaves in the queue. *)
Record outbox_ok (ops : list OutboxOp) q : Prop := {
  outbox_ids : NoDup (ids_of q);
  outbox_items : Forall item_ok q;
  outbox_drafts : forall i, i ∈ q -> ob_enqueue (draft_of i) (createdAt i) ∈ ops;
  outbox_kept : forall draft now, ob_enqueue draft now ∈ ops -> ob_complete (dr_localId draft) ∉ ops -> dr_localId draft ∈ ids_of q
}.

Lemma on_item_ids id f q : (forall i, draft_of (f i) = draft_of i) -> ids_of (on_item id f <$> q) = ids_of q.
Proof.
  intros Hf. unfold ids_of. rewrite <- list_fmap_compose. apply list_fmap_ext. intros n i _. unfold compose, on_item.
  destruct (decide _); [|done]. unfold localId. by rewrite Hf.
Qed.

Lemma outbox_ok_update ops o q id f :
  outbox_ok ops q -> (forall draft now, o <> ob_enqueue draft now) ->
  (forall i, draft_of (f i) = draft_of i /\ createdAt (f i) = createdAt i) -> (forall i, item_ok i -> item_ok (f i)) ->
  outbox_ok (ops ++ [o]) (on_item id f <$> q).
Proof.
  intros [Hn Hi Hd Hk] Ho Hf Hok. split.
  - rewrite on_item_ids; [done | apply Hf].
  - apply Forall_fmap. eapply Forall_impl; [exact Hi|]. intros i. unfold compose, on_item. destruct (decide _); auto.
  - intros i' (i & -> & Hin)%list_elem_of_fmap. rewrite elem_of_app. left. unfold on_item.
    destruct (decide _); [destruct (Hf i) as [-> ->]|]; by apply Hd.
  - intros draft now. rewrite on_item_ids by apply Hf. rewrite elem_of_app, not_elem_of_app, list_elem_of_singleton.
    intros [Hin|<-] [Hc _]; [by eapply Hk | by destruct (Ho draft now)].
Qed.

Lemma outbox_ok_step ops o q : outbox_ok ops q -> outbox_ok (ops ++ [o]) (run_outbox q o).
Proof.
  intros Hq. destruct o as [draft now|id now|id|id now delay m]; cbn [run_outbox].
  - pose proof Hq as [Hn Hi Hd Hk]. unfold enqueueChatOutboxItem. destruct (existsb _ q) eqn:He.
    + apply existsb_exists in He as (i & Hin & Hid%bool_decide_eq_true). apply list_elem_of_In in Hin. split; [done..| |].
      * intros i' Hi'. rewrite elem_of_app. left. by apply Hd.
      * intros d n. rewrite elem_of_app, not_elem_of_app, list_elem_of_singleton. intros [Hd'|[= -> ->]] [Hc _]; [by eapply Hk|].
        rewrite <- Hid. by apply (list_elem_of_fmap_2 localId).
    + assert (Hni : dr_localId draft ∉ ids_of q).
      { intros (i & Hid & Hin)%list_elem_of_fmap. apply not_true_iff_false in He. apply He, existsb_exists. exists i.
        split; [by apply list_elem_of_In | by apply bool_decide_eq_true]. }
      split.
      * unfold ids_of in *. rewrite fmap_app. apply NoDup_app. cbn. split_and!; [done | set_solver | apply NoDup_singleton].
      * apply Forall_app_2; [done|]. by repeat constructor.
      * intros i. rewrite !elem_of_app, !list_elem_of_singleton. intros [Hin| ->]; [left; by apply Hd | by right].
      * intros d n. unfold ids_of. rewrite fmap_app, !elem_of_app, list_elem_of_singleton. cbn.
        intros [Hd'|[= -> ->]] Hc; [left; eapply Hk; [done | tauto] | right; by apply list_elem_of_singleton].
  - apply outbox_ok_update; [done..|]. intros i. unfold item_ok. cbn. intros Hi. split; [destruct (status i); destruct Hi; lia | done].
  - destruct Hq as [Hn Hi Hd Hk]. unfold completeChatOutboxItem. split.
    + unfold ids_of. eapply sublist_NoDup; [exact Hn|]. apply fmap_sublist, sublist_filter.
    + apply Forall_forall. intros i [_ Hin]%list_elem_of_filter. rewrite Forall_forall in Hi. by apply Hi.
    + intros i [_ Hin]%list_elem_of_filter. rewrite elem_of_app. left. by apply Hd.
    + intros d n. rewrite elem_of_app, not_elem_of_app, !list_elem_of_singleton. intros [Hd'|[=]] [Hc Hne].
      destruct (proj1 (list_elem_of_fmap _ _ _) (Hk d n Hd' Hc)) as (i & Hid & Hin). rewrite Hid. apply (list_elem_of_fmap_2 localId).
      apply list_elem_of_filter. split; [|done]. rewrite <- Hid. congruence.
  - apply outbox_ok_update; [done..|]. intros i. unfold item_ok. cbn. intros Hi. split; [destruct (status i); destruct Hi; lia | eauto].
Qed.

(** The outbox, after any history of drafts, attempts, failures and completions.
    Every item has its own local id and is the first draft that came with it; a draft stays
    until it is completed, so no message is lost. A queued item was never tried, one being
    sent carries no error, a failed one says when to try again. Draining takes exactly the
    items that are queued or whose time has come, never one being sent, and from some time
    on it takes every item that is not being sent. *)
Theorem chat_outbox_correct (ops : list OutboxOp) :
  let q := fold_left run_outbox ops [] in
  NoDup (ids_of q) /\ Forall item_ok q
  /\ (forall i, i ∈ q -> ob_enqueue (draft_of i) (createdAt i) ∈ ops)
  /\ (forall draft now, ob_enqueue draft now ∈ ops -> ob_complete (dr_localId draft) ∉ ops -> dr_localId draft ∈ ids_of q)
  /\ (forall now i, i ∈ chatOutboxReadyToDrain q now <->
        i ∈ q /\ (status i = queued \/ status i = failed /\ exists t, nextAttemptAt i = Some t /\ t <= now))
  /\ exists t, forall now, t <= now -> forall i, i ∈ q -> status i <> sending -> i ∈ chatOutboxReadyToDrain q now.
Proof.
  intros q. assert (Hq : outbox_ok ops q).
  { unfold q. induction ops as [|o ops IH] using rev_ind; [split; set_solver by constructor|]. rewrite fold_left_app. by apply outbox_ok_step. }
  clearbody q. destruct Hq as [Hn Hi Hd Hk]. split_and!; try done.
  - intros now i. unfold chatOutboxReadyToDrain. rewrite list_elem_of_filter. split.
    + intros [Hr Hin]. split; [done|]. rewrite Forall_forall in Hi. specialize (Hi i Hin). unfold ready_at, item_ok in *.
      destruct (status i); [by left | done |]. destruct Hi as [_ [t Ht]]. right. split; [done|]. exists t. rewrite Ht in *. split; [done|].
      by apply Z.leb_le.
    + intros [Hin [Hs|[Hs (t & Ht & Hle)]]]; (split; [|done]); unfold ready_at; rewrite Hs; [done|]. rewrite Ht. by apply Z.leb_le.
  - assert (Ht : exists t, forall i, i ∈ q -> default 0 (nextAttemptAt i) <= t).
    { clear. induction q as [|i q [t Ht]]; [exists 0; set_solver|]. exists (Z.max t (default 0 (nextAttemptAt i))).
      intros j [->|Hj]%elem_of_cons; [lia|]. specialize (Ht j Hj). lia. }
    destruct Ht as [t Ht]. exists t. intros now Hnow i Hin Hs. apply list_elem_of_filter. split; [|done].
    unfold ready_at. specialize (Ht i Hin). destruct (status i); [done | done | apply Z.leb_le; lia].
Qed.
End outbox_facts.

(** ** Receipts *)
Lemma map_changed_spec f messages : default messages (map_changed f messages) = (fun m => default m (f m)) <$> messages.
Proof.
  unfold map_changed. destruct (existsb _ messages) eqn:He; [done|]. cbn. symmetry. rewrite <- (list_fmap_id messages) at 2.
  apply list_fmap_ext. intros i m Hm. cbn. destruct (f m) eqn:Hf; [|done]. apply not_true_iff_false in He. destruct He.
  apply existsb_exists. exists m. split; [apply list_elem_of_In; by eapply list_elem_of_lookup_2 | by rewrite Hf].
Qed.

(** What the store does with a receipt: it keeps its list when there is nothing to change. *)
Definition receive (messages : list ChatMessage) (receipt : string * option Z) : list ChatMessage :=
  default messages (applyChatMessageReceiptToList messages receipt.1 receipt.2).

(** The highest status that receipts of a message carry. *)
Fixpoint highest (receipts : list (string * option Z)) (id : string) : option Z :=
  match receipts with
  | [] => None
  | (id', st) :: receipts => union_with (fun a b => Some (Z.max a b)) (if decide (id' = id) then st else None) (highest receipts id)
  end.

Definition raised (receipts : list (string * option Z)) (m : ChatMessage) : ChatMessage :=
  match ulid m ≫= highest receipts with
  | Some st => if st <=? default 0 (m_status m) then m else with_status st m
  | None => m
  end.

Lemma raised_step id st receipts m :
  raised receipts (default m (st ≫= fun st => receipt_on id st m)) = raised ((id, st) :: receipts) m.
Proof.
  unfold raised. destruct st as [st|]; cbn [mbind option_bind default].
  2: { destruct (ulid m) as [u|]; [|done]. cbn. destruct (decide (id = u)); by destruct (highest receipts u). }
  unfold receipt_on. destruct (ulid m) as [u|] eqn:Hu; cbn [mbind option_bind highest].
  2: { rewrite bool_decide_true by done. cbn. by rewrite Hu. }
  destruct (decide (id = u)) as [->|Hne].
  - rewrite bool_decide_false by (intros H; by apply H). cbn [orb]. destruct (Z.leb_spec st (default 0 (m_status m))) as [Hle|Hgt]; cbn.
    + rewrite Hu. cbn. destruct (highest receipts u) as [h|]; cbn.
      * destruct (Z.leb_spec h (default 0 (m_status m))), (Z.leb_spec (Z.max st h) (default 0 (m_status m))); try lia; [done|].
        by rewrite Z.max_r by lia.
      * by rewrite (proj2 (Z.leb_le _ _) Hle).
    + rewrite Hu. cbn. destruct (highest receipts u) as [h|]; cbn.
      * destruct (Z.leb_spec h st), (Z.leb_spec (Z.max st h) (default 0 (m_status m))); try lia;
          [by rewrite Z.max_l by lia | by rewrite Z.max_r by lia].
      * by rewrite (proj2 (Z.leb_gt _ _) Hgt).
  - rewrite bool_decide_true by congruence. cbn. rewrite Hu. cbn. by destruct (highest receipts u).
Qed.

Lemma receive_all receipts messages : fold_left receive receipts messages = raised receipts <$> messages.
Proof.
  revert messages. induction receipts as [|[id st] receipts IH]; intros messages; cbn [fold_left].
  - symmetry. rewrite <- (list_fmap_id messages) at 2. apply list_fmap_ext. intros i m _. unfold raised. by destruct (ulid m).
  - rewrite IH. assert (Hr : receive messages (id, st) = (fun m => default m (st ≫= fun st => receipt_on id st m)) <$> messages).
    { unfold receive, applyChatMessageReceiptToList. cbn. destruct st as [st|]; [apply map_changed_spec|].
      cbn. by rewrite list_fmap_id. }
    rewrite Hr, <- list_fmap_compose. apply list_fmap_ext. intros i m _. apply raised_step.
Qed.

Lemma highest_perm receipts receipts' id : receipts ≡ₚ receipts' -> highest receipts id = highest receipts' id.
Proof.
  induction 1 as [|[id1 st1] l l' _ IH|[id1 st1] [id2 st2] l|]; cbn; [done | by rewrite IH | | congruence].
  destruct (decide (id1 = id)), (decide (id2 = id)), st1, st2, (highest l id); cbn; f_equal; lia.
Qed.

(** Receipts of messages converge. Whatever the order in which delivery and read
    receipts arrive, and however often, the messages end up the same: each has the highest
    status that its receipts carry, or keeps its own when that is as high, and nothing else
    of it changes; so a status never goes back. *)
Theorem receipts_converge (messages : list ChatMessage) (receipts : list (string * option Z)) :
  fold_left receive receipts messages = raised receipts <$> messages
  /\ (forall receipts', receipts ≡ₚ receipts' -> fold_left receive receipts' messages = fold_left receive receipts messages)
  /\ (forall receipt, receipt ∈ receipts -> fold_left receive (receipts ++ [receipt]) messages = fold_left receive receipts messages)
  /\ (forall m, m ∈ messages -> default 0 (m_status m) <= default 0 (m_status (raised receipts m))
        /\ with_status 0 (raised receipts m) = with_status 0 m).
Proof.
  split_and!.
  - apply receive_all.
  - intros receipts' Hp. rewrite !receive_all. apply list_fmap_ext. intros i m _. unfold raised.
    destruct (ulid m) as [u|]; [|done]. cbn. by rewrite (highest_perm _ _ u Hp).
  - intros [id st] Hin. rewrite !receive_all. apply list_fmap_ext. intros i m _. unfold raised.
    destruct (ulid m) as [u|]; [|done]. cbn. f_equal.
    assert (Hh : highest (receipts ++ [(id, st)]) u = highest receipts u); [|by rewrite Hh].
    rewrite (highest_perm _ ((id, st) :: receipts)) by (symmetry; apply Permutation_cons_append).
    apply elem_of_Permutation in Hin as [k Hk]. rewrite (highest_perm _ _ u Hk). cbn.
    rewrite (highest_perm _ _ u Hk). cbn.
    destruct (decide (id = u)), st, (highest k u); cbn; f_equal; lia.
  - intros m _. unfold raised. destruct (ulid m ≫= highest receipts) as [st|]; [|done].
    destruct (Z.leb_spec st (default 0 (m_status m))); [done|]. split; [cbn; lia | by destruct m].
Qed.

(** ** Merging messages *)
Section merge_facts.
Context `{LocaleLaws} (resolveTimestampMs : ChatMessage -> Z).
Abbreviation compare := (compareMessages resolveTimestampMs).
Abbreviation merge := (fun messages incoming => mergeChatMessages resolveTimestampMs messages incoming None None).

Lemma message_total x y : cmp_le compare x y \/ cmp_le compare y x.
Proof.
  unfold cmp_le, compareMessages.
  destruct (Z.eqb_spec (resolveTimestampMs x - resolveTimestampMs y) 0), (Z.eqb_spec (resolveTimestampMs y - resolveTimestampMs x) 0);
    cbn [negb]; try lia. apply locale_total.
Qed.

Lemma message_trans x y z : cmp_le compare x y -> cmp_le compare y z -> cmp_le compare x z.
Proof.
  unfold cmp_le, compareMessages.
  destruct (Z.eqb_spec (resolveTimestampMs x - resolveTimestampMs y) 0), (Z.eqb_spec (resolveTimestampMs y - resolveTimestampMs z) 0),
    (Z.eqb_spec (resolveTimestampMs x - resolveTimestampMs z) 0); cbn [negb]; try lia. apply locale_trans.
Qed.

(** A conversation: every message has an id of its own. *)
Definition conversation (l : list ChatMessage) : Prop := NoDup (id_of <$> l) /\ Forall (fun m => has_id m = true) l.

Lemma by_ulid_wf l : jm_wf (by_ulid l).
Proof.
  unfold by_ulid. induction l as [|x l IH] using rev_ind; [apply jm_wf_empty|]. rewrite fold_left_app. cbn.
  destruct (has_id x); [by apply jm_wf_set | done].
Qed.

Lemma by_ulid_lookup l k m : conversation l -> by_ulid l !! k = Some m <-> m ∈ l /\ id_of m = k.
Proof.
  unfold by_ulid. revert k m. induction l as [|x l IH] using rev_ind; intros k m [Hn Hid]; [by split; [|intros [?%elem_of_nil _]]|].
  rewrite fmap_app in Hn. apply NoDup_app in Hn as (Hn & Hx & _). apply Forall_app in Hid as [Hid Hix].
  rewrite fold_left_app. cbn. rewrite (Forall_inv Hix), jm_lookup_set, elem_of_app, list_elem_of_singleton.
  assert (Hfresh : forall y, y ∈ l -> id_of y <> id_of x).
  { intros y Hy Heq. apply (Hx (id_of y)); [by apply (list_elem_of_fmap_2 id_of) | cbn; rewrite Heq; by left]. }
  destruct (decide (id_of x = k)) as [<-|Hne]; [|rewrite IH by done; naive_solver].
  split; [intros [= ->]; auto|]. intros [[Hy| ->] He]; [by destruct (Hfresh m Hy) | done].
Qed.

(** Merging a message into a conversation gives the sorted conversation in which it is the
    one with its id. *)
Lemma merge_spec l x :
  conversation l -> has_id x = true ->
  StronglySorted (cmp_le compare) (merge l x) /\ conversation (merge l x)
  /\ forall m, m ∈ merge l x <-> m = x \/ (m ∈ l /\ id_of m <> id_of x).
Proof.
  intros Hl Hx. cbn. unfold mergeChatMessages. rewrite Hx. cbn [negb].
  assert (Hm : (match by_ulid l !! id_of x with Some _ => x | None => x end) = x) by (by destruct (by_ulid l !! id_of x)).
  rewrite Hm. set (byUlid := <[id_of x := x]> (by_ulid l)).
  assert (Hwf : jm_wf byUlid) by apply jm_wf_set, by_ulid_wf.
  assert (Hlook : forall k m, byUlid !! k = Some m <-> id_of m = k /\ (m = x \/ (m ∈ l /\ id_of m <> id_of x))).
  { intros k m. unfold byUlid. rewrite jm_lookup_set. destruct (decide (id_of x = k)) as [<-|Hne].
    - split; [intros [= ->]; auto|]. by intros [He [-> |[_ Hne]]].
    - rewrite by_ulid_lookup by done. naive_solver. }
  assert (Hmem : forall m, m ∈ sort_with compare (jm_values byUlid) <-> m = x \/ (m ∈ l /\ id_of m <> id_of x)).
  { intros m. rewrite sort_with_elem, jm_elem_of_values by done. split; [intros [k Hk]; by apply Hlook in Hk as [_ ?]|].
    intros Hin. exists (id_of m). by apply Hlook. }
  split_and!; [apply sort_with_sorted; [apply message_total | apply message_trans] | | done].
  split.
  - rewrite sort_with_perm. assert (Hkeys : id_of <$> jm_values byUlid = jm_keys byUlid); [|by rewrite Hkeys].
    unfold jm_values, jm_keys. rewrite <- list_fmap_compose. apply list_fmap_ext. intros i [k m] Hi.
    apply list_elem_of_lookup_2, (jm_lookup_entries _ _ _ Hwf), Hlook in Hi. apply Hi.
  - apply Forall_forall. intros m Hin%Hmem. destruct Hl as [_ Hl]. rewrite Forall_forall in Hl. destruct Hin as [->|[? _]]; auto.
Qed.

Lemma merge_all l incoming :
  conversation l -> StronglySorted (cmp_le compare) l -> conversation incoming ->
  StronglySorted (cmp_le compare) (fold_left merge incoming l) /\ conversation (fold_left merge incoming l)
  /\ forall m, m ∈ fold_left merge incoming l <-> m ∈ incoming \/ (m ∈ l /\ id_of m ∉ id_of <$> incoming).
Proof.
  intros Hl Hs. induction incoming as [|x incoming IH] using rev_ind; intros [Hn Hid]; [split_and!; set_solver|].
  rewrite fmap_app in Hn. apply NoDup_app in Hn as (Hn & Hx & _). apply Forall_app in Hid as [Hid Hix].
  destruct IH as (_ & Hc & Hm); [done|]. rewrite fold_left_app.
  destruct (merge_spec (fold_left merge incoming l) x Hc (Forall_inv Hix)) as (Hs' & Hc' & Hm'). split_and!; [done..|].
  intros m. cbn [fold_left]. rewrite Hm', Hm, fmap_app, !elem_of_app, list_elem_of_singleton. cbn. rewrite list_elem_of_singleton.
  assert (Hfresh : m ∈ incoming -> id_of m <> id_of x).
  { intros Hin Heq. apply (Hx (id_of m)); [by apply (list_elem_of_fmap_2 id_of) | cbn; rewrite Heq; by left]. }
  naive_solver.
Qed.

(** C34: the messages of a conversation arrive in any order. Merging messages with
    ids of their own into a sorted conversation gives the sorted conversation of all of
    them, each incoming one in place of the stored one with its id; and when the locale
    tells the ids apart, the order in which they arrived does not show in the result. *)
Theorem messages_converge (l incoming : list ChatMessage) :
  conversation l -> StronglySorted (cmp_le compare) l -> conversation incoming ->
  let result := fold_left merge incoming l in
  StronglySorted (cmp_le compare) result /\ conversation result
  /\ (forall m, m ∈ result <-> m ∈ incoming \/ (m ∈ l /\ id_of m ∉ id_of <$> incoming))
  /\ forall incoming',
       incoming ≡ₚ incoming' ->
       (forall a b, a ∈ id_of <$> (l ++ incoming) -> b ∈ id_of <$> (l ++ incoming) -> localeCompare a b <= 0 -> localeCompare b a <= 0 -> a = b) ->
       fold_left merge incoming' l = result.
Proof.
  intros Hl Hs Hi result. destruct (merge_all l incoming Hl Hs Hi) as (Hsr & Hcr & Hmr). split_and!; [done..|].
  intros incoming' Hp Hids.
  assert (Hi' : conversation incoming') by (destruct Hi as [Hn Hh]; split; by rewrite <- Hp).
  destruct (merge_all l incoming' Hl Hs Hi') as (Hsr' & Hcr' & Hmr').
  assert (Hsame : forall m, m ∈ fold_left merge incoming' l <-> m ∈ result).
  { intros m. unfold result. rewrite Hmr, Hmr'. by rewrite Hp. }
  apply (StronglySorted_unique_strong (cmp_le compare)); [|done..|].
  - intros x y Hx Hy Hxy Hyx. apply Hsame in Hx.
    assert (Hin : forall m, m ∈ result -> id_of m ∈ id_of <$> (l ++ incoming)).
    { intros m [Hm|[Hm _]]%Hmr; apply (list_elem_of_fmap_2 id_of), elem_of_app; auto. }
    assert (Hid : id_of x = id_of y).
    { unfold cmp_le, compareMessages in *.
      destruct (Z.eqb_spec (resolveTimestampMs x - resolveTimestampMs y) 0), (Z.eqb_spec (resolveTimestampMs y - resolveTimestampMs x) 0);
        cbn [negb] in *; try lia. by apply Hids; auto. }
    destruct Hcr as [Hn _]. apply list_elem_of_lookup in Hx as [i Hi1], Hy as [j Hj].
    assert (i = j) as ->; [|congruence]. apply (NoDup_lookup (id_of <$> result) i j (id_of x)); [done|..];
      rewrite list_lookup_fmap; [by rewrite Hi1 | rewrite Hj; cbn; by rewrite Hid].
  - apply NoDup_Permutation; [eapply NoDup_fmap_1, Hcr' | eapply NoDup_fmap_1, Hcr | done].
Qed.
End merge_facts.

(** ** Typing and unread counters *)
Lemma prune_lookup peers staleBefore s a :
  (omap (fresh_session staleBefore) peers : ChatTypingPeers) !! s ≫= (fun byActor => byActor !! a)
  = (peers !! s ≫= (fun byActor => byActor !! a)) ≫= (fun e => if fresh_entry staleBefore e then Some e else None).
Proof.
  rewrite lookup_omap. destruct (peers !! s) as [byActor|]; [|done]. cbn. unfold fresh_session.
  assert (Hf : fresh_actors staleBefore byActor !! a = byActor !! a ≫= (fun e => if fresh_entry staleBefore e then Some e else None)).
  { unfold fresh_actors. rewrite map_lookup_filter. destruct (byActor !! a) as [e|]; [|done]. cbn.
    destruct (fresh_entry staleBefore e) eqn:He; [by rewrite option_guard_True | by rewrite option_guard_False by congruence]. }
  destruct (decide (fresh_actors staleBefore byActor = ∅)) as [Hempty|]; cbn; [|done]. rewrite <- Hf, Hempty. by rewrite lookup_empty.
Qed.

(** Pruning leaves exactly the actors that type and were heard of since, and no session
    without one; it reports a change exactly when somebody has to go. *)
Theorem pruneChatTypingPeers_correct (peers : ChatTypingPeers) (staleBefore : Z) :
  match pruneChatTypingPeers peers staleBefore with
  | None => forall s byActor a e, peers !! s = Some byActor -> byActor !! a = Some e -> fresh_entry staleBefore e = true
  | Some next =>
      (exists s byActor a e, peers !! s = Some byActor /\ byActor !! a = Some e /\ fresh_entry staleBefore e = false)
      /\ (forall s a, next !! s ≫= (fun byActor => byActor !! a)
           = (peers !! s ≫= (fun byActor => byActor !! a)) ≫= (fun e => if fresh_entry staleBefore e then Some e else None))
      /\ forall s byActor, next !! s = Some byActor -> byActor <> ∅
  end.
Proof.
  unfold pruneChatTypingPeers. destruct (existsb _ _) eqn:He.
  - apply existsb_exists in He as ([s byActor] & Hs & He). apply existsb_exists in He as ([a e] & Ha & He). cbn in He.
    apply list_elem_of_In, elem_of_map_to_list in Hs, Ha. split_and!.
    + exists s, byActor, a, e. by destruct (fresh_entry staleBefore e).
    + intros s' a'. apply prune_lookup.
    + intros s' byActor'. rewrite lookup_omap. destruct (peers !! s') as [b|]; [|done]. cbn. unfold fresh_session.
      destruct (decide _); [done|]. by intros [= <-].
  - intros s byActor a e Hs Ha. destruct (fresh_entry staleBefore e) eqn:Hf; [done|]. apply not_true_iff_false in He. destruct He.
    apply existsb_exists. exists (s, byActor). split; [by apply list_elem_of_In, elem_of_map_to_list|].
    apply existsb_exists. exists (a, e). split; [by apply list_elem_of_In, elem_of_map_to_list | cbn; by rewrite Hf].
Qed.

Lemma sum_insert counters id n :
  counters !! id = None -> sumChatUnreadCounters (<[id:=n]> counters) = sumChatUnreadCounters counters + n.
Proof. intros Hid. unfold sumChatUnreadCounters. rewrite map_fold_insert_L; [done | intros; lia | done]. Qed.

Lemma sum_delete counters id : sumChatUnreadCounters counters = sumChatUnreadCounters (delete id counters) + default 0 (counters !! id).
Proof.
  destruct (counters !! id) as [n|] eqn:Hid; cbn.
  - rewrite <- (insert_delete_id _ _ _ Hid) at 1. apply sum_insert, lookup_delete_eq.
  - rewrite delete_id by done. lia.
Qed.

(** The badge counts what its counters do: a bump adds one, clearing a conversation takes
    away its own count. *)
Theorem unread_total (counters : gmap string Z) (id : string) :
  match bumpChatUnreadCounter counters id with
  | Some bumped => sumChatUnreadCounters bumped = sumChatUnreadCounters counters + 1
  | None => id = ""%string
  end
  /\ sumChatUnreadCounters (default counters (clearChatUnreadCounter counters id))
     = sumChatUnreadCounters counters - (if truthy id then default 0 (counters !! id) else 0).
Proof.
  unfold bumpChatUnreadCounter, clearChatUnreadCounter. destruct (truthy id) eqn:Ht; cbn [negb orb].
  - split.
    + rewrite (sum_delete (<[id:=_]> counters) id), (sum_delete counters id), delete_insert_eq, lookup_insert_eq. cbn. lia.
    + case_bool_decide as Hz; cbn; [lia|]. rewrite (sum_delete counters id). lia.
  - split; [|cbn; lia]. destruct (decide (id = ""%string)) as [->|Hne]; [done|]. by rewrite (truthy_true _ Hne) in Ht.
Qed.

(** ** Concrete runs *)
Module ReducersDemo.
#[local] Instance locale : Locale := {| Date_parse := fun _ => None; localeCompare := fun a b => Z.pos (encode a) - Z.pos (encode b) |}.

#[local] Instance locale_laws : LocaleLaws.
Proof. split; intros; cbn in *; lia. Qed.

Definition message (id : string) (at_ : nat) : ChatMessage := {|
  ulid := Some id; senderPtid := None; content := Some "secret"; replyToUlid := None; threadRootUlid := None; recalled := None; m_status := None;
  encryptedPayload := None; editedAt := None; message_rest := at_ |}%string.

Definition sent (m : ChatMessage) : Z := Z.of_nat (message_rest m).

Lemma messages_converge_witness :
  fold_left (fun l m => mergeChatMessages sent l m None None) [message "b" 1; message "a" 1] []
  = fold_left (fun l m => mergeChatMessages sent l m None None) [message "a" 1; message "b" 1] [].
Proof.
  apply (messages_converge sent [] [message "a" 1; message "b" 1]).
  - split; [apply NoDup_nil_2 | apply Forall_nil_2].
  - constructor.
  - split; [apply (bool_decide_unpack _); reflexivity | repeat constructor].
  - apply Permutation_swap.
  - cbn. intros a b _ _ Hab Hba. apply (inj encode). lia.
Defined.

(** An edit that arrives after the recall fills the recalled message again. *)
Example edit_after_recall :
  let apply l mutation := default l (applyChatMessageMutationToList 0 None [] None l "a" mutation) in
  (fun m => (recalled m, content m)) <$> apply (apply [message "a" 1] RECALL) (EDIT (Some "secret, edited"%string) None None)
  = [(Some true, Some "secret, edited"%string)]
  /\ (fun m => (recalled m, content m)) <$> apply (apply [message "a" 1] (EDIT (Some "secret, edited"%string) None None)) RECALL
     = [(Some true, Some ""%string)].
Proof. split; reflexivity. Qed.
End ReducersDemo.
