(* ===== verification/AppletLifecycle.v ===== *)
(** * Applet lifecycle contract

    Models [packages/applet-contract/src/lifecycle.ts] (the frozen state machine
    shared by the desktop and mobile kernels) and the surface vocabulary of
    [packages/applet-contract/src/platform-adapter.ts]. *)
From stdpp Require Import base strings list.
From S2P Require Import Prelude.

Inductive AppletLifecycleState : Set :=
| cold | materializing | visible | hidden_warm | paused | suspended | destroyed.

Definition APPLET_LIFECYCLE_STATES : list AppletLifecycleState :=
  [cold; materializing; visible; hidden_warm; paused; suspended; destroyed].

Inductive AppletLifecycleEventType : Set :=
| launch | ready | show | hide | pause | resume | suspend | restore | destroy
| memory_pressure | error.

Definition APPLET_LIFECYCLE_EVENT_TYPES : list AppletLifecycleEventType :=
  [launch; ready; show; hide; pause; resume; suspend; restore; destroy; memory_pressure; error].

#[export] Instance AppletLifecycleState_eq_dec : EqDecision AppletLifecycleState.
Proof. solve_decision. Defined.
#[export] Instance AppletLifecycleEventType_eq_dec : EqDecision AppletLifecycleEventType.
Proof. solve_decision. Defined.

(** The string literals the two unions stand for; they appear in messages. *)
Definition state_name (s : AppletLifecycleState) : string :=
  match s with
  | cold => "cold" | materializing => "materializing" | visible => "visible"
  | hidden_warm => "hidden-warm" | paused => "paused" | suspended => "suspended"
  | destroyed => "destroyed"
  end.

Definition event_name (e : AppletLifecycleEventType) : string :=
  match e with
  | launch => "launch" | ready => "ready" | show => "show" | hide => "hide"
  | pause => "pause" | resume => "resume" | suspend => "suspend" | restore => "restore"
  | destroy => "destroy" | memory_pressure => "memory-pressure" | error => "error"
  end.

(** [platform-adapter.ts] *)
Inductive AppletPlatform : Set := desktop | android | ios.
Inductive SurfaceCommand : Set := SurfMount | SurfShow | SurfHide | SurfDetach | SurfDestroy.
Record SurfaceTarget : Set := { target_appletId : string; target_instanceId : string }.

#[export] Instance SurfaceCommand_eq_dec : EqDecision SurfaceCommand.
Proof. solve_decision. Defined.

Record AppletLifecycleEvent : Set := {
  ev_type : AppletLifecycleEventType;
  ev_appletId : string;
  ev_instanceId : string;
  ev_timestamp : Z;
  ev_reason : option string
}.

Record AppletInstance : Set := {
  inst_appletId : string;
  inst_instanceId : string;
  inst_sessionId : string;
  inst_state : AppletLifecycleState;
  inst_createdAt : Z;
  inst_lastVisibleAt : Z;
  inst_lastHiddenAt : Z;
  inst_lastTouchedAt : Z;
  inst_memoryEstimate : Z;
  inst_crashCount : Z;
  inst_manifestVersion : string;
  inst_platform : AppletPlatform
}.

#[export] Instance AppletPlatform_eq_dec : EqDecision AppletPlatform.
Proof. solve_decision. Defined.
#[export] Instance AppletInstance_eq_dec : EqDecision AppletInstance.
Proof. solve_decision. Defined.
#[export] Instance AppletLifecycleEvent_eq_dec : EqDecision AppletLifecycleEvent.
Proof. solve_decision. Defined.

Record TransitionRule : Set := {
  rule_from : list AppletLifecycleState;
  rule_to : AppletLifecycleState
}.

(** The table holds no entry for [resume], [destroy], [memory-pressure] and
    [error]: the record type of the source excludes them. *)
Definition TRANSITION_RULES (e : AppletLifecycleEventType) : option TransitionRule :=
  match e with
  | launch => Some {| rule_from := [cold]; rule_to := materializing |}
  | ready => Some {| rule_from := [materializing]; rule_to := visible |}
  | show => Some {| rule_from := [hidden_warm; paused; suspended]; rule_to := visible |}
  | hide => Some {| rule_from := [visible]; rule_to := hidden_warm |}
  | pause => Some {| rule_from := [visible; hidden_warm]; rule_to := paused |}
  | suspend => Some {| rule_from := [hidden_warm; paused]; rule_to := suspended |}
  | restore => Some {| rule_from := [suspended]; rule_to := visible |}
  | resume | destroy | memory_pressure | error => None
  end.

Definition RESUME_SOURCES : list AppletLifecycleState := [paused].
Definition RESUME_TARGETS : list AppletLifecycleState := [visible; hidden_warm].

Definition isDestroyable (from : AppletLifecycleState) : bool :=
  negb (bool_decide (from = cold)) && negb (bool_decide (from = destroyed)).

Definition isValidTransition
  (from : AppletLifecycleState) (event : AppletLifecycleEventType) (to : AppletLifecycleState)
  : bool :=
  match event with
  | destroy => bool_decide (to = destroyed) && isDestroyable from
  | resume => bool_decide (from ∈ RESUME_SOURCES) && bool_decide (to ∈ RESUME_TARGETS)
  | memory_pressure | error =>
      (bool_decide (to = destroyed) && isDestroyable from)
      || (bool_decide (to = suspended)
          && (bool_decide (from = hidden_warm) || bool_decide (from = paused)))
  | _ =>
      match TRANSITION_RULES event with
      | Some rule => bool_decide (from ∈ rule_from rule) && bool_decide (rule_to rule = to)
      | None => false
      end
  end.

(** [nextState] takes the deterministic events only; the source excludes the
    other three by its parameter type, here they give [None]. *)
Definition nextState (from : AppletLifecycleState) (event : AppletLifecycleEventType)
  : option AppletLifecycleState :=
  match event with
  | destroy => if isDestroyable from then Some destroyed else None
  | _ =>
      match TRANSITION_RULES event with
      | Some rule => if bool_decide (from ∈ rule_from rule) then Some (rule_to rule) else None
      | None => None
      end
  end.

(** ** The state machine as a relation

    The table of the architecture document, one constructor per row, as the
    specification the executable guards are checked against. *)
Inductive lifecycle_edge : AppletLifecycleState -> AppletLifecycleEventType -> AppletLifecycleState -> Prop :=
| edge_launch : lifecycle_edge cold launch materializing
| edge_ready : lifecycle_edge materializing ready visible
| edge_show s : s = hidden_warm \/ s = paused \/ s = suspended -> lifecycle_edge s show visible
| edge_hide : lifecycle_edge visible hide hidden_warm
| edge_pause s : s = visible \/ s = hidden_warm -> lifecycle_edge s pause paused
| edge_resume t : t = visible \/ t = hidden_warm -> lifecycle_edge paused resume t
| edge_suspend s : s = hidden_warm \/ s = paused -> lifecycle_edge s suspend suspended
| edge_restore : lifecycle_edge suspended restore visible
| edge_destroy s : s <> cold -> s <> destroyed -> lifecycle_edge s destroy destroyed
| edge_signal_destroy s e : e = memory_pressure \/ e = error ->
    s <> cold -> s <> destroyed -> lifecycle_edge s e destroyed
| edge_signal_suspend s e : e = memory_pressure \/ e = error ->
    s = hidden_warm \/ s = paused -> lifecycle_edge s e suspended.

Create HintDb lifecycle.
#[export] Hint Constructors lifecycle_edge : lifecycle.

Definition deterministic_event (e : AppletLifecycleEventType) : bool :=
  negb (bool_decide (e ∈ [resume; memory_pressure; error])).

(** ** Theorems *)

Lemma valid_transition_edge from e to :
  isValidTransition from e to = true <-> lifecycle_edge from e to.
Proof.
  split.
  - destruct from, e, to; vm_compute; intros; try discriminate; eauto with lifecycle.
  - destruct 1; destruct_or?; subst; try reflexivity; destruct s; try done; vm_compute; done.
Qed.

(** C21: [isValidTransition] decides exactly the documented edges. *)
Theorem isValidTransition_spec from e to :
  isValidTransition from e to = true <-> lifecycle_edge from e to.
Proof. apply valid_transition_edge. Qed.

Lemma nextState_isValidTransition from e to :
  nextState from e = Some to <-> deterministic_event e = true /\ isValidTransition from e to = true.
Proof. destruct from, e, to; vm_compute; naive_solver. Qed.

Lemma isValidTransition_live from e to :
  isValidTransition from e to = true -> from <> destroyed /\ to <> cold.
Proof. intros H%valid_transition_edge. inversion H; subst; naive_solver. Qed.
