(* ===== verification/AppletRegistry.v ===== *)
(** * Applet instance registry

    The [InstanceRegistry] port of [packages/applet-kernel/src/ports.ts] as a type
    class with its laws, and [DefaultInstanceRegistry] of
    [packages/applet-kernel/src/instance-registry.ts] as its instance. The
    orchestrator and the scheduler are written against the port. *)
From stdpp Require Import base strings list.
From S2P Require Import Prelude AppletLifecycle.

Record InstanceCreateInput : Set := {
  in_appletId : string;
  in_instanceId : string;
  in_sessionId : string;
  in_manifestVersion : string;
  in_platform : AppletPlatform
}.

(** ** The port *)
Class InstanceRegistry (R : Type) : Type := {
  reg_create : Z -> InstanceCreateInput -> R -> result (R * AppletInstance);
  reg_get : R -> string -> option AppletInstance;
  reg_list : R -> list AppletInstance;
  reg_setState : string -> AppletLifecycleState -> Z -> R -> R * option AppletInstance;
  reg_touch : string -> Z -> R -> R;
  reg_updateMemoryEstimate : string -> Z -> R -> R;
  reg_incrementCrashCount : string -> R -> R * Z;
  reg_remove : string -> R -> R
}.

(** ** Record updates

    The methods assign fields of the stored object; a record update of the stored
    value is the same thing because nothing outside the registry keeps a
    reference it writes through. *)
Definition inst_with_state (s : AppletLifecycleState) (vis hid touched : Z) (i : AppletInstance)
  : AppletInstance :=
  {| inst_appletId := inst_appletId i; inst_instanceId := inst_instanceId i;
     inst_sessionId := inst_sessionId i; inst_state := s; inst_createdAt := inst_createdAt i;
     inst_lastVisibleAt := vis; inst_lastHiddenAt := hid; inst_lastTouchedAt := touched;
     inst_memoryEstimate := inst_memoryEstimate i; inst_crashCount := inst_crashCount i;
     inst_manifestVersion := inst_manifestVersion i; inst_platform := inst_platform i |}.

Definition inst_with_touch (at_ : Z) (i : AppletInstance) : AppletInstance :=
  inst_with_state (inst_state i) (inst_lastVisibleAt i) (inst_lastHiddenAt i) at_ i.

Definition inst_with_counters (mem crash : Z) (i : AppletInstance) : AppletInstance :=
  {| inst_appletId := inst_appletId i; inst_instanceId := inst_instanceId i;
     inst_sessionId := inst_sessionId i; inst_state := inst_state i;
     inst_createdAt := inst_createdAt i; inst_lastVisibleAt := inst_lastVisibleAt i;
     inst_lastHiddenAt := inst_lastHiddenAt i; inst_lastTouchedAt := inst_lastTouchedAt i;
     inst_memoryEstimate := mem; inst_crashCount := crash;
     inst_manifestVersion := inst_manifestVersion i; inst_platform := inst_platform i |}.

(** ** [DefaultInstanceRegistry]: a [Map] keyed by instance id *)
Abbreviation DefaultInstanceRegistry := (jsmap AppletInstance).

Definition new_instance (now : Z) (input : InstanceCreateInput) : AppletInstance :=
  {| inst_appletId := in_appletId input; inst_instanceId := in_instanceId input;
     inst_sessionId := in_sessionId input; inst_state := materializing; inst_createdAt := now;
     inst_lastVisibleAt := 0; inst_lastHiddenAt := 0; inst_lastTouchedAt := now;
     inst_memoryEstimate := 0; inst_crashCount := 0;
     inst_manifestVersion := in_manifestVersion input; inst_platform := in_platform input |}.

(** [now] is what the injected clock answers. *)
Definition create (now : Z) (input : InstanceCreateInput) (r : DefaultInstanceRegistry)
  : result (DefaultInstanceRegistry * AppletInstance) :=
  if jm_has (in_instanceId input) r
  then Err ("instance already registered: " +:+ in_instanceId input)
  else
    let instance := new_instance now input in
    Ok (<[inst_instanceId instance := instance]> r, instance).

Definition get (r : DefaultInstanceRegistry) (instanceId : string) : option AppletInstance :=
  r !! instanceId.

Definition list_instances (r : DefaultInstanceRegistry) : list AppletInstance := jm_values r.

Definition listByState (r : DefaultInstanceRegistry) (s : AppletLifecycleState) : list AppletInstance :=
  filter (fun i => inst_state i = s) (list_instances r).

Definition stamp_state (s : AppletLifecycleState) (at_ : Z) (i : AppletInstance) : AppletInstance :=
  inst_with_state s
    (if decide (s = visible) then at_ else inst_lastVisibleAt i)
    (if decide (s = visible) then inst_lastHiddenAt i
     else if decide (s = hidden_warm) then at_ else inst_lastHiddenAt i)
    at_ i.

Definition setState (instanceId : string) (s : AppletLifecycleState) (at_ : Z)
  (r : DefaultInstanceRegistry) : DefaultInstanceRegistry * option AppletInstance :=
  match r !! instanceId with
  | None => (r, None)
  | Some instance =>
      let instance' := stamp_state s at_ instance in
      (<[instanceId := instance']> r, Some instance')
  end.

Definition touch (instanceId : string) (at_ : Z) (r : DefaultInstanceRegistry) : DefaultInstanceRegistry :=
  match r !! instanceId with
  | Some instance => <[instanceId := inst_with_touch at_ instance]> r
  | None => r
  end.

Definition updateMemoryEstimate (instanceId : string) (bytes : Z) (r : DefaultInstanceRegistry)
  : DefaultInstanceRegistry :=
  match r !! instanceId with
  | Some instance =>
      <[instanceId := inst_with_counters bytes (inst_crashCount instance) instance]> r
  | None => r
  end.

Definition incrementCrashCount (instanceId : string) (r : DefaultInstanceRegistry)
  : DefaultInstanceRegistry * Z :=
  match r !! instanceId with
  | None => (r, 0)
  | Some instance =>
      let crashCount := inst_crashCount instance + 1 in
      (<[instanceId := inst_with_counters (inst_memoryEstimate instance) crashCount instance]> r,
       crashCount)
  end.

Definition remove (instanceId : string) (r : DefaultInstanceRegistry) : DefaultInstanceRegistry :=
  delete instanceId r.

#[export] Instance DefaultInstanceRegistry_port : InstanceRegistry DefaultInstanceRegistry := {
  reg_create := create;
  reg_get := get;
  reg_list := list_instances;
  reg_setState := setState;
  reg_touch := touch;
  reg_updateMemoryEstimate := updateMemoryEstimate;
  reg_incrementCrashCount := incrementCrashCount;
  reg_remove := remove
}.

(** ** The laws a registry promises to the kernel

    [reg_ok] is the implementation's own invariant; lookups after an operation are
    given pointwise and [reg_list] holds exactly the stored instances, once each. *)
Class InstanceRegistryLaws (R : Type) `{InstanceRegistry R} : Type := {
  reg_ok : R -> Prop;
  reg_get_id r k i : reg_ok r -> reg_get r k = Some i -> inst_instanceId i = k;
  reg_list_elem r i : reg_ok r -> i ∈ reg_list r <-> reg_get r (inst_instanceId i) = Some i;
  reg_list_NoDup r : reg_ok r -> NoDup (inst_instanceId <$> reg_list r);
  reg_setState_ok k s t r : reg_ok r -> reg_ok (reg_setState k s t r).1;
  reg_setState_get k s t r k' :
    reg_get (reg_setState k s t r).1 k' =
    if decide (k = k') then stamp_state s t <$> reg_get r k else reg_get r k';
  reg_crash_ok k r : reg_ok r -> reg_ok (reg_incrementCrashCount k r).1;
  reg_crash_get k r k' :
    reg_get (reg_incrementCrashCount k r).1 k' =
    if decide (k = k')
    then (fun i => inst_with_counters (inst_memoryEstimate i) (inst_crashCount i + 1) i)
           <$> reg_get r k
    else reg_get r k';
  reg_remove_ok k r : reg_ok r -> reg_ok (reg_remove k r);
  reg_remove_get k r k' :
    reg_get (reg_remove k r) k' = if decide (k = k') then None else reg_get r k'
}.

(** ** The default registry keeps the laws *)
Definition registry_wf (r : DefaultInstanceRegistry) : Prop :=
  jm_wf r /\ forall k i, r !! k = Some i -> inst_instanceId i = k.

Lemma registry_wf_empty : registry_wf ∅.
Proof. split; [auto with jsmap | done]. Qed.

Lemma registry_wf_set r k i :
  registry_wf r -> inst_instanceId i = k -> registry_wf (<[k := i]> r).
Proof.
  intros [Hwf Hid] Hi. split; [auto with jsmap|].
  intros k' i'. rewrite jm_lookup_set. case_decide; naive_solver.
Qed.

Lemma registry_wf_delete r k : registry_wf r -> registry_wf (delete k r).
Proof.
  intros [Hwf Hid]. split; [auto with jsmap|].
  intros k' i'. rewrite jm_lookup_delete. case_decide; naive_solver.
Qed.

#[export] Hint Resolve registry_wf_empty registry_wf_set registry_wf_delete : lifecycle.

Lemma registry_list_ids r : registry_wf r -> inst_instanceId <$> list_instances r = jm_keys r.
Proof.
  intros [Hwf Hid]. unfold list_instances, jm_values, jm_keys.
  rewrite <- list_fmap_compose. apply list_fmap_ext. intros n [k i] Hn. cbn.
  apply Hid, jm_lookup_entries; [done|]. by eapply list_elem_of_lookup_2.
Qed.

Lemma registry_list_elem r i :
  registry_wf r -> i ∈ list_instances r <-> r !! inst_instanceId i = Some i.
Proof.
  intros [Hwf Hid]. unfold list_instances. rewrite jm_elem_of_values by done.
  split; [intros [k Hk] | eauto]. by rewrite (Hid _ _ Hk).
Qed.

(** An update of a present entry that keeps the id, and its lookups. *)
Lemma registry_update_wf r k i f :
  registry_wf r -> r !! k = Some i -> inst_instanceId (f i) = inst_instanceId i ->
  registry_wf (<[k := f i]> r).
Proof. intros Hwf Hk Hf. apply registry_wf_set; [done|]. rewrite Hf. by apply Hwf. Qed.

#[export] Instance DefaultInstanceRegistry_laws : InstanceRegistryLaws DefaultInstanceRegistry.
Proof.
  refine {| reg_ok := registry_wf |}; cbn.
  - intros r k i [_ Hid]. apply Hid.
  - intros r i. apply registry_list_elem.
  - intros r Hwf. rewrite registry_list_ids by done. apply Hwf.
  - intros k s t r Hwf. unfold setState. case_match; [|done]. by apply registry_update_wf.
  - intros k s t r k'. unfold setState, get. case_match eqn:E; cbn.
    + rewrite jm_lookup_set. by case_decide.
    + case_decide; by subst.
  - intros k r Hwf. unfold incrementCrashCount. case_match; [|done].
    by apply (registry_update_wf _ _ _ (fun i => inst_with_counters _ _ i)).
  - intros k r k'. unfold incrementCrashCount, get. case_match eqn:E; cbn.
    + rewrite jm_lookup_set. by case_decide.
    + case_decide; by subst.
  - intros k r. apply registry_wf_delete.
  - intros k r k'. unfold remove, get. apply jm_lookup_delete.
Defined.

(** ** Functional behaviour of the remaining operations *)
Lemma create_spec now input r :
  create now input r =
  match r !! in_instanceId input with
  | Some _ => Err ("instance already registered: " +:+ in_instanceId input)
  | None => Ok (<[in_instanceId input := new_instance now input]> r, new_instance now input)
  end.
Proof.
  unfold create, jm_has. destruct (r !! in_instanceId input) eqn:E.
  - by rewrite bool_decide_true by eauto.
  - rewrite bool_decide_false by (intros [? ?]; discriminate). done.
Qed.

Lemma create_wf now input r r' i :
  registry_wf r -> create now input r = Ok (r', i) -> registry_wf r'.
Proof. rewrite create_spec. intros. case_match; simplify_eq. by apply registry_wf_set. Qed.

Lemma touch_wf k t r : registry_wf r -> registry_wf (touch k t r).
Proof. unfold touch. intros. case_match; [|done]. by apply (registry_update_wf _ _ _ (inst_with_touch t)). Qed.

Lemma updateMemoryEstimate_wf k b r : registry_wf r -> registry_wf (updateMemoryEstimate k b r).
Proof.
  unfold updateMemoryEstimate. intros. case_match; [|done].
  by apply (registry_update_wf _ _ _ (inst_with_counters b (inst_crashCount _))).
Qed.

#[export] Hint Resolve create_wf touch_wf updateMemoryEstimate_wf : lifecycle.
