(* ===== verification/AppletPermissions.v ===== *)
(** * Capability grants of applet instances

    Models the capability vocabulary of
    [packages/applet-contract/src/capability.ts] and
    [packages/applet-kernel/src/permission-manager.ts]: the grants registered from
    a manifest, the decision of each invoke, and the audit record each decision
    leaves. The logger calls have no effect on the state and are left out. *)
From stdpp Require Import base strings list.
From S2P Require Import Prelude.


(** [Object.values(CapabilityMethod)]. *)
Definition CapabilityMethods : list string :=
  ["app.getContext"; "app.getLaunchOptions"; "lifecycle.onReady"; "lifecycle.reportReady";
   "lifecycle.onShow"; "lifecycle.onHide"; "lifecycle.onPause"; "lifecycle.onResume";
   "lifecycle.onDestroy"; "lifecycle.destroy"; "navigation.openApplet"; "navigation.closeApplet";
   "navigation.navigateTo"; "navigation.redirectTo"; "navigation.back"; "network.request";
   "network.upload"; "network.download"; "storage.get"; "storage.set"; "storage.remove";
   "storage.clear"; "storage.keys"; "storage.getInfo"; "config.get"; "system.getInfo";
   "system.getTheme"; "system.getNetworkType"; "ui.showToast"; "ui.showLoading";
   "ui.hideLoading"; "ui.showModal"; "ui.showActionSheet"; "ui.setNavigationBar";
   "device.getSafeArea"; "device.getWindowInfo"; "device.vibrate"; "clipboard.getText";
   "clipboard.setText"; "file.read"; "file.write"; "file.delete"; "file.list"; "file.getInfo";
   "events.emit"; "events.subscribe"; "events.unsubscribe"; "events.poll"; "skills.register";
   "skills.list"; "skills.invoke"; "tasks.start"; "tasks.get"; "tasks.cancel";
   "agent.startSession"; "agent.send"; "agent.stream"; "atelier.workspace.load";
   "atelier.project.createFromGoal"; "atelier.message.send"; "atelier.escalation.resolve";
   "atelier.task.setStatus"; "atelier.task.purge"; "atelier.provider.capabilities";
   "atelier.feedback.submit"; "atelier.memory.confirmCandidate"; "atelier.feedback.confirmRerun";
   "atelier.workspace.open"; "atelier.artifact.body.fetch"; "atelier.artifact.preview.open";
   "atelier.events.subscribe"; "ai.generate"; "ai.chat"; "telemetry.track";
   "telemetry.reportError"; "telemetry.mark"]%string.

Definition isCapabilityMethod (value : string) : bool := bool_decide (value ∈ CapabilityMethods).

Inductive DenialReason : Set := PERMISSION_DENIED | POLICY_DENIED.

Record PermissionDecision : Set := {
  granted : bool;
  reason : option DenialReason
}.

Record AuditEntry : Set := {
  audit_appletId : string;
  audit_instanceId : string;
  audit_method : string;
  audit_granted : bool;
  audit_timestamp : Z;
  audit_reason : option DenialReason
}.

(** The manager's map and what its audit sink has received, oldest first. *)
Record DefaultPermissionManager : Set := {
  grants : jsmap (list string);
  audit : list AuditEntry
}.

Definition permission_manager_init : DefaultPermissionManager := {| grants := ∅; audit := [] |}.

(** The loop of [registerGrants]: the valid subset as a [Set], the rejects in order. *)
Fixpoint partition_grants (permissions : list string) (valid invalid : list string)
  : list string * list string :=
  match permissions with
  | [] => (valid, invalid)
  | p :: ps =>
      if isCapabilityMethod p then partition_grants ps (js_set_add p valid) invalid
      else partition_grants ps valid (invalid ++ [p])
  end.

Definition registerGrants (instanceId : string) (permissions : list string)
  (pm : DefaultPermissionManager) : DefaultPermissionManager :=
  {| grants := <[instanceId := (partition_grants permissions [] []).1]> (grants pm);
     audit := audit pm |}.

Definition evaluate (pm : DefaultPermissionManager) (instanceId method : string) : PermissionDecision :=
  if negb (isCapabilityMethod method)
  then {| granted := false; reason := Some POLICY_DENIED |}
  else
    match grants pm !! instanceId with
    | Some set =>
        if js_set_has method set then {| granted := true; reason := None |}
        else {| granted := false; reason := Some PERMISSION_DENIED |}
    | None => {| granted := false; reason := Some PERMISSION_DENIED |}
    end.

(** [now] is what the injected clock answers. *)
Definition check (now : Z) (instanceId appletId method : string) (pm : DefaultPermissionManager)
  : PermissionDecision * DefaultPermissionManager :=
  let decision := evaluate pm instanceId method in
  (decision,
   {| grants := grants pm;
      audit := audit pm ++
        [{| audit_appletId := appletId; audit_instanceId := instanceId; audit_method := method;
            audit_granted := granted decision; audit_timestamp := now;
            audit_reason := reason decision |}] |}).

Definition revokeAll (instanceId : string) (pm : DefaultPermissionManager) : DefaultPermissionManager :=
  {| grants := delete instanceId (grants pm); audit := audit pm |}.

(** ** Histories of the manager *)
Inductive pm_op : Set :=
| OpRegister (instanceId : string) (permissions : list string)
| OpCheck (now : Z) (instanceId appletId method : string)
| OpRevoke (instanceId : string).

Definition pm_step (pm : DefaultPermissionManager) (op : pm_op) : DefaultPermissionManager :=
  match op with
  | OpRegister i ps => registerGrants i ps pm
  | OpCheck now i a m => (check now i a m pm).2
  | OpRevoke i => revokeAll i pm
  end.

Definition pm_run (ops : list pm_op) : DefaultPermissionManager :=
  fold_left pm_step ops permission_manager_init.

(** The specification: the last registration or revocation of an instance, seen
    from the most recent operation, decides what it declared. *)
Fixpoint last_declared (instanceId : string) (rev_ops : list pm_op) : option (list string) :=
  match rev_ops with
  | [] => None
  | OpRegister i ps :: ops => if decide (i = instanceId) then Some ps else last_declared instanceId ops
  | OpRevoke i :: ops => if decide (i = instanceId) then None else last_declared instanceId ops
  | OpCheck _ _ _ _ :: ops => last_declared instanceId ops
  end.

Definition is_check (op : pm_op) : bool := match op with OpCheck _ _ _ _ => true | _ => false end.

(** ** Lemmas *)
Lemma partition_grants_valid ps valid invalid m :
  m ∈ (partition_grants ps valid invalid).1 <-> m ∈ valid \/ (m ∈ ps /\ isCapabilityMethod m = true).
Proof.
  revert valid invalid. induction ps as [|p ps IH]; intros valid invalid; cbn [partition_grants fst].
  - rewrite elem_of_nil. naive_solver.
  - rewrite elem_of_cons. case_match eqn:Hp; rewrite IH.
    + rewrite js_set_add_elem. naive_solver.
    + split; [naive_solver|]. intros [?|[[->|?] ?]]; [auto | congruence | auto].
Qed.

Lemma pm_run_snoc ops op : pm_run (ops ++ [op]) = pm_step (pm_run ops) op.
Proof. unfold pm_run. by rewrite fold_left_app. Qed.

Lemma pm_run_grants ops instanceId :
  grants (pm_run ops) !! instanceId =
  (fun ps => (partition_grants ps [] []).1) <$> last_declared instanceId (rev ops).
Proof.
  induction ops as [|op ops IH] using rev_ind; [done|].
  rewrite pm_run_snoc, rev_unit. destruct op as [i ps|now i a m|i]; cbn [pm_step last_declared].
  - cbn. rewrite jm_lookup_set. by case_decide.
  - exact IH.
  - cbn. rewrite jm_lookup_delete. by case_decide.
Qed.

(** ** Theorems *)

(** Whatever the history of registrations, revocations and checks, a method
    is granted to an instance exactly when it is a capability of the contract and
    the instance's latest registration, not revoked since, declared it; a method
    outside the contract is a policy violation before any grant is consulted. *)
Theorem evaluate_history_spec ops instanceId method :
  evaluate (pm_run ops) instanceId method =
  if isCapabilityMethod method then
    match last_declared instanceId (rev ops) with
    | Some ps =>
        if bool_decide (method ∈ ps) then {| granted := true; reason := None |}
        else {| granted := false; reason := Some PERMISSION_DENIED |}
    | None => {| granted := false; reason := Some PERMISSION_DENIED |}
    end
  else {| granted := false; reason := Some POLICY_DENIED |}.
Proof.
  unfold evaluate. destruct (isCapabilityMethod method) eqn:Hm; [|done]. cbn [negb].
  rewrite pm_run_grants. destruct (last_declared instanceId (rev ops)) as [ps|]; [|done]. cbn.
  unfold js_set_has. erewrite bool_decide_ext; [done|].
  rewrite partition_grants_valid, elem_of_nil. naive_solver.
Qed.

(** The audit trail is complete: along any history the sink receives one
    record per check, in order, carrying the decision the check returned. *)
Theorem audit_complete ops :
  length (audit (pm_run ops)) = length (filter (fun op => is_check op = true) ops)
  /\ forall now i a m,
     audit (check now i a m (pm_run ops)).2 =
     audit (pm_run ops) ++
       [{| audit_appletId := a; audit_instanceId := i; audit_method := m;
           audit_granted := granted (check now i a m (pm_run ops)).1; audit_timestamp := now;
           audit_reason := reason (check now i a m (pm_run ops)).1 |}].
Proof.
  split; [|done]. induction ops as [|op ops IH] using rev_ind; [done|].
  rewrite pm_run_snoc, filter_app, length_app. destruct op; cbn [pm_step]; rewrite <- IH; cbn;
    rewrite ?length_app; case_decide; try done; cbn; lia.
Qed.
