(* ===== verification/AppletScheduler.v ===== *)
(** * Resource scheduler

    Models [packages/applet-kernel/src/policy.ts] and
    [packages/applet-kernel/src/resource-scheduler.ts]: which instances a sweep or
    a memory-pressure signal asks to suspend or destroy. The scheduler reads the
    registry through its port and mutates nothing. *)
From stdpp Require Import base strings list sorting.
From S2P Require Import Prelude AppletLifecycle AppletRegistry.

(** ** Policy *)
Record ResourcePolicy : Set := {
  lruSize : Z;
  maxSuspended : Z;
  hiddenWarmTtlMs : Z;
  suspendedTtlMs : Z;
  pausedTtlMs : Z
}.

Definition MINUTE_MS : Z := 60000.

Definition DESKTOP_RESOURCE_POLICY : ResourcePolicy :=
  {| lruSize := 4; maxSuspended := 8; hiddenWarmTtlMs := 30 * MINUTE_MS;
     suspendedTtlMs := 120 * MINUTE_MS; pausedTtlMs := 15 * MINUTE_MS |}.

Definition MOBILE_RESOURCE_POLICY : ResourcePolicy :=
  {| lruSize := 3; maxSuspended := 8; hiddenWarmTtlMs := 30 * MINUTE_MS;
     suspendedTtlMs := 120 * MINUTE_MS; pausedTtlMs := 15 * MINUTE_MS |}.

Definition defaultPolicyForPlatform (platform : AppletPlatform) : ResourcePolicy :=
  match platform with
  | desktop => DESKTOP_RESOURCE_POLICY
  | _ => MOBILE_RESOURCE_POLICY
  end.

Inductive MemoryPressureLevel : Set := low | moderate | critical.
Inductive ScheduledAction : Set := act_suspend | act_destroy.

#[export] Instance ScheduledAction_eq_dec : EqDecision ScheduledAction.
Proof. solve_decision. Defined.

Definition action_event (a : ScheduledAction) : AppletLifecycleEventType :=
  match a with act_suspend => suspend | act_destroy => destroy end.

(** ** The sweep *)
Definition isWarmState (s : AppletLifecycleState) : bool :=
  bool_decide (s = visible) || bool_decide (s = hidden_warm) || bool_decide (s = paused).

Definition buildEvent (instance : AppletInstance) (action : ScheduledAction) (now : Z)
  (reason : string) : AppletLifecycleEvent :=
  {| ev_type := action_event action; ev_appletId := inst_appletId instance;
     ev_instanceId := inst_instanceId instance; ev_timestamp := now; ev_reason := Some reason |}.

(** The two local variables of [sweep] its [schedule] closure writes. *)
Record sweep_acc : Set := {
  sw_scheduled : jsmap ScheduledAction;
  sw_events : list AppletLifecycleEvent
}.

Definition sweep_acc0 : sweep_acc := {| sw_scheduled := ∅; sw_events := [] |}.

Definition schedule (now : Z) (instance : AppletInstance) (action : ScheduledAction)
  (reason : string) (acc : sweep_acc) : sweep_acc :=
  if jm_has (inst_instanceId instance) (sw_scheduled acc) then acc
  else {| sw_scheduled := <[inst_instanceId instance := action]> (sw_scheduled acc);
          sw_events := sw_events acc ++ [buildEvent instance action now reason] |}.

(** The rule of the TTL pass for one instance. *)
Definition ttl_rule (policy : ResourcePolicy) (now : Z) (i : AppletInstance)
  : option (ScheduledAction * string) :=
  match inst_state i with
  | hidden_warm =>
      if hiddenWarmTtlMs policy <? now - inst_lastHiddenAt i
      then Some (act_suspend, "ttl-hidden-warm"%string) else None
  | paused =>
      if pausedTtlMs policy <? now - inst_lastTouchedAt i
      then Some (act_suspend, "ttl-paused"%string) else None
  | suspended =>
      if suspendedTtlMs policy <? now - inst_lastTouchedAt i
      then Some (act_destroy, "ttl-suspended"%string) else None
  | _ => None
  end.

(** A [for ... of] loop that schedules what [rule] says of each instance. *)
Definition schedule_each (now : Z) (rule : AppletInstance -> option (ScheduledAction * string))
  (l : list AppletInstance) (acc : sweep_acc) : sweep_acc :=
  fold_left (fun acc i =>
    match rule i with
    | Some (action, reason) => schedule now i action reason acc
    | None => acc
    end) l acc.

Definition is_scheduled (acc : sweep_acc) (i : AppletInstance) : bool :=
  jm_has (inst_instanceId i) (sw_scheduled acc).

(** [slice(0, n)] of a list, for the [n > 0] the code computes. *)
Definition slice0 {A} (n : Z) (l : list A) : list A := take (Z.to_nat n) l.

Definition zlength {A} (l : list A) : Z := Z.of_nat (length l).

Definition lru_warm (acc : sweep_acc) (instances : list AppletInstance) : list AppletInstance :=
  filter (fun i => isWarmState (inst_state i) = true /\ is_scheduled acc i = false) instances.

Definition lru_evictable (acc : sweep_acc) (instances : list AppletInstance) : list AppletInstance :=
  sort_by inst_lastTouchedAt (filter (fun i => inst_state i <> visible) (lru_warm acc instances)).

Definition lru_pass (policy : ResourcePolicy) (now : Z) (instances : list AppletInstance)
  (acc : sweep_acc) : sweep_acc :=
  let warm := lru_warm acc instances in
  if lruSize policy <? zlength warm
  then
    let overflow := zlength warm - lruSize policy in
    schedule_each now (fun _ => Some (act_suspend, "lru-evict"%string))
      (slice0 overflow (lru_evictable acc instances)) acc
  else acc.

Definition projected_suspended (acc : sweep_acc) (i : AppletInstance) : bool :=
  match sw_scheduled acc !! inst_instanceId i with
  | Some action => bool_decide (action = act_suspend)
  | None => bool_decide (inst_state i = suspended)
  end.

Definition overflow_pass (policy : ResourcePolicy) (now : Z) (instances : list AppletInstance)
  (acc : sweep_acc) : sweep_acc :=
  let projectedSuspended := filter (fun i => projected_suspended acc i = true) instances in
  if maxSuspended policy <? zlength projectedSuspended
  then
    let overflow := zlength projectedSuspended - maxSuspended policy in
    let destroyable :=
      sort_by inst_lastTouchedAt (filter (fun i => is_scheduled acc i = false) projectedSuspended) in
    schedule_each now (fun _ => Some (act_destroy, "lru-suspended-overflow"%string))
      (slice0 overflow destroyable) acc
  else acc.

Section scheduler.
Context {R : Type} `{InstanceRegistry R}.

(** The three passes over one snapshot of the registry. *)
Definition sweep_run (policy : ResourcePolicy) (now : Z) (r : R) : sweep_acc :=
  let instances := reg_list r in
  overflow_pass policy now instances
    (lru_pass policy now instances
      (schedule_each now (ttl_rule policy now) instances sweep_acc0)).

Definition sweep (policy : ResourcePolicy) (now : Z) (r : R) : list AppletLifecycleEvent :=
  sw_events (sweep_run policy now r).

Definition onMemoryPressure (level : MemoryPressureLevel) (now : Z) (r : R)
  : list AppletLifecycleEvent :=
  let instances := reg_list r in
  match level with
  | low => []
  | moderate =>
      match head (sort_by inst_lastTouchedAt (filter (fun i => inst_state i = suspended) instances)) with
      | Some oldestSuspended =>
          [buildEvent oldestSuspended act_destroy now "memory-pressure-moderate"]
      | None => []
      end
  | critical =>
      (fun i => buildEvent i act_destroy now "memory-pressure-critical")
        <$> filter (fun i => inst_state i <> visible) instances
  end.
End scheduler.

(** ** The accumulator of a sweep

    [sched_inv]: the events emitted so far are exactly the scheduled decisions,
    in order, one per instance. *)
Definition sched_inv (acc : sweep_acc) : Prop :=
  (fun e => (ev_instanceId e, ev_type e)) <$> sw_events acc =
  (fun p => (p.1, action_event p.2)) <$> entries (sw_scheduled acc)
  /\ jm_wf (sw_scheduled acc).

Lemma jm_has_false {V} k (m : jsmap V) : jm_has k m = false <-> m !! k = None.
Proof. unfold jm_has. rewrite bool_decide_eq_false. by rewrite <- eq_None_not_Some. Qed.

Lemma entries_set_fresh {V} k (v : V) (m : jsmap V) :
  m !! k = None -> entries (<[k := v]> m) = entries m ++ [(k, v)].
Proof.
  destruct m as [l]. unfold lookup, jsmap_lookup, insert, jsmap_insert. cbn [entries].
  induction l as [|[k' v'] l IH]; cbn; [done|]. case_decide; [done|]. intros. by rewrite IH.
Qed.

Lemma sched_inv0 : sched_inv sweep_acc0.
Proof. split; [done | auto with jsmap]. Qed.

Lemma schedule_inv now i a reason acc : sched_inv acc -> sched_inv (schedule now i a reason acc).
Proof.
  unfold schedule. intros [He Hwf]. case_match eqn:E; [done|].
  apply jm_has_false in E. split; cbn; [|auto with jsmap].
  rewrite entries_set_fresh by done. rewrite !fmap_app, He. done.
Qed.

Lemma schedule_each_inv now rule l acc : sched_inv acc -> sched_inv (schedule_each now rule l acc).
Proof.
  unfold schedule_each. revert acc. induction l as [|i l IH]; cbn; intros acc Hacc; [done|].
  apply IH. repeat case_match; [by apply schedule_inv | done].
Qed.

Lemma schedule_lookup now i a reason acc k :
  sw_scheduled (schedule now i a reason acc) !! k =
  match sw_scheduled acc !! k with
  | Some a' => Some a'
  | None => if decide (inst_instanceId i = k) then Some a else None
  end.
Proof.
  unfold schedule. case_match eqn:E.
  - apply jm_has_spec in E as [a' Ha]. case_match eqn:Ek; [done|].
    case_decide; [congruence | done].
  - apply jm_has_false in E. cbn. rewrite jm_lookup_set. case_decide; subst; [by rewrite E|].
    by case_match.
Qed.

Lemma schedule_each_lookup_notin now rule l acc k :
  k ∉ inst_instanceId <$> l -> sw_scheduled (schedule_each now rule l acc) !! k = sw_scheduled acc !! k.
Proof.
  unfold schedule_each. revert acc. induction l as [|i l IH]; cbn; intros acc Hk; [done|].
  apply not_elem_of_cons in Hk as [Hne Hk]. rewrite IH by done.
  repeat case_match; try done. rewrite schedule_lookup. case_match; [done|]. by rewrite decide_False.
Qed.

Lemma schedule_each_lookup now rule l acc i :
  NoDup (inst_instanceId <$> l) -> i ∈ l ->
  sw_scheduled (schedule_each now rule l acc) !! inst_instanceId i =
  match sw_scheduled acc !! inst_instanceId i with
  | Some a => Some a
  | None => fst <$> rule i
  end.
Proof.
  revert acc. induction l as [|j l IH]; intros acc Hnd Hin; [by apply not_elem_of_nil in Hin|].
  rewrite fmap_cons in Hnd. apply NoDup_cons in Hnd as [Hni Hnd].
  change (schedule_each now rule (j :: l) acc) with
    (schedule_each now rule l (match rule j with Some (a, r) => schedule now j a r acc | None => acc end)).
  apply elem_of_cons in Hin as [->|Hin].
  - rewrite schedule_each_lookup_notin by done. destruct (rule j) as [[a r]|]; cbn.
    + rewrite schedule_lookup. by rewrite decide_True.
    + by case_match.
  - rewrite IH by done. destruct (rule j) as [[a r]|]; [|done].
    rewrite schedule_lookup, (decide_False (P := inst_instanceId j = _)).
    + by destruct (sw_scheduled acc !! inst_instanceId i).
    + intros Heq. apply Hni. rewrite Heq. by apply list_elem_of_fmap_2.
Qed.

(** Ids are unique: an id names one instance of the snapshot. *)
Lemma ids_inj (l : list AppletInstance) i j :
  NoDup (inst_instanceId <$> l) -> i ∈ l -> j ∈ l -> inst_instanceId i = inst_instanceId j -> i = j.
Proof.
  induction l as [|x l IH]; intros Hnd Hi Hj Heq; [by apply not_elem_of_nil in Hi|].
  rewrite fmap_cons in Hnd. apply NoDup_cons in Hnd as [Hni Hnd].
  apply elem_of_cons in Hi as [->|Hi], Hj as [->|Hj]; try done; [| |by apply IH];
    destruct Hni; [rewrite Heq | rewrite <- Heq]; by apply list_elem_of_fmap_2.
Qed.

(** Where the events of a pass come from. *)
Lemma schedule_each_events now rule l acc e :
  e ∈ sw_events (schedule_each now rule l acc) ->
  e ∈ sw_events acc \/
  exists i a reason, i ∈ l /\ rule i = Some (a, reason) /\ e = buildEvent i a now reason
    /\ sw_scheduled acc !! inst_instanceId i = None.
Proof.
  revert acc. induction l as [|j l IH]; intros acc; [by left|].
  change (schedule_each now rule (j :: l) acc) with
    (schedule_each now rule l (match rule j with Some (a, r) => schedule now j a r acc | None => acc end)).
  intros [He|(i & a & reason & Hi & Hr & -> & Hn)]%IH.
  - destruct (rule j) as [[a r]|] eqn:Hj; [|by left].
    unfold schedule in He. case_match eqn:Hhas; [by left|]. cbn in He.
    apply elem_of_app in He as [He|He%list_elem_of_singleton]; [by left|]. right.
    exists j, a, r. repeat split; [by left | done | done | by apply jm_has_false].
  - right. exists i, a, reason. repeat split; try done; [by right|].
    destruct (rule j) as [[a' r]|]; [|done].
    rewrite schedule_lookup in Hn. by case_match.
Qed.

(** Events survive the later passes. *)
Lemma schedule_each_events_mono now rule l acc e :
  e ∈ sw_events acc -> e ∈ sw_events (schedule_each now rule l acc).
Proof.
  revert acc. induction l as [|j l IH]; intros acc He; [done|]. apply IH.
  repeat case_match; [|done]. unfold schedule. case_match; [done|]. apply elem_of_app. by left.
Qed.

Lemma schedule_each_event_of now rule l acc i a reason :
  NoDup (inst_instanceId <$> l) -> i ∈ l -> rule i = Some (a, reason) ->
  sw_scheduled acc !! inst_instanceId i = None ->
  buildEvent i a now reason ∈ sw_events (schedule_each now rule l acc).
Proof.
  revert acc. induction l as [|j l IH]; intros acc Hnd Hin Hr Hn; [by apply not_elem_of_nil in Hin|].
  rewrite fmap_cons in Hnd. apply NoDup_cons in Hnd as [Hni Hnd].
  change (schedule_each now rule (j :: l) acc) with
    (schedule_each now rule l (match rule j with Some (a, r) => schedule now j a r acc | None => acc end)).
  apply elem_of_cons in Hin as [->|Hin].
  - rewrite Hr. apply schedule_each_events_mono. unfold schedule.
    rewrite (proj2 (jm_has_false _ _) Hn). apply elem_of_app. right. by apply list_elem_of_singleton.
  - apply IH; try done. destruct (rule j) as [[a' r']|]; [|done].
    rewrite schedule_lookup, Hn, decide_False; [done|].
    intros Heq. apply Hni. rewrite Heq. by apply list_elem_of_fmap_2.
Qed.

Lemma lru_pass_mono policy now l acc e :
  e ∈ sw_events acc -> e ∈ sw_events (lru_pass policy now l acc).
Proof. unfold lru_pass. case_match; [apply schedule_each_events_mono | done]. Qed.

Lemma overflow_pass_mono policy now l acc e :
  e ∈ sw_events acc -> e ∈ sw_events (overflow_pass policy now l acc).
Proof. unfold overflow_pass. case_match; [apply schedule_each_events_mono | done]. Qed.

(** ** Evicting a prefix of the oldest

    Both eviction passes sort the candidates [filter Q l] by touch time and take
    a prefix; what stays is the rest of the list and the tail of the sort. *)
Lemma evict_split (Q : AppletInstance -> Prop) `{!forall i, Decision (Q i)} (l : list AppletInstance) n :
  NoDup l ->
  let E := sort_by inst_lastTouchedAt (filter Q l) in
  filter (fun i => i ∉ take n E) l ≡ₚ filter (fun i => ~ Q i) l ++ drop n E.
Proof.
  intros Hnd E.
  assert (HE : E ≡ₚ filter Q l) by apply sort_by_perm.
  assert (HndE : NoDup E) by (rewrite HE; by apply NoDup_filter).
  rewrite <- (take_drop n E) in HndE. apply NoDup_app in HndE as (Ht & Htd & Hd).
  assert (Hmem : forall i, i ∈ E <-> Q i /\ i ∈ l) by (intros; rewrite HE; apply list_elem_of_filter).
  assert (HmemE : forall i, i ∈ E <-> i ∈ take n E \/ i ∈ drop n E)
    by (intros; rewrite <- (take_drop n E) at 1; apply elem_of_app).
  apply NoDup_Permutation.
  - by apply NoDup_filter.
  - apply NoDup_app. split; [by apply NoDup_filter|]. split; [|done].
    intros i [HQ _]%list_elem_of_filter Hid. apply HQ. by apply Hmem, HmemE; right.
  - intros i. rewrite elem_of_app, !list_elem_of_filter. specialize (Hmem i). specialize (HmemE i).
    specialize (Htd i). destruct (decide (Q i)); naive_solver.
Qed.

Lemma evict_length (Q : AppletInstance -> Prop) `{!forall i, Decision (Q i)} (l : list AppletInstance) bound :
  NoDup l -> bound < zlength l ->
  let E := sort_by inst_lastTouchedAt (filter Q l) in
  zlength (filter (fun i => i ∉ slice0 (zlength l - bound) E) l)
  = Z.max bound (zlength (filter (fun i => ~ Q i) l)).
Proof.
  intros Hnd Hb E. unfold zlength, slice0 in *.
  pose proof (Permutation_length (evict_split Q l (Z.to_nat (Z.of_nat (length l) - bound)) Hnd)) as He.
  rewrite length_app, length_drop, sort_by_length in He. subst E. rewrite He.
  pose proof (Permutation_length (filter_app_complement Q l)) as Hc.
  rewrite length_app in Hc. lia.
Qed.

(** ** What a sweep decides for each instance *)
Definition ids (l : list AppletInstance) : list string := inst_instanceId <$> l.

Lemma ids_NoDup_inv l : NoDup (ids l) -> NoDup l.
Proof. apply NoDup_fmap_1. Qed.

Lemma ids_filter_NoDup (Q : AppletInstance -> Prop) `{!forall i, Decision (Q i)} l :
  NoDup (ids l) -> NoDup (ids (filter Q l)).
Proof. intros Hnd. eapply sublist_NoDup; [done|]. apply fmap_sublist, sublist_filter. Qed.

Lemma ids_slice_NoDup (Q : AppletInstance -> Prop) `{!forall i, Decision (Q i)} l n :
  NoDup (ids l) -> NoDup (ids (slice0 n (sort_by inst_lastTouchedAt (filter Q l)))).
Proof.
  intros Hnd. unfold slice0. eapply sublist_NoDup; [|apply fmap_sublist, sublist_take].
  rewrite sort_by_perm. by apply ids_filter_NoDup.
Qed.

Lemma slice_sort_incl (Q : AppletInstance -> Prop) `{!forall i, Decision (Q i)} l n i :
  i ∈ slice0 n (sort_by inst_lastTouchedAt (filter Q l)) -> Q i /\ i ∈ l.
Proof.
  unfold slice0. intros Hi. assert (i ∈ sort_by inst_lastTouchedAt (filter Q l)) as Hs.
  { rewrite <- (take_drop (Z.to_nat n) (sort_by _ _)). apply elem_of_app. by left. }
  by apply sort_by_elem, list_elem_of_filter in Hs.
Qed.

(** A pass that schedules the members of [T], all with the action [a]. *)
Lemma schedule_const_lookup now a reason T l acc i :
  NoDup (ids l) -> NoDup (ids T) -> (forall j, j ∈ T -> j ∈ l) -> i ∈ l ->
  sw_scheduled (schedule_each now (fun _ => Some (a, reason)) T acc) !! inst_instanceId i =
  match sw_scheduled acc !! inst_instanceId i with
  | Some a' => Some a'
  | None => if decide (i ∈ T) then Some a else None
  end.
Proof.
  intros Hl HT Hincl Hi. destruct (decide (i ∈ T)) as [Hin|Hni].
  - by rewrite schedule_each_lookup.
  - rewrite schedule_each_lookup_notin; [by case_match|].
    intros (j & Heq & Hj)%list_elem_of_fmap. destruct Hni.
    by rewrite (ids_inj l i j) by auto.
Qed.

Definition acc_state (acc : sweep_acc) (i : AppletInstance) : AppletLifecycleState :=
  match sw_scheduled acc !! inst_instanceId i with
  | Some act_suspend => suspended
  | Some act_destroy => destroyed
  | None => inst_state i
  end.

(** The state the sweep proposes for an instance, read off its events. *)
Definition after_state (events : list AppletLifecycleEvent) (i : AppletInstance) : AppletLifecycleState :=
  match list_find (fun e => ev_instanceId e = inst_instanceId i) events with
  | Some (_, e) =>
      match ev_type e with suspend => suspended | destroy => destroyed | _ => inst_state i end
  | None => inst_state i
  end.

Lemma after_state_acc acc i : sched_inv acc -> after_state (sw_events acc) i = acc_state acc i.
Proof.
  intros [He _]. unfold after_state, acc_state, lookup, jsmap_lookup.
  revert He. generalize (entries (sw_scheduled acc)). generalize (sw_events acc).
  induction l as [|e l IH]; intros [|[k a] m] Heq; try done.
  rewrite !fmap_cons in Heq. injection Heq as Hk Ha Heq.
  cbn [list_find assoc_get fst snd] in *. rewrite Hk. destruct (decide (k = inst_instanceId i)) as [->|Hne].
  - rewrite decide_True by done. rewrite Ha. by destruct a.
  - rewrite (decide_False (P := inst_instanceId i = k)) by congruence.
    rewrite <- (IH _ Heq). by destruct (list_find _ l) as [[? ?]|].
Qed.

(** Decisions only take a live instance where the contract allows. *)
Definition acc_legal (acc : sweep_acc) (l : list AppletInstance) : Prop :=
  forall i, i ∈ l ->
  match sw_scheduled acc !! inst_instanceId i with
  | Some act_suspend => inst_state i = hidden_warm \/ inst_state i = paused
  | Some act_destroy => inst_state i = suspended
  | None => True
  end.

Section sweep_facts.
Context (policy : ResourcePolicy) (now : Z) (l : list AppletInstance) (Hl : NoDup (ids l)).

Let acc1 : sweep_acc := schedule_each now (ttl_rule policy now) l sweep_acc0.
Let acc2 : sweep_acc := lru_pass policy now l acc1.
Let acc3 : sweep_acc := overflow_pass policy now l acc2.

Lemma ttl_pass_lookup i : i ∈ l -> sw_scheduled acc1 !! inst_instanceId i = fst <$> ttl_rule policy now i.
Proof. intros Hi. unfold acc1. by rewrite schedule_each_lookup. Qed.

Lemma lru_warm_elem acc i :
  i ∈ lru_warm acc l <->
  i ∈ l /\ isWarmState (inst_state i) = true /\ sw_scheduled acc !! inst_instanceId i = None.
Proof. unfold lru_warm, is_scheduled. rewrite list_elem_of_filter, jm_has_false. tauto. Qed.

Lemma lru_warm_ids acc : NoDup (ids (lru_warm acc l)).
Proof. by apply ids_filter_NoDup. Qed.

Lemma lru_pass_lookup acc i : i ∈ l ->
  sw_scheduled (lru_pass policy now l acc) !! inst_instanceId i =
  match sw_scheduled acc !! inst_instanceId i with
  | Some a => Some a
  | None =>
      if decide (lruSize policy < zlength (lru_warm acc l) /\
                 i ∈ slice0 (zlength (lru_warm acc l) - lruSize policy) (lru_evictable acc l))
      then Some act_suspend else None
  end.
Proof.
  intros Hi. unfold lru_pass, lru_evictable. case_match eqn:Hb; reflect_bool.
  - rewrite (schedule_const_lookup _ _ _ _ l); try done.
    + case_match; [done|]. apply decide_ext. tauto.
    + apply ids_slice_NoDup, lru_warm_ids.
    + intros j Hj. by apply slice_sort_incl in Hj as [_ (? & _)%lru_warm_elem].
  - case_match; [done|]. rewrite decide_False; [done | lia].
Qed.

Lemma overflow_pass_lookup acc i : i ∈ l ->
  let P := filter (fun i => projected_suspended acc i = true) l in
  sw_scheduled (overflow_pass policy now l acc) !! inst_instanceId i =
  match sw_scheduled acc !! inst_instanceId i with
  | Some a => Some a
  | None =>
      if decide (maxSuspended policy < zlength P /\
                 i ∈ slice0 (zlength P - maxSuspended policy)
                       (sort_by inst_lastTouchedAt (filter (fun i => is_scheduled acc i = false) P)))
      then Some act_destroy else None
  end.
Proof.
  intros Hi P. unfold overflow_pass. fold P. case_match eqn:Hb; reflect_bool.
  - rewrite (schedule_const_lookup _ _ _ _ l); try done.
    + case_match; [done|]. apply decide_ext. tauto.
    + by apply ids_slice_NoDup, ids_filter_NoDup.
    + intros j Hj. by apply slice_sort_incl in Hj as [_ [_ Hj]%list_elem_of_filter].
  - case_match; [done|]. rewrite decide_False; [done | lia].
Qed.

Lemma acc1_legal : acc_legal acc1 l.
Proof.
  intros i Hi. rewrite ttl_pass_lookup by done.
  unfold ttl_rule. destruct (inst_state i); cbn; try done;
    match goal with |- context [if ?b then _ else _] => destruct b end; cbn; auto.
Qed.

Lemma acc2_legal : acc_legal acc2 l.
Proof.
  intros i Hi. pose proof (acc1_legal i Hi) as H1. unfold acc2. rewrite lru_pass_lookup by done.
  case_match; [done|]. case_decide as Hd; [|done].
  destruct Hd as [_ [Hv Hw]%slice_sort_incl]. apply lru_warm_elem in Hw as (_ & Hw & _).
  unfold isWarmState in Hw. destruct (inst_state i); naive_solver.
Qed.

Lemma acc3_legal : acc_legal acc3 l.
Proof.
  intros i Hi. pose proof (acc2_legal i Hi) as H2. unfold acc3. rewrite overflow_pass_lookup by done.
  case_match; [done|]. case_decide as Hd; [|done].
  destruct Hd as [_ [_ [Hp _]%list_elem_of_filter]%slice_sort_incl].
  unfold projected_suspended in Hp. case_match; by reflect_bool.
Qed.

Lemma acc_inv : sched_inv acc1 /\ sched_inv acc2 /\ sched_inv acc3.
Proof.
  assert (sched_inv acc1) by (apply schedule_each_inv, sched_inv0).
  assert (sched_inv acc2) by (unfold acc2, lru_pass; case_match; [by apply schedule_each_inv | done]).
  repeat split_and; try done. unfold acc3, overflow_pass. case_match; [by apply schedule_each_inv | done].
Qed.

Lemma acc_state_warm acc i :
  isWarmState (acc_state acc i) = true <->
  isWarmState (inst_state i) = true /\ sw_scheduled acc !! inst_instanceId i = None.
Proof. unfold acc_state. case_match; [|naive_solver]. case_match; vm_compute; naive_solver. Qed.

(** Warm instances the eviction pass leaves warm. *)
Lemma warm_after_lru :
  zlength (filter (fun i => isWarmState (acc_state acc2 i) = true) l)
  <= Z.max (lruSize policy) (zlength (filter (fun i => inst_state i = visible) l)).
Proof.
  set (W := lru_warm acc1 l).
  destruct (decide (lruSize policy < zlength W)) as [Hover|Hnot].
  - set (T := slice0 (zlength W - lruSize policy) (lru_evictable acc1 l)).
    rewrite (filter_ext_in _ (fun i => (i ∉ T) /\
      (isWarmState (inst_state i) = true /\ is_scheduled acc1 i = false))).
    + rewrite <- list_filter_filter. fold (lru_warm acc1 l). fold W.
      unfold T, lru_evictable. fold W.
      rewrite evict_length; [| by apply ids_NoDup_inv, lru_warm_ids | done].
      apply Z.max_le_compat_l. unfold W, lru_warm. rewrite list_filter_filter.
      apply Nat2Z.inj_le, length_filter_mono. intros i _ [Hv _]. by apply dec_stable.
    + intros i Hi. rewrite acc_state_warm. unfold acc2. rewrite lru_pass_lookup by done.
      unfold is_scheduled. rewrite jm_has_false.
      fold W T. destruct (sw_scheduled acc1 !! inst_instanceId i); [naive_solver|].
      case_decide; naive_solver.
  - transitivity (zlength W); [|lia]. apply Nat2Z.inj_le, length_filter_mono.
    intros i Hi. rewrite acc_state_warm. unfold acc2. rewrite lru_pass_lookup by done.
    unfold is_scheduled. rewrite jm_has_false. case_match; naive_solver.
Qed.

Lemma warm_after_sweep :
  zlength (filter (fun i => isWarmState (acc_state acc3 i) = true) l)
  <= Z.max (lruSize policy) (zlength (filter (fun i => inst_state i = visible) l)).
Proof.
  etransitivity; [|apply warm_after_lru]. apply Nat2Z.inj_le, length_filter_mono.
  intros i Hi. rewrite !acc_state_warm. unfold acc3. rewrite overflow_pass_lookup by done.
  case_match; naive_solver.
Qed.

(** Suspended instances after the overflow pass. *)
Lemma suspended_after_sweep :
  zlength (filter (fun i => acc_state acc3 i = suspended) l)
  <= Z.max (maxSuspended policy)
       (zlength (filter (fun i => acc_state acc3 i = suspended /\ inst_state i <> suspended) l)).
Proof.
  set (P := filter (fun i => projected_suspended acc2 i = true) l).
  assert (Hacc3 : forall i, i ∈ l -> acc_state acc3 i = suspended ->
    projected_suspended acc2 i = true).
  { intros i Hi. unfold acc_state, acc3, projected_suspended. rewrite overflow_pass_lookup by done.
    destruct (sw_scheduled acc2 !! inst_instanceId i) as [[]|]; [done | done |].
    case_decide; [done|]. intros Hs. by apply bool_decide_eq_true. }
  destruct (decide (maxSuspended policy < zlength P)) as [Hover|Hnot].
  - set (T := slice0 (zlength P - maxSuspended policy)
      (sort_by inst_lastTouchedAt (filter (fun i => is_scheduled acc2 i = false) P))).
    rewrite (filter_ext_in _ (fun i => (i ∉ T) /\ projected_suspended acc2 i = true)).
    + rewrite <- list_filter_filter. fold P. unfold T.
      rewrite evict_length; [| unfold P; by apply NoDup_filter, ids_NoDup_inv | done].
      apply Z.max_le_compat_l. unfold P. rewrite list_filter_filter.
      apply Nat2Z.inj_le, length_filter_mono. intros i Hi [Hs Hp].
      pose proof (acc2_legal i Hi) as Hleg.
      unfold is_scheduled in Hs. apply not_false_is_true, jm_has_spec in Hs as [a Ha].
      unfold projected_suspended in Hp. unfold acc_state, acc3.
      rewrite overflow_pass_lookup by done. rewrite Ha in *. reflect_bool. subst a.
      split; [done|]. destruct Hleg; congruence.
    + intros i Hi. split.
      * intros Hs. split; [|by apply Hacc3]. intros HT. revert Hs.
        pose proof (slice_sort_incl _ _ _ _ HT) as [Hns _]. apply jm_has_false in Hns.
        unfold acc_state, acc3. rewrite overflow_pass_lookup by done. rewrite Hns.
        by rewrite decide_True.
      * intros [HT Hp]. unfold acc_state, acc3. rewrite overflow_pass_lookup by done.
        unfold projected_suspended in Hp. case_match; reflect_bool; subst; [done|].
        rewrite decide_False; [done|]. intros [_ ?]. done.
  - transitivity (zlength P); [|lia]. apply Nat2Z.inj_le, length_filter_mono. auto.
Qed.
End sweep_facts.

(** ** Theorems of the sweep, against any lawful registry *)
Section sweep_theorems.
Context {R : Type} `{InstanceRegistryLaws R}.
Implicit Types (r : R) (i : AppletInstance).

Lemma reg_list_ids r : reg_ok r -> NoDup (ids (reg_list r)).
Proof. apply reg_list_NoDup. Qed.

Lemma sweep_inv policy now r : reg_ok r -> sched_inv (sweep_run policy now r).
Proof. intros Hr. apply acc_inv. Qed.

(** One sweep emits at most one event per instance. *)
Lemma sweep_one_decision policy now r :
  reg_ok r -> NoDup (ev_instanceId <$> sweep policy now r).
Proof.
  intros Hr. destruct (sweep_inv policy now r Hr) as [He Hwf].
  apply (f_equal (fmap fst)) in He. rewrite <- !list_fmap_compose in He.
  assert (Hk : ev_instanceId <$> sweep policy now r = jm_keys (sw_scheduled (sweep_run policy now r))).
  { exact He. }
  by rewrite Hk.
Qed.

(** Every event of a sweep decides a listed instance. *)
Lemma sweep_event_origin policy now r e :
  e ∈ sweep policy now r ->
  exists i a reason, i ∈ reg_list r /\ e = buildEvent i a now reason.
Proof.
  unfold sweep, sweep_run. intros He.
  assert (Hpass : forall T reason a acc, (forall j, j ∈ T -> j ∈ reg_list r) ->
    e ∈ sw_events (schedule_each now (fun _ => Some (a, reason)) T acc) ->
    e ∈ sw_events acc \/ exists i a reason, i ∈ reg_list r /\ e = buildEvent i a now reason).
  { intros T reason a acc HT [?|(i & a' & reason' & Hi & _ & -> & _)]%schedule_each_events; [by left|].
    right. exists i, a', reason'. auto. }
  assert (Httl : e ∈ sw_events (schedule_each now (ttl_rule policy now) (reg_list r) sweep_acc0) ->
    exists i a reason, i ∈ reg_list r /\ e = buildEvent i a now reason).
  { intros [?%not_elem_of_nil|(i & a & reason & Hi & _ & -> & _)]%schedule_each_events; [done|eauto]. }
  assert (Hlru : e ∈ sw_events (lru_pass policy now (reg_list r)
      (schedule_each now (ttl_rule policy now) (reg_list r) sweep_acc0)) ->
    exists i a reason, i ∈ reg_list r /\ e = buildEvent i a now reason).
  { unfold lru_pass. case_match; [|exact Httl]. intros [?|?]%Hpass; [auto|done|].
    intros j [_ (? & _)%lru_warm_elem]%slice_sort_incl. done. }
  unfold overflow_pass in He. case_match; [|auto].
  apply Hpass in He; [destruct He; auto|].
  intros j [_ [_ ?]%list_elem_of_filter]%slice_sort_incl. done.
Qed.

(** What an event of the sweep says of its instance. *)
Lemma sweep_event_action policy now r i a reason :
  reg_ok r -> buildEvent i a now reason ∈ sweep policy now r ->
  sw_scheduled (sweep_run policy now r) !! inst_instanceId i = Some a.
Proof.
  intros Hr He. destruct (sweep_inv policy now r Hr) as [Heq Hwf].
  apply jm_lookup_entries; [done|].
  apply (list_elem_of_fmap_2 (fun e => (ev_instanceId e, ev_type e))) in He.
  unfold sweep in He. rewrite Heq in He. apply list_elem_of_fmap in He as ([k a'] & Hka & Hin).
  cbn in Hka. injection Hka as -> Ha. by destruct a, a'.
Qed.

Lemma sweep_legal policy now r e :
  reg_ok r -> e ∈ sweep policy now r ->
  exists i t, reg_get r (ev_instanceId e) = Some i /\ ev_appletId e = inst_appletId i
    /\ ev_timestamp e = now /\ nextState (inst_state i) (ev_type e) = Some t
    /\ isValidTransition (inst_state i) (ev_type e) t = true
    /\ (ev_type e = suspend /\ (inst_state i = hidden_warm \/ inst_state i = paused)
        \/ ev_type e = destroy /\ inst_state i = suspended).
Proof.
  intros Hr He. destruct (sweep_event_origin _ _ _ _ He) as (i & a & reason & Hi & ->).
  apply sweep_event_action in He; [|done].
  pose proof (acc3_legal policy now (reg_list r) (reg_list_ids r Hr) i Hi) as Hleg.
  unfold sweep_run in He. rewrite He in Hleg. apply reg_list_elem in Hi; [|done].
  destruct a; [exists i, suspended | exists i, destroyed]; cbn [ev_instanceId ev_appletId ev_timestamp ev_type buildEvent action_event];
    (split; [done|]); repeat (split; [done|]).
  - destruct Hleg as [Hs|Hs]; rewrite Hs; repeat split; auto.
  - rewrite Hleg. repeat split; auto.
Qed.

(** A sweep only asks for transitions the lifecycle contract allows: it
    suspends hidden-warm and paused instances, destroys suspended ones, and never
    touches an instance that is visible or still materializing. *)
Theorem sweep_events_legal policy now r e :
  reg_ok r -> e ∈ sweep policy now r ->
  exists i t, reg_get r (ev_instanceId e) = Some i /\ ev_appletId e = inst_appletId i
    /\ ev_timestamp e = now /\ nextState (inst_state i) (ev_type e) = Some t
    /\ isValidTransition (inst_state i) (ev_type e) t = true
    /\ (ev_type e = suspend /\ (inst_state i = hidden_warm \/ inst_state i = paused)
        \/ ev_type e = destroy /\ inst_state i = suspended).
Proof. apply sweep_legal. Qed.

(** An instance whose time to live has run out is always scheduled, with the
    action and reason of its state. *)
Theorem sweep_ttl_complete policy now r i a reason :
  reg_ok r -> reg_get r (inst_instanceId i) = Some i ->
  ttl_rule policy now i = Some (a, reason) ->
  buildEvent i a now reason ∈ sweep policy now r.
Proof.
  intros Hr Hg Ht. apply reg_list_elem in Hg; [|done].
  assert (buildEvent i a now reason ∈
    sw_events (schedule_each now (ttl_rule policy now) (reg_list r) sweep_acc0)).
  { by apply schedule_each_event_of; [apply reg_list_ids | | |]. }
  by apply overflow_pass_mono, lru_pass_mono.
Qed.

Lemma sweep_within_bounds policy now r :
  reg_ok r ->
  let after := after_state (sweep policy now r) in
  zlength (filter (fun i => isWarmState (after i) = true) (reg_list r))
    <= Z.max (lruSize policy) (zlength (filter (fun i => inst_state i = visible) (reg_list r)))
  /\ zlength (filter (fun i => after i = suspended) (reg_list r))
    <= Z.max (maxSuspended policy)
         (zlength (filter (fun i => after i = suspended /\ inst_state i <> suspended) (reg_list r))).
Proof.
  intros Hr after. pose proof (reg_list_ids r Hr) as Hids.
  assert (Hafter : forall i, after i = acc_state (sweep_run policy now r) i)
    by (intros; by apply after_state_acc, sweep_inv).
  rewrite (filter_ext_in (fun i => isWarmState (after i) = true)
    (fun i => isWarmState (acc_state (sweep_run policy now r) i) = true)) by (intros; by rewrite Hafter).
  rewrite (filter_ext_in (fun i => after i = suspended)
    (fun i => acc_state (sweep_run policy now r) i = suspended)) by (intros; by rewrite Hafter).
  rewrite (filter_ext_in (fun i => after i = suspended /\ _)
    (fun i => acc_state (sweep_run policy now r) i = suspended /\ inst_state i <> suspended))
    by (intros; by rewrite Hafter).
  split; [by apply warm_after_sweep | by apply suspended_after_sweep].
Qed.

(** The resource bounds a sweep restores. Once its events are carried out,
    the warm instances number at most [lruSize] (more only when that many are
    visible) and the suspended ones at most [maxSuspended] (more only when this
    very sweep suspended that many). *)
Theorem sweep_bounds policy now r :
  reg_ok r ->
  let after := after_state (sweep policy now r) in
  zlength (filter (fun i => isWarmState (after i) = true) (reg_list r))
    <= Z.max (lruSize policy) (zlength (filter (fun i => inst_state i = visible) (reg_list r)))
  /\ zlength (filter (fun i => after i = suspended) (reg_list r))
    <= Z.max (maxSuspended policy)
         (zlength (filter (fun i => after i = suspended /\ inst_state i <> suspended) (reg_list r))).
Proof. apply sweep_within_bounds. Qed.
Lemma ttl_rule_reason policy now i a : ttl_rule policy now i <> Some (a, "lru-evict"%string).
Proof. unfold ttl_rule. destruct (inst_state i); try done; case_match; by intros ?. Qed.

(** Eviction is least-recently-touched first: whatever the sweep evicts was
    touched no later than any non-visible instance it leaves warm. *)
Theorem sweep_evicts_oldest policy now r i j :
  reg_ok r ->
  reg_get r (inst_instanceId i) = Some i -> reg_get r (inst_instanceId j) = Some j ->
  buildEvent i act_suspend now "lru-evict" ∈ sweep policy now r ->
  isWarmState (after_state (sweep policy now r) j) = true -> inst_state j <> visible ->
  inst_lastTouchedAt i <= inst_lastTouchedAt j.
Proof.
  intros Hr Hi%reg_list_elem Hj%reg_list_elem He Hw Hv; [|done|done].
  pose proof (reg_list_ids r Hr) as Hids.
  unfold sweep in Hw. rewrite after_state_acc in Hw by (by apply sweep_inv).
  apply acc_state_warm in Hw as [Hw Hn].
  unfold sweep, sweep_run in He, Hn. rewrite overflow_pass_lookup in Hn by done.
  destruct (sw_scheduled (lru_pass _ _ _ _) !! inst_instanceId j) eqn:Hl; [done|clear Hn].
  rewrite lru_pass_lookup in Hl by done.
  destruct (sw_scheduled (schedule_each _ _ _ _) !! _) eqn:Ht; [done|].
  set (acc1 := schedule_each now (ttl_rule policy now) (reg_list r) sweep_acc0) in *.
  set (W := lru_warm acc1 (reg_list r)) in *.
  set (n := zlength W - lruSize policy) in *.
  assert (HiT : lruSize policy < zlength W /\ i ∈ slice0 n (lru_evictable acc1 (reg_list r))).
  { assert (He2 : buildEvent i act_suspend now "lru-evict" ∈ sw_events (lru_pass policy now (reg_list r) acc1)).
    { unfold overflow_pass in He. destruct (maxSuspended policy <? _); [|exact He].
      by apply schedule_each_events in He as [?|(? & ? & ? & _ & [= <- <-] & ? & _)]. }
    assert (Hnot1 : buildEvent i act_suspend now "lru-evict" ∉ sw_events acc1).
    { intros [?%not_elem_of_nil|(k & a & reason & _ & Hk & Hb & _)]%schedule_each_events; [done|].
      injection Hb as _ _ _ <-. by eapply ttl_rule_reason. }
    unfold lru_pass in He2. fold W in He2. case_match; [|done]. reflect_bool. split; [done|].
    apply schedule_each_events in He2 as [?|(k & a & reason & Hk & _ & Hb & _)]; [done|].
    injection Hb as _ _ Hid _.
    rewrite (ids_inj (reg_list r) i k); try done.
    by apply slice_sort_incl in Hk as [_ (? & _)%lru_warm_elem]. }
  destruct HiT as [Hover HiT].
  apply (sort_by_take_le inst_lastTouchedAt (filter (fun i => inst_state i <> visible) W) (Z.to_nat n)).
  - exact HiT.
  - assert (HjE : j ∈ lru_evictable acc1 (reg_list r)).
    { apply sort_by_elem, list_elem_of_filter. split; [done|]. by apply lru_warm_elem. }
    unfold lru_evictable in HjE. rewrite <- (take_drop (Z.to_nat n) (sort_by _ _)) in HjE.
    apply elem_of_app in HjE as [HjE|?]; [|done].
    rewrite decide_True in Hl; done.
Qed.
End sweep_theorems.

(** ** A concrete registry

    Seven desktop instances: two visible, three hidden (one beyond its time to
    live), one paused and one long suspended. *)
Definition demo_instance (id : string) (s : AppletLifecycleState) (hidden touched : Z) : AppletInstance :=
  {| inst_appletId := "app-" +:+ id; inst_instanceId := id; inst_sessionId := "sess-" +:+ id;
     inst_state := s; inst_createdAt := 0; inst_lastVisibleAt := 0; inst_lastHiddenAt := hidden;
     inst_lastTouchedAt := touched; inst_memoryEstimate := 0; inst_crashCount := 0;
     inst_manifestVersion := "1"; inst_platform := desktop |}.

Definition demo_insert (r : DefaultInstanceRegistry) (i : AppletInstance) : DefaultInstanceRegistry :=
  <[inst_instanceId i := i]> r.

Definition demo_registry : DefaultInstanceRegistry :=
  fold_left demo_insert
    [demo_instance "a" visible 0 9000000; demo_instance "b" hidden_warm 8900000 8900000;
     demo_instance "c" hidden_warm 100 100; demo_instance "d" paused 8000000 8800000;
     demo_instance "e" suspended 50 60; demo_instance "f" visible 0 9000000;
     demo_instance "g" hidden_warm 8950000 8950000] ∅.

Lemma demo_registry_wf l r : registry_wf r -> registry_wf (fold_left demo_insert l r).
Proof. revert r. induction l as [|i l IH]; intros r Hr; [done|]. by apply IH, registry_wf_set. Qed.

Example demo_sweep :
  (fun e => (ev_instanceId e, ev_type e, ev_reason e)) <$>
    sweep DESKTOP_RESOURCE_POLICY 9000000 demo_registry =
  [("c", suspend, Some "ttl-hidden-warm"); ("e", destroy, Some "ttl-suspended");
   ("d", suspend, Some "lru-evict")]%string.
Proof. vm_compute. reflexivity. Qed.

Definition demo_event : AppletLifecycleEvent :=
  buildEvent (demo_instance "d" paused 8000000 8800000) act_suspend 9000000 "lru-evict".

Lemma demo_event_in : demo_event ∈ sweep DESKTOP_RESOURCE_POLICY 9000000 demo_registry.
Proof. vm_compute. do 2 right. left. Qed.

Lemma sweep_events_legal_witness :
  exists i t, reg_get demo_registry "d" = Some i
    /\ isValidTransition (inst_state i) suspend t = true.
Proof.
  assert (Hwf : reg_ok demo_registry) by apply demo_registry_wf, registry_wf_empty.
  destruct (sweep_events_legal DESKTOP_RESOURCE_POLICY 9000000 demo_registry demo_event Hwf demo_event_in)
    as (i & t & Hg & _ & _ & _ & Hv & _).
  exists i, t. split; [exact Hg | exact Hv].
Defined.

Lemma sweep_ttl_complete_witness :
  buildEvent (demo_instance "c" hidden_warm 100 100) act_suspend 9000000 "ttl-hidden-warm"
    ∈ sweep DESKTOP_RESOURCE_POLICY 9000000 demo_registry.
Proof.
  assert (Hwf : reg_ok demo_registry) by apply demo_registry_wf, registry_wf_empty.
  exact (sweep_ttl_complete DESKTOP_RESOURCE_POLICY 9000000 demo_registry
    (demo_instance "c" hidden_warm 100 100) act_suspend "ttl-hidden-warm" Hwf eq_refl eq_refl).
Defined.

Lemma sweep_bounds_witness :
  registry_wf demo_registry /\
  zlength (filter (fun i => isWarmState (after_state (sweep DESKTOP_RESOURCE_POLICY 9000000 demo_registry) i) = true)
    (reg_list demo_registry)) <= 4.
Proof.
  assert (Hwf : reg_ok demo_registry) by apply demo_registry_wf, registry_wf_empty.
  split; [exact Hwf|]. destruct (sweep_bounds DESKTOP_RESOURCE_POLICY 9000000 demo_registry Hwf) as [Hb _].
  exact Hb.
Defined.

Lemma sweep_evicts_oldest_witness : 8800000 <= 8950000.
Proof.
  assert (Hwf : reg_ok demo_registry) by apply demo_registry_wf, registry_wf_empty.
  exact (sweep_evicts_oldest DESKTOP_RESOURCE_POLICY 9000000 demo_registry
    (demo_instance "d" paused 8000000 8800000) (demo_instance "g" hidden_warm 8950000 8950000) Hwf
    eq_refl eq_refl demo_event_in eq_refl ltac:(discriminate)).
Defined.
