(* ===== verification/AppletManifest.v ===== *)
(** * Applet manifests

    Models [packages/applet-contract/src/manifest.ts]: the check every applet manifest
    passes before its permissions are granted. A document is what [JSON.parse] returns:
    an object holds a key once, and no value in it is [undefined]. A check may throw and
    adds to the list of errors ([Checked]). Keys are taken in the order of the document,
    which is that of [Object.entries] unless a key is an array index. Strings hold characters
    below 256: documents with others, some of which become ASCII letters as capitals (the
    long s, the dotless i), are not covered. *)
From Stdlib Require Import Ascii Lia ZArith.
From stdpp Require Import base numbers strings list pretty.
From S2P Require Import Prelude JsString JsonValue AppletPermissions.

Open Scope string_scope.
Open Scope list_scope.

(** ** Data *)
Inductive TargetPlatform : Set := desktop | android | ios | harmony | web | standalone_app.
Inductive EntryType : Set := lynx_web | lynx_native | web_spa.
Record AppletEntry : Set := { entry_type : EntryType; entry : string }.
Record AppletEntryMap : Set := { lynx : string; standalone : option string }.

(** [load] is keyed by the names of the platforms. *)
Abbreviation AppletLoadMap := (jsmap AppletEntry).

(** [binding] is the value of the document, whatever it is. *)
Record AppletServiceDeclaration : Set := {
  service_id : string; binding : option Json; allowedMethods : list string; allowedPaths : list string;
  publicPathPrefix : option string; stationPathPrefix : option string; service_streaming : bool
}.

Record AppletNetworkExecutorRequest : Set := {
  service : string; path : string; method : option string; headers : option (jsmap string); body : option Json
}.
Record AppletAgentExecutorRequest : Set := { message : option string; agentSessionId : option string; metadata : option Json }.
Inductive AppletSkillExecutor : Set :=
| network_executor (request : AppletNetworkExecutorRequest)
| agent_executor (request : option AppletAgentExecutorRequest).

Record AppletSkillDeclaration : Set := {
  skill_id : string; inputSchema : string; skill_streaming : bool; title : option string; skill_description : option string;
  display : option Json; executor : option AppletSkillExecutor
}.

(** The algorithm of [PackageIntegrity] is always sha256, the protocol of the bridge the
    one of the contract. *)
Record AppletManifest : Set := {
  m_id : string; m_name : option string; m_version : string; m_description : option string; m_author : option string;
  m_icon : option string; m_minPlatformVersion : option string;
  targets : list TargetPlatform; targetPlatforms : option (list TargetPlatform);
  entries : AppletEntryMap; load : AppletLoadMap; bridge_version : option string;
  permissions : list string; capabilities : option (list string);
  services : list AppletServiceDeclaration; skills : list AppletSkillDeclaration; integrity : jsmap string
}.

Inductive ManifestValidationResult : Set :=
| invalid_manifest (errors : list string)
| valid_manifest (manifest : AppletManifest).

Definition APPLET_BRIDGE_PROTOCOL : string := "peers-touch.applet.bridge".

#[export] Instance TargetPlatform_eq_dec : EqDecision TargetPlatform.
Proof. solve_decision. Defined.
#[export] Instance EntryType_eq_dec : EqDecision EntryType.
Proof. solve_decision. Defined.

Definition platform_name (p : TargetPlatform) : string :=
  match p with desktop => "desktop" | android => "android" | ios => "ios" | harmony => "harmony" | web => "web" | standalone_app => "standalone" end.
Definition entry_name (t : EntryType) : string :=
  match t with lynx_web => "lynx-web" | lynx_native => "lynx-native" | web_spa => "web-spa" end.
Definition platformEntryTypes (p : TargetPlatform) : EntryType :=
  match p with desktop | web => lynx_web | android | ios | harmony => lynx_native | standalone_app => web_spa end.
Definition validPlatforms : list TargetPlatform := [desktop; android; ios; harmony; web; standalone_app].
Definition httpMethods : list string := ["GET"; "POST"; "PUT"; "DELETE"; "PATCH"; "HEAD"].
Definition serviceBindings : list string := ["host-resolved"; "station-resolved"; "dev-override"].

(** ** The language: [String(value)], own and inherited properties *)

(** [String(value)]. An object with a key toString has no callable conversion left, as JSON
    has no functions, and throws. A number that is not an integer prints as a text which
    is none of those it is compared with. *)
Fixpoint js_String (v : Json) : result string :=
  match v with
  | jnull => Ok "null"
  | jbool b => Ok (if b then "true" else "false")
  | jnumber (Some n) => Ok (pretty n)
  | jnumber None => Ok "NaN"
  | jstring s => Ok s
  | jarray l =>
      texts ← (fix texts l := match l with
        | [] => Ok []
        | v :: l => t ← match v with jnull => Ok "" | _ => js_String v end; ts ← texts l; Ok (t :: ts)
        end) l;
      Ok (join "," texts)
  | jobject l => if decide (is_Some (assoc_get "toString" l)) then Err "TypeError" else Ok "[object Object]"
  end.

Definition js_String_opt (v : option Json) : result string := match v with Some v => js_String v | None => Ok "undefined" end.

(** [Object.prototype] has these properties, all of them truthy. *)
Definition object_prototype : list string :=
  ["constructor"; "__defineGetter__"; "__defineSetter__"; "hasOwnProperty"; "__lookupGetter__"; "__lookupSetter__";
   "isPrototypeOf"; "propertyIsEnumerable"; "toString"; "valueOf"; "__proto__"; "toLocaleString"].

(** [files[file] = hash]: the setter __proto__ ignores a string. *)
Definition assign (file hash : string) (files : jsmap string) : jsmap string :=
  if decide (file = "__proto__") then files else <[file:=hash]> files.

(** [!!files[file]] *)
Definition has_truthy (files : jsmap string) (file : string) : bool :=
  match files !! file with Some hash => truthy hash | None => bool_decide (file ∈ object_prototype) end.

Definition isRecord (v : option Json) : option (list (string * Json)) := match v with Some (jobject l) => Some l | _ => None end.
Definition nonEmptyString (v : option Json) : option string :=
  match v with Some (jstring s) => if truthy (trim s) then Some s else None | _ => None end.

(** ** Checks *)
Definition Checked (A : Type) : Type := result (A * list string).

#[export] Instance checked_ret : MRet Checked := fun A a => Ok (a, []).
#[export] Instance checked_bind : MBind Checked := fun A B k m =>
  match m with
  | Ok (a, e1) => match k a with Ok (b, e2) => Ok (b, e1 ++ e2) | Err t => Err t end
  | Err t => Err t
  end.

(** [errors.push(e)] *)
Definition report (e : string) : Checked unit := Ok (tt, [e]).
Definition require (ok : bool) (e : string) : Checked unit := if ok then mret tt else report e.

(** [String(v)] *)
Definition text_of (v : option Json) : Checked string := match js_String_opt v with Ok s => mret s | Err t => Err t end.

(** A loop with [continue], or a [flatMap]: every round gives some results. *)
Fixpoint each {X Y} (f : nat -> X -> Checked (list Y)) (i : nat) (l : list X) : Checked (list Y) :=
  match l with
  | [] => mret []
  | x :: l => ys ← f i x; rest ← each f (S i) l; mret (ys ++ rest)
  end.

Definition validateStringArray (value : option Json) (at_ : string) : Checked (list string) :=
  match value with
  | Some (jarray l) =>
      each (fun _ item =>
        match nonEmptyString (Some item) with
        | Some s => mret [s]
        | None => _ ← report (at_ ++ " must contain only non-empty strings"); mret []
        end) 0 l
  | _ => _ ← report (at_ ++ " must be an array"); mret []
  end.

(** [a ?? b] *)
Definition or_nullish (a b : option Json) : option Json := match a with Some jnull | None => b | _ => a end.

Definition platform_of (v : Json) : option TargetPlatform :=
  match v with jstring s => find (fun p => bool_decide (platform_name p = s)) validPlatforms | _ => None end.

Abbreviation get name obj := (assoc_get name obj).

Definition normalizeTargets (obj : list (string * Json)) : Checked (list TargetPlatform) :=
  match or_nullish (get "targets" obj) (get "targetPlatforms" obj) with
  | Some (jarray (v :: l)) =>
      each (fun _ target =>
        match platform_of target with
        | Some p => mret [p]
        | None => t ← text_of (Some target); _ ← report ("targets contains invalid value: " ++ t); mret []
        end) 0 (v :: l)
  | _ => _ ← report "targets must be a non-empty array"; mret []
  end.

Definition validateEntries (obj : list (string * Json)) : Checked AppletEntryMap :=
  match isRecord (get "entries" obj) with
  | None => _ ← report "entries must be a non-null object"; mret {| lynx := ""; standalone := None |}
  | Some raw =>
      let l := nonEmptyString (get "lynx" raw) in
      _ ← require (bool_decide (is_Some l)) "entries.lynx must be a non-empty string";
      mret {| lynx := default "" l; standalone := nonEmptyString (get "standalone" raw) |}
  end.

(** One round of the loop over the targets: what it adds to [result]. *)
Definition load_entry (load : list (string * Json)) (target : TargetPlatform) : Checked (list (string * AppletEntry)) :=
  let name := platform_name target in
  match isRecord (get name load) with
  | None => _ ← report ("load." ++ name ++ " must be an object for every target"); mret []
  | Some raw =>
      let expected := platformEntryTypes target in
      _ ← require (is_text (entry_name expected) (get "type" raw)) ("load." ++ name ++ ".type must be '" ++ entry_name expected ++ "'");
      match nonEmptyString (get "entry" raw) with
      | None => _ ← report ("load." ++ name ++ ".entry must be a non-empty string"); mret []
      | Some e => mret [(name, {| entry_type := expected; entry := e |})]
      end
  end.

Definition from_entries {V} (l : list (string * V)) : jsmap V := fold_left (fun m kv => <[kv.1:=kv.2]> m) l ∅.

Definition validateLoad (load : option Json) (targets : list TargetPlatform) : Checked AppletLoadMap :=
  match isRecord load with
  | None => _ ← report "load must be a non-null object"; mret ∅
  | Some load => added ← each (fun _ target => load_entry load target) 0 targets; mret (from_entries added)
  end.

Definition validatePermissions (raw : option Json) : Checked (list string) :=
  match raw with
  | Some (jarray (v :: l)) =>
      each (fun _ permission =>
        match permission with
        | jstring p =>
            if isCapabilityMethod p then mret [p]
            else _ ← report ("permissions contains unknown capability method: " ++ p); mret []
        | _ => t ← text_of (Some permission); _ ← report ("permissions contains unknown capability method: " ++ t); mret []
        end) 0 (v :: l)
  | _ => _ ← report "permissions must be a non-empty array"; mret []
  end.

Definition indexed (name : string) (i : nat) : string := name ++ "[" ++ pretty i ++ "]".

Definition is_true (v : option Json) : bool := match v with Some (jbool b) => b | _ => false end.

Definition validateService (i : nat) (item : Json) : Checked (list AppletServiceDeclaration) :=
  let at_ := indexed "services" i in
  match isRecord (Some item) with
  | None => _ ← report (at_ ++ " must be an object"); mret []
  | Some item =>
      methods ← validateStringArray (get "allowedMethods" item) (at_ ++ ".allowedMethods");
      paths ← validateStringArray (get "allowedPaths" item) (at_ ++ ".allowedPaths");
      let id := nonEmptyString (get "id" item) in
      _ ← require (bool_decide (is_Some id)) (at_ ++ ".id must be a non-empty string");
      _ ← require (is_text "http" (get "kind" item)) (at_ ++ ".kind must be 'http'");
      b ← text_of (get "binding" item);
      _ ← require (bool_decide (b ∈ serviceBindings)) (at_ ++ ".binding must be host-resolved, station-resolved, or dev-override");
      mret [{| service_id := default "" id; binding := get "binding" item; allowedMethods := methods; allowedPaths := paths;
               publicPathPrefix := nonEmptyString (get "publicPathPrefix" item);
               stationPathPrefix := nonEmptyString (get "stationPathPrefix" item);
               service_streaming := is_true (get "streaming" item) |}]
  end.

Definition validateServices (raw : option Json) : Checked (list AppletServiceDeclaration) :=
  match raw with
  | Some (jarray l) => each validateService 0 l
  | _ => _ ← report "services must be an array"; mret []
  end.

(** [toUpperCase] of the characters below 256: the letter 223 becomes two, and 181 and 255,
    whose capitals are above 255, are left; like those they are in no method. *)
Definition upper (c : ascii) : string :=
  let n := N_of_ascii c in
  if (n =? 223)%N then "SS"
  else if (97 <=? n)%N && (n <=? 122)%N || (224 <=? n)%N && (n <=? 254)%N && negb (n =? 247)%N then String (ascii_of_N (n - 32)) ""
  else String c "".
Fixpoint toUpperCase (s : string) : string := match s with String c s => (upper c ++ toUpperCase s)%string | EmptyString => EmptyString end.

(** The string headers of a request. *)
Definition string_headers (l : list (string * Json)) : jsmap string :=
  from_entries (omap (fun kv => match kv.2 with jstring s => Some (kv.1, s) | _ => None end) l).

Definition record_value (v : option Json) : option Json := jobject <$> isRecord v.

Definition validateNetworkRequest (request : list (string * Json)) (at_ : string) : Checked AppletNetworkExecutorRequest :=
  let srv := nonEmptyString (get "service" request) in
  let p := nonEmptyString (get "path" request) in
  _ ← require (bool_decide (is_Some srv)) (at_ ++ ".request.service must be a non-empty string");
  _ ← require (bool_decide (is_Some p)) (at_ ++ ".request.path must be a non-empty string");
  m ← match get "method" request with
      | None => mret None
      | Some v => t ← text_of (Some v); mret (Some (toUpperCase t))
      end;
  _ ← require (match m with Some m => bool_decide (m ∈ httpMethods) | None => true end)
        (at_ ++ ".request.method must be a supported HTTP method");
  mret {| service := default "" srv; path := default "" p; method := m;
          headers := string_headers <$> isRecord (get "headers" request); body := get "body" request |}.

Definition validateSkillExecutor (raw : option Json) (at_ : string) : Checked (option AppletSkillExecutor) :=
  match raw with
  | None => mret None
  | Some value =>
      match isRecord (Some value) with
      | None => _ ← report (at_ ++ " must be an object"); mret None
      | Some obj =>
          if is_text "agent" (get "type" obj) then
            match get "request" obj with
            | None => mret (Some (agent_executor None))
            | Some request =>
                match isRecord (Some request) with
                | None => _ ← report (at_ ++ ".request must be an object"); mret (Some (agent_executor None))
                | Some request =>
                    mret (Some (agent_executor (Some {|
                      message := nonEmptyString (get "message" request); agentSessionId := nonEmptyString (get "agentSessionId" request);
                      metadata := record_value (get "metadata" request) |})))
                end
            end
          else if negb (is_text "network" (get "type" obj)) then
            _ ← report (at_ ++ ".type must be 'network' or 'agent'"); mret None
          else
            match isRecord (get "request" obj) with
            | None => _ ← report (at_ ++ ".request must be an object"); mret None
            | Some request => r ← validateNetworkRequest request at_; mret (Some (network_executor r))
            end
      end
  end.

Definition validateSkill (i : nat) (item : Json) : Checked (list AppletSkillDeclaration) :=
  let at_ := indexed "skills" i in
  match isRecord (Some item) with
  | None => _ ← report (at_ ++ " must be an object"); mret []
  | Some item =>
      let id := nonEmptyString (get "id" item) in
      let schema := nonEmptyString (get "inputSchema" item) in
      _ ← require (bool_decide (is_Some id)) (at_ ++ ".id must be a non-empty string");
      _ ← require (bool_decide (is_Some schema)) (at_ ++ ".inputSchema must be a non-empty string");
      ex ← validateSkillExecutor (get "executor" item) (at_ ++ ".executor");
      mret [{| skill_id := default "" id; inputSchema := default "" schema; skill_streaming := is_true (get "streaming" item);
               title := nonEmptyString (get "title" item); skill_description := nonEmptyString (get "description" item);
               display := record_value (get "display" item); executor := ex |}]
  end.

Definition validateSkills (raw : option Json) : Checked (list AppletSkillDeclaration) :=
  match raw with
  | Some (jarray l) => each validateSkill 0 l
  | _ => _ ← report "skills must be an array"; mret []
  end.

Definition validateIntegrity (raw : option Json) : Checked (jsmap string) :=
  match isRecord raw with
  | None => _ ← report "integrity must be a non-null object"; mret ∅
  | Some raw =>
      _ ← require (is_text "sha256" (get "algorithm" raw)) "integrity.algorithm must be 'sha256'";
      match isRecord (get "files" raw) with
      | Some ((_ :: _) as files) =>
          hashes ← each (fun _ kv =>
            match nonEmptyString (Some kv.2) with
            | Some hash => mret [(kv.1, hash)]
            | None => _ ← report ("integrity.files." ++ kv.1 ++ " must be a non-empty string"); mret []
            end) 0 files;
          mret (fold_left (fun m kv => assign kv.1 kv.2 m) hashes ∅)
      | _ => _ ← report "integrity.files must be a non-empty object"; mret ∅
      end
  end.

Definition validateBridge (raw : option Json) : Checked unit :=
  match isRecord raw with
  | None => report "bridge must be a non-null object"
  | Some b => require (is_text APPLET_BRIDGE_PROTOCOL (get "protocol" b)) ("bridge.protocol must be '" ++ APPLET_BRIDGE_PROTOCOL ++ "'")
  end.

(** What the checks say about several parts together. *)
Definition validateTogether (e : AppletEntryMap) (load : AppletLoadMap) (perms : list string) (servs : list AppletServiceDeclaration)
  (sks : list AppletSkillDeclaration) (files : jsmap string) : Checked unit :=
  _ ← require (negb (truthy (lynx e)) || existsb (fun l => bool_decide (entry l = lynx e)) (jm_values load))
        "entries.lynx must match at least one integrated load entry";
  _ ← require (negb (truthy (lynx e)) || has_truthy files (lynx e)) "integrity.files must include entries.lynx";
  _ ← require (negb (bool_decide ("network.request" ∈ perms) && bool_decide (servs = [])))
        "network.request permission requires at least one service declaration";
  _ ← each (fun _ skill =>
        _ ← require (has_truthy files (inputSchema skill)) ("integrity.files must include skill input schema: " ++ inputSchema skill);
        mret (@nil unit)) 0 sks;
  mret tt.

(** The strings of [capabilities], whose errors are dropped. *)
Definition capability_list (v : option Json) : option (list string) :=
  match v with Some (jarray l) => Some (omap (fun item => nonEmptyString (Some item)) l) | _ => None end.

Definition validateObject (raw : list (string * Json)) : Checked AppletManifest :=
  let id := nonEmptyString (get "id" raw) in
  let version := nonEmptyString (get "version" raw) in
  _ ← require (bool_decide (is_Some id)) "id must be a non-empty string";
  _ ← require (bool_decide (is_Some version)) "version must be a non-empty string";
  ts ← normalizeTargets raw;
  e ← validateEntries raw;
  ld ← validateLoad (get "load" raw) ts;
  _ ← validateBridge (get "bridge" raw);
  perms ← validatePermissions (get "permissions" raw);
  servs ← validateServices (get "services" raw);
  sks ← validateSkills (get "skills" raw);
  files ← validateIntegrity (get "integrity" raw);
  _ ← validateTogether e ld perms servs sks files;
  mret {| m_id := default "" id; m_name := nonEmptyString (get "name" raw); m_version := default "" version;
          m_description := nonEmptyString (get "description" raw); m_author := nonEmptyString (get "author" raw);
          m_icon := nonEmptyString (get "icon" raw); m_minPlatformVersion := nonEmptyString (get "minPlatformVersion" raw);
          targets := ts;
          targetPlatforms := match get "targetPlatforms" raw with Some (jarray _) => Some ts | _ => None end;
          entries := e; load := ld;
          bridge_version := b ← isRecord (get "bridge" raw); nonEmptyString (get "version" b);
          permissions := perms; capabilities := capability_list (get "capabilities" raw);
          services := servs; skills := sks; integrity := files |}.

(** An error of the result is a thrown exception. *)
Definition validateManifest (raw : Json) : result ManifestValidationResult :=
  match isRecord (Some raw) with
  | None => Ok (invalid_manifest ["manifest must be a non-null object"])
  | Some raw =>
      checked ← (validateObject raw : result (AppletManifest * list string));
      Ok (match checked.2 with [] => valid_manifest checked.1 | errors => invalid_manifest errors end)
  end.
