(* ===== verification/AppletManifestFacts.v ===== *)
(** * Applet manifests: what validation guarantees

    The properties of [AppletManifest]: a manifest that is accepted is well formed, its
    permissions can be granted, and its own JSON text is accepted as itself again. *)
From Stdlib Require Import Ascii Lia ZArith.
From stdpp Require Import base numbers strings list pretty.
From S2P Require Import Prelude JsString JsonValue AppletPermissions AppletManifest.

Open Scope string_scope.
Open Scope list_scope.

(** ** Checks without errors *)
Definition clean {A} (m : Checked A) (a : A) : Prop := m = Ok (a, []).

Lemma clean_ret {A} (a b : A) : clean (mret a) b <-> a = b.
Proof. unfold clean. split; [by intros [= ->] | by intros ->]. Qed.

Lemma clean_bind {A B} (m : Checked A) (k : A -> Checked B) b : clean (m ≫= k) b <-> exists a, clean m a /\ clean (k a) b.
Proof.
  unfold clean, mbind, checked_bind. destruct m as [[a e1]|]; [|by split; [|intros (? & ? & _)]].
  destruct (k a) as [[b' e2]|] eqn:Hk; [|split; [done | intros (? & [= <- <-] & ?); congruence]]. split.
  - intros [= -> [-> ->]%app_nil]. by exists a.
  - intros (a' & [= <- ->] & Hb). rewrite Hk in Hb. by injection Hb as -> ->.
Qed.

Lemma clean_require b e u : clean (require b e) u <-> b = true.
Proof. destruct b; [by destruct u | done]. Qed.

Lemma clean_report {A} e (m : Checked A) a : clean (_ ← report e; m) a <-> False.
Proof. rewrite clean_bind. by split; [intros (? & [=] & _)|]. Qed.

Lemma clean_text v s : clean (text_of v) s <-> js_String_opt v = Ok s.
Proof. unfold clean, text_of. destruct (js_String_opt v); [|done]. split; by intros [= ->]. Qed.

Lemma clean_step {A B} (m : Checked A) (k : A -> Checked B) a b : clean m a -> clean (k a) b -> clean (m ≫= k) b.
Proof. intros Hm Hk. apply clean_bind. by exists a. Qed.

Lemma clean_held {A} (c : bool) e (m : Checked A) a : c = true -> clean m a -> clean (_ ← require c e; m) a.
Proof. intros Hc. by apply (clean_step _ (fun _ => m) tt), clean_require. Qed.

(** Takes the first check off a list of checks without errors. *)
Ltac peel H x Hx := rewrite clean_bind in H; destruct H as (x & Hx & H).

(** A loop whose rounds do not depend on their index. *)
Lemma clean_each {X Y} (P : X -> list Y -> Prop) f l ys i :
  (forall i x y, clean (f i x) y <-> P x y) -> clean (each f i l) ys <-> exists yss, Forall2 P l yss /\ ys = concat yss.
Proof.
  intros Hf. revert i ys. induction l as [|x l IH]; intros i ys; cbn [each].
  - rewrite clean_ret. split; [intros <-; exists []; by split; [constructor|]|]. by intros (? & ->%Forall2_nil_inv_l & ->).
  - rewrite clean_bind. setoid_rewrite clean_bind. setoid_rewrite clean_ret. setoid_rewrite IH. setoid_rewrite Hf. split.
    + intros (y & Hy & zs & (yss & Hyss & ->) & <-). exists (y :: yss). by split; [constructor|].
    + intros (yss & (y & yss' & Hy & Hl & ->)%Forall2_cons_inv_l & ->). exists y. split; [done|]. exists (concat yss'). split; [by exists yss'|done].
Qed.

(** A loop that gives one result a round. *)
Lemma clean_each_one {X Y} (P : X -> Y -> Prop) f l ys i :
  (forall i x y, clean (f i x) y <-> exists z, y = [z] /\ P x z) -> clean (each f i l) ys <-> Forall2 P l ys.
Proof.
  intros Hf. rewrite (clean_each (fun x y => exists z, y = [z] /\ P x z)) by done. split.
  - intros (yss & Hl & ->). induction Hl as [|x y l yss (z & -> & Hz) Hl IH]; [constructor|]. by constructor.
  - intros Hl. exists ((fun z => [z]) <$> ys). split; [|clear Hl; induction ys as [|y ys IH]; [done|]; cbn; by rewrite <- IH].
    induction Hl; constructor; eauto.
Qed.

(** ** Strings and records *)
Definition nonblank (s : string) : Prop := truthy (trim s) = true.

Lemma nonEmpty_spec v s : nonEmptyString v = Some s <-> v = Some (jstring s) /\ nonblank s.
Proof.
  unfold nonEmptyString, nonblank. destruct v as [[ | | |t| | ]|]; try (split; [done | by intros [? _]]).
  destruct (truthy (trim t)) eqn:Ht; split; [by intros [= ->] | by intros [[= ->] _] | done | intros [[= ->] ?]; congruence].
Qed.

Lemma nonEmpty_of s : nonblank s -> nonEmptyString (Some (jstring s)) = Some s.
Proof. intros Hs. by apply nonEmpty_spec. Qed.

Lemma nonblank_truthy s : nonblank s -> truthy s = true.
Proof. unfold nonblank. intros Hs. apply truthy_true. by intros ->. Qed.

Lemma isRecord_spec v l : isRecord v = Some l <-> v = Some (jobject l).
Proof. destruct v as [[]|]; cbn; split; congruence. Qed.

Lemma is_text_spec s v : is_text s v = true <-> v = Some (jstring s).
Proof. destruct v as [[ | | |t| | ]|]; cbn; try (by split). rewrite bool_decide_eq_true. split; [by intros -> | by intros [= ->]]. Qed.

Lemma platform_of_spec v p : platform_of v = Some p <-> v = jstring (platform_name p).
Proof.
  destruct v as [ | | |s| | ]; cbn; try (by split). split.
  - intros Hp. by repeat case_bool_decide; simplify_eq.
  - intros [= ->]. by destruct p.
Qed.

(** ** What the single checks accept *)
Lemma string_array_spec v at_ ys : clean (validateStringArray v at_) ys <-> v = Some (jarray (jstring <$> ys)) /\ Forall nonblank ys.
Proof.
  unfold validateStringArray. destruct v as [[ | | | |l| ]|]; try (rewrite clean_report; by split; [|intros [? _]]).
  rewrite (clean_each_one (fun x s => x = jstring s /\ nonblank s)).
  - split.
    + intros Hl. induction Hl as [|x y l ys [-> Hy] Hl [[= ->] IH]]; [done|]. split; [done | by constructor].
    + intros [[= ->] Hy]. induction Hy; constructor; auto.
  - intros i x y. destruct (nonEmptyString (Some x)) as [s|] eqn:Hs.
    + rewrite clean_ret. apply nonEmpty_spec in Hs as [[= ->] Hs]. split; [intros <-; eauto|]. by intros (z & -> & [= ->] & _).
    + rewrite clean_report. split; [done|]. intros (z & _ & -> & Hz). by rewrite nonEmpty_of in Hs.
Qed.

Lemma targets_spec obj ts :
  clean (normalizeTargets obj) ts <->
  or_nullish (get "targets" obj) (get "targetPlatforms" obj) = Some (jarray ((fun p => jstring (platform_name p)) <$> ts)) /\ ts <> [].
Proof.
  unfold normalizeTargets. destruct (or_nullish _ _) as [[ | | | |l| ]|]; try (rewrite clean_report; by split; [|intros [? _]]).
  assert (Hl : forall l, clean (each (fun _ target => match platform_of target with
      | Some p => mret [p]
      | None => t ← text_of (Some target); _ ← report ("targets contains invalid value: " ++ t); mret []
      end) 0 l) ts <-> l = (fun p => jstring (platform_name p)) <$> ts).
  { clear l. intros l. rewrite (clean_each_one (fun x p => x = jstring (platform_name p))).
    - split; [|intros ->; induction ts; by constructor]. intros Hf. induction Hf as [|x y l ys -> Hf ->]; done.
    - intros i x y. destruct (platform_of x) as [p|] eqn:Hp.
      + rewrite clean_ret. apply platform_of_spec in Hp as ->. split; [intros <-; by eexists|]. intros (z & -> & Hz). by destruct p, z.
      + rewrite clean_bind. setoid_rewrite clean_report. split; [by intros (? & _ & ?)|]. intros (z & _ & ->).
        by rewrite (proj2 (platform_of_spec _ z)) in Hp. }
  destruct l as [|v l]; [rewrite clean_report; split; [done|]; intros [[= Hts] Hne]; by destruct ts|].
  rewrite Hl. split; [intros Heq; split; [by rewrite Heq | by intros ->] | by intros [[= ->] _]].
Qed.

Lemma permissions_spec v ps :
  clean (validatePermissions v) ps <-> v = Some (jarray (jstring <$> ps)) /\ ps <> [] /\ Forall (fun p => isCapabilityMethod p = true) ps.
Proof.
  unfold validatePermissions. destruct v as [[ | | | |l| ]|]; try (rewrite clean_report; by split; [|intros [? _]]).
  destruct l as [|v l]; [rewrite clean_report; split; [done|]; intros ([= Hps] & Hne & _); by destruct ps|].
  rewrite (clean_each_one (fun x s => x = jstring s /\ isCapabilityMethod s = true)).
  - split.
    + intros Hl. enough (v :: l = jstring <$> ps /\ Forall (fun p => isCapabilityMethod p = true) ps) as [Heq Hf].
      { split_and!; [by rewrite Heq | by intros -> | done]. }
      induction Hl as [|x y l' ys [-> Hy] Hl [-> IH]]; [done|]. split; [done | by constructor].
    + intros ([= ->] & _ & Hy). induction Hy; constructor; auto.
  - intros i x y. destruct x as [ | | |s| | ]; try (rewrite clean_bind; setoid_rewrite clean_report; split; [by intros (? & _ & ?) | by intros (z & _ & ? & _)]).
    destruct (isCapabilityMethod s) eqn:Hs; [rewrite clean_ret | rewrite clean_report].
    + split; [intros <-; by exists s|]. by intros (z & -> & [= ->] & _).
    + split; [done|]. intros (z & _ & [= <-] & Hz). congruence.
Qed.

(** ** Objects built entry by entry *)
Section objects.
Context {V : Type}.
Implicit Types (l : list (string * V)) (m : jsmap V).

Lemma from_entries_app l1 l2 m : fold_left (fun m kv => <[kv.1:=kv.2]> m) (l1 ++ l2) m = fold_left (fun m kv => <[kv.1:=kv.2]> m) l2 (fold_left (fun m kv => <[kv.1:=kv.2]> m) l1 m).
Proof. apply fold_left_app. Qed.

Lemma from_entries_wf l : jm_wf (from_entries l).
Proof.
  unfold from_entries. assert (Hm : jm_wf (∅ : jsmap V)) by apply jm_wf_empty. revert Hm. generalize (∅ : jsmap V).
  induction l as [|kv l IH]; intros m Hm; [done|]. by apply IH, jm_wf_set.
Qed.

(** Where equal keys have equal values the order does not matter. *)
Lemma from_entries_lookup l k v :
  (forall v1 v2 k, (k, v1) ∈ l -> (k, v2) ∈ l -> v1 = v2) -> from_entries l !! k = Some v <-> (k, v) ∈ l.
Proof.
  unfold from_entries. induction l as [|[k' v'] l IH] using rev_ind; intros Hf.
  - cbn. split; [done | by intros ?%not_elem_of_nil].
  - rewrite from_entries_app. cbn [fold_left fst snd]. rewrite jm_lookup_set, elem_of_app, list_elem_of_singleton. destruct (decide (k' = k)) as [->|Hne].
    + split; [intros [= ->]; by right|]. intros Hin. f_equal. apply (Hf v' v k); rewrite elem_of_app, list_elem_of_singleton; [by right|].
      destruct Hin as [?|[= ->]]; [by left | by right].
    + rewrite IH; [split; [by left | intros [?|[= -> ->]]; [done | congruence]]|].
      intros v1 v2 k0 H1 H2. apply (Hf v1 v2 k0); apply elem_of_app; by left.
Qed.

Lemma assoc_set_fresh k v (l : list (string * V)) : k ∉ l.*1 -> assoc_set k v l = l ++ [(k, v)].
Proof.
  induction l as [|[k' v'] l IH]; [done|]. cbn. intros [Hne Hni]%not_elem_of_cons. rewrite decide_False by done. by rewrite IH.
Qed.

Lemma insert_all_fresh l l0 : NoDup ((l0 ++ l).*1) -> fold_left (fun m kv => <[kv.1:=kv.2]> m) l (JsMap l0) = JsMap (l0 ++ l).
Proof.
  revert l0. induction l as [|[k v] l IH]; intros l0 Hn; cbn [fold_left fst snd]; [by rewrite app_nil_r|].
  unfold insert at 2, jsmap_insert. cbn [Prelude.entries]. rewrite assoc_set_fresh.
  - rewrite IH; rewrite <- (assoc_L (++)); done.
  - rewrite fmap_app, fmap_cons in Hn. apply NoDup_app in Hn as (_ & Hd & _). intros Hin. apply (Hd k Hin). left.
Qed.

Lemma from_entries_entries m : jm_wf m -> from_entries (Prelude.entries m) = m.
Proof. intros Hm. destruct m as [l]. exact (insert_all_fresh l [] Hm). Qed.

Lemma assoc_get_fmap {W} (g : V -> W) k l : assoc_get k ((fun kv => (kv.1, g kv.2)) <$> l) = g <$> assoc_get k l.
Proof. induction l as [|[k' v] l IH]; [done|]. cbn. by destruct (decide (k = k')). Qed.
End objects.

(** [assign] is insertion but for the one key. *)
Lemma assign_all l m : fold_left (fun m kv => assign kv.1 kv.2 m) l m =
  fold_left (fun m kv => <[kv.1:=kv.2]> m) (filter (fun kv => kv.1 <> "__proto__") l) m.
Proof.
  revert m. induction l as [|[k h] l IH]; intros m; [done|]. cbn [fold_left fst snd]. unfold assign at 2. rewrite filter_cons. cbn [fst].
  destruct (decide (k = "__proto__")); [rewrite decide_False by tauto | rewrite decide_True by done]; by rewrite IH.
Qed.

(** ** The entries to load *)
Definition entry_of (p : TargetPlatform) (s : string) : AppletEntry := {| entry_type := platformEntryTypes p; entry := s |}.

Definition entry_at (load : list (string * Json)) (p : TargetPlatform) (s : string) : Prop :=
  exists raw, get (platform_name p) load = Some (jobject raw) /\ is_text (entry_name (platformEntryTypes p)) (get "type" raw) = true
    /\ nonEmptyString (get "entry" raw) = Some s.

Definition load_pairs (ts : list TargetPlatform) (ss : list string) : list (string * AppletEntry) :=
  zip_with (fun p s => (platform_name p, entry_of p s)) ts ss.

Lemma load_entry_spec load p y : clean (load_entry load p) y <-> exists z, y = [z] /\ exists s, z = (platform_name p, entry_of p s) /\ entry_at load p s.
Proof.
  unfold load_entry, entry_at. destruct (isRecord (get (platform_name p) load)) as [raw|] eqn:Hr.
  - apply isRecord_spec in Hr. rewrite Hr, clean_bind. setoid_rewrite clean_require. split.
    + intros ([] & Ht & Hy). destruct (nonEmptyString (get "entry" raw)) as [s|] eqn:Hs; [|by rewrite clean_report in Hy].
      apply clean_ret in Hy as <-. eexists. split; [done|]. exists s. split; [done|]. by exists raw.
    + intros (z & -> & s & -> & raw' & [= <-] & Ht & Hs). exists tt. split; [done|]. rewrite Hs. by apply clean_ret.
  - rewrite clean_report. split; [done|]. intros (z & _ & s & _ & raw & Hg & _). by rewrite Hg in Hr.
Qed.

Lemma load_spec v ts m : clean (validateLoad v ts) m <->
  exists load ss, v = Some (jobject load) /\ Forall2 (entry_at load) ts ss /\ m = from_entries (load_pairs ts ss).
Proof.
  unfold validateLoad. destruct (isRecord v) as [load|] eqn:Hr.
  - apply isRecord_spec in Hr as ->. rewrite clean_bind. setoid_rewrite clean_ret.
    assert (He : forall added, clean (each (fun _ target => load_entry load target) 0 ts) added <->
      exists ss, Forall2 (entry_at load) ts ss /\ added = load_pairs ts ss).
    { intros added. rewrite (clean_each_one (fun p z => exists s, z = (platform_name p, entry_of p s) /\ entry_at load p s)) by (intros; apply load_entry_spec).
      split.
      - intros Hl. induction Hl as [|p z ts' added (s & -> & Hs) Hl (ss & Hss & ->)]; [by exists []|]. exists (s :: ss). by split; [constructor|].
      - intros (ss & Hss & ->). induction Hss; constructor; eauto. }
    setoid_rewrite He. split.
    + intros (added & (ss & Hss & ->) & <-). by exists load, ss.
    + intros (load' & ss & [= <-] & Hss & ->). eauto.
  - rewrite clean_report. split; [done|]. by intros (load & ss & -> & _).
Qed.

(** A platform has one entry. *)
Lemma entry_at_unique load p s s' : entry_at load p s -> entry_at load p s' -> s = s'.
Proof. intros (r & Hr & _ & Hs) (r' & Hr' & _ & Hs'). congruence. Qed.

Lemma platform_name_inj p q : platform_name p = platform_name q -> p = q.
Proof. by destruct p, q. Qed.

Lemma load_pairs_elem load ts ss k e : Forall2 (entry_at load) ts ss ->
  (k, e) ∈ load_pairs ts ss <-> exists p s, p ∈ ts /\ entry_at load p s /\ k = platform_name p /\ e = entry_of p s.
Proof.
  intros Hl. induction Hl as [|p s ts ss Hp Hl IH]; cbn.
  - split; [by intros ?%not_elem_of_nil | by intros (p & s & ?%not_elem_of_nil & _)].
  - rewrite elem_of_cons, IH. split.
    + intros [[= -> ->]|(q & t & Hq & ?)]; [exists p, s; split; [left | done] | exists q, t; split; [by right | done]].
    + intros (q & t & [->|Hq]%elem_of_cons & Ht & -> & ->); [left; by rewrite (entry_at_unique load p s t)|].
      right. by exists q, t.
Qed.

Lemma load_lookup load ts ss k e : Forall2 (entry_at load) ts ss ->
  from_entries (load_pairs ts ss) !! k = Some e <-> exists p s, p ∈ ts /\ entry_at load p s /\ k = platform_name p /\ e = entry_of p s.
Proof.
  intros Hl. rewrite from_entries_lookup; [by apply load_pairs_elem|].
  intros v1 v2 k0. rewrite !(load_pairs_elem load) by done. intros (p & s & _ & Hp & -> & ->) (q & t & _ & Hq & He & ->).
  apply platform_name_inj in He as <-. by rewrite (entry_at_unique load p s t).
Qed.

(** ** Well-formed parts *)
Definition opt_nonblank (o : option string) : Prop := forall s, o = Some s -> nonblank s.
Definition opt_record (o : option Json) : Prop := forall v, o = Some v -> exists l, v = jobject l.

Record service_ok (d : AppletServiceDeclaration) : Prop := {
  sv_id : nonblank (service_id d);
  sv_binding : exists b, js_String_opt (binding d) = Ok b /\ b ∈ serviceBindings;
  sv_methods : Forall nonblank (allowedMethods d);
  sv_paths : Forall nonblank (allowedPaths d);
  sv_public : opt_nonblank (publicPathPrefix d);
  sv_station : opt_nonblank (stationPathPrefix d)
}.

Definition executor_ok (e : AppletSkillExecutor) : Prop :=
  match e with
  | network_executor r => nonblank (service r) /\ nonblank (path r) /\ (forall m, method r = Some m -> m ∈ httpMethods)
      /\ (forall h, headers r = Some h -> jm_wf h)
  | agent_executor (Some r) => opt_nonblank (message r) /\ opt_nonblank (agentSessionId r) /\ opt_record (metadata r)
  | agent_executor None => True
  end.

Record skill_ok (d : AppletSkillDeclaration) : Prop := {
  sk_id : nonblank (skill_id d);
  sk_schema : nonblank (inputSchema d);
  sk_title : opt_nonblank (title d);
  sk_description : opt_nonblank (skill_description d);
  sk_display : opt_record (display d);
  sk_executor : forall e, executor d = Some e -> executor_ok e
}.

(** Every file but __proto__ has a hash. *)
Record files_ok (m : jsmap string) : Prop := {
  fi_wf : jm_wf m;
  fi_proto : m !! "__proto__" = None;
  fi_hash : forall file hash, m !! file = Some hash -> nonblank hash
}.

Record load_ok (ts : list TargetPlatform) (m : AppletLoadMap) : Prop := {
  lo_entry : forall p, p ∈ ts -> exists e, m !! platform_name p = Some e /\ entry_type e = platformEntryTypes p /\ nonblank (entry e);
  lo_only : forall k e, m !! k = Some e -> exists p, p ∈ ts /\ k = platform_name p;
  lo_order : m = from_entries ((fun p => (platform_name p, entry_of p (default "" (entry <$> m !! platform_name p)))) <$> ts)
}.

Lemma nonEmpty_ok v : opt_nonblank (nonEmptyString v).
Proof. intros s Hs. by apply nonEmpty_spec in Hs as [_ ?]. Qed.

Lemma record_value_ok v : opt_record (record_value v).
Proof. unfold record_value. intros x. destruct (isRecord v) as [l|]; [|done]. intros [= <-]. by eexists. Qed.

Lemma service_sound i item ds : clean (validateService i item) ds -> exists d, ds = [d] /\ service_ok d.
Proof.
  unfold validateService. destruct (isRecord (Some item)) as [obj|]; [|by rewrite clean_report].
  repeat setoid_rewrite clean_bind. setoid_rewrite clean_require. setoid_rewrite clean_text. setoid_rewrite string_array_spec. setoid_rewrite clean_ret.
  intros (ms & [_ Hms] & ps & [_ Hps] & _ & Hid & _ & _ & b & Hb & _ & Hin & <-). eexists. split; [done|].
  apply bool_decide_eq_true in Hid as [id Hid]. apply bool_decide_eq_true in Hin.
  constructor; cbn; try done; [|by exists b | apply nonEmpty_ok | apply nonEmpty_ok].
  rewrite Hid. by apply nonEmpty_spec in Hid as [_ ?].
Qed.

Lemma network_sound request at_ r : clean (validateNetworkRequest request at_) r -> executor_ok (network_executor r).
Proof.
  unfold validateNetworkRequest. repeat setoid_rewrite clean_bind. setoid_rewrite clean_require. setoid_rewrite clean_ret.
  intros (_ & Hs & _ & Hp & m & _ & _ & Hm & <-). apply bool_decide_eq_true in Hs as [s Hs]. apply bool_decide_eq_true in Hp as [p Hp].
  cbn. rewrite Hs, Hp. apply nonEmpty_spec in Hs as [_ ?], Hp as [_ ?]. split_and!; [done | done | |].
  - intros m' ->. by apply bool_decide_eq_true in Hm.
  - intros h Hh. destruct (isRecord _); [|done]. injection Hh as <-. apply from_entries_wf.
Qed.

Lemma executor_sound raw at_ e : clean (validateSkillExecutor raw at_) e -> forall x, e = Some x -> executor_ok x.
Proof.
  unfold validateSkillExecutor. destruct raw as [v|]; [|by rewrite clean_ret; intros <-].
  destruct (isRecord (Some v)) as [obj|]; [|by rewrite clean_report]. destruct (is_text "agent" _).
  - destruct (get "request" obj) as [rq|]; [|by rewrite clean_ret; intros <- x [= <-]].
    destruct (isRecord (Some rq)) as [rq'|]; [|by rewrite clean_report]. rewrite clean_ret. intros <- x [= <-].
    cbn. split_and!; [apply nonEmpty_ok | apply nonEmpty_ok | apply record_value_ok].
  - destruct (negb _); [by rewrite clean_report|]. destruct (isRecord _) as [rq|]; [|by rewrite clean_report].
    rewrite clean_bind. setoid_rewrite clean_ret. intros (r & Hr & <-) x [= <-]. by eapply network_sound.
Qed.

Lemma skill_sound i item ds : clean (validateSkill i item) ds -> exists d, ds = [d] /\ skill_ok d.
Proof.
  unfold validateSkill. destruct (isRecord (Some item)) as [obj|]; [|by rewrite clean_report].
  repeat setoid_rewrite clean_bind. setoid_rewrite clean_require. setoid_rewrite clean_ret.
  intros (_ & Hid & _ & Hsc & ex & Hex & <-). eexists. split; [done|].
  apply bool_decide_eq_true in Hid as [id Hid]. apply bool_decide_eq_true in Hsc as [sc Hsc].
  constructor; cbn; try apply nonEmpty_ok; try apply record_value_ok.
  - rewrite Hid. by apply nonEmpty_spec in Hid as [_ ?].
  - rewrite Hsc. by apply nonEmpty_spec in Hsc as [_ ?].
  - by eapply executor_sound.
Qed.

(** Rounds that give one good result each make a list of good results. *)
Lemma each_sound {X Y} (P : Y -> Prop) (f : nat -> X -> Checked (list Y)) i l ys :
  (forall i x y, clean (f i x) y -> exists z, y = [z] /\ P z) -> clean (each f i l) ys -> Forall P ys.
Proof.
  intros Hf. revert i ys. induction l as [|x l IH]; intros i ys; cbn [each]; [by rewrite clean_ret; intros <-|].
  repeat setoid_rewrite clean_bind. setoid_rewrite clean_ret. intros (y & Hy & zs & Hzs & <-).
  destruct (Hf i x y Hy) as (z & -> & Hz). constructor; [done|]. by eapply IH.
Qed.

Lemma services_sound raw ds : clean (validateServices raw) ds -> Forall service_ok ds.
Proof. unfold validateServices. destruct raw as [[]|]; try (by rewrite clean_report). apply each_sound, service_sound. Qed.

Lemma skills_sound raw ds : clean (validateSkills raw) ds -> Forall skill_ok ds.
Proof. unfold validateSkills. destruct raw as [[]|]; try (by rewrite clean_report). apply each_sound, skill_sound. Qed.

Lemma load_sound v ts m : clean (validateLoad v ts) m -> load_ok ts m.
Proof.
  rewrite load_spec. intros (ld & ss & -> & Hl & ->).
  assert (Hp : forall p, p ∈ ts -> exists s, entry_at ld p s).
  { intros p Hp. clear -Hl Hp. induction Hl as [|q s ts ss Hq Hl IH]; [by apply elem_of_nil in Hp|].
    apply elem_of_cons in Hp as [->|Hp]; [by exists s | by apply IH]. }
  constructor.
  - intros p Hpt. destruct (Hp p Hpt) as [s Hs]. exists (entry_of p s). split_and!; [| done |].
    + apply (load_lookup ld); [done|]. by exists p, s.
    + destruct Hs as (raw & _ & _ & Hs). by apply nonEmpty_spec in Hs as [_ ?].
  - intros k e Hk. apply (load_lookup ld) in Hk as (p & s & ? & _ & -> & _); [|done]. by exists p.
  - f_equal. unfold load_pairs. assert (Hlk : forall p s, p ∈ ts -> entry_at ld p s -> default "" (entry <$> from_entries (load_pairs ts ss) !! platform_name p) = s).
    { intros p s Hpt Hs. rewrite (proj2 (load_lookup ld ts ss (platform_name p) (entry_of p s) Hl)); [done|]. by exists p, s. }
    unfold load_pairs in Hlk. revert Hlk. generalize (from_entries (zip_with (fun p s => (platform_name p, entry_of p s)) ts ss)). intros m Hlk.
    clear Hp. induction Hl as [|p s ts ss Hs Hl IH]; [done|]. cbn [zip_with]. rewrite fmap_cons. cbv beta. rewrite (Hlk p s) by (done || left). f_equal.
    apply IH. intros q t Hq. apply Hlk. by right.
Qed.

(** The list of hashes of a document. *)
Lemma hashes_spec files hs :
  clean (each (fun _ kv => match nonEmptyString (Some kv.2) with
    | Some hash => mret [(kv.1, hash)]
    | None => _ ← report ("integrity.files." ++ kv.1 ++ " must be a non-empty string"); mret []
    end) 0 files) hs <-> files = (fun kv => (kv.1, jstring kv.2)) <$> hs /\ Forall (fun kv => nonblank kv.2) hs.
Proof.
  rewrite (clean_each_one (fun (kv : string * Json) z => kv = (z.1, jstring z.2) /\ nonblank z.2)).
  - split.
    + intros Hl. induction Hl as [|x y l ys [-> Hy] Hl [-> IH]]; [done|]. split; [done | by constructor].
    + intros [-> Hy]. induction Hy; constructor; auto.
  - intros i [k v] y. cbn [fst snd]. destruct (nonEmptyString (Some v)) as [s|] eqn:Hs.
    + apply nonEmpty_spec in Hs as [[= ->] Hs]. rewrite clean_ret. split; [intros <-; by exists (k, s)|]. by intros ([k' z] & -> & [= -> ->] & _).
    + rewrite clean_report. split; [done|]. intros ([k' z] & _ & [= -> ->] & Hz). cbn in Hz. by rewrite nonEmpty_of in Hs.
Qed.

Lemma integrity_sound raw m : clean (validateIntegrity raw) m -> files_ok m.
Proof.
  unfold validateIntegrity. destruct (isRecord raw) as [obj|]; [|by rewrite clean_report].
  rewrite clean_bind. intros (_ & _ & Hm). destruct (isRecord (get "files" obj)) as [[|f fs]|]; try (by rewrite clean_report in Hm).
  rewrite clean_bind in Hm. destruct Hm as (hs & Hhs & Hm). apply clean_ret in Hm as <-. apply hashes_spec in Hhs as [_ Hf].
  rewrite assign_all. fold (from_entries (filter (fun kv => kv.1 <> "__proto__") hs)).
  set (kept := filter (fun kv => kv.1 <> "__proto__") hs).
  assert (Hk : forall k h, from_entries kept !! k = Some h -> k <> "__proto__" /\ nonblank h).
  { assert (Hkf : Forall (fun kv => kv.1 <> "__proto__" /\ nonblank kv.2) kept).
    { apply Forall_forall. intros kv [Hne Hin]%list_elem_of_filter. rewrite Forall_forall in Hf. auto. }
    clearbody kept. clear -Hkf. unfold from_entries. intros k h.
    assert (H0 : (∅ : jsmap string) !! k = Some h -> k <> "__proto__" /\ nonblank h) by done. revert H0. generalize (∅ : jsmap string).
    induction Hkf as [|[k' h'] l [H1 H2] Hl IH]; intros m Hm; [done|]. cbn [fold_left fst snd]. apply IH.
    rewrite jm_lookup_set. destruct (decide (k' = k)) as [<-|]; [|done]. by intros [= <-]. }
  constructor; [apply from_entries_wf | | intros k h Hh; by destruct (Hk k h Hh)].
  destruct (from_entries kept !! "__proto__") eqn:Hp; [|done]. apply Hk in Hp as [Hp _]. done.
Qed.
