(* ===== verification/AppletManifestAnswers.v ===== *)
(** * Applet manifests: checks that throw nothing

    [String] throws a TypeError for an object with a key toString, and the checks of
    [AppletManifest] use it for their messages. Without such keys every check answers. *)
From Stdlib Require Import Ascii Lia ZArith.
From stdpp Require Import base numbers strings list pretty.
From S2P Require Import Prelude JsString JsonValue AppletPermissions AppletManifest AppletManifestFacts.

Open Scope string_scope.
Open Scope list_scope.

(** No object of the document has a key toString. *)
Fixpoint plain (v : Json) : bool :=
  match v with
  | jarray l => forallb plain l
  | jobject l => negb (bool_decide ("toString" ∈ l.*1)) && forallb (fun kv => plain kv.2) l
  | _ => true
  end.

(** A check that throws nothing. *)
Definition answers {A} (m : Checked A) : Prop := exists r, m = Ok r.

(** ** Lemmas *)
Section answers.

Lemma answers_ret {A} (a : A) : answers (mret a).
Proof. by eexists. Qed.

Lemma answers_bind {A B} (m : Checked A) (k : A -> Checked B) : answers m -> (forall a, answers (k a)) -> answers (m ≫= k).
Proof. intros [[a e1] ->] Hk. destruct (Hk a) as [[b e2] Hb]. exists (b, e1 ++ e2). unfold mbind, checked_bind. by rewrite Hb. Qed.

Lemma answers_report e : answers (report e).
Proof. by eexists. Qed.

Lemma answers_require c e : answers (require c e).
Proof. destruct c; by eexists. Qed.

Lemma answers_each {X Y} (P : X -> Prop) (f : nat -> X -> Checked (list Y)) i l :
  (forall i x, P x -> answers (f i x)) -> Forall P l -> answers (each f i l).
Proof.
  intros Hf Hl. revert i. induction Hl as [|x l Hx Hl IH]; intros i; cbn [each]; [apply answers_ret|].
  apply answers_bind; [by apply Hf|]. intros ys. apply answers_bind; [apply IH|]. intros zs. apply answers_ret.
Qed.

Lemma answers_each_any {X Y} (f : nat -> X -> Checked (list Y)) i l : (forall i x, answers (f i x)) -> answers (each f i l).
Proof. intros Hf. apply (answers_each (fun _ => True)); [auto | by apply Forall_true]. Qed.

Lemma element_text v t : js_String v = Ok t -> exists t', match v with jnull => Ok "" | _ => js_String v end = Ok t'.
Proof. destruct v; eauto. Qed.

Lemma js_String_total : forall v, plain v = true -> exists s, js_String v = Ok s.
Proof.
  fix IH 1. intros [ |b|[n|]|s|l|l] Hv; try by eexists.
  - assert (Hl : exists ts, (fix texts l := match l with
        | [] => Ok []
        | v :: l => t ← match v with jnull => Ok "" | _ => js_String v end; ts ← texts l; Ok (t :: ts)
        end) l = Ok ts :> result (list string)).
    { induction l as [|v l IHl]; [by eexists|]. cbn [plain forallb] in Hv. apply andb_true_iff in Hv as [Hv Hl].
      destruct (IHl Hl) as [ts Hts]. destruct (IH v Hv) as [t Ht].
      destruct (element_text v t Ht) as [t' Ht'].
      rewrite Ht'. cbn. rewrite Hts. by eexists. }
    destruct Hl as [ts Hts]. cbn [js_String]. rewrite Hts. by eexists.
  - cbn [plain] in Hv. apply andb_true_iff in Hv as [Hv _]. apply negb_true_iff, bool_decide_eq_false in Hv. cbn [js_String].
    rewrite decide_False; [by eexists|]. intros [x Hx]. apply Hv. clear -Hx. induction l as [|[k v] l IHl]; [done|]. cbn in Hx |- *.
    destruct (decide ("toString" = k)) as [->|]; [left | right; auto].
Qed.

Definition plain_opt (v : option Json) : Prop := forall x, v = Some x -> plain x = true.

Lemma plain_get k l : plain (jobject l) = true -> plain_opt (get k l).
Proof.
  intros [_ Hl]%andb_true_iff x. induction l as [|[k' v] l IH]; [done|]. cbn in Hl |- *. apply andb_true_iff in Hl as [Hv Hl].
  destruct (decide (k = k')); [by intros [= <-] | by apply IH].
Qed.

Lemma plain_some v : plain v = true -> plain_opt (Some v).
Proof. by intros Hv x [= <-]. Qed.

Lemma plain_record v l : plain_opt v -> isRecord v = Some l -> plain (jobject l) = true.
Proof. intros Hv Hr. apply isRecord_spec in Hr. by apply Hv. Qed.

Lemma plain_elements v l : plain_opt v -> v = Some (jarray l) -> Forall (fun x => plain x = true) l.
Proof. intros Hv Hl. apply Hv in Hl. apply Forall_forall. intros x Hx. apply forallb_forall with (x := x) in Hl; [done | by apply list_elem_of_In]. Qed.

Lemma answers_text v : plain_opt v -> answers (text_of v).
Proof.
  intros Hv. unfold text_of, js_String_opt. destruct v as [x|]; [|apply answers_ret].
  destruct (js_String_total x (Hv x eq_refl)) as [s ->]. apply answers_ret.
Qed.

Lemma answers_strings v at_ : answers (validateStringArray v at_).
Proof.
  unfold validateStringArray. destruct v as [[]|]; try (apply answers_bind; [apply answers_report | intros; apply answers_ret]).
  apply answers_each_any. intros _ x. destruct (nonEmptyString _); [apply answers_ret|]. apply answers_bind; [apply answers_report | intros; apply answers_ret].
Qed.
End answers.

Create HintDb answers discriminated.
#[export] Hint Resolve answers_ret answers_report answers_require answers_strings answers_text plain_get : answers.
(** Goes through a check bind by bind. *)
Ltac answer := repeat (apply answers_bind; [eauto with answers|intros ?]); eauto with answers.

Lemma answers_targets obj : plain (jobject obj) = true -> answers (normalizeTargets obj).
Proof.
  intros Ho. unfold normalizeTargets. destruct (or_nullish _ _) as [[ | | | |l| ]|] eqn:Hn; try by answer.
  assert (Hl : Forall (fun x => plain x = true) l).
  { unfold or_nullish in Hn. pose proof (plain_get "targets" obj Ho) as H1. pose proof (plain_get "targetPlatforms" obj Ho) as H2.
    destruct (get "targets" obj) as [[]|]; try done; [exact (plain_elements _ _ H2 Hn)| |exact (plain_elements _ _ H2 Hn)].
    injection Hn as ->. exact (plain_elements _ _ H1 eq_refl). }
  destruct l as [|v l]; [by answer|]. apply (answers_each (fun x => plain x = true)); [|done].
  intros _ x Hx. destruct (platform_of x); [by answer|]. apply answers_bind; [by apply answers_text, plain_some | intros; answer].
Qed.

Lemma answers_permissions v : plain_opt v -> answers (validatePermissions v).
Proof.
  intros Hv. unfold validatePermissions. destruct v as [[ | | | |[|v l]| ]|]; try by answer.
  apply (answers_each (fun x => plain x = true)); [|by eapply plain_elements].
  intros _ x Hx. destruct x; try (apply answers_bind; [by apply answers_text, plain_some | intros; answer]). destruct (isCapabilityMethod _); answer.
Qed.


Lemma answers_service i item : plain item = true -> answers (validateService i item).
Proof.
  intros Hi. unfold validateService. destruct (isRecord (Some item)) as [obj|] eqn:Hr; [|by answer].
  pose proof (plain_record _ _ (plain_some _ Hi) Hr). answer.
Qed.

Lemma answers_network request at_ : plain (jobject request) = true -> answers (validateNetworkRequest request at_).
Proof.
  intros Hr. unfold validateNetworkRequest. do 2 (apply answers_bind; [eauto with answers | intros _]). apply answers_bind; [|intros; answer].
  pose proof (plain_get "method" request Hr) as Hm. destruct (get "method" request) as [v|]; [|by answer]. answer.
Qed.

Lemma answers_executor v at_ : plain_opt v -> answers (validateSkillExecutor v at_).
Proof.
  intros Hv. unfold validateSkillExecutor. destruct v as [x|]; [|by answer]. destruct (isRecord (Some x)) as [obj|] eqn:Hr; [|by answer].
  apply (plain_record _ _ Hv) in Hr. destruct (is_text "agent" _).
  - destruct (get "request" obj) as [rq|]; [|by answer]. destruct (isRecord (Some rq)); answer.
  - destruct (negb _); [by answer|]. destruct (isRecord (get "request" obj)) as [rq|] eqn:Hq; [|by answer].
    apply (plain_record _ _ (plain_get _ _ Hr)) in Hq. apply answers_bind; [by apply answers_network | intros; answer].
Qed.

Lemma answers_skill i item : plain item = true -> answers (validateSkill i item).
Proof.
  intros Hi. unfold validateSkill. destruct (isRecord (Some item)) as [obj|] eqn:Hr; [|by answer].
  apply (plain_record _ _ (plain_some _ Hi)) in Hr. do 2 (apply answers_bind; [eauto with answers | intros _]).
  apply answers_bind; [by apply answers_executor, plain_get | intros; answer].
Qed.

Lemma answers_load v ts : answers (validateLoad v ts).
Proof.
  unfold validateLoad. destruct (isRecord v) as [load|]; [|by answer]. apply answers_bind; [|intros; answer].
  apply answers_each_any. intros _ p. unfold load_entry. destruct (isRecord _); [|by answer]. answer. destruct (nonEmptyString _); answer.
Qed.

Lemma answers_integrity v : answers (validateIntegrity v).
Proof.
  unfold validateIntegrity. destruct (isRecord v) as [obj|]; [|by answer]. answer. destruct (isRecord _) as [[|f fs]|]; try by answer.
  apply answers_bind; [|intros; answer]. apply answers_each_any. intros _ kv. destruct (nonEmptyString _); answer.
Qed.

Lemma answers_object l : plain (jobject l) = true -> answers (validateObject l).
Proof.
  intros Hl. unfold validateObject. do 2 (apply answers_bind; [eauto with answers | intros _]).
  apply answers_bind; [by apply answers_targets | intros ts]. apply answers_bind; [unfold validateEntries; destruct (isRecord _); answer | intros e].
  apply answers_bind; [apply answers_load | intros ld]. apply answers_bind; [unfold validateBridge; destruct (isRecord _); answer | intros _].
  apply answers_bind; [by apply answers_permissions, plain_get | intros ps].
  apply answers_bind; [|intros sv; apply answers_bind; [|intros sks]].
  - unfold validateServices. pose proof (plain_get "services" l Hl) as Hs. destruct (get "services" l) as [[]|]; try by answer.
    apply (answers_each (fun x => plain x = true)); [apply answers_service | by apply (plain_elements _ _ Hs)].
  - unfold validateSkills. pose proof (plain_get "skills" l Hl) as Hs. destruct (get "skills" l) as [[]|]; try by answer.
    apply (answers_each (fun x => plain x = true)); [apply answers_skill | by apply (plain_elements _ _ Hs)].
  - apply answers_bind; [apply answers_integrity | intros files]. apply answers_bind; [|intros; answer]. unfold validateTogether.
    do 3 (apply answers_bind; [eauto with answers | intros _]). apply answers_bind; [|intros; answer]. apply answers_each_any. intros; answer.
Qed.
