(* ===== verification/AppletManifestSafety.v ===== *)
(** * Applet manifests: soundness and normal form

    The properties of [AppletManifest.validateManifest]: what an accepted manifest is, that
    the manifest it returns is accepted as itself again, and inputs where the check accepts
    what it means to refuse, or throws. *)
From Stdlib Require Import Ascii Lia ZArith.
From stdpp Require Import base numbers strings list pretty.
From S2P Require Import Prelude JsString JsonValue AppletPermissions AppletManifest AppletManifestFacts AppletManifestAnswers.

Open Scope string_scope.
Open Scope list_scope.

(** ** The manifest as a document: fields that are [undefined] are absent *)
Definition fields (l : list (string * option Json)) : list (string * Json) := omap (fun kv => pair kv.1 <$> kv.2) l.
Definition object_of (l : list (string * option Json)) : Json := jobject (fields l).
Definition str (o : option string) : option Json := jstring <$> o.
Definition strs (l : list string) : Json := jarray (jstring <$> l).
Definition texts (m : jsmap string) : Json := jobject ((fun kv => (kv.1, jstring kv.2)) <$> Prelude.entries m).

Definition entry_json (e : AppletEntry) : Json :=
  object_of [("type", Some (jstring (entry_name (entry_type e)))); ("entry", Some (jstring (entry e)))].

Definition service_json (d : AppletServiceDeclaration) : Json :=
  object_of [("id", Some (jstring (service_id d))); ("kind", Some (jstring "http")); ("binding", binding d);
             ("allowedMethods", Some (strs (allowedMethods d))); ("allowedPaths", Some (strs (allowedPaths d)));
             ("publicPathPrefix", str (publicPathPrefix d)); ("stationPathPrefix", str (stationPathPrefix d));
             ("streaming", Some (jbool (service_streaming d)))].

Definition request_fields (r : AppletNetworkExecutorRequest) : list (string * option Json) :=
  [("service", Some (jstring (service r))); ("path", Some (jstring (path r))); ("method", str (method r));
   ("headers", texts <$> headers r); ("body", body r)].

Definition executor_json (e : AppletSkillExecutor) : Json :=
  match e with
  | network_executor r =>
      object_of [("type", Some (jstring "network"));
        ("request", Some (object_of (request_fields r)))]
  | agent_executor r =>
      object_of [("type", Some (jstring "agent"));
        ("request", (fun r => object_of [("message", str (message r)); ("agentSessionId", str (agentSessionId r)); ("metadata", metadata r)]) <$> r)]
  end.

Definition skill_json (d : AppletSkillDeclaration) : Json :=
  object_of [("id", Some (jstring (skill_id d))); ("inputSchema", Some (jstring (inputSchema d))); ("streaming", Some (jbool (skill_streaming d)));
             ("title", str (title d)); ("description", str (skill_description d)); ("display", display d);
             ("executor", executor_json <$> executor d)].

Definition platforms_json (ts : list TargetPlatform) : Json := jarray ((fun p => jstring (platform_name p)) <$> ts).

Definition manifest_fields (m : AppletManifest) : list (string * option Json) :=
  [("id", Some (jstring (m_id m))); ("name", str (m_name m)); ("version", Some (jstring (m_version m)));
   ("description", str (m_description m)); ("author", str (m_author m)); ("icon", str (m_icon m));
   ("minPlatformVersion", str (m_minPlatformVersion m)); ("targets", Some (platforms_json (targets m)));
   ("targetPlatforms", platforms_json <$> targetPlatforms m);
   ("entries", Some (object_of [("lynx", Some (jstring (lynx (entries m)))); ("standalone", str (standalone (entries m)))]));
   ("load", Some (jobject ((fun kv => (kv.1, entry_json kv.2)) <$> Prelude.entries (load m))));
   ("bridge", Some (object_of [("protocol", Some (jstring APPLET_BRIDGE_PROTOCOL)); ("version", str (bridge_version m))]));
   ("permissions", Some (strs (permissions m))); ("capabilities", strs <$> capabilities m);
   ("services", Some (jarray (service_json <$> services m))); ("skills", Some (jarray (skill_json <$> skills m)));
   ("integrity", Some (object_of [("algorithm", Some (jstring "sha256")); ("files", Some (texts (integrity m)))]))].

Definition manifest_json (m : AppletManifest) : Json := object_of (manifest_fields m).

(** ** A good manifest *)
Record manifest_ok (m : AppletManifest) : Prop := {
  ok_id : nonblank (m_id m);
  ok_version : nonblank (m_version m);
  ok_texts : Forall opt_nonblank [m_name m; m_description m; m_author m; m_icon m; m_minPlatformVersion m; standalone (entries m); bridge_version m];
  ok_targets : targets m <> [];
  ok_platforms : targetPlatforms m = None \/ targetPlatforms m = Some (targets m);
  ok_load : load_ok (targets m) (load m);
  ok_lynx : nonblank (lynx (entries m));
  ok_entry : exists p e, p ∈ targets m /\ load m !! platform_name p = Some e /\ entry e = lynx (entries m);
  ok_hash : has_truthy (integrity m) (lynx (entries m)) = true;
  ok_permissions : permissions m <> [] /\ Forall (fun p => isCapabilityMethod p = true) (permissions m);
  ok_capabilities : forall l, capabilities m = Some l -> Forall nonblank l;
  ok_network : "network.request" ∈ permissions m -> services m <> [];
  ok_services : Forall service_ok (services m);
  ok_skills : Forall skill_ok (skills m);
  ok_schemas : Forall (fun d => has_truthy (integrity m) (inputSchema d) = true) (skills m);
  ok_files : files_ok (integrity m)
}.

(** The loop over the skills. *)
Lemma schemas_spec files (sks : list AppletSkillDeclaration) us :
  clean (each (fun _ skill =>
    _ ← require (has_truthy files (inputSchema skill)) ("integrity.files must include skill input schema: " ++ inputSchema skill);
    mret (@nil unit)) 0 sks) us <-> us = [] /\ Forall (fun d => has_truthy files (inputSchema d) = true) sks.
Proof.
  rewrite (clean_each (fun d ys => has_truthy files (inputSchema d) = true /\ ys = [])).
  - split.
    + intros (yss & Hf & ->). induction Hf as [|d ys sks yss [Hd ->] Hf [IH1 IH2]]; [done|]. split; [done | by constructor].
    + intros [-> Hf]. exists ((fun _ => []) <$> sks). split; [apply Forall2_fmap_r, Forall_Forall2_diag; by eapply Forall_impl; [exact Hf|] | clear Hf; by induction sks].
  - intros _ d ys. rewrite clean_bind. setoid_rewrite clean_require. setoid_rewrite clean_ret. split; [by intros (_ & ? & <-) | by intros [? ->]; exists tt].
Qed.

Lemma entry_found (ld : AppletLoadMap) s :
  existsb (fun l => bool_decide (entry l = s)) (jm_values ld) = true <-> exists k x, (k, x) ∈ Prelude.entries ld /\ entry x = s.
Proof.
  rewrite existsb_exists. unfold jm_values. split.
  - intros (x & Hx & He%bool_decide_eq_true). apply list_elem_of_In, list_elem_of_fmap in Hx as ([k y] & -> & Hin). by exists k, y.
  - intros (k & x & Hin & He). exists x. rewrite bool_decide_eq_true. split; [|done]. apply list_elem_of_In, list_elem_of_fmap. by exists (k, x).
Qed.

Lemma together_spec e ld perms servs sks files u : clean (validateTogether e ld perms servs sks files) u <->
  (truthy (lynx e) = true -> (exists k x, (k, x) ∈ Prelude.entries ld /\ entry x = lynx e) /\ has_truthy files (lynx e) = true)
  /\ ("network.request" ∈ perms -> servs <> []) /\ Forall (fun d => has_truthy files (inputSchema d) = true) sks.
Proof.
  unfold validateTogether. rewrite <- entry_found.
  assert (Hn : negb (bool_decide ("network.request" ∈ perms) && bool_decide (servs = [])) = true <-> ("network.request" ∈ perms -> servs <> [])).
  { rewrite negb_true_iff, andb_false_iff, !bool_decide_eq_false. destruct (decide ("network.request" ∈ perms)); tauto. }
  rewrite <- Hn. split.
  - rewrite clean_bind. intros (? & H1%clean_require & H). rewrite clean_bind in H. destruct H as (? & H2%clean_require & H).
    rewrite clean_bind in H. destruct H as (? & H3%clean_require & H). rewrite clean_bind in H. destruct H as (us & H4 & _).
    apply schemas_spec in H4 as [_ H4]. split_and!; [|done|done].
    intros Ht. rewrite Ht in H1, H2. by split.
  - intros (H12 & H3 & H4). do 3 (rewrite clean_bind; exists tt; split;
      [apply clean_require; first [exact H3 | destruct (truthy (lynx e)); [by apply H12 | done]]|]).
    rewrite clean_bind. exists []. split; [by apply schemas_spec | by destruct u].
Qed.

Lemma capability_list_ok v l : capability_list v = Some l -> Forall nonblank l.
Proof.
  unfold capability_list. destruct v as [[ | | | |vs| ]|]; try done. intros [= <-]. apply Forall_forall. intros s (x & _ & Hs)%list_elem_of_omap.
  by apply (nonEmpty_spec (Some x)) in Hs as [_ ?].
Qed.

(** ** What is accepted *)
Lemma accepted raw m : validateManifest raw = Ok (valid_manifest m) <-> exists l, raw = jobject l /\ clean (validateObject l) m.
Proof.
  unfold validateManifest. destruct (isRecord (Some raw)) as [l|] eqn:Hr.
  - apply isRecord_spec in Hr as [= ->]. unfold clean, mbind, result_bind.
    destruct (validateObject l) as [[x es]|] eqn:Hv; cbn [snd fst].
    + split; [destruct es; [intros [= ->]; eauto | done] | intros (l' & [= <-] & Hc)]. rewrite Hv in Hc. by injection Hc as -> ->.
    + split; [done | intros (l' & [= <-] & Hc); congruence].
  - split; [done|]. by intros (l & -> & _).
Qed.

Lemma entries_sound obj e : clean (validateEntries obj) e -> nonblank (lynx e) /\ opt_nonblank (standalone e).
Proof.
  unfold validateEntries. destruct (isRecord _) as [raw|]; [|by rewrite clean_report]. rewrite clean_bind. setoid_rewrite clean_require.
  setoid_rewrite clean_ret. intros (_ & Hl & <-). apply bool_decide_eq_true in Hl as [l Hl]. cbn. split; [|apply nonEmpty_ok].
  rewrite Hl. by apply nonEmpty_spec in Hl as [_ ?].
Qed.

Lemma object_sound raw m : clean (validateObject raw) m -> manifest_ok m.
Proof.
  intros H. unfold validateObject in H. peel H u1 Hid. peel H u2 Hv. peel H ts Hts. peel H e He. peel H ld Hld. peel H u3 Hb. peel H ps Hps.
  peel H svs Hsv. peel H sks Hsk. peel H files Hfi. peel H u Hto. apply clean_ret in H as <-. apply clean_require in Hid, Hv.
  apply bool_decide_eq_true in Hid as [id Hid]. apply bool_decide_eq_true in Hv as [v Hv].
  apply targets_spec in Hts as [_ Hts]. apply entries_sound in He as [Hl Hst]. apply load_sound in Hld. apply permissions_spec in Hps as (_ & Hps).
  apply services_sound in Hsv. apply skills_sound in Hsk. apply integrity_sound in Hfi. apply together_spec in Hto as (He & Hn & Hs).
  destruct (He (nonblank_truthy _ Hl)) as [(k & x & Hin & Hx) Hh].
  assert (Hk : ld !! k = Some x).
  { destruct Hld as [_ _ Ho]. apply jm_lookup_entries; [|done]. rewrite Ho. apply from_entries_wf. }
  constructor; cbn [m_id m_name m_version m_description m_author m_icon m_minPlatformVersion targets targetPlatforms entries load bridge_version
    permissions capabilities services skills integrity]; try done.
  - rewrite Hid. by apply nonEmpty_spec in Hid as [_ ?].
  - rewrite Hv. by apply nonEmpty_spec in Hv as [_ ?].
  - repeat constructor; try apply nonEmpty_ok; [done|]. destruct (isRecord (get "bridge" raw)); [apply nonEmpty_ok | done].
  - destruct (get "targetPlatforms" raw) as [[]|]; auto.
  - destruct (lo_only ts ld Hld k x Hk) as (p & Hp & ->). by exists p, x.
  - intros l. apply capability_list_ok.
Qed.

(** ** The document of a manifest *)
Lemma get_fields k l : NoDup l.*1 -> get k (fields l) = mjoin (get k l).
Proof.
  unfold fields. induction l as [|[k' [v|]] l IH]; intros Hn; [done | |]; cbn in Hn |- *; apply NoDup_cons in Hn as [Hni Hn].
  - destruct (decide (k = k')); [done | by apply IH].
  - destruct (decide (k = k')) as [->|]; [|by apply IH]. rewrite (IH Hn). clear -Hni. cbn.
    induction l as [|[k v] l IH]; [done|]. cbn in Hni |- *. apply not_elem_of_cons in Hni as [? ?]. rewrite decide_False by done. auto.
Qed.

Lemma field_is k l o : NoDup l.*1 -> get k l = Some o -> get k (fields l) = o.
Proof. intros Hn Hg. by rewrite get_fields, Hg. Qed.

(** The fields of an object whose names are literals. *)
Ltac value_of k l := lazymatch l with (k, ?o) :: _ => o | _ :: ?l => value_of k l end.
Ltac field := repeat lazymatch goal with
  | |- context [assoc_get ?k (fields ?l)] =>
      let o := value_of k l in rewrite (field_is k l o) by first [reflexivity | refine (bool_decide_unpack _ _); vm_compute; exact I]
  end.

Lemma nonEmpty_str o : opt_nonblank o -> nonEmptyString (str o) = o.
Proof. destruct o as [s|]; [|done]. intros Ho. by apply nonEmpty_of, Ho. Qed.

Lemma record_value_of o : opt_record o -> record_value o = o.
Proof. destruct o as [v|]; [|done]. intros Ho. by destruct (Ho v eq_refl) as [l ->]. Qed.

Lemma service_back i d : service_ok d -> clean (validateService i (service_json d)) [d].
Proof.
  intros [Hid (b & Hb & Hin) Hm Hp Hpu Hst]. unfold validateService, service_json, object_of. cbn [isRecord].
  field.
  apply (clean_step _ _ (allowedMethods d)); [by apply string_array_spec|]. apply (clean_step _ _ (allowedPaths d)); [by apply string_array_spec|].
  rewrite nonEmpty_of, !nonEmpty_str by done. apply clean_held; [done|]. apply clean_held; [done|].
  apply (clean_step _ _ b); [by apply clean_text|]. apply clean_held; [by apply bool_decide_eq_true|]. apply clean_ret. by destruct d.
Qed.

Lemma methods_upper m : m ∈ httpMethods -> toUpperCase m = m.
Proof. intros Hm. repeat (apply elem_of_cons in Hm as [->|Hm]; [done|]). by apply elem_of_nil in Hm. Qed.

Lemma string_headers_texts h : jm_wf h -> string_headers ((fun kv => (kv.1, jstring kv.2)) <$> Prelude.entries h) = h.
Proof.
  intros Hh. unfold string_headers. rewrite <- (from_entries_entries h) at 2 by done. f_equal. clear Hh.
  induction (Prelude.entries h) as [|[k v] l IH]; [done|]. cbn in IH |- *. by rewrite IH.
Qed.

Lemma network_back r at_ : executor_ok (network_executor r) -> clean (validateNetworkRequest (fields (request_fields r)) at_) r.
Proof.
  intros (Hs & Hp & Hm & Hh). unfold validateNetworkRequest, request_fields. field. rewrite !nonEmpty_of by done.
  apply clean_held; [done|]. apply clean_held; [done|]. apply (clean_step _ _ (method r)).
  - destruct (method r) as [m|]; [|by apply clean_ret]. apply (clean_step _ _ m); [by apply clean_text|]. apply clean_ret. by rewrite methods_upper by auto.
  - apply clean_held; [destruct (method r) as [m|]; [by apply bool_decide_eq_true, Hm | done]|]. apply clean_ret.
    destruct r as [sv pa me [h|] bo]; [|done]. unfold texts. cbn [headers fmap option_fmap option_map isRecord]. by rewrite string_headers_texts by auto.
Qed.

Lemma executor_back e at_ : (forall x, e = Some x -> executor_ok x) -> clean (validateSkillExecutor (executor_json <$> e) at_) e.
Proof.
  destruct e as [e|]; [|intros _; by apply clean_ret]. intros Hok. specialize (Hok e eq_refl).
  destruct e as [r|[r|]]; cbn [fmap option_fmap option_map executor_json]; unfold validateSkillExecutor, object_of; cbn [isRecord]; field.
  - change (is_text "agent" (Some (jstring "network"))) with false. change (is_text "network" (Some (jstring "network"))) with true.
    cbn [negb isRecord]. apply (clean_step _ _ r); [by apply network_back | by apply clean_ret].
  - destruct Hok as (Hm & Ha & Hr). change (is_text "agent" (Some (jstring "agent"))) with true. cbn [isRecord].
    field. rewrite !nonEmpty_str, record_value_of by done. apply clean_ret. by destruct r.
  - by apply clean_ret.
Qed.

Lemma skill_back i d : skill_ok d -> clean (validateSkill i (skill_json d)) [d].
Proof.
  intros [Hid Hsc Ht Hd Hdi He]. unfold validateSkill, skill_json, object_of. cbn [isRecord]. field.
  rewrite !nonEmpty_of, !nonEmpty_str, record_value_of by done. apply clean_held; [done|]. apply clean_held; [done|].
  apply (clean_step _ _ (executor d)); [by apply executor_back|]. apply clean_ret. by destruct d as [? ? [] ? ? ? ?].
Qed.

Lemma each_back {X Y} (g : Y -> X) (f : nat -> X -> Checked (list Y)) (P : Y -> Prop) i l :
  (forall i y, P y -> clean (f i (g y)) [y]) -> Forall P l -> clean (each f i (g <$> l)) l.
Proof.
  intros Hf Hl. revert i. induction Hl as [|y l Hy Hl IH]; intros i; cbn [fmap list_fmap each]; [by apply clean_ret|].
  apply (clean_step _ _ [y]); [by apply Hf|]. apply (clean_step _ _ l); [apply IH | by apply clean_ret].
Qed.

Lemma load_back ts m : load_ok ts m -> clean (validateLoad (Some (jobject ((fun kv => (kv.1, entry_json kv.2)) <$> Prelude.entries m))) ts) m.
Proof.
  intros [He _ Ho]. apply load_spec. eexists _, ((fun p => default "" (entry <$> m !! platform_name p)) <$> ts). split; [done|]. split.
  - apply Forall2_fmap_r, Forall_Forall2_diag, Forall_forall. intros p (e & Hm & Ht & Hn)%He.
    unfold entry_at, compose. cbv beta. rewrite Hm. cbn [fmap option_fmap option_map default from_option]. rewrite (assoc_get_fmap entry_json).
    change (get (platform_name p) (Prelude.entries m)) with (m !! platform_name p). rewrite Hm. eexists. split; [done|]. field. split; [|by apply nonEmpty_of].
    rewrite Ht. by apply is_text_spec.
  - rewrite Ho at 1. f_equal. unfold load_pairs. clear. induction ts as [|p ts IH]; [done|]. cbn. by rewrite <- IH.
Qed.

Lemma integrity_back m : files_ok m -> m <> ∅ ->
  clean (validateIntegrity (Some (object_of [("algorithm", Some (jstring "sha256")); ("files", Some (texts m))]))) m.
Proof.
  intros [Hwf Hp Hh] Hne. unfold validateIntegrity, object_of, texts. cbn [isRecord]. field. apply clean_held; [by apply is_text_spec|].
  pose proof (from_entries_entries m Hwf) as Hm. assert (Hf : Forall (fun kv => kv.1 <> "__proto__" /\ nonblank kv.2) (Prelude.entries m)).
  { apply Forall_forall. intros [k h] Hin%jm_lookup_entries; [|done]. cbn. split; [intros ->; congruence | by eapply Hh]. }
  destruct m as [[|kv l]]; [done|]. cbn [isRecord fmap list_fmap Prelude.entries]. cbn [Prelude.entries] in Hm, Hf.
  apply (clean_step _ _ (kv :: l)).
  - apply hashes_spec. split; [done|]. eapply Forall_impl; [exact Hf|]. by intros x [_ ?].
  - apply clean_ret. rewrite assign_all, filter_all; [exact Hm|]. intros x Hx. rewrite Forall_forall in Hf. by destruct (Hf x Hx).
Qed.

Lemma entry_of_load ts m s : load_ok ts m -> (exists p e, p ∈ ts /\ m !! platform_name p = Some e /\ entry e = s) ->
  exists k x, (k, x) ∈ Prelude.entries m /\ entry x = s.
Proof.
  intros [_ _ Ho] (p & e & _ & Hm & He). exists (platform_name p), e. split; [|done]. apply jm_lookup_entries; [|done]. rewrite Ho. apply from_entries_wf.
Qed.

Lemma capability_list_back c : (forall l, c = Some l -> Forall nonblank l) -> capability_list (strs <$> c) = c.
Proof.
  intros Hc. destruct c as [l|]; [|done]. specialize (Hc l eq_refl). cbn. f_equal. induction Hc as [|s l Hs Hl IH]; [done|].
  cbn. pose proof (nonEmpty_of s Hs) as Hn. cbn in Hn. rewrite Hn. by f_equal.
Qed.

Lemma entries_back m : nonblank (lynx (entries m)) -> opt_nonblank (standalone (entries m)) ->
  clean (validateEntries (fields (manifest_fields m))) (entries m).
Proof.
  intros Hl Hs. unfold validateEntries, manifest_fields, object_of. field. cbn [isRecord]. field. rewrite nonEmpty_of, nonEmpty_str by done.
  apply clean_held; [done|]. apply clean_ret. by destruct (entries m).
Qed.

Lemma targets_back m : targets m <> [] -> clean (normalizeTargets (fields (manifest_fields m))) (targets m).
Proof. intros Hts. apply targets_spec. split; [|done]. unfold manifest_fields. by field. Qed.

Lemma bridge_back v : clean (validateBridge (Some (object_of [("protocol", Some (jstring APPLET_BRIDGE_PROTOCOL)); ("version", v)]))) tt.
Proof. unfold validateBridge, object_of. cbn [isRecord]. field. by apply clean_require, is_text_spec. Qed.

Lemma together_back m : manifest_ok m ->
  clean (validateTogether (entries m) (load m) (permissions m) (services m) (skills m) (integrity m)) tt.
Proof.
  intros Hok. apply together_spec. split_and!; [intros _; split | apply Hok | apply Hok].
  - eapply entry_of_load; apply Hok.
  - apply Hok.
Qed.

Lemma platforms_back ts o : o = None \/ o = Some ts -> match platforms_json <$> o with Some (jarray _) => Some ts | _ => None end = o.
Proof. by intros [->| ->]. Qed.

Lemma object_back m : manifest_ok m -> integrity m <> ∅ -> clean (validateObject (fields (manifest_fields m))) m.
Proof.
  intros Hok Hne. unfold validateObject.
  assert (Ht : Forall opt_nonblank [m_name m; m_description m; m_author m; m_icon m; m_minPlatformVersion m; standalone (entries m); bridge_version m]) by apply Hok.
  repeat (apply Forall_cons in Ht as [? Ht]).
  pose proof (targets_back m (ok_targets m Hok)) as Hts. pose proof (entries_back m (ok_lynx m Hok) ltac:(done)) as He.
  pose proof (ok_id m Hok) as Hid. pose proof (ok_version m Hok) as Hv. pose proof (ok_permissions m Hok) as [Hp1 Hp2].
  unfold manifest_fields in *. field. rewrite !nonEmpty_of, !nonEmpty_str, capability_list_back by (done || apply Hok).
  apply clean_held; [done|]. apply clean_held; [done|]. apply (clean_step _ _ _ _ Hts). apply (clean_step _ _ _ _ He).
  apply (clean_step _ _ (load m)); [apply load_back, Hok|]. apply (clean_step _ _ tt); [apply bridge_back|].
  apply (clean_step _ _ (permissions m)); [by apply permissions_spec|].
  apply (clean_step _ _ (services m)); [apply (each_back _ _ service_ok); [apply service_back | apply Hok]|].
  apply (clean_step _ _ (skills m)); [apply (each_back _ _ skill_ok); [apply skill_back | apply Hok]|].
  apply (clean_step _ _ (integrity m)); [apply integrity_back; [apply Hok | done]|]. apply (clean_step _ _ tt); [by apply together_back|].
  apply clean_ret. cbn [isRecord object_of mbind option_bind]. field. rewrite nonEmpty_str, platforms_back by (done || apply Hok). by destruct m.
Qed.

Lemma no_rejects ps valid invalid : Forall (fun p => isCapabilityMethod p = true) ps -> (partition_grants ps valid invalid).2 = invalid.
Proof. intros Hp. revert valid. induction Hp as [|p ps Hp Hps IH]; intros valid; cbn; [done|]. rewrite Hp. apply IH. Qed.

(** ** Theorems *)

(** C23: A manifest that is accepted is well formed: it has an id and a version, at least one
    target and, for each target, an entry of the type of its platform; the entry of
    [entries.lynx] is one of those that are loaded; its permissions are capabilities, at
    least one, and network.request comes with a service; and every service, skill and
    executor has its fields. The main entry and every input schema have a hash among the
    files, unless they are named like a property of [Object.prototype], which the lookup
    finds in its place. *)
Theorem manifest_sound raw m : validateManifest raw = Ok (valid_manifest m) ->
  manifest_ok m
  /\ forall name, name = lynx (entries m) \/ name ∈ inputSchema <$> skills m -> name ∉ object_prototype ->
       exists hash, integrity m !! name = Some hash /\ nonblank hash.
Proof.
  intros (l & -> & Hl)%accepted. pose proof (object_sound l m Hl) as Hok. split; [done|]. intros name Hname Hown.
  assert (Ht : has_truthy (integrity m) name = true).
  { destruct Hname as [->|(d & -> & Hd)%list_elem_of_fmap]; [apply Hok|]. pose proof (ok_schemas m Hok) as Hs. rewrite Forall_forall in Hs. by apply Hs. }
  unfold has_truthy in Ht. destruct (integrity m !! name) as [hash|] eqn:Hh; [|by rewrite bool_decide_false in Ht].
  exists hash. split; [done|]. by apply (fi_hash _ (ok_files m Hok) name).
Qed.

(** C24: The manifest that validation returns, written as JSON and validated again, is accepted
    as itself, unless its only file is called __proto__. *)
Theorem manifest_round_trip raw m : validateManifest raw = Ok (valid_manifest m) -> integrity m <> ∅ ->
  validateManifest (manifest_json m) = Ok (valid_manifest m).
Proof. intros (l & -> & Hl)%accepted Hne. apply accepted. eexists. split; [done|]. apply object_back; [by apply (object_sound l) | done]. Qed.

(** C25: The permissions of an accepted manifest are granted as they are: registering them
    refuses none, and the instance may then call exactly the methods the manifest lists. *)
Theorem manifest_permissions_granted raw m instanceId pm method : validateManifest raw = Ok (valid_manifest m) ->
  (partition_grants (permissions m) [] []).2 = []
  /\ granted (evaluate (registerGrants instanceId (permissions m) pm) instanceId method) = bool_decide (method ∈ permissions m).
Proof.
  intros (l & -> & Hl)%accepted. destruct (ok_permissions m (object_sound l m Hl)) as [_ Hp]. clear Hl. split; [by apply no_rejects|].
  unfold evaluate, registerGrants. cbn [grants]. rewrite jm_lookup_set_eq.
  destruct (isCapabilityMethod method) eqn:Hm; cbn [negb].
  - destruct (js_set_has method _) eqn:Hh; cbn [granted].
    + apply js_set_has_spec, partition_grants_valid in Hh as [[]%not_elem_of_nil|[Hin _]]. by rewrite bool_decide_true.
    + symmetry. apply bool_decide_eq_false. intros Hin. enough (js_set_has method (partition_grants (permissions m) [] []).1 = true) by congruence.
      apply js_set_has_spec, partition_grants_valid. by right.
  - symmetry. apply bool_decide_eq_false. intros Hin. rewrite Forall_forall in Hp. apply Hp in Hin. congruence.
Qed.

(** C26: A document without keys toString gets an answer: a well-formed manifest or at least
    one error, never an exception. *)
Theorem manifest_answered raw : plain raw = true ->
  (exists errors, validateManifest raw = Ok (invalid_manifest errors) /\ errors <> []) \/
  (exists m, validateManifest raw = Ok (valid_manifest m) /\ manifest_ok m).
Proof.
  intros Hp. unfold validateManifest. destruct (isRecord (Some raw)) as [l|] eqn:Hr; [|by left; eexists].
  apply isRecord_spec in Hr as [= ->]. destruct (answers_object l Hp) as [[m es] Hm]. unfold mbind, result_bind. rewrite Hm. cbn [fst snd].
  destruct es as [|e es]; [right; exists m; split; [done|]; by apply (object_sound l) | left; by eexists].
Qed.

(** ** A manifest, and manifests that show the limits of the checks *)
Module ManifestDemo.

Definition text (s : string) : Json := jstring s.
Definition main (s : string) : Json := jobject [("type", text "lynx-web"); ("entry", text s)].
Definition manifest (lynx : string) (services skills : list Json) (files : list (string * Json)) : Json :=
  jobject [("id", text "notes"); ("version", text "1.0.0"); ("targets", jarray [text "desktop"]);
           ("entries", jobject [("lynx", text lynx)]); ("load", jobject [("desktop", main lynx)]);
           ("bridge", jobject [("protocol", text APPLET_BRIDGE_PROTOCOL)]); ("permissions", jarray [text "network.request"; text "storage.get"]);
           ("services", jarray services); ("skills", jarray skills);
           ("integrity", jobject [("algorithm", text "sha256"); ("files", jobject files)])].

Definition api (methods : list string) (b : Json) : Json :=
  jobject [("id", text "api"); ("kind", text "http"); ("binding", b); ("allowedMethods", strs methods); ("allowedPaths", strs ["/v1"])].
Definition search (schema : string) : Json :=
  jobject [("id", text "search"); ("inputSchema", text schema);
           ("executor", jobject [("type", text "network");
              ("request", jobject [("service", text "api"); ("path", text "/v1"); ("method", text "get")])])].

Definition good : Json :=
  manifest "main.js" [api ["GET"] (text "host-resolved")] [search "search.json"] [("main.js", text "h1"); ("search.json", text "h2")].

Definition accepted_as (raw : Json) : AppletManifest :=
  match validateManifest raw with Ok (valid_manifest m) => m | _ => {|
    m_id := ""; m_name := None; m_version := ""; m_description := None; m_author := None; m_icon := None; m_minPlatformVersion := None;
    targets := []; targetPlatforms := None; entries := {| lynx := ""; standalone := None |}; load := ∅; bridge_version := None;
    permissions := []; capabilities := None; services := []; skills := []; integrity := ∅ |} end.

Lemma good_accepted : validateManifest good = Ok (valid_manifest (accepted_as good)).
Proof. vm_compute. reflexivity. Qed.

Lemma manifest_sound_witness : manifest_ok (accepted_as good) /\ exists hash, integrity (accepted_as good) !! "main.js" = Some hash /\ nonblank hash.
Proof.
  destruct (manifest_sound good _ good_accepted) as [Hok Hh]. split; [exact Hok|]. apply Hh; [by left|].
  apply (bool_decide_eq_true_1 ("main.js" ∉ object_prototype)). vm_compute. reflexivity.
Defined.

Lemma manifest_round_trip_witness : validateManifest (manifest_json (accepted_as good)) = Ok (valid_manifest (accepted_as good)).
Proof. apply (manifest_round_trip good); [exact good_accepted | vm_compute; discriminate]. Defined.

Lemma manifest_permissions_granted_witness :
  granted (evaluate (registerGrants "i1" (permissions (accepted_as good)) permission_manager_init) "i1" "storage.get") = true.
Proof. exact (proj2 (manifest_permissions_granted good (accepted_as good) "i1" permission_manager_init "storage.get" good_accepted)). Defined.

Lemma manifest_answered_witness :
  (exists errors, validateManifest good = Ok (invalid_manifest errors) /\ errors <> []) \/
  (exists m, validateManifest good = Ok (valid_manifest m) /\ manifest_ok m).
Proof. apply (manifest_answered good). vm_compute. reflexivity. Defined.

(** A file or a schema named after a property of [Object.prototype] needs no hash: the
    lookup of the integrity check finds the inherited property. *)
Theorem prototype_names_need_no_hash : exists raw m, validateManifest raw = Ok (valid_manifest m)
  /\ lynx (entries m) = "constructor" /\ (inputSchema <$> skills m) = ["toString"] /\ jm_keys (integrity m) = ["other.js"].
Proof.
  exists (manifest "constructor" [api ["GET"] (text "host-resolved")] [search "toString"] [("other.js", text "h")]).
  eexists. vm_compute. repeat split.
Qed.

(** A manifest may lose all its files: a hash for __proto__ is counted, and then ignored
    by the assignment. What is returned is not accepted again. *)
Theorem files_may_vanish : exists raw m errors, validateManifest raw = Ok (valid_manifest m) /\ integrity m = ∅
  /\ validateManifest (manifest_json m) = Ok (invalid_manifest errors).
Proof.
  set (raw := manifest "constructor" [api ["GET"] (text "host-resolved")] [] [("__proto__", text "h")]).
  exists raw, (accepted_as raw), ["integrity.files must be a non-empty object"].
  split_and!; vm_compute; reflexivity.
Qed.

(** The message for a wrong target converts it with [String], which throws for an object
    with a key toString: the caller gets an exception and not a list of errors. *)
Theorem validator_throws : exists l, validateManifest (jobject [("targets", jarray [jobject l])]) = Err "TypeError".
Proof. exists [("toString", jnumber (Some 1%Z))]. vm_compute. reflexivity. Qed.

(** The methods of a service may be any texts. *)
Theorem any_method_allowed : exists raw m, validateManifest raw = Ok (valid_manifest m)
  /\ exists d, services m = [d] /\ allowedMethods d = ["FETCH ALL"].
Proof.
  exists (manifest "main.js" [api ["FETCH ALL"] (text "host-resolved")] [] [("main.js", text "h1")]).
  eexists. split; [vm_compute; reflexivity|]. eexists. vm_compute. repeat split.
Qed.

(** The binding is compared by its text and kept as it is: an array passes for a name. *)
Theorem binding_may_be_an_array : exists raw m, validateManifest raw = Ok (valid_manifest m)
  /\ exists d, services m = [d] /\ binding d = Some (jarray [jstring "host-resolved"]).
Proof.
  exists (manifest "main.js" [api ["GET"] (jarray [text "host-resolved"])] [] [("main.js", text "h1")]).
  eexists. split; [vm_compute; reflexivity|]. eexists. vm_compute. repeat split.
Qed.
End ManifestDemo.
