(* ===== verification/AppletKernel.v ===== *)
(** * Applet kernel: session manager, orchestrator and composition root

    Models [session-manager.ts], [lifecycle-orchestrator.ts] and [index.ts] of
    [packages/applet-kernel/src]. The platform adapter and the session backend are
    injected collaborators outside the kernel: an [AdapterEnv] answers each of
    their calls from the history of calls before it.

    [dispatch] suspends at each [await]. It is written as the steps between the
    awaits ([dispatch_start], [resume_surface], [resume_session]): run one after
    the other they give the serial [dispatch] that [dispatchAll] uses, and
    interleaved with other dispatches they give the relation [orch_step]. *)
From stdpp Require Import base strings list relations.
From S2P Require Import Prelude AppletLifecycle AppletRegistry AppletScheduler.

(** ** Collaborators *)
Inductive kernel_effect : Set :=
| SurfaceCall (command : SurfaceCommand) (target : SurfaceTarget)
| BackendDestroy (sessionId : string).

(** [None] is a resolved promise, [Some e] one rejected with [e]. *)
Class AdapterEnv : Type := {
  env_surface : list kernel_effect -> SurfaceCommand -> SurfaceTarget -> option string;
  env_destroySession : list kernel_effect -> string -> option string
}.

Record DispatchResult : Set := {
  accepted : bool;
  dr_from : AppletLifecycleState;
  dr_to : option AppletLifecycleState;
  rejectedReason : option string
}.

Definition dr_reject (from : AppletLifecycleState) (reason : string) : DispatchResult :=
  {| accepted := false; dr_from := from; dr_to := None; rejectedReason := Some reason |}.

Definition dr_accept (from to : AppletLifecycleState) : DispatchResult :=
  {| accepted := true; dr_from := from; dr_to := Some to; rejectedReason := None |}.

(** The registry the kernel writes and the calls its collaborators have seen. *)
Record world (R : Type) : Type := World { w_reg : R; w_log : list kernel_effect }.
Arguments World {R} w_reg w_log.
Arguments w_reg {R} _.
Arguments w_log {R} _.

(** [SessionManager.destroy]: the backend's outcome, rethrown. *)
Definition session_destroy {R} (sessionId : string) (w : world R) : world R :=
  World (w_reg w) (w_log w ++ [BackendDestroy sessionId]).

Definition apply_surface {R} (command : SurfaceCommand) (target : SurfaceTarget) (w : world R) : world R :=
  World (w_reg w) (w_log w ++ [SurfaceCall command target]).

(** ** Orchestrator *)
Definition resolveTarget (from : AppletLifecycleState) (type : AppletLifecycleEventType)
  : option AppletLifecycleState :=
  match type with
  | resume => Some visible
  | error => Some destroyed
  | launch | ready | show | hide | pause | suspend | restore | destroy => nextState from type
  | memory_pressure => None
  end.

(** The surface command a non-destroying event needs, if any. *)
Definition applySideEffect (type : AppletLifecycleEventType) : option SurfaceCommand :=
  match type with
  | show | restore | resume => Some SurfShow
  | hide => Some SurfHide
  | suspend => Some SurfDetach
  | _ => None
  end.

Definition illegal_reason (from : AppletLifecycleState) (type : AppletLifecycleEventType)
  (target : option AppletLifecycleState) : string :=
  "illegal-transition:" +:+ state_name from +:+ "-" +:+ event_name type +:+ "->" +:+
    match target with Some t => state_name t | None => "unsupported" end.

Definition surface_target (i : AppletInstance) : SurfaceTarget :=
  {| target_appletId := inst_appletId i; target_instanceId := inst_instanceId i |}.

(** A dispatch suspended at an [await]: on the side effect of a non-destroying
    event, on the surface teardown, or on the session teardown. *)
Inductive pending : Set :=
| AwaitSideEffect (event : AppletLifecycleEvent) (from target : AppletLifecycleState)
    (call : option (SurfaceCommand * SurfaceTarget))
| AwaitSurfaceDestroy (event : AppletLifecycleEvent) (from target : AppletLifecycleState)
    (surface : SurfaceTarget) (sessionId : string)
| AwaitSessionDestroy (event : AppletLifecycleEvent) (from target : AppletLifecycleState)
    (sessionId : string).

Section orchestrator.
Context {R : Type} `{InstanceRegistry R}.

(** From the call to the first [await] (or the early return). *)
Definition dispatch_start (event : AppletLifecycleEvent) (w : world R)
  : world R * (DispatchResult + pending) :=
  match reg_get (w_reg w) (ev_instanceId event) with
  | None => (w, inl (dr_reject cold "instance-not-found"))
  | Some instance =>
      let from := inst_state instance in
      let type := ev_type event in
      match resolveTarget from type with
      | None => (w, inl (dr_reject from (illegal_reason from type None)))
      | Some target =>
          if negb (isValidTransition from type target)
          then (w, inl (dr_reject from (illegal_reason from type (Some target))))
          else if bool_decide (type = destroy) || bool_decide (type = error)
          then
            let w1 :=
              if bool_decide (type = error)
              then World (reg_incrementCrashCount (ev_instanceId event) (w_reg w)).1 (w_log w)
              else w in
            (apply_surface SurfDestroy (surface_target instance) w1,
             inr (AwaitSurfaceDestroy event from target (surface_target instance)
                    (inst_sessionId instance)))
          else
            match applySideEffect type with
            | Some command =>
                (apply_surface command (surface_target instance) w,
                 inr (AwaitSideEffect event from target (Some (command, surface_target instance))))
            | None => (w, inr (AwaitSideEffect event from target None))
            end
      end
  end.

(** The continuation of each [await], given how the awaited promise settled. *)
Definition dispatch_resume (outcome : option string) (p : pending) (w : world R)
  : world R * (DispatchResult + pending) :=
  match p, outcome with
  | AwaitSideEffect _ from _ _, Some _
  | AwaitSurfaceDestroy _ from _ _ _, Some _
  | AwaitSessionDestroy _ from _ _, Some _ => (w, inl (dr_reject from "side-effect-failed"))
  | AwaitSideEffect event from target _, None =>
      (World (reg_setState (ev_instanceId event) target (ev_timestamp event) (w_reg w)).1 (w_log w),
       inl (dr_accept from target))
  | AwaitSurfaceDestroy event from target _ sessionId, None =>
      (session_destroy sessionId w, inr (AwaitSessionDestroy event from target sessionId))
  | AwaitSessionDestroy event from target _, None =>
      (World (reg_remove (ev_instanceId event) (w_reg w)) (w_log w), inl (dr_accept from target))
  end.

(** How the environment settles the promise a dispatch waits on: the call was the
    last one logged. A transition with no surface command awaits a resolved one. *)
Definition env_settle `{AdapterEnv} (p : pending) (w : world R) : option string :=
  let before := removelast (w_log w) in
  match p with
  | AwaitSideEffect _ _ _ None => None
  | AwaitSideEffect _ _ _ (Some (command, target)) => env_surface before command target
  | AwaitSurfaceDestroy _ _ _ target _ => env_surface before SurfDestroy target
  | AwaitSessionDestroy _ _ _ sessionId => env_destroySession before sessionId
  end.

(** One dispatch run to its end with nothing in between. At most two awaits follow
    the start, so two rounds are enough; the last branch is not reachable
    ([dispatch_two_awaits]). *)
Definition dispatch `{AdapterEnv} (event : AppletLifecycleEvent) (w : world R) : world R * DispatchResult :=
  match dispatch_start event w with
  | (w1, inl res) => (w1, res)
  | (w1, inr p1) =>
      match dispatch_resume (env_settle p1 w1) p1 w1 with
      | (w2, inl res) => (w2, res)
      | (w2, inr p2) =>
          match dispatch_resume (env_settle p2 w2) p2 w2 with
          | (w3, inl res) => (w3, res)
          | (w3, inr _) => (w3, dr_reject cold "unreachable")
          end
      end
  end.

(** ** Composition root *)
Fixpoint dispatchAll `{AdapterEnv} (events : list AppletLifecycleEvent) (w : world R)
  : world R * list DispatchResult :=
  match events with
  | [] => (w, [])
  | event :: rest =>
      let (w1, res) := dispatch event w in
      let (w2, results) := dispatchAll rest w1 in
      (w2, res :: results)
  end.

Definition runSweep `{AdapterEnv} (policy : ResourcePolicy) (now : Z) (w : world R)
  : world R * list DispatchResult :=
  dispatchAll (sweep policy now (w_reg w)) w.

Definition handleMemoryPressure `{AdapterEnv} (level : MemoryPressureLevel) (now : Z) (w : world R)
  : world R * list DispatchResult :=
  dispatchAll (onMemoryPressure level now (w_reg w)) w.

(** ** Interleaved dispatches

    The kernel does not queue dispatches: while one awaits, others may start, and
    the awaited promises settle in any order and either way. *)
Record orch_state : Type := Orch { o_world : world R; o_tasks : list pending }.

Inductive orch_step : orch_state -> orch_state -> Prop :=
| orch_start e w ts w' out :
    dispatch_start e w = (w', out) ->
    orch_step (Orch w ts) (Orch w' (ts ++ match out with inl _ => [] | inr p => [p] end))
| orch_resume outcome w ts1 p ts2 w' out :
    dispatch_resume outcome p w = (w', out) ->
    orch_step (Orch w (ts1 ++ p :: ts2))
              (Orch w' (ts1 ++ match out with inl _ => [] | inr p' => [p'] end ++ ts2)).

(** ** Abstract specification

    What a client may rely on: a partial map from instance ids to states that one
    dispatch changes along one edge of the contract, or not at all. *)
Definition abs_state (r : R) (k : string) : option AppletLifecycleState := inst_state <$> reg_get r k.

Definition abs_upd (a : string -> option AppletLifecycleState) (k : string)
  (s : option AppletLifecycleState) : string -> option AppletLifecycleState :=
  fun k' => if decide (k = k') then s else a k'.

Inductive spec_dispatch (a : string -> option AppletLifecycleState) (e : AppletLifecycleEvent)
  : DispatchResult -> (string -> option AppletLifecycleState) -> Prop :=
| spec_unknown a' :
    a (ev_instanceId e) = None -> (forall k, a' k = a k) ->
    spec_dispatch a e (dr_reject cold "instance-not-found") a'
| spec_illegal from target a' :
    a (ev_instanceId e) = Some from ->
    resolveTarget from (ev_type e) = target ->
    (forall t, target = Some t -> ~ lifecycle_edge from (ev_type e) t) ->
    (forall k, a' k = a k) ->
    spec_dispatch a e (dr_reject from (illegal_reason from (ev_type e) target)) a'
| spec_failed from t a' :
    a (ev_instanceId e) = Some from -> lifecycle_edge from (ev_type e) t ->
    (forall k, a' k = a k) ->
    spec_dispatch a e (dr_reject from "side-effect-failed") a'
| spec_moved from t a' :
    a (ev_instanceId e) = Some from -> lifecycle_edge from (ev_type e) t -> t <> destroyed ->
    (forall k, a' k = abs_upd a (ev_instanceId e) (Some t) k) ->
    spec_dispatch a e (dr_accept from t) a'
| spec_reclaimed from a' :
    a (ev_instanceId e) = Some from -> lifecycle_edge from (ev_type e) destroyed ->
    (forall k, a' k = abs_upd a (ev_instanceId e) None k) ->
    spec_dispatch a e (dr_accept from destroyed) a'.
End orchestrator.

Arguments orch_state R : clear implicits.
Arguments Orch {R} o_world o_tasks.

(** ** Proofs *)
Definition live_state (s : AppletLifecycleState) : Prop := s <> cold /\ s <> destroyed.

(** An adapter and a backend that never reject. *)
Class ReliableEnv `{AdapterEnv} : Prop := {
  reliable_surface log c t : env_surface log c t = None;
  reliable_session log s : env_destroySession log s = None
}.

Lemma resolveTarget_event from type t :
  resolveTarget from type = Some t -> type <> memory_pressure.
Proof. by intros H ->. Qed.

Lemma resolveTarget_not_cold from type t :
  resolveTarget from type = Some t -> isValidTransition from type t = true ->
  t <> cold /\ (t = destroyed <-> type = destroy \/ type = error).
Proof. destruct from, type, t; vm_compute; naive_solver. Qed.

Section orchestrator_facts.
Context {R : Type} `{InstanceRegistryLaws R}.
Implicit Types (w : world R) (e : AppletLifecycleEvent) (r : R).

Lemma abs_setState k s t r k' :
  is_Some (reg_get r k) ->
  abs_state (reg_setState k s t r).1 k' = abs_upd (abs_state r) k (Some s) k'.
Proof.
  intros [i Hi]. unfold abs_state, abs_upd. rewrite reg_setState_get.
  case_decide; [|done]. by rewrite Hi.
Qed.

Lemma abs_remove k r k' : abs_state (reg_remove k r) k' = abs_upd (abs_state r) k None k'.
Proof. unfold abs_state, abs_upd. rewrite reg_remove_get. by case_decide. Qed.

Lemma abs_crash k r k' : abs_state (reg_incrementCrashCount k r).1 k' = abs_state r k'.
Proof.
  unfold abs_state. rewrite reg_crash_get. case_decide; [subst|done].
  by destruct (reg_get r k').
Qed.

(** What the start of a dispatch does: nothing to the states, whatever the event. *)
Lemma dispatch_start_spec e w w' out :
  reg_ok (w_reg w) -> dispatch_start e w = (w', out) ->
  reg_ok (w_reg w')
  /\ (forall k, abs_state (w_reg w') k = abs_state (w_reg w) k)
  /\ (forall k, k <> ev_instanceId e -> reg_get (w_reg w') k = reg_get (w_reg w) k)
  /\ match out with
     | inl res => spec_dispatch (abs_state (w_reg w)) e res (abs_state (w_reg w'))
     | inr p =>
         exists i t, reg_get (w_reg w) (ev_instanceId e) = Some i
           /\ resolveTarget (inst_state i) (ev_type e) = Some t
           /\ isValidTransition (inst_state i) (ev_type e) t = true
           /\ ((t = destroyed /\ p = AwaitSurfaceDestroy e (inst_state i) t (surface_target i) (inst_sessionId i))
               \/ (t <> destroyed /\ exists call, p = AwaitSideEffect e (inst_state i) t call))
     end.
Proof.
  intros Hok Hs. unfold dispatch_start in Hs.
  destruct (reg_get (w_reg w) (ev_instanceId e)) as [i|] eqn:Hg; simplify_eq/=.
  2:{ repeat split; try done. apply spec_unknown; [|done]. unfold abs_state. by rewrite Hg. }
  destruct (resolveTarget (inst_state i) (ev_type e)) as [t|] eqn:Ht; simplify_eq/=.
  2:{ repeat split; try done. eapply spec_illegal; [unfold abs_state; by rewrite Hg|done| |done]. done. }
  destruct (isValidTransition (inst_state i) (ev_type e) t) eqn:Hv; simplify_eq/=.
  2:{ repeat split; try done. eapply spec_illegal; [unfold abs_state; by rewrite Hg|done| |done].
      intros t' [= <-]. by rewrite <- valid_transition_edge, Hv. }
  destruct (resolveTarget_not_cold _ _ _ Ht Hv) as [_ Hd].
  destruct (bool_decide (ev_type e = destroy) || bool_decide (ev_type e = error)) eqn:Hb; simplify_eq/=.
  - assert (t = destroyed) as -> by (apply Hd; apply orb_true_iff in Hb as [?|?]; reflect_bool; auto).
    destruct (bool_decide (ev_type e = error)); cbn.
    + repeat split; [by apply reg_crash_ok | intros; apply abs_crash | | eauto 10].
      intros k Hk. rewrite reg_crash_get. by rewrite decide_False.
    + repeat split; try done. eauto 10.
  - assert (t <> destroyed) by (intros ->; apply orb_false_elim in Hb as [??]; reflect_bool; naive_solver).
    destruct (applySideEffect (ev_type e)) as [c|]; simplify_eq/=; repeat split; try done; eauto 10.
Qed.

(** After at most two awaits a dispatch has its result. *)
Lemma dispatch_two_awaits `{AdapterEnv} e w w1 p1 w2 p2 outcome1 outcome2 :
  dispatch_start e w = (w1, inr p1) ->
  dispatch_resume outcome1 p1 w1 = (w2, inr p2) ->
  exists w3 res, dispatch_resume outcome2 p2 w2 = (w3, inl res).
Proof.
  intros Hs Hr. destruct p1, outcome1; cbn in Hr; simplify_eq.
  destruct outcome2; cbn; eauto.
Qed.

Lemma dispatch_simulates `{AdapterEnv} e w :
  reg_ok (w_reg w) ->
  reg_ok (w_reg (dispatch e w).1)
  /\ spec_dispatch (abs_state (w_reg w)) e (dispatch e w).2 (abs_state (w_reg (dispatch e w).1))
  /\ forall k, k <> ev_instanceId e -> reg_get (w_reg (dispatch e w).1) k = reg_get (w_reg w) k.
Proof.
  intros Hok. unfold dispatch.
  destruct (dispatch_start e w) as [w1 [res|p1]] eqn:Hs;
    destruct (dispatch_start_spec _ _ _ _ Hok Hs) as (Hok1 & Habs & Hoth & Hout); [done|].
  destruct Hout as (i & t & Hg & Ht & Hv & Hp).
  assert (Ha : abs_state (w_reg w) (ev_instanceId e) = Some (inst_state i)) by (unfold abs_state; by rewrite Hg).
  apply valid_transition_edge in Hv.
  assert (Hsome : is_Some (reg_get (w_reg w1) (ev_instanceId e))).
  { specialize (Habs (ev_instanceId e)). rewrite Ha in Habs. unfold abs_state in Habs.
    destruct (reg_get (w_reg w1) _); [eauto | done]. }
  destruct Hp as [[-> ->]|[Hne [call ->]]]; cbn [dispatch_resume].
  - destruct (env_settle _ w1); cbn [dispatch_resume fst snd].
    { repeat split; try done. by eapply spec_failed. }
    destruct (env_settle _ (session_destroy _ w1)); cbn [dispatch_resume fst snd w_reg session_destroy].
    { repeat split; try done. by eapply spec_failed. }
    split; [by apply reg_remove_ok|]. split.
    + eapply spec_reclaimed; [done..|]. intros k. rewrite abs_remove. unfold abs_upd.
      case_decide; [done|]. apply Habs.
    + intros k Hk. rewrite reg_remove_get, decide_False by done. by apply Hoth.
  - destruct (env_settle _ w1); cbn [dispatch_resume fst snd w_reg].
    { repeat split; try done. by eapply spec_failed. }
    split; [by apply reg_setState_ok|]. split.
    + eapply spec_moved; [done..|]. intros k. rewrite abs_setState by done. unfold abs_upd.
      case_decide; [done|]. apply Habs.
    + intros k Hk. rewrite reg_setState_get, decide_False by done. by apply Hoth.
Qed.

(** C2: a serial dispatch implements the abstract specification: the registry
    stays well formed, the result and the new states are one of the five abstract
    outcomes, and no other instance's record changes. *)
Theorem dispatch_refines `{AdapterEnv} e w :
  reg_ok (w_reg w) ->
  reg_ok (w_reg (dispatch e w).1)
  /\ spec_dispatch (abs_state (w_reg w)) e (dispatch e w).2 (abs_state (w_reg (dispatch e w).1))
  /\ forall k, k <> ev_instanceId e -> reg_get (w_reg (dispatch e w).1) k = reg_get (w_reg w) k.
Proof. apply dispatch_simulates. Qed.

Lemma dispatch_completes `{ReliableEnv} e w i t :
  reg_ok (w_reg w) -> reg_get (w_reg w) (ev_instanceId e) = Some i ->
  resolveTarget (inst_state i) (ev_type e) = Some t ->
  lifecycle_edge (inst_state i) (ev_type e) t ->
  (dispatch e w).2 = dr_accept (inst_state i) t
  /\ reg_get (w_reg (dispatch e w).1) (ev_instanceId e) =
     (if decide (t = destroyed) then None else Some (stamp_state t (ev_timestamp e) i)).
Proof.
  intros Hok Hg Ht Hv%valid_transition_edge. unfold dispatch.
  assert (Hset : forall p w, env_settle p w = None).
  { intros p w'. unfold env_settle. repeat case_match; auto using reliable_surface, reliable_session. }
  destruct (dispatch_start e w) as [w1 out] eqn:Hs. pose proof Hs as Hs'.
  apply dispatch_start_spec in Hs' as (Hok1 & Habs & Hoth & Hout); [|done].
  unfold dispatch_start in Hs. rewrite Hg, Ht, Hv in Hs. cbn in Hs.
  destruct (resolveTarget_not_cold _ _ _ Ht Hv) as [_ Hd].
  destruct out as [res|p]; [repeat case_match; simplify_eq|].
  destruct Hout as (i' & t' & ? & ? & _ & Hp). simplify_eq.
  rewrite Hset. destruct Hp as [[-> ->]|[Hne [call ->]]]; cbn [dispatch_resume].
  - rewrite Hset. cbn. split; [done|]. by rewrite reg_remove_get, decide_True.
  - cbn. split; [done|]. rewrite reg_setState_get, !decide_True, decide_False by done.
    assert (w_reg w1 = w_reg w) as ->; [|by rewrite Hg].
    destruct (bool_decide (ev_type e = destroy) || _) eqn:Hb; [|repeat case_match; by simplify_eq].
    destruct Hne. apply Hd. apply orb_true_iff in Hb as [?|?]; reflect_bool; auto.
Qed.

(** With collaborators that answer, every event the contract allows from the
    instance's state is carried out: an accepted result, the record stamped with
    the event's time or, for [destroy] and [error], gone. *)
Theorem dispatch_progress `{ReliableEnv} e w i t :
  reg_ok (w_reg w) -> reg_get (w_reg w) (ev_instanceId e) = Some i ->
  resolveTarget (inst_state i) (ev_type e) = Some t ->
  lifecycle_edge (inst_state i) (ev_type e) t ->
  (dispatch e w).2 = dr_accept (inst_state i) t
  /\ reg_get (w_reg (dispatch e w).1) (ev_instanceId e) =
     (if decide (t = destroyed) then None else Some (stamp_state t (ev_timestamp e) i)).
Proof. apply dispatch_completes. Qed.
End orchestrator_facts.

(** ** Sweeps and memory pressure, end to end *)
Section kernel_facts.
Context {R : Type} `{InstanceRegistryLaws R} `{ReliableEnv}.
Implicit Types (w : world R) (e : AppletLifecycleEvent) (r : R).

(** The record an event leaves behind, for the two events reclamation emits. *)
Definition reclaim_result (e : AppletLifecycleEvent) (i : AppletInstance) : option AppletInstance :=
  match ev_type e with
  | suspend => Some (stamp_state suspended (ev_timestamp e) i)
  | _ => None
  end.

Definition reclaimable (r : R) (e : AppletLifecycleEvent) : Prop :=
  exists i, reg_get r (ev_instanceId e) = Some i
    /\ (ev_type e = suspend /\ (inst_state i = hidden_warm \/ inst_state i = paused)
        \/ ev_type e = destroy /\ live_state (inst_state i)).

Lemma dispatch_reclaim e w :
  reg_ok (w_reg w) -> reclaimable (w_reg w) e ->
  accepted (dispatch e w).2 = true
  /\ reg_ok (w_reg (dispatch e w).1)
  /\ (forall k, k <> ev_instanceId e -> reg_get (w_reg (dispatch e w).1) k = reg_get (w_reg w) k)
  /\ reg_get (w_reg (dispatch e w).1) (ev_instanceId e) =
     reg_get (w_reg w) (ev_instanceId e) ≫= reclaim_result e.
Proof.
  intros Hok (i & Hg & Hty).
  destruct (dispatch_simulates e w Hok) as (Hok' & _ & Hoth).
  assert (exists t, resolveTarget (inst_state i) (ev_type e) = Some t
    /\ lifecycle_edge (inst_state i) (ev_type e) t
    /\ (ev_type e = suspend /\ t = suspended \/ ev_type e = destroy /\ t = destroyed)) as (t & Ht & Hedge & Hcase).
  { destruct Hty as [[-> Hs]|[-> [Hc Hd]]].
    - exists suspended. destruct Hs as [-> | ->]; repeat split; eauto with lifecycle.
    - exists destroyed. repeat split; eauto with lifecycle.
      cbn. unfold isDestroyable. by rewrite !bool_decide_false. }
  destruct (dispatch_completes e w i t Hok Hg Ht Hedge) as [Hres Hget].
  rewrite Hres, Hget, Hg. repeat split; try done. cbn. unfold reclaim_result.
  destruct Hcase as [[-> ->]|[-> ->]]; by case_decide.
Qed.

Lemma dispatchAll_reclaim events w :
  reg_ok (w_reg w) -> NoDup (ev_instanceId <$> events) ->
  (forall e, e ∈ events -> reclaimable (w_reg w) e) ->
  let w' := (dispatchAll events w).1 in
  Forall (fun res => accepted res = true) (dispatchAll events w).2
  /\ reg_ok (w_reg w')
  /\ (forall k, k ∉ ev_instanceId <$> events -> reg_get (w_reg w') k = reg_get (w_reg w) k)
  /\ (forall e, e ∈ events -> reg_get (w_reg w') (ev_instanceId e) =
        reg_get (w_reg w) (ev_instanceId e) ≫= reclaim_result e).
Proof.
  revert w. induction events as [|e events IH]; intros w Hok Hnd Hrec; cbn [dispatchAll].
  { repeat split; try done. by intros e ?%elem_of_nil. }
  rewrite fmap_cons in Hnd. apply NoDup_cons in Hnd as [Hni Hnd].
  destruct (dispatch_reclaim e w Hok (Hrec e (list_elem_of_here _ _))) as (Hacc & Hok1 & Hoth & Hget).
  destruct (dispatch e w) as [w1 res]. cbn [fst snd] in *.
  assert (Hne : forall e', e' ∈ events -> ev_instanceId e' <> ev_instanceId e).
  { intros e' He' Heq. apply Hni. rewrite <- Heq. by apply list_elem_of_fmap_2. }
  destruct (IH w1 Hok1 Hnd) as (Hall & Hok2 & Hoth2 & Hget2).
  { intros e' He'. destruct (Hrec e' (list_elem_of_further _ _ _ He')) as (i & Hi & ?).
    exists i. by rewrite Hoth by auto. }
  destruct (dispatchAll events w1) as [w2 results]. cbn [fst snd] in *.
  split; [by constructor|]. split; [done|]. split.
  - intros k Hk. rewrite fmap_cons, not_elem_of_cons in Hk. destruct Hk. by rewrite Hoth2, Hoth.
  - intros e' [->|He']%elem_of_cons.
    + by rewrite Hoth2.
    + rewrite Hget2, Hoth by auto. done.
Qed.

Lemma sweep_reclaimable policy now r e :
  reg_ok r -> e ∈ sweep policy now r -> reclaimable r e.
Proof.
  intros Hok He. destruct (sweep_legal policy now r e Hok He) as (i & t & Hg & _ & _ & _ & _ & Hc).
  exists i. split; [done|]. destruct Hc as [Hc|[Ht Hs]]; [by left | right].
  split; [done|]. rewrite Hs. done.
Qed.

(** The state a record has after the sweep is the one the sweep proposed. *)
Lemma runSweep_lookup policy now w i :
  reg_ok (w_reg w) -> reg_get (w_reg w) (inst_instanceId i) = Some i ->
  match reg_get (w_reg (runSweep policy now w).1) (inst_instanceId i) with
  | Some i' => inst_state i' = after_state (sweep policy now (w_reg w)) i
  | None => after_state (sweep policy now (w_reg w)) i = destroyed
  end.
Proof.
  intros Hok Hg. set (events := sweep policy now (w_reg w)).
  destruct (dispatchAll_reclaim events w Hok) as (_ & _ & Hout & Hin).
  { by apply sweep_one_decision. }
  { intros e. by apply sweep_reclaimable. }
  unfold runSweep. fold events. unfold after_state.
  destruct (list_find _ events) as [[n e]|] eqn:Hf.
  - apply list_find_Some in Hf as (Hn & Hid & _). apply list_elem_of_lookup_2 in Hn.
    rewrite <- Hid, Hin, Hid, Hg by done. cbn. unfold reclaim_result.
    destruct (sweep_reclaimable policy now _ e Hok Hn) as (i' & Hi' & Hc).
    destruct Hc as [[-> _]|[-> _]]; done.
  - apply list_find_None in Hf. rewrite Hout, Hg; [done|].
    intros (e & Heq & He)%list_elem_of_fmap. rewrite Forall_forall in Hf.
    by apply (Hf e He).
Qed.

(** Counting on the new registry through the old one. *)
Lemma count_after (P Q : AppletInstance -> Prop)
  `{!forall i, Decision (P i)} `{!forall i, Decision (Q i)} r r' :
  reg_ok r -> reg_ok r' ->
  (forall i', reg_get r' (inst_instanceId i') = Some i' -> P i' ->
     exists i, reg_get r (inst_instanceId i') = Some i /\ Q i) ->
  zlength (filter P (reg_list r')) <= zlength (filter Q (reg_list r)).
Proof.
  intros Hok Hok' Hmap. apply Nat2Z.inj_le.
  rewrite <- (length_fmap inst_instanceId (filter P _)), <- (length_fmap inst_instanceId (filter Q _)).
  apply submseteq_length, NoDup_submseteq; [by apply ids_filter_NoDup, reg_list_ids|].
  intros k (i' & -> & [HP Hi']%list_elem_of_filter)%list_elem_of_fmap.
  apply reg_list_elem in Hi'; [|done]. destruct (Hmap i' Hi' HP) as (i & Hi & HQ).
  pose proof (reg_get_id _ _ _ Hok Hi) as Hid. rewrite <- Hid. apply list_elem_of_fmap_2.
  apply list_elem_of_filter. split; [done|]. apply reg_list_elem; [done|]. by rewrite Hid.
Qed.

(** Running a sweep through the orchestrator carries out every proposal and
    leaves a registry within the policy: at most [lruSize] warm instances unless
    more are visible, at most [maxSuspended] suspended ones unless this sweep
    suspended more, and no visible instance disturbed. *)
Theorem runSweep_restores_policy policy now w :
  reg_ok (w_reg w) ->
  let w' := (runSweep policy now w).1 in
  Forall (fun res => accepted res = true) (runSweep policy now w).2
  /\ zlength (filter (fun i => isWarmState (inst_state i) = true) (reg_list (w_reg w')))
     <= Z.max (lruSize policy)
          (zlength (filter (fun i => inst_state i = visible) (reg_list (w_reg w))))
  /\ zlength (filter (fun i => inst_state i = suspended) (reg_list (w_reg w')))
     <= Z.max (maxSuspended policy)
          (zlength (filter (fun i => after_state (sweep policy now (w_reg w)) i = suspended
                                     /\ inst_state i <> suspended) (reg_list (w_reg w))))
  /\ (forall i, reg_get (w_reg w) (inst_instanceId i) = Some i -> inst_state i = visible ->
        reg_get (w_reg w') (inst_instanceId i) = Some i).
Proof.
  intros Hok w'. set (events := sweep policy now (w_reg w)).
  destruct (dispatchAll_reclaim events w Hok) as (Hacc & Hok' & Hout & Hin).
  { by apply sweep_one_decision. }
  { intros e. by apply sweep_reclaimable. }
  fold (runSweep policy now w) in Hacc, Hok', Hout, Hin. fold w' in Hok', Hout, Hin.
  assert (Hold : forall i', reg_get (w_reg w') (inst_instanceId i') = Some i' ->
    exists i, reg_get (w_reg w) (inst_instanceId i') = Some i /\ after_state events i = inst_state i').
  { intros i' Hi'. destruct (reg_get (w_reg w) (inst_instanceId i')) as [i|] eqn:Hi.
    - exists i. split; [done|]. pose proof (reg_get_id _ _ _ Hok Hi) as Hid.
      assert (Hself : reg_get (w_reg w) (inst_instanceId i) = Some i) by (by rewrite Hid).
      pose proof (runSweep_lookup policy now w i Hok Hself) as Hl.
      fold w' in Hl. by rewrite Hid, Hi' in Hl.
    - destruct (decide (inst_instanceId i' ∈ ev_instanceId <$> events)) as [(e & He & Hine)%list_elem_of_fmap|Hni].
      + rewrite He in Hi, Hi'. by rewrite Hin, Hi in Hi'.
      + by rewrite Hout, Hi in Hi'. }
  destruct (sweep_within_bounds policy now (w_reg w) Hok) as [Hwarm Hsusp]. fold events in Hwarm, Hsusp |- *.
  split; [exact Hacc|]. split; [|split].
  - etransitivity; [|exact Hwarm]. apply count_after; try done.
    intros i' Hi' Hw. destruct (Hold i' Hi') as (i & Hi & Ha). exists i. by rewrite Ha.
  - etransitivity; [|exact Hsusp]. apply count_after; try done.
    intros i' Hi' Hw. destruct (Hold i' Hi') as (i & Hi & Ha). exists i. by rewrite Ha.
  - intros i Hi Hv. rewrite Hout; [done|]. intros (e & Heq & He)%list_elem_of_fmap.
    destruct (sweep_legal policy now (w_reg w) e Hok He) as (j & t & Hj & _ & _ & _ & _ & Hc).
    rewrite <- Heq, Hi in Hj. simplify_eq. rewrite Hv in Hc. naive_solver.
Qed.

(** Under critical memory pressure everything off screen is reclaimed: every
    event is carried out and exactly the visible instances stay, untouched. *)
Theorem critical_pressure_leaves_visible now w :
  reg_ok (w_reg w) ->
  (forall i, reg_get (w_reg w) (inst_instanceId i) = Some i -> live_state (inst_state i)) ->
  let w' := (handleMemoryPressure critical now w).1 in
  Forall (fun res => accepted res = true) (handleMemoryPressure critical now w).2
  /\ forall k, reg_get (w_reg w') k =
       match reg_get (w_reg w) k with
       | Some i => if decide (inst_state i = visible) then Some i else None
       | None => None
       end.
Proof.
  intros Hok Hlive w'. set (events := onMemoryPressure critical now (w_reg w)).
  assert (Hids : ev_instanceId <$> events =
    ids (filter (fun i => inst_state i <> visible) (reg_list (w_reg w)))).
  { unfold events, onMemoryPressure, ids. rewrite <- list_fmap_compose. by apply list_fmap_ext. }
  destruct (dispatchAll_reclaim events w Hok) as (Hacc & Hok' & Hout & Hin).
  { rewrite Hids. by apply ids_filter_NoDup, reg_list_ids. }
  { intros e (i & -> & [Hv Hi]%list_elem_of_filter)%list_elem_of_fmap.
    apply reg_list_elem in Hi; [|done]. exists i. split; [done|]. right. auto. }
  change (dispatchAll events w).1 with w' in Hout, Hin.
  split; [exact Hacc|]. intros k.
  destruct (reg_get (w_reg w) k) as [i|] eqn:Hk.
  - pose proof (reg_get_id _ _ _ Hok Hk) as Hid. case_decide as Hv.
    + rewrite (Hout k); [done|]. rewrite Hids.
      intros (j & -> & [Hj Hjl]%list_elem_of_filter)%list_elem_of_fmap.
      apply reg_list_elem in Hjl; [|done]. congruence.
    + set (e := buildEvent i act_destroy now "memory-pressure-critical").
      assert (He : e ∈ events).
      { apply (list_elem_of_fmap_2 (fun i => buildEvent i act_destroy now "memory-pressure-critical")).
        apply list_elem_of_filter. split; [done|]. apply reg_list_elem; [done|]. by rewrite Hid. }
      specialize (Hin e He). cbn in Hin. rewrite Hid, Hk in Hin. exact Hin.
  - destruct (decide (k ∈ ev_instanceId <$> events)) as [Hke|Hni]; [|by rewrite Hout].
    rewrite Hids in Hke. apply list_elem_of_fmap in Hke as (j & -> & [_ Hj]%list_elem_of_filter).
    apply reg_list_elem in Hj; [|done]. congruence.
Qed.
End kernel_facts.

(** ** Interleaved dispatches *)
Definition task_ok (p : pending) : Prop :=
  match p with AwaitSideEffect _ _ target _ => live_state target | _ => True end.

(** What the orchestrator never writes in a record. *)
Definition same_identity (i i' : AppletInstance) : Prop :=
  inst_appletId i' = inst_appletId i /\ inst_instanceId i' = inst_instanceId i
  /\ inst_sessionId i' = inst_sessionId i /\ inst_createdAt i' = inst_createdAt i
  /\ inst_manifestVersion i' = inst_manifestVersion i /\ inst_crashCount i <= inst_crashCount i'.

#[export] Instance same_identity_preorder : PreOrder same_identity.
Proof.
  split; [by intros i; repeat split|]. unfold same_identity. intros i j k.
  intros (?&?&?&?&?&?) (?&?&?&?&?&?). repeat split; try congruence. lia.
Qed.

Section interleaving.
Context {R : Type} `{InstanceRegistryLaws R}.
Implicit Types (st : orch_state R) (r : R).

Definition orch_inv (st : orch_state R) : Prop :=
  reg_ok (w_reg (o_world st))
  /\ (forall k i, reg_get (w_reg (o_world st)) k = Some i -> live_state (inst_state i))
  /\ Forall task_ok (o_tasks st).

(** The records of [r'] are records of [r], updated in place. *)
Definition records_from (r r' : R) : Prop :=
  forall k i', reg_get r' k = Some i' -> exists i, reg_get r k = Some i /\ same_identity i i'.

#[export] Instance records_from_preorder : PreOrder records_from.
Proof.
  split; [intros r k i Hi; by exists i|].
  intros r1 r2 r3 H12 H23 k i3 Hi3. destruct (H23 _ _ Hi3) as (i2 & Hi2 & ?).
  destruct (H12 _ _ Hi2) as (i1 & Hi1 & ?). exists i1. split; [done|]. by etransitivity.
Qed.

Lemma crash_records k r : records_from r (reg_incrementCrashCount k r).1.
Proof.
  intros k' i'. rewrite reg_crash_get. case_decide; [subst|by exists i'].
  destruct (reg_get r k') as [i|]; [|done]. intros [= <-]. exists i.
  repeat split; cbn; lia.
Qed.

Lemma setState_records k s t r : records_from r (reg_setState k s t r).1.
Proof.
  intros k' i'. rewrite reg_setState_get. case_decide; [subst|by exists i'].
  destruct (reg_get r k') as [i|]; [|done]. intros [= <-]. exists i. repeat split; done.
Qed.

Lemma remove_records k r : records_from r (reg_remove k r).
Proof. intros k' i'. rewrite reg_remove_get. case_decide; [done|]. by exists i'. Qed.

Lemma dispatch_start_records e (w w' : world R) out :
  dispatch_start e w = (w', out) -> records_from (w_reg w) (w_reg w').
Proof.
  unfold dispatch_start. intros Hs.
  repeat case_match; simplify_eq/=; try reflexivity; apply crash_records.
Qed.

Lemma dispatch_resume_records o p (w w' : world R) out :
  dispatch_resume o p w = (w', out) -> records_from (w_reg w) (w_reg w').
Proof.
  destruct p, o; cbn; intros; simplify_eq/=; try reflexivity;
    auto using setState_records, remove_records.
Qed.

Lemma live_abs (r r' : R) :
  (forall k, abs_state r' k = abs_state r k) ->
  (forall k i, reg_get r k = Some i -> live_state (inst_state i)) ->
  forall k i, reg_get r' k = Some i -> live_state (inst_state i).
Proof.
  intros Habs Hlive k i Hi. specialize (Habs k). unfold abs_state in Habs. rewrite Hi in Habs.
  destruct (reg_get r k) as [j|] eqn:Hj; [|done]. cbn in Habs. injection Habs as ->. eauto.
Qed.

Lemma orch_step_inv st st' : orch_step st st' -> orch_inv st -> orch_inv st'.
Proof.
  intros Hstep (Hok & Hlive & Htasks). destruct Hstep as [e w ts w' out Hs|o w ts1 p ts2 w' out Hr]; cbn in *.
  - destruct (dispatch_start_spec _ _ _ _ Hok Hs) as (Hok' & Habs & _ & Hout).
    split; [done|]. split; [by eapply live_abs|].
    apply Forall_app. split; [done|]. destruct out as [|p]; [constructor|].
    destruct Hout as (i & t & _ & Ht & Hv & [[-> ->]|[Hne [call ->]]]); repeat constructor; [|done].
    by apply (resolveTarget_not_cold _ _ _ Ht Hv).
  - apply Forall_app in Htasks as [H1 [Hp H2]%Forall_cons].
    assert (Hrest : forall q : list pending, Forall task_ok q -> Forall task_ok (ts1 ++ q ++ ts2))
      by (intros; by repeat (apply Forall_app; split)).
    destruct p, o; cbn in Hr; simplify_eq/=;
      unfold orch_inv; cbn [o_world o_tasks w_reg app session_destroy];
      (split; [auto using reg_setState_ok, reg_remove_ok|]);
      (split; [|first [by apply Forall_app | by apply (Hrest [_]); repeat constructor]]);
      try exact Hlive.
    + intros k i. rewrite reg_setState_get. case_decide; [|apply Hlive].
      destruct (reg_get (w_reg w) _); [|done]. intros [= <-]. exact Hp.
    + intros k i. rewrite reg_remove_get. case_decide; [done | apply Hlive].
Qed.

(** C37: however dispatches overlap and however their awaits settle, the registry
    stays well formed, no stored instance is ever [cold] or [destroyed], no
    removed instance comes back, and a record's identity, session and crash
    history are never rewritten. *)
Theorem interleaving_safe st st' :
  orch_inv st -> rtc orch_step st st' ->
  orch_inv st' /\ records_from (w_reg (o_world st)) (w_reg (o_world st')).
Proof.
  intros Hinv Hrtc. induction Hrtc as [st|st1 st2 st3 Hstep Hrtc IH]; [split; [done|reflexivity]|].
  destruct (IH (orch_step_inv _ _ Hstep Hinv)) as [Hinv3 Hrec]. split; [done|].
  etransitivity; [|exact Hrec]. destruct Hstep; cbn;
    eauto using dispatch_start_records, dispatch_resume_records.
Qed.
End interleaving.

(** ** Concrete runs *)
Definition good_env : AdapterEnv :=
  {| env_surface := fun _ _ _ => None; env_destroySession := fun _ _ => None |}.

Lemma good_env_reliable : @ReliableEnv good_env.
Proof. by split. Qed.

(** An adapter whose detach always fails. *)
Definition broken_detach_env : AdapterEnv :=
  {| env_surface := fun _ c _ => if decide (c = SurfDetach) then Some "lost"%string else None;
     env_destroySession := fun _ _ => None |}.

Definition demo_world : world DefaultInstanceRegistry := World demo_registry [].

Definition demo_dispatch (type : AppletLifecycleEventType) (id : string) : AppletLifecycleEvent :=
  {| ev_type := type; ev_appletId := "app-" +:+ id; ev_instanceId := id; ev_timestamp := 9000001;
     ev_reason := None |}.

Example demo_illegal :
  (@dispatch _ _ good_env (demo_dispatch suspend "a") demo_world).2
  = dr_reject visible "illegal-transition:visible-suspend->unsupported".
Proof. reflexivity. Qed.

Example demo_side_effect_failed :
  (@dispatch _ _ broken_detach_env (demo_dispatch suspend "b") demo_world).2
  = dr_reject hidden_warm "side-effect-failed".
Proof. reflexivity. Qed.

Lemma demo_world_ok : reg_ok (w_reg demo_world).
Proof. apply demo_registry_wf, registry_wf_empty. Qed.

Lemma dispatch_refines_witness :
  reg_ok (w_reg (@dispatch _ _ broken_detach_env (demo_dispatch suspend "b") demo_world).1)
  /\ (@dispatch _ _ broken_detach_env (demo_dispatch suspend "b") demo_world).2
     = dr_reject hidden_warm "side-effect-failed".
Proof.
  destruct (@dispatch_refines _ _ _ broken_detach_env (demo_dispatch suspend "b") demo_world demo_world_ok)
    as [Hok _].
  split; [exact Hok | reflexivity].
Defined.

Lemma dispatch_progress_witness :
  accepted (@dispatch _ _ good_env (demo_dispatch hide "a") demo_world).2 = true.
Proof.
  destruct (@dispatch_progress _ _ _ good_env good_env_reliable (demo_dispatch hide "a") demo_world
    (demo_instance "a" visible 0 9000000) hidden_warm demo_world_ok eq_refl eq_refl edge_hide) as [Hres _].
  rewrite Hres. reflexivity.
Defined.

Lemma runSweep_restores_policy_witness :
  length (@runSweep _ _ good_env DESKTOP_RESOURCE_POLICY 9000000 demo_world).2 = 3%nat
  /\ Forall (fun res => accepted res = true)
       (@runSweep _ _ good_env DESKTOP_RESOURCE_POLICY 9000000 demo_world).2.
Proof.
  split; [reflexivity|].
  exact (proj1 (@runSweep_restores_policy _ _ _ good_env good_env_reliable DESKTOP_RESOURCE_POLICY
    9000000 demo_world demo_world_ok)).
Defined.

Lemma demo_live k i : reg_get (w_reg demo_world) k = Some i -> live_state (inst_state i).
Proof.
  intros Hi. assert (Hl : i ∈ reg_list (w_reg demo_world)).
  { apply reg_list_elem; [exact demo_world_ok|].
    by rewrite (reg_get_id _ _ _ demo_world_ok Hi). }
  cbv in Hl. repeat (apply elem_of_cons in Hl as [->|Hl]; [split; discriminate|]).
  by apply elem_of_nil in Hl.
Qed.

Lemma critical_pressure_leaves_visible_witness :
  reg_get (w_reg (@handleMemoryPressure _ _ good_env critical 9000000 demo_world).1) "b" = None
  /\ reg_get (w_reg (@handleMemoryPressure _ _ good_env critical 9000000 demo_world).1) "a"
     = Some (demo_instance "a" visible 0 9000000).
Proof.
  destruct (@critical_pressure_leaves_visible _ _ _ good_env good_env_reliable 9000000 demo_world
    demo_world_ok (fun i => demo_live (inst_instanceId i) i)) as [_ Hget].
  split; [exact (Hget "b"%string) | exact (Hget "a"%string)].
Defined.

(** A schedule of four overlapping dispatches on the visible instance ["a"]. *)
Definition overlap_start : orch_state DefaultInstanceRegistry := Orch demo_world [].

Definition orch_exec_start (e : AppletLifecycleEvent) (st : orch_state DefaultInstanceRegistry)
  : orch_state DefaultInstanceRegistry :=
  let (w, out) := dispatch_start e (o_world st) in
  Orch w (o_tasks st ++ match out with inl _ => [] | inr p => [p] end).

Definition orch_exec_resume (n : nat) (o : option string) (st : orch_state DefaultInstanceRegistry)
  : orch_state DefaultInstanceRegistry :=
  match o_tasks st !! n with
  | None => st
  | Some p =>
      let (w, out) := dispatch_resume o p (o_world st) in
      Orch w (take n (o_tasks st) ++ match out with inl _ => [] | inr p' => [p'] end
              ++ drop (S n) (o_tasks st))
  end.

Lemma orch_exec_start_step e st : orch_step st (orch_exec_start e st).
Proof. unfold orch_exec_start. destruct (dispatch_start _ _) eqn:Hs. destruct st.
  by apply (orch_start e).
Qed.

Lemma orch_exec_resume_step n o st p :
  o_tasks st !! n = Some p -> orch_step st (orch_exec_resume n o st).
Proof.
  intros Hn. unfold orch_exec_resume. rewrite Hn.
  destruct st as [w ts]; cbn in *. destruct (dispatch_resume _ _ _) eqn:Hr.
  rewrite <- (take_drop_middle ts n p Hn) at 1. by apply (orch_resume o).
Qed.

(** [hide] starts and waits on the adapter; meanwhile [pause] and [suspend] run to
    completion; then the hide resolves. *)
Definition overlap_before : orch_state DefaultInstanceRegistry :=
  orch_exec_resume 1 None (orch_exec_start (demo_dispatch suspend "a")
    (orch_exec_resume 1 None (orch_exec_start (demo_dispatch pause "a")
      (orch_exec_start (demo_dispatch hide "a") overlap_start)))).

Definition overlap_after : orch_state DefaultInstanceRegistry := orch_exec_resume 0 None overlap_before.

Lemma overlap_reachable : rtc orch_step overlap_start overlap_before.
Proof.
  unfold overlap_before.
  eapply rtc_l; [apply (orch_exec_start_step (demo_dispatch hide "a"))|].
  eapply rtc_l; [apply (orch_exec_start_step (demo_dispatch pause "a"))|].
  eapply rtc_l; [by eapply (orch_exec_resume_step 1 None)|].
  eapply rtc_l; [apply (orch_exec_start_step (demo_dispatch suspend "a"))|].
  eapply rtc_l; [by eapply (orch_exec_resume_step 1 None)|]. reflexivity.
Qed.

Lemma interleaving_safe_witness :
  orch_inv overlap_start /\ records_from demo_registry (w_reg (o_world overlap_before)).
Proof.
  assert (Hinv : orch_inv overlap_start).
  { split; [exact demo_world_ok|]. split; [exact demo_live | constructor]. }
  split; [exact Hinv|].
  exact (proj2 (interleaving_safe overlap_start overlap_before Hinv overlap_reachable)).
Defined.

(** Serial legality does not survive overlap: from a well-formed registry,
    a hide that waits on its surface command while the instance is paused and
    suspended writes [hidden-warm] over [suspended], a change no event of the
    contract allows, and is reported as accepted. *)
Theorem overlapping_dispatch_leaves_contract :
  exists st st' : orch_state DefaultInstanceRegistry,
    orch_inv overlap_start /\ rtc orch_step overlap_start st /\ orch_step st st'
    /\ abs_state (w_reg (o_world st)) "a" = Some suspended
    /\ abs_state (w_reg (o_world st')) "a" = Some hidden_warm
    /\ forall e, ~ lifecycle_edge suspended e hidden_warm.
Proof.
  exists overlap_before, overlap_after.
  split; [split; [exact demo_world_ok|]; split; [exact demo_live | constructor]|].
  split; [exact overlap_reachable|].
  split; [by eapply (orch_exec_resume_step 0 None)|].
  repeat split. intros e He. inversion He; naive_solver.
Qed.
