(* ===== verification/MobileTypes.v ===== *)
(** * Types of the mobile lifecycle kernel

    Models [apps/mobile/src/app/lifecycle/types.ts]. *)
From stdpp Require Import base strings list.
From S2P Require Import Prelude.

Inductive LifecyclePhase : Set :=
| COLD | BOOTSTRAPPING | ACTIVE | SUSPENDING | SUSPENDED | RESUMING | TEARDOWN | TEARDOWN_FAILED.

Inductive MobileLaunchState : Set :=
| app_boot | station_selection | station_handshake | access_gate_chain | runtime_critical
| shell | station_change | logout | background | resume_launch.

Inductive LifecycleTransitionReason : Set :=
| app_start | app_unmount | access_granted | app_background | app_resume | reliability_recovery
| native_resume | visibility_change | window_focus | station_replace | actor_replace
| reason_logout | revocation | acceptance_restart | acceptance_suspend | acceptance_resume.

Inductive DraftDisposition : Set := retain | discard.

Record RuntimeTeardownContext : Set := {
  td_reason : LifecycleTransitionReason;
  td_draftDisposition : option DraftDisposition
}.

Inductive RuntimeBootstrapStatus : Set :=
| st_pending | st_bootstrapping | st_ready | st_suspended | st_resuming
| st_tearing_down | st_torn_down | st_failed.

#[export] Instance LifecyclePhase_eq_dec : EqDecision LifecyclePhase.
Proof. solve_decision. Defined.
#[export] Instance MobileLaunchState_eq_dec : EqDecision MobileLaunchState.
Proof. solve_decision. Defined.
#[export] Instance LifecycleTransitionReason_eq_dec : EqDecision LifecycleTransitionReason.
Proof. solve_decision. Defined.
#[export] Instance RuntimeBootstrapStatus_eq_dec : EqDecision RuntimeBootstrapStatus.
Proof. solve_decision. Defined.

(** Durations come from [performance.now()] and are left out: nothing branches on
    them. *)
Record RuntimeOperationResult : Set := {
  op_runtimeId : string;
  op_success : bool;
  op_errorMessage : option string
}.

Record AggregateTeardownResult : Set := {
  agg_results : list RuntimeOperationResult;
  agg_allSuccessful : bool
}.

Inductive ReadinessStatus : Set := rd_pending | rd_ready | rd_failed.

#[export] Instance ReadinessStatus_eq_dec : EqDecision ReadinessStatus.
Proof. solve_decision. Defined.

Record RuntimeReadiness : Set := {
  rd_status : ReadinessStatus;
  rd_errorKey : option string;
  rd_diagnosticError : option string
}.

(** A descriptor object. [desc_ref] is its identity as an object: the kernel
    compares descriptors with [===]. The four hooks are code of the runtimes, not
    of the kernel; the kernel model asks an environment for their outcome. *)
Record MobileRuntimeDescriptor : Set := {
  desc_ref : nat;
  desc_id : string;
  desc_title : string;
  desc_dependsOn : list string
}.

Record RuntimeEntry : Set := {
  re_descriptor : MobileRuntimeDescriptor;
  re_status : RuntimeBootstrapStatus;
  re_lastError : option string;
  re_readiness : option RuntimeReadiness
}.

Record LifecycleKernelState : Set := {
  phase : LifecyclePhase;
  launchState : MobileLaunchState;
  generation : Z;
  runtimes : jsmap RuntimeEntry;
  bootOrder : list string;
  error : option string
}.

Record RuntimeLifecycleSnapshot : Set := {
  snap_id : string;
  snap_status : RuntimeBootstrapStatus;
  snap_errorKey : option string
}.

Record LifecycleKernelSnapshot : Set := {
  ks_phase : LifecyclePhase;
  ks_launchState : MobileLaunchState;
  ks_generation : Z;
  ks_bootOrder : list string;
  ks_runtimes : list RuntimeLifecycleSnapshot;
  ks_errorKey : option string
}.

Inductive LifecycleEvent : Set :=
| ev_phase_changed (phase previousPhase : LifecyclePhase)
| ev_launch_state_changed (launchState previousLaunchState : MobileLaunchState)
| ev_generation_advanced (generation : Z) (reason : LifecycleTransitionReason)
| ev_runtime_status_changed (runtimeId : string) (status : RuntimeBootstrapStatus)
| ev_bootstrap_complete (results : list RuntimeOperationResult)
| ev_teardown_complete (result : AggregateTeardownResult)
| ev_error (message : string).
