(* ===== verification/TopoSort.v ===== *)
(** * Bootstrap order of the runtimes

    Models [apps/mobile/src/app/lifecycle/topologicalSort.ts]: the depth-first
    sort with three-colour marking that orders runtimes by [dependsOn]. *)
From stdpp Require Import base strings list relations.
From S2P Require Import Prelude MobileTypes.

Record TopologicalSortResult : Set := {
  order : list string;
  hasCycle : bool;
  cycleParticipants : list string;
  missingDependencies : list (string * string)
}.

Inductive VisitState : Set := unvisited | visiting | visited.

#[export] Instance VisitState_eq_dec : EqDecision VisitState.
Proof. solve_decision. Defined.

(** The three collections [dfsVisit] writes. *)
Record dfs_state : Set := {
  dfs_visited : jsmap VisitState;
  dfs_order : list string;
  dfs_cycle : list string
}.

Definition dfs_mark (id : string) (v : VisitState) (st : dfs_state) : dfs_state :=
  {| dfs_visited := <[id := v]> (dfs_visited st); dfs_order := dfs_order st; dfs_cycle := dfs_cycle st |}.

Definition dfs_push_order (id : string) (st : dfs_state) : dfs_state :=
  {| dfs_visited := dfs_visited st; dfs_order := dfs_order st ++ [id]; dfs_cycle := dfs_cycle st |}.

Definition dfs_push_cycle (ids : list string) (st : dfs_state) : dfs_state :=
  {| dfs_visited := dfs_visited st; dfs_order := dfs_order st; dfs_cycle := dfs_cycle st ++ ids |}.

Definition deps_of (adjacency : jsmap (list string)) (id : string) : list string :=
  default [] (adjacency !! id).

(** The loop over the dependencies of [id]; [visit] is the recursive call. *)
Fixpoint dfs_deps (visit : string -> dfs_state -> option (bool * dfs_state))
  (id : string) (deps : list string) (st : dfs_state) : option (bool * dfs_state) :=
  match deps with
  | [] => Some (true, st)
  | dep :: rest =>
      match dfs_visited st !! dep with
      | Some visiting => Some (false, dfs_push_cycle [id; dep] st)
      | Some unvisited =>
          match visit dep st with
          | None => None
          | Some (false, st') => Some (false, dfs_push_cycle [id] st')
          | Some (true, st') => dfs_deps visit id rest st'
          end
      | _ => dfs_deps visit id rest st
      end
  end.

(** [None] only when the fuel runs out; [dfsVisit_spec] shows the fuel the sort
    gives it is enough. *)
Fixpoint dfsVisit (fuel : nat) (adjacency : jsmap (list string)) (id : string) (st : dfs_state)
  : option (bool * dfs_state) :=
  match fuel with
  | O => None
  | S fuel =>
      match dfs_deps (dfsVisit fuel adjacency) id (deps_of adjacency id) (dfs_mark id visiting st) with
      | Some (true, st') => Some (true, dfs_push_order id (dfs_mark id visited st'))
      | r => r
      end
  end.

Fixpoint visit_all (fuel : nat) (adjacency : jsmap (list string)) (ids : list string) (st : dfs_state)
  : option (bool * dfs_state) :=
  match ids with
  | [] => Some (true, st)
  | id :: rest =>
      if decide (dfs_visited st !! id = Some unvisited)
      then
        match dfsVisit fuel adjacency id st with
        | Some (true, st') => visit_all fuel adjacency rest st'
        | r => r
        end
      else visit_all fuel adjacency rest st
  end.

Definition id_set (descriptors : list MobileRuntimeDescriptor) : list string :=
  js_set_of (desc_id <$> descriptors).

Definition adjacency_of (descriptors : list MobileRuntimeDescriptor) : jsmap (list string) :=
  fold_left (fun m d => <[desc_id d := desc_dependsOn d]> m) descriptors ∅.

Definition missing_of (descriptors : list MobileRuntimeDescriptor) : list (string * string) :=
  d ← descriptors;
  dep ← filter (fun dep => dep ∉ id_set descriptors) (desc_dependsOn d);
  [(desc_id d, dep)].

Definition initial_visit (ids : list string) : jsmap VisitState :=
  fold_left (fun m id => <[id := unvisited]> m) ids ∅.

(** The sort with explicit fuel; [None] only when the fuel runs out. *)
Definition topologicalSort_fuel (fuel : nat) (descriptors : list MobileRuntimeDescriptor)
  : option TopologicalSortResult :=
  let idSet := id_set descriptors in
  match missing_of descriptors with
  | (_ :: _) as missing =>
      Some {| order := []; hasCycle := false; cycleParticipants := []; missingDependencies := missing |}
  | [] =>
      match visit_all fuel (adjacency_of descriptors) idSet
              {| dfs_visited := initial_visit idSet; dfs_order := []; dfs_cycle := [] |} with
      | None => None
      | Some (true, st) =>
          Some {| order := dfs_order st; hasCycle := false; cycleParticipants := [];
                  missingDependencies := [] |}
      | Some (false, st) =>
          Some {| order := []; hasCycle := true; cycleParticipants := js_set_of (dfs_cycle st);
                  missingDependencies := [] |}
      end
  end.

(** The depth of the search is at most the number of runtimes, so this fuel always
    suffices ([topologicalSort_total]) and the default is never returned. *)
Definition topologicalSortRuntimes (descriptors : list MobileRuntimeDescriptor) : TopologicalSortResult :=
  default {| order := []; hasCycle := true; cycleParticipants := []; missingDependencies := [] |}
    (topologicalSort_fuel (length (id_set descriptors)) descriptors).

Definition reverseTeardownOrder (bootstrapOrder : list string) : list string := rev bootstrapOrder.

(** ** Specification *)

(** [x] depends on [y]. *)
Definition depends (adjacency : jsmap (list string)) (x y : string) : Prop := y ∈ deps_of adjacency x.

Definition cyclic (adjacency : jsmap (list string)) : Prop := exists x, tc (depends adjacency) x x.

(** Every member comes after all of its dependencies. *)
Definition respects (adjacency : jsmap (list string)) (l : list string) : Prop :=
  forall l1 x l2, l = l1 ++ x :: l2 -> forall y, depends adjacency x y -> y ∈ l1.

(** ** Proofs *)
Lemma respects_nil adj : respects adj [].
Proof. intros l1 x l2 H. by destruct l1. Qed.

Lemma respects_snoc adj l x :
  respects adj l -> (forall y, depends adj x y -> y ∈ l) -> respects adj (l ++ [x]).
Proof.
  intros Hl Hx l1 z l2 Heq y Hy.
  destruct l2 as [|w l2 _] using rev_ind.
  - apply app_inj_tail in Heq as [-> ->]. by apply Hx.
  - rewrite app_comm_cons, (assoc_L (++)) in Heq. apply app_inj_tail in Heq as [-> ->].
    by apply (Hl l1 z l2).
Qed.

Section dfs.
Context (adj : jsmap (list string)) (ids : list string).
Hypothesis Hclosed : forall x y, x ∈ ids -> depends adj x y -> y ∈ ids.

(** The colouring covers the runtimes; [order] lists the finished ones, each after
    its dependencies. *)
Definition dfs_inv (st : dfs_state) : Prop :=
  (forall k, is_Some (dfs_visited st !! k) <-> k ∈ ids)
  /\ NoDup (dfs_order st)
  /\ (forall k, k ∈ dfs_order st <-> dfs_visited st !! k = Some visited)
  /\ respects adj (dfs_order st).

(** Number of runtimes not reached yet: the depth left to the search. *)
Definition unvisited_count (st : dfs_state) : nat :=
  length (filter (fun k => dfs_visited st !! k = Some unvisited) ids).

(** What a successful visit does to the colours. *)
Definition dfs_mono (st st' : dfs_state) : Prop :=
  (forall k, dfs_visited st' !! k = Some visiting <-> dfs_visited st !! k = Some visiting)
  /\ (forall k, dfs_visited st !! k = Some visited -> dfs_visited st' !! k = Some visited)
  /\ (forall k, dfs_visited st' !! k = Some unvisited -> dfs_visited st !! k = Some unvisited).

Lemma dfs_mono_refl st : dfs_mono st st.
Proof. done. Qed.

Lemma dfs_mono_trans st1 st2 st3 : dfs_mono st1 st2 -> dfs_mono st2 st3 -> dfs_mono st1 st3.
Proof. unfold dfs_mono. intros (?&?&?) (?&?&?). split; [|split]; naive_solver. Qed.

Lemma unvisited_count_mono st st' : dfs_mono st st' -> (unvisited_count st' <= unvisited_count st)%nat.
Proof. intros (_ & _ & Hu). apply length_filter_mono. intros k _. apply Hu. Qed.

Lemma dfs_mark_count st id :
  id ∈ ids -> dfs_visited st !! id = Some unvisited ->
  (unvisited_count (dfs_mark id visiting st) < unvisited_count st)%nat.
Proof.
  intros Hid Hu. apply (length_filter_lt _ _ _ id); try done.
  - intros k _. cbn. rewrite jm_lookup_set. by case_decide.
  - cbn. by rewrite jm_lookup_set_eq.
Qed.

Lemma dfs_mark_inv st id v :
  id ∈ ids -> v <> visited -> dfs_visited st !! id <> Some visited ->
  dfs_inv st -> dfs_inv (dfs_mark id v st).
Proof.
  intros Hid Hv Hnv (Hdom & Hnd & Hord & Hresp). split; [|split; [done|split; [|done]]]; cbn.
  - intros k. rewrite jm_lookup_set. case_decide; subst; [|apply Hdom]. split; eauto.
  - intros k. rewrite jm_lookup_set, Hord. case_decide; subst; [|done]. split; congruence.
Qed.

(** Outcome of a visit: the node and its dependencies are finished, or the graph
    has a cycle. *)
Definition visit_post (id : string) (st : dfs_state) (r : option (bool * dfs_state)) : Prop :=
  exists b st', r = Some (b, st') /\
    if b then dfs_inv st' /\ dfs_mono st st' /\ dfs_visited st' !! id = Some visited
    else cyclic adj.

Definition visit_pre (id : string) (st : dfs_state) : Prop :=
  dfs_inv st /\ id ∈ ids /\ dfs_visited st !! id = Some unvisited
  /\ (forall v, dfs_visited st !! v = Some visiting -> tc (depends adj) v id).

Lemma dfs_deps_spec visit n id deps st :
  (forall dep st, visit_pre dep st -> (unvisited_count st <= n)%nat -> visit_post dep st (visit dep st)) ->
  dfs_inv st -> id ∈ ids -> dfs_visited st !! id = Some visiting ->
  (forall v, dfs_visited st !! v = Some visiting -> v = id \/ tc (depends adj) v id) ->
  (forall dep, dep ∈ deps -> depends adj id dep) ->
  (unvisited_count st <= n)%nat ->
  exists b st', dfs_deps visit id deps st = Some (b, st') /\
    if b then dfs_inv st' /\ dfs_mono st st'
              /\ (forall dep, dep ∈ deps -> dfs_visited st' !! dep = Some visited)
    else cyclic adj.
Proof.
  intros Hvisit. revert st. induction deps as [|dep deps IH]; intros st Hinv Hid Hst Hstack Hdeps Hn; cbn.
  { exists true, st. split; [done|]. split; [done|]. split; [done|]. by intros dep ?%elem_of_nil. }
  assert (Hdep : depends adj id dep) by (apply Hdeps; left).
  assert (Hreach : forall v, dfs_visited st !! v = Some visiting -> tc (depends adj) v dep).
  { intros v Hv. destruct (Hstack v Hv) as [->|Ht]; [by apply tc_once|].
    eapply tc_r; [exact Ht | exact Hdep]. }
  destruct (dfs_visited st !! dep) as [[| |]|] eqn:Hc.
  - destruct (Hvisit dep st) as (b & st' & -> & Hb); [|done|].
    { split; [done|]. split; [by apply (Hclosed id)|]. done. }
    destruct b.
    + destruct Hb as (Hinv' & Hmono & Hvis).
      destruct (IH st') as (b & st'' & -> & Hb); try done.
      * by apply Hmono.
      * intros v Hv. apply Hstack. by apply Hmono.
      * intros d Hd. apply Hdeps. by right.
      * pose proof (unvisited_count_mono _ _ Hmono). lia.
      * exists b, st''. split; [done|]. destruct b; [|done]. destruct Hb as (? & Hm2 & Hall).
        split; [done|]. split; [by eapply dfs_mono_trans|].
        intros d [->|Hd]%elem_of_cons; [by apply Hm2 | by apply Hall].
    + exists false, (dfs_push_cycle [id] st'). done.
  - exists false, (dfs_push_cycle [id; dep] st). split; [done|].
    exists dep. by apply Hreach.
  - destruct (IH st) as (b & st' & -> & Hb); try done.
    { intros d Hd. apply Hdeps. by right. }
    exists b, st'. split; [done|]. destruct b; [|done]. destruct Hb as (? & Hm & Hall).
    split; [done|]. split; [done|]. intros d [->|Hd]%elem_of_cons; [by apply Hm | by apply Hall].
  - exfalso. destruct Hinv as (Hdom & _). specialize (Hdom dep). rewrite Hc in Hdom.
    destruct (proj2 Hdom (Hclosed id dep Hid Hdep)) as [? ?]. done.
Qed.

Lemma dfsVisit_spec fuel id st :
  visit_pre id st -> (unvisited_count st <= fuel)%nat -> visit_post id st (dfsVisit fuel adj id st).
Proof.
  revert id st. induction fuel as [|n IH]; intros id st (Hinv & Hid & Hun & Hstack) Hfuel.
  { exfalso. pose proof (dfs_mark_count st id Hid Hun). lia. }
  pose proof (dfs_mark_count st id Hid Hun) as Hlt. cbn [dfsVisit].
  assert (Hinv1 : dfs_inv (dfs_mark id visiting st)) by (apply dfs_mark_inv; congruence).
  destruct (dfs_deps_spec (dfsVisit n adj) n id (deps_of adj id) (dfs_mark id visiting st))
    as (b & st' & -> & Hb); try done.
  - cbn. by rewrite jm_lookup_set_eq.
  - intros v. cbn. rewrite jm_lookup_set. case_decide; [by left|]. right. auto.
  - lia.
  - destruct b; [|by exists false, st'].
    destruct Hb as ((Hdom & Hnd & Hord & Hresp) & (Hvg & Hvd & Hvu) & Hall).
    exists true, (dfs_push_order id (dfs_mark id visited st')). split; [done|].
    assert (Hid' : dfs_visited st' !! id = Some visiting).
    { apply Hvg. cbn. by rewrite jm_lookup_set_eq. }
    assert (Hno : id ∉ dfs_order st') by (rewrite Hord; congruence).
    split; [split; [|split; [|split]]|split; [|by cbn; rewrite jm_lookup_set_eq]]; cbn.
    + intros k. rewrite jm_lookup_set. case_decide; subst; [|apply Hdom]. split; eauto.
    + apply NoDup_app. split; [done|]. split; [|apply NoDup_singleton].
      intros x Hx ->%list_elem_of_singleton. done.
    + intros k. rewrite jm_lookup_set, elem_of_app, list_elem_of_singleton, Hord.
      case_decide; subst; naive_solver.
    + apply respects_snoc; [done|]. intros y Hy. apply Hord, Hall, Hy.
    + unfold dfs_mono; cbn. cbn in Hvg, Hvd, Hvu. split; [|split]; intros k;
        specialize (Hvg k); specialize (Hvd k); specialize (Hvu k);
        rewrite jm_lookup_set in *; case_decide; subst; try naive_solver congruence.
      all: rewrite ?Hun; split; congruence.
Qed.

Lemma visit_all_spec fuel l st :
  dfs_inv st -> (forall v, dfs_visited st !! v <> Some visiting) -> (forall x, x ∈ l -> x ∈ ids) ->
  (unvisited_count st <= fuel)%nat ->
  exists b st', visit_all fuel adj l st = Some (b, st') /\
    if b then dfs_inv st' /\ dfs_mono st st' /\ (forall x, x ∈ l -> dfs_visited st' !! x = Some visited)
    else cyclic adj.
Proof.
  revert st. induction l as [|x l IH]; intros st Hinv Hnov Hl Hfuel; cbn.
  { exists true, st. split; [done|]. split; [done|]. split; [done|]. by intros x ?%elem_of_nil. }
  case_decide as Hx.
  - destruct (dfsVisit_spec fuel x st) as (b & st' & -> & Hb); [|done|].
    { split; [done|]. split; [apply Hl; left|]. split; [done|]. intros v Hv. by destruct (Hnov v). }
    destruct b; [|by exists false, st']. destruct Hb as (Hinv' & Hm & Hvis).
    destruct (IH st') as (b & st'' & -> & Hb); try done.
    + intros v Hv. by apply (Hnov v), Hm.
    + intros y Hy. apply Hl. by right.
    + pose proof (unvisited_count_mono _ _ Hm). lia.
    + exists b, st''. split; [done|]. destruct b; [|done]. destruct Hb as (? & Hm2 & Hall).
      split; [done|]. split; [by eapply dfs_mono_trans|].
      intros y [->|Hy]%elem_of_cons; [by apply Hm2 | by apply Hall].
  - assert (Hxv : dfs_visited st !! x = Some visited).
    { destruct Hinv as (Hdom & _). destruct (proj2 (Hdom x)) as [c Hc]; [apply Hl; left|].
      specialize (Hnov x). rewrite Hc in Hx, Hnov |- *. by destruct c. }
    destruct (IH st) as (b & st' & -> & Hb); try done.
    { intros y Hy. apply Hl. by right. }
    exists b, st'. split; [done|]. destruct b; [|done]. destruct Hb as (? & Hm & Hall).
    split; [done|]. split; [done|]. intros y [->|Hy]%elem_of_cons; [by apply Hm | by apply Hall].
Qed.
End dfs.

(** ** The sort itself *)
Lemma adjacency_lookup ds (acc : jsmap (list string)) x l :
  fold_left (fun m d => <[desc_id d := desc_dependsOn d]> m) ds acc !! x = Some l ->
  acc !! x = Some l \/ exists d, d ∈ ds /\ desc_id d = x /\ desc_dependsOn d = l.
Proof.
  revert acc. induction ds as [|d ds IH]; intros acc Hx; [by left|].
  apply IH in Hx as [Hx|(d' & Hd' & ? & ?)].
  - rewrite jm_lookup_set in Hx. case_decide; [|by left]. simplify_eq.
    right. exists d. split; [left|done].
  - right. exists d'. split; [by right|done].
Qed.

Lemma adjacency_lookup_notin ds (acc : jsmap (list string)) x :
  x ∉ desc_id <$> ds ->
  fold_left (fun m d => <[desc_id d := desc_dependsOn d]> m) ds acc !! x = acc !! x.
Proof.
  revert acc. induction ds as [|d ds IH]; intros acc Hx; [done|].
  rewrite fmap_cons, not_elem_of_cons in Hx. destruct Hx as [Hne Hx].
  cbn [fold_left]. rewrite IH by done. by rewrite jm_lookup_set_ne.
Qed.

Lemma adjacency_of_nodup ds d :
  NoDup (desc_id <$> ds) -> d ∈ ds -> adjacency_of ds !! desc_id d = Some (desc_dependsOn d).
Proof.
  unfold adjacency_of. generalize (∅ : jsmap (list string)).
  induction ds as [|d' ds IH]; intros acc Hnd Hd; [by apply elem_of_nil in Hd|].
  rewrite fmap_cons in Hnd. apply NoDup_cons in Hnd as [Hni Hnd]. cbn [fold_left].
  apply elem_of_cons in Hd as [->|Hd]; [|by apply IH].
  rewrite adjacency_lookup_notin by done. by rewrite jm_lookup_set_eq.
Qed.

Lemma initial_visit_lookup l (acc : jsmap VisitState) k :
  fold_left (fun m id => <[id := unvisited]> m) l acc !! k =
  if decide (k ∈ l) then Some unvisited else acc !! k.
Proof.
  revert acc. induction l as [|x l IH]; intros acc; [done|]. cbn [fold_left].
  rewrite IH, jm_lookup_set.
  destruct (decide (k ∈ l)) as [Hin|Hni].
  - rewrite decide_True; [done|by right].
  - destruct (decide (x = k)) as [->|Hne].
    + rewrite decide_True; [done|left].
    + rewrite decide_False; [done|]. rewrite elem_of_cons. naive_solver.
Qed.

Lemma missing_of_elem ds x y :
  (x, y) ∈ missing_of ds <->
  exists d, d ∈ ds /\ desc_id d = x /\ y ∈ desc_dependsOn d /\ y ∉ id_set ds.
Proof.
  unfold missing_of. rewrite list_elem_of_bind. split.
  - intros (d & Hin & Hd). apply list_elem_of_bind in Hin as (dep & Hdep & Hf).
    apply list_elem_of_singleton in Hdep. apply list_elem_of_filter in Hf. naive_solver.
  - intros (d & Hd & <- & Hy & Hni). exists d. split; [|done].
    apply list_elem_of_bind. exists y. split; [by left|]. by apply list_elem_of_filter.
Qed.

Lemma id_set_closed ds x y :
  missing_of ds = [] -> depends (adjacency_of ds) x y -> y ∈ id_set ds.
Proof.
  intros Hm Hd. unfold depends, deps_of in Hd.
  destruct (adjacency_of ds !! x) as [l|] eqn:Hl; [|by apply elem_of_nil in Hd]. cbn in Hd.
  apply adjacency_lookup in Hl as [Hl|(d & Hin & Hid & <-)]; [done|].
  destruct (decide (y ∈ id_set ds)); [done|]. exfalso.
  assert ((x, y) ∈ missing_of ds) as Hxy by (apply missing_of_elem; eauto).
  rewrite Hm in Hxy. by apply elem_of_nil in Hxy.
Qed.

Lemma initial_inv adj ds :
  dfs_inv adj (id_set ds) {| dfs_visited := initial_visit (id_set ds); dfs_order := []; dfs_cycle := [] |}.
Proof.
  assert (Hlook : forall k, initial_visit (id_set ds) !! k =
    if decide (k ∈ id_set ds) then Some unvisited else None).
  { intros k. unfold initial_visit. by rewrite initial_visit_lookup. }
  split; [|split; [constructor|split; [|apply respects_nil]]]; cbn; intros k; rewrite Hlook.
  - case_decide; split; try done; by intros [? ?].
  - rewrite elem_of_nil. case_decide; naive_solver.
Qed.

Lemma respects_before adj l l1 x l2 y :
  respects adj l -> l = l1 ++ x :: l2 -> tc (depends adj) x y -> y ∈ l1.
Proof.
  intros Hr Hl Ht. revert l1 l2 Hl. induction Ht as [x y Hxy|x z y Hxz Hzy IH]; intros l1 l2 Hl.
  - by eapply Hr.
  - pose proof (Hr _ _ _ Hl _ Hxz) as Hz. apply list_elem_of_split in Hz as (a & b & ->).
    apply elem_of_app. left. eapply (IH a (b ++ x :: l2)). rewrite Hl. by rewrite <- (assoc_L (++)).
Qed.

Lemma respects_acyclic adj l :
  NoDup l -> respects adj l -> (forall x y, depends adj x y -> x ∈ l) -> ~ cyclic adj.
Proof.
  intros Hnd Hr Hdom [x Hx].
  assert (Hin : x ∈ l) by (inversion Hx; eauto).
  apply list_elem_of_split in Hin as (l1 & l2 & ->).
  apply NoDup_app in Hnd as (_ & Hdis & _). eapply (Hdis x); [|left].
  by eapply respects_before.
Qed.

Lemma depends_dom ds x y : depends (adjacency_of ds) x y -> x ∈ id_set ds.
Proof.
  unfold depends, deps_of. intros Hd.
  destruct (adjacency_of ds !! x) as [l|] eqn:Hl; [|by apply elem_of_nil in Hd].
  apply adjacency_lookup in Hl as [Hl|(d & Hin & <- & _)]; [done|].
  apply js_set_of_elem. by apply list_elem_of_fmap_2.
Qed.

(** The sort with at least as much fuel as runtimes. *)
Lemma topologicalSort_fuel_spec fuel ds :
  (length (id_set ds) <= fuel)%nat ->
  exists r, topologicalSort_fuel fuel ds = Some r /\ missingDependencies r = missing_of ds
    /\ (missing_of ds <> [] -> order r = [] /\ hasCycle r = false)
    /\ (missing_of ds = [] ->
        if hasCycle r then order r = [] /\ cyclic (adjacency_of ds)
        else order r ≡ₚ id_set ds /\ respects (adjacency_of ds) (order r)
             /\ ~ cyclic (adjacency_of ds)).
Proof.
  intros Hfuel. unfold topologicalSort_fuel. destruct (missing_of ds) as [|p m] eqn:Hm.
  2:{ eexists. split; [done|]. split; [done|]. split; [done|]. by intros ?. }
  destruct (visit_all_spec (adjacency_of ds) (id_set ds) (fun x y _ => id_set_closed ds x y Hm)
    fuel (id_set ds) {| dfs_visited := initial_visit (id_set ds); dfs_order := []; dfs_cycle := [] |})
    as (b & st & -> & Hb).
  - apply initial_inv.
  - intros v. cbn. unfold initial_visit. rewrite initial_visit_lookup. by case_decide.
  - done.
  - etransitivity; [apply length_filter|exact Hfuel].
  - destruct b; eexists; (split; [done|]; split; [done|]; split; [done|]); intros _; cbn; [|done].
    destruct Hb as ((Hdom & Hnd & Hord & Hresp) & _ & Hall).
    assert (Hperm : dfs_order st ≡ₚ id_set ds).
    { apply NoDup_Permutation; [done | apply js_set_of_NoDup|]. intros k. rewrite Hord. split; [|apply Hall].
      intros Hk. apply Hdom. eauto. }
    split; [done|]. split; [done|]. apply (respects_acyclic _ (dfs_order st)); [done..|].
    intros x y Hxy. rewrite Hperm. by eapply depends_dom.
Qed.

Lemma topologicalSort_sorted ds :
  missingDependencies (topologicalSortRuntimes ds) = [] ->
  hasCycle (topologicalSortRuntimes ds) = false ->
  order (topologicalSortRuntimes ds) ≡ₚ id_set ds
  /\ respects (adjacency_of ds) (order (topologicalSortRuntimes ds)).
Proof.
  unfold topologicalSortRuntimes.
  destruct (topologicalSort_fuel_spec (length (id_set ds)) ds (Nat.le_refl _))
    as (r & -> & Hmiss & _ & Hok). cbn. rewrite Hmiss. intros Hm Hc.
  specialize (Hok Hm). rewrite Hc in Hok. tauto.
Qed.

(** More fuel never changes an answer. *)
Lemma dfs_deps_mono (visit visit' : string -> dfs_state -> option (bool * dfs_state)) id deps st r :
  (forall dep st r, visit dep st = Some r -> visit' dep st = Some r) ->
  dfs_deps visit id deps st = Some r -> dfs_deps visit' id deps st = Some r.
Proof.
  intros Hv. revert st. induction deps as [|dep deps IH]; cbn; intros st H; [done|].
  destruct (dfs_visited st !! dep) as [[]|]; eauto.
  destruct (visit dep st) as [[b st']|] eqn:E; [|done]. rewrite (Hv _ _ _ E). destruct b; eauto.
Qed.

Lemma dfsVisit_mono fuel fuel' adj id st r :
  (fuel <= fuel')%nat -> dfsVisit fuel adj id st = Some r -> dfsVisit fuel' adj id st = Some r.
Proof.
  revert fuel' id st r. induction fuel as [|fuel IH]; intros [|fuel'] id st r Hle H; [done|done|lia|].
  cbn in *. destruct (dfs_deps (dfsVisit fuel adj) _ _ _) as [r'|] eqn:E; [|done].
  by rewrite (dfs_deps_mono _ (dfsVisit fuel' adj) _ _ _ _ (fun d st r => IH fuel' d st r ltac:(lia)) E).
Qed.

Lemma visit_all_mono fuel fuel' adj ids st r :
  (fuel <= fuel')%nat -> visit_all fuel adj ids st = Some r -> visit_all fuel' adj ids st = Some r.
Proof.
  intros Hle. revert st. induction ids as [|id ids IH]; cbn; intros st H; [done|].
  case_decide; [|eauto]. destruct (dfsVisit fuel adj id st) as [[b st']|] eqn:E; [|done].
  rewrite (dfsVisit_mono _ _ _ _ _ _ Hle E). destruct b; eauto.
Qed.

Lemma topologicalSort_fuel_mono fuel fuel' ds r :
  (fuel <= fuel')%nat -> topologicalSort_fuel fuel ds = Some r -> topologicalSort_fuel fuel' ds = Some r.
Proof.
  intros Hle. unfold topologicalSort_fuel. destruct (missing_of ds); [|done].
  destruct (visit_all fuel _ _ _) as [r'|] eqn:E; [|done].
  by rewrite (visit_all_mono _ _ _ _ _ _ Hle E).
Qed.

(** ** Theorems *)

(** The sort terminates: with the fuel it is given the search always
    reaches an answer, and no more fuel changes it. *)
Theorem topologicalSort_total ds fuel :
  (length (id_set ds) <= fuel)%nat ->
  topologicalSort_fuel fuel ds = Some (topologicalSortRuntimes ds).
Proof.
  intros Hf. apply (topologicalSort_fuel_mono (length (id_set ds))); [done|].
  unfold topologicalSortRuntimes.
  by destruct (topologicalSort_fuel_spec (length (id_set ds)) ds (Nat.le_refl _)) as (r & -> & _).
Qed.

(** The bootstrap order is right. Missing dependencies are exactly the
    pairs that name an absent runtime and then nothing is ordered; otherwise the
    sort reports a cycle exactly when the dependency graph has one, and without
    one it lists every runtime once, each after all it depends on. *)
Theorem topologicalSortRuntimes_correct ds :
  let r := topologicalSortRuntimes ds in
  let adj := adjacency_of ds in
  (forall x y, (x, y) ∈ missingDependencies r <->
     exists d, d ∈ ds /\ desc_id d = x /\ y ∈ desc_dependsOn d /\ y ∉ desc_id <$> ds)
  /\ (missingDependencies r <> [] -> order r = [] /\ hasCycle r = false)
  /\ (missingDependencies r = [] ->
      (hasCycle r = true <-> cyclic adj)
      /\ (hasCycle r = true -> order r = [])
      /\ (hasCycle r = false ->
          NoDup (order r) /\ (forall x, x ∈ order r <-> x ∈ desc_id <$> ds) /\ respects adj (order r))).
Proof.
  intros r adj. unfold r, topologicalSortRuntimes.
  destruct (topologicalSort_fuel_spec (length (id_set ds)) ds (Nat.le_refl _))
    as (r' & -> & Hmiss & Hm & Hok). cbn. rewrite Hmiss. split.
  { intros x y. rewrite missing_of_elem. unfold id_set. by setoid_rewrite js_set_of_elem. }
  split; [done|]. intros Hnil. specialize (Hok Hnil). fold adj in Hok.
  destruct (hasCycle r'); [naive_solver|]. destruct Hok as (Hperm & Hresp & Hacyc).
  split; [naive_solver|]. split; [done|]. intros _. split; [|split; [|done]].
  - rewrite Hperm. apply js_set_of_NoDup.
  - intros x. rewrite Hperm. apply js_set_of_elem.
Qed.

(** ** Concrete graphs *)
Definition demo_desc (n : nat) (id : string) (deps : list string) : MobileRuntimeDescriptor :=
  {| desc_ref := n; desc_id := id; desc_title := id; desc_dependsOn := deps |}.

Definition demo_graph : list MobileRuntimeDescriptor :=
  [demo_desc 0 "social" ["session"; "messaging"]; demo_desc 1 "messaging" ["session"];
   demo_desc 2 "session" []].

Example demo_order : order (topologicalSortRuntimes demo_graph) = ["session"; "messaging"; "social"]%string.
Proof. reflexivity. Qed.

Example demo_cycle :
  topologicalSortRuntimes [demo_desc 0 "a" ["b"]; demo_desc 1 "b" ["c"]; demo_desc 2 "c" ["b"]] =
  {| order := []; hasCycle := true; cycleParticipants := ["c"; "b"; "a"]%string;
     missingDependencies := [] |}.
Proof. reflexivity. Qed.

Lemma topologicalSort_total_witness :
  (length (id_set demo_graph) = 3)%nat
  /\ topologicalSort_fuel 7 demo_graph = Some (topologicalSortRuntimes demo_graph).
Proof. split; [reflexivity|]. apply (topologicalSort_total demo_graph 7). cbv. lia. Defined.
