(* ===== verification/MobileReducer.v ===== *)
(** * The lifecycle reducer and the derived availability

    Models [apps/mobile/src/app/lifecycle/lifecycleReducer.ts] (every state write of
    the kernel goes through [lifecycleReducer]) and
    [apps/mobile/src/app/lifecycle/runtimeAvailability.ts]. *)
From stdpp Require Import base strings list relations.
From S2P Require Import Prelude MobileTypes TopoSort.

Inductive LifecycleAction : Set :=
| REGISTER_RUNTIMES (descriptors : list MobileRuntimeDescriptor) (order : list string)
| SET_LAUNCH_STATE (l : MobileLaunchState)
| SET_GENERATION (g : Z)
| BEGIN_BOOTSTRAP
| RUNTIME_BOOTSTRAPPING (runtimeId : string)
| RUNTIME_READY (runtimeId : string)
| RUNTIME_FAILED (runtimeId : string) (err : string)
| RUNTIME_READINESS (runtimeId : string) (readiness : RuntimeReadiness)
| BOOTSTRAP_COMPLETE (results : list RuntimeOperationResult)
| BEGIN_SUSPEND
| RUNTIME_SUSPENDED (runtimeId : string)
| RUNTIME_SUSPEND_FAILED (runtimeId : string) (err : string)
| SUSPEND_COMPLETE (err : option string)
| BEGIN_RESUME
| RUNTIME_RESUMING (runtimeId : string)
| RUNTIME_RESUMED (runtimeId : string)
| RUNTIME_RESUME_FAILED (runtimeId : string) (err : string)
| RESUME_COMPLETE (err : option string)
| BEGIN_TEARDOWN
| RUNTIME_TEARING_DOWN (runtimeId : string)
| RUNTIME_TORN_DOWN (runtimeId : string)
| RUNTIME_TEARDOWN_FAILED (runtimeId : string) (err : string)
| TEARDOWN_COMPLETE (result : AggregateTeardownResult)
| SET_ERROR (err : string).

Definition initialLifecycleState (gen : Z) (launch : MobileLaunchState) : LifecycleKernelState :=
  {| phase := COLD; launchState := launch; generation := gen; runtimes := ∅;
     bootOrder := []; error := None |}.

(** Record updates of the state. *)
Definition with_phase (p : LifecyclePhase) (s : LifecycleKernelState) : LifecycleKernelState :=
  {| phase := p; launchState := launchState s; generation := generation s; runtimes := runtimes s;
     bootOrder := bootOrder s; error := error s |}.

Definition with_error (e : option string) (s : LifecycleKernelState) : LifecycleKernelState :=
  {| phase := phase s; launchState := launchState s; generation := generation s; runtimes := runtimes s;
     bootOrder := bootOrder s; error := e |}.

Definition with_runtimes (r : jsmap RuntimeEntry) (s : LifecycleKernelState) : LifecycleKernelState :=
  {| phase := phase s; launchState := launchState s; generation := generation s; runtimes := r;
     bootOrder := bootOrder s; error := error s |}.

(** The patch object of [updateRuntimeEntry]: an absent field keeps the old value,
    while [lastError] and [readiness] may also be set to [null]. *)
Record EntryPatch : Set := {
  patch_status : option RuntimeBootstrapStatus;
  patch_lastError : option (option string);
  patch_readiness : option (option RuntimeReadiness)
}.

Definition apply_patch (patch : EntryPatch) (existing : RuntimeEntry) : RuntimeEntry :=
  {| re_descriptor := re_descriptor existing;
     re_status := default (re_status existing) (patch_status patch);
     re_lastError := default (re_lastError existing) (patch_lastError patch);
     re_readiness := default (re_readiness existing) (patch_readiness patch) |}.

Definition updateRuntimeEntry (s : LifecycleKernelState) (runtimeId : string) (patch : EntryPatch)
  : LifecycleKernelState :=
  match runtimes s !! runtimeId with
  | None => s
  | Some existing => with_runtimes (<[runtimeId := apply_patch patch existing]> (runtimes s)) s
  end.

Definition updateRuntimeStatus (s : LifecycleKernelState) (runtimeId : string)
  (status : RuntimeBootstrapStatus) : LifecycleKernelState :=
  updateRuntimeEntry s runtimeId
    {| patch_status := Some status; patch_lastError := Some None; patch_readiness := None |}.

(** The patch that sets a status and an error. *)
Definition status_error (status : RuntimeBootstrapStatus) (err : string) : EntryPatch :=
  {| patch_status := Some status; patch_lastError := Some (Some err); patch_readiness := None |}.

Definition new_entry (d : MobileRuntimeDescriptor) : RuntimeEntry :=
  {| re_descriptor := d; re_status := st_pending; re_lastError := None; re_readiness := None |}.

Definition register_entries (descriptors : list MobileRuntimeDescriptor) : jsmap RuntimeEntry :=
  fold_left (fun m d => <[desc_id d := new_entry d]> m) descriptors ∅.

(** [error ? a : b] on an optional string. *)
Definition truthy_opt (e : option string) : bool :=
  match e with Some s => truthy s | None => false end.

Definition lifecycleReducer (s : LifecycleKernelState) (action : LifecycleAction) : LifecycleKernelState :=
  match action with
  | SET_LAUNCH_STATE l =>
      {| phase := phase s; launchState := l; generation := generation s; runtimes := runtimes s;
         bootOrder := bootOrder s; error := error s |}
  | SET_GENERATION g =>
      {| phase := phase s; launchState := launchState s; generation := g; runtimes := runtimes s;
         bootOrder := bootOrder s; error := error s |}
  | REGISTER_RUNTIMES descriptors order =>
      {| phase := phase s; launchState := launchState s; generation := generation s;
         runtimes := register_entries descriptors; bootOrder := order; error := None |}
  | BEGIN_BOOTSTRAP => with_error None (with_phase BOOTSTRAPPING s)
  | RUNTIME_BOOTSTRAPPING id => updateRuntimeStatus s id st_bootstrapping
  | RUNTIME_READY id => updateRuntimeStatus s id st_ready
  | RUNTIME_FAILED id err => updateRuntimeEntry s id (status_error st_failed err)
  | RUNTIME_READINESS id readiness =>
      updateRuntimeEntry s id
        {| patch_status := None; patch_lastError := None; patch_readiness := Some (Some readiness) |}
  | BOOTSTRAP_COMPLETE _ => with_phase ACTIVE s
  | BEGIN_SUSPEND => with_phase SUSPENDING s
  | RUNTIME_SUSPENDED id => updateRuntimeStatus s id st_suspended
  | RUNTIME_SUSPEND_FAILED id err => updateRuntimeEntry s id (status_error st_suspended err)
  | SUSPEND_COMPLETE err => with_error err (with_phase SUSPENDED s)
  | BEGIN_RESUME => with_phase RESUMING s
  | RUNTIME_RESUMING id =>
      updateRuntimeEntry s id
        {| patch_status := Some st_resuming; patch_lastError := Some None; patch_readiness := Some None |}
  | RUNTIME_RESUMED id => updateRuntimeStatus s id st_ready
  | RUNTIME_RESUME_FAILED id err => updateRuntimeEntry s id (status_error st_suspended err)
  | RESUME_COMPLETE err =>
      with_error err (with_phase (if truthy_opt err then SUSPENDED else ACTIVE) s)
  | BEGIN_TEARDOWN => with_phase TEARDOWN s
  | RUNTIME_TEARING_DOWN id => updateRuntimeStatus s id st_tearing_down
  | RUNTIME_TORN_DOWN id => updateRuntimeStatus s id st_torn_down
  | RUNTIME_TEARDOWN_FAILED id err => updateRuntimeEntry s id (status_error st_failed err)
  | TEARDOWN_COMPLETE result =>
      with_error (if agg_allSuccessful result then None else Some "mobile.lifecycle.teardownIncomplete"%string)
        (with_phase (if agg_allSuccessful result then COLD else TEARDOWN_FAILED) s)
  | SET_ERROR err => with_error (Some err) s
  end.

(** ** Transition tables *)
Definition VALID_TRANSITIONS (from : LifecyclePhase) : list LifecyclePhase :=
  match from with
  | COLD => [BOOTSTRAPPING]
  | BOOTSTRAPPING => [ACTIVE; TEARDOWN]
  | ACTIVE => [SUSPENDING; TEARDOWN]
  | SUSPENDING => [SUSPENDED; TEARDOWN]
  | SUSPENDED => [RESUMING; TEARDOWN]
  | RESUMING => [ACTIVE; TEARDOWN]
  | TEARDOWN => [COLD; TEARDOWN_FAILED]
  | TEARDOWN_FAILED => [TEARDOWN]
  end.

Definition isValidPhaseTransition (from to : LifecyclePhase) : bool :=
  bool_decide (to ∈ VALID_TRANSITIONS from).

Definition VALID_LAUNCH_TRANSITIONS (from : MobileLaunchState) : list MobileLaunchState :=
  match from with
  | app_boot => [station_selection]
  | station_selection => [station_handshake; runtime_critical]
  | station_handshake => [station_selection; access_gate_chain; runtime_critical]
  | access_gate_chain => [station_selection; station_handshake; runtime_critical]
  | runtime_critical => [station_selection; access_gate_chain; shell]
  | shell => [station_change; logout; background]
  | station_change => [station_selection]
  | logout => [station_selection; station_handshake; access_gate_chain]
  | background => [resume_launch]
  | resume_launch => [station_selection; access_gate_chain; runtime_critical; shell]
  end.

Definition isValidLaunchStateTransition (from to : MobileLaunchState) : bool :=
  if decide (from = to) then true else bool_decide (to ∈ VALID_LAUNCH_TRANSITIONS from).

(** ** Availability *)
Definition publicRuntimeErrorKey (err : string) : string :=
  if starts_with "mobile.lifecycle." err then err else "mobile.lifecycle.runtimeFailed"%string.

(** [error ? publicRuntimeErrorKey(error) : null]. *)
Definition public_error_opt (err : option string) : option string :=
  match err with
  | Some e => if truthy e then Some (publicRuntimeErrorKey e) else None
  | None => None
  end.

Definition snapshot (id : string) (status : RuntimeBootstrapStatus) (errorKey : option string)
  : RuntimeLifecycleSnapshot :=
  {| snap_id := id; snap_status := status; snap_errorKey := errorKey |}.

(** The status a runtime shows for a dependency that is not available. *)
Definition dependency_status (dependency : option RuntimeLifecycleSnapshot) : RuntimeBootstrapStatus :=
  match snap_status <$> dependency with
  | Some st_pending | Some st_bootstrapping | Some st_resuming => st_bootstrapping
  | _ => st_failed
  end.

(** The loop over [dependsOn]; [read] is the recursive call. *)
Fixpoint check_dependencies (read : string -> option (option RuntimeLifecycleSnapshot))
  (runtimeId : string) (result : RuntimeLifecycleSnapshot) (dependsOn : list string)
  : option (option RuntimeLifecycleSnapshot) :=
  match dependsOn with
  | [] => Some (Some result)
  | dependencyId :: rest =>
      match read dependencyId with
      | None => None
      | Some dependency =>
          if decide (snap_status <$> dependency = Some st_ready)
          then check_dependencies read runtimeId result rest
          else Some (Some (snapshot runtimeId (dependency_status dependency)
                 (Some ("mobile.lifecycle.dependencyFailed:" ++ dependencyId)%string)))
      end
  end.

(** With explicit fuel: [None] when the recursion is deeper than the fuel. *)
Fixpoint availability_fuel (fuel : nat) (s : LifecycleKernelState) (runtimeId : string)
  : option (option RuntimeLifecycleSnapshot) :=
  match fuel with
  | O => None
  | S fuel =>
      match runtimes s !! runtimeId with
      | None => Some None
      | Some entry =>
          let result := snapshot runtimeId (re_status entry) (public_error_opt (re_lastError entry)) in
          if decide (re_status entry <> st_ready) then Some (Some result)
          else
            match re_readiness entry with
            | Some {| rd_status := rd_pending; rd_errorKey := key |} =>
                Some (Some (snapshot runtimeId st_bootstrapping key))
            | Some {| rd_status := rd_failed; rd_errorKey := key |} =>
                Some (Some (snapshot runtimeId st_failed key))
            | _ => check_dependencies (availability_fuel fuel s) runtimeId result
                     (desc_dependsOn (re_descriptor entry))
            end
      end
  end.

(** The call stack overflows only on a dependency cycle, which
    [availability_defined] excludes for a well-formed state; a chain of
    dependencies visits each registered runtime at most once. *)
Definition readRuntimeAvailability (s : LifecycleKernelState) (runtimeId : string)
  : result (option RuntimeLifecycleSnapshot) :=
  match availability_fuel (S (length (bootOrder s))) s runtimeId with
  | Some r => Ok r
  | None => Err "Maximum call stack size exceeded"
  end.

(** ** Well-formed states *)

(** The order lists each registered runtime once, a runtime comes after all it
    depends on, entries are stored under the id of their descriptor, and a ready
    runtime has no error. *)
Record kernel_wf (s : LifecycleKernelState) : Prop := {
  kw_map : jm_wf (runtimes s);
  kw_nodup : NoDup (bootOrder s);
  kw_dom : forall id, id ∈ bootOrder s <-> is_Some (runtimes s !! id);
  kw_id : forall id e, runtimes s !! id = Some e -> desc_id (re_descriptor e) = id;
  kw_order : forall l1 id l2 e, bootOrder s = l1 ++ id :: l2 -> runtimes s !! id = Some e ->
             forall dep, dep ∈ desc_dependsOn (re_descriptor e) -> dep ∈ l1;
  kw_ready : forall id e, runtimes s !! id = Some e -> re_status e = st_ready -> re_lastError e = None
}.

(** The graph that [registerRuntimes] accepts. *)
Definition sorted_graph (descriptors : list MobileRuntimeDescriptor) (order : list string) : Prop :=
  NoDup (desc_id <$> descriptors)
  /\ missingDependencies (topologicalSortRuntimes descriptors) = []
  /\ hasCycle (topologicalSortRuntimes descriptors) = false
  /\ order = TopoSort.order (topologicalSortRuntimes descriptors).

(** An action is well-formed when the graph it registers is one the kernel accepts. *)
Definition action_wf (action : LifecycleAction) : Prop :=
  match action with
  | REGISTER_RUNTIMES descriptors order => sorted_graph descriptors order
  | _ => True
  end.

Lemma register_entries_lookup_acc ds (m : jsmap RuntimeEntry) id e :
  NoDup (desc_id <$> ds) ->
  fold_left (fun m d => <[desc_id d := new_entry d]> m) ds m !! id = Some e ->
  (exists d, d ∈ ds /\ desc_id d = id /\ e = new_entry d) \/ ((id ∉ desc_id <$> ds) /\ m !! id = Some e).
Proof.
  revert m. induction ds as [|d ds IH]; cbn [fold_left]; intros m Hnd Hl; [right; set_solver|].
  rewrite fmap_cons in Hnd. apply NoDup_cons in Hnd as [Hni Hnd].
  destruct (IH _ Hnd Hl) as [(d' & Hd & ?)|[Hni' Hm]].
  - left. exists d'. split; [by right|done].
  - rewrite jm_lookup_set in Hm. case_decide; simplify_eq.
    + left. exists d. split; [left|done].
    + right. split; [|done]. rewrite fmap_cons, elem_of_cons. naive_solver.
Qed.

Lemma register_entries_lookup ds id e :
  NoDup (desc_id <$> ds) -> register_entries ds !! id = Some e ->
  exists d, d ∈ ds /\ desc_id d = id /\ e = new_entry d.
Proof. intros Hnd Hl. destruct (register_entries_lookup_acc ds ∅ id e Hnd Hl) as [?|[? ?]]; done. Qed.

Lemma register_entries_dom_acc ds (m : jsmap RuntimeEntry) id :
  is_Some (fold_left (fun m d => <[desc_id d := new_entry d]> m) ds m !! id) <->
  id ∈ desc_id <$> ds \/ is_Some (m !! id).
Proof.
  revert m. induction ds as [|d ds IH]; cbn [fold_left]; intros m; [set_solver|].
  rewrite IH, fmap_cons, elem_of_cons, jm_lookup_set. case_decide; naive_solver.
Qed.

Lemma register_entries_wf ds : jm_wf (register_entries ds).
Proof.
  unfold register_entries. generalize (jm_wf_empty (V := RuntimeEntry)).
  generalize (∅ : jsmap RuntimeEntry). induction ds; cbn [fold_left]; eauto with jsmap.
Qed.

Lemma register_wf s ds ord : sorted_graph ds ord -> kernel_wf (lifecycleReducer s (REGISTER_RUNTIMES ds ord)).
Proof.
  intros (Hnd & Hm & Hc & ->). destruct (topologicalSort_sorted ds Hm Hc) as [Hperm Hresp].
  unfold id_set in Hperm. rewrite (js_set_of_nodup_id _ Hnd) in Hperm.
  constructor; cbn [lifecycleReducer runtimes bootOrder].
  - apply register_entries_wf.
  - by rewrite Hperm.
  - intros id. rewrite Hperm. unfold register_entries. rewrite register_entries_dom_acc.
    split; [by left|]. by intros [?|[? ?]].
  - intros id e He. destruct (register_entries_lookup _ _ _ Hnd He) as (d & _ & <- & ->). done.
  - intros l1 id l2 e Heq He dep Hdep.
    destruct (register_entries_lookup _ _ _ Hnd He) as (d & Hd & <- & ->).
    apply (Hresp l1 (desc_id d) l2 Heq). unfold depends, deps_of.
    by rewrite (adjacency_of_nodup _ _ Hnd Hd).
  - intros id e He. by destruct (register_entries_lookup _ _ _ Hnd He) as (d & _ & <- & ->).
Qed.

(** A patch is safe when it does not leave an error on a ready runtime. *)
Definition patch_ok (patch : EntryPatch) : Prop :=
  match patch_status patch with
  | Some st_ready => patch_lastError patch = Some None
  | Some _ => True
  | None => patch_lastError patch = None
  end.

Lemma updateRuntimeEntry_wf s id patch : patch_ok patch -> kernel_wf s -> kernel_wf (updateRuntimeEntry s id patch).
Proof.
  intros Hp Hwf. unfold updateRuntimeEntry. destruct (runtimes s !! id) as [e|] eqn:He; [|done].
  destruct Hwf as [Hmap Hnd Hdom Hid Hord Hready].
  constructor; cbn [with_runtimes runtimes bootOrder]; eauto with jsmap.
  - intros k. rewrite Hdom, jm_lookup_set. case_decide; subst; naive_solver.
  - intros k e'. rewrite jm_lookup_set. case_decide; [|apply Hid]. intros [= <-]; subst. by apply (Hid _ e).
  - intros l1 k l2 e' Heq. rewrite jm_lookup_set. case_decide; [|by apply (Hord l1 k l2)].
    intros [= <-]; subst. by apply (Hord l1 k l2 e Heq).
  - intros k e'. rewrite jm_lookup_set. case_decide; [|apply Hready]. intros [= <-]; subst.
    unfold patch_ok in Hp. cbn. destruct (patch_status patch) as [[]|]; cbn; intros Hst; simplify_eq; rewrite Hp; cbn; eauto.
Qed.

Lemma same_graph_wf s s' :
  runtimes s' = runtimes s -> bootOrder s' = bootOrder s -> kernel_wf s -> kernel_wf s'.
Proof. intros Hr Hb [? ? ? ? ? ?]. constructor; rewrite ?Hr, ?Hb; assumption. Qed.

Lemma reducer_wf s a : action_wf a -> kernel_wf s -> kernel_wf (lifecycleReducer s a).
Proof.
  intros Ha Hwf. destruct a; cbn [lifecycleReducer]; unfold updateRuntimeStatus;
    try (by apply updateRuntimeEntry_wf); try (by eapply same_graph_wf; [..|exact Hwf]).
  by apply register_wf.
Qed.

Lemma reducer_fold_wf actions s :
  Forall action_wf actions -> kernel_wf s -> kernel_wf (fold_left lifecycleReducer actions s).
Proof. intros Ha. revert s. induction Ha; cbn [fold_left]; eauto using reducer_wf. Qed.

Lemma initial_wf g l : kernel_wf (initialLifecycleState g l).
Proof.
  constructor; cbn; try (by intros []); try apply NoDup_nil_2; try done.
  intros id. split; [by intros ?%not_elem_of_nil | by intros []].
Qed.

#[export] Hint Resolve initial_wf : jsmap.

(** ** Availability: specification and proof *)

(** A runtime is available when it is ready, has not announced that its own data is
    pending or failed, and all it depends on is available. *)
Inductive available (s : LifecycleKernelState) : string -> Prop :=
| available_intro id e :
    runtimes s !! id = Some e -> re_status e = st_ready ->
    (forall r, re_readiness e = Some r -> rd_status r = rd_ready) ->
    (forall dep, dep ∈ desc_dependsOn (re_descriptor e) -> available s dep) ->
    available s id.

(** What a caller may rely on for the answer about [id]. *)
Record availability_spec (s : LifecycleKernelState) (id : string)
  (r : option RuntimeLifecycleSnapshot) : Prop := {
  as_none : r = None <-> runtimes s !! id = None;
  as_id : forall snap, r = Some snap -> snap_id snap = id;
  as_ready : snap_status <$> r = Some st_ready <-> available s id;
  as_key : forall snap, r = Some snap -> snap_status snap = st_ready -> snap_errorKey snap = None;
  as_dep : forall snap e, r = Some snap -> runtimes s !! id = Some e -> re_status e = st_ready ->
    (forall rd, re_readiness e = Some rd -> rd_status rd = rd_ready) -> ~ available s id ->
    exists pre dep post, desc_dependsOn (re_descriptor e) = pre ++ dep :: post
      /\ ~ available s dep /\ (forall x, x ∈ pre -> available s x)
      /\ snap_errorKey snap = Some ("mobile.lifecycle.dependencyFailed:" ++ dep)%string
      /\ (snap_status snap = st_bootstrapping \/ snap_status snap = st_failed)
}.

Lemma dependency_status_cases d : dependency_status d = st_bootstrapping \/ dependency_status d = st_failed.
Proof. unfold dependency_status. destruct (snap_status <$> d) as [[]|]; tauto. Qed.

Lemma check_dependencies_spec s read id result deps :
  (forall dep, dep ∈ deps -> exists r, read dep = Some r /\ availability_spec s dep r) ->
  (check_dependencies read id result deps = Some (Some result) /\ forall dep, dep ∈ deps -> available s dep)
  \/ (exists pre dep post snap, deps = pre ++ dep :: post /\ ~ available s dep
       /\ (forall x, x ∈ pre -> available s x)
       /\ check_dependencies read id result deps = Some (Some snap) /\ snap_id snap = id
       /\ snap_errorKey snap = Some ("mobile.lifecycle.dependencyFailed:" ++ dep)%string
       /\ (snap_status snap = st_bootstrapping \/ snap_status snap = st_failed)).
Proof.
  induction deps as [|d deps IH]; intros Hread; cbn [check_dependencies].
  { left. split; [done|]. by intros ? ?%elem_of_nil. }
  destruct (Hread d (list_elem_of_here _ _)) as (r & -> & Hr). case_decide as Hst.
  - apply (as_ready _ _ _ Hr) in Hst.
    destruct IH as [[-> Hall]|(pre & dep & post & snap & -> & Hdep & Hpre & Hrest)].
    + intros dep Hdep. apply Hread. by right.
    + left. split; [done|]. by intros dep [->|?]%elem_of_cons; [|apply Hall].
    + right. exists (d :: pre), dep, post, snap. split; [done|]. split; [done|]. split; [|done].
      by intros x [->|?]%elem_of_cons; [|apply Hpre].
  - right. exists [], d, deps, (snapshot id (dependency_status r)
      (Some ("mobile.lifecycle.dependencyFailed:" ++ d)%string)).
    rewrite (as_ready _ _ _ Hr) in Hst.
    repeat split; try done; [by intros ? ?%elem_of_nil | apply dependency_status_cases].
Qed.

Lemma available_iff s id e :
  runtimes s !! id = Some e ->
  available s id <-> re_status e = st_ready
    /\ (forall r, re_readiness e = Some r -> rd_status r = rd_ready)
    /\ (forall dep, dep ∈ desc_dependsOn (re_descriptor e) -> available s dep).
Proof. intros He. split; [inversion 1; simplify_eq; tauto | intros (?&?&?); by apply (available_intro s id e)]. Qed.

(** The three ways the answer for a registered runtime is made. *)
Lemma spec_not_ready s id e key :
  runtimes s !! id = Some e -> re_status e <> st_ready ->
  availability_spec s id (Some (snapshot id (re_status e) key)).
Proof.
  intros He Hst. pose proof (available_iff _ _ _ He) as Hav. constructor; cbn.
  - by rewrite He.
  - by intros ? [= <-].
  - rewrite Hav. split; [by intros [=]|]. by intros (? & _).
  - by intros ? [= <-] ?.
  - intros ? e' _ He'. rewrite He in He'. by injection He' as <-.
Qed.

Lemma spec_readiness s id e r st key :
  runtimes s !! id = Some e -> re_readiness e = Some r -> rd_status r <> rd_ready -> st <> st_ready ->
  availability_spec s id (Some (snapshot id st key)).
Proof.
  intros He Hr Hn Hst. pose proof (available_iff _ _ _ He) as Hav. constructor; cbn.
  - by rewrite He.
  - by intros ? [= <-].
  - rewrite Hav. split; [by intros [=]|]. intros (_ & H & _). by destruct Hn, (H _ Hr).
  - by intros ? [= <-] ?.
  - intros ? e' _ He'. rewrite He in He'. injection He' as <-. intros _ H. by destruct Hn, (H _ Hr).
Qed.

Lemma spec_dependencies s id e read :
  runtimes s !! id = Some e -> re_status e = st_ready ->
  (forall r, re_readiness e = Some r -> rd_status r = rd_ready) ->
  (forall dep, dep ∈ desc_dependsOn (re_descriptor e) ->
     exists r, read dep = Some r /\ availability_spec s dep r) ->
  exists r, check_dependencies read id (snapshot id st_ready None) (desc_dependsOn (re_descriptor e)) = Some r
    /\ availability_spec s id r.
Proof.
  intros He Hst Hrd Hread. pose proof (available_iff _ _ _ He) as Hav.
  destruct (check_dependencies_spec s read id (snapshot id st_ready None) _ Hread)
    as [[-> Hall]|(pre & dep & post & snap & Hd & Hdep & Hpre & -> & Hid & Hkey & Hstat)];
    (eexists; split; [done|]); constructor; cbn.
  - by rewrite He.
  - by intros ? [= <-].
  - rewrite Hav. tauto.
  - by intros ? [= <-] _.
  - intros ? e' _ He' _ _ []. apply Hav. tauto.
  - by rewrite He.
  - by intros ? [= <-].
  - rewrite Hav. split; [intros [=]; destruct Hstat; congruence|].
    intros (_ & _ & H). destruct Hdep. apply H. rewrite Hd. set_solver.
  - intros ? [= <-] ?. destruct Hstat; congruence.
  - intros ? e' [= <-] He' _ _ _. rewrite He in He'. injection He' as <-. by exists pre, dep, post.
Qed.

Lemma availability_fuel_spec s fuel : kernel_wf s ->
  forall l1 id l2, bootOrder s = l1 ++ id :: l2 -> (length l1 < fuel)%nat ->
  exists r, availability_fuel fuel s id = Some r /\ availability_spec s id r.
Proof.
  intros Hwf. induction fuel as [|fuel IH]; intros l1 id l2 Hord Hlen; [lia|].
  assert (is_Some (runtimes s !! id)) as [e He].
  { apply (kw_dom _ Hwf). rewrite Hord. set_solver. }
  assert (Hread : forall dep, dep ∈ desc_dependsOn (re_descriptor e) ->
            exists r, availability_fuel fuel s dep = Some r /\ availability_spec s dep r).
  { intros dep Hdep. pose proof (kw_order _ Hwf _ _ _ _ Hord He _ Hdep) as Hin.
    apply list_elem_of_split in Hin as (k1 & k2 & ->).
    apply (IH k1 dep (k2 ++ id :: l2)); [by rewrite Hord, <- (assoc_L (++))|].
    rewrite length_app in Hlen. cbn in Hlen. lia. }
  cbn [availability_fuel]. rewrite He. case_decide as Hst.
  { eexists. split; [done|]. by apply spec_not_ready. }
  rewrite (kw_ready _ Hwf _ _ He Hst), Hst. cbn [public_error_opt].
  destruct (re_readiness e) as [[[] key diag]|] eqn:Hrd.
  - eexists. split; [done|]. by eapply spec_readiness.
  - apply spec_dependencies; try done. by rewrite Hrd; intros ? [= <-].
  - eexists. split; [done|]. by eapply spec_readiness.
  - apply spec_dependencies; try done. by rewrite Hrd.
Qed.

Lemma availability_defined s id : kernel_wf s ->
  exists r, readRuntimeAvailability s id = Ok r /\ availability_spec s id r.
Proof.
  intros Hwf. unfold readRuntimeAvailability.
  destruct (decide (id ∈ bootOrder s)) as [Hin|Hni].
  - apply list_elem_of_split in Hin as (l1 & l2 & Hord).
    destruct (availability_fuel_spec s (S (length (bootOrder s))) Hwf l1 id l2 Hord) as (r & -> & Hr).
    + rewrite Hord, length_app. cbn. lia.
    + eauto.
  - assert (Hn : runtimes s !! id = None).
    { apply eq_None_not_Some. by rewrite <- (kw_dom _ Hwf). }
    cbn [availability_fuel]. rewrite Hn. eexists. split; [done|]. constructor; cbn; try done.
    split; [done|]. inversion 1; simplify_eq.
Qed.

(** ** Theorems *)

(** The runtime an action is about. *)
Definition action_runtime (a : LifecycleAction) : option string :=
  match a with
  | RUNTIME_BOOTSTRAPPING id | RUNTIME_READY id | RUNTIME_FAILED id _ | RUNTIME_READINESS id _
  | RUNTIME_SUSPENDED id | RUNTIME_SUSPEND_FAILED id _ | RUNTIME_RESUMING id | RUNTIME_RESUMED id
  | RUNTIME_RESUME_FAILED id _ | RUNTIME_TEARING_DOWN id | RUNTIME_TORN_DOWN id
  | RUNTIME_TEARDOWN_FAILED id _ => Some id
  | _ => None
  end.

(** The status a runtime action writes. *)
Definition action_status (a : LifecycleAction) : option RuntimeBootstrapStatus :=
  match a with
  | RUNTIME_BOOTSTRAPPING _ => Some st_bootstrapping
  | RUNTIME_READY _ | RUNTIME_RESUMED _ => Some st_ready
  | RUNTIME_FAILED _ _ | RUNTIME_TEARDOWN_FAILED _ _ => Some st_failed
  | RUNTIME_SUSPENDED _ | RUNTIME_SUSPEND_FAILED _ _ | RUNTIME_RESUME_FAILED _ _ => Some st_suspended
  | RUNTIME_RESUMING _ => Some st_resuming
  | RUNTIME_TEARING_DOWN _ => Some st_tearing_down
  | RUNTIME_TORN_DOWN _ => Some st_torn_down
  | _ => None
  end.

(** The frame of an action: the graph and every other runtime stay. *)
Definition same_but_runtime (id : string) (s s' : LifecycleKernelState) : Prop :=
  phase s' = phase s /\ launchState s' = launchState s /\ generation s' = generation s
  /\ error s' = error s /\ bootOrder s' = bootOrder s /\ jm_keys (runtimes s') = jm_keys (runtimes s)
  /\ forall k, k <> id -> runtimes s' !! k = runtimes s !! k.

Lemma updateRuntimeEntry_frame s id patch e :
  runtimes s !! id = Some e ->
  same_but_runtime id s (updateRuntimeEntry s id patch)
  /\ runtimes (updateRuntimeEntry s id patch) !! id = Some (apply_patch patch e).
Proof.
  intros He. unfold updateRuntimeEntry. rewrite He. split.
  - repeat split; cbn; [by apply jm_keys_set_present|]. intros k Hk. by rewrite jm_lookup_set_ne.
  - cbn. by rewrite jm_lookup_set_eq.
Qed.

(** An action about a runtime writes that runtime and nothing else:
    phase, launch state, generation, order, registration order and all other
    runtimes are unchanged, the descriptor is kept and the status is the one of the
    action; for an unregistered id the state is returned unchanged. *)
Lemma lifecycleReducer_runtime_frame s a id :
  action_runtime a = Some id ->
  match runtimes s !! id with
  | None => lifecycleReducer s a = s
  | Some e =>
      same_but_runtime id s (lifecycleReducer s a)
      /\ exists e', runtimes (lifecycleReducer s a) !! id = Some e'
           /\ re_descriptor e' = re_descriptor e
           /\ re_status e' = default (re_status e) (action_status a)
  end.
Proof.
  intros Ha. destruct (runtimes s !! id) as [e|] eqn:He.
  - destruct a; simplify_eq/=; unfold updateRuntimeStatus;
      match goal with |- context [updateRuntimeEntry s id ?p] =>
        destruct (updateRuntimeEntry_frame s id p e He) as [? ->] end; eauto.
  - destruct a; simplify_eq/=; unfold updateRuntimeStatus, updateRuntimeEntry; by rewrite He.
Qed.

(** Whatever actions the kernel dispatches, in any order, the state
    stays well-formed, provided a registered graph is one the sort accepts: the boot
    order lists each registered runtime once and after its dependencies, and a ready
    runtime never carries an error. *)
Theorem lifecycleReducer_wf g l actions :
  Forall action_wf actions -> kernel_wf (fold_left lifecycleReducer actions (initialLifecycleState g l)).
Proof. intros Ha. apply reducer_fold_wf; [done | apply initial_wf]. Qed.

(** On a well-formed state the availability of a runtime is always
    defined (the recursion over dependencies ends), it is [ready] exactly when the
    runtime and all it transitively depends on are ready with their own data ready,
    an available runtime shows no error, and a runtime that is ready itself names
    the first dependency in its list that is not available. *)
Theorem readRuntimeAvailability_correct s id :
  kernel_wf s -> exists r, readRuntimeAvailability s id = Ok r /\ availability_spec s id r.
Proof. apply availability_defined. Qed.

(** ** Concrete states *)
Definition demo_actions : list LifecycleAction :=
  [REGISTER_RUNTIMES demo_graph ["session"; "messaging"; "social"]; BEGIN_BOOTSTRAP;
   RUNTIME_BOOTSTRAPPING "session"; RUNTIME_READY "session";
   RUNTIME_BOOTSTRAPPING "messaging"; RUNTIME_READY "messaging";
   RUNTIME_BOOTSTRAPPING "social"; RUNTIME_READY "social";
   RUNTIME_READINESS "session" {| rd_status := rd_pending; rd_errorKey := None; rd_diagnosticError := None |}].

Definition demo_state : LifecycleKernelState :=
  fold_left lifecycleReducer demo_actions (initialLifecycleState 1 app_boot).

Lemma demo_actions_wf : Forall action_wf demo_actions.
Proof.
  repeat constructor; cbn; try (vm_compute; reflexivity); set_solver.
Qed.

Example demo_availability :
  readRuntimeAvailability demo_state "social" =
  Ok (Some (snapshot "social" st_bootstrapping (Some "mobile.lifecycle.dependencyFailed:session"%string))).
Proof. reflexivity. Qed.

Lemma lifecycleReducer_wf_witness : Forall action_wf demo_actions /\ kernel_wf demo_state.
Proof. split; [exact demo_actions_wf | exact (lifecycleReducer_wf 1 app_boot demo_actions demo_actions_wf)]. Defined.

Lemma demo_state_wf : kernel_wf demo_state.
Proof. apply reducer_fold_wf; [apply demo_actions_wf | apply initial_wf]. Qed.

Lemma readRuntimeAvailability_correct_witness :
  kernel_wf demo_state /\ exists r, readRuntimeAvailability demo_state "social" = Ok r /\ availability_spec demo_state "social" r.
Proof. split; [exact demo_state_wf | exact (readRuntimeAvailability_correct demo_state "social" demo_state_wf)]. Defined.
