(* ===== verification/MobileKernel.v ===== *)
(** * The mobile lifecycle kernel

    Models [apps/mobile/src/app/lifecycle/MobileLifecycleKernel.ts] and
    [apps/mobile/src/utils/errorMessage.ts].

    An operation is a computation in [M]: it threads the kernel object and either
    returns or throws, and what it wrote before throwing stays written. Code of the
    runtimes and of the native layer answers through an environment: the [n]-th
    await of a run takes the [n]-th answer, after the reentrant calls the
    environment makes into the kernel while the operation is suspended there. *)
From stdpp Require Import base strings list pretty.
From S2P Require Import Prelude MobileTypes TopoSort MobileReducer.

(** ** Thrown values *)

(** A JavaScript value as [readableErrorMessage] sees it. An absent field is
    [jv_undefined]; [json] is the text of [JSON.stringify], or nothing when that
    throws; [jv_scalar] is a number or boolean with its [String(value)]. *)
Inductive js_value : Set :=
| jv_undefined
| jv_null
| jv_string (s : string)
| jv_scalar (rendered : string)
| jv_error (message : string) (code : js_value)
| jv_object (is_array : bool) (message msg detail error reason code : js_value) (json : option string).

Fixpoint readableErrorMessage (value : js_value) (fallback : string) : string :=
  match value with
  | jv_string s => s
  | jv_scalar rendered => rendered
  | jv_error message _ => if truthy message then message else fallback
  | jv_object _ message msg detail error reason code json =>
      match message with
      | jv_undefined | jv_null =>
          match msg with
          | jv_undefined | jv_null =>
              match detail with
              | jv_undefined | jv_null =>
                  match error with
                  | jv_undefined | jv_null =>
                      match reason with
                      | jv_undefined | jv_null =>
                          match code with
                          | jv_undefined => default fallback json
                          | _ => readableErrorMessage code fallback
                          end
                      | _ => readableErrorMessage reason fallback
                      end
                  | _ => readableErrorMessage error fallback
                  end
              | _ => readableErrorMessage detail fallback
              end
          | _ => readableErrorMessage msg fallback
          end
      | _ => readableErrorMessage message fallback
      end
  | jv_undefined | jv_null => fallback
  end.

(** [String.prototype.includes]. *)
Definition includes (needle s : string) : bool :=
  match String.index 0 needle s with Some _ => true | None => false end.

Definition runtimeDiagnosticError (err : js_value) : string :=
  let message := readableErrorMessage err "mobile.lifecycle.runtimeFailed" in
  let with_code code :=
    match code with
    | jv_string c => if truthy c && negb (includes c message) then (c ++ ": " ++ message)%string else message
    | _ => message
    end in
  match err with
  | jv_error _ code => with_code code
  | jv_object false _ _ _ _ _ code _ => with_code code
  | _ => message
  end.

(** ** The kernel object *)

(** The graph dependencies are an object of five functions, compared by identity. *)
Record GraphDependencies : Set := {
  createDescriptors : nat;
  readGeneration : nat;
  advanceGeneration : nat;
  resolveLaunchState : nat;
  fenceProjections : nat
}.

Definition sameGraphDependencies (left right : GraphDependencies) : bool :=
  bool_decide (createDescriptors left = createDescriptors right)
  && bool_decide (readGeneration left = readGeneration right)
  && bool_decide (advanceGeneration left = advanceGeneration right)
  && bool_decide (resolveLaunchState left = resolveLaunchState right)
  && bool_decide (fenceProjections left = fenceProjections right).

(** What [runtimeContext] captures. *)
Record RuntimeContext : Set := {
  ctx_descriptor : MobileRuntimeDescriptor;
  ctx_generation : Z;
  ctx_incarnation : Z
}.

(** A [RuntimeReadinessUpdate]: its closure variables. *)
Record ReadinessUpdate : Set := {
  upd_context : RuntimeContext;
  upd_revision : Z;
  upd_settled : bool
}.

(** Calls out of the kernel, in order. The owner mutation of [transitionScope] is
    logged with the phase and the generation the kernel is in when it is called. *)
Inductive HookCall : Set :=
| call_createDescriptors
| call_readGeneration
| call_advanceGeneration
| call_resolveLaunchState
| call_fenceProjections (generation : Z) (reason : LifecycleTransitionReason)
| call_bootstrap (runtimeId : string)
| call_suspend (runtimeId : string)
| call_resume (runtimeId : string)
| call_teardown (runtimeId : string) (context : RuntimeTeardownContext)
| call_transition (at_phase : LifecyclePhase) (at_generation : Z).

Record kernel : Set := {
  k_state : LifecycleKernelState;
  k_graph : option GraphDependencies;
  k_incarnation : Z;
  k_readinessRevision : Z;
  k_readinessUpdates : jsmap Z;
  k_readinessTimeouts : jsmap nat;   (* runtime id to the update its timer settles *)
  k_contexts : list RuntimeContext;  (* every context handed to a runtime *)
  k_updates : list ReadinessUpdate;  (* every update handed to a runtime *)
  k_events : list LifecycleEvent;
  k_calls : list HookCall;
  k_ticks : nat                      (* awaits so far *)
}.

Definition new_kernel : kernel :=
  {| k_state := initialLifecycleState 0 app_boot; k_graph := None; k_incarnation := 0;
     k_readinessRevision := 0; k_readinessUpdates := ∅; k_readinessTimeouts := ∅;
     k_contexts := []; k_updates := []; k_events := []; k_calls := []; k_ticks := 0 |}.

Definition set_state (s : LifecycleKernelState) (k : kernel) : kernel :=
  {| k_state := s; k_graph := k_graph k; k_incarnation := k_incarnation k;
     k_readinessRevision := k_readinessRevision k; k_readinessUpdates := k_readinessUpdates k;
     k_readinessTimeouts := k_readinessTimeouts k; k_contexts := k_contexts k; k_updates := k_updates k;
     k_events := k_events k; k_calls := k_calls k; k_ticks := k_ticks k |}.

Definition set_graph (g : GraphDependencies) (k : kernel) : kernel :=
  {| k_state := k_state k; k_graph := Some g; k_incarnation := k_incarnation k;
     k_readinessRevision := k_readinessRevision k; k_readinessUpdates := k_readinessUpdates k;
     k_readinessTimeouts := k_readinessTimeouts k; k_contexts := k_contexts k; k_updates := k_updates k;
     k_events := k_events k; k_calls := k_calls k; k_ticks := k_ticks k |}.

Definition set_incarnation (i : Z) (k : kernel) : kernel :=
  {| k_state := k_state k; k_graph := k_graph k; k_incarnation := i;
     k_readinessRevision := k_readinessRevision k; k_readinessUpdates := k_readinessUpdates k;
     k_readinessTimeouts := k_readinessTimeouts k; k_contexts := k_contexts k; k_updates := k_updates k;
     k_events := k_events k; k_calls := k_calls k; k_ticks := k_ticks k |}.

(** The readiness bookkeeping. *)
Definition set_readiness (rev : Z) (upds : jsmap Z) (timers : jsmap nat) (issued : list ReadinessUpdate)
  (k : kernel) : kernel :=
  {| k_state := k_state k; k_graph := k_graph k; k_incarnation := k_incarnation k;
     k_readinessRevision := rev; k_readinessUpdates := upds;
     k_readinessTimeouts := timers; k_contexts := k_contexts k; k_updates := issued;
     k_events := k_events k; k_calls := k_calls k; k_ticks := k_ticks k |}.

(** The trace of the run: contexts handed out, events, calls and awaits. *)
Definition set_trace (ctxs : list RuntimeContext) (evs : list LifecycleEvent) (calls : list HookCall)
  (ticks : nat) (k : kernel) : kernel :=
  {| k_state := k_state k; k_graph := k_graph k; k_incarnation := k_incarnation k;
     k_readinessRevision := k_readinessRevision k; k_readinessUpdates := k_readinessUpdates k;
     k_readinessTimeouts := k_readinessTimeouts k; k_contexts := ctxs; k_updates := k_updates k;
     k_events := evs; k_calls := calls; k_ticks := ticks |}.

Definition k_dispatch (a : LifecycleAction) (k : kernel) : kernel :=
  set_state (lifecycleReducer (k_state k) a) k.

Definition k_emit (ev : LifecycleEvent) (k : kernel) : kernel :=
  set_trace (k_contexts k) (k_events k ++ [ev]) (k_calls k) (k_ticks k) k.

Definition k_call (c : HookCall) (k : kernel) : kernel :=
  set_trace (k_contexts k) (k_events k) (k_calls k ++ [c]) (k_ticks k) k.

(** ** Operations that may throw *)
Inductive completion (A : Type) : Type :=
| Returned (a : A)
| Thrown (v : js_value).
Arguments Returned {A} a.
Arguments Thrown {A} v.

Definition M (A : Type) : Type := kernel -> completion A * kernel.

#[export] Instance M_ret : MRet M := fun A a k => (Returned a, k).
#[export] Instance M_bind : MBind M := fun A B f m k =>
  match m k with
  | (Returned a, k') => f a k'
  | (Thrown v, k') => (Thrown v, k')
  end.

Definition throw {A} (v : js_value) : M A := fun k => (Thrown v, k).
(** [throw new Error(message)]. *)
Definition throw_error {A} (message : string) : M A := throw (jv_error message jv_undefined).
Definition get : M kernel := fun k => (Returned k, k).
Definition gets {A} (f : kernel -> A) : M A := fun k => (Returned (f k), k).
Definition modify (f : kernel -> kernel) : M unit := fun k => (Returned tt, f k).
Definition dispatch (a : LifecycleAction) : M unit := modify (k_dispatch a).
Definition emitEvent (ev : LifecycleEvent) : M unit := modify (k_emit ev).
Definition call (c : HookCall) : M unit := modify (k_call c).
Definition when (b : bool) (m : M unit) : M unit := if b then m else mret tt.

(** ** Names of the states in messages *)
Definition phase_name (p : LifecyclePhase) : string :=
  match p with
  | COLD => "COLD" | BOOTSTRAPPING => "BOOTSTRAPPING" | ACTIVE => "ACTIVE" | SUSPENDING => "SUSPENDING"
  | SUSPENDED => "SUSPENDED" | RESUMING => "RESUMING" | TEARDOWN => "TEARDOWN"
  | TEARDOWN_FAILED => "TEARDOWN_FAILED"
  end.

Definition launch_name (l : MobileLaunchState) : string :=
  match l with
  | app_boot => "app-boot" | station_selection => "station-selection"
  | station_handshake => "station-handshake" | access_gate_chain => "access-gate-chain"
  | runtime_critical => "runtime-critical" | shell => "shell" | station_change => "station-change"
  | logout => "logout" | background => "background" | resume_launch => "resume"
  end.

Definition reason_name (r : LifecycleTransitionReason) : string :=
  match r with
  | app_start => "app-start" | app_unmount => "app-unmount" | access_granted => "access-granted"
  | app_background => "app-background" | app_resume => "app-resume"
  | reliability_recovery => "reliability-recovery" | native_resume => "native-resume"
  | visibility_change => "visibility-change" | window_focus => "window-focus"
  | station_replace => "station-replace" | actor_replace => "actor-replace" | reason_logout => "logout"
  | revocation => "revocation" | acceptance_restart => "acceptance-restart"
  | acceptance_suspend => "acceptance-suspend" | acceptance_resume => "acceptance-resume"
  end.

(** ** Reading the state *)
Definition publicLifecycleErrorKey (err : option string) : option string := public_error_opt err.

Definition snapshot_of (runtimeId : string) : M RuntimeLifecycleSnapshot :=
  s ← gets k_state;
  match runtimes s !! runtimeId with
  | None => throw_error ("mobile.lifecycle.runtimeMissing:" ++ runtimeId)
  | Some _ =>
      match readRuntimeAvailability s runtimeId with
      | Ok (Some snap) => mret snap
      | Ok None => throw jv_undefined
      | Err message => throw_error message
      end
  end.

Fixpoint map_M {A B} (f : A -> M B) (l : list A) : M (list B) :=
  match l with
  | [] => mret []
  | x :: l => y ← f x; ys ← map_M f l; mret (y :: ys)
  end.

Definition getSnapshot : M LifecycleKernelSnapshot :=
  s ← gets k_state;
  snaps ← map_M snapshot_of (bootOrder s);
  mret {| ks_phase := phase s; ks_launchState := launchState s; ks_generation := generation s;
          ks_bootOrder := bootOrder s; ks_runtimes := snaps;
          ks_errorKey := publicLifecycleErrorKey (error s) |}.

Definition getDiagnosticRuntimeErrors (s : LifecycleKernelState) : list (string * string) :=
  runtimeId ← bootOrder s;
  match runtimes s !! runtimeId with
  | None => []
  | Some entry =>
      let err := match re_lastError entry with
                 | Some e => Some e
                 | None => r ← re_readiness entry; rd_diagnosticError r
                 end in
      match err with
      | Some e => if truthy e then [(runtimeId, e)] else []
      | None => []
      end
  end.

(** ** Launch states *)
Definition transitionLaunchState (l : MobileLaunchState) : M unit :=
  previous ← gets (fun k => launchState (k_state k));
  if decide (previous = l) then mret tt
  else if negb (isValidLaunchStateTransition previous l)
  then throw_error ("mobile.lifecycle.invalidLaunchTransition:" ++ launch_name previous ++ "->" ++ launch_name l)
  else
    _ ← dispatch (SET_LAUNCH_STATE l);
    emitEvent (ev_launch_state_changed l previous).

Definition transitionToResolvedLaunchState (target : MobileLaunchState) (reason : LifecycleTransitionReason)
  : M unit :=
  current ← gets (fun k => launchState (k_state k));
  if decide (current = target) then mret tt
  else
    _ ← when (bool_decide (current = shell))
          (transitionLaunchState (if decide (target = station_selection) then station_change else logout));
    l1 ← gets (fun k => launchState (k_state k));
    _ ← when (bool_decide (l1 = station_change) && bool_decide (target <> station_selection))
          (transitionLaunchState station_selection);
    l2 ← gets (fun k => launchState (k_state k));
    _ ← when (bool_decide (l2 = app_boot) || (bool_decide (l2 = logout) && bool_decide (target = shell)))
          (transitionLaunchState station_selection);
    l3 ← gets (fun k => launchState (k_state k));
    _ ← when (bool_decide (l3 = station_selection) && bool_decide (target = access_gate_chain))
          (transitionLaunchState station_handshake);
    l4 ← gets (fun k => launchState (k_state k));
    _ ← when (bool_decide (target = shell) && bool_decide (l4 <> runtime_critical)
              && (bool_decide (l4 = station_selection) || bool_decide (l4 = access_gate_chain)
                  || bool_decide (l4 = station_handshake)))
          (transitionLaunchState runtime_critical);
    l5 ← gets (fun k => launchState (k_state k));
    if negb (isValidLaunchStateTransition l5 target)
    then throw_error ("mobile.lifecycle.unresolvedLaunchTransition:" ++ reason_name reason ++ ":"
                      ++ launch_name l5 ++ "->" ++ launch_name target)
    else transitionLaunchState target.

(** ** Readiness updates *)
Definition invalidateReadinessUpdates (runtimeId : option string) (k : kernel) : kernel :=
  match runtimeId with
  | Some id =>
      set_readiness (k_readinessRevision k) (delete id (k_readinessUpdates k))
        (delete id (k_readinessTimeouts k)) (k_updates k) k
  | None => set_readiness (k_readinessRevision k) ∅ ∅ (k_updates k) k
  end.

Definition isContextCurrent (ctx : RuntimeContext) (k : kernel) : bool :=
  let s := k_state k in
  bool_decide (generation s = ctx_generation ctx)
  && bool_decide (k_incarnation k = ctx_incarnation ctx)
  && match runtimes s !! desc_id (ctx_descriptor ctx) with
     | Some e =>
         bool_decide (desc_ref (re_descriptor e) = desc_ref (ctx_descriptor ctx))
         && bool_decide (re_status e ∈ [st_bootstrapping; st_ready; st_resuming])
     | None => false
     end
  && bool_decide (phase s ∈ [BOOTSTRAPPING; ACTIVE; RESUMING]).

Definition isCurrent (upd : ReadinessUpdate) (k : kernel) : bool :=
  negb (upd_settled upd) && isContextCurrent (upd_context upd) k
  && bool_decide (k_readinessUpdates k !! desc_id (ctx_descriptor (upd_context upd)) = Some (upd_revision upd)).

Definition pending_readiness : RuntimeReadiness :=
  {| rd_status := rd_pending; rd_errorKey := None; rd_diagnosticError := None |}.

Definition beginReadinessUpdate (ctx : RuntimeContext) (k : kernel) : kernel :=
  let id := desc_id (ctx_descriptor ctx) in
  let revision := k_readinessRevision k + 1 in
  let k := set_readiness revision (k_readinessUpdates k) (k_readinessTimeouts k) (k_updates k) k in
  let k :=
    if isContextCurrent ctx k then
      let k := invalidateReadinessUpdates (Some id) k in
      let k := set_readiness revision (<[id := revision]> (k_readinessUpdates k)) (k_readinessTimeouts k)
                 (k_updates k) k in
      k_dispatch (RUNTIME_READINESS id pending_readiness) k
    else k in
  let upd := {| upd_context := ctx; upd_revision := revision; upd_settled := false |} in
  let timers :=
    if isCurrent upd k then <[id := length (k_updates k)]> (k_readinessTimeouts k)
    else k_readinessTimeouts k in
  set_readiness revision (k_readinessUpdates k) timers (k_updates k ++ [upd]) k.

Definition settled_readiness (err : js_value) (failed : bool) : RuntimeReadiness :=
  if failed then
    let diagnostic := runtimeDiagnosticError err in
    {| rd_status := rd_failed; rd_errorKey := Some (publicRuntimeErrorKey diagnostic);
       rd_diagnosticError := Some diagnostic |}
  else {| rd_status := rd_ready; rd_errorKey := None; rd_diagnosticError := None |}.

Definition settle (index : nat) (err : js_value) (failed : bool) (k : kernel) : kernel :=
  match k_updates k !! index with
  | None => k
  | Some upd =>
      if negb (isCurrent upd k) then k
      else
        let id := desc_id (ctx_descriptor (upd_context upd)) in
        let upd' := {| upd_context := upd_context upd; upd_revision := upd_revision upd;
                       upd_settled := true |} in
        k_dispatch (RUNTIME_READINESS id (settled_readiness err failed))
          (set_readiness (k_readinessRevision k) (k_readinessUpdates k)
             (delete id (k_readinessTimeouts k)) (<[index := upd']> (k_updates k)) k)
  end.

(** [check] of [waitForDependencies]: the promise settles with the answer, or
    stays pending. On a well-formed state the read of a dependency never fails, so
    the answer for a failed read does not matter. *)
Definition waitForDependencies_check (upd : ReadinessUpdate) (k : kernel) : option (result bool) :=
  if negb (isCurrent upd k) then Some (Ok false)
  else
    let dependsOn := desc_dependsOn (ctx_descriptor (upd_context upd)) in
    let status id := match readRuntimeAvailability (k_state k) id with
                     | Ok r => snap_status <$> r
                     | Err _ => None
                     end in
    match list_find (fun id => status id = None \/ status id = Some st_failed) dependsOn with
    | Some (_, id) => Some (Err ("mobile.lifecycle.dependencyFailed:" ++ id))
    | None =>
        if forallb (fun id => bool_decide (status id = Some st_ready)) dependsOn
        then Some (Ok true) else None
    end.

(** ** Public entry points that do not wait *)
Definition requireGraphDependencies : M GraphDependencies :=
  g ← gets k_graph;
  match g with
  | None => throw_error "mobile.lifecycle.graphNotConfigured"
  | Some g => mret g
  end.

Definition configureRuntimeGraph (dependencies : GraphDependencies) : M unit :=
  k ← get;
  match k_graph k with
  | Some g =>
      if bool_decide (phase (k_state k) <> COLD) && negb (sameGraphDependencies g dependencies)
      then throw_error "mobile.lifecycle.graphAlreadyConfigured"
      else modify (set_graph dependencies)
  | None => modify (set_graph dependencies)
  end.

Definition reset : M unit :=
  s ← gets k_state;
  if decide (phase s <> COLD)
  then throw_error ("mobile.lifecycle.resetInvalidPhase:" ++ phase_name (phase s))
  else
    _ ← modify (invalidateReadinessUpdates None);
    modify (fun k => set_state (initialLifecycleState (generation s) (launchState s)) k).

(** ** Awaits *)

(** The promise of an outside call raced against its deadline. *)
Inductive settled (A : Type) : Type :=
| Resolved (a : A)
| Rejected (v : js_value)
| TimedOut.
Arguments Resolved {A} a.
Arguments Rejected {A} v.
Arguments TimedOut {A}.

(** Calls into the kernel that other code makes while an operation is suspended:
    operations of the queue cannot, they wait for their turn. *)
Inductive Reentry : Set :=
| re_begin (context : nat)
| re_settle (update : nat) (err : js_value) (failed : bool)
| re_timeout (runtimeId : string)
| re_launch (target : MobileLaunchState)
| re_configure (dependencies : GraphDependencies)
| re_reset.

Definition apply_reentry (k : kernel) (r : Reentry) : kernel :=
  match r with
  | re_begin i =>
      match k_contexts k !! i with
      | Some ctx => beginReadinessUpdate ctx k
      | None => k
      end
  | re_settle i err failed => settle i err failed k
  | re_timeout id =>
      match k_readinessTimeouts k !! id with
      | Some i => settle i (jv_error "mobile.lifecycle.runtimeTimedOut" jv_undefined) true k
      | None => k
      end
  | re_launch target => (transitionLaunchState target k).2
  | re_configure g => (configureRuntimeGraph g k).2
  | re_reset => (reset k).2
  end.

(** Answers of the code outside, by await, and what happens during the await. *)
Class KernelEnv := {
  env_reentry : nat -> list Reentry;
  env_descriptors : nat -> completion (list MobileRuntimeDescriptor);
  env_fence : nat -> completion unit;
  env_number : nat -> settled Z;
  env_launch : nat -> settled MobileLaunchState;
  env_void : nat -> settled unit;
  env_teardown : nat -> settled RuntimeOperationResult;
  env_transition : nat -> completion js_value
}.

Definition tick (k : kernel) : kernel :=
  set_trace (k_contexts k) (k_events k) (k_calls k) (S (k_ticks k)) k.

Section kernel_operations.
Context `{KernelEnv}.

(** Suspension: the answer is fixed by the position of the await in the run. *)
Definition suspended {A} (answer : nat -> A) : M A := fun k =>
  (Returned (answer (k_ticks k)), fold_left apply_reentry (env_reentry (k_ticks k)) (tick k)).

(** A call that answers at once. *)
Definition immediate {A} (answer : nat -> completion A) : M A := fun k =>
  (answer (k_ticks k), tick k).

Definition withTimeout {A} (answer : nat -> settled A) (errorKey : string) : M A :=
  r ← suspended answer;
  match r with
  | Resolved a => mret a
  | Rejected v => throw v
  | TimedOut => throw_error errorKey
  end.

(** ** Hooks of the runtimes *)
Definition runtimeContext (d : MobileRuntimeDescriptor) : M unit :=
  modify (fun k =>
    let ctx := {| ctx_descriptor := d; ctx_generation := generation (k_state k);
                  ctx_incarnation := k_incarnation k |} in
    set_trace (k_contexts k ++ [ctx]) (k_events k) (k_calls k) (k_ticks k) k).

Definition op_result (id : string) (ok : bool) (message : option string) : RuntimeOperationResult :=
  {| op_runtimeId := id; op_success := ok; op_errorMessage := message |}.

Definition runVoidRuntimeOperation (runtimeId operation : string) (run : M unit)
  : M RuntimeOperationResult :=
  _ ← run;
  r ← suspended env_void;
  match r with
  | Resolved _ => mret (op_result runtimeId true None)
  | Rejected v => mret (op_result runtimeId false (Some (runtimeDiagnosticError v)))
  | TimedOut =>
      mret (op_result runtimeId false (Some (runtimeDiagnosticError
        (jv_error ("mobile.lifecycle.runtimeTimedOut:" ++ runtimeId ++ ":" ++ operation) jv_undefined))))
  end.

Definition runTeardownOperation (runtimeId : string) (run : M unit) : M RuntimeOperationResult :=
  _ ← run;
  r ← suspended env_teardown;
  match r with
  | Resolved result => mret (op_result runtimeId (op_success result) (op_errorMessage result))
  | Rejected v => mret (op_result runtimeId false (Some (runtimeDiagnosticError v)))
  | TimedOut =>
      mret (op_result runtimeId false (Some (runtimeDiagnosticError
        (jv_error ("mobile.lifecycle.runtimeTimedOut:" ++ runtimeId ++ ":teardown") jv_undefined))))
  end.

Definition assertPhaseTransition (target : LifecyclePhase) : M unit :=
  p ← gets (fun k => phase (k_state k));
  if negb (isValidPhaseTransition p target)
  then throw_error ("mobile.lifecycle.invalidTransition:" ++ phase_name p ++ "->" ++ phase_name target)
  else mret tt.

(** ** Registration and bootstrap *)
Definition missing_message (missing : list (string * string)) : string :=
  join "," ((fun p => p.1 ++ "->" ++ p.2)%string <$> missing).

Definition registerRuntimes (descriptors : list MobileRuntimeDescriptor) : M unit :=
  _ ← modify (fun k => set_incarnation (k_incarnation k + 1) k);
  let ids := desc_id <$> descriptors in
  let sortResult := topologicalSortRuntimes descriptors in
  if decide (length (js_set_of ids) <> length ids)
  then throw_error "mobile.lifecycle.duplicateRuntime"
  else if decide (missingDependencies sortResult <> [])
  then throw_error ("mobile.lifecycle.missingDependency:" ++ missing_message (missingDependencies sortResult))
  else if hasCycle sortResult
  then throw_error ("mobile.lifecycle.dependencyCycle:" ++ join "->" (cycleParticipants sortResult))
  else dispatch (REGISTER_RUNTIMES descriptors (TopoSort.order sortResult)).

(** The first dependency that failed, as the test [if (failedDependency)] sees it: one
    named by the empty string is found by [find] and then passed over. *)
Definition blocking_dependency (failed deps : list string) : option string :=
  match head (filter (fun dep => dep ∈ failed) deps) with
  | Some dep => if truthy dep then Some dep else None
  | None => None
  end.

Definition failed_dependency (failed : list string) (e : RuntimeEntry) : option string :=
  blocking_dependency failed (desc_dependsOn (re_descriptor e)).

Definition dependency_failed_message (dep : string) : string :=
  "mobile.lifecycle.dependencyFailed:" ++ dep.

(** One turn of the bootstrap loop: the result and whether the runtime failed. *)
Definition bootstrap_one (failed : list string) (runtimeId : string)
  : M (option RuntimeOperationResult) :=
  s ← gets k_state;
  match runtimes s !! runtimeId with
  | None => mret None
  | Some entry =>
      match failed_dependency failed entry with
      | Some dep =>
          let errorMessage := dependency_failed_message dep in
          _ ← dispatch (RUNTIME_FAILED runtimeId errorMessage);
          mret (Some (op_result runtimeId false (Some errorMessage)))
      | None =>
          _ ← dispatch (RUNTIME_BOOTSTRAPPING runtimeId);
          result ← runVoidRuntimeOperation runtimeId "bootstrap"
            (_ ← runtimeContext (re_descriptor entry); call (call_bootstrap runtimeId));
          if op_success result
          then
            _ ← dispatch (RUNTIME_READY runtimeId);
            _ ← emitEvent (ev_runtime_status_changed runtimeId st_ready);
            mret (Some result)
          else
            _ ← modify (invalidateReadinessUpdates (Some runtimeId));
            _ ← dispatch (RUNTIME_FAILED runtimeId
                  (default "mobile.lifecycle.bootstrapFailed"%string (op_errorMessage result)));
            _ ← emitEvent (ev_runtime_status_changed runtimeId st_failed);
            mret (Some result)
      end
  end.

Fixpoint bootstrap_loop (ids failed : list string) : M (list RuntimeOperationResult) :=
  match ids with
  | [] => mret []
  | id :: ids =>
      r ← bootstrap_one failed id;
      match r with
      | None => bootstrap_loop ids failed
      | Some result =>
          rest ← bootstrap_loop ids (if op_success result then failed else js_set_add id failed);
          mret (result :: rest)
      end
  end.

Definition bootstrapRuntimes : M (list RuntimeOperationResult) :=
  _ ← assertPhaseTransition BOOTSTRAPPING;
  _ ← dispatch BEGIN_BOOTSTRAP;
  ids ← gets (fun k => bootOrder (k_state k));
  results ← bootstrap_loop ids [];
  _ ← dispatch (BOOTSTRAP_COMPLETE results);
  _ ← emitEvent (ev_phase_changed ACTIVE BOOTSTRAPPING);
  _ ← emitEvent (ev_bootstrap_complete results);
  mret results.

Definition startRuntimeGraphNow : M unit :=
  s ← gets k_state;
  if decide (phase s <> COLD)
  then throw_error ("mobile.lifecycle.startInvalidPhase:" ++ phase_name (phase s))
  else
    _ ← when (bool_decide (entries (runtimes s) <> [])) reset;
    _ ← requireGraphDependencies;
    _ ← call call_createDescriptors;
    descriptors ← immediate env_descriptors;
    _ ← registerRuntimes descriptors;
    _ ← bootstrapRuntimes;
    mret tt.

(** ** Suspend, resume, teardown *)
Definition aggregateFailureKey (operation : string) (failures : list RuntimeOperationResult) : option string :=
  match failures with
  | [] => None
  | _ => Some ("mobile.lifecycle." ++ operation ++ "Incomplete:" ++ join "," (op_runtimeId <$> failures))%string
  end.

(** One turn of the suspend loop, for a runtime that is ready. *)
Definition suspend_one (id : string) : M RuntimeOperationResult :=
  result ← runVoidRuntimeOperation id "suspend" (call (call_suspend id));
  _ ← dispatch (if op_success result then RUNTIME_SUSPENDED id
                else RUNTIME_SUSPEND_FAILED id
                       (default "mobile.lifecycle.suspendFailed"%string (op_errorMessage result)));
  mret result.

(** The failures of the runtimes that were ready. *)
Fixpoint suspend_loop (ids : list string) : M (list RuntimeOperationResult) :=
  match ids with
  | [] => mret []
  | id :: ids =>
      s ← gets k_state;
      if decide (re_status <$> runtimes s !! id <> Some st_ready) then suspend_loop ids
      else
        result ← suspend_one id;
        rest ← suspend_loop ids;
        mret (if op_success result then rest else result :: rest)
  end.

(** The end of suspend and resume: a failure is announced, then thrown. *)
Definition throw_failure (err : option string) : M unit :=
  match err with
  | Some e => if truthy e then _ ← emitEvent (ev_error e); throw_error e else mret tt
  | None => mret tt
  end.

Definition suspendRuntimes : M unit :=
  _ ← assertPhaseTransition SUSPENDING;
  _ ← modify (invalidateReadinessUpdates None);
  _ ← dispatch BEGIN_SUSPEND;
  ids ← gets (fun k => reverseTeardownOrder (bootOrder (k_state k)));
  failures ← suspend_loop ids;
  let err := aggregateFailureKey "suspend" failures in
  _ ← dispatch (SUSPEND_COMPLETE err);
  _ ← emitEvent (ev_phase_changed SUSPENDED SUSPENDING);
  throw_failure err.

(** One turn of the resume loop, for a runtime that is suspended. *)
Definition resume_one (failed : list string) (runtimeId : string) (entry : RuntimeEntry)
  : M RuntimeOperationResult :=
  match failed_dependency failed entry with
  | Some dep =>
      let errorMessage := dependency_failed_message dep in
      _ ← dispatch (RUNTIME_RESUME_FAILED runtimeId errorMessage);
      mret (op_result runtimeId false (Some errorMessage))
  | None =>
      _ ← dispatch (RUNTIME_RESUMING runtimeId);
      result ← runVoidRuntimeOperation runtimeId "resume"
        (_ ← runtimeContext (re_descriptor entry); call (call_resume runtimeId));
      if op_success result
      then _ ← dispatch (RUNTIME_RESUMED runtimeId); mret result
      else
        _ ← modify (invalidateReadinessUpdates (Some runtimeId));
        _ ← dispatch (RUNTIME_RESUME_FAILED runtimeId
              (default "mobile.lifecycle.resumeFailed"%string (op_errorMessage result)));
        mret result
  end.

(** The failures of the runtimes that were suspended. *)
Fixpoint resume_loop (ids failed : list string) : M (list RuntimeOperationResult) :=
  match ids with
  | [] => mret []
  | id :: ids =>
      s ← gets k_state;
      match runtimes s !! id with
      | None => resume_loop ids failed
      | Some entry =>
          if decide (re_status entry <> st_suspended) then resume_loop ids failed
          else
            result ← resume_one failed id entry;
            if op_success result then resume_loop ids failed
            else
              rest ← resume_loop ids (js_set_add id failed);
              mret (result :: rest)
      end
  end.

Definition resumeRuntimes : M unit :=
  _ ← assertPhaseTransition RESUMING;
  _ ← dispatch BEGIN_RESUME;
  ids ← gets (fun k => bootOrder (k_state k));
  failures ← resume_loop ids [];
  let err := aggregateFailureKey "resume" failures in
  _ ← dispatch (RESUME_COMPLETE err);
  _ ← emitEvent (ev_phase_changed (if truthy_opt err then SUSPENDED else ACTIVE) RESUMING);
  throw_failure err.

(** A runtime a teardown pass passes over. *)
Definition teardown_skipped (entry : option RuntimeEntry) : bool :=
  match entry with
  | None => true
  | Some e => bool_decide (re_status e = st_pending) || bool_decide (re_status e = st_torn_down)
  end.

Definition teardown_one (context : RuntimeTeardownContext) (id : string) : M RuntimeOperationResult :=
  _ ← dispatch (RUNTIME_TEARING_DOWN id);
  result ← runTeardownOperation id (call (call_teardown id context));
  _ ← dispatch (if op_success result then RUNTIME_TORN_DOWN id
                else RUNTIME_TEARDOWN_FAILED id
                       (default "mobile.lifecycle.teardownFailed"%string (op_errorMessage result)));
  mret result.

Fixpoint teardown_loop (context : RuntimeTeardownContext) (ids : list string)
  : M (list RuntimeOperationResult) :=
  match ids with
  | [] => mret []
  | id :: ids =>
      s ← gets k_state;
      if teardown_skipped (runtimes s !! id) then teardown_loop context ids
      else
        result ← teardown_one context id;
        rest ← teardown_loop context ids;
        mret (result :: rest)
  end.

Definition emptyTeardownResult : AggregateTeardownResult :=
  {| agg_results := []; agg_allSuccessful := true |}.

Definition teardownRuntimes (context : RuntimeTeardownContext) : M AggregateTeardownResult :=
  previousPhase ← gets (fun k => phase (k_state k));
  _ ← assertPhaseTransition TEARDOWN;
  _ ← modify (invalidateReadinessUpdates None);
  _ ← dispatch BEGIN_TEARDOWN;
  ids ← gets (fun k => reverseTeardownOrder (bootOrder (k_state k)));
  results ← teardown_loop context ids;
  let aggregateResult := {| agg_results := results; agg_allSuccessful := forallb op_success results |} in
  _ ← dispatch (TEARDOWN_COMPLETE aggregateResult);
  p ← gets (fun k => phase (k_state k));
  _ ← emitEvent (ev_phase_changed p previousPhase);
  _ ← emitEvent (ev_teardown_complete aggregateResult);
  mret aggregateResult.

(** ** Generations *)
Definition MAX_SAFE_INTEGER : Z := 9007199254740991.

Definition isSafeInteger (n : Z) : bool := (- MAX_SAFE_INTEGER <=? n) && (n <=? MAX_SAFE_INTEGER).

Definition applyGeneration (g : Z) (reason : LifecycleTransitionReason) (requireAdvance : bool) : M unit :=
  s ← gets k_state;
  if negb (isSafeInteger g) || (g <? 0) || (g <? generation s)
     || (requireAdvance && (g =? generation s))
  then throw_error "mobile.lifecycle.invalidGeneration"
  else
    _ ← modify (invalidateReadinessUpdates None);
    _ ← dispatch (SET_GENERATION g);
    emitEvent (ev_generation_advanced g reason).

Definition read_generation : M Z :=
  _ ← call call_readGeneration;
  withTimeout env_number "mobile.lifecycle.readGenerationTimedOut".

Definition advance_generation : M Z :=
  _ ← call call_advanceGeneration;
  withTimeout env_number "mobile.lifecycle.advanceGenerationTimedOut".

Definition fence_projections (g : Z) (reason : LifecycleTransitionReason) : M unit :=
  _ ← call (call_fenceProjections g reason);
  immediate env_fence.

Definition fenceAndTeardown (context : RuntimeTeardownContext) : M AggregateTeardownResult :=
  let reason := td_reason context in
  _ ← requireGraphDependencies;
  g ← advance_generation;
  _ ← applyGeneration g reason true;
  _ ← fence_projections g reason;
  p ← gets (fun k => phase (k_state k));
  if decide (p = COLD) then mret emptyTeardownResult else teardownRuntimes context.

Definition enterScopeLaunchTransition (reason : LifecycleTransitionReason) : M unit :=
  l ← gets (fun k => launchState (k_state k));
  if decide (l <> shell) then mret tt
  else transitionLaunchState (if decide (reason = station_replace) then station_change else logout).

Definition reconcileLaunchStateAfterRuntime (reason : LifecycleTransitionReason) : M unit :=
  _ ← requireGraphDependencies;
  _ ← call call_resolveLaunchState;
  target ← withTimeout env_launch "mobile.lifecycle.resolveLaunchStateTimedOut";
  transitionToResolvedLaunchState target reason.

(** ** The operations of the queue *)
Definition startRuntimeGraph (reason : LifecycleTransitionReason) : M LifecycleKernelSnapshot :=
  p ← gets (fun k => phase (k_state k));
  if decide (p = ACTIVE \/ p = SUSPENDED) then getSnapshot
  else if decide (p <> COLD) then throw_error ("mobile.lifecycle.startInvalidPhase:" ++ phase_name p)
  else
    _ ← requireGraphDependencies;
    observedGeneration ← read_generation;
    g ← (if decide (observedGeneration = 0) then advance_generation else mret observedGeneration);
    _ ← applyGeneration g reason false;
    _ ← startRuntimeGraphNow;
    _ ← reconcileLaunchStateAfterRuntime reason;
    getSnapshot.

Definition stopRuntimeGraph (reason : LifecycleTransitionReason) : M AggregateTeardownResult :=
  p ← gets (fun k => phase (k_state k));
  if decide (p = COLD) then mret emptyTeardownResult
  else teardownRuntimes {| td_reason := reason; td_draftDisposition := None |}.

(** [if (!teardown.allSuccessful) throw]. *)
Definition require_successful (teardown : AggregateTeardownResult) : M unit :=
  if agg_allSuccessful teardown then mret tt else throw_error "mobile.lifecycle.teardownIncomplete".

Definition restartRuntimeGraph (reason : LifecycleTransitionReason) : M LifecycleKernelSnapshot :=
  teardown ← fenceAndTeardown {| td_reason := reason; td_draftDisposition := None |};
  _ ← require_successful teardown;
  _ ← reset;
  _ ← startRuntimeGraphNow;
  _ ← reconcileLaunchStateAfterRuntime reason;
  getSnapshot.

(** [transition] is called when everything is torn down; it has no deadline. *)
Definition run_transition : M js_value :=
  s ← gets k_state;
  _ ← call (call_transition (phase s) (generation s));
  r ← suspended env_transition;
  match r with
  | Returned v => mret v
  | Thrown v => throw v
  end.

Definition transitionScope (reason : LifecycleTransitionReason) (restart : bool)
  (draftDisposition : option DraftDisposition) : M js_value :=
  _ ← enterScopeLaunchTransition reason;
  teardown ← fenceAndTeardown {| td_reason := reason; td_draftDisposition := draftDisposition |};
  _ ← require_successful teardown;
  result ← run_transition;
  _ ← when restart (_ ← reset; startRuntimeGraphNow);
  _ ← reconcileLaunchStateAfterRuntime reason;
  mret result.

Definition suspend : M LifecycleKernelSnapshot :=
  s ← gets k_state;
  if decide (phase s = SUSPENDED) then getSnapshot
  else
    _ ← when (bool_decide (launchState s = shell)) (transitionLaunchState background);
    _ ← suspendRuntimes;
    getSnapshot.

Definition any_runtime_failed (s : LifecycleKernelState) : bool :=
  existsb (fun e => bool_decide (re_status e = st_failed)
                    || bool_decide (rd_status <$> re_readiness e = Some rd_failed))
    (jm_values (runtimes s)).

Definition resume (reason : LifecycleTransitionReason) : M LifecycleKernelSnapshot :=
  s ← gets k_state;
  if decide (phase s = ACTIVE) then getSnapshot
  else
    _ ← when (bool_decide (launchState s = background)) (transitionLaunchState resume_launch);
    _ ← requireGraphDependencies;
    observedGeneration ← read_generation;
    current ← gets (fun k => generation (k_state k));
    g ← (if decide (current < observedGeneration) then mret observedGeneration else advance_generation);
    _ ← applyGeneration g reason true;
    _ ← fence_projections g reason;
    failed ← gets (fun k => any_runtime_failed (k_state k));
    _ ← (if (failed : bool) then
           teardown ← teardownRuntimes {| td_reason := reason; td_draftDisposition := None |};
           _ ← require_successful teardown;
           _ ← reset;
           startRuntimeGraphNow
         else resumeRuntimes);
    _ ← reconcileLaunchStateAfterRuntime reason;
    getSnapshot.

Definition reconcileLaunchState (reason : LifecycleTransitionReason) : M LifecycleKernelSnapshot :=
  _ ← reconcileLaunchStateAfterRuntime reason;
  getSnapshot.

(** ** The queue

    [enqueueOperation] chains operations: each starts when the one before has
    settled, whether it returned or threw. Between two operations other code may
    enter the kernel. *)
Inductive operation : Set :=
| op_start (reason : LifecycleTransitionReason)
| op_stop (reason : LifecycleTransitionReason)
| op_restart (reason : LifecycleTransitionReason)
| op_scope (reason : LifecycleTransitionReason) (restart : bool) (draft : option DraftDisposition)
| op_suspend
| op_resume (reason : LifecycleTransitionReason)
| op_reconcile (reason : LifecycleTransitionReason).

Definition run_operation (op : operation) : M unit :=
  match op with
  | op_start r => _ ← startRuntimeGraph r; mret tt
  | op_stop r => _ ← stopRuntimeGraph r; mret tt
  | op_restart r => _ ← restartRuntimeGraph r; mret tt
  | op_scope r restart draft => _ ← transitionScope r restart draft; mret tt
  | op_suspend => _ ← suspend; mret tt
  | op_resume r => _ ← resume r; mret tt
  | op_reconcile r => _ ← reconcileLaunchState r; mret tt
  end.

Definition enqueueOperation (k : kernel) (entry : list Reentry * operation) : kernel :=
  (run_operation entry.2 (fold_left apply_reentry entry.1 k)).2.

(** A whole session: the operations in the order they were enqueued. *)
Definition run_session (entries : list (list Reentry * operation)) (k : kernel) : kernel :=
  fold_left enqueueOperation entries k.
End kernel_operations.
