(* ===== verification/MobileKernelFacts.v ===== *)
(** * What every operation of the mobile lifecycle kernel guarantees

    Facts about [MobileKernel]: the invariant of the kernel state, the monotone
    generation, the launch transitions, and what may happen while an operation is
    suspended. They hold for every environment: whatever the hooks answer, in
    whatever order, with any reentrant calls during the awaits. *)
From stdpp Require Import base strings list relations.
From S2P Require Import Prelude MobileTypes TopoSort MobileReducer MobileKernel.

(** ** Reasoning about [M] *)

(** [m] relates the kernel before to the kernel after, whether it returns or throws. *)
Definition moves {A} (R : kernel -> kernel -> Prop) (m : M A) : Prop := forall k, R k (m k).2.

Section moves.
Context (R : kernel -> kernel -> Prop) `{!PreOrder R}.

Lemma moves_ret {A} (a : A) : moves R (mret a).
Proof. intros k. reflexivity. Qed.
Lemma moves_throw {A} v : moves R (throw (A := A) v).
Proof. intros k. reflexivity. Qed.
Lemma moves_gets {A} (f : kernel -> A) : moves R (gets f).
Proof. intros k. reflexivity. Qed.
Lemma moves_get : moves R get.
Proof. intros k. reflexivity. Qed.
Lemma moves_modify f : (forall k, R k (f k)) -> moves R (modify f).
Proof. intros Hf k. apply Hf. Qed.
Lemma moves_bind {A B} (m : M A) (f : A -> M B) :
  moves R m -> (forall a, moves R (f a)) -> moves R (m ≫= f).
Proof.
  intros Hm Hf k. unfold mbind, M_bind. specialize (Hm k). destruct (m k) as [[a|v] k']; cbn in *; [|done].
  etrans; [exact Hm | apply Hf].
Qed.
Lemma moves_gets_bind {A B} (g : kernel -> A) (f : A -> M B) :
  (forall k, R k (f (g k) k).2) -> moves R (gets g ≫= f).
Proof. intros H k. apply H. Qed.
Lemma moves_when b m : moves R m -> moves R (when b m).
Proof. intros. unfold when. destruct b; [done | apply moves_ret]. Qed.
Lemma moves_map {A B} (f : A -> M B) l : (forall x, moves R (f x)) -> moves R (map_M f l).
Proof.
  intros Hf. induction l; cbn; [apply moves_ret|].
  apply moves_bind; [done|]. intros. apply moves_bind; [done|]. intros. apply moves_ret.
Qed.
End moves.

(** ** How the kernel evolves *)
Definition launch_edge (l l' : MobileLaunchState) : Prop := isValidLaunchStateTransition l l' = true.

(** Update [i] carries revision [i + 1]: revisions are never reused. *)
Definition updates_inv (k : kernel) : Prop :=
  k_readinessRevision k = Z.of_nat (length (k_updates k))
  /\ forall i u, k_updates k !! i = Some u -> upd_revision u = Z.of_nat i + 1.

(** Updates stay, with their context and revision, and stay settled. *)
Definition updates_mono (k k' : kernel) : Prop :=
  forall i u, k_updates k !! i = Some u ->
    exists u', k_updates k' !! i = Some u' /\ upd_context u' = upd_context u
      /\ upd_revision u' = upd_revision u /\ (upd_settled u = true -> upd_settled u' = true).

Record evolves (k k' : kernel) : Prop := {
  ev_wf : kernel_wf (k_state k) -> kernel_wf (k_state k');
  ev_generation : generation (k_state k) <= generation (k_state k');
  ev_incarnation : k_incarnation k <= k_incarnation k';
  ev_updates : updates_inv k -> updates_inv k';
  ev_updates_mono : updates_mono k k';
  ev_launch : rtc launch_edge (launchState (k_state k)) (launchState (k_state k'));
  ev_calls : k_calls k `prefix_of` k_calls k';
  ev_events : k_events k `prefix_of` k_events k'
}.

#[export] Instance evolves_preorder : PreOrder evolves.
Proof.
  split.
  - intros k. constructor; try done. intros i u Hu. by exists u.
  - intros k1 k2 k3 [] []. constructor; try tauto; try lia; try (by etrans).
    intros i u Hu. destruct (ev_updates_mono0 i u Hu) as (u' & Hu' & ? & ? & ?).
    destruct (ev_updates_mono1 i u' Hu') as (u'' & Hu'' & ? & ? & ?).
    exists u''. split; [done|]. split; [congruence|]. split; [congruence|tauto].
Qed.

Lemma updates_mono_same k k' : k_updates k' = k_updates k -> updates_mono k k'.
Proof. intros Hs i u Hu. exists u. by rewrite Hs. Qed.

Create HintDb kernel.

(** A change that leaves the fields of [evolves] alone. *)
Lemma evolves_same k k' :
  k_state k' = k_state k -> k_incarnation k' = k_incarnation k ->
  k_readinessRevision k' = k_readinessRevision k -> k_updates k' = k_updates k ->
  k_calls k `prefix_of` k_calls k' -> k_events k `prefix_of` k_events k' -> evolves k k'.
Proof.
  intros Hs Hi Hr Hu ? ?. constructor; rewrite ?Hs, ?Hi; try done.
  - unfold updates_inv. by rewrite Hr, Hu.
  - by apply updates_mono_same.
Qed.

(** A change of the state only. *)
Lemma evolves_state s k :
  (kernel_wf (k_state k) -> kernel_wf s) -> generation (k_state k) <= generation s ->
  rtc launch_edge (launchState (k_state k)) (launchState s) -> evolves k (set_state s k).
Proof. intros. constructor; try done. by apply updates_mono_same. Qed.

(** Actions that keep the generation and the launch state. *)
Definition plain_action (a : LifecycleAction) : Prop :=
  match a with
  | SET_GENERATION _ | SET_LAUNCH_STATE _ => False
  | _ => action_wf a
  end.

Lemma updateRuntimeEntry_scalars s id patch :
  let s' := updateRuntimeEntry s id patch in
  phase s' = phase s /\ launchState s' = launchState s /\ generation s' = generation s
  /\ bootOrder s' = bootOrder s /\ error s' = error s.
Proof. unfold updateRuntimeEntry. by destruct (runtimes s !! id). Qed.

Lemma plain_action_scalars s a : plain_action a ->
  launchState (lifecycleReducer s a) = launchState s /\ generation (lifecycleReducer s a) = generation s.
Proof.
  intros Ha. destruct a; try done; cbn [lifecycleReducer]; unfold updateRuntimeStatus;
    match goal with |- context [updateRuntimeEntry ?s ?id ?p] =>
      destruct (updateRuntimeEntry_scalars s id p) as (_ & ? & ? & _) end; done.
Qed.

Lemma evolves_dispatch a k : plain_action a -> evolves k (k_dispatch a k).
Proof.
  intros Ha. destruct (plain_action_scalars (k_state k) a Ha) as [Hl Hg].
  apply evolves_state; rewrite ?Hl, ?Hg; try done. apply reducer_wf. by destruct a.
Qed.

Lemma moves_dispatch a : plain_action a -> moves evolves (dispatch a).
Proof. intros Ha k. by apply evolves_dispatch. Qed.

Lemma moves_emit ev : moves evolves (emitEvent ev).
Proof. intros k. apply evolves_same; cbn; try done; try lia. by eexists. Qed.

Lemma moves_call c : moves evolves (call c).
Proof. intros k. apply evolves_same; cbn; try done; try lia. by eexists. Qed.

Lemma evolves_invalidate id k : evolves k (invalidateReadinessUpdates id k).
Proof. destruct id; by apply evolves_same; cbn. Qed.

Lemma moves_launch l : moves evolves (transitionLaunchState l).
Proof.
  intros k. unfold transitionLaunchState, gets, mbind, M_bind. cbn.
  case_decide; [reflexivity|]. destruct (isValidLaunchStateTransition _ l) eqn:Hv; cbn; [|reflexivity].
  etrans; [|apply (moves_emit (ev_launch_state_changed l (launchState (k_state k))))].
  apply evolves_state; cbn; [by apply same_graph_wf | done | by apply rtc_once].
Qed.

Lemma moves_throw_error {A} m : moves evolves (throw_error (A := A) m).
Proof. apply moves_throw, _. Qed.

Lemma begin_parts ctx k :
  let k' := beginReadinessUpdate ctx k in
  (k_state k' = k_state k
   \/ k_state k' = lifecycleReducer (k_state k) (RUNTIME_READINESS (desc_id (ctx_descriptor ctx)) pending_readiness))
  /\ k_readinessRevision k' = k_readinessRevision k + 1
  /\ k_updates k' = k_updates k ++
       [{| upd_context := ctx; upd_revision := k_readinessRevision k + 1; upd_settled := false |}]
  /\ k_incarnation k' = k_incarnation k /\ k_calls k' = k_calls k /\ k_events k' = k_events k.
Proof. unfold beginReadinessUpdate. cbv zeta. destruct (isContextCurrent ctx _); cbn; tauto. Qed.

Lemma evolves_begin ctx k : evolves k (beginReadinessUpdate ctx k).
Proof.
  destruct (begin_parts ctx k) as (Hs & Hr & Hu & Hi & Hc & He).
  set (k' := beginReadinessUpdate ctx k) in *.
  assert (Hst : evolves k (set_state (k_state k') k)).
  { destruct Hs as [->|Hs]; [by apply evolves_state|]. rewrite Hs. by apply (evolves_dispatch (RUNTIME_READINESS _ _)). }
  destruct Hst as [? ? _ _ _ ? _ _]. constructor; rewrite ?Hi, ?Hc, ?He; try done.
  - intros [Hlen Hrev]. split; [rewrite Hr, Hu, length_app; cbn; lia|].
    intros i u. rewrite Hu. intros [Hl|[Hge Hl]]%lookup_app_Some; [by apply Hrev|].
    apply list_lookup_singleton_Some in Hl as [Hl <-]. cbn. lia.
  - intros i u Hl. exists u. split; [|done]. rewrite Hu. by apply lookup_app_l_Some.
Qed.

Lemma settle_parts i u e f k :
  k_updates k !! i = Some u -> isCurrent u k = true ->
  let k' := settle i e f k in
  k_state k' = lifecycleReducer (k_state k)
    (RUNTIME_READINESS (desc_id (ctx_descriptor (upd_context u))) (settled_readiness e f))
  /\ k_readinessRevision k' = k_readinessRevision k
  /\ k_updates k' = <[i := {| upd_context := upd_context u; upd_revision := upd_revision u;
                             upd_settled := true |}]> (k_updates k)
  /\ k_incarnation k' = k_incarnation k /\ k_calls k' = k_calls k /\ k_events k' = k_events k.
Proof. intros Hu Hc. unfold settle. rewrite Hu, Hc. cbn. tauto. Qed.

Lemma settle_inert i u e f k : k_updates k !! i = Some u -> isCurrent u k = false -> settle i e f k = k.
Proof. intros Hu Hc. unfold settle. by rewrite Hu, Hc. Qed.

Lemma evolves_settle i e f k : evolves k (settle i e f k).
Proof.
  destruct (k_updates k !! i) as [u|] eqn:Hu; [|unfold settle; by rewrite Hu].
  destruct (isCurrent u k) eqn:Hcur; [|by erewrite settle_inert].
  destruct (settle_parts i u e f k Hu Hcur) as (Hs & Hr & Hup & Hi & Hc & He).
  set (k' := settle i e f k) in *.
  assert (Hst : evolves k (set_state (k_state k') k)).
  { rewrite Hs. by apply (evolves_dispatch (RUNTIME_READINESS _ _)). }
  destruct Hst as [? ? _ _ _ ? _ _]. constructor; rewrite ?Hi, ?Hc, ?He; try done.
  - intros [Hlen Hrev]. split; [by rewrite Hr, Hup, length_insert|].
    intros j v. rewrite Hup. intros [(-> & <- & _)|[_ Hl]]%list_lookup_insert_Some; [|by apply Hrev].
    cbn. by apply Hrev.
  - intros j v Hl. destruct (decide (i = j)) as [->|Hne].
    + simplify_eq. eexists. split; [rewrite Hup; apply list_lookup_insert_eq; by eapply lookup_lt_Some|]. by cbn.
    + exists v. rewrite Hup, list_lookup_insert_ne by done. done.
Qed.

Lemma moves_reset : moves evolves reset.
Proof.
  intros k. unfold reset, gets, mbind, M_bind. cbn. case_decide; cbn; [reflexivity|].
  etrans; [apply (evolves_invalidate None)|]. apply evolves_state; cbn; try done.
  intros _. apply initial_wf.
Qed.

Lemma moves_configure g : moves evolves (configureRuntimeGraph g).
Proof.
  intros k. unfold configureRuntimeGraph, get, mbind, M_bind. cbn.
  assert (evolves k (set_graph g k)) by (by apply evolves_same).
  destruct (k_graph k); [|done]. by destruct (_ && _).
Qed.

Lemma evolves_reentry k r : evolves k (apply_reentry k r).
Proof.
  destruct r; cbn.
  - destruct (k_contexts k !! context); [apply evolves_begin | reflexivity].
  - apply evolves_settle.
  - destruct (k_readinessTimeouts k !! runtimeId); [apply evolves_settle | reflexivity].
  - apply moves_launch.
  - apply moves_configure.
  - apply moves_reset.
Qed.

Lemma evolves_reentries l k : evolves k (fold_left apply_reentry l k).
Proof.
  revert k. induction l as [|r l IH]; cbn; intros k; [reflexivity|].
  etrans; [apply evolves_reentry | apply IH].
Qed.

#[export] Hint Resolve moves_emit moves_call moves_launch moves_throw_error moves_reset : kernel.

(** Walks through a computation: binds, guards, matches, then the hint database. *)
Ltac moves_steps R :=
  repeat match goal with
  | |- moves R (_ ≫= _) => apply (moves_bind R); [|intros ?]
  | |- moves R (mret _) => apply (moves_ret R)
  | |- moves R (gets _) => apply (moves_gets R)
  | |- moves R (throw _) => apply (moves_throw R)
  | |- moves R (when _ _) => apply (moves_when R)
  | |- moves R (if _ then _ else _) => case_match
  | |- moves R (match _ with _ => _ end) => case_match
  end; auto with kernel.

Section operations.
Context `{KernelEnv}.

Lemma moves_suspended {A} (answer : nat -> A) : moves evolves (suspended answer).
Proof.
  intros k. cbn. etrans; [|apply evolves_reentries]. apply evolves_same; cbn; try done; lia.
Qed.

Lemma moves_immediate {A} (answer : nat -> completion A) : moves evolves (immediate answer).
Proof. intros k. cbn. apply evolves_same; cbn; try done; lia. Qed.

Lemma moves_context d : moves evolves (runtimeContext d).
Proof. intros k. cbn. apply evolves_same; cbn; try done; lia. Qed.

Lemma moves_invalidate id : moves evolves (modify (invalidateReadinessUpdates id)).
Proof. intros k. apply evolves_invalidate. Qed.

Lemma moves_plain a : plain_action a -> moves evolves (dispatch a).
Proof. apply moves_dispatch. Qed.

Hint Resolve moves_suspended moves_immediate moves_context moves_invalidate : kernel.
Hint Extern 1 (moves evolves (dispatch _)) => apply moves_dispatch; cbn; done : kernel.

Lemma moves_withTimeout {A} (answer : nat -> settled A) key : moves evolves (withTimeout answer key).
Proof. unfold withTimeout. moves_steps evolves. Qed.

Lemma moves_runVoid id o m : moves evolves m -> moves evolves (runVoidRuntimeOperation id o m).
Proof. intros. unfold runVoidRuntimeOperation. moves_steps evolves. Qed.

Lemma moves_runTeardown id m : moves evolves m -> moves evolves (runTeardownOperation id m).
Proof. intros. unfold runTeardownOperation. moves_steps evolves. Qed.

Lemma moves_assert p : moves evolves (assertPhaseTransition p).
Proof. unfold assertPhaseTransition. moves_steps evolves. Qed.

Lemma moves_getSnapshot : moves evolves getSnapshot.
Proof.
  unfold getSnapshot. moves_steps evolves. apply moves_map; [apply _|]. intros id.
  unfold snapshot_of. moves_steps evolves.
Qed.

Hint Resolve moves_withTimeout moves_runVoid moves_runTeardown moves_assert moves_getSnapshot : kernel.

Lemma js_set_of_full_NoDup (l : list string) : length (js_set_of l) = length l -> NoDup l.
Proof.
  intros Hlen. induction l as [|x l IH] using rev_ind; [constructor|].
  unfold js_set_of in *. rewrite fold_left_app, length_app in Hlen. cbn in Hlen.
  fold (js_set_of l) in *. unfold js_set_add in Hlen.
  assert (Hle : forall l, (length (js_set_of l) <= length l)%nat).
  { intros m. apply submseteq_length, NoDup_submseteq; [apply js_set_of_NoDup|].
    intros y. by rewrite js_set_of_elem. }
  specialize (Hle l). case_decide as Hin; [lia|]. rewrite length_app in Hlen. cbn in Hlen.
  rewrite js_set_of_elem in Hin. apply NoDup_app. split; [apply IH; lia|].
  split; [set_solver | apply NoDup_singleton].
Qed.

Lemma moves_register ds : moves evolves (registerRuntimes ds).
Proof.
  unfold registerRuntimes. apply (moves_bind evolves).
  { apply moves_modify. intros k. constructor; cbn; try done; [lia | by apply updates_mono_same]. }
  intros _. cbn zeta. case_decide as Hd; [auto with kernel|]. case_decide as Hm; [auto with kernel|].
  destruct (hasCycle _) eqn:Hc; [auto with kernel|]. apply moves_dispatch. cbn.
  split; [|split; [|split]]; try done. apply js_set_of_full_NoDup. lia.
Qed.

Lemma moves_bootstrap_one failed id : moves evolves (bootstrap_one failed id).
Proof. unfold bootstrap_one. moves_steps evolves. apply moves_runVoid. moves_steps evolves. Qed.

Lemma moves_bootstrap_loop ids failed : moves evolves (bootstrap_loop ids failed).
Proof.
  revert failed. induction ids as [|id ids IH]; intros failed; cbn [bootstrap_loop]; moves_steps evolves.
  apply moves_bootstrap_one.
Qed.
Hint Resolve moves_register moves_bootstrap_loop : kernel.

Lemma moves_bootstrap : moves evolves bootstrapRuntimes.
Proof. unfold bootstrapRuntimes. moves_steps evolves. Qed.

Lemma moves_require : moves evolves requireGraphDependencies.
Proof. unfold requireGraphDependencies. moves_steps evolves. Qed.
Hint Resolve moves_bootstrap moves_require : kernel.

Lemma moves_startNow : moves evolves startRuntimeGraphNow.
Proof. unfold startRuntimeGraphNow. moves_steps evolves. Qed.

Lemma moves_suspend_one id : moves evolves (suspend_one id).
Proof. unfold suspend_one. moves_steps evolves; by apply moves_dispatch; case_match. Qed.

Lemma moves_suspend_loop ids : moves evolves (suspend_loop ids).
Proof. induction ids as [|id ids IH]; cbn [suspend_loop]; moves_steps evolves; apply moves_suspend_one. Qed.

Lemma moves_resume_one failed id e : moves evolves (resume_one failed id e).
Proof. unfold resume_one. moves_steps evolves; apply moves_runVoid; moves_steps evolves. Qed.

Lemma moves_resume_loop ids failed : moves evolves (resume_loop ids failed).
Proof.
  revert failed. induction ids as [|id ids IH]; intros failed; cbn [resume_loop]; moves_steps evolves;
    apply moves_resume_one.
Qed.

Lemma moves_teardown_one ctx id : moves evolves (teardown_one ctx id).
Proof. unfold teardown_one. moves_steps evolves; by apply moves_dispatch; case_match. Qed.

Lemma moves_teardown_loop ctx ids : moves evolves (teardown_loop ctx ids).
Proof. induction ids as [|id ids IH]; cbn [teardown_loop]; moves_steps evolves; apply moves_teardown_one. Qed.
Hint Resolve moves_startNow moves_suspend_loop moves_resume_loop moves_teardown_loop : kernel.

Lemma moves_failure err : moves evolves (throw_failure err).
Proof. unfold throw_failure. moves_steps evolves. Qed.
Hint Resolve moves_failure : kernel.

Lemma moves_suspendRuntimes : moves evolves suspendRuntimes.
Proof. unfold suspendRuntimes. moves_steps evolves. Qed.

Lemma moves_resumeRuntimes : moves evolves resumeRuntimes.
Proof. unfold resumeRuntimes. moves_steps evolves. Qed.

Lemma moves_teardown ctx : moves evolves (teardownRuntimes ctx).
Proof. unfold teardownRuntimes. moves_steps evolves. Qed.

Lemma moves_applyGeneration g reason b : moves evolves (applyGeneration g reason b).
Proof.
  intros k. unfold applyGeneration, gets, mbind, M_bind. cbn.
  destruct (_ || _) eqn:Hg; cbn; [reflexivity|]. reflect_bool.
  etrans; [apply (evolves_invalidate None)|].
  etrans; [|apply (moves_emit (ev_generation_advanced g reason))].
  apply evolves_state; cbn; [by apply same_graph_wf | lia | done].
Qed.
Hint Resolve moves_suspendRuntimes moves_resumeRuntimes moves_teardown moves_applyGeneration : kernel.

Lemma moves_read : moves evolves read_generation.
Proof. unfold read_generation. moves_steps evolves. Qed.
Lemma moves_advance : moves evolves advance_generation.
Proof. unfold advance_generation. moves_steps evolves. Qed.
Lemma moves_fence g reason : moves evolves (fence_projections g reason).
Proof. unfold fence_projections. moves_steps evolves. Qed.
Hint Resolve moves_read moves_advance moves_fence : kernel.

Lemma moves_fenceAndTeardown ctx : moves evolves (fenceAndTeardown ctx).
Proof. unfold fenceAndTeardown. cbn zeta. moves_steps evolves. Qed.

Lemma moves_toResolved target reason : moves evolves (transitionToResolvedLaunchState target reason).
Proof. unfold transitionToResolvedLaunchState. moves_steps evolves. Qed.
Hint Resolve moves_fenceAndTeardown moves_toResolved : kernel.

Lemma moves_reconcile reason : moves evolves (reconcileLaunchStateAfterRuntime reason).
Proof. unfold reconcileLaunchStateAfterRuntime. moves_steps evolves. Qed.

Lemma moves_require_successful r : moves evolves (require_successful r).
Proof. unfold require_successful. moves_steps evolves. Qed.
Hint Resolve moves_reconcile moves_require_successful : kernel.

Lemma moves_operation op : moves evolves (run_operation op).
Proof.
  destruct op; unfold run_operation, startRuntimeGraph, stopRuntimeGraph, restartRuntimeGraph,
    transitionScope, run_transition, enterScopeLaunchTransition, suspend, resume, reconcileLaunchState;
    moves_steps evolves.
Qed.

Lemma evolves_enqueue k entry : evolves k (enqueueOperation k entry).
Proof. unfold enqueueOperation. etrans; [apply evolves_reentries | apply moves_operation]. Qed.

Lemma evolves_session entries k : evolves k (run_session entries k).
Proof.
  revert k. induction entries as [|e entries IH]; cbn; intros k; [reflexivity|].
  etrans; [apply evolves_enqueue | apply IH].
Qed.
End operations.
