(* ===== verification/MobileKernelRuns.v ===== *)
(** * The passes of the mobile lifecycle kernel over the runtime graph

    What bootstrap, suspend, resume and teardown do to the runtimes and which hooks
    they call, for every behaviour of the hooks and every reentrant call during
    their awaits; built on [MobileKernelFacts]. *)
From stdpp Require Import base strings list relations.
From S2P Require Import Prelude MobileTypes TopoSort MobileReducer MobileKernel MobileKernelFacts.

(** What a runtime is, apart from its readiness. *)
Definition core (k : kernel) (id : string) : option (MobileRuntimeDescriptor * RuntimeBootstrapStatus * option string) :=
  (fun e => (re_descriptor e, re_status e, re_lastError e)) <$> runtimes (k_state k) !! id.

Definition status_of (k : kernel) (id : string) : option RuntimeBootstrapStatus :=
  re_status <$> runtimes (k_state k) !! id.

Definition descriptor_of (k : kernel) (id : string) : option MobileRuntimeDescriptor :=
  re_descriptor <$> runtimes (k_state k) !! id.

Lemma descriptor_core k id : descriptor_of k id = (fun c => c.1.1) <$> core k id.
Proof. unfold descriptor_of, core. by destruct (runtimes (k_state k) !! id). Qed.

Lemma status_core k id : status_of k id = (fun c => c.1.2) <$> core k id.
Proof. unfold status_of, core. by destruct (runtimes (k_state k) !! id). Qed.

(** The fields of the kernel that no pass over the graph changes. *)
Record same_graph (k k' : kernel) : Prop := {
  sg_generation : generation (k_state k') = generation (k_state k);
  sg_order : bootOrder (k_state k') = bootOrder (k_state k);
  sg_incarnation : k_incarnation k' = k_incarnation k;
  sg_descriptor : forall id, descriptor_of k' id = descriptor_of k id
}.

#[export] Instance same_graph_preorder : PreOrder same_graph.
Proof.
  split; [by constructor|]. intros k1 k2 k3 [] []. constructor; try congruence.
Qed.

(** From [k] to [k'] the hooks [cs] were called and nothing else of note happened:
    phase, graph and every runtime are as before, up to readiness. *)
Record stays (cs : list HookCall) (k k' : kernel) : Prop := {
  st_graph : same_graph k k';
  st_phase : phase (k_state k') = phase (k_state k);
  st_core : forall id, core k' id = core k id;
  st_calls : k_calls k' = k_calls k ++ cs
}.

Lemma stays_refl k : stays [] k k.
Proof. constructor; try done. by rewrite app_nil_r. Qed.

Lemma stays_trans cs1 cs2 k1 k2 k3 : stays cs1 k1 k2 -> stays cs2 k2 k3 -> stays (cs1 ++ cs2) k1 k3.
Proof.
  intros [? ? ? Hc1] [? ? ? Hc2]. constructor; [by etrans | congruence | congruence |].
  by rewrite Hc2, Hc1, (assoc_L (++)).
Qed.

Lemma stays_trans_nil cs k1 k2 k3 : stays [] k1 k2 -> stays cs k2 k3 -> stays cs k1 k3.
Proof. apply stays_trans. Qed.

Lemma stays_same_state cs k k' :
  k_state k' = k_state k -> k_incarnation k' = k_incarnation k -> k_calls k' = k_calls k ++ cs -> stays cs k k'.
Proof.
  intros Hs Hi Hc. constructor; [constructor|..]; unfold core, descriptor_of; by rewrite ?Hs.
Qed.

(** The readiness of a runtime is not part of its core. *)
Lemma stays_readiness id r k : stays [] k (k_dispatch (RUNTIME_READINESS id r) k).
Proof.
  pose proof (updateRuntimeEntry_scalars (k_state k) id
    {| patch_status := None; patch_lastError := None; patch_readiness := Some (Some r) |})
    as (Hp & Hl & Hg & Hb & _).
  assert (Hcore : forall i, core (k_dispatch (RUNTIME_READINESS id r) k) i = core k i).
  { intros i. unfold core. cbn. unfold updateRuntimeEntry.
    destruct (runtimes (k_state k) !! id) as [e|] eqn:He; [|done]. cbn.
    rewrite jm_lookup_set. case_decide; [|done]. subst. by rewrite He. }
  constructor; [constructor| | |]; try done.
  - intros i. by rewrite !descriptor_core, Hcore.
  - by rewrite app_nil_r.
Qed.

Lemma stays_begin ctx k : stays [] k (beginReadinessUpdate ctx k).
Proof.
  unfold beginReadinessUpdate. set (k1 := set_readiness (k_readinessRevision k + 1) _ _ _ k).
  assert (Hset : forall a b c d k, stays [] k (set_readiness a b c d k))
    by (intros; apply stays_same_state; cbn; by rewrite ?app_nil_r).
  assert (stays [] k k1) by apply Hset.
  destruct (isContextCurrent ctx k1); (eapply stays_trans_nil; [|apply Hset]); [|done].
  eapply stays_trans_nil; [done|]. eapply stays_trans_nil; [|apply stays_readiness].
  eapply stays_trans_nil; [|apply Hset]. unfold invalidateReadinessUpdates. apply Hset.
Qed.

Lemma stays_settle i e f k : stays [] k (settle i e f k).
Proof.
  unfold settle. destruct (k_updates k !! i) as [u|]; [|apply stays_refl].
  destruct (isCurrent u k); cbn [negb]; [|apply stays_refl].
  eapply stays_trans_nil; [|apply stays_readiness].
  apply stays_same_state; cbn; by rewrite ?app_nil_r.
Qed.

Lemma stays_launch l k : stays [] k (transitionLaunchState l k).2.
Proof.
  unfold transitionLaunchState, gets, mbind, M_bind. cbn.
  case_decide; [apply stays_refl|]. destruct (isValidLaunchStateTransition _ l); cbn; [|apply stays_refl].
  constructor; [constructor|..]; cbn; try done. by rewrite app_nil_r.
Qed.

(** Outside the cold phase no reentrant call touches phase, graph or statuses. *)
Lemma stays_reentry k r : phase (k_state k) <> COLD -> stays [] k (apply_reentry k r).
Proof.
  intros Hp. destruct r; cbn.
  - destruct (k_contexts k !! context); [apply stays_begin | apply stays_refl].
  - apply stays_settle.
  - destruct (k_readinessTimeouts k !! runtimeId); [apply stays_settle | apply stays_refl].
  - apply stays_launch.
  - unfold configureRuntimeGraph, get, mbind, M_bind. cbn.
    assert (stays [] k (set_graph dependencies k)) by (apply stays_same_state; cbn; by rewrite ?app_nil_r).
    destruct (k_graph k); [|done]. destruct (_ && _); [apply stays_refl | done].
  - unfold reset, gets, mbind, M_bind. cbn. rewrite decide_True by done. apply stays_refl.
Qed.

Lemma stays_reentries l k : phase (k_state k) <> COLD -> stays [] k (fold_left apply_reentry l k).
Proof.
  revert k. induction l as [|r l IH]; cbn; intros k Hp; [apply stays_refl|].
  pose proof (stays_reentry k r Hp) as Hr. eapply stays_trans_nil; [exact Hr|].
  apply IH. by rewrite (st_phase _ _ _ Hr).
Qed.

(** ** One runtime changed *)

(** From [k] to [k'] the hooks [cs] were called and runtime [id] got a status. *)
Record marks (id : string) (st : RuntimeBootstrapStatus) (err : option string) (cs : list HookCall)
  (k k' : kernel) : Prop := {
  mk_graph : same_graph k k';
  mk_phase : phase (k_state k') = phase (k_state k);
  mk_core : forall i, i <> id -> core k' i = core k i;
  mk_self : forall d, descriptor_of k id = Some d -> core k' id = Some (d, st, err);
  mk_calls : k_calls k' = k_calls k ++ cs
}.

Lemma marks_stays id st err cs1 cs2 cs3 k1 k2 k3 k4 :
  stays cs1 k1 k2 -> marks id st err cs2 k2 k3 -> stays cs3 k3 k4 ->
  marks id st err (cs1 ++ cs2 ++ cs3) k1 k4.
Proof.
  intros [Hg1 ? Hc1 Ha1] [Hg2 ? Hc2 Hs2 Ha2] [Hg3 ? Hc3 Ha3].
  constructor; [do 2 (etrans; [eassumption|]); done | congruence | | |].
  - intros i Hi. rewrite Hc3, Hc2, Hc1 by done. done.
  - intros d Hd. rewrite Hc3. apply Hs2. by rewrite (sg_descriptor _ _ Hg1).
  - rewrite Ha3, Ha2, Ha1. by rewrite !(assoc_L (++)).
Qed.

Lemma marks_dispatch_readiness a id st err rd k :
  (forall s, lifecycleReducer s a =
     updateRuntimeEntry s id {| patch_status := Some st; patch_lastError := Some err; patch_readiness := rd |}) ->
  marks id st err [] k (k_dispatch a k).
Proof.
  intros Ha. unfold k_dispatch. rewrite Ha.
  set (p := {| patch_status := Some st; patch_lastError := Some err; patch_readiness := rd |}).
  pose proof (updateRuntimeEntry_scalars (k_state k) id p) as (Hp & Hl & Hg & Hb & _).
  assert (Hcore : forall i, core (set_state (updateRuntimeEntry (k_state k) id p) k) i =
            if decide (i = id) then (fun e => (re_descriptor e, st, err)) <$> runtimes (k_state k) !! id
            else core k i).
  { intros i. unfold core, updateRuntimeEntry. cbn.
    destruct (runtimes (k_state k) !! id) as [e|] eqn:He; cbn.
    - rewrite jm_lookup_set. repeat case_decide; subst; done.
    - case_decide; subst; by rewrite ?He. }
  constructor; [constructor| | | |]; cbn; try done.
  - intros i. rewrite !descriptor_core, Hcore. case_decide; [subst|done].
    unfold core. by destruct (runtimes (k_state k) !! id).
  - intros i Hi. rewrite Hcore. by rewrite decide_False.
  - intros d Hd. rewrite Hcore, decide_True by done. unfold descriptor_of in Hd.
    destruct (runtimes (k_state k) !! id); [|done]. cbn in *. by simplify_eq.
  - by rewrite app_nil_r.
Qed.

Lemma marks_dispatch a id st err k :
  (forall s, lifecycleReducer s a =
     updateRuntimeEntry s id {| patch_status := Some st; patch_lastError := Some err; patch_readiness := None |}) ->
  marks id st err [] k (k_dispatch a k).
Proof. apply marks_dispatch_readiness. Qed.

Lemma marks_marks id st1 err1 st err cs1 cs2 k1 k2 k3 :
  marks id st1 err1 cs1 k1 k2 -> marks id st err cs2 k2 k3 -> marks id st err (cs1 ++ cs2) k1 k3.
Proof.
  intros [Hg1 ? Hc1 _ Ha1] [Hg2 ? Hc2 Hs2 Ha2]. constructor; [by etrans | congruence | | |].
  - intros i Hi. by rewrite Hc2, Hc1.
  - intros d Hd. apply Hs2. by rewrite (sg_descriptor _ _ Hg1).
  - by rewrite Ha2, Ha1, (assoc_L (++)).
Qed.

Lemma stays_marks id st err cs1 cs2 k1 k2 k3 :
  stays cs1 k1 k2 -> marks id st err cs2 k2 k3 -> marks id st err (cs1 ++ cs2) k1 k3.
Proof.
  intros H1 H2. rewrite <- (app_nil_r cs2). eapply marks_stays; [done.. | apply stays_refl].
Qed.

Lemma marks_then_stays id st err cs1 cs2 k1 k2 k3 :
  marks id st err cs1 k1 k2 -> stays cs2 k2 k3 -> marks id st err (cs1 ++ cs2) k1 k3.
Proof. intros H1 H2. apply (marks_stays _ _ _ [] cs1 cs2 k1 k1 k2 k3); [apply stays_refl | done..]. Qed.

Lemma stays_emit ev k : stays [] k (k_emit ev k).
Proof. apply stays_same_state; cbn; by rewrite ?app_nil_r. Qed.

Lemma stays_call c k : stays [c] k (k_call c k).
Proof. by apply stays_same_state. Qed.

Lemma stays_invalidate id k : stays [] k (invalidateReadinessUpdates id k).
Proof. destruct id; apply stays_same_state; cbn; by rewrite ?app_nil_r. Qed.

Section runs.
Context `{KernelEnv}.

Lemma stays_suspended {A} (answer : nat -> A) k :
  phase (k_state k) <> COLD ->
  exists k', suspended answer k = (Returned (answer (k_ticks k)), k') /\ stays [] k k'.
Proof.
  intros Hp. eexists. split; [done|]. eapply stays_trans_nil; [|by apply stays_reentries].
  apply stays_same_state; cbn; by rewrite ?app_nil_r.
Qed.

Lemma stays_context d c k :
  exists k', (_ ← runtimeContext d; call c) k = (Returned tt, k') /\ stays [c] k k'.
Proof. eexists. split; [done|]. apply stays_same_state; done. Qed.

(** The outcome of one hook: a success has no message, a failure has one. *)
Definition hook_outcome (id : string) (r : RuntimeOperationResult) : Prop :=
  r = op_result id true None \/ exists msg, r = op_result id false (Some msg).

Lemma runVoid_spec id o (run : M unit) cs k k1 :
  phase (k_state k) <> COLD -> run k = (Returned tt, k1) -> stays cs k k1 ->
  exists r k', runVoidRuntimeOperation id o run k = (Returned r, k') /\ stays cs k k' /\ hook_outcome id r.
Proof.
  intros Hp Hrun Hs. unfold runVoidRuntimeOperation.
  destruct (stays_suspended env_void k1) as (k2 & Hk2 & Hs2); [by rewrite (st_phase _ _ _ Hs)|].
  assert (stays cs k k2) by (rewrite <- (app_nil_r cs); by eapply stays_trans).
  unfold mbind, M_bind. rewrite Hrun, Hk2. unfold hook_outcome.
  destruct (env_void (k_ticks k1)); eexists _, _; (split; [done|]); split; eauto.
Qed.

Lemma runTeardown_spec id (run : M unit) cs k k1 :
  phase (k_state k) <> COLD -> run k = (Returned tt, k1) -> stays cs k k1 ->
  exists r k', runTeardownOperation id run k = (Returned r, k') /\ stays cs k k' /\ op_runtimeId r = id.
Proof.
  intros Hp Hrun Hs. unfold runTeardownOperation.
  destruct (stays_suspended env_teardown k1) as (k2 & Hk2 & Hs2); [by rewrite (st_phase _ _ _ Hs)|].
  assert (stays cs k k2) by (rewrite <- (app_nil_r cs); by eapply stays_trans).
  unfold mbind, M_bind. rewrite Hrun, Hk2.
  destruct (env_teardown (k_ticks k1)); eexists _, _; (split; [done|]); split; eauto.
Qed.

(** ** Bootstrap *)

(** The status and error a runtime has after a result. *)
Definition result_marks (ok : RuntimeBootstrapStatus) (bad : RuntimeBootstrapStatus)
  (r : RuntimeOperationResult) (cs : list HookCall) (k k' : kernel) : Prop :=
  marks (op_runtimeId r) (if op_success r then ok else bad)
    (if op_success r then None else op_errorMessage r) cs k k'.

Lemma bootstrap_one_blocked failed id e dep k :
  runtimes (k_state k) !! id = Some e -> failed_dependency failed e = Some dep ->
  exists k', bootstrap_one failed id k =
    (Returned (Some (op_result id false (Some (dependency_failed_message dep)))), k')
    /\ marks id st_failed (Some (dependency_failed_message dep)) [] k k'.
Proof.
  intros He Hd. unfold bootstrap_one, gets, mbind, M_bind. rewrite He, Hd. cbn.
  eexists. split; [done|]. by apply marks_dispatch.
Qed.

Lemma bootstrap_one_run failed id e k :
  phase (k_state k) <> COLD ->
  runtimes (k_state k) !! id = Some e -> failed_dependency failed e = None ->
  exists r k', bootstrap_one failed id k = (Returned (Some r), k') /\ hook_outcome id r
    /\ result_marks st_ready st_failed r [call_bootstrap id] k k'.
Proof.
  intros Hp He Hd. unfold bootstrap_one, gets, mbind at 1, M_bind at 1. rewrite He, Hd.
  set (k1 := k_dispatch (RUNTIME_BOOTSTRAPPING id) k).
  assert (Hm1 : marks id st_bootstrapping None [] k k1) by (by apply marks_dispatch).
  destruct (stays_context (re_descriptor e) (call_bootstrap id) k1) as (k2 & Hk2 & Hs2).
  destruct (runVoid_spec id "bootstrap" _ _ k1 k2
    ltac:(by rewrite (mk_phase _ _ _ _ _ _ Hm1)) Hk2 Hs2) as (r & k3 & Hr & Hs3 & Ho).
  unfold dispatch, modify, mbind at 1, M_bind at 1. fold k1. cbv iota beta.
  unfold mbind at 1, M_bind at 1. rewrite Hr. exists r.
  pose proof (marks_then_stays _ _ _ _ _ _ _ _ Hm1 Hs3) as Hm3. cbn [app] in Hm3.
  destruct Ho as [->|[msg ->]]; cbn; eexists; (split; [done|]); (split; [unfold hook_outcome; eauto|]);
    rewrite <- (app_nil_r [call_bootstrap id]); (eapply marks_marks; [exact Hm3|]); cbn.
  - apply (marks_then_stays _ _ _ [] []  _ (k_dispatch (RUNTIME_READY id) k3)); [by apply marks_dispatch|].
    apply stays_emit.
  - apply (stays_marks _ _ _ [] [] _ (invalidateReadinessUpdates (Some id) k3)); [apply stays_invalidate|].
    apply (marks_then_stays _ _ _ [] []  _ (k_dispatch (RUNTIME_FAILED id msg)
      (invalidateReadinessUpdates (Some id) k3))); [by apply marks_dispatch | apply stays_emit].
Qed.

(** The results and hook calls of the loop over [ids], given the dependencies of
    each runtime: a runtime with a blocking dependency fails without its hook being
    called; any other one runs its hook. *)
Inductive dep_run (hook : string -> HookCall) (deps : string -> list string)
  : list string -> list string -> list RuntimeOperationResult -> list HookCall -> Prop :=
| dr_done failed : dep_run hook deps failed [] [] []
| dr_blocked failed id ids dep rest calls :
    blocking_dependency failed (deps id) = Some dep ->
    dep_run hook deps (js_set_add id failed) ids rest calls ->
    dep_run hook deps failed (id :: ids)
      (op_result id false (Some (dependency_failed_message dep)) :: rest) calls
| dr_run failed id ids r rest calls :
    blocking_dependency failed (deps id) = None -> hook_outcome id r ->
    dep_run hook deps (if op_success r then failed else js_set_add id failed) ids rest calls ->
    dep_run hook deps failed (id :: ids) (r :: rest) (hook id :: calls).

Definition deps_in (k : kernel) (id : string) : list string :=
  default [] (desc_dependsOn <$> descriptor_of k id).

(** What a whole loop leaves: everything outside [ids] is as before, and each
    result tells the status of its runtime. *)
Record pass (ok bad : RuntimeBootstrapStatus) (ids : list string) (results : list RuntimeOperationResult)
  (cs : list HookCall) (k k' : kernel) : Prop := {
  ps_graph : same_graph k k';
  ps_phase : phase (k_state k') = phase (k_state k);
  ps_out : forall i, i ∉ ids -> core k' i = core k i;
  ps_in : forall r, r ∈ results ->
    core k' (op_runtimeId r) = (fun d => (d, if op_success r then ok else bad,
      if op_success r then None else op_errorMessage r)) <$> descriptor_of k (op_runtimeId r);
  ps_calls : k_calls k' = k_calls k ++ cs
}.

Lemma pass_nil ok bad ids k : pass ok bad ids [] [] k k.
Proof. constructor; try done; [by intros ? ?%elem_of_nil | by rewrite app_nil_r]. Qed.

Lemma pass_cons ok bad id ids r results cs1 cs2 k1 k2 k3 :
  op_runtimeId r = id -> id ∉ ids -> is_Some (descriptor_of k1 id) ->
  (forall r, r ∈ results -> op_runtimeId r ∈ ids) ->
  result_marks ok bad r cs1 k1 k2 -> pass ok bad ids results cs2 k2 k3 ->
  pass ok bad (id :: ids) (r :: results) (cs1 ++ cs2) k1 k3.
Proof.
  intros <- Hni [d Hd] Hin [Hg1 ? Hc1 Hs1 Ha1] [Hg2 ? Ho2 Hi2 Ha2].
  constructor; [by etrans | congruence | | |].
  - intros i [Hne Hi]%not_elem_of_cons. by rewrite Ho2, Hc1.
  - intros r' [->|Hr']%elem_of_cons.
    + rewrite Ho2, (Hs1 d Hd), Hd by done. done.
    + rewrite Hi2 by done. by rewrite (sg_descriptor _ _ Hg1).
  - by rewrite Ha2, Ha1, (assoc_L (++)).
Qed.

#[export] Instance dep_run_proper hook :
  Proper (pointwise_relation string eq ==> eq ==> eq ==> eq ==> eq ==> impl) (dep_run hook).
Proof.
  intros deps deps' Hd ? failed -> ? ids -> ? results -> ? calls -> Hrun.
  induction Hrun; [constructor | eapply dr_blocked | eapply dr_run]; rewrite <- ?(Hd id); eauto.
Qed.

Lemma dep_run_ids hook deps failed ids results calls :
  dep_run hook deps failed ids results calls -> op_runtimeId <$> results = ids.
Proof.
  induction 1 as [|? ? ? ? ? ? ? ? IH|? ? ? r ? ? ? Ho ? IH]; [done|..]; rewrite fmap_cons, IH; [done|].
  by destruct Ho as [->|[? ->]].
Qed.

Lemma bootstrap_loop_spec ids failed k :
  phase (k_state k) <> COLD -> NoDup ids ->
  (forall id, id ∈ ids -> is_Some (runtimes (k_state k) !! id)) ->
  exists results cs k', bootstrap_loop ids failed k = (Returned results, k')
    /\ dep_run call_bootstrap (deps_in k) failed ids results cs
    /\ pass st_ready st_failed ids results cs k k'.
Proof.
  revert failed k. induction ids as [|id ids IH]; intros failed k Hp Hnd Hreg.
  { exists [], [], k. split; [done|]. split; [constructor | apply pass_nil]. }
  apply NoDup_cons in Hnd as [Hni Hnd]. destruct (Hreg id) as [e He]; [left|].
  assert (Hd : descriptor_of k id = Some (re_descriptor e)) by (unfold descriptor_of; by rewrite He).
  assert (Hdeps : desc_dependsOn (re_descriptor e) = deps_in k id) by (unfold deps_in; by rewrite Hd).
  assert (Hstep : exists r k1 cs1, bootstrap_one failed id k = (Returned (Some r), k1)
    /\ op_runtimeId r = id /\ result_marks st_ready st_failed r cs1 k k1
    /\ forall rest calls, dep_run call_bootstrap (deps_in k) (if op_success r then failed else js_set_add id failed) ids rest calls
         -> dep_run call_bootstrap (deps_in k) failed (id :: ids) (r :: rest) (cs1 ++ calls)).
  { destruct (failed_dependency failed e) as [dep|] eqn:Hf.
    - destruct (bootstrap_one_blocked failed id e dep k He Hf) as (k1 & Hk1 & Hm).
      eexists _, k1, []. split; [exact Hk1|]. split; [done|]. split; [exact Hm|]. intros rest calls Hrun.
      apply dr_blocked; [|exact Hrun]. rewrite <- Hdeps. exact Hf.
    - destruct (bootstrap_one_run failed id e k Hp He Hf) as (r & k1 & Hk1 & Ho & Hm).
      exists r, k1, [call_bootstrap id]. split; [exact Hk1|].
      split; [by destruct Ho as [->|[? ->]]|]. split; [exact Hm|]. intros rest calls Hrun.
      apply dr_run; [|done..]. rewrite <- Hdeps. exact Hf. }
  destruct Hstep as (r & k1 & cs1 & Hk1 & Hid & Hm & Hcons).
  pose proof Hm as [Hg1 Hp1 Hc1 _ _].
  destruct (IH (if op_success r then failed else js_set_add id failed) k1) as (results & cs & k' & Hk' & Hrun & Hps).
  { by rewrite Hp1. } { done. }
  { intros i Hi. destruct (Hreg i) as [ei Hei]; [by right|].
    assert (Hsome : descriptor_of k1 i = Some (re_descriptor ei)).
    { rewrite (sg_descriptor _ _ Hg1). unfold descriptor_of. by rewrite Hei. }
    unfold descriptor_of in Hsome. destruct (runtimes (k_state k1) !! i); [eauto|done]. }
  exists (r :: results), (cs1 ++ cs), k'. split; [|split].
  - cbn [bootstrap_loop]. unfold mbind, M_bind. rewrite Hk1, Hk'. done.
  - apply Hcons. eapply dep_run_proper; [|done..|exact Hrun].
    intros i. unfold deps_in. by rewrite (sg_descriptor _ _ Hg1).
  - eapply pass_cons; eauto. intros r' Hr'. rewrite <- (dep_run_ids _ _ _ _ _ _ Hrun).
    by apply list_elem_of_fmap_2.
Qed.

Lemma dep_run_calls hook deps failed ids results calls :
  dep_run hook deps failed ids results calls -> calls `sublist_of` (hook <$> ids).
Proof. induction 1; cbn; [done | by apply sublist_cons | by apply sublist_skip]. Qed.

Lemma dep_run_call_ids hook deps failed ids results calls id :
  (forall i j, hook i = hook j -> i = j) ->
  dep_run hook deps failed ids results calls -> hook id ∈ calls -> id ∈ ids.
Proof.
  intros Hinj Hrun Hin. apply dep_run_calls in Hrun. eapply (elem_of_sublist _ _ _ Hin) in Hrun.
  by apply list_elem_of_fmap in Hrun as (i & ->%Hinj & ?).
Qed.

(** A success is the outcome of a hook. *)
Lemma dep_run_success hook deps failed ids results calls :
  dep_run hook deps failed ids results calls ->
  forall r, r ∈ results -> op_success r = true -> hook (op_runtimeId r) ∈ calls.
Proof.
  induction 1 as [|failed id ids dep rest calls Hh Hrun IH|failed id ids r0 rest calls Hh Ho Hrun IH];
    intros r Hr Hs; [by apply elem_of_nil in Hr|..]; apply elem_of_cons in Hr as [->|Hr]; try done.
  - by apply IH.
  - destruct Ho as [->|[? ->]]; [left | done].
  - right. by apply IH.
Qed.

(** The dependencies of a runtime come before it in the list. *)
Definition backward (deps : string -> list string) (ids : list string) : Prop :=
  forall l1 id l2, ids = l1 ++ id :: l2 -> forall d, d ∈ deps id -> d ∉ id :: l2.

Lemma backward_tail deps id ids : backward deps (id :: ids) -> backward deps ids.
Proof. intros Hb l1 i l2 ->. by apply (Hb (id :: l1) i l2). Qed.

Lemma backward_filter deps ids (P : string -> Prop) `{!forall i, Decision (P i)} :
  backward deps ids -> backward deps (filter P ids).
Proof.
  induction ids as [|id ids IH]; intros Hb; [done|].
  rewrite filter_cons. specialize (IH (backward_tail _ _ _ Hb)). case_decide; [|done].
  intros [|l1h l1] i l2 [= -> Heq] d Hd Hin; [|by apply (IH l1 i l2 Heq d Hd)].
  apply (Hb [] i ids eq_refl d Hd). rewrite elem_of_cons in *. destruct Hin as [->|Hin]; [by left|right].
  rewrite <- Heq in Hin. by apply list_elem_of_filter in Hin as [_ ?].
Qed.

(** No dependency stops a runtime: the first bad one, if any, has the empty name. *)
Definition let_through (bad : string -> Prop) (deps : list string) : Prop :=
  forall before d after, deps = before ++ d :: after ->
    (forall b, b ∈ before -> ~ bad b) -> bad d -> d = ""%string.

Lemma let_through_cons_bad bad d deps : bad d -> let_through bad (d :: deps) <-> d = ""%string.
Proof.
  intros Hd. split.
  - intros Hl. apply (Hl [] d deps eq_refl); [by intros ? ?%elem_of_nil | done].
  - intros -> [|b before] e after [= Hb1 Hb2] Hb; [done|]. subst b. by destruct (Hb _ (list_elem_of_here _ _)).
Qed.

Lemma let_through_cons_good bad d deps : ~ bad d -> let_through bad (d :: deps) <-> let_through bad deps.
Proof.
  intros Hd. split; intros Hl.
  - intros before e after -> Hb. apply (Hl (d :: before) e after eq_refl).
    by intros b [->|?]%elem_of_cons; [|apply Hb].
  - intros [|b before] e after [= ? ?] Hb; simplify_eq; [done|].
    apply (Hl before e after eq_refl). intros b' ?. apply Hb. by right.
Qed.

(** Where no dependency has the empty name, every one has to be good. *)
Lemma let_through_named bad deps :
  ""%string ∉ deps -> let_through bad deps <-> forall d, d ∈ deps -> ~ bad d.
Proof.
  intros Hn. split.
  - intros Hl. induction deps as [|d deps IH]; [by intros ? ?%elem_of_nil|].
    apply not_elem_of_cons in Hn as [Hne Hn].
    assert (Hg : ~ bad d) by (intros Hbad; apply Hne; symmetry; by apply (let_through_cons_bad bad d deps Hbad)).
    intros e [->|He]%elem_of_cons; [done|]. apply (IH Hn); [by apply (let_through_cons_good bad d)|done].
  - intros Hall before d after -> _ Hbad. destruct (Hall d); [set_solver | done].
Qed.

Lemma let_through_ext bad bad' deps :
  (forall d, d ∈ deps -> bad d <-> bad' d) -> let_through bad deps <-> let_through bad' deps.
Proof.
  intros He. split; intros Hl before d after -> Hb Hd; apply (Hl before d after eq_refl);
    try (apply He; [set_solver | done]); intros b Hin Hbad; apply (Hb b Hin), He; set_solver.
Qed.

Lemma blocking_dependency_none failed deps :
  blocking_dependency failed deps = None <-> let_through (fun d => d ∈ failed) deps.
Proof.
  unfold blocking_dependency. induction deps as [|d deps IH].
  - split; [|done]. intros _ [|? ?] ? ? [=].
  - destruct (decide (d ∈ failed)) as [Hd|Hd].
    + rewrite filter_cons_True, let_through_cons_bad by done. cbn [head]. unfold truthy.
      case_bool_decide; cbn; by split.
    + by rewrite filter_cons_False, let_through_cons_good by done.
Qed.

(** A dependency that failed: before the list or in it. *)
Definition dependency_failed (failed : list string) (results : list RuntimeOperationResult) (d : string) : Prop :=
  d ∈ failed \/ exists r, r ∈ results /\ op_runtimeId r = d /\ op_success r = false.

Lemma extend_failed failed r rest d :
  dependency_failed failed (r :: rest) d <->
  dependency_failed (if op_success r then failed else js_set_add (op_runtimeId r) failed) rest d.
Proof.
  assert (Hc : (exists r', r' ∈ r :: rest /\ op_runtimeId r' = d /\ op_success r' = false) <->
    (op_runtimeId r = d /\ op_success r = false)
    \/ exists r', r' ∈ rest /\ op_runtimeId r' = d /\ op_success r' = false).
  { setoid_rewrite elem_of_cons. naive_solver. }
  unfold dependency_failed. rewrite Hc.
  destruct (op_success r); [naive_solver | rewrite js_set_add_elem; naive_solver].
Qed.

(** A hook is called exactly when no failed dependency stops its runtime. *)
Lemma dep_run_called hook deps failed ids results calls :
  (forall i j, hook i = hook j -> i = j) -> dep_run hook deps failed ids results calls -> NoDup ids -> backward deps ids ->
  forall r, r ∈ results ->
    hook (op_runtimeId r) ∈ calls <->
    let_through (dependency_failed failed results) (deps (op_runtimeId r)).
Proof.
  intros Hinj. induction 1 as [|failed id ids dep rest calls Hh Hrun IH|failed id ids r0 rest calls Hh Ho Hrun IH];
    intros Hnd Hb r Hr; [by apply elem_of_nil in Hr|..];
    apply NoDup_cons in Hnd as [Hni Hnd];
    assert (Hids : op_runtimeId <$> rest = ids) by (by eapply dep_run_ids);
    (assert (Hown : forall r1, op_runtimeId r1 = id ->
        let_through (dependency_failed failed (r1 :: rest)) (deps id) <-> blocking_dependency failed (deps id) = None);
      [ intros r1 Hr1; rewrite blocking_dependency_none; apply let_through_ext; intros d Hd;
        split; [intros [?|(r' & Hr' & Hrd & _)] | by left]; [done|];
        exfalso; apply (Hb [] id ids eq_refl d Hd); rewrite <- Hids, <- Hrd, <- Hr1;
        apply (list_elem_of_fmap_2 op_runtimeId (r1 :: rest)), Hr' |]).
  - apply elem_of_cons in Hr as [->|Hr].
    + cbn [op_runtimeId op_result]. rewrite (Hown (op_result id false (Some (dependency_failed_message dep))) eq_refl), Hh. split; [|done].
      intros Hc. destruct Hni. by eapply dep_run_call_ids.
    + rewrite (IH Hnd (backward_tail _ _ _ Hb) r Hr). apply let_through_ext. intros d _. symmetry.
      apply (extend_failed failed (op_result id false (Some (dependency_failed_message dep)))).
  - assert (Hr0 : op_runtimeId r0 = id) by (by destruct Ho as [->|[? ->]]).
    apply elem_of_cons in Hr as [->|Hr].
    + rewrite Hr0, (Hown _ Hr0). split; [done | by left].
    + assert (Hne : op_runtimeId r <> id).
      { intros Heq. apply Hni. rewrite <- Hids, <- Heq. by apply list_elem_of_fmap_2. }
      rewrite elem_of_cons. transitivity (hook (op_runtimeId r) ∈ calls).
      { split; [intros [Heq%Hinj|?]; done | by right]. }
      rewrite (IH Hnd (backward_tail _ _ _ Hb) r Hr). apply let_through_ext. intros d _. subst id. symmetry.
      apply extend_failed.
Qed.

(** ** Phase changes around a pass *)
Record to_phase (p : LifecyclePhase) (k k' : kernel) : Prop := {
  tp_graph : same_graph k k';
  tp_phase : phase (k_state k') = p;
  tp_core : forall id, core k' id = core k id;
  tp_calls : k_calls k' = k_calls k
}.

Lemma to_phase_dispatch a p k :
  (forall s, exists e, lifecycleReducer s a = with_error e (with_phase p s)) -> to_phase p k (k_dispatch a k).
Proof.
  intros Ha. destruct (Ha (k_state k)) as [e He].
  constructor; [constructor|..]; unfold core, descriptor_of, k_dispatch; cbn; by rewrite ?He.
Qed.

Lemma with_phase_error p s : with_phase p s = with_error (error s) (with_phase p s).
Proof. by destruct s. Qed.

Lemma to_phase_stays p k k1 k' : to_phase p k k1 -> stays [] k1 k' -> to_phase p k k'.
Proof.
  intros [Hg ? Hc Ha] [Hg' ? Hc' Ha']. constructor; [by etrans | congruence | |].
  - intros id. by rewrite Hc', Hc.
  - by rewrite Ha', app_nil_r.
Qed.

Lemma pass_phases p q ok bad ids results cs k k1 k2 k3 :
  to_phase p k k1 -> pass ok bad ids results cs k1 k2 -> to_phase q k2 k3 ->
  same_graph k k3 /\ phase (k_state k3) = q /\ k_calls k3 = k_calls k ++ cs
  /\ (forall i, i ∉ ids -> core k3 i = core k i)
  /\ (forall r, r ∈ results -> core k3 (op_runtimeId r) =
        (fun d => (d, if op_success r then ok else bad, if op_success r then None else op_errorMessage r))
          <$> descriptor_of k (op_runtimeId r)).
Proof.
  intros [Hg1 ? Hc1 Ha1] [Hg2 ? Ho2 Hi2 Ha2] [Hg3 ? Hc3 Ha3].
  split; [by do 2 (etrans; [eassumption|])|]. split; [done|].
  split; [by rewrite Ha3, Ha2, Ha1|]. split.
  - intros i Hi. by rewrite Hc3, Ho2, Hc1.
  - intros r Hr. by rewrite Hc3, Hi2, (sg_descriptor _ _ Hg1).
Qed.

Lemma registered_descriptor k id : is_Some (descriptor_of k id) <-> is_Some (runtimes (k_state k) !! id).
Proof. unfold descriptor_of. apply fmap_is_Some. Qed.

(** In a well-formed state the order respects the dependencies. *)
Lemma wf_backward k : kernel_wf (k_state k) -> backward (deps_in k) (bootOrder (k_state k)).
Proof.
  intros Hwf l1 id l2 Hord d Hd Hin. unfold deps_in, descriptor_of in Hd.
  destruct (runtimes (k_state k) !! id) as [e|] eqn:He; [|by apply elem_of_nil in Hd]. cbn in Hd.
  pose proof (kw_order _ Hwf _ _ _ _ Hord He _ Hd) as Hl.
  pose proof (kw_nodup _ Hwf) as Hnd. rewrite Hord in Hnd. apply NoDup_app in Hnd as (_ & Hdis & _).
  by apply (Hdis d Hl).
Qed.

Lemma deps_in_order k id d :
  kernel_wf (k_state k) -> id ∈ bootOrder (k_state k) -> d ∈ deps_in k id -> d ∈ bootOrder (k_state k).
Proof.
  intros Hwf Hid Hd. apply list_elem_of_split in Hid as (l1 & l2 & Hord).
  unfold deps_in, descriptor_of in Hd.
  destruct (runtimes (k_state k) !! id) as [e|] eqn:He; [|by apply elem_of_nil in Hd].
  pose proof (kw_order _ Hwf _ _ _ _ Hord He _ Hd). rewrite Hord. set_solver.
Qed.

Lemma assert_ok p k : isValidPhaseTransition (phase (k_state k)) p = true -> assertPhaseTransition p k = (Returned tt, k).
Proof. intros Hv. unfold assertPhaseTransition, gets, mbind, M_bind. by rewrite Hv. Qed.

Lemma assert_fails p k : isValidPhaseTransition (phase (k_state k)) p = false ->
  exists v, assertPhaseTransition p k = (Thrown v, k).
Proof. intros Hv. unfold assertPhaseTransition, gets, mbind, M_bind. rewrite Hv. by eexists. Qed.

(** The whole of [bootstrapRuntimes]. *)
Definition boot_outcome (k k' : kernel) (results : list RuntimeOperationResult) (cs : list HookCall) : Prop :=
  same_graph k k' /\ phase (k_state k') = ACTIVE /\ k_calls k' = k_calls k ++ cs
  /\ dep_run call_bootstrap (deps_in k) [] (bootOrder (k_state k)) results cs
  /\ (forall r, r ∈ results -> core k' (op_runtimeId r) =
        (fun d => (d, if op_success r then st_ready else st_failed,
                   if op_success r then None else op_errorMessage r)) <$> descriptor_of k (op_runtimeId r)).

Lemma bootstrapRuntimes_run k :
  kernel_wf (k_state k) -> phase (k_state k) = COLD ->
  exists results cs k', bootstrapRuntimes k = (Returned results, k') /\ boot_outcome k k' results cs.
Proof.
  intros Hwf Hp. unfold bootstrapRuntimes, mbind at 1, M_bind at 1.
  rewrite assert_ok by (by rewrite Hp).
  set (k1 := k_dispatch BEGIN_BOOTSTRAP k).
  assert (H1 : to_phase BOOTSTRAPPING k k1) by (apply to_phase_dispatch; intros s; by exists None).
  pose proof (sg_order _ _ (tp_graph _ _ _ H1)) as Hord.
  unfold dispatch, modify, gets, mbind at 1, M_bind at 1. fold k1. cbv iota beta.
  unfold mbind at 1, M_bind at 1. cbv iota beta. rewrite Hord.
  destruct (bootstrap_loop_spec (bootOrder (k_state k)) [] k1) as (results & cs & k2 & Hl & Hrun & Hps).
  { by rewrite (tp_phase _ _ _ H1). } { apply (kw_nodup _ Hwf). }
  { intros id Hid. apply registered_descriptor. rewrite (sg_descriptor _ _ (tp_graph _ _ _ H1)).
    by apply registered_descriptor, (kw_dom _ Hwf). }
  unfold mbind at 1, M_bind at 1. rewrite Hl.
  exists results, cs. eexists. split; [reflexivity|].
  match goal with |- boot_outcome k ?k' _ _ => assert (H3 : to_phase ACTIVE k2 k') end.
  { eapply to_phase_stays; [|eapply stays_trans_nil; apply stays_emit].
    apply to_phase_dispatch. intros s. exists (error s). by destruct s. }
  destruct (pass_phases _ _ _ _ _ _ _ _ _ _ _ H1 Hps H3) as (? & ? & ? & _ & ?).
  split; [done|]. split; [done|]. split; [done|]. split; [|done]. eapply dep_run_proper; [|done..|exact Hrun].
  intros i. unfold deps_in. by rewrite (sg_descriptor _ _ (tp_graph _ _ _ H1)).
Qed.

(** ** One runtime torn down, suspended or resumed *)
Lemma teardown_one_run ctx id k :
  phase (k_state k) <> COLD ->
  exists r k', teardown_one ctx id k = (Returned r, k') /\ op_runtimeId r = id
    /\ marks id (if op_success r then st_torn_down else st_failed)
         (if op_success r then None
          else Some (default "mobile.lifecycle.teardownFailed"%string (op_errorMessage r)))
         [call_teardown id ctx] k k'.
Proof.
  intros Hp. set (k1 := k_dispatch (RUNTIME_TEARING_DOWN id) k).
  assert (Hm1 : marks id st_tearing_down None [] k k1) by (by apply marks_dispatch).
  destruct (runTeardown_spec id (call (call_teardown id ctx)) [call_teardown id ctx] k1 (k_call (call_teardown id ctx) k1))
    as (r & k2 & Hr & Hs & Hid); [by rewrite (mk_phase _ _ _ _ _ _ Hm1) | done | by apply stays_call |].
  unfold teardown_one, dispatch, modify, mbind, M_bind. fold k1. cbv iota beta. rewrite Hr.
  eexists r, _. split; [reflexivity|]. split; [done|].
  pose proof (marks_then_stays _ _ _ _ _ _ _ _ Hm1 Hs) as Hm2. cbn [app] in Hm2.
  rewrite <- (app_nil_r [_]). eapply marks_marks; [exact Hm2|].
  destruct (op_success r); by apply marks_dispatch.
Qed.

Lemma suspend_one_run id k :
  phase (k_state k) <> COLD ->
  exists r k', suspend_one id k = (Returned r, k') /\ hook_outcome id r
    /\ marks id st_suspended (if op_success r then None else op_errorMessage r) [call_suspend id] k k'.
Proof.
  intros Hp.
  destruct (runVoid_spec id "suspend" (call (call_suspend id)) [call_suspend id] k (k_call (call_suspend id) k))
    as (r & k2 & Hr & Hs & Ho); [done | done | by apply stays_call |].
  unfold suspend_one, dispatch, modify, mbind, M_bind. rewrite Hr.
  eexists r, _. split; [reflexivity|]. split; [done|].
  rewrite <- (app_nil_r [_]). eapply stays_marks; [exact Hs|].
  destruct Ho as [->|[msg ->]]; by apply marks_dispatch.
Qed.

Lemma resume_one_blocked failed id e dep k :
  failed_dependency failed e = Some dep ->
  exists k', resume_one failed id e k =
    (Returned (op_result id false (Some (dependency_failed_message dep))), k')
    /\ marks id st_suspended (Some (dependency_failed_message dep)) [] k k'.
Proof.
  intros Hd. unfold resume_one, mbind, M_bind. rewrite Hd. eexists. split; [done|]. by apply marks_dispatch.
Qed.

Lemma resume_one_run failed id e k :
  phase (k_state k) <> COLD -> failed_dependency failed e = None ->
  exists r k', resume_one failed id e k = (Returned r, k') /\ hook_outcome id r
    /\ result_marks st_ready st_suspended r [call_resume id] k k'.
Proof.
  intros Hp Hd. unfold resume_one. rewrite Hd.
  set (k1 := k_dispatch (RUNTIME_RESUMING id) k).
  assert (Hm1 : marks id st_resuming None [] k k1) by (by apply (marks_dispatch_readiness _ _ _ _ (Some None))).
  destruct (stays_context (re_descriptor e) (call_resume id) k1) as (k2 & Hk2 & Hs2).
  destruct (runVoid_spec id "resume" _ _ k1 k2
    ltac:(by rewrite (mk_phase _ _ _ _ _ _ Hm1)) Hk2 Hs2) as (r & k3 & Hr & Hs3 & Ho).
  unfold dispatch, modify, mbind at 1, M_bind at 1. fold k1. cbv iota beta.
  unfold mbind at 1, M_bind at 1. rewrite Hr. exists r.
  pose proof (marks_then_stays _ _ _ _ _ _ _ _ Hm1 Hs3) as Hm3. cbn [app] in Hm3.
  destruct Ho as [->|[msg ->]]; cbn; eexists; (split; [done|]); (split; [unfold hook_outcome; eauto|]);
    rewrite <- (app_nil_r [call_resume id]); (eapply marks_marks; [exact Hm3|]); cbn.
  - by apply marks_dispatch.
  - apply (stays_marks _ _ _ [] [] _ (invalidateReadinessUpdates (Some id) k3)); [apply stays_invalidate|].
    by apply marks_dispatch.
Qed.

(** ** The teardown and suspend loops *)

(** A pass that visits, in the order given, exactly the runtimes of [ids] that
    satisfy [P] and calls one hook for each. *)
Record visit_pass (P : string -> Prop) `{!forall i, Decision (P i)} (hook : string -> HookCall)
  (ids : list string) (k k' : kernel) : Prop := {
  vp_graph : same_graph k k';
  vp_phase : phase (k_state k') = phase (k_state k);
  vp_calls : k_calls k' = k_calls k ++ (hook <$> filter P ids);
  vp_out : forall i, i ∉ filter P ids -> core k' i = core k i
}.

Lemma visit_pass_cons P `{!forall i, Decision (P i)} hook id ids st err k1 k2 k3 :
  P id -> id ∉ ids ->
  marks id st err [hook id] k1 k2 -> visit_pass P hook ids k2 k3 ->
  visit_pass P hook (id :: ids) k1 k3.
Proof.
  intros HP Hni [Hg1 ? Hc1 _ Ha1] [Hg2 ? Ha2 Ho2].
  constructor; rewrite ?filter_cons_True by done; [by etrans | congruence | |].
  - by rewrite Ha2, Ha1, <- (assoc_L (++)).
  - intros i [Hne Hi]%not_elem_of_cons. by rewrite Ho2, Hc1.
Qed.

Lemma visit_pass_skip P `{!forall i, Decision (P i)} hook id ids k1 k3 :
  ~ P id -> visit_pass P hook ids k1 k3 -> visit_pass P hook (id :: ids) k1 k3.
Proof. intros HP [? ? ? ?]. constructor; rewrite ?filter_cons_False by done; done. Qed.

Lemma visit_pass_ext P Q `{!forall i, Decision (P i)} `{!forall i, Decision (Q i)} hook ids k1 k3 :
  (forall i, i ∈ ids -> P i <-> Q i) -> visit_pass P hook ids k1 k3 -> visit_pass Q hook ids k1 k3.
Proof.
  intros HPQ [? ? Ha Ho]. rewrite (filter_ext_in _ _ _ HPQ) in Ha, Ho. by constructor.
Qed.

Definition needs_teardown (k : kernel) (id : string) : Prop :=
  teardown_skipped (runtimes (k_state k) !! id) = false.

Definition is_ready (k : kernel) (id : string) : Prop := status_of k id = Some st_ready.

#[export] Instance needs_teardown_dec k id : Decision (needs_teardown k id).
Proof. unfold needs_teardown. apply _. Defined.
#[export] Instance is_ready_dec k id : Decision (is_ready k id).
Proof. unfold is_ready. apply _. Defined.

Lemma needs_teardown_status k id :
  needs_teardown k id <->
  exists st, status_of k id = Some st /\ st <> st_pending /\ st <> st_torn_down.
Proof.
  unfold needs_teardown, status_of. destruct (runtimes (k_state k) !! id) as [e|]; cbn.
  - rewrite orb_false_iff, !bool_decide_eq_false. naive_solver.
  - naive_solver.
Qed.

Lemma needs_teardown_core k k' id : core k' id = core k id -> needs_teardown k' id <-> needs_teardown k id.
Proof. intros Hc. by rewrite !needs_teardown_status, !status_core, Hc. Qed.

Lemma teardown_loop_spec ctx ids k :
  phase (k_state k) <> COLD -> NoDup ids ->
  exists results k', teardown_loop ctx ids k = (Returned results, k')
    /\ visit_pass (needs_teardown k) (fun id => call_teardown id ctx) ids k k'
    /\ op_runtimeId <$> results = filter (needs_teardown k) ids
    /\ forall r, r ∈ results -> status_of k' (op_runtimeId r) = Some (if op_success r then st_torn_down else st_failed).
Proof.
  revert k. induction ids as [|id ids IH]; intros k Hp Hnd.
  { exists [], k. split; [done|]. split; [|split; [done|by intros ? ?%elem_of_nil]].
    constructor; try done. by rewrite app_nil_r. }
  apply NoDup_cons in Hnd as [Hni Hnd]. cbn [teardown_loop]. unfold gets, mbind, M_bind.
  destruct (teardown_skipped (runtimes (k_state k) !! id)) eqn:Hsk.
  - assert (~ needs_teardown k id) by (unfold needs_teardown; congruence).
    destruct (IH k Hp Hnd) as (results & k' & -> & Hv & Hids & Hst).
    exists results, k'. split; [done|]. split; [by apply visit_pass_skip|].
    by rewrite filter_cons_False.
  - destruct (teardown_one_run ctx id k Hp) as (r & k1 & -> & Hid & Hm).
    pose proof Hm as [Hg1 Hp1 Hc1 Hs1 _].
    destruct (IH k1) as (results & k' & -> & Hv & Hids & Hst); [by rewrite Hp1 | done |].
    assert (Hext : forall i, i ∈ ids -> needs_teardown k1 i <-> needs_teardown k i).
    { intros i Hi. apply needs_teardown_core, Hc1. by intros ->. }
    exists (r :: results), k'. split; [done|]. split; [|split].
    + eapply visit_pass_cons; [done.. | by eapply visit_pass_ext].
    + rewrite fmap_cons, Hid, Hids, filter_cons_True by done. f_equal. by apply filter_ext_in.
    + assert (is_Some (descriptor_of k id)) as [d Hd].
      { apply registered_descriptor. destruct (runtimes (k_state k) !! id); [eauto | done]. }
      intros r' [->|Hr']%elem_of_cons; [|by apply Hst]. rewrite status_core, Hid, (vp_out _ _ _ _ _ Hv).
      * by rewrite (Hs1 d Hd).
      * rewrite list_elem_of_filter. tauto.
Qed.

Lemma suspend_loop_spec ids k :
  phase (k_state k) <> COLD -> NoDup ids ->
  exists failures k', suspend_loop ids k = (Returned failures, k')
    /\ visit_pass (is_ready k) call_suspend ids k k'
    /\ (forall id, id ∈ filter (is_ready k) ids -> status_of k' id = Some st_suspended)
    /\ op_runtimeId <$> failures `sublist_of` filter (is_ready k) ids.
Proof.
  revert k. induction ids as [|id ids IH]; intros k Hp Hnd.
  { exists [], k. split; [done|]. split; [|split; [by intros ? ?%elem_of_nil | done]].
    constructor; try done. by rewrite app_nil_r. }
  apply NoDup_cons in Hnd as [Hni Hnd]. cbn [suspend_loop]. unfold gets, mbind, M_bind.
  case_decide as Hst.
  - assert (~ is_ready k id) by done.
    destruct (IH k Hp Hnd) as (results & k' & -> & Hv & Hs & Hf).
    exists results, k'. split; [done|]. split; [by apply visit_pass_skip|].
    by rewrite filter_cons_False.
  - assert (is_ready k id) by (exact Hst).
    destruct (suspend_one_run id k Hp) as (r & k1 & -> & Ho & Hm).
    pose proof Hm as [Hg1 Hp1 Hc1 Hs1 _].
    destruct (IH k1) as (results & k' & -> & Hv & Hs & Hf); [by rewrite Hp1 | done |].
    assert (Hext : forall i, i ∈ ids -> is_ready k1 i <-> is_ready k i).
    { intros i Hi. unfold is_ready. rewrite !status_core, Hc1; [done|]. by intros ->. }
    eexists _, k'. split; [reflexivity|]. split; [|split].
    + eapply visit_pass_cons; [done.. | by eapply visit_pass_ext].
    + rewrite filter_cons_True by done. intros i [->|Hi]%elem_of_cons.
      * assert (is_Some (descriptor_of k id)) as [d Hd].
        { apply registered_descriptor. unfold is_ready, status_of in *. destruct (runtimes (k_state k) !! id); [eauto | done]. }
        rewrite status_core, (vp_out _ _ _ _ _ Hv); [by rewrite (Hs1 d Hd)|].
        rewrite list_elem_of_filter. tauto.
      * apply Hs. by rewrite (filter_ext_in _ _ _ Hext).
    + rewrite filter_cons_True by done. rewrite (filter_ext_in _ _ _ Hext) in Hf.
      destruct Ho as [->|[msg ->]]; cbn; [by apply sublist_cons | by apply sublist_skip].
Qed.

(** ** The resume loop *)
Definition is_suspended (k : kernel) (id : string) : Prop := status_of k id = Some st_suspended.

#[export] Instance is_suspended_dec k id : Decision (is_suspended k id).
Proof. unfold is_suspended. apply _. Defined.

Lemma pass_ext ok bad ids results cs k k' k1 :
  pass ok bad ids results cs k k' -> k1 = k -> pass ok bad ids results cs k1 k'.
Proof. by intros ? ->. Qed.

(** Only suspended runtimes take part; they follow the same dependency rule as at
    bootstrap, and the loop returns the failures. *)
Lemma resume_loop_spec ids failed k :
  phase (k_state k) <> COLD -> NoDup ids ->
  exists results cs k',
    resume_loop ids failed k = (Returned (filter (fun r => op_success r = false) results), k')
    /\ dep_run call_resume (deps_in k) failed (filter (is_suspended k) ids) results cs
    /\ pass st_ready st_suspended (filter (is_suspended k) ids) results cs k k'.
Proof.
  revert failed k. induction ids as [|id ids IH]; intros failed k Hp Hnd.
  { exists [], [], k. split; [done|]. split; [constructor | apply pass_nil]. }
  apply NoDup_cons in Hnd as [Hni Hnd]. cbn [resume_loop].
  unfold gets, mbind at 1, M_bind at 1. cbv iota beta.
  destruct (decide (is_suspended k id)) as [Hs|Hs].
  2: { rewrite filter_cons_False by done.
       destruct (IH failed k Hp Hnd) as (results & cs & k' & Hr & ? & ?). exists results, cs, k'.
       split; [|done]. rewrite <- Hr. unfold is_suspended, status_of in Hs.
       destruct (runtimes (k_state k) !! id); [|done]. rewrite decide_True; [done|]. intros Heq. apply Hs. cbn. by rewrite Heq. }
  rewrite filter_cons_True by done. unfold is_suspended in Hs.
  destruct (runtimes (k_state k) !! id) as [e|] eqn:He; [|unfold status_of in Hs; by rewrite He in Hs].
  assert (Hst : re_status e = st_suspended).
  { unfold status_of in Hs. rewrite He in Hs. by injection Hs. }
  rewrite decide_False by tauto.
  assert (Hd : descriptor_of k id = Some (re_descriptor e)) by (unfold descriptor_of; by rewrite He).
  assert (Hdeps : desc_dependsOn (re_descriptor e) = deps_in k id) by (unfold deps_in; by rewrite Hd).
  assert (Hstep : exists r k1 cs1, resume_one failed id e k = (Returned r, k1)
    /\ op_runtimeId r = id /\ result_marks st_ready st_suspended r cs1 k k1
    /\ forall ids rest calls, dep_run call_resume (deps_in k) (if op_success r then failed else js_set_add id failed) ids rest calls
         -> dep_run call_resume (deps_in k) failed (id :: ids) (r :: rest) (cs1 ++ calls)).
  { destruct (failed_dependency failed e) as [dep|] eqn:Hf.
    - destruct (resume_one_blocked failed id e dep k Hf) as (k1 & Hk1 & Hm).
      eexists _, k1, []. split; [exact Hk1|]. split; [done|]. split; [exact Hm|]. intros ids' rest calls Hrun.
      apply dr_blocked; [|exact Hrun]. rewrite <- Hdeps. exact Hf.
    - destruct (resume_one_run failed id e k Hp Hf) as (r & k1 & Hk1 & Ho & Hm).
      exists r, k1, [call_resume id]. split; [exact Hk1|].
      split; [by destruct Ho as [->|[? ->]]|]. split; [exact Hm|]. intros ids' rest calls Hrun.
      apply dr_run; [|done..]. rewrite <- Hdeps. exact Hf. }
  destruct Hstep as (r & k1 & cs1 & Hk1 & Hid & Hm & Hcons).
  pose proof Hm as [Hg1 Hp1 Hc1 _ _].
  destruct (IH (if op_success r then failed else js_set_add id failed) k1) as (results & cs & k' & Hk' & Hrun & Hps).
  { by rewrite Hp1. } { done. }
  assert (Hext : forall i, i ∈ ids -> is_suspended k1 i <-> is_suspended k i).
  { intros i Hi. unfold is_suspended. rewrite !status_core, Hc1; [done|]. rewrite Hid. by intros ->. }
  rewrite (filter_ext_in _ _ _ Hext) in Hrun, Hps.
  exists (r :: results), (cs1 ++ cs), k'. split; [|split].
  - unfold mbind, M_bind. rewrite Hk1, filter_cons. destruct (op_success r); cbn [decide];
      [rewrite decide_False by done; exact Hk' | rewrite decide_True by done; by rewrite Hk'].
  - apply Hcons. eapply dep_run_proper; [|done..|exact Hrun].
    intros i. unfold deps_in. by rewrite (sg_descriptor _ _ Hg1).
  - eapply pass_cons; eauto; [rewrite list_elem_of_filter; tauto|].
    intros r' Hr'. rewrite <- (dep_run_ids _ _ _ _ _ _ Hrun). by apply list_elem_of_fmap_2.
Qed.
End runs.
