(* ===== verification/MobileKernelSafety.v ===== *)
(** * Correctness of the mobile lifecycle kernel

    Theorems about whole operations and sessions of [MobileKernel]: the invariant
    and the snapshot, stable phases between operations, the order of hooks, fenced
    owner mutations, stale readiness updates and launch-state resolution. *)
From stdpp Require Import base strings list relations.
From S2P Require Import Prelude MobileTypes TopoSort MobileReducer.
From S2P Require Import MobileKernel MobileKernelFacts MobileKernelRuns.

(** ** Snapshots *)
Lemma snapshot_of_ok k id :
  kernel_wf (k_state k) -> id ∈ bootOrder (k_state k) ->
  exists snap, snapshot_of id k = (Returned snap, k) /\ snap_id snap = id
    /\ (snap_status snap = st_ready <-> available (k_state k) id).
Proof.
  intros Hwf Hin. apply (kw_dom _ Hwf) in Hin as [e He].
  destruct (availability_defined _ id Hwf) as (r & Hr & Hspec).
  unfold snapshot_of, gets, mbind, M_bind. rewrite He, Hr.
  destruct r as [snap|]; [|by pose proof (proj1 (as_none _ _ _ Hspec) eq_refl); simplify_eq].
  exists snap. split; [done|]. split; [by apply (as_id _ _ _ Hspec)|].
  rewrite <- (as_ready _ _ _ Hspec). cbn. split; [by intros -> | by intros [=]].
Qed.

Lemma snapshots_ok k ids :
  kernel_wf (k_state k) -> (forall id, id ∈ ids -> id ∈ bootOrder (k_state k)) ->
  exists snaps, map_M snapshot_of ids k = (Returned snaps, k) /\ snap_id <$> snaps = ids
    /\ Forall (fun s => snap_status s = st_ready <-> available (k_state k) (snap_id s)) snaps.
Proof.
  intros Hwf. induction ids as [|id ids IH]; intros Hin; cbn.
  { exists []. split; [done|]. by split. }
  destruct (snapshot_of_ok k id Hwf) as (snap & Hs & Hid & Hr); [apply Hin; left|].
  destruct IH as (snaps & Hss & Hids & Hall); [intros i ?; apply Hin; by right|].
  exists (snap :: snaps). unfold mbind, M_bind. rewrite Hs, Hss, fmap_cons, Hid, Hids.
  split; [done|]. split; [done|]. constructor; [by rewrite Hid | done].
Qed.

Lemma getSnapshot_ok k : kernel_wf (k_state k) ->
  exists snap, getSnapshot k = (Returned snap, k)
    /\ ks_phase snap = phase (k_state k) /\ ks_generation snap = generation (k_state k)
    /\ ks_bootOrder snap = bootOrder (k_state k) /\ snap_id <$> ks_runtimes snap = bootOrder (k_state k)
    /\ Forall (fun s => snap_status s = st_ready <-> available (k_state k) (snap_id s)) (ks_runtimes snap).
Proof.
  intros Hwf. unfold getSnapshot, gets, mbind at 1, M_bind at 1.
  destruct (snapshots_ok k (bootOrder (k_state k)) Hwf) as (snaps & Hs & ? & ?); [done|].
  unfold mbind, M_bind. rewrite Hs. by eexists.
Qed.

(** ** Stable phases *)

(** The phases a kernel rests in; the other four are passed through. *)
Definition stable (k : kernel) : Prop :=
  phase (k_state k) = COLD \/ phase (k_state k) = ACTIVE \/ phase (k_state k) = SUSPENDED
  \/ phase (k_state k) = TEARDOWN_FAILED.

Definition steady (k k' : kernel) : Prop :=
  kernel_wf (k_state k) /\ stable k -> kernel_wf (k_state k') /\ stable k'.

#[export] Instance steady_preorder : PreOrder steady.
Proof. unfold steady. split; [by intros k | intros k1 k2 k3; tauto]. Qed.

Lemma steady_phase k k' : evolves k k' -> phase (k_state k') = phase (k_state k) -> steady k k'.
Proof. intros He Hp [Hwf Hs]. split; [by apply (ev_wf _ _ He) | unfold stable; by rewrite Hp]. Qed.

Lemma steady_stable k k' : evolves k k' -> (kernel_wf (k_state k) -> stable k -> stable k') -> steady k k'.
Proof. intros He Hp [Hwf Hs]. split; [by apply (ev_wf _ _ He) | auto]. Qed.

Lemma reentry_phase k r : phase (k_state (apply_reentry k r)) = phase (k_state k).
Proof.
  destruct r; cbn.
  - destruct (k_contexts k !! context); [apply (st_phase _ _ _ (stays_begin _ _)) | done].
  - apply (st_phase _ _ _ (stays_settle _ _ _ _)).
  - destruct (k_readinessTimeouts k !! runtimeId); [apply (st_phase _ _ _ (stays_settle _ _ _ _)) | done].
  - apply (st_phase _ _ _ (stays_launch _ _)).
  - unfold configureRuntimeGraph, get, mbind, M_bind. cbn.
    destruct (k_graph k); [|done]. by destruct (_ && _).
  - unfold reset, gets, mbind, M_bind. cbn. case_decide as Hp; cbn; [done|].
    symmetry. apply dec_stable, Hp || exact Hp.
Qed.

Lemma reentries_phase l k : phase (k_state (fold_left apply_reentry l k)) = phase (k_state k).
Proof.
  revert k. induction l as [|r l IH]; cbn; intros k; [done|]. by rewrite IH, reentry_phase.
Qed.

Section safety.
Context `{KernelEnv}.

(** ** Whole passes *)

(** The end of a pass that may have failures: announce and throw. *)
Lemma throw_failure_stays err k :
  exists r k', throw_failure err k = (r, k') /\ stays [] k k'
    /\ (r = Returned tt <-> truthy_opt err = false).
Proof.
  unfold throw_failure, truthy_opt. destruct err as [e|]; [destruct (truthy e)|];
    eexists _, _; (split; [reflexivity|]); (split; [apply stays_emit || apply stays_refl|]); by split.
Qed.

Lemma aggregateFailureKey_truthy o failures :
  truthy_opt (aggregateFailureKey o failures) = bool_decide (failures <> []).
Proof. by destruct failures. Qed.

(** The start of a pass that drops pending readiness updates first. *)
Lemma begin_phase a p k :
  (forall s, exists e, lifecycleReducer s a = with_error e (with_phase p s)) ->
  to_phase p k (k_dispatch a (invalidateReadinessUpdates None k)).
Proof.
  intros Ha. destruct (stays_invalidate None k) as [Hg _ Hc Hl].
  destruct (to_phase_dispatch a p (invalidateReadinessUpdates None k) Ha) as [Hg' ? Hc' Hl'].
  constructor; [by etrans | done | |].
  - intros id. by rewrite Hc', Hc.
  - by rewrite Hl', Hl, app_nil_r.
Qed.

Definition suspend_outcome (k k' : kernel) : Prop :=
  same_graph k k' /\ phase (k_state k') = SUSPENDED
  /\ k_calls k' = k_calls k ++ (call_suspend <$> filter (is_ready k) (rev (bootOrder (k_state k))))
  /\ (forall id, id ∈ bootOrder (k_state k) -> status_of k id = Some st_ready -> status_of k' id = Some st_suspended)
  /\ (forall id, status_of k id <> Some st_ready -> core k' id = core k id).

Lemma suspendRuntimes_run k :
  kernel_wf (k_state k) -> phase (k_state k) = ACTIVE ->
  exists r k', suspendRuntimes k = (r, k') /\ suspend_outcome k k'.
Proof.
  intros Hwf Hp. unfold suspendRuntimes, mbind at 1, M_bind at 1. rewrite assert_ok by (by rewrite Hp).
  unfold dispatch, modify, mbind at 1, M_bind at 1. cbv iota beta.
  unfold mbind at 1, M_bind at 1. cbv iota beta.
  set (k1 := k_dispatch BEGIN_SUSPEND (invalidateReadinessUpdates None k)).
  assert (H1 : to_phase SUSPENDING k k1) by (apply begin_phase; intros s; exists (error s); by destruct s).
  pose proof (sg_order _ _ (tp_graph _ _ _ H1)) as Hord.
  unfold gets, mbind at 1, M_bind at 1. cbv iota beta. rewrite Hord. unfold reverseTeardownOrder.
  destruct (suspend_loop_spec (rev (bootOrder (k_state k))) k1) as (failures & k2 & Hl & Hv & Hs & _).
  { by rewrite (tp_phase _ _ _ H1). } { apply NoDup_reversed, (kw_nodup _ Hwf). }
  unfold mbind at 1, M_bind at 1. rewrite Hl. cbv zeta.
  set (err := aggregateFailureKey "suspend" failures).
  unfold mbind at 1, M_bind at 1. cbv iota beta.
  unfold emitEvent, modify, mbind at 1, M_bind at 1. cbv iota beta.
  set (k3 := k_emit _ _).
  destruct (throw_failure_stays err k3) as (r & k4 & Hr & Hs4 & _).
  exists r, k4. split; [exact Hr|].
  assert (H3 : to_phase SUSPENDED k2 k4).
  { eapply to_phase_stays; [|exact Hs4]. eapply to_phase_stays; [|apply stays_emit].
    apply to_phase_dispatch. intros s. by exists err. }
  assert (Hext : forall i, i ∈ rev (bootOrder (k_state k)) -> is_ready k1 i <-> is_ready k i).
  { intros i _. unfold is_ready. by rewrite !status_core, (tp_core _ _ _ H1). }
  rewrite (filter_ext_in _ _ _ Hext) in Hs. apply (visit_pass_ext _ _ _ _ _ _ Hext) in Hv.
  destruct H1 as [Hg1 ? Hc1 Ha1], Hv as [Hg2 ? Ha2 Ho2], H3 as [Hg3 ? Hc3 Ha3].
  split; [by do 2 (etrans; [eassumption|])|]. split; [done|]. split; [by rewrite Ha3, Ha2, Ha1|]. split.
  - intros id Hin Hst. rewrite status_core, Hc3, <- status_core. apply Hs.
    apply list_elem_of_filter. split; [done|]. by apply elem_of_rev.
  - intros id Hst. rewrite Hc3, Ho2, Hc1; [done|]. rewrite list_elem_of_filter. tauto.
Qed.

Definition resume_outcome (k k' : kernel) (results : list RuntimeOperationResult) (cs : list HookCall) : Prop :=
  same_graph k k'
  /\ phase (k_state k') = (if bool_decide (Forall (fun r => op_success r = true) results) then ACTIVE else SUSPENDED)
  /\ k_calls k' = k_calls k ++ cs
  /\ dep_run call_resume (deps_in k) [] (filter (is_suspended k) (bootOrder (k_state k))) results cs
  /\ (forall r, r ∈ results -> core k' (op_runtimeId r) =
        (fun d => (d, if op_success r then st_ready else st_suspended,
                   if op_success r then None else op_errorMessage r)) <$> descriptor_of k (op_runtimeId r))
  /\ (forall id, status_of k id <> Some st_suspended -> core k' id = core k id).

Lemma failures_empty (results : list RuntimeOperationResult) :
  filter (fun r => op_success r = false) results <> [] <-> ~ Forall (fun r => op_success r = true) results.
Proof.
  split.
  - intros Hne Hall. apply Hne. apply list_nil_subseteq. intros r [Hr Hin]%list_elem_of_filter.
    rewrite Forall_forall in Hall. by rewrite Hall in Hr.
  - intros Hn He. apply Hn, Forall_forall. intros r Hr. destruct (op_success r) eqn:Hs; [done|].
    assert (Hf : r ∈ filter (fun r => op_success r = false) results) by (by apply list_elem_of_filter).
    rewrite He in Hf. by apply elem_of_nil in Hf.
Qed.

Lemma resumeRuntimes_run k :
  kernel_wf (k_state k) -> phase (k_state k) = SUSPENDED ->
  exists r k' results cs, resumeRuntimes k = (r, k') /\ resume_outcome k k' results cs
    /\ (r = Returned tt <-> Forall (fun r => op_success r = true) results).
Proof.
  intros Hwf Hp. unfold resumeRuntimes, mbind at 1, M_bind at 1. rewrite assert_ok by (by rewrite Hp).
  unfold dispatch, modify, mbind at 1, M_bind at 1. cbv iota beta.
  set (k1 := k_dispatch BEGIN_RESUME k).
  assert (H1 : to_phase RESUMING k k1).
  { apply to_phase_dispatch. intros s. exists (error s). by destruct s. }
  pose proof (sg_order _ _ (tp_graph _ _ _ H1)) as Hord.
  unfold gets, mbind at 1, M_bind at 1. cbv iota beta. rewrite Hord.
  destruct (resume_loop_spec (bootOrder (k_state k)) [] k1) as (results & cs & k2 & Hl & Hrun & Hps).
  { by rewrite (tp_phase _ _ _ H1). } { apply (kw_nodup _ Hwf). }
  assert (Hext : forall i, i ∈ bootOrder (k_state k) -> is_suspended k1 i <-> is_suspended k i).
  { intros i _. unfold is_suspended. by rewrite !status_core, (tp_core _ _ _ H1). }
  rewrite (filter_ext_in _ _ _ Hext) in Hrun, Hps.
  unfold mbind at 1, M_bind at 1. rewrite Hl. cbv zeta.
  set (failures := filter _ results). set (err := aggregateFailureKey "resume" failures).
  assert (Herr : truthy_opt err = negb (bool_decide (Forall (fun r => op_success r = true) results))).
  { unfold err. rewrite aggregateFailureKey_truthy, <- bool_decide_not. by apply bool_decide_ext, failures_empty. }
  unfold mbind at 1, M_bind at 1. cbv iota beta.
  unfold emitEvent, modify, mbind at 1, M_bind at 1. cbv iota beta. set (k3 := k_emit _ _).
  destruct (throw_failure_stays err k3) as (r & k4 & Hr & Hs4 & Hret).
  exists r, k4, results, cs. split; [exact Hr|]. rewrite Herr, negb_false_iff, bool_decide_eq_true in Hret.
  split; [|done].
  assert (H3 : to_phase (if bool_decide (Forall (fun r => op_success r = true) results) then ACTIVE else SUSPENDED) k2 k4).
  { eapply to_phase_stays; [|exact Hs4]. eapply to_phase_stays; [|apply stays_emit].
    apply to_phase_dispatch. intros s. exists err. cbn. rewrite Herr. by destruct (bool_decide _). }
  destruct (pass_phases _ _ _ _ _ _ _ _ _ _ _ H1 Hps H3) as (? & ? & ? & Ho & ?).
  split; [done|]. split; [done|]. split; [done|]. split; [|split; [done|]].
  - eapply dep_run_proper; [|done..|exact Hrun].
    intros i. unfold deps_in. by rewrite (sg_descriptor _ _ (tp_graph _ _ _ H1)).
  - intros id Hst. apply Ho. rewrite list_elem_of_filter. tauto.
Qed.

Definition teardown_outcome (ctx : RuntimeTeardownContext) (k k' : kernel) (r : AggregateTeardownResult) : Prop :=
  same_graph k k'
  /\ phase (k_state k') = (if agg_allSuccessful r then COLD else TEARDOWN_FAILED)
  /\ agg_allSuccessful r = forallb op_success (agg_results r)
  /\ op_runtimeId <$> agg_results r = filter (needs_teardown k) (rev (bootOrder (k_state k)))
  /\ k_calls k' = k_calls k ++ ((fun id => call_teardown id ctx)
                                  <$> filter (needs_teardown k) (rev (bootOrder (k_state k))))
  /\ (forall r', r' ∈ agg_results r ->
        status_of k' (op_runtimeId r') = Some (if op_success r' then st_torn_down else st_failed))
  /\ (forall id, ~ needs_teardown k id -> core k' id = core k id).

Lemma teardownRuntimes_run ctx k :
  kernel_wf (k_state k) -> isValidPhaseTransition (phase (k_state k)) TEARDOWN = true ->
  exists r k', teardownRuntimes ctx k = (Returned r, k') /\ teardown_outcome ctx k k' r.
Proof.
  intros Hwf Hp. unfold teardownRuntimes, gets, mbind at 1, M_bind at 1. cbv iota beta.
  unfold mbind at 1, M_bind at 1. rewrite assert_ok by done.
  unfold dispatch, modify, mbind at 1, M_bind at 1. cbv iota beta.
  unfold mbind at 1, M_bind at 1. cbv iota beta.
  set (k1 := k_dispatch BEGIN_TEARDOWN (invalidateReadinessUpdates None k)).
  assert (H1 : to_phase TEARDOWN k k1) by (apply begin_phase; intros s; exists (error s); by destruct s).
  pose proof (sg_order _ _ (tp_graph _ _ _ H1)) as Hord.
  unfold mbind at 1, M_bind at 1. cbv iota beta. rewrite Hord. unfold reverseTeardownOrder.
  destruct (teardown_loop_spec ctx (rev (bootOrder (k_state k))) k1) as (results & k2 & Hl & Hv & Hids & Hst).
  { by rewrite (tp_phase _ _ _ H1). } { apply NoDup_reversed, (kw_nodup _ Hwf). }
  unfold mbind at 1, M_bind at 1. rewrite Hl. cbv zeta.
  eexists _, _. split; [reflexivity|].
  assert (Hext : forall i, i ∈ rev (bootOrder (k_state k)) -> needs_teardown k1 i <-> needs_teardown k i).
  { intros i _. apply needs_teardown_core, (tp_core _ _ _ H1). }
  rewrite (filter_ext_in _ _ _ Hext) in Hids. apply (visit_pass_ext _ _ _ _ _ _ Hext) in Hv.
  match goal with |- teardown_outcome _ _ ?k' ?r =>
    assert (H3 : to_phase (if agg_allSuccessful r then COLD else TEARDOWN_FAILED) k2 k') end.
  { eapply to_phase_stays; [|eapply stays_trans_nil; apply stays_emit].
    apply to_phase_dispatch. intros s. by eexists. }
  destruct H1 as [Hg1 ? Hc1 Ha1], Hv as [Hg2 ? Ha2 Ho2], H3 as [Hg3 ? Hc3 Ha3].
  split; [by do 2 (etrans; [eassumption|])|]. split; [done|]. split; [done|]. split; [done|].
  split; [by rewrite Ha3, Ha2, Ha1|]. split.
  - intros r' Hr'. rewrite status_core, Hc3, <- status_core. by apply Hst.
  - intros id Hn. rewrite Hc3, Ho2, Hc1; [done|]. rewrite list_elem_of_filter. tauto.
Qed.

(** ** Every operation rests in a stable phase *)
Lemma steady_of_phase {A} (m : M A) :
  moves evolves m -> (forall k, phase (k_state (m k).2) = phase (k_state k)) -> moves steady m.
Proof. intros He Hp k. by apply steady_phase. Qed.

Lemma steady_emit ev : moves steady (emitEvent ev).
Proof. by apply steady_of_phase; [apply moves_emit|]. Qed.
Lemma steady_call c : moves steady (call c).
Proof. by apply steady_of_phase; [apply moves_call|]. Qed.
Lemma steady_throw_error {A} m : moves steady (throw_error (A := A) m).
Proof. apply moves_throw, _. Qed.
Lemma steady_launch l : moves steady (transitionLaunchState l).
Proof. apply steady_of_phase; [apply moves_launch | intros k; apply (st_phase _ _ _ (stays_launch _ _))]. Qed.
Lemma steady_suspended {A} (answer : nat -> A) : moves steady (suspended answer).
Proof. apply steady_of_phase; [apply moves_suspended | intros k; cbn; by rewrite reentries_phase]. Qed.
Lemma steady_immediate {A} (answer : nat -> completion A) : moves steady (immediate answer).
Proof. by apply steady_of_phase; [apply moves_immediate|]. Qed.

Lemma snapshot_of_state id k : (snapshot_of id k).2 = k.
Proof.
  unfold snapshot_of, gets, mbind, M_bind. destruct (_ !! _); [|done].
  by destruct (readRuntimeAvailability _ _) as [[]|].
Qed.

Lemma snapshots_state ids k : (map_M snapshot_of ids k).2 = k.
Proof.
  induction ids as [|id ids IH]; cbn; [done|]. unfold mbind, M_bind.
  pose proof (snapshot_of_state id k) as Hs. destruct (snapshot_of id k) as [[] k1]; cbn in *; subst; [|done].
  by destruct (map_M snapshot_of ids k) as [[] ?].
Qed.

Lemma getSnapshot_state k : (getSnapshot k).2 = k.
Proof.
  unfold getSnapshot, gets, mbind at 1, M_bind at 1. unfold mbind, M_bind.
  pose proof (snapshots_state (bootOrder (k_state k)) k) as Hs.
  by destruct (map_M snapshot_of _ _) as [[] ?].
Qed.

Lemma steady_getSnapshot : moves steady getSnapshot.
Proof. intros k. by rewrite getSnapshot_state. Qed.

Lemma steady_reset : moves steady reset.
Proof.
  intros k. apply steady_stable; [apply moves_reset|]. intros _ Hs.
  unfold reset, gets, mbind, M_bind. cbn. case_decide; [done|]. by left.
Qed.

Lemma register_phase ds k : phase (k_state (registerRuntimes ds k).2) = phase (k_state k).
Proof.
  unfold registerRuntimes, mbind, M_bind, modify. cbn. repeat case_decide; try done. by destruct (hasCycle _).
Qed.

Lemma steady_register ds : moves steady (registerRuntimes ds).
Proof. apply steady_of_phase; [apply moves_register | apply register_phase]. Qed.

Lemma assert_fails_bind {A} p (m : M A) k :
  isValidPhaseTransition (phase (k_state k)) p = false ->
  ((_ ← assertPhaseTransition p; m) k).2 = k.
Proof. intros Hv. destruct (assert_fails p k Hv) as [v Hk]. unfold mbind, M_bind. by rewrite Hk. Qed.

Lemma steady_bootstrap : moves steady bootstrapRuntimes.
Proof.
  intros k. apply steady_stable; [apply moves_bootstrap|]. intros Hwf Hs.
  destruct (decide (phase (k_state k) = COLD)) as [Hp|Hp].
  - destruct (bootstrapRuntimes_run k Hwf Hp) as (results & cs & k' & -> & _ & Hp' & _).
    unfold stable. cbn. rewrite Hp'. tauto.
  - unfold bootstrapRuntimes. rewrite assert_fails_bind; [done|].
    unfold stable in Hs. destruct (phase (k_state k)); naive_solver.
Qed.

Lemma steady_suspendRuntimes : moves steady suspendRuntimes.
Proof.
  intros k. apply steady_stable; [apply moves_suspendRuntimes|]. intros Hwf Hs.
  destruct (decide (phase (k_state k) = ACTIVE)) as [Hp|Hp].
  - destruct (suspendRuntimes_run k Hwf Hp) as (r & k' & -> & _ & Hp' & _).
    unfold stable. cbn. rewrite Hp'. tauto.
  - unfold suspendRuntimes. rewrite assert_fails_bind; [done|].
    unfold stable in Hs. destruct (phase (k_state k)); naive_solver.
Qed.

Lemma steady_resumeRuntimes : moves steady resumeRuntimes.
Proof.
  intros k. apply steady_stable; [apply moves_resumeRuntimes|]. intros Hwf Hs.
  destruct (decide (phase (k_state k) = SUSPENDED)) as [Hp|Hp].
  - destruct (resumeRuntimes_run k Hwf Hp) as (r & k' & ? & ? & -> & (_ & Hp' & _) & _).
    unfold stable. cbn. rewrite Hp'. destruct (bool_decide _); tauto.
  - unfold resumeRuntimes. rewrite assert_fails_bind; [done|].
    unfold stable in Hs. destruct (phase (k_state k)); naive_solver.
Qed.

Lemma steady_teardown ctx : moves steady (teardownRuntimes ctx).
Proof.
  intros k. apply steady_stable; [apply moves_teardown|]. intros Hwf Hs.
  destruct (isValidPhaseTransition (phase (k_state k)) TEARDOWN) eqn:Hv.
  - destruct (teardownRuntimes_run ctx k Hwf Hv) as (r & k' & -> & _ & Hp' & _).
    unfold stable. cbn. rewrite Hp'. destruct (agg_allSuccessful r); tauto.
  - unfold teardownRuntimes, gets, mbind at 1, M_bind at 1. cbv iota beta. by rewrite assert_fails_bind.
Qed.

Lemma steady_applyGeneration g reason b : moves steady (applyGeneration g reason b).
Proof.
  apply steady_of_phase; [apply moves_applyGeneration|]. intros k.
  unfold applyGeneration, gets, mbind, M_bind. cbn. by destruct (_ || _).
Qed.

Hint Resolve steady_emit steady_call steady_throw_error steady_launch steady_suspended steady_immediate
  steady_getSnapshot steady_reset steady_register steady_bootstrap steady_suspendRuntimes
  steady_resumeRuntimes steady_teardown steady_applyGeneration : kernel.

Lemma steady_withTimeout {A} (answer : nat -> settled A) key : moves steady (withTimeout answer key).
Proof. unfold withTimeout. moves_steps steady. Qed.
Hint Resolve steady_withTimeout : kernel.

Lemma steady_require : moves steady requireGraphDependencies.
Proof. unfold requireGraphDependencies. moves_steps steady. Qed.
Hint Resolve steady_require : kernel.

Lemma steady_startNow : moves steady startRuntimeGraphNow.
Proof. unfold startRuntimeGraphNow. moves_steps steady. Qed.
Hint Resolve steady_startNow : kernel.

Lemma steady_fenceAndTeardown ctx : moves steady (fenceAndTeardown ctx).
Proof. unfold fenceAndTeardown, advance_generation, fence_projections. cbn zeta. moves_steps steady. Qed.
Hint Resolve steady_fenceAndTeardown : kernel.

Lemma steady_reconcile reason : moves steady (reconcileLaunchStateAfterRuntime reason).
Proof. unfold reconcileLaunchStateAfterRuntime, transitionToResolvedLaunchState. moves_steps steady. Qed.
Hint Resolve steady_reconcile : kernel.

Lemma steady_require_successful r : moves steady (require_successful r).
Proof. unfold require_successful. moves_steps steady. Qed.
Hint Resolve steady_require_successful : kernel.

Lemma steady_operation op : moves steady (run_operation op).
Proof.
  destruct op; unfold run_operation, startRuntimeGraph, stopRuntimeGraph, restartRuntimeGraph,
    transitionScope, run_transition, enterScopeLaunchTransition, require_successful, suspend, resume,
    reconcileLaunchState, read_generation, advance_generation, fence_projections;
    moves_steps steady.
Qed.

Lemma steady_session entries k : steady k (run_session entries k).
Proof.
  revert k. induction entries as [|[l op] entries IH]; cbn; intros k; [reflexivity|].
  etrans; [|apply IH]. unfold enqueueOperation. etrans; [|apply steady_operation]. cbn.
  apply steady_phase; [apply evolves_reentries | apply reentries_phase].
Qed.

Lemma new_kernel_steady : kernel_wf (k_state new_kernel) /\ stable new_kernel.
Proof. split; [apply initial_wf | by left]. Qed.

(** ** Owner mutations *)
Definition is_transition (c : HookCall) : bool :=
  match c with call_transition _ _ => true | _ => false end.

(** No owner mutation was called between [k] and [k']. *)
Definition no_transition (k k' : kernel) : Prop :=
  exists cs, k_calls k' = k_calls k ++ cs /\ Forall (fun c => is_transition c = false) cs.

#[export] Instance no_transition_preorder : PreOrder no_transition.
Proof.
  split.
  - intros k. exists []. by rewrite app_nil_r.
  - intros k1 k2 k3 (c1 & E1 & H1) (c2 & E2 & H2). exists (c1 ++ c2).
    rewrite E2, E1, (assoc_L (++)). split; [done|]. by apply Forall_app.
Qed.

Lemma nt_same k k' : k_calls k' = k_calls k -> no_transition k k'.
Proof. intros Hc. exists []. by rewrite Hc, app_nil_r. Qed.

Lemma nt_modify f : (forall k, k_calls (f k) = k_calls k) -> moves no_transition (modify f).
Proof. intros Hf k. apply nt_same, Hf. Qed.

Lemma nt_call c : is_transition c = false -> moves no_transition (call c).
Proof. intros Hc k. exists [c]. split; [done | by repeat constructor]. Qed.

(** What reentrant calls cannot do in any phase. *)
Lemma reentry_calls k r :
  k_calls (apply_reentry k r) = k_calls k /\ generation (k_state (apply_reentry k r)) = generation (k_state k).
Proof.
  assert (Hstays : forall k', stays [] k k' -> k_calls k' = k_calls k /\ generation (k_state k') = generation (k_state k)).
  { intros k' [Hg _ _ Hc]. split; [by rewrite Hc, app_nil_r | apply (sg_generation _ _ Hg)]. }
  destruct r; cbn.
  - destruct (k_contexts k !! context); [apply Hstays, stays_begin | done].
  - apply Hstays, stays_settle.
  - destruct (k_readinessTimeouts k !! runtimeId); [apply Hstays, stays_settle | done].
  - apply Hstays, stays_launch.
  - unfold configureRuntimeGraph, get, mbind, M_bind. cbn. destruct (k_graph k); [|done]. by destruct (_ && _).
  - unfold reset, gets, mbind, M_bind. cbn. by case_decide.
Qed.

Lemma reentries_calls l k :
  k_calls (fold_left apply_reentry l k) = k_calls k
  /\ generation (k_state (fold_left apply_reentry l k)) = generation (k_state k).
Proof.
  revert k. induction l as [|r l IH]; cbn; intros k; [done|].
  destruct (IH (apply_reentry k r)) as [-> ->]. apply reentry_calls.
Qed.

Lemma nt_suspended {A} (answer : nat -> A) : moves no_transition (suspended answer).
Proof. intros k. apply nt_same. cbn. by rewrite (proj1 (reentries_calls _ _)). Qed.

Lemma nt_immediate {A} (answer : nat -> completion A) : moves no_transition (immediate answer).
Proof. intros k. by apply nt_same. Qed.

Lemma nt_launch l : moves no_transition (transitionLaunchState l).
Proof. intros k. apply nt_same. by rewrite (st_calls _ _ _ (stays_launch l k)), app_nil_r. Qed.

Lemma nt_reset : moves no_transition reset.
Proof. intros k. apply nt_same. unfold reset, gets, mbind, M_bind. cbn. by case_decide. Qed.

Lemma nt_throw_error {A} m : moves no_transition (throw_error (A := A) m).
Proof. apply moves_throw, _. Qed.

Hint Resolve nt_suspended nt_immediate nt_launch nt_reset nt_throw_error : kernel.
Hint Extern 1 (moves no_transition (call _)) => apply nt_call; reflexivity : kernel.
Hint Extern 1 (moves no_transition (dispatch _)) => apply nt_modify; reflexivity : kernel.
Hint Extern 1 (moves no_transition (emitEvent _)) => apply nt_modify; reflexivity : kernel.
Hint Extern 1 (moves no_transition (modify _)) => apply nt_modify; intros ?; reflexivity : kernel.
Hint Extern 1 (moves no_transition (runtimeContext _)) => apply nt_modify; reflexivity : kernel.

Lemma nt_bootstrap_one failed id : moves no_transition (bootstrap_one failed id).
Proof. unfold bootstrap_one, runVoidRuntimeOperation. moves_steps no_transition. Qed.

Lemma nt_bootstrap_loop ids failed : moves no_transition (bootstrap_loop ids failed).
Proof.
  revert failed. induction ids as [|id ids IH]; intros failed; cbn [bootstrap_loop];
    moves_steps no_transition; apply nt_bootstrap_one.
Qed.

Lemma nt_startNow : moves no_transition startRuntimeGraphNow.
Proof.
  unfold startRuntimeGraphNow, requireGraphDependencies, registerRuntimes, bootstrapRuntimes,
    assertPhaseTransition. cbn zeta. moves_steps no_transition; apply nt_bootstrap_loop.
Qed.

Lemma nt_reconcile reason : moves no_transition (reconcileLaunchStateAfterRuntime reason).
Proof.
  unfold reconcileLaunchStateAfterRuntime, requireGraphDependencies, withTimeout,
    transitionToResolvedLaunchState. moves_steps no_transition.
Qed.

Lemma nt_teardown_loop ctx ids : moves no_transition (teardown_loop ctx ids).
Proof.
  induction ids as [|id ids IH]; cbn [teardown_loop]; unfold teardown_one, runTeardownOperation;
    moves_steps no_transition.
Qed.

Lemma nt_teardown ctx : moves no_transition (teardownRuntimes ctx).
Proof. unfold teardownRuntimes, assertPhaseTransition. moves_steps no_transition; apply nt_teardown_loop. Qed.
Hint Resolve nt_startNow nt_reconcile nt_teardown : kernel.

Lemma nt_fenceAndTeardown ctx : moves no_transition (fenceAndTeardown ctx).
Proof.
  unfold fenceAndTeardown, requireGraphDependencies, advance_generation, withTimeout, applyGeneration,
    fence_projections. cbn zeta. moves_steps no_transition.
Qed.
Hint Resolve nt_fenceAndTeardown : kernel.

Lemma nt_after_transition reason restart (v : js_value) :
  moves no_transition (
    _ ← when restart (_ ← reset; startRuntimeGraphNow);
    _ ← reconcileLaunchStateAfterRuntime reason;
    mret v).
Proof. moves_steps no_transition. Qed.

Lemma run_transition_calls {B} (f : js_value -> M B) k :
  (forall v, moves no_transition (f v)) ->
  exists k2, k_calls k2 = k_calls k ++ [call_transition (phase (k_state k)) (generation (k_state k))]
    /\ no_transition k2 ((run_transition ≫= f) k).2.
Proof.
  intros Hf. exists (k_call (call_transition (phase (k_state k)) (generation (k_state k))) k).
  split; [done|]. set (k1 := k_call _ k).
  assert (Hrun : (run_transition ≫= f) k =
    (suspended env_transition ≫= (fun r => match r with Returned v => f v | Thrown v => throw v end)) k1).
  { unfold run_transition, mbind, M_bind, gets, call, modify. cbv iota beta. fold k1.
    by destruct (suspended env_transition k1) as [[[]|] ?]. }
  rewrite Hrun. apply (moves_bind no_transition); [apply nt_suspended|].
  intros [v|v]; [apply Hf | apply moves_throw, _].
Qed.

(** Same phase, order and runtimes; the hooks [cs] were called. *)
Record calls_only (cs : list HookCall) (k k' : kernel) : Prop := {
  co_phase : phase (k_state k') = phase (k_state k);
  co_order : phase (k_state k) <> COLD -> bootOrder (k_state k') = bootOrder (k_state k);
  co_core : phase (k_state k) <> COLD -> forall id, core k' id = core k id;
  co_calls : k_calls k' = k_calls k ++ cs
}.

Lemma calls_only_trans cs1 cs2 k1 k2 k3 :
  calls_only cs1 k1 k2 -> calls_only cs2 k2 k3 -> calls_only (cs1 ++ cs2) k1 k3.
Proof.
  intros [Hp1 Ho1 Hc1 Ha1] [Hp2 Ho2 Hc2 Ha2]. rewrite Hp1 in *. constructor.
  - congruence.
  - intros Hp. by rewrite Ho2, Ho1.
  - intros Hp id. by rewrite Hc2, Hc1.
  - by rewrite Ha2, Ha1, (assoc_L (++)).
Qed.

Lemma calls_only_stays cs k k' : stays cs k k' -> calls_only cs k k'.
Proof. intros [Hg ? ? ?]. constructor; [done | intros; apply (sg_order _ _ Hg) | done | done]. Qed.

Lemma calls_only_suspended {A} (answer : nat -> A) k :
  calls_only [] k (suspended answer k).2 /\ generation (k_state (suspended answer k).2) = generation (k_state k).
Proof.
  split; [|exact (proj2 (reentries_calls (env_reentry (k_ticks k)) (tick k)))].
  constructor.
  - exact (reentries_phase (env_reentry (k_ticks k)) (tick k)).
  - intros Hp. exact (sg_order _ _ (st_graph _ _ _ (stays_reentries (env_reentry (k_ticks k)) (tick k) Hp))).
  - intros Hp. exact (st_core _ _ _ (stays_reentries (env_reentry (k_ticks k)) (tick k) Hp)).
  - cbn. by rewrite (proj1 (reentries_calls _ _)), app_nil_r.
Qed.

Lemma applyGeneration_run g reason k k' :
  applyGeneration g reason true k = (Returned tt, k') ->
  generation (k_state k) < g <= MAX_SAFE_INTEGER /\ generation (k_state k') = g /\ calls_only [] k k'.
Proof.
  unfold applyGeneration, gets, mbind, M_bind. cbn.
  destruct (_ || _) eqn:Hg; [done|]. intros [= <-]. unfold isSafeInteger in Hg. cbn in Hg. reflect_bool.
  split; [lia|]. split; [done|]. constructor; try done. cbn. by rewrite app_nil_r.
Qed.

Lemma requireGraph_state k r k' : requireGraphDependencies k = (r, k') -> k' = k.
Proof. unfold requireGraphDependencies, gets, mbind, M_bind. destruct (k_graph k); by intros [= _ <-]. Qed.

Lemma advance_run k g k' :
  advance_generation k = (Returned g, k') ->
  generation (k_state k') = generation (k_state k) /\ calls_only [call_advanceGeneration] k k'.
Proof.
  unfold advance_generation, withTimeout, call, modify, mbind, M_bind. cbv iota beta.
  destruct (calls_only_suspended env_number (k_call call_advanceGeneration k)) as [Hc Hg].
  destruct (suspended env_number (k_call call_advanceGeneration k)) as [[[z|v|]|v] k2]; try done.
  intros [= <- <-]. split; [done|].
  apply (calls_only_trans [_] [] _ (k_call call_advanceGeneration k)); [|done].
  apply calls_only_stays, stays_call.
Qed.

Lemma fence_run g reason k k' :
  fence_projections g reason k = (Returned tt, k') ->
  generation (k_state k') = generation (k_state k) /\ calls_only [call_fenceProjections g reason] k k'.
Proof.
  unfold fence_projections, call, modify, immediate, mbind, M_bind. cbn.
  intros [= _ <-]. split; [done|]. constructor; done.
Qed.

(** The hooks of a teardown from [k]: none when nothing runs. *)
Definition teardown_calls (ctx : RuntimeTeardownContext) (k : kernel) : list HookCall :=
  if decide (phase (k_state k) = COLD) then []
  else (fun id => call_teardown id ctx) <$> filter (needs_teardown k) (rev (bootOrder (k_state k))).

Lemma fenceAndTeardown_run ctx k r k' :
  kernel_wf (k_state k) -> stable k -> fenceAndTeardown ctx k = (Returned r, k') ->
  generation (k_state k) < generation (k_state k') <= MAX_SAFE_INTEGER
  /\ k_calls k' = k_calls k ++ call_advanceGeneration
       :: call_fenceProjections (generation (k_state k')) (td_reason ctx) :: teardown_calls ctx k
  /\ (agg_allSuccessful r = true -> phase (k_state k') = COLD).
Proof.
  intros Hwf Hst. unfold fenceAndTeardown. cbv zeta.
  unfold mbind at 1, M_bind at 1.
  destruct (requireGraphDependencies k) as [[gd|v] k0] eqn:Hreq; [|done].
  apply requireGraph_state in Hreq as ->. unfold mbind at 1, M_bind at 1.
  pose proof (moves_advance k) as Hev1.
  destruct (advance_generation k) as [[g|v] k1] eqn:Hadv; [|done]. apply advance_run in Hadv as [Hg1 Hc1].
  unfold mbind at 1, M_bind at 1. pose proof (moves_applyGeneration g (td_reason ctx) true k1) as Hev2.
  destruct (applyGeneration g _ true k1) as [[[]|v] k2] eqn:Happ; [|done].
  apply applyGeneration_run in Happ as (Hlt & Hg2 & Hc2). unfold mbind at 1, M_bind at 1.
  pose proof (moves_fence g (td_reason ctx) k2) as Hev3.
  destruct (fence_projections g _ k2) as [[[]|v] k3] eqn:Hf; [|done].
  apply fence_run in Hf as [Hg3 Hc3].
  pose proof (calls_only_trans _ _ _ _ _ (calls_only_trans _ _ _ _ _ Hc1 Hc2) Hc3) as [Hp Ho Hc Ha].
  unfold gets, mbind, M_bind. cbv iota beta. unfold teardown_calls. rewrite <- Hp. case_decide as Hcold.
  - intros [= <- <-]. rewrite Hg3, Hg2, Ha. split; [lia|]. by split.
  - assert (Hwf3 : kernel_wf (k_state k3)) by (apply (ev_wf _ _ Hev3), (ev_wf _ _ Hev2), (ev_wf _ _ Hev1), Hwf).
    rewrite Hp in Hcold. specialize (Ho Hcold). specialize (Hc Hcold).
    destruct (isValidPhaseTransition (phase (k_state k3)) TEARDOWN) eqn:Hv.
    + destruct (teardownRuntimes_run ctx k3 Hwf3 Hv) as (r' & k4 & -> & Hg4 & Hp4 & _ & _ & Ha4 & _).
      intros [= <- <-]. rewrite (sg_generation _ _ Hg4), Hg3, Hg2. split; [lia|]. split.
      * rewrite Ha4, Ha, Ho, <- (assoc_L (++)). do 2 f_equal. cbn. do 3 f_equal.
        apply filter_ext_in. intros i _. by apply needs_teardown_core.
      * rewrite Hp4. by intros ->.
    + exfalso. rewrite Hp in Hv. unfold stable in Hst. destruct (phase (k_state k)); naive_solver.
Qed.
End safety.

(** ** Lemmas for the fence of owner mutations *)
Lemma enterScope_stays reason k : stays [] k (enterScopeLaunchTransition reason k).2.
Proof.
  unfold enterScopeLaunchTransition, gets, mbind, M_bind. case_decide; [apply stays_refl | apply stays_launch].
Qed.

Lemma enterScope_steady reason : moves steady (enterScopeLaunchTransition reason).
Proof. unfold enterScopeLaunchTransition. moves_steps steady; apply steady_launch. Qed.

Lemma nt_stays k k' : stays [] k k' -> no_transition k k'.
Proof. intros Hs. apply nt_same. by rewrite (st_calls _ _ _ Hs), app_nil_r. Qed.

Lemma no_transition_trans k1 k2 k3 : no_transition k1 k2 -> no_transition k2 k3 -> no_transition k1 k3.
Proof. apply no_transition_preorder. Qed.

Lemma nt_contra k k' pre p g post :
  no_transition k k' -> k_calls k' = k_calls k ++ pre ++ call_transition p g :: post -> False.
Proof.
  intros (cs & Hcs & Hall) Hc. rewrite Hcs in Hc. apply app_inv_head in Hc as ->.
  rewrite Forall_forall in Hall. by specialize (Hall (call_transition p g) ltac:(set_solver)).
Qed.

Lemma teardown_calls_stays ctx k k' : stays [] k k' -> teardown_calls ctx k' = teardown_calls ctx k.
Proof.
  intros [Hg Hp Hc _]. unfold teardown_calls. rewrite Hp, (sg_order _ _ Hg). case_decide; [done|].
  f_equal. apply filter_ext_in. intros i _. by apply needs_teardown_core.
Qed.

(** ** Theorems

    All of them are about arbitrary environments. *)

(** After any session the state is well-formed and [getSnapshot]
    returns, listing every registered runtime once in boot order; it shows a runtime
    as ready exactly when it and all it transitively depends on are available. *)
Theorem session_snapshot `{KernelEnv} entries :
  let k := run_session entries new_kernel in
  kernel_wf (k_state k)
  /\ exists snap, getSnapshot k = (Returned snap, k)
    /\ ks_phase snap = phase (k_state k) /\ ks_generation snap = generation (k_state k)
    /\ ks_bootOrder snap = bootOrder (k_state k) /\ snap_id <$> ks_runtimes snap = bootOrder (k_state k)
    /\ Forall (fun s => snap_status s = st_ready <-> available (k_state k) (snap_id s)) (ks_runtimes snap).
Proof.
  intros k. assert (Hwf : kernel_wf (k_state k)) by apply (steady_session entries new_kernel new_kernel_steady).
  split; [done | by apply getSnapshot_ok].
Qed.

(** Between two operations of the queue the kernel rests in a
    stable phase; no failing hook, timeout or thrown error leaves it half way
    through a bootstrap, suspend, resume or teardown. *)
Theorem session_stable `{KernelEnv} entries : stable (run_session entries new_kernel).
Proof. apply (steady_session entries new_kernel new_kernel_steady). Qed.

(** No operation, whatever the environment does, lowers the
    generation, and the launch state only ever moves along edges of the launch table. *)
Theorem session_monotone `{KernelEnv} entries k :
  generation (k_state k) <= generation (k_state (run_session entries k))
  /\ rtc launch_edge (launchState (k_state k)) (launchState (k_state (run_session entries k))).
Proof. destruct (evolves_session entries k). done. Qed.

(** A runtime bootstrapped in a pass with these results. *)
Definition bootstrapped (results : list RuntimeOperationResult) (id : string) : Prop :=
  exists r, r ∈ results /\ op_runtimeId r = id /\ op_success r = true.

Lemma not_bootstrapped results id :
  NoDup (op_runtimeId <$> results) -> id ∈ op_runtimeId <$> results ->
  dependency_failed [] results id <-> ~ bootstrapped results id.
Proof.
  intros Hnd Hin. apply list_elem_of_fmap in Hin as (r & -> & Hr). unfold dependency_failed, bootstrapped.
  split.
  - intros [?%elem_of_nil|(r1 & Hr1 & Hi1 & Hs1)]; [done|]. intros (r2 & Hr2 & Hi2 & Hs2).
    assert (r1 = r2) as ->; [|congruence]. apply (NoDup_fmap_inj op_runtimeId results); [done..|congruence].
  - intros Hn. right. exists r. split; [done|]. split; [done|]. apply not_true_is_false. intros Hs. destruct Hn. by exists r.
Qed.

(** C5: from a cold kernel the bootstrap pass always completes, in
    phase [ACTIVE], with one result per runtime in boot order. Hooks run in boot
    order; the hook of a runtime is called exactly when its first dependency that did
    not bootstrap, if there is one, has the empty name, which the code's test passes
    over. So where no dependency has the empty name a hook is called exactly when every
    dependency bootstrapped. A success is the outcome of a hook, and a runtime is left
    ready or failed as its result says. *)
Theorem bootstrapRuntimes_correct `{KernelEnv} k :
  kernel_wf (k_state k) -> phase (k_state k) = COLD ->
  exists results cs k', bootstrapRuntimes k = (Returned results, k')
    /\ phase (k_state k') = ACTIVE /\ bootOrder (k_state k') = bootOrder (k_state k)
    /\ op_runtimeId <$> results = bootOrder (k_state k)
    /\ k_calls k' = k_calls k ++ cs /\ cs `sublist_of` (call_bootstrap <$> bootOrder (k_state k))
    /\ forall r, r ∈ results ->
         status_of k' (op_runtimeId r) = Some (if op_success r then st_ready else st_failed)
         /\ (op_success r = true -> call_bootstrap (op_runtimeId r) ∈ cs)
         /\ (call_bootstrap (op_runtimeId r) ∈ cs <->
             let_through (fun d => ~ bootstrapped results d) (deps_in k (op_runtimeId r)))
         /\ (""%string ∉ deps_in k (op_runtimeId r) ->
             call_bootstrap (op_runtimeId r) ∈ cs <->
             forall d, d ∈ deps_in k (op_runtimeId r) -> bootstrapped results d).
Proof.
  intros Hwf Hp. destruct (bootstrapRuntimes_run k Hwf Hp) as (results & cs & k' & Hb & Hg & Hp' & Hc & Hrun & Hst).
  exists results, cs, k'. split; [done|]. split; [done|]. split; [apply (sg_order _ _ Hg)|].
  pose proof (dep_run_ids _ _ _ _ _ _ Hrun) as Hids.
  split; [done|]. split; [done|]. split; [eapply dep_run_calls, Hrun|]. intros r Hr.
  assert (Hin : op_runtimeId r ∈ bootOrder (k_state k)) by (rewrite <- Hids; by apply list_elem_of_fmap_2).
  assert (Hd : is_Some (descriptor_of k (op_runtimeId r))) by (by apply registered_descriptor, (kw_dom _ Hwf)).
  assert (Hinj : forall i j, call_bootstrap i = call_bootstrap j -> i = j) by congruence.
  assert (Hbad : forall d, d ∈ deps_in k (op_runtimeId r) -> dependency_failed [] results d <-> ~ bootstrapped results d).
  { intros d Hdep. apply not_bootstrapped; rewrite Hids; [apply (kw_nodup _ Hwf) | by eapply deps_in_order]. }
  pose proof (dep_run_called _ _ _ _ _ _ Hinj Hrun (kw_nodup _ Hwf) (wf_backward k Hwf) r Hr) as Hcalled.
  split; [|split; [|split]].
  - rewrite status_core, (Hst r Hr). by destruct Hd as [d ->].
  - intros Hs. by apply (dep_run_success _ _ _ _ _ _ Hrun r Hr).
  - rewrite Hcalled. by apply let_through_ext.
  - intros Hne. rewrite Hcalled, let_through_named by done. split; intros Hall d Hdep.
    + destruct (decide (Exists (fun r' => op_runtimeId r' = d /\ op_success r' = true) results)) as [Hx|Hx].
      * apply Exists_exists in Hx as (r' & ? & ? & ?). by exists r'.
      * destruct (Hall d Hdep). apply Hbad; [done|]. intros (r' & ? & ? & ?). apply Hx, Exists_exists. eauto.
    + intros Hfail%Hbad; [|done]. by apply Hfail, Hall.
Qed.

(** A teardown pass always completes. It calls the teardown hook
    of every runtime that was started and not yet torn down, once, in reverse boot
    order, and leaves the others alone; the kernel is cold again exactly when every
    hook succeeded, and otherwise rests in [TEARDOWN_FAILED] with the failed
    runtimes marked, from where teardown can be repeated. *)
Theorem teardownRuntimes_correct `{KernelEnv} ctx k :
  kernel_wf (k_state k) -> isValidPhaseTransition (phase (k_state k)) TEARDOWN = true ->
  exists r k', teardownRuntimes ctx k = (Returned r, k')
    /\ op_runtimeId <$> agg_results r = filter (needs_teardown k) (rev (bootOrder (k_state k)))
    /\ k_calls k' = k_calls k ++ ((fun id => call_teardown id ctx)
                                   <$> filter (needs_teardown k) (rev (bootOrder (k_state k))))
    /\ (agg_allSuccessful r = true <-> Forall (fun r => op_success r = true) (agg_results r))
    /\ phase (k_state k') = (if agg_allSuccessful r then COLD else TEARDOWN_FAILED)
    /\ (forall r', r' ∈ agg_results r ->
          status_of k' (op_runtimeId r') = Some (if op_success r' then st_torn_down else st_failed))
    /\ (forall id, ~ needs_teardown k id -> core k' id = core k id)
    /\ (agg_allSuccessful r = false -> isValidPhaseTransition (phase (k_state k')) TEARDOWN = true).
Proof.
  intros Hwf Hp. destruct (teardownRuntimes_run ctx k Hwf Hp) as (r & k' & Hr & _ & Hp' & Hall & Hids & Hc & Hst & Ho).
  exists r, k'. split; [done|]. split; [done|]. split; [done|]. split; [|split; [done|split; [done|split; [done|]]]].
  - rewrite Hall, forallb_forall, Forall_forall.
    split; intros Hf x Hx; apply Hf; by apply list_elem_of_In.
  - intros Hf. by rewrite Hp', Hf.
Qed.

(** A suspend pass from [ACTIVE] calls [suspend] exactly on the
    ready runtimes, in reverse boot order, leaves each of them suspended even when
    its hook fails, touches no other runtime and ends in [SUSPENDED]. A resume pass
    from there completes in [ACTIVE] exactly when no runtime failed, else back in
    [SUSPENDED]; it calls [resume] on a suspended runtime exactly when the first of its
    dependencies that take part and failed, if there is one, has the empty name. *)
Theorem suspend_resume_correct `{KernelEnv} k :
  kernel_wf (k_state k) ->
  (phase (k_state k) = ACTIVE ->
     exists r k', suspendRuntimes k = (r, k') /\ phase (k_state k') = SUSPENDED
       /\ k_calls k' = k_calls k ++ (call_suspend <$> filter (is_ready k) (rev (bootOrder (k_state k))))
       /\ (forall id, id ∈ bootOrder (k_state k) -> status_of k id = Some st_ready ->
             status_of k' id = Some st_suspended)
       /\ (forall id, status_of k id <> Some st_ready -> core k' id = core k id))
  /\ (phase (k_state k) = SUSPENDED ->
     exists r k' results cs, resumeRuntimes k = (r, k')
       /\ (r = Returned tt <-> Forall (fun r => op_success r = true) results)
       /\ phase (k_state k') =
            (if bool_decide (Forall (fun r => op_success r = true) results) then ACTIVE else SUSPENDED)
       /\ op_runtimeId <$> results = filter (is_suspended k) (bootOrder (k_state k))
       /\ k_calls k' = k_calls k ++ cs
       /\ (forall r, r ∈ results ->
            status_of k' (op_runtimeId r) = Some (if op_success r then st_ready else st_suspended)
            /\ (call_resume (op_runtimeId r) ∈ cs <->
                let_through (dependency_failed [] results) (deps_in k (op_runtimeId r))))
       /\ (forall id, status_of k id <> Some st_suspended -> core k' id = core k id)).
Proof.
  intros Hwf. split; intros Hp.
  - destruct (suspendRuntimes_run k Hwf Hp) as (r & k' & Hr & _ & ? & ? & ? & ?). by exists r, k'.
  - destruct (resumeRuntimes_run k Hwf Hp) as (r & k' & results & cs & Hr & (Hg & Hp' & Hc & Hrun & Hst & Ho) & Hret).
    pose proof (dep_run_ids _ _ _ _ _ _ Hrun) as Hids.
    exists r, k', results, cs. do 5 (split; [done|]). split; [|done]. intros r' Hr'. split.
    + rewrite status_core, (Hst r' Hr').
      assert (is_Some (descriptor_of k (op_runtimeId r'))) as [d ->]; [|done].
      apply registered_descriptor, (kw_dom _ Hwf).
      eapply (list_elem_of_filter (is_suspended k)). rewrite <- Hids. by apply list_elem_of_fmap_2.
    + assert (Hinj : forall i j, call_resume i = call_resume j -> i = j) by congruence.
      assert (Hnd : NoDup (filter (is_suspended k) (bootOrder (k_state k)))) by (apply NoDup_filter, (kw_nodup _ Hwf)).
      assert (Hb : backward (deps_in k) (filter (is_suspended k) (bootOrder (k_state k))))
        by (apply backward_filter, wf_backward, Hwf).
      apply (dep_run_called _ _ _ _ _ _ Hinj Hrun Hnd Hb r' Hr').
Qed.

(** C1: an owner mutation (removing credentials, caches or projections)
    is only ever called on a cold kernel, under a generation larger than before, and
    exactly after that generation was taken, the projections were fenced under it
    and every started runtime was torn down in reverse boot order. *)
Theorem transitionScope_fenced `{KernelEnv} reason restart draft k cs pre p g post :
  kernel_wf (k_state k) -> stable k ->
  k_calls (transitionScope reason restart draft k).2 = k_calls k ++ cs ->
  cs = pre ++ call_transition p g :: post ->
  p = COLD /\ generation (k_state k) < g <= MAX_SAFE_INTEGER
  /\ pre = call_advanceGeneration :: call_fenceProjections g reason
       :: teardown_calls {| td_reason := reason; td_draftDisposition := draft |} k.
Proof.
  intros Hwf Hst Hc ->. set (ctx := {| td_reason := reason; td_draftDisposition := draft |}).
  revert Hc. unfold transitionScope. unfold mbind at 1, M_bind at 1.
  pose proof (enterScope_stays reason k) as H0. pose proof (enterScope_steady reason k (conj Hwf Hst)) as [Hwf0 Hst0].
  destruct (enterScopeLaunchTransition reason k) as [[[]|v] k0]; cbn in H0, Hwf0, Hst0;
    [|intros Hc; by destruct (nt_contra _ _ _ _ _ _ (nt_stays _ _ H0) Hc)].
  unfold mbind at 1, M_bind at 1. fold ctx. pose proof (nt_fenceAndTeardown ctx k0) as Hnt1.
  pose proof (no_transition_trans _ _ _ (nt_stays _ _ H0) Hnt1) as Hnt01.
  destruct (fenceAndTeardown ctx k0) as [[r|v] k1] eqn:Hf; [|intros Hc; by destruct (nt_contra _ _ _ _ _ _ Hnt01 Hc)].
  apply fenceAndTeardown_run in Hf as (Hlt & Hcalls & Hcold); [|done..].
  unfold mbind at 1, M_bind at 1, require_successful. destruct (agg_allSuccessful r) eqn:Hall;
    [|intros Hc; by destruct (nt_contra _ _ _ _ _ _ Hnt01 Hc)].
  specialize (Hcold eq_refl). cbv iota beta. unfold mret, M_ret. cbv iota beta.
  match goal with |- context [mbind ?f run_transition k1] =>
    destruct (run_transition_calls f k1) as (k2 & Hk2 & cs2 & Hcs2 & Hnt2) end;
    [intros v; apply nt_after_transition|].
  intros Hc. rewrite Hcold in Hk2.
  rewrite Hcs2, Hk2, Hcalls, (st_calls _ _ _ H0), app_nil_r, <- !(assoc_L (++)) in Hc.
  apply app_inv_head in Hc. cbn [app] in Hc.
  assert (Hpre : Forall (fun c => is_transition c = false) (call_advanceGeneration
     :: call_fenceProjections (generation (k_state k1)) (td_reason ctx) :: teardown_calls ctx k0)).
  { repeat constructor. unfold teardown_calls. case_decide; [constructor|]. by apply Forall_fmap, Forall_true. }
  destruct (split_unique _ _ _ pre post _ (call_transition p g) Hpre Hnt2 ltac:(done) Hc) as [-> [= -> ->]].
  rewrite (sg_generation _ _ (st_graph _ _ _ H0)) in Hlt. split; [done|]. split; [done|].
  cbn. by rewrite (teardown_calls_stays _ _ _ H0).
Qed.

(** A runtime has at most one current readiness update, the
    latest it began; and an update that has settled, or whose runtime context was
    issued under an older generation or an older registration of the graph, can
    never change the kernel again, however the session goes on. *)
Theorem readiness_updates_fenced `{KernelEnv} entries entries' :
  let k := run_session entries new_kernel in
  let k' := run_session entries' k in
  (forall i j u v, k_updates k !! i = Some u -> k_updates k !! j = Some v ->
     isCurrent u k = true -> isCurrent v k = true ->
     desc_id (ctx_descriptor (upd_context u)) = desc_id (ctx_descriptor (upd_context v)) -> i = j)
  /\ (forall i u err failed, k_updates k !! i = Some u ->
       upd_settled u = true \/ ctx_generation (upd_context u) < generation (k_state k)
       \/ ctx_incarnation (upd_context u) < k_incarnation k ->
       settle i err failed k' = k').
Proof.
  intros k k'. assert (Hinv : updates_inv k).
  { apply (ev_updates _ _ (evolves_session entries new_kernel)). split; [done|]. by intros i u. }
  split.
  - intros i j u v Hu Hv Hcu Hcv Hid. unfold isCurrent in Hcu, Hcv. reflect_bool.
    assert (upd_revision u = upd_revision v) by congruence.
    rewrite (proj2 Hinv i u Hu), (proj2 Hinv j v Hv) in *. lia.
  - intros i u err failed Hu Hold. pose proof (evolves_session entries' k) as Hev. fold k' in Hev.
    destruct (ev_updates_mono _ _ Hev i u Hu) as (u' & Hu' & Hctx & _ & Hs).
    eapply settle_inert; [done|]. unfold isCurrent. rewrite Hctx.
    destruct (isContextCurrent (upd_context u) k') eqn:Hc; [|by rewrite andb_false_r].
    unfold isContextCurrent in Hc. reflect_bool.
    pose proof (ev_generation _ _ Hev). pose proof (ev_incarnation _ _ Hev).
    destruct Hold as [Hold|Hold]; [by rewrite (Hs Hold) | lia].
Qed.

(** The states a resolver answers with. *)
Definition resolver_targets : list MobileLaunchState :=
  [station_selection; access_gate_chain; runtime_critical; shell].

(** Reconciling the launch state with a resolved target succeeds
    exactly when the target is reached already, or the app is not in [background]
    and the target is not [runtime-critical] seen from [shell] or [logout]; success
    ends in the target, and even a failing attempt only moved along valid edges. *)
Theorem launch_resolution target reason k :
  target ∈ resolver_targets ->
  let (r, k') := transitionToResolvedLaunchState target reason k in
  (r = Returned tt <->
     launchState (k_state k) = target
     \/ (launchState (k_state k) <> background
         /\ ~ (target = runtime_critical /\ launchState (k_state k) ∈ [shell; logout])))
  /\ (r = Returned tt -> launchState (k_state k') = target)
  /\ rtc launch_edge (launchState (k_state k)) (launchState (k_state k')).
Proof.
  intros Ht. pose proof (ev_launch _ _ (moves_toResolved target reason k)) as Hpath.
  destruct (transitionToResolvedLaunchState target reason k) as [r k'] eqn:E. cbn in Hpath.
  enough ((r = Returned tt <->
     launchState (k_state k) = target
     \/ (launchState (k_state k) <> background
         /\ ~ (target = runtime_critical /\ launchState (k_state k) ∈ [shell; logout])))
    /\ (r = Returned tt -> launchState (k_state k') = target)) by tauto.
  clear Hpath. destruct k as [[ph l gen rts bo er] gr inc rev ups tms cxs iss evs cls tk]. cbn in E |- *.
  unfold resolver_targets in Ht.
  repeat (apply elem_of_cons in Ht as [->|Ht]); [..|by apply elem_of_nil in Ht].
  all: destruct l; vm_compute in E; injection E as <- <-; cbn.
  all: split; [|intros; done].
  all: split; [intros Hr; try discriminate Hr; by_computation | intros Hr; try reflexivity; exfalso; revert Hr; by_computation].
Qed.

(** ** A concrete kernel *)
Definition demo_env : KernelEnv := {|
  env_reentry n := if decide (n = 3)%nat then [re_begin 0; re_settle 0 jv_undefined false] else [];
  env_descriptors _ := Returned demo_graph;
  env_fence _ := Returned tt;
  env_number n := Resolved (Z.of_nat n + 1);
  env_launch _ := Resolved shell;
  env_void n := if decide (n = 3)%nat then Rejected (jv_string "offline") else Resolved tt;
  env_teardown _ := Resolved (op_result "" true None);
  env_transition _ := Returned jv_null
|}.

Definition demo_deps : GraphDependencies :=
  {| createDescriptors := 0; readGeneration := 1; advanceGeneration := 2; resolveLaunchState := 3;
     fenceProjections := 4 |}.

(** A kernel that has started once; the bootstrap of [messaging] was rejected. *)
Definition demo_session : list (list Reentry * operation) := [([re_configure demo_deps], op_start app_start)].
Definition demo_kernel : kernel := run_session (H := demo_env) demo_session new_kernel.

(** The same runtimes registered on a cold kernel. *)
Definition demo_cold : kernel := k_dispatch (REGISTER_RUNTIMES demo_graph ["session"; "messaging"; "social"]%string) new_kernel.

Example demo_kernel_phase : phase (k_state demo_kernel) = ACTIVE /\ launchState (k_state demo_kernel) = shell.
Proof. vm_compute. done. Qed.

Example demo_kernel_status :
  (fun id => (id, status_of demo_kernel id)) <$> bootOrder (k_state demo_kernel) =
  [("session", Some st_ready); ("messaging", Some st_failed); ("social", Some st_failed)]%string.
Proof. vm_compute. done. Qed.

Lemma demo_kernel_wf : kernel_wf (k_state demo_kernel) /\ stable demo_kernel.
Proof. apply (steady_session demo_session new_kernel new_kernel_steady). Qed.

Lemma demo_cold_wf : kernel_wf (k_state demo_cold).
Proof.
  apply reducer_wf; [|apply initial_wf]. cbn. split; [|by vm_compute].
  repeat constructor; set_solver.
Qed.

Lemma bootstrapRuntimes_correct_witness :
  phase (k_state demo_cold) = COLD
  /\ exists results k', bootstrapRuntimes (H := demo_env) demo_cold = (Returned results, k')
       /\ op_runtimeId <$> results = ["session"; "messaging"; "social"]%string.
Proof.
  split; [reflexivity|].
  destruct (bootstrapRuntimes_correct (H := demo_env) demo_cold demo_cold_wf eq_refl)
    as (results & cs & k' & Hb & _ & _ & Hids & _).
  exists results, k'. split; [exact Hb | exact Hids].
Defined.

(** Two runtimes, the first named by the empty string; its bootstrap is rejected and the
    second, which depends on it, is started all the same. *)
Definition unnamed_graph : list MobileRuntimeDescriptor :=
  [{| desc_ref := 0; desc_id := ""; desc_title := ""; desc_dependsOn := [] |};
   {| desc_ref := 1; desc_id := "b"; desc_title := ""; desc_dependsOn := [""%string] |}].

Definition unnamed_env : KernelEnv := {|
  env_reentry n := [];
  env_descriptors _ := Returned unnamed_graph;
  env_fence _ := Returned tt;
  env_number n := Resolved 1;
  env_launch _ := Resolved shell;
  env_void n := if decide (n = 0)%nat then Rejected (jv_string "offline") else Resolved tt;
  env_teardown _ := Resolved (op_result "" true None);
  env_transition _ := Returned jv_null
|}.

Definition unnamed_cold : kernel :=
  k_dispatch (REGISTER_RUNTIMES unnamed_graph [""; "b"]%string) new_kernel.

Example unnamed_dependency_does_not_block :
  (fun r => (op_runtimeId r, op_success r))
    <$> match (bootstrapRuntimes (H := unnamed_env) unnamed_cold).1
        with Returned results => results | _ => [] end
  = [(""%string, false); ("b"%string, true)].
Proof. vm_compute. reflexivity. Qed.

Lemma teardownRuntimes_correct_witness :
  isValidPhaseTransition (phase (k_state demo_kernel)) TEARDOWN = true
  /\ exists r k', teardownRuntimes (H := demo_env) {| td_reason := app_unmount; td_draftDisposition := None |} demo_kernel
         = (Returned r, k').
Proof.
  assert (Hv : isValidPhaseTransition (phase (k_state demo_kernel)) TEARDOWN = true) by (vm_compute; reflexivity).
  split; [exact Hv|].
  destruct (teardownRuntimes_correct (H := demo_env) {| td_reason := app_unmount; td_draftDisposition := None |}
    demo_kernel (proj1 demo_kernel_wf) Hv) as (r & k' & Hr & _).
  exists r, k'. exact Hr.
Defined.

Lemma suspend_resume_correct_witness :
  phase (k_state demo_kernel) = ACTIVE
  /\ exists r k', suspendRuntimes (H := demo_env) demo_kernel = (r, k') /\ phase (k_state k') = SUSPENDED.
Proof.
  assert (Hp : phase (k_state demo_kernel) = ACTIVE) by (vm_compute; reflexivity).
  split; [exact Hp|].
  destruct (proj1 (suspend_resume_correct (H := demo_env) demo_kernel (proj1 demo_kernel_wf)) Hp)
    as (r & k' & Hr & Hp' & _).
  exists r, k'. split; [exact Hr | exact Hp'].
Defined.

Definition demo_logout : list HookCall :=
  drop (length (k_calls demo_kernel))
    (k_calls (transitionScope (H := demo_env) reason_logout false None demo_kernel).2).

Lemma transitionScope_fenced_witness :
  exists p g, demo_logout !! 5%nat = Some (call_transition p g) /\ p = COLD /\ 1 < g.
Proof.
  assert (Hc : k_calls (transitionScope (H := demo_env) reason_logout false None demo_kernel).2
               = k_calls demo_kernel ++ demo_logout) by (vm_compute; reflexivity).
  eexists _, _. split; [vm_compute; reflexivity|].
  destruct (transitionScope_fenced (H := demo_env) reason_logout false None demo_kernel demo_logout
    (take 5 demo_logout) COLD 6 (drop 6 demo_logout) (proj1 demo_kernel_wf) (proj2 demo_kernel_wf) Hc
    ltac:(vm_compute; reflexivity)) as (Hp & Hg & _).
  split; [exact Hp | lia].
Defined.

Lemma launch_resolution_witness :
  shell ∈ resolver_targets
  /\ (transitionToResolvedLaunchState shell app_resume demo_kernel).1 = Returned tt.
Proof.
  assert (Ht : shell ∈ resolver_targets) by by_computation.
  split; [exact Ht|].
  pose proof (launch_resolution shell app_resume demo_kernel Ht) as Hl.
  destruct (transitionToResolvedLaunchState shell app_resume demo_kernel) as [r k'].
  apply (proj1 Hl). left. vm_compute. reflexivity.
Defined.

(** ** Behaviours worth knowing *)

(** From [shell] a resolver answer of [runtime-critical] throws after the launch
    state has already been moved to [logout]. *)
Example runtime_critical_from_shell :
  let (r, k') := transitionToResolvedLaunchState runtime_critical access_granted demo_kernel in
  r = Thrown (jv_error
    "mobile.lifecycle.unresolvedLaunchTransition:access-granted:logout->runtime-critical" jv_undefined)
  /\ launchState (k_state k') = logout.
Proof. vm_compute. done. Qed.

(** A scope transition while the app is in the background runs the owner mutation
    and restarts the graph, then throws; the kernel is active again, so the next
    [resume] returns at once and the launch state stays [background]. *)
Example background_scope_transition :
  let k := run_session (H := demo_env)
    [([], op_suspend); ([], op_scope revocation true None); ([], op_resume app_resume)] demo_kernel in
  phase (k_state k) = ACTIVE /\ launchState (k_state k) = background
  /\ existsb is_transition (k_calls k) = true.
Proof. vm_compute. done. Qed.

(** A failing resume moves the phase from [RESUMING] back to [SUSPENDED], an edge the
    transition table does not list. *)
Example resume_failure_edge :
  phase (lifecycleReducer (with_phase RESUMING (initialLifecycleState 1 shell)) (RESUME_COMPLETE (Some "e"%string))) = SUSPENDED
  /\ isValidPhaseTransition RESUMING SUSPENDED = false.
Proof. vm_compute. done. Qed.
