(* ===== verification/MobileNavigation.v ===== *)
(** * Navigation of the mobile app

    Models [apps/mobile/src/app/navigation/navigationDescriptors.ts] (the routes and
    where they render) and [navigationStore.ts] of the same directory (the store
    and the intents that change it). The zustand store is the state passed
    through; its subscribers are outside the model. *)
From Stdlib Require Import Ascii.
From stdpp Require Import base strings list.
From S2P Require Import Prelude.

(** ** Routes *)
Inductive MobilePrimaryRouteId : Set := tab_chat | tab_moments | tab_contacts | tab_settings.

Inductive MobileSettingDetailId : Set :=
| set_account_info | set_notifications | set_privacy_security | set_safety_number | set_blocked_users
| set_chat_settings | set_chat_background | set_station_connection | set_encryption | set_language
| set_about.

Inductive ReadSource : Set := src_device | src_station.

Inductive MobileDetailRoute : Set :=
| chat_conversation (sessionUlid : string) (messageId threadRootMessageId : option string)
| group_conversation (groupUlid : string) (messageId threadRootMessageId : option string)
| detail_search
| contact_profile (actorPtid : string)
| detail_moment (postId : string) (commentId : option string) (readSource : option ReadSource)
| social_search
| social_profile (actorPtid federationId : string)
| social_circles
| social_circle (circleId : string)
| social_circle_members (circleId : string)
| detail_setting (settingId : MobileSettingDetailId).

Inductive MobileOverlayRoute : Set := add_friend | create_group.

Definition primary_id (r : MobilePrimaryRouteId) : string :=
  match r with
  | tab_chat => "tab:chat" | tab_moments => "tab:moments" | tab_contacts => "tab:contacts"
  | tab_settings => "tab:settings"
  end.

Definition setting_id (s : MobileSettingDetailId) : string :=
  match s with
  | set_account_info => "account-info" | set_notifications => "notifications"
  | set_privacy_security => "privacy-security" | set_safety_number => "safety-number"
  | set_blocked_users => "blocked-users" | set_chat_settings => "chat-settings"
  | set_chat_background => "chat-background" | set_station_connection => "station-connection"
  | set_encryption => "encryption" | set_language => "language" | set_about => "about"
  end.

Definition source_id (s : ReadSource) : string :=
  match s with src_device => "device" | src_station => "station" end.

Definition detail_id (r : MobileDetailRoute) : string :=
  match r with
  | chat_conversation _ _ _ => "detail:chat-conversation"
  | group_conversation _ _ _ => "detail:group-conversation"
  | detail_search => "detail:search"
  | contact_profile _ => "detail:contact-profile"
  | detail_moment _ _ _ => "detail:moment"
  | social_search => "detail:social-search"
  | social_profile _ _ => "detail:social-profile"
  | social_circles => "detail:social-circles"
  | social_circle _ => "detail:social-circle"
  | social_circle_members _ => "detail:social-circle-members"
  | detail_setting _ => "detail:setting"
  end.

Definition overlay_id (r : MobileOverlayRoute) : string :=
  match r with add_friend => "overlay:add-friend" | create_group => "overlay:create-group" end.

#[export] Instance MobilePrimaryRouteId_eq_dec : EqDecision MobilePrimaryRouteId.
Proof. solve_decision. Defined.
#[export] Instance MobileSettingDetailId_eq_dec : EqDecision MobileSettingDetailId.
Proof. solve_decision. Defined.
#[export] Instance ReadSource_eq_dec : EqDecision ReadSource.
Proof. solve_decision. Defined.
#[export] Instance MobileDetailRoute_eq_dec : EqDecision MobileDetailRoute.
Proof. solve_decision. Defined.

(** ** Descriptors *)
Inductive NavigationLayout : Set := layout_primary | layout_detail | layout_overlay.

#[export] Instance NavigationLayout_eq_dec : EqDecision NavigationLayout.
Proof. solve_decision. Defined.

Record NavigationDescriptor : Set := {
  nd_routeId : string;
  nd_labelKey : string;
  nd_layout : NavigationLayout;
  nd_ownerRuntimeId : string;
  nd_keepAlive : bool
}.

Definition descriptor (layout : NavigationLayout) (routeId labelKey owner : string) : NavigationDescriptor :=
  {| nd_routeId := routeId; nd_labelKey := labelKey; nd_layout := layout; nd_ownerRuntimeId := owner;
     nd_keepAlive := false |}.

Definition primaryTabDescriptors : list NavigationDescriptor :=
  [descriptor layout_primary "tab:chat" "mobile.tab.chat" "social";
   descriptor layout_primary "tab:moments" "mobile.tab.moments" "social";
   descriptor layout_primary "tab:contacts" "mobile.tab.contacts" "social";
   descriptor layout_primary "tab:settings" "mobile.tab.settings" "auth"].

Definition detailDescriptors : list NavigationDescriptor :=
  [descriptor layout_detail "detail:search" "search.label" "search";
   descriptor layout_detail "detail:chat-conversation" "mobile.nav.chatConversation" "social";
   descriptor layout_detail "detail:group-conversation" "mobile.nav.groupConversation" "messaging";
   descriptor layout_detail "detail:contact-profile" "mobile.nav.contactProfile" "social";
   descriptor layout_detail "detail:moment" "mobile.nav.momentDetail" "social";
   descriptor layout_detail "detail:social-search" "mobile.nav.socialSearch" "social";
   descriptor layout_detail "detail:social-profile" "mobile.nav.socialProfile" "social";
   descriptor layout_detail "detail:social-circles" "mobile.nav.socialCircles" "social";
   descriptor layout_detail "detail:social-circle" "mobile.nav.socialCircle" "social";
   descriptor layout_detail "detail:social-circle-members" "mobile.nav.socialCircleMembers" "social";
   descriptor layout_detail "detail:setting" "mobile.nav.settingDetail" "auth"].

Definition overlayDescriptors : list NavigationDescriptor :=
  [descriptor layout_overlay "overlay:add-friend" "mobile.nav.addFriend" "social";
   descriptor layout_overlay "overlay:create-group" "mobile.nav.createGroup" "messaging"].

Definition allDescriptors : list NavigationDescriptor :=
  primaryTabDescriptors ++ detailDescriptors ++ overlayDescriptors.

Definition findNavigationDescriptor (routeId : string) : option NavigationDescriptor :=
  head (filter (fun d => nd_routeId d = routeId) allDescriptors).

Definition navigationDescriptorsByLayout (layout : NavigationLayout) : list NavigationDescriptor :=
  filter (fun d => nd_layout d = layout) allDescriptors.

Definition isRouteAvailable (routeId : string) (readyRuntimeIds : list string) : bool :=
  match findNavigationDescriptor routeId with
  | None => false
  | Some d => js_set_has (nd_ownerRuntimeId d) readyRuntimeIds
  end.

(** ** The store *)
Inductive MobileNavigationIntent : Set :=
| nav_primary (routeId : MobilePrimaryRouteId)
| nav_push (route : MobileDetailRoute)
| nav_pop
| nav_open (route : MobileOverlayRoute)
| nav_close
| nav_reset.

Record MobileNavigationState : Set := {
  primaryRouteId : MobilePrimaryRouteId;
  detailStack : list MobileDetailRoute;
  overlayRoute : option MobileOverlayRoute
}.

Record MobileNavigationProjection : Set := {
  np_primaryRouteId : MobilePrimaryRouteId;
  np_detailKeys : list string;
  np_overlayRouteId : option string
}.

Definition INITIAL_PRIMARY_ROUTE : MobilePrimaryRouteId := tab_chat.

Definition initial_navigation : MobileNavigationState :=
  {| primaryRouteId := INITIAL_PRIMARY_ROUTE; detailStack := []; overlayRoute := None |}.

(** The template [part ? `:${part}` : ''] on an optional field. *)
Definition suffix (part : option string) : string :=
  match part with
  | Some p => if truthy p then (":" ++ p)%string else ""
  | None => ""
  end.

Definition navigationLocationKey (route : MobileDetailRoute) : string :=
  match route with
  | chat_conversation sessionUlid messageId _ => detail_id route ++ ":" ++ sessionUlid ++ suffix messageId
  | group_conversation groupUlid messageId _ => detail_id route ++ ":" ++ groupUlid ++ suffix messageId
  | detail_search | social_search | social_circles => detail_id route
  | contact_profile actorPtid => detail_id route ++ ":" ++ actorPtid
  | detail_moment postId commentId readSource =>
      detail_id route ++ ":" ++ postId ++ suffix commentId ++ suffix (source_id <$> readSource)
  | social_profile actorPtid federationId => detail_id route ++ ":" ++ actorPtid ++ ":" ++ federationId
  | social_circle circleId | social_circle_members circleId => detail_id route ++ ":" ++ circleId
  | detail_setting settingId => detail_id route ++ ":" ++ setting_id settingId
  end.

Definition requireDescriptor (routeId : string) (expectedLayout : NavigationLayout)
  : result NavigationDescriptor :=
  match findNavigationDescriptor routeId with
  | Some d =>
      if decide (nd_layout d = expectedLayout) then Ok d
      else Err ("mobile.navigation.invalidRoute:" ++ routeId)
  | None => Err ("mobile.navigation.invalidRoute:" ++ routeId)
  end.

(** A store action that first requires its route: it throws before it writes. *)
Definition guarded (routeId : string) (layout : NavigationLayout) (s : MobileNavigationState)
  : result MobileNavigationState :=
  match requireDescriptor routeId layout with
  | Ok _ => Ok s
  | Err e => Err e
  end.

Definition navigatePrimary (routeId : MobilePrimaryRouteId) (s : MobileNavigationState)
  : result MobileNavigationState :=
  guarded (primary_id routeId) layout_primary
    {| primaryRouteId := routeId; detailStack := []; overlayRoute := None |}.

Definition pushDetail (route : MobileDetailRoute) (s : MobileNavigationState)
  : result MobileNavigationState :=
  guarded (detail_id route) layout_detail
    {| primaryRouteId := primaryRouteId s;
       detailStack := filter (fun entry => navigationLocationKey entry <> navigationLocationKey route)
                        (detailStack s) ++ [route];
       overlayRoute := None |}.

(** [slice(0, -1)]. *)
Definition popDetail (s : MobileNavigationState) : result MobileNavigationState :=
  Ok {| primaryRouteId := primaryRouteId s;
        detailStack := take (length (detailStack s) - 1) (detailStack s);
        overlayRoute := overlayRoute s |}.

Definition openOverlay (route : MobileOverlayRoute) (s : MobileNavigationState)
  : result MobileNavigationState :=
  guarded (overlay_id route) layout_overlay
    {| primaryRouteId := primaryRouteId s; detailStack := detailStack s; overlayRoute := Some route |}.

Definition closeOverlay (s : MobileNavigationState) : result MobileNavigationState :=
  Ok {| primaryRouteId := primaryRouteId s; detailStack := detailStack s; overlayRoute := None |}.

Definition reset (s : MobileNavigationState) : result MobileNavigationState :=
  Ok {| primaryRouteId := INITIAL_PRIMARY_ROUTE; detailStack := []; overlayRoute := None |}.

Definition activeMobileDetailRoute (s : MobileNavigationState) : option MobileDetailRoute :=
  last (detailStack s).

Definition readMobileNavigationProjection (s : MobileNavigationState) : MobileNavigationProjection :=
  {| np_primaryRouteId := primaryRouteId s;
     np_detailKeys := navigationLocationKey <$> detailStack s;
     np_overlayRouteId := overlay_id <$> overlayRoute s |}.

Definition navigation_step (intent : MobileNavigationIntent) (s : MobileNavigationState)
  : result MobileNavigationState :=
  match intent with
  | nav_primary routeId => navigatePrimary routeId s
  | nav_push route => pushDetail route s
  | nav_pop => popDetail s
  | nav_open route => openOverlay route s
  | nav_close => closeOverlay s
  | nav_reset => reset s
  end.

(** The store after the intent and what the caller gets. *)
Definition applyMobileNavigationIntent (intent : MobileNavigationIntent) (s : MobileNavigationState)
  : MobileNavigationState * result MobileNavigationProjection :=
  match navigation_step intent s with
  | Ok s' => (s', Ok (readMobileNavigationProjection s'))
  | Err e => (s, Err e)
  end.

Definition run_intents (intents : list MobileNavigationIntent) (s : MobileNavigationState)
  : MobileNavigationState :=
  fold_left (fun s i => (applyMobileNavigationIntent i s).1) intents s.

(** ** Keys as fields *)

(** The fields a key is made of. *)
Definition optional_field (part : option string) : list string :=
  match part with
  | Some p => if truthy p then [p] else []
  | None => []
  end.

Definition location_fields (route : MobileDetailRoute) : list string :=
  "detail"%string ::
  match route with
  | chat_conversation u m _ => ["chat-conversation"; u]%string ++ optional_field m
  | group_conversation u m _ => ["group-conversation"; u]%string ++ optional_field m
  | detail_search => ["search"]%string
  | contact_profile p => ["contact-profile"; p]%string
  | detail_moment p c r => ["moment"; p]%string ++ optional_field c ++ optional_field (source_id <$> r)
  | social_search => ["social-search"]%string
  | social_profile p f => ["social-profile"; p; f]%string
  | social_circles => ["social-circles"]%string
  | social_circle c => ["social-circle"; c]%string
  | social_circle_members c => ["social-circle-members"; c]%string
  | detail_setting s => ["setting"; setting_id s]%string
  end.

Lemma key_fields route : navigationLocationKey route = join_colon (location_fields route).
Proof.
  destruct route as [u [m|] t|u [m|] t| |p|p [c|] [[]|]| | | | | |s]; cbn; try reflexivity;
    try (destruct (truthy m)); try (destruct (truthy c)); cbn; rewrite ?app_empty_r, ?app_assoc_string; try reflexivity.
Qed.

(** Every id of the route is free of colons. *)
Definition route_colon_free (route : MobileDetailRoute) : Prop := Forall colon_free (location_fields route).

(** A comment id that reads like a read source makes two moment locations share a key. *)
Definition comment_distinct (route : MobileDetailRoute) : Prop :=
  match route with
  | detail_moment _ (Some c) _ => c <> "device"%string /\ c <> "station"%string
  | _ => True
  end.

(** An optional id that is empty counts as absent. *)
Definition present (part : option string) : option string :=
  match part with
  | Some p => if truthy p then Some p else None
  | None => None
  end.

(** The location a route names: a thread root is not part of it. *)
Definition location (route : MobileDetailRoute) : MobileDetailRoute :=
  match route with
  | chat_conversation u m _ => chat_conversation u (present m) None
  | group_conversation u m _ => group_conversation u (present m) None
  | detail_moment p c r => detail_moment p (present c) r
  | r => r
  end.

Lemma setting_id_inj s1 s2 : setting_id s1 = setting_id s2 -> s1 = s2.
Proof. destruct s1, s2; done. Qed.

Lemma optional_present m : optional_field m = match present m with Some p => [p] | None => [] end.
Proof. destruct m as [p|]; cbn; [by destruct (truthy p) | done]. Qed.

Lemma source_field r : optional_field (source_id <$> r) = match r with Some s => [source_id s] | None => [] end.
Proof. by destruct r as [[]|]. Qed.

Lemma location_fields_location route : location_fields (location route) = location_fields route.
Proof.
  destruct route as [u [m|] t|u [m|] t| |p|p [c|] r| | | | | |s]; try reflexivity;
    [destruct (truthy m) eqn:Hp..|destruct (truthy c) eqn:Hp]; unfold location, location_fields; cbn [present optional_field];
    rewrite Hp; cbn [present optional_field]; by rewrite ?Hp.
Qed.

Lemma location_fields_inj r1 r2 :
  comment_distinct r1 -> comment_distinct r2 -> location_fields r1 = location_fields r2 ->
  location r1 = location r2.
Proof.
  intros H1 H2 Heq.
  destruct r1 as [u1 m1 ?|u1 m1 ?| |p1|p1 c1 s1| |p1 f1| |c1|c1|s1],
    r2 as [u2 m2 ?|u2 m2 ?| |p2|p2 c2 s2| |p2 f2| |c2|c2|s2]; simplify_eq/=; try done;
    rewrite ?optional_present, ?source_field in *.
  - by destruct (present m1), (present m2); simplify_eq.
  - by destruct (present m1), (present m2); simplify_eq.
  - destruct c1 as [c1|], c2 as [c2|]; cbn in *; try destruct (truthy c1); try destruct (truthy c2);
      destruct s1 as [[]|], s2 as [[]|]; simplify_eq/=; try done; tauto.
  - f_equal. by apply setting_id_inj.
Qed.

Lemma location_key_inj r1 r2 :
  route_colon_free r1 -> route_colon_free r2 -> comment_distinct r1 -> comment_distinct r2 ->
  navigationLocationKey r1 = navigationLocationKey r2 -> location r1 = location r2.
Proof.
  intros Hf1 Hf2 Hc1 Hc2. rewrite !key_fields. intros Heq. apply location_fields_inj; [done..|].
  rewrite <- (split_join_colon (location_fields r1)), <- (split_join_colon (location_fields r2)), Heq by done. done.
Qed.

(** ** The invariant of the store *)
Definition navigation_wf (s : MobileNavigationState) : Prop :=
  NoDup (navigationLocationKey <$> detailStack s).

Lemma guarded_primary r s : guarded (primary_id r) layout_primary s = Ok s.
Proof. by destruct r. Qed.
Lemma guarded_detail r s : guarded (detail_id r) layout_detail s = Ok s.
Proof. by destruct r. Qed.
Lemma guarded_overlay r s : guarded (overlay_id r) layout_overlay s = Ok s.
Proof. by destruct r. Qed.

Lemma keys_filter k (l : list MobileDetailRoute) :
  navigationLocationKey <$> filter (fun e => navigationLocationKey e <> k) l =
  filter (fun k' => k' <> k) (navigationLocationKey <$> l).
Proof.
  induction l as [|e l IH]; [done|]. rewrite fmap_cons, !filter_cons, <- IH.
  repeat case_decide; by rewrite ?fmap_cons.
Qed.

Lemma navigation_step_ok i s : navigation_wf s ->
  exists s', navigation_step i s = Ok s' /\ navigation_wf s'.
Proof.
  unfold navigation_wf. intros Hwf. destruct i; cbn [navigation_step].
  - unfold navigatePrimary. rewrite guarded_primary. eexists. split; [done|]. by apply NoDup_nil_2.
  - unfold pushDetail. rewrite guarded_detail. eexists. split; [done|]. cbn.
    rewrite fmap_app, keys_filter. apply NoDup_app. split; [by apply NoDup_filter|]. split.
    + intros k [? _]%list_elem_of_filter ?%list_elem_of_singleton. done.
    + apply NoDup_singleton.
  - eexists. split; [done|]. cbn. rewrite <- (take_drop (length (detailStack s) - 1) (detailStack s)), fmap_app in Hwf.
    by apply NoDup_app in Hwf as [? _].
  - unfold openOverlay. rewrite guarded_overlay. eexists. by split.
  - by eexists.
  - eexists. split; [done|]. by apply NoDup_nil_2.
Qed.

Lemma run_intents_wf intents s : navigation_wf s -> navigation_wf (run_intents intents s).
Proof.
  revert s. induction intents as [|i intents IH]; cbn; intros s Hwf; [done|]. apply IH.
  destruct (navigation_step_ok i s Hwf) as (s' & Hs & Hwf'). unfold applyMobileNavigationIntent. by rewrite Hs.
Qed.

(** ** Theorems *)

(** After any sequence of intents every further intent is accepted (no
    route of the types is missing from the descriptors or has the wrong layout), and
    the detail stack shows no location twice. *)
Theorem navigation_intents_accepted intents i :
  let s := run_intents intents initial_navigation in
  NoDup (np_detailKeys (readMobileNavigationProjection s))
  /\ is_ok (applyMobileNavigationIntent i s).2 = true.
Proof.
  intros s. assert (Hwf : navigation_wf s) by (apply run_intents_wf, NoDup_nil_2).
  split; [exact Hwf|]. destruct (navigation_step_ok i s Hwf) as (s' & Hs & _).
  unfold applyMobileNavigationIntent. by rewrite Hs.
Qed.

(** Pushing a detail route makes it the active one, closes the overlay,
    keeps the primary tab, moves the location to the top when it was open already
    and keeps the order of all others; popping gives back the stack without it. *)
Theorem pushDetail_spec route s :
  navigation_wf s ->
  exists s', pushDetail route s = Ok s'
    /\ activeMobileDetailRoute s' = Some route /\ overlayRoute s' = None
    /\ primaryRouteId s' = primaryRouteId s
    /\ np_detailKeys (readMobileNavigationProjection s') =
         filter (fun k => k <> navigationLocationKey route) (np_detailKeys (readMobileNavigationProjection s))
         ++ [navigationLocationKey route]
    /\ (exists s'', popDetail s' = Ok s''
         /\ (navigationLocationKey route ∉ np_detailKeys (readMobileNavigationProjection s) ->
             detailStack s'' = detailStack s)).
Proof.
  intros Hwf. unfold pushDetail. rewrite guarded_detail. eexists. split; [done|]. cbn.
  split; [apply last_snoc|]. split; [done|]. split; [done|]. split.
  - by rewrite fmap_app, keys_filter.
  - eexists. split; [done|]. cbn. intros Hni.
    rewrite length_app, Nat.add_sub, take_app_length. apply filter_all.
    intros e He Hk. apply Hni. rewrite <- Hk. by apply list_elem_of_fmap_2.
Qed.

(** The key of a location identifies it: two detail routes with the same
    key name the same location (a thread root is not part of a location, and an
    empty message or comment id counts as absent), provided no id contains a colon
    and no comment id reads like a read source. *)
Theorem navigationLocationKey_injective r1 r2 :
  route_colon_free r1 -> route_colon_free r2 -> comment_distinct r1 -> comment_distinct r2 ->
  navigationLocationKey r1 = navigationLocationKey r2 <-> location r1 = location r2.
Proof.
  intros Hf1 Hf2 Hc1 Hc2. split; [by apply location_key_inj|]. intros Hl.
  by rewrite !key_fields, <- (location_fields_location r1), <- (location_fields_location r2), Hl.
Qed.

(** ** Concrete routes *)
Definition demo_route : MobileDetailRoute := chat_conversation "u1" (Some "m1"%string) None.

Lemma pushDetail_spec_witness :
  navigation_wf initial_navigation
  /\ exists s', pushDetail demo_route initial_navigation = Ok s' /\ activeMobileDetailRoute s' = Some demo_route.
Proof.
  split; [apply NoDup_nil_2|].
  destruct (pushDetail_spec demo_route initial_navigation (NoDup_nil_2)) as (s' & Hs & Ha & _).
  exists s'. split; [exact Hs | exact Ha].
Defined.

Lemma navigationLocationKey_injective_witness :
  route_colon_free demo_route /\ comment_distinct demo_route
  /\ (navigationLocationKey demo_route = navigationLocationKey demo_route <-> location demo_route = location demo_route).
Proof.
  assert (Hf : route_colon_free demo_route) by (repeat constructor).
  split; [exact Hf|]. split; [exact I|].
  exact (navigationLocationKey_injective demo_route demo_route Hf Hf I I).
Defined.

(** Without the provisos keys do collide: a comment called [device] hides a moment
    read from the device, and ids with colons shift. *)
Example moment_keys_collide :
  navigationLocationKey (detail_moment "p" (Some "device"%string) None) =
  navigationLocationKey (detail_moment "p" None (Some src_device)).
Proof. reflexivity. Qed.

Example profile_keys_collide :
  navigationLocationKey (social_profile "a:b" "c") = navigationLocationKey (social_profile "a" "b:c").
Proof. reflexivity. Qed.
