(* ===== verification/EventIngress.v ===== *)
(** * The shared event ingress of the mobile app

    Models [apps/mobile/src/runtimes/socialEventIngress.ts]: two bounded queues, the
    windows of seen and pending event keys, the drain loop between its awaits,
    projection staleness and write admission. Calls to the handlers of the owner are
    a log; the optional handlers are taken to be present. A handler that calls back
    into the ingress while an event is being handled is an operation that happens
    while the drain is in state [handling]. *)
From stdpp Require Import base strings list.
From S2P Require Import Prelude JsonValue.

(** ** Events *)
Inductive SocialKind : Set := friend_typing | friend_presence | friend_request | social_relationship_changed.
Inductive MomentsKind : Set := post_created | post_reacted | post_commented | post_deleted.
Inductive NotificationKind : Set :=
| notification_received | notification_read | notification_deleted | unread_count_changed.
Inductive ProfileKind : Set := profile_updated | preference_changed | avatar_changed | profile_relationship_changed.
Inductive ControlKind : Set :=
| session_revalidate | heartbeat | host_wakeup | stream_connected | stream_disconnected
| messaging_wake | resync_required | cursor_repair.

#[export] Instance ControlKind_eq_dec : EqDecision ControlKind.
Proof. solve_decision. Defined.

(** The kind and the optional id of a data event; nothing here reads the payloads. *)
Inductive DataBody : Set :=
| SocialDataEvent (kind : SocialKind) (sessionUlid : option string)
| MomentsDataEvent (kind : MomentsKind) (postId : option string)
| NotificationDataEvent (kind : NotificationKind) (notificationId : option string)
| ProfileDataEvent (kind : ProfileKind) (actorPtid : option string).

Record DataEvent : Set := {
  de_body : DataBody;
  de_payload : list (string * Json);
  de_cursor : string;
  de_timestampMs : Z
}.

Record ControlEvent : Set := {
  ce_kind : ControlKind;
  ce_payload : list (string * Json);
  ce_cursor : string;
  ce_timestampMs : Z
}.

Inductive SocialIngressEvent : Set :=
| data_event (e : DataEvent)
| control_event (e : ControlEvent).

Inductive SocialIngressDomain : Set := dom_social | dom_moments | dom_notification | dom_profile | dom_control.

#[export] Instance SocialIngressDomain_eq_dec : EqDecision SocialIngressDomain.
Proof. solve_decision. Defined.

Definition domain_name (d : SocialIngressDomain) : string :=
  match d with
  | dom_social => "social" | dom_moments => "moments" | dom_notification => "notification"
  | dom_profile => "profile" | dom_control => "control"
  end.

Definition data_domain (e : DataEvent) : SocialIngressDomain :=
  match de_body e with
  | SocialDataEvent _ _ => dom_social
  | MomentsDataEvent _ _ => dom_moments
  | NotificationDataEvent _ _ => dom_notification
  | ProfileDataEvent _ _ => dom_profile
  end.

Definition event_domain (e : SocialIngressEvent) : SocialIngressDomain :=
  match e with data_event e => data_domain e | control_event _ => dom_control end.
Definition event_cursor (e : SocialIngressEvent) : string :=
  match e with data_event e => de_cursor e | control_event e => ce_cursor e end.
Definition event_timestamp (e : SocialIngressEvent) : Z :=
  match e with data_event e => de_timestampMs e | control_event e => ce_timestampMs e end.

Definition control_kind_name (k : ControlKind) : string :=
  match k with
  | session_revalidate => "session-revalidate" | heartbeat => "heartbeat" | host_wakeup => "host-wakeup"
  | stream_connected => "stream-connected" | stream_disconnected => "stream-disconnected"
  | messaging_wake => "messaging-wake" | resync_required => "resync-required"
  | cursor_repair => "cursor-repair"
  end.

Definition ALL_DOMAINS : list SocialIngressDomain :=
  [dom_social; dom_moments; dom_notification; dom_profile; dom_control].

Definition DATA_DOMAINS : list SocialIngressDomain := filter (fun d => d <> dom_control) ALL_DOMAINS.

(** The character U+001F between domain and cursor. *)
Definition unit_separator : string := String (Ascii.Ascii true true true true true false false false) "".

Definition domain_key (domain : SocialIngressDomain) (cursor : string) : string :=
  domain_name domain ++ unit_separator ++ cursor.

(** The empty string for an event without a cursor. *)
Definition eventKey (e : SocialIngressEvent) : string :=
  if truthy (event_cursor e) then domain_key (event_domain e) (event_cursor e) else "".

(** ** State *)
Record DomainCursorState : Set := {
  lastCursor : string;
  lastTimestampMs : Z;
  gapDetected : bool
}.

Inductive ProjectionStaleness : Set :=
| fresh
| stale (reason : string) (since : Z).

Inductive WriteAdmission : Set :=
| admission_open
| admission_closed (reason : string) (closedAt : Z).

Inductive IngressLifecycle : Set := active | suspended | torn.

#[export] Instance IngressLifecycle_eq_dec : EqDecision IngressLifecycle.
Proof. solve_decision. Defined.

Definition is_stale (s : ProjectionStaleness) : bool := match s with stale _ _ => true | fresh => false end.
Definition is_open (w : WriteAdmission) : bool := match w with admission_open => true | _ => false end.

(** Where the drain promise is: none, scheduled, waiting for the handler of an event,
    or past its loop with the [finally] callback still to run. *)
Inductive Processing : Set :=
| idle
| scheduled
| handling (e : SocialIngressEvent)
| finishing.

(** Calls to the owner. *)
Inductive IngressNotice : Set :=
| note_event (e : SocialIngressEvent)
| note_staleness (domain : SocialIngressDomain) (s : ProjectionStaleness)
| note_admission (w : WriteAdmission)
| note_reconcile (domains : list SocialIngressDomain) (reason checkpointCursor : string)
| note_revalidate (reason : string)
| note_handler_error (e : SocialIngressEvent).

Record IngressCapacityConfig : Set := {
  dataCapacity : Z;
  controlCapacity : Z
}.

Definition DEFAULT_DATA_CAPACITY : Z := 1024.
Definition DEFAULT_CONTROL_CAPACITY : Z := 64.

Record ingress : Set := {
  config : IngressCapacityConfig;
  dataQueue : list DataEvent;
  controlQueue : list ControlEvent;
  seenEventKeys : list string;       (* a Set *)
  seenEventKeyOrder : list string;
  pendingEventKeys : list string;    (* a Set *)
  consecutiveControlLosses : Z;
  writeAdmission : WriteAdmission;
  streamCursor : string;
  lifecycle : IngressLifecycle;
  cursors : SocialIngressDomain -> DomainCursorState;
  staleness : SocialIngressDomain -> ProjectionStaleness;
  processing : Processing;
  notices : list IngressNotice
}.

Definition emptyDomainCursor : DomainCursorState :=
  {| lastCursor := ""; lastTimestampMs := 0; gapDetected := false |}.
Definition emptyDomainStaleness : ProjectionStaleness := fresh.

Definition MAX_SAFE_INTEGER : Z := 9007199254740991.
Definition valid_capacity (n : Z) : bool := (0 <? n) && (n <=? MAX_SAFE_INTEGER).

(** The constructor; absent capacities take the defaults. *)
Definition createSocialEventIngress (dataCap controlCap : option Z) : result ingress :=
  let cfg := {| dataCapacity := default DEFAULT_DATA_CAPACITY dataCap;
                controlCapacity := default DEFAULT_CONTROL_CAPACITY controlCap |} in
  if negb (valid_capacity (dataCapacity cfg)) || negb (valid_capacity (controlCapacity cfg))
  then Err "mobile.social.invalidIngressCapacity"
  else Ok {| config := cfg; dataQueue := []; controlQueue := []; seenEventKeys := [];
             seenEventKeyOrder := []; pendingEventKeys := []; consecutiveControlLosses := 0;
             writeAdmission := admission_open; streamCursor := ""; lifecycle := active;
             cursors := fun _ => emptyDomainCursor; staleness := fun _ => emptyDomainStaleness;
             processing := idle; notices := [] |}.

Definition seenCursorCapacity (s : ingress) : Z := dataCapacity (config s) + controlCapacity (config s).

(** Record updates. *)
Definition upd {A} (f : SocialIngressDomain -> A) (d : SocialIngressDomain) (a : A) : SocialIngressDomain -> A :=
  fun d' => if decide (d = d') then a else f d'.

Definition with_queues (dq : list DataEvent) (cq : list ControlEvent) (pending : list string) (s : ingress) : ingress :=
  {| config := config s; dataQueue := dq; controlQueue := cq; seenEventKeys := seenEventKeys s;
     seenEventKeyOrder := seenEventKeyOrder s; pendingEventKeys := pending;
     consecutiveControlLosses := consecutiveControlLosses s; writeAdmission := writeAdmission s;
     streamCursor := streamCursor s; lifecycle := lifecycle s; cursors := cursors s;
     staleness := staleness s; processing := processing s; notices := notices s |}.

Definition with_seen (keys keyOrder : list string) (s : ingress) : ingress :=
  {| config := config s; dataQueue := dataQueue s; controlQueue := controlQueue s; seenEventKeys := keys;
     seenEventKeyOrder := keyOrder; pendingEventKeys := pendingEventKeys s;
     consecutiveControlLosses := consecutiveControlLosses s; writeAdmission := writeAdmission s;
     streamCursor := streamCursor s; lifecycle := lifecycle s; cursors := cursors s;
     staleness := staleness s; processing := processing s; notices := notices s |}.

Definition with_losses (n : Z) (s : ingress) : ingress :=
  {| config := config s; dataQueue := dataQueue s; controlQueue := controlQueue s;
     seenEventKeys := seenEventKeys s; seenEventKeyOrder := seenEventKeyOrder s;
     pendingEventKeys := pendingEventKeys s;
     consecutiveControlLosses := n; writeAdmission := writeAdmission s;
     streamCursor := streamCursor s; lifecycle := lifecycle s; cursors := cursors s;
     staleness := staleness s; processing := processing s; notices := notices s |}.

Definition with_admission (w : WriteAdmission) (s : ingress) : ingress :=
  {| config := config s; dataQueue := dataQueue s; controlQueue := controlQueue s;
     seenEventKeys := seenEventKeys s; seenEventKeyOrder := seenEventKeyOrder s;
     pendingEventKeys := pendingEventKeys s;
     consecutiveControlLosses := consecutiveControlLosses s; writeAdmission := w;
     streamCursor := streamCursor s; lifecycle := lifecycle s; cursors := cursors s;
     staleness := staleness s; processing := processing s; notices := notices s |}.

Definition with_lifecycle (l : IngressLifecycle) (s : ingress) : ingress :=
  {| config := config s; dataQueue := dataQueue s; controlQueue := controlQueue s;
     seenEventKeys := seenEventKeys s; seenEventKeyOrder := seenEventKeyOrder s;
     pendingEventKeys := pendingEventKeys s;
     consecutiveControlLosses := consecutiveControlLosses s; writeAdmission := writeAdmission s;
     streamCursor := streamCursor s; lifecycle := l; cursors := cursors s;
     staleness := staleness s; processing := processing s; notices := notices s |}.

Definition with_cursor (d : SocialIngressDomain) (c : DomainCursorState) (stream : string) (s : ingress) : ingress :=
  {| config := config s; dataQueue := dataQueue s; controlQueue := controlQueue s;
     seenEventKeys := seenEventKeys s; seenEventKeyOrder := seenEventKeyOrder s;
     pendingEventKeys := pendingEventKeys s;
     consecutiveControlLosses := consecutiveControlLosses s; writeAdmission := writeAdmission s;
     streamCursor := stream; lifecycle := lifecycle s; cursors := upd (cursors s) d c;
     staleness := staleness s; processing := processing s; notices := notices s |}.

Definition with_staleness (d : SocialIngressDomain) (p : ProjectionStaleness) (s : ingress) : ingress :=
  {| config := config s; dataQueue := dataQueue s; controlQueue := controlQueue s;
     seenEventKeys := seenEventKeys s; seenEventKeyOrder := seenEventKeyOrder s;
     pendingEventKeys := pendingEventKeys s;
     consecutiveControlLosses := consecutiveControlLosses s; writeAdmission := writeAdmission s;
     streamCursor := streamCursor s; lifecycle := lifecycle s; cursors := cursors s;
     staleness := upd (staleness s) d p; processing := processing s; notices := notices s |}.

Definition with_processing (p : Processing) (s : ingress) : ingress :=
  {| config := config s; dataQueue := dataQueue s; controlQueue := controlQueue s;
     seenEventKeys := seenEventKeys s; seenEventKeyOrder := seenEventKeyOrder s;
     pendingEventKeys := pendingEventKeys s;
     consecutiveControlLosses := consecutiveControlLosses s; writeAdmission := writeAdmission s;
     streamCursor := streamCursor s; lifecycle := lifecycle s; cursors := cursors s;
     staleness := staleness s; processing := p; notices := notices s |}.

Definition notify (n : IngressNotice) (s : ingress) : ingress :=
  {| config := config s; dataQueue := dataQueue s; controlQueue := controlQueue s;
     seenEventKeys := seenEventKeys s; seenEventKeyOrder := seenEventKeyOrder s;
     pendingEventKeys := pendingEventKeys s;
     consecutiveControlLosses := consecutiveControlLosses s; writeAdmission := writeAdmission s;
     streamCursor := streamCursor s; lifecycle := lifecycle s; cursors := cursors s;
     staleness := staleness s; processing := processing s; notices := notices s ++ [n] |}.

(** ** The parts of the controller *)

(** The [while] loop that keeps the window of seen keys within its capacity. *)
Fixpoint evict_oldest (capacity : Z) (keys keyOrder : list string) : list string * list string :=
  match keyOrder with
  | oldest :: rest =>
      if capacity <? Z.of_nat (length keyOrder)
      then evict_oldest capacity (if truthy oldest then js_set_delete oldest keys else keys) rest
      else (keys, keyOrder)
  | [] => (keys, [])
  end.

Definition updateCursor (domain : SocialIngressDomain) (cursor : string) (timestampMs : Z) (s : ingress) : ingress :=
  if negb (truthy cursor) then s
  else
    let s := with_cursor domain
      {| lastCursor := cursor; lastTimestampMs := timestampMs; gapDetected := false |} cursor s in
    let key := domain_key domain cursor in
    let (keys, keyOrder) := evict_oldest (seenCursorCapacity s) (js_set_add key (seenEventKeys s))
                              (seenEventKeyOrder s ++ [key]) in
    with_seen keys keyOrder s.

Definition dedup_domains (domains : list SocialIngressDomain) : list SocialIngressDomain :=
  fold_left (fun acc d => if decide (d ∈ acc) then acc else acc ++ [d]) domains [].

Definition requestReconcile (domains : list SocialIngressDomain) (reason checkpointCursor : string)
  (s : ingress) : ingress :=
  notify (note_reconcile (dedup_domains domains) reason checkpointCursor) s.

(** An absent checkpoint is the stream cursor. *)
Definition markStale (now : Z) (domain : SocialIngressDomain) (reason : string)
  (checkpointCursor : option string) (request : bool) (s : ingress) : ingress :=
  let checkpoint := default (streamCursor s) checkpointCursor in
  let current := cursors s domain in
  let s := with_cursor domain
    {| lastCursor := lastCursor current; lastTimestampMs := lastTimestampMs current; gapDetected := true |}
    (streamCursor s) s in
  let s := with_staleness domain (stale reason now) s in
  let s := notify (note_staleness domain (stale reason now)) s in
  if request then requestReconcile [domain] reason checkpoint s else s.

Definition clearStaleness (domain : SocialIngressDomain) (s : ingress) : ingress :=
  if is_stale (staleness s domain)
  then notify (note_staleness domain fresh) (with_staleness domain fresh s)
  else s.

Definition closeWriteAdmission (now : Z) (reason : string) (s : ingress) : ingress :=
  if negb (is_open (writeAdmission s)) then s
  else notify (note_admission (admission_closed reason now)) (with_admission (admission_closed reason now) s).

Definition enqueueDrain (s : ingress) : ingress :=
  match processing s with
  | idle => if decide (lifecycle s = torn) then s else with_processing scheduled s
  | _ => s
  end.

(** Marks every data domain stale, without reconciling each. *)
Definition mark_all_stale (now : Z) (reason : string) (checkpoint : option string) (s : ingress) : ingress :=
  fold_left (fun s d => markStale now d reason checkpoint false s) DATA_DOMAINS s.

(** ** Ingestion *)
Definition known_key (key : string) (s : ingress) : bool :=
  truthy key && (js_set_has key (seenEventKeys s) || js_set_has key (pendingEventKeys s)).

Definition add_pending (key : string) (pending : list string) : list string :=
  if truthy key then js_set_add key pending else pending.

Definition ingestDataEvent (now : Z) (e : DataEvent) (s : ingress) : bool * ingress :=
  if decide (lifecycle s <> active) then (false, s)
  else
    let key := eventKey (data_event e) in
    if known_key key s then (true, s)
    else if dataCapacity (config s) <=? Z.of_nat (length (dataQueue s))
    then (false, markStale now (data_domain e) "data_capacity_overflow" (Some (de_cursor e)) true s)
    else
      (true, enqueueDrain (with_queues (dataQueue s ++ [e]) (controlQueue s)
               (add_pending key (pendingEventKeys s)) s)).

(** A control event for which the queue has no room. *)
Definition control_event_lost (now : Z) (e : ControlEvent) (s : ingress) : ingress :=
  let s := with_losses (consecutiveControlLosses s + 1) s in
  let s := closeWriteAdmission now "control_event_lost" s in
  let s := notify (note_revalidate "control_event_lost") s in
  requestReconcile DATA_DOMAINS "control_event_lost" (ce_cursor e) s.

(** What a resynchronisation signal does before it is queued. *)
Definition resync_signal (now : Z) (e : ControlEvent) (s : ingress) : ingress :=
  if decide (ce_kind e = resync_required \/ ce_kind e = cursor_repair) then
    let reason := control_kind_name (ce_kind e) in
    let s := mark_all_stale now reason (Some (ce_cursor e)) s in
    let s := closeWriteAdmission now reason s in
    requestReconcile DATA_DOMAINS reason (ce_cursor e) s
  else s.

Definition ingestControlEvent (now : Z) (e : ControlEvent) (s : ingress) : bool * ingress :=
  if decide (lifecycle s = torn) then (false, s)
  else
    let key := eventKey (control_event e) in
    if known_key key s then (true, s)
    else if controlCapacity (config s) <=? Z.of_nat (length (controlQueue s))
    then (false, control_event_lost now e s)
    else
      let s := resync_signal now e s in
      (true, enqueueDrain (with_queues (dataQueue s) (controlQueue s ++ [e])
               (add_pending key (pendingEventKeys s)) s)).

(** ** The drain *)

(** The head of the loop of [processQueues]: take the next event, control first, and
    call its handler. *)
Definition take_next (s : ingress) : ingress :=
  if decide (lifecycle s = torn) then with_processing finishing s
  else
    match controlQueue s with
    | e :: rest =>
        notify (note_event (control_event e))
          (with_processing (handling (control_event e))
             (with_queues (dataQueue s) rest (pendingEventKeys s) s))
    | [] =>
        match dataQueue s with
        | e :: rest =>
            notify (note_event (data_event e))
              (with_processing (handling (data_event e))
                 (with_queues rest [] (pendingEventKeys s) s))
        | [] => with_processing finishing s
        end
    end.

(** The [catch] block. *)
Definition handler_failed (now : Z) (e : SocialIngressEvent) (s : ingress) : ingress :=
  let s := notify (note_handler_error e) s in
  match e with
  | control_event c =>
      let s := closeWriteAdmission now "control_event_handler_failed" s in
      let s := notify (note_revalidate "control_event_handler_failed") s in
      requestReconcile DATA_DOMAINS "control_event_handler_failed" (ce_cursor c) s
  | data_event d => markStale now (data_domain d) "event_handler_failed" (Some (de_cursor d)) true s
  end.

(** The rest of an iteration once the handler of [e] has settled. *)
Definition after_handler (now : Z) (ok : bool) (e : SocialIngressEvent) (s : ingress) : ingress :=
  let s :=
    if ok then
      let s := updateCursor (event_domain e) (event_cursor e) (event_timestamp e) s in
      match e with control_event _ => with_losses 0 s | data_event _ => s end
    else handler_failed now e s in
  let key := eventKey e in
  with_queues (dataQueue s) (controlQueue s)
    (if truthy key then js_set_delete key (pendingEventKeys s) else pendingEventKeys s) s.

(** [finally]: forget the promise, and start over when work came in meanwhile. *)
Definition finish_drain (s : ingress) : ingress :=
  let s := with_processing idle s in
  if decide (lifecycle s <> torn /\ (controlQueue s <> [] \/ dataQueue s <> []))
  then enqueueDrain s else s.

(** One task of the event loop that belongs to the drain; [ok] is how the handler
    that was waited for settled. *)
Definition drain_task (now : Z) (ok : bool) (s : ingress) : ingress :=
  match processing s with
  | idle => s
  | scheduled => take_next s
  | handling e => take_next (after_handler now ok e s)
  | finishing => finish_drain s
  end.

(** ** The other operations of the controller *)
Definition repairCursor (now : Z) (domain : SocialIngressDomain) (cursor : string) (s : ingress) : ingress :=
  if decide (lifecycle s = torn) then s
  else
    let repaired := if truthy cursor then cursor else lastCursor (cursors s domain) in
    let s := with_cursor domain
      {| lastCursor := repaired; lastTimestampMs := now; gapDetected := false |}
      (if truthy repaired then repaired else streamCursor s) s in
    clearStaleness domain s.

Definition any_data_stale (s : ingress) : bool := existsb (fun d => is_stale (staleness s d)) DATA_DOMAINS.

Definition reopenAdmission (s : ingress) : ingress :=
  if decide (lifecycle s <> active) then s
  else if any_data_stale s then s
  else notify (note_admission admission_open) (with_admission admission_open (with_losses 0 s)).

Definition suspend (now : Z) (s : ingress) : ingress :=
  if decide (lifecycle s <> active) then s
  else
    let s := with_lifecycle suspended s in
    let s := closeWriteAdmission now "runtime_suspended" s in
    mark_all_stale now "runtime_suspended" None s.

Definition resume (s : ingress) : ingress :=
  if decide (lifecycle s <> suspended) then s
  else requestReconcile DATA_DOMAINS "runtime_resume" (streamCursor s) (with_lifecycle active s).

Definition teardown (s : ingress) : ingress :=
  with_seen [] [] (with_queues [] [] [] (with_lifecycle torn s)).

(** ** Histories *)
Inductive ingress_op : Set :=
| op_data (now : Z) (e : DataEvent)
| op_control (now : Z) (e : ControlEvent)
| op_task (now : Z) (ok : bool)
| op_repair (now : Z) (domain : SocialIngressDomain) (cursor : string)
| op_mark (now : Z) (domain : SocialIngressDomain) (reason : string) (checkpoint : option string) (request : bool)
| op_reopen
| op_suspend (now : Z)
| op_resume
| op_teardown.

Definition ingress_step (s : ingress) (op : ingress_op) : ingress :=
  match op with
  | op_data now e => (ingestDataEvent now e s).2
  | op_control now e => (ingestControlEvent now e s).2
  | op_task now ok => drain_task now ok s
  | op_repair now d c => repairCursor now d c s
  | op_mark now d r c q => markStale now d r c q s
  | op_reopen => reopenAdmission s
  | op_suspend now => suspend now s
  | op_resume => resume s
  | op_teardown => teardown s
  end.

Definition ingress_run (ops : list ingress_op) (s : ingress) : ingress := fold_left ingress_step ops s.
