(* ===== verification/EventIngressFacts.v ===== *)
(** * Correctness of the event ingress

    The invariant of [EventIngress], the progress of its drain, and what it promises
    about lost events and write admission. *)
From stdpp Require Import base strings list sets.
From S2P Require Import Prelude EventIngress.

(** The keys of the events accepted and not yet handled: in flight, then queued. *)
Definition in_flight (s : ingress) : list SocialIngressEvent :=
  match processing s with handling e => [e] | _ => [] end.

Definition queued (s : ingress) : list SocialIngressEvent :=
  (control_event <$> controlQueue s) ++ (data_event <$> dataQueue s).

Definition keys_of (l : list SocialIngressEvent) : list string :=
  filter (fun k => k <> ""%string) (eventKey <$> l).

Definition outstanding (s : ingress) : list string := keys_of (in_flight s ++ queued s).

(** The invariant of queues, windows and drain. *)
Record ingress_inv (s : ingress) : Prop := {
  iv_config : 0 < dataCapacity (config s) /\ 0 < controlCapacity (config s);
  iv_data : Z.of_nat (length (dataQueue s)) <= dataCapacity (config s);
  iv_control : Z.of_nat (length (controlQueue s)) <= controlCapacity (config s);
  iv_window : Z.of_nat (length (seenEventKeyOrder s)) <= seenCursorCapacity s;
  iv_order : NoDup (seenEventKeyOrder s);
  iv_keys : forall k, k ∈ seenEventKeys s <-> k ∈ seenEventKeyOrder s;
  iv_truthy : ""%string ∉ seenEventKeyOrder s;
  iv_flight : forall e, processing s = handling e -> eventKey e ∉ seenEventKeyOrder s;
  iv_pending : lifecycle s <> torn -> forall k, k ∈ pendingEventKeys s <-> k ∈ outstanding s;
  iv_distinct : NoDup (outstanding s);
  iv_unseen : lifecycle s <> torn -> forall k, k ∈ outstanding s -> k ∉ seenEventKeyOrder s;
  iv_torn : lifecycle s = torn -> dataQueue s = [] /\ controlQueue s = [];
  iv_running : lifecycle s <> torn -> queued s <> [] -> processing s <> idle;
  iv_suspended : lifecycle s = suspended -> is_open (writeAdmission s) = false
}.

(** The fields the invariant reads, apart from admission. *)
Record same_queues (s s' : ingress) : Prop := {
  sq_config : config s' = config s;
  sq_data : dataQueue s' = dataQueue s;
  sq_control : controlQueue s' = controlQueue s;
  sq_seen : seenEventKeys s' = seenEventKeys s;
  sq_order : seenEventKeyOrder s' = seenEventKeyOrder s;
  sq_pending : pendingEventKeys s' = pendingEventKeys s;
  sq_processing : processing s' = processing s;
  sq_lifecycle : lifecycle s' = lifecycle s
}.

#[export] Instance same_queues_preorder : PreOrder same_queues.
Proof. split; [by constructor|]. intros s1 s2 s3 [] []. constructor; congruence. Qed.

Lemma inv_same s s' :
  same_queues s s' -> (lifecycle s = suspended -> is_open (writeAdmission s') = false) ->
  ingress_inv s -> ingress_inv s'.
Proof.
  intros [Hc Hd Hq Hs Ho Hp Hpr Hl] Hadm [].
  assert (Hout : outstanding s' = outstanding s) by (unfold outstanding, in_flight, queued; by rewrite Hpr, Hq, Hd).
  assert (Hqd : queued s' = queued s) by (unfold queued; by rewrite Hq, Hd).
  constructor; unfold seenCursorCapacity in *; rewrite ?Hc, ?Hd, ?Hq, ?Ho, ?Hl, ?Hout, ?Hqd, ?Hpr; try assumption.
  - intros k. by rewrite Hs.
  - intros Ht k. rewrite Hp. by apply iv_pending0.
Qed.

Lemma sq_notify n s : same_queues s (notify n s).
Proof. by constructor. Qed.

Lemma admission_notify n s : writeAdmission (notify n s) = writeAdmission s.
Proof. done. Qed.

Lemma sq_markStale now d r c q s : same_queues s (markStale now d r c q s).
Proof. unfold markStale, requestReconcile. by destruct q; constructor. Qed.

Lemma admission_markStale now d r c q s : writeAdmission (markStale now d r c q s) = writeAdmission s.
Proof. unfold markStale, requestReconcile. by destruct q. Qed.

Lemma sq_close now r s : same_queues s (closeWriteAdmission now r s).
Proof. unfold closeWriteAdmission. by destruct (is_open (writeAdmission s)); constructor. Qed.

Lemma close_closed now r s : is_open (writeAdmission (closeWriteAdmission now r s)) = false.
Proof. unfold closeWriteAdmission. by destruct (is_open (writeAdmission s)) eqn:E. Qed.

Lemma sq_all now r c s : same_queues s (mark_all_stale now r c s).
Proof.
  unfold mark_all_stale. revert s. induction DATA_DOMAINS as [|d ds IH]; cbn [fold_left]; intros s; [reflexivity|].
  etrans; [apply sq_markStale | apply IH].
Qed.

Lemma admission_all now r c s : writeAdmission (mark_all_stale now r c s) = writeAdmission s.
Proof.
  unfold mark_all_stale. revert s. induction DATA_DOMAINS as [|d ds IH]; cbn [fold_left]; intros s; [done|].
  by rewrite IH, admission_markStale.
Qed.

Lemma sq_clear d s : same_queues s (clearStaleness d s).
Proof. unfold clearStaleness. by destruct (is_stale _); constructor. Qed.

Lemma admission_clear d s : writeAdmission (clearStaleness d s) = writeAdmission s.
Proof. unfold clearStaleness. by destruct (is_stale _). Qed.

(** ** The window of seen keys *)
Lemma evict_spec cap keys keyOrder :
  0 <= cap -> NoDup keyOrder -> ""%string ∉ keyOrder -> (forall k, k ∈ keys <-> k ∈ keyOrder) ->
  let (keys', keyOrder') := evict_oldest cap keys keyOrder in
  Z.of_nat (length keyOrder') <= cap /\ NoDup keyOrder' /\ (forall k, k ∈ keys' <-> k ∈ keyOrder')
  /\ keyOrder' `suffix_of` keyOrder.
Proof.
  intros Hcap. revert keys. induction keyOrder as [|k0 l IH]; intros keys Hnd Hne Hk; cbn [evict_oldest].
  { split; [cbn; lia|]. by split. }
  apply NoDup_cons in Hnd as [Hni Hnd]. rewrite not_elem_of_cons in Hne. destruct Hne as [Hne0 Hne].
  destruct (Z.ltb_spec cap (Z.of_nat (length (k0 :: l)))) as [Hlt|Hge].
  - rewrite (truthy_true k0) by done.
    specialize (IH (js_set_delete k0 keys) Hnd Hne).
    destruct (evict_oldest cap (js_set_delete k0 keys) l) as [keys' order'].
    destruct IH as (? & ? & ? & ?).
    + intros k. rewrite js_set_delete_elem, Hk, elem_of_cons. naive_solver.
    + split; [done|]. split; [done|]. split; [done|]. by apply suffix_cons_r.
  - split; [lia|]. split; [by apply NoDup_cons|]. by split.
Qed.

Lemma eventKey_domain e : eventKey e <> ""%string -> eventKey e = domain_key (event_domain e) (event_cursor e).
Proof. unfold eventKey. by destruct (truthy (event_cursor e)). Qed.

Lemma eventKey_empty e : eventKey e = ""%string <-> event_cursor e = ""%string.
Proof.
  unfold eventKey. destruct (truthy (event_cursor e)) eqn:Hc.
  - apply truthy_spec in Hc. split; [|done]. by destruct (event_domain e).
  - unfold truthy in Hc. by rewrite negb_false_iff, bool_decide_eq_true in Hc.
Qed.

Lemma keys_of_cons e l : keys_of (e :: l) = (if decide (eventKey e = ""%string) then [] else [eventKey e]) ++ keys_of l.
Proof. unfold keys_of. rewrite fmap_cons, filter_cons. repeat case_decide; try done. Qed.

Lemma keys_of_app l1 l2 : keys_of (l1 ++ l2) = keys_of l1 ++ keys_of l2.
Proof. unfold keys_of. by rewrite fmap_app, filter_app. Qed.

Lemma elem_of_keys k l : k ∈ keys_of l <-> k <> ""%string /\ exists e, e ∈ l /\ k = eventKey e.
Proof. unfold keys_of. rewrite list_elem_of_filter, list_elem_of_fmap. naive_solver. Qed.

(** ** Each part keeps the invariant *)

(** Recording the handled event [e]: it moves from pending to seen. *)
Lemma updateCursor_fields e s :
  let s' := updateCursor (event_domain e) (event_cursor e) (event_timestamp e) s in
  config s' = config s /\ dataQueue s' = dataQueue s /\ controlQueue s' = controlQueue s
  /\ pendingEventKeys s' = pendingEventKeys s /\ processing s' = processing s
  /\ lifecycle s' = lifecycle s /\ writeAdmission s' = writeAdmission s /\ staleness s' = staleness s
  /\ (if truthy (event_cursor e)
      then (seenEventKeys s', seenEventKeyOrder s') =
        evict_oldest (seenCursorCapacity s) (js_set_add (eventKey e) (seenEventKeys s))
          (seenEventKeyOrder s ++ [eventKey e])
      else s' = s).
Proof.
  unfold updateCursor, eventKey. destruct (truthy (event_cursor e)) eqn:Hc; cbn [negb]; [|tauto].
  set (s1 := with_cursor _ _ _ s). change (seenCursorCapacity s1) with (seenCursorCapacity s).
  change (seenEventKeys s1) with (seenEventKeys s). change (seenEventKeyOrder s1) with (seenEventKeyOrder s).
  destruct (evict_oldest _ _ _) as [keys order]. cbn. tauto.
Qed.

(** What is seen after an iteration for [e]. *)
Record handled_window (e : SocialIngressEvent) (s s' : ingress) : Prop := {
  hw_keys : forall k, k ∈ seenEventKeys s' <-> k ∈ seenEventKeyOrder s';
  hw_order : NoDup (seenEventKeyOrder s');
  hw_window : Z.of_nat (length (seenEventKeyOrder s')) <= seenCursorCapacity s;
  hw_truthy : ""%string ∉ seenEventKeyOrder s';
  hw_incl : forall k, k ∈ seenEventKeyOrder s' -> k ∈ seenEventKeyOrder s \/ k = eventKey e
}.

Lemma handler_failed_queues now e s :
  same_queues s (handler_failed now e s)
  /\ (is_open (writeAdmission s) = false -> is_open (writeAdmission (handler_failed now e s)) = false).
Proof.
  unfold handler_failed, requestReconcile. destruct e as [d|c]; cbv zeta; split.
  - etrans; [apply sq_notify | apply sq_markStale].
  - by rewrite admission_markStale.
  - etrans; [apply sq_notify|]. etrans; [apply sq_close|]. etrans; apply sq_notify.
  - intros _. rewrite !admission_notify. apply close_closed.
Qed.

(** The iteration as a whole, before the next event is taken. *)
Lemma after_handler_fields now ok e s :
  let s' := after_handler now ok e s in
  config s' = config s /\ dataQueue s' = dataQueue s /\ controlQueue s' = controlQueue s
  /\ processing s' = processing s /\ lifecycle s' = lifecycle s
  /\ pendingEventKeys s' = (if truthy (eventKey e) then js_set_delete (eventKey e) (pendingEventKeys s)
                            else pendingEventKeys s)
  /\ (is_open (writeAdmission s) = false -> is_open (writeAdmission s') = false)
  /\ (seenEventKeys s', seenEventKeyOrder s') =
      (if ok && truthy (event_cursor e)
       then evict_oldest (seenCursorCapacity s) (js_set_add (eventKey e) (seenEventKeys s))
              (seenEventKeyOrder s ++ [eventKey e])
       else (seenEventKeys s, seenEventKeyOrder s)).
Proof.
  unfold after_handler. destruct ok.
  - destruct (updateCursor_fields e s) as (? & ? & ? & Hp & ? & ? & Hw & ? & Hs).
    cbn [andb]. set (s1 := updateCursor _ _ _ s) in *.
    assert (Hs' : (seenEventKeys s1, seenEventKeyOrder s1) =
      if truthy (event_cursor e) then evict_oldest (seenCursorCapacity s) (js_set_add (eventKey e) (seenEventKeys s))
              (seenEventKeyOrder s ++ [eventKey e]) else (seenEventKeys s, seenEventKeyOrder s)).
    { destruct (truthy (event_cursor e)); [done | by rewrite Hs]. }
    destruct e; cbn; rewrite ?Hp, ?Hw; tauto.
  - destruct (handler_failed_queues now e s) as [[] Hw]. cbn. repeat split; try congruence; try done.
    destruct (truthy (eventKey e)); congruence.
Qed.

Lemma outstanding_cons e s :
  processing s = handling e ->
  outstanding s = (if decide (eventKey e = ""%string) then [] else [eventKey e]) ++ keys_of (queued s).
Proof. intros Hp. unfold outstanding, in_flight. by rewrite Hp, <- keys_of_cons. Qed.

Lemma after_handler_window now ok e s :
  ingress_inv s -> processing s = handling e -> handled_window e s (after_handler now ok e s).
Proof.
  intros Hinv Hp. destruct (after_handler_fields now ok e s) as (_ & _ & _ & _ & _ & _ & _ & Hseen).
  set (s' := after_handler now ok e s) in *. clearbody s'.
  destruct (ok && truthy (event_cursor e)) eqn:Hcur.
  2: { injection Hseen as Hk Ho. destruct Hinv. constructor; rewrite ?Hk, ?Ho; auto. }
  apply andb_prop in Hcur as [_ Hcur].
  assert (Hne : eventKey e <> ""%string) by (rewrite eventKey_empty; by apply truthy_spec).
  pose proof (evict_spec (seenCursorCapacity s) (js_set_add (eventKey e) (seenEventKeys s))
    (seenEventKeyOrder s ++ [eventKey e])) as Hev.
  rewrite <- Hseen in Hev. destruct Hev as (H1 & H2 & H3 & H4).
  - unfold seenCursorCapacity. pose proof (iv_config _ Hinv). lia.
  - apply NoDup_app. split; [apply (iv_order _ Hinv)|]. split; [|apply NoDup_singleton].
    intros k Hk ->%list_elem_of_singleton. by apply (iv_flight _ Hinv e Hp).
  - rewrite elem_of_app, list_elem_of_singleton. intros [?|?]; [by apply (iv_truthy _ Hinv)|congruence].
  - intros k. rewrite js_set_add_elem, (iv_keys _ Hinv), elem_of_app, list_elem_of_singleton. tauto.
  - assert (Hincl : forall k, k ∈ seenEventKeyOrder s' -> k ∈ seenEventKeyOrder s \/ k = eventKey e).
    { intros k Hin. destruct H4 as [pre Hpre].
      assert (Hk : k ∈ seenEventKeyOrder s ++ [eventKey e]) by (rewrite Hpre; set_solver).
      by apply elem_of_app in Hk as [?|?%list_elem_of_singleton]; auto. }
    constructor; try done. intros Hin. destruct (Hincl _ Hin) as [?|?]; [by apply (iv_truthy _ Hinv)|congruence].
Qed.

Lemma after_handler_inv now ok e s :
  ingress_inv s -> processing s = handling e ->
  ingress_inv (with_processing finishing (after_handler now ok e s)).
Proof.
  intros Hinv Hp. destruct (after_handler_window now ok e s Hinv Hp) as [Hk Ho Hwin Htr Hincl].
  destruct (after_handler_fields now ok e s) as (Hc & Hd & Hq & _ & Hl & Hpend & Hadm & _).
  pose proof (outstanding_cons e s Hp) as Hout.
  set (s' := after_handler now ok e s) in *. clearbody s'.
  assert (Hqd : queued (with_processing finishing s') = queued s) by (unfold queued; cbn; by rewrite Hq, Hd).
  assert (Hout' : outstanding (with_processing finishing s') = keys_of (queued s))
    by (unfold outstanding; rewrite Hqd; done).
  pose proof (iv_distinct _ Hinv) as Hdist. rewrite Hout in Hdist.
  apply NoDup_app in Hdist as (_ & Hsep & Hdist).
  assert (Hnot : forall k, k ∈ keys_of (queued s) -> k <> ""%string /\ k <> eventKey e).
  { intros k Hkq. pose proof (proj1 (proj1 (elem_of_keys _ _) Hkq)) as Hke. split; [done|].
    intros ->. apply (Hsep (eventKey e)); [|done]. rewrite decide_False by done. by apply list_elem_of_singleton. }
  constructor; rewrite ?Hout', ?Hqd; unfold seenCursorCapacity in *; cbn; rewrite ?Hc, ?Hd, ?Hq, ?Hl; try done;
    try (by apply Hinv).
  - intros Ht k. rewrite Hpend.
    pose proof (iv_pending _ Hinv Ht k) as Hpk. rewrite Hout, elem_of_app in Hpk.
    destruct (truthy (eventKey e)) eqn:Hte.
    + apply truthy_spec in Hte. rewrite decide_False in Hpk by done. rewrite list_elem_of_singleton in Hpk.
      rewrite js_set_delete_elem, Hpk. split; [tauto|]. intros Hkq. destruct (Hnot k Hkq). tauto.
    + assert (eventKey e = ""%string) by (apply dec_stable; intros Hx; apply truthy_spec in Hx; congruence).
      rewrite decide_True in Hpk by done. rewrite Hpk. set_solver.
  - intros Ht k Hkq Hseen. destruct (Hnot k Hkq) as [_ Hne]. destruct (Hincl k Hseen) as [Hs|?]; [|done].
    apply (iv_unseen _ Hinv Ht k); [|done]. rewrite Hout. set_solver.
  - intros Hs. apply Hadm, (iv_suspended _ Hinv Hs).
Qed.

(** Taking the next event moves it from the queues in flight. *)
Lemma take_next_inv s :
  ingress_inv (with_processing finishing s) -> ingress_inv (take_next s).
Proof.
  intros Hinv. unfold take_next. case_decide as Ht; [done|].
  destruct Hinv as [Hcfg Hdc Hcc Hw Ho Hk Htr _ Hpe Hdi Hun Hto _ Hsu].
  change (outstanding (with_processing finishing s)) with (keys_of (queued s)) in *. cbn in *. specialize (Hpe Ht). specialize (Hun Ht). unfold seenCursorCapacity in *. cbn in *.
  destruct (controlQueue s) as [|c cq] eqn:Hcq; [destruct (dataQueue s) as [|d dq] eqn:Hdq|].
  - constructor; unfold seenCursorCapacity; cbn; rewrite ?Hcq, ?Hdq; try done; unfold outstanding, queued in *;
      cbn; rewrite ?Hcq, ?Hdq in *; done.
  - constructor; unfold seenCursorCapacity, outstanding, in_flight, queued in *; cbn in *;
      rewrite ?Hcq, ?Hdq in *; try done; try lia.
    intros e [= <-] Hin. destruct (decide (eventKey (data_event d) = ""%string)) as [He|He]; [by rewrite He in Hin|].
    apply (Hun (eventKey (data_event d))); [|done]. apply elem_of_keys. split; [done|]. eexists. by split; [left|].
  - constructor; unfold seenCursorCapacity, outstanding, in_flight, queued in *; cbn in *;
      rewrite ?Hcq in *; try done; try lia.
    intros e [= <-] Hin. destruct (decide (eventKey (control_event c) = ""%string)) as [He|He]; [by rewrite He in Hin|].
    apply (Hun (eventKey (control_event c))); [|done]. apply elem_of_keys. split; [done|]. eexists. by split; [left|].
Qed.

(** Starting the drain changes no queue. *)
Lemma enqueueDrain_fields s :
  let s' := enqueueDrain s in
  config s' = config s /\ dataQueue s' = dataQueue s /\ controlQueue s' = controlQueue s
  /\ seenEventKeys s' = seenEventKeys s /\ seenEventKeyOrder s' = seenEventKeyOrder s
  /\ pendingEventKeys s' = pendingEventKeys s /\ lifecycle s' = lifecycle s
  /\ writeAdmission s' = writeAdmission s /\ staleness s' = staleness s /\ notices s' = notices s
  /\ in_flight s' = in_flight s /\ outstanding s' = outstanding s
  /\ (lifecycle s <> torn -> processing s' <> idle)
  /\ (forall e, processing s' = handling e <-> processing s = handling e).
Proof.
  unfold enqueueDrain, outstanding, in_flight, queued.
  destruct (processing s) eqn:Hp; [case_decide|..]; cbn; rewrite ?Hp; repeat split; try done; congruence.
Qed.

(** The invariant without the claim that the drain runs. *)
Definition inv_parked (s : ingress) : Prop := ingress_inv (enqueueDrain s).

(** An accepted event joins the end of its queue. *)
Lemma accept_inv e dq cq s :
  ingress_inv s -> lifecycle s <> torn -> known_key (eventKey e) s = false ->
  (control_event <$> cq) ++ (data_event <$> dq) ≡ₚ queued s ++ [e] ->
  Z.of_nat (length dq) <= dataCapacity (config s) -> Z.of_nat (length cq) <= controlCapacity (config s) ->
  ingress_inv (enqueueDrain (with_queues dq cq (add_pending (eventKey e) (pendingEventKeys s)) s)).
Proof.
  intros Hinv Hl Hnew Hperm Hdl Hcl.
  set (s1 := with_queues dq cq (add_pending (eventKey e) (pendingEventKeys s)) s).
  destruct (enqueueDrain_fields s1) as (Hc & Hd & Hq & Hs & Ho & Hpe & Hli & Hw & _ & _ & _ & Hout & Hrun & Hfl).
  set (s' := enqueueDrain s1) in *. clearbody s'. cbn in *.
  assert (Hout1 : outstanding s1 ≡ₚ outstanding s ++ keys_of [e]).
  { unfold outstanding. rewrite !keys_of_app. change (in_flight s1) with (in_flight s).
    rewrite <- (assoc_L (++)). f_equiv. rewrite <- keys_of_app. unfold keys_of. f_equiv. f_equiv. exact Hperm. }
  assert (Hke : forall k, k ∈ keys_of [e] <-> k = eventKey e /\ eventKey e <> ""%string).
  { intros k. rewrite elem_of_keys. split.
    - by intros (? & x & ->%list_elem_of_singleton & ->).
    - intros [-> ?]. split; [done|]. exists e. by split; [apply list_elem_of_singleton|]. }
  assert (Hfresh : forall k, k ∈ keys_of [e] -> (k ∉ outstanding s) /\ k ∉ seenEventKeyOrder s).
  { intros k [-> Hne]%Hke. unfold known_key in Hnew. rewrite (truthy_true _ Hne) in Hnew. cbn in Hnew. reflect_bool.
    rewrite <- (iv_pending _ Hinv Hl), <- (iv_keys _ Hinv). by rewrite <- !js_set_has_spec; split; congruence. }
  assert (Hnd1 : NoDup (keys_of [e])).
  { rewrite keys_of_cons. case_decide; [apply NoDup_nil_2 | apply NoDup_singleton]. }
  constructor; unfold seenCursorCapacity in *; rewrite ?Hc, ?Hd, ?Hq, ?Ho, ?Hli, ?Hout; try done; try (by apply Hinv).
  - intros k. rewrite Hs. apply (iv_keys _ Hinv).
  - intros x Hx. apply Hfl in Hx. by apply (iv_flight _ Hinv).
  - intros _ k. rewrite Hpe, Hout1, elem_of_app, Hke, <- (iv_pending _ Hinv Hl).
    unfold add_pending. destruct (truthy (eventKey e)) eqn:Ht.
    + apply truthy_spec in Ht. rewrite js_set_add_elem. tauto.
    + split; [by left|]. intros [?|[_ Hne]]; [done|]. apply truthy_spec in Hne. congruence.
  - rewrite Hout1. apply NoDup_app. split; [apply (iv_distinct _ Hinv)|]. split; [|done].
    intros k Hk Hk2. by destruct (Hfresh k Hk2).
  - intros _ k. rewrite Hout1, elem_of_app. intros [Hk|Hk]; [by apply (iv_unseen _ Hinv Hl) | by destruct (Hfresh k Hk)].
  - intros Ht _. by apply Hrun.
  - intros Hsu. rewrite Hw. by apply (iv_suspended _ Hinv).
Qed.

Lemma ingestData_inv now e s : ingress_inv s -> ingress_inv (ingestDataEvent now e s).2.
Proof.
  intros Hinv. unfold ingestDataEvent. case_decide as Hl; [done|].
  destruct (known_key _ s) eqn:Hk; [done|]. destruct (Z.leb_spec (dataCapacity (config s)) (Z.of_nat (length (dataQueue s)))) as [Hle|Hlt].
  - cbn [snd]. eapply inv_same; [apply sq_markStale | | done]. rewrite admission_markStale. apply (iv_suspended _ Hinv).
  - apply (accept_inv (data_event e)); try done; [congruence | | rewrite length_app; cbn; lia | apply (iv_control _ Hinv)].
    unfold queued. by rewrite fmap_app, (assoc_L (++)).
Qed.

Lemma lost_queues now e s :
  same_queues s (control_event_lost now e s)
  /\ is_open (writeAdmission (control_event_lost now e s)) = false.
Proof.
  unfold control_event_lost, requestReconcile. cbv zeta. split.
  - etrans; [|apply sq_notify]. etrans; [|apply sq_notify]. etrans; [|apply sq_close]. by constructor.
  - rewrite !admission_notify. apply close_closed.
Qed.

Lemma resync_queues now e s :
  same_queues s (resync_signal now e s)
  /\ (is_open (writeAdmission s) = false -> is_open (writeAdmission (resync_signal now e s)) = false).
Proof.
  unfold resync_signal, requestReconcile. case_decide; [|done]. cbv zeta. split.
  - etrans; [apply sq_all|]. etrans; [apply sq_close | apply sq_notify].
  - intros _. rewrite admission_notify. apply close_closed.
Qed.

Lemma ingestControl_inv now e s : ingress_inv s -> ingress_inv (ingestControlEvent now e s).2.
Proof.
  intros Hinv. unfold ingestControlEvent. case_decide as Hl; [done|].
  destruct (known_key _ s) eqn:Hk; [done|].
  destruct (Z.leb_spec (controlCapacity (config s)) (Z.of_nat (length (controlQueue s)))) as [Hle|Hlt]; cbn [snd].
  - destruct (lost_queues now e s) as [Hsq Hadm]. eapply inv_same; [exact Hsq | by intros _ | exact Hinv].
  - destruct (resync_queues now e s) as [Hsq Hadm].
    assert (Hinv1 : ingress_inv (resync_signal now e s)).
    { eapply inv_same; [exact Hsq | | exact Hinv]. intros Hsu. apply Hadm, (iv_suspended _ Hinv Hsu). }
    generalize dependent (resync_signal now e s). intros s1 [Hc Hd Hq Hs Ho Hpe Hp Hli] Hadm Hinv1.
    apply (accept_inv (control_event e)); try done; try congruence.
    + unfold known_key in *. by rewrite Hs, Hpe.
    + unfold queued. rewrite fmap_app. cbn. rewrite <- !(assoc_L (++)). f_equiv. apply Permutation_cons_append.
    + apply (iv_data _ Hinv1).
    + rewrite length_app, Hc, Hq. cbn. lia.
Qed.

Lemma finish_inv s : ingress_inv s -> processing s = finishing -> ingress_inv (finish_drain s).
Proof.
  intros Hinv Hp. unfold finish_drain. cbn.
  assert (Hout : forall p, (forall e, p <> handling e) -> outstanding (with_processing p s) = outstanding s).
  { intros p Hne. unfold outstanding, in_flight. cbn. rewrite Hp. destruct p; try done. by destruct (Hne e). }
  assert (Hgo : forall p, (forall e, p <> handling e) ->
            (lifecycle s <> torn -> queued s <> [] -> p <> idle) -> ingress_inv (with_processing p s)).
  { intros p Hne Hr. destruct Hinv. constructor; rewrite ?Hout by done; unfold seenCursorCapacity in *; cbn; try done.
    intros e He. by destruct (Hne e). }
  case_decide as Hcond.
  - unfold enqueueDrain. cbn. rewrite decide_False by tauto. by apply Hgo.
  - apply Hgo; [done|]. intros Ht Hq. destruct Hcond. split; [done|]. unfold queued in Hq.
    destruct (controlQueue s); [right | by left]. by destruct (dataQueue s).
Qed.

Lemma drain_task_inv now ok s : ingress_inv s -> ingress_inv (drain_task now ok s).
Proof.
  intros Hinv. unfold drain_task. destruct (processing s) eqn:Hp; [done|..].
  - apply take_next_inv. destruct Hinv. constructor; unfold outstanding, in_flight, seenCursorCapacity in *; cbn in *;
      rewrite ?Hp in *; try done.
  - apply take_next_inv. by apply after_handler_inv.
  - by apply finish_inv.
Qed.

Lemma teardown_inv s : ingress_inv s -> ingress_inv (teardown s).
Proof.
  intros Hinv. pose proof (iv_config _ Hinv). constructor; unfold seenCursorCapacity; cbn; try done; try lia.
  - apply NoDup_nil_2.
  - set_solver.
  - intros e _. set_solver.
  - change (outstanding (teardown s)) with (keys_of (in_flight s ++ [])).
    unfold in_flight. destruct (processing s); try apply NoDup_nil_2.
    rewrite app_nil_r, keys_of_cons. case_decide; [apply NoDup_nil_2 | apply NoDup_singleton].
Qed.

Lemma inv_lifecycle l s :
  ingress_inv s -> lifecycle s <> torn -> l <> torn ->
  (l = suspended -> is_open (writeAdmission s) = false) -> ingress_inv (with_lifecycle l s).
Proof.
  intros Hinv Hs Hl Hadm. destruct Hinv.
  constructor; unfold outstanding, in_flight, queued, seenCursorCapacity in *; cbn; try done; auto.
Qed.

Lemma ingress_step_inv s op : ingress_inv s -> ingress_inv (ingress_step s op).
Proof.
  intros Hinv. destruct op; cbn [ingress_step].
  - by apply ingestData_inv.
  - by apply ingestControl_inv.
  - by apply drain_task_inv.
  - unfold repairCursor. case_decide; [done|]. eapply inv_same; [| |exact Hinv].
    + etrans; [|apply sq_clear]. by constructor.
    + rewrite admission_clear. apply (iv_suspended _ Hinv).
  - eapply inv_same; [apply sq_markStale | | done]. rewrite admission_markStale. apply (iv_suspended _ Hinv).
  - unfold reopenAdmission. case_decide as Hl; [done|]. destruct (any_data_stale s); [done|].
    apply (inv_same s); [by constructor | congruence | exact Hinv].
  - unfold suspend. case_decide as Hl; [done|].
    eapply inv_same; [apply sq_all | rewrite admission_all; intros _; apply close_closed |].
    assert (Heq : closeWriteAdmission now "runtime_suspended" (with_lifecycle suspended s) =
                  with_lifecycle suspended (closeWriteAdmission now "runtime_suspended" s)).
    { unfold closeWriteAdmission. cbn. by destruct (is_open (writeAdmission s)). }
    rewrite Heq. pose proof (sq_lifecycle _ _ (sq_close now "runtime_suspended" s)) as Hlc.
    apply inv_lifecycle; [|congruence|done|intros _; apply close_closed].
    eapply inv_same; [apply sq_close | intros _; apply close_closed | done].
  - unfold resume. case_decide as Hl; [done|]. eapply inv_same; [apply sq_notify | | apply inv_lifecycle; [exact Hinv|..]];
      cbn; congruence.
  - by apply teardown_inv.
Qed.

Lemma ingress_run_inv ops s : ingress_inv s -> ingress_inv (ingress_run ops s).
Proof.
  unfold ingress_run. revert s. induction ops as [|op ops IH]; cbn [fold_left]; intros s Hinv; [done|].
  by apply IH, ingress_step_inv.
Qed.

Lemma create_inv dc cc s : createSocialEventIngress dc cc = Ok s -> ingress_inv s.
Proof.
  unfold createSocialEventIngress. destruct (valid_capacity _) eqn:Hd; [|done].
  destruct (valid_capacity (controlCapacity _)) eqn:Hc; [|done]. cbn. intros [= <-].
  unfold valid_capacity in *. cbn in *. reflect_bool.
  constructor; unfold seenCursorCapacity; cbn; try done; try lia; try apply NoDup_nil_2; set_solver.
Qed.

(** ** Progress of the drain *)
Definition as_event (n : IngressNotice) : option SocialIngressEvent :=
  match n with note_event e => Some e | _ => None end.

(** The events handed to the handler so far, in order. *)
Definition delivered (s : ingress) : list SocialIngressEvent := omap as_event (notices s).

Lemma delivered_notify n s : as_event n = None -> delivered (notify n s) = delivered s.
Proof. intros Hn. unfold delivered. cbn. rewrite omap_app. cbn. by rewrite Hn, app_nil_r. Qed.

Lemma delivered_markStale now d r c q s : delivered (markStale now d r c q s) = delivered s.
Proof. unfold markStale, requestReconcile. destruct q; rewrite ?delivered_notify; done. Qed.

Lemma delivered_close now r s : delivered (closeWriteAdmission now r s) = delivered s.
Proof. unfold closeWriteAdmission. destruct (is_open _); cbn [negb]; [by rewrite delivered_notify | done]. Qed.

Lemma delivered_all now r c s : delivered (mark_all_stale now r c s) = delivered s.
Proof.
  unfold mark_all_stale. revert s. induction DATA_DOMAINS as [|d ds IH]; cbn [fold_left]; intros s; [done|].
  by rewrite IH, delivered_markStale.
Qed.

Lemma delivered_clear d s : delivered (clearStaleness d s) = delivered s.
Proof. unfold clearStaleness. destruct (is_stale _); [by rewrite delivered_notify | done]. Qed.

Lemma delivered_updateCursor d c t s : delivered (updateCursor d c t s) = delivered s.
Proof.
  unfold updateCursor. destruct (truthy c); [|done]. cbn [negb].
  by destruct (evict_oldest _ _ _).
Qed.

Lemma delivered_failed now e s : delivered (handler_failed now e s) = delivered s.
Proof.
  unfold handler_failed, requestReconcile. destruct e; cbv zeta.
  - by rewrite delivered_markStale, delivered_notify.
  - by rewrite !delivered_notify, delivered_close, delivered_notify.
Qed.

Lemma delivered_after now ok e s : delivered (after_handler now ok e s) = delivered s.
Proof.
  unfold after_handler. cbv zeta. destruct ok; [destruct e|];
    first [apply delivered_updateCursor | apply delivered_failed].
Qed.

Lemma delivered_enqueue s : delivered (enqueueDrain s) = delivered s.
Proof. unfold delivered. by destruct (enqueueDrain_fields s) as (_ & _ & _ & _ & _ & _ & _ & _ & _ & -> & _). Qed.

(** Taking the next event keeps the sequence of past and future deliveries. *)
Lemma take_next_progress s :
  lifecycle s <> torn ->
  let s' := take_next s in
  lifecycle s' = lifecycle s /\ delivered s' ++ queued s' = delivered s ++ queued s
  /\ ((exists e, processing s' = handling e) /\ S (length (queued s')) = length (queued s)
      \/ processing s' = finishing /\ queued s' = [] /\ queued s = []).
Proof.
  intros Hl. unfold take_next, queued. rewrite decide_False by done.
  destruct (controlQueue s) as [|c cq] eqn:Hc; [destruct (dataQueue s) as [|d dq] eqn:Hd|]; cbn.
  - rewrite Hc, Hd. split; [done|]. split; [done|]. right. done.
  - split; [done|]. unfold delivered. cbn. rewrite omap_app, <- (assoc_L (++)). split; [done|]. left. split; eauto.
  - split; [done|]. unfold delivered. cbn. rewrite omap_app, <- (assoc_L (++)). split; [done|]. left. split; eauto.
Qed.

(** Tasks still needed until the drain is idle. *)
Definition tasks_left (s : ingress) : nat :=
  match processing s with
  | idle => 0
  | scheduled | handling _ => S (S (length (queued s)))
  | finishing => if decide (queued s = []) then 1 else 3 + length (queued s)
  end%nat.

Lemma tasks_handling e s : processing s = handling e -> tasks_left s = S (S (length (queued s))).
Proof. unfold tasks_left. by intros ->. Qed.

Lemma tasks_finished s : processing s = finishing -> queued s = [] -> tasks_left s = 1%nat.
Proof. unfold tasks_left. intros -> Hq. by rewrite decide_True. Qed.

Lemma tasks_idle s : processing s = idle -> tasks_left s = 0%nat.
Proof. unfold tasks_left. by intros ->. Qed.

Lemma tasks_none s : tasks_left s = 0%nat -> processing s = idle.
Proof. unfold tasks_left. destruct (processing s); try done. by destruct (decide _). Qed.

Lemma drain_task_progress now ok s :
  lifecycle s <> torn -> processing s <> idle ->
  let s' := drain_task now ok s in
  lifecycle s' = lifecycle s /\ delivered s' ++ queued s' = delivered s ++ queued s
  /\ (tasks_left s' < tasks_left s)%nat /\ (processing s' = idle -> queued s' = []).
Proof.
  intros Hl Hp. unfold drain_task. destruct (processing s) as [| |e|] eqn:Hpr; [done|..].
  - destruct (take_next_progress s Hl) as (H1 & H2 & H3). split; [done|]. split; [done|].
    assert (Ht : tasks_left s = S (S (length (queued s)))) by (unfold tasks_left; by rewrite Hpr).
    destruct H3 as [[[e He] H3]|(He & Hq & Hq')]; rewrite He, Ht;
      [rewrite (tasks_handling e) | rewrite tasks_finished]; try done; split; try lia; done.
  - pose proof (after_handler_fields now ok e s) as (_ & Hd & Hq & _ & Hli & _).
    pose proof (delivered_after now ok e s) as Hdel. set (s1 := after_handler now ok e s) in *. clearbody s1.
    destruct (take_next_progress s1) as (H1 & H2 & H3); [congruence|].
    assert (Hqd : queued s1 = queued s) by (unfold queued; by rewrite Hq, Hd). rewrite Hqd, Hdel, Hli in *.
    split; [done|]. split; [done|]. rewrite (tasks_handling e s Hpr).
    destruct H3 as [[[e' He] H3]|(He & Hq' & Hq2)]; rewrite He;
      [rewrite (tasks_handling e') | rewrite tasks_finished]; try done; split; try lia; done.
  - unfold finish_drain. cbn. set (s1 := with_processing idle s).
    change (delivered s ++ queued s) with (delivered s1 ++ queued s1).
    case_decide as Hc.
    + unfold enqueueDrain. cbn. rewrite decide_False by done. cbn. split; [done|]. split; [done|]. split; [|done].
      assert (Hq : queued s <> []).
      { unfold queued. destruct Hc as [_ [Hx|Hx]]; intros Hq; apply Hx; destruct (controlQueue s), (dataQueue s); done. }
      unfold tasks_left. rewrite Hpr, decide_False by done. cbn [processing with_processing].
      change ((control_event <$> controlQueue s) ++ (data_event <$> dataQueue s)) with (queued s). lia.
    + split; [done|]. split; [done|].
      assert (Hq : queued s1 = []).
      { unfold queued. cbn. destruct (controlQueue s), (dataQueue s); try done;
          exfalso; apply Hc; (split; [done|]); first [by left | by right]. }
      split; [|done]. rewrite tasks_idle, tasks_finished by done. lia.
Qed.

Definition drain_run (answers : list (Z * bool)) (s : ingress) : ingress :=
  fold_left (fun s a => drain_task a.1 a.2 s) answers s.

Lemma drain_idle answers s : processing s = idle -> drain_run answers s = s.
Proof.
  intros Hp. unfold drain_run. induction answers as [|a l IH]; cbn [fold_left]; [done|].
  unfold drain_task at 2. by rewrite Hp.
Qed.

Lemma drain_run_spec answers s :
  lifecycle s <> torn -> (processing s = idle -> queued s = []) ->
  (tasks_left s <= length answers)%nat ->
  let s' := drain_run answers s in
  processing s' = idle /\ queued s' = [] /\ delivered s' = delivered s ++ queued s.
Proof.
  revert s. induction answers as [|a l IH]; intros s Hl Hi Hn.
  - assert (Hp : processing s = idle) by (by apply tasks_none, Nat.le_0_r).
    cbn. split; [done|]. split; [by apply Hi|]. by rewrite (Hi Hp), app_nil_r.
  - assert (processing s = idle \/ processing s <> idle) as [Hp|Hp]
      by (destruct (processing s); [by left | by right..]).
    + rewrite drain_idle by done. split; [done|]. split; [by apply Hi|]. by rewrite (Hi Hp), app_nil_r.
    + destruct (drain_task_progress a.1 a.2 s Hl Hp) as (H1 & H2 & H3 & H4). cbn [length] in Hn.
      destruct (IH (drain_task a.1 a.2 s)) as (? & Hq & Hd); [congruence | done | lia |].
      split; [done|]. split; [done|]. change (drain_run (a :: l) s) with (drain_run l (drain_task a.1 a.2 s)).
      by rewrite Hd, H2.
Qed.

(** ** Staleness and admission over a step *)

Lemma staleness_markStale now d r c q s :
  staleness (markStale now d r c q s) = upd (staleness s) d (stale r now).
Proof. unfold markStale, requestReconcile. by destruct q. Qed.

Lemma staleness_close now r s : staleness (closeWriteAdmission now r s) = staleness s.
Proof. unfold closeWriteAdmission. by destruct (is_open _). Qed.

Lemma staleness_notify n s : staleness (notify n s) = staleness s.
Proof. done. Qed.

Lemma upd_stale (f : SocialIngressDomain -> ProjectionStaleness) d d' r now :
  is_stale (f d) = true -> is_stale (upd f d' (stale r now) d) = true.
Proof. intros Hs. unfold upd. by case_decide. Qed.

(** Marking keeps what is stale stale. *)
Lemma mark_keeps now d' r c q s d :
  is_stale (staleness s d) = true -> is_stale (staleness (markStale now d' r c q s) d) = true.
Proof. rewrite staleness_markStale. apply upd_stale. Qed.

Lemma fold_mark_keeps now r c ds s d :
  is_stale (staleness s d) = true ->
  is_stale (staleness (fold_left (fun s d => markStale now d r c false s) ds s) d) = true.
Proof.
  revert s. induction ds as [|d' ds IH]; cbn [fold_left]; intros s Hs; [done|]. by apply IH, mark_keeps.
Qed.

Lemma mark_all_keeps now r c s d :
  is_stale (staleness s d) = true -> is_stale (staleness (mark_all_stale now r c s) d) = true.
Proof. apply fold_mark_keeps. Qed.

Lemma mark_all_marks now r c s d :
  d ∈ DATA_DOMAINS -> is_stale (staleness (mark_all_stale now r c s) d) = true.
Proof.
  unfold mark_all_stale. revert s. induction DATA_DOMAINS as [|d' ds IH]; cbn [fold_left]; intros s.
  { by intros ?%elem_of_nil. }
  intros [->|Hd]%elem_of_cons; [|by apply IH]. apply fold_mark_keeps. rewrite staleness_markStale.
  unfold upd. by rewrite decide_True.
Qed.

Lemma enqueue_staleness s : staleness (enqueueDrain s) = staleness s.
Proof. by destruct (enqueueDrain_fields s) as (_ & _ & _ & _ & _ & _ & _ & _ & ? & _). Qed.

Lemma failed_keeps now e s d :
  is_stale (staleness s d) = true -> is_stale (staleness (handler_failed now e s) d) = true.
Proof.
  unfold handler_failed, requestReconcile. intros Hs. destruct e; cbv zeta.
  - apply mark_keeps. by rewrite staleness_notify.
  - by rewrite !staleness_notify, staleness_close, staleness_notify.
Qed.

Lemma after_ok_staleness now e s : staleness (after_handler now true e s) = staleness s.
Proof.
  destruct (updateCursor_fields e s) as (_ & _ & _ & _ & _ & _ & _ & Hst & _).
  unfold after_handler. cbv zeta. destruct e; exact Hst.
Qed.

Lemma after_keeps now ok e s d :
  is_stale (staleness s d) = true -> is_stale (staleness (after_handler now ok e s) d) = true.
Proof.
  intros Hs. destruct ok; [by rewrite after_ok_staleness|]. unfold after_handler. cbv zeta. by apply (failed_keeps now e).
Qed.

Lemma take_staleness s : staleness (take_next s) = staleness s.
Proof. unfold take_next. case_decide; [done|]. destruct (controlQueue s); [destruct (dataQueue s)|]; done. Qed.

Lemma task_keeps now ok s d :
  is_stale (staleness s d) = true -> is_stale (staleness (drain_task now ok s) d) = true.
Proof.
  intros Hs. unfold drain_task. destruct (processing s).
  - done.
  - by rewrite take_staleness.
  - rewrite take_staleness. by apply after_keeps.
  - unfold finish_drain. case_decide; [by rewrite enqueue_staleness | done].
Qed.

(** Only a repair of its own cursor makes a projection fresh. *)
Lemma step_keeps_stale s op d :
  (forall now c, op <> op_repair now d c) ->
  is_stale (staleness s d) = true -> is_stale (staleness (ingress_step s op) d) = true.
Proof.
  intros Hop Hs. destruct op; cbn [ingress_step].
  - unfold ingestDataEvent. case_decide; [done|]. destruct (known_key _ s); [done|].
    destruct (_ <=? _); cbn [snd]; [by apply mark_keeps | by rewrite enqueue_staleness].
  - unfold ingestControlEvent. case_decide; [done|]. destruct (known_key _ s); [done|].
    destruct (_ <=? _); cbn [snd].
    + unfold control_event_lost, requestReconcile. cbv zeta. by rewrite !staleness_notify, staleness_close.
    + rewrite enqueue_staleness. change (is_stale (staleness (resync_signal now e s) d) = true).
      unfold resync_signal, requestReconcile. case_decide; [|done]. cbv zeta.
      rewrite staleness_notify, staleness_close. by apply mark_all_keeps.
  - by apply task_keeps.
  - unfold repairCursor. case_decide; [done|]. unfold clearStaleness. cbn.
    assert (domain <> d) by (intros ->; by eapply Hop).
    destruct (is_stale (staleness s domain)); cbn; [|done]. unfold upd. by rewrite decide_False.
  - by apply mark_keeps.
  - unfold reopenAdmission. case_decide; [done|]. by destruct (any_data_stale s).
  - unfold suspend. case_decide; [done|]. cbv zeta. apply mark_all_keeps. by rewrite staleness_close.
  - unfold resume. by case_decide.
  - done.
Qed.

Lemma enqueue_admission s : writeAdmission (enqueueDrain s) = writeAdmission s.
Proof. by destruct (enqueueDrain_fields s) as (_ & _ & _ & _ & _ & _ & _ & ? & _). Qed.

Lemma take_admission s : writeAdmission (take_next s) = writeAdmission s.
Proof. unfold take_next. case_decide; [done|]. destruct (controlQueue s); [destruct (dataQueue s)|]; done. Qed.

(** Write admission opens only by [reopenAdmission], on an active ingress whose data
    projections are all fresh. *)
Lemma step_opens s op :
  is_open (writeAdmission s) = false -> is_open (writeAdmission (ingress_step s op)) = true ->
  op = op_reopen /\ lifecycle s = active /\ any_data_stale s = false.
Proof.
  intros Hc Ho. enough (op = op_reopen).
  { subst. cbn in Ho. unfold reopenAdmission in Ho. case_decide as Hl; [congruence|].
    destruct (any_data_stale s); [congruence|]. done. }
  destruct op; cbn [ingress_step] in Ho; try done; exfalso; revert Ho.
  - unfold ingestDataEvent. case_decide; [cbn; congruence|]. destruct (known_key _ s); [cbn; congruence|].
    destruct (_ <=? _); cbn [snd]; rewrite ?admission_markStale, ?enqueue_admission; cbn; congruence.
  - unfold ingestControlEvent. case_decide; [cbn; congruence|]. destruct (known_key _ s); [cbn; congruence|].
    destruct (_ <=? _); cbn [snd].
    + by rewrite (proj2 (lost_queues now e s)).
    + rewrite enqueue_admission. change (is_open (writeAdmission (resync_signal now e s)) = true -> False).
      by rewrite (proj2 (resync_queues now e s) Hc).
  - unfold drain_task. destruct (processing s) as [| |e|]; rewrite ?take_admission; [congruence..| |].
    + destruct (after_handler_fields now ok e s) as (_ & _ & _ & _ & _ & _ & Ha & _). by rewrite (Ha Hc).
    + unfold finish_drain. case_decide; rewrite ?enqueue_admission; cbn; congruence.
  - unfold repairCursor. case_decide; [congruence|]. rewrite admission_clear. cbn. congruence.
  - rewrite admission_markStale. congruence.
  - unfold suspend. case_decide; [congruence|]. cbv zeta. by rewrite admission_all, close_closed.
  - unfold resume. case_decide; [congruence|]. cbn. congruence.
  - cbn. congruence.
Qed.

Lemma stale_data_blocks d s :
  d ∈ DATA_DOMAINS -> is_stale (staleness s d) = true -> reopenAdmission s = s.
Proof.
  intros Hd Hs. unfold reopenAdmission. case_decide; [done|].
  assert (Ha : any_data_stale s = true) by (apply existsb_exists; exists d; split; [by apply list_elem_of_In | done]).
  by rewrite Ha.
Qed.

Lemma data_domain_data e : data_domain e ∈ DATA_DOMAINS.
Proof. unfold data_domain. destruct (de_body e); by_computation. Qed.

Lemma run_keeps_stale ops s d :
  (forall now c, op_repair now d c ∉ ops) -> is_stale (staleness s d) = true ->
  is_stale (staleness (ingress_run ops s) d) = true.
Proof.
  unfold ingress_run. revert s. induction ops as [|op ops IH]; cbn [fold_left]; intros s Hops Hs; [done|].
  apply IH.
  - intros now c Hin. apply (Hops now c). by right.
  - apply step_keeps_stale; [|done]. intros now c ->. apply (Hops now c). left.
Qed.

(** Admission that was closed stays closed while a data projection is stale. *)
Lemma run_stays_closed ops s d :
  d ∈ DATA_DOMAINS -> (forall now c, op_repair now d c ∉ ops) -> is_stale (staleness s d) = true ->
  is_open (writeAdmission s) = false -> is_open (writeAdmission (ingress_run ops s)) = false.
Proof.
  unfold ingress_run. intros Hd. revert s. induction ops as [|op ops IH]; cbn [fold_left]; intros s Hops Hs Hc; [done|].
  apply IH.
  - intros now c Hin. apply (Hops now c). by right.
  - apply step_keeps_stale; [|done]. intros now c ->. apply (Hops now c). left.
  - destruct (is_open (writeAdmission (ingress_step s op))) eqn:Ho; [|done].
    destruct (step_opens s op Hc Ho) as (-> & _ & _). cbn [ingress_step] in Ho.
    rewrite (stale_data_blocks d s Hd Hs) in Ho. congruence.
Qed.

(** A rejected event leaves its domain stale. *)
Lemma rejected_stale now e s s' :
  lifecycle s = active -> ingestDataEvent now e s = (false, s') -> is_stale (staleness s' (data_domain e)) = true.
Proof.
  intros Hl Hi. unfold ingestDataEvent in Hi. rewrite decide_False in Hi by auto.
  destruct (known_key _ s); [done|]. destruct (_ <=? _); [|done]. apply (f_equal snd) in Hi. cbn [snd] in Hi. rewrite <- Hi.
  rewrite staleness_markStale. unfold upd. by rewrite decide_True.
Qed.

(** An accepted resynchronisation signal makes every data domain stale and closes admission. *)
Lemma resync_closes now e s s' d :
  lifecycle s <> torn -> known_key (eventKey (control_event e)) s = false ->
  ce_kind e = resync_required \/ ce_kind e = cursor_repair -> ingestControlEvent now e s = (true, s') ->
  d ∈ DATA_DOMAINS -> is_stale (staleness s' d) = true /\ is_open (writeAdmission s') = false.
Proof.
  intros Hl Hk Hkind Hi Hd. revert Hi. unfold ingestControlEvent. rewrite decide_False, Hk by done.
  destruct (_ <=? _); intros [= <-].
  assert (Hres : is_stale (staleness (resync_signal now e s) d) = true
                 /\ is_open (writeAdmission (resync_signal now e s)) = false).
  { unfold resync_signal, requestReconcile. rewrite decide_True by done. cbv zeta.
    rewrite staleness_notify, staleness_close, admission_notify. split; [by apply mark_all_marks | apply close_closed]. }
  by rewrite enqueue_staleness, enqueue_admission.
Qed.

(** ** At most one delivery *)

(** The event that an operation offers. *)
Definition offer (op : ingress_op) : option SocialIngressEvent :=
  match op with op_data _ e => Some (data_event e) | op_control _ e => Some (control_event e) | _ => None end.

(** No handler fails and the ingress is not torn down. *)
Definition smooth (op : ingress_op) : bool :=
  match op with op_task _ false | op_teardown => false | _ => true end.

(** The window still holds every key delivered so far; the keys offered are among [ks]. *)
Record delivery_inv (ks : list string) (s : ingress) : Prop := {
  dv_inv : ingress_inv s;
  dv_live : lifecycle s <> torn;
  dv_keys : keys_of (delivered s) = seenEventKeyOrder s ++ keys_of (in_flight s);
  dv_known : forall k, k ∈ seenEventKeyOrder s ++ outstanding s -> k ∈ ks
}.

(** What is seen or outstanding is no more than the distinct keys offered. *)
Lemma delivery_count ks s :
  delivery_inv ks s -> (length (seenEventKeyOrder s) + length (outstanding s) <= length (remove_dups ks))%nat.
Proof.
  intros [Hi Hl _ Hk]. rewrite <- length_app. apply submseteq_length, NoDup_submseteq.
  - apply NoDup_app. split; [apply (iv_order _ Hi)|]. split; [|apply (iv_distinct _ Hi)].
    intros k Hs Ho. by apply (iv_unseen _ Hi Hl k Ho).
  - intros k Hin. apply elem_of_remove_dups. by apply Hk.
Qed.

Lemma evict_nothing cap keys keyOrder :
  Z.of_nat (length keyOrder) <= cap -> evict_oldest cap keys keyOrder = (keys, keyOrder).
Proof. intros Hle. destruct keyOrder as [|k l]; cbn [evict_oldest]; [done|]. by rewrite (proj2 (Z.ltb_ge _ _) Hle). Qed.

Lemma delivery_same ks s s' :
  ingress_inv s' -> lifecycle s' <> torn -> seenEventKeyOrder s' = seenEventKeyOrder s ->
  in_flight s' = in_flight s -> queued s' = queued s -> delivered s' = delivered s ->
  delivery_inv ks s -> delivery_inv ks s'.
Proof.
  intros Hi Hl Ho Hf Hq Hdel []. constructor; [done | done | by rewrite Hdel, Ho, Hf |].
  unfold outstanding in *. by rewrite Ho, Hf, Hq.
Qed.

Lemma delivery_sq ks s s' :
  same_queues s s' -> ingress_inv s' -> delivered s' = delivered s -> delivery_inv ks s -> delivery_inv ks s'.
Proof.
  intros [Hc Hd Hq Hs Ho Hp Hpr Hl] Hi Hdel Hdv. eapply delivery_same; try done.
  - rewrite Hl. apply (dv_live _ _ Hdv).
  - unfold in_flight. by rewrite Hpr.
  - unfold queued. by rewrite Hq, Hd.
Qed.

(** An offered event leaves the window and adds at most its own key. *)
Lemma enqueue_offer ks s s1 e :
  delivery_inv ks s -> (forall k, k ∈ keys_of [e] -> k ∈ ks) -> ingress_inv (enqueueDrain s1) ->
  lifecycle s1 = lifecycle s -> seenEventKeyOrder s1 = seenEventKeyOrder s -> processing s1 = processing s ->
  delivered s1 = delivered s -> queued s1 ≡ₚ queued s ++ [e] -> delivery_inv ks (enqueueDrain s1).
Proof.
  intros [_ Hlive Hkeys Hknown] Hke Hi Hl Ho Hp Hd Hq.
  destruct (enqueueDrain_fields s1) as (_ & Hdq & Hcq & _ & Hord & _ & Hlc & _ & _ & Hno & Hfl & _).
  assert (Hf : in_flight s1 = in_flight s) by (unfold in_flight; by rewrite Hp).
  assert (Hq' : queued (enqueueDrain s1) ≡ₚ queued s ++ [e]) by (unfold queued in *; by rewrite Hdq, Hcq).
  constructor; [done | congruence | by rewrite delivered_enqueue, Hd, Hord, Ho, Hfl, Hf |].
  intros k. rewrite Hord, Ho. unfold outstanding in *. rewrite Hfl, Hf.
  assert (Hk : keys_of (in_flight s ++ queued (enqueueDrain s1)) ≡ₚ keys_of (in_flight s ++ queued s) ++ keys_of [e]).
  { rewrite <- keys_of_app. unfold keys_of. by rewrite Hq', (assoc_L (++)). }
  rewrite Hk, (assoc_L (++)), elem_of_app. intros [Hin|Hin]; [by apply Hknown | by apply Hke].
Qed.

Lemma delivery_data ks now e s :
  (forall k, k ∈ keys_of [data_event e] -> k ∈ ks) -> delivery_inv ks s -> delivery_inv ks (ingestDataEvent now e s).2.
Proof.
  intros Hke Hdv. pose proof (ingestData_inv now e s (dv_inv _ _ Hdv)) as Hinv. revert Hinv.
  unfold ingestDataEvent. case_decide; [done|].
  destruct (known_key _ s); [done|]. destruct (_ <=? _); cbn [snd]; intros Hinv.
  - eapply delivery_sq; [apply sq_markStale | done | apply delivered_markStale | done].
  - apply (enqueue_offer ks s _ (data_event e)); try done. unfold queued. cbn. by rewrite fmap_app, (assoc_L (++)).
Qed.

Lemma delivered_resync now e s : delivered (resync_signal now e s) = delivered s.
Proof.
  unfold resync_signal, requestReconcile. case_decide; [|done]. cbv zeta.
  by rewrite delivered_notify, delivered_close, delivered_all.
Qed.

Lemma delivered_lost now e s : delivered (control_event_lost now e s) = delivered s.
Proof.
  unfold control_event_lost, requestReconcile. cbv zeta. by rewrite !delivered_notify, delivered_close.
Qed.

Lemma delivery_control ks now e s :
  (forall k, k ∈ keys_of [control_event e] -> k ∈ ks) -> delivery_inv ks s -> delivery_inv ks (ingestControlEvent now e s).2.
Proof.
  intros Hke Hdv. pose proof (ingestControl_inv now e s (dv_inv _ _ Hdv)) as Hinv. revert Hinv.
  unfold ingestControlEvent. case_decide; [done|].
  destruct (known_key _ s); [done|]. destruct (_ <=? _); cbn [snd]; intros Hinv.
  - eapply delivery_sq; [apply lost_queues | done | apply delivered_lost | done].
  - pose proof (delivered_resync now e s) as Hd. destruct (resync_queues now e s) as [[_ Hdq Hcq _ Ho _ Hp Hl] _].
    generalize dependent (resync_signal now e s). intros s1 Hinv Hd Hdq Hcq Ho Hp Hl.
    apply (enqueue_offer ks s _ (control_event e)); try done. unfold queued. cbn. rewrite Hdq, Hcq, fmap_app.
    rewrite <- !(assoc_L (++)). f_equiv. apply Permutation_cons_append.
Qed.

(** Taking the next event between two iterations. *)
Lemma delivery_take ks s :
  delivery_inv ks (with_processing finishing s) -> delivery_inv ks (take_next s).
Proof.
  intros [Hi Hl Hk Hn]. pose proof (take_next_inv s Hi) as Hinv. change (lifecycle s <> torn) in Hl.
  change (keys_of (delivered s) = seenEventKeyOrder s ++ []) in Hk. rewrite app_nil_r in Hk.
  change (forall k, k ∈ seenEventKeyOrder s ++ keys_of (queued s) -> k ∈ ks) in Hn.
  destruct (take_next_progress s Hl) as (Hlc & Hdq & Hcase).
  assert (Ho : seenEventKeyOrder (take_next s) = seenEventKeyOrder s).
  { unfold take_next. case_decide; [done|]. destruct (controlQueue s); [destruct (dataQueue s)|]; done. }
  assert (Hall : in_flight (take_next s) ++ queued (take_next s) = queued s
                 /\ delivered (take_next s) = delivered s ++ in_flight (take_next s)).
  { unfold take_next, in_flight, queued, delivered. rewrite decide_False by done.
    destruct (controlQueue s) as [|c cq] eqn:Hc; [destruct (dataQueue s) as [|d dq] eqn:Hd|]; cbn;
      rewrite ?Hc, ?Hd, ?omap_app, ?app_nil_r; done. }
  destruct Hall as [Hq Hd]. constructor; [done | congruence | |].
  - by rewrite Hd, keys_of_app, Hk, Ho.
  - unfold outstanding. by rewrite Hq, Ho.
Qed.

Lemma delivery_task ks now s :
  Z.of_nat (length (remove_dups ks)) <= seenCursorCapacity s -> delivery_inv ks s -> delivery_inv ks (drain_task now true s).
Proof.
  intros Hcap Hdv. pose proof (delivery_count _ _ Hdv) as Hlen. pose proof Hdv as [Hi Hl Hk Hn]. pose proof (drain_task_inv now true s Hi) as Hinv. revert Hinv.
  unfold drain_task. destruct (processing s) as [| |e|] eqn:Hp; intros Hinv; [done|..].
  - apply delivery_take. apply (delivery_same ks s); try done.
    + destruct Hi. constructor; unfold outstanding, in_flight, seenCursorCapacity in *; cbn in *; rewrite ?Hp in *; done.
    + unfold in_flight. by rewrite Hp.
  - apply delivery_take. pose proof (after_handler_inv now true e s Hi Hp) as Hi'.
    destruct (after_handler_fields now true e s) as (_ & Hdq & Hcq & _ & Hlc & _ & _ & Hseen).
    pose proof (delivered_after now true e s) as Hd.
    set (s1 := after_handler now true e s) in *. clearbody s1.
    unfold in_flight in Hk. rewrite Hp in Hk.
    assert (Hout : outstanding s = keys_of [e] ++ keys_of (queued s)).
    { unfold outstanding, in_flight. by rewrite Hp, keys_of_app. }
    rewrite Hout in Hn, Hlen. rewrite length_app in Hlen.
    assert (Ho : seenEventKeyOrder s1 = seenEventKeyOrder s ++ keys_of [e]).
    { rewrite keys_of_cons in Hlen |- *. change (keys_of []) with (@nil string) in *. rewrite app_nil_r in *. cbn [andb] in Hseen.
      destruct (truthy (event_cursor e)) eqn:Ht.
      - assert (eventKey e <> ""%string) by (rewrite eventKey_empty; by apply truthy_spec).
        rewrite decide_False in * by done. rewrite evict_nothing in Hseen; [by injection Hseen|].
        rewrite length_app. cbn [length] in *. lia.
      - assert (eventKey e = ""%string).
        { apply eventKey_empty, dec_stable. intros Hx. apply truthy_spec in Hx. congruence. }
        rewrite decide_True by done. rewrite app_nil_r. by injection Hseen. }
    constructor; [done | cbn; congruence | |].
    + change (keys_of (delivered s1) = seenEventKeyOrder s1 ++ []). by rewrite Hd, Hk, Ho, app_nil_r.
    + change (outstanding (with_processing finishing s1)) with (keys_of (queued s1)).
      unfold queued in *. rewrite Hdq, Hcq. cbn [seenEventKeyOrder with_processing]. rewrite Ho, <- (assoc_L (++)). exact Hn.
  - apply (delivery_same ks s); try done; unfold finish_drain; case_decide;
      try (rewrite ?delivered_enqueue; done); unfold enqueueDrain; cbn; try case_decide; try done;
      unfold in_flight; by rewrite Hp.
Qed.
