(* ===== verification/EventIngressSafety.v ===== *)
(** * What the event ingress promises

    The properties of [EventIngress] over whole histories of calls: the invariant of
    its queues and windows, the completion of the drain, single delivery, and the
    handling of lost events by staleness and write admission. *)
From stdpp Require Import base strings list sets.
From S2P Require Import Prelude EventIngress EventIngressFacts.

(** ** The configuration never changes *)
Lemma config_take s : config (take_next s) = config s.
Proof. unfold take_next. case_decide; [done|]. destruct (controlQueue s); [destruct (dataQueue s)|]; done. Qed.

Lemma config_enqueue s : config (enqueueDrain s) = config s.
Proof. by destruct (enqueueDrain_fields s). Qed.

Lemma config_step s op : config (ingress_step s op) = config s.
Proof.
  destruct op; cbn [ingress_step].
  - unfold ingestDataEvent. case_decide; [done|]. destruct (known_key _ s); [done|].
    destruct (_ <=? _); cbn [snd]; [apply sq_markStale | by rewrite config_enqueue].
  - unfold ingestControlEvent. case_decide; [done|]. destruct (known_key _ s); [done|].
    destruct (_ <=? _); cbn [snd]; [apply lost_queues|]. rewrite config_enqueue.
    change (config (resync_signal now e s) = config s). apply resync_queues.
  - unfold drain_task. destruct (processing s) as [| |e|]; [done | apply config_take | |].
    + rewrite config_take. by destruct (after_handler_fields now ok e s).
    + unfold finish_drain. case_decide; [by rewrite config_enqueue | done].
  - unfold repairCursor. case_decide; [done|]. cbv zeta. by rewrite (sq_config _ _ (sq_clear domain _)).
  - apply sq_markStale.
  - unfold reopenAdmission. case_decide; [done|]. by destruct (any_data_stale s).
  - unfold suspend. case_decide; [done|]. cbv zeta. rewrite (sq_config _ _ (sq_all _ _ _ _)).
    by rewrite (sq_config _ _ (sq_close _ _ _)).
  - unfold resume. by case_decide.
  - done.
Qed.

Lemma capacity_step s op : seenCursorCapacity (ingress_step s op) = seenCursorCapacity s.
Proof. unfold seenCursorCapacity. by rewrite config_step. Qed.

(** ** Single delivery over a history *)

(** The keys of the events that a history offers. *)
Definition offered (ops : list ingress_op) : list string := keys_of (omap offer ops).

Lemma delivery_suspend ks now s : delivery_inv ks s -> delivery_inv ks (suspend now s).
Proof.
  intros Hdv. pose proof (ingress_step_inv s (op_suspend now) (dv_inv _ _ Hdv)) as Hinv. revert Hinv.
  cbn [ingress_step]. unfold suspend. case_decide; [done|]. cbv zeta. intros Hinv.
  pose proof (sq_all now "runtime_suspended" None (closeWriteAdmission now "runtime_suspended" (with_lifecycle suspended s))) as Ha.
  pose proof (sq_close now "runtime_suspended" (with_lifecycle suspended s)) as Hb.
  pose proof (transitivity Hb Ha) as [_ Hd Hc _ Ho _ Hp Hl].
  apply (delivery_same ks s); try done.
  - by rewrite Hl.
  - unfold in_flight. by rewrite Hp.
  - unfold queued. by rewrite Hd, Hc.
  - by rewrite delivered_all, delivered_close.
Qed.

Lemma delivery_step ks s op :
  smooth op = true -> (forall k, k ∈ offered [op] -> k ∈ ks) -> Z.of_nat (length (remove_dups ks)) <= seenCursorCapacity s ->
  delivery_inv ks s -> delivery_inv ks (ingress_step s op).
Proof.
  intros Hs Hoff Hcap Hdv. pose proof (ingress_step_inv s op (dv_inv _ _ Hdv)) as Hinv. revert Hinv.
  destruct op as [| |now []| | | | | |]; try done; cbn [ingress_step]; intros Hinv.
  - by apply delivery_data.
  - by apply delivery_control.
  - by apply delivery_task.
  - revert Hinv. unfold repairCursor. case_decide; [done|]. intros Hinv.
    apply (delivery_sq ks s); [| exact Hinv | by rewrite delivered_clear | exact Hdv].
    etrans; [|apply sq_clear]. by constructor.
  - eapply delivery_sq; [apply sq_markStale | exact Hinv | apply delivered_markStale | exact Hdv].
  - revert Hinv. unfold reopenAdmission. case_decide; [done|]. destruct (any_data_stale s); [done|]. intros Hinv.
    apply (delivery_sq ks s); [| exact Hinv | by rewrite delivered_notify | exact Hdv]. by constructor.
  - by apply delivery_suspend.
  - revert Hinv. unfold resume, requestReconcile. case_decide; [done|]. intros Hinv.
    apply (delivery_same ks s); try done. by rewrite delivered_notify.
Qed.

Lemma delivery_run ops ks s :
  forallb smooth ops = true -> (forall k, k ∈ offered ops -> k ∈ ks) -> Z.of_nat (length (remove_dups ks)) <= seenCursorCapacity s ->
  delivery_inv ks s -> delivery_inv ks (ingress_run ops s).
Proof.
  unfold ingress_run. revert s. induction ops as [|op ops IH]; cbn [fold_left forallb]; intros s Hs Hoff Hcap Hdv; [done|]. reflect_bool.
  assert (Hsplit : offered (op :: ops) = offered [op] ++ offered ops).
  { unfold offered. rewrite <- keys_of_app. cbn. by destruct (offer op). }
  rewrite Hsplit in Hoff. apply IH; [done | intros k Hk; apply Hoff; rewrite elem_of_app; by right | by rewrite capacity_step |].
  apply delivery_step; [done | intros k Hk; apply Hoff; rewrite elem_of_app; by left | done | done].
Qed.

Lemma delivery_nodup ks s : delivery_inv ks s -> NoDup (keys_of (delivered s)).
Proof.
  intros [Hi Hl Hk _]. rewrite Hk. apply NoDup_app. destruct Hi. unfold outstanding in *. rewrite keys_of_app in *.
  apply NoDup_app in iv_distinct as (? & _ & _). split; [done|]. split; [|done].
  intros k Hk1 Hk2. eapply iv_unseen; [done| |exact Hk1]. set_solver.
Qed.

Lemma create_delivery ks dc cc s : createSocialEventIngress dc cc = Ok s -> delivery_inv ks s.
Proof.
  intros Hc. pose proof (create_inv _ _ _ Hc) as Hi. revert Hc. unfold createSocialEventIngress.
  destruct (_ || _); [done|]. intros [= <-]. constructor; try done. by intros k ?%elem_of_nil.
Qed.

(** ** The properties *)

(** Whatever is called on an ingress after its creation, its queues stay
    within their capacities, the window of seen keys within the sum of both, the events
    accepted and not yet handled have distinct keys that were never handled within the
    window, the pending set is exactly the set of those keys, an ingress with queued
    events has a drain under way, and a suspended ingress admits no write. *)
Theorem ingress_invariant dc cc s ops :
  createSocialEventIngress dc cc = Ok s ->
  let s' := ingress_run ops s in
  Z.of_nat (length (dataQueue s')) <= default DEFAULT_DATA_CAPACITY dc
  /\ Z.of_nat (length (controlQueue s')) <= default DEFAULT_CONTROL_CAPACITY cc
  /\ Z.of_nat (length (seenEventKeyOrder s')) <= default DEFAULT_DATA_CAPACITY dc + default DEFAULT_CONTROL_CAPACITY cc
  /\ (forall k, k ∈ seenEventKeys s' <-> k ∈ seenEventKeyOrder s') /\ NoDup (seenEventKeyOrder s')
  /\ NoDup (outstanding s')
  /\ (lifecycle s' <> torn ->
        (forall k, k ∈ pendingEventKeys s' <-> k ∈ outstanding s')
        /\ (forall k, k ∈ outstanding s' -> k ∉ seenEventKeys s')
        /\ (queued s' <> [] -> processing s' <> idle))
  /\ (lifecycle s' = suspended -> is_open (writeAdmission s') = false).
Proof.
  intros Hc s'. assert (Hcfg : config s' = config s).
  { subst s'. clear Hc. unfold ingress_run. revert s. induction ops as [|op ops IH]; intros s; [done|].
    cbn [fold_left]. by rewrite IH, config_step. }
  assert (Hd : dataCapacity (config s) = default DEFAULT_DATA_CAPACITY dc
               /\ controlCapacity (config s) = default DEFAULT_CONTROL_CAPACITY cc).
  { revert Hc. unfold createSocialEventIngress. destruct (_ || _); [done|]. by intros [= <-]. }
  destruct Hd as [<- <-]. rewrite <- Hcfg.
  pose proof (ingress_run_inv ops s (create_inv _ _ _ Hc)) as Hi. change (ingress_inv s') in Hi.
  clearbody s'. destruct Hi. split_and!; try done. intros Hl. split; [by apply iv_pending|]. split; [|by apply iv_running].
  intros k Hk. rewrite iv_keys. by apply iv_unseen.
Qed.

(** C38: from any state an ingress can reach before its teardown, running the
    drain alone empties both queues in at most three tasks more than there are queued
    events, whether the handlers succeed or fail; every queued event is delivered exactly
    in queue order, control events before data events, and the drain is idle at the end. *)
Theorem drain_completes dc cc s ops answers :
  createSocialEventIngress dc cc = Ok s ->
  let s1 := ingress_run ops s in
  lifecycle s1 <> torn -> (length (queued s1) + 3 <= length answers)%nat ->
  let s2 := drain_run answers s1 in
  processing s2 = idle /\ controlQueue s2 = [] /\ dataQueue s2 = []
  /\ delivered s2 = delivered s1 ++ (control_event <$> controlQueue s1) ++ (data_event <$> dataQueue s1).
Proof.
  intros Hc s1 Hl Hn s2. pose proof (ingress_run_inv ops s (create_inv _ _ _ Hc)) as Hi. fold s1 in Hi.
  destruct (drain_run_spec answers s1) as (Hp & Hq & Hd); [done| | |].
  - intros Hidle. destruct (queued s1) eqn:Hq; [done|]. exfalso. apply (iv_running _ Hi); [done | by rewrite Hq | done].
  - unfold tasks_left. destruct (processing s1); [lia..|]. case_decide; lia.
  - fold s2 in Hp, Hq, Hd. unfold queued in Hq. apply app_nil in Hq as [Hq1%fmap_nil_inv Hq2%fmap_nil_inv]. done.
Qed.

(** C39: as long as no handler fails, the ingress is not torn down and the distinct
    keys of the events offered are no more than the window of seen keys holds, no two events
    with the same domain and cursor reach the handler, however often each is offered. Events
    without a cursor have no key: they are delivered each time they are offered. *)
Theorem delivered_once dc cc s ops :
  createSocialEventIngress dc cc = Ok s ->
  forallb smooth ops = true -> Z.of_nat (length (remove_dups (offered ops))) <= seenCursorCapacity s ->
  NoDup (keys_of (delivered (ingress_run ops s))).
Proof.
  intros Hc Hs Hcap. eapply delivery_nodup. apply (delivery_run ops (offered ops)); [done | done | done |].
  by eapply create_delivery.
Qed.

(** A data event that an active ingress rejects leaves a trace: its domain
    is stale and has a gap, a reconciliation of that domain from the event's cursor was
    requested, and until the domain's cursor is repaired, whatever else is called, the
    domain stays stale and a closed write admission cannot be opened. *)
Theorem lost_data_event now e s s' ops :
  lifecycle s = active -> ingestDataEvent now e s = (false, s') ->
  (forall t c, op_repair t (data_domain e) c ∉ ops) ->
  gapDetected (cursors s' (data_domain e)) = true
  /\ notices s' = notices s ++ [note_staleness (data_domain e) (stale "data_capacity_overflow" now);
                                note_reconcile [data_domain e] "data_capacity_overflow" (de_cursor e)]
  /\ is_stale (staleness (ingress_run ops s') (data_domain e)) = true
  /\ (is_open (writeAdmission s') = false -> is_open (writeAdmission (ingress_run ops s')) = false).
Proof.
  intros Hl Hi Hops. pose proof (rejected_stale now e s s' Hl Hi) as Hst.
  unfold ingestDataEvent in Hi. rewrite decide_False in Hi by auto.
  destruct (known_key _ s); [done|]. destruct (_ <=? _); [|done]. injection Hi as <-.
  split; [|split; [|split]].
  - unfold markStale, requestReconcile. cbn [notify with_staleness with_cursor cursors]. unfold upd. by rewrite decide_True.
  - unfold markStale, requestReconcile. cbn [notify notices with_staleness with_cursor]. by rewrite <- (assoc_L (++)).
  - by apply run_keeps_stale.
  - intros Hc. apply (run_stays_closed ops _ (data_domain e)); [apply data_domain_data | done..].
Qed.

(** A control event an ingress has no room for closes write admission
    and asks the owner to revalidate the session and reconcile every data domain; a
    resynchronisation signal it accepts makes every data domain stale and closes write
    admission, and then no history without a repair of each data domain opens it again. *)
Theorem control_event_fences now e s ops d :
  lifecycle s <> torn -> known_key (eventKey (control_event e)) s = false -> d ∈ DATA_DOMAINS ->
  (forall t c, op_repair t d c ∉ ops) ->
  let (accepted, s') := ingestControlEvent now e s in
  (accepted = false ->
     is_open (writeAdmission s') = false /\ note_revalidate "control_event_lost" ∈ notices s'
     /\ note_reconcile DATA_DOMAINS "control_event_lost" (ce_cursor e) ∈ notices s'
     /\ controlQueue s' = controlQueue s)
  /\ (accepted = true -> ce_kind e = resync_required \/ ce_kind e = cursor_repair ->
     is_open (writeAdmission (ingress_run ops s')) = false
     /\ is_stale (staleness (ingress_run ops s') d) = true).
Proof.
  intros Hl Hk Hd Hops. destruct (ingestControlEvent now e s) as [accepted s'] eqn:Hi. split.
  - intros ->. revert Hi. unfold ingestControlEvent. rewrite decide_False, Hk by done. destruct (_ <=? _); intros [= <-].
    destruct (lost_queues now e s) as [[_ _ Hcq _ _ _ _ _] Ho]. split_and!; [done| | |done];
      unfold control_event_lost, requestReconcile; cbv zeta; cbn [notify notices]; set_solver.
  - intros -> Hkind. destruct (resync_closes now e s s' d Hl Hk Hkind Hi Hd) as [Hst Ho].
    split; [by apply (run_stays_closed ops s' d) | by apply run_keeps_stale].
Qed.

(** A step that opens write admission is a call of [reopenAdmission] on an
    active ingress with every data projection fresh; no event, handler outcome, suspension
    or resumption opens it. *)
Theorem admission_opens_only_fresh s op :
  is_open (writeAdmission s) = false -> is_open (writeAdmission (ingress_step s op)) = true ->
  op = op_reopen /\ lifecycle s = active /\ forall d, d ∈ DATA_DOMAINS -> is_stale (staleness s d) = false.
Proof.
  intros Hc Ho. destruct (step_opens s op Hc Ho) as (-> & Hl & Hs). split; [done|]. split; [done|].
  intros d Hd. destruct (is_stale (staleness s d)) eqn:Hst; [|done].
  assert (any_data_stale s = true) by (apply existsb_exists; exists d; split; [by apply list_elem_of_In | done]).
  congruence.
Qed.

(** ** Witnesses *)
Definition sample_data (c : string) : DataEvent :=
  {| de_body := MomentsDataEvent post_created (Some "p1"); de_payload := []; de_cursor := c; de_timestampMs := 7 |}.

Definition sample_control (k : ControlKind) (c : string) : ControlEvent :=
  {| ce_kind := k; ce_payload := []; ce_cursor := c; ce_timestampMs := 9 |}.

(** An ingress with room for one data event and one control event. *)
Definition small_ingress : ingress :=
  {| config := {| dataCapacity := 1; controlCapacity := 1 |}; dataQueue := []; controlQueue := []; seenEventKeys := [];
     seenEventKeyOrder := []; pendingEventKeys := []; consecutiveControlLosses := 0;
     writeAdmission := admission_open; streamCursor := ""; lifecycle := active;
     cursors := fun _ => emptyDomainCursor; staleness := fun _ => emptyDomainStaleness;
     processing := idle; notices := [] |}.

Definition sample_ops : list ingress_op :=
  [op_data 1 (sample_data "a"); op_data 2 (sample_data "b"); op_control 3 (sample_control heartbeat "c")].

Definition full_ingress : ingress := ingress_run [op_data 1 (sample_data "a")] small_ingress.

Lemma ingress_invariant_witness :
  createSocialEventIngress (Some 1) (Some 1) = Ok small_ingress
  /\ Z.of_nat (length (dataQueue (ingress_run sample_ops small_ingress))) <= 1.
Proof. split; [reflexivity|]. exact (proj1 (ingress_invariant (Some 1) (Some 1) small_ingress sample_ops eq_refl)). Defined.

Lemma drain_completes_witness :
  let s1 := ingress_run sample_ops small_ingress in
  let s2 := drain_run (replicate 5 (4, true)) s1 in
  processing s2 = idle /\ controlQueue s2 = [] /\ dataQueue s2 = []
  /\ delivered s2 = [control_event (sample_control heartbeat "c"); data_event (sample_data "a")].
Proof.
  apply (drain_completes (Some 1) (Some 1) small_ingress sample_ops (replicate 5 (4, true)) eq_refl).
  - by_computation.
  - apply Nat.leb_le. vm_compute. reflexivity.
Defined.

(** One event, offered five times to a window of two keys. *)
Lemma delivered_once_witness :
  let s2 := ingress_run [op_data 1 (sample_data "a"); op_data 1 (sample_data "a"); op_task 2 true; op_task 3 true; op_task 3 true;
                         op_data 4 (sample_data "a"); op_data 4 (sample_data "a"); op_data 4 (sample_data "a"); op_task 5 true] small_ingress in
  NoDup (keys_of (delivered s2)) /\ delivered s2 = [data_event (sample_data "a")].
Proof.
  split; [|vm_compute; reflexivity].
  apply (delivered_once (Some 1) (Some 1) small_ingress); [reflexivity.. |].
  apply Z.leb_le. vm_compute. reflexivity.
Defined.

Lemma lost_data_event_witness :
  is_stale (staleness (ingress_run [op_reopen; op_task 5 true]
    (ingestDataEvent 2 (sample_data "b") full_ingress).2) dom_moments) = true.
Proof.
  refine (proj1 (proj2 (proj2 (lost_data_event 2 (sample_data "b") full_ingress _
    [op_reopen; op_task 5 true] eq_refl _ _)))).
  - apply injective_projections; [vm_compute; reflexivity | reflexivity].
  - intros t c Hin. apply list_elem_of_In in Hin. destruct Hin as [|[|[]]]; discriminate.
Defined.

Lemma control_event_fences_witness :
  is_open (writeAdmission (ingress_run [op_repair 6 dom_moments "z"; op_reopen]
    (ingestControlEvent 5 (sample_control resync_required "c") small_ingress).2)) = false.
Proof.
  refine (proj1 (proj2 (control_event_fences 5 (sample_control resync_required "c") small_ingress
    [op_repair 6 dom_moments "z"; op_reopen] dom_profile _ eq_refl _ _) eq_refl (or_introl eq_refl))).
  - discriminate.
  - by_computation.
  - intros t c Hin. apply list_elem_of_In in Hin. destruct Hin as [|[|[]]]; discriminate.
Defined.

Lemma admission_opens_only_fresh_witness :
  lifecycle (control_event_lost 5 (sample_control heartbeat "c") full_ingress) = active.
Proof.
  refine (proj1 (proj2 (admission_opens_only_fresh
    (control_event_lost 5 (sample_control heartbeat "c") full_ingress) op_reopen _ _))); vm_compute; reflexivity.
Defined.
