(* ===== verification/RecoveryProjection.v ===== *)
(** * The recovery projection of the mobile app

    Models [apps/mobile/src/runtimes/recoveryProjection.ts]: one slot per kind of
    failure, filled and emptied by the runtimes that own the failures, and the snapshot
    that [rebuild] derives from the slots and publishes to the listeners. The ingress
    ([EventIngress]) and the lifecycle kernel ([MobileReducer]) report their state here.
    A listener that calls back into the projection while it is being notified is not
    modelled. *)
From stdpp Require Import base strings list sorting sets.
From S2P Require Import Prelude MobileTypes TopoSort MobileReducer EventIngress.

(** ** Recovery states *)

(** The fields of a draft the projection reads; [dp_ref] stands for the others. *)
Record DraftProjection : Set := {
  dp_ref : nat;
  dp_stationPeerId : string;
  dp_actorPtid : string;
  dp_surfaceKind : Z;
  dp_targetId : string
}.

(** A command is carried along, never read. *)
Record CommandProjection : Set := { cp_ref : nat; cp_commandId : string }.

Inductive ReliabilityCapacityExhaustionCause : Set := record_count | byte_capacity.

Record ReliabilityCommandCapacityStatus : Set := {
  recordCount : Z;
  recordLimit : Z;
  byteUsage : Z;
  byteLimit : Z;
  exhaustionCauses : list ReliabilityCapacityExhaustionCause
}.

Record StaleDomainEntry : Set := {
  sde_domain : SocialIngressDomain;
  sde_staleness : ProjectionStaleness
}.

Record DeferredRuntimeEntry : Set := {
  dre_runtimeId : string;
  dre_title : string;
  dre_status : RuntimeBootstrapStatus;
  dre_errorMessage : option string
}.

Inductive DeviceLocalReason : Set := no_network | station_unreachable | session_expired.

#[export] Instance DeviceLocalReason_eq_dec : EqDecision DeviceLocalReason.
Proof. solve_decision. Defined.

Inductive RecoveryState : Set :=
| LegacyReliabilityRecoveryState (archivedLegacyFiles : Z) (retainedReadOnly : bool)
| ReliabilityResetRecoveryState
| DraftRestorePending (drafts : list DraftProjection) (discoveredAtMs : Z)
| CommandRecoveryState (commands : list CommandProjection)
| CapacityReadOnlyState (currentDepth maxCapacity currentBytes maxBytes : Z)
    (causes : list ReliabilityCapacityExhaustionCause)
| WriteRevocationState (admission : WriteAdmission)
| SessionMismatchState (expectedStationPeerId actualStationPeerId : string) (detectedAtMs : Z)
| ActorIdentityRecoveryState (detectedAtMs : Z)
| EventOverflowReconcileState (staleDomains : list StaleDomainEntry)
| DeferredCapabilityState (unavailableRuntimes : list DeferredRuntimeEntry)
| DeviceLocalFlagState (reason : DeviceLocalReason) (since : Z).

(** The [kind] tag of the union. *)
Inductive RecoveryKind : Set :=
| reliability_reset_recovery | legacy_reliability_recovery | session_mismatch | actor_identity_recovery
| write_revocation | capacity_read_only | device_local_flag | event_overflow_reconcile
| command_recovery | draft_restore_pending | deferred_capability.

#[export] Instance RecoveryKind_eq_dec : EqDecision RecoveryKind.
Proof. solve_decision. Defined.

Definition kind (s : RecoveryState) : RecoveryKind :=
  match s with
  | LegacyReliabilityRecoveryState _ _ => legacy_reliability_recovery
  | ReliabilityResetRecoveryState => reliability_reset_recovery
  | DraftRestorePending _ _ => draft_restore_pending
  | CommandRecoveryState _ => command_recovery
  | CapacityReadOnlyState _ _ _ _ _ => capacity_read_only
  | WriteRevocationState _ => write_revocation
  | SessionMismatchState _ _ _ => session_mismatch
  | ActorIdentityRecoveryState _ => actor_identity_recovery
  | EventOverflowReconcileState _ => event_overflow_reconcile
  | DeferredCapabilityState _ => deferred_capability
  | DeviceLocalFlagState _ _ => device_local_flag
  end.

Definition SEVERITY_ORDER (k : RecoveryKind) : Z :=
  match k with
  | reliability_reset_recovery => 0
  | legacy_reliability_recovery => 1
  | session_mismatch => 2
  | actor_identity_recovery => 3
  | write_revocation => 4
  | capacity_read_only => 5
  | device_local_flag => 6
  | event_overflow_reconcile => 7
  | command_recovery => 8
  | draft_restore_pending => 9
  | deferred_capability => 10
  end.

(** [compareSeverity] sorts by this key. *)
Definition severity (s : RecoveryState) : Z := SEVERITY_ORDER (kind s).

Record RecoveryProjectionSnapshot : Set := {
  states : list RecoveryState;
  hasActiveRecovery : bool;
  isWriteBlocked : bool;
  updatedAtMs : Z
}.

Definition EMPTY_SNAPSHOT : RecoveryProjectionSnapshot :=
  {| states := []; hasActiveRecovery := false; isWriteBlocked := false; updatedAtMs := 0 |}.

(** ** The controller *)

(** The mutable slots; each holds the fields of its state, the kind is the slot. *)
Record slots : Set := {
  draftRestore : option (list DraftProjection * Z);
  commandRecovery : option (list CommandProjection);
  capacityReadOnly : option (Z * Z * Z * Z * list ReliabilityCapacityExhaustionCause);
  legacyReliabilityRecovery : option (Z * bool);
  reliabilityResetRecovery : option unit;
  writeRevocation : option WriteAdmission;
  sessionMismatch : option (string * string * Z);
  actorIdentityRecovery : option Z;
  eventOverflow : option (list StaleDomainEntry);
  deferredCapability : option (list DeferredRuntimeEntry);
  deviceLocalFlag : option (DeviceLocalReason * Z)
}.

Definition no_slots : slots :=
  {| draftRestore := None; commandRecovery := None; capacityReadOnly := None;
     legacyReliabilityRecovery := None; reliabilityResetRecovery := None; writeRevocation := None;
     sessionMismatch := None; actorIdentityRecovery := None; eventOverflow := None;
     deferredCapability := None; deviceLocalFlag := None |}.

(** [rp_calls] logs the calls of the listeners. *)
Record projection : Set := {
  rp_listeners : list nat;   (* a Set *)
  rp_snapshot : RecoveryProjectionSnapshot;
  rp_torn : bool;
  rp_slots : slots;
  rp_calls : list (nat * RecoveryProjectionSnapshot)
}.

Definition createRecoveryProjection : projection :=
  {| rp_listeners := []; rp_snapshot := EMPTY_SNAPSHOT; rp_torn := false; rp_slots := no_slots; rp_calls := [] |}.

(** The pushes of [rebuild], in their order. *)
Definition pushed_states (s : slots) : list RecoveryState :=
  option_list ((fun _ => ReliabilityResetRecoveryState) <$> reliabilityResetRecovery s)
  ++ option_list ((fun p => LegacyReliabilityRecoveryState p.1 p.2) <$> legacyReliabilityRecovery s)
  ++ option_list ((fun p => DraftRestorePending p.1 p.2) <$> draftRestore s)
  ++ option_list (CommandRecoveryState <$> commandRecovery s)
  ++ option_list ((fun p => CapacityReadOnlyState p.1.1.1.1 p.1.1.1.2 p.1.1.2 p.1.2 p.2) <$> capacityReadOnly s)
  ++ option_list (WriteRevocationState <$> writeRevocation s)
  ++ option_list ((fun p => SessionMismatchState p.1.1 p.1.2 p.2) <$> sessionMismatch s)
  ++ option_list (ActorIdentityRecoveryState <$> actorIdentityRecovery s)
  ++ option_list (EventOverflowReconcileState <$> eventOverflow s)
  ++ option_list (DeferredCapabilityState <$> deferredCapability s)
  ++ option_list ((fun p => DeviceLocalFlagState p.1 p.2) <$> deviceLocalFlag s).

Definition write_blocked (s : slots) : bool :=
  bool_decide (is_Some (reliabilityResetRecovery s))
  || bool_decide (is_Some (legacyReliabilityRecovery s))
  || bool_decide (is_Some (sessionMismatch s))
  || bool_decide (is_Some (actorIdentityRecovery s))
  || bool_decide (is_Some (writeRevocation s))
  || bool_decide (is_Some (capacityReadOnly s))
  || bool_decide (is_Some (deviceLocalFlag s)).

Definition build_snapshot (now : Z) (s : slots) : RecoveryProjectionSnapshot :=
  let sts := sort_by severity (pushed_states s) in
  {| states := sts; hasActiveRecovery := 0 <? Z.of_nat (length sts);
     isWriteBlocked := write_blocked s; updatedAtMs := now |}.

(** Assignments to the slots. *)
Definition set_draftRestore (v : option (list DraftProjection * Z)) (s : slots) : slots :=
  {| draftRestore := v; commandRecovery := commandRecovery s; capacityReadOnly := capacityReadOnly s;
     legacyReliabilityRecovery := legacyReliabilityRecovery s;
     reliabilityResetRecovery := reliabilityResetRecovery s; writeRevocation := writeRevocation s;
     sessionMismatch := sessionMismatch s; actorIdentityRecovery := actorIdentityRecovery s;
     eventOverflow := eventOverflow s; deferredCapability := deferredCapability s;
     deviceLocalFlag := deviceLocalFlag s |}.

Definition set_commandRecovery (v : option (list CommandProjection)) (s : slots) : slots :=
  {| draftRestore := draftRestore s; commandRecovery := v; capacityReadOnly := capacityReadOnly s;
     legacyReliabilityRecovery := legacyReliabilityRecovery s;
     reliabilityResetRecovery := reliabilityResetRecovery s; writeRevocation := writeRevocation s;
     sessionMismatch := sessionMismatch s; actorIdentityRecovery := actorIdentityRecovery s;
     eventOverflow := eventOverflow s; deferredCapability := deferredCapability s;
     deviceLocalFlag := deviceLocalFlag s |}.

Definition set_capacityReadOnly (v : option (Z * Z * Z * Z * list ReliabilityCapacityExhaustionCause)) (s : slots) : slots :=
  {| draftRestore := draftRestore s; commandRecovery := commandRecovery s; capacityReadOnly := v;
     legacyReliabilityRecovery := legacyReliabilityRecovery s;
     reliabilityResetRecovery := reliabilityResetRecovery s; writeRevocation := writeRevocation s;
     sessionMismatch := sessionMismatch s; actorIdentityRecovery := actorIdentityRecovery s;
     eventOverflow := eventOverflow s; deferredCapability := deferredCapability s;
     deviceLocalFlag := deviceLocalFlag s |}.

Definition set_legacyReliabilityRecovery (v : option (Z * bool)) (s : slots) : slots :=
  {| draftRestore := draftRestore s; commandRecovery := commandRecovery s;
     capacityReadOnly := capacityReadOnly s; legacyReliabilityRecovery := v;
     reliabilityResetRecovery := reliabilityResetRecovery s; writeRevocation := writeRevocation s;
     sessionMismatch := sessionMismatch s; actorIdentityRecovery := actorIdentityRecovery s;
     eventOverflow := eventOverflow s; deferredCapability := deferredCapability s;
     deviceLocalFlag := deviceLocalFlag s |}.

Definition set_reliabilityResetRecovery (v : option (unit)) (s : slots) : slots :=
  {| draftRestore := draftRestore s; commandRecovery := commandRecovery s;
     capacityReadOnly := capacityReadOnly s; legacyReliabilityRecovery := legacyReliabilityRecovery s;
     reliabilityResetRecovery := v; writeRevocation := writeRevocation s;
     sessionMismatch := sessionMismatch s; actorIdentityRecovery := actorIdentityRecovery s;
     eventOverflow := eventOverflow s; deferredCapability := deferredCapability s;
     deviceLocalFlag := deviceLocalFlag s |}.

Definition set_writeRevocation (v : option (WriteAdmission)) (s : slots) : slots :=
  {| draftRestore := draftRestore s; commandRecovery := commandRecovery s;
     capacityReadOnly := capacityReadOnly s; legacyReliabilityRecovery := legacyReliabilityRecovery s;
     reliabilityResetRecovery := reliabilityResetRecovery s; writeRevocation := v;
     sessionMismatch := sessionMismatch s; actorIdentityRecovery := actorIdentityRecovery s;
     eventOverflow := eventOverflow s; deferredCapability := deferredCapability s;
     deviceLocalFlag := deviceLocalFlag s |}.

Definition set_sessionMismatch (v : option (string * string * Z)) (s : slots) : slots :=
  {| draftRestore := draftRestore s; commandRecovery := commandRecovery s;
     capacityReadOnly := capacityReadOnly s; legacyReliabilityRecovery := legacyReliabilityRecovery s;
     reliabilityResetRecovery := reliabilityResetRecovery s; writeRevocation := writeRevocation s;
     sessionMismatch := v; actorIdentityRecovery := actorIdentityRecovery s; eventOverflow := eventOverflow s;
     deferredCapability := deferredCapability s; deviceLocalFlag := deviceLocalFlag s |}.

Definition set_actorIdentityRecovery (v : option (Z)) (s : slots) : slots :=
  {| draftRestore := draftRestore s; commandRecovery := commandRecovery s;
     capacityReadOnly := capacityReadOnly s; legacyReliabilityRecovery := legacyReliabilityRecovery s;
     reliabilityResetRecovery := reliabilityResetRecovery s; writeRevocation := writeRevocation s;
     sessionMismatch := sessionMismatch s; actorIdentityRecovery := v; eventOverflow := eventOverflow s;
     deferredCapability := deferredCapability s; deviceLocalFlag := deviceLocalFlag s |}.

Definition set_eventOverflow (v : option (list StaleDomainEntry)) (s : slots) : slots :=
  {| draftRestore := draftRestore s; commandRecovery := commandRecovery s;
     capacityReadOnly := capacityReadOnly s; legacyReliabilityRecovery := legacyReliabilityRecovery s;
     reliabilityResetRecovery := reliabilityResetRecovery s; writeRevocation := writeRevocation s;
     sessionMismatch := sessionMismatch s; actorIdentityRecovery := actorIdentityRecovery s;
     eventOverflow := v; deferredCapability := deferredCapability s; deviceLocalFlag := deviceLocalFlag s |}.

Definition set_deferredCapability (v : option (list DeferredRuntimeEntry)) (s : slots) : slots :=
  {| draftRestore := draftRestore s; commandRecovery := commandRecovery s;
     capacityReadOnly := capacityReadOnly s; legacyReliabilityRecovery := legacyReliabilityRecovery s;
     reliabilityResetRecovery := reliabilityResetRecovery s; writeRevocation := writeRevocation s;
     sessionMismatch := sessionMismatch s; actorIdentityRecovery := actorIdentityRecovery s;
     eventOverflow := eventOverflow s; deferredCapability := v; deviceLocalFlag := deviceLocalFlag s |}.

Definition set_deviceLocalFlag (v : option (DeviceLocalReason * Z)) (s : slots) : slots :=
  {| draftRestore := draftRestore s; commandRecovery := commandRecovery s;
     capacityReadOnly := capacityReadOnly s; legacyReliabilityRecovery := legacyReliabilityRecovery s;
     reliabilityResetRecovery := reliabilityResetRecovery s; writeRevocation := writeRevocation s;
     sessionMismatch := sessionMismatch s; actorIdentityRecovery := actorIdentityRecovery s;
     eventOverflow := eventOverflow s; deferredCapability := deferredCapability s; deviceLocalFlag := v |}.

(** [rebuild], after the assignment that precedes it; listeners are called in order. *)
Definition rebuild (now : Z) (s : slots) (p : projection) : projection :=
  if rp_torn p
  then {| rp_listeners := rp_listeners p; rp_snapshot := rp_snapshot p; rp_torn := true; rp_slots := s;
          rp_calls := rp_calls p |}
  else
    let snapshot := build_snapshot now s in
    {| rp_listeners := rp_listeners p; rp_snapshot := snapshot; rp_torn := false; rp_slots := s;
       rp_calls := rp_calls p ++ ((fun l => (l, snapshot)) <$> rp_listeners p) |}.

Definition getSnapshot (p : projection) : RecoveryProjectionSnapshot := rp_snapshot p.

Definition with_listeners (l : list nat) (p : projection) : projection :=
  {| rp_listeners := l; rp_snapshot := rp_snapshot p; rp_torn := rp_torn p; rp_slots := rp_slots p;
     rp_calls := rp_calls p |}.

Definition subscribe (listener : nat) (p : projection) : projection :=
  with_listeners (if decide (listener ∈ rp_listeners p) then rp_listeners p else rp_listeners p ++ [listener]) p.

(** The function [subscribe] returns. *)
Definition unsubscribe (listener : nat) (p : projection) : projection :=
  with_listeners (filter (fun l => l <> listener) (rp_listeners p)) p.

Definition reportDraftRestorePending (now : Z) (drafts : list DraftProjection) (p : projection) : projection :=
  if rp_torn p || bool_decide (drafts = []) then p
  else rebuild now (set_draftRestore (Some (drafts, now)) (rp_slots p)) p.

(** [if (!slot) return; slot = null; rebuild()]. *)
Definition clear_slot {A} (slot : slots -> option A) (set : option A -> slots -> slots) (now : Z)
  (p : projection) : projection :=
  match slot (rp_slots p) with
  | None => p
  | Some _ => rebuild now (set None (rp_slots p)) p
  end.

Definition clearDraftRestore : Z -> projection -> projection := clear_slot draftRestore set_draftRestore.

Definition same_draft (stationPeerId actorPtid : string) (surfaceKind : Z) (targetId : string)
  (d : DraftProjection) : Prop :=
  dp_stationPeerId d = stationPeerId /\ dp_actorPtid d = actorPtid
  /\ dp_surfaceKind d = surfaceKind /\ dp_targetId d = targetId.

#[export] Instance same_draft_dec st a k t d : Decision (same_draft st a k t d).
Proof. unfold same_draft. apply _. Defined.

Definition resolveDraftRestore (now : Z) (stationPeerId actorPtid : string) (surfaceKind : Z) (targetId : string)
  (p : projection) : projection :=
  match draftRestore (rp_slots p) with
  | None => p
  | Some (drafts, discoveredAtMs) =>
      let drafts' := filter (fun d => ~ same_draft stationPeerId actorPtid surfaceKind targetId d) drafts in
      if decide (length drafts' = length drafts) then p
      else rebuild now (set_draftRestore (if decide (drafts' = []) then None else Some (drafts', discoveredAtMs))
                          (rp_slots p)) p
  end.

Definition reportCommandRecovery (now : Z) (commands : list CommandProjection) (p : projection) : projection :=
  if rp_torn p then p
  else match commands with
       | [] => clear_slot commandRecovery set_commandRecovery now p
       | _ => rebuild now (set_commandRecovery (Some commands) (rp_slots p)) p
       end.

Definition clearCommandRecovery : Z -> projection -> projection := clear_slot commandRecovery set_commandRecovery.

Definition reportCapacityReadOnly (now : Z) (capacity : ReliabilityCommandCapacityStatus) (p : projection)
  : projection :=
  if rp_torn p then p
  else match exhaustionCauses capacity with
       | [] => clear_slot capacityReadOnly set_capacityReadOnly now p
       | causes =>
           rebuild now (set_capacityReadOnly
             (Some (recordCount capacity, recordLimit capacity, byteUsage capacity, byteLimit capacity, causes))
             (rp_slots p)) p
       end.

Definition clearCapacityReadOnly : Z -> projection -> projection := clear_slot capacityReadOnly set_capacityReadOnly.

Definition reportLegacyReliabilityRecovery (now archivedLegacyFiles : Z) (retainedReadOnly : bool)
  (p : projection) : projection :=
  if rp_torn p then p
  else rebuild now (set_legacyReliabilityRecovery (Some (archivedLegacyFiles, retainedReadOnly)) (rp_slots p)) p.

Definition clearLegacyReliabilityRecovery : Z -> projection -> projection :=
  clear_slot legacyReliabilityRecovery set_legacyReliabilityRecovery.

Definition reportReliabilityResetRecovery (now : Z) (p : projection) : projection :=
  if rp_torn p then p else rebuild now (set_reliabilityResetRecovery (Some tt) (rp_slots p)) p.

Definition clearReliabilityResetRecovery : Z -> projection -> projection :=
  clear_slot reliabilityResetRecovery set_reliabilityResetRecovery.

Definition reportWriteAdmission (now : Z) (admission : WriteAdmission) (p : projection) : projection :=
  if rp_torn p then p
  else if is_open admission then clear_slot writeRevocation set_writeRevocation now p
  else rebuild now (set_writeRevocation (Some admission) (rp_slots p)) p.

Definition reportSessionMismatch (now : Z) (expected actual : string) (p : projection) : projection :=
  if rp_torn p then p else rebuild now (set_sessionMismatch (Some (expected, actual, now)) (rp_slots p)) p.

Definition clearSessionMismatch : Z -> projection -> projection := clear_slot sessionMismatch set_sessionMismatch.

Definition reportActorIdentityRecovery (now : Z) (p : projection) : projection :=
  if rp_torn p || bool_decide (is_Some (actorIdentityRecovery (rp_slots p))) then p
  else rebuild now (set_actorIdentityRecovery (Some now) (rp_slots p)) p.

Definition clearActorIdentityRecovery : Z -> projection -> projection :=
  clear_slot actorIdentityRecovery set_actorIdentityRecovery.

Definition reportEventOverflow (now : Z) (staleDomains : list StaleDomainEntry) (p : projection) : projection :=
  if rp_torn p then p
  else match staleDomains with
       | [] => clear_slot eventOverflow set_eventOverflow now p
       | _ => rebuild now (set_eventOverflow (Some staleDomains) (rp_slots p)) p
       end.

Definition clearEventOverflow : Z -> projection -> projection := clear_slot eventOverflow set_eventOverflow.

Definition SHELL_RECOVERY_LAUNCH_STATES : list MobileLaunchState := [shell; resume_launch].

Definition DEFERRED_RUNTIME_STATUSES : list RuntimeBootstrapStatus :=
  [st_pending; st_bootstrapping; st_failed; st_suspended; st_resuming].

(** The [forEach] over the runtimes; the read can throw, as [readRuntimeAvailability] says. *)
Fixpoint unavailable_runtimes (kernelState : LifecycleKernelState) (entries : list (string * RuntimeEntry))
  : result (list DeferredRuntimeEntry) :=
  match entries with
  | [] => Ok []
  | (runtimeId, entry) :: rest =>
      match readRuntimeAvailability kernelState runtimeId with
      | Err m => Err m
      | Ok availability =>
          match unavailable_runtimes kernelState rest with
          | Err m => Err m
          | Ok tail =>
              match availability with
              | Some a =>
                  if decide (runtimeId <> "recovery-projection"%string /\ snap_status a ∈ DEFERRED_RUNTIME_STATUSES)
                  then Ok ({| dre_runtimeId := runtimeId; dre_title := desc_title (re_descriptor entry);
                              dre_status := snap_status a; dre_errorMessage := snap_errorKey a |} :: tail)
                  else Ok tail
              | None => Ok tail
              end
          end
      end
  end.

(** An exception leaves the projection as it was. *)
Definition reportDeferredCapabilities (now : Z) (kernelState : LifecycleKernelState) (p : projection)
  : result projection :=
  if rp_torn p then Ok p
  else if decide (launchState kernelState ∉ SHELL_RECOVERY_LAUNCH_STATES)
  then Ok (clear_slot deferredCapability set_deferredCapability now p)
  else match unavailable_runtimes kernelState (entries (runtimes kernelState)) with
       | Err m => Err m
       | Ok [] => Ok (clear_slot deferredCapability set_deferredCapability now p)
       | Ok unavailable => Ok (rebuild now (set_deferredCapability (Some unavailable) (rp_slots p)) p)
       end.

Definition reportDeviceLocalFlag (now : Z) (reason : DeviceLocalReason) (p : projection) : projection :=
  if rp_torn p then p else rebuild now (set_deviceLocalFlag (Some (reason, now)) (rp_slots p)) p.

Definition clearDeviceLocalFlag (now : Z) (reason : option DeviceLocalReason) (p : projection) : projection :=
  match deviceLocalFlag (rp_slots p) with
  | None => p
  | Some (current, _) =>
      if decide (reason <> None /\ reason <> Some current) then p
      else rebuild now (set_deviceLocalFlag None (rp_slots p)) p
  end.

(** [Object.entries] lists the domains in the order the ingress created them. *)
Definition stale_entries (i : ingress) : list StaleDomainEntry :=
  (fun d => {| sde_domain := d; sde_staleness := staleness i d |})
    <$> filter (fun d => is_stale (staleness i d) = true) ALL_DOMAINS.

Definition reportIngressState (now : Z) (i : ingress) (p : projection) : projection :=
  if rp_torn p then p
  else
    let s := set_writeRevocation (if is_open (writeAdmission i) then None else Some (writeAdmission i)) (rp_slots p) in
    let stale := stale_entries i in
    rebuild now (set_eventOverflow (if decide (stale = []) then None else Some stale) s) p.

Definition teardown (p : projection) : projection :=
  {| rp_listeners := []; rp_snapshot := EMPTY_SNAPSHOT; rp_torn := true; rp_slots := no_slots;
     rp_calls := rp_calls p |}.

(** ** The singleton *)
Definition getRecoveryProjection (instance : option projection) : projection :=
  default createRecoveryProjection instance.

(** The torn old instance, for those who still hold it, and the new value of the variable. *)
Definition destroyRecoveryProjection (instance : option projection) : option projection * option projection :=
  (teardown <$> instance, None).

(** ** Histories *)
Inductive recovery_op : Set :=
| op_subscribe (listener : nat)
| op_unsubscribe (listener : nat)
| op_draft (drafts : list DraftProjection)
| op_clear_draft
| op_resolve_draft (stationPeerId actorPtid : string) (surfaceKind : Z) (targetId : string)
| op_command (commands : list CommandProjection)
| op_clear_command
| op_capacity (capacity : ReliabilityCommandCapacityStatus)
| op_clear_capacity
| op_legacy (archivedLegacyFiles : Z) (retainedReadOnly : bool)
| op_clear_legacy
| op_reset
| op_clear_reset
| op_admission (admission : WriteAdmission)
| op_mismatch (expected actual : string)
| op_clear_mismatch
| op_actor
| op_clear_actor
| op_overflow (staleDomains : list StaleDomainEntry)
| op_clear_overflow
| op_deferred (kernelState : LifecycleKernelState)
| op_device (reason : DeviceLocalReason)
| op_clear_device (reason : option DeviceLocalReason)
| op_ingress (i : ingress)
| op_destroy.

Definition recovery_step (p : projection) (call : Z * recovery_op) : projection :=
  let (now, op) := call in
  match op with
  | op_subscribe l => subscribe l p
  | op_unsubscribe l => unsubscribe l p
  | op_draft ds => reportDraftRestorePending now ds p
  | op_clear_draft => clearDraftRestore now p
  | op_resolve_draft st a k t => resolveDraftRestore now st a k t p
  | op_command cs => reportCommandRecovery now cs p
  | op_clear_command => clearCommandRecovery now p
  | op_capacity c => reportCapacityReadOnly now c p
  | op_clear_capacity => clearCapacityReadOnly now p
  | op_legacy n r => reportLegacyReliabilityRecovery now n r p
  | op_clear_legacy => clearLegacyReliabilityRecovery now p
  | op_reset => reportReliabilityResetRecovery now p
  | op_clear_reset => clearReliabilityResetRecovery now p
  | op_admission a => reportWriteAdmission now a p
  | op_mismatch e a => reportSessionMismatch now e a p
  | op_clear_mismatch => clearSessionMismatch now p
  | op_actor => reportActorIdentityRecovery now p
  | op_clear_actor => clearActorIdentityRecovery now p
  | op_overflow ds => reportEventOverflow now ds p
  | op_clear_overflow => clearEventOverflow now p
  | op_deferred k => match reportDeferredCapabilities now k p with Ok p' => p' | Err _ => p end
  | op_device r => reportDeviceLocalFlag now r p
  | op_clear_device r => clearDeviceLocalFlag now r p
  | op_ingress i => reportIngressState now i p
  | op_destroy => teardown p
  end.

Definition recovery_run (calls : list (Z * recovery_op)) (p : projection) : projection :=
  fold_left recovery_step calls p.

(** ** What a slot shows *)
Definition slot_state (k : RecoveryKind) (s : slots) : option RecoveryState :=
  match k with
  | reliability_reset_recovery => (fun _ => ReliabilityResetRecoveryState) <$> reliabilityResetRecovery s
  | legacy_reliability_recovery => (fun p => LegacyReliabilityRecoveryState p.1 p.2) <$> legacyReliabilityRecovery s
  | session_mismatch => (fun p => SessionMismatchState p.1.1 p.1.2 p.2) <$> sessionMismatch s
  | actor_identity_recovery => ActorIdentityRecoveryState <$> actorIdentityRecovery s
  | write_revocation => WriteRevocationState <$> writeRevocation s
  | capacity_read_only =>
      (fun p => CapacityReadOnlyState p.1.1.1.1 p.1.1.1.2 p.1.1.2 p.1.2 p.2) <$> capacityReadOnly s
  | device_local_flag => (fun p => DeviceLocalFlagState p.1 p.2) <$> deviceLocalFlag s
  | event_overflow_reconcile => EventOverflowReconcileState <$> eventOverflow s
  | command_recovery => CommandRecoveryState <$> commandRecovery s
  | draft_restore_pending => (fun p => DraftRestorePending p.1 p.2) <$> draftRestore s
  | deferred_capability => DeferredCapabilityState <$> deferredCapability s
  end.

(** The kinds in the order [rebuild] pushes them. *)
Definition push_order : list RecoveryKind :=
  [reliability_reset_recovery; legacy_reliability_recovery; draft_restore_pending; command_recovery;
   capacity_read_only; write_revocation; session_mismatch; actor_identity_recovery;
   event_overflow_reconcile; deferred_capability; device_local_flag].

Definition blocking_kinds : list RecoveryKind :=
  [reliability_reset_recovery; legacy_reliability_recovery; session_mismatch; actor_identity_recovery;
   write_revocation; capacity_read_only; device_local_flag].

Lemma pushed_slots s : pushed_states s = omap (fun k => slot_state k s) push_order.
Proof.
  unfold pushed_states, push_order. cbn [omap list_omap slot_state].
  destruct (reliabilityResetRecovery s), (legacyReliabilityRecovery s), (draftRestore s), (commandRecovery s),
    (capacityReadOnly s), (writeRevocation s); cbn;
  destruct (sessionMismatch s), (actorIdentityRecovery s), (eventOverflow s), (deferredCapability s),
    (deviceLocalFlag s); reflexivity.
Qed.

Lemma slot_kind k s st : slot_state k s = Some st -> kind st = k.
Proof. destruct k; cbn; intros (? & _ & ->)%fmap_Some; done. Qed.

Lemma push_order_all k : k ∈ push_order.
Proof. destruct k; by_computation. Qed.

Lemma elem_of_pushed s st : st ∈ pushed_states s <-> slot_state (kind st) s = Some st.
Proof.
  rewrite pushed_slots, list_elem_of_omap. split.
  - intros (k & _ & Hk). by rewrite (slot_kind k s st Hk).
  - intros Hs. exists (kind st). split; [apply push_order_all | done].
Qed.

Lemma kinds_sublist (ks : list RecoveryKind) s :
  kind <$> omap (fun k => slot_state k s) ks = filter (fun k => is_Some (slot_state k s)) ks.
Proof.
  induction ks as [|k ks IH]; [done|]. cbn [omap list_omap]. rewrite filter_cons.
  destruct (slot_state k s) as [st|] eqn:Hs.
  - rewrite decide_True by done. cbn [fmap list_fmap]. f_equal; [by apply (slot_kind k s) | exact IH].
  - rewrite decide_False by (intros []; done). exact IH.
Qed.

Lemma pushed_kinds_nodup s : NoDup (kind <$> pushed_states s).
Proof. rewrite pushed_slots, kinds_sublist. apply NoDup_filter. by_computation. Qed.

Lemma severity_inj k k' : SEVERITY_ORDER k = SEVERITY_ORDER k' -> k = k'.
Proof. by destruct k, k'. Qed.

Lemma write_blocked_slots s :
  write_blocked s = true <-> exists k, k ∈ blocking_kinds /\ is_Some (slot_state k s).
Proof.
  unfold write_blocked. rewrite !orb_true_iff, !bool_decide_eq_true. split.
  - intros [[[[[[H|H]|H]|H]|H]|H]|H]; destruct H as [x Hx];
      [exists reliability_reset_recovery | exists legacy_reliability_recovery | exists session_mismatch
      | exists actor_identity_recovery | exists write_revocation | exists capacity_read_only
      | exists device_local_flag]; (split; [by_computation|]); cbn; rewrite Hx; by eexists.
  - intros (k & Hk & st & Hs). unfold blocking_kinds in Hk. rewrite !elem_of_cons, elem_of_nil in Hk.
    repeat destruct Hk as [->|Hk]; [..|done]; cbn in Hs; apply fmap_Some in Hs as (x & Hx & _); rewrite Hx;
      repeat first [by right; eexists | left]; by eexists.
Qed.

(** ** Steps *)

(** The kinds a call may change. *)
Definition touched (op : recovery_op) : list RecoveryKind :=
  match op with
  | op_subscribe _ | op_unsubscribe _ => []
  | op_draft _ | op_clear_draft | op_resolve_draft _ _ _ _ => [draft_restore_pending]
  | op_command _ | op_clear_command => [command_recovery]
  | op_capacity _ | op_clear_capacity => [capacity_read_only]
  | op_legacy _ _ | op_clear_legacy => [legacy_reliability_recovery]
  | op_reset | op_clear_reset => [reliability_reset_recovery]
  | op_admission _ => [write_revocation]
  | op_mismatch _ _ | op_clear_mismatch => [session_mismatch]
  | op_actor | op_clear_actor => [actor_identity_recovery]
  | op_overflow _ | op_clear_overflow => [event_overflow_reconcile]
  | op_deferred _ => [deferred_capability]
  | op_device _ | op_clear_device _ => [device_local_flag]
  | op_ingress _ => [write_revocation; event_overflow_reconcile]
  | op_destroy => push_order
  end.

(** A call that is no teardown keeps slots and snapshot, or rebuilds a live projection
    from slots that agree on the kinds the call does not own. *)
Inductive step_shape (now : Z) (op : recovery_op) (p p' : projection) : Prop :=
| shape_same : rp_slots p' = rp_slots p -> rp_snapshot p' = rp_snapshot p -> rp_torn p' = rp_torn p ->
    step_shape now op p p'
| shape_rebuild s : rp_torn p = false -> p' = rebuild now s p ->
    (forall k, k ∉ touched op -> slot_state k s = slot_state k (rp_slots p)) -> step_shape now op p p'.

(** Torn projections have empty slots; the snapshot is what [rebuild] made of the slots. *)
Record coherent (p : projection) : Prop := {
  co_torn : rp_torn p = true -> rp_slots p = no_slots /\ rp_snapshot p = EMPTY_SNAPSHOT;
  co_live : rp_torn p = false -> exists now, rp_snapshot p = build_snapshot now (rp_slots p)
}.

Ltac frame_slots := let k := fresh in let Hk := fresh in intros k Hk; destruct k; first [reflexivity | exfalso; apply Hk; by_computation].

Lemma shape_clear {A} (slot : slots -> option A) set now op p :
  slot no_slots = None -> coherent p ->
  (forall k, k ∉ touched op -> slot_state k (set None (rp_slots p)) = slot_state k (rp_slots p)) ->
  step_shape now op p (clear_slot slot set now p).
Proof.
  intros Hno Hco Hk. unfold clear_slot. destruct (slot (rp_slots p)) eqn:Hs; [|by apply shape_same].
  destruct (rp_torn p) eqn:Ht; [|by eapply shape_rebuild].
  destruct (co_torn p Hco Ht) as [He _]. rewrite He in Hs. congruence.
Qed.

Lemma shape_report now op p s :
  (forall k, k ∉ touched op -> slot_state k s = slot_state k (rp_slots p)) ->
  step_shape now op p (if rp_torn p then p else rebuild now s p).
Proof. intros Hk. destruct (rp_torn p) eqn:Ht; [by apply shape_same | by eapply shape_rebuild]. Qed.

Lemma shape_torn now op p p' :
  (rp_torn p = false -> step_shape now op p p') -> step_shape now op p (if rp_torn p then p else p').
Proof. intros Hs. destruct (rp_torn p) eqn:Ht; [by apply shape_same | by apply Hs]. Qed.

Lemma shape_resolve now st a k t p :
  coherent p -> step_shape now (op_resolve_draft st a k t) p (resolveDraftRestore now st a k t p).
Proof.
  intros Hco. unfold resolveDraftRestore. destruct (draftRestore (rp_slots p)) as [[ds at_]|] eqn:Hd; [|by apply shape_same].
  case_decide; [by apply shape_same|]. destruct (rp_torn p) eqn:Ht.
  - destruct (co_torn p Hco Ht) as [He _]. by rewrite He in Hd.
  - eapply shape_rebuild; [done | reflexivity | clear; frame_slots].
Qed.

Lemma shape_deferred now ks p :
  coherent p ->
  step_shape now (op_deferred ks) p (match reportDeferredCapabilities now ks p with Ok p' => p' | Err _ => p end).
Proof.
  intros Hco. unfold reportDeferredCapabilities. destruct (rp_torn p) eqn:Ht; [by apply shape_same|].
  case_decide; [apply shape_clear; [done | done | clear; frame_slots]|].
  destruct (unavailable_runtimes _ _) as [[|u us]|m]; [apply shape_clear; [done | done | clear; frame_slots] | | by apply shape_same].
  eapply shape_rebuild; [done | reflexivity | clear; frame_slots].
Qed.

Lemma shape_clear_device now r p :
  coherent p -> step_shape now (op_clear_device r) p (clearDeviceLocalFlag now r p).
Proof.
  intros Hco. unfold clearDeviceLocalFlag. destruct (deviceLocalFlag (rp_slots p)) as [[c at_]|] eqn:Hd; [|by apply shape_same].
  case_decide; [by apply shape_same|]. destruct (rp_torn p) eqn:Ht.
  - destruct (co_torn p Hco Ht) as [He _]. by rewrite He in Hd.
  - eapply shape_rebuild; [done | reflexivity | clear; frame_slots].
Qed.

Lemma step_has_shape now op p :
  coherent p -> op <> op_destroy -> step_shape now op p (recovery_step p (now, op)).
Proof.
  intros Hco Hop. destruct op; cbn [recovery_step];
    try (apply shape_clear; [reflexivity | exact Hco | clear; frame_slots]);
    try (apply shape_report; clear; frame_slots).
  - by apply shape_same.
  - by apply shape_same.
  - unfold reportDraftRestorePending. destruct (bool_decide (drafts = [])); [rewrite orb_true_r; by apply shape_same|].
    rewrite orb_false_r. apply shape_report. clear; frame_slots.
  - by apply shape_resolve.
  - apply shape_torn. intros Ht. destruct commands; [apply shape_clear; [done|done|clear; frame_slots]|].
    eapply shape_rebuild; [done | reflexivity | clear; frame_slots].
  - apply shape_torn. intros Ht. destruct (exhaustionCauses capacity); [apply shape_clear; [done|done|clear; frame_slots]|].
    eapply shape_rebuild; [done | reflexivity | clear; frame_slots].
  - apply shape_torn. intros Ht. destruct (is_open admission); [apply shape_clear; [done|done|clear; frame_slots]|].
    eapply shape_rebuild; [done | reflexivity | clear; frame_slots].
  - unfold reportActorIdentityRecovery.
    destruct (bool_decide (is_Some _)); [rewrite orb_true_r; by apply shape_same|].
    rewrite orb_false_r. apply shape_report. clear; frame_slots.
  - apply shape_torn. intros Ht. destruct staleDomains; [apply shape_clear; [done|done|clear; frame_slots]|].
    eapply shape_rebuild; [done | reflexivity | clear; frame_slots].
  - by apply shape_deferred.
  - by apply shape_clear_device.
  - done.
Qed.

Lemma coherent_shape now op p p' : coherent p -> step_shape now op p p' -> coherent p'.
Proof.
  intros [Ht Hl] [Hs Hn Hto|s Hto -> _].
  - constructor; rewrite Hs, Hn, Hto; [exact Ht | exact Hl].
  - unfold rebuild. rewrite Hto. constructor; cbn; [done|]. by eexists.
Qed.

Lemma create_coherent : coherent createRecoveryProjection.
Proof. constructor; cbn; [done|]. intros _. by exists 0. Qed.

Lemma step_coherent p call : coherent p -> coherent (recovery_step p call).
Proof.
  intros Hco. destruct call as [now op]. assert (op = op_destroy \/ op <> op_destroy) as [->|Hop].
  { destruct op; [by right..|by left]. }
  - by constructor.
  - eapply coherent_shape; [exact Hco | by apply step_has_shape].
Qed.

Lemma run_coherent calls p : coherent p -> coherent (recovery_run calls p).
Proof.
  unfold recovery_run. revert p. induction calls as [|c cs IH]; cbn [fold_left]; intros p Hco; [done|].
  by apply IH, step_coherent.
Qed.

(** ** Properties of the snapshot *)
Lemma blocking_severity k : k ∈ blocking_kinds <-> SEVERITY_ORDER k <= 6.
Proof.
  unfold blocking_kinds. split.
  - rewrite !elem_of_cons, elem_of_nil. intros Hk. repeat destruct Hk as [->|Hk]; [cbn; lia..|done].
  - destruct k; cbn; intros Hk; first [by_computation | lia].
Qed.

Lemma strict_severity l :
  StronglySorted (key_le severity) l -> NoDup (kind <$> l) ->
  StronglySorted (fun a b => severity a < severity b) l.
Proof.
  induction 1 as [|a l Hs IH Ha]; [constructor|]. rewrite fmap_cons, NoDup_cons. intros [Hn Hd].
  constructor; [by apply IH|]. rewrite Forall_forall in Ha |- *. intros b Hb. pose proof (Ha b Hb) as Hle.
  unfold key_le in Hle. enough (severity a <> severity b) by lia. intros Heq%severity_inj.
  apply Hn. rewrite Heq. by apply list_elem_of_fmap_2.
Qed.

Lemma snapshot_elem p st :
  coherent p -> rp_torn p = false ->
  st ∈ states (getSnapshot p) <-> slot_state (kind st) (rp_slots p) = Some st.
Proof.
  intros Hco Ht. destruct (co_live p Hco Ht) as [now Hs]. unfold getSnapshot. rewrite Hs. cbn.
  by rewrite sort_by_elem, elem_of_pushed.
Qed.

Lemma snapshot_blocked p :
  coherent p -> rp_torn p = false ->
  isWriteBlocked (getSnapshot p) = true <-> exists st, st ∈ states (getSnapshot p) /\ severity st <= 6.
Proof.
  intros Hco Ht. destruct (co_live p Hco Ht) as [now Hs].
  assert (Hb : isWriteBlocked (getSnapshot p) = write_blocked (rp_slots p)) by (unfold getSnapshot; by rewrite Hs).
  rewrite Hb, write_blocked_slots. split.
  - intros (k & Hk%blocking_severity & st & Hst). exists st. pose proof (slot_kind _ _ _ Hst) as Hkind. split.
    + apply snapshot_elem; [done|done|]. by rewrite Hkind.
    + unfold severity. by rewrite Hkind.
  - intros (st & Hst%snapshot_elem & Hk); [|done|done]. exists (kind st). split; [by apply blocking_severity | by eexists].
Qed.

Lemma live_step p now op :
  coherent p -> rp_torn p = false -> op <> op_destroy ->
  rp_torn (recovery_step p (now, op)) = false
  /\ forall k, k ∉ touched op -> slot_state k (rp_slots (recovery_step p (now, op))) = slot_state k (rp_slots p).
Proof.
  intros Hco Ht Hop. destruct (step_has_shape now op p Hco Hop) as [Hs _ Hto|s _ -> Hk].
  - split; [congruence|]. intros k _. by rewrite Hs.
  - unfold rebuild. rewrite Ht. split; [done | exact Hk].
Qed.

Lemma run_keeps_state k calls p :
  coherent p -> rp_torn p = false -> (forall now op, (now, op) ∈ calls -> k ∉ touched op) ->
  rp_torn (recovery_run calls p) = false
  /\ slot_state k (rp_slots (recovery_run calls p)) = slot_state k (rp_slots p).
Proof.
  unfold recovery_run. revert p. induction calls as [|[now op] cs IH]; cbn [fold_left]; intros p Hco Ht Hk; [done|].
  assert (Hop : k ∉ touched op) by (apply (Hk now); left).
  assert (op <> op_destroy) by (intros ->; apply Hop, push_order_all).
  destruct (live_step p now op) as [Ht' Hs']; [done..|].
  destruct (IH (recovery_step p (now, op))) as [Ht2 Hs2]; [by apply step_coherent | done | |].
  - intros now' op' Hin. apply (Hk now'). by right.
  - split; [done|]. by rewrite Hs2, Hs'.
Qed.

(** After any history of calls, the snapshot of a projection that is
    not torn down shows exactly the states in its slots, one per kind, from the most to
    the least severe; it is active when it shows a state, and writes are blocked exactly
    when it shows one at least as severe as the device-local flag. A torn one is empty. *)
Theorem recovery_snapshot_correct calls :
  let p := recovery_run calls createRecoveryProjection in
  let snapshot := getSnapshot p in
  StronglySorted (fun a b => severity a < severity b) (states snapshot)
  /\ (hasActiveRecovery snapshot = true <-> states snapshot <> [])
  /\ (isWriteBlocked snapshot = true <-> exists st, st ∈ states snapshot /\ severity st <= 6)
  /\ (forall st, st ∈ states snapshot <-> slot_state (kind st) (rp_slots p) = Some st)
  /\ (rp_torn p = true -> snapshot = EMPTY_SNAPSHOT).
Proof.
  intros p snapshot. assert (Hco : coherent p) by (apply run_coherent, create_coherent).
  subst snapshot. clearbody p. destruct (rp_torn p) eqn:Ht.
  - destruct (co_torn p Hco Ht) as [Hs He]. unfold getSnapshot. rewrite He, Hs. cbn. split_and!.
    + constructor.
    + done.
    + split; [done|]. intros (st & Hst & _). by apply elem_of_nil in Hst.
    + intros st. split; [by intros ?%elem_of_nil | by destruct (kind st)].
    + done.
  - split_and!; [| | by apply snapshot_blocked | intros st; by apply snapshot_elem | done].
    + unfold getSnapshot. destruct (co_live p Hco Ht) as [now ->]. apply strict_severity; [apply sort_by_sorted|].
      cbn. rewrite sort_by_perm. apply pushed_kinds_nodup.
    + unfold getSnapshot. destruct (co_live p Hco Ht) as [now ->]. cbn. rewrite Z.ltb_lt. destruct (sort_by _ _); cbn; [|split; [done|lia]].
      split; [lia | done].
Qed.

(** A state the projection shows keeps being shown, and if it blocks
    writes writes stay blocked, through every call that is not addressed to its kind; a
    failure reported by one runtime cannot be cleared by the recovery of another. *)
Theorem recovery_state_persists calls calls' st :
  let p := recovery_run calls createRecoveryProjection in
  let p' := recovery_run calls' p in
  st ∈ states (getSnapshot p) -> (forall now op, (now, op) ∈ calls' -> kind st ∉ touched op) ->
  st ∈ states (getSnapshot p')
  /\ (severity st <= 6 -> isWriteBlocked (getSnapshot p') = true).
Proof.
  intros p p' Hst Hk. assert (Hco : coherent p) by (apply run_coherent, create_coherent).
  assert (Hco' : coherent p') by (by apply run_coherent). clearbody p.
  assert (Ht : rp_torn p = false).
  { destruct (rp_torn p) eqn:Ht; [|done]. destruct (co_torn p Hco Ht) as [_ He]. unfold getSnapshot in Hst.
    rewrite He in Hst. by apply elem_of_nil in Hst. }
  destruct (run_keeps_state (kind st) calls' p Hco Ht Hk) as [Ht' Hs].
  apply snapshot_elem in Hst; [|done|done].
  assert (Hst' : st ∈ states (getSnapshot p')) by (apply snapshot_elem; [done | done | by rewrite <- Hst, <- Hs]).
  split; [done|]. intros Hsev. apply snapshot_blocked; [done | done | by exists st].
Qed.

(** ** Witness *)
Lemma recovery_state_persists_witness :
  let p := recovery_run [(1, op_mismatch "12D3Koo" "12D3Kee"); (2, op_device no_network)] createRecoveryProjection in
  isWriteBlocked (getSnapshot (recovery_run [(3, op_clear_device None); (4, op_admission admission_open)] p)) = true.
Proof.
  refine (proj2 (recovery_state_persists [(1, op_mismatch "12D3Koo" "12D3Kee"); (2, op_device no_network)]
    [(3, op_clear_device None); (4, op_admission admission_open)] (SessionMismatchState "12D3Koo" "12D3Kee" 1) _ _) _).
  - vm_compute. left.
  - intros now op Hin. apply list_elem_of_In in Hin. destruct Hin as [[= <- <-]|[[= <- <-]|[]]]; by_computation.
  - vm_compute. discriminate.
Defined.
