(* ===== verification/MutationAdmission.v ===== *)
(** * Admission of mutations in the mobile app

    Models [apps/mobile/src/runtimes/mutationAdmission.ts]: the module variables that hold
    the readers of the session and of the event ingress, and the check every native
    mutation passes. A reader is a function of the state of the app at the time of the
    call, here a type [World]. *)
From stdpp Require Import base strings list sets pretty.
From Stdlib Require Import Ascii.
From S2P Require Import Prelude JsString EventIngress EventIngressFacts RecoveryProjection.

(** ** State *)
Inductive MobileMutationDomain : Set := mut_data (d : SocialIngressDomain) | mut_group.

Record MutationAdmissionState : Set := {
  ma_lifecycle : IngressLifecycle;
  ma_staleness : SocialIngressDomain -> ProjectionStaleness;
  ma_writeAdmission : WriteAdmission
}.

(** What [ingress.state()] shows of an ingress. *)
Definition ingress_view (i : ingress) : MutationAdmissionState :=
  {| ma_lifecycle := lifecycle i; ma_staleness := staleness i; ma_writeAdmission := writeAdmission i |}.

Record SessionAdmission : Set := {
  sa_scopeKey : option string;
  sa_open : bool;
  sa_reason : string
}.

Section admission.
Context {World : Type}.

(** The module variables; a [symbol] is a number never used before. *)
Record admission : Type := {
  activeReader : option (World -> MutationAdmissionState);
  activeOwner : option nat;
  activeScopeKey : option string;
  activeSessionReader : option (World -> SessionAdmission);
  activeSessionOwner : option nat;
  nextSymbol : nat
}.

Definition unbound : admission :=
  {| activeReader := None; activeOwner := None; activeScopeKey := None; activeSessionReader := None;
     activeSessionOwner := None; nextSymbol := 0 |}.

(** Returns the owner, which stands for the closure that releases the binding. *)
Definition bindMobileMutationAdmission (scopeKey : string) (readAdmission : World -> MutationAdmissionState)
  (a : admission) : result (nat * admission) :=
  if negb (truthy (trim scopeKey)) then Err "mobile.auth.missingIdentityScope"
  else if bool_decide (is_Some (activeReader a)) || truthy (default ""%string (activeScopeKey a))
  then Err "mobile.social.mutationAdmissionAlreadyBound"
  else
    let owner := nextSymbol a in
    Ok (owner, {| activeReader := Some readAdmission; activeOwner := Some owner; activeScopeKey := Some scopeKey;
                  activeSessionReader := activeSessionReader a; activeSessionOwner := activeSessionOwner a;
                  nextSymbol := S owner |}).

Definition release (owner : nat) (a : admission) : admission :=
  if decide (activeOwner a <> Some owner) then a
  else {| activeReader := None; activeOwner := None; activeScopeKey := None;
          activeSessionReader := activeSessionReader a; activeSessionOwner := activeSessionOwner a;
          nextSymbol := nextSymbol a |}.

Definition bindMobileSessionMutationAdmission (readAdmission : World -> SessionAdmission) (a : admission)
  : result (nat * admission) :=
  if bool_decide (is_Some (activeSessionReader a)) then Err "mobile.auth.sessionMutationAdmissionAlreadyBound"
  else
    let owner := nextSymbol a in
    Ok (owner, {| activeReader := activeReader a; activeOwner := activeOwner a; activeScopeKey := activeScopeKey a;
                  activeSessionReader := Some readAdmission; activeSessionOwner := Some owner;
                  nextSymbol := S owner |}).

Definition releaseSession (owner : nat) (a : admission) : admission :=
  if decide (activeSessionOwner a <> Some owner) then a
  else {| activeReader := activeReader a; activeOwner := activeOwner a; activeScopeKey := activeScopeKey a;
          activeSessionReader := None; activeSessionOwner := None; nextSymbol := nextSymbol a |}.

Definition lifecycle_name (l : IngressLifecycle) : string :=
  match l with active => "active" | suspended => "suspended" | torn => "torn" end.

(** The staleness the check looks at, with the name of its domain. *)
Definition domain_staleness (domain : option MobileMutationDomain) (s : MutationAdmissionState)
  : option (string * string) :=
  match domain with
  | Some (mut_data d) =>
      match ma_staleness s d with stale reason _ => Some (domain_name d, reason) | fresh => None end
  | _ => None
  end.

(** [Err reason] is a [MobileMutationAdmissionError] with that reason. *)
Definition requireMobileMutationAdmission (a : admission) (recovery : option projection) (w : World)
  (scopeKey : string) (domain : option MobileMutationDomain) : result unit :=
  match (fun read => read w) <$> activeSessionReader a with
  | None => Err "session_runtime_unavailable"
  | Some session =>
      if decide (sa_scopeKey session <> Some scopeKey) then Err "session_runtime_unavailable"
      else if negb (sa_open session) then Err (sa_reason session)
      else
        match (fun read => read w) <$> activeReader a with
        | None => Err "runtime_unavailable"
        | Some state =>
            if decide (activeScopeKey a <> Some scopeKey) then Err "runtime_unavailable"
            else if decide (ma_lifecycle state <> active) then Err ("runtime_" ++ lifecycle_name (ma_lifecycle state))%string
            else
              match ma_writeAdmission state with
              | admission_closed reason _ => Err reason
              | admission_open =>
                  match domain_staleness domain state with
                  | Some (name, reason) => Err (name ++ ":" ++ reason)%string
                  | None =>
                      if isWriteBlocked (getSnapshot (getRecoveryProjection recovery))
                      then Err "recovery_projection_blocked" else Ok tt
                  end
              end
        end
  end.

(** ** Histories of bindings *)
Inductive binding_op : Type :=
| op_bind (scopeKey : string) (readAdmission : World -> MutationAdmissionState)
| op_release (owner : nat)
| op_bind_session (readAdmission : World -> SessionAdmission)
| op_release_session (owner : nat).

Definition bind_result (r : result (nat * admission)) (a : admission) : admission :=
  match r with Ok (_, a') => a' | Err _ => a end.

Definition binding_step (a : admission) (op : binding_op) : admission :=
  match op with
  | op_bind k r => bind_result (bindMobileMutationAdmission k r a) a
  | op_release o => release o a
  | op_bind_session r => bind_result (bindMobileSessionMutationAdmission r a) a
  | op_release_session o => releaseSession o a
  end.

Definition binding_run (ops : list binding_op) (a : admission) : admission := fold_left binding_step ops a.

(** Reader, owner and scope are set and reset together; symbols in use are old ones. *)
Record binding_inv (a : admission) : Prop := {
  bi_owner : is_Some (activeOwner a) <-> is_Some (activeReader a);
  bi_scope : is_Some (activeScopeKey a) <-> is_Some (activeReader a);
  bi_session : is_Some (activeSessionOwner a) <-> is_Some (activeSessionReader a);
  bi_fresh : forall o, activeOwner a = Some o \/ activeSessionOwner a = Some o -> (o < nextSymbol a)%nat
}.

Lemma binding_step_inv a op : binding_inv a -> binding_inv (binding_step a op).
Proof.
  intros Hi. pose proof Hi as [Ho Hs Hse Hf]. destruct op as [k r|o|r|o]; cbn [binding_step].
  - unfold bindMobileMutationAdmission. destruct (negb _); [done|]. destruct (_ || _); [done|]. cbn.
    constructor; cbn; try done. intros o' [[= <-]|Hx]; [lia|]. pose proof (Hf o' (or_intror Hx)). lia.
  - unfold release. case_decide; [done|]. constructor; cbn; try done.
    intros o' [?|Hx]; [done|]. by apply Hf; right.
  - unfold bindMobileSessionMutationAdmission. destruct (bool_decide _); [done|]. cbn.
    constructor; cbn; try done.
    intros o' [Hx|[= <-]]; [|lia]. pose proof (Hf o' (or_introl Hx)). lia.
  - unfold releaseSession. case_decide; [done|]. constructor; cbn; try done.
    intros o' [Hx|?]; [|done]. by apply Hf; left.
Qed.

Lemma binding_run_inv ops a : binding_inv a -> binding_inv (binding_run ops a).
Proof.
  unfold binding_run. revert a. induction ops as [|op ops IH]; cbn [fold_left]; intros a Hi; [done|].
  by apply IH, binding_step_inv.
Qed.

Lemma unbound_inv : binding_inv unbound.
Proof. constructor; cbn; [done..|]. by intros o []. Qed.

Lemma binding_step_keeps a op owner :
  activeOwner a = Some owner -> binding_inv a -> op <> op_release owner ->
  activeOwner (binding_step a op) = Some owner /\ activeReader (binding_step a op) = activeReader a
  /\ activeScopeKey (binding_step a op) = activeScopeKey a.
Proof.
  intros Ho Hi Hop. destruct op as [k r|o|r|o]; cbn [binding_step].
  - unfold bindMobileMutationAdmission. destruct (negb _); [done|].
    rewrite bool_decide_true; [done|]. apply (bi_owner _ Hi). by eexists.
  - unfold release. rewrite decide_True; [done|]. rewrite Ho. intros [= ->]. by apply Hop.
  - unfold bindMobileSessionMutationAdmission. by destruct (bool_decide _).
  - unfold releaseSession. by case_decide.
Qed.

Lemma binding_run_keeps ops a owner :
  activeOwner a = Some owner -> binding_inv a -> op_release owner ∉ ops ->
  activeOwner (binding_run ops a) = Some owner /\ activeReader (binding_run ops a) = activeReader a
  /\ activeScopeKey (binding_run ops a) = activeScopeKey a.
Proof.
  unfold binding_run. revert a. induction ops as [|op ops IH]; cbn [fold_left]; intros a Ho Hi Hops; [done|].
  apply not_elem_of_cons in Hops as [Hop Hops].
  destruct (binding_step_keeps a op owner Ho Hi) as (H1 & H2 & H3); [congruence|].
  destruct (IH (binding_step a op) H1 (binding_step_inv a op Hi) Hops) as (H4 & H5 & H6). split_and!; congruence.
Qed.

(** What admission needs. *)
Lemma admitted_spec a recovery w scopeKey domain :
  requireMobileMutationAdmission a recovery w scopeKey domain = Ok tt <->
  (exists readSession, activeSessionReader a = Some readSession
     /\ sa_scopeKey (readSession w) = Some scopeKey /\ sa_open (readSession w) = true)
  /\ (exists read, activeReader a = Some read /\ activeScopeKey a = Some scopeKey
        /\ ma_lifecycle (read w) = active /\ ma_writeAdmission (read w) = admission_open
        /\ forall d, domain = Some (mut_data d) -> ma_staleness (read w) d = fresh)
  /\ isWriteBlocked (getSnapshot (getRecoveryProjection recovery)) = false.
Proof.
  unfold requireMobileMutationAdmission.
  destruct (activeSessionReader a) as [rs|]; cbn; [|split; [done | intros ((? & ? & _) & _); done]].
  case_decide as H1; [split; [done | intros ((? & [= <-] & ? & _) & _); done]|].
  destruct (sa_open (rs w)) eqn:H2; cbn; [|split; [done | intros ((? & [= <-] & ? & ?) & _); congruence]].
  destruct (activeReader a) as [rd|]; cbn; [|split; [done | intros (_ & (? & ? & _) & _); done]].
  case_decide as H3; [split; [done | intros (_ & (? & [= <-] & ? & _) & _); done]|].
  case_decide as H4; [split; [done | intros (_ & (? & [= <-] & _ & ? & _) & _); done]|].
  destruct (ma_writeAdmission (rd w)) as [|why at_] eqn:H5;
    [|split; [done | intros (_ & (? & [= <-] & _ & _ & ? & _) & _); congruence]].
  assert (H6 : domain_staleness domain (rd w) = None <-> forall d, domain = Some (mut_data d) -> ma_staleness (rd w) d = fresh).
  { unfold domain_staleness. destruct domain as [[d|]|]; [|done|done].
    destruct (ma_staleness (rd w) d) eqn:Hd; [split; [intros _ ? [= <-]; done | done]|].
    split; [done|]. intros Hx. rewrite (Hx d eq_refl) in Hd. done. }
  destruct (domain_staleness domain (rd w)) as [[name why]|].
  - split; [done|]. intros (_ & (? & [= <-] & _ & _ & _ & Hx) & _). by apply H6 in Hx.
  - destruct (isWriteBlocked _); [split; [done | intros (_ & _ & ?); done]|].
    split; [|done]. intros _. split; [by exists rs|]. split; [|done]. exists rd. split_and!; try done. by apply H6.
Qed.

End admission.
Arguments admission : clear implicits.
Arguments binding_op : clear implicits.

(** ** Scope keys *)
Definition mobileMutationScopeKey (stationPeerId actorPtid deviceId : string) (lifecycleGeneration : Z) : result string :=
  let station := trim stationPeerId in
  let actor := trim actorPtid in
  let device := trim deviceId in
  if negb (truthy station) || negb (truthy actor) || negb (truthy device)
     || negb ((- MAX_SAFE_INTEGER <=? lifecycleGeneration) && (lifecycleGeneration <=? MAX_SAFE_INTEGER))
     || (lifecycleGeneration <=? 0)
  then Err "mobile.auth.missingIdentityScope"
  else Ok (station ++ "|" ++ actor ++ "|" ++ device ++ "|" ++ pretty lifecycleGeneration)%string.

(** A string without the separator of the parts. *)
Definition no_bar : string -> bool := no_char "|"%char.

(** Scopes whose parts hold no separator have the same key only when they agree. *)
Lemma mobileMutationScopeKey_inj s a d g s' a' d' g' k :
  no_bar (trim s) = true -> no_bar (trim a) = true -> no_bar (trim d) = true ->
  no_bar (trim s') = true -> no_bar (trim a') = true -> no_bar (trim d') = true ->
  mobileMutationScopeKey s a d g = Ok k -> mobileMutationScopeKey s' a' d' g' = Ok k ->
  trim s = trim s' /\ trim a = trim a' /\ trim d = trim d' /\ g = g'.
Proof.
  intros H1 H2 H3 H4 H5 H6. unfold mobileMutationScopeKey.
  destruct (_ || _); [done|]. intros [= <-]. destruct (_ || _); [done|]. intros [= Heq].
  apply (char_split "|"%char) in Heq as [E1 Heq]; [|done|done]. apply (char_split "|"%char) in Heq as [E2 Heq]; [|done|done].
  apply (char_split "|"%char) in Heq as [E3 Heq]; [|done|done]. split_and!; [congruence..|]. by apply (inj pretty) in Heq.
Qed.

(** ** The properties *)

(** A mutation is admitted for a scope exactly when the session reader
    answers for that scope and is open, the bound reader belongs to that scope and shows
    an active ingress with open write admission and, if the mutation names a data domain,
    a fresh projection of it, and the recovery projection, whatever was reported to it,
    shows no state at least as severe as the device-local flag. *)
Theorem mutation_admitted_iff {World} (a : admission World) calls w scopeKey domain :
  let recovery := recovery_run calls createRecoveryProjection in
  requireMobileMutationAdmission a (Some recovery) w scopeKey domain = Ok tt <->
  (exists readSession, activeSessionReader a = Some readSession
     /\ sa_scopeKey (readSession w) = Some scopeKey /\ sa_open (readSession w) = true)
  /\ (exists read, activeReader a = Some read /\ activeScopeKey a = Some scopeKey
        /\ ma_lifecycle (read w) = active /\ ma_writeAdmission (read w) = admission_open
        /\ forall d, domain = Some (mut_data d) -> ma_staleness (read w) d = fresh)
  /\ forall st, st ∈ states (getSnapshot recovery) -> 6 < severity st.
Proof.
  intros recovery. rewrite admitted_spec. cbn [getRecoveryProjection default].
  assert (Hco : coherent recovery) by (apply run_coherent, create_coherent). clearbody recovery.
  change (getRecoveryProjection (Some recovery)) with recovery.
  enough (Hb : isWriteBlocked (getSnapshot recovery) = false <->
               forall st, st ∈ states (getSnapshot recovery) -> 6 < severity st) by tauto.
  rewrite <- not_true_iff_false. destruct (rp_torn recovery) eqn:Ht.
  - destruct (co_torn recovery Hco Ht) as [_ He]. unfold getSnapshot. rewrite He. cbn.
    split; [intros _ st Hst; by apply elem_of_nil in Hst | done].
  - rewrite snapshot_blocked by done. split.
    + intros Hn st Hst. destruct (Z_le_gt_dec (severity st) 6); [|lia]. destruct Hn. by exists st.
    + intros Hall (st & Hst & Hle). pose proof (Hall st Hst). lia.
Qed.

(** C6: end to end, once an active ingress has rejected a data event, no
    mutation of that event's domain is admitted through a reader of that ingress, in any
    scope and whatever happens next to the ingress, the session or the recovery
    projection, until the domain's cursor is repaired; and once a resynchronisation signal
    was accepted, no mutation at all is admitted until every data domain was repaired. *)
Theorem mutations_fenced_until_repair {World} (a : admission World) (readIngress : World -> ingress) recovery
    scopeKey domain w i i' ops :
  activeReader a = Some (fun w => ingress_view (readIngress w)) -> readIngress w = ingress_run ops i' ->
  (exists now e, lifecycle i = active /\ ingestDataEvent now e i = (false, i')
     /\ domain = Some (mut_data (data_domain e)) /\ forall t c, op_repair t (data_domain e) c ∉ ops)
  \/ (exists now e d, (ce_kind e = resync_required \/ ce_kind e = cursor_repair) /\ lifecycle i <> torn
     /\ known_key (eventKey (control_event e)) i = false /\ ingestControlEvent now e i = (true, i')
     /\ d ∈ DATA_DOMAINS /\ forall t c, op_repair t d c ∉ ops) ->
  is_ok (requireMobileMutationAdmission a recovery w scopeKey domain) = false.
Proof.
  intros Hr Hw Hcase. destruct (requireMobileMutationAdmission _ _ _ _ _) as [[]|] eqn:Hreq; [|done]. exfalso.
  apply admitted_spec in Hreq as (_ & (read & Hread & _ & Hl & Hopen & Hfresh) & _).
  rewrite Hr in Hread. injection Hread as <-. cbn in *. rewrite Hw in *.
  destruct Hcase as [(now & e & Hli & Hi & -> & Hops) | (now & e & d & Hk & Hlt & Hnew & Hi & Hd & Hops)].
  - pose proof (rejected_stale now e i i' Hli Hi) as Hst. pose proof (run_keeps_stale ops i' _ Hops Hst) as Hst'.
    by rewrite (Hfresh _ eq_refl) in Hst'.
  - destruct (resync_closes now e i i' d Hlt Hnew Hk Hi Hd) as [Hst Hc].
    pose proof (run_stays_closed ops i' d Hd Hops Hst Hc) as Hx. by rewrite Hopen in Hx.
Qed.

(** A binding that succeeded answers for its own scope until its own
    release function is called: every other attempt to bind is refused, and the release
    function of another owner, even of an earlier one called late, has no effect. *)
Theorem binding_owned {World} ops ops' scopeKey (read : World -> MutationAdmissionState) owner a' :
  let a := binding_run ops unbound in
  bindMobileMutationAdmission scopeKey read a = Ok (owner, a') -> op_release owner ∉ ops' ->
  let a2 := binding_run ops' a' in
  activeReader a2 = Some read /\ activeScopeKey a2 = Some scopeKey /\ activeOwner a2 = Some owner
  /\ (forall k r, is_ok (bindMobileMutationAdmission k r a2) = false)
  /\ (forall o, o <> owner -> release o a2 = a2)
  /\ activeReader (release owner a2) = None.
Proof.
  intros a Hb Hops a2. assert (Hi : binding_inv a) by (apply binding_run_inv, unbound_inv).
  assert (Ha' : a' = binding_step a (op_bind scopeKey read)) by (cbn; by rewrite Hb).
  assert (Hf : activeReader a' = Some read /\ activeScopeKey a' = Some scopeKey /\ activeOwner a' = Some owner).
  { revert Hb. unfold bindMobileMutationAdmission. destruct (negb _); [done|]. destruct (_ || _); [done|]. by intros [= <- <-]. }
  destruct Hf as (H1 & H2 & H3). assert (Hi' : binding_inv a') by (rewrite Ha'; by apply binding_step_inv).
  destruct (binding_run_keeps ops' a' owner H3 Hi' Hops) as (Ho & Hr & Hs). fold a2 in Ho, Hr, Hs.
  rewrite H1 in Hr. rewrite H2 in Hs. split_and!; try done.
  - intros k r. unfold bindMobileMutationAdmission. destruct (negb _); [done|]. by rewrite Hr.
  - intros o Hne. unfold release. rewrite decide_True; [done|]. rewrite Ho. congruence.
  - unfold release. rewrite decide_False; [done|]. rewrite Ho. by intros ?.
Qed.

(** ** Witnesses *)
Definition demo_event : DataEvent :=
  {| de_body := MomentsDataEvent post_created None; de_payload := []; de_cursor := "c9"; de_timestampMs := 5 |}.

(** An ingress whose data queue is full. *)
Definition demo_full : ingress :=
  {| config := {| dataCapacity := 1; controlCapacity := 1 |}; dataQueue := [demo_event]; controlQueue := [];
     seenEventKeys := []; seenEventKeyOrder := []; pendingEventKeys := [eventKey (data_event demo_event)];
     consecutiveControlLosses := 0; writeAdmission := admission_open; streamCursor := ""; lifecycle := active;
     cursors := fun _ => emptyDomainCursor; staleness := fun _ => emptyDomainStaleness;
     processing := scheduled; notices := [] |}.

Definition demo_lost : DataEvent :=
  {| de_body := MomentsDataEvent post_deleted None; de_payload := []; de_cursor := "c10"; de_timestampMs := 6 |}.

Definition demo_session (w : ingress) : SessionAdmission :=
  {| sa_scopeKey := Some "st|ac|dv|1"; sa_open := true; sa_reason := "session_active" |}.

Definition demo_admission : admission ingress :=
  binding_run [op_bind_session demo_session; op_bind "st|ac|dv|1" ingress_view] unbound.

Definition demo_after : ingress := (ingestDataEvent 8 demo_lost demo_full).2.

Example demo_admitted_before :
  requireMobileMutationAdmission demo_admission None demo_full "st|ac|dv|1" (Some (mut_data dom_moments)) = Ok tt.
Proof. vm_compute. reflexivity. Qed.

Lemma mutations_fenced_witness :
  is_ok (requireMobileMutationAdmission demo_admission None
    (ingress_run [op_reopen; op_task 9 true] demo_after) "st|ac|dv|1" (Some (mut_data dom_moments))) = false.
Proof.
  apply (mutations_fenced_until_repair demo_admission (fun w => w) None "st|ac|dv|1" (Some (mut_data dom_moments))
    (ingress_run [op_reopen; op_task 9 true] demo_after) demo_full demo_after [op_reopen; op_task 9 true]);
    [reflexivity | reflexivity |].
  left. exists 8, demo_lost. split; [reflexivity|]. split; [|split; [reflexivity|]].
  - apply injective_projections; [vm_compute; reflexivity | reflexivity].
  - intros t c Hin. apply list_elem_of_In in Hin. destruct Hin as [|[|[]]]; discriminate.
Defined.

Lemma binding_owned_witness :
  let a := bind_result (bindMobileMutationAdmission "s1" ingress_view (unbound (World := ingress))) unbound in
  is_ok (bindMobileMutationAdmission "s2" ingress_view (release 7 a)) = false.
Proof.
  refine (proj1 (proj2 (proj2 (proj2 (binding_owned [] [op_release 7] "s1" ingress_view 0 _ eq_refl _)))) "s2" ingress_view).
  intros Hin. apply list_elem_of_In in Hin. destruct Hin as [|[]]; discriminate.
Defined.

(** A scope key. *)
Example scope_key_example : mobileMutationScopeKey " st " "ac" "dv" 12 = Ok "st|ac|dv|12"%string.
Proof. vm_compute. reflexivity. Qed.
