(* ===== verification/SocialProjection.v ===== *)
(** * The social projection runtime of the mobile app

    Models [apps/mobile/src/runtimes/socialProjectionRuntime.ts]: the owner of the event
    ingress, which routes its events, reconciles the projections of the four data domains
    one job at a time, and reopens the admission of writes. Every await is a stage of a job
    or of the handler of an event; answers come to it in any order. Calls to the stores,
    the projections and the other runtimes are a log. The notices of an ingress call are
    handled in their order when the call returns, which is the same, as no handler calls
    the ingress before its first await. *)
From Stdlib Require Import ZArith.
From Stdlib Require Strings.Byte.
From stdpp Require Import base numbers strings list.
From S2P Require Import Prelude JsString JsonValue EventIngress MutationAdmission.

Open Scope string_scope.
Open Scope list_scope.

(** ** Domains and wire events *)
Inductive ProjectionDomain : Set := p_social | p_moments | p_notification | p_profile.

#[export] Instance ProjectionDomain_eq_dec : EqDecision ProjectionDomain.
Proof. solve_decision. Defined.

Definition ingress_domain (d : ProjectionDomain) : SocialIngressDomain :=
  match d with p_social => dom_social | p_moments => dom_moments | p_notification => dom_notification | p_profile => dom_profile end.

Definition PROJECTION_DOMAINS : list ProjectionDomain := [p_social; p_moments; p_notification; p_profile].
Definition BOOTSTRAP_DOMAINS : list ProjectionDomain := [p_social; p_moments; p_notification; p_profile].

Definition projection_domain (d : SocialIngressDomain) : option ProjectionDomain :=
  match d with
  | dom_social => Some p_social | dom_moments => Some p_moments | dom_notification => Some p_notification
  | dom_profile => Some p_profile | dom_control => None
  end.

Definition projectionDomains (domains : list SocialIngressDomain) : list ProjectionDomain :=
  if decide (dom_control ∈ domains) then PROJECTION_DOMAINS else omap projection_domain domains.

Inductive GraphKind : Set :=
| friend_request_received | friend_request_accepted | friend_request_rejected | conversation_created
| unfriended | relationship_blocked | relationship_unblocked.

Definition graph_name (g : GraphKind) : string :=
  match g with
  | friend_request_received => "friend-request-received" | friend_request_accepted => "friend-request-accepted"
  | friend_request_rejected => "friend-request-rejected" | conversation_created => "conversation-created"
  | unfriended => "unfriended" | relationship_blocked => "relationship-blocked" | relationship_unblocked => "relationship-unblocked"
  end.

Definition moments_name (k : MomentsKind) : string :=
  match k with
  | post_created => "post-created" | post_reacted => "post-reacted" | post_commented => "post-commented" | post_deleted => "post-deleted"
  end.

(** The [kind] of an event of the ingress. *)
Definition event_kind_name (e : SocialIngressEvent) : string :=
  match e with
  | control_event e => control_kind_name (ce_kind e)
  | data_event e =>
      match de_body e with
      | SocialDataEvent friend_typing _ => "friend-typing" | SocialDataEvent friend_presence _ => "friend-presence"
      | SocialDataEvent friend_request _ => "friend-request" | SocialDataEvent social_relationship_changed _ => "relationship-changed"
      | MomentsDataEvent k _ => moments_name k
      | NotificationDataEvent notification_received _ => "notification-received" | NotificationDataEvent notification_read _ => "notification-read"
      | NotificationDataEvent notification_deleted _ => "notification-deleted" | NotificationDataEvent unread_count_changed _ => "unread-count-changed"
      | ProfileDataEvent profile_updated _ => "profile-updated" | ProfileDataEvent preference_changed _ => "preference-changed"
      | ProfileDataEvent avatar_changed _ => "avatar-changed" | ProfileDataEvent profile_relationship_changed _ => "relationship-changed"
      end
  end.

Inductive WireBody : Set :=
| wire_heartbeat (floorEventId : string)
| wire_messaging_wake (conversationId : string)
| wire_typing (sessionUlid fromActorPtid : string) (typing : bool)
| wire_presence (ptid : string) (online : bool)
| wire_settings_changed (conversationKind containerUlid : string)
| wire_moment (momentKind : MomentsKind) (postId authorActorPtid actorPtid commentId reactionKind : string) (removed : bool) (audience : string)
| wire_social_graph (graphKind : GraphKind) (actorPtid targetPtid requestId conversationId : string)
| wire_resync (newestEventId reason : string)
| wire_call_signal (sessionUlid fromActorPtid signalKind callId winningDeviceId : string) (payload : list Byte.byte).

Record RealtimeWireEvent : Set := { we_cursor : string; we_timestampMs : Z; we_body : WireBody }.

(** An event of the host; the kind and the reason are texts. *)
Record SocialHostEvent : Set := {
  host_kind : string; host_target : option string; host_notificationId : option string; host_reason : option string
}.

Definition text_field (name s : string) : string * Json := (name, jstring s).

Definition toIngressEvents (event : RealtimeWireEvent) : list SocialIngressEvent :=
  let data body payload := data_event {| de_body := body; de_payload := payload; de_cursor := we_cursor event; de_timestampMs := we_timestampMs event |} in
  let control kind payload := control_event {| ce_kind := kind; ce_payload := payload; ce_cursor := we_cursor event; ce_timestampMs := we_timestampMs event |} in
  match we_body event with
  | wire_heartbeat floor => [control heartbeat [text_field "floorEventId" floor]]
  | wire_messaging_wake conversationId => [control messaging_wake [text_field "conversationId" conversationId]]
  | wire_typing session from typing =>
      [data (SocialDataEvent friend_typing (Some session))
         [text_field "sessionUlid" session; text_field "fromActorPtid" from; ("typing", jbool typing)]]
  | wire_presence ptid online => [data (SocialDataEvent friend_presence None) [text_field "actorPtid" ptid; ("online", jbool online)]]
  | wire_settings_changed _ container => [control messaging_wake [text_field "conversationId" container]]
  | wire_moment kind postId author actor comment reaction removed audience =>
      [data (MomentsDataEvent kind (Some postId))
         [text_field "authorActorPtid" author; text_field "actorPtid" actor; text_field "commentId" comment;
          text_field "reactionKind" reaction; ("removed", jbool removed); text_field "audience" audience];
       data (NotificationDataEvent notification_received None) [text_field "source" "moment"; text_field "postId" postId]]
  | wire_social_graph g actor target request conversation =>
      let friendRequestEvent := match g with friend_request_received | friend_request_accepted | friend_request_rejected => true | _ => false end in
      [data (SocialDataEvent (if friendRequestEvent then friend_request else social_relationship_changed)
               (if truthy conversation then Some conversation else None))
         [text_field "graphKind" (graph_name g); text_field "actorPtid" actor; text_field "targetPtid" target; text_field "requestId" request];
       data (NotificationDataEvent notification_received None) [text_field "source" "social-graph"; text_field "graphKind" (graph_name g)];
       data (ProfileDataEvent profile_relationship_changed (Some actor)) [text_field "targetPtid" target]]
      ++ match g with friend_request_accepted => [control messaging_wake [text_field "conversationId" conversation]] | _ => [] end
  | wire_resync newest reason => [control resync_required [text_field "newestEventId" newest; text_field "reason" reason]]
  | wire_call_signal _ _ _ _ _ _ => []
  end.

Definition shouldReconcileMessaging (reason : string) : bool :=
  bool_decide (reason ∈ ["control_event_lost"; "cursor-repair"; "explicit-request"; "host-wakeup"; "periodic"; "resync-required";
                         "runtime_resume"; "stream-reconnect"]).

(** ** Calls to the outside *)
Inductive Call : Set :=
| wakeMessaging (onlyIfFailed : bool) | revalidateSession | ingestCallSignal (event : RealtimeWireEvent) | reportError (operation : string)
| socialStore_reconcile | refreshNotifications | refreshFriendRequests | refreshBlockedUsers
| applyTypingState (sessionUlid fromActorPtid : string) (typing : bool) | setPeerOnline (ptid : string) (online : bool)
| loadAuthoredPosts (ptid : string) | loadFriendshipStatus (ptid : string) | loadCurrentUserProfile (force : bool)
| loadPeerProfile (ptid : string) (force : bool) | drainProfileCacheWrites
| momentsFeed_reconcile | momentsFeed_removePost (postId : string) | moments_ingestEvent (e : DataEvent) | moments_markAvailable
| moments_markUnavailable (message : string) | moments_activate | moments_teardown
| removeMomentAuthorFromFeeds (ptid : string) | invalidatePrivateMoments (reason sourceCursor : string) (postId authorPtid : option string)
| profileProjection_reconcile | profile_ingestEvent (e : DataEvent) | profile_markUnavailable (message : string) | profile_teardown
| preferences_reconcile | preferences_teardown
| recovery_reportWriteAdmission (w : WriteAdmission) | recovery_reportIngressState.

(** How an awaited call ends: done, done without a result, done with the error of a
    projection that is unavailable, or rejected. *)
Inductive Answer : Set := a_done | a_null | a_unavailable (errorMessage : string) | a_rejected (message : string).

(** ** Jobs: what [reconcileTail] still has to run, the first one running *)

(** Which of the calls of a domain are awaited. *)
Inductive DomainStage : Set :=
| awaiting (first second : bool)
| settled (ok : bool).

Inductive JobKind : Set :=
| job_reconcile (domains : list ProjectionDomain) (reason checkpointCursor : string)
| job_revalidate (reason : string).

Inductive JobStage : Set :=
| not_started
| in_messaging
| in_session
| in_domains (messagingReady : bool) (progress : list (ProjectionDomain * DomainStage)).

Record Job : Set := { job_id : nat; job_kind : JobKind; job_stage : JobStage }.

(** ** The handler of an event: stages of calls that are awaited together *)
Inductive Action : Set :=
| a_call (c : Call)
| a_schedule (domains : list ProjectionDomain) (reason checkpointCursor : string).

Record Stage : Set := { st_actions : list Action; st_allSettled : bool }.

Inductive Wait : Set := w_call (c : Call) | w_job (id : nat).

#[export] Instance Wait_is_job id : forall w, Decision (w = w_job id).
Proof. intros [c|i]; [by right | destruct (decide (i = id)) as [->|]; [by left | right; congruence]]. Defined.

Inductive Handler : Set :=
| no_handler
| running (waits : list Wait) (allSettled : bool) (rest : list Stage)
| handled (ok : bool).

(** ** The runtime *)
Inductive ActiveRuntime : Set := none_active | this_active | other_active.

#[export] Instance ActiveRuntime_eq_dec : EqDecision ActiveRuntime.
Proof. solve_decision. Defined.

(** Where [teardown] is between its awaits. *)
Inductive Teardown : Set := no_teardown | await_drain | await_tail (before : nat) | await_cache | torn_down.

Record Runtime : Set := {
  sessionKey : string;
  ingress_of : ingress;
  is_torn : bool;
  jobs : list Job;
  next_job : nat;
  handler : Handler;
  activeRuntime : ActiveRuntime;
  tearing : Teardown;
  currentUserPtid : string;
  calls : list Call
}.

Definition with_ingress (i : ingress) (r : Runtime) : Runtime :=
  {| sessionKey := sessionKey r; ingress_of := i; is_torn := is_torn r; jobs := jobs r; next_job := next_job r; handler := handler r;
     activeRuntime := activeRuntime r; tearing := tearing r; currentUserPtid := currentUserPtid r; calls := calls r |}.
Definition with_torn (r : Runtime) : Runtime :=
  {| sessionKey := sessionKey r; ingress_of := ingress_of r; is_torn := true; jobs := jobs r; next_job := next_job r; handler := handler r;
     activeRuntime := activeRuntime r; tearing := tearing r; currentUserPtid := currentUserPtid r; calls := calls r |}.
Definition with_jobs (l : list Job) (n : nat) (r : Runtime) : Runtime :=
  {| sessionKey := sessionKey r; ingress_of := ingress_of r; is_torn := is_torn r; jobs := l; next_job := n; handler := handler r;
     activeRuntime := activeRuntime r; tearing := tearing r; currentUserPtid := currentUserPtid r; calls := calls r |}.
Definition with_handler (h : Handler) (r : Runtime) : Runtime :=
  {| sessionKey := sessionKey r; ingress_of := ingress_of r; is_torn := is_torn r; jobs := jobs r; next_job := next_job r; handler := h;
     activeRuntime := activeRuntime r; tearing := tearing r; currentUserPtid := currentUserPtid r; calls := calls r |}.
Definition with_active (a : ActiveRuntime) (r : Runtime) : Runtime :=
  {| sessionKey := sessionKey r; ingress_of := ingress_of r; is_torn := is_torn r; jobs := jobs r; next_job := next_job r; handler := handler r;
     activeRuntime := a; tearing := tearing r; currentUserPtid := currentUserPtid r; calls := calls r |}.
Definition with_tearing (t : Teardown) (r : Runtime) : Runtime :=
  {| sessionKey := sessionKey r; ingress_of := ingress_of r; is_torn := is_torn r; jobs := jobs r; next_job := next_job r; handler := handler r;
     activeRuntime := activeRuntime r; tearing := t; currentUserPtid := currentUserPtid r; calls := calls r |}.
Definition with_user (u : string) (r : Runtime) : Runtime :=
  {| sessionKey := sessionKey r; ingress_of := ingress_of r; is_torn := is_torn r; jobs := jobs r; next_job := next_job r; handler := handler r;
     activeRuntime := activeRuntime r; tearing := tearing r; currentUserPtid := u; calls := calls r |}.
Definition call (c : Call) (r : Runtime) : Runtime :=
  {| sessionKey := sessionKey r; ingress_of := ingress_of r; is_torn := is_torn r; jobs := jobs r; next_job := next_job r; handler := handler r;
     activeRuntime := activeRuntime r; tearing := tearing r; currentUserPtid := currentUserPtid r; calls := calls r ++ [c] |}.
Definition call_all (cs : list Call) (r : Runtime) : Runtime := fold_left (fun r c => call c r) cs r.

(** ** Scheduling and handlers *)
Definition push_job (k : JobKind) (r : Runtime) : Runtime :=
  with_jobs (jobs r ++ [{| job_id := next_job r; job_kind := k; job_stage := not_started |}]) (S (next_job r)) r.

(** The promise it returns is the one of job [next_job r]. *)
Definition scheduleReconcile (domains : list ProjectionDomain) (reason checkpointCursor : string) (r : Runtime) : Runtime :=
  push_job (job_reconcile domains reason checkpointCursor) r.

Definition enqueueReconcile (domains : list SocialIngressDomain) (reason checkpointCursor : string) (r : Runtime) : Runtime :=
  scheduleReconcile (projectionDomains domains) reason checkpointCursor r.

Definition enqueueSessionRevalidation (reason : string) (r : Runtime) : Runtime := push_job (job_revalidate reason) r.

Fixpoint start_actions (actions : list Action) (r : Runtime) : list Wait * Runtime :=
  match actions with
  | [] => ([], r)
  | a :: actions =>
      let '(w, r) := match a with
        | a_call c => (w_call c, call c r)
        | a_schedule domains reason cursor => (w_job (next_job r), scheduleReconcile domains reason cursor r)
        end in
      let '(ws, r) := start_actions actions r in (w :: ws, r)
  end.

(** Starts the next stage that has something to wait for. *)
Fixpoint launch (stages : list Stage) (r : Runtime) : Runtime :=
  match stages with
  | [] => with_handler (handled true) r
  | s :: rest =>
      let '(ws, r) := start_actions (st_actions s) r in
      match ws with [] => launch rest r | _ => with_handler (running ws (st_allSettled s) rest) r end
  end.

(** The [k]-th call the handler waits for has settled. *)
Definition wait_settled (k : nat) (ok : bool) (r : Runtime) : Runtime :=
  match handler r with
  | running waits all rest =>
      if ok || all then match delete k waits with [] => launch rest r | ws => with_handler (running ws all rest) r end
      else with_handler (handled false) r
  | _ => r
  end.

(** ** Routing of events *)
Definition optionalString (v : option Json) : string := match v with Some (jstring s) => s | _ => "" end.

Definition requireString (payload : list (string * Json)) (key : string) : result string :=
  match assoc_get key payload with
  | Some (jstring s) => if truthy s then Ok s else Err ("mobile.social.invalidIngressPayload:" ++ key)
  | _ => Err ("mobile.social.invalidIngressPayload:" ++ key)
  end.

Definition requireBoolean (payload : list (string * Json)) (key : string) : result bool :=
  match assoc_get key payload with Some (jbool b) => Ok b | _ => Err ("mobile.social.invalidIngressPayload:" ++ key) end.

(** [Promise.all], and one awaited call. *)
Definition all (l : list Action) : Stage := {| st_actions := l; st_allSettled := false |}.
Definition await (c : Call) : Stage := all [a_call c].

(** The calls a handler makes before its first await, and its stages. *)
Definition Routed : Type := list Call * list Stage.

Definition invalidateCurrentMomentAuthor (authorPtid reason sourceCursor : string) (r : Runtime) : Routed :=
  if decide (activeRuntime r = none_active) then ([], [])
  else ([removeMomentAuthorFromFeeds authorPtid], [await (invalidatePrivateMoments reason sourceCursor None (Some authorPtid))]).

Definition relationship_changed (payload : list (string * Json)) (cursor : string) (r : Runtime) : Routed :=
  let actorPtid := optionalString (assoc_get "actorPtid" payload) in
  let targetPtid := optionalString (assoc_get "targetPtid" payload) in
  let graphKind := optionalString (assoc_get "graphKind" payload) in
  let peerPtid := if decide (actorPtid = currentUserPtid r) then targetPtid else actorPtid in
  let revocationReason :=
    if decide (graphKind = "relationship-blocked") then Some "RECIPIENT_BLOCKED"
    else if decide (graphKind = "unfriended") then Some "RELATIONSHIP_REVOKED" else None in
  let '(now, first) := match revocationReason with
    | Some why => if truthy peerPtid then invalidateCurrentMomentAuthor peerPtid why cursor r else ([], [])
    | None => ([], [])
    end in
  (now, first ++
    [all ([a_call refreshBlockedUsers; a_call refreshFriendRequests]
          ++ (if truthy peerPtid then [a_call (loadAuthoredPosts peerPtid); a_call (loadFriendshipStatus peerPtid)] else [])
          ++ [a_schedule [p_moments] graphKind cursor]);
     await (wakeMessaging false)]).

Definition routeSocialEvent (kind : SocialKind) (e : DataEvent) (r : Runtime) : result Routed :=
  match kind with
  | friend_typing =>
      session ← requireString (de_payload e) "sessionUlid";
      from ← requireString (de_payload e) "fromActorPtid";
      typing ← requireBoolean (de_payload e) "typing";
      Ok ([applyTypingState session from typing], [])
  | friend_presence =>
      actor ← requireString (de_payload e) "actorPtid";
      online ← requireBoolean (de_payload e) "online";
      Ok ([setPeerOnline actor online], [])
  | friend_request => Ok ([], [all [a_call refreshFriendRequests; a_call refreshNotifications]])
  | social_relationship_changed => Ok (relationship_changed (de_payload e) (de_cursor e) r)
  end.

Definition reconcileProfileEvent (actorPtid : option string) (e : DataEvent) (r : Runtime) : list Stage :=
  let ptids := match actorPtid with Some p => if truthy p then js_set_add p [] else [] | None => [] end in
  let targetPtid := optionalString (assoc_get "targetPtid" (de_payload e)) in
  let ptids := if truthy targetPtid then js_set_add targetPtid ptids else ptids in
  let refreshCurrentProfile := truthy (currentUserPtid r) && js_set_has (currentUserPtid r) ptids in
  let ptids := if truthy (currentUserPtid r) then js_set_delete (currentUserPtid r) ptids else ptids in
  {| st_actions := (fun ptid => a_call (loadPeerProfile ptid true)) <$> ptids; st_allSettled := true |}
  :: (if refreshCurrentProfile then [await profileProjection_reconcile; await (loadCurrentUserProfile true)] else []).

(** The await of [reconcileNotificationPreferences] is the one of the projection, rejected
    when the result is not ok. *)
Definition routeIngressEvent (event : SocialIngressEvent) (r : Runtime) : result Routed :=
  if is_torn r then Ok ([], [])
  else
    match event with
    | data_event e =>
        match de_body e with
        | SocialDataEvent kind _ => routeSocialEvent kind e r
        | MomentsDataEvent kind postId =>
            let deleted := match kind, postId with post_deleted, Some id => if truthy id then Some id else None | _, _ => None end in
            Ok (moments_ingestEvent e :: match deleted with Some id => [momentsFeed_removePost id] | None => [] end,
                match deleted with Some id => [await (invalidatePrivateMoments "RESOURCE_DELETED" (de_cursor e) (Some id) None)] | None => [] end
                ++ [all [a_schedule [p_moments] (moments_name kind) (de_cursor e)]])
        | NotificationDataEvent _ _ => Ok ([], [await refreshNotifications])
        | ProfileDataEvent preference_changed _ => Ok ([], [await preferences_reconcile])
        | ProfileDataEvent _ actorPtid => Ok ([profile_ingestEvent e], reconcileProfileEvent actorPtid e r)
        end
    | control_event e =>
        match ce_kind e with
        | session_revalidate => Ok ([], [await revalidateSession])
        | messaging_wake | resync_required => Ok ([], [await (wakeMessaging false)])
        | _ => Ok ([], [])
        end
    end.

Definition start_handler (event : SocialIngressEvent) (r : Runtime) : Runtime :=
  match routeIngressEvent event r with
  | Ok (now, stages) => launch stages (call_all now r)
  | Err _ => with_handler (handled false) r
  end.

(** ** Calls of the ingress *)
Definition notice (n : IngressNotice) (r : Runtime) : Runtime :=
  match n with
  | note_event e => start_handler e r
  | note_staleness _ _ => call recovery_reportIngressState r
  | note_admission w => call (recovery_reportWriteAdmission w) r
  | note_reconcile domains reason cursor => enqueueReconcile domains reason cursor r
  | note_revalidate reason => enqueueSessionRevalidation reason r
  | note_handler_error e => call (reportError ("ingress:" ++ domain_name (event_domain e) ++ ":" ++ event_kind_name e)) r
  end.

(** An operation of the ingress, with the callbacks it makes. *)
Definition on_ingress (f : ingress -> ingress) (r : Runtime) : Runtime :=
  let before := ingress_of r in
  let after := f before in
  fold_left (fun r n => notice n r) (drop (length (notices before)) (notices after)) (with_ingress after r).

(** ** Jobs *)
Definition set_stage (s : JobStage) (r : Runtime) : Runtime :=
  match jobs r with
  | j :: rest => with_jobs ({| job_id := job_id j; job_kind := job_kind j; job_stage := s |} :: rest) (next_job r) r
  | [] => r
  end.

(** The first job is done: the handler that waits for it goes on. *)
Definition finish_job (r : Runtime) : Runtime :=
  match jobs r with
  | [] => r
  | j :: rest =>
      let r := with_jobs rest (next_job r) r in
      match handler r with
      | running waits _ _ => match list_find (fun w => w = w_job (job_id j)) waits with Some (k, _) => wait_settled k true r | None => r end
      | _ => r
      end
  end.

Definition unique_domains (domains : list ProjectionDomain) : list ProjectionDomain :=
  fold_left (fun acc d => if decide (d ∈ acc) then acc else acc ++ [d]) domains [].

(** The calls [reconcileDomain] makes before its first await. *)
Definition domain_calls (d : ProjectionDomain) : list Call :=
  match d with
  | p_social => [socialStore_reconcile]
  | p_moments => [momentsFeed_reconcile]
  | p_notification => [refreshNotifications; preferences_reconcile]
  | p_profile => [profileProjection_reconcile]
  end.

Definition first_stage (d : ProjectionDomain) : DomainStage := awaiting true (bool_decide (d = p_notification)).

(** The end of [reconcileDomains]. *)
Definition finish_domains (messagingReady : bool) (results : list bool) (r : Runtime) : Runtime :=
  let r := if negb (is_torn r) && messagingReady && forallb id results then on_ingress reopenAdmission r else r in
  let r := if is_torn r then r else call recovery_reportIngressState r in
  finish_job r.

Definition results_of (progress : list (ProjectionDomain * DomainStage)) : option (list bool) :=
  mapM (fun p => match p.2 with settled ok => Some ok | awaiting _ _ => None end) progress.

Definition check_domains (messagingReady : bool) (progress : list (ProjectionDomain * DomainStage)) (r : Runtime) : Runtime :=
  match results_of progress with
  | Some results => finish_domains messagingReady results r
  | None => set_stage (in_domains messagingReady progress) r
  end.

Definition start_domains (domains : list ProjectionDomain) (messagingReady : bool) (r : Runtime) : Runtime :=
  let uniqueDomains := unique_domains domains in
  let r := call_all (concat (domain_calls <$> uniqueDomains)) r in
  check_domains messagingReady ((fun d => (d, first_stage d)) <$> uniqueDomains) r.

(** The first job starts, in the [then] of the one before. *)
Definition start_job (r : Runtime) : Runtime :=
  match jobs r with
  | {| job_kind := k; job_stage := not_started |} :: _ =>
      if is_torn r then finish_job r
      else
        match k with
        | job_revalidate _ => set_stage in_session (call revalidateSession r)
        | job_reconcile domains reason _ =>
            if shouldReconcileMessaging reason
            then set_stage in_messaging (call (wakeMessaging (bool_decide (reason = "periodic"))) r)
            else start_domains domains true r
        end
  | _ => r
  end.

Definition answer_session (ok : bool) (r : Runtime) : Runtime :=
  match jobs r with
  | {| job_kind := job_revalidate reason; job_stage := in_session |} :: _ =>
      finish_job (if ok then r else call (reportError ("session-revalidate:" ++ reason)) r)
  | _ => r
  end.

Definition answer_messaging (ok : bool) (r : Runtime) : Runtime :=
  match jobs r with
  | {| job_kind := job_reconcile domains reason _; job_stage := in_messaging |} :: _ =>
      let r := if ok then r else call (reportError ("reconcile:messaging:" ++ reason)) r in
      if is_torn r then finish_job r else start_domains domains ok r
  | _ => r
  end.

(** What an answer means for [reconcileDomain]. *)
Inductive Verdict : Set :=
| v_wait (first second : bool) (made : list Call)
| v_done (ok : bool) (made : list Call)
| v_failed (message : string).

Definition reconcileDomain (torn : bool) (d : ProjectionDomain) (first second which : bool) (a : Answer) : Verdict :=
  match a with
  | a_rejected m => v_failed m
  | a_unavailable m =>
      match d with
      | p_moments => if torn then v_done false [] else v_failed (if truthy m then m else "mobile.moments.unavailable")
      | _ => v_failed m
      end
  | a_null | a_done =>
      match d with
      | p_social => v_done true []
      | p_moments =>
          if torn then v_done false []
          else match a with a_null => v_done false [] | _ => v_done true [moments_markAvailable] end
      | p_notification =>
          let first := first && which in
          let second := second && negb which in
          if first || second then v_wait first second [] else v_done true []
      | p_profile => if first then v_wait false true [loadCurrentUserProfile true] else v_done true []
      end
  end.

(** The [catch] block of a domain. *)
Definition domain_failed (now : Z) (d : ProjectionDomain) (reason checkpointCursor message : string) (r : Runtime) : Runtime :=
  if is_torn r then r
  else
    let r := on_ingress (markStale now (ingress_domain d) (reason ++ ":reconcile_failed") (Some checkpointCursor) false) r in
    let r := match d with p_moments => call (moments_markUnavailable message) r | p_profile => call (profile_markUnavailable message) r | _ => r end in
    call (reportError ("reconcile:" ++ domain_name (ingress_domain d) ++ ":" ++ reason)) r.

Definition set_progress (d : ProjectionDomain) (s : DomainStage) (progress : list (ProjectionDomain * DomainStage)) : list (ProjectionDomain * DomainStage) :=
  (fun p => if decide (p.1 = d) then (d, s) else p) <$> progress.

Definition stage_of (d : ProjectionDomain) (progress : list (ProjectionDomain * DomainStage)) : option DomainStage :=
  snd <$> find (fun p => bool_decide (p.1 = d)) progress.

(** The first ([which] false) or second call of the domain [d] has settled. *)
Definition answer_domain (now : Z) (d : ProjectionDomain) (which : bool) (a : Answer) (r : Runtime) : Runtime :=
  match jobs r with
  | {| job_kind := job_reconcile _ reason cursor; job_stage := in_domains ready progress |} :: _ =>
      match stage_of d progress with
      | Some (awaiting first second) =>
          if negb (if which then second else first) then r
          else
            match reconcileDomain (is_torn r) d first second which a with
            | v_wait first second made => set_stage (in_domains ready (set_progress d (awaiting first second) progress)) (call_all made r)
            | v_done ok made =>
                let r := call_all made r in
                let r := if ok && negb (is_torn r) then on_ingress (repairCursor now (ingress_domain d) cursor) r else r in
                check_domains ready (set_progress d (settled ok) progress) r
            | v_failed message =>
                check_domains ready (set_progress d (settled false) progress) (domain_failed now d reason cursor message r)
            end
      | _ => r
      end
  | _ => r
  end.

(** The answer to the [k]-th call the handler waits for. *)
Definition answer_handler (k : nat) (ok : bool) (r : Runtime) : Runtime :=
  match handler r with
  | running waits _ _ => match waits !! k with Some (w_call _) => wait_settled k ok r | _ => r end
  | _ => r
  end.

(** A task of the drain: past an event only when its handler has settled. *)
Definition drain (now : Z) (r : Runtime) : Runtime :=
  match processing (ingress_of r) with
  | handling _ =>
      match handler r with
      | handled ok => on_ingress (drain_task now ok) (with_handler no_handler r)
      | _ => r
      end
  | idle => r
  | _ => on_ingress (drain_task now true) r
  end.

(** ** The operations of the controller *)
Definition ingest (now : Z) (event : SocialIngressEvent) : ingress -> ingress :=
  match event with
  | control_event e => fun i => (ingestControlEvent now e i).2
  | data_event e => fun i => (ingestDataEvent now e i).2
  end.

Definition ingestRealtimeEvent (now : Z) (event : RealtimeWireEvent) (r : Runtime) : Runtime :=
  match we_body event with
  | wire_call_signal _ _ _ _ _ _ => call (ingestCallSignal event) r
  | _ => fold_left (fun r e => on_ingress (ingest now e) r) (toIngressEvents event) r
  end.

Definition socialHostEventTargetsNotifications (event : SocialHostEvent) : bool :=
  truthy (default "" (host_notificationId event)) || bool_decide (host_target event = Some "notification")
  || bool_decide (host_kind event = "push") || bool_decide (host_kind event = "notification-tap").

Definition dispatchExternalEvent (now : Z) (event : SocialHostEvent) (r : Runtime) : Runtime :=
  let payload := [text_field "reason" (default (host_kind event) (host_reason event))] in
  let r :=
    if socialHostEventTargetsNotifications event
    then on_ingress (ingest now (data_event {| de_body := NotificationDataEvent notification_received (host_notificationId event);
                                               de_payload := payload; de_cursor := ""; de_timestampMs := now |})) r
    else r in
  let kind := if bool_decide (host_kind event = "app-resume") || bool_decide (host_kind event = "network-online") then resync_required else host_wakeup in
  on_ingress (ingest now (control_event {| ce_kind := kind; ce_payload := payload; ce_cursor := ""; ce_timestampMs := now |})) r.

Definition requestCurrentUserProfile (force : bool) (r : Runtime) : Runtime := call (loadCurrentUserProfile force) r.

Definition requestPeerProfiles (peerPtids : list string) (force : bool) (r : Runtime) : Runtime :=
  let uniquePtids := fold_left (fun l p => js_set_add p l) (filter (fun p => truthy p) (trim <$> peerPtids)) [] in
  call_all ((fun ptid => loadPeerProfile ptid force) <$> uniquePtids) r.

Definition requestFriendshipStatus (targetPtid : string) (r : Runtime) : Runtime :=
  let ptid := trim targetPtid in if truthy ptid then call (loadFriendshipStatus ptid) r else r.

(** [suspend] and [resume] up to their awaits, after which only the recovery projection is told. *)
Definition suspend (now : Z) (r : Runtime) : Runtime := on_ingress (EventIngress.suspend now) r.
Definition resume (r : Runtime) : Runtime := on_ingress EventIngress.resume r.
Definition reconcile (reason : string) (domains : list ProjectionDomain) (r : Runtime) : Runtime :=
  scheduleReconcile domains reason (streamCursor (ingress_of r)) r.

(** The runtime, the admission of mutations it binds and the release of that binding. *)
Record App : Type := { runtime : Runtime; admission_of : admission Runtime; releaseMutationAdmission : option nat }.

Definition with_runtime (r : Runtime) (a : App) : App :=
  {| runtime := r; admission_of := admission_of a; releaseMutationAdmission := releaseMutationAdmission a |}.
Definition on_runtime (f : Runtime -> Runtime) (a : App) : App := with_runtime (f (runtime a)) a.

Definition readIngressState (r : Runtime) : MutationAdmissionState := ingress_view (ingress_of r).

(** [releaseMutationAdmission ??= bindMobileMutationAdmission(...)] *)
Definition bind_admission (a : App) : result App :=
  match releaseMutationAdmission a with
  | Some _ => Ok a
  | None =>
      match bindMobileMutationAdmission (sessionKey (runtime a)) readIngressState (admission_of a) with
      | Ok (owner, adm) => Ok {| runtime := runtime a; admission_of := adm; releaseMutationAdmission := Some owner |}
      | Err e => Err e
      end
  end.

(** Up to its await. *)
Definition bootstrap (a : App) : result App :=
  if decide (activeRuntime (runtime a) = other_active) then Err "mobile.social.projectionRuntimeAlreadyActive"
  else
    match bind_admission a with
    | Ok a => Ok (on_runtime (fun r => scheduleReconcile BOOTSTRAP_DOMAINS "bootstrap" "" (call moments_activate (with_active this_active r))) a)
    | Err e => Err e
    end.

Definition teardown (r : Runtime) : Runtime :=
  if is_torn r then r else with_tearing await_drain (on_ingress EventIngress.teardown (with_torn r)).

(** [teardown] past the await it has come to, when that has ended. The drain of the cache
    writes never rejects, as every write catches its error. *)
Definition continue_teardown (a : App) : App :=
  let r := runtime a in
  match tearing r with
  | await_drain => match processing (ingress_of r) with idle => with_runtime (with_tearing (await_tail (next_job r)) r) a | _ => a end
  | await_tail before =>
      if forallb (fun j => before <=? job_id j)%nat (jobs r) then with_runtime (with_tearing await_cache (call drainProfileCacheWrites r)) a else a
  | await_cache =>
      let r := call_all [moments_teardown; preferences_teardown; profile_teardown] r in
      let r := if decide (activeRuntime r = this_active) then with_active none_active r else r in
      {| runtime := with_tearing torn_down r;
         admission_of := match releaseMutationAdmission a with Some owner => release owner (admission_of a) | None => admission_of a end;
         releaseMutationAdmission := None |}
  | _ => a
  end.

Definition createSocialProjectionRuntime (key : string) (i : ingress) : Runtime :=
  {| sessionKey := key; ingress_of := i; is_torn := false; jobs := []; next_job := 0; handler := no_handler;
     activeRuntime := none_active; tearing := no_teardown; currentUserPtid := ""; calls := [] |}.

(** ** Histories *)

(** What may happen: calls of the controller, tasks, and answers. Another runtime becomes
    active only while none is, and ends only itself. *)
Inductive Op : Type :=
| o_realtime (now : Z) (event : RealtimeWireEvent)
| o_external (now : Z) (event : SocialHostEvent)
| o_control (now : Z) (e : ControlEvent)
| o_request (c : Call)
| o_bootstrap
| o_suspend (now : Z)
| o_resume
| o_reconcile (reason : string) (domains : list ProjectionDomain)
| o_teardown
| o_continue
| o_drain (now : Z)
| o_start_job
| o_session (ok : bool)
| o_messaging (ok : bool)
| o_domain (now : Z) (d : ProjectionDomain) (which : bool) (a : Answer)
| o_handler (k : nat) (ok : bool)
| o_user (ptid : string)
| o_other (is_active : bool).

Definition runtime_step (o : Op) (r : Runtime) : Runtime :=
  match o with
  | o_realtime now event => ingestRealtimeEvent now event r
  | o_external now event => dispatchExternalEvent now event r
  | o_control now e => on_ingress (ingest now (control_event e)) r
  | o_request c => call c r
  | o_suspend now => suspend now r
  | o_resume => resume r
  | o_reconcile reason domains => reconcile reason domains r
  | o_teardown => teardown r
  | o_drain now => drain now r
  | o_start_job => start_job r
  | o_session ok => answer_session ok r
  | o_messaging ok => answer_messaging ok r
  | o_domain now d which a => answer_domain now d which a r
  | o_handler k ok => answer_handler k ok r
  | o_user ptid => with_user ptid r
  | o_other is_active =>
      match activeRuntime r with
      | this_active => r
      | _ => with_active (if is_active then other_active else none_active) r
      end
  | o_bootstrap | o_continue => r
  end.

Definition app_step (a : App) (o : Op) : App :=
  match o with
  | o_bootstrap => match bootstrap a with Ok a => a | Err _ => a end
  | o_continue => continue_teardown a
  | _ => on_runtime (runtime_step o) a
  end.

Definition app_run (ops : list Op) (a : App) : App := fold_left app_step ops a.
