(* ===== verification/SocialProjectionFacts.v ===== *)
(** * Facts about the social projection runtime

    What the callbacks of the ingress change ([grows]), which operations of the ingress a
    step of the runtime makes ([ingress_ops]), and the order of the jobs. *)
From Stdlib Require Import Lia ZArith.
From stdpp Require Import base numbers strings list.
From S2P Require Import Prelude JsString JsonValue EventIngress EventIngressFacts MutationAdmission SocialProjection.

Open Scope string_scope.
Open Scope list_scope.

(** ** Callbacks only add jobs *)

(** [r'] comes from [r] by calls, new jobs and steps of the handler. *)
Record grows (r r' : Runtime) : Prop := {
  gr_ingress : ingress_of r' = ingress_of r;
  gr_torn : is_torn r' = is_torn r;
  gr_tearing : tearing r' = tearing r;
  gr_active : activeRuntime r' = activeRuntime r;
  gr_key : sessionKey r' = sessionKey r;
  gr_user : currentUserPtid r' = currentUserPtid r;
  gr_jobs : exists new, jobs r' = jobs r ++ new /\ Forall (fun j => job_stage j = not_started) new
    /\ job_id <$> new = seq (next_job r) (length new) /\ next_job r' = (next_job r + length new)%nat
}.

#[export] Instance grows_preorder : PreOrder grows.
Proof.
  split.
  - intros r. constructor; try done. exists []. rewrite app_nil_r. by split_and!.
  - intros r1 r2 r3 [? ? ? ? ? ? (n1 & Hj1 & Hs1 & Hi1 & Hn1)] [? ? ? ? ? ? (n2 & Hj2 & Hs2 & Hi2 & Hn2)]. constructor; try congruence.
    exists (n1 ++ n2). rewrite Hj2, Hj1, length_app, <- (assoc_L (++)). split_and!; [done | by apply Forall_app | | lia].
    by rewrite fmap_app, seq_app, Hi1, Hi2, Hn1.
Qed.

(** Changes of the handler and the log alone. *)
Lemma grows_same r r' :
  ingress_of r' = ingress_of r -> is_torn r' = is_torn r -> tearing r' = tearing r -> activeRuntime r' = activeRuntime r ->
  sessionKey r' = sessionKey r -> currentUserPtid r' = currentUserPtid r -> jobs r' = jobs r -> next_job r' = next_job r -> grows r r'.
Proof. intros. constructor; try done. exists []. rewrite app_nil_r. split_and!; try done. cbn. lia. Qed.

Lemma grows_call c r : grows r (call c r).
Proof. by apply grows_same. Qed.

Lemma grows_handler h r : grows r (with_handler h r).
Proof. by apply grows_same. Qed.

Lemma grows_push k r : grows r (push_job k r).
Proof. constructor; try done. exists [{| job_id := next_job r; job_kind := k; job_stage := not_started |}]. split_and!; try done; [by repeat constructor | cbn; lia]. Qed.

Lemma grows_with_ingress i r r' : grows r r' -> grows (with_ingress i r) (with_ingress i r').
Proof. intros []. by constructor. Qed.

Create HintDb grows discriminated.
#[export] Hint Resolve grows_call grows_handler grows_push : grows.

Lemma grows_calls cs r : grows r (call_all cs r).
Proof. unfold call_all. revert r. induction cs as [|c cs IH]; intros r; cbn [fold_left]; [done|]. etrans; [apply grows_call | apply IH]. Qed.

Lemma grows_actions l r : grows r (start_actions l r).2.
Proof.
  revert r. induction l as [|a l IH]; intros r; cbn [start_actions]; [done|].
  destruct a as [c|ds why cp]; cbn iota beta.
  - pose proof (IH (call c r)) as H. destruct (start_actions l (call c r)) as [ws r']. etrans; [apply grows_call | exact H].
  - pose proof (IH (scheduleReconcile ds why cp r)) as H. destruct (start_actions l (scheduleReconcile ds why cp r)) as [ws r'].
    etrans; [apply grows_push | exact H].
Qed.

Lemma grows_launch stages r : grows r (launch stages r).
Proof.
  revert r. induction stages as [|s rest IH]; intros r; cbn [launch]; [apply grows_handler|].
  pose proof (grows_actions (st_actions s) r) as H. destruct (start_actions (st_actions s) r) as [[|w ws] r']; cbn [snd] in H.
  - etrans; [exact H | apply IH].
  - etrans; [exact H | apply grows_handler].
Qed.

Lemma grows_wait k ok r : grows r (wait_settled k ok r).
Proof.
  unfold wait_settled. destruct (handler r) as [|ws all rest|]; try done. destruct (ok || all); [|apply grows_handler].
  destruct (delete k ws); [apply grows_launch | apply grows_handler].
Qed.

Lemma grows_start e r : grows r (start_handler e r).
Proof.
  unfold start_handler. destruct (routeIngressEvent e r) as [[now stages]|]; [|apply grows_handler].
  etrans; [apply grows_calls | apply grows_launch].
Qed.

Lemma grows_notice n r : grows r (notice n r).
Proof. destruct n; cbn [notice]; first [apply grows_start | apply grows_push | apply grows_call]. Qed.

Lemma grows_notices ns r : grows r (fold_left (fun r n => notice n r) ns r).
Proof. revert r. induction ns as [|n ns IH]; intros r; cbn [fold_left]; [done|]. etrans; [apply grows_notice | apply IH]. Qed.

#[export] Hint Resolve grows_calls grows_launch grows_wait grows_start grows_notices : grows.

Lemma on_ingress_grows f r : grows (with_ingress (f (ingress_of r)) r) (on_ingress f r).
Proof. apply grows_notices. Qed.

Lemma on_ingress_state f r : ingress_of (on_ingress f r) = f (ingress_of r).
Proof. by rewrite (gr_ingress _ _ (on_ingress_grows f r)). Qed.

Lemma on_ingress_torn f r : is_torn (on_ingress f r) = is_torn r.
Proof. by rewrite (gr_torn _ _ (on_ingress_grows f r)). Qed.

(** A reconcile the ingress asks for becomes a new job. *)
Lemma notices_schedule ns r ds why cp : note_reconcile ds why cp ∈ ns ->
  exists extra, jobs (fold_left (fun r n => notice n r) ns r) = jobs r ++ extra
  /\ exists j, j ∈ extra /\ job_kind j = job_reconcile (projectionDomains ds) why cp /\ job_stage j = not_started.
Proof.
  revert r. induction ns as [|n ns IH]; intros r Hin; [by apply elem_of_nil in Hin|]. cbn [fold_left].
  destruct (gr_jobs _ _ (grows_notice n r)) as (e1 & He1 & _). apply elem_of_cons in Hin as [<-|Hin].
  - destruct (gr_jobs _ _ (grows_notices ns (notice (note_reconcile ds why cp) r))) as (e2 & He2 & _).
    cbn [notice enqueueReconcile scheduleReconcile push_job jobs with_jobs] in He2. eexists. split; [rewrite <- (assoc_L (++)) in He2; exact He2|].
    eexists. split; [by left | done].
  - destruct (IH (notice n r) Hin) as (e2 & He2 & j & Hj & Hk). exists (e1 ++ e2). rewrite He2, He1, <- (assoc_L (++)). split; [done|].
    exists j. split; [apply elem_of_app; by right | done].
Qed.

(** ** Jobs run in order *)

(** The jobs are the last ones numbered, and only the first may have started. *)
Record jobs_inv (r : Runtime) : Prop := {
  ji_ids : exists n, job_id <$> jobs r = seq n (length (jobs r)) /\ next_job r = (n + length (jobs r))%nat;
  ji_rest : Forall (fun j => job_stage j = not_started) (tail (jobs r))
}.

Lemma jobs_grow r r' : grows r r' -> jobs_inv r -> jobs_inv r'.
Proof.
  intros [_ _ _ _ _ _ (new & Hj & Hs & Hi & Hn)] [(n & Hids & Hnext) Hrest]. constructor.
  - exists n. rewrite Hj, fmap_app, length_app, seq_app, Hids, Hi, Hn, Hnext. split; [done | lia].
  - rewrite Hj. destruct (jobs r); cbn in *; [by destruct new; [|inversion Hs] | by apply Forall_app].
Qed.

Lemma jobs_same r r' : jobs r' = jobs r -> next_job r' = next_job r -> jobs_inv r -> jobs_inv r'.
Proof. intros Hj Hn [Hi Hr]. constructor; by rewrite ?Hj, ?Hn. Qed.

Lemma jobs_ingress f r : jobs_inv r -> jobs_inv (on_ingress f r).
Proof. intros Hi. eapply jobs_grow; [apply on_ingress_grows|]. by apply (jobs_same r). Qed.

Lemma jobs_stage s r : jobs_inv r -> jobs_inv (set_stage s r).
Proof.
  intros [(n & Hids & Hnext) Hrest]. unfold set_stage. destruct (jobs r) as [|j rest] eqn:Hj; constructor; rewrite ?Hj; try done.
  by exists n. by exists n.
Qed.

Lemma jobs_finish r : jobs_inv r -> jobs_inv (finish_job r).
Proof.
  intros [(n & Hids & Hnext) Hrest]. unfold finish_job. destruct (jobs r) as [|j rest] eqn:Hj; [constructor; rewrite Hj; eauto|].
  assert (Hi : jobs_inv (with_jobs rest (next_job r) r)).
  { constructor; cbn.
    - exists (S n). cbn in Hids, Hnext. injection Hids as _ ->. split; [done | lia].
    - cbn in Hrest. destruct rest; [done|]. by apply Forall_cons in Hrest as [_ ?]. }
  cbn [handler with_jobs]. destruct (handler r) as [|ws all more|]; [done| |done]. case_match; [|done].
  case_match. eapply jobs_grow; [apply grows_wait | done].
Qed.

(** ** The operations a step makes on the ingress *)

(** The step brings a successful answer for the domain [d]. *)
Definition reconciled (d : ProjectionDomain) (o : Op) (r : Runtime) : bool :=
  match o, jobs r with
  | o_domain _ d' which a, {| job_kind := job_reconcile _ _ _; job_stage := in_domains _ progress |} :: _ =>
      bool_decide (d' = d) &&
      match stage_of d progress with
      | Some (awaiting first second) =>
          (if which then second else first)
          && match reconcileDomain (is_torn r) d first second which a with v_done true _ => true | _ => false end
      | _ => false
      end
  | _, _ => false
  end.

(** The step ends the first job, and all it did has succeeded. *)
Definition job_succeeds (o : Op) (r : Runtime) : bool :=
  match jobs r with
  | {| job_kind := job_reconcile domains reason _; job_stage := stage |} :: _ =>
      match o, stage with
      | o_domain _ d _ _, in_domains ready progress =>
          ready && reconciled d o r
          && match results_of (set_progress d (settled true) progress) with Some results => forallb id results | None => false end
      | o_start_job, not_started => negb (shouldReconcileMessaging reason) && bool_decide (domains = [])
      | o_messaging ok, in_messaging => ok && bool_decide (domains = [])
      | _, _ => false
      end
  | _ => false
  end.

(** The answers, and the start of a job. *)
Definition is_answer (o : Op) : bool :=
  match o with o_start_job | o_session _ | o_messaging _ | o_domain _ _ _ _ | o_handler _ _ => true | _ => false end.

Definition allowed (o : Op) (r : Runtime) (op : ingress_op) : Prop :=
  match op with
  | op_repair _ d _ => exists d', d = ingress_domain d' /\ reconciled d' o r = true
  | op_reopen => job_succeeds o r = true /\ is_torn r = false
  | op_mark _ _ _ _ _ => True
  | _ => is_answer o = false
  end.

Record makes (P : ingress_op -> Prop) (r r' : Runtime) : Prop := {
  mk_ops : exists ops, ingress_of r' = ingress_run ops (ingress_of r) /\ Forall P ops
}.

#[export] Instance makes_preorder P : PreOrder (makes P).
Proof.
  split.
  - intros r. constructor. by exists [].
  - intros r1 r2 r3 [(o1 & H1 & P1)] [(o2 & H2 & P2)]. constructor. exists (o1 ++ o2). rewrite H2, H1. unfold ingress_run.
    rewrite fold_left_app. split; [done | by apply Forall_app].
Qed.

Lemma makes_same P r r' : ingress_of r' = ingress_of r -> makes P r r'.
Proof. intros Hi. constructor. exists []. by rewrite Hi. Qed.

Lemma makes_op (P : ingress_op -> Prop) op r : P op -> makes P r (on_ingress (fun i => ingress_step i op) r).
Proof. intros Hp. constructor. exists [op]. rewrite on_ingress_state. split; [done | by constructor]. Qed.

Lemma makes_grows P r r' : grows r r' -> makes P r r'.
Proof. intros [? _ _ _ _ _ _]. by apply makes_same. Qed.

Lemma makes_stage P s r : makes P r (set_stage s r).
Proof. apply makes_same. unfold set_stage. by destruct (jobs r). Qed.

Lemma finish_ingress r : ingress_of (finish_job r) = ingress_of r /\ is_torn (finish_job r) = is_torn r.
Proof.
  unfold finish_job. destruct (jobs r); [done|]. cbn [handler with_jobs]. destruct (handler r) as [|ws all more|]; try done. case_match; [|done].
  case_match. by destruct (grows_wait n true (with_jobs l (next_job r) r)) as [-> -> _ _ _ _ _].
Qed.

Lemma makes_finish P r : makes P r (finish_job r).
Proof. by apply makes_same, finish_ingress. Qed.

Lemma makes_ingest o r now e r0 : is_answer o = false -> makes (allowed o r) r0 (on_ingress (ingest now e) r0).
Proof. intros Ho. destruct e as [e|e]; [apply (makes_op _ (op_data now e)) | apply (makes_op _ (op_control now e))]; done. Qed.

Lemma makes_finish_domains o r ready results r0 :
  (ready = true -> forallb id results = true -> is_torn r0 = false -> job_succeeds o r = true /\ is_torn r = false) ->
  makes (allowed o r) r0 (finish_domains ready results r0).
Proof.
  intros Hs. unfold finish_domains. set (r1 := if _ && _ then _ else r0).
  assert (H1 : makes (allowed o r) r0 r1).
  { subst r1. destruct (is_torn r0) eqn:Ht; cbn; [done|]. destruct ready; cbn; [|done]. destruct (forallb id results) eqn:Hr; [|done].
    apply (makes_op _ op_reopen). cbn. by apply Hs. }
  etrans; [exact H1|]. etrans; [|apply makes_finish]. destruct (is_torn r1); [done | apply makes_grows, grows_call].
Qed.

Lemma makes_check o r ready progress r0 :
  (ready = true -> forall results, results_of progress = Some results -> forallb id results = true -> is_torn r0 = false ->
    job_succeeds o r = true /\ is_torn r = false) ->
  makes (allowed o r) r0 (check_domains ready progress r0).
Proof.
  intros Hs. unfold check_domains. destruct (results_of progress) as [results|]; [|apply makes_stage].
  apply makes_finish_domains. intros H1 H2 H3. by apply (Hs H1 results).
Qed.

Lemma unique_elem ds d : d ∈ unique_domains ds <-> d ∈ ds.
Proof.
  unfold unique_domains. enough (Hg : forall acc, d ∈ fold_left (fun acc d => if decide (d ∈ acc) then acc else acc ++ [d]) ds acc <-> d ∈ acc \/ d ∈ ds).
  { rewrite Hg. rewrite elem_of_nil. tauto. }
  induction ds as [|x ds IH]; intros acc; cbn [fold_left]; [rewrite elem_of_nil; tauto|].
  rewrite IH, elem_of_cons. case_decide; [naive_solver|]. rewrite elem_of_app, list_elem_of_singleton. naive_solver.
Qed.

Lemma unique_nil ds : unique_domains ds = [] -> ds = [].
Proof. intros Hu. destruct ds as [|d ds]; [done|]. assert (Hd : d ∈ unique_domains (d :: ds)) by (apply unique_elem; left). rewrite Hu in Hd. by apply elem_of_nil in Hd. Qed.

Lemma results_start l results : results_of ((fun d => (d, first_stage d)) <$> l) = Some results -> l = [] /\ results = [].
Proof. destruct l; cbn; [by intros [= <-] | done]. Qed.

Lemma makes_start o r ds ready r0 :
  (ready = true -> ds = [] -> is_torn r0 = false -> job_succeeds o r = true /\ is_torn r = false) ->
  makes (allowed o r) r0 (start_domains ds ready r0).
Proof.
  intros Hs. unfold start_domains. etrans; [apply makes_grows, grows_calls|]. apply makes_check.
  intros H1 results [Hu _]%results_start _ Ht. apply Hs; [done | by apply unique_nil|].
  by rewrite <- (gr_torn _ _ (grows_calls (concat (domain_calls <$> unique_domains ds)) r0)).
Qed.

(** ** Progress of the domains of a job *)
Lemma stage_of_elem d s progress : stage_of d progress = Some s -> (d, s) ∈ progress.
Proof.
  unfold stage_of. induction progress as [|[d' s'] progress IH]; [done|]. cbn. destruct (bool_decide (d' = d)) eqn:Hd.
  - apply bool_decide_eq_true in Hd as ->. intros [= ->]. left.
  - intros Hs. right. auto.
Qed.

Lemma set_progress_elem d s progress x t :
  (x, t) ∈ set_progress d s progress <-> (x <> d /\ (x, t) ∈ progress) \/ (x = d /\ t = s /\ exists t', (d, t') ∈ progress).
Proof.
  unfold set_progress. rewrite list_elem_of_fmap. split.
  - intros ([x' t'] & Heq & Hin). cbn in Heq. destruct (decide (x' = d)) as [->|Hne]; injection Heq as -> ->; [right; eauto | by left].
  - intros [[Hne Hin]|(-> & -> & t' & Hin)]; [exists (x, t) | exists (d, t')]; cbn; [by rewrite decide_False | by rewrite decide_True].
Qed.

Lemma results_elem progress results d ok : results_of progress = Some results -> (d, settled ok) ∈ progress -> ok ∈ results.
Proof.
  unfold results_of. intros Hr%mapM_Some Hin. induction Hr as [|[d' s'] b l l' Hb Hr IH]; [by apply elem_of_nil in Hin|].
  apply elem_of_cons in Hin as [[= <- <-]|Hin]; [cbn in Hb; injection Hb as ->; left | right; auto].
Qed.

Lemma results_all progress results : results_of progress = Some results -> forallb id results = true <-> forall d s, (d, s) ∈ progress -> s = settled true.
Proof.
  intros Hr. rewrite forallb_forall. split.
  - intros Hall d s Hin. destruct s as [f s|ok].
    + unfold results_of in Hr. apply mapM_Some in Hr. apply list_elem_of_lookup in Hin as [i Hi]. by destruct (Forall2_lookup_l _ _ _ _ _ Hr Hi) as (b & _ & Hb).
    + assert (ok = true) as ->; [|done]. by apply (Hall ok), list_elem_of_In, (results_elem progress results d).
  - intros Hall b Hb. apply list_elem_of_In in Hb. unfold results_of in Hr. apply mapM_Some in Hr. apply list_elem_of_lookup in Hb as [i Hi].
    destruct (Forall2_lookup_r _ _ _ _ _ Hr Hi) as ([d s] & Hd & Hs). cbn in Hs. apply list_elem_of_lookup_2 in Hd. apply Hall in Hd as ->. by injection Hs as <-.
Qed.

Lemma failed_results d s progress results : stage_of d progress = Some s ->
  results_of (set_progress d (settled false) progress) = Some results -> forallb id results = false.
Proof.
  intros Hs Hr. apply not_true_iff_false. intros Hall. rewrite (results_all _ _ Hr) in Hall.
  assert (settled false = settled true); [|done]. apply (Hall d). apply set_progress_elem. right. split_and!; try done. exists s. by apply stage_of_elem.
Qed.

Lemma domain_failed_grows now d why cp m r : is_torn r = false ->
  grows (on_ingress (markStale now (ingress_domain d) (why ++ ":reconcile_failed") (Some cp) false) r) (domain_failed now d why cp m r).
Proof. intros Ht. unfold domain_failed. rewrite Ht. destruct d; repeat first [apply grows_call | etrans; [apply grows_call|]]. Qed.

Lemma makes_answer now d which a r : makes (allowed (o_domain now d which a) r) r (answer_domain now d which a r).
Proof.
  unfold answer_domain. destruct (jobs r) as [|[id [ds why cp|why] [| | |ready progress]] rest] eqn:Hj; try done.
  destruct (stage_of d progress) as [[first second|ok]|] eqn:Hst; try done. destruct (negb _) eqn:Hw; [done|]. apply negb_false_iff in Hw.
  destruct (reconcileDomain (is_torn r) d first second which a) as [f s made|ok made|m] eqn:Hv.
  - etrans; [apply makes_grows, grows_calls | apply makes_stage].
  - etrans; [apply makes_grows, (grows_calls made)|]. set (r1 := call_all made r).
    assert (Ht : is_torn r1 = is_torn r) by apply grows_calls.
    assert (Hrec : ok = true -> reconciled d (o_domain now d which a) r = true).
    { intros ->. unfold reconciled. by rewrite Hj, bool_decide_true, Hst, Hw, Hv. }
    etrans; [|apply makes_check].
    + destruct (ok && negb (is_torn r1)) eqn:Hok; [|done]. apply andb_true_iff in Hok as [-> _].
      apply (makes_op _ (op_repair now (ingress_domain d) cp)). cbn. exists d. by split; [|apply Hrec].
    + intros -> results Hr Hall Htorn. destruct (ok && negb (is_torn r1)) eqn:Hok.
      * apply andb_true_iff in Hok as [-> Hn]. apply negb_true_iff in Hn. split; [|congruence].
        unfold job_succeeds. rewrite Hj, (Hrec eq_refl), Hr, Hall. done.
      * destruct ok; [cbn in Hok; rewrite Htorn in Hok; done|]. by rewrite (failed_results _ _ _ _ Hst Hr) in Hall.
  - destruct (is_torn r) eqn:Ht.
    + unfold domain_failed. rewrite Ht. apply makes_check. intros _ results _ _ Hf. congruence.
    + etrans; [apply (makes_op _ (op_mark now (ingress_domain d) (why ++ ":reconcile_failed") (Some cp) false)); done|].
      etrans; [apply makes_grows; by apply (domain_failed_grows now d why cp m)|].
      apply makes_check. intros _ results Hr Hall _. by rewrite (failed_results _ _ _ _ Hst Hr) in Hall.
Qed.

Lemma makes_start_job r : makes (allowed o_start_job r) r (start_job r).
Proof.
  unfold start_job. destruct (jobs r) as [|[id [ds why cp|why] []] rest] eqn:Hj; try done.
  - destruct (is_torn r) eqn:Ht; [apply makes_finish|]. destruct (shouldReconcileMessaging why) eqn:Hm.
    + etrans; [apply makes_grows, grows_call | apply makes_stage].
    + apply makes_start. intros _ -> _. split; [|done]. unfold job_succeeds. by rewrite Hj, Hm, bool_decide_true.
  - destruct (is_torn r); [apply makes_finish|]. etrans; [apply makes_grows, grows_call | apply makes_stage].
Qed.

Lemma makes_messaging ok r : makes (allowed (o_messaging ok) r) r (answer_messaging ok r).
Proof.
  unfold answer_messaging. destruct (jobs r) as [|[id [ds why cp|why] []] rest] eqn:Hj; try done.
  set (r1 := if ok then r else _). assert (H1 : grows r r1) by (subst r1; destruct ok; [done | apply grows_call]).
  etrans; [by apply makes_grows|]. destruct (is_torn r1) eqn:Ht; [apply makes_finish|]. apply makes_start.
  intros -> -> _. split; [|by rewrite <- (gr_torn _ _ H1)]. unfold job_succeeds. by rewrite Hj, bool_decide_true.
Qed.

Lemma makes_realtime o r now event r0 : is_answer o = false -> makes (allowed o r) r0 (ingestRealtimeEvent now event r0).
Proof.
  intros Ho. unfold ingestRealtimeEvent.
  assert (Hl : forall es r0, makes (allowed o r) r0 (fold_left (fun r e => on_ingress (ingest now e) r) es r0)).
  { intros es. induction es as [|e es IH]; intros r1; cbn [fold_left]; [done|]. etrans; [by apply makes_ingest | apply IH]. }
  destruct (we_body event); try apply Hl. apply makes_grows, grows_call.
Qed.

(** Everything a step does to the ingress: repairs only after a successful answer, and
    reopening only when a job has succeeded. *)
Lemma runtime_step_makes o r : makes (allowed o r) r (runtime_step o r).
Proof.
  destruct o as [now event|now event|now e|c| |now| |why ds| | |now| |ok|ok|now d which a|k ok|u|b]; cbn [runtime_step]; try done.
  - by apply makes_realtime.
  - unfold dispatchExternalEvent. cbv zeta. etrans; [|by apply makes_ingest]. destruct (socialHostEventTargetsNotifications event); [by apply makes_ingest | done].
  - by apply makes_ingest.
  - by apply makes_same.
  - by apply (makes_op _ (op_suspend now)).
  - by apply (makes_op _ op_resume).
  - by apply makes_same.
  - unfold teardown. destruct (is_torn r); [done|].
    etrans; [|by apply (makes_same _ (on_ingress EventIngress.teardown (with_torn r)))].
    etrans; [apply (makes_same _ _ (with_torn r)); done|]. by apply (makes_op _ op_teardown).
  - unfold drain. destruct (processing (ingress_of r)) eqn:Hp; try done.
    + by apply (makes_op _ (op_task now true)).
    + destruct (handler r) as [| |ok] eqn:Hh; try done. etrans; [apply (makes_same _ _ (with_handler no_handler r)); done|].
      by apply (makes_op _ (op_task now ok)).
    + by apply (makes_op _ (op_task now true)).
  - apply makes_start_job.
  - unfold answer_session. destruct (jobs r) as [|[id [ds why cp|why] []] rest]; try done. etrans; [|apply makes_finish]. destruct ok; [done | apply makes_grows, grows_call].
  - apply makes_messaging.
  - apply makes_answer.
  - unfold answer_handler. destruct (handler r); try done. destruct (_ !! _) as [[]|]; try done. apply makes_grows, grows_wait.
  - by apply makes_same.
  - by destruct (activeRuntime r); [apply makes_same | | apply makes_same].
Qed.

(** Answers keep the ingress in its phase of life. *)
Lemma answer_lifecycle o r : is_answer o = true -> lifecycle (ingress_of (runtime_step o r)) = lifecycle (ingress_of r).
Proof.
  intros Ho. destruct (runtime_step_makes o r) as [(ops & -> & Ha)]. generalize (ingress_of r). induction Ha as [|op ops Hop Ha IH]; intros i; [done|].
  change (ingress_run (op :: ops) i) with (ingress_run ops (ingress_step i op)). rewrite IH. destruct op; cbn in Hop |- *; try congruence.
  - unfold repairCursor. case_decide; [done|]. cbv zeta. by rewrite (sq_lifecycle _ _ (sq_clear _ _)).
  - by rewrite (sq_lifecycle _ _ (sq_markStale _ _ _ _ _ _)).
  - unfold reopenAdmission. case_decide; [done|]. by destruct (any_data_stale i).
Qed.
