(* ===== verification/SocialProjectionRuns.v ===== *)
(** * Runs of the social projection runtime

    The invariants behind recovery: on an active ingress, every stale projection has a job
    that will reconcile it, and closed writes have a job that will reopen them, as long as
    the answers are successful. *)
From Stdlib Require Import Lia ZArith.
From stdpp Require Import base numbers strings list.
From S2P Require Import Prelude JsString JsonValue EventIngress EventIngressFacts MutationAdmission SocialProjection SocialProjectionFacts.

Open Scope string_scope.
Open Scope list_scope.

Definition stale_in (i : ingress) (d : ProjectionDomain) : bool := is_stale (staleness i (ingress_domain d)).
Definition open_in (i : ingress) : bool := is_open (writeAdmission i).

(** ** What the ingress asks for when it closes writes or marks a projection *)
Record asks (i i' : ingress) : Prop := {
  as_torn : lifecycle i <> torn -> lifecycle i' <> torn;
  as_new : exists new, notices i' = notices i ++ new /\ (lifecycle i' = active ->
    (forall d, stale_in i' d = true -> (lifecycle i = active /\ stale_in i d = true)
       \/ exists ds why cp, note_reconcile ds why cp ∈ new /\ d ∈ projectionDomains ds)
    /\ (open_in i' = false -> (lifecycle i = active /\ open_in i = false) \/ exists ds why cp, note_reconcile ds why cp ∈ new))
}.

#[export] Instance asks_preorder : PreOrder asks.
Proof.
  split.
  - intros i. constructor; [done|]. exists []. rewrite app_nil_r. split; [done|]. auto.
  - intros i1 i2 i3 [T1 (n1 & H1 & P1)] [T2 (n2 & H2 & P2)]. constructor; [auto|]. exists (n1 ++ n2). rewrite H2, H1, <- (assoc_L (++)). split; [done|].
    intros Hl. destruct (P2 Hl) as [Pd Pw]. split.
    + intros d [[Hl2 Hs2]|(ds & why & cp & Hin & Hd)]%Pd; [|right; exists ds, why, cp; split; [apply elem_of_app; by right | done]].
      destruct (P1 Hl2) as [Pd1 _]. destruct (Pd1 d Hs2) as [?|(ds & why & cp & Hin & Hd)]; [by left|].
      right. exists ds, why, cp. split; [apply elem_of_app; by left | done].
    + intros [[Hl2 Hw2]|(ds & why & cp & Hin)]%Pw; [|right; exists ds, why, cp; apply elem_of_app; by right].
      destruct (P1 Hl2) as [_ Pw1]. destruct (Pw1 Hw2) as [?|(ds & why & cp & Hin)]; [by left|].
      right. exists ds, why, cp. apply elem_of_app. by left.
Qed.

(** Notices are only added. *)
Definition extends (i i' : ingress) : Prop := exists new, notices i' = notices i ++ new.

#[export] Instance extends_preorder : PreOrder extends.
Proof.
  split; [intros i; exists []; by rewrite app_nil_r|]. intros i1 i2 i3 (n1 & H1) (n2 & H2). exists (n1 ++ n2). by rewrite H2, H1, (assoc_L (++)).
Qed.

(** Nothing new is stale or closed. *)
Lemma asks_quiet i i' : lifecycle i' = lifecycle i -> extends i i' ->
  (forall d, stale_in i' d = true -> stale_in i d = true) -> (open_in i' = false -> open_in i = false) -> asks i i'.
Proof. intros Hl (new & Hn) Hs Hw. constructor; [by rewrite Hl|]. exists new. split; [done|]. rewrite Hl. intros Ha. split; auto. Qed.

(** A reconcile of everything is asked for. *)
Lemma asks_loud i i' new why cp : (lifecycle i <> torn -> lifecycle i' <> torn) -> notices i' = notices i ++ new ->
  note_reconcile DATA_DOMAINS why cp ∈ new -> asks i i'.
Proof.
  intros Ht Hn Hin. constructor; [done|]. exists new. split; [done|]. intros _. split; [|intros _; right; by exists DATA_DOMAINS, why, cp].
  intros d _. right. exists DATA_DOMAINS, why, cp. split; [done|]. destruct d; by_computation.
Qed.

(** The ingress is not active afterwards. *)
Lemma asks_asleep i i' : extends i i' -> lifecycle i' = suspended -> asks i i'.
Proof. intros (new & Hn) Hl. constructor; [by rewrite Hl|]. exists new. split; [done|]. by rewrite Hl. Qed.

Lemma extends_same i i' : notices i' = notices i -> extends i i'.
Proof. intros Hn. exists []. by rewrite Hn, app_nil_r. Qed.

Lemma extends_notify n i : extends i (notify n i).
Proof. by exists [n]. Qed.

Lemma extends_mark now d r c i : extends i (markStale now d r c false i).
Proof. by eexists [_]. Qed.

Lemma extends_close now r i : extends i (closeWriteAdmission now r i).
Proof. unfold closeWriteAdmission. destruct (negb _); [done | by eexists [_]]. Qed.

Lemma extends_all now r c i : extends i (mark_all_stale now r c i).
Proof.
  unfold mark_all_stale. revert i. induction DATA_DOMAINS as [|d ds IH]; intros i; cbn [fold_left]; [done|].
  etrans; [apply extends_mark | apply IH].
Qed.

(** [requestReconcile] at the end of a list of changes. *)
Lemma asks_request why cp i i' : (lifecycle i <> torn -> lifecycle i' <> torn) -> extends i i' -> asks i (requestReconcile DATA_DOMAINS why cp i').
Proof.
  intros Ht (new & Hn). apply (asks_loud _ _ (new ++ [note_reconcile (dedup_domains DATA_DOMAINS) why cp]) why cp); [done | |].
  - cbn. by rewrite Hn, (assoc_L (++)).
  - apply elem_of_app. right. apply list_elem_of_singleton. reflexivity.
Qed.

Lemma asks_mark now d why cp i : d ∈ DATA_DOMAINS -> asks i (markStale now d why (Some cp) true i).
Proof.
  intros Hd. constructor; [done|]. exists [note_staleness d (stale why now); note_reconcile [d] why cp]. split; [cbn; by rewrite <- (assoc_L (++))|].
  intros Hl. split; [|intros Hw; left; by split].
  intros d' Hs. unfold stale_in in *. rewrite staleness_markStale in Hs. unfold upd in Hs. case_decide as Heq; [right | left; by split].
  exists [d], why, cp. split; [by right; left|]. rewrite Heq. destruct d'; by_computation.
Qed.

Lemma asks_enqueue i : asks i (enqueueDrain i).
Proof.
  destruct (enqueueDrain_fields i) as (_ & _ & _ & _ & _ & _ & Hl & Hw & Hs & Hn & _).
  apply asks_quiet; [done | by apply extends_same | |]; unfold stale_in, open_in; by rewrite ?Hs, ?Hw.
Qed.

Lemma asks_take i : asks i (take_next i).
Proof.
  apply asks_quiet; [| | unfold stale_in; by rewrite take_staleness | unfold open_in; by rewrite take_admission].
  - unfold take_next. case_decide; [done|]. destruct (controlQueue i); [destruct (dataQueue i)|]; done.
  - unfold take_next. case_decide; [by apply extends_same|]. destruct (controlQueue i); [destruct (dataQueue i)|]; [by apply extends_same | by eexists [_]..].
Qed.

(** Changes of queues and windows alone. *)
Lemma asks_same i i' : lifecycle i' = lifecycle i -> notices i' = notices i -> staleness i' = staleness i -> writeAdmission i' = writeAdmission i -> asks i i'.
Proof. intros Hl Hn Hs Hw. apply asks_quiet; [done | by apply extends_same | |]; unfold stale_in, open_in; by rewrite ?Hs, ?Hw. Qed.

Lemma update_notices e i : notices (updateCursor (event_domain e) (event_cursor e) (event_timestamp e) i) = notices i.
Proof. unfold updateCursor. destruct (negb _); [done|]. by destruct (evict_oldest _ _ _). Qed.

Lemma asks_after now ok e i : asks i (after_handler now ok e i).
Proof.
  unfold after_handler. cbv zeta. set (i1 := if ok then _ else _). etrans; [|by apply (asks_same i1)]. subst i1. destruct ok.
  - destruct (updateCursor_fields e i) as (_ & _ & _ & _ & _ & Hl & Hw & Hs & _). pose proof (update_notices e i) as Hn.
    destruct e; by apply asks_same.
  - unfold handler_failed. cbv zeta. destruct e as [e|e].
    + etrans; [apply (asks_quiet i (notify (note_handler_error (data_event e)) i)); [done | apply extends_notify | done | done]|]. apply asks_mark, data_domain_data.
    + apply asks_request.
      * cbn. rewrite (sq_lifecycle _ _ (sq_close now "control_event_handler_failed" _)). done.
      * etrans; [apply extends_notify|]. etrans; [apply extends_close|]. apply extends_notify.
Qed.

Lemma lifecycle_close now r i : lifecycle (closeWriteAdmission now r i) = lifecycle i.
Proof. apply sq_close. Qed.

(** Every operation of the ingress but teardown, and the marks the runtime makes itself. *)
Lemma asks_step i op : op <> op_teardown -> (forall now d r c q, op <> op_mark now d r c q) -> asks i (ingress_step i op).
Proof.
  intros Ht Hm. destruct op as [now e|now e|now ok|now d c|now d r c q| |now| |]; cbn [ingress_step]; try done.
  - unfold ingestDataEvent. case_decide; [done|]. destruct (known_key _ i); [done|]. destruct (_ <=? _)%Z; cbn [snd].
    + apply asks_mark, data_domain_data.
    + etrans; [|apply asks_enqueue]. by apply asks_same.
  - unfold ingestControlEvent. case_decide; [done|]. destruct (known_key _ i); [done|]. destruct (_ <=? _)%Z; cbn [snd].
    + unfold control_event_lost. cbv zeta. apply asks_request; [cbn; by rewrite lifecycle_close|].
      etrans; [|apply extends_notify]. etrans; [|apply extends_close]. by apply extends_same.
    + etrans; [|apply asks_enqueue]. etrans; [|by apply (asks_same (resync_signal now e i))]. unfold resync_signal. case_decide; [|done]. cbv zeta.
      apply asks_request; [rewrite lifecycle_close, (sq_lifecycle _ _ (sq_all _ _ _ _)); done|]. etrans; [apply extends_all | apply extends_close].
  - unfold drain_task. destruct (processing i); [done | apply asks_take | etrans; [apply asks_after | apply asks_take] |].
    unfold finish_drain. case_decide; [etrans; [|apply asks_enqueue]|]; by apply asks_same.
  - unfold repairCursor. case_decide; [done|]. cbv zeta. set (i1 := with_cursor _ _ _ i). etrans; [by apply (asks_same i i1)|].
    unfold clearStaleness. destruct (is_stale _); [|done]. apply asks_quiet; [done | by eexists [_] | | done].
    intros d'. unfold stale_in. cbn. unfold upd. by case_decide.
  - destruct (Hm now d r c q eq_refl).
  - unfold reopenAdmission. case_decide; [done|]. destruct (any_data_stale i); [done|]. apply asks_quiet; [done | by eexists [_] | done | done].
  - unfold EventIngress.suspend. case_decide; [done|]. cbv zeta. apply asks_asleep.
    + etrans; [|apply extends_all]. etrans; [|apply extends_close]. by apply extends_same.
    + by rewrite (sq_lifecycle _ _ (sq_all _ _ _ _)), lifecycle_close.
  - unfold EventIngress.resume. case_decide as Hl; [done|]. apply asks_request; [done | by apply extends_same].
Qed.

(** ** Jobs that will repair what is stale *)

(** The job has still to reconcile [d]. *)
Definition covers (d : ProjectionDomain) (j : Job) : bool :=
  match job_kind j with
  | job_reconcile ds _ _ =>
      bool_decide (d ∈ ds) &&
      match job_stage j with
      | in_domains _ progress => match stage_of d progress with Some (awaiting _ _) => true | _ => false end
      | _ => true
      end
  | job_revalidate _ => false
  end.

Definition is_reconcile (j : Job) : bool := match job_kind j with job_reconcile _ _ _ => true | job_revalidate _ => false end.

(** A job that has not failed so far, and that is where its kind allows. *)
Definition healthy (j : Job) : Prop :=
  match job_kind j, job_stage j with
  | _, not_started => True
  | job_revalidate _, in_session => True
  | job_reconcile _ _ _, in_messaging => True
  | job_reconcile ds _ _, in_domains ready progress =>
      ready = true /\ progress.*1 = unique_domains ds /\ forall d ok, (d, settled ok) ∈ progress -> ok = true
  | _, _ => False
  end.

(** What is needed is covered by the jobs [js]. *)
Definition covered (i : ingress) (js : list Job) : Prop :=
  lifecycle i = active -> (forall d, stale_in i d = true -> exists j, j ∈ js /\ covers d j = true)
    /\ (open_in i = false -> exists j, j ∈ js /\ is_reconcile j = true).

Record recovering (r : Runtime) : Prop := {
  rc_torn : is_torn r = false;
  rc_live : lifecycle (ingress_of r) <> torn;
  rc_healthy : Forall healthy (jobs r);
  rc_covered : covered (ingress_of r) (jobs r)
}.

Lemma unstarted_healthy l : Forall (fun j => job_stage j = not_started) l -> Forall healthy l.
Proof. intros Hl. eapply Forall_impl; [exact Hl|]. intros [id k st]. cbn. intros ->. by destruct k. Qed.

Lemma covered_more i js js' : (forall j, j ∈ js -> j ∈ js') -> covered i js -> covered i js'.
Proof.
  intros Hj Hc Hl. destruct (Hc Hl) as [Hd Hw]. split.
  - intros d Hs. destruct (Hd d Hs) as (j & ? & ?). eauto.
  - intros Ho. destruct (Hw Ho) as (j & ? & ?). eauto.
Qed.

Lemma recovering_same r r' : ingress_of r' = ingress_of r -> is_torn r' = is_torn r -> jobs r' = jobs r -> recovering r -> recovering r'.
Proof. intros Hi Ht Hj []. constructor; by rewrite ?Hi, ?Ht, ?Hj. Qed.

Lemma recovering_grows r r' : grows r r' -> recovering r -> recovering r'.
Proof.
  intros [Hi Ht _ _ _ _ (new & Hj & Hs & _)] []. constructor; rewrite ?Hi, ?Ht, ?Hj; try done.
  - apply Forall_app. split; [done | by apply unstarted_healthy].
  - eapply covered_more; [|done]. intros j Hin. apply elem_of_app. by left.
Qed.

(** An operation of the ingress keeps its needs covered. *)
Lemma covered_ingress f r js : asks (ingress_of r) (f (ingress_of r)) -> covered (ingress_of r) js -> (forall j, j ∈ js -> j ∈ jobs r) ->
  exists new, jobs (on_ingress f r) = jobs r ++ new /\ Forall (fun j => job_stage j = not_started) new /\ covered (f (ingress_of r)) (js ++ new).
Proof.
  intros [_ (ns & Hn & Hp)] Hc Hjs. destruct (gr_jobs _ _ (on_ingress_grows f r)) as (new & Hj & Hs & _). cbn [jobs with_ingress] in Hj.
  exists new. split_and!; [done | done|]. intros Hl. destruct (Hp Hl) as [Hd Hw].
  assert (Hfind : forall ds why cp, note_reconcile ds why cp ∈ ns ->
    exists j, j ∈ new /\ job_kind j = job_reconcile (projectionDomains ds) why cp /\ job_stage j = not_started).
  { intros ds why cp Hin. unfold on_ingress in Hj. rewrite Hn, drop_app_length in Hj.
    destruct (notices_schedule ns (with_ingress (f (ingress_of r)) r) ds why cp Hin) as (extra & He & j & Hin' & Hk).
    rewrite He in Hj. apply app_inv_head in Hj as ->. eauto. }
  split.
  - intros d [[Hl0 Hs0]|(ds & why & cp & Hin & Hdd)]%Hd.
    + destruct (Hc Hl0) as [Hcd _]. destruct (Hcd d Hs0) as (j & ? & ?). exists j. split; [apply elem_of_app; by left | done].
    + destruct (Hfind _ _ _ Hin) as (j & Hjn & Hk & Hst). exists j. split; [apply elem_of_app; by right|]. unfold covers. by rewrite Hk, Hst, bool_decide_true.
  - intros [[Hl0 Ho0]|(ds & why & cp & Hin)]%Hw.
    + destruct (Hc Hl0) as [_ Hcw]. destruct (Hcw Ho0) as (j & ? & ?). exists j. split; [apply elem_of_app; by left | done].
    + destruct (Hfind _ _ _ Hin) as (j & Hjn & Hk & Hst). exists j. split; [apply elem_of_app; by right|]. unfold is_reconcile. by rewrite Hk.
Qed.

Lemma recovering_ingress f r : asks (ingress_of r) (f (ingress_of r)) -> recovering r -> recovering (on_ingress f r).
Proof.
  intros Ha [Ht Hl Hh Hc]. destruct (covered_ingress f r (jobs r) Ha Hc) as (new & Hj & Hs & Hc'); [done|].
  constructor; rewrite ?on_ingress_state, ?on_ingress_torn, ?Hj; try done; [by apply (as_torn _ _ Ha)|].
  apply Forall_app. split; [done | by apply unstarted_healthy].
Qed.

Lemma recovering_op op r : op <> op_teardown -> (forall now d why c q, op <> op_mark now d why c q) -> recovering r ->
  recovering (on_ingress (fun i => ingress_step i op) r).
Proof. intros H1 H2. apply recovering_ingress. by apply asks_step. Qed.

(** ** Steps of the first job *)

(** The runtime without its first job. *)
Definition rest_of (r : Runtime) : list Job := tail (jobs r).

Lemma recovering_finish r : is_torn r = false -> lifecycle (ingress_of r) <> torn -> Forall healthy (rest_of r) ->
  covered (ingress_of r) (rest_of r) -> recovering (finish_job r).
Proof.
  intros Ht Hl Hh Hc. unfold finish_job, rest_of in *. destruct (jobs r) as [|j rest] eqn:Hj; [constructor; by rewrite ?Hj|]. cbn [tail] in Hh, Hc.
  assert (Hr : recovering (with_jobs rest (next_job r) r)) by by constructor.
  cbn [handler with_jobs]. destruct (handler r) as [|ws all more|]; [done| |done]. case_match; [|done]. case_match.
  eapply recovering_grows; [apply grows_wait | done].
Qed.

Lemma recovering_stage st r j rest : jobs r = j :: rest -> is_torn r = false -> lifecycle (ingress_of r) <> torn ->
  let j' := {| job_id := job_id j; job_kind := job_kind j; job_stage := st |} in
  Forall healthy (j' :: rest) -> covered (ingress_of r) (j' :: rest) -> recovering (set_stage st r).
Proof. intros Hj Ht Hl j' Hh Hc. unfold set_stage. rewrite Hj. by constructor. Qed.

(** The state in which the progress of the first job is looked at: what the job does not
    await any more is covered by the other jobs. *)
Record checking (ds : list ProjectionDomain) (ready : bool) (progress : list (ProjectionDomain * DomainStage)) (r : Runtime) : Prop := {
  ck_torn : is_torn r = false;
  ck_live : lifecycle (ingress_of r) <> torn;
  ck_head : exists j rest why cp, jobs r = j :: rest /\ job_kind j = job_reconcile ds why cp /\ Forall healthy rest;
  ck_ready : ready = true;
  ck_domains : progress.*1 = unique_domains ds;
  ck_good : forall d ok, (d, settled ok) ∈ progress -> ok = true;
  ck_covered : lifecycle (ingress_of r) = active -> forall d, stale_in (ingress_of r) d = true ->
    (exists f s, stage_of d progress = Some (awaiting f s)) \/ exists j, j ∈ rest_of r /\ covers d j = true
}.

Lemma checking_grows ds ready progress r r' : grows r r' -> checking ds ready progress r -> checking ds ready progress r'.
Proof.
  intros [Hi Ht _ _ _ _ (new & Hj & Hs & _)] [? ? (j & rest & why & cp & Hjr & Hk & Hh) ? ? ? Hc]. constructor; rewrite ?Hi, ?Ht; try done.
  - exists j, (rest ++ new), why, cp. rewrite Hj, Hjr. split_and!; [done | done|]. apply Forall_app. split; [done | by apply unstarted_healthy].
  - intros Hl d Hd. destruct (Hc Hl d Hd) as [?|(j' & Hin & ?)]; [by left|]. right. exists j'. split; [|done].
    unfold rest_of in *. rewrite Hjr in Hin. rewrite Hj, Hjr. cbn in *. apply elem_of_app. by left.
Qed.

Lemma any_stale i : any_data_stale i = true -> exists d, stale_in i d = true.
Proof.
  unfold any_data_stale. intros (d & Hd & Hs)%existsb_exists. apply list_elem_of_In in Hd.
  assert (exists p, d = ingress_domain p) as [p ->]; [|by exists p].
  destruct d; [by exists p_social | by exists p_moments | by exists p_notification | by exists p_profile|].
  by assert (dom_control ∉ DATA_DOMAINS) by by_computation.
Qed.

Lemma check_recovers ds ready progress r : checking ds ready progress r -> recovering (check_domains ready progress r).
Proof.
  intros Hck. pose proof Hck as [Ht Hl (j & rest & why & cp & Hj & Hk & Hh) -> Hds Hgood Hc]. unfold check_domains.
  unfold rest_of in Hc. rewrite Hj in Hc. cbn [tail] in Hc. destruct (results_of progress) as [results|] eqn:Hres.
  - assert (Hall : forall d s, (d, s) ∈ progress -> s = settled true).
    { intros d s Hin. destruct s as [f s|ok]; [|by rewrite (Hgood d ok Hin)]. unfold results_of in Hres. apply mapM_Some in Hres.
      apply list_elem_of_lookup in Hin as [i Hi]. by destruct (Forall2_lookup_l _ _ _ _ _ Hres Hi) as (b & _ & Hb). }
    assert (Hidr : forallb id results = true) by by apply (results_all _ _ Hres).
    unfold finish_domains. rewrite Ht, Hidr. cbn [negb andb]. rewrite on_ingress_torn, Ht.
    set (r1 := on_ingress reopenAdmission r). assert (Hg : grows (with_ingress (reopenAdmission (ingress_of r)) r) (call recovery_reportIngressState r1)).
    { etrans; [apply on_ingress_grows | apply grows_call]. }
    destruct (gr_jobs _ _ Hg) as (new & Hjn & Hs & _). cbn [jobs with_ingress] in Hjn.
    assert (Hi1 : ingress_of (call recovery_reportIngressState r1) = reopenAdmission (ingress_of r)) by apply on_ingress_state.
    assert (Hl1 : lifecycle (reopenAdmission (ingress_of r)) = lifecycle (ingress_of r)).
    { unfold reopenAdmission. case_decide; [done|]. by destruct (any_data_stale _). }
    assert (Hst1 : staleness (reopenAdmission (ingress_of r)) = staleness (ingress_of r)).
    { unfold reopenAdmission. case_decide; [done|]. by destruct (any_data_stale _). }
    apply recovering_finish; rewrite ?Hi1, ?Hl1; unfold rest_of; rewrite ?Hjn, ?Hj; cbn [tail app]; [by rewrite (gr_torn _ _ Hg) | done | |].
    + apply Forall_app. split; [done | by apply unstarted_healthy].
    + eapply covered_more; [intros x Hx; apply elem_of_app; left; exact Hx|]. intros Hla. rewrite Hl1 in Hla.
      assert (Hd : forall d, stale_in (ingress_of r) d = true -> exists j, j ∈ rest /\ covers d j = true).
      { intros d Hsd. destruct (Hc Hla d Hsd) as [(f & s & Hst)|?]; [|done]. by apply stage_of_elem, Hall in Hst. }
      split; [intros d; unfold stale_in; rewrite Hst1; apply Hd|]. unfold open_in, reopenAdmission. rewrite decide_False by auto.
      destruct (any_data_stale _) eqn:Ha; [|done]. intros _. apply any_stale in Ha as [d Hsd]. destruct (Hd d Hsd) as (x & ? & Hx).
      exists x. split; [done|]. unfold covers in Hx. unfold is_reconcile. by destruct (job_kind x).
  - apply (recovering_stage _ _ j rest); [done..| |].
    + constructor; [|done]. unfold healthy. cbn [job_kind job_stage]. by rewrite Hk.
    + intros Hla. split.
      * intros d Hsd. destruct (Hc Hla d Hsd) as [(f & s & Hst)|(x & ? & ?)]; [|exists x; split; [by right | done]].
        eexists. split; [by left|]. unfold covers. cbn [job_kind job_stage]. rewrite Hk, Hst, bool_decide_true; [done|].
        apply unique_elem. rewrite <- Hds. apply list_elem_of_fmap. exists (d, awaiting f s). by split; [|apply stage_of_elem].
      * intros _. eexists. split; [by left|]. unfold is_reconcile. cbn [job_kind]. by rewrite Hk.
Qed.

Lemma stage_of_set d s progress d' : d' <> d -> stage_of d' (set_progress d s progress) = stage_of d' progress.
Proof.
  intros Hne. unfold stage_of, set_progress. induction progress as [|[x t] progress IH]; [done|]. rewrite fmap_cons. cbv beta. cbn [fst].
  destruct (decide (x = d)) as [->|Hx]; cbn [find fst].
  - rewrite !bool_decide_false by done. exact IH.
  - by destruct (bool_decide (x = d')).
Qed.

Lemma stage_of_set_same d s t progress : stage_of d progress = Some t -> stage_of d (set_progress d s progress) = Some s.
Proof.
  unfold stage_of, set_progress. induction progress as [|[x u] progress IH]; [done|]. rewrite fmap_cons. cbv beta. cbn [fst].
  destruct (decide (x = d)) as [->|Hx]; cbn [find fst]; [by rewrite !bool_decide_true|]. rewrite !bool_decide_false by done. exact IH.
Qed.

Lemma set_progress_domains d s progress : (set_progress d s progress).*1 = progress.*1.
Proof. unfold set_progress. rewrite <- list_fmap_compose. apply list_fmap_ext. intros _ [x t] _. cbn. by case_decide as Hx; [subst|]. Qed.

Lemma start_recovers ds r j rest why cp : recovering r -> jobs r = j :: rest -> job_kind j = job_reconcile ds why cp ->
  match job_stage j with in_domains _ _ => False | _ => True end -> recovering (start_domains ds true r).
Proof.
  intros [Ht Hl Hh Hc] Hj Hk Hst. unfold start_domains. apply (check_recovers ds). apply (checking_grows _ _ _ r); [apply grows_calls|].
  rewrite Hj in Hh, Hc. apply Forall_cons in Hh as [_ Hh]. constructor; try done.
  - by exists j, rest, why, cp.
  - rewrite <- list_fmap_compose. by apply list_fmap_id.
  - by intros d ok (x & [=] & _)%list_elem_of_fmap.
  - intros Hla d Hs. destruct (Hc Hla) as [Hd _]. destruct (Hd d Hs) as (x & [->|Hin]%elem_of_cons & Hx); [left | right; exists x; unfold rest_of; by rewrite Hj].
    unfold covers in Hx. rewrite Hk in Hx. apply andb_true_iff in Hx as [Hx _]. apply bool_decide_eq_true in Hx.
    apply unique_elem in Hx. clear -Hx. unfold stage_of, first_stage. induction (unique_domains ds) as [|y l IH]; [by apply elem_of_nil in Hx|].
    rewrite fmap_cons. cbn [find fst]. destruct (bool_decide (y = d)) eqn:Hy; [by eexists _, _|]. apply bool_decide_eq_false in Hy.
    apply elem_of_cons in Hx as [->|Hx]; [done | auto].
Qed.

(** Successful answers. *)
Lemma done_verdict d (first second which : bool) : (if which then second else first) = true ->
  (exists f s made, reconcileDomain false d first second which a_done = v_wait f s made) \/ (exists made, reconcileDomain false d first second which a_done = v_done true made).
Proof.
  intros Hw. destruct d; cbn; [right; by eexists | right; by eexists | |].
  - destruct (first && which || second && negb which); [left; by eexists _, _, _ | right; by eexists].
  - destruct first; [left; by eexists _, _, _ | right; by eexists].
Qed.

Lemma stale_repaired now d cp i d' : lifecycle i <> torn ->
  stale_in (repairCursor now (ingress_domain d) cp i) d' = true -> d' <> d /\ stale_in i d' = true.
Proof.
  intros Hl. unfold stale_in, repairCursor. rewrite decide_False by done. cbv zeta. unfold clearStaleness. cbn [staleness with_cursor].
  destruct (is_stale (staleness i (ingress_domain d))) eqn:Hs; cbn [staleness notify with_staleness with_cursor].
  - unfold upd. destruct (decide (ingress_domain d = ingress_domain d')) as [Heq|Hne]; [done|]. intros ?. by split; [intros ->|].
  - intros Hs'. split; [|done]. intros ->. congruence.
Qed.

Lemma answer_recovers now d which r : recovering r -> recovering (answer_domain now d which a_done r).
Proof.
  intros Hr. pose proof Hr as [Ht Hl Hh Hc]. unfold answer_domain.
  destruct (jobs r) as [|[id [ds why cp|why] [| | |ready progress]] rest] eqn:Hj; try done.
  destruct (stage_of d progress) as [[first second|ok]|] eqn:Hst; try done. destruct (negb _) eqn:Hw; [done|]. apply negb_false_iff in Hw.
  apply Forall_cons in Hh as [(-> & Hds & Hgood) Hh]. rewrite Ht.
  destruct (done_verdict d first second which Hw) as [(f & s & made & ->)|(made & ->)].
  - set (r1 := call_all made r). assert (Hg : grows r r1) by apply grows_calls.
    assert (Hr1 : jobs r1 = jobs r) by (subst r1; clear; unfold call_all; revert r; induction made as [|c made IH]; intros r; [done|]; cbn [fold_left]; by rewrite IH).
    apply (recovering_stage _ _ {| job_id := id; job_kind := job_reconcile ds why cp; job_stage := in_domains true progress |} rest);
      rewrite ?(gr_torn _ _ Hg), ?(gr_ingress _ _ Hg); [by rewrite Hr1 | done | done | |].
    + constructor; [|done]. split_and!; [done | by rewrite set_progress_domains|]. intros d' ok [[_ Hin]|(_ & [=] & _)]%set_progress_elem. by apply (Hgood d').
    + intros Hla. destruct (Hc Hla) as [Hcd _]. split; [|intros _; eexists; by split; [left|]].
      intros d' Hs. destruct (Hcd d' Hs) as (x & [->|Hin]%elem_of_cons & Hx); [|exists x; split; [by right | done]].
      eexists. split; [by left|]. unfold covers in Hx |- *. cbn [job_kind job_stage] in Hx |- *. apply andb_true_iff in Hx as [-> Hx].
      destruct (decide (d' = d)) as [->|Hne]; [by rewrite (stage_of_set_same _ _ _ _ Hst) | by rewrite stage_of_set].
  - set (r1 := call_all made r). assert (Hg : grows r r1) by apply grows_calls. cbn [andb]. rewrite (gr_torn _ _ Hg), Ht. cbn [negb].
    set (i' := repairCursor now (ingress_domain d) cp (ingress_of r1)).
    apply (check_recovers ds), (checking_grows _ _ _ (with_ingress i' r1)); [apply on_ingress_grows|].
    apply (checking_grows _ _ _ (with_ingress i' r)); [by apply grows_with_ingress|].
    assert (Hl1 : lifecycle i' = lifecycle (ingress_of r)).
    { subst i'. rewrite (gr_ingress _ _ Hg). unfold repairCursor. case_decide; [done|]. cbv zeta. by rewrite (sq_lifecycle _ _ (sq_clear _ _)). }
    constructor; cbn [ingress_of is_torn jobs with_ingress]; rewrite ?Hl1; try done.
    + by exists {| job_id := id; job_kind := job_reconcile ds why cp; job_stage := in_domains true progress |}, rest, why, cp.
    + by rewrite set_progress_domains.
    + intros d' ok [[_ Hin]|(_ & [= ->] & _)]%set_progress_elem; [by apply (Hgood d') | done].
    + intros Hla d' Hs. subst i'. rewrite (gr_ingress _ _ Hg) in Hs. apply stale_repaired in Hs as [Hne Hs]; [|done]. destruct (Hc Hla) as [Hcd _].
      destruct (Hcd d' Hs) as (x & [->|Hin]%elem_of_cons & Hx); [left | right; exists x; unfold rest_of; cbn [jobs with_ingress]; by rewrite Hj].
      unfold covers in Hx. cbn [job_kind job_stage] in Hx. apply andb_true_iff in Hx as [_ Hx]. rewrite stage_of_set by done.
      destruct (stage_of d' progress) as [[f s|]|]; [by exists f, s | done | done].
Qed.

(** ** Undisturbed histories *)

(** Answers of the projections are successes, and the runtime is not torn down. Handlers
    and session checks may fail. *)
Definition smooth (o : Op) : bool :=
  match o with
  | o_domain _ _ _ a => match a with a_done => true | _ => false end
  | o_messaging ok => ok
  | o_teardown => false
  | _ => true
  end.

Lemma recovering_ingest now e r : recovering r -> recovering (on_ingress (ingest now e) r).
Proof. destruct e as [e|e]; [apply (recovering_op (op_data now e)) | apply (recovering_op (op_control now e))]; done. Qed.

Lemma recovering_push k r : recovering r -> recovering (push_job k r).
Proof. apply recovering_grows, grows_push. Qed.

Lemma recovering_other_job r j rest : recovering r -> jobs r = j :: rest -> is_reconcile j = false -> recovering (finish_job r).
Proof.
  intros [Ht Hl Hh Hc] Hj Hk. rewrite Hj in Hh, Hc. apply Forall_cons in Hh as [_ Hh]. apply recovering_finish; unfold rest_of; rewrite ?Hj; try done.
  intros Hla. destruct (Hc Hla) as [Hd Hw]. unfold is_reconcile in Hk. split.
  - intros d Hs. destruct (Hd d Hs) as (x & [->|Hin]%elem_of_cons & Hx); [unfold covers in Hx; by destruct (job_kind j) | by exists x].
  - intros Ho. destruct (Hw Ho) as (x & [->|Hin]%elem_of_cons & Hx); [unfold is_reconcile in Hx; by destruct (job_kind j) | by exists x].
Qed.

(** The first job waits for something else than before, with the same domains left. *)
Lemma recovering_wait st r j rest : recovering r -> jobs r = j :: rest -> job_stage j = not_started ->
  healthy {| job_id := job_id j; job_kind := job_kind j; job_stage := st |} -> match st with in_domains _ _ => False | _ => True end ->
  recovering (set_stage st r).
Proof.
  intros [Ht Hl Hh Hc] Hj Hs Hst Hin. rewrite Hj in Hh, Hc. apply Forall_cons in Hh as [_ Hh].
  apply (recovering_stage _ _ j rest); [done | done | done | by constructor|]. intros Hla. destruct (Hc Hla) as [Hd Hw]. split.
  - intros d Hsd. destruct (Hd d Hsd) as (x & [->|Hx]%elem_of_cons & Hc'); [|exists x; split; [by right | done]]. eexists. split; [by left|].
    unfold covers in Hc' |- *. cbn [job_kind job_stage]. destruct (job_kind j); [|done]. apply andb_true_iff in Hc' as [-> _]. by destruct st.
  - intros Ho. destruct (Hw Ho) as (x & [->|Hx]%elem_of_cons & Hr); [|exists x; split; [by right | done]]. by eexists; split; [left|].
Qed.

Lemma recovering_start r : recovering r -> recovering (start_job r).
Proof.
  intros Hr. unfold start_job. destruct (jobs r) as [|[id [ds why cp|why] []] rest] eqn:Hj; try done; rewrite (rc_torn r Hr).
  - destruct (shouldReconcileMessaging why).
    + eapply (recovering_wait _ _ _ rest); [eapply recovering_grows; [apply grows_call | exact Hr] | exact Hj | done | done | done].
    + by eapply (start_recovers ds r _ rest why cp).
  - eapply (recovering_wait _ _ _ rest); [eapply recovering_grows; [apply grows_call | exact Hr] | exact Hj | done | done | done].
Qed.

Lemma runtime_step_recovering o r : smooth o = true -> recovering r -> recovering (runtime_step o r).
Proof.
  intros Hs Hr.
  destruct o as [now event|now event|now e|c| |now| |why ds| | |now| |ok|ok|now d which a|k ok|u|b]; cbn [runtime_step]; try done.
  - unfold ingestRealtimeEvent.
    assert (Hl : forall es r0, recovering r0 -> recovering (fold_left (fun r e => on_ingress (ingest now e) r) es r0)).
    { intros es. induction es as [|e es IH]; intros r0 H0; [done|]. cbn [fold_left]. by apply IH, recovering_ingest. }
    destruct (we_body event); try by apply Hl. eapply recovering_grows; [apply grows_call | done].
  - unfold dispatchExternalEvent. cbv zeta. apply recovering_ingest. destruct (socialHostEventTargetsNotifications event); [by apply recovering_ingest | done].
  - by apply recovering_ingest.
  - eapply recovering_grows; [apply grows_call | done].
  - by apply (recovering_op (op_suspend now)).
  - by apply (recovering_op op_resume).
  - by apply recovering_push.
  - unfold drain. destruct (processing (ingress_of r)) eqn:Hp; try done.
    + by apply (recovering_op (op_task now true)).
    + destruct (handler r) as [| |ok] eqn:Hh; try done. apply (recovering_op (op_task now ok)); [done | done|]. eapply recovering_grows; [apply grows_handler | done].
    + by apply (recovering_op (op_task now true)).
  - by apply recovering_start.
  - unfold answer_session. destruct (jobs r) as [|[id [ds why cp|why] []] rest] eqn:Hj; try done.
    assert (Hg : forall b : bool, recovering (if b then r else call (reportError ("session-revalidate:" ++ why)) r)) by (intros []; [done | eapply recovering_grows; [apply grows_call | done]]).
    eapply (recovering_other_job _ _ rest); [apply Hg | by destruct ok | done].
  - destruct ok; [|done]. unfold answer_messaging. destruct (jobs r) as [|[id [ds why cp|why] []] rest] eqn:Hj; try done.
    rewrite (rc_torn r Hr). by eapply (start_recovers ds r _ rest why cp).
  - destruct a; try done. by apply answer_recovers.
  - unfold answer_handler. destruct (handler r); try done. destruct (_ !! _) as [[]|]; try done. eapply recovering_grows; [apply grows_wait | done].
  - by apply (recovering_same r).
  - destruct (activeRuntime r); [by apply (recovering_same r) | done | by apply (recovering_same r)].
Qed.

Lemma app_step_recovering a o : smooth o = true -> recovering (runtime a) -> recovering (runtime (app_step a o)).
Proof.
  intros Hs Hr. destruct o; try by apply runtime_step_recovering.
  - cbn [app_step]. unfold bootstrap. case_decide; [done|].
    assert (Hb : forall b, runtime b = runtime a -> recovering (runtime (on_runtime (fun r => scheduleReconcile BOOTSTRAP_DOMAINS "bootstrap" "" (call moments_activate (with_active this_active r))) b))).
    { intros b Hb. cbn. apply recovering_push. eapply recovering_grows; [apply grows_call|]. apply (recovering_same (runtime a)); cbn; by rewrite ?Hb. }
    unfold bind_admission. destruct (releaseMutationAdmission a); [by apply Hb|].
    destruct (bindMobileMutationAdmission _ _ _) as [[owner adm]|]; [by apply Hb | done].
  - cbn [app_step]. unfold continue_teardown. cbv zeta. destruct (tearing (runtime a)); try done.
    + destruct (processing _); try done. by apply (recovering_same (runtime a)).
    + destruct (forallb _ _); [|done]. by apply (recovering_same (runtime a)).
    + cbn [runtime]. case_decide; by apply (recovering_same (runtime a)).
Qed.

Lemma app_run_recovering ops a : forallb smooth ops = true -> recovering (runtime a) -> recovering (runtime (app_run ops a)).
Proof.
  unfold app_run. revert a. induction ops as [|o ops IH]; intros a Hs Hr; [done|]. cbn [forallb fold_left] in Hs |- *.
  apply andb_true_iff in Hs as [Hs Hss]. by apply IH, app_step_recovering.
Qed.

Lemma created_recovering key dc cc i : createSocialEventIngress dc cc = Ok i -> recovering (createSocialProjectionRuntime key i).
Proof.
  unfold createSocialEventIngress. destruct (_ || _); [done|]. intros [= <-]. by constructor.
Qed.

(** With no job left, nothing is stale and writes are open. *)
Lemma recovered r : recovering r -> jobs r = [] -> lifecycle (ingress_of r) = active -> (forall d, stale_in (ingress_of r) d = false) /\ open_in (ingress_of r) = true.
Proof.
  intros [_ _ _ Hc] Hj Hl. destruct (Hc Hl) as [Hd Hw]. rewrite Hj in Hd, Hw. split.
  - intros d. apply not_true_iff_false. intros Hs. destruct (Hd d Hs) as (j & Hin & _). by apply elem_of_nil in Hin.
  - apply not_false_iff_true. intros Ho. destruct (Hw Ho) as (j & Hin & _). by apply elem_of_nil in Hin.
Qed.
