(* ===== verification/SocialProjectionEnd.v ===== *)
(** * Jobs and handlers of the social projection runtime end

    A rank that every answer decreases, and the shape of jobs and handlers in which
    something pending always waits for an answer that can come. *)
From Stdlib Require Import Lia ZArith.
From stdpp Require Import base numbers strings list.
From S2P Require Import Prelude JsString JsonValue EventIngress EventIngressFacts MutationAdmission SocialProjection SocialProjectionFacts SocialProjectionRuns.

Open Scope string_scope.
Open Scope list_scope.
Open Scope nat_scope.

Definition sum (l : list nat) : nat := foldr Nat.add 0 l.

(** ** The rank *)
Definition stage_rank (s : DomainStage) : nat :=
  match s with awaiting first second => (if first then 2 else 0) + (if second then 1 else 0) | settled _ => 0 end.

Definition progress_rank (progress : list (ProjectionDomain * DomainStage)) : nat := sum ((fun p => stage_rank p.2) <$> progress).

Definition kind_rank (k : JobKind) : nat :=
  match k with job_reconcile ds _ _ => 3 + 3 * length (unique_domains ds) | job_revalidate _ => 2 end.

Definition job_rank (j : Job) : nat :=
  match job_stage j, job_kind j with
  | not_started, k => kind_rank k
  | in_messaging, job_reconcile ds _ _ => 2 + 3 * length (unique_domains ds)
  | in_domains _ progress, _ => 1 + progress_rank progress
  | _, _ => 1
  end.

Definition action_rank (a : Action) : nat :=
  match a with a_call _ => 1 | a_schedule ds _ _ => 3 + 3 * length (unique_domains ds) end.

Definition stages_rank (l : list Stage) : nat := sum ((fun s => 1 + sum (action_rank <$> st_actions s)) <$> l).
Definition waits_rank (l : list Wait) : nat := sum ((fun w => match w with w_call _ => 1 | w_job _ => 0 end) <$> l).

Definition handler_rank (h : Handler) : nat :=
  match h with running waits _ rest => 1 + waits_rank waits + stages_rank rest | _ => 0 end.

Definition jobs_rank (r : Runtime) : nat := sum (job_rank <$> jobs r).
Definition rank (r : Runtime) : nat := jobs_rank r + handler_rank (handler r).

Arguments sum : simpl never.
Arguments jobs_rank : simpl never.
Arguments waits_rank : simpl never.
Arguments stages_rank : simpl never.
Arguments kind_rank : simpl never.

Lemma sum_cons x l : sum (x :: l) = x + sum l.
Proof. done. Qed.

Lemma sum_app l1 l2 : sum (l1 ++ l2) = sum l1 + sum l2.
Proof. induction l1 as [|x l1 IH]; [done|]. cbn [app]. rewrite !sum_cons, IH. lia. Qed.

Lemma waits_rank_cons w ws : waits_rank (w :: ws) = match w with w_call _ => 1 | w_job _ => 0 end + waits_rank ws.
Proof. done. Qed.

Lemma stages_rank_cons s l : stages_rank (s :: l) = 1 + sum (action_rank <$> st_actions s) + stages_rank l.
Proof. done. Qed.

Lemma jobs_rank_cons r j rest : jobs r = j :: rest -> jobs_rank r = job_rank j + sum (job_rank <$> rest).
Proof. unfold jobs_rank. by intros ->. Qed.

Lemma jobs_rank_push k r : jobs_rank (push_job k r) = jobs_rank r + kind_rank k.
Proof. unfold jobs_rank. cbn [jobs push_job with_jobs]. rewrite fmap_app, sum_app. cbn. rewrite sum_cons. cbn. unfold sum. cbn. lia. Qed.

Lemma calls_rank cs r : jobs_rank (call_all cs r) = jobs_rank r /\ handler (call_all cs r) = handler r /\ jobs (call_all cs r) = jobs r.
Proof. unfold call_all. revert r. induction cs as [|c cs IH]; intros r; [done|]. cbn [fold_left]. destruct (IH (call c r)) as (-> & -> & ->). done. Qed.

Lemma actions_rank l r : let '(ws, r') := start_actions l r in waits_rank ws + jobs_rank r' = jobs_rank r + sum (action_rank <$> l).
Proof.
  revert r. induction l as [|a l IH]; intros r; cbn [start_actions]; [unfold waits_rank, sum; cbn; lia|]. rewrite fmap_cons, sum_cons. destruct a as [c|ds why cp]; cbn iota beta.
  - specialize (IH (call c r)). destruct (start_actions l (call c r)) as [ws r']. rewrite waits_rank_cons.
    change (jobs_rank (call c r)) with (jobs_rank r) in IH. cbn [action_rank]. lia.
  - specialize (IH (scheduleReconcile ds why cp r)). destruct (start_actions l (scheduleReconcile ds why cp r)) as [ws r'].
    unfold scheduleReconcile in IH. rewrite jobs_rank_push in IH. rewrite waits_rank_cons. unfold kind_rank in IH. cbn [action_rank]. lia.
Qed.

Lemma launch_rank stages r : rank (launch stages r) <= 1 + stages_rank stages + jobs_rank r.
Proof.
  revert r. induction stages as [|s rest IH]; intros r; cbn [launch].
  - unfold rank. cbn [handler with_handler handler_rank]. change (jobs_rank (with_handler _ r)) with (jobs_rank r). lia.
  - pose proof (actions_rank (st_actions s) r) as H. rewrite stages_rank_cons. destruct (start_actions (st_actions s) r) as [[|w ws] r'].
    + specialize (IH r'). lia.
    + unfold rank. cbn [handler with_handler handler_rank]. change (jobs_rank (with_handler _ r')) with (jobs_rank r'). lia.
Qed.

Lemma waits_delete k w ws : ws !! k = Some w -> waits_rank ws = waits_rank (delete k ws) + waits_rank [w].
Proof.
  revert k. induction ws as [|x ws IH]; intros [|k] Hk; cbn in Hk; try done.
  - injection Hk as ->. change (delete 0 (w :: ws)) with ws. rewrite !waits_rank_cons. change (waits_rank []) with 0. lia.
  - specialize (IH k Hk). change (delete (S k) (x :: ws)) with (x :: delete k ws). rewrite !(waits_rank_cons x). lia.
Qed.

(** A wait that ends takes at least itself from the rank. *)
Lemma wait_rank k w ok r waits more rest : handler r = running waits more rest -> waits !! k = Some w ->
  rank (wait_settled k ok r) + waits_rank [w] <= rank r.
Proof.
  intros Hh Hk. unfold wait_settled. rewrite Hh. pose proof (waits_delete k w waits Hk) as Hw. unfold rank at 2. rewrite Hh. cbn [handler_rank].
  destruct (ok || more).
  - destruct (delete k waits) as [|x ws] eqn:Hd.
    + pose proof (launch_rank rest r) as Hl. change (waits_rank []) with 0 in Hw. lia.
    + unfold rank. cbn [handler with_handler handler_rank]. change (jobs_rank (with_handler _ r)) with (jobs_rank r). lia.
  - unfold rank. cbn [handler with_handler handler_rank]. change (jobs_rank (with_handler _ r)) with (jobs_rank r). lia.
Qed.

(** Ending the first job takes its rank. *)
Lemma finish_rank r j rest : jobs r = j :: rest -> rank (finish_job r) + job_rank j <= rank r.
Proof.
  intros Hj. unfold finish_job. rewrite Hj. set (r1 := with_jobs rest (next_job r) r).
  assert (H1 : rank r1 + job_rank j = rank r) by (unfold rank; rewrite (jobs_rank_cons r j rest Hj); unfold jobs_rank; cbn [jobs with_jobs handler r1]; lia).
  change (handler r1) with (handler r). destruct (handler r) as [|waits more stages|] eqn:Hh; try lia.
  case_match eqn:Hf; [|lia]. case_match. subst. apply list_find_Some in Hf as (Hk & _).
  pose proof (wait_rank n w true r1 waits more stages Hh Hk). lia.
Qed.

Lemma stage_set_rank st r j rest : jobs r = j :: rest ->
  rank (set_stage st r) + job_rank j = rank r + job_rank {| job_id := job_id j; job_kind := job_kind j; job_stage := st |}.
Proof.
  intros Hj. unfold set_stage. rewrite Hj. unfold rank. rewrite (jobs_rank_cons r j rest Hj). set (j' := {| job_id := _; job_kind := _; job_stage := _ |}).
  rewrite (jobs_rank_cons (with_jobs (j' :: rest) (next_job r) r) j' rest) by done. cbn [handler with_jobs]. lia.
Qed.

(** ** Ingress operations that ask for nothing *)
Definition silent (n : IngressNotice) : Prop := match n with note_staleness _ _ | note_admission _ => True | _ => False end.

Definition asks_nothing (f : ingress -> ingress) : Prop := forall i, exists new, notices (f i) = notices i ++ new /\ Forall silent new.

Lemma nothing_repair now d c : asks_nothing (repairCursor now d c).
Proof.
  intros i. unfold repairCursor. case_decide; [exists []; by rewrite app_nil_r|]. cbv zeta. unfold clearStaleness. destruct (is_stale _).
  - eexists [_]. split; [done | by repeat constructor].
  - exists []. by rewrite app_nil_r.
Qed.

Lemma nothing_reopen : asks_nothing reopenAdmission.
Proof.
  intros i. unfold reopenAdmission. case_decide; [exists []; by rewrite app_nil_r|]. destruct (any_data_stale i); [exists []; by rewrite app_nil_r|].
  eexists [_]. split; [done | by repeat constructor].
Qed.

Lemma nothing_mark now d why cp : asks_nothing (markStale now d why cp false).
Proof. intros i. eexists [_]. split; [done | by repeat constructor]. Qed.

(** Such an operation leaves jobs and handler alone. *)
Record same_work (r r' : Runtime) : Prop := {
  sw_jobs : jobs r' = jobs r;
  sw_handler : handler r' = handler r;
  sw_next : next_job r' = next_job r
}.

#[export] Instance same_work_preorder : PreOrder same_work.
Proof. split; [by constructor|]. intros r1 r2 r3 [] []. constructor; congruence. Qed.

Lemma work_rank r r' : same_work r r' -> rank r' = rank r.
Proof. intros [Hj Hh _]. unfold rank, jobs_rank. by rewrite Hj, Hh. Qed.

Lemma work_call c r : same_work r (call c r).
Proof. by constructor. Qed.

Lemma work_calls cs r : same_work r (call_all cs r).
Proof. unfold call_all. revert r. induction cs as [|c cs IH]; intros r; [done|]. cbn [fold_left]. etrans; [apply work_call | apply IH]. Qed.

Lemma work_ingress f r : asks_nothing f -> same_work r (on_ingress f r).
Proof.
  intros Hf. destruct (Hf (ingress_of r)) as (new & Hn & Hs). unfold on_ingress. rewrite Hn, drop_app_length. etrans; [by apply (Build_same_work r (with_ingress (f (ingress_of r)) r))|].
  generalize (with_ingress (f (ingress_of r)) r). clear Hn. induction Hs as [|n ns Hn Hs IH]; intros r0; [done|]. cbn [fold_left].
  etrans; [|apply IH]. by destruct n.
Qed.

Lemma work_failed now d why cp m r : same_work r (domain_failed now d why cp m r).
Proof.
  unfold domain_failed. destruct (is_torn r); [done|]. etrans; [apply work_ingress, nothing_mark|].
  destruct d; repeat first [apply work_call | etrans; [apply work_call|]].
Qed.

(** ** Answers decrease the rank *)
Lemma finish_domains_rank ready results r j rest : jobs r = j :: rest -> rank (finish_domains ready results r) + job_rank j <= rank r.
Proof.
  intros Hj. unfold finish_domains. set (r1 := if _ && _ then _ else r). set (r2 := if is_torn r1 then _ else _).
  assert (Hw : same_work r r2).
  { etrans; [|subst r2; instantiate (1 := r1); by destruct (is_torn r1)]. subst r1. destruct (_ && _); [apply work_ingress, nothing_reopen | done]. }
  rewrite <- (work_rank _ _ Hw). apply finish_rank with rest. by rewrite (sw_jobs _ _ Hw).
Qed.

Lemma check_rank ready progress r j rest : jobs r = j :: rest -> 1 + progress_rank progress < job_rank j -> rank (check_domains ready progress r) < rank r.
Proof.
  intros Hj Hp. unfold check_domains. destruct (results_of progress) as [results|].
  - pose proof (finish_domains_rank ready results r j rest Hj). assert (0 < job_rank j); lia.
  - pose proof (stage_set_rank (in_domains ready progress) r j rest Hj) as Hs. unfold job_rank in Hs at 2. cbn [job_stage job_kind] in Hs. lia.
Qed.

Lemma progress_rank_cons p l : progress_rank (p :: l) = stage_rank p.2 + progress_rank l.
Proof. done. Qed.

Lemma first_progress l : progress_rank ((fun d => (d, first_stage d)) <$> l) <= 3 * length l.
Proof. induction l as [|d l IH]; [done|]. rewrite fmap_cons, progress_rank_cons. cbn [length snd]. assert (stage_rank (first_stage d) <= 3) by (destruct d; vm_compute; lia). lia. Qed.

Lemma set_progress_rank d s t progress : NoDup progress.*1 -> stage_of d progress = Some t ->
  progress_rank (set_progress d s progress) + stage_rank t = progress_rank progress + stage_rank s.
Proof.
  unfold stage_of, set_progress. induction progress as [|[x u] progress IH]; [done|]. intros [Hni Hn]%NoDup_cons. rewrite fmap_cons, !progress_rank_cons. cbn [find fst snd].
  destruct (decide (x = d)) as [->|Hx].
  - rewrite bool_decide_true by done. intros [= ->]. cbn [snd].
    assert (Hsame : (fun p : ProjectionDomain * DomainStage => if decide (p.1 = d) then (d, s) else p) <$> progress = progress).
    { clear -Hni. cbn in Hni. induction progress as [|[y v] progress IH]; [done|]. cbn in Hni. apply not_elem_of_cons in Hni as [? ?].
      rewrite fmap_cons. cbv beta. cbn [fst]. rewrite decide_False by congruence. by rewrite IH. }
    rewrite Hsame. lia.
  - rewrite bool_decide_false by done. intros Hs. cbn [snd]. specialize (IH Hn Hs). lia.
Qed.

(** ** The shape of jobs and handlers *)
Definition outstanding_stage (s : DomainStage) : bool := match s with awaiting first second => first || second | settled _ => false end.

(** A stage that a job of this kind can be in, with something to wait for. *)
Definition shape (j : Job) : Prop :=
  match job_kind j, job_stage j with
  | _, not_started => True
  | job_revalidate _, in_session => True
  | job_reconcile _ _ _, in_messaging => True
  | job_reconcile _ _ _, in_domains _ progress =>
      NoDup progress.*1 /\ (exists d s, stage_of d progress = Some s /\ outstanding_stage s = true)
      /\ forall d f s, (d, awaiting f s) ∈ progress -> f || s = true
  | _, _ => False
  end.

Definition job_waits (ws : list Wait) : list nat := omap (fun w => match w with w_job id => Some id | w_call _ => None end) ws.

Record shaped (r : Runtime) : Prop := {
  sh_jobs : Forall shape (jobs r);
  sh_order : jobs_inv r;
  sh_handler : forall ws all rest, handler r = running ws all rest ->
    ws <> [] /\ NoDup (job_waits ws) /\ forall id, id ∈ job_waits ws -> id ∈ job_id <$> jobs r
}.

(** Somebody waits for the answer. *)
Definition enabled (o : Op) (r : Runtime) : bool :=
  match o, jobs r with
  | o_start_job, {| job_stage := not_started |} :: _ => true
  | o_session _, {| job_kind := job_revalidate _; job_stage := in_session |} :: _ => true
  | o_messaging _, {| job_kind := job_reconcile _ _ _; job_stage := in_messaging |} :: _ => true
  | o_domain _ d which _, {| job_kind := job_reconcile _ _ _; job_stage := in_domains _ progress |} :: _ =>
      match stage_of d progress with Some (awaiting first second) => if which then second else first | _ => false end
  | o_handler k _, _ => match handler r with running ws _ _ => match ws !! k with Some (w_call _) => true | _ => false end | _ => false end
  | _, _ => false
  end.

Lemma start_domains_rank ds ready r j rest : jobs r = j :: rest -> 1 + 3 * length (unique_domains ds) < job_rank j -> rank (start_domains ds ready r) < rank r.
Proof.
  intros Hj Hr. unfold start_domains. rewrite <- (work_rank _ _ (work_calls (concat (domain_calls <$> unique_domains ds)) r)).
  apply check_rank with j rest; [by rewrite (sw_jobs _ _ (work_calls _ r))|]. pose proof (first_progress (unique_domains ds)). lia.
Qed.

Lemma start_job_rank r : if enabled o_start_job r then rank (start_job r) < rank r else start_job r = r.
Proof.
  unfold start_job, enabled. destruct (jobs r) as [|[id k []] rest] eqn:Hj; try done.
  pose proof (finish_rank r _ rest Hj) as Hf. unfold job_rank in Hf. cbn [job_stage job_kind] in Hf.
  destruct (is_torn r); [destruct k; unfold kind_rank in Hf; lia|]. destruct k as [ds why cp|why].
  - destruct (shouldReconcileMessaging why).
    + pose proof (stage_set_rank in_messaging (call (wakeMessaging (bool_decide (why = "periodic"))) r) _ rest Hj) as Hs. unfold job_rank, kind_rank in Hs. cbn [job_stage job_kind] in Hs.
      rewrite (work_rank _ _ (work_call _ r)) in Hs. lia.
    + apply (start_domains_rank ds true r _ rest Hj). unfold job_rank, kind_rank. cbn [job_stage job_kind]. lia.
  - pose proof (stage_set_rank in_session (call revalidateSession r) _ rest Hj) as Hs. unfold job_rank, kind_rank in Hs. cbn [job_stage job_kind] in Hs.
    rewrite (work_rank _ _ (work_call _ r)) in Hs. lia.
Qed.

Lemma messaging_rank ok r : if enabled (o_messaging ok) r then rank (answer_messaging ok r) < rank r else answer_messaging ok r = r.
Proof.
  unfold answer_messaging, enabled. destruct (jobs r) as [|[id [ds why cp|why] []] rest] eqn:Hj; try done.
  set (r1 := if ok then r else _). assert (Hw : same_work r r1) by (subst r1; destruct ok; [done | apply work_call]).
  rewrite <- (work_rank _ _ Hw). rewrite <- (sw_jobs _ _ Hw) in Hj. destruct (is_torn r1).
  - pose proof (finish_rank r1 _ rest Hj) as Hf. unfold job_rank in Hf. cbn [job_stage job_kind] in Hf. lia.
  - apply (start_domains_rank ds ok r1 _ rest Hj). unfold job_rank. cbn [job_stage job_kind]. lia.
Qed.

Lemma session_rank ok r : if enabled (o_session ok) r then rank (answer_session ok r) < rank r else answer_session ok r = r.
Proof.
  unfold answer_session, enabled. destruct (jobs r) as [|[id [ds why cp|why] []] rest] eqn:Hj; try done.
  set (r1 := if ok then r else _). assert (Hw : same_work r r1) by (subst r1; destruct ok; [done | apply work_call]).
  rewrite <- (work_rank _ _ Hw). rewrite <- (sw_jobs _ _ Hw) in Hj. pose proof (finish_rank r1 _ rest Hj) as Hf. unfold job_rank in Hf. cbn [job_stage job_kind] in Hf. lia.
Qed.

Lemma handler_answer_rank k ok r : if enabled (o_handler k ok) r then rank (answer_handler k ok r) < rank r else answer_handler k ok r = r.
Proof.
  unfold answer_handler, enabled. destruct (handler r) as [|ws more rest|] eqn:Hh; try done. destruct (ws !! k) as [[c|id]|] eqn:Hk; try done.
  pose proof (wait_rank k (w_call c) ok r ws more rest Hh Hk) as Hw. change (waits_rank [w_call c]) with 1 in Hw. lia.
Qed.

Lemma verdict_wait torn d (f s which : bool) a (f' s' : bool) made : (if which then s else f) = true -> reconcileDomain torn d f s which a = v_wait f' s' made ->
  stage_rank (awaiting f' s') < stage_rank (awaiting f s) /\ f' || s' = true.
Proof.
  intros Hw Hv. destruct f, s, which; try done; destruct a, d; cbn in Hv; try done; repeat case_match; simplify_eq; cbn; split; (lia || done).
Qed.

Lemma domain_rank now d which a r : shaped r ->
  if enabled (o_domain now d which a) r then rank (answer_domain now d which a r) < rank r else answer_domain now d which a r = r.
Proof.
  intros [Hsh _ _]. unfold answer_domain, enabled. destruct (jobs r) as [|[id [ds why cp|why] [| | |ready progress]] rest] eqn:Hj; try done.
  destruct (stage_of d progress) as [[f s|ok]|] eqn:Hst; try done. destruct (if which then s else f) eqn:Hw; [|done]. cbn [negb].
  apply Forall_cons in Hsh as [(Hnd & _ & Hout) _]. pose proof (Hout d f s (stage_of_elem _ _ _ Hst)) as Hfs.
  assert (Hdone : forall ok, progress_rank (set_progress d (settled ok) progress) < progress_rank progress).
  { intros ok. pose proof (set_progress_rank d (settled ok) _ progress Hnd Hst) as Hr. destruct f, s; try done; cbn in Hr; lia. }
  assert (Hjr : forall p', 1 + progress_rank p' < job_rank {| job_id := id; job_kind := job_reconcile ds why cp; job_stage := in_domains ready progress |} <-> progress_rank p' < progress_rank progress).
  { intros p'. unfold job_rank. cbn [job_stage job_kind]. lia. }
  destruct (reconcileDomain (is_torn r) d f s which a) as [f' s' made|ok made|m] eqn:Hv.
  - apply verdict_wait in Hv as [Hlt _]; [|done]. pose proof (set_progress_rank d (awaiting f' s') _ progress Hnd Hst) as Hr.
    pose proof (stage_set_rank (in_domains ready (set_progress d (awaiting f' s') progress)) (call_all made r)
      {| job_id := id; job_kind := job_reconcile ds why cp; job_stage := in_domains ready progress |} rest) as Hs.
    rewrite (sw_jobs _ _ (work_calls made r)), (work_rank _ _ (work_calls made r)) in Hs. specialize (Hs Hj). unfold job_rank in Hs. cbn [job_stage job_kind] in Hs. lia.
  - set (r1 := if _ && _ then _ else _). assert (Hwk : same_work r r1).
    { etrans; [apply (work_calls made)|]. subst r1. destruct (_ && _); [apply work_ingress, nothing_repair | done]. }
    rewrite <- (work_rank _ _ Hwk). eapply check_rank; [by rewrite (sw_jobs _ _ Hwk)|]. by apply Hjr.
  - pose proof (work_failed now d why cp m r) as Hwk. rewrite <- (work_rank _ _ Hwk). eapply check_rank; [by rewrite (sw_jobs _ _ Hwk)|]. by apply Hjr.
Qed.

(** An answer that nobody waits for changes nothing, every other decreases the rank. *)
Lemma answer_rank o r : is_answer o = true -> shaped r -> if enabled o r then rank (runtime_step o r) < rank r else runtime_step o r = r.
Proof.
  intros Ho Hr. destruct o; try done; cbn [runtime_step];
    [apply start_job_rank | apply session_rank | apply messaging_rank | by apply domain_rank | apply handler_answer_rank].
Qed.

(** ** The shape is kept *)
Definition shaped_jobs (r : Runtime) : Prop := Forall shape (jobs r) /\ jobs_inv r.

Lemma unstarted_shape l : Forall (fun j => job_stage j = not_started) l -> Forall shape l.
Proof. intros Hl. eapply Forall_impl; [exact Hl|]. intros [id k st]. cbn. intros ->. by destruct k. Qed.

Lemma shaped_jobs_grow r r' : grows r r' -> shaped_jobs r -> shaped_jobs r'.
Proof.
  intros Hg [Hs Hi]. split; [|by eapply jobs_grow]. destruct (gr_jobs _ _ Hg) as (new & -> & Hn & _).
  apply Forall_app. split; [done | by apply unstarted_shape].
Qed.

Lemma shaped_grow r r' : grows r r' -> handler r' = handler r -> shaped r -> shaped r'.
Proof.
  intros Hg Hh [Hs Hi Hw]. destruct (shaped_jobs_grow r r' Hg) as [? ?]; [done|]. constructor; [done..|]. rewrite Hh. intros ws all rest Heq.
  destruct (Hw ws all rest Heq) as (? & ? & Hin). split_and!; [done..|]. intros id Hid. destruct (gr_jobs _ _ Hg) as (new & -> & _).
  rewrite fmap_app. apply elem_of_app. left. auto.
Qed.

Lemma actions_waits l r : let '(ws, r') := start_actions l r in exists new, jobs r' = jobs r ++ new /\ job_id <$> new = job_waits ws.
Proof.
  revert r. induction l as [|a l IH]; intros r; cbn [start_actions]; [exists []; by rewrite app_nil_r|]. destruct a as [c|ds why cp]; cbn iota beta.
  - specialize (IH (call c r)). by destruct (start_actions l (call c r)) as [ws r'].
  - specialize (IH (scheduleReconcile ds why cp r)). destruct (start_actions l (scheduleReconcile ds why cp r)) as [ws r'].
    destruct IH as (new & Hj & Hw). cbn [jobs scheduleReconcile push_job with_jobs] in Hj. rewrite <- (assoc_L (++)) in Hj.
    eexists. split; [exact Hj|]. cbn. by rewrite Hw.
Qed.

Lemma ids_distinct r : jobs_inv r -> NoDup (job_id <$> jobs r).
Proof. intros [(n & -> & _) _]. apply NoDup_seq. Qed.

Lemma shaped_handled h r : shaped_jobs r -> match h with running _ _ _ => False | _ => True end -> shaped (with_handler h r).
Proof. intros [Hs Hi] Hh. constructor; [done | by apply (jobs_same r)|]. intros ws all rest Heq. cbn in Heq. by rewrite Heq in Hh. Qed.

Lemma shaped_launch stages r : shaped_jobs r -> shaped (launch stages r).
Proof.
  revert r. induction stages as [|s rest IH]; intros r Hs; cbn [launch]; [by apply shaped_handled|].
  pose proof (grows_actions (st_actions s) r) as Hg. pose proof (actions_waits (st_actions s) r) as Hw.
  destruct (start_actions (st_actions s) r) as [[|w ws] r']; cbn [snd] in Hg; pose proof (shaped_jobs_grow _ _ Hg Hs) as Hs'; [by apply IH|].
  destruct Hs' as [? Hi]. constructor; [done | by apply (jobs_same r') |]. intros ws' all rest' [= <- <- <-]. destruct Hw as (new & Hj & Hn).
  pose proof (ids_distinct r' Hi) as Hd. rewrite Hj, fmap_app, Hn in Hd. apply NoDup_app in Hd as (_ & _ & Hd). split_and!; [done | done|].
  intros id Hid. cbn [jobs with_handler]. rewrite Hj, fmap_app, Hn. apply elem_of_app. by right.
Qed.

Lemma waits_sublist k ws : sublist (job_waits (delete k ws)) (job_waits ws).
Proof.
  unfold job_waits. revert k. induction ws as [|w ws IH]; intros [|k]; [done | done | |].
  - change (delete 0 (w :: ws)) with ws. cbn. destruct w; [done | by apply sublist_cons].
  - change (delete (S k) (w :: ws)) with (w :: delete k ws). cbn. destruct w; [apply IH | apply sublist_skip, IH].
Qed.

(** A wait ends, and the jobs the others wait for are still there. *)
Lemma shaped_wait k ok r ws all rest : handler r = running ws all rest -> shaped_jobs r -> NoDup (job_waits ws) ->
  (forall id, id ∈ job_waits (delete k ws) -> id ∈ job_id <$> jobs r) -> shaped (wait_settled k ok r).
Proof.
  intros Hh Hs Hnd Hin. unfold wait_settled. rewrite Hh. destruct (ok || all); [|by apply shaped_handled].
  destruct (delete k ws) as [|w ws'] eqn:Hd; [by apply shaped_launch|]. destruct Hs as [Hs Hi]. constructor; [done | by apply (jobs_same r)|].
  intros ws0 all0 rest0 [= <- <- <-]. split_and!; [done | | done]. pose proof (waits_sublist k ws) as Hsub. rewrite Hd in Hsub. by eapply sublist_NoDup.
Qed.

Lemma shaped_finish r : shaped r -> shaped (finish_job r).
Proof.
  intros [Hs Hi Hw]. pose proof (ids_distinct r Hi) as Hd. pose proof (jobs_finish r Hi) as Hif. unfold finish_job in *. destruct (jobs r) as [|j rest] eqn:Hj; [by constructor; rewrite ?Hj|].
  assert (Hsj : shaped_jobs (with_jobs rest (next_job r) r)).
  { split; [by apply Forall_cons in Hs as [_ ?]|]. destruct Hi as [(n & Hids & Hnext) Hrest]. rewrite Hj in *. constructor; cbn.
    - exists (S n). cbn in Hids, Hnext. injection Hids as _ ->. split; [done | lia].
    - cbn in Hrest. destruct rest; [done|]. by apply Forall_cons in Hrest as [_ ?]. }
  cbn in Hd. apply NoDup_cons in Hd as [Hni _].
  cbn [handler with_jobs] in *. destruct (handler r) as [|ws all more|] eqn:Hh; [destruct Hsj; constructor; cbn; rewrite ?Hh; done| |destruct Hsj; constructor; cbn; rewrite ?Hh; done].
  destruct (Hw ws all more eq_refl) as (Hne & Hnd & Hin). case_match eqn:Hf.
  - case_match. subst. apply list_find_Some in Hf as (Hk & -> & _). apply (shaped_wait n true _ ws all more); [done | done | done|].
    intros id Hid. cbn [jobs with_jobs]. assert (Hid' : id ∈ job_waits ws) by (eapply elem_of_sublist; [exact Hid | apply waits_sublist]).
    apply Hin in Hid'. cbn in Hid'. apply elem_of_cons in Hid' as [->|?]; [|done]. exfalso.
    clear -Hk Hid Hnd. revert n Hk Hid. induction ws as [|w ws IH]; intros [|n] Hk Hid; cbn in Hk; try done.
    + injection Hk as ->. change (delete 0 (w_job (job_id j) :: ws)) with ws in Hid. cbn in Hnd. by apply NoDup_cons in Hnd as [? _].
    + change (delete (S n) (w :: ws)) with (w :: delete n ws) in Hid. destruct w as [c|i]; cbn in Hid, Hnd; [by eapply IH|].
      apply NoDup_cons in Hnd as [Hni Hnd]. apply elem_of_cons in Hid as [<-|Hid]; [|by eapply IH]. apply Hni. apply list_elem_of_omap. exists (w_job (job_id j)).
      split; [by eapply list_elem_of_lookup_2 | done].
  - destruct Hsj. constructor; [done..|]. cbn [handler with_jobs]. rewrite Hh. intros ws0 all0 more0 [= <- <- <-]. split_and!; [done..|].
    intros id Hid. pose proof (Hin id Hid) as Hid'. cbn in Hid'. apply elem_of_cons in Hid' as [->|?]; [|done]. exfalso.
    apply list_elem_of_omap in Hid as (w & Hw1 & Hw2). destruct w as [|i]; [done|]. injection Hw2 as ->. apply list_find_None in Hf.
    rewrite Forall_forall in Hf. by apply (Hf _ Hw1).
Qed.

(** Callbacks of the ingress: jobs are added, and a handler may start. *)
Lemma shaped_notices ns r : shaped r -> shaped (fold_left (fun r n => notice n r) ns r).
Proof.
  revert r. induction ns as [|n ns IH]; intros r Hr; [done|]. cbn [fold_left]. apply IH.
  destruct n; cbn [notice]; try (eapply shaped_grow; [first [apply grows_call | apply grows_push] | done | done]).
  unfold start_handler. destruct Hr as [Hs Hi _]. destruct (routeIngressEvent e r) as [[now stages]|]; [|by apply shaped_handled].
  apply shaped_launch. by eapply shaped_jobs_grow; [apply grows_calls|].
Qed.

Lemma shaped_same r r' : jobs r' = jobs r -> next_job r' = next_job r -> handler r' = handler r -> shaped r -> shaped r'.
Proof. intros Hj Hn Hh [Hs Hi Hw]. constructor; rewrite ?Hj, ?Hh; try done. by apply (jobs_same r). Qed.

Lemma shaped_ingress f r : shaped r -> shaped (on_ingress f r).
Proof. intros Hr. apply shaped_notices. by apply (shaped_same r). Qed.

Lemma shaped_work r r' : same_work r r' -> shaped r -> shaped r'.
Proof. intros [Hj Hh Hn]. by apply shaped_same. Qed.

Lemma shaped_stage st r j rest : jobs r = j :: rest -> shape {| job_id := job_id j; job_kind := job_kind j; job_stage := st |} -> shaped r -> shaped (set_stage st r).
Proof.
  intros Hj Hst [Hs Hi Hw]. pose proof (jobs_stage st r Hi) as Hi'. unfold set_stage in *. rewrite Hj in *. apply Forall_cons in Hs as [_ Hs].
  constructor; [by constructor | done | exact Hw].
Qed.

(** A stage that some call of is awaited. *)
Lemma unsettled progress : results_of progress = None -> NoDup progress.*1 -> (forall d f s, (d, awaiting f s) ∈ progress -> f || s = true) ->
  exists d s, stage_of d progress = Some s /\ outstanding_stage s = true.
Proof.
  unfold results_of, stage_of. induction progress as [|[d [f s|ok]] progress IH]; intros Hr Hnd Hout; [done| |].
  - exists d, (awaiting f s). cbn [find fst]. rewrite bool_decide_true by done. split; [done|]. cbn. apply (Hout d). left.
  - apply NoDup_cons in Hnd as [Hni Hnd]. cbn in Hr. destruct (mapM _ progress) eqn:Hm; [done|].
    destruct IH as (d' & s & Hs & Ho); [done | done | intros; eapply Hout; by right|]. exists d', s. split; [|done]. cbn [find fst].
    rewrite bool_decide_false; [done|]. intros ->. apply Hni. destruct (find _ progress) as [p|] eqn:Hf; [|done]. apply find_some in Hf as [Hin Hp].
    apply bool_decide_eq_true in Hp. cbn. rewrite <- Hp. apply list_elem_of_fmap. exists p. split; [done | by apply list_elem_of_In].
Qed.

Lemma shaped_check ready progress r j rest ds why cp : jobs r = j :: rest -> job_kind j = job_reconcile ds why cp -> NoDup progress.*1 ->
  (forall d f s, (d, awaiting f s) ∈ progress -> f || s = true) -> shaped r -> shaped (check_domains ready progress r).
Proof.
  intros Hj Hk Hnd Hout Hr. unfold check_domains. destruct (results_of progress) as [results|] eqn:Hres.
  - unfold finish_domains. apply shaped_finish. set (r1 := if _ && _ then _ else r).
    assert (H1 : shaped r1) by (subst r1; destruct (_ && _); [by apply shaped_ingress | done]).
    destruct (is_torn r1); [done|]. by eapply shaped_work; [apply work_call|].
  - eapply shaped_stage; [exact Hj | | done]. unfold shape. cbn [job_kind job_stage]. rewrite Hk. split_and!; [done | by apply unsettled | done].
Qed.

Lemma unique_nodup ds : NoDup (unique_domains ds).
Proof.
  unfold unique_domains. enough (Hg : forall acc, NoDup acc -> NoDup (fold_left (fun acc d => if decide (d ∈ acc) then acc else acc ++ [d]) ds acc)) by (apply Hg; constructor).
  induction ds as [|d ds IH]; intros acc Hacc; [done|]. cbn [fold_left]. apply IH. case_decide; [done|].
  apply NoDup_app. split_and!; [done | intros x Hx ->%list_elem_of_singleton; done | apply NoDup_singleton].
Qed.

Lemma shaped_start ds ready r j rest why cp : jobs r = j :: rest -> job_kind j = job_reconcile ds why cp -> shaped r -> shaped (start_domains ds ready r).
Proof.
  intros Hj Hk Hr. unfold start_domains. eapply shaped_check; [by rewrite (sw_jobs _ _ (work_calls _ r)) | exact Hk | | | by eapply shaped_work; [apply work_calls|]].
  - rewrite <- list_fmap_compose. replace (fst ∘ _ <$> unique_domains ds) with (unique_domains ds); [apply unique_nodup | symmetry; by apply list_fmap_id].
  - by intros d f s (x & [= -> -> ->] & _)%list_elem_of_fmap.
Qed.

Lemma shaped_answer now d which a r : shaped r -> shaped (answer_domain now d which a r).
Proof.
  intros Hr. pose proof Hr as [Hs _ _]. unfold answer_domain. destruct (jobs r) as [|[id [ds why cp|why] [| | |ready progress]] rest] eqn:Hj; try done.
  destruct (stage_of d progress) as [[f s|ok]|] eqn:Hst; try done. destruct (negb _) eqn:Hw; [done|]. apply negb_false_iff in Hw.
  apply Forall_cons in Hs as [(Hnd & _ & Hout) _].
  assert (Hset : forall st, NoDup (set_progress d st progress).*1) by (intros st; by rewrite set_progress_domains).
  assert (Hsettled : forall ok d' f' s', (d', awaiting f' s') ∈ set_progress d (settled ok) progress -> f' || s' = true).
  { intros ok d' f' s' [[_ Hin]|(_ & [=] & _)]%set_progress_elem. by apply (Hout d'). }
  destruct (reconcileDomain (is_torn r) d f s which a) as [f' s' made|ok made|m] eqn:Hv.
  - apply verdict_wait in Hv as [_ Hfs]; [|done]. eapply shaped_stage; [by rewrite (sw_jobs _ _ (work_calls made r)) | | by eapply shaped_work; [apply work_calls|]].
    unfold shape. cbn [job_kind job_stage]. split_and!; [done | |].
    + exists d, (awaiting f' s'). split; [by apply (stage_of_set_same _ _ (awaiting f s)) | done].
    + intros d' f0 s0 [[_ Hin]|(_ & [= -> ->] & _)]%set_progress_elem; [by apply (Hout d') | done].
  - set (r1 := if _ && _ then _ else _). assert (Hwk : same_work r r1).
    { etrans; [apply (work_calls made)|]. subst r1. destruct (_ && _); [apply work_ingress, nothing_repair | done]. }
    eapply shaped_check; [by rewrite (sw_jobs _ _ Hwk) | done | done | by apply Hsettled | by eapply shaped_work].
  - pose proof (work_failed now d why cp m r) as Hwk.
    eapply shaped_check; [by rewrite (sw_jobs _ _ Hwk) | done | done | by apply Hsettled | by eapply shaped_work].
Qed.

Lemma shaped_ingest now e r : shaped r -> shaped (on_ingress (ingest now e) r).
Proof. apply shaped_ingress. Qed.

Lemma shaped_push k r : shaped r -> shaped (push_job k r).
Proof. intros Hr. by eapply shaped_grow; [apply grows_push | |]. Qed.

Lemma shaped_wait_call k ok r ws all rest c : handler r = running ws all rest -> ws !! k = Some (w_call c) -> shaped r -> shaped (wait_settled k ok r).
Proof.
  intros Hh Hk [Hs Hi Hw]. destruct (Hw _ _ _ Hh) as (_ & Hnd & Hin). apply (shaped_wait k ok r ws all rest); [done | done | done|].
  intros id Hid. apply Hin. by eapply elem_of_sublist; [|apply waits_sublist].
Qed.

Lemma runtime_step_shaped o r : shaped r -> shaped (runtime_step o r).
Proof.
  intros Hr.
  destruct o as [now event|now event|now e|c| |now| |why ds| | |now| |ok|ok|now d which a|k ok|u|b]; cbn [runtime_step]; try done;
    try (by apply shaped_ingress); try (by eapply shaped_same; [..|exact Hr]).
  - unfold ingestRealtimeEvent.
    assert (Hl : forall es r0, shaped r0 -> shaped (fold_left (fun r e => on_ingress (ingest now e) r) es r0)).
    { intros es. induction es as [|e es IH]; intros r0 H0; [done|]. cbn [fold_left]. by apply IH, shaped_ingest. }
    destruct (we_body event); try by apply Hl. by eapply shaped_work; [apply work_call|].
  - unfold dispatchExternalEvent. cbv zeta. apply shaped_ingest. destruct (socialHostEventTargetsNotifications event); [by apply shaped_ingest | done].
  - by apply shaped_push.
  - unfold teardown. destruct (is_torn r); [done|]. apply (shaped_same (on_ingress EventIngress.teardown (with_torn r))); [done..|]. apply shaped_ingress. by apply (shaped_same r).
  - unfold drain. destruct (processing (ingress_of r)) eqn:Hp; try done; try by apply shaped_ingress.
    destruct (handler r) as [| |ok] eqn:Hh; try done. apply shaped_ingress. destruct Hr. by apply shaped_handled.
  - unfold start_job. destruct (jobs r) as [|[id k []] rest] eqn:Hj; try done. destruct (is_torn r); [by apply shaped_finish|]. destruct k as [ds why cp|why].
    + destruct (shouldReconcileMessaging why); [|by eapply shaped_start].
      eapply shaped_stage; [exact Hj | done | by eapply shaped_work; [apply work_call|]].
    + eapply shaped_stage; [exact Hj | done | by eapply shaped_work; [apply work_call|]].
  - unfold answer_session. destruct (jobs r) as [|[id [ds why cp|why] []] rest]; try done. apply shaped_finish. destruct ok; [done | by eapply shaped_work; [apply work_call|]].
  - unfold answer_messaging. destruct (jobs r) as [|[id [ds why cp|why] []] rest] eqn:Hj; try done. set (r1 := if ok then r else _).
    assert (Hw : same_work r r1) by (subst r1; destruct ok; [done | apply work_call]).
    destruct (is_torn r1); [by eapply shaped_finish, shaped_work|]. eapply shaped_start; [by rewrite (sw_jobs _ _ Hw) | done | by eapply shaped_work].
  - by apply shaped_answer.
  - unfold answer_handler. destruct (handler r) as [|ws all rest|] eqn:Hh; try done. destruct (ws !! k) as [[c|]|] eqn:Hk; try done. by eapply shaped_wait_call.
  - destruct (activeRuntime r); [|done|]; by apply (shaped_same r).
Qed.

Lemma app_step_shaped a o : shaped (runtime a) -> shaped (runtime (app_step a o)).
Proof.
  intros Hr. destruct o; try by apply runtime_step_shaped.
  - cbn [app_step]. unfold bootstrap. case_decide; [done|].
    assert (Hb : forall b, runtime b = runtime a -> shaped (runtime (on_runtime (fun r => scheduleReconcile BOOTSTRAP_DOMAINS "bootstrap" "" (call moments_activate (with_active this_active r))) b))).
    { intros b Hb. unfold on_runtime. cbn [runtime with_runtime]. rewrite Hb. apply shaped_push. by apply (shaped_same (runtime a)). }
    unfold bind_admission. destruct (releaseMutationAdmission a); [by apply Hb|]. destruct (bindMobileMutationAdmission _ _ _) as [[owner adm]|]; [by apply Hb | done].
  - cbn [app_step]. unfold continue_teardown. cbv zeta. destruct (tearing (runtime a)); try done.
    + destruct (processing _); try done. by apply (shaped_same (runtime a)).
    + destruct (forallb _ _); [|done]. by apply (shaped_same (runtime a)).
    + cbn [runtime]. case_decide; by apply (shaped_same (runtime a)).
Qed.

Lemma app_run_shaped ops a : shaped (runtime a) -> shaped (runtime (app_run ops a)).
Proof. unfold app_run. revert a. induction ops as [|o ops IH]; intros a Hr; [done|]. cbn [fold_left]. by apply IH, app_step_shaped. Qed.

Lemma created_shaped key i : shaped (createSocialProjectionRuntime key i).
Proof. constructor; [constructor | constructor; [by exists 0 | constructor] | done]. Qed.

(** ** Something pending has an answer to come *)
Definition pending (r : Runtime) : Prop := jobs r <> [] \/ exists ws all rest, handler r = running ws all rest.

Lemma answer_exists r : shaped r -> pending r -> exists o, is_answer o = true /\ smooth o = true /\ enabled o r = true.
Proof.
  intros [Hs Hi Hw] Hp. destruct (jobs r) as [|[id k st] rest] eqn:Hj.
  - destruct Hp as [?|(ws & all & rest & Hh)]; [done|]. destruct (Hw _ _ _ Hh) as (Hne & _ & Hin). destruct ws as [|[c|id] ws]; [done| |].
    + exists (o_handler 0 true). unfold enabled. rewrite Hh. done.
    + assert (Hx : id ∈ job_waits (w_job id :: ws)) by left. by apply Hin, elem_of_nil in Hx.
  - apply Forall_cons in Hs as [Hsh _]. destruct st as [| | |ready progress].
    + exists o_start_job. unfold enabled. by rewrite Hj.
    + destruct k; [|done]. exists (o_messaging true). unfold enabled. by rewrite Hj.
    + destruct k; [done|]. exists (o_session true). unfold enabled. by rewrite Hj.
    + destruct k as [ds why cp|]; [|done]. destruct Hsh as (_ & (d & s & Hst & Ho) & _). destruct s as [f s|]; [|done].
      destruct f; [exists (o_domain 0%Z d false a_done) | exists (o_domain 0%Z d true a_done)]; unfold enabled; rewrite Hj, Hst; by destruct s.
Qed.

(** Answers can bring everything pending to its end, within the rank. *)
Lemma settles r : shaped r -> exists ops, forallb is_answer ops = true /\ forallb smooth ops = true /\ length ops <= rank r
  /\ ~ pending (fold_left (fun r o => runtime_step o r) ops r).
Proof.
  remember (rank r) as n eqn:Hn. revert r Hn. induction n as [n IH] using lt_wf_ind. intros r -> Hr.
  assert (Hdec : pending r \/ ~ pending r).
  { destruct (jobs r) as [|j rest] eqn:Hj; [|left; left; congruence]. destruct (handler r) as [|ws all rest|] eqn:Hh; [right|left; right; by exists ws, all, rest|right];
      (intros [?|(? & ? & ? & ?)]; congruence). }
  destruct Hdec as [Hp|Hp]; [|exists []; split_and!; [done | done | cbn; lia | done]].
  destruct (answer_exists r Hr Hp) as (o & Ho & Hso & He). pose proof (answer_rank o r Ho Hr) as Hlt. rewrite He in Hlt.
  destruct (IH _ Hlt (runtime_step o r) eq_refl) as (ops & H1 & H2 & H3 & H4); [by apply runtime_step_shaped|].
  exists (o :: ops). cbn. rewrite Ho, Hso. split_and!; [done | done | lia | done].
Qed.
