(* ===== verification/SocialProjectionHistory.v ===== *)
(** * What the jobs of the social projection runtime can account for

    The stage of the first job says which answers it has had: [accounted] ties it to what
    happened while that job was the first, and every step keeps it. *)
From Stdlib Require Import Lia ZArith.
From stdpp Require Import base numbers strings list.
From S2P Require Import Prelude JsString JsonValue EventIngress EventIngressFacts MutationAdmission SocialProjection SocialProjectionFacts SocialProjectionRuns SocialProjectionEnd.

Open Scope list_scope.

Definition first_job (r : Runtime) : option nat := job_id <$> head (jobs r).

(** The step tells the first job, which waits for it, that messaging woke. *)
Definition wakes (o : Op) (r : Runtime) : bool :=
  match o, jobs r with
  | o_messaging true, {| job_kind := job_reconcile _ _ _; job_stage := in_messaging |} :: _ => true
  | _, _ => false
  end.

Section accounts.
Context (woke : nat -> Prop) (answered : nat -> ProjectionDomain -> Prop).

(** A job that waits for its domains waits for exactly the ones it was asked for; it knows
    messaging ready only if messaging woke for it or has no part in it; and a domain is
    settled with success only if it was answered so. *)
Definition accounted (js : list Job) : Prop :=
  match js with
  | {| job_id := id; job_kind := job_reconcile ds why _; job_stage := in_domains ready progress |} :: _ =>
      progress.*1 = unique_domains ds
      /\ (ready = true -> shouldReconcileMessaging why = true -> woke id)
      /\ forall d, (d, settled true) ∈ progress -> answered id d
  | _ => True
  end.

Lemma unstarted_accounted js : Forall (fun j => job_stage j = not_started) js -> accounted js.
Proof. destruct js as [|[id [ds why cp|why] st] js]; [done| |done]. intros [Hs _]%Forall_cons. cbn in Hs. by subst st. Qed.

Lemma accounted_grow r r' : grows r r' -> accounted (jobs r) -> accounted (jobs r').
Proof.
  intros [_ _ _ _ _ _ (new & -> & Hs & _)] Ha. destruct (jobs r) as [|[id [ds why cp|why] st] js]; [by apply unstarted_accounted | done | done].
Qed.

Lemma accounted_ingress f r : accounted (jobs r) -> accounted (jobs (on_ingress f r)).
Proof. intros Ha. by eapply accounted_grow; [apply on_ingress_grows|]. Qed.

Lemma finish_accounted r : jobs_inv r -> accounted (jobs (finish_job r)).
Proof.
  intros [_ Hrest]. unfold finish_job. destruct (jobs r) as [|j rest] eqn:Hj; [by rewrite Hj|]. cbn [handler with_jobs tail] in *.
  assert (Hr : accounted rest) by by apply unstarted_accounted.
  destruct (handler r) as [|ws all more|]; [done| |done]. case_match; [|done]. case_match. by eapply accounted_grow; [apply grows_wait|].
Qed.

(** The stage of a first job that reconciles [ds] for the reason [why]. *)
Definition stage_accounted (id : nat) (ds : list ProjectionDomain) (why : string) (ready : bool) (progress : list (ProjectionDomain * DomainStage)) : Prop :=
  progress.*1 = unique_domains ds /\ (ready = true -> shouldReconcileMessaging why = true -> woke id)
  /\ forall d, (d, settled true) ∈ progress -> answered id d.

Lemma check_accounted ready progress r id ds why cp st rest :
  jobs r = {| job_id := id; job_kind := job_reconcile ds why cp; job_stage := st |} :: rest -> jobs_inv r ->
  stage_accounted id ds why ready progress -> accounted (jobs (check_domains ready progress r)).
Proof.
  intros Hj Hi Hs. unfold check_domains. destruct (results_of progress) as [results|].
  - unfold finish_domains. apply finish_accounted. set (r1 := if _ && _ then _ else r).
    assert (H1 : jobs_inv r1) by (subst r1; destruct (_ && _); [by apply jobs_ingress | done]).
    destruct (is_torn r1); [done | by eapply jobs_grow; [apply grows_call|]].
  - unfold set_stage. rewrite Hj. exact Hs.
Qed.

Lemma start_accounted ready r id ds why cp st rest :
  jobs r = {| job_id := id; job_kind := job_reconcile ds why cp; job_stage := st |} :: rest -> jobs_inv r ->
  (ready = true -> shouldReconcileMessaging why = true -> woke id) -> accounted (jobs (start_domains ds ready r)).
Proof.
  intros Hj Hi Hw. unfold start_domains. eapply (check_accounted _ _ _ id ds why cp st rest).
  - by rewrite (sw_jobs _ _ (work_calls _ r)).
  - by eapply jobs_grow; [apply grows_calls|].
  - split_and!; [|done|].
    + rewrite <- list_fmap_compose. by apply list_fmap_id.
    + by intros d (x & [=] & _)%list_elem_of_fmap.
Qed.

(** A step with an answer: what it adds to the account of the first job has happened. *)
Lemma answer_accounted now d which a r : jobs_inv r -> accounted (jobs r) ->
  (forall id d', first_job r = Some id -> reconciled d' (o_domain now d which a) r = true -> answered id d') ->
  accounted (jobs (answer_domain now d which a r)).
Proof.
  intros Hi Ha Hn. unfold answer_domain. destruct (jobs r) as [|[id [ds why cp|why] [| | |ready progress]] rest] eqn:Hj; try (by rewrite Hj).
  destruct (stage_of d progress) as [[f s|ok]|] eqn:Hst; try (by rewrite Hj). destruct (negb _) eqn:Hw; [by rewrite Hj|]. apply negb_false_iff in Hw.
  destruct Ha as (Hd & Hr & Hs).
  assert (Hset : forall st, st <> settled true \/ answered id d -> stage_accounted id ds why ready (set_progress d st progress)).
  { intros st Hok. split_and!; [by rewrite set_progress_domains | done |].
    intros x [[_ Hx]|(-> & <- & _)]%set_progress_elem; [by apply Hs | by destruct Hok]. }
  destruct (reconcileDomain (is_torn r) d f s which a) as [f' s' made|ok made|m] eqn:Hv.
  - unfold set_stage. rewrite (sw_jobs _ _ (work_calls made r)), Hj. apply Hset. by left.
  - set (r1 := if _ && _ then _ else _). assert (Hg : same_work r r1).
    { etrans; [apply (work_calls made)|]. subst r1. destruct (_ && _); [apply work_ingress, nothing_repair | done]. }
    eapply check_accounted; [by rewrite (sw_jobs _ _ Hg) | |].
    { apply (jobs_same r); [apply Hg | apply Hg | done]. }
    apply Hset. destruct ok; [right|by left]. apply Hn; [unfold first_job; by rewrite Hj|].
    unfold reconciled. by rewrite Hj, bool_decide_true, Hst, Hw, Hv.
  - pose proof (work_failed now d why cp m r) as Hg.
    eapply check_accounted; [by rewrite (sw_jobs _ _ Hg) | apply (jobs_same r); [apply Hg | apply Hg | done] |]. apply Hset. by left.
Qed.

Lemma start_job_accounted r : jobs_inv r -> accounted (jobs r) -> accounted (jobs (start_job r)).
Proof.
  intros Hi Ha. unfold start_job. destruct (jobs r) as [|[id k []] rest] eqn:Hj; try (by rewrite Hj).
  destruct (is_torn r); [by apply finish_accounted|]. destruct k as [ds why cp|why].
  - destruct (shouldReconcileMessaging why) eqn:Hm; [|by eapply start_accounted; [exact Hj | done | congruence]].
    unfold set_stage. cbn [jobs call]. by rewrite Hj.
  - unfold set_stage. cbn [jobs call]. by rewrite Hj.
Qed.

Lemma messaging_accounted ok r : jobs_inv r -> accounted (jobs r) ->
  (forall id, first_job r = Some id -> wakes (o_messaging ok) r = true -> woke id) ->
  accounted (jobs (answer_messaging ok r)).
Proof.
  intros Hi Ha Hn. unfold answer_messaging. destruct (jobs r) as [|[id [ds why cp|why] []] rest] eqn:Hj; try (by rewrite Hj).
  set (r1 := if ok then r else _). assert (Hw : same_work r r1) by (subst r1; destruct ok; [done | apply work_call]).
  assert (Hi1 : jobs_inv r1) by (apply (jobs_same r); [apply Hw | apply Hw | done]).
  destruct (is_torn r1); [by apply finish_accounted|].
  eapply start_accounted; [by rewrite (sw_jobs _ _ Hw) | done |]. intros -> _. apply Hn; [unfold first_job | unfold wakes]; by rewrite Hj.
Qed.

Lemma runtime_step_accounted o r : jobs_inv r -> accounted (jobs r) ->
  (forall id, first_job r = Some id -> wakes o r = true -> woke id) ->
  (forall id d, first_job r = Some id -> reconciled d o r = true -> answered id d) ->
  accounted (jobs (runtime_step o r)).
Proof.
  intros Hi Ha Hw Hn.
  destruct o as [now event|now event|now e|c| |now| |why ds| | |now| |ok|ok|now d which a|k ok|u|b]; cbn [runtime_step]; try done;
    try by apply accounted_ingress.
  - unfold ingestRealtimeEvent.
    assert (Hl : forall es r0, accounted (jobs r0) -> accounted (jobs (fold_left (fun r e => on_ingress (ingest now e) r) es r0))).
    { intros es. induction es as [|e es IH]; intros r0 H0; [done|]. cbn [fold_left]. by apply IH, accounted_ingress. }
    destruct (we_body event); try by apply Hl. done.
  - unfold dispatchExternalEvent. cbv zeta. apply accounted_ingress. destruct (socialHostEventTargetsNotifications event); [by apply accounted_ingress | done].
  - by eapply accounted_grow; [apply grows_push|].
  - unfold teardown. destruct (is_torn r); [done|]. apply (accounted_ingress EventIngress.teardown (with_torn r)). done.
  - unfold drain. destruct (processing (ingress_of r)); try done; try by apply accounted_ingress.
    destruct (handler r); try done. by apply accounted_ingress.
  - by apply start_job_accounted.
  - unfold answer_session. destruct (jobs r) as [|[id [ds why cp|why] []] rest] eqn:Hj; try (by rewrite Hj).
    apply finish_accounted. by destruct ok; [|eapply jobs_grow; [apply grows_call|]].
  - by apply messaging_accounted.
  - by apply answer_accounted.
  - unfold answer_handler. destruct (handler r); try done. destruct (_ !! _) as [[]|]; try done. by eapply accounted_grow; [apply grows_wait|].
  - by destruct (activeRuntime r).
Qed.

Lemma app_step_accounted a o : jobs_inv (runtime a) -> accounted (jobs (runtime a)) ->
  (forall id, first_job (runtime a) = Some id -> wakes o (runtime a) = true -> woke id) ->
  (forall id d, first_job (runtime a) = Some id -> reconciled d o (runtime a) = true -> answered id d) ->
  accounted (jobs (runtime (app_step a o))).
Proof.
  intros Hi Ha Hw Hn. destruct o; try by apply runtime_step_accounted.
  - cbn [app_step]. unfold bootstrap. case_decide; [done|].
    assert (Hb : forall b, runtime b = runtime a -> accounted (jobs (runtime (on_runtime (fun r => scheduleReconcile BOOTSTRAP_DOMAINS "bootstrap" "" (call moments_activate (with_active this_active r))) b)))).
    { intros b Hb. unfold on_runtime. cbn [runtime with_runtime]. rewrite Hb. eapply accounted_grow; [apply grows_push | done]. }
    unfold bind_admission. destruct (releaseMutationAdmission a); [by apply Hb|]. destruct (bindMobileMutationAdmission _ _ _) as [[owner adm]|]; [by apply Hb | done].
  - cbn [app_step]. unfold continue_teardown. cbv zeta. destruct (tearing (runtime a)); try done.
    + by destruct (processing _).
    + by destruct (forallb _ _).
    + cbn [runtime]. by case_decide.
Qed.
End accounts.

Lemma accounted_mono (W W' : nat -> Prop) (A A' : nat -> ProjectionDomain -> Prop) js :
  (forall id, W id -> W' id) -> (forall id d, A id d -> A' id d) -> accounted W A js -> accounted W' A' js.
Proof.
  intros HW HA. destruct js as [|[id [ds why cp|why] [| | |ready progress]] js]; try done.
  intros (Hd & Hr & Hs). split_and!; [done | by intros; apply HW, Hr | by intros; apply HA, Hs].
Qed.

(** ** Histories *)

(** At some step of the history [ops] from [a], [P] held of the operation and the runtime. *)
Definition happened (P : Op -> Runtime -> Prop) (ops : list Op) (a : App) : Prop :=
  exists before o after, ops = before ++ o :: after /\ P o (runtime (app_run before a)).

Lemma happened_more P ops a o : happened P ops a -> happened P (ops ++ [o]) a.
Proof. intros (before & x & after & -> & Hp). exists before, x, (after ++ [o]). split; [by rewrite <- (assoc_L (++)) | done]. Qed.

Lemma happened_last (P : Op -> Runtime -> Prop) ops a o : P o (runtime (app_run ops a)) -> happened P (ops ++ [o]) a.
Proof. intros Hp. by exists ops, o, []. Qed.

(** Messaging woke for the job [id]; the domain [d] was answered for it with success. *)
Definition woke_for (id : nat) (o : Op) (r : Runtime) : Prop := first_job r = Some id /\ wakes o r = true.
Definition answered_for (id : nat) (d : ProjectionDomain) (o : Op) (r : Runtime) : Prop := first_job r = Some id /\ reconciled d o r = true.

Lemma app_run_accounted key i adm ops :
  let a := {| runtime := createSocialProjectionRuntime key i; admission_of := adm; releaseMutationAdmission := None |} in
  accounted (fun id => happened (woke_for id) ops a) (fun id d => happened (answered_for id d) ops a) (jobs (runtime (app_run ops a))).
Proof.
  intros a. induction ops as [|o ops IH] using rev_ind; [done|].
  unfold app_run. rewrite fold_left_app. cbn [fold_left]. change (fold_left app_step ops a) with (app_run ops a).
  apply app_step_accounted.
  - apply (app_run_shaped ops a), created_shaped.
  - eapply accounted_mono; [| |exact IH]; intros; by apply happened_more.
  - intros id Hf Hw. by apply happened_last.
  - intros id d Hf Hr. by apply happened_last.
Qed.
