(* ===== verification/SocialProjectionSafety.v ===== *)
(** * What the social projection runtime promises

    Writes that were closed wait for the answers of the server; an undisturbed runtime
    recovers; jobs and handlers end; a runtime that was torn down changes nothing. The
    last part shows races the code does not handle. *)
From Stdlib Require Import Lia ZArith.
From stdpp Require Import base numbers strings list.
From S2P Require Import Prelude JsString JsonValue EventIngress EventIngressFacts MutationAdmission SocialProjection SocialProjectionFacts SocialProjectionRuns SocialProjectionEnd SocialProjectionHistory.

Open Scope string_scope.
Open Scope list_scope.

(** ** Histories without a successful answer *)

(** No step brings a successful answer for [d]. *)
Fixpoint unanswered (d : ProjectionDomain) (ops : list Op) (a : App) : bool :=
  match ops with
  | [] => true
  | o :: ops => negb (reconciled d o (runtime a)) && unanswered d ops (app_step a o)
  end.

Definition domain_stale (d : ProjectionDomain) (r : Runtime) : bool := stale_in (ingress_of r) d.
Definition writes_open (r : Runtime) : bool := open_in (ingress_of r).

(** Mutations are admitted by this runtime or not at all. *)
Definition bound_here (a : App) : Prop := forall read, activeReader (admission_of a) = Some read -> read = readIngressState.

Lemma ingress_domain_inj d d' : ingress_domain d = ingress_domain d' -> d = d'.
Proof. by destruct d, d'. Qed.

Lemma ingress_domain_data d : ingress_domain d ∈ DATA_DOMAINS.
Proof. destruct d; by_computation. Qed.

Lemma app_step_makes a o : makes (allowed o (runtime a)) (runtime a) (runtime (app_step a o)).
Proof.
  assert (Hb : makes (allowed o (runtime a)) (runtime a) (runtime match bootstrap a with Ok a => a | Err _ => a end)).
  { unfold bootstrap. case_decide; [done|]. unfold bind_admission. destruct (releaseMutationAdmission a) as [n|]; [by apply makes_same|].
    destruct (bindMobileMutationAdmission _ _ _) as [[owner adm]|]; [by apply makes_same | done]. }
  assert (Hc : makes (allowed o (runtime a)) (runtime a) (runtime (continue_teardown a))).
  { unfold continue_teardown. cbv zeta. destruct (tearing (runtime a)); try done.
    - destruct (processing _); try done. by apply makes_same.
    - destruct (forallb _ _); [by apply makes_same | done].
    - apply makes_same. cbn [runtime ingress_of with_tearing]. by case_decide. }
  destruct o; try apply runtime_step_makes; [exact Hb | exact Hc].
Qed.

Lemma makes_closed o r r' d : makes (allowed o r) r r' -> reconciled d o r = false -> domain_stale d r = true -> writes_open r = false ->
  domain_stale d r' = true /\ writes_open r' = false.
Proof.
  intros [(ops & Hi & Ha)] Hd Hs Hw. unfold domain_stale, writes_open, stale_in, open_in in *. rewrite Hi.
  assert (Hno : forall now c, op_repair now (ingress_domain d) c ∉ ops).
  { intros now c Hin. rewrite Forall_forall in Ha. destruct (Ha _ Hin) as (d' & ->%ingress_domain_inj & Hr). congruence. }
  split; [by apply run_keeps_stale | apply (run_stays_closed ops _ (ingress_domain d)); auto using ingress_domain_data].
Qed.

Lemma bound_step a o : bound_here a -> bound_here (app_step a o).
Proof.
  intros Hb. destruct o; try exact Hb; cbn [app_step].
  - unfold bootstrap. case_decide; [done|]. unfold bind_admission. destruct (releaseMutationAdmission a); [exact Hb|].
    unfold bindMobileMutationAdmission. destruct (negb _); [done|]. destruct (_ || _); [done|]. intros read [= <-]. done.
  - unfold continue_teardown. cbv zeta. destruct (tearing (runtime a)); try exact Hb.
    + by destruct (processing _).
    + by destruct (forallb _ _).
    + destruct (releaseMutationAdmission a); [|exact Hb]. unfold bound_here, release. cbn [admission_of]. case_decide; [exact Hb | done].
Qed.

Lemma bound_run ops a : bound_here a -> bound_here (app_run ops a).
Proof. unfold app_run. revert a. induction ops as [|o ops IH]; intros a Hb; cbn [fold_left]; [done|]. by apply IH, bound_step. Qed.

Lemma unanswered_closed d ops a : domain_stale d (runtime a) = true -> writes_open (runtime a) = false -> unanswered d ops a = true ->
  domain_stale d (runtime (app_run ops a)) = true /\ writes_open (runtime (app_run ops a)) = false.
Proof.
  unfold app_run. revert a. induction ops as [|o ops IH]; intros a Hs Hw Hu; cbn [fold_left]; [done|].
  cbn [unanswered] in Hu. apply andb_true_iff in Hu as [Hr%negb_true_iff Hu].
  destruct (makes_closed o _ _ d (app_step_makes a o) Hr Hs Hw) as [? ?]. by apply IH.
Qed.

(** ** Histories of answers *)

Lemma answers_run answers a : forallb is_answer answers = true ->
  runtime (app_run answers a) = fold_left (fun r o => runtime_step o r) answers (runtime a).
Proof.
  unfold app_run. revert a. induction answers as [|o answers IH]; intros a Ha; [done|]. cbn [forallb] in Ha. apply andb_true_iff in Ha as [Ho Ha].
  cbn [fold_left]. rewrite IH by done. by destruct o.
Qed.

Lemma answers_lifecycle answers r : forallb is_answer answers = true ->
  lifecycle (ingress_of (fold_left (fun r o => runtime_step o r) answers r)) = lifecycle (ingress_of r).
Proof.
  revert r. induction answers as [|o answers IH]; intros r Ha; [done|]. cbn [forallb] in Ha. apply andb_true_iff in Ha as [Ho Ha].
  cbn [fold_left]. rewrite IH by done. by apply answer_lifecycle.
Qed.

(** The runtime as it is created, in an app whose admission is [adm]. *)
Definition created_app (key : string) (i : ingress) (adm : admission Runtime) : App :=
  {| runtime := createSocialProjectionRuntime key i; admission_of := adm; releaseMutationAdmission := None |}.

Definition all_fresh (r : Runtime) : Prop := forall d, domain_stale d r = false.









(** ** Teardown *)

(** The runtime was torn down only with its ingress. *)
Definition torn_with_ingress (r : Runtime) : Prop := is_torn r = true -> lifecycle (ingress_of r) = torn.

Lemma step_keeps_torn i op : lifecycle i = torn -> lifecycle (ingress_step i op) = torn.
Proof.
  intros Hl. destruct op; cbn [ingress_step]; try done.
  - unfold ingestDataEvent. by rewrite decide_True by congruence.
  - unfold ingestControlEvent. by rewrite decide_True.
  - unfold drain_task. destruct (processing i) as [| |e|]; [done | | |].
    + unfold take_next. by rewrite decide_True.
    + assert (Ha : lifecycle (after_handler now ok e i) = torn) by (destruct (after_handler_fields now ok e i) as (_ & _ & _ & _ & Hf & _); by rewrite Hf).
      unfold take_next. by rewrite decide_True.
    + unfold finish_drain. rewrite decide_False by (cbn; rewrite Hl; tauto). done.
  - unfold repairCursor. by rewrite decide_True.
  - by rewrite (sq_lifecycle _ _ (sq_markStale _ _ _ _ _ _)).
  - unfold reopenAdmission. by rewrite decide_True by congruence.
  - unfold EventIngress.suspend. by rewrite decide_True by congruence.
  - unfold EventIngress.resume. by rewrite decide_True by congruence.
Qed.

Lemma makes_torn P r r' : makes P r r' -> lifecycle (ingress_of r) = torn -> lifecycle (ingress_of r') = torn.
Proof.
  intros [(ops & -> & _)]. generalize (ingress_of r). unfold ingress_run. induction ops as [|op ops IH]; intros i Hl; [done|]. cbn [fold_left].
  by apply IH, step_keeps_torn.
Qed.

Lemma torn_stage s r : is_torn (set_stage s r) = is_torn r.
Proof. unfold set_stage. by destruct (jobs r). Qed.

Lemma torn_calls cs r : is_torn (call_all cs r) = is_torn r.
Proof. apply (gr_torn _ _ (grows_calls cs r)). Qed.

Lemma torn_finish r : is_torn (finish_job r) = is_torn r.
Proof. apply finish_ingress. Qed.

Lemma torn_check ready progress r : is_torn (check_domains ready progress r) = is_torn r.
Proof.
  unfold check_domains. destruct (results_of progress) as [results|]; [|apply torn_stage]. unfold finish_domains. rewrite torn_finish.
  set (r1 := if _ && _ then _ else r). assert (H1 : is_torn r1 = is_torn r) by (subst r1; destruct (_ && _); [apply on_ingress_torn | done]).
  destruct (is_torn r1) eqn:Ht; cbn; congruence.
Qed.

Lemma torn_start ds ready r : is_torn (start_domains ds ready r) = is_torn r.
Proof. unfold start_domains. by rewrite torn_check, torn_calls. Qed.

Ltac torn_simpl := rewrite ?on_ingress_torn, ?torn_stage, ?torn_finish, ?torn_check, ?torn_start, ?on_ingress_torn, ?torn_calls.

(** Only [teardown] changes the flag. *)
Lemma runtime_step_torn o r : is_torn (runtime_step o r) = match o with o_teardown => true | _ => is_torn r end.
Proof.
  destruct o as [now event|now event|now e|c| |now| |why ds| | |now| |ok|ok|now d which a|k ok|u|b]; cbn [runtime_step]; try done; try apply on_ingress_torn.
  - unfold ingestRealtimeEvent. assert (Hl : forall es r0, is_torn (fold_left (fun r e => on_ingress (ingest now e) r) es r0) = is_torn r0).
    { intros es. induction es as [|e es IH]; intros r0; [done|]. cbn [fold_left]. by rewrite IH, on_ingress_torn. }
    destruct (we_body event); by rewrite ?Hl.
  - unfold dispatchExternalEvent. cbv zeta. destruct (socialHostEventTargetsNotifications event); by rewrite !on_ingress_torn.
  - unfold teardown. destruct (is_torn r) eqn:Ht; [done|]. cbn [is_torn with_tearing]. by rewrite on_ingress_torn.
  - unfold drain. destruct (processing (ingress_of r)); try apply on_ingress_torn; [done|]. destruct (handler r); try done. by rewrite on_ingress_torn.
  - unfold start_job. repeat case_match; torn_simpl; try done; congruence.
  - unfold answer_session. destruct (jobs r) as [|[id [ds why cp|why] []] rest]; try done. rewrite torn_finish. by destruct ok.
  - unfold answer_messaging. destruct (jobs r) as [|[id [ds why cp|why] []] rest]; try done. set (r1 := if ok then r else _).
    assert (H1 : is_torn r1 = is_torn r) by (by subst r1; destruct ok). destruct (is_torn r1) eqn:Ht; torn_simpl; congruence.
  - unfold answer_domain. destruct (jobs r) as [|[id [ds why cp|why] [| | |ready progress]] rest]; try done.
    destruct (stage_of d progress) as [[f s|]|]; try done. destruct (negb _); [done|]. destruct (reconcileDomain _ _ _ _ _ _) as [f' s' made|ok made|m]; torn_simpl; [done | by destruct (_ && _); torn_simpl |].
    unfold domain_failed. destruct (is_torn r) eqn:Ht; [done|]. by destruct d; cbn; rewrite on_ingress_torn.
  - unfold answer_handler. repeat case_match; try done. apply (gr_torn _ _ (grows_wait _ _ _)).
  - by destruct (activeRuntime r).
Qed.

Lemma app_step_torn a o : is_torn (runtime (app_step a o)) = match o with o_teardown => true | _ => is_torn (runtime a) end.
Proof.
  destruct o; try apply runtime_step_torn; cbn [app_step].
  - unfold bootstrap. case_decide; [done|]. unfold bind_admission. destruct (releaseMutationAdmission a); [done|]. by destruct (bindMobileMutationAdmission _ _ _) as [[owner adm]|].
  - unfold continue_teardown. cbv zeta. destruct (tearing (runtime a)); try done; [by destruct (processing _) | by destruct (forallb _ _) | cbn [runtime]; by case_decide].
Qed.

Lemma torn_with_ingress_step a o : torn_with_ingress (runtime a) -> torn_with_ingress (runtime (app_step a o)).
Proof.
  intros Hi Ht. rewrite app_step_torn in Ht.
  assert (Hk : is_torn (runtime a) = true -> lifecycle (ingress_of (runtime (app_step a o))) = torn) by (intros Hr; eapply makes_torn; [apply (app_step_makes a o) | by apply Hi]).
  destruct o; try by apply Hk. destruct (is_torn (runtime a)) eqn:Hr; [by apply Hk|].
  cbn. unfold teardown. rewrite Hr. cbn [ingress_of with_tearing]. by rewrite on_ingress_state.
Qed.

Lemma app_run_torn ops a : torn_with_ingress (runtime a) -> torn_with_ingress (runtime (app_run ops a)).
Proof. unfold app_run. revert a. induction ops as [|o ops IH]; intros a Ha; [done|]. cbn [fold_left]. by apply IH, torn_with_ingress_step. Qed.

Lemma app_run_stays_torn ops a : is_torn (runtime a) = true -> is_torn (runtime (app_run ops a)) = true.
Proof. unfold app_run. revert a. induction ops as [|o ops IH]; intros a Ha; [done|]. cbn [fold_left]. apply IH. rewrite app_step_torn. by destruct o. Qed.


(** ** The properties *)

(** C13: While writes are closed and some projection is stale, no mutation is admitted through
    the runtime, whatever events, calls, other answers and failures come, until the server
    has answered a reconcile of that very projection with success. *)
Theorem writes_wait_for_answers a ops d recovery scopeKey domain :
  bound_here a -> domain_stale d (runtime a) = true -> writes_open (runtime a) = false -> unanswered d ops a = true ->
  let a' := app_run ops a in
  is_ok (requireMobileMutationAdmission (admission_of a') recovery (runtime a') scopeKey domain) = false
  /\ domain_stale d (runtime a') = true /\ writes_open (runtime a') = false.
Proof.
  intros Hb Hs Hw Hu a'. destruct (unanswered_closed d ops a Hs Hw Hu) as [Hs' Hw']. fold a' in Hs', Hw'. split_and!; try done.
  destruct (requireMobileMutationAdmission _ _ _ _ _) as [[]|] eqn:Hr; [|done]. exfalso.
  apply admitted_spec in Hr as (_ & (read & Hread & _ & _ & Hopen & _) & _). apply (bound_run ops a Hb) in Hread as ->.
  cbn in Hopen. unfold writes_open, open_in in Hw'. by rewrite Hopen in Hw'.
Qed.

(** A step that reopens the writes ends the first job, and all of that job has succeeded. *)
Lemma step_reopens a o :
  writes_open (runtime a) = false -> writes_open (runtime (app_step a o)) = true ->
  job_succeeds o (runtime a) = true /\ is_torn (runtime a) = false.
Proof.
  destruct (app_step_makes a o) as [(ops & Hi & Ha)]. unfold writes_open, open_in. rewrite Hi. clear Hi.
  generalize (ingress_of (runtime a)). induction ops as [|op ops IH]; intros i Hc Ho; [cbn in Ho; congruence|].
  apply Forall_cons in Ha as [Hop Ha]. change (ingress_run (op :: ops) i) with (ingress_run ops (ingress_step i op)) in Ho.
  destruct (is_open (writeAdmission (ingress_step i op))) eqn:Hi; [|by apply (IH Ha (ingress_step i op))].
  destruct (step_opens i op Hc Hi) as (-> & _). exact Hop.
Qed.

(** C15: Closed writes are opened by nothing but the step that ends the first reconcile job
    of the queue, and never after teardown. By then every domain that very job was asked
    for has been answered with success while the job was the first, and messaging woke for
    it when its reason is one that wakes messaging; jobs of the other reasons ([bootstrap],
    [user-retry] and the like) do without. *)
Theorem writes_reopen_with_a_job key i adm ops o :
  let start := created_app key i adm in
  let a := app_run ops start in
  writes_open (runtime a) = false -> writes_open (runtime (app_step a o)) = true ->
  is_torn (runtime a) = false /\ job_succeeds o (runtime a) = true
  /\ exists j rest ds why cp, jobs (runtime a) = j :: rest /\ job_kind j = job_reconcile ds why cp
       /\ (forall d, d ∈ ds -> happened (answered_for (job_id j) d) (ops ++ [o]) start)
       /\ (shouldReconcileMessaging why = true -> happened (woke_for (job_id j)) (ops ++ [o]) start).
Proof.
  intros start a Hc Ho. destruct (step_reopens a o Hc Ho) as [Hs Ht]. split; [done|]. split; [done|].
  assert (Ha : accounted (fun id => happened (woke_for id) ops start) (fun id d => happened (answered_for id d) ops start) (jobs (runtime a)))
    by apply app_run_accounted.
  assert (Hf : first_job (runtime (app_run ops start)) = job_id <$> head (jobs (runtime a))) by done.
  unfold job_succeeds in Hs. destruct (jobs (runtime a)) as [|[id [ds why cp|] st] rest] eqn:Hj; try done.
  exists {| job_id := id; job_kind := job_reconcile ds why cp; job_stage := st |}, rest, ds, why, cp. cbn [job_id job_kind].
  split; [done|]. split; [done|].
  cbn in Hf. destruct o as [ | | | | | | | | | | |  | |ok|now d which x| | | ]; destruct st as [| | |ready progress]; try done.
  - apply andb_true_iff in Hs as [Hm%negb_true_iff Hd%bool_decide_eq_true]. subst ds. split; [by intros d ?%elem_of_nil | congruence].
  - apply andb_true_iff in Hs as [-> Hd%bool_decide_eq_true]. subst ds. split; [by intros d ?%elem_of_nil|]. intros _.
    apply happened_last. split; [done|]. unfold wakes. change (app_run ops start) with a. by rewrite Hj.
  - apply andb_true_iff in Hs as [[-> Hrec]%andb_true_iff Hall]. destruct Ha as (Hds & Hw & Hans).
    split; [|intros Hm; by apply happened_more, Hw].
    intros e He. destruct (decide (e = d)) as [->|Hne]; [by apply happened_last|].
    apply happened_more, Hans. destruct (results_of (set_progress d (settled true) progress)) as [results|] eqn:Hr; [|done].
    rewrite (results_all _ _ Hr) in Hall. apply unique_elem in He. rewrite <- Hds in He. apply list_elem_of_fmap in He as ([e' s] & -> & Hin).
    cbn in Hne |- *. rewrite <- (Hall e' s); [done|]. apply set_progress_elem. by left.
Qed.

(** C14: While the server answers with success and the ingress is active, whatever events,
    failures of handlers and resumptions came, the runtime is recovered when no job is left:
    every projection is fresh and writes are open. Answers to what is pending, at most as
    many as the rank, always lead there. *)
Theorem recovery_completes key dc cc i adm ops :
  createSocialEventIngress dc cc = Ok i -> forallb smooth ops = true ->
  let a := app_run ops (created_app key i adm) in
  lifecycle (ingress_of (runtime a)) = active ->
  (jobs (runtime a) = [] -> all_fresh (runtime a) /\ writes_open (runtime a) = true)
  /\ exists answers, forallb is_answer answers = true /\ forallb smooth answers = true /\ (length answers <= rank (runtime a))%nat
     /\ let r := runtime (app_run answers a) in ~ pending r /\ all_fresh r /\ writes_open r = true.
Proof.
  intros Hi Hs a Hl. assert (Hr : recovering (runtime a)) by (apply app_run_recovering; [done | by apply (created_recovering key dc cc)]).
  split; [intros Hj; by apply recovered|].
  destruct (settles (runtime a)) as (answers & Ha & Hsa & Hlen & Hp); [apply app_run_shaped, created_shaped|].
  exists answers. split_and!; [done..|]. cbn zeta. rewrite (answers_run answers a Ha). split; [exact Hp|]. apply recovered.
  - rewrite <- (answers_run answers a Ha). by apply app_run_recovering.
  - destruct (jobs _) eqn:Hj; [done|]. exfalso. apply Hp. left. by rewrite Hj.
  - by rewrite answers_lifecycle.
Qed.

(** C16: Jobs and handlers end. Whatever happened since the runtime was created, every
    answer somebody waits for takes from the rank, every other changes nothing, and
    something that is pending waits for an answer that can come. *)
Theorem jobs_and_handlers_end key i adm ops :
  let r := runtime (app_run ops (created_app key i adm)) in
  (forall o, is_answer o = true -> if enabled o r then (rank (runtime_step o r) < rank r)%nat else runtime_step o r = r)
  /\ (pending r -> exists o, is_answer o = true /\ smooth o = true /\ enabled o r = true).
Proof.
  intros r. assert (Hr : shaped r) by apply app_run_shaped, created_shaped. split; [intros o Ho; by apply answer_rank | by apply answer_exists].
Qed.





(** Teardown is final. Once the runtime was torn down, in any history before and after,
    and with writes admitted through this runtime or not at all, its ingress stays torn and
    no mutation is admitted. *)
Theorem teardown_final key i adm before after recovery scopeKey domain :
  bound_here (created_app key i adm) ->
  let a := app_run (before ++ o_teardown :: after) (created_app key i adm) in
  is_torn (runtime a) = true /\ lifecycle (ingress_of (runtime a)) = torn
  /\ is_ok (requireMobileMutationAdmission (admission_of a) recovery (runtime a) scopeKey domain) = false.
Proof.
  intros Hb a. assert (Ht : is_torn (runtime a) = true).
  { subst a. unfold app_run. rewrite fold_left_app. cbn [fold_left]. apply app_run_stays_torn. by rewrite app_step_torn. }
  assert (Hl : lifecycle (ingress_of (runtime a)) = torn) by (revert Ht; by apply app_run_torn). split_and!; [done | done|].
  destruct (requireMobileMutationAdmission _ _ _ _ _) as [[]|] eqn:Hr; [|done]. exfalso.
  apply admitted_spec in Hr as (_ & (read & Hread & _ & Hact & _) & _). apply (bound_run _ _ Hb) in Hread as ->. cbn in Hact. congruence.
Qed.

(** ** Runs of one runtime *)
Module RaceDemo.

Definition key : string := "station|actor".
Definition session_reader (r : Runtime) : SessionAdmission := {| sa_scopeKey := Some key; sa_open := true; sa_reason := "" |}.

Lemma ingress_exists : {i | createSocialEventIngress None None = Ok i}.
Proof. by eexists. Defined.

Definition start : App :=
  created_app key (proj1_sig ingress_exists)
    match bindMobileSessionMutationAdmission session_reader unbound with Ok (_, adm) => adm | Err _ => unbound end.

Definition control (kind : ControlKind) (cursor : string) : Op := o_control 5 {| ce_kind := kind; ce_payload := []; ce_cursor := cursor; ce_timestampMs := 5 |}.

(** The successful answers to a job of all domains. *)
Definition answers : list Op :=
  [o_domain 9 p_social false a_done; o_domain 9 p_moments false a_done; o_domain 9 p_notification false a_done; o_domain 9 p_notification true a_done;
   o_domain 9 p_profile false a_done; o_domain 9 p_profile true a_done].

(** Bootstrapped, with the answers to the first job under way. *)
Definition booting : App := app_run [o_bootstrap; o_start_job] start.
(** The wire asks for a resynchronisation meanwhile. *)
Definition resynced : App := app_run [control resync_required "c9"] booting.

Definition admits (a : App) : bool := is_ok (requireMobileMutationAdmission (admission_of a) None (runtime a) key None).

Lemma start_bound : bound_here start.
Proof. done. Qed.

Lemma writes_wait_witness : admits booting = true /\ admits (app_run [o_drain 6; o_messaging true; o_domain 9 p_moments false (a_rejected "offline")] resynced) = false.
Proof.
  split; [vm_compute; reflexivity|].
  refine (proj1 (writes_wait_for_answers resynced [o_drain 6; o_messaging true; o_domain 9 p_moments false (a_rejected "offline")] p_social None key None _ _ _ _)).
  - exact (bound_run _ _ (bound_run _ _ start_bound)).
  - vm_compute. reflexivity.
  - vm_compute. reflexivity.
  - vm_compute. reflexivity.
Defined.

(** The history up to there, from the start. *)
Definition before_last : list Op := [o_bootstrap; o_start_job; control resync_required "c9"] ++ take 5 answers.

Lemma reopen_witness :
  is_torn (runtime (app_run before_last start)) = false
  /\ job_succeeds (o_domain 9 p_profile true a_done) (runtime (app_run before_last start)) = true.
Proof.
  destruct (writes_reopen_with_a_job key (proj1_sig ingress_exists) (admission_of start) before_last (o_domain 9 p_profile true a_done))
    as (Ht & Hs & _); [vm_compute; reflexivity.. |]. split; [exact Ht | exact Hs].
Defined.

Definition unfriending : RealtimeWireEvent := {| we_cursor := "c1"; we_timestampMs := 3; we_body := wire_social_graph unfriended "p" "q" "" "" |}.

(** A handler that fails, suspension and resumption, and a call of the host. *)
Definition busy : list Op :=
  [o_bootstrap; o_start_job; o_realtime 3 unfriending;
   o_drain 4; o_handler 0 false; o_drain 5; o_suspend 6; o_resume; o_external 7 {| host_kind := "push"; host_target := None; host_notificationId := Some "n"; host_reason := None |}].

Lemma recovery_witness :
  writes_open (runtime (app_run busy start)) = false /\ exists more, let r := runtime (app_run more (app_run busy start)) in all_fresh r /\ writes_open r = true.
Proof.
  split; [vm_compute; reflexivity|].
  destruct (recovery_completes key None None (proj1_sig ingress_exists) (admission_of start) busy (proj2_sig ingress_exists)) as (_ & more & _ & _ & _ & _ & Hr).
  - vm_compute. reflexivity.
  - vm_compute. reflexivity.
  - exists more. exact Hr.
Defined.

Lemma teardown_witness : admits booting = true /\ admits (app_run [o_bootstrap; o_start_job; o_teardown; o_bootstrap; control heartbeat "c"] start) = false.
Proof.
  split; [vm_compute; reflexivity|].
  exact (proj2 (proj2 (teardown_final key (proj1_sig ingress_exists) (admission_of start) [o_bootstrap; o_start_job] [o_bootstrap; control heartbeat "c"] None key None start_bound))).
Defined.


(** The job that was under way when a resynchronisation was asked for opens the writes,
    with answers that may be older than the request, while the job of the
    resynchronisation has not started. *)
Theorem older_job_reopens_writes :
  admits resynced = false
  /\ let a := app_run answers resynced in
     admits a = true /\ (job_stage <$> jobs (runtime a)) = [not_started]
     /\ (job_kind <$> jobs (runtime a)) = [job_reconcile PROJECTION_DOMAINS "resync-required" "c9"].
Proof. vm_compute. done. Qed.

(** A job for one projection is under way when a control event is lost: its success opens
    the writes again, though the loss closed them until everything is reconciled. *)
Definition retrying : App := app_run [o_reconcile "user-retry" [p_moments]; o_start_job] (app_run [o_start_job] (app_run answers booting)).
Definition lossy : App := app_run (repeat (control heartbeat "") 64 ++ [control resync_required "c9"]) retrying.

Theorem lost_event_reopened_by_retry :
  admits retrying = true /\ admits lossy = false
  /\ let a := app_run [o_domain 9 p_moments false a_done] lossy in
     admits a = true /\ job_reconcile PROJECTION_DOMAINS "control_event_lost" "c9" ∈ (job_kind <$> jobs (runtime a)).
Proof. split; [vm_compute; reflexivity|]. split; [vm_compute; reflexivity|]. split; [vm_compute; reflexivity|]. vm_compute. by repeat constructor. Qed.

(** The end of a job sets the cursor of the stream back to where it was when the job was
    asked for. *)
Definition beat (cursor : string) : list Op := [control heartbeat cursor; o_drain 6; o_drain 6; o_drain 6].

Theorem stream_cursor_goes_back :
  let a := app_run (beat "e1" ++ [o_reconcile "user-retry" [p_moments]; o_start_job] ++ beat "e2") (app_run answers booting) in
  streamCursor (ingress_of (runtime a)) = "e2"
  /\ streamCursor (ingress_of (runtime (app_run [o_domain 9 p_moments false a_done] a))) = "e1".
Proof. vm_compute. done. Qed.

End RaceDemo.
