(* ===== verification/MessagingRuntime.v ===== *)
(** * The messaging runtime of the mobile app

    Models [apps/mobile/src/runtimes/messagingRuntime.ts] with runtimeSessionTransition.ts:
    the module variables of the active scope, the chain of session transitions, the shared
    reconcile promise, the chain of projection deliveries and the hooks of the descriptor.
    Every await is a stage, answers come to it in any order, calls are a log. Errors are
    their readable messages. The auth store holds sessions with a complete identity scope,
    as its parser guarantees. The readiness of the runtime is kept the way the lifecycle
    kernel keeps it: an update is current until another begins or it is settled. *)
From Stdlib Require Import ZArith.
From stdpp Require Import base numbers strings list pretty.
From S2P Require Import Prelude JsString.

Open Scope string_scope.
Open Scope list_scope.

(** ** Sessions and scopes *)

(** [MessagingMutationScopeInput]; the account is its first two fields. *)
Record Account : Set := { stationPeerId : string; actorPtid : string; deviceId : string; lifecycleGeneration : Z }.

Record MobileAuthSession : Set := { session_account : Account; sessionId : string }.

Record MessagingProjectionScope : Set := { ps_account : Account; profileId : string; ps_deviceId : string; activationGeneration : Z }.

#[export] Instance Account_eq_dec : EqDecision Account.
Proof. solve_decision. Defined.
#[export] Instance MessagingProjectionScope_eq_dec : EqDecision MessagingProjectionScope.
Proof. solve_decision. Defined.

Definition separator : string := String (Ascii.Ascii true true true true true false false false) "".

Definition accountInput (s : MobileAuthSession) : Account := session_account s.

(** [mobileAuthScopeKey] of a complete scope. *)
Definition mobileAuthScopeKey (s : MobileAuthSession) : string :=
  let a := session_account s in
  trim (stationPeerId a) ++ "|" ++ trim (actorPtid a) ++ "|" ++ trim (deviceId a) ++ "|" ++ pretty (lifecycleGeneration a).

Definition sessionKey (s : option MobileAuthSession) : string :=
  match s with Some s => mobileAuthScopeKey s ++ separator ++ sessionId s | None => "" end.

Definition sameAccount (account : Account) (other : option Account) : bool :=
  match other with
  | Some other => bool_decide (stationPeerId account = stationPeerId other) && bool_decide (actorPtid account = actorPtid other)
  | None => false
  end.

Definition projectionScopeKey (s : option MessagingProjectionScope) : string :=
  match s with
  | Some s =>
      stationPeerId (ps_account s) ++ separator ++ actorPtid (ps_account s) ++ separator ++ profileId s ++ separator
      ++ ps_deviceId s ++ separator ++ pretty (activationGeneration s)
  | None => ""
  end.

Record MessagingProjectionEvent : Set := {
  e_stationPeerId : string; e_actorPtid : string; e_profileId : string; e_activationGeneration : Z; e_conversationId : string; e_laneSequence : Z
}.

(** What [messagingActivate] and [messagingRecoverIdentity] answer. *)
Record MessagingRuntimeStatus : Set := {
  st_profileId : option string; st_deviceId : option string; st_activationGeneration : Z; st_laneSequence : Z
}.

(** ** Calls to the outside *)
Inductive Call : Set :=
| messagingActivate (scope : Account) (sessionId : string) | messagingDeactivate (scope : Account) | messagingReconcile (scope : Account)
| messagingRecoverIdentity (scope : Account) (sessionId : string) | messagingListConversations (scope : Account)
| messaging_suspend | messaging_resume (scope : Account)
| refreshSessions | refreshConversationSettings | refreshGroupCommandOutcomes | loadMessages (conversationId : string)
| attachments_setScope (scope : option MessagingProjectionScope) | attachments_refreshPending | attachments_close
| notify_scope (scope : option MessagingProjectionScope)
| dispatch_reconciled | dispatch_projection (e : MessagingProjectionEvent) | dispatch_error (operation message : string)
| reportActorIdentityRecovery | clearActorIdentityRecovery | listen_projection.

(** ** Stages *)

(** A [RuntimeReadinessUpdate]. *)
Record Update : Set := { u_context : nat; u_revision : nat }.

(** The parts of the social store the runtime reads; the session is an object with an
    identity, which comparisons look at. *)
Record Social : Set := {
  authSession : option (nat * Account); messages : list string; activeSessionUlid : string; messagingConversations : list string
}.

(** The awaits of [refreshConversationProjections] and of the loop over the messages. *)
Inductive Refresh : Set :=
| rf_sessions (auth : nat)
| rf_both (auth : nat) (first second : bool)
| rf_loading (auth : nat) (rest : list string).

(** The promise of a reconcile. [history] are the conversations known when it started to
    refresh. *)
Inductive PromiseStage : Set :=
| p_native
| p_refreshing (history : list string) (f : Refresh)
| p_settled (r : result unit).

Record Promise : Set := { p_key : string; p_stage : PromiseStage }.

(** [reconcileStartupMessagingSession]: which attempt it is, and the promise it awaits;
    none is a promise that is resolved already. *)
Record Startup : Set := { second_attempt : bool; awaited : option nat }.

Inductive TransitionStage : Set := t_queued | t_dependencies | t_deactivating (previousScope : Account) | t_activating | t_starting (s : Startup).

Record Transition : Set := { t_id : nat; t_session : option MobileAuthSession; t_update : Update; t_stage : TransitionStage }.

Inductive DeliveryStage : Set :=
| d_queued
| d_listing (expectedKey : string) (scope : Account)
| d_loading (expectedKey : string) (auth : nat)
| d_refreshing (expectedKey : string) (f : Refresh).

Record Delivery : Set := { d_id : nat; d_event : MessagingProjectionEvent; d_stage : DeliveryStage }.

Inductive Recovery : Set := rc_native | rc_starting (s : Startup).

(** Hooks of the descriptor that wait: for [listen], for the transitions or deliveries
    numbered before, or for a native command. *)
Inductive Hook : Set :=
| h_listen (context : nat)
| h_suspend (before : nat)
| h_resume (context before : nat)
| h_resuming (context : nat)
| h_teardown (before : nat)
| h_teardown_deliveries (before : nat)
| h_deactivating (scope : Account).

(** ** State *)
Record Active : Set := {
  activeScope : option Account; activeProfileId : option string; activeDeviceId : option string; activeSessionScopeKey : string;
  activeGeneration : Z; lastDeliveredLaneSequence : Z
}.

Definition nothing_active : Active :=
  {| activeScope := None; activeProfileId := None; activeDeviceId := None; activeSessionScopeKey := ""; activeGeneration := 0; lastDeliveredLaneSequence := 0 |}.

(** The closure of the descriptor. *)
Record Descriptor : Set := {
  runtimeContext : option nat; readinessFailures : list string; port_active : bool; error_listener : bool;
  auth_subscribed : bool; navigation_subscribed : bool; listening : bool
}.

Inductive Report : Set := rep_pending | rep_ready | rep_failed (error : string).

(** The readiness the kernel keeps: the contexts that are current, the latest update and
    whether it is settled. *)
Record Readiness : Set := { rd_contexts : list nat; rd_latest : option (nat * bool); rd_revision : nat; rd_reports : list Report }.

Record Work : Set := {
  promises : list Promise; transitions : list Transition; next_transition : nat; deliveries : list Delivery; next_delivery : nat;
  wakes : list nat; recoveries : list Recovery; hooks : list Hook
}.

Record Messaging : Set := {
  active : Active;
  reconcileInFlight : option (string * nat);
  descriptor : Descriptor;
  readiness : Readiness;
  work : Work;
  admittedSession : option MobileAuthSession;
  social : Social;
  calls : list Call
}.

Definition with_active (a : Active) (m : Messaging) : Messaging :=
  {| active := a; reconcileInFlight := reconcileInFlight m; descriptor := descriptor m; readiness := readiness m; work := work m;
     admittedSession := admittedSession m; social := social m; calls := calls m |}.
Definition with_flight (f : option (string * nat)) (m : Messaging) : Messaging :=
  {| active := active m; reconcileInFlight := f; descriptor := descriptor m; readiness := readiness m; work := work m;
     admittedSession := admittedSession m; social := social m; calls := calls m |}.
Definition with_descriptor (d : Descriptor) (m : Messaging) : Messaging :=
  {| active := active m; reconcileInFlight := reconcileInFlight m; descriptor := d; readiness := readiness m; work := work m;
     admittedSession := admittedSession m; social := social m; calls := calls m |}.
Definition with_readiness (r : Readiness) (m : Messaging) : Messaging :=
  {| active := active m; reconcileInFlight := reconcileInFlight m; descriptor := descriptor m; readiness := r; work := work m;
     admittedSession := admittedSession m; social := social m; calls := calls m |}.
Definition with_work (w : Work) (m : Messaging) : Messaging :=
  {| active := active m; reconcileInFlight := reconcileInFlight m; descriptor := descriptor m; readiness := readiness m; work := w;
     admittedSession := admittedSession m; social := social m; calls := calls m |}.
Definition with_session (s : option MobileAuthSession) (m : Messaging) : Messaging :=
  {| active := active m; reconcileInFlight := reconcileInFlight m; descriptor := descriptor m; readiness := readiness m; work := work m;
     admittedSession := s; social := social m; calls := calls m |}.
Definition with_social (s : Social) (m : Messaging) : Messaging :=
  {| active := active m; reconcileInFlight := reconcileInFlight m; descriptor := descriptor m; readiness := readiness m; work := work m;
     admittedSession := admittedSession m; social := s; calls := calls m |}.
Definition call (c : Call) (m : Messaging) : Messaging :=
  {| active := active m; reconcileInFlight := reconcileInFlight m; descriptor := descriptor m; readiness := readiness m; work := work m;
     admittedSession := admittedSession m; social := social m; calls := calls m ++ [c] |}.

Definition with_promises (l : list Promise) (m : Messaging) : Messaging :=
  let w := work m in
  with_work {| promises := l; transitions := transitions w; next_transition := next_transition w; deliveries := deliveries w; next_delivery := next_delivery w;
               wakes := wakes w; recoveries := recoveries w; hooks := hooks w |} m.
Definition with_transitions (l : list Transition) (n : nat) (m : Messaging) : Messaging :=
  let w := work m in
  with_work {| promises := promises w; transitions := l; next_transition := n; deliveries := deliveries w; next_delivery := next_delivery w;
               wakes := wakes w; recoveries := recoveries w; hooks := hooks w |} m.
Definition with_deliveries (l : list Delivery) (n : nat) (m : Messaging) : Messaging :=
  let w := work m in
  with_work {| promises := promises w; transitions := transitions w; next_transition := next_transition w; deliveries := l; next_delivery := n;
               wakes := wakes w; recoveries := recoveries w; hooks := hooks w |} m.
Definition with_waiters (ws : list nat) (rs : list Recovery) (hs : list Hook) (m : Messaging) : Messaging :=
  let w := work m in
  with_work {| promises := promises w; transitions := transitions w; next_transition := next_transition w; deliveries := deliveries w; next_delivery := next_delivery w;
               wakes := ws; recoveries := rs; hooks := hs |} m.
Definition with_wakes (ws : list nat) (m : Messaging) : Messaging := with_waiters ws (recoveries (work m)) (hooks (work m)) m.
Definition with_recoveries (rs : list Recovery) (m : Messaging) : Messaging := with_waiters (wakes (work m)) rs (hooks (work m)) m.
Definition with_hooks (hs : list Hook) (m : Messaging) : Messaging := with_waiters (wakes (work m)) (recoveries (work m)) hs m.
Definition with_failures (l : list string) (m : Messaging) : Messaging :=
  let d := descriptor m in
  with_descriptor {| runtimeContext := runtimeContext d; readinessFailures := l; port_active := port_active d; error_listener := error_listener d;
                     auth_subscribed := auth_subscribed d; navigation_subscribed := navigation_subscribed d; listening := listening d |} m.
Definition with_context (c : option nat) (m : Messaging) : Messaging :=
  let d := descriptor m in
  with_descriptor {| runtimeContext := c; readinessFailures := readinessFailures d; port_active := port_active d; error_listener := error_listener d;
                     auth_subscribed := auth_subscribed d; navigation_subscribed := navigation_subscribed d; listening := listening d |} m.

(** ** Readiness *)
Definition isCurrent (u : Update) (r : Readiness) : bool :=
  bool_decide (u_context u ∈ rd_contexts r) && bool_decide (rd_latest r = Some (u_revision u, false)).

Definition beginReadinessUpdate (context : nat) (r : Readiness) : Update * Readiness :=
  let revision := S (rd_revision r) in
  ({| u_context := context; u_revision := revision |},
   if decide (context ∈ rd_contexts r)
   then {| rd_contexts := rd_contexts r; rd_latest := Some (revision, false); rd_revision := revision; rd_reports := rd_reports r ++ [rep_pending] |}
   else {| rd_contexts := rd_contexts r; rd_latest := rd_latest r; rd_revision := revision; rd_reports := rd_reports r |}).

Definition settle (u : Update) (rep : Report) (r : Readiness) : Readiness :=
  if isCurrent u r
  then {| rd_contexts := rd_contexts r; rd_latest := Some (u_revision u, true); rd_revision := rd_revision r; rd_reports := rd_reports r ++ [rep] |}
  else r.

(** [fail], [recover], [recoverAll] and [observeReady] of the readiness port. *)
Definition port_fail (operation : string) (m : Messaging) : Messaging :=
  match runtimeContext (descriptor m) with
  | None => m
  | Some context =>
      let failures := readinessFailures (descriptor m) in
      if decide (operation ∈ failures) then m
      else if decide (failures <> []) then with_failures (js_set_add operation failures) m
      else
        let '(update, r) := beginReadinessUpdate context (readiness m) in
        let m := with_readiness r m in
        if isCurrent update r
        then with_readiness (settle update (rep_failed "mobile.lifecycle.runtimeFailed") r) (with_failures (js_set_add operation failures) m)
        else m
  end.

Definition port_recover (operation : string) (m : Messaging) : Messaging :=
  match runtimeContext (descriptor m) with
  | None => m
  | Some context =>
      let failures := readinessFailures (descriptor m) in
      if decide (operation ∉ failures) then m
      else if (1 <? length failures)%nat then with_failures (js_set_delete operation failures) m
      else
        let '(update, r) := beginReadinessUpdate context (readiness m) in
        let m := with_readiness r m in
        if isCurrent update r then with_readiness (settle update rep_ready r) (with_failures (js_set_delete operation failures) m) else m
  end.

Definition port_recoverAll (m : Messaging) : Messaging :=
  match runtimeContext (descriptor m) with
  | None => m
  | Some context =>
      if decide (readinessFailures (descriptor m) = []) then m
      else
        let '(update, r) := beginReadinessUpdate context (readiness m) in
        let m := with_readiness r m in
        if isCurrent update r then with_readiness (settle update rep_ready r) (with_failures [] m) else m
  end.

Definition MESSAGING_READINESS_FAILURE_OPERATIONS : list string := ["projection-delivery"; "session-transition"; "worker-cycle"].

Definition IDENTITY_RECOVERY : string := "MOBILE_MESSAGING_IDENTITY_RECOVERY_REQUIRED".

(** The listener of the error events. *)
Definition onRuntimeError (operation message : string) (m : Messaging) : Messaging :=
  if error_listener (descriptor m) && truthy message && bool_decide (operation ∈ MESSAGING_READINESS_FAILURE_OPERATIONS) then port_fail operation m else m.

Definition reportRuntimeError (operation message : string) (m : Messaging) : Messaging :=
  let m := if contains IDENTITY_RECOVERY message then call reportActorIdentityRecovery m else m in
  onRuntimeError operation message (call (dispatch_error operation message) m).

(** ** The active scope *)
Definition currentMessagingProjectionScope (m : Messaging) : option MessagingProjectionScope :=
  let a := active m in
  match activeScope a, activeProfileId a, activeDeviceId a with
  | Some scope, Some profile, Some device =>
      if truthy profile && truthy device && negb (bool_decide (activeGeneration a = 0%Z))
      then Some {| ps_account := scope; profileId := profile; ps_deviceId := device; activationGeneration := activeGeneration a |} else None
  | _, _, _ => None
  end.

Definition currentKey (m : Messaging) : string := projectionScopeKey (currentMessagingProjectionScope m).

Definition publishProjectionScope (m : Messaging) : Messaging :=
  let scope := currentMessagingProjectionScope m in call (notify_scope scope) (call (attachments_setScope scope) m).

Definition clearActiveProjectionScope (m : Messaging) : Messaging := publishProjectionScope (with_flight None (with_active nothing_active m)).

Definition with_delivered (lane : Z) (m : Messaging) : Messaging :=
  let a := active m in
  with_active {| activeScope := activeScope a; activeProfileId := activeProfileId a; activeDeviceId := activeDeviceId a; activeSessionScopeKey := activeSessionScopeKey a;
                 activeGeneration := activeGeneration a; lastDeliveredLaneSequence := lane |} m.

(** ** Refreshing the social store *)
Definition auth_is (auth : nat) (m : Messaging) : bool :=
  match authSession (social m) with Some (id, _) => bool_decide (id = auth) | None => false end.

(** The loop over the conversations that are left. *)
Definition load_next (auth : nat) (rest : list string) (m : Messaging) : option Refresh * Messaging :=
  match rest with
  | [] => (None, m)
  | id :: rest => if auth_is auth m then (Some (rf_loading auth rest), call (loadMessages id) m) else (None, m)
  end.

(** After [refreshConversationProjections]; a delivery has no history to load. *)
Definition after_conversations (auth : nat) (history : list string) (m : Messaging) : option Refresh * Messaging :=
  if auth_is auth m then load_next auth (filter (fun id => id ∈ messagingConversations (social m)) history) m else (None, m).

(** One of the awaited calls has succeeded, the second of two if [second_call]. *)
Definition advance (history : list string) (second_call : bool) (f : Refresh) (m : Messaging) : option Refresh * Messaging :=
  match f with
  | rf_sessions auth =>
      if auth_is auth m then (Some (rf_both auth true true), call refreshGroupCommandOutcomes (call refreshConversationSettings m))
      else after_conversations auth history m
  | rf_both auth first second =>
      let first := first && second_call in
      let second := second && negb second_call in
      if first || second then (Some (rf_both auth first second), m) else after_conversations auth history m
  | rf_loading auth rest => load_next auth rest m
  end.

Definition history_of (s : Social) : list string :=
  let keys := js_set_of (messages s) in if truthy (activeSessionUlid s) then js_set_add (activeSessionUlid s) keys else keys.

(** ** Reconciling *)
Definition promise_at (i : nat) (m : Messaging) : option Promise := promises (work m) !! i.

Definition set_promise (i : nat) (s : PromiseStage) (m : Messaging) : Messaging :=
  with_promises (alter (fun p => {| p_key := p_key p; p_stage := s |}) i (promises (work m))) m.

(** [None] for a promise that is resolved with null. *)
Definition reconcileActiveMessagingSession (m : Messaging) : option nat * Messaging :=
  let a := active m in
  match admittedSession m, activeScope a with
  | Some session, Some scope =>
      if negb (truthy (default "" (activeProfileId a))) || bool_decide (activeGeneration a = 0%Z) then (None, m)
      else
        match currentMessagingProjectionScope m with
        | Some projectionScope =>
            if negb (sameAccount (accountInput session) (Some scope)) then (None, m)
            else
              let key := projectionScopeKey (Some projectionScope) in
              let start :=
                let i := length (promises (work m)) in
                (Some i, with_flight (Some (key, i))
                  (with_promises (promises (work m) ++ [{| p_key := key; p_stage := p_native |}]) (call (messagingReconcile (accountInput session)) m))) in
              match reconcileInFlight m with
              | Some (inFlight, i) => if decide (inFlight = key) then (Some i, m) else start
              | None => start
              end
        | None => (None, m)
        end
  | _, _ => (None, m)
  end.

(** The promise [i] settles, and its [finally]. *)
Definition settle_promise (i : nat) (key : string) (r : result unit) (m : Messaging) : Messaging :=
  let m := set_promise i (p_settled r) m in
  match reconcileInFlight m with
  | Some (inFlight, _) => if decide (inFlight = key) then with_flight None m else m
  | None => m
  end.

(** After [refreshKnownMessageProjections]. *)
Definition finish_reconcile (i : nat) (key : string) (m : Messaging) : Messaging :=
  if decide (currentKey m <> key) then settle_promise i key (Ok tt) m
  else
    let m := call clearActorIdentityRecovery (call dispatch_reconciled m) in
    let m := if port_active (descriptor m) then port_recoverAll m else m in
    settle_promise i key (Ok tt) m.

Definition continue_refresh (i : nat) (key : string) (history : list string) (next : option Refresh * Messaging) : Messaging :=
  match next with
  | (Some f, m) => set_promise i (p_refreshing history f) m
  | (None, m) => finish_reconcile i key m
  end.

(** The native command of the promise [i] has ended. *)
Definition answer_native (i : nat) (r : result unit) (m : Messaging) : Messaging :=
  match promise_at i m with
  | Some {| p_key := key; p_stage := p_native |} =>
      match r with
      | Err e => settle_promise i key (Err e) m
      | Ok _ =>
          if decide (currentKey m <> key) then settle_promise i key (Ok tt) m
          else
            let s := social m in
            continue_refresh i key (history_of s)
              match authSession s with Some (auth, _) => (Some (rf_sessions auth), call refreshSessions m) | None => (None, m) end
      end
  | _ => m
  end.

Definition answer_refresh (i : nat) (second_call : bool) (r : result unit) (m : Messaging) : Messaging :=
  match promise_at i m with
  | Some {| p_key := key; p_stage := p_refreshing history f |} =>
      match f, r with
      | rf_both _ first second, _ =>
          if negb (if second_call then second else first) then m
          else match r with Err e => settle_promise i key (Err e) m | Ok _ => continue_refresh i key history (advance history second_call f m) end
      | _, Err e => settle_promise i key (Err e) m
      | _, Ok _ => continue_refresh i key history (advance history second_call f m)
      end
  | _ => m
  end.

Definition wakeActiveMessagingSession (onlyIfFailed : bool) (m : Messaging) : Messaging :=
  if onlyIfFailed && negb (port_active (descriptor m) && bool_decide (readinessFailures (descriptor m) <> [])) then m
  else match reconcileActiveMessagingSession m with
       | (Some i, m) => with_wakes (wakes (work m) ++ [i]) m
       | (None, m) => m
       end.

(** The [k]-th wake goes on when its promise has settled. *)
Definition settle_wake (k : nat) (m : Messaging) : Messaging :=
  match (wakes (work m) !! k) ≫= (fun i => promise_at i m) with
  | Some {| p_stage := p_settled r |} =>
      let m := with_wakes (delete k (wakes (work m))) m in
      match r with Ok _ => m | Err e => reportRuntimeError "worker-cycle" e m end
  | _ => m
  end.

(** ** [reconcileStartupMessagingSession] *)
Definition start_startup (second : bool) (m : Messaging) : Startup * Messaging :=
  let '(p, m) := reconcileActiveMessagingSession m in ({| second_attempt := second; awaited := p |}, m).

Inductive StartupOutcome : Type :=
| su_waiting
| su_again (s : Startup) (m : Messaging)
| su_done (r : result unit).

Definition continue_startup (s : Startup) (m : Messaging) : StartupOutcome :=
  match awaited s with
  | None => su_done (Ok tt)
  | Some i =>
      match promise_at i m with
      | Some {| p_stage := p_settled (Ok _) |} => su_done (Ok tt)
      | Some {| p_stage := p_settled (Err e) |} =>
          if second_attempt s || contains IDENTITY_RECOVERY e then su_done (Err e)
          else let '(s, m) := start_startup true (with_flight None m) in su_again s m
      | _ => su_waiting
      end
  end.

(** ** Session transitions *)
Definition enqueueSessionTransition (session : option MobileAuthSession) (context : nat) (m : Messaging) : Messaging :=
  let '(update, r) := beginReadinessUpdate context (readiness m) in
  let w := work m in
  with_transitions (transitions w ++ [{| t_id := next_transition w; t_session := session; t_update := update; t_stage := t_queued |}]) (S (next_transition w))
    (with_readiness r m).

Definition transition_current (t : Transition) (m : Messaging) : bool :=
  isCurrent (t_update t) (readiness m) && bool_decide (sessionKey (admittedSession m) = sessionKey (t_session t)).

Definition set_transition (s : TransitionStage) (m : Messaging) : Messaging :=
  match transitions (work m) with
  | t :: rest => with_transitions ({| t_id := t_id t; t_session := t_session t; t_update := t_update t; t_stage := s |} :: rest) (next_transition (work m)) m
  | [] => m
  end.

Definition finish_transition (m : Messaging) : Messaging := with_transitions (tail (transitions (work m))) (next_transition (work m)) m.

(** The [catch] block. *)
Definition fail_transition (t : Transition) (error : string) (m : Messaging) : Messaging :=
  finish_transition
    (if transition_current t m
     then reportRuntimeError "session-transition" error (with_readiness (settle (t_update t) (rep_failed error) (readiness m)) m)
     else m).

(** [synchronizeSession] has returned. *)
Definition complete_transition (t : Transition) (m : Messaging) : Messaging :=
  finish_transition
    (if transition_current t m
     then let m := with_failures [] m in with_readiness (settle (t_update t) rep_ready (readiness m)) m
     else m).

(** [synchronizeSession] past the deactivation. *)
Definition activate_session (t : Transition) (m : Messaging) : Messaging :=
  match t_session t with
  | Some session =>
      if transition_current t m then set_transition t_activating (call (messagingActivate (accountInput session) (sessionId session)) m)
      else complete_transition t m
  | None => complete_transition t m
  end.

Definition synchronizeSession (t : Transition) (m : Messaging) : Messaging :=
  match activeScope (active m) with
  | Some previousScope =>
      if sameAccount previousScope (accountInput <$> t_session t) then activate_session t m
      else set_transition (t_deactivating previousScope) (call (messagingDeactivate previousScope) (clearActiveProjectionScope m))
  | None => activate_session t m
  end.

Definition start_transition (m : Messaging) : Messaging :=
  match transitions (work m) with
  | t :: _ =>
      match t_stage t with
      | t_queued => if transition_current t m then set_transition t_dependencies m else finish_transition m
      | _ => m
      end
  | [] => m
  end.

Definition answer_dependencies (r : result bool) (m : Messaging) : Messaging :=
  match transitions (work m) with
  | t :: _ =>
      match t_stage t with
      | t_dependencies =>
          match r with
          | Err e => fail_transition t e m
          | Ok ready => if ready && transition_current t m then synchronizeSession t m else finish_transition m
          end
      | _ => m
      end
  | [] => m
  end.

Definition answer_deactivated (r : result unit) (m : Messaging) : Messaging :=
  match transitions (work m) with
  | t :: _ =>
      match t_stage t with
      | t_deactivating _ => match r with Err e => fail_transition t e m | Ok _ => activate_session t m end
      | _ => m
      end
  | [] => m
  end.

Definition continue_transition (t : Transition) (o : StartupOutcome) (m : Messaging) : Messaging :=
  match o with
  | su_waiting => m
  | su_again s m => set_transition (t_starting s) m
  | su_done (Ok _) => complete_transition t (publishProjectionScope m)
  | su_done (Err e) => fail_transition t e m
  end.

Definition answer_activated (r : result MessagingRuntimeStatus) (m : Messaging) : Messaging :=
  match transitions (work m) with
  | t :: _ =>
      match t_stage t, t_session t with
      | t_activating, Some session =>
          match r with
          | Err e => fail_transition t e m
          | Ok status =>
              if negb (truthy (default "" (st_profileId status))) then fail_transition t "mobile.messaging.runtimeProfileMissing" m
              else if negb (truthy (default "" (st_deviceId status))) then fail_transition t "mobile.messaging.runtimeDeviceMissing" m
              else
                let a := active m in
                let m := with_active {| activeScope := Some (accountInput session); activeProfileId := activeProfileId a; activeDeviceId := activeDeviceId a;
                                        activeSessionScopeKey := activeSessionScopeKey a; activeGeneration := activeGeneration a;
                                        lastDeliveredLaneSequence := lastDeliveredLaneSequence a |} m in
                if transition_current t m
                then
                  let m := with_active {| activeScope := Some (accountInput session); activeProfileId := st_profileId status; activeDeviceId := st_deviceId status;
                                          activeSessionScopeKey := sessionKey (Some session); activeGeneration := st_activationGeneration status;
                                          lastDeliveredLaneSequence := st_laneSequence status |} m in
                  let '(s, m) := start_startup false m in set_transition (t_starting s) m
                else complete_transition t m
          end
      | _, _ => m
      end
  | [] => m
  end.

Definition answer_startup (m : Messaging) : Messaging :=
  match transitions (work m) with
  | t :: _ => match t_stage t with t_starting s => continue_transition t (continue_startup s m) m | _ => m end
  | [] => m
  end.

(** ** [recoverActiveMessagingIdentity] *)
Definition recoverActiveMessagingIdentity (m : Messaging) : Messaging :=
  match admittedSession m, activeScope (active m) with
  | Some session, Some scope =>
      if sameAccount scope (Some (accountInput session))
      then with_recoveries (recoveries (work m) ++ [rc_native]) (call (messagingRecoverIdentity (accountInput session) (sessionId session)) m)
      else m
  | _, _ => m
  end.

Definition drop_recovery (k : nat) (m : Messaging) : Messaging := with_recoveries (delete k (recoveries (work m))) m.

Definition answer_recovered (k : nat) (r : result MessagingRuntimeStatus) (m : Messaging) : Messaging :=
  match recoveries (work m) !! k with
  | Some rc_native =>
      match r with
      | Ok status =>
          if truthy (default "" (st_profileId status)) && truthy (default "" (st_deviceId status))
          then
            let a := active m in
            let m := with_active {| activeScope := activeScope a; activeProfileId := st_profileId status; activeDeviceId := st_deviceId status;
                                    activeSessionScopeKey := activeSessionScopeKey a; activeGeneration := st_activationGeneration status;
                                    lastDeliveredLaneSequence := st_laneSequence status |} m in
            let '(s, m) := start_startup false m in
            with_recoveries (<[k := rc_starting s]> (recoveries (work m))) m
          else drop_recovery k m
      | Err _ => drop_recovery k m
      end
  | _ => m
  end.

Definition answer_recovery_startup (k : nat) (m : Messaging) : Messaging :=
  match recoveries (work m) !! k with
  | Some (rc_starting s) =>
      match continue_startup s m with
      | su_waiting => m
      | su_again s m => with_recoveries (<[k := rc_starting s]> (recoveries (work m))) m
      | su_done (Ok _) => drop_recovery k (publishProjectionScope m)
      | su_done (Err _) => drop_recovery k m
      end
  | _ => m
  end.

(** ** Projection deliveries *)
Definition enqueueProjectionDelivery (e : MessagingProjectionEvent) (m : Messaging) : Messaging :=
  let m := call attachments_refreshPending m in
  let w := work m in
  with_deliveries (deliveries w ++ [{| d_id := next_delivery w; d_event := e; d_stage := d_queued |}]) (S (next_delivery w)) m.

Definition set_delivery (s : DeliveryStage) (m : Messaging) : Messaging :=
  match deliveries (work m) with
  | d :: rest => with_deliveries ({| d_id := d_id d; d_event := d_event d; d_stage := s |} :: rest) (next_delivery (work m)) m
  | [] => m
  end.

Definition finish_delivery (m : Messaging) : Messaging := with_deliveries (tail (deliveries (work m))) (next_delivery (work m)) m.

Definition fail_delivery (error : string) (m : Messaging) : Messaging := finish_delivery (reportRuntimeError "projection-delivery" error m).

(** The event is for the active scope and after what was delivered. *)
Definition deliverable (e : MessagingProjectionEvent) (m : Messaging) : bool :=
  let a := active m in
  match activeScope a with
  | Some scope =>
      negb (bool_decide (activeGeneration a = 0%Z)) && truthy (default "" (activeProfileId a))
      && bool_decide (e_activationGeneration e = activeGeneration a) && bool_decide (e_stationPeerId e = stationPeerId scope)
      && bool_decide (e_actorPtid e = actorPtid scope) && bool_decide (Some (e_profileId e) = activeProfileId a)
      && (lastDeliveredLaneSequence a <? e_laneSequence e)%Z
  | None => false
  end.

(** After [refreshMessageProjection]. *)
Definition publish_delivery (expectedKey : string) (e : MessagingProjectionEvent) (m : Messaging) : Messaging :=
  finish_delivery
    (if truthy expectedKey && bool_decide (currentKey m = expectedKey) && (lastDeliveredLaneSequence (active m) <? e_laneSequence e)%Z
     then call (dispatch_projection e) (with_delivered (e_laneSequence e) m)
     else m).

Definition start_delivery (m : Messaging) : Messaging :=
  match deliveries (work m) with
  | d :: _ =>
      match d_stage d, activeScope (active m) with
      | d_queued, Some scope =>
          if negb (deliverable (d_event d) m) then finish_delivery m
          else if negb (truthy (trim (e_conversationId (d_event d)))) then publish_delivery (currentKey m) (d_event d) m
          else set_delivery (d_listing (currentKey m) scope) (call (messagingListConversations scope) m)
      | d_queued, None => finish_delivery m
      | _, _ => m
      end
  | [] => m
  end.

(** [refreshConversationProjections] at the end of a delivery. *)
Definition refresh_delivery (expectedKey : string) (auth : nat) (d : Delivery) (m : Messaging) : Messaging :=
  if auth_is auth m then set_delivery (d_refreshing expectedKey (rf_sessions auth)) (call refreshSessions m)
  else publish_delivery expectedKey (d_event d) m.

Definition answer_listed (r : result (list string)) (m : Messaging) : Messaging :=
  match deliveries (work m) with
  | d :: _ =>
      match d_stage d with
      | d_listing expectedKey scope =>
          match r with
          | Err e => fail_delivery e m
          | Ok conversations =>
              let id := e_conversationId (d_event d) in
              if decide (id ∉ conversations \/ currentKey m <> expectedKey) then publish_delivery expectedKey (d_event d) m
              else
                let s := social m in
                match authSession s with
                | Some (auth, account) =>
                    if negb (sameAccount scope (Some account)) then publish_delivery expectedKey (d_event d) m
                    else if decide (activeSessionUlid s = id \/ id ∈ messages s)
                    then set_delivery (d_loading expectedKey auth) (call (loadMessages id) m)
                    else refresh_delivery expectedKey auth d m
                | None => publish_delivery expectedKey (d_event d) m
                end
          end
      | _ => m
      end
  | [] => m
  end.

(** A call of the store that the delivery awaits has ended. *)
Definition answer_delivery (second_call : bool) (r : result unit) (m : Messaging) : Messaging :=
  match deliveries (work m) with
  | d :: _ =>
      match d_stage d with
      | d_loading expectedKey auth =>
          match r with Err e => fail_delivery e m | Ok _ => refresh_delivery expectedKey auth d m end
      | d_refreshing expectedKey f =>
          let waits := match f with rf_both _ first second => if second_call then second else first | _ => true end in
          if negb waits then m
          else
            match r with
            | Err e => fail_delivery e m
            | Ok _ =>
                match advance [] second_call f m with
                | (Some f, m) => set_delivery (d_refreshing expectedKey f) m
                | (None, m) => publish_delivery expectedKey (d_event d) m
                end
            end
      | _ => m
      end
  | [] => m
  end.

(** ** The hooks of the descriptor *)
Definition drop_hook (k : nat) (m : Messaging) : Messaging := with_hooks (delete k (hooks (work m))) m.
Definition add_hook (h : Hook) (m : Messaging) : Messaging := with_hooks (hooks (work m) ++ [h]) m.
Definition set_hook (k : nat) (h : Hook) (m : Messaging) : Messaging := with_hooks (<[k := h]> (hooks (work m))) m.

Definition bootstrap (context : nat) (m : Messaging) : Messaging :=
  let d := descriptor m in
  add_hook (h_listen context)
    (call listen_projection
      (with_descriptor {| runtimeContext := Some context; readinessFailures := []; port_active := true; error_listener := true;
                          auth_subscribed := auth_subscribed d; navigation_subscribed := true; listening := listening d |} m)).

(** [listen] has ended: what remains of [bootstrap] but the wait for the transition. *)
Definition answer_listen (k : nat) (r : result unit) (m : Messaging) : Messaging :=
  match hooks (work m) !! k with
  | Some (h_listen context) =>
      let m := drop_hook k m in
      match r with
      | Err _ => m
      | Ok _ =>
          let d := descriptor m in
          enqueueSessionTransition (admittedSession m) context
            (with_descriptor {| runtimeContext := runtimeContext d; readinessFailures := readinessFailures d; port_active := port_active d; error_listener := error_listener d;
                                auth_subscribed := true; navigation_subscribed := navigation_subscribed d; listening := true |} m)
      end
  | _ => m
  end.

Definition suspend (m : Messaging) : Messaging :=
  add_hook (h_suspend (next_transition (work m))) (call (attachments_setScope None) m).

Definition resume (context : nat) (m : Messaging) : Messaging :=
  add_hook (h_resume context (next_transition (work m))) (with_context (Some context) m).

Definition teardown (m : Messaging) : Messaging :=
  add_hook (h_teardown (next_transition (work m)))
    (with_descriptor {| runtimeContext := None; readinessFailures := []; port_active := false; error_listener := false;
                        auth_subscribed := false; navigation_subscribed := false; listening := false |} m).

Definition transitions_done (before : nat) (m : Messaging) : bool := forallb (fun t => before <=? t_id t)%nat (transitions (work m)).
Definition deliveries_done (before : nat) (m : Messaging) : bool := forallb (fun d => before <=? d_id d)%nat (deliveries (work m)).

(** A hook goes on when the chain it waits for has come past it. *)
Definition continue_hook (k : nat) (m : Messaging) : Messaging :=
  match hooks (work m) !! k with
  | Some (h_suspend before) => if transitions_done before m then drop_hook k (call messaging_suspend m) else m
  | Some (h_resume context before) =>
      if transitions_done before m
      then match activeScope (active m) with
           | Some scope => set_hook k (h_resuming context) (call (messaging_resume scope) m)
           | None => drop_hook k m
           end
      else m
  | Some (h_teardown before) => if transitions_done before m then set_hook k (h_teardown_deliveries (next_delivery (work m))) m else m
  | Some (h_teardown_deliveries before) =>
      if deliveries_done before m
      then
        let scope := activeScope (active m) in
        let m := clearActiveProjectionScope m in
        match scope with
        | Some scope => set_hook k (h_deactivating scope) (call (messagingDeactivate scope) m)
        | None => drop_hook k m
        end
      else m
  | _ => m
  end.

(** A native command of a hook has ended. *)
Definition answer_hook (k : nat) (r : result unit) (m : Messaging) : Messaging :=
  match hooks (work m) !! k with
  | Some (h_resuming context) =>
      let m := drop_hook k m in
      match r with Ok _ => enqueueSessionTransition (admittedSession m) context m | Err _ => m end
  | Some (h_deactivating _) => drop_hook k m
  | _ => m
  end.

(** The store subscription. *)
Definition session_changed (session : option MobileAuthSession) (m : Messaging) : Messaging :=
  let previous := admittedSession m in
  let m := with_session session m in
  if negb (auth_subscribed (descriptor m)) || bool_decide (sessionKey session = sessionKey previous) then m
  else
    let m := call (attachments_setScope None) m in
    match runtimeContext (descriptor m) with Some context => enqueueSessionTransition session context m | None => m end.

(** ** Histories *)
Inductive Op : Type :=
| o_bootstrap (context : nat)
| o_listen (k : nat) (r : result unit)
| o_suspend
| o_resume (context : nat)
| o_teardown
| o_hook (k : nat)
| o_hook_answer (k : nat) (r : result unit)
| o_session (session : option MobileAuthSession)
| o_navigation
| o_social (s : Social)
| o_contexts (l : list nat)
| o_invalidate
| o_timeout
| o_runtime_error (operation message : string)
| o_projection (e : MessagingProjectionEvent)
| o_wake (onlyIfFailed : bool)
| o_reconcile
| o_recover
| o_start_transition
| o_dependencies (r : result bool)
| o_deactivated (r : result unit)
| o_activated (r : result MessagingRuntimeStatus)
| o_startup
| o_native (i : nat) (r : result unit)
| o_refreshed (i : nat) (second_call : bool) (r : result unit)
| o_wake_settled (k : nat)
| o_recovered (k : nat) (r : result MessagingRuntimeStatus)
| o_recovery_startup (k : nat)
| o_start_delivery
| o_listed (r : result (list string))
| o_delivery (second_call : bool) (r : result unit).

Definition with_rd (contexts : list nat) (latest : option (nat * bool)) (reports : list Report) (m : Messaging) : Messaging :=
  with_readiness {| rd_contexts := contexts; rd_latest := latest; rd_revision := rd_revision (readiness m); rd_reports := reports |} m.

Definition step (o : Op) (m : Messaging) : Messaging :=
  match o with
  | o_bootstrap context => bootstrap context m
  | o_listen k r => answer_listen k r m
  | o_suspend => suspend m
  | o_resume context => resume context m
  | o_teardown => teardown m
  | o_hook k => continue_hook k m
  | o_hook_answer k r => answer_hook k r m
  | o_session session => session_changed session m
  | o_navigation => if navigation_subscribed (descriptor m) then call attachments_close m else m
  | o_social s => with_social s m
  | o_contexts l => with_rd l (rd_latest (readiness m)) (rd_reports (readiness m)) m
  | o_invalidate => with_rd (rd_contexts (readiness m)) None (rd_reports (readiness m)) m
  | o_timeout =>
      match rd_latest (readiness m) with
      | Some (revision, false) =>
          with_rd (rd_contexts (readiness m)) (Some (revision, true)) (rd_reports (readiness m) ++ [rep_failed "mobile.lifecycle.runtimeTimedOut"]) m
      | _ => m
      end
  | o_runtime_error operation message => onRuntimeError operation message m
  | o_projection e => if listening (descriptor m) then enqueueProjectionDelivery e m else m
  | o_wake onlyIfFailed => wakeActiveMessagingSession onlyIfFailed m
  | o_reconcile => (reconcileActiveMessagingSession m).2
  | o_recover => recoverActiveMessagingIdentity m
  | o_start_transition => start_transition m
  | o_dependencies r => answer_dependencies r m
  | o_deactivated r => answer_deactivated r m
  | o_activated r => answer_activated r m
  | o_startup => answer_startup m
  | o_native i r => answer_native i r m
  | o_refreshed i second_call r => answer_refresh i second_call r m
  | o_wake_settled k => settle_wake k m
  | o_recovered k r => answer_recovered k r m
  | o_recovery_startup k => answer_recovery_startup k m
  | o_start_delivery => start_delivery m
  | o_listed r => answer_listed r m
  | o_delivery second_call r => answer_delivery second_call r m
  end.

Definition run (ops : list Op) (m : Messaging) : Messaging := fold_left (fun m o => step o m) ops m.

(** The module as it is loaded. *)
Definition unloaded : Messaging :=
  {| active := nothing_active; reconcileInFlight := None;
     descriptor := {| runtimeContext := None; readinessFailures := []; port_active := false; error_listener := false; auth_subscribed := false;
                      navigation_subscribed := false; listening := false |};
     readiness := {| rd_contexts := []; rd_latest := None; rd_revision := 0; rd_reports := [] |};
     work := {| promises := []; transitions := []; next_transition := 0; deliveries := []; next_delivery := 0; wakes := []; recoveries := []; hooks := [] |};
     admittedSession := None; social := {| authSession := None; messages := []; activeSessionUlid := ""; messagingConversations := [] |}; calls := [] |}.
