(* ===== verification/MessagingFacts.v ===== *)
(** * Facts about the messaging runtime

    What the operations leave alone ([side]), and what the steps do to the active scope and
    to the events that were published. *)
From Stdlib Require Import Lia ZArith.
From stdpp Require Import base numbers strings list pretty.
From S2P Require Import Prelude JsString MessagingRuntime.

Open Scope string_scope.
Open Scope list_scope.

(** ** Events published, and readiness *)
Definition published_in (l : list Call) : list MessagingProjectionEvent := omap (fun c => match c with dispatch_projection e => Some e | _ => None end) l.
Definition published (m : Messaging) : list MessagingProjectionEvent := published_in (calls m).

(** The runtime is reported ready only while no failure is left. *)
Definition ready_inv (m : Messaging) : Prop := last (rd_reports (readiness m)) = Some rep_ready -> readinessFailures (descriptor m) = [].

Definition is_publication (c : Call) : bool := match c with dispatch_projection _ => true | _ => false end.

Lemma published_call c m : is_publication c = false -> published (call c m) = published m.
Proof. unfold published, published_in. cbn [calls call]. rewrite omap_app. destruct c; try done; by rewrite app_nil_r. Qed.

(** [m'] differs from [m] in the readiness, the promises, those who wait for them, and calls. *)
Record side (m m' : Messaging) : Prop := {
  sd_active : active m' = active m;
  sd_published : published m' = published m;
  sd_deliveries : deliveries (work m') = deliveries (work m);
  sd_transitions : transitions (work m') = transitions (work m);
  sd_hooks : hooks (work m') = hooks (work m);
  sd_session : admittedSession m' = admittedSession m;
  sd_social : social m' = social m;
  sd_ready : ready_inv m -> ready_inv m'
}.

#[export] Instance side_preorder : PreOrder side.
Proof. split; [by constructor|]. intros m1 m2 m3 [] []. constructor; try congruence. auto. Qed.

Lemma side_call c m : is_publication c = false -> side m (call c m).
Proof. intros Hc. constructor; try done. by apply published_call. Qed.

Lemma side_flight f m : side m (with_flight f m).
Proof. by constructor. Qed.

Lemma side_promises l m : side m (with_promises l m).
Proof. by constructor. Qed.

Lemma side_wakes l m : side m (with_wakes l m).
Proof. by constructor. Qed.

Lemma side_recoveries l m : side m (with_recoveries l m).
Proof. by constructor. Qed.

(** A change of the readiness and of the failures. *)
Lemma side_readiness r l m : (last (rd_reports r) = Some rep_ready -> l = []) -> side m (with_readiness r (with_failures l m)).
Proof. intros Hr. by constructor. Qed.

(** A new update reports nothing, or that the runtime is pending. *)
Lemma begin_reports context r : let '(u, r') := beginReadinessUpdate context r in
  (rd_reports r' = rd_reports r /\ isCurrent u r' = false) \/ (last (rd_reports r') = Some rep_pending /\ isCurrent u r' = true).
Proof.
  unfold beginReadinessUpdate, isCurrent. case_decide as Hc; cbn.
  - right. rewrite last_snoc. by rewrite !bool_decide_true.
  - left. by rewrite bool_decide_false.
Qed.

Lemma settle_reports u rep r : rd_reports (settle u rep r) = if isCurrent u r then rd_reports r ++ [rep] else rd_reports r.
Proof. unfold settle. by destruct (isCurrent u r). Qed.

Lemma ready_same r m : rd_reports r = rd_reports (readiness m) -> ready_inv m -> ready_inv (with_readiness r m).
Proof. unfold ready_inv. cbn. by intros ->. Qed.

Lemma side_begin context m : side m (with_readiness (beginReadinessUpdate context (readiness m)).2 m).
Proof.
  constructor; try done. intros Hi. pose proof (begin_reports context (readiness m)) as Hb. destruct (beginReadinessUpdate context (readiness m)) as [u r].
  destruct Hb as [[Hr _]|[Hr _]]; [by apply ready_same|]. unfold ready_inv. cbn. by rewrite Hr.
Qed.

Ltac begin_update :=
  match goal with |- context [beginReadinessUpdate ?c ?r] =>
    pose proof (begin_reports c r) as Hb; destruct (beginReadinessUpdate c r) as [u r']; destruct Hb as [[Hr Hc]|[Hr Hc]]; rewrite Hc
  end.

Lemma side_unchanged r m : rd_reports r = rd_reports (readiness m) -> side m (with_readiness r m).
Proof. intros Hr. constructor; try done. by apply ready_same. Qed.

Lemma side_settled u rep r l m : isCurrent u r = true -> (rep = rep_ready -> l = []) -> side m (with_readiness (settle u rep r) (with_failures l m)).
Proof. intros Hc Hl. apply side_readiness. rewrite settle_reports, Hc, last_snoc. intros [= Hrep]. auto. Qed.

Lemma side_fail op m : side m (port_fail op m).
Proof.
  unfold port_fail. destruct (runtimeContext (descriptor m)) as [c|]; [|done]. case_decide; [done|]. case_decide as Hf.
  - constructor; try done. intros Hi Hl. by destruct Hf, Hi.
  - begin_update; [by apply side_unchanged|]. etrans; [|by apply side_settled]. constructor; try done. intros _ Hl. cbn in Hl. congruence.
Qed.

Lemma side_recover op m : side m (port_recover op m).
Proof.
  unfold port_recover. destruct (runtimeContext (descriptor m)) as [c|]; [|done]. case_decide as Hin; [done|]. destruct (1 <? _)%nat eqn:Hlen.
  - apply Nat.ltb_lt in Hlen. constructor; try done. intros Hi Hl. specialize (Hi Hl). rewrite Hi in Hlen. cbn in Hlen. lia.
  - begin_update; [by apply side_unchanged|]. etrans; [|apply side_settled; [done|]; intros _].
    + constructor; try done. intros _ Hl. cbn in Hl. congruence.
    + apply Nat.ltb_ge in Hlen. destruct (readinessFailures (descriptor m)) as [|x [|y l]]; cbn in Hlen; [by apply elem_of_nil in Hin | | lia].
      apply list_elem_of_singleton in Hin as ->. unfold js_set_delete. cbn. by rewrite decide_False by auto.
Qed.

Lemma side_recoverAll m : side m (port_recoverAll m).
Proof.
  unfold port_recoverAll. destruct (runtimeContext (descriptor m)) as [c|]; [|done]. case_decide; [done|].
  begin_update; [by apply side_unchanged|]. etrans; [|by apply side_settled]. constructor; try done. intros _ Hl. cbn in Hl. congruence.
Qed.

Lemma side_onError op msg m : side m (onRuntimeError op msg m).
Proof. unfold onRuntimeError. destruct (_ && _); [apply side_fail | done]. Qed.

Lemma side_report op msg m : side m (reportRuntimeError op msg m).
Proof.
  unfold reportRuntimeError. etrans; [|apply side_onError]. etrans; [|by apply side_call]. destruct (contains _ _); [by apply side_call | done].
Qed.

Lemma side_native_reconcile f l scope m : side m (with_flight f (with_promises l (call (messagingReconcile scope) m))).
Proof. etrans; [|apply side_flight]. etrans; [|apply side_promises]. by apply side_call. Qed.

Lemma side_reconcileActive m : side m (reconcileActiveMessagingSession m).2.
Proof.
  unfold reconcileActiveMessagingSession. cbv zeta. repeat case_match; cbn [snd]; first [done | apply side_native_reconcile].
Qed.

Lemma side_settle i key r m : side m (settle_promise i key r m).
Proof.
  unfold settle_promise. etrans; [apply side_promises|]. fold (set_promise i (p_settled r) m). destruct (reconcileInFlight _) as [[k j]|]; [|done].
  case_decide; [apply side_flight | done].
Qed.

Lemma side_finish i key m : side m (finish_reconcile i key m).
Proof.
  unfold finish_reconcile. case_decide; [apply side_settle|]. cbv zeta. etrans; [|apply side_settle]. etrans; [by apply (side_call dispatch_reconciled)|].
  etrans; [by apply (side_call clearActorIdentityRecovery)|]. destruct (port_active _); [apply side_recoverAll | done].
Qed.

Lemma side_load auth rest m : side m (load_next auth rest m).2.
Proof. unfold load_next. destruct rest; [done|]. destruct (auth_is auth m); [by apply side_call | done]. Qed.

Lemma side_advance history which f m : side m (advance history which f m).2.
Proof.
  unfold advance, after_conversations. destruct f as [auth|auth first second|auth rest]; [| |apply side_load].
  - destruct (auth_is auth m); [cbn [snd]; etrans; by apply side_call | done].
  - destruct (_ || _); [done|]. destruct (auth_is auth m); [apply side_load | done].
Qed.

Lemma side_continue i key history next m : side m next.2 -> side m (continue_refresh i key history next).
Proof. destruct next as [[f|] m']; intros Hs; cbn in *; [etrans; [exact Hs|]; apply side_promises | etrans; [exact Hs | apply side_finish]]. Qed.

Lemma side_native i r m : side m (answer_native i r m).
Proof.
  unfold answer_native. destruct (promise_at i m) as [[key []]|]; try done. destruct r; [|apply side_settle]. case_decide; [apply side_settle|].
  apply side_continue. destruct (authSession (social m)) as [[auth acc]|]; [by apply side_call | done].
Qed.

Lemma side_refresh i which r m : side m (answer_refresh i which r m).
Proof.
  unfold answer_refresh. destruct (promise_at i m) as [[key [|history f|]]|]; try done.
  destruct f; repeat case_match; try done; first [apply side_settle | apply side_continue, side_advance].
Qed.

Lemma side_wake b m : side m (wakeActiveMessagingSession b m).
Proof.
  unfold wakeActiveMessagingSession. destruct (_ && _); [done|]. pose proof (side_reconcileActive m) as Hs.
  destruct (reconcileActiveMessagingSession m) as [[i|] m']; [etrans; [exact Hs | apply side_wakes] | exact Hs].
Qed.

Lemma side_settle_wake k m : side m (settle_wake k m).
Proof.
  unfold settle_wake. destruct (_ ≫= _) as [[key [| |[|e]]]|]; try done. etrans; [apply side_wakes | apply side_report].
Qed.

Lemma side_startup second m : side m (start_startup second m).2.
Proof. unfold start_startup. pose proof (side_reconcileActive m) as Hs. by destruct (reconcileActiveMessagingSession m). Qed.

Lemma side_again s m s' m' : continue_startup s m = su_again s' m' -> side m m'.
Proof.
  unfold continue_startup. intros Hc. destruct (awaited s) as [i|]; [|done]. destruct (promise_at i m) as [[key [| |[|e]]]|]; try done.
  destruct (second_attempt s || _); [done|]. pose proof (side_startup true (with_flight None m)) as Hs.
  destruct (start_startup true (with_flight None m)) as [s1 m1]. injection Hc as <- <-. etrans; [apply side_flight | exact Hs].
Qed.

Lemma side_publish m : side m (publishProjectionScope m).
Proof. unfold publishProjectionScope. etrans; by apply side_call. Qed.

(** ** Steps that leave scope, events and deliveries alone *)
Record calm (m m' : Messaging) : Prop := {
  cm_active : active m' = active m;
  cm_published : published m' = published m;
  cm_deliveries : deliveries (work m') = deliveries (work m);
  cm_ready : ready_inv m -> ready_inv m'
}.

#[export] Instance calm_preorder : PreOrder calm.
Proof. split; [by constructor|]. intros m1 m2 m3 [] []. constructor; try congruence. auto. Qed.

Lemma side_calm m m' : side m m' -> calm m m'.
Proof. intros []. by constructor. Qed.

Lemma calm_call c m : is_publication c = false -> calm m (call c m).
Proof. intros. by apply side_calm, side_call. Qed.

Lemma calm_set_transition s m : calm m (set_transition s m).
Proof. unfold set_transition. destruct (transitions (work m)); [done|]. by constructor. Qed.

Lemma calm_finish_transition m : calm m (finish_transition m).
Proof. by constructor. Qed.

Lemma calm_hooks hs m : calm m (with_hooks hs m).
Proof. by constructor. Qed.

Lemma calm_recoveries l m : calm m (with_recoveries l m).
Proof. by constructor. Qed.

Lemma calm_publish_scope m : calm m (publishProjectionScope m).
Proof. apply side_calm, side_publish. Qed.

Lemma calm_fail_transition t e m : calm m (fail_transition t e m).
Proof.
  unfold fail_transition. etrans; [|apply calm_finish_transition]. destruct (transition_current t m) eqn:Ht; [|done].
  etrans; [|apply side_calm, side_report]. unfold transition_current in Ht. apply andb_true_iff in Ht as [Hc _].
  constructor; try done. intros _. unfold ready_inv. cbn. rewrite settle_reports, Hc, last_snoc. done.
Qed.

Lemma calm_complete t m : calm m (complete_transition t m).
Proof.
  unfold complete_transition. etrans; [|apply calm_finish_transition]. destruct (transition_current t m); [|done]. by constructor.
Qed.

Lemma calm_activate_session t m : calm m (activate_session t m).
Proof.
  unfold activate_session. destruct (t_session t); [|apply calm_complete]. destruct (transition_current t m); [|apply calm_complete].
  etrans; [|apply calm_set_transition]. by apply calm_call.
Qed.

Lemma calm_enqueue s c m : calm m (enqueueSessionTransition s c m).
Proof.
  unfold enqueueSessionTransition. pose proof (side_begin c m) as Hb. destruct (beginReadinessUpdate c (readiness m)) as [u r]. cbn [snd] in Hb.
  etrans; [apply side_calm, Hb|]. by constructor.
Qed.

Lemma calm_continue_transition t m s : calm m (continue_transition t (continue_startup s m) m).
Proof.
  destruct (continue_startup s m) as [|s' m'|[]] eqn:Hs; cbn [continue_transition]; [done | | |apply calm_fail_transition].
  - etrans; [apply side_calm; by eapply side_again | apply calm_set_transition].
  - etrans; [apply calm_publish_scope | apply calm_complete].
Qed.

Lemma calm_recovery_startup k m : calm m (answer_recovery_startup k m).
Proof.
  unfold answer_recovery_startup. destruct (recoveries (work m) !! k) as [[|s]|]; try done.
  destruct (continue_startup s m) as [|s' m'|[]] eqn:Hs; [done | | |apply calm_recoveries].
  - etrans; [apply side_calm; by eapply side_again | apply calm_recoveries].
  - etrans; [apply calm_publish_scope | apply calm_recoveries].
Qed.

(** Changes of the descriptor that clear the failures, or keep them. *)
Lemma calm_descriptor d m : readinessFailures d = [] \/ readinessFailures d = readinessFailures (descriptor m) -> calm m (with_descriptor d m).
Proof. intros Hd. constructor; try done. unfold ready_inv. cbn. destruct Hd as [->| ->]; auto. Qed.

Lemma calm_listen k r m : calm m (answer_listen k r m).
Proof.
  unfold answer_listen. destruct (hooks (work m) !! k) as [[]|]; try done. cbv zeta. etrans; [apply (calm_hooks (delete k (hooks (work m))))|]. fold (drop_hook k m).
  destruct r; [|done]. etrans; [|apply calm_enqueue]. apply calm_descriptor. by right.
Qed.

Lemma calm_hook_answer k r m : calm m (answer_hook k r m).
Proof.
  unfold answer_hook. destruct (hooks (work m) !! k) as [[]|]; try done. cbv zeta. etrans; [apply (calm_hooks (delete k (hooks (work m))))|]. fold (drop_hook k m).
  destruct r; [apply calm_enqueue | done].
Qed.

Lemma calm_session s m : calm m (session_changed s m).
Proof.
  unfold session_changed. cbv zeta. etrans; [by apply (Build_calm m (with_session s m))|]. destruct (_ || _); [done|].
  etrans; [by apply (calm_call (attachments_setScope None))|]. destruct (runtimeContext _); [apply calm_enqueue | done].
Qed.

(** ** Which steps do what *)
Definition replaces_scope (o : Op) : bool := match o with o_dependencies _ | o_activated _ | o_recovered _ _ | o_hook _ => true | _ => false end.
Definition delivers (o : Op) : bool := match o with o_projection _ | o_start_delivery | o_listed _ | o_delivery _ _ => true | _ => false end.

Lemma step_calm o m : replaces_scope o = false -> delivers o = false -> calm m (step o m).
Proof.
  intros Hr Hd. destruct o as [c|k r| |c| |k|k r|s| |s|l| | |op msg|e|b| | | |r|r|r| |i r|i w r|k|k r|k| |r|w r]; try done; cbn [step].
  - unfold bootstrap. etrans; [|apply calm_hooks]. etrans; [|by apply calm_call]. apply calm_descriptor. by left.
  - apply calm_listen.
  - unfold suspend. etrans; [|apply calm_hooks]. by apply calm_call.
  - apply calm_hook_answer.
  - apply calm_session.
  - destruct (navigation_subscribed _); [by apply calm_call | done].
  - destruct (rd_latest (readiness m)) as [[n []]|]; try done. constructor; try done. intros _. unfold ready_inv. cbn. by rewrite last_snoc.
  - apply side_calm, side_onError.
  - apply side_calm, side_wake.
  - apply side_calm, side_reconcileActive.
  - unfold recoverActiveMessagingIdentity. destruct (admittedSession m), (activeScope (active m)); try done. destruct (sameAccount _ _); [|done].
    etrans; [|apply calm_recoveries]. by apply calm_call.
  - unfold start_transition. destruct (transitions (work m)) as [|t rest]; [done|]. destruct (t_stage t); try done.
    destruct (transition_current t m); [apply calm_set_transition | apply calm_finish_transition].
  - unfold answer_deactivated. destruct (transitions (work m)) as [|t rest]; [done|]. destruct (t_stage t); try done. destruct r; [apply calm_activate_session | apply calm_fail_transition].
  - unfold answer_startup. destruct (transitions (work m)) as [|t rest]; [done|]. destruct (t_stage t); try done. apply calm_continue_transition.
  - apply side_calm, side_native.
  - apply side_calm, side_refresh.
  - apply side_calm, side_settle_wake.
  - apply calm_recovery_startup.
Qed.

(** A new scope, or none. *)
Record rescoped (m m' : Messaging) : Prop := {
  rs_published : published m' = published m;
  rs_deliveries : deliveries (work m') = deliveries (work m);
  rs_ready : ready_inv m -> ready_inv m'
}.

#[export] Instance rescoped_preorder : PreOrder rescoped.
Proof. split; [by constructor|]. intros m1 m2 m3 [] []. constructor; try congruence. auto. Qed.

Lemma calm_rescoped m m' : calm m m' -> rescoped m m'.
Proof. intros []. by constructor. Qed.

Lemma rescoped_active a m : rescoped m (with_active a m).
Proof. by constructor. Qed.

Lemma rescoped_clear m : rescoped m (clearActiveProjectionScope m).
Proof. unfold clearActiveProjectionScope. etrans; [|apply calm_rescoped, calm_publish_scope]. by constructor. Qed.

Lemma rescoped_startup second m : rescoped m (start_startup second m).2.
Proof. apply calm_rescoped, side_calm, side_startup. Qed.

Lemma step_rescoped o m : replaces_scope o = true -> rescoped m (step o m).
Proof.
  intros Hr. destruct o; try done; cbn [step].
  - unfold continue_hook. destruct (hooks (work m) !! k) as [[]|]; try done.
    + destruct (transitions_done _ _); [|done]. etrans; [|apply calm_rescoped, calm_hooks]. by apply calm_rescoped, calm_call.
    + destruct (transitions_done _ _); [|done]. destruct (activeScope (active m)); [|apply calm_rescoped, calm_hooks].
      etrans; [|apply calm_rescoped, calm_hooks]. by apply calm_rescoped, calm_call.
    + destruct (transitions_done _ _); [|done]. apply calm_rescoped, calm_hooks.
    + destruct (deliveries_done _ _); [|done]. cbv zeta. etrans; [apply rescoped_clear|]. destruct (activeScope (active m)); apply calm_rescoped; [|apply calm_hooks].
      etrans; [|apply calm_hooks]. by apply calm_call.
  - unfold answer_dependencies. destruct (transitions (work m)) as [|t rest]; [done|]. destruct (t_stage t); try done. destruct r as [ready|]; [|apply calm_rescoped, calm_fail_transition].
    destruct (_ && _); [|apply calm_rescoped, calm_finish_transition]. unfold synchronizeSession.
    destruct (activeScope (active m)) as [scope|]; [|apply calm_rescoped, calm_activate_session]. destruct (sameAccount _ _); [apply calm_rescoped, calm_activate_session|].
    etrans; [|apply calm_rescoped, calm_set_transition]. etrans; [apply rescoped_clear|]. by apply calm_rescoped, calm_call.
  - unfold answer_activated. destruct (transitions (work m)) as [|t rest]; [done|]. destruct (t_stage t), (t_session t) as [session|]; try done.
    destruct r as [status|]; [|apply calm_rescoped, calm_fail_transition]. do 2 (destruct (negb _); [apply calm_rescoped, calm_fail_transition|]). cbv zeta.
    etrans; [apply rescoped_active|]. destruct (transition_current t _); [|apply calm_rescoped, calm_complete]. etrans; [apply rescoped_active|].
    match goal with |- context [start_startup false ?m0] => pose proof (rescoped_startup false m0) as Hs; destruct (start_startup false m0) as [s m1] end.
    etrans; [exact Hs | apply calm_rescoped, calm_set_transition].
  - unfold answer_recovered. destruct (recoveries (work m) !! k) as [[]|]; try done. destruct r as [status|]; [|apply calm_rescoped, calm_recoveries].
    destruct (_ && _); [|apply calm_rescoped, calm_recoveries]. cbv zeta. etrans; [apply rescoped_active|].
    match goal with |- context [start_startup false ?m0] => pose proof (rescoped_startup false m0) as Hs; destruct (start_startup false m0) as [s m1] end.
    etrans; [exact Hs | apply calm_rescoped, calm_recoveries].
Qed.
