(* ===== verification/MessagingDeliveries.v ===== *)
(** * Deliveries of the messaging runtime

    An event that is published is for the scope that is active, and events of one activation
    are published in the order of their lane. *)
From Stdlib Require Import Lia ZArith Sorting.Sorted.
From stdpp Require Import base numbers strings list pretty.
From S2P Require Import Prelude JsString MessagingRuntime MessagingFacts.

Open Scope string_scope.
Open Scope list_scope.

(** ** Keys of scopes *)
Definition US : Ascii.ascii := Ascii.Ascii true true true true true false false false.
Definition plain (s : string) : bool := no_char US s.

Lemma char_split_last c s s' r r' : no_char c r = true -> no_char c r' = true -> s +:+ String c r = s' +:+ String c r' -> s = s' /\ r = r'.
Proof.
  assert (Hin : forall x y : string, no_char c (x +:+ String c y) = false).
  { intros x y. induction x as [|a x IH].
    - change (negb (Ascii.eqb c c) && no_char c y = false). by rewrite Ascii.eqb_refl.
    - change (negb (Ascii.eqb a c) && no_char c (x +:+ String c y) = false). by rewrite IH, andb_false_r. }
  revert s'. induction s as [|x s IH]; intros [|x' s'] Hr Hr' Heq; unfold String.append in Heq; fold String.append in Heq.
  - by injection Heq as ->.
  - injection Heq as _ ->. change (String.append s' (String c r')) with (s' +:+ String c r') in Hr. by rewrite Hin in Hr.
  - injection Heq as _ <-. change (String.append s (String c r)) with (s +:+ String c r) in Hr'. by rewrite Hin in Hr'.
  - injection Heq as <- Heq. destruct (IH s' Hr Hr' Heq) as [-> ->]. done.
Qed.

Lemma plain_pretty_N n s : plain s = true -> plain (pretty_N_go n s) = true.
Proof.
  revert s. induction n as [n IH] using (well_founded_induction N.lt_wf_0). intros s Hs. destruct (decide (n = 0%N)) as [->|Hn]; [by rewrite pretty_N_go_0|].
  rewrite pretty_N_go_step by lia. apply IH; [apply N.div_lt; lia|]. unfold plain in *. cbn. rewrite Hs, andb_true_r. unfold pretty_N_char. by repeat case_match.
Qed.

Lemma plain_pretty_all (n : N) : plain (pretty n) = true.
Proof. unfold pretty, pretty_N. destruct (decide (n = 0%N)); [done | by apply plain_pretty_N]. Qed.

Lemma plain_pretty (z : Z) : plain (pretty z) = true.
Proof. destruct z as [|p|p]; [done | |]; apply (plain_pretty_all (N.pos p)). Qed.

(** The event is for that scope. *)
Definition for_scope (e : MessagingProjectionEvent) (s : MessagingProjectionScope) : Prop :=
  e_activationGeneration e = activationGeneration s /\ e_stationPeerId e = stationPeerId (ps_account s)
  /\ e_actorPtid e = actorPtid (ps_account s) /\ e_profileId e = profileId s.

Definition plain_event (e : MessagingProjectionEvent) : bool := plain (e_stationPeerId e) && plain (e_actorPtid e) && plain (e_profileId e).
Definition plain_scope (s : MessagingProjectionScope) : bool := plain (stationPeerId (ps_account s)) && plain (actorPtid (ps_account s)) && plain (profileId s).

(** Names without the separator are told apart by the key. *)
Lemma same_key e s s' : projectionScopeKey (Some s) = projectionScopeKey (Some s') -> for_scope e s' -> plain_event e = true -> plain_scope s = true -> for_scope e s.
Proof.
  intros Hk (Hg & Hs & Ha & Hp) He Hps. unfold plain_event, plain_scope in *. rewrite Hs, Ha, Hp in He.
  repeat match goal with H : _ && _ = true |- _ => apply andb_true_iff in H as [? ?] end. unfold projectionScopeKey, separator in Hk. fold US in Hk.
  apply (char_split US) in Hk as [Hk1 Hk]; [|done|done]. apply (char_split US) in Hk as [Hk2 Hk]; [|done|done]. apply (char_split US) in Hk as [Hk3 Hk]; [|done|done].
  apply (char_split_last US) in Hk as [_ Hk]; [|apply plain_pretty..]. apply (inj pretty) in Hk. unfold for_scope. rewrite Hg, Hs, Ha, Hp. auto.
Qed.

(** ** The chain of deliveries *)
Definition known_scope (k : string) (e : MessagingProjectionEvent) : Prop := k = "" \/ exists s, k = projectionScopeKey (Some s) /\ for_scope e s.

Definition stage_ok (d : Delivery) : Prop :=
  match d_stage d with d_queued => True | d_listing k _ | d_loading k _ | d_refreshing k _ => known_scope k (d_event d) end.

Definition delivery_inv (m : Messaging) : Prop := Forall stage_ok (deliveries (work m)).

(** The event may be published now. *)
Definition may_publish (m : Messaging) (e : MessagingProjectionEvent) : Prop :=
  (lastDeliveredLaneSequence (active m) < e_laneSequence e)%Z
  /\ exists s s', currentMessagingProjectionScope m = Some s /\ projectionScopeKey (Some s) = projectionScopeKey (Some s') /\ for_scope e s'.

(** What a step of a delivery does. *)
Record delivered (m m' : Messaging) : Prop := {
  dv_inv : delivery_inv m';
  dv_ready : ready_inv m -> ready_inv m';
  dv_event : (published m' = published m /\ active m' = active m)
    \/ exists e, published m' = published m ++ [e] /\ active m' = active (with_delivered (e_laneSequence e) m) /\ may_publish m e
}.

Lemma delivered_calm m m' : active m' = active m -> published m' = published m -> (ready_inv m -> ready_inv m') -> delivery_inv m' -> delivered m m'.
Proof. intros. constructor; auto. Qed.

Lemma deliverable_for e m s : deliverable e m = true -> currentMessagingProjectionScope m = Some s -> for_scope e s.
Proof.
  unfold deliverable, currentMessagingProjectionScope, for_scope. destruct (activeScope (active m)) as [scope|]; [|done].
  destruct (activeProfileId (active m)) as [profile|]; [|done]. destruct (activeDeviceId (active m)) as [device|]; [|done].
  intros Hd. destruct (_ && _ && _) eqn:Ht in |- *; [|done]. intros [= <-]. cbn.
  repeat match goal with H : _ && _ = true |- _ => apply andb_true_iff in H as [? ?] end. rewrite !bool_decide_eq_true in *. naive_solver.
Qed.

Lemma deliverable_known e m : deliverable e m = true -> known_scope (currentKey m) e.
Proof.
  intros Hd. unfold currentKey. destruct (currentMessagingProjectionScope m) as [s|] eqn:Hs; [right | by left]. exists s. split; [done|]. by eapply deliverable_for.
Qed.

Lemma publish_delivered k e m : delivery_inv m -> known_scope k e -> delivered m (publish_delivery k e m).
Proof.
  intros Hi Hk. unfold publish_delivery. assert (Ht : Forall stage_ok (tail (deliveries (work m)))) by (unfold delivery_inv in Hi; destruct (deliveries (work m)); [done | by apply Forall_cons in Hi as [_ ?]]).
  destruct (_ && _) eqn:Hc; [|by constructor; [exact Ht | | left]]. apply andb_true_iff in Hc as [Hc Hl]. apply andb_true_iff in Hc as [Htr Hcur].
  apply bool_decide_eq_true in Hcur. apply Z.ltb_lt in Hl. constructor; [exact Ht | done|]. right. exists e. split_and!.
  - unfold published, published_in. cbn [calls finish_delivery with_deliveries with_work call with_delivered with_active]. by rewrite omap_app.
  - done.
  - split; [done|]. destruct Hk as [->|(s' & -> & Hf)]; [done|]. unfold currentKey in Hcur. destruct (currentMessagingProjectionScope m) as [s|]; [by exists s, s'|].
    change ("" = projectionScopeKey (Some s')) in Hcur. by rewrite <- Hcur in Htr.
Qed.

(** The first delivery in another stage. *)
Lemma set_delivered m0 m s : calm m0 m -> delivery_inv m0 -> (forall d, head (deliveries (work m)) = Some d -> stage_ok {| d_id := d_id d; d_event := d_event d; d_stage := s |}) ->
  delivered m0 (set_delivery s m).
Proof.
  intros [Ha Hp Hd Hr] Hi Hs. unfold delivery_inv in Hi. rewrite <- Hd in Hi. unfold set_delivery. destruct (deliveries (work m)) as [|d rest] eqn:Hl.
  - apply delivered_calm; auto. unfold delivery_inv. by rewrite Hl.
  - apply Forall_cons in Hi as [_ Hi]. apply delivered_calm; auto. constructor; [|done]. by apply Hs.
Qed.

Lemma fail_delivered e m : delivery_inv m -> delivered m (fail_delivery e m).
Proof.
  intros Hi. pose proof (side_report "projection-delivery" e m) as [Ha Hp Hd _ _ _ _ Hr]. unfold fail_delivery. apply delivered_calm; auto.
  unfold delivery_inv in *. cbn. rewrite Hd. destruct (deliveries (work m)); [done | by apply Forall_cons in Hi as [_ ?]].
Qed.

(** Publication after calls of the store. *)
Lemma calm_delivered m m1 m2 : calm m m1 -> (delivery_inv m -> delivered m1 m2) -> delivery_inv m -> delivered m m2.
Proof.
  intros [Ha Hp Hd Hr] Hs Hi. destruct (Hs Hi) as [H1 H2 H3]. constructor; [done | auto|]. destruct H3 as [[H3 H4]|(e & H3 & H4 & H5 & s & s' & H6 & H7)].
  - left. by rewrite H3, H4.
  - right. exists e. rewrite H3, H4, Hp. split_and!; [done | cbn; by rewrite Ha|]. split; [by rewrite <- Ha|]. exists s, s'. split; [|done].
    rewrite <- H6. unfold currentMessagingProjectionScope. by rewrite Ha.
Qed.

Lemma refresh_delivered k auth d rest m : deliveries (work m) = d :: rest -> known_scope k (d_event d) -> delivery_inv m -> delivered m (refresh_delivery k auth d m).
Proof.
  intros Hd Hk Hi. unfold refresh_delivery. destruct (auth_is auth m); [|by apply publish_delivered].
  apply set_delivered; [by apply calm_call | done|]. cbn. rewrite Hd. by intros d' [= <-].
Qed.

Lemma chain_step o m : delivers o = true -> delivery_inv m -> delivered m (step o m).
Proof.
  intros Ho Hi. destruct o as [c|k r| |c| |k|k r|s| |s|l| | |op msg|e|b| | | |r|r|r| |i r|i w r|k|k r|k| |r|w r]; try done; cbn [step].
  - destruct (listening (descriptor m)); [|by apply delivered_calm]. unfold enqueueProjectionDelivery. cbv zeta. apply delivered_calm; [done | | done|].
    + unfold published, published_in. cbn. rewrite omap_app. cbn. by rewrite app_nil_r.
    + apply Forall_app. split; [done|]. by constructor.
  - unfold start_delivery. destruct (deliveries (work m)) as [|d rest] eqn:Hd; [by apply delivered_calm|].
    assert (Hf : delivered m (finish_delivery m)) by (apply delivered_calm; try done; unfold delivery_inv in *; cbn; rewrite Hd in *; by apply Forall_cons in Hi as [_ ?]).
    destruct (d_stage d); try (by apply delivered_calm). destruct (activeScope (active m)) as [scope|]; [|done].
    destruct (deliverable (d_event d) m) eqn:Hdel; [|done]. cbn [negb]. apply deliverable_known in Hdel.
    destruct (truthy _); cbn [negb]; [|by apply publish_delivered]. apply set_delivered; [by apply calm_call | done|]. cbn. rewrite Hd. by intros d' [= <-].
  - unfold answer_listed. destruct (deliveries (work m)) as [|d rest] eqn:Hd; [by apply delivered_calm|]. pose proof Hi as Hi'. unfold delivery_inv in Hi'. rewrite Hd in Hi'.
    apply Forall_cons in Hi' as [Hst _]. unfold stage_ok in Hst. destruct (d_stage d) as [|k scope| |] eqn:Hs; try (by apply delivered_calm).
    destruct r as [cs|]; [|by apply fail_delivered]. case_decide; [by apply publish_delivered|]. destruct (authSession (social m)) as [[auth acc]|]; [|by apply publish_delivered].
    destruct (negb _); [by apply publish_delivered|]. case_decide; [|by eapply refresh_delivered].
    apply set_delivered; [by apply calm_call | done|]. cbn. rewrite Hd. by intros d' [= <-].
  - unfold answer_delivery. destruct (deliveries (work m)) as [|d rest] eqn:Hd; [by apply delivered_calm|]. pose proof Hi as Hi'. unfold delivery_inv in Hi'. rewrite Hd in Hi'.
    apply Forall_cons in Hi' as [Hst _]. unfold stage_ok in Hst. destruct (d_stage d) as [| |k auth|k f] eqn:Hs; try (by apply delivered_calm).
    + destruct r; [by eapply refresh_delivered | by apply fail_delivered].
    + destruct (negb _); [by apply delivered_calm|]. destruct r; [|by apply fail_delivered].
      pose proof (side_calm _ _ (side_advance [] w f m)) as Hc. destruct (advance [] w f m) as [[f'|] m']; cbn [snd] in Hc.
      * apply set_delivered; [done | done|]. destruct Hc as [_ _ -> _]. rewrite Hd. by intros d' [= <-].
      * apply (calm_delivered m m'); [done | | done]. intros _. apply publish_delivered; [|done]. unfold delivery_inv. by destruct Hc as [_ _ -> _].
Qed.

Lemma step_delivery_inv o m : delivery_inv m -> delivery_inv (step o m).
Proof.
  intros Hi. destruct (delivers o) eqn:Hd; [by apply chain_step|]. unfold delivery_inv. destruct (replaces_scope o) eqn:Hr.
  - by destruct (step_rescoped o m Hr) as [_ -> _].
  - by destruct (step_calm o m Hr Hd) as [_ _ -> _].
Qed.

Lemma run_delivery_inv ops m : delivery_inv m -> delivery_inv (run ops m).
Proof. unfold run. revert m. induction ops as [|o ops IH]; intros m Hi; [done|]. cbn [fold_left]. by apply IH, step_delivery_inv. Qed.
