(* ===== verification/MessagingReconcile.v ===== *)
(** * Reconciles of the messaging runtime

    What the steps do to the promises of reconciles and to the one in flight; a reconcile
    whose calls succeed ends, also when it refreshes the social store; and what it does
    when it ends. *)
From Stdlib Require Import Lia ZArith.
From stdpp Require Import base numbers strings list pretty.
From S2P Require Import Prelude JsString MessagingRuntime MessagingFacts.

Open Scope string_scope.
Open Scope list_scope.

(** ** Steps start reconciles, or leave them alone *)

(** A promise waits for a call. *)
Definition waiting (s : PromiseStage) : Prop :=
  match s with
  | p_native | p_refreshing _ (rf_sessions _) | p_refreshing _ (rf_loading _ _) => True
  | p_refreshing _ (rf_both _ first second) => first || second = true
  | p_settled _ => False
  end.

Record starts (m m' : Messaging) : Prop := {
  st_promises : exists new, promises (work m') = promises (work m) ++ new /\ Forall (fun p => p_stage p = p_native) new;
  st_flight : reconcileInFlight m' = reconcileInFlight m \/ reconcileInFlight m' = None
    \/ exists k i, reconcileInFlight m' = Some (k, i) /\ promise_at i m' = Some {| p_key := k; p_stage := p_native |}
}.

Lemma starts_same m m' : promises (work m') = promises (work m) ->
  reconcileInFlight m' = reconcileInFlight m \/ reconcileInFlight m' = None -> starts m m'.
Proof. intros Hp Hf. constructor; [exists []; by rewrite app_nil_r | tauto]. Qed.

#[export] Instance starts_preorder : PreOrder starts.
Proof.
  split; [intros m; apply starts_same; auto|].
  intros m1 m2 m3 [(n1 & H1 & F1) G1] [(n2 & H2 & F2) G2]. constructor.
  - exists (n1 ++ n2). rewrite H2, H1, (assoc_L (++)). split; [done | by apply Forall_app].
  - destruct G2 as [->|[->|?]]; [|by right; left | by right; right]. destruct G1 as [->|[->|(k & i & -> & Hp)]]; [by left | by right; left|].
    right. right. exists k, i. split; [done|]. unfold promise_at in *. rewrite H2. by apply lookup_app_l_Some.
Qed.

Create HintDb starts discriminated.

Ltac starts_trivial := intros; apply starts_same; [done | by left].

Lemma starts_call c m : starts m (call c m).
Proof. starts_trivial. Qed.

Lemma starts_fail op m : starts m (port_fail op m).
Proof. apply starts_same; unfold port_fail; repeat case_match; auto. Qed.

Lemma starts_recoverAll m : starts m (port_recoverAll m).
Proof. apply starts_same; unfold port_recoverAll; repeat case_match; auto. Qed.

Lemma starts_report op msg m : starts m (reportRuntimeError op msg m).
Proof.
  unfold reportRuntimeError, onRuntimeError. cbv zeta. destruct (contains _ _); destruct (_ && _);
    try (etrans; [|apply starts_fail]); starts_trivial.
Qed.

Lemma starts_clear m : starts m (clearActiveProjectionScope m).
Proof. apply starts_same; [done | by right]. Qed.

Lemma starts_reconcile m : starts m (reconcileActiveMessagingSession m).2.
Proof.
  unfold reconcileActiveMessagingSession. cbv zeta. repeat case_match; cbn [snd]; try done;
    (constructor; [by eexists [_]; split; [reflexivity | repeat constructor] | right; right; eexists _, _; split; [reflexivity|];
       unfold promise_at; cbn; by rewrite lookup_app_r, Nat.sub_diag by done]).
Qed.

Lemma starts_startup second m : starts m (start_startup second m).2.
Proof. unfold start_startup. pose proof (starts_reconcile m) as Hs. by destruct (reconcileActiveMessagingSession m). Qed.

Lemma starts_set_transition s m : starts m (set_transition s m).
Proof. apply starts_same; unfold set_transition; destruct (transitions (work m)); auto. Qed.

Lemma starts_finish m : starts m (finish_transition m).
Proof. starts_trivial. Qed.

Lemma starts_fail_transition t e m : starts m (fail_transition t e m).
Proof.
  unfold fail_transition. destruct (transition_current t m); [|starts_trivial].
  etrans; [|apply starts_finish]. etrans; [|apply starts_report]. starts_trivial.
Qed.

Lemma starts_complete t m : starts m (complete_transition t m).
Proof. unfold complete_transition. destruct (transition_current t m); starts_trivial. Qed.

#[local] Hint Resolve starts_call starts_report starts_clear starts_set_transition starts_fail_transition starts_complete : starts.

Lemma starts_activate t m : starts m (activate_session t m).
Proof.
  unfold activate_session. destruct (t_session t); [|eauto with starts]. destruct (transition_current t m); [|eauto with starts].
  etrans; [apply starts_call | apply starts_set_transition].
Qed.

Lemma starts_synchronize t m : starts m (synchronizeSession t m).
Proof.
  unfold synchronizeSession. destruct (activeScope (active m)); [|apply starts_activate]. destruct (sameAccount _ _); [apply starts_activate|].
  etrans; [apply starts_clear|]. etrans; [apply starts_call | apply starts_set_transition].
Qed.

Lemma starts_again s m s' m' : continue_startup s m = su_again s' m' -> starts m m'.
Proof.
  unfold continue_startup. destruct (awaited s) as [i|]; [|done]. destruct (promise_at i m) as [[key [| |[u|e]]]|]; try done.
  destruct (_ || _); [done|]. pose proof (starts_startup true (with_flight None m)) as Hs. destruct (start_startup true (with_flight None m)) as [s1 m1].
  intros [= <- <-]. etrans; [|exact Hs]. apply starts_same; [done | by right].
Qed.

#[local] Hint Resolve starts_activate starts_synchronize : starts.

Lemma starts_enqueue s c m : starts m (enqueueSessionTransition s c m).
Proof. apply starts_same; unfold enqueueSessionTransition; destruct (beginReadinessUpdate _ _); auto. Qed.

Lemma starts_activated r m : starts m (answer_activated r m).
Proof.
  unfold answer_activated. destruct (transitions (work m)) as [|t rest]; [done|]. destruct (t_stage t); try done. destruct (t_session t) as [s|]; [|done].
  destruct r as [status|e]; [|eauto with starts]. destruct (negb _); [eauto with starts|]. destruct (negb _); [eauto with starts|]. cbv zeta.
  set (m1 := with_active _ m). assert (H1 : starts m m1) by starts_trivial. destruct (transition_current t m1); [|etrans; [exact H1 | apply starts_complete]].
  set (m2 := with_active _ m1). assert (H2 : starts m m2) by starts_trivial. pose proof (starts_startup false m2) as Hs. destruct (start_startup false m2) as [s' m3].
  etrans; [exact H2|]. etrans; [exact Hs | apply starts_set_transition].
Qed.

Lemma starts_finish_startup m : starts m (answer_startup m).
Proof.
  unfold answer_startup. destruct (transitions (work m)) as [|t rest]; [done|]. destruct (t_stage t) as [| | | |s]; try done.
  destruct (continue_startup s m) as [|s' m'|[u|e]] eqn:Hs; cbn [continue_transition]; [done | | |eauto with starts].
  - etrans; [by eapply starts_again | apply starts_set_transition].
  - etrans; [|apply starts_complete]. starts_trivial.
Qed.

Lemma starts_hook k m : starts m (continue_hook k m).
Proof.
  unfold continue_hook. destruct (hooks (work m) !! k) as [[]|]; try done; cbv zeta; try (destruct (transitions_done _ _); [|done]); try starts_trivial.
  - destruct (activeScope (active m)); starts_trivial.
  - destruct (deliveries_done _ _); [|done]. etrans; [apply starts_clear|]. destruct (activeScope (active m)); starts_trivial.
Qed.

Lemma starts_recovered k r m : starts m (answer_recovered k r m).
Proof.
  unfold answer_recovered. destruct (recoveries (work m) !! k) as [[]|]; try done. destruct r as [status|]; [|starts_trivial]. destruct (_ && _); [|starts_trivial].
  cbv zeta. set (m1 := with_active _ m). assert (H1 : starts m m1) by starts_trivial. pose proof (starts_startup false m1) as Hs.
  destruct (start_startup false m1) as [s m2]. etrans; [exact H1|]. etrans; [exact Hs|]. starts_trivial.
Qed.

Lemma starts_recovery_startup k m : starts m (answer_recovery_startup k m).
Proof.
  unfold answer_recovery_startup. destruct (recoveries (work m) !! k) as [[|s]|]; try done.
  destruct (continue_startup s m) as [|s' m'|[u|e]] eqn:Hs; [done | | starts_trivial..]. etrans; [by eapply starts_again|]. starts_trivial.
Qed.

Lemma starts_advance which f m : starts m (advance [] which f m).2.
Proof.
  apply starts_same; unfold advance, after_conversations, load_next; repeat case_match; auto.
Qed.

Lemma starts_delivery_steps o m : match o with o_start_delivery | o_listed _ | o_delivery _ _ => True | _ => False end -> starts m (step o m).
Proof.
  assert (Hset : forall s m, starts m (set_delivery s m)) by (intros; apply starts_same; unfold set_delivery; case_match; auto).
  assert (Hpub : forall k e m, starts m (publish_delivery k e m)) by (intros; apply starts_same; unfold publish_delivery; case_match; auto).
  assert (Hfail : forall e m, starts m (fail_delivery e m)) by (intros; unfold fail_delivery; etrans; [apply starts_report|]; starts_trivial).
  assert (Href : forall k a d m, starts m (refresh_delivery k a d m)).
  { intros. unfold refresh_delivery. case_match; [|apply Hpub]. etrans; [apply starts_call | apply Hset]. }
  destruct o; try done; intros _; cbn [step].
  - unfold start_delivery. repeat case_match; auto; try starts_trivial. etrans; [apply starts_call | apply Hset].
  - unfold answer_listed. cbv zeta. repeat case_match; auto; try done. etrans; [apply starts_call | apply Hset].
  - unfold answer_delivery. destruct (deliveries (work m)) as [|d rest]; [done|]. destruct (d_stage d) as [| |k a|k f]; try done.
    + destruct r; auto.
    + cbv zeta. destruct (negb _); [done|]. destruct r; [|auto]. pose proof (starts_advance second_call f m) as Hs.
      destruct (advance [] second_call f m) as [[f'|] m']; cbn [snd] in Hs; (etrans; [exact Hs | auto]).
Qed.

(** Only answers to reconciles change a promise. *)
Lemma step_starts o m : match o with o_native _ _ | o_refreshed _ _ _ => False | _ => True end -> starts m (step o m).
Proof.
  intros Ho. destruct o as [c|k r| |c| |k|k r|s| |s|l| | |op msg|e|b| | | |r|r|r| |i r|i w r|k|k r|k| |r|w r]; try done; cbn [step];
    try starts_trivial.
  - unfold answer_listen. destruct (hooks (work m) !! k) as [[]|]; try done. cbv zeta. destruct r; [|starts_trivial]. etrans; [|apply starts_enqueue]. starts_trivial.
  - apply starts_hook.
  - unfold answer_hook. destruct (hooks (work m) !! k) as [[]|]; try done; cbv zeta; [|starts_trivial]. destruct r; [|starts_trivial]. etrans; [|apply starts_enqueue]. starts_trivial.
  - unfold session_changed. cbv zeta. destruct (_ || _); [starts_trivial|]. destruct (runtimeContext _); [|starts_trivial]. etrans; [|apply starts_enqueue]. starts_trivial.
  - destruct (navigation_subscribed _); [starts_trivial | done].
  - destruct (rd_latest (readiness m)) as [[n []]|]; try done. starts_trivial.
  - unfold onRuntimeError. destruct (_ && _); [apply starts_fail | done].
  - destruct (listening _); [|done]. starts_trivial.
  - unfold wakeActiveMessagingSession. destruct (_ && _); [done|]. pose proof (starts_reconcile m) as Hs.
    destruct (reconcileActiveMessagingSession m) as [[i|] m']; [|done]. etrans; [exact Hs|]. starts_trivial.
  - apply starts_reconcile.
  - unfold recoverActiveMessagingIdentity. repeat case_match; try done; starts_trivial.
  - unfold start_transition. repeat case_match; try done; [apply starts_set_transition | starts_trivial].
  - unfold answer_dependencies. repeat case_match; try done; eauto with starts. starts_trivial.
  - unfold answer_deactivated. repeat case_match; try done; eauto with starts.
  - apply starts_activated.
  - apply starts_finish_startup.
  - unfold settle_wake. destruct (_ ≫= _) as [[key [| |[u|e]]]|]; try done; cbv zeta; [starts_trivial|]. etrans; [|apply starts_report]. starts_trivial.
  - apply starts_recovered.
  - apply starts_recovery_startup.
  - by apply (starts_delivery_steps o_start_delivery).
  - by apply (starts_delivery_steps (o_listed r)).
  - by apply (starts_delivery_steps (o_delivery w r)).
Qed.

(** ** The end of a reconcile *)
Definition finished (i : nat) (key : string) (m : Messaging) : Messaging :=
  settle_promise i key (Ok tt)
    (let m := call clearActorIdentityRecovery (call dispatch_reconciled m) in if port_active (descriptor m) then port_recoverAll m else m).

Lemma finish_current i key m : currentKey m = key -> finish_reconcile i key m = finished i key m.
Proof. intros Hk. unfold finish_reconcile. by rewrite decide_False by congruence. Qed.

Lemma settle_promise_fields i key r m :
  readiness (settle_promise i key r m) = readiness m /\ descriptor (settle_promise i key r m) = descriptor m
  /\ promises (work (settle_promise i key r m)) = promises (work (set_promise i (p_settled r) m)).
Proof. unfold settle_promise. cbv zeta. destruct (reconcileInFlight _) as [[k j]|]; [|done]. by case_decide. Qed.

Lemma recoverAll_promises m : promises (work (port_recoverAll m)) = promises (work m) /\ reconcileInFlight (port_recoverAll m) = reconcileInFlight m.
Proof. unfold port_recoverAll. repeat case_match; done. Qed.

Lemma set_promise_at i st m p : promise_at i m = Some p -> promise_at i (set_promise i st m) = Some {| p_key := p_key p; p_stage := st |}.
Proof. intros Hp. unfold promise_at in *. cbn. by rewrite list_lookup_alter_eq, Hp. Qed.

Lemma set_promise_other i j st m : i <> j -> promise_at j (set_promise i st m) = promise_at j m.
Proof. intros Hn. unfold promise_at. cbn. by rewrite list_lookup_alter_ne. Qed.

Lemma settle_promise_at i key r m j :
  promise_at j (settle_promise i key r m) = promise_at j (set_promise i (p_settled r) m).
Proof. unfold promise_at. by rewrite (proj2 (proj2 (settle_promise_fields i key r m))). Qed.

(** [finished] settles its promise with success. *)
Lemma finished_promises i key m : promises (work (finished i key m)) = promises (work (set_promise i (p_settled (Ok tt)) m)).
Proof.
  unfold finished. cbv zeta. rewrite (proj2 (proj2 (settle_promise_fields _ _ _ _))). destruct (port_active _); [|done].
  cbn. by rewrite (proj1 (recoverAll_promises _)).
Qed.

(** [recoverAll] in a context that is current. *)
Lemma recoverAll_reports context m : runtimeContext (descriptor m) = Some context -> context ∈ rd_contexts (readiness m) -> readinessFailures (descriptor m) <> [] ->
  last (rd_reports (readiness (port_recoverAll m))) = Some rep_ready /\ readinessFailures (descriptor (port_recoverAll m)) = [].
Proof.
  intros Hc Hin Hf. unfold port_recoverAll. rewrite Hc, decide_False by done. unfold beginReadinessUpdate. rewrite decide_True by done. unfold settle, isCurrent. cbn.
  rewrite !bool_decide_true by done. cbn. by rewrite last_snoc.
Qed.

Lemma finished_reports i key context m : port_active (descriptor m) = true -> runtimeContext (descriptor m) = Some context ->
  context ∈ rd_contexts (readiness m) -> readinessFailures (descriptor m) <> [] ->
  last (rd_reports (readiness (finished i key m))) = Some rep_ready /\ readinessFailures (descriptor (finished i key m)) = [].
Proof.
  intros Hp Hc Hin Hf. unfold finished. cbv zeta. cbn [descriptor call]. rewrite Hp.
  destruct (settle_promise_fields i key (Ok tt) (port_recoverAll (call clearActorIdentityRecovery (call dispatch_reconciled m)))) as (-> & -> & _).
  by apply (recoverAll_reports context).
Qed.

(** ** The calls of a reconcile *)

(** [m'] differs from [m] in what was called. *)
Record called (m m' : Messaging) : Prop := {
  cl_active : active m' = active m; cl_flight : reconcileInFlight m' = reconcileInFlight m; cl_descriptor : descriptor m' = descriptor m;
  cl_readiness : readiness m' = readiness m; cl_work : work m' = work m
}.

Lemma called_load auth rest m : called m (load_next auth rest m).2.
Proof. unfold load_next. destruct rest; [done|]. by destruct (auth_is auth m). Qed.

Lemma called_advance history which f m : called m (advance history which f m).2.
Proof.
  unfold advance, after_conversations. destruct f as [auth|auth first second|auth rest]; [| |apply called_load].
  - by destruct (auth_is auth m).
  - destruct (_ || _); [done|]. destruct (auth_is auth m); [apply called_load | done].
Qed.

(** The awaits of a refresh that are left, at most. *)
Definition refresh_rank (history : list string) (f : Refresh) : nat :=
  match f with
  | rf_sessions _ => length history + 4
  | rf_both _ first second => length history + 1 + Nat.b2n first + Nat.b2n second
  | rf_loading _ rest => S (length rest)
  end.

Lemma load_rank auth rest m f : (load_next auth rest m).1 = Some f -> exists id rest', rest = id :: rest' /\ f = rf_loading auth rest'.
Proof. unfold load_next. destruct rest as [|id rest]; [done|]. destruct (auth_is auth m); [|done]. intros [= <-]. by exists id, rest. Qed.

(** The next call that a refresh awaits succeeds. *)
Lemma advance_rank history f m : waiting (p_refreshing history f) ->
  let which := match f with rf_both _ false _ => true | _ => false end in
  match f with rf_both _ first second => (if which then second else first) = true | _ => True end
  /\ forall f', (advance history which f m).1 = Some f' -> waiting (p_refreshing history f') /\ (refresh_rank history f' < refresh_rank history f)%nat.
Proof.
  intros Hw. assert (Hafter : forall auth m0 f', (after_conversations auth history m0).1 = Some f' ->
      waiting (p_refreshing history f') /\ (refresh_rank history f' <= length history)%nat).
  { intros auth m0 f'. unfold after_conversations. destruct (auth_is auth m0); [|done]. intros (id & rest & Hr & ->)%load_rank. split; [done|].
    cbn. pose proof (length_filter (fun id => id ∈ messagingConversations (social m0)) history) as Hl. rewrite Hr in Hl. cbn in Hl. lia. }
  destruct f as [auth|auth first second|auth rest]; cbn zeta.
  - split; [done|]. intros f'. unfold advance. destruct (auth_is auth m).
    + intros [= <-]. split; [done | cbn; lia].
    + intros [? ?]%Hafter. split; [done | cbn [refresh_rank]; lia].
  - destruct first; cbn [orb] in Hw.
    + split; [done|]. intros f'. unfold advance. cbn [andb negb orb]. rewrite andb_true_r. destruct second; cbn.
      * intros [= <-]. split; [done | cbn; lia].
      * intros [? ?]%Hafter. split; [done | cbn [refresh_rank Nat.b2n]; lia].
    + cbn in Hw. subst second. split; [done|]. intros f'. unfold advance. cbn.
      intros [? ?]%Hafter. split; [done | cbn [refresh_rank Nat.b2n]; lia].
  - split; [done|]. intros f'. unfold advance. intros (id & rest' & -> & ->)%load_rank. split; [done | cbn; lia].
Qed.

(** What an answer to the promise [i] that waits does. *)
Inductive answered (i : nat) (key : string) (m : Messaging) : Messaging -> Prop :=
| an_ignored : answered i key m m
| an_failed e : answered i key m (settle_promise i key (Err e) m)
| an_goes_on m0 st : called m m0 -> (forall r, st <> p_settled r) -> waiting st -> answered i key m (set_promise i st m0)
| an_elsewhere : currentKey m <> key -> answered i key m (settle_promise i key (Ok tt) m)
| an_ends m0 : called m m0 -> answered i key m (finish_reconcile i key m0).

Lemma advance_waiting history which f m f' : (advance history which f m).1 = Some f' ->
  match f with rf_both _ first second => (if which then second else first) = true | _ => True end -> waiting (p_refreshing history f').
Proof.
  assert (Hafter : forall auth m0, (after_conversations auth history m0).1 = Some f' -> waiting (p_refreshing history f')).
  { intros auth m0. unfold after_conversations. destruct (auth_is auth m0); [|done]. by intros (id & rest & _ & ->)%load_rank. }
  destruct f as [auth|auth first second|auth rest]; unfold advance.
  - destruct (auth_is auth m); [by intros [= <-] | by intros ?%Hafter].
  - destruct ((first && which) || (second && negb which)) eqn:Hw; [by intros [= <-] | by intros ?%Hafter].
  - by intros (id & rest' & _ & ->)%load_rank.
Qed.

Lemma native_answered i key m r : promise_at i m = Some {| p_key := key; p_stage := p_native |} -> answered i key m (answer_native i r m).
Proof.
  intros Hp. unfold answer_native. rewrite Hp. destruct r as [[]|e]; [|constructor]. case_decide; [by constructor|]. cbv zeta.
  destruct (authSession (social m)) as [[auth a]|]; cbn [continue_refresh]; by constructor.
Qed.

Lemma refresh_answered i key m history f which r : promise_at i m = Some {| p_key := key; p_stage := p_refreshing history f |} ->
  answered i key m (answer_refresh i which r m).
Proof.
  intros Hp. unfold answer_refresh. rewrite Hp.
  assert (Hc : match f with rf_both _ first second => (if which then second else first) = true | _ => True end ->
    answered i key m (continue_refresh i key history (advance history which f m))).
  { intros Hw. pose proof (called_advance history which f m) as Hc. pose proof (fun f' => advance_waiting history which f m f') as Hwait.
    destruct (advance history which f m) as [[f'|] m0]; cbn [snd fst continue_refresh] in *; by constructor; auto. }
  destruct f as [auth|auth first second|auth rest]; [destruct r as [[]|e]; [by apply Hc | constructor]| |destruct r as [[]|e]; [by apply Hc | constructor]].
  destruct (negb _) eqn:Hw; [constructor|]. apply negb_false_iff in Hw. destruct r as [[]|e]; [by apply Hc | constructor].
Qed.

(** An operation is the answer to the promise [i], or leaves its stage alone. *)
Lemma step_answers o i m p : promise_at i m = Some p ->
  promise_at i (step o m) = Some p \/ answered i (p_key p) m (step o m).
Proof.
  intros Hp. destruct (match o with o_native _ _ | o_refreshed _ _ _ => false | _ => true end) eqn:Ho.
  - left. destruct (step_starts o m) as [(new & Hn & _) _]; [by destruct o|]. unfold promise_at in *. rewrite Hn. by apply lookup_app_l_Some.
  - assert (Hcase : forall j key r m0, work m0 = work m -> j <> i -> promise_at i (settle_promise j key r m0) = Some p).
    { intros j key r m0 Hm Hne. rewrite settle_promise_at, set_promise_other by done. unfold promise_at in *. by rewrite Hm. }
    assert (Hother : forall j key m', answered j key m m' -> j <> i -> promise_at i m' = Some p).
    { intros j key m' [ |e|m0 st Hcl _ _|Hk|m0 Hcl] Hne; [done | by apply Hcase; auto | | by apply Hcase; auto |].
      - rewrite set_promise_other by done. unfold promise_at in *. by rewrite (cl_work _ _ Hcl).
      - unfold finish_reconcile. case_decide; [by apply Hcase; [apply Hcl|]|]. fold (finished j key m0). unfold promise_at in *.
        rewrite finished_promises. cbn. rewrite list_lookup_alter_ne by done. by rewrite (cl_work _ _ Hcl). }
    destruct o as [| | | | | | | | | | | | | | | | | | | | | | |j r|j w r| | | | | | ]; try done; cbn [step].
    + destruct (promise_at j m) as [[key st]|] eqn:Hj; [|left; unfold answer_native; by rewrite Hj].
      destruct st; [|left; unfold answer_native; by rewrite Hj..]. pose proof (native_answered j key m r Hj) as Ha.
      destruct (decide (j = i)) as [->|Hne]; [right | left; by eapply Hother]. rewrite Hp in Hj. by injection Hj as ->.
    + destruct (promise_at j m) as [[key st]|] eqn:Hj; [|left; unfold answer_refresh; by rewrite Hj].
      destruct st as [|history f|]; [left; unfold answer_refresh; by rewrite Hj| |left; unfold answer_refresh; by rewrite Hj].
      pose proof (refresh_answered j key m history f w r Hj) as Ha.
      destruct (decide (j = i)) as [->|Hne]; [right | left; by eapply Hother]. rewrite Hp in Hj. by injection Hj as ->.
Qed.

(** ** The reconcile in flight waits *)
Definition flight_ok (m : Messaging) : Prop :=
  forall k i, reconcileInFlight m = Some (k, i) -> exists st, promise_at i m = Some {| p_key := k; p_stage := st |} /\ waiting st.

Lemma flight_starts m m' : starts m m' -> flight_ok m -> flight_ok m'.
Proof.
  intros [(new & Hn & _) Hf] Hok k i Hk. destruct Hf as [Hf|[Hf|(k' & i' & Hf & Hp)]]; rewrite Hf in Hk; [| done |].
  - destruct (Hok k i Hk) as (st & Hp & Hw). exists st. split; [|done]. unfold promise_at in *. rewrite Hn. by apply lookup_app_l_Some.
  - injection Hk as <- <-. by exists p_native.
Qed.

Lemma flight_settles i key r st m : promise_at i m = Some {| p_key := key; p_stage := st |} -> flight_ok m -> flight_ok (settle_promise i key r m).
Proof.
  intros Hp Hok k j. unfold settle_promise. cbv zeta. change (reconcileInFlight (set_promise i (p_settled r) m)) with (reconcileInFlight m).
  destruct (reconcileInFlight m) as [[k' j']|] eqn:Hf; [|cbn; by rewrite Hf]. case_decide as Hk; [done|].
  change (reconcileInFlight (set_promise i (p_settled r) m)) with (reconcileInFlight m). rewrite Hf. intros [= <- <-].
  destruct (Hok _ _ Hf) as (st' & Hp' & Hw). exists st'. split; [|done]. rewrite set_promise_other; [done|]. intros ->. congruence.
Qed.

Lemma flight_same m m' : promises (work m') = promises (work m) -> reconcileInFlight m' = reconcileInFlight m -> flight_ok m -> flight_ok m'.
Proof. intros Hp Hf Hok k i. unfold promise_at. rewrite Hp, Hf. apply Hok. Qed.

Lemma flight_finishes i key st m : promise_at i m = Some {| p_key := key; p_stage := st |} -> flight_ok m -> flight_ok (finish_reconcile i key m).
Proof.
  intros Hp Hok. unfold finish_reconcile. case_decide; [by eapply flight_settles|]. cbv zeta.
  set (m1 := call clearActorIdentityRecovery (call dispatch_reconciled m)). set (m2 := if port_active (descriptor m1) then port_recoverAll m1 else m1).
  assert (H2 : promises (work m2) = promises (work m) /\ reconcileInFlight m2 = reconcileInFlight m)
    by (subst m2; destruct (port_active _); [apply (recoverAll_promises m1) | done]).
  destruct H2 as [Hp2 Hf2]. apply (flight_settles i key (Ok tt) st); [unfold promise_at in *; by rewrite Hp2 | by apply (flight_same m)].
Qed.

Lemma flight_answered i key st m m' : promise_at i m = Some {| p_key := key; p_stage := st |} -> answered i key m m' -> flight_ok m -> flight_ok m'.
Proof.
  intros Hp [ |e|m0 st' Hc _ Hw|_|m0 Hc] Hok; [done | by eapply flight_settles | | by eapply flight_settles |].
  - intros k j Hf. change (reconcileInFlight m0 = Some (k, j)) in Hf. rewrite (cl_flight _ _ Hc) in Hf. destruct (Hok k j Hf) as (s & Hs & Hws).
    assert (Hat : forall x, promise_at x m0 = promise_at x m) by (intros x; unfold promise_at; by rewrite (cl_work _ _ Hc)).
    destruct (decide (i = j)) as [<-|Hne].
    + exists st'. split; [|done]. rewrite (set_promise_at i st' m0 {| p_key := key; p_stage := st |}) by by rewrite Hat. cbn. rewrite Hp in Hs. by injection Hs as ->.
    + exists s. rewrite set_promise_other by done. by rewrite Hat.
  - eapply flight_finishes; [unfold promise_at in *; by rewrite (cl_work _ _ Hc)|]. apply (flight_same m); [by rewrite (cl_work _ _ Hc) | apply Hc | done].
Qed.

Lemma step_flight o m : flight_ok m -> flight_ok (step o m).
Proof.
  intros Hok. destruct (match o with o_native _ _ | o_refreshed _ _ _ => false | _ => true end) eqn:Ho; [eapply flight_starts; [|exact Hok]; apply step_starts; by destruct o|].
  destruct o as [| | | | | | | | | | | | | | | | | | | | | | |j r|j w r| | | | | | ]; try done; cbn [step].
  - destruct (promise_at j m) as [[key st]|] eqn:Hj; [|unfold answer_native; by rewrite Hj].
    destruct st; [|unfold answer_native; by rewrite Hj..]. eapply flight_answered; [exact Hj | by apply native_answered | done].
  - destruct (promise_at j m) as [[key st]|] eqn:Hj; [|unfold answer_refresh; by rewrite Hj].
    destruct st; [unfold answer_refresh; by rewrite Hj| |unfold answer_refresh; by rewrite Hj]. eapply flight_answered; [exact Hj | by eapply refresh_answered | done].
Qed.

Lemma run_flight ops m : flight_ok m -> flight_ok (run ops m).
Proof. unfold run. revert m. induction ops as [|o ops IH]; intros m Hok; [done|]. cbn [fold_left]. by apply IH, step_flight. Qed.

Lemma unloaded_flight : flight_ok unloaded.
Proof. by intros k i [=]. Qed.

(** ** A reconcile whose calls succeed ends *)

(** An answer of success to the promise [i]. *)
Definition succeeds (i : nat) (o : Op) : Prop :=
  match o with o_native j (Ok _) | o_refreshed j _ (Ok _) => j = i | _ => False end.

(** [m'] comes from [m] by calls and steps of the promise [i]. *)
Record refreshed (i : nat) (key : string) (m m' : Messaging) : Prop := {
  rf_side : side m m';
  rf_readiness : readiness m' = readiness m;
  rf_descriptor : descriptor m' = descriptor m;
  rf_promise : exists st, promise_at i m' = Some {| p_key := key; p_stage := st |}
}.

Lemma side_called_advance i key history which f m st : promise_at i m = Some {| p_key := key; p_stage := st |} ->
  refreshed i key m (advance history which f m).2.
Proof.
  intros Hp. pose proof (called_advance history which f m) as Hc. constructor; [apply side_advance | apply Hc | apply Hc|].
  exists st. unfold promise_at in *. by rewrite (cl_work _ _ Hc).
Qed.

Lemma refreshed_step i key m m0 st : refreshed i key m m0 -> refreshed i key m (set_promise i st m0).
Proof.
  intros [Hs Hr Hd (st0 & Hp)]. constructor; [etrans; [exact Hs | apply side_promises] | done | done|].
  exists st. by rewrite (set_promise_at i st m0 {| p_key := key; p_stage := st0 |} Hp).
Qed.

Lemma refreshed_trans i key m1 m2 m3 : refreshed i key m1 m2 -> refreshed i key m2 m3 -> refreshed i key m1 m3.
Proof. intros [] []. constructor; [by etrans | congruence | congruence | done]. Qed.

Lemma side_key m m' : side m m' -> currentKey m' = currentKey m.
Proof. intros Hs. unfold currentKey, currentMessagingProjectionScope. by rewrite (sd_active _ _ Hs). Qed.

Lemma refresh_completes n i key history f m : (refresh_rank history f <= n)%nat ->
  promise_at i m = Some {| p_key := key; p_stage := p_refreshing history f |} -> waiting (p_refreshing history f) -> currentKey m = key ->
  exists answers m0, Forall (succeeds i) answers /\ refreshed i key m m0 /\ run answers m = finished i key m0.
Proof.
  revert f m. induction n as [|n IH]; intros f m Hn Hp Hw Hk.
  { exfalso. destruct f; cbn in Hn; lia. }
  destruct (advance_rank history f m Hw) as [Hwait Hnext]. set (which := match f with rf_both _ false _ => true | _ => false end) in *.
  assert (Hstep : step (o_refreshed i which (Ok tt)) m = continue_refresh i key history (advance history which f m)).
  { cbn [step]. unfold answer_refresh. rewrite Hp. destruct f as [auth|auth first second|auth rest]; [done| |done]. by rewrite Hwait. }
  pose proof (side_called_advance i key history which f m _ Hp) as Hr. destruct (advance history which f m) as [[f'|] m1]; cbn [snd fst continue_refresh] in *.
  - destruct (Hnext f' eq_refl) as [Hw' Hlt]. pose proof (refreshed_step i key m m1 (p_refreshing history f') Hr) as Hr'.
    set (m2 := set_promise i (p_refreshing history f') m1) in *. destruct (rf_promise _ _ _ _ Hr) as (st & Hp1).
    destruct (IH f' m2) as (answers & m0 & Ha & Hr0 & Hrun); [lia | by apply (set_promise_at i _ m1 {| p_key := key; p_stage := st |} Hp1) | done | by rewrite (side_key _ _ (rf_side _ _ _ _ Hr'))|].
    exists (o_refreshed i which (Ok tt) :: answers), m0. split; [by constructor|]. split; [by eapply refreshed_trans|].
    unfold run. cbn [fold_left]. by rewrite Hstep.
  - exists [o_refreshed i which (Ok tt)], m1. split; [by repeat constructor|]. split; [done|]. unfold run. cbn [fold_left]. rewrite Hstep.
    apply finish_current. by rewrite (side_key _ _ (rf_side _ _ _ _ Hr)).
Qed.

(** Answers of success bring the promise that waits to its end. *)
Lemma reconcile_completes i key st m : promise_at i m = Some {| p_key := key; p_stage := st |} -> waiting st -> currentKey m = key ->
  exists answers m0, Forall (succeeds i) answers /\ refreshed i key m m0 /\ run answers m = finished i key m0.
Proof.
  intros Hp Hw Hk. destruct st as [|history f|]; [|by eapply refresh_completes|done].
  assert (Hstep : step (o_native i (Ok tt)) m = continue_refresh i key (history_of (social m))
    match authSession (social m) with Some (auth, _) => (Some (rf_sessions auth), call refreshSessions m) | None => (None, m) end).
  { cbn [step]. unfold answer_native. rewrite Hp. by rewrite decide_False by congruence. }
  destruct (authSession (social m)) as [[auth a]|]; cbn [continue_refresh] in Hstep.
  - set (st := p_refreshing (history_of (social m)) (rf_sessions auth)) in *. set (m2 := set_promise i st (call refreshSessions m)) in *.
    assert (Hr : refreshed i key m m2).
    { apply refreshed_step. constructor; [by apply (side_call refreshSessions) | done | done | by exists p_native]. }
    destruct (refresh_completes (refresh_rank (history_of (social m)) (rf_sessions auth)) i key (history_of (social m)) (rf_sessions auth) m2) as (answers & m0 & Ha & Hr0 & Hrun);
      [done | by apply (set_promise_at i _ (call refreshSessions m) {| p_key := key; p_stage := p_native |} Hp) | done | by rewrite (side_key _ _ (rf_side _ _ _ _ Hr))|].
    exists (o_native i (Ok tt) :: answers), m0. split; [by constructor|]. split; [by eapply refreshed_trans|]. unfold run. cbn [fold_left]. by rewrite Hstep.
  - exists [o_native i (Ok tt)], m. split; [by repeat constructor|]. split; [constructor; [done..|]; by exists p_native|].
    unfold run. cbn [fold_left]. rewrite Hstep. by apply finish_current.
Qed.

(** A step that settles a reconcile of the current scope with success is its end. *)
Lemma settling_step o i m p : promise_at i m = Some p -> (forall r, p_stage p <> p_settled r) -> currentKey m = p_key p ->
  promise_at i (step o m) = Some {| p_key := p_key p; p_stage := p_settled (Ok tt) |} ->
  exists m0, called m m0 /\ step o m = finished i (p_key p) m0.
Proof.
  intros Hp Hn Hk Hs. destruct (step_answers o i m p Hp) as [Heq|Ha].
  { rewrite Heq in Hs. injection Hs as Hpp. destruct (Hn (Ok tt)). by rewrite Hpp. }
  destruct Ha as [ |e|m0 st Hc Hst _|?|m0 Hc]; [| | |done|].
  - rewrite Hp in Hs. injection Hs as Hpp. destruct (Hn (Ok tt)). by rewrite Hpp.
  - rewrite settle_promise_at, (set_promise_at i _ m p Hp) in Hs. done.
  - rewrite (set_promise_at i _ m0 p) in Hs by (unfold promise_at in *; by rewrite (cl_work _ _ Hc)). injection Hs as ->. by destruct (Hst (Ok tt)).
  - exists m0. split; [done|]. apply finish_current. unfold currentKey, currentMessagingProjectionScope in *. by rewrite (cl_active _ _ Hc).
Qed.
