(* ===== verification/MessagingSafety.v ===== *)
(** * What the messaging runtime promises

    Natively active accounts are tracked and deactivated, a scope belongs to one account,
    readiness reports are truthful, and a transition that is answered with success makes
    the runtime ready. The last part shows races and failures the code does not handle. *)
From Stdlib Require Import Lia ZArith Sorting.Sorted.
From stdpp Require Import base numbers strings list pretty.
From S2P Require Import Prelude JsString MessagingRuntime MessagingFacts MessagingDeliveries MessagingReconcile.

Open Scope string_scope.
Open Scope list_scope.

(** ** Accounts active on the native side *)
Definition same (a b : Account) : Prop := stationPeerId a = stationPeerId b /\ actorPtid a = actorPtid b.

#[export] Instance same_equivalence : Equivalence same.
Proof. split; [done | by intros a b [] | intros a b c [] []; split; congruence]. Qed.

#[export] Instance same_dec a b : Decision (same a b).
Proof. unfold same. apply _. Defined.

Lemma sameAccount_spec a o : sameAccount a o = true <-> exists b, o = Some b /\ same a b.
Proof.
  unfold sameAccount, same. destruct o as [b|]; [|naive_solver]. rewrite andb_true_iff, !bool_decide_eq_true. naive_solver.
Qed.

(** The session the first transition activates, and the account it deactivates. *)
Definition activating (m : Messaging) : option MobileAuthSession :=
  match transitions (work m) with t :: _ => match t_stage t with t_activating => t_session t | _ => None end | [] => None end.
Definition deactivating (m : Messaging) : option Account :=
  match transitions (work m) with t :: _ => match t_stage t with t_deactivating a => Some a | _ => None end | [] => None end.

(** The account that an answer makes active, or inactive. *)
Definition activated_by (o : Op) (m : Messaging) : option (Account * MessagingRuntimeStatus) :=
  match o with o_activated (Ok status) => (fun s => (accountInput s, status)) <$> activating m | _ => None end.
Definition deactivated_by (o : Op) (m : Messaging) : option Account :=
  match o with
  | o_deactivated (Ok _) => deactivating m
  | o_hook_answer k (Ok _) => match hooks (work m) !! k with Some (h_deactivating a) => Some a | _ => None end
  | _ => None
  end.

(** The native side, that does what it answers. *)
Definition native_step (o : Op) (m : Messaging) (native : list Account) : list Account :=
  let native := match deactivated_by o m with Some a => filter (fun b => ~ same b a) native | None => native end in
  match activated_by o m with Some (a, _) => a :: native | None => native end.

Fixpoint native_run (ops : list Op) (m : Messaging) (native : list Account) : list Account :=
  match ops with [] => native | o :: ops => native_run ops (step o m) (native_step o m native) end.

(** The answers to activations, with their accounts. *)
Fixpoint activations (ops : list Op) (m : Messaging) : list (Account * MessagingRuntimeStatus) :=
  match ops with [] => [] | o :: ops => match activated_by o m with Some x => [x] | None => [] end ++ activations ops (step o m) end.

(** Activations name a profile and a device, and deactivations succeed. *)
Definition reliable_step (o : Op) (m : Messaging) : bool :=
  match o with
  | o_activated (Ok status) => truthy (default "" (st_profileId status)) && truthy (default "" (st_deviceId status))
  | o_deactivated (Err _) => false
  | o_hook_answer k (Err _) => match hooks (work m) !! k with Some (h_deactivating _) => false | _ => true end
  | _ => true
  end.

Fixpoint reliable (ops : list Op) (m : Messaging) : bool :=
  match ops with [] => true | o :: ops => reliable_step o m && reliable ops (step o m) end.

(** ** The invariant *)
Definition queued_only (l : list Transition) : Prop := Forall (fun t => t_stage t = t_queued) l.

(** The scope and the first transition. *)
Record scope_inv (m : Messaging) : Prop := {
  si_rest : queued_only (tail (transitions (work m)));
  si_activating : forall s a, activating m = Some s -> activeScope (active m) = Some a -> same a (accountInput s);
  si_deactivating : deactivating m <> None -> activeScope (active m) = None
}.

(** Somebody will deactivate the account, or it is the active one. *)
Definition tracked (m : Messaging) (a : Account) : Prop :=
  (exists b, activeScope (active m) = Some b /\ same a b) \/ (exists b, deactivating m = Some b /\ same a b) \/ (exists b, h_deactivating b ∈ hooks (work m) /\ same a b).

(** Nothing happens to scope, transitions and hooks but new ones. *)
Record adds (m m' : Messaging) : Prop := {
  ad_scope : activeScope (active m') = activeScope (active m);
  ad_transitions : exists new, transitions (work m') = transitions (work m) ++ new /\ queued_only new;
  ad_hooks : forall b, h_deactivating b ∈ hooks (work m) -> h_deactivating b ∈ hooks (work m')
}.

Lemma no_new m m' : transitions (work m') = transitions (work m) -> exists new, transitions (work m') = transitions (work m) ++ new /\ queued_only new.
Proof. intros ->. exists []. rewrite app_nil_r. by repeat constructor. Qed.

#[export] Instance adds_preorder : PreOrder adds.
Proof.
  split; [intros m; by constructor; try apply no_new|].
  intros m1 m2 m3 [H1 (n1 & H2 & H3) H4] [H5 (n2 & H6 & H7) H8]. constructor; [congruence | | auto]. exists (n1 ++ n2). rewrite H6, H2, (assoc_L (++)).
  split; [done | by apply Forall_app].
Qed.

Lemma side_adds m m' : side m m' -> adds m m'.
Proof. intros [Ha _ _ Ht Hh _ _ _]. constructor; [by rewrite Ha | by apply no_new | by rewrite Hh]. Qed.

Lemma adds_head m m' : adds m m' -> activating m' = activating m /\ deactivating m' = deactivating m.
Proof.
  intros [_ (new & Hn & Hq) _]. unfold activating, deactivating. rewrite Hn. destruct (transitions (work m)) as [|t rest]; [|done].
  destruct new as [|t rest]; [done|]. apply Forall_cons in Hq as [Ht _]. cbn. by rewrite Ht.
Qed.

Lemma adds_scope m m' : adds m m' -> scope_inv m -> scope_inv m'.
Proof.
  intros Ha [Hr Hac Hd]. destruct (adds_head m m' Ha) as [E1 E2]. destruct Ha as [Hs (new & Hn & Hq) _]. constructor; rewrite ?E1, ?E2, ?Hs; [|done..].
  rewrite Hn. destruct (transitions (work m)) as [|t rest]; [by destruct new; [|apply Forall_cons in Hq as [_ ?]] | by apply Forall_app].
Qed.

Lemma adds_tracked m m' a : adds m m' -> tracked m a -> tracked m' a.
Proof.
  intros Ha Ht. destruct (adds_head m m' Ha) as [_ E2]. destruct Ha as [Hs _ Hh]. unfold tracked. rewrite Hs, E2.
  destruct Ht as [?|[?|(b & Hb & ?)]]; auto. right. right. exists b. auto.
Qed.

Lemma adds_call c m : adds m (call c m).
Proof. constructor; [done | by apply no_new | done]. Qed.

Lemma adds_same m m' : activeScope (active m') = activeScope (active m) -> transitions (work m') = transitions (work m) -> hooks (work m') = hooks (work m) -> adds m m'.
Proof. intros Hs Ht Hh. constructor; [done | by apply no_new | by rewrite Hh]. Qed.

Lemma adds_add_hook h m : adds m (add_hook h m).
Proof. constructor; [done | by apply no_new |]. intros b Hb. cbn. apply elem_of_app. by left. Qed.

(** A hook that deactivates nothing goes on, or ends. *)
Lemma hook_stays k h (hs : list Hook) b : hs !! k = Some h -> h <> h_deactivating b -> h_deactivating b ∈ hs ->
  h_deactivating b ∈ delete k hs /\ forall h', h_deactivating b ∈ <[k := h']> hs.
Proof.
  intros Hk Hne (i & Hi)%list_elem_of_lookup. assert (Hik : i <> k) by (intros ->; congruence). split.
  - apply list_elem_of_lookup. destruct (decide (i < k)%nat); [exists i; by rewrite list_lookup_delete_lt|].
    exists (pred i). rewrite list_lookup_delete_ge by lia. by rewrite Nat.succ_pred by lia.
  - intros h'. apply list_elem_of_lookup. exists i. by rewrite list_lookup_insert_ne.
Qed.

Lemma adds_hook k h m hs : hooks (work m) !! k = Some h -> (forall b, h <> h_deactivating b) -> hs = delete k (hooks (work m)) \/ (exists h', hs = <[k := h']> (hooks (work m))) ->
  adds m (with_hooks hs m).
Proof.
  intros Hk Hne Hhs. constructor; [done | by apply no_new |]. intros b Hb. cbn. destruct (hook_stays k h _ b Hk (Hne b) Hb) as [? ?].
  by destruct Hhs as [->|(h' & ->)].
Qed.

Lemma adds_enqueue s c m : adds m (enqueueSessionTransition s c m).
Proof.
  unfold enqueueSessionTransition. destruct (beginReadinessUpdate c (readiness m)) as [u r]. constructor; try done. eexists. split; [reflexivity|]. by constructor.
Qed.

(** The first transition ends. *)
Record ends (m m' : Messaging) : Prop := {
  en_active : active m' = active m;
  en_transitions : transitions (work m') = tail (transitions (work m));
  en_hooks : hooks (work m') = hooks (work m)
}.

Lemma ends_finish m : ends m (finish_transition m).
Proof. by constructor. Qed.

Lemma ends_after m m1 m2 : active m1 = active m -> transitions (work m1) = transitions (work m) -> hooks (work m1) = hooks (work m) -> ends m1 m2 -> ends m m2.
Proof. intros Ha Ht Hh []. constructor; congruence. Qed.

Lemma side_ends m m1 m2 : side m m1 -> ends m1 m2 -> ends m m2.
Proof. intros []. by apply ends_after. Qed.

Lemma ends_fail t e m : ends m (fail_transition t e m).
Proof.
  unfold fail_transition. destruct (transition_current t m); [|apply ends_finish].
  eapply ends_after; [..|eapply side_ends; [apply side_report | apply ends_finish]]; done.
Qed.

Lemma ends_complete t m : ends m (complete_transition t m).
Proof. unfold complete_transition. destruct (transition_current t m); [by constructor | apply ends_finish]. Qed.

Lemma no_head m : queued_only (transitions (work m)) -> activating m = None /\ deactivating m = None.
Proof. unfold activating, deactivating. destruct (transitions (work m)) as [|t rest]; [done|]. intros [-> _]%Forall_cons. done. Qed.

Lemma tail_queued l : queued_only l -> queued_only (tail l).
Proof. destruct l; [done|]. by intros [_ ?]%Forall_cons. Qed.

(** What is tracked by the transition is tracked by nobody else. *)
Lemma tracked_by_others m m' a : activeScope (active m') = activeScope (active m) -> (forall b, h_deactivating b ∈ hooks (work m) -> h_deactivating b ∈ hooks (work m')) ->
  deactivating m = None -> tracked m a -> tracked m' a.
Proof. intros Hs Hh Hd Ht. unfold tracked in *. rewrite Hs. rewrite Hd in Ht. destruct Ht as [?|[(b & ? & _)|(b & Hb & ?)]]; [by left | done | right; right; exists b; auto]. Qed.

Definition safe (m : Messaging) (native : list Account) : Prop := scope_inv m /\ Forall (tracked m) native.

Lemma safe_adds m m' native : adds m m' -> safe m native -> safe m' native.
Proof. intros Ha [Hi Ht]. split; [by eapply adds_scope|]. eapply Forall_impl; [exact Ht|]. intros a. by apply adds_tracked. Qed.

Lemma safe_ends m m' native : ends m m' -> deactivating m = None -> safe m native -> safe m' native.
Proof.
  intros [Ha Ht Hh] Hd [[Hr _ _] Hn]. rewrite <- Ht in Hr. destruct (no_head m' Hr) as [E1 E2]. split.
  - constructor; rewrite ?E1, ?E2; try done. by apply tail_queued.
  - eapply Forall_impl; [exact Hn|]. intros a. apply tracked_by_others; [by rewrite Ha | by rewrite Hh | done].
Qed.

Definition quiet_stage (s : TransitionStage) : bool := match s with t_activating | t_deactivating _ => false | _ => true end.

Lemma safe_quiet m s native : quiet_stage s = true -> deactivating m = None -> safe m native -> safe (set_transition s m) native.
Proof.
  intros Hq Hd Hsafe. unfold set_transition. destruct (transitions (work m)) as [|t rest] eqn:Ht; [done|]. destruct Hsafe as [[Hr _ _] Hn]. rewrite Ht in Hr. split.
  - constructor; cbn; [done | |]; unfold activating, deactivating; cbn; destruct s; try done; intros Hx; by destruct Hx.
  - eapply Forall_impl; [exact Hn|]. intros a. by apply tracked_by_others.
Qed.

(** The head activates a session whose account may be active already. *)
Lemma safe_activating m t rest s native : transitions (work m) = t :: rest -> t_session t = Some s -> (forall a, activeScope (active m) = Some a -> same a (accountInput s)) ->
  queued_only rest -> Forall (fun a => (exists b, activeScope (active m) = Some b /\ same a b) \/ (exists b, h_deactivating b ∈ hooks (work m) /\ same a b)) native ->
  safe (set_transition t_activating m) native.
Proof.
  intros Ht Hs Ha Hr Hn. unfold set_transition. rewrite Ht. split.
  - constructor; cbn; [done | |]; unfold activating, deactivating; cbn; [|done]. intros s' a' Hs' Ha'. rewrite Hs in Hs'. injection Hs' as <-. by apply Ha.
  - eapply Forall_impl; [exact Hn|]. intros a [?|?]; [by left | by right; right].
Qed.

Lemma safe_activate m t rest native : transitions (work m) = t :: rest -> (forall s a, t_session t = Some s -> activeScope (active m) = Some a -> same a (accountInput s)) ->
  queued_only rest -> Forall (fun a => (exists b, activeScope (active m) = Some b /\ same a b) \/ (exists b, h_deactivating b ∈ hooks (work m) /\ same a b)) native ->
  safe (activate_session t m) native.
Proof.
  intros Ht Ha Hr Hn. unfold activate_session.
  assert (Hc : safe (complete_transition t m) native).
  { destruct (ends_complete t m) as [Ea Et Eh]. rewrite Ht in Et. assert (Hq : queued_only (transitions (work (complete_transition t m)))) by (by rewrite Et).
    destruct (no_head _ Hq) as [E1 E2]. split; [constructor; rewrite ?E1, ?E2; try done; by apply tail_queued|].
    eapply Forall_impl; [exact Hn|]. unfold tracked. rewrite Ea, Eh. intros a [?|?]; [by left | by right; right]. }
  destruct (t_session t) as [s|] eqn:Hs; [|exact Hc]. destruct (transition_current t m); [|exact Hc].
  apply (safe_activating _ t rest s); [done | done | intros a; by apply Ha | done | done].
Qed.

(** ** The steps *)
Definition is_chain (o : Op) : bool :=
  match o with o_hook _ | o_hook_answer _ _ | o_start_transition | o_dependencies _ | o_deactivated _ | o_activated _ | o_startup => true | _ => false end.

Lemma adds_delivery_report op msg m : adds m (reportRuntimeError op msg m).
Proof. apply side_adds, side_report. Qed.

Lemma adds_publish_delivery k e m : adds m (publish_delivery k e m).
Proof. unfold publish_delivery. destruct (_ && _); by apply adds_same. Qed.

Lemma adds_set_delivery s m : adds m (set_delivery s m).
Proof. unfold set_delivery. destruct (deliveries (work m)); by apply adds_same. Qed.

Lemma adds_fail_delivery e m : adds m (fail_delivery e m).
Proof. unfold fail_delivery. etrans; [apply adds_delivery_report | by apply adds_same]. Qed.

Lemma adds_refresh_delivery k auth d m : adds m (refresh_delivery k auth d m).
Proof. unfold refresh_delivery. destruct (auth_is auth m); [etrans; [|apply adds_set_delivery]; apply adds_call | apply adds_publish_delivery]. Qed.

Create HintDb adds discriminated.
#[local] Hint Resolve adds_call adds_publish_delivery adds_set_delivery adds_fail_delivery adds_refresh_delivery adds_enqueue adds_add_hook : adds.

Lemma step_adds o m : is_chain o = false -> adds m (step o m).
Proof.
  intros Ho. destruct o as [c|k r| |c| |k|k r|s| |s|l| | |op msg|e|b| | | |r|r|r| |i r|i w r|k|k r|k| |r|w r]; try done; cbn [step]; try by apply adds_same.
  - unfold bootstrap. etrans; [|apply adds_add_hook]. etrans; [|apply adds_call]. by apply adds_same.
  - unfold answer_listen. destruct (hooks (work m) !! k) as [[]|] eqn:Hk; try done. cbv zeta. etrans; [eapply (adds_hook k _ m (delete k (hooks (work m)))); [exact Hk | done | by left]|].
    fold (drop_hook k m). destruct r; [|done]. etrans; [|apply adds_enqueue]. by apply adds_same.
  - unfold suspend. etrans; [|apply adds_add_hook]. apply adds_call.
  - unfold resume. etrans; [|apply adds_add_hook]. by apply adds_same.
  - unfold teardown. etrans; [|apply adds_add_hook]. by apply adds_same.
  - unfold session_changed. cbv zeta. etrans; [by apply (adds_same m (with_session s m))|]. destruct (_ || _); [done|].
    etrans; [apply (adds_call (attachments_setScope None))|]. destruct (runtimeContext _); [apply adds_enqueue | done].
  - destruct (navigation_subscribed _); [apply adds_call | done].
  - destruct (rd_latest (readiness m)) as [[n []]|]; try done. by apply adds_same.
  - apply side_adds, side_onError.
  - destruct (listening _); [|done]. unfold enqueueProjectionDelivery. cbv zeta. etrans; [apply (adds_call attachments_refreshPending) | by apply adds_same].
  - apply side_adds, side_wake.
  - apply side_adds, side_reconcileActive.
  - unfold recoverActiveMessagingIdentity. destruct (admittedSession m), (activeScope (active m)); try done. destruct (sameAccount _ _); [|done]. by apply adds_same.
  - apply side_adds, side_native.
  - apply side_adds, side_refresh.
  - apply side_adds, side_settle_wake.
  - unfold answer_recovered. destruct (recoveries (work m) !! k) as [[]|]; try done. destruct r as [status|]; [|by apply adds_same].
    destruct (_ && _); [|by apply adds_same]. cbv zeta. set (m1 := with_active _ m). etrans; [by apply (adds_same m m1)|].
    pose proof (side_startup false m1) as Hs. destruct (start_startup false m1) as [s m2]. etrans; [apply side_adds, Hs | by apply adds_same].
  - unfold answer_recovery_startup. destruct (recoveries (work m) !! k) as [[|s]|]; try done.
    destruct (continue_startup s m) as [|s' m'|[]] eqn:Hs; [done | | |by apply adds_same].
    + etrans; [by eapply side_adds, side_again | by apply adds_same].
    + etrans; [apply side_adds, side_publish | by apply adds_same].
  - unfold start_delivery. repeat case_match; eauto with adds; try by apply adds_same. etrans; [|apply adds_set_delivery]. apply adds_call.
  - unfold answer_listed. repeat case_match; eauto with adds; try by apply adds_same. etrans; [|apply adds_set_delivery]. apply adds_call.
  - unfold answer_delivery. destruct (deliveries (work m)) as [|d rest]; [done|]. destruct (d_stage d) as [| |k auth|k f]; try done.
    + destruct r; eauto with adds.
    + destruct (negb _); [done|]. destruct r; [|eauto with adds]. pose proof (side_adds _ _ (side_advance [] w f m)) as Hs.
      destruct (advance [] w f m) as [[f'|] m']; cbn [snd] in Hs; (etrans; [exact Hs | eauto with adds]).
Qed.

Lemma native_adds o m native : is_chain o = false -> native_step o m native = native.
Proof. by destruct o. Qed.

Lemma head_stage m t rest s : transitions (work m) = t :: rest -> t_stage t = s ->
  activating m = (match s with t_activating => t_session t | _ => None end) /\ deactivating m = (match s with t_deactivating a => Some a | _ => None end).
Proof. intros Ht Hs. unfold activating, deactivating. by rewrite Ht, Hs. Qed.

Lemma others_tracked m native : deactivating m = None -> Forall (tracked m) native ->
  Forall (fun a => (exists b, activeScope (active m) = Some b /\ same a b) \/ (exists b, h_deactivating b ∈ hooks (work m) /\ same a b)) native.
Proof. intros Hd Hn. eapply Forall_impl; [exact Hn|]. intros a Ht. unfold tracked in Ht. rewrite Hd in Ht. destruct Ht as [?|[(b & ? & _)|?]]; [by left | done | by right]. Qed.

Lemma safe_synchronize m t rest native : transitions (work m) = t :: rest -> t_stage t = t_dependencies -> safe m native -> safe (synchronizeSession t m) native.
Proof.
  intros Ht Hst [[Hr Hac Hde] Hn]. destruct (head_stage m t rest _ Ht Hst) as [_ Hd]. rewrite Ht in Hr. cbn in Hr. apply others_tracked in Hn; [|done].
  unfold synchronizeSession. destruct (activeScope (active m)) as [prev|] eqn:Hs.
  - destruct (sameAccount prev (accountInput <$> t_session t)) eqn:Hsame.
    + apply (safe_activate m t rest); [done | | done | by rewrite Hs]. intros s a Hts [= <-]%(eq_trans (eq_sym Hs)). apply sameAccount_spec in Hsame as (b & Hb & ?).
      rewrite Hts in Hb. by injection Hb as <-.
    + unfold set_transition. cbn. rewrite Ht. split; [by constructor|]. eapply Forall_impl; [exact Hn|].
      intros a [(b & [= <-] & ?)|?]; [right; left; by exists prev | by right; right].
  - apply (safe_activate m t rest); [done | congruence | done | by rewrite Hs].
Qed.

Lemma safe_hook k m native : safe m native -> safe (continue_hook k m) native.
Proof.
  intros Hsafe. unfold continue_hook. destruct (hooks (work m) !! k) as [[c|b|c b|c|b|b|a]|] eqn:Hk; try exact Hsafe.
  - destruct (transitions_done _ _); [|done]. eapply safe_adds; [|exact Hsafe]. etrans; [apply (adds_call messaging_suspend)|]. by eapply adds_hook; [exact Hk | | left].
  - destruct (transitions_done _ _); [|done]. eapply safe_adds; [|exact Hsafe]. destruct (activeScope (active m)) as [scope|]; [|by eapply adds_hook; [exact Hk | | left]].
    etrans; [apply (adds_call (messaging_resume scope))|]. eapply adds_hook; [exact Hk | done | right; by eexists].
  - destruct (transitions_done _ _); [|done]. eapply safe_adds; [|exact Hsafe]. eapply adds_hook; [exact Hk | done | right; by eexists].
  - destruct (deliveries_done _ _); [|done]. destruct Hsafe as [[Hr Hac Hde] Hn]. cbv zeta.
    assert (Hi : forall m', active m' = nothing_active -> transitions (work m') = transitions (work m) -> scope_inv m').
    { intros m' Ha Ht. constructor; rewrite ?Ha; [by rewrite Ht | done..]. }
    destruct (activeScope (active m)) as [scope|] eqn:Hs; (split; [by apply Hi|]); (eapply Forall_impl; [exact Hn|]); intros a Ht; unfold tracked in Ht |- *; rewrite Hs in Ht; cbn;
      (destruct Ht as [(x & Hx & ?)|[?|(x & Hx & ?)]]; [|by right; left|]).
    + injection Hx as <-. right. right. exists scope. split; [|done]. apply list_elem_of_lookup. exists k. apply list_lookup_insert_eq. by eapply lookup_lt_Some.
    + right. right. exists x. split; [|done]. by eapply hook_stays.
    + done.
    + right. right. exists x. split; [|done]. by eapply hook_stays.
Qed.

Lemma safe_hook_answer k r m native : reliable_step (o_hook_answer k r) m = true -> safe m native -> safe (answer_hook k r m) (native_step (o_hook_answer k r) m native).
Proof.
  intros Hrel Hsafe. unfold answer_hook, native_step, activated_by, deactivated_by. destruct (hooks (work m) !! k) as [[c|b|c b|c|b|b|a]|] eqn:Hk; try by destruct r.
  - cbv zeta. replace (match r with Ok _ => None | Err _ => None end) with (@None Account) by (by destruct r). eapply safe_adds; [|exact Hsafe].
    etrans; [eapply (adds_hook k _ m (delete k (hooks (work m)))); [exact Hk | done | by left]|]. fold (drop_hook k m). destruct r; [apply adds_enqueue | done].
  - unfold reliable_step in Hrel. rewrite Hk in Hrel. destruct r as [[]|]; [|done]. destruct Hsafe as [[Hr Hac Hde] Hn]. split; [by constructor|].
    rewrite Forall_forall in Hn |- *. intros x [Hne Hx]%list_elem_of_filter. destruct (Hn x Hx) as [?|[?|(b & Hb & ?)]]; [by left | by right; left|].
    right. right. exists b. split; [|done]. cbn. eapply hook_stays; [exact Hk | | exact Hb]. intros [= ->]. done.
Qed.

(** Every step keeps what is active on the native side tracked. *)
Lemma step_safe o m native : reliable_step o m = true -> safe m native -> safe (step o m) (native_step o m native).
Proof.
  intros Hrel Hsafe. destruct (is_chain o) eqn:Ho; [|rewrite native_adds by done; eapply safe_adds; [by apply step_adds | done]].
  destruct o; try done; cbn [step]; [by apply safe_hook | by apply safe_hook_answer |..].
  - change (native_step o_start_transition m native) with native. unfold start_transition. destruct (transitions (work m)) as [|t rest] eqn:Ht; [done|].
    destruct (t_stage t) eqn:Hst; try done. destruct (head_stage m t rest _ Ht Hst) as [_ Hd].
    destruct (transition_current t m); [by apply safe_quiet | eapply safe_ends; [apply ends_finish | done | done]].
  - change (native_step (o_dependencies r) m native) with native. unfold answer_dependencies. destruct (transitions (work m)) as [|t rest] eqn:Ht; [done|].
    destruct (t_stage t) eqn:Hst; try done. destruct (head_stage m t rest _ Ht Hst) as [_ Hd]. destruct r as [ready|e]; [|eapply safe_ends; [apply ends_fail | done | done]].
    destruct (_ && _); [by eapply safe_synchronize | eapply safe_ends; [apply ends_finish | done | done]].
  - unfold answer_deactivated, native_step, activated_by, deactivated_by. destruct (transitions (work m)) as [|t rest] eqn:Ht; [unfold deactivating; rewrite Ht; by destruct r|].
    destruct (t_stage t) as [| |a| |] eqn:Hst; destruct (head_stage m t rest _ Ht Hst) as [_ Hd]; rewrite Hd; try by destruct r. destruct r as [[]|]; [|done].
    destruct Hsafe as [[Hr Hac Hde] Hn]. assert (Hs : activeScope (active m) = None) by (apply Hde; by rewrite Hd). rewrite Ht in Hr.
    apply (safe_activate m t rest); [done | congruence | done|]. rewrite Forall_forall in Hn |- *. intros x [Hne Hx]%list_elem_of_filter.
    destruct (Hn x Hx) as [?|[(b & Hb & ?)|?]]; [by left | | by right]. rewrite Hd in Hb. by injection Hb as <-.
  - unfold answer_activated, native_step, activated_by, deactivated_by. destruct (transitions (work m)) as [|t rest] eqn:Ht; [unfold activating; rewrite Ht; by destruct r|].
    destruct (t_stage t) eqn:Hst; destruct (head_stage m t rest _ Ht Hst) as [Ha Hd]; rewrite Ha; try by destruct r.
    destruct (t_session t) as [session|] eqn:Hts; [|by destruct r]. destruct r as [status|e]; [|eapply safe_ends; [apply ends_fail | done | done]].
    cbn in Hrel. apply andb_true_iff in Hrel as [-> ->]. cbn [negb fmap option_fmap option_map]. cbv zeta. set (m1 := with_active _ m).
    assert (H1 : safe m1 (accountInput session :: native)).
    { destruct Hsafe as [[Hr Hac Hde] Hn]. split.
      - constructor; cbn; [done | |]; change (activating m1) with (activating m); change (deactivating m1) with (deactivating m); rewrite ?Ha, ?Hd; [|done].
        by intros s a [= <-] [= <-].
      - constructor; [left; by eexists|]. eapply Forall_impl; [exact Hn|]. intros x [(b & Hb & Hx)|[(b & Hb & _)|?]]; [|congruence | by right; right].
        left. eexists. split; [done|]. etrans; [exact Hx|]. by apply (Hac session b). }
    assert (Hd1 : deactivating m1 = None) by done. destruct (transition_current t m1); [|eapply safe_ends; [apply ends_complete | done | done]].
    match goal with |- context [start_startup false ?m2] => pose proof (side_startup false m2) as Hsd; set (m2' := m2) in *; destruct (start_startup false m2') as [s m3] end.
    cbn [snd] in Hsd. assert (H2 : safe m2' (accountInput session :: native)) by (eapply safe_adds; [by apply (adds_same m1 m2') | done]).
    apply side_adds in Hsd. apply safe_quiet; [done | | by eapply safe_adds]. by rewrite (proj2 (adds_head _ _ Hsd)).
  - change (native_step o_startup m native) with native. unfold answer_startup. destruct (transitions (work m)) as [|t rest] eqn:Ht; [done|].
    destruct (t_stage t) as [| | | |s] eqn:Hst; try done. destruct (head_stage m t rest _ Ht Hst) as [_ Hd].
    destruct (continue_startup s m) as [|s' m'|[]] eqn:Hs; cbn [continue_transition]; [done | | |eapply safe_ends; [apply ends_fail | done | done]].
    + apply side_again, side_adds in Hs. apply safe_quiet; [done | by rewrite (proj2 (adds_head _ _ Hs)) | by eapply safe_adds].
    + eapply safe_ends; [apply ends_complete | | eapply safe_adds; [apply side_adds, side_publish | done]]. exact Hd.
Qed.

Lemma run_safe ops m native : reliable ops m = true -> safe m native -> safe (run ops m) (native_run ops m native).
Proof.
  unfold run. revert m native. induction ops as [|o ops IH]; intros m native Hr Hs; [done|]. cbn [reliable fold_left native_run] in *. apply andb_true_iff in Hr as [Ho Hr].
  by apply IH, step_safe.
Qed.

Lemma unloaded_safe : safe unloaded [].
Proof. split; [|constructor]. constructor; [constructor | done | done]. Qed.

Lemma unreliable_scope o m : reliable_step o m = false -> scope_inv m -> scope_inv (step o m).
Proof.
  intros Hrel Hi. assert (He : forall m', ends m m' -> scope_inv m').
  { intros m' [Ha Ht Hh]. destruct Hi as [Hr _ _]. rewrite <- Ht in Hr. destruct (no_head m' Hr) as [E1 E2]. constructor; rewrite ?E1, ?E2; try done. by apply tail_queued. }
  destruct o; try done; cbn [step].
  - cbn in Hrel. destruct r as [|e]; [done|]. unfold answer_hook. destruct (hooks (work m) !! k) as [[]|]; try done. destruct Hi. by constructor.
  - destruct r as [|e]; [done|]. unfold answer_deactivated. destruct (transitions (work m)) as [|t rest] eqn:Ht; [done|]. destruct (t_stage t); try done. apply He, ends_fail.
  - destruct r as [status|e]; [|done]. unfold answer_activated. destruct (transitions (work m)) as [|t rest] eqn:Ht; [done|]. destruct (t_stage t); try done.
    destruct (t_session t) as [session|]; [|done]. cbn in Hrel. apply andb_false_iff in Hrel as [-> | ->]; cbn [negb]; [apply He, ends_fail|].
    destruct (negb _); apply He, ends_fail.
Qed.

Lemma step_scope o m : scope_inv m -> scope_inv (step o m).
Proof.
  intros Hi. destruct (reliable_step o m) eqn:Hr; [|by apply unreliable_scope]. apply (step_safe o m [] Hr). by split.
Qed.

(** ** The scope and its activation *)

(** What the scope holds was answered to one activation of its account. *)
Definition scope_from (answers : list (Account * MessagingRuntimeStatus)) (a : Active) : Prop :=
  activeProfileId a = None
  \/ exists account status b, (account, status) ∈ answers /\ st_profileId status = activeProfileId a /\ st_deviceId status = activeDeviceId a
     /\ st_activationGeneration status = activeGeneration a /\ activeScope a = Some b /\ same account b.

Lemma scope_from_more l1 l2 a : scope_from l1 a -> scope_from (l1 ++ l2) a.
Proof. intros [?|(acc & st & b & Hin & ?)]; [by left|]. right. exists acc, st, b. split; [apply elem_of_app; by left | done]. Qed.

(** Steps that are no activation and no recovery keep the scope but for its lane, or clear it. *)
Record same_scope (a a' : Active) : Prop := {
  ss_scope : activeScope a' = activeScope a; ss_profile : activeProfileId a' = activeProfileId a;
  ss_device : activeDeviceId a' = activeDeviceId a; ss_generation : activeGeneration a' = activeGeneration a
}.

Lemma same_scope_refl a a' : a' = a -> same_scope a a'.
Proof. by intros ->. Qed.

Lemma scope_from_same l a a' : same_scope a a' -> scope_from l a -> scope_from l a'.
Proof. unfold scope_from. intros [-> -> -> ->]. done. Qed.

Lemma step_active o m : delivery_inv m -> match o with o_activated _ | o_recovered _ _ => False | _ => True end ->
  same_scope (active m) (active (step o m)) \/ active (step o m) = nothing_active.
Proof.
  intros Hi Ho. destruct (delivers o) eqn:Hd.
  { left. destruct (chain_step o m Hd Hi) as [_ _ [[_ ->]|(e & _ & -> & _)]]; by constructor. }
  destruct (replaces_scope o) eqn:Hr; [|left; apply same_scope_refl; by destruct (step_calm o m Hr Hd)].
  destruct o; try done; cbn [step].
  - unfold continue_hook. destruct (hooks (work m) !! k) as [[]|]; try (by left); [destruct (transitions_done _ _); by left| | destruct (transitions_done _ _); by left |].
    + destruct (transitions_done _ _); [|by left]. destruct (activeScope (active m)); by left.
    + destruct (deliveries_done _ _); [|by left]. destruct (activeScope (active m)); by right.
  - unfold answer_dependencies. destruct (transitions (work m)) as [|t rest]; [by left|]. destruct (t_stage t); try (by left).
    destruct r as [ready|e]; [|left; apply same_scope_refl, ends_fail]. destruct (_ && _); [|by left]. unfold synchronizeSession.
    assert (Ha : same_scope (active m) (active (activate_session t m))) by apply same_scope_refl, calm_activate_session.
    destruct (activeScope (active m)); [|by left]. destruct (sameAccount _ _); [by left|]. right. unfold set_transition. by destruct (transitions _).
Qed.

Lemma activated_scope_from answers r m : scope_inv m -> scope_from answers (active m) ->
  scope_from (answers ++ match activated_by (o_activated r) m with Some x => [x] | None => [] end) (active (answer_activated r m)).
Proof.
  intros [_ Hac _] Hs. unfold answer_activated, activated_by. assert (Hm : forall m' l, active m' = active m -> scope_from (answers ++ l) (active m')).
  { intros m' l ->. by apply scope_from_more. }
  destruct (transitions (work m)) as [|t rest] eqn:Ht; [by apply Hm|]. destruct (t_stage t) eqn:Hst; try by apply Hm.
  destruct (head_stage m t rest _ Ht Hst) as [Ha _]. rewrite Ha in *. destruct (t_session t) as [session|]; [|by apply Hm].
  destruct r as [status|e]; [|apply Hm, ends_fail]. destruct (negb (truthy (default "" (st_profileId status)))); [apply Hm, ends_fail|].
  destruct (negb _); [apply Hm, ends_fail|]. cbv zeta. set (m1 := with_active _ m). destruct (transition_current t m1).
  - set (m2 := with_active _ m1). pose proof (side_startup false m2) as [Hs2 _ _ _ _ _ _ _]. destruct (start_startup false m2) as [s m3]. cbn [snd] in Hs2.
    rewrite (cm_active _ _ (calm_set_transition _ _)), Hs2. right. exists (accountInput session), status, (accountInput session).
    split; [apply elem_of_app; right; by left | done].
  - rewrite (en_active _ _ (ends_complete t m1)). destruct Hs as [Hs|(acc & st & b & Hin & Hp & Hd & Hg & Hb & Hsame)]; [by left|]. right.
    exists acc, st, (accountInput session). split; [apply elem_of_app; by left|]. split_and!; [done..|]. etrans; [exact Hsame|]. by apply (Hac session b).
Qed.

Definition no_recovery (o : Op) : bool := match o with o_recovered _ _ => false | _ => true end.

Lemma step_scope_from o m answers : no_recovery o = true -> delivery_inv m -> scope_inv m -> scope_from answers (active m) ->
  scope_from (answers ++ match activated_by o m with Some x => [x] | None => [] end) (active (step o m)).
Proof.
  intros Ho Hd Hi Hs. destruct (match o with o_activated _ => true | _ => false end) eqn:Ha.
  - destruct o; try done. by apply activated_scope_from.
  - apply scope_from_more. destruct (step_active o m Hd) as [?| ->]; [by destruct o | by eapply scope_from_same | by left].
Qed.

Lemma run_scope_from ops m answers : forallb no_recovery ops = true -> delivery_inv m -> scope_inv m -> scope_from answers (active m) ->
  scope_from (answers ++ activations ops m) (active (run ops m)).
Proof.
  unfold run. revert m answers. induction ops as [|o ops IH]; intros m answers Ho Hd Hi Hs; cbn [activations fold_left]; [by rewrite app_nil_r|].
  cbn [forallb] in Ho. apply andb_true_iff in Ho as [Ho Hos]. rewrite (assoc_L (++)).
  apply IH; [done | by apply step_delivery_inv | by apply step_scope | by apply step_scope_from].
Qed.

(** ** Readiness *)
Lemma step_ready o m : delivery_inv m -> ready_inv m -> ready_inv (step o m).
Proof.
  intros Hi Hr. destruct (delivers o) eqn:Hd; [by destruct (chain_step o m Hd Hi); auto|]. destruct (replaces_scope o) eqn:Hs.
  - destruct (step_rescoped o m Hs); auto.
  - destruct (step_calm o m Hs Hd); auto.
Qed.

Lemma run_ready ops m : delivery_inv m -> ready_inv m -> ready_inv (run ops m).
Proof. unfold run. revert m. induction ops as [|o ops IH]; intros m Hi Hr; [done|]. cbn [fold_left]. apply IH; [by apply step_delivery_inv | by apply step_ready]. Qed.

(** In a context that is not current it leaves the update of others current. *)
Lemma recoverAll_elsewhere context m u : runtimeContext (descriptor m) = Some context -> context ∉ rd_contexts (readiness m) ->
  isCurrent u (readiness (port_recoverAll m)) = isCurrent u (readiness m).
Proof.
  intros Hc Hin. unfold port_recoverAll. rewrite Hc. case_decide; [done|]. unfold beginReadinessUpdate. rewrite decide_False by done.
  set (r := {| rd_contexts := rd_contexts (readiness m); rd_latest := _; rd_revision := _; rd_reports := _ |}).
  replace (isCurrent {| u_context := context; u_revision := S (rd_revision (readiness m)) |} r) with false; [done|].
  unfold isCurrent. cbn. by rewrite bool_decide_false.
Qed.

(** ** A transition that is answered with success *)
Definition scope_of (s : MobileAuthSession) (profile device : string) (generation : Z) : MessagingProjectionScope :=
  {| ps_account := accountInput s; profileId := profile; ps_deviceId := device; activationGeneration := generation |}.

(** [t] is the only transition; it is of session [s], in the stage [st], and current. *)
Record undisturbed (t : Transition) (s : MobileAuthSession) (st : TransitionStage) (m : Messaging) : Prop := {
  ud_transitions : transitions (work m) = [{| t_id := t_id t; t_session := Some s; t_update := t_update t; t_stage := st |}];
  ud_current : isCurrent (t_update t) (readiness m) = true;
  ud_session : admittedSession m = Some s
}.

Lemma undisturbed_current t s st m : undisturbed t s st m ->
  transition_current {| t_id := t_id t; t_session := Some s; t_update := t_update t; t_stage := st |} m = true.
Proof. intros [_ Hc Hs]. unfold transition_current. cbn. rewrite Hc, Hs. by rewrite bool_decide_true. Qed.

(** The transition comes to its activation. *)
Definition until_activation (s : MobileAuthSession) (m : Messaging) : list Op :=
  [o_start_transition; o_dependencies (Ok true)]
  ++ match activeScope (active m) with Some a => if sameAccount a (Some (accountInput s)) then [] else [o_deactivated (Ok tt)] | None => [] end.

Lemma undisturbed_stage t s st st' m : undisturbed t s st m -> undisturbed t s st' (set_transition st' m).
Proof. intros [Ht Hc Hs]. unfold set_transition. rewrite Ht. by constructor. Qed.

Lemma reaches_activation t s m : undisturbed t s t_queued m -> undisturbed t s t_activating (run (until_activation s m) m).
Proof.
  intros Hu. pose proof (undisturbed_current _ _ _ _ Hu) as Hc. unfold until_activation, run. rewrite fold_left_app. cbn [fold_left step].
  assert (H1 : start_transition m = set_transition t_dependencies m) by (unfold start_transition; rewrite (ud_transitions _ _ _ _ Hu); cbn; by rewrite Hc).
  rewrite H1. set (m1 := set_transition t_dependencies m).
  assert (Hu1 : undisturbed t s t_dependencies m1) by (by eapply undisturbed_stage).
  assert (Ha1 : active m1 = active m) by (subst m1; unfold set_transition; by destruct (transitions (work m))).
  rewrite <- Ha1. clearbody m1. clear Hu Hc H1 Ha1 m.
  pose proof (undisturbed_current _ _ _ _ Hu1) as Hc. unfold answer_dependencies. rewrite (ud_transitions _ _ _ _ Hu1). cbn [t_stage andb]. rewrite Hc. unfold synchronizeSession. cbn [t_session fmap option_fmap option_map].
  set (t1 := {| t_id := t_id t; t_session := Some s; t_update := t_update t; t_stage := t_dependencies |}) in *.
  assert (Hact : forall m0, undisturbed t s t_dependencies m0 -> undisturbed t s t_activating (activate_session t1 m0)).
  { intros m0 Hu0. unfold activate_session. cbn [t_session t1]. rewrite (undisturbed_current _ _ _ _ Hu0 : transition_current t1 m0 = true).
    apply (undisturbed_stage t s t_dependencies). destruct Hu0. by constructor. }
  destruct (activeScope (active m1)) as [a|]; [|by apply Hact]. destruct (sameAccount a (Some (accountInput s))); [by apply Hact|]. cbn [fold_left step].
  set (m2 := set_transition _ _). assert (Hu2 : undisturbed t s (t_deactivating a) m2) by (apply (undisturbed_stage t s t_dependencies); destruct Hu1; by constructor).
  clearbody m2. unfold answer_deactivated. rewrite (ud_transitions _ _ _ _ Hu2). cbn [t_stage]. unfold activate_session. cbn [t_session].
  rewrite (undisturbed_current _ _ _ _ Hu2). apply (undisturbed_stage t s (t_deactivating a)). destruct Hu2. by constructor.
Qed.

(** The transition has started its reconcile, the promise [i], or joined one. *)
Record starting (t : Transition) (s : MobileAuthSession) (i : nat) (scope : MessagingProjectionScope) (m : Messaging) : Prop := {
  sg_transitions : transitions (work m) = [{| t_id := t_id t; t_session := Some s; t_update := t_update t; t_stage := t_starting {| second_attempt := false; awaited := Some i |} |}];
  sg_current : isCurrent (t_update t) (readiness m) = true;
  sg_session : admittedSession m = Some s;
  sg_scope : currentMessagingProjectionScope m = Some scope
}.

(** The activation is answered. *)
Lemma activation_starts t s m status profile device : undisturbed t s t_activating m -> flight_ok m ->
  st_profileId status = Some profile -> st_deviceId status = Some device -> truthy profile = true -> truthy device = true -> st_activationGeneration status <> 0%Z ->
  let m' := answer_activated (Ok status) m in
  let scope := scope_of s profile device (st_activationGeneration status) in
  exists i st, starting t s i scope m' /\ promise_at i m' = Some {| p_key := projectionScopeKey (Some scope); p_stage := st |} /\ waiting st.
Proof.
  intros Hu Hfl Hp Hd Htp Htd Hg. cbv zeta. pose proof Hu as [Ht Hc Hs]. unfold answer_activated. rewrite Ht. cbn [t_stage t_session]. rewrite Hp, Hd. change (default "" (Some profile)) with profile. change (default "" (Some device)) with device. rewrite Htp, Htd. cbn [negb].
  set (m1 := with_active _ m). assert (Hc1 : transition_current {| t_id := t_id t; t_session := Some s; t_update := t_update t; t_stage := t_activating |} m1 = true)
    by (apply (undisturbed_current t s); by constructor). rewrite Hc1. set (m2 := with_active _ m1).
  assert (Hcur : currentMessagingProjectionScope m2 = Some (scope_of s profile device (st_activationGeneration status))).
  { unfold currentMessagingProjectionScope. cbn. rewrite Htp, Htd. by rewrite bool_decide_false. }
  unfold start_startup, reconcileActiveMessagingSession. change (admittedSession m2) with (admittedSession m). rewrite Hs, Hcur. cbn [active m2 with_active activeScope activeProfileId activeGeneration].
  change (default "" (Some profile)) with profile. rewrite Htp, bool_decide_false by done. cbn [negb orb]. replace (sameAccount (accountInput s) (Some (accountInput s))) with true by (symmetry; apply sameAccount_spec; by exists (accountInput s)). cbn [negb].
  change (reconcileInFlight m2) with (reconcileInFlight m).
  set (scope := scope_of s profile device (st_activationGeneration status)) in *. set (start := (Some (length (promises (work m2))), _)).
  assert (Hset : forall i m3, transitions (work m3) = transitions (work m) -> readiness m3 = readiness m -> admittedSession m3 = admittedSession m -> active m3 = active m2 ->
      starting t s i scope (set_transition (t_starting {| second_attempt := false; awaited := Some i |}) m3)).
  { intros i m3 H1 H2 H3 H4. unfold set_transition. rewrite H1, Ht. constructor; [done | by rewrite <- H2 in Hc | by rewrite <- H3 in Hs |].
    rewrite <- Hcur. unfold currentMessagingProjectionScope. cbn [active with_transitions with_work]. by rewrite H4. }
  assert (Hnew : exists i st, starting t s i scope (let '(p, m3) := start in set_transition (t_starting {| second_attempt := false; awaited := p |}) m3)
    /\ promise_at i (let '(p, m3) := start in set_transition (t_starting {| second_attempt := false; awaited := p |}) m3) = Some {| p_key := projectionScopeKey (Some scope); p_stage := st |} /\ waiting st).
  { exists (length (promises (work m2))), p_native. subst start. cbv beta iota zeta. split; [by apply Hset|]. split; [|done].
    unfold set_transition. cbn [transitions work with_flight with_promises with_work call m2 m1 with_active]. rewrite Ht. unfold promise_at. cbn. by rewrite lookup_app_r, Nat.sub_diag by done. }
  destruct (reconcileInFlight m) as [[k j]|] eqn:Hf; [|destruct start as [p m3]; exact Hnew]. case_decide as Hk; [|destruct start as [p m3]; exact Hnew].
  destruct (Hfl k j Hf) as (st & Hj & Hw). exists j, st. split; [by apply Hset|]. split; [|done]. subst k.
  unfold set_transition. cbn [transitions work m2 m1 with_active]. rewrite Ht. exact Hj.
Qed.

(** The reconcile has succeeded, and the transition ends. *)
Lemma startup_completes t s i st scope m : starting t s i scope m -> promise_at i m = Some {| p_key := projectionScopeKey (Some scope); p_stage := st |} ->
  let m' := answer_startup (finished i (projectionScopeKey (Some scope)) m) in
  transitions (work m') = [] /\ currentMessagingProjectionScope m' = Some scope /\ last (rd_reports (readiness m')) = Some rep_ready /\ readinessFailures (descriptor m') = [].
Proof.
  intros [Ht Hc Hs Hcur] Hp. cbv zeta.
  assert (Hp3 : promise_at i (finished i (projectionScopeKey (Some scope)) m) = Some {| p_key := projectionScopeKey (Some scope); p_stage := p_settled (Ok tt) |}).
  { unfold promise_at. rewrite finished_promises. exact (set_promise_at i (p_settled (Ok tt)) m _ Hp). }
  unfold finished in *. cbv zeta in *.
  set (m1 := call clearActorIdentityRecovery (call dispatch_reconciled m)) in *. set (m2 := if port_active (descriptor m1) then port_recoverAll m1 else m1) in *.
  assert (Hside : side m m2).
  { etrans; [by apply (side_call dispatch_reconciled)|]. etrans; [by apply (side_call clearActorIdentityRecovery)|]. fold m1. subst m2. destruct (port_active _); [apply side_recoverAll | done]. }
  (* either the update is still current, or everything was reported ready *)
  assert (Hcase : isCurrent (t_update t) (readiness m2) = true \/ last (rd_reports (readiness m2)) = Some rep_ready /\ readinessFailures (descriptor m2) = []).
  { subst m2. destruct (port_active (descriptor m1)); [|by left]. destruct (runtimeContext (descriptor m1)) as [context|] eqn:Hctx; [|left; unfold port_recoverAll; by rewrite Hctx].
    destruct (decide (readinessFailures (descriptor m1) = [])) as [Hf|Hf]; [left; unfold port_recoverAll; by rewrite Hctx, decide_True|].
    destruct (decide (context ∈ rd_contexts (readiness m1))) as [Hin|Hin]; [right; by apply (recoverAll_reports context)|]. left.
    by rewrite (recoverAll_elsewhere context). }
  set (m3 := settle_promise i _ (Ok tt) m2) in *. pose proof (side_settle i (projectionScopeKey (Some scope)) (Ok tt) m2) as Hside3. fold m3 in Hside3.
  destruct (settle_promise_fields i (projectionScopeKey (Some scope)) (Ok tt) m2) as (Hr3 & Hd3 & _). fold m3 in Hr3, Hd3. pose proof (transitivity Hside Hside3) as [Hact _ _ Htr _ Hses _ _].
  unfold answer_startup. rewrite Htr, Ht. cbn [t_stage]. unfold continue_startup. cbn [awaited]. rewrite Hp3. cbn [continue_transition].
  set (t' := {| t_id := _; t_session := _; t_update := _; t_stage := _ |}).
  assert (Hcur3 : forall m', active m' = active m3 -> currentMessagingProjectionScope m' = Some scope) by (intros m' He; unfold currentMessagingProjectionScope; rewrite He, Hact; exact Hcur).
  unfold complete_transition. assert (Hct : transition_current t' (publishProjectionScope m3) = isCurrent (t_update t) (readiness m2)).
  { unfold transition_current. cbn. rewrite Hr3, Hses, Hs. rewrite bool_decide_true by done. apply andb_true_r. }
  rewrite Hct. destruct (isCurrent (t_update t) (readiness m2)) eqn:Hcr.
  - cbn. rewrite Htr, Ht. split_and!; [done | by apply Hcur3 | | done]. rewrite settle_reports. rewrite Hr3, Hcr. by rewrite last_snoc.
  - destruct Hcase as [?|[Hl Hf]]; [done|]. cbn. rewrite Htr, Ht, Hr3, Hd3. split_and!; [done | by apply Hcur3 | done | done].
Qed.

Lemma starting_refreshed t s i scope key m m' : refreshed i key m m' -> starting t s i scope m -> starting t s i scope m'.
Proof.
  intros [[Ha _ _ Ht _ Hs _ _] Hr _ _] [H1 H2 H3 H4]. constructor; [by rewrite Ht | by rewrite Hr | by rewrite Hs |].
  rewrite <- H4. unfold currentMessagingProjectionScope. by rewrite Ha.
Qed.

(** ** The properties *)

(** C19: What is published of an activation is in order and for its scope. In any history,
    and a stretch of it in which no activation, deactivation or recovery changes the
    scope: the scope stays, every event that is published in the stretch is for it (if
    the names hold no separator of keys), and the lanes of these events increase,
    from the lane the stretch began with. *)
Theorem deliveries_in_order ops stretch :
  forallb (fun o => negb (replaces_scope o)) stretch = true ->
  let m := run ops unloaded in
  let m' := run stretch m in
  currentMessagingProjectionScope m' = currentMessagingProjectionScope m
  /\ exists new, published m' = published m ++ new
     /\ StronglySorted Z.lt (lastDeliveredLaneSequence (active m) :: (e_laneSequence <$> new))
     /\ forall e, e ∈ new -> exists s, currentMessagingProjectionScope m = Some s /\ (plain_event e = true -> plain_scope s = true -> for_scope e s).
Proof.
  intros Hs m. assert (Hi : delivery_inv m) by (apply run_delivery_inv; constructor). clearbody m. clear ops. revert m Hi. cbv zeta. unfold run.
  induction stretch as [|o stretch IH]; intros m Hi; cbn [fold_left].
  - split; [done|]. exists []. rewrite app_nil_r. split_and!; [done | by repeat constructor |]. by intros e ?%elem_of_nil.
  - cbn [forallb] in Hs. apply andb_true_iff in Hs as [Ho Hs]. apply negb_true_iff in Ho. specialize (IH Hs (step o m) (step_delivery_inv o m Hi)).
    destruct IH as (Hscope & new & Hnew & Hsort & Hfor).
    assert (Hcase : (published (step o m) = published m /\ active (step o m) = active m)
      \/ exists e, published (step o m) = published m ++ [e] /\ active (step o m) = active (with_delivered (e_laneSequence e) m) /\ may_publish m e).
    { destruct (delivers o) eqn:Hd; [by destruct (chain_step o m Hd Hi)|]. left. by destruct (step_calm o m Ho Hd). }
    destruct Hcase as [[Hp Ha]|(e & Hp & Ha & Hlt & s & s' & Hcur & Hk & Hf)].
    + assert (Hc : currentMessagingProjectionScope (step o m) = currentMessagingProjectionScope m) by (unfold currentMessagingProjectionScope; by rewrite Ha).
      rewrite Hc in *. rewrite Ha in Hsort. rewrite Hp in Hnew. split; [done|]. by exists new.
    + assert (Hc : currentMessagingProjectionScope (step o m) = currentMessagingProjectionScope m) by (unfold currentMessagingProjectionScope; by rewrite Ha).
      rewrite Hc in *. split; [done|]. exists (e :: new). rewrite Hp, <- (assoc_L (++)) in Hnew. split_and!; [done | |].
      * rewrite Ha in Hsort. cbn in Hsort. rewrite fmap_cons. constructor; [done|]. constructor; [done|].
        apply StronglySorted_inv in Hsort as [_ Hall]. eapply Forall_impl; [exact Hall|]. cbn. lia.
      * intros x [->|Hx]%elem_of_cons; [|by apply Hfor]. exists s. split; [done|]. by apply (same_key e s s').
Qed.

(** C18: As long as activations name a profile and a device and deactivations succeed, every
    account that is active on the native side is the active scope or is being deactivated,
    whatever sessions, failures and hooks come; so with nothing under way and no active
    scope, as after a teardown, nothing is left active. *)
Theorem native_accounts_tracked ops :
  reliable ops unloaded = true ->
  let m := run ops unloaded in
  let native := native_run ops unloaded [] in
  Forall (tracked m) native /\ (activeScope (active m) = None -> transitions (work m) = [] -> hooks (work m) = [] -> native = []).
Proof.
  intros Hr m native. destruct (run_safe ops unloaded [] Hr unloaded_safe) as [_ Hn]. split; [exact Hn|]. intros Hs Ht Hh.
  fold m native in Hn. destruct native as [|a l]; [done|]. apply Forall_cons in Hn as [Ha _]. exfalso. unfold tracked, deactivating in Ha. rewrite Hs, Ht, Hh in Ha.
  destruct Ha as [(? & ? & _)|[(? & ? & _)|(? & Hin & _)]]; try done. by apply elem_of_nil in Hin.
Qed.

(** C21: Without identity recoveries, the profile, device and generation of the scope were
    answered to one activation of the account the scope names, whatever else happened,
    superseded transitions included. *)
Theorem scope_of_one_account ops s :
  forallb no_recovery ops = true -> currentMessagingProjectionScope (run ops unloaded) = Some s ->
  exists account status, (account, status) ∈ activations ops unloaded /\ same account (ps_account s)
    /\ st_profileId status = Some (profileId s) /\ st_deviceId status = Some (ps_deviceId s) /\ st_activationGeneration status = activationGeneration s.
Proof.
  intros Ho Hs. destruct (run_scope_from ops unloaded [] Ho) as [Hn|(acc & st & b & Hin & Hp & Hd & Hg & Hb & Hsame)]; [constructor | apply unloaded_safe | by left | |];
    unfold currentMessagingProjectionScope in Hs; [rewrite Hn in Hs; by destruct (activeScope _)|].
  rewrite Hb in Hs. destruct (activeProfileId _) as [p|]; [|done]. destruct (activeDeviceId _) as [d|]; [|done]. destruct (_ && _); [|done]. injection Hs as <-.
  by exists acc, st.
Qed.

(** C22: What the runtime reports of itself is true. In any history it is reported ready only
    while no failed operation is left. And whatever step it is, an answer of the native side
    or of the social store, with which a reconcile of the scope that is active settles with
    success: while the port is bound to a context that is current and some failure is left,
    that step clears all of them and reports the runtime ready. *)
Theorem readiness_truthful ops :
  let m := run ops unloaded in
  (last (rd_reports (readiness m)) = Some rep_ready -> readinessFailures (descriptor m) = [])
  /\ forall o i p context, promise_at i m = Some p -> (forall r, p_stage p <> p_settled r) -> p_key p = currentKey m ->
     port_active (descriptor m) = true -> runtimeContext (descriptor m) = Some context -> context ∈ rd_contexts (readiness m) -> readinessFailures (descriptor m) <> [] ->
     let m' := step o m in
     promise_at i m' = Some {| p_key := p_key p; p_stage := p_settled (Ok tt) |} ->
     last (rd_reports (readiness m')) = Some rep_ready /\ readinessFailures (descriptor m') = [].
Proof.
  intros m. split; [by apply run_ready; [constructor|]|]. intros o i p context Hp Hn Hk Hport Hc Hin Hf m' Hs.
  destruct (settling_step o i m p Hp Hn (eq_sym Hk) Hs) as (m0 & [_ _ Hd Hr _] & Hm'). subst m'. rewrite Hm'.
  apply (finished_reports i (p_key p) context m0); by rewrite ?Hd, ?Hr.
Qed.

(** C20: A session becomes ready. In any history that has come to a state with one
    transition, queued, current and for the session that is admitted, whose dependencies
    are ready and whose native commands succeed: the account before is deactivated if it is
    another, the session is activated, and the reconcile that the activation starts, or
    joins when one for this very scope is under way, ends by answers of success, as many as
    the refresh of the social store takes, whatever that store holds. The transition is
    over then, with the scope of the session, no failure left and the runtime reported
    ready. *)
Theorem session_becomes_ready ops t s status profile device :
  let m := run ops unloaded in
  undisturbed t s t_queued m ->
  st_profileId status = Some profile -> st_deviceId status = Some device -> truthy profile = true -> truthy device = true -> st_activationGeneration status <> 0%Z ->
  exists i answers, Forall (succeeds i) answers
    /\ let m' := run (until_activation s m ++ [o_activated (Ok status)] ++ answers ++ [o_startup]) m in
       transitions (work m') = [] /\ currentMessagingProjectionScope m' = Some (scope_of s profile device (st_activationGeneration status))
       /\ last (rd_reports (readiness m')) = Some rep_ready /\ readinessFailures (descriptor m') = [].
Proof.
  intros m Hu Hp Hd Htp Htd Hg. set (m1 := run (until_activation s m) m).
  assert (Hfl : flight_ok m1) by apply run_flight, run_flight, unloaded_flight. pose proof (reaches_activation t s m Hu) as Hu1. fold m1 in Hu1.
  destruct (activation_starts t s m1 status profile device Hu1 Hfl Hp Hd Htp Htd Hg) as (i & st & Hst & Hprom & Hw). set (m2 := answer_activated (Ok status) m1) in *.
  set (scope := scope_of s profile device (st_activationGeneration status)) in *.
  assert (Hk : currentKey m2 = projectionScopeKey (Some scope)) by (unfold currentKey; by rewrite (sg_scope _ _ _ _ _ Hst)).
  destruct (reconcile_completes i _ st m2 Hprom Hw Hk) as (answers & m3 & Ha & Hr & Hrun). exists i, answers. split; [done|]. cbv zeta.
  assert (Heq : run (until_activation s m ++ [o_activated (Ok status)] ++ answers ++ [o_startup]) m = answer_startup (finished i (projectionScopeKey (Some scope)) m3)).
  { rewrite <- Hrun. unfold run, m2, m1. by rewrite !fold_left_app. }
  rewrite Heq. destruct (rf_promise _ _ _ _ Hr) as (st3 & Hp3). eapply startup_completes; [by eapply starting_refreshed | exact Hp3].
Qed.

(** ** Runs of one runtime *)
Module MessagingDemo.

Definition account (name : string) : Account := {| stationPeerId := "station"; actorPtid := name; deviceId := "device"; lifecycleGeneration := 1 |}.
Definition alice : MobileAuthSession := {| session_account := account "alice"; sessionId := "s1" |}.
Definition bob : MobileAuthSession := {| session_account := account "bob"; sessionId := "s2" |}.
Definition status (profile : string) (generation : Z) : MessagingRuntimeStatus :=
  {| st_profileId := Some profile; st_deviceId := Some "device"; st_activationGeneration := generation; st_laneSequence := 3 |}.

(** Bootstrapped for Alice, whose transition is queued. *)
Definition booting : list Op := [o_contexts [1%nat]; o_session (Some alice); o_bootstrap 1; o_listen 0 (Ok tt)].
Definition activation (profile : string) (generation : Z) (i : nat) : list Op := [o_activated (Ok (status profile generation)); o_native i (Ok tt); o_startup].
Definition boot : list Op := booting ++ [o_start_transition; o_dependencies (Ok true)] ++ activation "p1" 1 0.

Definition first_transition : Transition := {| t_id := 0; t_session := Some alice; t_update := {| u_context := 1; u_revision := 1 |}; t_stage := t_queued |}.

(** The social store holds a session, with messages of a conversation it knows. *)
Definition signed_in : Social := {| authSession := Some (7%nat, account "alice"); messages := ["c"; "gone"]; activeSessionUlid := ""; messagingConversations := ["c"] |}.
Definition booting_social : list Op := booting ++ [o_social signed_in].

Lemma booting_undisturbed : undisturbed first_transition alice t_queued (run booting_social unloaded).
Proof. constructor; vm_compute; reflexivity. Defined.

Lemma ready_witness : exists i answers, Forall (succeeds i) answers
  /\ let m := run booting_social unloaded in
     last (rd_reports (readiness (run (until_activation alice m ++ [o_activated (Ok (status "p1" 1))] ++ answers ++ [o_startup]) m))) = Some rep_ready.
Proof.
  destruct (session_becomes_ready booting_social first_transition alice (status "p1" 1) "p1" "device" booting_undisturbed
    ltac:(reflexivity) ltac:(reflexivity) ltac:(reflexivity) ltac:(reflexivity) ltac:(discriminate)) as (i & answers & Ha & _ & _ & Hr & _).
  exists i, answers. split; [exact Ha | exact Hr].
Defined.

(** The answers of that run: the native command, the sessions, settings and outcomes, and
    the messages of the one conversation that is known. *)
Definition refreshes (i : nat) : list Op := [o_native i (Ok tt); o_refreshed i false (Ok tt); o_refreshed i true (Ok tt); o_refreshed i false (Ok tt); o_refreshed i false (Ok tt)].

Example refreshed_then_ready :
  let m := run (booting_social ++ [o_start_transition; o_dependencies (Ok true); o_activated (Ok (status "p1" 1))] ++ refreshes 0 ++ [o_startup]) unloaded in
  last (rd_reports (readiness m)) = Some rep_ready
  /\ omap (fun c => match c with refreshSessions | refreshConversationSettings | refreshGroupCommandOutcomes | loadMessages _ | dispatch_reconciled => Some c | _ => None end) (calls m)
     = [refreshSessions; refreshConversationSettings; refreshGroupCommandOutcomes; loadMessages "c"; dispatch_reconciled].
Proof. vm_compute. done. Qed.

(** A delivery failed; the last answer of a reconcile, from the social store, reports the
    runtime ready again. *)
Definition failed_then_reconciling : list Op := boot ++ [o_social signed_in; o_runtime_error "projection-delivery" "offline"; o_wake true] ++ take 4 (refreshes 1).

Lemma readiness_witness :
  let m := run failed_then_reconciling unloaded in
  readinessFailures (descriptor m) = ["projection-delivery"] /\ last (rd_reports (readiness (step (o_refreshed 1 false (Ok tt)) m))) = Some rep_ready.
Proof.
  split; [vm_compute; reflexivity|].
  refine (proj1 (proj2 (readiness_truthful failed_then_reconciling) (o_refreshed 1 false (Ok tt)) 1%nat
    {| p_key := currentKey (run failed_then_reconciling unloaded); p_stage := p_refreshing ["c"; "gone"] (rf_loading 7 []) |} 1%nat _ _ _ _ _ _ _ _));
    try (vm_compute; reflexivity).
  - intros r. discriminate.
  - apply (bool_decide_eq_true_1 (1%nat ∈ rd_contexts (readiness (run failed_then_reconciling unloaded)))). vm_compute. reflexivity.
  - vm_compute. discriminate.
Defined.

Definition event (lane : Z) : MessagingProjectionEvent :=
  {| e_stationPeerId := "station"; e_actorPtid := "alice"; e_profileId := "p1"; e_activationGeneration := 1; e_conversationId := "c"; e_laneSequence := lane |}.

(** Three events, one of them a repetition, and one that comes too late. *)
Definition stretch : list Op :=
  [o_projection (event 5); o_projection (event 5); o_projection (event 8); o_projection (event 7); o_start_delivery; o_listed (Ok ["c"]);
   o_start_delivery; o_start_delivery; o_listed (Ok []); o_start_delivery].

Lemma deliveries_witness : currentMessagingProjectionScope (run stretch (run boot unloaded)) = Some (scope_of alice "p1" "device" 1) /\ e_laneSequence <$> published (run stretch (run boot unloaded)) = [5; 8]%Z.
Proof.
  split; [|vm_compute; reflexivity]. etrans; [refine (proj1 (deliveries_in_order boot stretch _)); reflexivity | vm_compute; reflexivity].
Defined.

(** Alice, then Bob, then a teardown. *)
Definition session_change : list Op := [o_session (Some bob); o_start_transition; o_dependencies (Ok true); o_deactivated (Ok tt)] ++ activation "p2" 2 1.
Definition ended : list Op := boot ++ session_change ++ [o_teardown; o_hook 0; o_hook 0; o_hook_answer 0 (Ok tt)].

Lemma native_witness : native_run (boot ++ session_change) unloaded [] = [account "bob"] /\ native_run ended unloaded [] = [].
Proof.
  split; [vm_compute; reflexivity|]. refine (proj2 (native_accounts_tracked ended _) _ _ _); vm_compute; reflexivity.
Defined.

Lemma scope_witness : exists account status, (account, status) ∈ activations (boot ++ session_change) unloaded /\ same account (accountInput bob)
  /\ st_profileId status = Some "p2" /\ st_deviceId status = Some "device" /\ st_activationGeneration status = 2%Z.
Proof. apply (scope_of_one_account (boot ++ session_change) (scope_of bob "p2" "device" 2)); [reflexivity | vm_compute; reflexivity]. Defined.

(** A reconcile of the account before fails while the account after is activated: the
    report of that failure supersedes the transition, which ends without a scope. The
    runtime stays failed, and no reconcile can run that would report it ready. *)
Theorem old_failure_strands_new_session :
  let m := run (boot ++ [o_wake false; o_session (Some bob); o_start_transition; o_dependencies (Ok true); o_deactivated (Ok tt);
                         o_native 1 (Err "deactivated"); o_wake_settled 0; o_activated (Ok (status "p2" 2))]) unloaded in
  admittedSession m = Some bob /\ transitions (work m) = [] /\ currentMessagingProjectionScope m = None
  /\ last (rd_reports (readiness m)) = Some (rep_failed "mobile.lifecycle.runtimeFailed") /\ reconcileActiveMessagingSession m = (None, m).
Proof. split_and!; vm_compute; reflexivity. Qed.

(** The answer of an identity recovery is not compared with the session it was asked for. *)
Theorem recovery_mixes_accounts :
  let m := run (boot ++ [o_recover] ++ session_change ++ [o_recovered 0 (Ok (status "p1" 3))]) unloaded in
  admittedSession m = Some bob /\ currentMessagingProjectionScope m = Some (scope_of bob "p1" "device" 3).
Proof. split; vm_compute; reflexivity. Qed.

(** An activation that names no profile leaves the account active on the native side, and
    the teardown does not deactivate it. *)
Theorem incomplete_activation_kept :
  let ops := booting ++ [o_start_transition; o_dependencies (Ok true);
                         o_activated (Ok {| st_profileId := None; st_deviceId := Some "device"; st_activationGeneration := 1; st_laneSequence := 0 |});
                         o_teardown; o_hook 0; o_hook 0] in
  native_run ops unloaded [] = [account "alice"] /\ hooks (work (run ops unloaded)) = [] /\ transitions (work (run ops unloaded)) = []
  /\ forallb (fun c => match c with messagingDeactivate _ => false | _ => true end) (calls (run ops unloaded)) = true.
Proof. split_and!; vm_compute; reflexivity. Qed.

(** A deactivation that fails is not tried again, whatever happens to the sessions after it. *)
Theorem failed_deactivation_forgotten :
  let ops := boot ++ [o_session (Some bob); o_start_transition; o_dependencies (Ok true); o_deactivated (Err "busy");
                      o_session None; o_start_transition; o_dependencies (Ok true); o_teardown; o_hook 0; o_hook 0] in
  native_run ops unloaded [] = [account "alice"] /\ hooks (work (run ops unloaded)) = [] /\ transitions (work (run ops unloaded)) = []
  /\ activeScope (active (run ops unloaded)) = None.
Proof. split_and!; vm_compute; reflexivity. Qed.

End MessagingDemo.
