(* ===== verification/CommandRuntime.v ===== *)
(** * The durable command runtime

    Models [apps/mobile/src/runtimes/commandRuntime.ts]: the calls into the native
    reliability store, the hand-off of restored drafts to the composers of this process, the
    recovery actions for durable commands, the retry timer and the application of
    projection checkpoints. The native side is the class [Native]: it answers every call
    arbitrarily, and while a call waits other tasks act on the state of the module
    ([Native.meanwhile]). A consumer of drafts may throw; one that calls back is left out. *)
From Stdlib Require Import Ascii Lia ZArith.
From stdpp Require Import base numbers strings list sets pretty.
From S2P Require Import Prelude AsyncOp JsonText RecoveryProjection.

(** ** Data *)
Inductive DraftDisposition : Set := retain | discard.
Inductive LegacyReliabilityDisposition : Set := retain_legacy | discard_legacy.
Inductive ReliabilityCommandRecoveryAction : Set := act_reconcile | act_cancel | act_acknowledge | act_discard_tracking.

#[export] Instance action_eq_dec : EqDecision ReliabilityCommandRecoveryAction.
Proof. solve_decision. Defined.

Inductive CommandState : Set := pending | failed_retryable | committed | failed_terminal | unknown_outcome | reconciling | cancelled.

#[export] Instance CommandState_eq_dec : EqDecision CommandState.
Proof. solve_decision. Defined.

(** The enumerations of the protocol are open: a message may carry another number. *)
Inductive MobileDurableCommandState : Set :=
| UNSPECIFIED | QUEUED | DISPATCH_FENCED | SUBMITTING | ACCEPTED_PENDING | COMMITTED | RETRY_WAIT | UNKNOWN_OUTCOME | RECONCILING
| UNRESOLVED | FAILED_TERMINAL | CHECKPOINTING | ACKNOWLEDGED | CANCELLED | DISCARDED | UNRECOGNIZED (number : Z).

Definition CHAT_COMPOSER : Z := 1.
Definition MOMENT_COMPOSER : Z := 2.

Inductive DraftPayload : Set := payload_chat (draft : nat) | payload_moment (draft : nat) | payload_unset.

(** Timestamps are the milliseconds that [timestampMs] gives. *)
Record MobileDraftEnvelopeV2 : Set := {
  stationPeerId : string; actorPtid : string; surfaceKind : Z; targetId : string; updatedAt : option Z; payload : DraftPayload
}.

Record MobileDurableCommandEnvelopeV2 : Set := {
  e_commandId : string; e_stationPeerId : string; e_actorPtid : string; e_orderingKey : string; e_state : MobileDurableCommandState;
  e_attemptCount : Z; e_typedLastError : Z; e_createdAt : option Z; e_updatedAt : option Z; e_nextAttemptAt : option Z
}.

Inductive StoreRecovery : Set := legacy_disposition_required | reset_incomplete.

Record ReliabilityRuntimeStatus : Set := {
  active : bool; status_station : option string; status_actor : option string; runtimeGeneration : Z; admissionOpen : bool;
  pendingCommands : Z; unknownCommands : Z; draftCount : Z; recoveryState : option StoreRecovery; archivedLegacyFiles : Z
}.

Record ReliabilityRuntimeStatusProjection : Set := {
  runtime_status : ReliabilityRuntimeStatus; commandCapacity : ReliabilityCommandCapacityStatus
}.

(** [securePhysicalDeletionProven] is always false. *)
Record ReliabilityScopeCloseResult : Set := { closed : bool; draftDisposition : DraftDisposition; retainedDrafts : Z; close_recordsAbsent : bool }.
Record ReliabilityCleanupResult : Set := { recordsAbsent : bool; pathsAbsent : bool; keysAbsent : bool }.
Record LegacyDispositionProjection : Set := { cleanup : ReliabilityCleanupResult; legacy_recovery : option StoreRecovery; legacy_files : Z }.

(** The projections of friend requests and of relationships: the second names a target
    instead of a request. *)
Record SocialCommandProjection : Set := {
  s_commandId : string; s_subject : string; s_payloadSha256 : list Z; s_state : CommandState; s_responseBytes : option (list Z);
  s_checkpointReady : bool
}.

Record ReliabilityCheckpointProjection : Set := {
  c_commandId : string; payloadSha256 : list Z; authoritativeLookupBytes : list Z; createdAtMs : Z
}.

Record CommandProjection : Set := {
  commandId : string; orderingKey : string; state : option CommandState; attemptCount : Z; typedLastError : Z;
  cp_createdAtMs : Z; cp_updatedAtMs : Z; nextAttemptAtMs : option Z; envelope : MobileDurableCommandEnvelopeV2
}.

Inductive DraftKind : Set := kind_chat | kind_moments.

(** [kind] and [surfaceKind] of the source say the same: 'chat' goes with 'chat' and
    'moments' with 'moment'. *)
Record DraftProjection : Set := {
  d_key : string; d_kind : DraftKind; d_targetId : string; d_updatedAtMs : Z; d_envelope : MobileDraftEnvelopeV2
}.

(** Where a draft lives. *)
Record DraftAddress : Set := { da_station : string; da_actor : string; da_surface : Z; da_target : string }.

Definition address_of (e : MobileDraftEnvelopeV2) : DraftAddress :=
  {| da_station := stationPeerId e; da_actor := actorPtid e; da_surface := surfaceKind e; da_target := targetId e |}.

(** ** Native calls *)
Inductive Call : Type -> Type :=
| reliability_activate (station actor : string) (generation : Z) : Call ReliabilityRuntimeStatus
| reliability_status : Call ReliabilityRuntimeStatusProjection
| reliability_rebind_generation (station actor : string) (generation : Z) : Call ReliabilityRuntimeStatus
| reliability_suspend : Call ReliabilityRuntimeStatus
| reliability_prepare_scope_exit (station actor : string) (generation : Z) : Call ReliabilityRuntimeStatus
| reliability_open_admission (station actor : string) (generation : Z) : Call ReliabilityRuntimeStatus
| reliability_close_scope (d : DraftDisposition) : Call ReliabilityScopeCloseResult
| reliability_apply_legacy_disposition (action : LegacyReliabilityDisposition) : Call LegacyDispositionProjection
| reliability_reset_all (confirmation : string) : Call ReliabilityCleanupResult
| reliability_list_commands (station actor : string) (generation : Z) : Call (list (list Z))
| reliability_list_projection_checkpoints (station actor : string) (generation : Z) : Call (list ReliabilityCheckpointProjection)
| reliability_cancel_command (station actor id : string) : Call unit
| reliability_acknowledge_projection (station actor id : string) (payloadSha256 : list Z) : Call unit
| reliability_acknowledge_terminal_failure (station actor id : string) : Call unit
| reliability_discard_unresolved (station actor id : string) : Call unit
| social_friend_request_reconcile (station actor : string) : Call (list SocialCommandProjection)
| social_relationship_reconcile (station actor : string) : Call (list SocialCommandProjection)
| draft_load (a : DraftAddress) : Call (option (list Z))
| draft_save (station actor : string) (bytes : list Z) : Call unit
| draft_list (station actor : string) (surface : option Z) : Call (list (list Z))
| draft_remove (a : DraftAddress) : Call bool
| applyProjection : Call unit.

(** What happened, in order. A consumer and a wake are functions, known by number. *)
Inductive Event : Type :=
| called {A} (c : Call A)
| restored (key : string) (e : MobileDraftEnvelopeV2)
| handed (key : string) (consumer : nat) (e : MobileDraftEnvelopeV2)
| refused (key : string) (consumer : nat) (e : MobileDraftEnvelopeV2)
| woken (wake : nat).

(** The variables of the module. *)
Record Process : Type := {
  reliabilityReconciliationWake : option nat;
  draftRestorationConsumers : jsmap nat;
  pendingDraftRestorations : jsmap MobileDraftEnvelopeV2;
  observedDraftConsumers : list string;
  projectionCheckpointApplications : jsmap nat;
  next_application : nat;
  trace : list Event
}.

Definition new_process : Process := {|
  reliabilityReconciliationWake := None; draftRestorationConsumers := ∅; pendingDraftRestorations := ∅; observedDraftConsumers := [];
  projectionCheckpointApplications := ∅; next_application := 0; trace := [] |}.

(** What other tasks do while one waits: the synchronous parts of the operations below. *)
Inductive Action : Type :=
| register_consumer (a : DraftAddress) (consumer : nat)
| release_consumer (a : DraftAddress) (consumer : nat)
| deliver (e : MobileDraftEnvelopeV2)
| settle_load (a : DraftAddress) (loaded : option MobileDraftEnvelopeV2)
| settle_discard (e : MobileDraftEnvelopeV2)
| settle_reset
| register_wake (wake : nat)
| release_wake (wake : nat).

Class Native := {
  answer : forall A, list Event -> Call A -> result A;
  meanwhile : list Event -> list Action;
  draft_fromBinary : list Z -> result MobileDraftEnvelopeV2;
  draft_toBinary : MobileDraftEnvelopeV2 -> list Z;
  command_fromBinary : list Z -> result MobileDurableCommandEnvelopeV2;
  (** What a consumer throws, if it does. *)
  consumer_throws : list Event -> nat -> MobileDraftEnvelopeV2 -> option string
}.

(** ** The state of the module *)
Definition set_wake (w : option nat) (p : Process) : Process := {|
  reliabilityReconciliationWake := w; draftRestorationConsumers := draftRestorationConsumers p; pendingDraftRestorations := pendingDraftRestorations p;
  observedDraftConsumers := observedDraftConsumers p; projectionCheckpointApplications := projectionCheckpointApplications p;
  next_application := next_application p; trace := trace p |}.
Definition set_drafts (consumers : jsmap nat) (waiting : jsmap MobileDraftEnvelopeV2) (observed : list string) (p : Process) : Process := {|
  reliabilityReconciliationWake := reliabilityReconciliationWake p; draftRestorationConsumers := consumers; pendingDraftRestorations := waiting;
  observedDraftConsumers := observed; projectionCheckpointApplications := projectionCheckpointApplications p;
  next_application := next_application p; trace := trace p |}.
Definition set_applications (m : jsmap nat) (n : nat) (p : Process) : Process := {|
  reliabilityReconciliationWake := reliabilityReconciliationWake p; draftRestorationConsumers := draftRestorationConsumers p;
  pendingDraftRestorations := pendingDraftRestorations p; observedDraftConsumers := observedDraftConsumers p;
  projectionCheckpointApplications := m; next_application := n; trace := trace p |}.
Definition record (e : Event) (p : Process) : Process := {|
  reliabilityReconciliationWake := reliabilityReconciliationWake p; draftRestorationConsumers := draftRestorationConsumers p;
  pendingDraftRestorations := pendingDraftRestorations p; observedDraftConsumers := observedDraftConsumers p;
  projectionCheckpointApplications := projectionCheckpointApplications p; next_application := next_application p; trace := trace p ++ [e] |}.

Definition set_consumers (m : jsmap nat) (p : Process) : Process := set_drafts m (pendingDraftRestorations p) (observedDraftConsumers p) p.
Definition set_pending (m : jsmap MobileDraftEnvelopeV2) (p : Process) : Process := set_drafts (draftRestorationConsumers p) m (observedDraftConsumers p) p.
Definition set_observed (l : list string) (p : Process) : Process := set_drafts (draftRestorationConsumers p) (pendingDraftRestorations p) l p.

(** ** The hand-off of restored drafts *)
Definition draftRestorationKey (a : DraftAddress) : string :=
  json_array [json_text (da_station a); json_text (da_actor a); json_int (da_surface a); json_text (da_target a)].

Definition envelopeRestorationKey (e : MobileDraftEnvelopeV2) : string := draftRestorationKey (address_of e).

Definition payload_matches (e : MobileDraftEnvelopeV2) : bool :=
  (bool_decide (surfaceKind e = CHAT_COMPOSER) && match payload e with payload_chat _ => true | _ => false end)
  || (bool_decide (surfaceKind e = MOMENT_COMPOSER) && match payload e with payload_moment _ => true | _ => false end).

Definition assertRestorableDraftEnvelope (e : MobileDraftEnvelopeV2) : result unit :=
  if payload_matches e then Ok tt else Err "mobile.reliability.draftPayloadMismatch".

Definition draftKey (surface : Z) (target : string) : string := pretty surface ++ ":" ++ target.

Definition draftProjection (e : MobileDraftEnvelopeV2) : DraftProjection := {|
  d_key := draftKey (surfaceKind e) (targetId e);
  d_kind := if decide (surfaceKind e = CHAT_COMPOSER) then kind_chat else kind_moments;
  d_targetId := targetId e; d_updatedAtMs := default 0 (updatedAt e); d_envelope := e |}.

Section runtime.
Context `{Native}.

(** The consumer runs; a value when it throws. *)
Definition consume (key : string) (consumer : nat) (e : MobileDraftEnvelopeV2) (p : Process) : Process * option string :=
  match consumer_throws (trace p) consumer e with
  | None => (record (handed key consumer e) p, None)
  | Some m => (record (refused key consumer e) p, Some m)
  end.

Definition deliverRestoredDraft (e : MobileDraftEnvelopeV2) (p : Process) : Process * result unit :=
  match assertRestorableDraftEnvelope e with
  | Err m => (p, Err m)
  | Ok _ =>
      let key := envelopeRestorationKey e in
      let p := record (restored key e) p in
      match draftRestorationConsumers p !! key with
      | None =>
          (if negb (js_set_has key (observedDraftConsumers p)) then set_pending (<[key := e]> (pendingDraftRestorations p)) p else p, Ok tt)
      | Some consumer =>
          let p := set_pending (<[key := e]> (pendingDraftRestorations p)) p in
          match consume key consumer e p with
          | (p, Some m) => (p, Err m)
          | (p, None) =>
              (set_drafts (draftRestorationConsumers p) (delete key (pendingDraftRestorations p)) (js_set_add key (observedDraftConsumers p)) p, Ok tt)
          end
      end
  end.

Definition registerDraftRestorationConsumer (a : DraftAddress) (consumer : nat) (p : Process) : Process * result unit :=
  let key := draftRestorationKey a in
  if jm_has key (draftRestorationConsumers p) then (p, Err "mobile.reliability.draftConsumerAlreadyRegistered")
  else
    let p := set_consumers (<[key := consumer]> (draftRestorationConsumers p)) p in
    match pendingDraftRestorations p !! key with
    | None => (p, Ok tt)
    | Some waiting =>
        match consume key consumer waiting p with
        | (p, None) =>
            (set_drafts (draftRestorationConsumers p) (delete key (pendingDraftRestorations p)) (js_set_add key (observedDraftConsumers p)) p, Ok tt)
        | (p, Some m) => (set_consumers (delete key (draftRestorationConsumers p)) p, Err m)
        end
    end.

(** The function that a registration returns. *)
Definition releaseDraftRestorationConsumer (a : DraftAddress) (consumer : nat) (p : Process) : Process :=
  let key := draftRestorationKey a in
  if decide (draftRestorationConsumers p !! key = Some consumer)
  then set_consumers (delete key (draftRestorationConsumers p)) p else p.

Definition registerReliabilityReconciliationWake (wake : nat) (p : Process) : Process * result unit :=
  match reliabilityReconciliationWake p with
  | Some _ => (p, Err "mobile.reliability.reconciliationWakeAlreadyRegistered")
  | None => (set_wake (Some wake) p, Ok tt)
  end.

Definition releaseReliabilityReconciliationWake (wake : nat) (p : Process) : Process :=
  if decide (reliabilityReconciliationWake p = Some wake) then set_wake None p else p.

Definition notifyReliabilityCommandChanged (p : Process) : Process :=
  match reliabilityReconciliationWake p with Some w => record (woken w) p | None => p end.

(** The rest of [load] once the native store has answered. *)
Definition load_settled (a : DraftAddress) (loaded : option MobileDraftEnvelopeV2) (p : Process) : Process * result (option MobileDraftEnvelopeV2) :=
  let key := draftRestorationKey a in
  match loaded with
  | None =>
      let p := set_observed (js_set_delete key (observedDraftConsumers p)) p in
      if jm_has key (pendingDraftRestorations p) then (p, Err "mobile.reliability.draftMissing") else (p, Ok None)
  | Some e =>
      match assertRestorableDraftEnvelope e with
      | Err m => (p, Err m)
      | Ok _ =>
          (set_drafts (draftRestorationConsumers p) (delete key (pendingDraftRestorations p)) (js_set_add key (observedDraftConsumers p)) p, Ok (Some e))
      end
  end.

(** What [discardReliabilityDrafts] does for a draft that is gone. *)
Definition discard_settled (e : MobileDraftEnvelopeV2) (p : Process) : Process :=
  let key := envelopeRestorationKey e in
  set_drafts (draftRestorationConsumers p) (delete key (pendingDraftRestorations p)) (js_set_delete key (observedDraftConsumers p)) p.

Definition reset_settled (p : Process) : Process := set_drafts (draftRestorationConsumers p) ∅ [] p.

Definition act (a : Action) (p : Process) : Process :=
  match a with
  | register_consumer a c => (registerDraftRestorationConsumer a c p).1
  | release_consumer a c => releaseDraftRestorationConsumer a c p
  | deliver e => (deliverRestoredDraft e p).1
  | settle_load a e => (load_settled a e p).1
  | settle_discard e => discard_settled e p
  | settle_reset => reset_settled p
  | register_wake w => (registerReliabilityReconciliationWake w p).1
  | release_wake w => releaseReliabilityReconciliationWake w p
  end.

Definition acts : list Action -> Process -> Process := performed act.

(** ** Asynchronous operations *)
(** [await invoke(...)]: the call goes out, other tasks run, the answer comes. *)
Definition invoke {A} (c : Call A) : Op Process A :=
  await (fun c => record (called c)) act (fun p => meanwhile (trace p)) c (fun p => answer A (trace p) c).

Definition activateReliabilityRuntime (station actor : string) (generation : Z) : Op Process ReliabilityRuntimeStatus :=
  invoke (reliability_activate station actor generation).
Definition readReliabilityRuntimeStatus : Op Process ReliabilityRuntimeStatusProjection := invoke reliability_status.
Definition rebindReliabilityGeneration (station actor : string) (generation : Z) : Op Process ReliabilityRuntimeStatus :=
  invoke (reliability_rebind_generation station actor generation).
Definition suspendReliabilityRuntime : Op Process ReliabilityRuntimeStatus := invoke reliability_suspend.
Definition prepareReliabilityScopeExit (station actor : string) (generation : Z) : Op Process ReliabilityRuntimeStatus :=
  invoke (reliability_prepare_scope_exit station actor generation).
Definition openReliabilityAdmission (station actor : string) (generation : Z) : Op Process ReliabilityRuntimeStatus :=
  invoke (reliability_open_admission station actor generation).
Definition closeReliabilityScope (d : DraftDisposition) : Op Process ReliabilityScopeCloseResult := invoke (reliability_close_scope d).
Definition applyLegacyReliabilityDisposition (action : LegacyReliabilityDisposition) : Op Process LegacyDispositionProjection :=
  invoke (reliability_apply_legacy_disposition action).
Definition listReliabilityProjectionCheckpoints (station actor : string) (generation : Z) : Op Process (list ReliabilityCheckpointProjection) :=
  invoke (reliability_list_projection_checkpoints station actor generation).
Definition cancelReliabilityCommand (station actor id : string) : Op Process unit := invoke (reliability_cancel_command station actor id).
Definition acknowledgeReliabilityProjection (station actor id : string) (sha : list Z) : Op Process unit :=
  invoke (reliability_acknowledge_projection station actor id sha).
Definition acknowledgeTerminalReliabilityFailure (station actor id : string) : Op Process unit :=
  invoke (reliability_acknowledge_terminal_failure station actor id).
Definition discardUnresolvedReliabilityCommand (station actor id : string) : Op Process unit :=
  invoke (reliability_discard_unresolved station actor id).
Definition reconcileReliableFriendRequests (station actor : string) : Op Process (list SocialCommandProjection) :=
  invoke (social_friend_request_reconcile station actor).
Definition reconcileReliableSocialRelationships (station actor : string) : Op Process (list SocialCommandProjection) :=
  invoke (social_relationship_reconcile station actor).

Definition resetAllLocalReliabilityData : Op Process ReliabilityCleanupResult :=
  cleaned ← invoke (reliability_reset_all "reset-all-local-reliability-data");
  _ ← modify reset_settled;
  mret cleaned.

(** *** Commands *)

(** No value for a state that the switch does not name. *)
Definition commandState (s : MobileDurableCommandState) : option CommandState :=
  match s with
  | QUEUED | DISPATCH_FENCED | SUBMITTING | ACCEPTED_PENDING | CHECKPOINTING => Some pending
  | RETRY_WAIT => Some failed_retryable
  | COMMITTED => Some committed
  | FAILED_TERMINAL | ACKNOWLEDGED => Some failed_terminal
  | UNKNOWN_OUTCOME | UNRESOLVED => Some unknown_outcome
  | RECONCILING => Some reconciling
  | CANCELLED | DISCARDED | UNSPECIFIED => Some cancelled
  | UNRECOGNIZED _ => None
  end.

Definition commandProjection (e : MobileDurableCommandEnvelopeV2) : CommandProjection := {|
  commandId := e_commandId e; orderingKey := e_orderingKey e; state := commandState (e_state e); attemptCount := e_attemptCount e;
  typedLastError := e_typedLastError e; cp_createdAtMs := default 0 (e_createdAt e); cp_updatedAtMs := default 0 (e_updatedAt e);
  nextAttemptAtMs := e_nextAttemptAt e; envelope := e |}.

Fixpoint map_result {X Y} (f : X -> result Y) (l : list X) : result (list Y) :=
  match l with
  | [] => Ok []
  | x :: l => y ← f x; ys ← map_result f l; Ok (y :: ys)
  end.

Definition listReliabilityCommands (station actor : string) (generation : Z) : Op Process (list CommandProjection) :=
  encoded ← invoke (reliability_list_commands station actor generation);
  lift (map_result (fun bytes => e ← command_fromBinary bytes; Ok (commandProjection e)) encoded).

Definition MAX_RELIABILITY_TIMER_DELAY_MS : Z := 2147000000.

Definition earliest_of (earliest : option Z) (c : CommandProjection) : option Z :=
  match state c, nextAttemptAtMs c with
  | Some failed_retryable, Some t => Some (match earliest with None => t | Some e => Z.min e t end)
  | _, _ => earliest
  end.

Definition nextReliabilityRetryDelay (commands : list CommandProjection) (nowMs : Z) : option Z :=
  match fold_left earliest_of commands None with
  | None => None
  | Some earliest => Some (Z.min MAX_RELIABILITY_TIMER_DELAY_MS (Z.max 0 (earliest - nowMs)))
  end.

Definition reliabilityCommandRecoveryActions (c : CommandProjection) : list ReliabilityCommandRecoveryAction :=
  match e_state (envelope c) with
  | QUEUED | RETRY_WAIT => [act_cancel]
  | UNKNOWN_OUTCOME | RECONCILING => [act_reconcile]
  | UNRESOLVED => [act_reconcile; act_discard_tracking]
  | FAILED_TERMINAL => [act_acknowledge]
  | _ => []
  end.

Definition unit_separator : string := String (ascii_of_nat 31) "".

Definition scope_of (c : CommandProjection) : string * string := (e_stationPeerId (envelope c), e_actorPtid (envelope c)).

Definition scope_text (scope : string * string) : string := scope.1 ++ unit_separator ++ scope.2.

Definition add_scope (m : jsmap (string * string)) (c : CommandProjection) : jsmap (string * string) := <[scope_text (scope_of c) := scope_of c]> m.

Definition recover_one (action : ReliabilityCommandRecoveryAction) (c : CommandProjection) : Op Process unit :=
  let (station, actor) := scope_of c in
  match action with
  | act_cancel => cancelReliabilityCommand station actor (commandId c)
  | act_acknowledge => acknowledgeTerminalReliabilityFailure station actor (commandId c)
  | _ => discardUnresolvedReliabilityCommand station actor (commandId c)
  end.

Definition reconcile_scope (scope : string * string) : Op Process unit :=
  _ ← reconcileReliableFriendRequests scope.1 scope.2;
  _ ← reconcileReliableSocialRelationships scope.1 scope.2;
  mret tt.

Definition eligible (action : ReliabilityCommandRecoveryAction) (commands : list CommandProjection) : list CommandProjection :=
  filter (fun c => action ∈ reliabilityCommandRecoveryActions c) commands.

Definition applyReliabilityCommandRecoveryAction (action : ReliabilityCommandRecoveryAction) (commands : list CommandProjection) : Op Process unit :=
  let chosen := eligible action commands in
  if decide (chosen = []) then mret tt
  else
    _ ← (if decide (action = act_reconcile)
         then for_each reconcile_scope (jm_values (fold_left add_scope chosen ∅))
         else for_each (recover_one action) chosen);
    modify notifyReliabilityCommandChanged.

(** *** Projection checkpoints *)
Definition application_key (station actor : string) (generation : Z) : string :=
  station ++ unit_separator ++ actor ++ unit_separator ++ pretty generation.

Definition apply_checkpoints (station actor : string) (generation : Z) : Op Process Z :=
  checkpoints ← listReliabilityProjectionCheckpoints station actor generation;
  if decide (checkpoints = []) then mret 0
  else
    _ ← invoke applyProjection;
    _ ← for_each (fun c => acknowledgeReliabilityProjection station actor (c_commandId c) (payloadSha256 c)) checkpoints;
    mret (Z.of_nat (length checkpoints)).

(** A call joins the application of its scope that is under way, or starts one. *)
Inductive Application : Type := joined (id : nat) | ran (count : result Z).

Definition applyReliabilityProjectionCheckpoints (station actor : string) (generation : Z) (p : Process) : Process * Application :=
  let key := application_key station actor generation in
  match projectionCheckpointApplications p !! key with
  | Some id => (p, joined id)
  | None =>
      let id := next_application p in
      let p := set_applications (<[key := id]> (projectionCheckpointApplications p)) (S id) p in
      let (p, count) := apply_checkpoints station actor generation p in
      (if decide (projectionCheckpointApplications p !! key = Some id)
       then set_applications (delete key (projectionCheckpointApplications p)) (next_application p) p else p, ran count)
  end.

(** *** Drafts *)
Definition loadDraftEnvelopeFromOwner (a : DraftAddress) : Op Process (option MobileDraftEnvelopeV2) :=
  bytes ← invoke (draft_load a);
  match bytes with
  | None => mret None
  | Some bytes => e ← lift (draft_fromBinary bytes); mret (Some e)
  end.

(** The first loop of [restoreReliabilityDrafts]. *)
Fixpoint load_restored (drafts : list DraftProjection) : Op Process (list MobileDraftEnvelopeV2) :=
  match drafts with
  | [] => mret []
  | draft :: drafts =>
      loaded ← loadDraftEnvelopeFromOwner (address_of (d_envelope draft));
      match loaded with
      | None => lift (Err "mobile.reliability.draftMissing")
      | Some e =>
          if decide (envelopeRestorationKey e <> envelopeRestorationKey (d_envelope draft))
          then lift (Err "mobile.reliability.draftScopeMismatch")
          else
            _ ← lift (assertRestorableDraftEnvelope e);
            others ← load_restored drafts;
            mret (e :: others)
      end
  end.

Definition restoreReliabilityDrafts (drafts : list DraftProjection) : Op Process (list MobileDraftEnvelopeV2) :=
  restored ← load_restored drafts;
  _ ← for_each (deliverRestoredDraft : _ -> Op Process unit) restored;
  mret restored.

Definition draftsRequiringRestoreDecision (drafts : list DraftProjection) (p : Process) : list DraftProjection :=
  filter (fun d => let key := envelopeRestorationKey (d_envelope d) in
    jm_has key (draftRestorationConsumers p) = false /\ js_set_has key (observedDraftConsumers p) = false) drafts.

Definition discard_one (draft : DraftProjection) : Op Process unit :=
  _ ← invoke (draft_remove (address_of (d_envelope draft)));
  remaining ← loadDraftEnvelopeFromOwner (address_of (d_envelope draft));
  match remaining with
  | Some _ => lift (Err "mobile.reliability.draftDiscardIncomplete")
  | None => modify (discard_settled (d_envelope draft))
  end.

Definition discardReliabilityDrafts (drafts : list DraftProjection) : Op Process unit := for_each discard_one drafts.

(** The methods of [getDraftRestorationPort]. *)
Definition save (e : MobileDraftEnvelopeV2) : Op Process unit := invoke (draft_save (stationPeerId e) (actorPtid e) (draft_toBinary e)).

Definition load (a : DraftAddress) : Op Process (option MobileDraftEnvelopeV2) :=
  loaded ← loadDraftEnvelopeFromOwner a;
  load_settled a loaded.

Definition list_drafts (station actor : string) (surface : option Z) : Op Process (list DraftProjection) :=
  encoded ← invoke (draft_list station actor surface);
  lift (map_result (fun bytes => e ← draft_fromBinary bytes; Ok (draftProjection e)) encoded).

Definition remove (a : DraftAddress) : Op Process bool := invoke (draft_remove a).
End runtime.

(** * What the runtime guarantees *)
Lemma draftRestorationKey_inj a b : draftRestorationKey a = draftRestorationKey b -> a = b.
Proof. destruct a, b. unfold draftRestorationKey. cbn. by intros (-> & -> & -> & ->)%json_key_inj. Qed.

(** ** Traces *)
Definition is_restored (key : string) (e : Event) : bool := match e with restored k _ => bool_decide (k = key) | _ => false end.
Definition is_handed (key : string) (e : Event) : bool := match e with handed k _ _ => bool_decide (k = key) | _ => false end.

Fixpoint count (f : Event -> bool) (l : list Event) : nat := match l with [] => 0 | e :: l => (if f e then 1 else 0) + count f l end.

Definition the_call {A} (c : Call A) : {A : Type & Call A} := existT A c.

Fixpoint calls_of (l : list Event) : list {A : Type & Call A} :=
  match l with
  | [] => []
  | called c :: l => the_call c :: calls_of l
  | _ :: l => calls_of l
  end.

Lemma count_app f l k : count f (l ++ k) = (count f l + count f k)%nat.
Proof. induction l as [|e l IH]; cbn; [done|]. rewrite IH. lia. Qed.

Lemma calls_of_app l k : calls_of (l ++ k) = calls_of l ++ calls_of k.
Proof. induction l as [|[] l IH]; cbn; by rewrite ?IH. Qed.

Section facts.
Context `{Native}.
Implicit Types (p : Process) (key : string) (e : MobileDraftEnvelopeV2).

Lemma invoke_eq {A} (c : Call A) p : invoke c p = (acts (meanwhile (trace p)) (record (called c) p), answer A (trace p) c).
Proof. done. Qed.

(** ** The account of every draft *)
Definition waits key p : nat := match pendingDraftRestorations p !! key with Some _ => 1 | None => 0 end.

(** A draft of the trace was restored, under its own key, and suits its surface. *)
Definition genuine (l : list Event) key e : Prop := restored key e ∈ l /\ envelopeRestorationKey e = key /\ payload_matches e = true.

Record accounted p : Prop := {
  handed_once : forall key, (count (is_handed key) (trace p) + waits key p <= count (is_restored key) (trace p))%nat;
  waiting_genuine : forall key e, pendingDraftRestorations p !! key = Some e -> genuine (trace p) key e;
  handed_genuine : forall key c e, handed key c e ∈ trace p -> genuine (trace p) key e
}.

Lemma genuine_app l k key e : genuine l key e -> genuine (l ++ k) key e.
Proof. intros (? & ? & ?). split; [|done]. apply elem_of_app. by left. Qed.

(** Steps that hand nothing over: the trace grows by other events, drafts only leave. *)
Lemma accounted_quiet p p' k :
  accounted p -> trace p' = trace p ++ k ->
  (forall key, count (is_handed key) k = 0%nat) ->
  (forall key e, pendingDraftRestorations p' !! key = Some e -> pendingDraftRestorations p !! key = Some e) -> accounted p'.
Proof.
  intros [Ho Hw Hh] Ht Hk Hp. split.
  - intros key. rewrite Ht, !count_app, Hk. specialize (Ho key). unfold waits in *. specialize (Hp key).
    destruct (pendingDraftRestorations p' !! key) as [e|]; [rewrite (Hp e eq_refl) in Ho|]; destruct (pendingDraftRestorations p !! key); lia.
  - intros key e Hin. rewrite Ht. apply genuine_app, Hw, Hp, Hin.
  - intros key c e. rewrite Ht, elem_of_app. intros [Hin|Hin]; [by eapply genuine_app, Hh|].
    exfalso. specialize (Hk key). clear -Hin Hk. induction k as [|x k IH]; [by apply elem_of_nil in Hin|].
    apply elem_of_cons in Hin as [<-|Hin]; cbn in Hk; [rewrite bool_decide_true in Hk by done; lia | apply IH; first [done | lia]].
Qed.

Lemma accounted_same p p' :
  accounted p -> trace p' = trace p ->
  (forall key e, pendingDraftRestorations p' !! key = Some e -> pendingDraftRestorations p !! key = Some e) -> accounted p'.
Proof. intros Ha Ht Hp. by apply (accounted_quiet p p' []); rewrite ?app_nil_r. Qed.

Lemma accounted_called {A} (c : Call A) p : accounted p -> accounted (record (called c) p).
Proof. intros Ha. by apply (accounted_quiet p _ [called c]). Qed.

(** A draft is put to wait. *)
Lemma accounted_wait p e :
  payload_matches e = true -> accounted p ->
  accounted (set_pending (<[envelopeRestorationKey e := e]> (pendingDraftRestorations p)) (record (restored (envelopeRestorationKey e) e) p)).
Proof.
  intros Hm [Ho Hw Hh]. split; cbn.
  - intros key. rewrite !count_app. cbn. specialize (Ho key). unfold waits in *. cbn. rewrite jm_lookup_set.
    destruct (decide (envelopeRestorationKey e = key)) as [->|]; [rewrite bool_decide_true by done | rewrite bool_decide_false by done]; try lia.
  - intros key e'. rewrite jm_lookup_set. destruct (decide (envelopeRestorationKey e = key)) as [<-|]; intros Hp.
    + injection Hp as <-. split_and!; [|done..]. apply elem_of_app. right. by left.
    + by apply genuine_app, Hw.
  - intros key c e'. rewrite elem_of_app, list_elem_of_singleton. intros [Hin|[=]]. by eapply genuine_app, Hh.
Qed.

Lemma accounted_refused p key c e : accounted p -> accounted (record (refused key c e) p).
Proof. intros Ha. by apply (accounted_quiet p _ [refused key c e]). Qed.

(** A waiting draft is handed over. *)
Lemma accounted_handed p key c e observed :
  pendingDraftRestorations p !! key = Some e -> accounted p ->
  accounted (set_drafts (draftRestorationConsumers p) (delete key (pendingDraftRestorations p)) observed (record (handed key c e) p)).
Proof.
  intros Hp [Ho Hw Hh]. split; cbn.
  - intros key'. rewrite !count_app. cbn. specialize (Ho key'). unfold waits in *. cbn. rewrite jm_lookup_delete.
    destruct (decide (key = key')) as [->|]; [rewrite bool_decide_true by done; rewrite Hp in Ho | rewrite bool_decide_false by done]; lia.
  - intros key' e'. rewrite jm_lookup_delete. destruct (decide (key = key')); [done|]. intros ?. by apply genuine_app, Hw.
  - intros key' c' e'. rewrite elem_of_app, list_elem_of_singleton. intros [Hin|[= -> -> ->]]; [by eapply genuine_app, Hh | by apply genuine_app, Hw].
Qed.

Lemma delete_some {V} (m : jsmap V) k k' v : (delete k m : jsmap V) !! k' = Some v -> m !! k' = Some v.
Proof. rewrite jm_lookup_delete. by destruct (decide (k = k')). Qed.

Lemma accounted_deliver e p : accounted p -> accounted (deliverRestoredDraft e p).1.
Proof.
  intros Ha. unfold deliverRestoredDraft, assertRestorableDraftEnvelope. destruct (payload_matches e) eqn:Hm; [|done].
  pose proof (accounted_wait p e Hm Ha) as Hw.
  set (key := envelopeRestorationKey e) in *. set (p1 := record (restored key e) p) in *.
  destruct (draftRestorationConsumers p1 !! key) as [consumer|].
  - change (pendingDraftRestorations p) with (pendingDraftRestorations p1) in Hw.
    set (p2 := set_pending (<[key:=e]> (pendingDraftRestorations p1)) p1) in *. unfold consume.
    destruct (consumer_throws (trace p2) consumer e); cbn [fst]; [by apply accounted_refused|].
    by apply (accounted_handed p2); [apply jm_lookup_set_eq|].
  - destruct (negb _); [done|]. by apply (accounted_quiet p _ [restored key e]).
Qed.

Lemma accounted_register a c p : accounted p -> accounted (registerDraftRestorationConsumer a c p).1.
Proof.
  intros Ha. unfold registerDraftRestorationConsumer. destruct (jm_has _ _); [done|].
  set (key := draftRestorationKey a). set (p1 := set_consumers _ p).
  assert (Ha1 : accounted p1) by (by apply (accounted_same p)).
  destruct (pendingDraftRestorations p1 !! key) as [e|] eqn:He; [|done]. unfold consume.
  destruct (consumer_throws (trace p1) c e); cbn [fst].
  - apply (accounted_same (record (refused key c e) p1)); [by apply accounted_refused | done..].
  - by apply (accounted_handed p1).
Qed.

Lemma accounted_settle_load a loaded p : accounted p -> accounted (load_settled a loaded p).1.
Proof.
  intros Ha. unfold load_settled. destruct loaded as [e|].
  - destruct (assertRestorableDraftEnvelope e); [|done]. apply (accounted_same p); [done..|]. cbn. intros ??. by apply delete_some.
  - destruct (jm_has _ _); by apply (accounted_same p).
Qed.

Lemma accounted_act a p : accounted p -> accounted (act a p).
Proof.
  intros Ha. destruct a; cbn [act]; auto using accounted_deliver, accounted_register, accounted_settle_load.
  - unfold releaseDraftRestorationConsumer. destruct (decide _); [|done]. by apply (accounted_same p).
  - apply (accounted_same p); [done..|]. cbn. intros ??. by apply delete_some.
  - by apply (accounted_same p).
  - unfold registerReliabilityReconciliationWake. destruct (reliabilityReconciliationWake p); [done|]. by apply (accounted_same p).
  - unfold releaseReliabilityReconciliationWake. destruct (decide _); [|done]. by apply (accounted_same p).
Qed.

Lemma accounted_acts l p : accounted p -> accounted (acts l p).
Proof. revert p. induction l as [|a l IH]; intros p Ha; [done|]. cbn. by apply IH, accounted_act. Qed.

(** ** Operations keep the account *)
Section keeps.
Variable P : Process -> Prop.
Hypothesis P_act : forall a p, P p -> P (act a p).
Hypothesis P_called : forall A (c : Call A) p, P p -> P (record (called c) p).

Lemma keeps_invoke {A} (c : Call A) : keeps P (invoke c).
Proof. apply keeps_await; auto. Qed.

Lemma keeps_deliver e : keeps P (deliverRestoredDraft e : Op Process unit).
Proof. intros p Hp. exact (P_act (deliver e) p Hp). Qed.

Lemma keeps_load a : keeps P (loadDraftEnvelopeFromOwner a).
Proof.
  apply keeps_bind; [apply keeps_invoke|]. intros [bytes|]; [|apply keeps_ret].
  apply keeps_bind; [apply keeps_lift | intros; apply keeps_ret].
Qed.

Lemma keeps_load_restored drafts : keeps P (load_restored drafts).
Proof.
  induction drafts as [|d drafts IH]; [apply keeps_ret|]. apply keeps_bind; [apply keeps_load|]. intros [e|]; [|apply keeps_lift].
  destruct (decide _); [apply keeps_lift|]. apply keeps_bind; [apply keeps_lift|]. intros _. apply keeps_bind; [done | intros; apply keeps_ret].
Qed.

Lemma keeps_restore drafts : keeps P (restoreReliabilityDrafts drafts).
Proof.
  apply keeps_bind; [apply keeps_load_restored|]. intros l. apply keeps_bind; [|intros; apply keeps_ret].
  apply keeps_for_each, keeps_deliver.
Qed.

Lemma keeps_discard drafts : keeps P (discardReliabilityDrafts drafts).
Proof.
  apply keeps_for_each. intros d. apply keeps_bind; [apply keeps_invoke|]. intros _. apply keeps_bind; [apply keeps_load|].
  intros [e|]; [apply keeps_lift|]. intros p Hp. exact (P_act (settle_discard (d_envelope d)) p Hp).
Qed.

Lemma keeps_port_load a : keeps P (load a).
Proof. apply keeps_bind; [apply keeps_load|]. intros loaded p Hp. exact (P_act (settle_load a loaded) p Hp). Qed.

Lemma keeps_reset : keeps P resetAllLocalReliabilityData.
Proof.
  apply keeps_bind; [apply keeps_invoke|]. intros r. apply keeps_bind; [|intros; apply keeps_ret].
  intros p Hp. exact (P_act settle_reset p Hp).
Qed.
End keeps.

(** What the app does with drafts: the synchronous calls, and the operations that wait. *)
Inductive Operation : Type :=
| do_act (a : Action)
| do_restore (drafts : list DraftProjection)
| do_discard (drafts : list DraftProjection)
| do_load (a : DraftAddress)
| do_reset
| do_invoke {A} (c : Call A).

Definition run_operation (o : Operation) (p : Process) : Process :=
  match o with
  | do_act a => act a p
  | do_restore drafts => (restoreReliabilityDrafts drafts p).1
  | do_discard drafts => (discardReliabilityDrafts drafts p).1
  | do_load a => (load a p).1
  | do_reset => (resetAllLocalReliabilityData p).1
  | do_invoke c => (invoke c p).1
  end.

Definition run_operations (l : list Operation) (p : Process) : Process := fold_left (fun p o => run_operation o p) l p.

Lemma accounted_operations l p : accounted p -> accounted (run_operations l p).
Proof.
  revert p. induction l as [|o l IH]; intros p Hp; [done|]. cbn. apply IH.
  pose proof accounted_act as Ha. pose proof @accounted_called as Hc.
  destruct o; cbn [run_operation].
  - by apply Ha.
  - by apply keeps_restore.
  - by apply keeps_discard.
  - by apply keeps_port_load.
  - by apply keeps_reset.
  - by apply keeps_invoke.
Qed.

(** The action leaves the draft that waits under [key] alone. *)
Definition spares key (a : Action) : Prop :=
  match a with
  | register_consumer a _ | settle_load a _ => draftRestorationKey a <> key
  | deliver e | settle_discard e => envelopeRestorationKey e <> key
  | settle_reset => False
  | release_consumer _ _ | register_wake _ | release_wake _ => True
  end.

Lemma spares_act key a p : spares key a -> pendingDraftRestorations (act a p) !! key = pendingDraftRestorations p !! key.
Proof.
  intros Hs. destruct a as [a c|a c|e|a loaded|e| |w|w]; cbn [act spares] in *; try done.
  - unfold registerDraftRestorationConsumer. destruct (jm_has _ _); [done|]. cbn.
    destruct (pendingDraftRestorations p !! draftRestorationKey a) as [e|]; [|done]. unfold consume.
    destruct (consumer_throws _ _ _); cbn; [done | by rewrite jm_lookup_delete_ne].
  - unfold releaseDraftRestorationConsumer. by destruct (decide _).
  - unfold deliverRestoredDraft. destruct (assertRestorableDraftEnvelope e); [|done]. cbn.
    destruct (draftRestorationConsumers p !! _) as [c|].
    + unfold consume. destruct (consumer_throws _ _ _); cbn; [|rewrite jm_lookup_delete_ne by done]; by rewrite jm_lookup_set_ne.
    + destruct (negb _); [|done]. cbn. by rewrite jm_lookup_set_ne.
  - unfold load_settled. destruct loaded as [e|].
    + destruct (assertRestorableDraftEnvelope e); [|done]. cbn. by rewrite jm_lookup_delete_ne.
    + by destruct (jm_has _ _).
  - cbn. by rewrite jm_lookup_delete_ne.
  - unfold registerReliabilityReconciliationWake. by destruct (reliabilityReconciliationWake p).
  - unfold releaseReliabilityReconciliationWake. by destruct (decide _).
Qed.

Lemma spares_acts key l p : Forall (spares key) l -> pendingDraftRestorations (acts l p) !! key = pendingDraftRestorations p !! key.
Proof. intros Hl. revert p. induction Hl as [|a l Ha Hl IH]; intros p; [done|].
  change (acts (a :: l) p) with (acts l (act a p)). by rewrite IH, spares_act. Qed.

Lemma deliver_waits e p :
  payload_matches e = true ->
  draftRestorationConsumers p !! envelopeRestorationKey e = None /\ envelopeRestorationKey e ∉ observedDraftConsumers p
  \/ is_ok (deliverRestoredDraft e p).2 = false ->
  pendingDraftRestorations (act (deliver e) p) !! envelopeRestorationKey e = Some e.
Proof.
  intros Hm. cbn [act]. unfold deliverRestoredDraft, assertRestorableDraftEnvelope. rewrite Hm. cbn. intros [[-> Hobs]|Hr].
  - unfold js_set_has. rewrite bool_decide_false by done. apply jm_lookup_set_eq.
  - destruct (draftRestorationConsumers p !! _) as [c|]; [|done]. unfold consume in *.
    destruct (consumer_throws _ _ _); [apply jm_lookup_set_eq | done].
Qed.

(** C31: drafts and their composers. In every history of registrations, releases,
    restorations, loads, discards and resets, with anything going on while calls wait, a
    composer is given only drafts that were restored for its own address, with a payload of
    its surface, and no address is given more drafts than were restored for it. A draft that
    is restored where no composer is registered and the address is not an observed one, or
    where the composer registered throws, waits, through everything that does not concern its
    address, for the next composer that registers there: it is handed over then, or, when
    that composer throws, keeps waiting with the composer unregistered. At an observed
    address (a composer took a draft there, or one was loaded, since the last discard,
    empty load or reset) where no composer is registered, a restored draft is dropped. *)
Theorem draft_handover (operations : list Operation) :
  (let p := run_operations operations new_process in
   (forall key, (count (is_handed key) (trace p) <= count (is_restored key) (trace p))%nat)
   /\ (forall key c e, handed key c e ∈ trace p -> restored key e ∈ trace p /\ envelopeRestorationKey e = key /\ payload_matches e = true))
  /\ (forall p e a consumer others,
        payload_matches e = true -> a = address_of e ->
        draftRestorationConsumers p !! draftRestorationKey a = None /\ draftRestorationKey a ∉ observedDraftConsumers p
        \/ is_ok (deliverRestoredDraft e p).2 = false ->
        Forall (spares (draftRestorationKey a)) others ->
        let p1 := acts others (act (deliver e) p) in
        draftRestorationConsumers p1 !! draftRestorationKey a = None ->
        match registerDraftRestorationConsumer a consumer p1 with
        | (p2, Ok _) => last (trace p2) = Some (handed (draftRestorationKey a) consumer e)
                        /\ draftRestorationConsumers p2 !! draftRestorationKey a = Some consumer
                        /\ pendingDraftRestorations p2 !! draftRestorationKey a = None
        | (p2, Err _) => pendingDraftRestorations p2 !! draftRestorationKey a = Some e
                         /\ draftRestorationConsumers p2 !! draftRestorationKey a = None
        end)
  /\ (forall p e, payload_matches e = true -> draftRestorationConsumers p !! envelopeRestorationKey e = None ->
        envelopeRestorationKey e ∈ observedDraftConsumers p ->
        deliverRestoredDraft e p = (record (restored (envelopeRestorationKey e) e) p, Ok tt)).
Proof.
  split_and!.
  - intros p. destruct (accounted_operations operations new_process) as [Ho _ Hh].
    { split; [done | done | intros key c e ?%elem_of_nil; done]. }
    split; [|exact Hh]. intros key. specialize (Ho key). fold p in Ho. lia.
  - intros p e a consumer others Hm -> Hfree Hothers p1 Hnone.
    assert (Hp : pendingDraftRestorations p1 !! draftRestorationKey (address_of e) = Some e).
    { unfold p1. rewrite spares_acts by done. by apply deliver_waits. }
    clearbody p1. unfold registerDraftRestorationConsumer, jm_has. rewrite Hnone, bool_decide_false by (by intros []).
    cbn -[draftRestorationKey address_of]. rewrite Hp. unfold consume.
    destruct (consumer_throws _ consumer e); cbn -[draftRestorationKey address_of].
    + split; [done | apply jm_lookup_delete_eq].
    + split_and!; [by rewrite last_snoc | apply jm_lookup_set_eq | apply jm_lookup_delete_eq].
  - intros p e Hm Hnone Hobs. unfold deliverRestoredDraft, assertRestorableDraftEnvelope. rewrite Hm. cbn -[envelopeRestorationKey].
    rewrite Hnone. unfold js_set_has. by rewrite bool_decide_true.
Qed.

(** ** The calls that an operation makes *)
Definition is_woken (e : Event) : bool := match e with woken _ => true | _ => false end.

Abbreviation calls p := (calls_of (trace p)).
Abbreviation wakes p := (count is_woken (trace p)).

(** The calls of the plan in order, up to one that fails. *)
Definition performs {A} (m : Op Process A) (plan : list {A : Type & Call A}) : Prop := forall p,
  wakes (m p).1 = wakes p /\
  match m p with
  | (p', Ok _) => calls p' = calls p ++ plan
  | (p', Err _) => exists done_ c rest, plan = done_ ++ c :: rest /\ calls p' = calls p ++ done_ ++ [c]
  end.

Definition silent (p p' : Process) : Prop := calls p' = calls p /\ wakes p' = wakes p.

Lemma silent_record (e : Event) p : calls_of [e] = [] -> is_woken e = false -> silent p (record e p).
Proof. intros Hc Hw. unfold silent. cbn [trace record]. rewrite calls_of_app, count_app, Hc, app_nil_r. cbn. rewrite Hw. split; lia || done. Qed.

Lemma silent_consume key c e p : silent p (consume key c e p).1.
Proof. unfold consume. destruct (consumer_throws _ _ _); by apply silent_record. Qed.

Lemma silent_act a p : silent p (act a p).
Proof.
  destruct a as [a c|a c|e|a loaded|e| |w|w]; cbn [act]; try done.
  - unfold registerDraftRestorationConsumer. destruct (jm_has _ _); [done|].
    set (p1 := set_consumers _ p). change (silent p) with (silent p1).
    destruct (pendingDraftRestorations p1 !! _); [|done]. pose proof (silent_consume (draftRestorationKey a) c m p1) as Hc.
    destruct (consume _ _ _ _) as [p2 [x|]]; exact Hc.
  - unfold releaseDraftRestorationConsumer. by destruct (decide _).
  - unfold deliverRestoredDraft. destruct (assertRestorableDraftEnvelope e); [|done].
    set (key := envelopeRestorationKey e). set (p1 := record _ p). assert (Hp1 : silent p p1) by (by apply silent_record).
    destruct (draftRestorationConsumers p1 !! key) as [c|]; [|by destruct (negb _)].
    set (p2 := set_pending _ p1). assert (Hp2 : silent p p2) by exact Hp1. clearbody p2.
    destruct Hp2 as [Hc2 Hw2]. pose proof (silent_consume key c e p2) as [Hc Hw].
    destruct (consume key c e p2) as [p3 [x|]]; cbn [fst] in *; (split; [by rewrite <- Hc2 | by rewrite <- Hw2]).
  - unfold load_settled. destruct loaded as [e|]; [by destruct (assertRestorableDraftEnvelope e) | by destruct (jm_has _ _)].
  - unfold registerReliabilityReconciliationWake. by destruct (reliabilityReconciliationWake p).
  - unfold releaseReliabilityReconciliationWake. by destruct (decide _).
Qed.

Lemma silent_acts l p : silent p (acts l p).
Proof.
  revert p. induction l as [|a l IH]; intros p; [done|]. change (acts (a :: l) p) with (acts l (act a p)).
  destruct (IH (act a p)) as [Hc Hw], (silent_act a p) as [Hc' Hw']. split; congruence.
Qed.

Lemma performs_invoke {A} (c : Call A) : performs (invoke c) [the_call c].
Proof.
  intros p. rewrite invoke_eq. destruct (silent_acts (meanwhile (trace p)) (record (called c) p)) as [Hc Hw]. cbn [fst].
  split; [rewrite Hw; cbn; rewrite count_app; cbn; lia|].
  cbn [trace record] in Hc. rewrite calls_of_app in Hc.
  destruct (answer A (trace p) c); [exact Hc|]. by exists [], (the_call c), [].
Qed.

Lemma performs_ret {A} (a : A) : performs (mret a : Op Process A) [].
Proof. intros p. cbn. by rewrite app_nil_r. Qed.

Lemma performs_bind {A B} (m : Op Process A) (k : A -> Op Process B) plan plan' :
  performs m plan -> (forall a, performs (k a) plan') -> performs (m ≫= k) (plan ++ plan').
Proof.
  intros Hm Hk p. specialize (Hm p) as [Hw Hm]. unfold mbind, op_bind. destruct (m p) as [p1 [a|x]]; cbn [fst] in *.
  - destruct (Hk a p1) as [Hw' Hr]. split; [congruence|]. destruct (k a p1) as [p2 [b|x]].
    + by rewrite Hr, Hm, (assoc_L (++)).
    + destruct Hr as (done_ & c & rest & -> & Hr). exists (plan ++ done_), c, rest. by rewrite Hr, Hm, !(assoc_L (++)).
  - split; [done|]. destruct Hm as (done_ & c & rest & -> & Hm). exists done_, c, (rest ++ plan'). by rewrite <- (assoc_L (++)).
Qed.

Lemma performs_for_each {X} (f : X -> Op Process unit) (plan : X -> list {A : Type & Call A}) l :
  (forall x, performs (f x) (plan x)) -> performs (for_each f l) (concat (plan <$> l)).
Proof. intros Hf. induction l as [|x l IH]; [apply performs_ret | by apply performs_bind]. Qed.

(** ** Recovering commands *)
Definition recovery_call (action : ReliabilityCommandRecoveryAction) (c : CommandProjection) : {A : Type & Call A} :=
  let (station, actor) := scope_of c in
  match action with
  | act_cancel => the_call (reliability_cancel_command station actor (commandId c))
  | act_acknowledge => the_call (reliability_acknowledge_terminal_failure station actor (commandId c))
  | _ => the_call (reliability_discard_unresolved station actor (commandId c))
  end.

Definition reconcile_calls (scope : string * string) : list {A : Type & Call A} :=
  [the_call (social_friend_request_reconcile scope.1 scope.2); the_call (social_relationship_reconcile scope.1 scope.2)].

Definition scopes_of (commands : list CommandProjection) : list (string * string) := jm_values (fold_left add_scope commands ∅).

Definition recovery_plan (action : ReliabilityCommandRecoveryAction) (commands : list CommandProjection) : list {A : Type & Call A} :=
  if decide (action = act_reconcile) then concat (reconcile_calls <$> scopes_of (eligible action commands))
  else recovery_call action <$> eligible action commands.

Lemma concat_singletons {X Y} (f : X -> Y) l : concat ((fun x => [f x]) <$> l) = f <$> l.
Proof. induction l as [|x l IH]; [done|]. cbn. by rewrite IH. Qed.

Lemma performs_recover_one action c : performs (recover_one action c) [recovery_call action c].
Proof. unfold recover_one, recovery_call. destruct (scope_of c). destruct action; apply performs_invoke. Qed.

Lemma performs_reconcile_scope scope : performs (reconcile_scope scope) (reconcile_calls scope).
Proof.
  change (reconcile_calls scope) with ([the_call (social_friend_request_reconcile scope.1 scope.2)]
    ++ [the_call (social_relationship_reconcile scope.1 scope.2)] ++ []).
  apply performs_bind; [apply performs_invoke|]. intros _. apply performs_bind; [apply performs_invoke | intros; apply performs_ret].
Qed.

(** The scopes of some commands, each once: two scopes of one text are one entry. *)
Lemma scopes_of_spec commands :
  NoDup (scope_text <$> scopes_of commands)
  /\ (forall s, s ∈ scopes_of commands -> exists c, c ∈ commands /\ s = scope_of c)
  /\ (forall c, c ∈ commands -> exists s, s ∈ scopes_of commands /\ scope_text s = scope_text (scope_of c)).
Proof.
  assert (Hinv : forall l (m : jsmap (string * string)), jm_wf m -> (forall k s, m !! k = Some s -> k = scope_text s) ->
    let m' := fold_left add_scope l m in
    jm_wf m' /\ (forall k s, m' !! k = Some s -> k = scope_text s)
    /\ (forall k s, m' !! k = Some s -> m !! k = Some s \/ exists c, c ∈ l /\ s = scope_of c)
    /\ (forall k, is_Some (m !! k) \/ (exists c, c ∈ l /\ k = scope_text (scope_of c)) -> is_Some (m' !! k))).
  { induction l as [|c l IH]; intros m Hwf Hk; cbn.
    - split_and!; try done; [by left |]. by intros k [?|(c & []%elem_of_nil & _)].
    - destruct (IH (add_scope m c)) as (Hwf' & Hk' & Hfrom & Hto); unfold add_scope.
      + by apply jm_wf_set.
      + intros k s. rewrite jm_lookup_set. destruct (decide _) as [<-|]; [by intros [= <-] | by apply Hk].
      + split_and!; [done..| |].
        * intros k s Hs. destruct (Hfrom k s Hs) as [Hm|(c' & ? & ->)]; [|right; exists c'; set_solver].
          revert Hm. unfold add_scope. rewrite jm_lookup_set. destruct (decide _) as [<-|]; [intros [= <-]; right; exists c; set_solver | by left].
        * intros k Hin. apply Hto. unfold add_scope. rewrite jm_lookup_set. destruct (decide _) as [|Hne]; [left; eauto|].
          destruct Hin as [?|(c' & [->|?]%elem_of_cons & ->)]; [by left | done | right; eauto]. }
  destruct (Hinv commands ∅) as (Hwf & Hk & Hfrom & Hto); [apply jm_wf_empty | done |].
  unfold scopes_of. set (m := fold_left add_scope commands ∅) in *. split_and!.
  - assert (Hkeys : jm_keys m = scope_text <$> jm_values m); [|by rewrite <- Hkeys].
    unfold jm_keys, jm_values. rewrite <- list_fmap_compose. apply list_fmap_ext. intros i [k s] Hi.
    apply Hk. apply jm_lookup_entries; [done|]. by eapply list_elem_of_lookup_2.
  - intros s [k Hs]%jm_elem_of_values; [|done]. by destruct (Hfrom k s Hs).
  - intros c Hc. destruct (Hto (scope_text (scope_of c))) as [s Hs]; [right; eauto|].
    exists s. split; [apply jm_elem_of_values; eauto | symmetry; by apply Hk].
Qed.

Lemma performs_recovery action commands :
  performs (if decide (action = act_reconcile)
            then for_each reconcile_scope (jm_values (fold_left add_scope (eligible action commands) ∅))
            else for_each (recover_one action) (eligible action commands)) (recovery_plan action commands).
Proof.
  unfold recovery_plan. destruct (decide (action = act_reconcile)).
  - apply performs_for_each, performs_reconcile_scope.
  - rewrite <- concat_singletons. apply performs_for_each, performs_recover_one.
Qed.

(** A recovery action on durable commands. It touches only the commands whose
    state offers the action, in the order given; a reconciliation asks for friend requests
    and then for relationships of each scope among them, once per scope. The calls are made
    in that order and stop at the first one that fails, whose failure is the outcome. The
    reconciliation is woken exactly once, after all calls succeeded and only if there was
    something to do. *)
Theorem applyReliabilityCommandRecoveryAction_correct action commands p :
  (forall c, c ∈ eligible action commands <-> c ∈ commands /\ action ∈ reliabilityCommandRecoveryActions c)
  /\ (let scopes := scopes_of (eligible action commands) in
      NoDup (scope_text <$> scopes)
      /\ (forall s, s ∈ scopes -> exists c, c ∈ eligible action commands /\ s = scope_of c)
      /\ (forall c, c ∈ eligible action commands -> exists s, s ∈ scopes /\ scope_text s = scope_text (scope_of c)))
  /\ match applyReliabilityCommandRecoveryAction action commands p with
     | (p', Ok _) =>
         calls p' = calls p ++ recovery_plan action commands
         /\ wakes p' = (wakes p + match eligible action commands, reliabilityReconciliationWake p' with _ :: _, Some _ => 1 | _, _ => 0 end)%nat
     | (p', Err _) =>
         (exists done_ c rest, recovery_plan action commands = done_ ++ c :: rest /\ calls p' = calls p ++ done_ ++ [c])
         /\ wakes p' = wakes p
     end.
Proof.
  split_and!; try apply scopes_of_spec.
  - intros c. unfold eligible. rewrite list_elem_of_filter. tauto.
  - unfold applyReliabilityCommandRecoveryAction. pose proof (performs_recovery action commands p) as [Hw Hr].
    destruct (decide (eligible action commands = [])) as [He|Hne].
    + assert (Hplan : recovery_plan action commands = []) by (unfold recovery_plan; rewrite He; by destruct (decide _)).
      cbn. rewrite Hplan, He, app_nil_r. split; [done | lia].
    + unfold mbind, op_bind. destruct (_ p) as [p1 [u|x]]; cbn [fst] in *; [|by split].
      cbn. unfold notifyReliabilityCommandChanged. destruct (eligible action commands); [done|].
      destruct (reliabilityReconciliationWake p1) as [w|] eqn:Hwake; cbn; rewrite ?Hwake.
      * rewrite calls_of_app, count_app, app_nil_r, Hw. by split.
      * split; [done | lia].
Qed.

(** ** The retry timer *)
Definition retry_at (c : CommandProjection) : option Z :=
  match state c with Some failed_retryable => nextAttemptAtMs c | _ => None end.

Lemma earliest_of_spec commands from :
  match fold_left earliest_of commands from with
  | None => from = None /\ forall c, c ∈ commands -> retry_at c = None
  | Some t => (from = Some t \/ exists c, c ∈ commands /\ retry_at c = Some t)
              /\ (forall t', from = Some t' -> t <= t') /\ forall c t', c ∈ commands -> retry_at c = Some t' -> t <= t'
  end.
Proof.
  revert from. induction commands as [|c commands IH]; intros from.
  - cbn. destruct from; [|by split; [|intros ? []%elem_of_nil]]. split_and!; [by left | by intros ? [= ->] | by intros ?? []%elem_of_nil].
  - cbn [fold_left]. specialize (IH (earliest_of from c)).
    assert (Hstep : earliest_of from c = match retry_at c with None => from | Some t => Some (match from with None => t | Some e => Z.min e t end) end).
    { unfold earliest_of, retry_at. destruct (state c) as [[]|]; try done; by destruct (nextAttemptAtMs c). }
    rewrite Hstep in *. destruct (fold_left earliest_of commands _) as [t|].
    + destruct IH as (Hfrom & Hle & Hall). split_and!.
      * destruct Hfrom as [Hfrom|(c' & ? & ?)]; [|right; exists c'; set_solver].
        destruct (retry_at c) as [tc|] eqn:Hc; [|by left]. destruct from as [e|]; injection Hfrom as <-; [|right; exists c; set_solver].
        destruct (Z.min_spec e tc) as [[_ ->]|[_ ->]]; [by left | right; exists c; set_solver].
      * intros t' ->. destruct (retry_at c) as [tc|]; specialize (Hle _ eq_refl); lia.
      * intros c' t' [->|Hin]%elem_of_cons Hc'; [|by eapply Hall]. rewrite Hc' in Hle. specialize (Hle _ eq_refl). destruct from; lia.
    + destruct IH as [Hfrom Hall]. destruct (retry_at c) eqn:Hc; [done|]. split; [done|]. intros c' [->|?]%elem_of_cons; auto.
Qed.

(** C40: the delay of the retry timer. There is one exactly when some command waits to be
    retried at a time; it then is the time to the earliest such command, cut to between 0
    and the largest delay, which fits the 32-bit signed delay of a timer. *)
Theorem nextReliabilityRetryDelay_correct commands nowMs :
  match nextReliabilityRetryDelay commands nowMs with
  | None => forall c, c ∈ commands -> retry_at c = None
  | Some d =>
      0 <= d < 2 ^ 31
      /\ exists c t, c ∈ commands /\ retry_at c = Some t /\ (forall c' t', c' ∈ commands -> retry_at c' = Some t' -> t <= t')
         /\ d = Z.min MAX_RELIABILITY_TIMER_DELAY_MS (Z.max 0 (t - nowMs))
  end.
Proof.
  unfold nextReliabilityRetryDelay. pose proof (earliest_of_spec commands None) as Hs.
  destruct (fold_left earliest_of commands None) as [t|]; [|by destruct Hs].
  destruct Hs as ([?|(c & Hc & Ht)] & _ & Hall); [done|]. split; [unfold MAX_RELIABILITY_TIMER_DELAY_MS; lia|]. by exists c, t.
Qed.

(** ** Projection checkpoints *)
Lemma act_applications a p : projectionCheckpointApplications (act a p) = projectionCheckpointApplications p.
Proof.
  destruct a as [a c|a c|e|a loaded|e| |w|w]; cbn [act]; try done.
  - unfold registerDraftRestorationConsumer. destruct (jm_has _ _); [done|]. cbn.
    destruct (pendingDraftRestorations p !! _); [|done]. unfold consume. by destruct (consumer_throws _ _ _).
  - unfold releaseDraftRestorationConsumer. by destruct (decide _).
  - unfold deliverRestoredDraft. destruct (assertRestorableDraftEnvelope e); [|done]. cbn.
    destruct (draftRestorationConsumers p !! _); [|by destruct (negb _)]. unfold consume. by destruct (consumer_throws _ _ _).
  - unfold load_settled. destruct loaded as [e|]; [by destruct (assertRestorableDraftEnvelope e) | by destruct (jm_has _ _)].
  - unfold registerReliabilityReconciliationWake. by destruct (reliabilityReconciliationWake p).
  - unfold releaseReliabilityReconciliationWake. by destruct (decide _).
Qed.

Lemma apply_checkpoints_applications station actor generation p :
  projectionCheckpointApplications (apply_checkpoints station actor generation p).1 = projectionCheckpointApplications p.
Proof.
  assert (Hk : keeps (fun q => projectionCheckpointApplications q = projectionCheckpointApplications p) (apply_checkpoints station actor generation)).
  { assert (Hinv : forall A (c : Call A), keeps (fun q => projectionCheckpointApplications q = projectionCheckpointApplications p) (invoke c)).
    { intros A c. apply keeps_invoke; [|done]. intros a q <-. apply act_applications. }
    apply keeps_bind; [apply Hinv|]. intros cps. destruct (decide (cps = [])); [apply keeps_ret|].
    apply keeps_bind; [apply Hinv|]. intros _. apply keeps_bind; [|intros; apply keeps_ret].
    apply keeps_for_each. intros c. apply Hinv. }
  by apply Hk.
Qed.

Definition acknowledgements (station actor : string) (cps : list ReliabilityCheckpointProjection) : list {A : Type & Call A} :=
  (fun c => the_call (reliability_acknowledge_projection station actor (c_commandId c) (payloadSha256 c))) <$> cps.

Lemma performs_apply station actor cps :
  performs (_ ← invoke applyProjection;
            _ ← for_each (fun c => acknowledgeReliabilityProjection station actor (c_commandId c) (payloadSha256 c)) cps;
            mret (Z.of_nat (length cps)) : Op Process Z)
    (the_call applyProjection :: acknowledgements station actor cps).
Proof.
  change (the_call applyProjection :: acknowledgements station actor cps) with ([the_call applyProjection] ++ acknowledgements station actor cps).
  rewrite <- (app_nil_r (acknowledgements station actor cps)). unfold acknowledgements. rewrite <- concat_singletons.
  apply performs_bind; [apply performs_invoke|]. intros _. apply performs_bind; [|intros; apply performs_ret].
  apply performs_for_each. intros c. apply performs_invoke.
Qed.

(** Applying projection checkpoints. While an application of the same scope is
    under way the call joins it and makes no call of its own. Otherwise it lists the
    checkpoints, and when there are any it applies the projection and only then acknowledges
    them, each once and in order, stopping at the first failure: an unapplied projection is
    never acknowledged. It returns the number of checkpoints exactly when all were
    acknowledged, and the scope is free for the next application however it ended, while
    applications of other scopes are left alone. *)
Theorem applyReliabilityProjectionCheckpoints_correct station actor generation p :
  let key := application_key station actor generation in
  match applyReliabilityProjectionCheckpoints station actor generation p with
  | (p', joined id) => projectionCheckpointApplications p !! key = Some id /\ p' = p
  | (p', ran count) =>
      projectionCheckpointApplications p !! key = None
      /\ (forall k, projectionCheckpointApplications p' !! k = projectionCheckpointApplications p !! k)
      /\ let listing := the_call (reliability_list_projection_checkpoints station actor generation) in
         match answer _ (trace p) (reliability_list_projection_checkpoints station actor generation), count with
         | Err m, Err m' => m' = m /\ calls p' = calls p ++ [listing]
         | Ok [], Ok n => n = 0 /\ calls p' = calls p ++ [listing]
         | Ok cps, Ok n => n = Z.of_nat (length cps)
             /\ calls p' = calls p ++ listing :: the_call applyProjection :: acknowledgements station actor cps
         | Ok cps, Err _ => exists done_ c rest,
             the_call applyProjection :: acknowledgements station actor cps = done_ ++ c :: rest
             /\ calls p' = calls p ++ listing :: done_ ++ [c]
         | Err _, Ok _ => False
         end
  end.
Proof.
  intros key. unfold applyReliabilityProjectionCheckpoints. fold key.
  destruct (projectionCheckpointApplications p !! key) as [id|] eqn:Hnone; [done|].
  set (p1 := set_applications _ _ p). pose proof (apply_checkpoints_applications station actor generation p1) as Happ.
  destruct (apply_checkpoints station actor generation p1) as [p2 count] eqn:Hrun. cbn [fst] in Happ.
  assert (Hmine : projectionCheckpointApplications p2 !! key = Some (next_application p)) by (rewrite Happ; apply jm_lookup_set_eq).
  rewrite decide_True by done. split_and!; [done| |].
  - intros k. cbn. rewrite jm_lookup_delete, Happ. cbn. rewrite jm_lookup_set. by destruct (decide (key = k)) as [<-|].
  - change (calls_of (trace (set_applications (delete key (projectionCheckpointApplications p2)) (next_application p2) p2))) with (calls p2).
    revert Hrun. unfold apply_checkpoints, mbind at 1, op_bind at 1.
    pose proof (performs_invoke (reliability_list_projection_checkpoints station actor generation) p1) as [_ Hl].
    unfold listReliabilityProjectionCheckpoints. rewrite invoke_eq in Hl |- *. cbn [trace p1 set_applications] in *.
    set (q := acts _ _) in *. destruct (answer _ (trace p) _) as [cps|m].
    + destruct cps as [|cp cps]; [intros [= <- <-]; by rewrite Hl|]. rewrite decide_False by done.
      pose proof (performs_apply station actor (cp :: cps) q) as [_ Hr]. intros Hrun. rewrite Hrun in Hr.
      assert (Hlen : forall n, count = Ok n -> n = Z.of_nat (length (cp :: cps))).
      { intros n ->. revert Hrun. unfold mbind, op_bind. destruct (invoke applyProjection q) as [q1 [u|x]]; [|done].
        destruct (for_each _ _ q1) as [q2 [u'|x]]; [|done]. by intros [= _ <-]. }
      destruct count as [n|x]; rewrite Hl in Hr.
      * rewrite <- (assoc_L (++)) in Hr. split; [by apply Hlen | exact Hr].
      * destruct Hr as (done_ & c & rest & Hplan & Hr). exists done_, c, rest. split; [exact Hplan|]. by rewrite Hr, <- !(assoc_L (++)).
    + intros [= <- <-]. split; [done|]. destruct Hl as (done_ & c & rest & Hplan & Hl). rewrite Hl.
      destruct done_ as [|? [|]]; [by injection Hplan as <- _ | done..].
Qed.

(** ** Restoring drafts *)
Definition answers_for (d : DraftProjection) e : Prop :=
  envelopeRestorationKey e = envelopeRestorationKey (d_envelope d) /\ payload_matches e = true.

Lemma bind_ok_op {A B} (m : Op Process A) (k : A -> Op Process B) p p' b :
  (m ≫= k) p = (p', Ok b) -> exists p1 a, m p = (p1, Ok a) /\ k a p1 = (p', Ok b).
Proof. unfold mbind, op_bind. destruct (m p) as [p1 [a|x]]; [eauto | done]. Qed.

Lemma load_restored_ok drafts p p' l : load_restored drafts p = (p', Ok l) -> Forall2 answers_for drafts l.
Proof.
  revert p p' l. induction drafts as [|d drafts IH]; intros p p' l; [by intros [= _ <-]; constructor|].
  cbn [load_restored]. intros (p1 & [e|] & _ & Hr)%bind_ok_op; [|done].
  destruct (decide _) as [|Hkey]; [done|]. apply bind_ok_op in Hr as (p2 & u & Hm & Hr). apply bind_ok_op in Hr as (p3 & others & Hload & Hr).
  injection Hr as _ <-. constructor; [|by eapply IH].
  split; [by apply dec_stable|]. unfold lift, assertRestorableDraftEnvelope in Hm. by destruct (payload_matches e).
Qed.

Lemma deliver_traces e p : payload_matches e = true -> exists k, trace (deliverRestoredDraft e p).1 = trace p ++ restored (envelopeRestorationKey e) e :: k.
Proof.
  intros Hm. unfold deliverRestoredDraft, assertRestorableDraftEnvelope. rewrite Hm. cbn.
  destruct (draftRestorationConsumers p !! _) as [c|]; [|by exists []; destruct (negb _)].
  unfold consume. destruct (consumer_throws _ c e); cbn; rewrite <- (assoc_L (++)); eauto.
Qed.

Lemma deliver_all l p p' r :
  Forall (fun e => payload_matches e = true) l -> for_each (deliverRestoredDraft : _ -> Op Process unit) l p = (p', r) ->
  match r with
  | Ok _ => Forall (fun e => restored (envelopeRestorationKey e) e ∈ trace p') l
  | Err m => exists before e after p1, l = before ++ e :: after /\ for_each (deliverRestoredDraft : _ -> Op Process unit) before p = (p1, Ok tt)
      /\ deliverRestoredDraft e p1 = (p', Err m) /\ pendingDraftRestorations p' !! envelopeRestorationKey e = Some e
  end /\ exists k, trace p' = trace p ++ k.
Proof.
  intros Hl. revert p. induction Hl as [|e l He Hl IH]; intros p; cbn [for_each].
  - intros [= <- <-]. split; [done|]. exists []. by rewrite app_nil_r.
  - unfold mbind, op_bind. destruct (deliver_traces e p He) as [k Hk].
    destruct (deliverRestoredDraft e p) as [p1 [u|m]] eqn:Hd; cbn [fst] in Hk.
    + intros Hrun. destruct (IH p1 Hrun) as [Hr [k' Hk']]. split; [|rewrite Hk', Hk, <- (assoc_L (++)); eauto].
      destruct r as [u'|m].
      * constructor; [|done]. rewrite Hk', Hk. set_solver.
      * destruct Hr as (before & e' & after & p2 & -> & Hb & He' & Hp). exists (e :: before), e', after, p2.
        split_and!; [done| |done..]. cbn [for_each]. unfold mbind, op_bind. by rewrite Hd, Hb.
    + intros [= <- <-]. split; [|eauto]. exists [], e, l, p. split_and!; try done.
      pose proof (deliver_waits e p He) as Hw. cbn [act] in Hw. rewrite Hd in Hw. apply Hw. by right.
Qed.

(** Restoring drafts is all or nothing up to the hand-over. Every draft is loaded
    again and checked first; if one is missing, belongs to another address or has the wrong
    payload, the operation ends there and hands over nothing. When it succeeds, the result
    holds for each draft, in order, an envelope of its own address with a payload of its
    surface, and each was handed on. A composer that throws stops the hand-over: the drafts
    before its own were handed on and its own keeps waiting. *)
Theorem restoreReliabilityDrafts_correct drafts p :
  match load_restored drafts p with
  | (p1, Err m) => restoreReliabilityDrafts drafts p = (p1, Err m)
  | (p1, Ok l) =>
      Forall2 answers_for drafts l
      /\ match restoreReliabilityDrafts drafts p with
         | (p', Ok l') => l' = l /\ Forall (fun e => restored (envelopeRestorationKey e) e ∈ trace p') l
         | (p', Err m) => exists before e after p2,
             l = before ++ e :: after /\ for_each (deliverRestoredDraft : _ -> Op Process unit) before p1 = (p2, Ok tt)
             /\ deliverRestoredDraft e p2 = (p', Err m) /\ pendingDraftRestorations p' !! envelopeRestorationKey e = Some e
         end
  end.
Proof.
  unfold restoreReliabilityDrafts, mbind, op_bind. destruct (load_restored drafts p) as [p1 [l|m]] eqn:Hload; [|done].
  pose proof (load_restored_ok _ _ _ _ Hload) as Hall. split; [done|].
  assert (Hm : Forall (fun e => payload_matches e = true) l).
  { apply Forall_forall. intros e [i Hi]%list_elem_of_lookup_1. destruct (Forall2_lookup_r _ _ _ _ _ Hall Hi) as (d & _ & _ & ?). done. }
  destruct (for_each _ l p1) as [p2 r] eqn:Hrun.
  pose proof (deliver_all l p1 p2 r Hm Hrun) as [Hr _]. destruct r as [u|m]; [by split | exact Hr].
Qed.
End facts.

(** ** A concrete run *)
Module CommandDemo.
(** The store holds one draft; consumer 1 throws, the others accept. *)
Definition draft : MobileDraftEnvelopeV2 := {|
  stationPeerId := "station"; actorPtid := "ann"; surfaceKind := MOMENT_COMPOSER; targetId := "m"; updatedAt := None; payload := payload_moment 0 |}.

#[local] Instance native : Native := {|
  answer A _ c := match c with draft_load _ => Ok (Some [1]) | _ => Err "offline" end;
  meanwhile _ := [register_wake 0];
  draft_fromBinary _ := Ok draft;
  draft_toBinary _ := [1];
  command_fromBinary _ := Err "none";
  consumer_throws _ c _ := if decide (c = 1%nat) then Some "busy"%string else None
|}.

(** Nobody is there when the draft is restored; the first composer throws, the second one
    takes it, and a later registration gets nothing. *)
Definition history : list Operation :=
  [do_restore [draftProjection draft]; do_act (register_consumer (address_of draft) 1);
   do_act (register_consumer (address_of draft) 2); do_act (release_consumer (address_of draft) 2);
   do_act (register_consumer (address_of draft) 3)].

Example history_hands_over_once :
  let p := run_operations history new_process in
  count (is_handed (envelopeRestorationKey draft)) (trace p) = 1%nat
  /\ draftRestorationConsumers p !! envelopeRestorationKey draft = Some 3%nat
  /\ pendingDraftRestorations p !! envelopeRestorationKey draft = None.
Proof. split_and!; vm_compute; reflexivity. Qed.

Lemma draft_handover_witness :
  let key := envelopeRestorationKey draft in
  match registerDraftRestorationConsumer (address_of draft) 2 (act (deliver draft) new_process) with
  | (p2, Ok _) => last (trace p2) = Some (handed key 2 draft) /\ draftRestorationConsumers p2 !! key = Some 2%nat
                  /\ pendingDraftRestorations p2 !! key = None
  | (p2, Err _) => pendingDraftRestorations p2 !! key = Some draft /\ draftRestorationConsumers p2 !! key = None
  end.
Proof.
  apply (proj1 (proj2 (draft_handover [])) new_process draft (address_of draft) 2%nat []).
  - reflexivity.
  - reflexivity.
  - left. split; [reflexivity | apply not_elem_of_nil].
  - constructor.
  - vm_compute. reflexivity.
Defined.
End CommandDemo.
