(* ===== verification/CallState.v ===== *)
(** * The call manager of the mobile app

    Models [MobileCallManager] of [apps/mobile/src/features/call/callState.ts]. An operation
    keeps the [ActiveCall] object it started with while [this.call] may change under it, so
    calls, peer connections and media streams are objects on a heap, addressed by their
    index. Operations run one at a time ([enqueue]); while one awaits, timers fire,
    connections report, and the synchronous methods run ([CallEnv.meanwhile]). The native
    side, the station and WebRTC are the class [CallEnv], which answers arbitrarily. A
    listener that calls back is left out. *)
From Stdlib Require Import Ascii Lia ZArith.
From stdpp Require Import base numbers relations strings list sets pretty.
From S2P Require Import Prelude KeyedSort AsyncOp JsonValue.

Open Scope string_scope.
Open Scope list_scope.

(** ** Data *)
Inductive CallStateLifecycle : Set := idle | ringing_all_devices | outgoing | incoming | active_here | reconnecting | handled_elsewhere | ended.
Inductive CallMediaKind : Set := audio | video.
Inductive CallEndReason : Set := hangup | rejected | no_answer | busy | canceled | media_failed | network_failed | reason_handled_elsewhere.
Inductive Direction : Set := call_incoming | call_outgoing.
Inductive MobileCallSignalKind : Set := OFFER | ANSWER | CANDIDATE | HANGUP | CALL_REQUEST | CALL_ACCEPT | CALL_REJECT | CALL_END | CALL_NO_ANSWER.
Inductive RTCPeerConnectionState : Set := conn_new | connecting | connected | disconnected | conn_failed | conn_closed.

#[export] Instance CallStateLifecycle_eq_dec : EqDecision CallStateLifecycle.
Proof. solve_decision. Defined.
#[export] Instance CallMediaKind_eq_dec : EqDecision CallMediaKind.
Proof. solve_decision. Defined.
#[export] Instance Direction_eq_dec : EqDecision Direction.
Proof. solve_decision. Defined.
#[export] Instance SignalKind_eq_dec : EqDecision MobileCallSignalKind.
Proof. solve_decision. Defined.
#[export] Instance ConnectionState_eq_dec : EqDecision RTCPeerConnectionState.
Proof. solve_decision. Defined.

(** Streams and connections are addresses on the heap of the manager: [localStream] one of
    the streams that [getUserMedia] gave, [remoteStream] one of those made for the peer. *)
Record CallSnapshot : Set := {
  callId : string; mediaKind : CallMediaKind; state : CallStateLifecycle; startedAt : option Z; endReason : option CallEndReason;
  peerPtid : string; winningDeviceId : option string; localStream : option nat; remoteStream : option nat;
  micMuted : option bool; cameraOff : option bool
}.

Record RTCIceCandidateInit : Set := { candidate : string; sdpMid : option string; sdpMLineIndex : option Z }.

Record ActiveCall : Set := {
  direction : Direction; signalingSessionId : string; snapshot : CallSnapshot; peerConnection : option nat;
  pendingCandidates : list RTCIceCandidateInit; remoteDescriptionApplied : bool
}.

#[export] Instance ActiveCall_inhabited : Inhabited ActiveCall := populate {|
  direction := call_incoming; signalingSessionId := "";
  snapshot := {| callId := ""; mediaKind := audio; state := idle; startedAt := None; endReason := None; peerPtid := ""; winningDeviceId := None;
                 localStream := None; remoteStream := None; micMuted := None; cameraOff := None |};
  peerConnection := None; pendingCandidates := []; remoteDescriptionApplied := false |}.

Record Track : Set := { track_id : string; track_kind : CallMediaKind; enabled : bool; stopped : bool }.

(** [pc_call] is the call that the handlers of the connection belong to; [senders] are the
    tracks it sends. A closed connection is [conn_closed]. *)
Record RTCPeerConnection : Set := { pc_call : nat; connectionState : RTCPeerConnectionState; senders : list string }.

#[export] Instance RTCPeerConnection_inhabited : Inhabited RTCPeerConnection :=
  populate {| pc_call := 0; connectionState := conn_new; senders := [] |}.

(** Of a [MobileAuthSession]: its station and its actor. *)
Record Session : Set := { stationPeerId : string; ptid : string }.
Record MessagingStatus : Set := { ms_active : bool; ms_stationPeerId : option string; ms_actorPtid : option string; ms_deviceId : option string }.
Record Response : Set := { status : Z; responseText : string }.

Record CallSignal : Set := {
  signalKind : MobileCallSignalKind; sessionUlid : string; fromActorPtid : string; ev_callId : string; ev_winningDeviceId : string; payload : list Z
}.

(** ** What the manager asks for *)
Inductive StationOperation : Set :=
| realtime_signal_send (recipient_ptid session_ulid : string) (kind : MobileCallSignalKind) (payload_b64 call_id device_id : string)
| turn_ice_servers
| realtime_call_resolution_get (call_id peer_actor_ptid : string).

Inductive Call : Type -> Type :=
| messagingStatus : Call MessagingStatus
| getUserMedia (with_video : bool) : Call (list Track)
| messagingCallSignalSeal (s : Session) (peer sessionUlid : string) (kind : MobileCallSignalKind) (plaintext : list (string * Json)) : Call string
| messagingCallSignalOpen (s : Session) (peer sessionUlid : string) (kind : MobileCallSignalKind) (payload : list Z) : Call string
| executeStationOperation (s : Session) (op : StationOperation) : Call Response
| createOffer (pc : nat) : Call (option string)
| createAnswer (pc : nat) : Call (option string)
| setLocalDescription (pc : nat) (sdp : option string) : Call unit
| setRemoteDescription (pc : nat) (is_offer : bool) (sdp : string) : Call unit
| addIceCandidate (pc : nat) (c : RTCIceCandidateInit) : Call unit.

Inductive Event : Type :=
| called {A} (c : Call A)
| emitted (s : option CallSnapshot).

(** [ringTimer] and [reconnectTimer] hold the call that their closures name. *)
Record Manager : Type := {
  session : option Session; deviceId : string; call : option nat; ringTimer : option string; reconnectTimer : option string;
  calls : list ActiveCall; connections : list RTCPeerConnection; streams : list (list Track); remotes : list (list Track);
  trace : list Event
}.

Definition new_manager : Manager := {|
  session := None; deviceId := ""; call := None; ringTimer := None; reconnectTimer := None; calls := []; connections := []; streams := []; remotes := []; trace := [] |}.

(** What may happen while an operation awaits. *)
Inductive Interrupt : Set :=
| do_suspend | do_toggleMicrophone | do_toggleCamera | do_dismiss | do_reset
| do_activate (s : Session)
| do_activated (s : Session) (status : MessagingStatus)
| ring_fires | reconnect_fires
| connection_changes (pc : nat) (st : RTCPeerConnectionState)
| track_arrives (pc : nat) (t : Track).

Class CallEnv := {
  answer : forall A, list Event -> Call A -> result A;
  meanwhile : list Event -> list Interrupt;
  Date_now : list Event -> Z;
  createCallId : list Event -> string;
  mediaDevices : bool;
  JSON_parse : string -> result Json
}.

(** ** Fields *)
Definition set_session (s : option Session) (d : string) (m : Manager) : Manager := {|
  session := s; deviceId := d; call := call m; ringTimer := ringTimer m; reconnectTimer := reconnectTimer m;
  calls := calls m; connections := connections m; streams := streams m; remotes := remotes m; trace := trace m |}.
Definition set_call (c : option nat) (m : Manager) : Manager := {|
  session := session m; deviceId := deviceId m; call := c; ringTimer := ringTimer m; reconnectTimer := reconnectTimer m;
  calls := calls m; connections := connections m; streams := streams m; remotes := remotes m; trace := trace m |}.
Definition set_ring (t : option string) (m : Manager) : Manager := {|
  session := session m; deviceId := deviceId m; call := call m; ringTimer := t; reconnectTimer := reconnectTimer m;
  calls := calls m; connections := connections m; streams := streams m; remotes := remotes m; trace := trace m |}.
Definition set_reconnect (t : option string) (m : Manager) : Manager := {|
  session := session m; deviceId := deviceId m; call := call m; ringTimer := ringTimer m; reconnectTimer := t;
  calls := calls m; connections := connections m; streams := streams m; remotes := remotes m; trace := trace m |}.
Definition set_heap (cs : list ActiveCall) (ps : list RTCPeerConnection) (ss : list (list Track)) (m : Manager) : Manager := {|
  session := session m; deviceId := deviceId m; call := call m; ringTimer := ringTimer m; reconnectTimer := reconnectTimer m;
  calls := cs; connections := ps; streams := ss; remotes := remotes m; trace := trace m |}.
Definition set_remotes (rs : list (list Track)) (m : Manager) : Manager := {|
  session := session m; deviceId := deviceId m; call := call m; ringTimer := ringTimer m; reconnectTimer := reconnectTimer m;
  calls := calls m; connections := connections m; streams := streams m; remotes := rs; trace := trace m |}.
Definition record (e : Event) (m : Manager) : Manager := {|
  session := session m; deviceId := deviceId m; call := call m; ringTimer := ringTimer m; reconnectTimer := reconnectTimer m;
  calls := calls m; connections := connections m; streams := streams m; remotes := remotes m; trace := trace m ++ [e] |}.

Definition the (m : Manager) (id : nat) : ActiveCall := calls m !!! id.
Definition put (id : nat) (c : ActiveCall) (m : Manager) : Manager := set_heap (<[id := c]> (calls m)) (connections m) (streams m) m.
Definition put_connection (pc : nat) (c : RTCPeerConnection) (m : Manager) : Manager :=
  set_heap (calls m) (<[pc := c]> (connections m)) (streams m) m.
Definition put_stream (s : nat) (l : list Track) (m : Manager) : Manager := set_heap (calls m) (connections m) (<[s := l]> (streams m)) m.

Definition with_snapshot (s : CallSnapshot) (c : ActiveCall) : ActiveCall := {|
  direction := direction c; signalingSessionId := signalingSessionId c; snapshot := s; peerConnection := peerConnection c;
  pendingCandidates := pendingCandidates c; remoteDescriptionApplied := remoteDescriptionApplied c |}.
Definition with_connection (pc : option nat) (pending : list RTCIceCandidateInit) (applied : bool) (c : ActiveCall) : ActiveCall := {|
  direction := direction c; signalingSessionId := signalingSessionId c; snapshot := snapshot c; peerConnection := pc;
  pendingCandidates := pending; remoteDescriptionApplied := applied |}.

(** [{ ...snapshot, state }] and the like. *)
Definition with_state (st : CallStateLifecycle) (s : CallSnapshot) : CallSnapshot := {|
  callId := callId s; mediaKind := mediaKind s; state := st; startedAt := startedAt s; endReason := endReason s; peerPtid := peerPtid s;
  winningDeviceId := winningDeviceId s; localStream := localStream s; remoteStream := remoteStream s; micMuted := micMuted s; cameraOff := cameraOff s |}.
Definition with_start (at_ : option Z) (s : CallSnapshot) : CallSnapshot := {|
  callId := callId s; mediaKind := mediaKind s; state := state s; startedAt := at_; endReason := endReason s; peerPtid := peerPtid s;
  winningDeviceId := winningDeviceId s; localStream := localStream s; remoteStream := remoteStream s; micMuted := micMuted s; cameraOff := cameraOff s |}.
Definition with_reason (r : option CallEndReason) (s : CallSnapshot) : CallSnapshot := {|
  callId := callId s; mediaKind := mediaKind s; state := state s; startedAt := startedAt s; endReason := r; peerPtid := peerPtid s;
  winningDeviceId := winningDeviceId s; localStream := localStream s; remoteStream := remoteStream s; micMuted := micMuted s; cameraOff := cameraOff s |}.
Definition with_winner (w : option string) (s : CallSnapshot) : CallSnapshot := {|
  callId := callId s; mediaKind := mediaKind s; state := state s; startedAt := startedAt s; endReason := endReason s; peerPtid := peerPtid s;
  winningDeviceId := w; localStream := localStream s; remoteStream := remoteStream s; micMuted := micMuted s; cameraOff := cameraOff s |}.
Definition with_streams (l r : option nat) (s : CallSnapshot) : CallSnapshot := {|
  callId := callId s; mediaKind := mediaKind s; state := state s; startedAt := startedAt s; endReason := endReason s; peerPtid := peerPtid s;
  winningDeviceId := winningDeviceId s; localStream := l; remoteStream := r; micMuted := micMuted s; cameraOff := cameraOff s |}.
Definition with_toggles (mic cam : option bool) (s : CallSnapshot) : CallSnapshot := {|
  callId := callId s; mediaKind := mediaKind s; state := state s; startedAt := startedAt s; endReason := endReason s; peerPtid := peerPtid s;
  winningDeviceId := winningDeviceId s; localStream := localStream s; remoteStream := remoteStream s; micMuted := mic; cameraOff := cam |}.

Definition update (f : CallSnapshot -> CallSnapshot) (id : nat) (m : Manager) : Manager :=
  put id (with_snapshot (f (snapshot (the m id))) (the m id)) m.

(** ** The synchronous parts *)
Definition current (m : Manager) : option ActiveCall := the m <$> call m.

Definition getSnapshot (m : Manager) : option CallSnapshot := snapshot <$> current m.

Definition emit (m : Manager) : Manager := record (emitted (getSnapshot m)) m.

Definition isIncoming (s : CallStateLifecycle) : bool := match s with incoming | ringing_all_devices => true | _ => false end.
Definition isTerminal (s : CallStateLifecycle) : bool := match s with idle | ended | handled_elsewhere => true | _ => false end.

Definition clearRingTimeout (m : Manager) : Manager := set_ring None m.
Definition clearReconnectTimeout (m : Manager) : Manager := set_reconnect None m.
Definition armRingTimeout (callId : string) (m : Manager) : Manager := set_ring (Some callId) m.

Definition stop_track (t : Track) : Track := {| track_id := track_id t; track_kind := track_kind t; enabled := enabled t; stopped := true |}.
Definition stop_local (s : option nat) (m : Manager) : Manager :=
  match s with Some s => put_stream s (stop_track <$> streams m !!! s) m | None => m end.
Definition stop_remote (s : option nat) (m : Manager) : Manager :=
  match s with Some s => set_remotes (<[s := stop_track <$> remotes m !!! s]> (remotes m)) m | None => m end.

Definition close_connection (pc : option nat) (m : Manager) : Manager :=
  match pc with
  | Some pc => put_connection pc {| pc_call := pc_call (connections m !!! pc); connectionState := conn_closed; senders := senders (connections m !!! pc) |} m
  | None => m
  end.

Definition releaseMedia (m : Manager) : Manager :=
  match call m with
  | None => m
  | Some id =>
      let c := the m id in
      let m := stop_local (localStream (snapshot c)) m in
      let m := stop_remote (remoteStream (snapshot c)) m in
      let m := close_connection (peerConnection c) m in
      put id (with_connection None [] false c) m
  end.

Definition endLocal (reason : CallEndReason) (m : Manager) : Manager :=
  match call m with
  | None => m
  | Some id =>
      let m := releaseMedia (clearReconnectTimeout (clearRingTimeout m)) in
      emit (update (fun s => with_streams None None (with_reason (Some reason) (with_state ended s))) id m)
  end.

Definition markHandledElsewhere (winner : string) (m : Manager) : Manager :=
  match call m with
  | None => m
  | Some id =>
      let m := releaseMedia (clearRingTimeout m) in
      emit (update (fun s => with_streams None None (with_winner (Some winner) (with_reason (Some reason_handled_elsewhere) (with_state handled_elsewhere s)))) id m)
  end.

Definition enterReconnect (id : nat) (m : Manager) : Manager :=
  let s := state (snapshot (the m id)) in
  if bool_decide (s <> active_here) && bool_decide (s <> reconnecting) then m
  else
    let m := if decide (s <> reconnecting) then emit (update (with_state reconnecting) id m) else m in
    match reconnectTimer m with
    | Some _ => m
    | None => set_reconnect (Some (callId (snapshot (the m id)))) m
    end.

Definition suspend (m : Manager) : Manager :=
  match call m with
  | Some id => if decide (state (snapshot (the m id)) = active_here) then emit (update (with_state reconnecting) id m) else m
  | None => m
  end.

(** [!x] of an optional boolean. *)
Definition flip (b : option bool) : bool := negb (default false b).

Definition set_enabled (kind : CallMediaKind) (on : bool) (t : Track) : Track :=
  if decide (track_kind t = kind)
  then {| track_id := track_id t; track_kind := track_kind t; enabled := on; stopped := stopped t |} else t.

Definition toggleMicrophone (m : Manager) : Manager :=
  match call m with
  | None => m
  | Some id =>
      let s := snapshot (the m id) in
      match localStream s with
      | None => m
      | Some stream =>
          let muted := flip (micMuted s) in
          let m := put_stream stream (set_enabled audio (negb muted) <$> streams m !!! stream) m in
          emit (update (with_toggles (Some muted) (cameraOff s)) id m)
      end
  end.

Definition toggleCamera (m : Manager) : Manager :=
  match call m with
  | None => m
  | Some id =>
      let s := snapshot (the m id) in
      match localStream s with
      | Some stream =>
          if decide (mediaKind s <> video) then m
          else
            let off := flip (cameraOff s) in
            let m := put_stream stream (set_enabled video (negb off) <$> streams m !!! stream) m in
            emit (update (with_toggles (micMuted s) (Some off)) id m)
      | None => m
      end
  end.

Definition dismiss (m : Manager) : Manager :=
  match current m with
  | Some c => if isTerminal (state (snapshot c)) then emit (set_call None (releaseMedia m)) else m
  | None => m
  end.

Definition reset (m : Manager) : Manager :=
  emit (set_session None "" (set_call None (releaseMedia (clearReconnectTimeout (clearRingTimeout m))))).

(** [activate] up to its await, and after it. *)
Definition activate_begin (s : Session) (m : Manager) : Manager :=
  let m := match session m with
           | Some old => if bool_decide (stationPeerId old <> stationPeerId s) || bool_decide (ptid old <> ptid s) then reset m else m
           | None => m
           end in
  set_session (Some s) (deviceId m) m.

Definition activate_end (s : Session) (st : MessagingStatus) (m : Manager) : Manager * result unit :=
  if negb (ms_active st) || bool_decide (ms_stationPeerId st <> Some (stationPeerId s)) || bool_decide (ms_actorPtid st <> Some (ptid s))
     || negb (truthy (default "" (ms_deviceId st)))
  then (m, Err "mobile.call.messagingEndpointUnavailable")
  else (set_session (session m) (default "" (ms_deviceId st)) m, Ok tt).

(** The callbacks of the timers. *)
Definition ring_timer (m : Manager) : Manager :=
  match ringTimer m with
  | None => m
  | Some armed =>
      let m := set_ring None m in
      match current m with
      | Some c =>
          if bool_decide (callId (snapshot c) = armed) && (bool_decide (state (snapshot c) = outgoing) || isIncoming (state (snapshot c)))
          then endLocal no_answer m else m
      | None => m
      end
  end.

Definition reconnect_timer (m : Manager) : Manager :=
  match reconnectTimer m with
  | None => m
  | Some armed =>
      let m := set_reconnect None m in
      match current m with
      | Some c => if decide (callId (snapshot c) = armed) then endLocal network_failed m else m
      | None => m
      end
  end.

(** [onconnectionstatechange]; a closed connection reports nothing. *)
Definition onconnectionstatechange (pc : nat) (st : RTCPeerConnectionState) (m : Manager) : Manager :=
  match connections m !! pc with
  | None => m
  | Some c =>
      if decide (connectionState c = conn_closed) then m
      else
        let m := put_connection pc {| pc_call := pc_call c; connectionState := st; senders := senders c |} m in
        match st with
        | connected =>
            let m := clearReconnectTimeout m in
            if decide (state (snapshot (the m (pc_call c))) = reconnecting) then emit (update (with_state active_here) (pc_call c) m) else m
        | disconnected | conn_failed => enterReconnect (pc_call c) m
        | _ => m
        end
  end.

Definition ontrack (pc : nat) (t : Track) (m : Manager) : Manager :=
  match connections m !! pc with
  | None => m
  | Some c =>
      if decide (connectionState c = conn_closed) then m
      else
        let id := pc_call c in
        let (remote, m) := match remoteStream (snapshot (the m id)) with
                           | Some s => (s, m)
                           | None => (length (remotes m), set_remotes (remotes m ++ [[]]) m)
                           end in
        let known := existsb (fun x => bool_decide (track_id x = track_id t)) (remotes m !!! remote) in
        let m := if known then m else set_remotes (<[remote := remotes m !!! remote ++ [t]]> (remotes m)) m in
        emit (update (fun s => with_streams (localStream s) (Some remote) s) id m)
  end.

Definition interrupt (i : Interrupt) (m : Manager) : Manager :=
  match i with
  | do_suspend => suspend m
  | do_toggleMicrophone => toggleMicrophone m
  | do_toggleCamera => toggleCamera m
  | do_dismiss => dismiss m
  | do_reset => reset m
  | do_activate s => activate_begin s m
  | do_activated s st => (activate_end s st m).1
  | ring_fires => ring_timer m
  | reconnect_fires => reconnect_timer m
  | connection_changes pc st => onconnectionstatechange pc st m
  | track_arrives pc t => ontrack pc t m
  end.

(** ** Operations *)
Definition is_success (r : Response) : bool := (200 <=? status r)%Z && (status r <? 300)%Z.

(** [a || b] of strings. *)
Definition or_else (a b : string) : string := if truthy a then a else b.

Section manager.
Context `{CallEnv} `{Locale}.

Definition ask {A} (c : Call A) : Op Manager A :=
  await (fun c => record (called c)) interrupt (fun m => meanwhile (trace m)) c (fun m => answer A (trace m) c).

Definition requireSession : Op Manager Session := fun m =>
  match session m with Some s => (m, Ok s) | None => (m, Err "mobile.call.runtimeUnavailable") end.

Definition requireDeviceId : Op Manager string := fun m =>
  if truthy (deviceId m) then (m, Ok (deviceId m)) else (m, Err "mobile.call.deviceUnavailable").

Definition requireIdle : Op Manager unit := fun m =>
  match current m with
  | Some c =>
      if negb (isTerminal (state (snapshot c))) then (m, Err "mobile.call.alreadyActive")
      else (set_call None (releaseMedia m), Ok tt)
  | None => (set_call None (releaseMedia m), Ok tt)
  end.

(** [JSON.parse] of the body, as [stationTransport.ts] reads it. *)
Definition responseJson (r : Response) : Json :=
  if negb (truthy (responseText r)) then jobject []
  else match JSON_parse (responseText r) with Ok v => v | Err _ => jobject [("message", jstring (responseText r))] end.

Definition deriveSignalingSessionId (left right : string) : string := join "-" (sort_with localeCompare [left; right]).

Definition parseSignalPayload (plaintext : string) : result Json :=
  v ← JSON_parse plaintext;
  match v with jobject _ => Ok v | _ => Err "mobile.call.signalPayloadInvalid" end.

Definition new_stream (tracks : list Track) : Op Manager nat := fun m =>
  (set_heap (calls m) (connections m) (streams m ++ [tracks]) m, Ok (length (streams m))).

(** [navigator.mediaDevices.getUserMedia]; the address of the new stream. *)
Definition acquireMedia (kind : CallMediaKind) : Op Manager nat :=
  if mediaDevices then
    tracks ← ask (getUserMedia (bool_decide (kind = video)));
    new_stream tracks
  else throw "mobile.call.mediaUnavailable".

(** [call.peerConnection!] *)
Definition the_connection (id : nat) : Op Manager nat := fun m =>
  match peerConnection (the m id) with Some pc => (m, Ok pc) | None => (m, Err "TypeError") end.

Definition ensurePeerConnection (id : nat) : Op Manager unit :=
  existing ← gets (fun m => peerConnection (the m id));
  match existing with
  | Some _ => mret tt
  | None =>
      s ← requireSession;
      r ← ask (executeStationOperation s turn_ice_servers);
      if negb (is_success r) then throw ("mobile.call.iceServersUnavailable." ++ pretty (status r))
      else
        _ ← lift (field "ice_servers" (responseJson r));
        modify (fun m =>
          let pc := length (connections m) in
          let m := set_heap (calls m) (connections m ++ [{| pc_call := id; connectionState := conn_new; senders := [] |}]) (streams m) m in
          put id (with_connection (Some pc) (pendingCandidates (the m id)) (remoteDescriptionApplied (the m id)) (the m id)) m)
  end.

(** The senders that exist before the loop decide what is added. *)
Definition attachLocalTracks (id : nat) (m : Manager) : Manager :=
  match peerConnection (the m id), localStream (snapshot (the m id)) with
  | Some pc, Some stream =>
      let c := connections m !!! pc in
      let added := filter (fun t => t ∉ senders c) (track_id <$> streams m !!! stream) in
      put_connection pc {| pc_call := pc_call c; connectionState := connectionState c; senders := senders c ++ added |} m
  | _, _ => m
  end.

Definition flushPendingCandidates (id : nat) : Op Manager unit :=
  c ← gets (fun m => the m id);
  match peerConnection c, remoteDescriptionApplied c with
  | Some _, true =>
      _ ← modify (fun m => put id (with_connection (peerConnection (the m id)) [] (remoteDescriptionApplied (the m id)) (the m id)) m);
      for_each (fun x => pc ← the_connection id; ask (addIceCandidate pc x)) (pendingCandidates c)
  | _, _ => mret tt
  end.

(** What follows once an outgoing call is accepted: the offer. [offer] sends it. *)
Definition open_connection (offer : list (string * Json) -> Op Manager unit) (id : nat) (callId : string) : Op Manager unit :=
  _ ← ensurePeerConnection id;
  _ ← modify (fun m => emit (attachLocalTracks id m));
  pc ← the_connection id;
  sdp ← ask (createOffer pc);
  pc ← the_connection id;
  _ ← ask (setLocalDescription pc sdp);
  offer [("callId", jstring callId); ("sdp", jstring (default "" sdp))].

(** *** Resolutions and signals

    Sending a signal may read the resolution of the call, which may send an offer:
    [offer] is that inner send. *)
Section send.
Variable offer : list (string * Json) -> Op Manager unit.

Definition applyResolutionResponse (r : Response) (id_of : string) : Op Manager unit :=
  let resolution := responseJson r in
  found ← gets (fun m => match call m with
                         | Some id => if decide (callId (snapshot (the m id)) = id_of) then Some id else None
                         | None => None end);
  match found with
  | None => mret tt
  | Some id =>
      winner ← lift (field "winning_device_id" resolution);
      st ← lift (field "state" resolution);
      let winner := stringValue winner in
      let st := stringValue st in
      c ← gets (fun m => the m id);
      mine ← gets deviceId;
      if decide (st = "NO_ANSWER") then modify (endLocal no_answer)
      else if bool_decide (direction c = call_incoming) && truthy winner && bool_decide (winner <> mine) then modify (markHandledElsewhere winner)
      else if decide (st = "REJECTED") then
        modify (fun m => endLocal rejected (update (with_winner (if truthy winner then Some winner else None)) id m))
      else if bool_decide (st = "ACCEPTED") && bool_decide (direction c = call_outgoing) && bool_decide (state (snapshot c) = outgoing) then
        _ ← modify (fun m =>
              let m := clearRingTimeout m in
              update (fun s => with_winner (Some winner) (with_start (Some (default (Date_now (trace m)) (startedAt s))) (with_state active_here s))) id m);
        open_connection offer id id_of
      else
        open ← gets (fun m => match peerConnection c with Some pc => bool_decide (connectionState (connections m !!! pc) = connected) | None => false end);
        if bool_decide (st = "ACCEPTED") && bool_decide (direction c = call_incoming) && bool_decide (winner = mine)
           && bool_decide (state (snapshot c) = reconnecting) && open
        then modify (fun m => emit (update (with_state active_here) id (clearReconnectTimeout m)))
        else mret tt
  end.

(** The resolution, or no value for [null]. *)
Definition reconcileResolution (id_of : string) : Op Manager (option Json) :=
  s ← requireSession;
  c ← gets current;
  match c with
  | None => mret None
  | Some c =>
      if decide (callId (snapshot c) <> id_of) then mret None
      else
        r ← ask (executeStationOperation s (realtime_call_resolution_get id_of (peerPtid (snapshot c))));
        if bool_decide (status r = 404%Z) || bool_decide (status r = 409%Z) then mret None
        else if negb (is_success r) then throw ("mobile.call.resolutionUnavailable." ++ pretty (status r))
        else _ ← applyResolutionResponse r id_of; mret (Some (responseJson r))
  end.

(** Whether a refused signal turns out to have been the winning one. *)
Definition confirmed (kind : MobileCallSignalKind) (resolution : option Json) (mine : string) : bool :=
  match resolution with
  | Some (jobject l) =>
      is_text mine (assoc_get "winning_device_id" l)
      && ((bool_decide (kind = CALL_ACCEPT) && is_text "accept" (assoc_get "terminal_action" l))
          || (bool_decide (kind = CALL_REJECT) && is_text "reject" (assoc_get "terminal_action" l)))
  | _ => false
  end.

Definition send_signal_for (peer sid : string) (kind : MobileCallSignalKind) (body : list (string * Json)) (id_of : string) : Op Manager unit :=
  s ← requireSession;
  payload ← ask (messagingCallSignalSeal s peer sid kind body);
  device ← (if truthy id_of then requireDeviceId else mret "");
  r ← ask (executeStationOperation s (realtime_signal_send peer sid kind payload id_of device));
  if negb (is_success r) && truthy id_of then
    resolution ← catch (reconcileResolution id_of) (fun _ => mret None);
    mine ← gets deviceId;
    if confirmed kind resolution mine then mret tt
    else if decide (status r = 409%Z) then throw "mobile.call.alreadyHandled"
    else throw ("mobile.call.signalFailed." ++ pretty (status r))
  else mret tt.
End send.

Definition send_signal (send : string -> string -> MobileCallSignalKind -> list (string * Json) -> string -> Op Manager unit)
  (kind : MobileCallSignalKind) (body : list (string * Json)) (id_of : string) : Op Manager unit :=
  c ← gets current;
  match c with
  | None => throw "mobile.call.notActive"
  | Some c => send (peerPtid (snapshot c)) (signalingSessionId c) kind body (or_else id_of (callId (snapshot c)))
  end.

(** [fuel] bounds the offers sent within a send. *)
Fixpoint send_with (fuel : nat) : string -> string -> MobileCallSignalKind -> list (string * Json) -> string -> Op Manager unit :=
  send_signal_for (match fuel with
                   | O => fun _ => throw "out of fuel"
                   | S fuel => fun body => send_signal (send_with fuel) OFFER body ""
                   end).

Definition SEND_DEPTH : nat := 1.

Definition sendSignalFor : string -> string -> MobileCallSignalKind -> list (string * Json) -> string -> Op Manager unit := send_with SEND_DEPTH.
Definition sendSignal : MobileCallSignalKind -> list (string * Json) -> string -> Op Manager unit := send_signal sendSignalFor.
Definition sendOffer (body : list (string * Json)) : Op Manager unit := sendSignal OFFER body "".

(** *** The user *)
Definition startOutgoingCall (peer : string) (kind : CallMediaKind) : Op Manager (option CallSnapshot) :=
  _ ← requireIdle;
  s ← requireSession;
  id_of ← gets (fun m => createCallId (trace m));
  let sid := deriveSignalingSessionId (ptid s) peer in
  stream ← acquireMedia kind;
  _ ← modify (fun m =>
        let id := length (calls m) in
        let c := {| direction := call_outgoing; signalingSessionId := sid;
                    snapshot := {| callId := id_of; mediaKind := kind; state := outgoing; startedAt := None; endReason := None; peerPtid := peer;
                                   winningDeviceId := None; localStream := Some stream; remoteStream := None; micMuted := None; cameraOff := None |};
                    peerConnection := None; pendingCandidates := []; remoteDescriptionApplied := false |} in
        emit (set_call (Some id) (set_heap (calls m ++ [c]) (connections m) (streams m) m)));
  _ ← catch (sendSignal CALL_REQUEST [("callId", jstring id_of); ("kind", jstring (if decide (kind = video) then "video" else "audio"))] id_of)
            (fun e => _ ← modify (endLocal network_failed); throw e);
  _ ← modify (armRingTimeout id_of);
  gets getSnapshot.

(** The call an incoming operation acts on. *)
Definition incoming_call (m : Manager) : option nat :=
  match call m with Some id => if isIncoming (state (snapshot (the m id))) then Some id else None | None => None end.

(** [acceptCall] from the answer of the station on. *)
Definition open_media (id : nat) (id_of : string) (kind : CallMediaKind) : Op Manager unit :=
  catch
    (stream ← acquireMedia kind;
     _ ← modify (update (fun s => with_streams (Some stream) (remoteStream s) s) id);
     _ ← ensurePeerConnection id;
     modify (fun m => emit (attachLocalTracks id m)))
    (fun e =>
       _ ← forgive (sendSignal CALL_END [("callId", jstring id_of); ("reason", jstring "media-failed")] id_of);
       _ ← modify (endLocal media_failed);
       throw e).

Definition rearm (id_of : string) (m : Manager) : Manager :=
  if decide (state <$> getSnapshot m = Some handled_elsewhere) then m else armRingTimeout id_of m.

Definition take (id : nat) (m : Manager) : Manager :=
  emit (update (fun s => with_winner (Some (deviceId m)) (with_start (Some (Date_now (trace m))) (with_state active_here s))) id m).

(** [acceptCall] of a ringing call with the snapshot [s], once its timer is cleared. *)
Definition accept_ringing (id : nat) (s : CallSnapshot) : Op Manager (option CallSnapshot) :=
  _ ← catch (sendSignal CALL_ACCEPT [("callId", jstring (callId s))] (callId s))
            (fun e => _ ← modify (rearm (callId s)); throw e);
  _ ← modify (take id);
  _ ← open_media id (callId s) (mediaKind s);
  gets getSnapshot.

Definition acceptCall : Op Manager (option CallSnapshot) := fun m =>
  match incoming_call m with
  | None => (m, Ok None)
  | Some id => accept_ringing id (snapshot (the m id)) (clearRingTimeout m)
  end.

Definition rejectCall (reason : string) : Op Manager (option CallSnapshot) :=
  found ← gets incoming_call;
  match found with
  | None => mret None
  | Some id =>
      id_of ← gets (fun m => callId (snapshot (the m id)));
      _ ← sendSignal CALL_REJECT [("callId", jstring id_of); ("reason", jstring reason)] id_of;
      _ ← modify (fun m => update (with_winner (Some (deviceId m))) id m);
      _ ← modify (endLocal (if decide (reason = "busy") then busy else rejected));
      gets getSnapshot
  end.

Definition endCall : Op Manager (option CallSnapshot) :=
  c ← gets current;
  match c with
  | None => gets getSnapshot
  | Some c =>
      let s := snapshot c in
      if bool_decide (state s = idle) || bool_decide (state s = ended) then gets getSnapshot
      else
        let talking := bool_decide (state s = active_here) || bool_decide (state s = reconnecting) in
        _ ← forgive (sendSignal CALL_END [("callId", jstring (callId s)); ("reason", jstring (if talking then "hangup" else "canceled"))] (callId s));
        _ ← modify (endLocal (if talking then hangup else canceled));
        gets getSnapshot
  end.

Definition activate (s : Session) : Op Manager unit :=
  _ ← modify (activate_begin s);
  st ← ask messagingStatus;
  activate_end s st.

(** What [resume] queues, when there is a call to ask about. *)
Definition resume_asks (m : Manager) : bool := match getSnapshot m with Some s => truthy (callId s) | None => false end.

Definition resume_queued : Op Manager unit :=
  s ← gets getSnapshot;
  id_of ← lift (match s with Some s => Ok (callId s) | None => Err "TypeError" end);
  _ ← reconcileResolution sendOffer id_of;
  mret tt.

Definition readResolution (id_of : string) : Op Manager (option CallSnapshot) :=
  _ ← reconcileResolution sendOffer id_of;
  gets getSnapshot.

(** *** Signals of the peer *)

(** [stringValue(payload.callId) || event.callId] *)
Definition signal_call (ev : CallSignal) (v : option Json) : string := or_else (stringValue v) (ev_callId ev).

Definition handleIncomingRequest (ev : CallSignal) (body : Json) : Op Manager unit :=
  v ← lift (field "callId" body);
  kind ← lift (field "kind" body);
  let id_of := signal_call ev v in
  if negb (truthy id_of) then throw "mobile.call.callIdMissing"
  else
    c ← gets current;
    if match c with Some c => negb (isTerminal (state (snapshot c))) | None => false end
    then sendSignalFor (fromActorPtid ev) (sessionUlid ev) CALL_REJECT [("callId", jstring id_of); ("reason", jstring "busy")] id_of
    else
      modify (fun m =>
        let id := length (calls m) in
        let c := {| direction := call_incoming; signalingSessionId := sessionUlid ev;
                    snapshot := {| callId := id_of; mediaKind := if decide (stringValue kind = "video") then video else audio; state := ringing_all_devices;
                                   startedAt := None; endReason := None; peerPtid := fromActorPtid ev; winningDeviceId := None;
                                   localStream := None; remoteStream := None; micMuted := None; cameraOff := None |};
                    peerConnection := None; pendingCandidates := []; remoteDescriptionApplied := false |} in
        armRingTimeout id_of (emit (set_call (Some id) (set_heap (calls m ++ [c]) (connections m) (streams m) m)))).

(** [this.call] when it has the given id. *)
Definition current_called (id_of : string) (m : Manager) : option nat :=
  match call m with Some id => if decide (callId (snapshot (the m id)) = id_of) then Some id else None | None => None end.

Definition handleRemoteAccept (ev : CallSignal) (body : Json) : Op Manager unit :=
  v ← lift (field "callId" body);
  let id_of := signal_call ev v in
  found ← gets (current_called id_of);
  match found with
  | None => mret tt
  | Some id =>
      c ← gets (fun m => the m id);
      if decide (direction c <> call_outgoing) then mret tt
      else
        _ ← modify (fun m =>
              let m := clearRingTimeout m in
              update (fun s => with_winner (if truthy (ev_winningDeviceId ev) then Some (ev_winningDeviceId ev) else None)
                                 (with_start (Some (Date_now (trace m))) (with_state active_here s))) id m);
        open_connection sendOffer id id_of
  end.

Definition handleRemoteReject (ev : CallSignal) (body : Json) : Op Manager unit :=
  v ← lift (field "callId" body);
  reason ← lift (field "reason" body);
  found ← gets (current_called (signal_call ev v));
  match found with
  | None => mret tt
  | Some _ =>
      modify (endLocal (if decide (stringValue reason = "busy") then busy
                        else if decide (stringValue reason = "media-failed") then media_failed else rejected))
  end.

Definition handleRemoteEnd (ev : CallSignal) (body : Json) : Op Manager unit :=
  v ← lift (field "callId" body);
  found ← gets (current_called (signal_call ev v));
  match found with
  | None => mret tt
  | Some id =>
      modify (fun m =>
        let s := state (snapshot (the m id)) in
        endLocal (if bool_decide (s = active_here) || bool_decide (s = reconnecting) then hangup else no_answer) m)
  end.

(** [this.call] when its peer sent the signal. *)
Definition current_with (peer : string) (m : Manager) : option nat :=
  match call m with Some id => if decide (peerPtid (snapshot (the m id)) = peer) then Some id else None | None => None end.

Definition describe_remote (id : nat) (is_offer : bool) (sdp : string) : Op Manager unit :=
  pc ← the_connection id;
  _ ← ask (setRemoteDescription pc is_offer sdp);
  _ ← modify (fun m => put id (with_connection (peerConnection (the m id)) (pendingCandidates (the m id)) true (the m id)) m);
  flushPendingCandidates id.

Definition handleOffer (ev : CallSignal) (body : Json) : Op Manager unit :=
  v ← lift (field "sdp" body);
  found ← gets (current_with (fromActorPtid ev));
  match found with
  | None => mret tt
  | Some id =>
      if negb (truthy (stringValue v)) then mret tt
      else
        _ ← ensurePeerConnection id;
        _ ← describe_remote id true (stringValue v);
        pc ← the_connection id;
        sdp ← ask (createAnswer pc);
        pc ← the_connection id;
        _ ← ask (setLocalDescription pc sdp);
        id_of ← gets (fun m => callId (snapshot (the m id)));
        sendSignal ANSWER [("callId", jstring id_of); ("sdp", jstring (default "" sdp))] ""
  end.

Definition handleAnswer (ev : CallSignal) (body : Json) : Op Manager unit :=
  v ← lift (field "sdp" body);
  found ← gets (current_with (fromActorPtid ev));
  match found with
  | None => mret tt
  | Some id =>
      existing ← gets (fun m => peerConnection (the m id));
      match existing with
      | Some _ => if negb (truthy (stringValue v)) then mret tt else describe_remote id false (stringValue v)
      | None => mret tt
      end
  end.

Definition handleCandidate (ev : CallSignal) (body : Json) : Op Manager unit :=
  v ← lift (field "candidate" body);
  mid ← lift (field "mid" body);
  mline ← lift (field "mline" body);
  found ← gets (current_with (fromActorPtid ev));
  match found with
  | None => mret tt
  | Some id =>
      if negb (truthy (stringValue v)) then mret tt
      else
        let init := {| candidate := stringValue v; sdpMid := if truthy (stringValue mid) then Some (stringValue mid) else None;
                       sdpMLineIndex := numberValue mline |} in
        c ← gets (fun m => the m id);
        match peerConnection c, remoteDescriptionApplied c with
        | Some pc, true => ask (addIceCandidate pc init)
        | _, _ => modify (fun m => put id (with_connection (peerConnection (the m id)) (pendingCandidates (the m id) ++ [init])
                                                           (remoteDescriptionApplied (the m id)) (the m id)) m)
        end
  end.

(** The signal belongs to another conversation than the call on display. *)
Definition foreign (ev : CallSignal) (m : Manager) : bool :=
  match current m with
  | Some c => bool_decide (signalingSessionId c <> sessionUlid ev) || bool_decide (peerPtid (snapshot c) <> fromActorPtid ev)
  | None => false
  end.

(** The signal names the call on display. *)
Definition named (ev : CallSignal) (m : Manager) : bool :=
  truthy (ev_callId ev) && match current m with Some c => bool_decide (callId (snapshot c) = ev_callId ev) | None => false end.

(** Another device of the user took or refused the call. *)
Definition taken_elsewhere (ev : CallSignal) (m : Manager) : bool :=
  named ev m && (bool_decide (signalKind ev = CALL_ACCEPT) || bool_decide (signalKind ev = CALL_REJECT))
  && truthy (ev_winningDeviceId ev) && bool_decide (ev_winningDeviceId ev <> deviceId m).

Definition dispatch_signal (ev : CallSignal) (body : Json) : Op Manager unit :=
  match signalKind ev with
  | CALL_REQUEST => handleIncomingRequest ev body
  | CALL_ACCEPT => handleRemoteAccept ev body
  | CALL_REJECT => handleRemoteReject ev body
  | CALL_END | HANGUP => handleRemoteEnd ev body
  | OFFER => handleOffer ev body
  | ANSWER => handleAnswer ev body
  | CANDIDATE => handleCandidate ev body
  | CALL_NO_ANSWER => mret tt
  end.

Definition handleSignal (ev : CallSignal) : Op Manager unit :=
  s ← requireSession;
  known ← gets (named ev);
  if bool_decide (signalKind ev = CALL_NO_ANSWER) && known then modify (endLocal no_answer)
  else if decide (fromActorPtid ev = ptid s) then
    modify (fun m => if taken_elsewhere ev m then markHandledElsewhere (ev_winningDeviceId ev) m else m)
  else
    other ← gets (foreign ev);
    if other : bool then mret tt
    else
      plaintext ← ask (messagingCallSignalOpen s (fromActorPtid ev) (sessionUlid ev) (signalKind ev) (payload ev));
      body ← lift (parseSignalPayload plaintext);
      dispatch_signal ev body.

(** [onicecandidate] of the connection of a call; a failure ends the current call. *)
Definition send_candidate (id : nat) (c : RTCIceCandidateInit) : Op Manager unit :=
  catch
    (id_of ← gets (fun m => callId (snapshot (the m id)));
     sendSignal CANDIDATE [("callId", jstring id_of); ("candidate", jstring (candidate c)); ("mid", jstring (default "" (sdpMid c)));
                           ("mline", jnumber (Some (default 0%Z (sdpMLineIndex c))))] "")
    (fun _ => modify (endLocal network_failed)).

(** ** Sessions of the manager

    [enqueue] runs the operations one after the other, whatever they return; the
    synchronous methods and the timers run between them, too. *)
Inductive Operation : Set :=
| op_now (i : Interrupt)
| op_activate (s : Session)
| op_resume
| op_signal (ev : CallSignal)
| op_start (peer : string) (kind : CallMediaKind)
| op_accept
| op_reject (reason : string)
| op_end
| op_read (id_of : string)
| op_candidate (id : nat) (c : RTCIceCandidateInit).

Definition run_operation (o : Operation) (m : Manager) : Manager :=
  match o with
  | op_now i => interrupt i m
  | op_activate s => (activate s m).1
  | op_resume => (resume_queued m).1
  | op_signal ev => (handleSignal ev m).1
  | op_start peer kind => (startOutgoingCall peer kind m).1
  | op_accept => (acceptCall m).1
  | op_reject reason => (rejectCall reason m).1
  | op_end => (endCall m).1
  | op_read id_of => (readResolution id_of m).1
  | op_candidate id c => (send_candidate id c m).1
  end.

Definition run (l : list Operation) (m : Manager) : Manager := fold_left (fun m o => run_operation o m) l m.
End manager.
