(* ===== verification/CallStateFacts.v ===== *)
(** * The steps of the call manager

    Every operation of [CallState] is a run of the synchronous steps below, whatever the
    environment answers. Here is that decomposition, what every step keeps of the heap, and
    that sending a signal needs the depth given to it. *)
From Stdlib Require Import Lia ZArith.
From stdpp Require Import base numbers relations strings list sets.
From S2P Require Import Prelude KeyedSort AsyncOp JsonValue CallState.

Open Scope string_scope.
Open Scope list_scope.

(** A ringing call that came in. *)
Definition incoming_ring (c : ActiveCall) : Prop :=
  direction c = call_incoming /\ state (snapshot c) = ringing_all_devices /\ localStream (snapshot c) = None /\ remoteStream (snapshot c) = None
  /\ peerConnection c = None.

(** An outgoing call turns out to be accepted. *)
Definition answered (id : nat) (winner : option string) (at_ : Z) (m : Manager) : Manager :=
  update (fun s => with_winner winner (with_start (Some at_) (with_state active_here s))) id (clearRingTimeout m).

Definition connect (id : nat) (m : Manager) : Manager :=
  let pc := length (connections m) in
  let m := set_heap (calls m) (connections m ++ [{| pc_call := id; connectionState := conn_new; senders := [] |}]) (streams m) m in
  put id (with_connection (Some pc) (pendingCandidates (the m id)) (remoteDescriptionApplied (the m id)) (the m id)) m.

Definition new_call (c : ActiveCall) (m : Manager) : Manager :=
  emit (set_call (Some (length (calls m))) (set_heap (calls m ++ [c]) (connections m) (streams m) m)).

(** The camera or the microphone is opened. *)
Definition asks_media {A} (c : Call A) : bool := match c with getUserMedia _ => true | _ => false end.

(** The steps of every operation but those that start or accept a call. [allowed] are the
    interrupts of the environment; only with [late] may a call be answered that is no longer
    outgoing, and only with [fresh] may one ring. *)
Inductive plain (allowed : Interrupt -> Prop) (late fresh : Prop) (m : Manager) : Manager -> Prop :=
| plain_interrupt i : allowed i -> plain allowed late fresh m (interrupt i m)
| plain_called {A} (c : Call A) : asks_media c = false -> plain allowed late fresh m (record (called c) m)
| plain_end r : plain allowed late fresh m (endLocal r m)
| plain_elsewhere w : plain allowed late fresh m (markHandledElsewhere w m)
| plain_answered id w at_ : call m = Some id -> direction (the m id) = call_outgoing -> state (snapshot (the m id)) = outgoing \/ late ->
    plain allowed late fresh m (answered id w at_ m)
| plain_reconnected id : call m = Some id -> state (snapshot (the m id)) = reconnecting ->
    plain allowed late fresh m (emit (update (with_state active_here) id (clearReconnectTimeout m)))
| plain_winner id w : plain allowed late fresh m (update (with_winner w) id m)
| plain_connect id : plain allowed late fresh m (connect id m)
| plain_attach id : plain allowed late fresh m (emit (attachLocalTracks id m))
| plain_candidates id l b : plain allowed late fresh m (put id (with_connection (peerConnection (the m id)) l b (the m id)) m)
| plain_ring c : fresh -> incoming_ring c -> (forall c0, current m = Some c0 -> isTerminal (state (snapshot c0)) = true) ->
    plain allowed late fresh m (armRingTimeout (callId (snapshot c)) (new_call c m)).

Abbreviation runs allowed late fresh := (rtc (plain allowed late fresh)).

Section runs.
Context `{CallEnv} `{Locale} (allowed : Interrupt -> Prop) (late fresh : Prop).
Hypothesis env_allowed : forall h i, i ∈ meanwhile h -> allowed i.
Abbreviation R := (runs allowed late fresh).

#[local] Hint Resolve rtc_once : core.
#[local] Hint Constructors plain : core.

Lemma steps_ask {A} (c : Call A) : asks_media c = false -> steps R (ask c).
Proof.
  intros Hc. apply steps_await; [apply _ | auto |]. intros m0 i m Hi. apply rtc_once. constructor. by eapply env_allowed.
Qed.

Lemma steps_device : steps R requireDeviceId.
Proof. intros m. unfold requireDeviceId. by destruct (truthy _). Qed.

Lemma steps_session : steps R requireSession.
Proof. intros m. unfold requireSession. by destruct (session m). Qed.

Lemma steps_connection id : steps R (the_connection id).
Proof. intros m. unfold the_connection. by destruct (peerConnection _). Qed.

#[local] Hint Resolve steps_ask steps_device steps_session steps_connection : steps.

Lemma steps_ensure id : steps R (ensurePeerConnection id).
Proof. unfold ensurePeerConnection. op_steps. apply rtc_once, plain_connect. Qed.

Lemma steps_attach id : steps R (modify (fun m => emit (attachLocalTracks id m))).
Proof. op_steps. auto. Qed.

#[local] Hint Resolve steps_ensure steps_attach : steps.

Lemma steps_flush id : steps R (flushPendingCandidates id).
Proof. unfold flushPendingCandidates. op_steps. apply rtc_once, plain_candidates. Qed.

Section send.
Variable offer : list (string * Json) -> Op Manager unit.
Hypothesis steps_offer : forall body, steps R (offer body).
#[local] Hint Resolve steps_offer : steps.

Lemma steps_open id id_of : steps R (open_connection offer id id_of).
Proof. unfold open_connection. op_steps; auto. Qed.

Lemma steps_apply r id_of : steps R (applyResolutionResponse offer r id_of).
Proof.
  intros m. unfold applyResolutionResponse. apply (steps_bind_at R); [reflexivity|]. intros found m1 [= <- <-].
  destruct (call m) as [id|] eqn:Hc; [|reflexivity]. destruct (decide _) as [Hid|]; [|reflexivity].
  apply (steps_bind_at R); [reflexivity|]. intros winner m1 [= <- _].
  apply (steps_bind_at R); [reflexivity|]. intros st m1 [= <- _].
  apply (steps_bind_at R); [reflexivity|]. intros c m1 [= <- <-].
  apply (steps_bind_at R); [reflexivity|]. intros mine m1 [= <- <-].
  destruct (decide _); [by apply rtc_once; constructor|]. destruct (_ && _); [by apply rtc_once; constructor|].
  destruct (decide _); [by eapply rtc_l; [apply (plain_winner _ _ _ _ id) | apply rtc_once; constructor]|].
  destruct (_ && _) eqn:Ho.
  - apply (steps_bind_at R); [|intros; apply steps_open]. apply rtc_once.
    apply andb_true_iff in Ho as [[_ Hd%bool_decide_eq_true]%andb_true_iff Hs%bool_decide_eq_true]. apply plain_answered; auto.
  - apply (steps_bind_at R); [reflexivity|]. intros open m1 [= <- <-]. 
    match goal with |- context [(if ?b then _ else _) m] => destruct b eqn:Hr end; [|reflexivity].
    apply rtc_once. apply plain_reconnected; [done|]. apply andb_true_iff in Hr as [[_ Hr]%andb_true_iff _]. by apply bool_decide_eq_true in Hr.
Qed.
#[local] Hint Resolve steps_apply : steps.

Lemma steps_reconcile id_of : steps R (reconcileResolution offer id_of).
Proof. unfold reconcileResolution. op_steps. Qed.
#[local] Hint Resolve steps_reconcile : steps.

Lemma steps_send_for peer sid kind body id_of : steps R (send_signal_for offer peer sid kind body id_of).
Proof. unfold send_signal_for. op_steps. Qed.
End send.

#[local] Hint Resolve steps_flush steps_open steps_apply steps_reconcile steps_send_for : steps.

Lemma steps_send_signal send kind body id_of :
  (forall peer sid kind body id_of, steps R (send peer sid kind body id_of)) -> steps R (send_signal send kind body id_of).
Proof. intros Hs. unfold send_signal. op_steps. Qed.

Lemma steps_send_with fuel peer sid kind body id_of : steps R (send_with fuel peer sid kind body id_of).
Proof.
  revert peer sid kind body id_of. induction fuel as [|fuel IH]; intros peer sid kind body id_of; apply steps_send_for; intros ?.
  - op_steps.
  - by apply steps_send_signal.
Qed.

Lemma steps_sendSignal kind body id_of : steps R (sendSignal kind body id_of).
Proof. apply steps_send_signal. intros. apply steps_send_with. Qed.

Lemma steps_sendOffer body : steps R (sendOffer body).
Proof. apply steps_sendSignal. Qed.

#[local] Hint Resolve steps_send_with steps_sendSignal steps_sendOffer : steps.
(** *** Operations *)
Lemma steps_resume : steps R resume_queued.
Proof. unfold resume_queued. op_steps. Qed.

Lemma steps_read id_of : steps R (readResolution id_of).
Proof. unfold readResolution. op_steps. Qed.

Lemma steps_reject reason : steps R (rejectCall reason).
Proof. unfold rejectCall. op_steps; apply rtc_once; constructor. Qed.

Lemma steps_end : steps R endCall.
Proof. unfold endCall. op_steps; apply rtc_once; constructor. Qed.

Lemma steps_candidate id c : steps R (send_candidate id c).
Proof. unfold send_candidate. op_steps; apply rtc_once; constructor. Qed.

Lemma steps_incoming ev body : fresh -> steps R (handleIncomingRequest ev body).
Proof.
  intros Hfresh. unfold handleIncomingRequest. op_step; [op_step|]. op_step; [op_step|]. op_step; [op_step|]. intros m.
  apply (steps_bind_at R); [reflexivity|]. intros c m1 [= <- <-].
  match goal with |- context [(if ?b then _ else _) m] => destruct b eqn:Hb end; [apply steps_send_with|].
  apply rtc_once. unfold modify. cbn [fst].
  match goal with |- context [armRingTimeout (signal_call ev a) (emit (set_call _ (set_heap (calls m ++ [?c]) _ _ _)))] =>
    apply (plain_ring _ _ _ _ c) end; [done..|].
  intros c Hc. rewrite Hc in Hb. by apply negb_false_iff in Hb.
Qed.

Lemma steps_accepted ev body : late -> steps R (handleRemoteAccept ev body).
Proof.
  intros Hlate. unfold handleRemoteAccept. op_step; [op_step|]. intros m. apply (steps_bind_at R); [reflexivity|]. intros found m1 [= <- <-].
  unfold current_called. destruct (call m) as [id|] eqn:Hc; [|reflexivity]. destruct (decide _) as [Hid|]; [|reflexivity].
  apply (steps_bind_at R); [reflexivity|]. intros c m1 [= <- <-]. destruct (decide _) as [|Hd%dec_stable]; [reflexivity|].
  apply (steps_bind_at R); [by apply rtc_once, plain_answered; auto|]. intros _ m1 _. apply steps_open; auto with steps.
Qed.

Lemma steps_describe id is_offer sdp : steps R (describe_remote id is_offer sdp).
Proof. unfold describe_remote. op_steps. apply rtc_once, plain_candidates. Qed.
#[local] Hint Resolve steps_describe : steps.

Lemma steps_dispatch ev body : (signalKind ev = CALL_ACCEPT -> late) -> fresh -> steps R (dispatch_signal ev body).
Proof.
  intros Hlate Hfresh. destruct (decide (signalKind ev = CALL_ACCEPT)) as [Ha|Ha].
  { unfold dispatch_signal. rewrite Ha. by apply steps_accepted, Hlate. }
  unfold dispatch_signal, handleRemoteReject, handleRemoteEnd, handleOffer, handleAnswer, handleCandidate.
  op_steps; first [done | by apply steps_incoming | apply rtc_once; first [apply plain_candidates | apply plain_end]].
Qed.
#[local] Hint Resolve steps_dispatch : steps.

Lemma steps_signal ev : (signalKind ev = CALL_ACCEPT -> late) -> fresh -> steps R (handleSignal ev).
Proof. intros Hlate Hfresh. unfold handleSignal. op_steps; try (destruct (taken_elsewhere _ _); [|reflexivity]); apply rtc_once; constructor. Qed.

(** The part of [activate] after its start. *)
Lemma steps_activated s : (forall st, allowed (do_activated s st)) -> steps R (st ← ask messagingStatus; activate_end s st).
Proof. intros Hs. op_step; [op_steps|]. intros m. apply rtc_once, (plain_interrupt _ _ _ _ (do_activated s _)), Hs. Qed.
End runs.

(** ** What a step does to the calls *)
Lemma runs_keeps (P : Manager -> Prop) allowed late fresh m m' :
  (forall m m', plain allowed late fresh m m' -> P m -> P m') -> runs allowed late fresh m m' -> P m -> P m'.
Proof. intros Hp. induction 1; eauto. Qed.

Lemma the_put id c m i : the (put id c m) i = if decide (i = id /\ (id < length (calls m))%nat) then c else the m i.
Proof.
  unfold the, put. cbn. destruct (decide _) as [[-> Hl]|Hn]; [by apply list_lookup_total_insert_eq|].
  destruct (decide (i = id)) as [->|Hi]; [|by apply list_lookup_total_insert_ne].
  by rewrite list_insert_ge by lia.
Qed.

Lemma length_put id c m : length (calls (put id c m)) = length (calls m).
Proof. apply length_insert. Qed.

(** What never changes of a call. *)
Definition identity (c : ActiveCall) : Direction * string * string * string * CallMediaKind :=
  (direction c, signalingSessionId c, callId (snapshot c), peerPtid (snapshot c), mediaKind (snapshot c)).

(** The moves of the state of a call: with [accept] the user may take it while it is not
    over, with [late] an outgoing call may be answered whatever its state. *)
Inductive edge (accept late : Prop) (d : Direction) : relation CallStateLifecycle :=
| edge_ended s : edge accept late d s ended
| edge_elsewhere s : edge accept late d s handled_elsewhere
| edge_answered s : d = call_outgoing -> s = outgoing \/ late -> edge accept late d s active_here
| edge_taken s : accept -> isTerminal s = false -> edge accept late d s active_here
| edge_lost : edge accept late d active_here reconnecting
| edge_back : edge accept late d reconnecting active_here.

(** Only the user gives a call a stream of the camera or the microphone. *)
Definition streams_from (accept : Prop) (s s' : CallSnapshot) : Prop := accept \/ localStream s' = localStream s \/ localStream s' = None.

Definition moves (accept late : Prop) (c c' : ActiveCall) : Prop :=
  identity c = identity c' /\ streams_from accept (snapshot c) (snapshot c') /\ rtc (edge accept late (direction c)) (state (snapshot c)) (state (snapshot c')).

#[export] Instance moves_preorder accept late : PreOrder (moves accept late).
Proof.
  split; [by intros c; split_and!; [|right; left|]|]. intros c1 c2 c3 (Hi & Hl & Hs) (Hi' & Hl' & Hs'). split_and!; [congruence| |].
  { destruct Hl as [?|[Hl|Hl]], Hl' as [?|[Hl'|Hl']]; (by left) || right; [left | right | right | right]; congruence. }
  etransitivity; [exact Hs|].
  by replace (direction c1) with (direction c2) by (by injection Hi).
Qed.

(** Calls stay on the heap and move. *)
Definition evolves (accept late : Prop) (m m' : Manager) : Prop :=
  (length (calls m) <= length (calls m'))%nat /\ forall id, (id < length (calls m))%nat -> moves accept late (the m id) (the m' id).

#[export] Instance evolves_preorder accept late : PreOrder (evolves accept late).
Proof.
  split; [done|]. intros m1 m2 m3 [Hl Hm] [Hl' Hm']. split; [lia|]. intros id Hid.
  transitivity (the m2 id); [by apply Hm | apply Hm'; lia].
Qed.

Section evolves.
Variables accept late : Prop.
Implicit Types m : Manager.

Lemma call_evolves_same m m' : calls m' = calls m -> evolves accept late m m'.
Proof. intros He. split; [by rewrite He|]. intros id _. unfold the. by rewrite He. Qed.

Lemma evolves_put id c m : moves accept late (the m id) c -> evolves accept late m (put id c m).
Proof.
  intros Hm. split; [by rewrite length_put|]. intros i Hi. rewrite the_put. by destruct (decide _) as [[-> _]|].
Qed.

Lemma evolves_update f id m :
  (forall s, identity (with_snapshot (f s) (the m id)) = identity (with_snapshot s (the m id))) ->
  (forall s, localStream (f s) = localStream s \/ localStream (f s) = None) ->
  rtc (edge accept late (direction (the m id))) (state (snapshot (the m id))) (state (f (snapshot (the m id)))) -> evolves accept late m (update f id m).
Proof. intros Hf Hl Hs. apply evolves_put. split_and!; [exact (eq_sym (Hf _)) | right; apply Hl | done]. Qed.

Lemma evolves_new c m : evolves accept late m (new_call c m).
Proof.
  split; cbn; [rewrite length_app; lia|]. intros id Hid. unfold the. cbn. by rewrite lookup_total_app_l.
Qed.

Lemma calls_release m : evolves accept late m (releaseMedia m) /\ length (calls (releaseMedia m)) = length (calls m)
  /\ forall id, snapshot (the (releaseMedia m) id) = snapshot (the m id).
Proof.
  unfold releaseMedia. destruct (call m) as [id|]; [|done].
  set (m1 := stop_local _ m). assert (Hc1 : calls m1 = calls m) by (unfold m1, stop_local; by destruct (localStream _)).
  set (m2 := stop_remote _ m1). assert (Hc2 : calls m2 = calls m) by (unfold m2, stop_remote; by destruct (remoteStream _)).
  set (m3 := close_connection _ m2). assert (Hc3 : calls m3 = calls m) by (unfold m3, close_connection; by destruct (peerConnection _)).
  assert (He : forall i, the m3 i = the m i) by (intros i; unfold the; by rewrite Hc3).
  split_and!.
  - transitivity m3; [by apply call_evolves_same|]. apply evolves_put. rewrite He. by split_and!; [|right; left|].
  - by rewrite length_put, Hc3.
  - intros i. rewrite the_put, He. by destruct (decide _) as [[-> _]|].
Qed.

Lemma evolves_release m : evolves accept late m (releaseMedia m).
Proof. apply calls_release. Qed.

Ltac evolve := lazymatch goal with
  | |- evolves _ _ ?m (emit ?m') => transitivity m'; [|by apply call_evolves_same]
  | |- evolves _ _ ?m (update ?f ?id ?m) => apply evolves_update; [done | first [by left | by right] | cbn]
  | |- evolves _ _ ?m (update ?f ?id ?m') => transitivity m'; [|apply evolves_update; [done | first [by left | by right] | cbn]]
  | |- evolves _ _ _ (releaseMedia ?m') => transitivity m'; [|apply evolves_release]
  | |- evolves _ _ _ _ => by apply call_evolves_same
  end.

#[local] Hint Constructors edge : core.

Lemma evolves_endLocal r m : evolves accept late m (endLocal r m).
Proof. unfold endLocal. destruct (call m); [|done]. repeat evolve. apply rtc_once. constructor. Qed.

Lemma evolves_mark w m : evolves accept late m (markHandledElsewhere w m).
Proof. unfold markHandledElsewhere. destruct (call m); [|done]. repeat evolve. apply rtc_once. constructor. Qed.

Lemma evolves_enter id m : evolves accept late m (enterReconnect id m).
Proof.
  unfold enterReconnect. destruct (_ && _) eqn:Hs; [done|].
  set (m1 := if decide _ then _ else m). assert (Hm1 : evolves accept late m m1).
  { unfold m1. destruct (decide _) as [Hd|]; [|done]. repeat evolve. apply rtc_once.
    rewrite (bool_decide_true (_ <> reconnecting)), andb_true_r in Hs by done. apply bool_decide_eq_false, dec_stable in Hs. rewrite Hs. constructor. }
  clearbody m1. destruct (reconnectTimer m1); [done|]. transitivity m1; [done | by apply call_evolves_same].
Qed.

Lemma evolves_reset m : evolves accept late m (reset m).
Proof. unfold reset. evolve. transitivity (releaseMedia (clearReconnectTimeout (clearRingTimeout m))); [|by apply call_evolves_same]. repeat evolve. Qed.

Lemma evolves_stream s l m : evolves accept late m (put_stream s l m).
Proof. by apply call_evolves_same. Qed.

Lemma evolves_interrupt i m : evolves accept late m (interrupt i m).
Proof.
  destruct i as [| | | | |s|s st| | |pc st|pc t]; cbn [interrupt].
  - unfold suspend. destruct (call m) as [id|]; [|done]. destruct (decide _) as [Hs|]; [|done]. repeat evolve. apply rtc_once. rewrite Hs. constructor.
  - unfold toggleMicrophone. destruct (call m) as [id|]; [|done]. destruct (localStream _); [|done]. evolve. evolve; [evolve | constructor].
  - unfold toggleCamera. destruct (call m) as [id|]; [|done]. destruct (localStream _); [|done]. destruct (decide _); [done|]. evolve. evolve; [evolve | constructor].
  - unfold dismiss. destruct (current m) as [c|]; [|done]. destruct (isTerminal _); [|done]. evolve.
    transitivity (releaseMedia m); [repeat evolve | by apply call_evolves_same].
  - apply evolves_reset.
  - unfold activate_begin. destruct (session m) as [old|]; [|evolve]. destruct (_ || _); [|evolve].
    transitivity (reset m); [apply evolves_reset | by apply call_evolves_same].
  - unfold activate_end. destruct (_ || _); [done | evolve].
  - unfold ring_timer. destruct (ringTimer m); [|done]. destruct (current _) as [c|]; [|evolve]. destruct (_ && _); [|evolve].
    transitivity (set_ring None m); [evolve | apply evolves_endLocal].
  - unfold reconnect_timer. destruct (reconnectTimer m); [|done]. destruct (current _) as [c|]; [|evolve]. destruct (decide _); [|evolve].
    transitivity (set_reconnect None m); [evolve | apply evolves_endLocal].
  - unfold onconnectionstatechange. destruct (connections m !! pc) as [c|]; [|done]. destruct (decide _); [done|].
    set (m1 := put_connection _ _ m). transitivity m1; [by apply call_evolves_same|]. destruct st; try done; [|apply evolves_enter..].
    destruct (decide _) as [Hs|]; [|evolve]. evolve. evolve; [evolve|]. apply rtc_once. rewrite Hs. apply edge_back.
  - unfold ontrack. destruct (connections m !! pc) as [c|]; [|done]. destruct (decide _); [done|].
    destruct (match remoteStream _ with Some s => (s, m) | None => _ end) as [remote m1] eqn:Hr.
    assert (Hc : calls m1 = calls m) by (destruct (remoteStream _); by injection Hr as _ <-).
    evolve. set (m2 := if existsb _ _ then _ else _). assert (Hc2 : calls m2 = calls m1) by (unfold m2; by destruct (existsb _ _)).
    transitivity m2; [apply call_evolves_same; congruence|]. evolve. constructor.
Qed.

Lemma evolves_plain allowed fresh m m' : plain allowed late fresh m m' -> evolves accept late m m'.
Proof.
  intros [i _| | | |id w at_ Hc Hd Hs|id Hc Hs| | | | |c _ _ _].
  - apply evolves_interrupt.
  - evolve.
  - apply evolves_endLocal.
  - apply evolves_mark.
  - unfold answered. evolve; [evolve|]. apply rtc_once. by constructor.
  - evolve. evolve; [evolve|]. apply rtc_once. change (the (clearReconnectTimeout m) id) with (the m id). rewrite Hs. apply edge_back.
  - evolve. constructor.
  - unfold connect. set (m1 := set_heap _ _ _ m). transitivity m1; [by apply call_evolves_same|]. apply evolves_put. by split_and!; [|right; left|].
  - evolve. unfold attachLocalTracks. destruct (peerConnection _); [|done]. destruct (localStream _); [|done]. by apply call_evolves_same.
  - apply evolves_put. by split_and!; [|right; left|].
  - transitivity (new_call c m); [apply evolves_new | by apply call_evolves_same].
Qed.

Lemma evolves_runs allowed fresh m m' : runs allowed late fresh m m' -> evolves accept late m m'.
Proof. induction 1 as [|m1 m2 m3 Hp _ IH]; [done|]. transitivity m2; [by eapply evolves_plain | done]. Qed.
End evolves.

(** ** Which call is the current one *)
Lemma call_release m : call (releaseMedia m) = call m.
Proof.
  unfold releaseMedia. destruct (call m) as [id|] eqn:Hc; [|done]. unfold put. cbn [call set_heap].
  unfold close_connection, stop_remote, stop_local. by destruct (localStream _), (remoteStream _), (peerConnection _).
Qed.

Lemma call_endLocal r m : call (endLocal r m) = call m.
Proof. unfold endLocal. destruct (call m) as [id|] eqn:Hc; [|done]. cbn. by rewrite call_release. Qed.

Lemma call_mark w m : call (markHandledElsewhere w m) = call m.
Proof. unfold markHandledElsewhere. destruct (call m) as [id|] eqn:Hc; [|done]. cbn. by rewrite call_release. Qed.

Lemma call_enter id m : call (enterReconnect id m) = call m.
Proof. unfold enterReconnect. destruct (_ && _); [done|]. destruct (decide _); cbn; by destruct (reconnectTimer _). Qed.

(** Interrupts keep the current call or end it: only [dismiss], [reset] and the change of
    the account take it away. *)
Definition removes (i : Interrupt) : Prop := match i with do_dismiss | do_reset | do_activate _ => True | _ => False end.

Lemma call_interrupt i m : call (interrupt i m) = call m \/ removes i /\ call (interrupt i m) = None.
Proof.
  destruct i as [| | | | |s|s st| | |pc st|pc t]; cbn [interrupt removes].
  - left. unfold suspend. destruct (call m) as [id|] eqn:Hc; [|done]. by destruct (decide _).
  - left. unfold toggleMicrophone. destruct (call m) as [id|] eqn:Hc; [|done]. by destruct (localStream _).
  - left. unfold toggleCamera. destruct (call m) as [id|] eqn:Hc; [|done]. destruct (localStream _); [|done]. by destruct (decide _).
  - unfold dismiss. destruct (current m) as [c|]; [|by left]. destruct (isTerminal _); [by right | by left].
  - by right.
  - unfold activate_begin. destruct (session m) as [old|]; [|by left]. destruct (_ || _); [by right | by left].
  - left. unfold activate_end. by destruct (_ || _).
  - left. unfold ring_timer. destruct (ringTimer m); [|done]. destruct (current _) as [c|]; [|done]. destruct (_ && _); [exact (call_endLocal _ (set_ring None m)) | done].
  - left. unfold reconnect_timer. destruct (reconnectTimer m); [|done]. destruct (current _) as [c|]; [|done]. destruct (decide _); [exact (call_endLocal _ (set_reconnect None m)) | done].
  - left. unfold onconnectionstatechange. destruct (connections m !! pc) as [c|]; [|done]. destruct (decide _); [done|].
    destruct st; try done; [|by rewrite call_enter..]. by destruct (decide _).
  - left. unfold ontrack. destruct (connections m !! pc) as [c|]; [|done]. destruct (decide _); [done|].
    destruct (remoteStream _); cbn; by destruct (existsb _ _).
Qed.

Lemma call_plain allowed late fresh m m' : plain allowed late fresh m m' ->
  call m' = call m \/ (exists i, allowed i /\ removes i /\ call m' = None)
  \/ (fresh /\ call m' = Some (length (calls m)) /\ length (calls m') = S (length (calls m)) /\ incoming_ring (the m' (length (calls m)))
      /\ forall c0, current m = Some c0 -> isTerminal (state (snapshot c0)) = true).
Proof.
  intros [i Hi| | | | | | | | | |c Hf Hc H0]; try (by left).
  - destruct (call_interrupt i m) as [|[Hr ?]]; [by left|]. right. left. by exists i.
  - left. apply call_endLocal.
  - left. apply call_mark.
  - left. unfold attachLocalTracks. destruct (peerConnection _); [|done]. by destruct (localStream _).
  - right. right. split_and!; [done | done| |  |done].
    + cbn. rewrite length_app. cbn. lia.
    + unfold the. cbn. by rewrite list_lookup_total_middle.
Qed.

(** ** Sending needs the depth it has

    Within a send a call is answered at most once, as an answered call is no longer
    outgoing. *)
Definition settled (m : Manager) : Prop := forall id, call m = Some id -> (id < length (calls m))%nat /\ state (snapshot (the m id)) <> outgoing.

Lemma edges_keep (Q : CallStateLifecycle -> Prop) accept late d s s' :
  (forall s s', edge accept late d s s' -> Q s -> Q s') -> rtc (edge accept late d) s s' -> Q s -> Q s'.
Proof. intros Hq. induction 1; eauto. Qed.

Lemma settled_plain allowed late fresh m m' : plain allowed late fresh m m' -> settled m -> settled m'.
Proof.
  intros Hp Hm id Hid. destruct (evolves_plain False late allowed fresh m m' Hp) as [Hl Hs].
  destruct (call_plain allowed late fresh m m' Hp) as [Hc|[(i & _ & _ & Hc)|(_ & Hc & Hlen & (_ & Hring & _) & _)]]; rewrite Hc in Hid; [|done|].
  - destruct (Hm id Hid) as [Hlt Hne]. split; [lia|]. destruct (Hs id Hlt) as (_ & _ & He).
    refine (edges_keep (fun s => s <> outgoing) _ _ _ _ _ _ He Hne). by intros ?? [].
  - injection Hid as <-. rewrite Hring, Hlen. split; [lia | done].
Qed.

Section depth.
Context `{CallEnv} `{Locale}.
Implicit Types m : Manager.

Abbreviation anything := (fun _ : Interrupt => True).

Lemma settled_runs {A} (op : Op Manager A) m m1 r : op m = (m1, r) -> steps (runs anything True True) op -> settled m -> settled m1.
Proof. intros Ho Hs. specialize (Hs m). rewrite Ho in Hs. revert Hs. apply runs_keeps. intros ??. apply settled_plain. Qed.

Lemma ask_steps {A} (c : Call A) : asks_media c = false -> steps (runs anything True True) (ask c).
Proof. by apply steps_ask. Qed.

(** Two inner sends that agree on settled states, or a settled state. *)
Definition agree (o1 o2 : list (string * Json) -> Op Manager unit) m : Prop :=
  settled m \/ forall body m', settled m' -> o1 body m' = o2 body m'.

Lemma agree_runs {A} (op : Op Manager A) o1 o2 m m1 r : op m = (m1, r) -> steps (runs anything True True) op -> agree o1 o2 m -> agree o1 o2 m1.
Proof. intros Ho Hs [Hm|Ha]; [left; by eapply settled_runs | by right]. Qed.

Lemma apply_agree o1 o2 r id_of m : agree o1 o2 m -> applyResolutionResponse o1 r id_of m = applyResolutionResponse o2 r id_of m.
Proof.
  intros Ha. unfold applyResolutionResponse. apply bind_agree. intros found m1 [= <- <-].
  destruct (call m) as [id|] eqn:Hc; [|done]. destruct (decide (callId _ = _)) as [Hid|]; [|done].
  apply bind_agree. intros winner m1 [= <- _]. apply bind_agree. intros st m1 [= <- _].
  apply bind_agree. intros c m1 [= <- <-]. apply bind_agree. intros mine m1 [= <- <-].
  destruct (decide _); [done|]. destruct (_ && _); [done|]. destruct (decide _); [done|].
  destruct (_ && _) eqn:Ho; [|done]. apply andb_true_iff in Ho as [_ Hs%bool_decide_eq_true].
  destruct Ha as [Hm|Ha]; [by destruct (Hm id Hc)|].
  assert (Hlt : (id < length (calls m))%nat).
  { destruct (decide (id < length (calls m))%nat) as [|Hge]; [done|]. exfalso. revert Hs. unfold the.
    by rewrite list_lookup_total_alt, lookup_ge_None_2 by lia. }
  apply bind_agree. intros u1 m1 Hm1. assert (Hset : settled m1).
  { injection Hm1 as <-. intros i Hi. cbn in Hi. rewrite Hc in Hi. injection Hi as <-. unfold update. rewrite length_put, the_put.
    rewrite decide_True by done. done. }
  unfold open_connection. apply bind_agree. intros u2 m2 Hm2. apply bind_agree. intros u3 m3 Hm3. apply bind_agree. intros pc m4 Hm4.
  apply bind_agree. intros sdp m5 Hm5. apply bind_agree. intros pc' m6 Hm6. apply bind_agree. intros u7 m7 Hm7. apply Ha.
  eapply settled_runs; [exact Hm7 | by apply ask_steps |]. eapply settled_runs; [exact Hm6 | by apply (steps_connection anything True True) |].
  eapply settled_runs; [exact Hm5 | by apply ask_steps |]. eapply settled_runs; [exact Hm4 | by apply (steps_connection anything True True) |].
  eapply settled_runs; [exact Hm3 | by apply steps_attach |]. eapply settled_runs; [exact Hm2 | by apply steps_ensure | done].
Qed.

Lemma reconcile_agree o1 o2 id_of m : agree o1 o2 m -> reconcileResolution o1 id_of m = reconcileResolution o2 id_of m.
Proof.
  intros Ha. unfold reconcileResolution. apply bind_agree. intros s m1 Hm1. apply bind_agree. intros c m2 Hc. injection Hc as <- <-.
  destruct (current m1) as [c|]; [|done]. destruct (decide _); [done|]. apply bind_agree. intros r m3 Hm3.
  destruct (_ || _); [done|]. destruct (negb _); [done|].
  assert (Ha3 : agree o1 o2 m3).
  { eapply agree_runs; [exact Hm3 | by apply ask_steps |]. eapply agree_runs; [exact Hm1 | by apply (steps_session anything True True) | done]. }
  unfold mbind, op_bind. by rewrite (apply_agree o1 o2).
Qed.

Lemma send_agree o1 o2 peer sid kind body id_of m :
  agree o1 o2 m -> send_signal_for o1 peer sid kind body id_of m = send_signal_for o2 peer sid kind body id_of m.
Proof.
  intros Ha. unfold send_signal_for. apply bind_agree. intros s m1 Hm1. apply bind_agree. intros p m2 Hm2.
  apply bind_agree. intros d m3 Hm3. apply bind_agree. intros r m4 Hm4. destruct (_ && _); [|done].
  assert (Ha4 : agree o1 o2 m4).
  { eapply agree_runs; [exact Hm4 | by apply ask_steps |].
    eapply (agree_runs (if truthy id_of then requireDeviceId else mret "")); [exact Hm3 | |].
    { destruct (truthy id_of); [by apply (steps_device anything True True) | apply steps_ret, _]. }
    eapply agree_runs; [exact Hm2 | by apply ask_steps |]. eapply agree_runs; [exact Hm1 | by apply (steps_session anything True True) | done]. }
  unfold mbind, op_bind, catch. by rewrite (reconcile_agree o1 o2).
Qed.

Lemma send_depth fuel peer sid kind body id_of m : send_with (S fuel) peer sid kind body id_of m = send_with SEND_DEPTH peer sid kind body id_of m.
Proof.
  cbn [send_with SEND_DEPTH]. apply send_agree. right. intros body' m' Hm'. unfold send_signal. apply bind_agree. intros c m1 [= <- <-].
  destruct (current m') as [c|]; [|done]. destruct fuel; [done|]. cbn [send_with]. apply send_agree. by left.
Qed.
End depth.
