(* ===== verification/CallStateSafety.v ===== *)
(** * What the call manager guarantees

    Properties of whole histories of [CallState]: when the camera and the microphone are
    live, that a ringing call ends, how calls move, and where the manager falls short. *)
From Stdlib Require Import Ascii Lia ZArith.
From stdpp Require Import base numbers relations strings list sets.
From S2P Require Import Prelude KeyedSort AsyncOp JsonValue CallState CallStateFacts.

Open Scope string_scope.
Open Scope list_scope.

(** The current call is on the heap. *)
Definition in_range (m : Manager) : Prop := forall id, call m = Some id -> (id < length (calls m))%nat.

(** ** The media of the user *)

(** A track of the stream still runs. *)
Definition live (m : Manager) (s : nat) : Prop := exists l t, streams m !! s = Some l /\ t ∈ l /\ stopped t = false.

Definition over (c : ActiveCall) : Prop := isTerminal (state (snapshot c)) = true.

(** A live stream is the local stream of the current call, which is not over; a call that
    rings has no stream. *)
Record media_safe (m : Manager) : Prop := {
  ms_current : in_range m;
  ms_live : forall s, live m s -> exists id, call m = Some id /\ localStream (snapshot (the m id)) = Some s /\ ~ over (the m id);
  ms_ring : forall id, isIncoming (state (snapshot (the m id))) = true -> localStream (snapshot (the m id)) = None
}.

Definition snap_keeps (s s' : CallSnapshot) : Prop :=
  localStream s' = localStream s /\ (isTerminal (state s') = true -> isTerminal (state s) = true)
  /\ (isIncoming (state s') = true -> isIncoming (state s) = true).

(** Steps that start no stream and lose none. *)
Record quiet (m m' : Manager) : Prop := {
  q_call : call m' = call m;
  q_length : length (calls m') = length (calls m);
  q_live : forall s, live m' s -> live m s;
  q_snap : forall id, snap_keeps (snapshot (the m id)) (snapshot (the m' id))
}.

#[export] Instance quiet_preorder : PreOrder quiet.
Proof.
  split; [by intros m; split|]. intros m1 m2 m3 [Hc Hl Hv Hs] [Hc' Hl' Hv' Hs']. split; [congruence | congruence | auto |].
  intros id. destruct (Hs id) as (Ha & Hb & Hd), (Hs' id) as (Ha' & Hb' & Hd'). split_and!; [congruence | auto..].
Qed.

Section media.
Implicit Types m : Manager.

Lemma media_quiet m m' : media_safe m -> quiet m m' -> media_safe m'.
Proof.
  intros [Hc Hl Hr] [Qc Ql Qv Qs]. split.
  - intros id. rewrite Qc, Ql. apply Hc.
  - intros s Hs. destruct (Hl s (Qv s Hs)) as (id & Hid & Hloc & Hover). exists id. destruct (Qs id) as (Ha & Hb & _).
    split_and!; [congruence | congruence | unfold over in *; auto].
  - intros id Hi. destruct (Qs id) as (Ha & _ & Hd). rewrite Ha. by apply Hr, Hd.
Qed.

(** A state without any live stream. *)
Lemma media_silent m m' :
  media_safe m -> (forall s, ~ live m' s) -> (forall id, call m' = Some id -> (id < length (calls m'))%nat) ->
  (forall id, isIncoming (state (snapshot (the m' id))) = true ->
     isIncoming (state (snapshot (the m id))) = true /\ localStream (snapshot (the m' id)) = localStream (snapshot (the m id))
     \/ localStream (snapshot (the m' id)) = None) -> media_safe m'.
Proof.
  intros [_ _ Hr] Hl Hc Hi. split; [done | by intros s Hs; destruct (Hl s) |].
  intros id Hid. destruct (Hi id Hid) as [[Ho ->]|]; auto.
Qed.

Lemma live_same m m' s : streams m' = streams m -> live m' s -> live m s.
Proof. unfold live. by intros ->. Qed.

(** Changing the tracks of a stream, but starting none. *)
Lemma live_put s l m x : (forall t, t ∈ l -> stopped t = false -> exists t', t' ∈ streams m !!! s /\ stopped t' = false) ->
  live (put_stream s l m) x -> live m x.
Proof.
  intros Hl (l' & t & Hx & Ht & Hs). cbn in Hx. destruct (decide (x = s)) as [->|Hne].
  - destruct (decide (s < length (streams m))%nat) as [Hlt|Hge].
    + rewrite list_lookup_insert_eq in Hx by done. injection Hx as <-. destruct (Hl t Ht Hs) as (t' & Ht' & Hs').
      exists (streams m !!! s), t'. split; [|done]. by apply list_lookup_lookup_total_lt.
    + rewrite list_insert_ge in Hx by lia. by exists l', t.
  - rewrite list_lookup_insert_ne in Hx by done. by exists l', t.
Qed.

Lemma quiet_streams m m' : call m' = call m -> calls m' = calls m -> (forall s, live m' s -> live m s) -> quiet m m'.
Proof. intros Hc Hs Hl. split; [done | by rewrite Hs | done |]. intros id. unfold the. by rewrite Hs. Qed.

Lemma quiet_same m m' : call m' = call m -> calls m' = calls m -> streams m' = streams m -> quiet m m'.
Proof. intros. apply quiet_streams; [done..|]. intros s. by apply live_same. Qed.

Lemma quiet_put id c m : snap_keeps (snapshot (the m id)) (snapshot c) -> quiet m (put id c m).
Proof.
  intros Hs. split; [done | apply length_put | intros s; by apply live_same |]. intros i. rewrite the_put. by destruct (decide _) as [[-> _]|].
Qed.

Lemma snap_talks st s : isTerminal st = false -> isIncoming st = false -> snap_keeps s (with_state st s).
Proof. intros Ht Hi. split_and!; cbn; congruence. Qed.

Lemma quiet_update f id m : snap_keeps (snapshot (the m id)) (f (snapshot (the m id))) -> quiet m (update f id m).
Proof. intros Hs. by apply quiet_put. Qed.

Lemma quiet_emit m m' : quiet m m' -> quiet m (emit m').
Proof. intros Hq. transitivity m'; [done | by apply quiet_same]. Qed.

Lemma live_stopped s m x : live (stop_local (Some s) m) x -> live m x /\ x <> s.
Proof.
  intros Hx. split.
  - revert Hx. apply live_put. intros t Ht Hst. apply list_elem_of_fmap in Ht as (t' & -> & Ht'). discriminate Hst.
  - intros ->. destruct Hx as (l & t & Hl & Ht & Hst). cbn in Hl. destruct (decide (s < length (streams m))%nat) as [Hlt|Hge].
    + rewrite list_lookup_insert_eq in Hl by done. injection Hl as <-. apply list_elem_of_fmap in Ht as (t' & -> & _). discriminate Hst.
    + rewrite list_insert_ge, lookup_ge_None_2 in Hl by lia. discriminate Hl.
Qed.

Lemma live_release m x : live (releaseMedia m) x -> live m x /\ forall id, call m = Some id -> localStream (snapshot (the m id)) <> Some x.
Proof.
  unfold releaseMedia. destruct (call m) as [id|]; [|done]. intros Hx.
  assert (Hx1 : live (stop_local (localStream (snapshot (the m id))) m) x).
  { revert Hx. unfold close_connection, stop_remote. by destruct (peerConnection _), (remoteStream _). }
  destruct (localStream (snapshot (the m id))) as [s|] eqn:Hs; [|split; [done | intros ? [= <-]; congruence]].
  apply live_stopped in Hx1 as [Hm Hne]. split; [done|]. intros ? [= <-]. congruence.
Qed.

Lemma silent_release m : media_safe m -> forall s, ~ live (releaseMedia m) s.
Proof.
  intros [_ Hl _] s Hs. apply live_release in Hs as [Hs Hne]. destruct (Hl s Hs) as (id & Hid & Hloc & _). by apply (Hne id).
Qed.

Lemma snapshot_update f id m i :
  snapshot (the (update f id m) i) = if decide (i = id /\ (id < length (calls m))%nat) then f (snapshot (the m id)) else snapshot (the m i).
Proof. unfold update. rewrite the_put. by destruct (decide _). Qed.

Lemma length_release m : length (calls (releaseMedia m)) = length (calls m).
Proof. apply (calls_release False False m). Qed.

Lemma snapshot_release m id : snapshot (the (releaseMedia m) id) = snapshot (the m id).
Proof. apply (calls_release False False m). Qed.

Lemma timers_release m : ringTimer (releaseMedia m) = ringTimer m /\ reconnectTimer (releaseMedia m) = reconnectTimer m.
Proof.
  unfold releaseMedia. destruct (call m); [|done]. unfold close_connection, stop_remote, stop_local.
  by destruct (localStream _), (remoteStream _), (peerConnection _).
Qed.

Lemma connection_release m id : in_range m -> call m = Some id -> peerConnection (the (releaseMedia m) id) = None.
Proof.
  intros Hm Hid. unfold releaseMedia. rewrite Hid, the_put, decide_True; [done|]. split; [done|].
  unfold close_connection, stop_remote, stop_local. pose proof (Hm id Hid).
  by destruct (localStream _), (remoteStream _), (peerConnection _).
Qed.

(** The current call is over and its media are stopped. *)
Lemma media_over f m :
  (forall s, isIncoming (state (f s)) = false) -> media_safe m -> (forall s, ~ live m s) ->
  forall id, call m = Some id -> media_safe (emit (update f id m)).
Proof.
  intros Hf Hm Hl id Hid. apply (media_silent m); [done | | | ].
  - intros s Hs. apply (Hl s). revert Hs. by apply live_same.
  - intros i Hi. cbn. rewrite length_insert. by apply (ms_current m Hm).
  - intros i. change (the (emit ?x) i) with (the x i). rewrite snapshot_update. destruct (decide _) as [[-> _]|]; [|by left].
    rewrite Hf. discriminate.
Qed.

Lemma media_release m : media_safe m -> media_safe (releaseMedia m).
Proof.
  intros Hm. apply (media_silent m); [done | by apply silent_release | |].
  - intros id. rewrite call_release, length_release. apply ms_current, Hm.
  - intros id. rewrite snapshot_release. by left.
Qed.

Lemma media_forget m : media_safe m -> (forall s, ~ live m s) -> media_safe (set_call None m).
Proof. intros Hm Hl. apply (media_silent m); [done | intros s Hs; apply (Hl s); revert Hs; by apply live_same | done | by left]. Qed.

Lemma media_same m m' : call m' = call m -> calls m' = calls m -> streams m' = streams m -> media_safe m -> media_safe m'.
Proof. intros Hc Hcs Hs Hm. by apply (media_quiet m), quiet_same. Qed.

Lemma media_endLocal r m : media_safe m -> media_safe (endLocal r m).
Proof.
  intros Hm. unfold endLocal. destruct (call m) as [id|] eqn:Hc; [|done].
  set (m1 := clearReconnectTimeout (clearRingTimeout m)). assert (Hm1 : media_safe m1) by (by apply (media_same m)).
  apply media_over; [done | by apply media_release | by apply silent_release | by rewrite call_release].
Qed.

Lemma media_mark w m : media_safe m -> media_safe (markHandledElsewhere w m).
Proof.
  intros Hm. unfold markHandledElsewhere. destruct (call m) as [id|] eqn:Hc; [|done].
  set (m1 := clearRingTimeout m). assert (Hm1 : media_safe m1) by (by apply (media_same m)).
  apply media_over; [done | by apply media_release | by apply silent_release | by rewrite call_release].
Qed.

Lemma media_reset m : media_safe m -> media_safe (reset m).
Proof.
  intros Hm. unfold reset. set (m1 := clearReconnectTimeout (clearRingTimeout m)). assert (Hm1 : media_safe m1) by (by apply (media_same m)).
  apply (media_same (set_call None (releaseMedia m1))); [done..|]. apply media_forget; [by apply media_release | by apply silent_release].
Qed.

Lemma quiet_enter id m : quiet m (enterReconnect id m).
Proof.
  unfold enterReconnect. destruct (_ && _) eqn:Hs; [done|].
  set (m1 := if decide _ then _ else m). assert (Hm1 : quiet m m1).
  { unfold m1. destruct (decide _) as [Hd|]; [|done]. by apply quiet_emit, quiet_update, snap_talks. }
  clearbody m1. destruct (reconnectTimer m1); [done|]. transitivity m1; [done | by apply quiet_same].
Qed.

Lemma quiet_enabled kind on s m : quiet m (put_stream s (set_enabled kind on <$> streams m !!! s) m).
Proof.
  apply quiet_streams; [done..|]. intros x. apply live_put. intros t Ht Hs. apply list_elem_of_fmap in Ht as (t' & -> & Ht').
  exists t'. split; [done|]. unfold set_enabled in Hs. by destruct (decide _).
Qed.

(** The interrupts that are quiet, whatever the call. *)
Definition calm (i : Interrupt) : Prop := match i with do_dismiss | do_reset | do_activate _ | reconnect_fires => False | _ => True end.

Lemma quiet_calm i m : calm i -> i <> ring_fires -> quiet m (interrupt i m).
Proof.
  destruct i as [| | | | |s|s st| | |pc st|pc t]; cbn [interrupt calm]; intros Hcalm Hring; try done.
  - unfold suspend. destruct (call m) as [id|]; [|done]. destruct (decide _) as [Hs|]; [|done]. by apply quiet_emit, quiet_update, snap_talks.
  - unfold toggleMicrophone. destruct (call m) as [id|]; [|done]. destruct (localStream _); [|done].
    apply quiet_emit. etransitivity; [apply quiet_enabled|]. by apply quiet_update.
  - unfold toggleCamera. destruct (call m) as [id|]; [|done]. destruct (localStream _); [|done]. destruct (decide _); [done|].
    apply quiet_emit. etransitivity; [apply quiet_enabled|]. by apply quiet_update.
  - unfold activate_end. destruct (_ || _); [done | by apply quiet_same].
  - unfold onconnectionstatechange. destruct (connections m !! pc) as [c|]; [|done]. destruct (decide _); [done|].
    set (m1 := put_connection _ _ m). transitivity m1; [by apply quiet_same|]. destruct st; try done; [|apply quiet_enter..].
    destruct (decide _) as [Hs|]; [|by apply quiet_same]. apply quiet_emit. transitivity (clearReconnectTimeout m1); [by apply quiet_same|].
    by apply quiet_update, snap_talks.
  - unfold ontrack. destruct (connections m !! pc) as [c|]; [|done]. destruct (decide _); [done|].
    destruct (match remoteStream _ with Some s => (s, m) | None => _ end) as [remote m1] eqn:Hr.
    assert (Hm1 : quiet m m1) by (destruct (remoteStream _); injection Hr as _ <-; [done | by apply quiet_same]).
    transitivity m1; [done|]. apply quiet_emit. set (m2 := if existsb _ _ then _ else _).
    transitivity m2; [unfold m2; destruct (existsb _ _); [done | by apply quiet_same]|]. by apply quiet_update.
Qed.

Lemma media_interrupt i m : media_safe m -> media_safe (interrupt i m).
Proof.
  intros Hm. destruct i as [| | | | |s|s st| | |pc st|pc t]; try (by apply (media_quiet m), quiet_calm); cbn [interrupt].
  - unfold dismiss. destruct (current m) as [c|]; [|done]. destruct (isTerminal _); [|done].
    apply (media_same (set_call None (releaseMedia m))); [done..|]. apply media_forget; [by apply media_release | by apply silent_release].
  - by apply media_reset.
  - unfold activate_begin. set (m1 := match session m with Some _ => _ | None => m end). apply (media_same m1); [done..|].
    unfold m1. destruct (session m); [|done]. destruct (_ || _); [by apply media_reset | done].
  - unfold ring_timer. destruct (ringTimer m); [|done]. assert (media_safe (set_ring None m)) by (by apply (media_same m)).
    destruct (current _); [|done]. destruct (_ && _); [by apply media_endLocal | done].
  - unfold reconnect_timer. destruct (reconnectTimer m); [|done]. assert (media_safe (set_reconnect None m)) by (by apply (media_same m)).
    destruct (current _); [|done]. destruct (decide _); [by apply media_endLocal | done].
Qed.

(** A fresh call takes the place of one that is over, or of none. *)
Lemma media_new c m :
  media_safe m -> (forall s, ~ live m s) ->
  (isIncoming (state (snapshot c)) = true -> localStream (snapshot c) = None) -> media_safe (new_call c m).
Proof.
  intros Hm Hl Hc. apply (media_silent m); [done | | |].
  - intros s Hs. apply (Hl s). revert Hs. by apply live_same.
  - intros id [= <-]. cbn. rewrite length_app. cbn. lia.
  - intros id. unfold the. cbn. destruct (decide (id < length (calls m))%nat) as [Hlt|Hge]; [rewrite lookup_total_app_l by done; by left|].
    rewrite lookup_total_app_r by lia. destruct (id - length (calls m))%nat as [|n]; cbn; [by right; auto|].
    unfold lookup_total. cbn. discriminate.
Qed.

Lemma media_plain allowed late fresh m m' : plain allowed late fresh m m' -> media_safe m -> media_safe m'.
Proof.
  intros [i _| | | |id w at_ Hc Hd Hs|id Hc Hs| | | | |c _ (_ & Hring & Hlocal & _) H0] Hm.
  - by apply media_interrupt.
  - by apply (media_same m).
  - by apply media_endLocal.
  - by apply media_mark.
  - apply (media_quiet m); [done|]. transitivity (clearRingTimeout m); [by apply quiet_same | by apply quiet_update].
  - apply (media_quiet m); [done|]. apply quiet_emit. transitivity (clearReconnectTimeout m); [by apply quiet_same|].
    by apply quiet_update, snap_talks.
  - apply (media_quiet m); [done|]. by apply quiet_update.
  - apply (media_quiet m); [done|]. unfold connect. set (m1 := set_heap _ _ _ m). transitivity m1; [by apply quiet_same | by apply quiet_put].
  - apply (media_quiet m); [done|]. apply quiet_emit. unfold attachLocalTracks. destruct (peerConnection _); [|done].
    destruct (localStream _); [|done]. by apply quiet_same.
  - apply (media_quiet m); [done|]. by apply quiet_put.
  - apply (media_same (new_call c m)); [done..|]. apply media_new; [done | | done].
    intros s Hs. destruct (ms_live m Hm s Hs) as (id & Hid & _ & Hover). apply Hover, H0. unfold current. by rewrite Hid.
Qed.

Lemma media_runs allowed late fresh m m' : runs allowed late fresh m m' -> media_safe m -> media_safe m'.
Proof. apply runs_keeps, media_plain. Qed.
End media.

Abbreviation anything := (fun _ : Interrupt => True).

Section histories.
Context `{CallEnv} `{Locale}.
Implicit Types m : Manager.

Lemma keeps_ask (P : Manager -> Prop) {A} (c : Call A) :
  (forall m, P m -> P (record (called c) m)) -> (forall h i m, i ∈ meanwhile h -> P m -> P (interrupt i m)) -> keeps P (ask c).
Proof. intros Hc Hi. apply (steps_await (fun m m' => P m -> P m')); [done|]. intros m0 i m Hin. by eapply Hi. Qed.

Lemma media_steps {A} (op : Op Manager A) : steps (runs anything True True) op -> keeps media_safe op.
Proof. intros Hs m. by eapply media_runs. Qed.

Definition idle_now m : Prop := media_safe m /\ call m = None.

Lemma idle_interrupt i m : idle_now m -> idle_now (interrupt i m).
Proof. intros [Hm Hc]. split; [by apply media_interrupt|]. destruct (call_interrupt i m) as [->|[_ ->]]; done. Qed.

Lemma idle_silent m : idle_now m -> forall s, ~ live m s.
Proof. intros [Hm Hc] s Hs. destruct (ms_live m Hm s Hs) as (id & Hid & _). congruence. Qed.

Lemma media_requireIdle : leads media_safe requireIdle (fun r m => match r with Ok _ => idle_now m | Err _ => media_safe m end).
Proof.
  intros m Hm. unfold requireIdle. assert (Hi : idle_now (set_call None (releaseMedia m))).
  { split; [|done]. apply media_forget; [by apply media_release | by apply silent_release]. }
  destruct (current m) as [c|]; [|done]. by destruct (negb _).
Qed.

(** What [acquireMedia] does to a state that [P] holds of. *)
Lemma acquire_leads (P : Manager -> Prop) kind :
  (forall c, P c -> P (record (called (getUserMedia (bool_decide (kind = video)))) c)) ->
  (forall h i m, i ∈ meanwhile h -> P m -> P (interrupt i m)) ->
  leads P (acquireMedia kind) (fun r m => match r with
    | Ok s => exists m0 tracks, P m0 /\ s = length (streams m0) /\ m = set_heap (calls m0) (connections m0) (streams m0 ++ [tracks]) m0
    | Err _ => P m end).
Proof.
  intros Hc Hi. unfold acquireMedia. destruct mediaDevices; [|by intros m Hm].
  eapply (leads_bind _ _ _ (fun _ => P)); [by apply keeps_ask | | done].
  intros tracks m Hm. cbn. by exists m, tracks.
Qed.

(** The new stream goes to a call that is not over; nothing else was live. *)
Lemma live_app m tracks x :
  live (set_heap (calls m) (connections m) (streams m ++ [tracks]) m) x -> live m x \/ x = length (streams m).
Proof.
  intros (l & t & Hx & Ht & Hs). cbn in Hx. apply lookup_app_Some in Hx as [Hx|[Hge Hx]]; [left; by exists l, t|].
  right. apply list_lookup_singleton_Some in Hx as [Hx _]. lia.
Qed.

Lemma media_start peer kind : keeps media_safe (startOutgoingCall peer kind).
Proof.
  unfold startOutgoingCall. apply leads_keeps. eapply leads_bind; [apply media_requireIdle | | done]. intros u0.
  assert (Hi : forall h i m, i ∈ meanwhile h -> idle_now m -> idle_now (interrupt i m)) by (intros; by apply idle_interrupt).
  eapply (leads_bind idle_now _ _ (fun _ => idle_now)); [|intros s | intros e m [Hm _]; exact Hm].
  { intros m Hm. unfold requireSession. by destruct (session m). }
  eapply (leads_bind idle_now _ _ (fun _ => idle_now)); [by intros m Hm | intros id_of | intros e m [Hm _]; exact Hm].
  eapply leads_bind; [apply (acquire_leads idle_now) | intros stream | intros e m [Hm _]; exact Hm].
  { intros m [Hm Hc]. split; [by apply (media_same m) | done]. }
  { done. }
  eapply (leads_bind _ _ _ (fun _ => media_safe)); [| intros u1 | done].
  - intros m (m0 & tracks & Hidle & -> & ->). pose proof (idle_silent m0 Hidle) as Hl. destruct Hidle as [Hm0 _]. cbn [fst snd modify].
    set (c := {| direction := call_outgoing |}). set (m1 := set_heap (calls m0) (connections m0) (streams m0 ++ [tracks]) m0).
    change (media_safe (new_call c m1)). destruct Hm0 as [Hr0 _ Hring]. split.
    + intros id [= <-]. cbn. rewrite length_app. cbn. lia.
    + intros x Hx. assert (Hx1 : live m1 x) by (revert Hx; by apply live_same).
      destruct (live_app m0 tracks x Hx1) as [Hx0| ->]; [by destruct (Hl x)|]. exists (length (calls m0)).
      unfold the. cbn. rewrite list_lookup_total_middle by done. done.
    + intros id. unfold the. cbn. destruct (decide (id < length (calls m0))%nat) as [Hlt|Hge]; [rewrite lookup_total_app_l by done; apply Hring|].
      rewrite lookup_total_app_r by lia. by destruct (id - length (calls m0))%nat as [|n].
  - apply leads_keeps, keeps_bind; [apply media_steps | intros u2; apply keeps_bind; [|by intros u3 m]].
    2: { apply keeps_modify. intros m. by apply media_same. }
    apply steps_catch; [apply _ | by apply steps_sendSignal | intros e]. op_steps. apply rtc_once, plain_end.
Qed.

(** The state of a call in progress. *)
Definition talks (s : CallStateLifecycle) : bool := match s with active_here | reconnecting => true | _ => false end.

(** The call that the user just accepted: taken, and without a stream yet. *)
Record taken (id : nat) m : Prop := {
  tk_safe : media_safe m;
  tk_call : call m = Some id;
  tk_stream : localStream (snapshot (the m id)) = None;
  tk_talks : talks (state (snapshot (the m id))) = true
}.

Lemma taken_silent id m : taken id m -> forall s, ~ live m s.
Proof. intros [Hm Hc Hl _] s Hs. destruct (ms_live m Hm s Hs) as (id' & Hid & Hloc & _). congruence. Qed.

Lemma talks_edges accept late d s s' : rtc (edge accept late d) s s' -> talks s = true -> isTerminal s' = false -> talks s' = true.
Proof.
  intros He Hs Ht. assert (Hq : talks s' = true \/ isTerminal s' = true); [|by destruct Hq; [|congruence]].
  refine (edges_keep (fun s => talks s = true \/ isTerminal s = true) _ _ _ _ _ _ He (or_introl Hs)).
  intros ?? []; auto.
Qed.

Lemma taken_quiet id m m' : taken id m -> quiet m m' -> evolves False False m m' -> taken id m'.
Proof.
  intros [Hm Hc Hl Ht] Hq [_ He]. destruct Hq as [Qc Ql Qv Qs] eqn:Hq'. clear Hq'. pose proof (Qs id) as (Ha & Hb & _).
  split; [by apply (media_quiet m) | congruence | congruence |].
  destruct (He id (ms_current m Hm id Hc)) as (_ & _ & Hedge). eapply talks_edges; [exact Hedge | done |].
  destruct (isTerminal (state (snapshot (the m' id)))) eqn:Hterm; [|done]. specialize (Hb eq_refl). by destruct (state (snapshot (the m id))).
Qed.

Lemma taken_calm id i m : calm i -> taken id m -> taken id (interrupt i m).
Proof.
  intros Hc Ht. assert (Hi : i = ring_fires \/ i <> ring_fires) by (destruct i; auto; by right). destruct Hi as [->|Hne].
  - cbn. unfold ring_timer. destruct (ringTimer m); [|done].
    assert (Hid : current (set_ring None m) = Some (the m id)) by (unfold current; cbn; by rewrite (tk_call id m Ht)).
    rewrite Hid. destruct (_ && _) eqn:Hr; [|by apply (taken_quiet id m); [|apply quiet_same|apply call_evolves_same]].
    apply andb_true_iff in Hr as [_ Hr]. pose proof (tk_talks id m Ht) as Hs. by destruct (state (snapshot (the m id))).
  - apply (taken_quiet id m); [done | by apply quiet_calm | apply evolves_interrupt].
Qed.

Section calm.
Hypothesis Hcalm : forall h i, i ∈ meanwhile h -> calm i.

(** From the acceptance on: the stream is stored in the call that is still the current one. *)
Lemma media_open id id_of kind : leads (taken id) (open_media id id_of kind) (fun _ => media_safe).
Proof.
  unfold open_media. eapply (leads_catch _ _ _ (fun _ => media_safe)); [| done |].
  - eapply leads_bind; [apply (acquire_leads (taken id)) | intros s | intros e m Hm; apply (tk_safe id m Hm)].
    { intros m Hm. by apply (taken_quiet id m); [|apply quiet_same|apply call_evolves_same]. }
    { intros h i m Hi. by apply taken_calm, (Hcalm h). }
    eapply (leads_bind _ _ _ (fun _ => media_safe)); [|intros u|done].
    + intros m (m0 & tracks & Ht & -> & ->). pose proof (taken_silent id m0 Ht) as Hl. destruct Ht as [[Hr _ Hring] Hc Hloc Htalks]. cbn [fst snd modify].
      set (m1 := set_heap (calls m0) (connections m0) (streams m0 ++ [tracks]) m0). split.
      * intros i. cbn. rewrite length_insert. apply Hr.
      * intros x Hx. assert (Hx1 : live m1 x) by (revert Hx; by apply live_same).
        destruct (live_app m0 tracks x Hx1) as [Hx0| ->]; [by destruct (Hl x)|]. exists id. unfold over. rewrite snapshot_update.
        rewrite decide_True by (split; [done | by apply Hr]). cbn. split_and!; [done..|].
        change (the m1 id) with (the m0 id). by destruct (state (snapshot (the m0 id))).
      * intros i. rewrite snapshot_update. destruct (decide _) as [[-> _]|]; [|apply Hring]. cbn.
        change (the m1 id) with (the m0 id). by destruct (state (snapshot (the m0 id))).
    + apply leads_keeps, media_steps. op_step; [by apply steps_ensure|]. by apply steps_attach.
  - intros e. apply leads_keeps. apply media_steps. op_steps; [by apply steps_sendSignal | by apply rtc_once, plain_end].
Qed.

(** While the acceptance is sent the call stays the current one. *)
Lemma call_calm m m' : runs calm True False m m' -> call m' = call m.
Proof.
  induction 1 as [|m1 m2 m3 Hp _ IH]; [done|]. rewrite IH.
  destruct (call_plain _ _ _ _ _ Hp) as [|[(i & Hi & Hr & _)|[[] _]]]; [done|]. by destruct i.
Qed.

Lemma media_accept : keeps media_safe acceptCall.
Proof.
  intros m Hm. unfold acceptCall, incoming_call. destruct (call m) as [id|] eqn:Hc; [|done].
  destruct (isIncoming _) eqn:Hring; [|done]. set (s := snapshot (the m id)).
  assert (Hm0 : media_safe (clearRingTimeout m)) by (by apply (media_same m)).
  unfold accept_ringing, mbind at 1, op_bind at 1, catch at 1.
  pose proof (steps_sendSignal calm True False Hcalm CALL_ACCEPT [("callId", jstring (callId s))] (callId s) (clearRingTimeout m)) as Hsend.
  destruct (sendSignal _ _ _ _) as [m1 [u|e]]; cbn [fst] in Hsend; pose proof (media_runs _ _ _ _ _ Hsend Hm0) as Hm1.
  - pose proof (call_calm _ _ Hsend) as Hc1. change (call (clearRingTimeout m)) with (call m) in Hc1. rewrite Hc in Hc1.
    destruct (evolves_runs False True calm False _ _ Hsend) as [_ He].
    destruct (He id (ms_current m Hm id Hc)) as (_ & Hloc & _). change (the (clearRingTimeout m) id) with (the m id) in Hloc.
    unfold streams_from in Hloc. rewrite (ms_ring m Hm id Hring) in Hloc.
    assert (Htaken : taken id (take id m1)).
    { assert (Hq : quiet m1 (take id m1)) by (by apply quiet_emit, quiet_update).
      assert (Hat : snapshot (the (take id m1) id) = with_winner (Some (deviceId m1)) (with_start (Some (Date_now (trace m1))) (with_state active_here (snapshot (the m1 id))))).
      { unfold take. change (the (emit ?x) id) with (the x id). rewrite snapshot_update. rewrite decide_True; [done|].
        split; [done | by apply (ms_current m1 Hm1)]. }
      split; [by apply (media_quiet m1) | by rewrite <- Hc1 | | by rewrite Hat]. rewrite Hat. cbn. by destruct Hloc as [[]|[|]]. }
    pose proof (media_open id (callId s) (mediaKind s) _ Htaken) as Ho. unfold mbind, op_bind, modify.
    destruct (open_media _ _ _ _) as [m2 [u'|e]]; exact Ho.
  - change (media_safe (rearm (callId s) m1)). unfold rearm. destruct (decide (_ = _)); [done | by apply (media_same m1)].
Qed.

End calm.

(** ** How calls move *)


Lemma range_same m m' : call m' = call m \/ call m' = None -> (length (calls m) <= length (calls m'))%nat -> in_range m -> in_range m'.
Proof. intros [Hc|Hc] Hl Hr id Hid; [|congruence]. rewrite Hc in Hid. specialize (Hr id Hid). lia. Qed.

Lemma range_plain allowed late fresh m m' : plain allowed late fresh m m' -> in_range m -> in_range m'.
Proof.
  intros Hp Hr. destruct (evolves_plain False late allowed fresh m m' Hp) as [Hl _].
  destruct (call_plain allowed late fresh m m' Hp) as [Hc|[(i & _ & _ & Hc)|(_ & Hc & Hlen & _)]];
    [by apply (range_same m m'); [left|..] | by apply (range_same m m'); [right|..] |].
  intros id. rewrite Hc. intros [= <-]. lia.
Qed.

Lemma range_steps {A} (op : Op Manager A) : steps (runs anything True True) op -> keeps in_range op.
Proof. intros Hs m. specialize (Hs m). revert Hs. apply runs_keeps, range_plain. Qed.

Lemma range_acquire kind : keeps in_range (acquireMedia kind).
Proof.
  unfold keeps, acquireMedia. op_steps; [|intros m; by apply range_same; [left|]].
  apply keeps_ask; [intros m; by apply range_same; [left|]|]. intros h i m _ Hr. by apply (range_plain anything True True m), Hr; constructor.
Qed.

Lemma range_send kind body id_of : keeps in_range (sendSignal kind body id_of).
Proof. by apply range_steps, steps_sendSignal. Qed.

Lemma range_modify f : (forall m, call (f m) = call m \/ call (f m) = None) -> (forall m, (length (calls m) <= length (calls (f m)))%nat) -> keeps in_range (modify f).
Proof. intros Hc Hl. apply keeps_modify. intros m. by apply range_same. Qed.

Lemma range_end r : keeps in_range (modify (endLocal r)).
Proof. apply range_steps. op_steps. apply rtc_once, plain_end. Qed.

Lemma range_start peer kind : keeps in_range (startOutgoingCall peer kind).
Proof.
  unfold keeps, startOutgoingCall. op_step.
  { intros m Hr. unfold requireIdle. assert (Hn : in_range (set_call None (releaseMedia m))) by done.
    destruct (current m); [|done]. by destruct (negb _). }
  op_step; [intros m; unfold requireSession; by destruct (session m)|]. op_step; [op_step|].
  op_step; [apply range_acquire|]. op_step; [op_step; intros _ id [= <-]; cbn; rewrite length_app; cbn; lia|].
  op_step; [|op_steps; apply range_same; by left]. op_step; [apply range_send|]. op_step; [apply range_end | op_step].
Qed.

Lemma range_accept : keeps in_range acceptCall.
Proof.
  intros m Hr. unfold acceptCall. destruct (incoming_call m) as [id|]; [|done].
  assert (Hr0 : in_range (clearRingTimeout m)) by done. revert Hr0. set (s := snapshot (the m id)). generalize (clearRingTimeout m). clear Hr.
  change (keeps in_range (accept_ringing id s)). unfold keeps, accept_ringing, open_media.
  op_step.
  { op_step; [apply range_send|]. op_step; [|op_step]. apply range_modify; intros m0; unfold rearm; destruct (decide (_ = _)); auto. }
  op_step; [apply range_modify; intros m0; cbn; rewrite ?length_insert; auto|]. op_step; [|op_step]. op_step.
  - op_step; [apply range_acquire|]. op_step; [apply range_modify; intros m0; cbn; rewrite ?length_insert; auto|].
    op_step; [by apply range_steps, steps_ensure | by apply range_steps, steps_attach].
  - op_step; [op_step; apply range_send|]. op_step; [apply range_end | op_step].
Qed.

Lemma steps_activate late fresh s : steps (runs anything late fresh) (activate s).
Proof. unfold activate. op_step; [|by apply steps_activated]. op_step. by apply rtc_once, (plain_interrupt _ _ _ _ (do_activate s)). Qed.

(** The operations that neither start nor accept a call. *)
Lemma plain_operation late o m :
  o <> op_accept -> (forall peer kind, o <> op_start peer kind) -> (forall ev, o = op_signal ev -> signalKind ev = CALL_ACCEPT -> late) ->
  runs anything late True m (run_operation o m).
Proof.
  intros Ha Hs Hl. assert (Hany : forall h i, i ∈ meanwhile h -> anything i) by done.
  destruct o as [i|s| |ev|peer kind| |reason| |id_of|id c]; cbn [run_operation]; try done.
  - by apply rtc_once, plain_interrupt.
  - apply steps_activate.
  - by apply steps_resume.
  - apply steps_signal; [done | by apply Hl | done].
  - by destruct (Hs peer kind).
  - by apply steps_reject.
  - by apply steps_end.
  - by apply steps_read.
  - by apply steps_candidate.
Qed.

Lemma range_operation o m : in_range m -> in_range (run_operation o m).
Proof.
  destruct o as [i|s| |ev|peer kind| |reason| |id_of|id c]; try (apply (runs_keeps _ anything True True); [apply range_plain | by apply plain_operation]).
  - apply range_start.
  - apply range_accept.
Qed.

Lemma media_operation o m : (forall h i, i ∈ meanwhile h -> calm i) \/ o <> op_accept -> media_safe m -> media_safe (run_operation o m).
Proof.
  intros Hcalm. destruct o as [i|s| |ev|peer kind| |reason| |id_of|id c]; try (apply (media_runs anything True True); by apply plain_operation).
  - apply media_start.
  - destruct Hcalm; [by apply media_accept | done].
Qed.

Lemma run_keeps_of (P : Manager -> Prop) l m : (forall o m, o ∈ l -> P m -> P (run_operation o m)) -> P m -> P (run l m).
Proof.
  revert m. induction l as [|o l IH]; intros m Ho Hm; [done|]. apply IH; [intros o' m' Hin; apply Ho; by right|]. apply Ho; [left | done].
Qed.

Lemma run_keeps (P : Manager -> Prop) l m : (forall o m, P m -> P (run_operation o m)) -> P m -> P (run l m).
Proof. intros Ho. apply run_keeps_of. auto. Qed.

Lemma media_new_manager : media_safe new_manager.
Proof. split; [done | by intros s (l & t & Hs & _) |]. intros id. unfold the. cbn. by destruct id. Qed.

(** Ending the call: its state, its timers, its media and its connection. *)
Lemma endLocal_ends r m c : in_range m -> current m = Some c ->
  let m' := endLocal r m in
  (forall s, live m' s -> live m s /\ localStream (snapshot c) <> Some s) /\ ringTimer m' = None /\ reconnectTimer m' = None
  /\ exists c', current m' = Some c' /\ identity c' = identity c /\ state (snapshot c') = ended /\ endReason (snapshot c') = Some r
       /\ localStream (snapshot c') = None /\ peerConnection c' = None.
Proof.
  intros Hr Hc m'. unfold m', endLocal. unfold current in Hc. destruct (call m) as [id|] eqn:Hid; [|done]. injection Hc as <-.
  set (m1 := clearReconnectTimeout (clearRingTimeout m)).
  assert (Hlt : (id < length (calls (releaseMedia m1)))%nat) by (rewrite length_release; by apply Hr).
  set (f := fun s : CallSnapshot => with_streams None None _). split_and!.
  - intros s Hs. apply (live_same (releaseMedia m1)) in Hs; [|done]. apply live_release in Hs as [Hs Hne]. split; [done | by apply Hne].
  - cbn. by destruct (timers_release m1) as [-> _].
  - cbn. by destruct (timers_release m1) as [_ ->].
  - exists (the (update f id (releaseMedia m1)) id). split_and!.
    + unfold current. cbn. rewrite call_release. change (call m1) with (call m). by rewrite Hid.
    + destruct (evolves_update False False f id (releaseMedia m1)) as [_ He]; [done | by right | by apply rtc_once, edge_ended |].
      destruct (He id Hlt) as [<- _]. destruct (evolves_release False False m1) as [_ He1]. by destruct (He1 id (Hr id Hid)) as [<- _].
    + rewrite snapshot_update, decide_True by done. done.
    + rewrite snapshot_update, decide_True by done. done.
    + rewrite snapshot_update, decide_True by done. done.
    + unfold update. rewrite the_put, decide_True by done. by apply (connection_release m1).
Qed.

(** C27: the camera and the microphone. After every history, whatever the environment does,
    ending the current call stops its local stream at once, starts no other, and leaves the
    call over, with its reason, and without its timers and its connection. And in every
    history in which no call is accepted, or in which nothing takes a call away while an
    operation awaits (no reset, no other account, no dismissal, and the time to reconnect
    does not run out), a stream of the user runs only as the local stream of the current
    call, and that call is not over: without a call, and once it ended or another device took
    it, camera and microphone are off, and ending a call leaves none running. *)
Theorem media_released (operations : list Operation) :
  let m := run operations new_manager in
  (forall reason c, current m = Some c ->
     let m' := endLocal reason m in
     (forall s, live m' s -> live m s /\ localStream (snapshot c) <> Some s) /\ ringTimer m' = None /\ reconnectTimer m' = None
     /\ exists c', current m' = Some c' /\ identity c' = identity c /\ state (snapshot c') = ended /\ endReason (snapshot c') = Some reason
          /\ localStream (snapshot c') = None /\ peerConnection c' = None)
  /\ ((forall h i, i ∈ meanwhile h -> calm i) \/ op_accept ∉ operations ->
      (forall s, live m s -> exists c, current m = Some c /\ localStream (snapshot c) = Some s /\ isTerminal (state (snapshot c)) = false)
      /\ (forall reason c s, current m = Some c -> ~ live (endLocal reason m) s)).
Proof.
  intros m. assert (Hr : in_range m) by (apply run_keeps; [apply range_operation | done]).
  split; [intros reason c; by apply endLocal_ends|]. intros Hcalm. assert (Hm : media_safe m).
  { apply run_keeps_of; [|apply media_new_manager]. intros o m0 Ho. apply media_operation.
    destruct Hcalm as [|Hno]; [by left|]. right. intros ->. by apply Hno. }
  assert (Hlive : forall s, live m s -> exists c, current m = Some c /\ localStream (snapshot c) = Some s /\ isTerminal (state (snapshot c)) = false).
  { intros s Hs. destruct (ms_live m Hm s Hs) as (id & Hid & Hloc & Hover). exists (the m id). unfold current. rewrite Hid.
    split_and!; [done..|]. unfold over in Hover. by apply not_true_is_false. }
  split; [exact Hlive|]. intros reason c s Hc Hs. destruct (endLocal_ends reason m c Hr Hc) as [Hl _].
  destruct (Hl s Hs) as [Hs0 Hne]. destruct (Hlive s Hs0) as (c0 & Hc0 & Hloc & _). congruence.
Qed.

Lemma evolves_mono (accept late accept' late' : Prop) m m' :
  (accept -> accept') -> (late -> late') -> evolves accept late m m' -> evolves accept' late' m m'.
Proof.
  intros Ha Hlate [Hl He]. split; [done|]. intros id Hid. destruct (He id Hid) as (Hi & Hs & Hedge).
  split_and!; [done | by destruct Hs; [left; auto | right] |].
  eapply rtc_congruence with (f := fun x => x); [|exact Hedge]. intros x y [| |? ? Hor|? ? ?| |]; [constructor | constructor | | | constructor | apply edge_back].
  - apply edge_answered; [done|]. destruct Hor; auto.
  - apply edge_taken; auto.
Qed.

Lemma evolves_keeps {A} accept late (op : Op Manager A) :
  steps (runs anything late True) op -> forall m, evolves accept late m (op m).1.
Proof. intros Hs m. eapply (evolves_runs accept late anything True), Hs. Qed.

Section moving.
Variables accept late : Prop.
Abbreviation E := (evolves accept late).

Lemma evolves_ask {A} (c : Call A) : steps E (ask c).
Proof. apply steps_await; [apply _ | intros; by apply call_evolves_same | intros; apply evolves_interrupt]. Qed.

Lemma evolves_acquire kind : steps E (acquireMedia kind).
Proof. unfold acquireMedia. op_steps; [apply evolves_ask|]. intros m. by apply call_evolves_same. Qed.

Lemma evolves_send kind body id_of : steps E (sendSignal kind body id_of).
Proof. intros m. eapply (evolves_runs accept late anything True), steps_sendSignal. done. Qed.

Lemma evolves_idle : steps E requireIdle.
Proof.
  intros m. unfold requireIdle. assert (E m (set_call None (releaseMedia m))).
  { transitivity (releaseMedia m); [apply evolves_release | by apply call_evolves_same]. }
  destruct (current m); [|done]. by destruct (negb _).
Qed.

Lemma evolves_start peer kind : steps E (startOutgoingCall peer kind).
Proof.
  unfold startOutgoingCall. op_step; [apply evolves_idle|]. op_step; [intros m; unfold requireSession; by destruct (session m)|].
  op_step; [op_step|]. op_step; [apply evolves_acquire|]. op_step.
  { op_step. match goal with |- evolves _ _ ?x (emit (set_call _ (set_heap (_ ++ [?c]) _ _ _))) => apply (evolves_new accept late c x) end. }
  op_step; [|op_steps; by apply call_evolves_same].
  op_step; [apply evolves_send|]. op_steps. apply evolves_endLocal.
Qed.

(** The user takes a call that is not over, whatever happened to it since. *)
Lemma evolves_take id m m1 m3 :
  accept -> (id < length (calls m))%nat -> isTerminal (state (snapshot (the m id))) = false -> E m m1 -> E (take id m1) m3 -> E m m3.
Proof.
  intros Ha Hid Hs [Hl H1] [Hl' H3].
  assert (Hlen : length (calls (take id m1)) = length (calls m1)) by (cbn; by rewrite length_insert).
  split; [lia|]. intros i Hi. specialize (H1 i Hi). specialize (H3 i ltac:(lia)).
  change (the (take id m1) i) with (the (update (fun s => with_winner (Some (deviceId m1)) (with_start (Some (Date_now (trace m1))) (with_state active_here s))) id m1) i) in H3.
  unfold update in H3. rewrite the_put in H3. destruct (decide _) as [[-> _]|Hn]; [|by transitivity (the m1 i)].
  destruct H1 as (Hi1 & _ & _), H3 as (Hi3 & _ & He3). split_and!; [by rewrite Hi1 | by left |].
  assert (Hd : direction (the m1 id) = direction (the m id)) by (by injection Hi1). cbn in He3. rewrite Hd in He3.
  eapply rtc_l; [|exact He3]. by apply edge_taken.
Qed.

(** The user takes a ringing call. *)
Lemma evolves_accept : accept -> forall m, in_range m -> E m (acceptCall m).1.
Proof.
  intros Haccept m Hrange. unfold acceptCall, incoming_call. destruct (call m) as [id|] eqn:Hc; [|done].
  destruct (isIncoming _) eqn:Hring; [|done]. set (s := snapshot (the m id)). set (m0 := clearRingTimeout m).
  assert (Hm0 : E m m0) by (by apply call_evolves_same).
  unfold accept_ringing, mbind at 1, op_bind at 1, catch at 1.
  pose proof (evolves_send CALL_ACCEPT [("callId", jstring (callId s))] (callId s) m0) as Hsend.
  destruct (sendSignal _ _ _ _) as [m1 [u|e]]; cbn [fst] in Hsend.
  2: { transitivity m1; [by transitivity m0|]. change (E m1 (rearm (callId s) m1)). unfold rearm. destruct (decide (_ = _)); [done | by apply call_evolves_same]. }
  assert (Hopen : steps E (_ ← open_media id (callId s) (mediaKind s); gets getSnapshot)).
  { op_step; [|op_step]. unfold open_media. op_step; [|op_steps; [apply evolves_send | apply evolves_endLocal]].
    op_step; [apply evolves_acquire|]. op_step; [op_step; apply evolves_put; split_and!; [done | by left | done]|].
    op_step; [|op_step; eapply (evolves_plain accept late anything True), plain_attach].
    intros m2. eapply (evolves_runs accept late anything True), steps_ensure. done. }
  apply (evolves_take id m m1); [done | by apply Hrange | | by transitivity m0 | exact (Hopen (take id m1))].
  by destruct (state (snapshot (the m id))).
Qed.
End moving.

(** An answer of the peer: the only signal that takes a call that is over. *)
Definition answer_signal (o : Operation) : bool := match o with op_signal ev => bool_decide (signalKind ev = CALL_ACCEPT) | _ => false end.
Definition acceptance (o : Operation) : bool := match o with op_accept => true | _ => false end.

Lemma evolves_operation accept late o m :
  (acceptance o = true -> accept) -> (answer_signal o = true -> late) -> in_range m -> evolves accept late m (run_operation o m).
Proof.
  intros Ha Hlate Hr.
  destruct o as [i|s| |ev|peer kind| |reason| |id_of|id c]; try (by apply (evolves_runs accept late anything True), plain_operation).
  - apply (evolves_runs accept late anything True), plain_operation; [done..|]. intros ? [= <-] Hk. apply Hlate. cbn. by apply bool_decide_eq_true.
  - apply evolves_start.
  - apply evolves_accept; [by apply Ha | done].
Qed.

Lemma evolves_run accept late l m :
  (existsb acceptance l = true -> accept) -> (existsb answer_signal l = true -> late) -> in_range m -> evolves accept late m (run l m).
Proof.
  revert m. induction l as [|o l IH]; intros m Ha Hl Hr; [done|]. change (run (o :: l) m) with (run l (run_operation o m)). cbn [existsb] in *.
  transitivity (run_operation o m).
  - apply evolves_operation; [intros Ho; apply Ha | intros Ho; apply Hl | done]; by rewrite Ho.
  - apply IH; [intros Ho; apply Ha | intros Ho; apply Hl | by apply range_operation]; rewrite Ho; apply orb_true_r.
Qed.

(** The call rings, here or at the peer. *)
Definition rings (s : CallStateLifecycle) : bool := isIncoming s || bool_decide (s = outgoing).

Lemma edges_rings accept late d s s' : rtc (edge accept late d) s s' -> s' = s \/ rings s' = false.
Proof. induction 1 as [|s s1 s2 Hs _ IH]; [by left|]. right. destruct IH as [->|]; [by destruct Hs | done]. Qed.

(** C28: the life of a call. Through every history, whatever the environment does, a call
    keeps its direction, its conversation, its id, its peer and its kind of media; once it
    no longer rings it never rings again; an incoming call is in progress only after the
    user accepted it; and a call that is over stays over, unless it went out and the peer
    accepts it after all. *)
Theorem call_lifecycle (before after : list Operation) (id : nat) :
  let m := run before new_manager in
  let m' := run after m in
  (id < length (calls m))%nat ->
  let c := the m id in
  let c' := the m' id in
  identity c' = identity c
  /\ (rings (state (snapshot c')) = true -> state (snapshot c') = state (snapshot c))
  /\ (direction c = call_incoming -> talks (state (snapshot c')) = true -> talks (state (snapshot c)) = true \/ existsb acceptance after = true)
  /\ (isTerminal (state (snapshot c)) = true ->
       isTerminal (state (snapshot c')) = true \/ direction c = call_outgoing /\ existsb answer_signal after = true).
Proof.
  intros m m' Hid c c'. assert (Hr : in_range m) by (apply run_keeps; [apply range_operation | done]).
  assert (He : forall accept late : Prop, (existsb acceptance after = true -> accept) -> (existsb answer_signal after = true -> late) -> moves accept late c c').
  { intros accept late Ha Hl. by apply (evolves_run accept late after m Ha Hl Hr). }
  split_and!.
  - by destruct (He True True) as [-> _].
  - destruct (He True True) as (_ & _ & Hs); [done..|]. intros Hring. destruct (edges_rings _ _ _ _ _ Hs); [done | congruence].
  - intros Hd Htalks. destruct (existsb acceptance after) eqn:Hna; [by right|]. left. destruct (He False True) as (_ & _ & Hs); [done..|].
    destruct (talks (state (snapshot c))) eqn:Hno; [done|]. rewrite Hd in Hs.
    assert (talks (state (snapshot c')) = false); [|congruence].
    refine (edges_keep (fun s => talks s = false) _ _ _ _ _ _ Hs Hno). intros ?? []; done.
  - intros Hover. destruct (existsb answer_signal after) eqn:Hno.
    + destruct (direction c) eqn:Hd; [left | by right]. destruct (He True True) as (_ & _ & Hs); [done..|]. rewrite Hd in Hs.
      refine (edges_keep (fun s => isTerminal s = true) _ _ _ _ _ _ Hs Hover). intros ?? Hedge Hq. destruct Hedge as [| |? Hx Hor| | |]; first [done | congruence].
    + left. destruct (He True False) as (_ & _ & Hs); [done..|].
      refine (edges_keep (fun s => isTerminal s = true) _ _ _ _ _ _ Hs Hover). intros ?? Hedge Hq. destruct Hedge as [| |? Hx [->|[]]| | |]; first [done | congruence].
Qed.

(** ** A call that rings has its timer *)
Record timed m : Prop := {
  td_range : in_range m;
  td_ring : forall id, call m = Some id -> rings (state (snapshot (the m id))) = true -> ringTimer m = Some (callId (snapshot (the m id)))
}.

(** Steps that keep the timer, take the call away or stop its ringing. *)
Definition timer_kept m m' : Prop :=
  call m' = None \/ call m' = call m /\ (ringTimer m' = ringTimer m \/ forall id, call m' = Some id -> rings (state (snapshot (the m' id))) = false).

Lemma timed_step m m' : timed m -> evolves True True m m' -> timer_kept m m' -> timed m'.
Proof.
  intros [Hr Ht] [Hl He] [Hc|[Hc Hk]]; [split; intros id; congruence|]. split.
  - intros id. rewrite Hc. intros Hid. specialize (Hr id Hid). lia.
  - intros id Hid Hring. destruct Hk as [Hk|Hk]; [|by rewrite (Hk id Hid) in Hring]. rewrite Hc in Hid.
    destruct (He id (Hr id Hid)) as (Hi & _ & Hs). destruct (edges_rings _ _ _ _ _ Hs) as [Hst|]; [|congruence].
    rewrite Hst in Hring. rewrite Hk, (Ht id Hid Hring). injection Hi. congruence.
Qed.

Lemma timed_same m m' : timed m -> call m' = call m -> calls m' = calls m -> ringTimer m' = ringTimer m -> timed m'.
Proof. intros Ht Hc Hcs Hr. apply (timed_step m); [done | by apply call_evolves_same | right; auto]. Qed.

Lemma current_updated f id m i : in_range m -> call m = Some id -> call (update f id m) = Some i ->
  snapshot (the (update f id m) i) = f (snapshot (the m id)).
Proof.
  intros Hr Hid Hi. assert (Hi' : call m = Some i) by exact Hi. assert (i = id) as -> by congruence.
  rewrite snapshot_update. by rewrite decide_True by auto.
Qed.

Lemma timed_endLocal r m : in_range m -> timed (endLocal r m).
Proof.
  intros Hr. unfold endLocal. destruct (call m) as [id|] eqn:Hid; [|split; [done | intros; congruence]].
  set (m1 := clearReconnectTimeout (clearRingTimeout m)).
  assert (Hr1 : in_range (releaseMedia m1)) by (intros i; rewrite call_release, length_release; apply Hr).
  assert (Hc1 : call (releaseMedia m1) = Some id) by (by rewrite call_release).
  split; [intros i; cbn; rewrite length_insert; apply Hr1|]. intros i Hi. set (f := fun s : CallSnapshot => with_streams None None _) in *.
  change (the (emit ?x) i) with (the x i). by rewrite (current_updated f id).
Qed.

Lemma timed_mark w m : in_range m -> timed (markHandledElsewhere w m).
Proof.
  intros Hr. unfold markHandledElsewhere. destruct (call m) as [id|] eqn:Hid; [|split; [done | intros; congruence]].
  set (m1 := clearRingTimeout m).
  assert (Hr1 : in_range (releaseMedia m1)) by (intros i; rewrite call_release, length_release; apply Hr).
  assert (Hc1 : call (releaseMedia m1) = Some id) by (by rewrite call_release).
  split; [intros i; cbn; rewrite length_insert; apply Hr1|]. intros i Hi. set (f := fun s : CallSnapshot => with_streams None None _) in *.
  change (the (emit ?x) i) with (the x i). by rewrite (current_updated f id).
Qed.

Lemma timer_enter id m : ringTimer (enterReconnect id m) = ringTimer m.
Proof. unfold enterReconnect. destruct (_ && _); [done|]. destruct (decide _); cbn; by destruct (reconnectTimer _). Qed.

(** The interrupts that leave the ring timer alone. *)
Lemma timer_interrupt i m : calm i -> i <> ring_fires -> ringTimer (interrupt i m) = ringTimer m.
Proof.
  destruct i as [| | | | |s|s st| | |pc st|pc t]; cbn [interrupt calm]; intros Hcalm Hring; try done.
  - unfold suspend. destruct (call m); [|done]. by destruct (decide _).
  - unfold toggleMicrophone. destruct (call m); [|done]. by destruct (localStream _).
  - unfold toggleCamera. destruct (call m); [|done]. destruct (localStream _); [|done]. by destruct (decide _).
  - unfold activate_end. by destruct (_ || _).
  - unfold onconnectionstatechange. destruct (connections m !! pc); [|done]. destruct (decide _); [done|].
    destruct st; try done; [|by rewrite timer_enter..]. by destruct (decide _).
  - unfold ontrack. destruct (connections m !! pc); [|done]. destruct (decide _); [done|].
    destruct (remoteStream _); cbn; by destruct (existsb _ _).
Qed.

Lemma timed_ring_fires m : timed m -> timed (interrupt ring_fires m).
Proof.
  intros Ht. cbn. unfold ring_timer. destruct (ringTimer m) as [armed|] eqn:Hr; [|done]. destruct (current (set_ring None m)) as [c|] eqn:Hc.
  - destruct (_ && _) eqn:Hb; [apply timed_endLocal; exact (td_range m Ht)|]. split; [exact (td_range m Ht)|].
    intros id Hid Hring. exfalso. change (the (set_ring None m) id) with (the m id) in Hring.
    unfold current in Hc. cbn in Hid, Hc. rewrite Hid in Hc. injection Hc as <-.
    pose proof (td_ring m Ht id Hid Hring) as Htimer. rewrite Hr in Htimer. injection Htimer as ->.
    rewrite bool_decide_true in Hb by done. apply orb_false_iff in Hb as [Hb1 Hb2].
    unfold rings in Hring. change (the (set_ring None m) id) with (the m id) in Hb1, Hb2. by rewrite Hb1, Hb2 in Hring.
  - split; [exact (td_range m Ht)|]. intros id Hid. unfold current in Hc. cbn in Hid, Hc. by rewrite Hid in Hc.
Qed.

Lemma timed_calm i m : calm i -> i <> ring_fires -> timed m -> timed (interrupt i m).
Proof.
  intros Hcalm Hne Ht. apply (timed_step m); [done | apply evolves_interrupt |]. right. split; [|left; by apply timer_interrupt].
  destruct (call_interrupt i m) as [|[Hr _]]; [done|]. by destruct i.
Qed.

Lemma timed_none m : call m = None -> timed m.
Proof. intros Hc. split; intros id; congruence. Qed.

Lemma timed_interrupt i m : timed m -> timed (interrupt i m).
Proof.
  intros Ht. destruct i as [| | | | |s|s st| | |pc st|pc t]; try (by apply timed_calm); cbn [interrupt].
  - unfold dismiss. destruct (current m) as [c|]; [|done]. destruct (isTerminal _); [by apply timed_none | done].
  - by apply timed_none.
  - unfold activate_begin. destruct (session m); [|by apply (timed_same m)].
    destruct (_ || _); [by apply timed_none | by apply (timed_same m)].
  - by apply timed_ring_fires.
  - unfold reconnect_timer. destruct (reconnectTimer m); [|done]. destruct (current _); [|by apply (timed_same m)].
    destruct (decide _); [apply timed_endLocal; exact (td_range m Ht) | by apply (timed_same m)].
Qed.

Lemma timed_plain allowed late fresh m m' : plain allowed late fresh m m' -> timed m -> timed m'.
Proof.
  intros Hp Ht. assert (He : evolves True True m m').
  { by eapply evolves_mono, (evolves_plain True late allowed fresh). }
  destruct Hp as [i _| | | |id w at_ Hc Hd Hs|id Hc Hs| | | | |c _ (_ & Hring & _) Hover].
  - by apply timed_interrupt.
  - by apply (timed_same m).
  - apply timed_endLocal, Ht.
  - apply timed_mark, Ht.
  - apply (timed_step m); [done..|]. right. split; [done|]. right. intros i Hi. unfold answered in *.
    by rewrite (current_updated _ id) by (done || exact (td_range m Ht)).
  - apply (timed_step m); [done..|]. right. split; [done | by left].
  - apply (timed_step m); [done..|]. right. split; [done | by left].
  - apply (timed_step m); [done..|]. right. split; [done | by left].
  - apply (timed_step m); [done..|]. right. unfold attachLocalTracks. destruct (peerConnection _); [|by split; [|left]].
    destruct (localStream _); by split; [|left].
  - apply (timed_step m); [done..|]. right. split; [done | by left].
  - split; intros id [= <-]; cbn; [rewrite length_app; cbn; lia|]. unfold the. cbn. by rewrite list_lookup_total_middle.
Qed.

Lemma timed_steps {A} (op : Op Manager A) : steps (runs anything True True) op -> keeps timed op.
Proof. intros Hs m. specialize (Hs m). revert Hs. apply runs_keeps, timed_plain. Qed.

Lemma timed_acquire kind : keeps timed (acquireMedia kind).
Proof.
  unfold keeps, acquireMedia. op_steps; [|intros m Ht; by apply (timed_same m)].
  apply keeps_ask; [intros m Ht; by apply (timed_same m) | intros h i m _; apply timed_interrupt].
Qed.

(** The call [id], known as [id_of], is current or gone. *)
Definition rests_on (id : nat) (id_of : string) m : Prop :=
  in_range m /\ (call m = None \/ call m = Some id /\ callId (snapshot (the m id)) = id_of).

Lemma rests_run late id id_of m m' : runs anything late False m m' -> rests_on id id_of m -> rests_on id id_of m'.
Proof.
  apply runs_keeps. clear m m'. intros m m' Hp [Hr Hc]. split; [by apply (range_plain _ _ _ _ _ Hp)|].
  destruct (call_plain _ _ _ _ _ Hp) as [Hs|[(i & _ & _ & Hs)|([] & _)]]; rewrite Hs; [|by left].
  destruct Hc as [|[Hc Hid]]; [by left|]. right. split; [done|].
  destruct (evolves_plain False late anything False m m' Hp) as [_ He]. destruct (He id (Hr id Hc)) as [Hi _]. injection Hi. congruence.
Qed.

Lemma rests_send id id_of kind body to : keeps (rests_on id id_of) (sendSignal kind body to).
Proof. intros m. eapply (rests_run True), steps_sendSignal. done. Qed.

Lemma timed_armed id id_of m : rests_on id id_of m -> timed (armRingTimeout id_of m).
Proof. intros [Hr Hc]. split; [exact Hr|]. intros i Hi Hring. cbn in *. destruct Hc as [|[Hc <-]]; [congruence|]. assert (i = id) as -> by congruence. done. Qed.

Lemma timed_start peer kind : keeps timed (startOutgoingCall peer kind).
Proof.
  unfold startOutgoingCall. apply leads_keeps.
  eapply (leads_bind _ _ _ (fun r m => match r with Ok _ => call m = None | Err _ => timed m end)); [|intros u0|done].
  { intros m Ht. unfold requireIdle. destruct (current m); [|done]. by destruct (negb _). }
  assert (Hnone : forall m : Manager, call m = None -> timed m) by (intros; by apply timed_none).
  eapply (leads_bind _ _ _ (fun _ m => call m = None)); [intros m Hm; unfold requireSession; by destruct (session m) | intros s | auto].
  eapply (leads_bind _ _ _ (fun _ m => call m = None)); [by intros m Hm | intros id_of | auto].
  eapply leads_bind; [apply (acquire_leads (fun m => call m = None)) | intros stream | auto]; [done | |].
  { intros h i m _ Hm. destruct (call_interrupt i m) as [->|[_ ->]]; done. }
  eapply (leads_bind _ _ _ (fun r m => match r with Ok _ => exists id, rests_on id id_of m | Err _ => False end)); [|intros u1|done].
  { intros m (m0 & tracks & Hm0 & -> & ->). exists (length (calls m0)). split.
    - intros id [= <-]. cbn. rewrite length_app. cbn. lia.
    - right. split; [done|]. unfold the. cbn. by rewrite list_lookup_total_middle. }
  eapply (leads_bind _ _ _ (fun r m => match r with Ok _ => exists id, rests_on id id_of m | Err _ => timed m end)); [|intros u2|done].
  - eapply (leads_catch _ _ _ (fun _ m => exists id, rests_on id id_of m)); [|done|].
    + intros m [id Hm]. exists id. by apply rests_send.
    + intros e m (id & Hr & _). by apply timed_endLocal.
  - eapply (leads_bind _ _ _ (fun _ => timed)); [|by intros u3 m|done]. intros m [id Hm]. by eapply timed_armed.
Qed.

Lemma timed_take id m : in_range m -> call m = None \/ call m = Some id -> timed (take id m).
Proof.
  intros Hr Hc. split; [intros i; cbn; rewrite length_insert; apply Hr|]. intros i Hi.
  destruct Hc as [Hc|Hc]; [cbn in Hi; congruence|]. unfold take in *. change (the (emit ?x) i) with (the x i). by rewrite (current_updated _ id).
Qed.

Lemma timed_accept : keeps timed acceptCall.
Proof.
  intros m Ht. unfold acceptCall, incoming_call. destruct (call m) as [id|] eqn:Hc; [|done].
  destruct (isIncoming _) eqn:Hring; [|done]. set (s := snapshot (the m id)).
  assert (Hm0 : rests_on id (callId s) (clearRingTimeout m)) by (split; [exact (td_range m Ht) | by right]).
  revert Hm0. generalize (clearRingTimeout m). change (leads (rests_on id (callId s)) (accept_ringing id s) (fun _ => timed)).
  unfold accept_ringing.
  eapply (leads_bind _ _ _ (fun r m => match r with Ok _ => rests_on id (callId s) m | Err _ => timed m end)); [|intros u1|done].
  { eapply (leads_catch _ _ _ (fun _ => rests_on id (callId s))); [apply rests_send | done|]. intros e m1 Hm1.
    change (timed (rearm (callId s) m1)). unfold rearm. destruct (decide (_ = _)) as [Hel|]; [|by apply (timed_armed id)].
    split; [apply Hm1|]. intros i Hi Hri. unfold getSnapshot, current in Hel. rewrite Hi in Hel. injection Hel as Hel. by rewrite Hel in Hri. }
  eapply (leads_bind _ _ _ (fun r m => match r with Ok _ => timed m | Err _ => False end)); [|intros u2|done].
  { intros m1 [Hr Hm1]. change (timed (take id m1)). apply timed_take; [done|]. by destruct Hm1 as [|[]]; [left | right]. }
  eapply (leads_bind _ _ _ (fun _ => timed)); [|by intros u3 m1|done]. unfold open_media.
  eapply (leads_catch _ _ _ (fun _ => timed)); [|done|].
  - apply leads_keeps, keeps_bind; [apply timed_acquire|]. intros stream. apply keeps_bind.
    { apply keeps_modify. intros m1 Ht1. apply (timed_step m1); [done | | right; by split; [|left]].
      apply evolves_put. split_and!; [done | by left | done]. }
    intros u3. by apply timed_steps; op_step; [apply steps_ensure | apply steps_attach].
  - intros e. apply leads_keeps, timed_steps. op_steps; [by apply steps_sendSignal | by apply rtc_once, plain_end].
Qed.

Lemma timed_operation o m : timed m -> timed (run_operation o m).
Proof.
  destruct o as [i|s| |ev|peer kind| |reason| |id_of|id c]; try (apply (runs_keeps _ anything True True); [apply timed_plain | by apply plain_operation]).
  - apply timed_start.
  - apply timed_accept.
Qed.

(** C29: ringing ends. Whenever no operation is under way, after every history and whatever
    the environment did during its operations, a call that rings here or at the peer has the
    ring timer armed in its name; and when that timer runs out the same call is over,
    unanswered, with its stream stopped, its connection gone and no timer left. Two
    operations wait for an answer while the call rings without the timer, startOutgoingCall
    for that of its CALL_REQUEST and acceptCall for that of its CALL_ACCEPT: when the answer
    has come, a success or a failure, the timer is armed or the call no longer rings. *)
Theorem ringing_ends (operations : list Operation) (c : ActiveCall) :
  let m := run operations new_manager in
  current m = Some c -> rings (state (snapshot c)) = true ->
  ringTimer m = Some (callId (snapshot c))
  /\ let m' := interrupt ring_fires m in
     (forall s, localStream (snapshot c) = Some s -> ~ live m' s) /\ ringTimer m' = None /\ reconnectTimer m' = None
     /\ exists c', current m' = Some c' /\ identity c' = identity c /\ state (snapshot c') = ended /\ endReason (snapshot c') = Some no_answer
          /\ localStream (snapshot c') = None /\ peerConnection c' = None.
Proof.
  intros m Hc Hring. assert (Ht : timed m) by (apply run_keeps; [apply timed_operation | by apply timed_none]).
  assert (Htimer : ringTimer m = Some (callId (snapshot c))).
  { unfold current in Hc. destruct (call m) as [id|] eqn:Hid; [|done]. injection Hc as <-. by apply (td_ring m Ht). }
  split; [done|]. cbn. unfold ring_timer. rewrite Htimer. change (current (set_ring None m)) with (current m). rewrite Hc.
  rewrite bool_decide_true by done. rewrite orb_comm. unfold rings in Hring. rewrite Hring. cbn [andb].
  destruct (endLocal_ends no_answer (set_ring None m) c (td_range m Ht) Hc) as [Hl He]. split; [|exact He].
  intros s Hs Hlive. by destruct (Hl s Hlive).
Qed.

(** ** When the camera and the microphone are opened *)

(** The media asked for so far: whether with the camera. *)
Definition asked_of (e : Event) : option bool :=
  match e with called c => match c with getUserMedia with_video => Some with_video | _ => None end | emitted _ => None end.
Definition asked m : list bool := omap asked_of (trace m).

Lemma asked_record e m : asked (record e m) = asked m ++ match asked_of e with Some v => [v] | None => [] end.
Proof. unfold asked. cbn. rewrite omap_app. cbn. by destruct (asked_of e). Qed.

Lemma asked_emit m : asked (emit m) = asked m.
Proof. unfold emit. rewrite asked_record. apply app_nil_r. Qed.

Lemma asked_called {A} (c : Call A) m : asks_media c = false -> asked (record (called c) m) = asked m.
Proof. intros Hc. rewrite asked_record. destruct c; try discriminate Hc; apply app_nil_r. Qed.

Lemma asked_same m m' : trace m' = trace m -> asked m' = asked m.
Proof. unfold asked. by intros ->. Qed.

Lemma trace_release m : trace (releaseMedia m) = trace m.
Proof.
  unfold releaseMedia. destruct (call m); [|done]. unfold close_connection, stop_remote, stop_local.
  by destruct (localStream _), (remoteStream _), (peerConnection _).
Qed.

Lemma asked_endLocal r m : asked (endLocal r m) = asked m.
Proof. unfold endLocal. destruct (call m); [|done]. rewrite asked_emit. apply asked_same. cbn. by rewrite trace_release. Qed.

Lemma asked_mark w m : asked (markHandledElsewhere w m) = asked m.
Proof. unfold markHandledElsewhere. destruct (call m); [|done]. rewrite asked_emit. apply asked_same. cbn. by rewrite trace_release. Qed.

Lemma asked_reset m : asked (reset m) = asked m.
Proof. unfold reset. rewrite asked_emit. apply asked_same. cbn. by rewrite trace_release. Qed.

Lemma asked_enter id m : asked (enterReconnect id m) = asked m.
Proof.
  unfold enterReconnect. destruct (_ && _); [done|]. set (m1 := if decide _ then _ else m).
  assert (Hm1 : asked m1 = asked m) by (unfold m1; destruct (decide _); [by rewrite asked_emit | done]). by destruct (reconnectTimer m1).
Qed.

Lemma asked_interrupt i m : asked (interrupt i m) = asked m.
Proof.
  destruct i as [| | | | |s|s st| | |pc st|pc t]; cbn [interrupt].
  - unfold suspend. destruct (call m); [|done]. destruct (decide _); [by rewrite asked_emit | done].
  - unfold toggleMicrophone. destruct (call m); [|done]. destruct (localStream _); [by rewrite asked_emit | done].
  - unfold toggleCamera. destruct (call m); [|done]. destruct (localStream _); [|done]. destruct (decide _); [done | by rewrite asked_emit].
  - unfold dismiss. destruct (current m); [|done]. destruct (isTerminal _); [|done]. rewrite asked_emit. apply asked_same. cbn. by rewrite trace_release.
  - apply asked_reset.
  - unfold activate_begin. destruct (session m); [|done]. destruct (_ || _); [|done]. by rewrite <- (asked_reset m).
  - unfold activate_end. by destruct (_ || _).
  - unfold ring_timer. destruct (ringTimer m); [|done]. destruct (current _); [|done]. destruct (_ && _); [by rewrite asked_endLocal | done].
  - unfold reconnect_timer. destruct (reconnectTimer m); [|done]. destruct (current _); [|done]. destruct (decide _); [by rewrite asked_endLocal | done].
  - unfold onconnectionstatechange. destruct (connections m !! pc); [|done]. destruct (decide _); [done|].
    destruct st; try done; [|by rewrite asked_enter..]. destruct (decide _); [by rewrite asked_emit | done].
  - unfold ontrack. destruct (connections m !! pc); [|done]. destruct (decide _); [done|].
    destruct (remoteStream _); rewrite asked_emit; apply asked_same; cbn; by destruct (existsb _ _).
Qed.

Lemma asked_plain allowed late fresh m m' : plain allowed late fresh m m' -> asked m' = asked m.
Proof.
  intros [i _|A c Hc| | |id w at_ _ _ _|id _ _| | |id| |c _ _ _].
  - apply asked_interrupt.
  - by apply asked_called.
  - apply asked_endLocal.
  - apply asked_mark.
  - done.
  - by rewrite asked_emit.
  - done.
  - done.
  - rewrite asked_emit. unfold attachLocalTracks. destruct (peerConnection _); [|done]. by destruct (localStream _).
  - done.
  - transitivity (asked (new_call c m)); [done|]. unfold new_call. by rewrite asked_emit.
Qed.

(** Operations that open no media. *)
Definition silent_on_media : relation Manager := fun m m' => asked m' = asked m.

#[local] Instance silent_preorder : PreOrder silent_on_media.
Proof. split; [done|]. intros m1 m2 m3 H12 H23. unfold silent_on_media in *. congruence. Qed.

Lemma asked_runs late m m' : runs anything late True m m' -> silent_on_media m m'.
Proof. induction 1 as [|m1 m2 m3 Hp _ IH]; [done|]. transitivity m2; [by eapply asked_plain | done]. Qed.

Lemma asked_steps {A} (op : Op Manager A) : steps (runs anything True True) op -> steps silent_on_media op.
Proof. intros Hs m. by eapply asked_runs. Qed.

Lemma asked_acquire kind m : asked (acquireMedia kind m).1 = asked m ++ (if mediaDevices then [bool_decide (kind = video)] else []).
Proof.
  unfold acquireMedia. destruct mediaDevices; [|by rewrite app_nil_r]. unfold mbind, op_bind.
  assert (Ha : asked (ask (getUserMedia (bool_decide (kind = video))) m).1 = asked m ++ [bool_decide (kind = video)]).
  { unfold ask, await. cbn [fst]. transitivity (asked (record (called (getUserMedia (bool_decide (kind = video)))) m)); [|apply asked_record].
    apply (steps_performed silent_on_media). intros. apply asked_interrupt. }
  destruct (ask _ m) as [m1 [tracks|e]]; exact Ha.
Qed.

(** An operation that asks in its first part only. *)
Lemma asked_first {A B} (first : Op Manager A) (rest : A -> Op Manager B) m l :
  asked (first m).1 = asked m ++ l -> (forall a, steps silent_on_media (rest a)) -> asked ((first ≫= rest) m).1 = asked m ++ l.
Proof.
  intros Hf Hr. unfold mbind, op_bind. destruct (first m) as [m1 [a|e]]; [|done]. by rewrite <- Hf, (Hr a m1).
Qed.

Lemma asked_open id id_of kind m : asked (open_media id id_of kind m).1 = asked m ++ (if mediaDevices then [bool_decide (kind = video)] else []).
Proof.
  unfold open_media. match goal with |- context [catch (?first ≫= ?rest) ?h] =>
    pose proof (asked_first first rest m _ (asked_acquire kind m)) as Hf; set (handle := h); assert (Hr : forall a, steps silent_on_media (rest a)) end.
  { intros stream. op_step; [by op_step|]. apply asked_steps. op_step; [by apply steps_ensure | by apply steps_attach]. }
  specialize (Hf Hr). clear Hr.
  assert (Hh : forall e, steps silent_on_media (handle e)).
  { intros e. unfold handle. op_step; [apply asked_steps; op_step; by apply steps_sendSignal|]. op_steps. apply asked_endLocal. }
  unfold catch. match type of Hf with asked (?x).1 = _ => destruct x as [m1 [u|e]] end; cbn [fst] in *; [exact Hf | by rewrite (Hh e m1)].
Qed.

Lemma asked_start peer kind m :
  asked (startOutgoingCall peer kind m).1 = asked m \/ asked (startOutgoingCall peer kind m).1 = asked m ++ [bool_decide (kind = video)].
Proof.
  enough (exists l, (l = [] \/ l = [bool_decide (kind = video)]) /\ asked (startOutgoingCall peer kind m).1 = asked m ++ l) as (l & [->| ->] & Hl);
    [left; by rewrite Hl, app_nil_r | by right |].
  assert (Hnone : exists l, (l = [] \/ l = [bool_decide (kind = video)]) /\ asked m = asked m ++ l) by (exists []; rewrite app_nil_r; auto).
  unfold startOutgoingCall, mbind at 1, op_bind at 1.
  assert (Hi : asked (requireIdle m).1 = asked m).
  { unfold requireIdle. assert (Hr : asked (set_call None (releaseMedia m)) = asked m) by (apply asked_same; cbn; apply trace_release).
    destruct (current m); [|done]. by destruct (negb _). }
  destruct (requireIdle m) as [m1 [u|e]]; cbn [fst] in Hi |- *; rewrite <- Hi in Hnone |- *; [|exact Hnone].
  unfold mbind at 1, op_bind at 1. unfold requireSession. destruct (session m1) as [s|]; [|exact Hnone].
  unfold mbind at 1, op_bind at 1, gets at 1.
  match goal with |- context [(?first ≫= ?rest) m1] =>
    pose proof (asked_first first rest m1 _ (asked_acquire kind m1)) as Hf; assert (Hr : forall a, steps silent_on_media (rest a)) end.
  { intros stream. op_step; [op_step; unfold silent_on_media; by rewrite asked_emit|].
    op_step; [op_step; [apply asked_steps; by apply steps_sendSignal | op_steps; apply asked_endLocal] | by op_steps]. }
  eexists. split; [|exact (Hf Hr)]. destruct mediaDevices; auto.
Qed.

Lemma accept_run id s m :
  accept_ringing id s m = match sendSignal CALL_ACCEPT [("callId", jstring (callId s))] (callId s) m with
                          | (m1, Ok _) => (_ ← open_media id (callId s) (mediaKind s); gets getSnapshot) (take id m1)
                          | (m1, Err e) => (rearm (callId s) m1, Err e)
                          end.
Proof. unfold accept_ringing, mbind, op_bind, catch, modify. by destruct (sendSignal _ _ _ m) as [m1 [u|e]]. Qed.

(** Camera and microphone are opened by the user alone. No signal of the peer, nor
    anything else that is not starting or accepting a call, asks for them. Accepting asks
    for them once, with the camera only for a video call, and only after the station has
    taken the acceptance; when it has not, the call fails without them. Starting a call asks
    at most once, and not at all while another call is not over. *)
Theorem media_by_consent :
  (forall o m, acceptance o = false -> (forall peer kind, o <> op_start peer kind) -> asked (run_operation o m) = asked m)
  /\ (forall m, match incoming_call m with
       | None => acceptCall m = (m, Ok None)
       | Some id =>
           let s := snapshot (the m id) in
           match sendSignal CALL_ACCEPT [("callId", jstring (callId s))] (callId s) (clearRingTimeout m) with
           | (_, Err e) => (acceptCall m).2 = Err e /\ asked (acceptCall m).1 = asked m
           | (_, Ok _) => asked (acceptCall m).1 = asked m ++ (if mediaDevices then [bool_decide (mediaKind s = video)] else [])
           end
       end)
  /\ (forall peer kind m, match current m with
       | Some c => if isTerminal (state (snapshot c)) then True else startOutgoingCall peer kind m = (m, Err "mobile.call.alreadyActive")
       | None => True
       end /\ (asked (startOutgoingCall peer kind m).1 = asked m \/ asked (startOutgoingCall peer kind m).1 = asked m ++ [bool_decide (kind = video)])).
Proof.
  split_and!.
  - intros o m Ha Hs. eapply (asked_runs True), plain_operation; [by destruct o | done..].
  - intros m. unfold acceptCall. destruct (incoming_call m) as [id|]; [|done]. set (s := snapshot (the m id)). cbn zeta.
    rewrite accept_run.
    pose proof (asked_steps _ (steps_sendSignal anything True True (fun _ _ _ => I) CALL_ACCEPT [("callId", jstring (callId s))] (callId s)) (clearRingTimeout m)) as Hsend.
    destruct (sendSignal _ _ _ _) as [m1 [u|e]]; cbn [fst] in Hsend.
    + unfold mbind, op_bind. pose proof (asked_open id (callId s) (mediaKind s) (take id m1)) as Ho.
      assert (Ht : asked (take id m1) = asked m) by (unfold take; rewrite asked_emit; exact Hsend). rewrite Ht in Ho.
      by destruct (open_media _ _ _ _) as [m2 [u'|e]].
    + split; [done|]. transitivity (asked m1); [cbn [fst]; unfold rearm; by destruct (decide (_ = _)) | exact Hsend].
  - intros peer kind m. split.
    { destruct (current m) as [c|] eqn:Hc; [|done]. destruct (isTerminal _) eqn:Ht; [done|].
      unfold startOutgoingCall, mbind, op_bind, requireIdle. by rewrite Hc, Ht. }
    apply asked_start.
Qed.
End histories.

Section depth.
Context `{CallEnv} `{Locale}.

(** Sending ends. A send may read the resolution of its call, which may send an offer,
    which may read the resolution again; there the call is no longer outgoing, so no further
    offer is sent: one nested offer is enough, and what a deeper one would do does not
    matter. *)
Theorem send_ends (fuel : nat) (deeper : list (string * Json) -> Op Manager unit) (peer sid : string) (kind : MobileCallSignalKind)
  (body : list (string * Json)) (id_of : string) (m : Manager) :
  send_with (S fuel) peer sid kind body id_of m = sendSignalFor peer sid kind body id_of m
  /\ sendSignalFor peer sid kind body id_of m
     = send_signal_for (fun b => send_signal (send_signal_for deeper) OFFER b "") peer sid kind body id_of m.
Proof.
  split; [apply send_depth|]. unfold sendSignalFor, SEND_DEPTH. cbn [send_with]. apply send_agree. right. intros b m' Hm'.
  unfold send_signal. apply bind_agree. intros c m1 [= <- <-]. destruct (current m') as [c|]; [|done]. apply send_agree. by left.
Qed.
End depth.

(** ** Runs *)
Module CallDemo.
#[export] Instance locale : Locale := {|
  Date_parse _ := None;
  localeCompare a b := match String.compare a b with Lt => -1 | Eq => 0 | Gt => 1 end
|}.

Definition bob : Session := {| stationPeerId := "station-1"; ptid := "bob" |}.

(** The payloads of the signals, by their plaintext. *)
Definition parse (s : string) : result Json :=
  if decide (s = "request") then Ok (jobject [("callId", jstring "call-1"); ("kind", jstring "audio")])
  else if decide (s = "sdp") then Ok (jobject [("sdp", jstring "v=0")])
  else if decide (s = "named") then Ok (jobject [("callId", jstring "call-1")])
  else if decide (s = "accepted") then Ok (jobject [("state", jstring "ACCEPTED"); ("winning_device_id", jstring "alice-1")])
  else Err "SyntaxError".

Definition demo_track : Track := {| track_id := "mic"; track_kind := audio; enabled := true; stopped := false |}.

Definition reply (s : Z) (text : string) : Response := {| status := s; responseText := text |}.

Definition demo_answer (A : Type) (h : list Event) (c : Call A) : result A :=
  match c with
  | messagingStatus => Ok {| ms_active := true; ms_stationPeerId := Some "station-1"; ms_actorPtid := Some "bob"; ms_deviceId := Some "bob-1" |}
  | getUserMedia _ => Ok [demo_track]
  | messagingCallSignalSeal _ _ _ _ _ => Ok "sealed"
  | messagingCallSignalOpen _ _ _ kind _ =>
      Ok (match kind with CALL_REQUEST => "request" | OFFER | ANSWER => "sdp" | _ => "named" end)
  | executeStationOperation _ (realtime_call_resolution_get _ _) => Ok (reply 200 "accepted")
  | executeStationOperation _ turn_ice_servers => Ok (reply 200 "")
  | executeStationOperation _ (realtime_signal_send _ _ _ _ _ _) => Ok (reply 204 "")
  | createOffer _ => Ok (Some "v=0")
  | createAnswer _ => Ok (Some "v=0")
  | setLocalDescription _ _ => Ok tt
  | setRemoteDescription _ _ _ => Ok tt
  | addIceCandidate _ _ => Ok tt
  end.

(** [during] are the interrupts while the media are being opened. *)
Definition env (during : list Interrupt) : CallEnv := {|
  answer := demo_answer;
  meanwhile h := match last h with
                 | Some (emitted (Some s)) => if decide (state s = active_here /\ localStream s = None) then during else []
                 | _ => []
                 end;
  Date_now _ := 1000;
  createCallId _ := "call-1";
  mediaDevices := true;
  JSON_parse := parse
|}.

Definition signal (kind : MobileCallSignalKind) (from : string) : Operation := op_signal {|
  signalKind := kind; sessionUlid := (if decide (from = "carol") then "bob-carol" else "alice-bob"); fromActorPtid := from; ev_callId := "call-1";
  ev_winningDeviceId := ""; payload := [] |}.

Definition state_now (m : Manager) : option CallStateLifecycle := state <$> getSnapshot m.

Abbreviation history during l := (run (H := env during) l new_manager).

Definition ring : list Operation := [op_activate bob; signal CALL_REQUEST "alice"].
Definition dial : list Operation := [op_activate bob; op_start "alice" audio].

Definition lives (m : Manager) : list bool := (fun l => existsb (fun t => negb (stopped t)) l) <$> streams m.

(** A call that is accepted, connected and ended. *)
Definition conversation : list Operation :=
  ring ++ [op_accept; signal OFFER "alice"; op_now (connection_changes 0 connected)].

Example accepted_call : state_now (history [] conversation) = Some active_here /\ lives (history [] conversation) = [true].
Proof. vm_compute. auto. Qed.

Example ended_call : state_now (history [] (conversation ++ [op_end])) = Some ended /\ lives (history [] (conversation ++ [op_end])) = [false].
Proof. vm_compute. auto. Qed.

Lemma calm_env (h : list Event) (i : Interrupt) : i ∈ meanwhile (CallEnv := env []) h -> calm i.
Proof.
  assert (Hn : meanwhile (CallEnv := env []) h = []).
  { cbn. destruct (last h) as [[A c|[s|]]|]; [reflexivity | | reflexivity..]. destruct (decide _); reflexivity. }
  rewrite Hn. intros Hi. by apply elem_of_nil in Hi.
Qed.

Lemma media_released_witness :
  live (history [] conversation) 0
  /\ exists c, current (history [] conversation) = Some c /\ localStream (snapshot c) = Some 0%nat /\ isTerminal (state (snapshot c)) = false.
Proof.
  assert (Hlive : live (history [] conversation) 0).
  { exists [demo_track], demo_track. split; [vm_compute; reflexivity|]. split; [left | reflexivity]. }
  split; [exact Hlive|]. exact (proj1 (proj2 (media_released (H := env []) conversation) (or_introl calm_env)) 0%nat Hlive).
Defined.

Lemma call_lifecycle_witness :
  let m := history [] ring in
  let m' := run (H := env []) [op_accept] m in
  identity (the m' 0) = identity (the m 0) /\ (rings (state (snapshot (the m' 0))) = true -> state (snapshot (the m' 0)) = state (snapshot (the m 0))).
Proof.
  assert (Hid : (0 < length (calls (history [] ring)))%nat) by (vm_compute; lia).
  destruct (call_lifecycle (H := env []) ring [op_accept] 0 Hid) as (Hi & Hr & _). split; [exact Hi | exact Hr].
Defined.

Definition ringing_call : ActiveCall := default inhabitant (current (history [] ring)).

Lemma ringing_ends_witness : current (history [] ring) = Some ringing_call /\ ringTimer (history [] ring) = Some (callId (snapshot ringing_call)).
Proof.
  assert (Hc : current (history [] ring) = Some ringing_call) by (vm_compute; reflexivity).
  assert (Hr : rings (state (snapshot ringing_call)) = true) by (vm_compute; reflexivity).
  split; [exact Hc|]. exact (proj1 (ringing_ends (H := env []) ring ringing_call Hc Hr)).
Defined.

(** *** Where the manager falls short *)

(** An outgoing call that the peer refused comes back to life, without a stream, when an
    acceptance arrives later. *)
Example late_acceptance_revives :
  state_now (history [] (dial ++ [signal CALL_REJECT "alice"])) = Some ended
  /\ state_now (history [] (dial ++ [signal CALL_REJECT "alice"; signal CALL_ACCEPT "alice"])) = Some active_here
  /\ lives (history [] (dial ++ [signal CALL_REJECT "alice"; signal CALL_ACCEPT "alice"])) = [false].
Proof. vm_compute. auto. Qed.

(** A reset while the microphone is being opened leaves it running, with no call. *)
Example reset_leaks_media :
  let m := history [do_reset] (ring ++ [op_accept]) in call m = None /\ lives m = [true].
Proof. vm_compute. auto. Qed.

(** A peer who connects before the call is accepted, and lets the connection fail while the
    microphone is being opened, is sent the microphone on a call that shows as ended. *)
Example ended_call_sends_media :
  let m := history [connection_changes 0 disconnected; reconnect_fires] (ring ++ [signal OFFER "alice"; op_accept; signal OFFER "alice"]) in
  state_now m = Some ended /\ lives m = [true]
  /\ exists pc, (current m ≫= peerConnection) = Some pc /\ connectionState (connections m !!! pc) = conn_new /\ senders (connections m !!! pc) = ["mic"].
Proof. vm_compute. split_and!; [done..|]. by exists 1%nat. Qed.

(** A suspended outgoing call keeps reconnecting after the app is back, although its
    connection never failed: no timer runs and the resolution changes nothing. *)
Example reconnects_forever :
  let m := history [] (dial ++ [signal CALL_ACCEPT "alice"; op_now (connection_changes 0 connected); op_now do_suspend; op_resume]) in
  state_now m = Some reconnecting /\ reconnectTimer m = None /\ connectionState (connections m !!! 0%nat) = connected.
Proof. vm_compute. auto. Qed.

(** The signals a history sent. *)
Definition sent (m : Manager) : list (string * MobileCallSignalKind) :=
  omap (fun e => match e with
                 | called c => match c with executeStationOperation _ (realtime_signal_send to _ kind _ _ _) => Some (to, kind) | _ => None end
                 | emitted _ => None
                 end) (trace m).

(** A request that arrives twice makes the ringing device refuse its own call as busy. *)
Example repeated_request_is_refused :
  let m := history [] (ring ++ [signal CALL_REQUEST "alice"]) in
  state_now m = Some ringing_all_devices /\ sent m = [("alice", CALL_REJECT)].
Proof. vm_compute. auto. Qed.

(** Until the user dismisses a call that is over, the calls of everyone else are dropped
    without an answer, as they are during a call. *)
Example others_are_dropped :
  let m := history [] (ring ++ [op_reject "declined"]) in
  let m' := history [] (ring ++ [op_reject "declined"; signal CALL_REQUEST "carol"]) in
  state_now m' = Some ended /\ call m' = call m /\ length (calls m') = length (calls m) /\ sent m' = sent m
  /\ sent (history [] (ring ++ [op_accept; signal CALL_REQUEST "carol"])) = sent (history [] (ring ++ [op_accept])).
Proof. vm_compute. auto. Qed.

(** A call that another device took turns into one that failed when the reconnect timer,
    which is not cleared, runs out. *)
Example taken_call_fails :
  let taken_by_desktop := op_signal {| signalKind := CALL_ACCEPT; sessionUlid := "alice-bob"; fromActorPtid := "bob"; ev_callId := "call-1";
                                       ev_winningDeviceId := "bob-desktop"; payload := [] |} in
  let m := history [] (conversation ++ [op_now (connection_changes 0 disconnected); taken_by_desktop]) in
  state_now m = Some handled_elsewhere /\ reconnectTimer m = Some "call-1"
  /\ endReason <$> getSnapshot (interrupt reconnect_fires m) = Some (Some network_failed).
Proof. vm_compute. auto. Qed.
End CallDemo.
