(* ===== verification/SessionRuntime.v ===== *)
(** * The session runtime of the mobile app

    Models [apps/mobile/src/runtimes/sessionRuntime.ts]: the controller that activates,
    refreshes and revokes the session of the signed-in actor, and the functions of the
    module around it. Native calls, requests and the hard delete of preferences take time;
    whatever waits for one is a task of the controller, and an input of [step] is a call, a
    timer, an answer or the resumption of a task whose promise settled, in any order. An
    error is its message. The clock is an argument of every input. *)
From Stdlib Require Import Ascii Lia ZArith.
From stdpp Require Import base numbers relations strings list gmap sets.
From S2P Require Import Prelude JsString AsyncOp KeyedSort EventIngress MutationAdmission.

Open Scope string_scope.
Open Scope list_scope.
Open Scope Z_scope.

Definition REFRESH_WINDOW_MS : Z := 2 * 60 * 1000.
Definition REFRESH_RETRY_DELAYS_MS : list Z := [5000; 15000; 30000].
Definition MAX_PLATFORM_TIMER_DELAY_MS : Z := 2147483647.

(** ** Data *)
Inductive SessionRuntimePhase : Set := phase_inactive | phase_active | phase_refreshing | phase_revoking | phase_revoked | phase_expired | phase_failed.
Inductive SessionRefreshReason : Set := scheduled_refresh | authenticated_401.
Inductive SessionAdmission : Set := admit_read | admit_write.

#[export] Instance SessionRuntimePhase_eq_dec : EqDecision SessionRuntimePhase.
Proof. solve_decision. Defined.
#[export] Instance SessionRefreshReason_eq_dec : EqDecision SessionRefreshReason.
Proof. solve_decision. Defined.

(** The credential owner is always [native-oauth]. *)
Record MobileSessionProjection : Set := {
  stationPeerId : string; stationUrl : string; sessionId : string; actorPtid : string; deviceId : string;
  lifecycleGeneration : Z; expiresAt : option string
}.

Record SessionRuntimeSnapshot : Set := {
  phase : SessionRuntimePhase; session : option MobileSessionProjection; writesAllowed : bool;
  refreshReason : option SessionRefreshReason; errorKey : option string
}.

(** What the native side answers; [sanitizeNativeSessionProjection] allows for missing texts. *)
Record NativeSessionProjection : Set := {
  n_stationPeerId : option string; n_sessionId : option string; n_actorPtid : option string; n_deviceId : option string;
  n_lifecycleGeneration : Z; n_expiresAt : option string
}.

Record NativeSessionSecureStorageAbsence : Set := {
  activeAttemptIndexAbsent : bool; attemptSecretRecordAbsent : bool; currentSessionIndexAbsent : bool;
  credentialRecordAbsent : bool; publicProjectionAbsent : bool
}.

Inductive StationRevocation : Set := revocation_not_required | revocation_confirmed | revocation_unconfirmed.
Record NativeSessionRevocation : Set := { stationRevocation : StationRevocation; secureStorage : NativeSessionSecureStorageAbsence }.
Record SessionRuntimeRevocation : Set := { remoteRevocation : StationRevocation; nativePurge : NativeSessionRevocation }.
Record NativeSessionScope : Set := { scope_origin : string; scope_peer : string }.

(** The fields of [MobileStationEntry] and [AccessDecision] that the file reads. *)
Record MobileStationEntry : Set := { st_peer : string; st_url : string }.
Inductive AccessState : Set := access_number (n : Z) | access_text (s : string).

(** The part of [OAuthPublicProjection] that is read; [oauth_active] is [phase === 'active_session']. *)
Record OAuthPublicProjection : Set := { oauth_active : bool; oauth_peer : option string; oauth_session : option NativeSessionProjection }.

Inductive Event : Set :=
| native_read (scope : NativeSessionScope)
| native_refresh (scope : NativeSessionScope)
| native_revoke (scope : option NativeSessionScope)
| purge_preferences (peer ptid : string)
| session_changed (s : option MobileSessionProjection)
| flag_cleared | flag_reported | request_sent | projection_hidden.

(** A number that may be [NaN]. *)
Definition number := option Z.
Definition js_max (a : Z) (x : number) : number := Z.max a <$> x.
Definition js_min (a : Z) (x : number) : number := Z.min a <$> x.
Definition js_sub (x : number) (a : Z) : number := (fun x => x - a) <$> x.
Definition js_add (a : Z) (x : number) : number := (fun x => a + x) <$> x.

Record Timer : Set := { delay : number; deadline : number; timer_reason : SessionRefreshReason }.

(** What an operation waits for, with what its closure holds. *)
Inductive Task : Set :=
| reading (observed : nat) (station : MobileStationEntry)
| refreshing (observed : nat) (current : MobileSessionProjection) (reason : SessionRefreshReason)
| revoking (observed : nat) (target : option MobileSessionProjection)
| purging (observed : nat) (target : option MobileSessionProjection) (purge : NativeSessionRevocation)
| expiring (pending observed : nat) (error : string)
| refresh_done (r : result MobileSessionProjection)
| revoke_done (r : result SessionRuntimeRevocation)
| requesting (admission : SessionAdmission)
| recovering (pending : nat) (admission : SessionAdmission)
| retrying
| purging_native.

(** What became of a promise. *)
Inductive Settled : Set :=
| restored (r : result (option MobileSessionProjection))
| refreshed (r : result MobileSessionProjection)
| revoked (r : result SessionRuntimeRevocation)
| responded (r : result nat)
| purged (r : result NativeSessionRevocation).

Record Controller : Type := {
  snapshot : SessionRuntimeSnapshot;
  refreshTimer : option Timer;
  refreshInFlight : option nat;
  revokeInFlight : option nat;
  revocationTarget : option MobileSessionProjection;
  refreshRetryIndex : nat;
  admissionEpoch : nat;
  tasks : gmap nat Task;
  promises : gmap nat Settled;
  next : nat;
  log : list Event
}.

Definition inactiveSnapshot : SessionRuntimeSnapshot :=
  {| phase := phase_inactive; session := None; writesAllowed := false; refreshReason := None; errorKey := None |}.

(** A snapshot without a session. *)
Definition closed (p : SessionRuntimePhase) (reason : option SessionRefreshReason) (error : option string) : SessionRuntimeSnapshot :=
  {| phase := p; session := None; writesAllowed := false; refreshReason := reason; errorKey := error |}.

Definition new_controller : Controller := {|
  snapshot := inactiveSnapshot; refreshTimer := None; refreshInFlight := None; revokeInFlight := None; revocationTarget := None;
  refreshRetryIndex := 0; admissionEpoch := 0; tasks := ∅; promises := ∅; next := 0; log := [] |}.

(** ** Fields *)
Section fields.
Implicit Types c : Controller.

Definition set_snapshot s c : Controller := {| snapshot := s; refreshTimer := refreshTimer c; refreshInFlight := refreshInFlight c; revokeInFlight := revokeInFlight c; revocationTarget := revocationTarget c; refreshRetryIndex := refreshRetryIndex c; admissionEpoch := admissionEpoch c; tasks := tasks c; promises := promises c; next := next c; log := log c |}.
Definition set_timer t c : Controller := {| snapshot := snapshot c; refreshTimer := t; refreshInFlight := refreshInFlight c; revokeInFlight := revokeInFlight c; revocationTarget := revocationTarget c; refreshRetryIndex := refreshRetryIndex c; admissionEpoch := admissionEpoch c; tasks := tasks c; promises := promises c; next := next c; log := log c |}.
Definition set_refreshInFlight p c : Controller := {| snapshot := snapshot c; refreshTimer := refreshTimer c; refreshInFlight := p; revokeInFlight := revokeInFlight c; revocationTarget := revocationTarget c; refreshRetryIndex := refreshRetryIndex c; admissionEpoch := admissionEpoch c; tasks := tasks c; promises := promises c; next := next c; log := log c |}.
Definition set_revokeInFlight p c : Controller := {| snapshot := snapshot c; refreshTimer := refreshTimer c; refreshInFlight := refreshInFlight c; revokeInFlight := p; revocationTarget := revocationTarget c; refreshRetryIndex := refreshRetryIndex c; admissionEpoch := admissionEpoch c; tasks := tasks c; promises := promises c; next := next c; log := log c |}.
Definition set_target t c : Controller := {| snapshot := snapshot c; refreshTimer := refreshTimer c; refreshInFlight := refreshInFlight c; revokeInFlight := revokeInFlight c; revocationTarget := t; refreshRetryIndex := refreshRetryIndex c; admissionEpoch := admissionEpoch c; tasks := tasks c; promises := promises c; next := next c; log := log c |}.
Definition set_retry i c : Controller := {| snapshot := snapshot c; refreshTimer := refreshTimer c; refreshInFlight := refreshInFlight c; revokeInFlight := revokeInFlight c; revocationTarget := revocationTarget c; refreshRetryIndex := i; admissionEpoch := admissionEpoch c; tasks := tasks c; promises := promises c; next := next c; log := log c |}.
Definition next_epoch c : Controller := {| snapshot := snapshot c; refreshTimer := refreshTimer c; refreshInFlight := None; revokeInFlight := revokeInFlight c; revocationTarget := revocationTarget c; refreshRetryIndex := refreshRetryIndex c; admissionEpoch := S (admissionEpoch c); tasks := tasks c; promises := promises c; next := next c; log := log c |}.
Definition set_tasks ts c : Controller := {| snapshot := snapshot c; refreshTimer := refreshTimer c; refreshInFlight := refreshInFlight c; revokeInFlight := revokeInFlight c; revocationTarget := revocationTarget c; refreshRetryIndex := refreshRetryIndex c; admissionEpoch := admissionEpoch c; tasks := ts; promises := promises c; next := next c; log := log c |}.
Definition set_promises ps c : Controller := {| snapshot := snapshot c; refreshTimer := refreshTimer c; refreshInFlight := refreshInFlight c; revokeInFlight := revokeInFlight c; revocationTarget := revocationTarget c; refreshRetryIndex := refreshRetryIndex c; admissionEpoch := admissionEpoch c; tasks := tasks c; promises := ps; next := next c; log := log c |}.
Definition set_next n c : Controller := {| snapshot := snapshot c; refreshTimer := refreshTimer c; refreshInFlight := refreshInFlight c; revokeInFlight := revokeInFlight c; revocationTarget := revocationTarget c; refreshRetryIndex := refreshRetryIndex c; admissionEpoch := admissionEpoch c; tasks := tasks c; promises := promises c; next := n; log := log c |}.
Definition add_event e c : Controller := {| snapshot := snapshot c; refreshTimer := refreshTimer c; refreshInFlight := refreshInFlight c; revokeInFlight := revokeInFlight c; revocationTarget := revocationTarget c; refreshRetryIndex := refreshRetryIndex c; admissionEpoch := admissionEpoch c; tasks := tasks c; promises := promises c; next := next c; log := log c ++ [e] |}.
End fields.

(** ** Texts *)
Definition digit (c : ascii) : bool := let n := N_of_ascii c in (48 <=? n)%N && (n <=? 57)%N.
Definition alphanumeric (c : ascii) : bool :=
  let n := N_of_ascii c in digit c || ((65 <=? n)%N && (n <=? 90)%N) || ((97 <=? n)%N && (n <=? 122)%N).

(** [/^(408|429|5\d\d)/] *)
Definition transient_status (s : string) : bool :=
  starts_with "408" s || starts_with "429" s
  || match s with String c (String d (String e _)) => bool_decide (c = "5"%char) && digit d && digit e | _ => false end.

(** [/sessionCredentialRejected:(408|429|5\d\d)/] *)
Fixpoint rejected_transiently (s : string) : bool :=
  (starts_with "sessionCredentialRejected:" s && transient_status (skip 26 s))
  || match s with EmptyString => false | String _ s => rejected_transiently s end.

Definition isTerminalSessionRefreshError (message : string) : bool :=
  if contains "oauthTransportUnavailable" message || contains "oauthResponseRead" message || rejected_transiently message
  then false else contains "mobile.auth.session" message.

Fixpoint take_alphanumeric (s : string) : string :=
  match s with String c s => if alphanumeric c then String c (take_alphanumeric s) else EmptyString | EmptyString => EmptyString end.

(** The first match of [/mobile\.auth\.[A-Za-z0-9]+/]. *)
Fixpoint auth_key (s : string) : option string :=
  let key := take_alphanumeric (skip 12 s) in
  if starts_with "mobile.auth." s && truthy key then Some ("mobile.auth." ++ key)%string
  else match s with EmptyString => None | String _ s => auth_key s end.

Definition sessionErrorKey (message : string) : string := default "mobile.auth.sessionFailed" (auth_key message).

Definition isSafeInteger (n : Z) : bool := (- MAX_SAFE_INTEGER <=? n) && (n <=? MAX_SAFE_INTEGER).

(** ** Validity *)
Definition isAccessGranted (decision : option AccessState) : bool :=
  match decision with
  | Some (access_number n) => n =? 3
  | Some (access_text s) => bool_decide (s = "ACCESS_DECISION_STATE_GRANTED")
  | None => false
  end.

(** [value?.trim()], where no text is as falsy as an empty one. *)
Definition trimmed (s : option string) : string := trim (default EmptyString s).

Definition sanitizeNativeSessionProjection (value : NativeSessionProjection) (stationUrl : string) : result MobileSessionProjection :=
  let peer := trimmed (n_stationPeerId value) in
  let sid := trimmed (n_sessionId value) in
  let ptid := trimmed (n_actorPtid value) in
  let device := trimmed (n_deviceId value) in
  let generation := n_lifecycleGeneration value in
  let expires := trimmed (n_expiresAt value) in
  if negb (truthy peer) || negb (truthy sid) || negb (truthy ptid) || negb (truthy device)
     || negb (isSafeInteger generation) || (generation <=? 0) || negb (truthy expires)
  then Err "mobile.auth.nativeSessionProjectionInvalid"
  else Ok {| stationPeerId := peer; stationUrl := strip_slashes stationUrl; sessionId := sid; actorPtid := ptid;
             deviceId := device; lifecycleGeneration := generation; expiresAt := Some expires |}.

Definition projectNative (value : NativeSessionProjection) (station : MobileStationEntry) : result MobileSessionProjection :=
  s ← sanitizeNativeSessionProjection value (st_url station);
  if decide (stationPeerId s <> st_peer station) then Err "mobile.auth.sessionStationMismatch" else Ok s.

Section session.
Context `{Locale} (retryDelaysMs : list Z).
Implicit Types (c : Controller) (now : Z).

(** [Date.parse(session.expiresAt ?? '')] *)
Definition expiry (s : MobileSessionProjection) : number := Date_parse (default "" (expiresAt s)).

Definition valid_session (s : MobileSessionProjection) now : bool :=
  truthy (stationPeerId s) && truthy (stationUrl s) && truthy (sessionId s) && truthy (actorPtid s) && truthy (deviceId s)
  && isSafeInteger (lifecycleGeneration s) && negb (lifecycleGeneration s <=? 0)
  && truthy (default "" (expiresAt s))
  && match expiry s with Some e => now <? e | None => false end.

Definition isMobileSessionProjectionValid (s : option MobileSessionProjection) now : bool :=
  match s with Some s => valid_session s now | None => false end.

Definition scopeFor (s : MobileSessionProjection) : NativeSessionScope := {| scope_origin := stationUrl s; scope_peer := stationPeerId s |}.
Definition scope_of (st : MobileStationEntry) : NativeSessionScope := {| scope_origin := st_url st; scope_peer := st_peer st |}.

Definition nativeStorageIsEmpty (a : NativeSessionSecureStorageAbsence) : bool :=
  activeAttemptIndexAbsent a && attemptSecretRecordAbsent a && currentSessionIndexAbsent a
  && credentialRecordAbsent a && publicProjectionAbsent a.

(** [snapshot.session ?? revocationTarget] *)
Definition owned c : option MobileSessionProjection :=
  match session (snapshot c) with Some s => Some s | None => revocationTarget c end.

(** ** The parts of the controller *)
Definition note (e : Event) : Op Controller unit := modify (add_event e).

Definition invalidateAdmission : Op Controller nat := _ ← modify next_epoch; gets admissionEpoch.

Definition publish (s : SessionRuntimeSnapshot) : Op Controller unit :=
  _ ← modify (set_snapshot s); note (session_changed (session s)).

Definition clearRefreshTimer : Op Controller unit := modify (set_timer None).

(** [now < deadline] is false of [NaN]. *)
Definition armTimer now (deadline : number) (reason : SessionRefreshReason) : Op Controller unit :=
  let remainingMs := js_max 0 (js_sub deadline now) in
  modify (set_timer (Some {| delay := js_min MAX_PLATFORM_TIMER_DELAY_MS remainingMs; deadline := deadline; timer_reason := reason |})).

Definition scheduleAt now (delayMs : number) (reason : SessionRefreshReason) : Op Controller unit :=
  _ ← clearRefreshTimer;
  armTimer now (js_add now (js_max 0 delayMs)) reason.

Definition scheduleRefresh now (s : MobileSessionProjection) : Op Controller unit :=
  _ ← clearRefreshTimer;
  if negb (truthy (default "" (expiresAt s))) then mret tt
  else match expiry s with
       | None =>
           _ ← modify (set_target (Some s));
           publish (closed phase_failed None (Some "mobile.auth.sessionExpiryInvalid"))
       | Some e => scheduleAt now (Some (e - now - REFRESH_WINDOW_MS)) scheduled_refresh
       end.

Definition activate now (s : MobileSessionProjection) : Op Controller unit :=
  _ ← modify (set_target (Some s));
  if negb (valid_session s now) then publish (closed phase_expired None (Some "mobile.auth.sessionExpired"))
  else
    _ ← modify (set_retry 0);
    _ ← publish {| phase := phase_active; session := Some s; writesAllowed := true; refreshReason := None; errorKey := None |};
    _ ← note flag_cleared;
    scheduleRefresh now s.

(** A new promise, with the task that will settle it. *)
Definition spawn (t : Task) : Op Controller nat :=
  id ← gets next;
  _ ← modify (set_next (S id));
  _ ← modify (fun c => set_tasks (<[id:=t]> (tasks c)) c);
  mret id.

Definition become (id : nat) (t : Task) : Op Controller unit := modify (fun c => set_tasks (<[id:=t]> (tasks c)) c).

Definition settle (id : nat) (s : Settled) : Op Controller unit :=
  _ ← modify (fun c => set_tasks (delete id (tasks c)) c);
  modify (fun c => set_promises (<[id:=s]> (promises c)) c).

(** A promise that is settled from the start. *)
Definition settled (s : Settled) : Op Controller nat :=
  id ← gets next;
  _ ← modify (set_next (S id));
  _ ← settle id s;
  mret id.

(** The outcome of a part of an operation, thrown or returned. *)
Definition attempt {A} (m : Op Controller A) : Op Controller (result A) := fun c => let (c, r) := m c in (c, Ok r).

(** Up to its first [await]. *)
Definition revoke : Op Controller nat :=
  inFlight ← gets revokeInFlight;
  match inFlight with
  | Some p => mret p
  | None =>
      observed ← invalidateAdmission;
      target ← gets owned;
      _ ← clearRefreshTimer;
      _ ← modify (set_retry 0);
      _ ← publish (closed phase_revoking None None);
      _ ← note (native_revoke (scopeFor <$> target));
      p ← spawn (revoking observed target);
      _ ← modify (set_revokeInFlight (Some p));
      mret p
  end.

(** The operation [id] awaits [revokeExpiredSession()] and then throws [error]. *)
Definition revokeExpiredSession (id : nat) (error : string) : Op Controller unit :=
  pending ← revoke;
  observed ← gets admissionEpoch;
  become id (expiring pending observed error).

Definition refresh now (reason : SessionRefreshReason) : Op Controller nat :=
  inFlight ← gets refreshInFlight;
  match inFlight with
  | Some p => mret p
  | None =>
      current ← gets owned;
      match current with
      | None => settled (refreshed (Err "mobile.auth.nativeSessionRequired"))
      | Some current =>
          observed ← invalidateAdmission;
          if negb (valid_session current now) then
            _ ← modify (set_target (Some current));
            _ ← publish (closed phase_expired (Some reason) (Some "mobile.auth.sessionExpired"));
            id ← spawn (refresh_done (Err "mobile.auth.sessionExpired"));
            _ ← revokeExpiredSession id "mobile.auth.sessionExpired";
            _ ← modify (set_refreshInFlight (Some id));
            mret id
          else
            _ ← clearRefreshTimer;
            _ ← publish {| phase := phase_refreshing; session := Some current; writesAllowed := false;
                           refreshReason := Some reason; errorKey := None |};
            _ ← note (native_refresh (scopeFor current));
            id ← spawn (refreshing observed current reason);
            _ ← modify (set_refreshInFlight (Some id));
            mret id
      end
  end.

(** ** Answers to native calls *)

(** The [try] block of [refresh] after its [await]. *)
Definition take_refreshed now (observed : nat) (current : MobileSessionProjection) (answer : result NativeSessionProjection)
  : Op Controller MobileSessionProjection :=
  response ← lift answer;
  epoch ← gets admissionEpoch;
  if decide (observed <> epoch) then throw "mobile.auth.sessionTransitionCancelled"
  else
    s ← lift (projectNative response {| st_peer := stationPeerId current; st_url := stationUrl current |});
    if decide (actorPtid s <> actorPtid current) then throw "mobile.auth.sessionIdentityMismatch"
    else _ ← activate now s; mret s.

(** A refresh that failed for a passing reason. *)
Definition retry_later now (current : MobileSessionProjection) : Op Controller unit :=
  index ← gets refreshRetryIndex;
  _ ← modify (set_retry (S index));
  _ ← publish {| phase := phase_active; session := Some current; writesAllowed := true; refreshReason := None;
                 errorKey := Some "mobile.auth.sessionRefreshRetrying" |};
  let remaining := js_max 0 (js_sub (expiry current) now) in
  match retryDelaysMs !! index with
  | Some retryDelay => scheduleAt now (js_min retryDelay remaining) scheduled_refresh
  | None => scheduleAt now remaining scheduled_refresh
  end.

Definition answer_refresh now (id observed : nat) (current : MobileSessionProjection) (reason : SessionRefreshReason)
  (answer : result NativeSessionProjection) : Op Controller unit :=
  r ← attempt (take_refreshed now observed current answer);
  match r with
  | Ok s => become id (refresh_done (Ok s))
  | Err error =>
      epoch ← gets admissionEpoch;
      if decide (observed <> epoch) then become id (refresh_done (Err error))
      else if bool_decide (reason = authenticated_401) || isTerminalSessionRefreshError error || negb (valid_session current now)
      then _ ← modify (set_target (Some current)); revokeExpiredSession id error
      else _ ← retry_later now current; become id (refresh_done (Err error))
  end.

(** The end of [revoke]: the purge is complete. *)
Definition revoke_complete (id observed : nat) (purge : NativeSessionRevocation) : Op Controller unit :=
  epoch ← gets admissionEpoch;
  _ ← (if decide (observed = epoch) then
         _ ← modify (set_target None); publish (closed phase_revoked None None)
       else mret tt);
  become id (revoke_done (Ok {| remoteRevocation := stationRevocation purge; nativePurge := purge |})).

(** Its [catch] block. *)
Definition revoke_failed (id observed : nat) (error : string) : Op Controller unit :=
  epoch ← gets admissionEpoch;
  _ ← (if decide (observed = epoch) then publish (closed phase_failed None (Some (sessionErrorKey error))) else mret tt);
  become id (revoke_done (Err error)).

Definition answer_revoke (id observed : nat) (target : option MobileSessionProjection) (answer : result NativeSessionRevocation)
  : Op Controller unit :=
  match answer with
  | Err error => revoke_failed id observed error
  | Ok purge =>
      if negb (nativeStorageIsEmpty (secureStorage purge)) then revoke_failed id observed "mobile.auth.sessionSecurePurgeIncomplete"
      else match target with
           | Some t => _ ← note (purge_preferences (stationPeerId t) (actorPtid t)); become id (purging observed target purge)
           | None => revoke_complete id observed purge
           end
  end.

(** The native answer to [restore]. *)
Definition take_read now (observed : nat) (station : MobileStationEntry) (answer : result (option NativeSessionProjection))
  : Op Controller (option MobileSessionProjection) :=
  value ← lift answer;
  epoch ← gets admissionEpoch;
  if decide (observed <> epoch) then mret None
  else match value with
       | Some value => s ← lift (projectNative value station); _ ← activate now s; mret (Some s)
       | None => _ ← publish inactiveSnapshot; mret None
       end.

Definition answer_read now (id observed : nat) (station : MobileStationEntry) (answer : result (option NativeSessionProjection))
  : Op Controller unit :=
  r ← attempt (take_read now observed station answer);
  settle id (restored r).

(** ** The calls *)
Definition restore (station : option MobileStationEntry) (decision : option AccessState) : Op Controller nat :=
  observed ← invalidateAdmission;
  _ ← clearRefreshTimer;
  match station, isAccessGranted decision with
  | Some station, true => _ ← note (native_read (scope_of station)); spawn (reading observed station)
  | _, _ => _ ← publish inactiveSnapshot; settled (restored (Ok None))
  end.

(** [projection.stationPeerId ?? ''] replaces the station of the session. *)
Definition oauth_native (projection : OAuthPublicProjection) (s : NativeSessionProjection) : NativeSessionProjection :=
  {| n_stationPeerId := Some (default "" (oauth_peer projection)); n_sessionId := n_sessionId s; n_actorPtid := n_actorPtid s;
     n_deviceId := n_deviceId s; n_lifecycleGeneration := n_lifecycleGeneration s; n_expiresAt := n_expiresAt s |}.

Definition observeOAuthProjection now (projection : OAuthPublicProjection) (station : option MobileStationEntry)
  (decision : option AccessState) : Op Controller unit :=
  _ ← invalidateAdmission;
  match station, isAccessGranted decision with
  | Some station, true =>
      match oauth_active projection, oauth_session projection with
      | true, Some s => s ← lift (projectNative (oauth_native projection s) station); activate now s
      | _, _ => mret tt
      end
  | _, _ => publish inactiveSnapshot
  end.

Definition fence : Op Controller unit :=
  _ ← invalidateAdmission;
  _ ← clearRefreshTimer;
  target ← gets owned;
  _ ← modify (set_target target);
  publish inactiveSnapshot.

Definition suspend : Op Controller unit := _ ← invalidateAdmission; clearRefreshTimer.

Definition fail (error : string) : Op Controller unit :=
  _ ← invalidateAdmission;
  _ ← clearRefreshTimer;
  target ← gets owned;
  _ ← modify (set_target target);
  publish (closed phase_failed None (Some (sessionErrorKey error))).

Definition assertWritesAllowed (s : SessionRuntimeSnapshot) : result unit :=
  if decide (phase s <> phase_active) then Err "mobile.auth.sessionWritesClosed"
  else if negb (writesAllowed s) || bool_decide (session s = None) then Err "mobile.auth.sessionWritesClosed"
  else Ok tt.

Definition assertReadableSession (s : SessionRuntimeSnapshot) now : result unit :=
  if negb (bool_decide (phase s = phase_active) || bool_decide (phase s = phase_refreshing))
     || negb (isMobileSessionProjectionValid (session s) now)
  then Err "mobile.auth.sessionUnavailable" else Ok tt.

Definition assertSessionAdmission (s : SessionRuntimeSnapshot) (admission : SessionAdmission) now : result unit :=
  match admission with admit_write => assertWritesAllowed s | admit_read => assertReadableSession s now end.

Definition runAfterAuthenticated401 now (admission : SessionAdmission) : Op Controller nat :=
  s ← gets snapshot;
  match assertSessionAdmission s admission now with
  | Err error => settled (responded (Err error))
  | Ok _ => _ ← note request_sent; spawn (requesting admission)
  end.

(** The answer to the first request, with [isAuthenticated401] of an error. *)
Definition answer_request now (id : nat) (admission : SessionAdmission) (answer : result nat) (is401 : bool) : Op Controller unit :=
  match answer with
  | Err _ =>
      if negb is401 then settle id (responded answer)
      else pending ← refresh now authenticated_401; become id (recovering pending admission)
  | Ok _ => settle id (responded answer)
  end.

(** [void refresh(reason).catch(...)] when the timer fires. *)
Definition fire_timer now : Op Controller unit :=
  timer ← gets refreshTimer;
  match timer with
  | None => mret tt
  | Some t =>
      _ ← clearRefreshTimer;
      if match deadline t with Some d => now <? d | None => false end then armTimer now (deadline t) (timer_reason t)
      else _ ← refresh now (timer_reason t); mret tt
  end.

(** ** Tasks whose promise settled *)
Definition resume now (id : nat) : Op Controller unit :=
  waiting ← gets (fun c => (tasks c !! id, promises c));
  match waiting with
  | (Some (expiring pending observed error), ps) =>
      match ps !! pending with
      | Some (revoked (Ok _)) =>
          epoch ← gets admissionEpoch;
          _ ← (if decide (observed = epoch) then note flag_reported else mret tt);
          become id (refresh_done (Err error))
      | Some (revoked (Err e)) => become id (refresh_done (Err e))
      | _ => mret tt
      end
  | (Some (recovering pending admission), ps) =>
      match ps !! pending with
      | Some (refreshed (Ok _)) =>
          s ← gets snapshot;
          match assertSessionAdmission s admission now with
          | Err error => settle id (responded (Err error))
          | Ok _ => _ ← note request_sent; become id retrying
          end
      | Some (refreshed (Err e)) => settle id (responded (Err e))
      | _ => mret tt
      end
  | _ => mret tt
  end.

(** The [finally] of a refresh or revocation. *)
Definition finish (id : nat) : Op Controller unit :=
  c ← gets (fun c => c);
  match tasks c !! id with
  | Some (refresh_done r) =>
      _ ← (if decide (refreshInFlight c = Some id) then modify (set_refreshInFlight None) else mret tt);
      settle id (refreshed r)
  | Some (revoke_done r) =>
      _ ← (if decide (revokeInFlight c = Some id) then modify (set_revokeInFlight None) else mret tt);
      settle id (revoked r)
  | _ => mret tt
  end.

(** ** The module around the controller *)
Definition fenceSessionRuntimeProjection : Op Controller unit := _ ← fence; note projection_hidden.

(** [purgeNativeSessionProjection] of a station, [purgeAllNativeSessionState] without one. *)
Definition purgeNativeSessionState (station : option MobileStationEntry) : Op Controller nat :=
  _ ← note (native_revoke (scope_of <$> station)); spawn purging_native.

Definition answer_purge (id : nat) (answer : result NativeSessionRevocation) : Op Controller unit :=
  match answer with
  | Err e => settle id (purged (Err e))
  | Ok r =>
      if negb (nativeStorageIsEmpty (secureStorage r)) then settle id (purged (Err "mobile.auth.sessionSecurePurgeIncomplete"))
      else _ ← fenceSessionRuntimeProjection; settle id (purged (Ok r))
  end.

Definition readActiveSessionProjection now c : option MobileSessionProjection :=
  let s := snapshot c in
  if (bool_decide (phase s = phase_active) || bool_decide (phase s = phase_refreshing)) && isMobileSessionProjectionValid (session s) now
  then session s else None.

(** Both return [current.session!]. *)
Definition assertSessionWriteAdmission c : result (option MobileSessionProjection) :=
  _ ← assertWritesAllowed (snapshot c); Ok (session (snapshot c)).
Definition assertSessionReadAdmission now c : result (option MobileSessionProjection) :=
  _ ← assertReadableSession (snapshot c) now; Ok (session (snapshot c)).

(** What [activateNativeSessionRuntime] makes of the promise of [restore]. *)
Definition activated (r : result (option MobileSessionProjection)) : result MobileSessionProjection :=
  s ← r; match s with Some s => Ok s | None => Err "mobile.auth.nativeSessionProjectionInvalid" end.

Definition activateNativeSessionRuntime (station : MobileStationEntry) (decision : option AccessState) : Op Controller nat :=
  if negb (isAccessGranted decision) then throw "mobile.auth.accessGrantRequired"
  else restore (Some station) decision.

(** What the session runtime reports to the mutation admission (line 766). *)
Definition session_admission c : result MutationAdmission.SessionAdmission :=
  key ← match session (snapshot c) with
        | Some s => k ← mobileMutationScopeKey (stationPeerId s) (actorPtid s) (deviceId s) (lifecycleGeneration s); Ok (Some k)
        | None => Ok None
        end;
  Ok {| sa_scopeKey := key;
        sa_open := bool_decide (phase (snapshot c) = phase_active) && writesAllowed (snapshot c);
        sa_reason := "session_" ++ match phase (snapshot c) with
          | phase_inactive => "inactive" | phase_active => "active" | phase_refreshing => "refreshing" | phase_revoking => "revoking"
          | phase_revoked => "revoked" | phase_expired => "expired" | phase_failed => "failed" end |}.

(** ** Runs *)
Inductive Input : Set :=
| do_restore (station : option MobileStationEntry) (decision : option AccessState)
| do_observe (projection : OAuthPublicProjection) (station : option MobileStationEntry) (decision : option AccessState)
| do_refresh (reason : SessionRefreshReason)
| do_revoke | do_fence | do_suspend
| do_fail (error : string)
| do_request (admission : SessionAdmission)
| do_purge (station : option MobileStationEntry)
| timer_fires
| read_answered (id : nat) (answer : result (option NativeSessionProjection))
| refresh_answered (id : nat) (answer : result NativeSessionProjection)
| revoke_answered (id : nat) (answer : result NativeSessionRevocation)
| preferences_purged (id : nat) (answer : result unit)
| request_answered (id : nat) (answer : result nat) (is401 : bool)
| resumes (id : nat)
| finishes (id : nat).

(** An answer reaches the task that waits for it. *)
Definition deliver (id : nat) (k : Task -> Op Controller unit) : Op Controller unit :=
  task ← gets (fun c => tasks c !! id); match task with Some t => k t | None => mret tt end.

Definition void {A} (m : Op Controller A) : Op Controller unit := _ ← m; mret tt.

Definition perform now (i : Input) : Op Controller unit :=
  match i with
  | do_restore st d => void (restore st d)
  | do_observe p st d => observeOAuthProjection now p st d
  | do_refresh r => void (refresh now r)
  | do_revoke => void revoke
  | do_fence => fenceSessionRuntimeProjection
  | do_suspend => suspend
  | do_fail e => fail e
  | do_request a => void (runAfterAuthenticated401 now a)
  | do_purge st => void (purgeNativeSessionState st)
  | timer_fires => fire_timer now
  | read_answered id a =>
      deliver id (fun t => match t with reading o st => answer_read now id o st a | _ => mret tt end)
  | refresh_answered id a =>
      deliver id (fun t => match t with refreshing o cur r => answer_refresh now id o cur r a | _ => mret tt end)
  | revoke_answered id a =>
      deliver id (fun t => match t with
        | revoking o target => answer_revoke id o target a
        | purging_native => answer_purge id a
        | _ => mret tt end)
  | preferences_purged id a =>
      deliver id (fun t => match t with
        | purging o _ purge => match a with Ok _ => revoke_complete id o purge | Err e => revoke_failed id o e end
        | _ => mret tt end)
  | request_answered id a is401 =>
      deliver id (fun t => match t with
        | requesting adm => answer_request now id adm a is401
        | retrying => settle id (responded a)
        | _ => mret tt end)
  | resumes id => resume now id
  | finishes id => finish id
  end.

Definition step c (i : Z * Input) : Controller := (perform i.1 i.2 c).1.
Definition run c (l : list (Z * Input)) : Controller := fold_left step l c.
End session.
