(* ===== verification/SessionFacts.v ===== *)
(** * The session runtime: invariant

    What holds of every controller that [SessionRuntime.run] reaches: the shape of the
    snapshot, the bounds of the refresh timer, and the bookkeeping of tasks and promises. *)
From Stdlib Require Import Ascii Lia ZArith.
From stdpp Require Import base numbers relations strings list gmap sets.
From S2P Require Import Prelude JsString AsyncOp KeyedSort EventIngress MutationAdmission SessionRuntime.

Open Scope Z_scope.

(** ** What native projections become *)

(** The parts of a session that do not depend on the clock. *)
Record sound (s : MobileSessionProjection) : Prop := {
  so_peer : stationPeerId s <> EmptyString /\ trim (stationPeerId s) = stationPeerId s;
  so_url : strip_slashes (stationUrl s) = stationUrl s;
  so_session : sessionId s <> EmptyString;
  so_ptid : actorPtid s <> EmptyString /\ trim (actorPtid s) = actorPtid s;
  so_device : deviceId s <> EmptyString /\ trim (deviceId s) = deviceId s;
  so_generation : 0 < lifecycleGeneration s <= MAX_SAFE_INTEGER;
  so_expires : exists e, expiresAt s = Some e /\ e <> EmptyString
}.

Lemma sanitized_sound n url s : sanitizeNativeSessionProjection n url = Ok s -> sound s /\ stationUrl s = strip_slashes url.
Proof.
  unfold sanitizeNativeSessionProjection. destruct (_ || _) eqn:Hb; [done|]. intros [= <-]. unfold isSafeInteger in Hb.
  repeat match goal with H : _ || _ = false |- _ => apply orb_false_elim in H as [? ?] end. reflect_bool.
  split; [|done]. constructor; cbn; try (split; [by apply truthy_spec | apply trim_idem]); [apply strip_idem | by apply truthy_spec | lia |].
  eexists. split; [done | by apply truthy_spec].
Qed.

Lemma projected_sound n st s :
  projectNative n st = Ok s -> sound s /\ stationPeerId s = st_peer st /\ stationUrl s = strip_slashes (st_url st).
Proof.
  unfold projectNative. intros (s' & Hs & Hd)%bind_ok. destruct (decide _) as [|He]; [done|]. injection Hd as <-.
  apply sanitized_sound in Hs as [? ?]. split_and!; [done | | done]. by apply dec_stable.
Qed.

Section facts.
Context `{Locale} (retryDelaysMs : list Z).
Implicit Types (c : Controller) (now : Z).

Lemma valid_spec s now :
  valid_session s now = true -> stationUrl s <> EmptyString /\ exists e, expiry s = Some e /\ now < e.
Proof.
  unfold valid_session. intros Hv. repeat match goal with H : _ && _ = true |- _ => apply andb_prop in H as [? ?] end.
  split; [by apply truthy_spec|]. destruct (expiry s) as [e|]; [|done]. eexists. split; [done|]. by apply Z.ltb_lt.
Qed.

(** A sound session is valid until it expires. *)
Lemma sound_valid s now : sound s -> stationUrl s <> EmptyString -> valid_session s now = match expiry s with Some e => now <? e | None => false end.
Proof.
  intros [[? _] _ ? [? _] [? _] [? ?] (e & Heq & ?)] ?. unfold valid_session, isSafeInteger. rewrite Heq. cbn [default].
  rewrite !truthy_true by done. cbn. rewrite (proj2 (Z.leb_le _ _)) by (unfold MAX_SAFE_INTEGER in *; lia).
  rewrite (proj2 (Z.leb_le _ _)) by done. by rewrite (proj2 (Z.leb_gt _ _)) by lia.
Qed.

(** ** Kinds of tasks *)
Definition observed_of (t : Task) : option nat :=
  match t with reading o _ | refreshing o _ _ | revoking o _ | purging o _ _ => Some o | _ => None end.
Definition refresh_kind (t : Task) : bool := match t with refreshing _ _ _ | expiring _ _ _ | refresh_done _ => true | _ => false end.
Definition revoke_kind (t : Task) : bool := match t with revoking _ _ | purging _ _ _ | revoke_done _ => true | _ => false end.
Definition is_refreshed (s : Settled) : bool := match s with refreshed _ => true | _ => false end.
Definition is_revoked (s : Settled) : bool := match s with revoked _ => true | _ => false end.

Definition has (K : Task -> bool) (ts : gmap nat Task) (p : nat) : Prop := exists t, ts !! p = Some t /\ K t = true.
(** A promise of an operation of kind [K], under way or settled. *)
Definition owes (K : Task -> bool) (J : Settled -> bool) (ts : gmap nat Task) (ps : gmap nat Settled) (p : nat) : Prop :=
  has K ts p \/ exists s, ps !! p = Some s /\ J s = true.

Lemma has_insert K ts i x p : has K ts p -> (p = i -> K x = true) -> has K (<[i:=x]> ts) p.
Proof.
  intros (t & Ht & Hk) Hx. destruct (decide (p = i)) as [->|Hne].
  - exists x. rewrite lookup_insert_eq. auto.
  - exists t. by rewrite lookup_insert_ne.
Qed.

Lemma has_here K ts i x : K x = true -> has K (<[i:=x]> ts) i.
Proof. exists x. by rewrite lookup_insert_eq. Qed.

Lemma has_delete K ts i p : has K ts p -> p <> i -> has K (delete i ts) p.
Proof. intros (t & Ht & Hk) Hne. exists t. by rewrite lookup_delete_ne. Qed.

Lemma owes_insert K J ts ps i x p : owes K J ts ps p -> (p = i -> K x = true) -> owes K J (<[i:=x]> ts) ps p.
Proof. intros [Hh|Hs] Hx; [left; by apply has_insert | by right]. Qed.

Lemma owes_settle K J ts ps i s p :
  ps !! i = None -> owes K J ts ps p -> (p = i -> has K ts i -> J s = true) -> owes K J (delete i ts) (<[i:=s]> ps) p.
Proof.
  intros Hi Ho Hs. destruct (decide (p = i)) as [->|Hne].
  - destruct Ho as [Hh|(? & ? & ?)]; [|congruence]. right. exists s. rewrite lookup_insert_eq. auto.
  - destruct Ho as [Hh|(x & Hx & ?)]; [left; by apply has_delete|]. right. exists x. by rewrite lookup_insert_ne.
Qed.

(** ** The view: what the app sees of the controller *)
Record view_ok (s : SessionRuntimeSnapshot) (target : option MobileSessionProjection) (timer : option Timer) : Prop := {
  vo_open : writesAllowed s = true -> phase s = phase_active;
  vo_phase : is_Some (session s) <-> phase s = phase_active \/ phase s = phase_refreshing;
  vo_owner : forall x, session s = Some x -> target = Some x /\ stationUrl x <> EmptyString /\ is_Some (expiry x);
  vo_target : forall x, target = Some x -> sound x;
  vo_timer : forall t, timer = Some t -> timer_reason t = scheduled_refresh /\ exists d, delay t = Some d /\ 0 <= d <= MAX_PLATFORM_TIMER_DELAY_MS;
  vo_deadline : forall t, timer = Some t -> exists d, deadline t = Some d
    /\ (phase s = phase_active -> forall x e, session s = Some x -> expiry x = Some e -> d <= e)
}.

Abbreviation view_inv c := (view_ok (snapshot c) (revocationTarget c) (refreshTimer c)).

(** ** The books: tasks and promises *)
Record books_ok (ts : gmap nat Task) (ps : gmap nat Settled) (n e : nat) (rf rv : option nat) : Prop := {
  bo_task : forall i t, ts !! i = Some t -> (i < n)%nat /\ ps !! i = None;
  bo_promise : forall i s, ps !! i = Some s -> (i < n)%nat;
  bo_observed : forall i t o, ts !! i = Some t -> observed_of t = Some o -> (o <= e)%nat;
  bo_unique : forall i j t u o, ts !! i = Some t -> ts !! j = Some u -> observed_of t = Some o -> observed_of u = Some o -> i = j;
  bo_refresh : forall p, rf = Some p -> has refresh_kind ts p;
  bo_revoke : forall p, rv = Some p -> has revoke_kind ts p;
  bo_expiring : forall i p o m, ts !! i = Some (expiring p o m) -> (o <= e)%nat /\ owes revoke_kind is_revoked ts ps p;
  bo_recovering : forall i p a, ts !! i = Some (recovering p a) -> owes refresh_kind is_refreshed ts ps p;
  bo_purging : forall i o t purge, ts !! i = Some (purging o t purge) -> nativeStorageIsEmpty (secureStorage purge) = true
}.

Abbreviation books_inv c := (books_ok (tasks c) (promises c) (next c) (admissionEpoch c) (refreshInFlight c) (revokeInFlight c)).

(** ** What the call of the current epoch has to do with the view *)
Record live_ok (ts : gmap nat Task) (e : nat) (rf rv : option nat) (s : SessionRuntimeSnapshot) (target : option MobileSessionProjection) : Prop := {
  li_refresh : forall i x r, ts !! i = Some (refreshing e x r) -> rf = Some i /\ session s = Some x /\ phase s = phase_refreshing;
  li_revoking : forall i x, ts !! i = Some (revoking e x) -> rv = Some i /\ target = x /\ phase s = phase_revoking;
  li_purging : forall i x purge, ts !! i = Some (purging e x purge) -> rv = Some i /\ target = x /\ phase s = phase_revoking
}.

Abbreviation live_inv c := (live_ok (tasks c) (admissionEpoch c) (refreshInFlight c) (revokeInFlight c) (snapshot c) (revocationTarget c)).

Record inv c : Prop := { iv_view : view_inv c; iv_books : books_inv c; iv_live : live_inv c }.

(** No native call is of the epoch [e]. *)
Definition quiet (ts : gmap nat Task) (e : nat) : Prop := forall i t, ts !! i = Some t -> observed_of t <> Some e.

Lemma owned_target c : view_inv c -> owned c = revocationTarget c.
Proof. intros Hv. unfold owned. destruct (session _) as [s|] eqn:Hs; [|done]. symmetry. by apply (vo_owner _ _ _ Hv). Qed.

(** ** Steps of the books *)
Section books.
Context {ts : gmap nat Task} {ps : gmap nat Settled} {n e : nat} {rf rv : option nat}.
Context (B : books_ok ts ps n e rf rv).

Lemma books_bump : books_ok ts ps n (S e) None rv.
Proof using B.
  destruct B as [b1 b2 b3 b4 b5 b6 b7 b8 b9]. constructor; try done.
  - intros i t o Ht Ho. specialize (b3 i t o Ht Ho). lia.
  - intros i p o m Ht. destruct (b7 i p o m Ht). split; [lia | done].
Qed.

Lemma quiet_bump : quiet ts (S e).
Proof using B. intros i t Ht Ho. pose proof (bo_observed _ _ _ _ _ _ B i t _ Ht Ho). lia. Qed.

Lemma quiet_done i t t' : ts !! i = Some t -> observed_of t = Some e -> observed_of t' <> Some e -> quiet (<[i:=t']> ts) e.
Proof using B.
  intros Hi Hq Ht' j u [[<- <-]|[Hne Hu]]%lookup_insert_Some; [done|]. intros Ho. apply Hne.
  exact (bo_unique _ _ _ _ _ _ B i j t u e Hi Hu Hq Ho).
Qed.

Lemma fresh_task i t : ts !! i = Some t -> i <> n.
Proof using B. intros Ht. destruct (bo_task _ _ _ _ _ _ B i t Ht). lia. Qed.

Lemma owes_spawn K J t p : owes K J ts ps p -> owes K J (<[n:=t]> ts) ps p.
Proof using B.
  intros [(u & Hu & Hk)|Hs]; [|by right]. left. apply has_insert; [by exists u|]. intros ->.
  destruct (fresh_task n u Hu). done.
Qed.

Lemma books_spawn t :
  match t with expiring _ _ _ | recovering _ _ | purging _ _ _ => False | _ => True end ->
  (forall o, observed_of t = Some o -> o = e /\ quiet ts e) -> books_ok (<[n:=t]> ts) ps (S n) e rf rv.
Proof using B.
  intros Hsort Ho. pose proof owes_spawn as Hos. destruct B as [b1 b2 b3 b4 b5 b6 b7 b8 b9]. constructor.
  - intros i u [[<- <-]|[Hne Hu]]%lookup_insert_Some.
    + split; [lia|]. destruct (ps !! n) as [s|] eqn:Hs; [|done]. specialize (b2 n s Hs). lia.
    + destruct (b1 i u Hu). split; [lia | done].
  - intros i s Hs. specialize (b2 i s Hs). lia.
  - intros i u o [[<- <-]|[Hne Hu]]%lookup_insert_Some Hou; [destruct (Ho o Hou); lia | by eapply b3].
  - intros i j u v o [[<- <-]|[Hne Hu]]%lookup_insert_Some [[<- <-]|[Hne' Hv]]%lookup_insert_Some Hou Hov; try done.
    + destruct (Ho o Hou) as [-> Hq]. by destruct (Hq j v Hv).
    + destruct (Ho o Hov) as [-> Hq]. by destruct (Hq i u Hu).
    + by eapply b4.
  - intros p Hp. destruct (b5 p Hp) as (u & Hu & ?). apply has_insert; [by exists u|]. intros ->. destruct (b1 n u Hu). lia.
  - intros p Hp. destruct (b6 p Hp) as (u & Hu & ?). apply has_insert; [by exists u|]. intros ->. destruct (b1 n u Hu). lia.
  - intros i p o m [[<- ->]|[Hne Hu]]%lookup_insert_Some; [done|]. destruct (b7 i p o m Hu). split; [done | by apply Hos].
  - intros i p a [[<- ->]|[Hne Hu]]%lookup_insert_Some; [done|]. apply Hos. by eapply b8.
  - intros i o x purge [[<- ->]|[Hne Hu]]%lookup_insert_Some; [done | by eapply b9].
Qed.

Lemma books_become i t t' :
  ts !! i = Some t -> refresh_kind t = refresh_kind t' -> revoke_kind t = revoke_kind t' ->
  observed_of t' = None \/ observed_of t' = observed_of t ->
  (forall p o m, t' = expiring p o m -> (o <= e)%nat /\ owes revoke_kind is_revoked ts ps p) ->
  (forall p a, t' = recovering p a -> owes refresh_kind is_refreshed ts ps p) ->
  (forall o x purge, t' = purging o x purge -> nativeStorageIsEmpty (secureStorage purge) = true) ->
  books_ok (<[i:=t']> ts) ps n e rf rv.
Proof using B.
  intros Hi Hrf Hrv Hobs Hx Hr Hp. destruct B as [b1 b2 b3 b4 b5 b6 b7 b8 b9].
  assert (Hhas : forall K p, has K ts p -> K t = K t' -> has K (<[i:=t']> ts) p).
  { intros K p Hh Hk. apply has_insert; [done|]. intros ->. destruct Hh as (u & Hu & ?). congruence. }
  assert (Hown : forall K J p, owes K J ts ps p -> K t = K t' -> owes K J (<[i:=t']> ts) ps p).
  { intros K J p [Hh|Hs] Hk; [left; by apply Hhas | by right]. }
  constructor.
  - intros j u [[<- <-]|[Hne Hu]]%lookup_insert_Some; [by apply (b1 i t) | by apply (b1 j u)].
  - done.
  - intros j u o [[<- <-]|[Hne Hu]]%lookup_insert_Some Ho; [|by eapply b3].
    destruct Hobs as [Hn|Hs]; [congruence|]. rewrite Hs in Ho. by eapply b3.
  - intros j k u v o [[<- <-]|[Hne Hu]]%lookup_insert_Some [[<- <-]|[Hne' Hv]]%lookup_insert_Some Ho Ho'; try done.
    + destruct Hobs as [Hn|Hs]; [congruence|]. rewrite Hs in Ho. exact (b4 i k t v o Hi Hv Ho Ho').
    + destruct Hobs as [Hn|Hs]; [congruence|]. rewrite Hs in Ho'. exact (b4 j i u t o Hu Hi Ho Ho').
    + by eapply b4.
  - intros p Hq. apply Hhas; auto.
  - intros p Hq. apply Hhas; auto.
  - intros j p o m [[<- Hu]|[Hne Hu]]%lookup_insert_Some.
    + destruct (Hx p o m Hu). split; [done | by apply Hown].
    + destruct (b7 j p o m Hu). split; [done | by apply Hown].
  - intros j p a [[<- Hu]|[Hne Hu]]%lookup_insert_Some; apply Hown; eauto.
  - intros j o x purge [[<- Hu]|[Hne Hu]]%lookup_insert_Some; eauto.
Qed.

Lemma books_settle i t s :
  ts !! i = Some t -> (refresh_kind t = true -> is_refreshed s = true) -> (revoke_kind t = true -> is_revoked s = true) ->
  rf <> Some i -> rv <> Some i -> books_ok (delete i ts) (<[i:=s]> ps) n e rf rv.
Proof using B.
  intros Hi Hr Hv Hrf Hrv. destruct B as [b1 b2 b3 b4 b5 b6 b7 b8 b9]. destruct (b1 i t Hi) as [Hlt Hps]. constructor.
  - intros j u [Hne Hu]%lookup_delete_Some. rewrite lookup_insert_ne by done. by apply (b1 j u).
  - intros j x [[<- <-]|[Hne Hx]]%lookup_insert_Some; [done | by eapply b2].
  - intros j u o [Hne Hu]%lookup_delete_Some. by eapply b3.
  - intros j k u v o [Hne Hu]%lookup_delete_Some [Hne' Hw]%lookup_delete_Some. by eapply b4.
  - intros p Hp. apply has_delete; [by apply b5 | congruence].
  - intros p Hp. apply has_delete; [by apply b6 | congruence].
  - intros j p o m [Hne Hu]%lookup_delete_Some. destruct (b7 j p o m Hu) as [? Hw]. split; [done|].
    apply owes_settle; [done | done |]. intros -> (u & ? & ?). apply Hv. congruence.
  - intros j p a [Hne Hu]%lookup_delete_Some. apply owes_settle; [done | by eapply b8 |]. intros -> (u & ? & ?). apply Hr. congruence.
  - intros j o x purge [Hne Hu]%lookup_delete_Some. by eapply b9.
Qed.

Lemma books_settled s : books_ok (delete n ts) (<[n:=s]> ps) (S n) e rf rv.
Proof using B.
  destruct B as [b1 b2 b3 b4 b5 b6 b7 b8 b9]. assert (Hn : ts !! n = None).
  { destruct (ts !! n) as [t|] eqn:Ht; [|done]. destruct (b1 n t Ht). lia. }
  assert (Hp : ps !! n = None). { destruct (ps !! n) as [x|] eqn:Hx; [|done]. specialize (b2 n x Hx). lia. }
  rewrite delete_id by done.
  assert (Hown : forall K J p, owes K J ts ps p -> owes K J ts (<[n:=s]> ps) p).
  { intros K J p [Hh|(x & Hx & ?)]; [by left|]. right. exists x. rewrite lookup_insert_ne; [done|]. intros ->. congruence. }
  constructor; try done.
  - intros i t Ht. destruct (b1 i t Ht). rewrite lookup_insert_ne by lia. split; [lia | done].
  - intros i x [[<- <-]|[Hne Hx]]%lookup_insert_Some; [lia|]. specialize (b2 i x Hx). lia.
  - intros i p o m Ht. destruct (b7 i p o m Ht). auto.
  - intros i p a Ht. eauto.
Qed.

Lemma books_refresh p : has refresh_kind ts p -> books_ok ts ps n e (Some p) rv.
Proof using B. intros Hp. destruct B. constructor; try done. by intros q [= <-]. Qed.

Lemma books_revoke p : has revoke_kind ts p -> books_ok ts ps n e rf (Some p).
Proof using B. intros Hp. destruct B. constructor; try done. by intros q [= <-]. Qed.

Lemma books_no_refresh : books_ok ts ps n e None rv.
Proof using B. destruct B. by constructor. Qed.

Lemma books_no_revoke : books_ok ts ps n e rf None.
Proof using B. destruct B. by constructor. Qed.
End books.

Lemma live_quiet ts e rf rv s target : quiet ts e -> live_ok ts e rf rv s target.
Proof. intros Hq. constructor; intros i x; [intros r|..|intros purge]; intros Hi; by destruct (Hq _ _ Hi). Qed.

Lemma live_insert ts e rf rv s target i t : live_ok ts e rf rv s target -> observed_of t = None -> live_ok (<[i:=t]> ts) e rf rv s target.
Proof.
  intros [l1 l2 l3] Ht. constructor.
  - intros j x r [[<- ->]|[? Hj]]%lookup_insert_Some; [done | by eapply l1].
  - intros j x [[<- ->]|[? Hj]]%lookup_insert_Some; [done | by eapply l2].
  - intros j x p [[<- ->]|[? Hj]]%lookup_insert_Some; [done | by eapply l3].
Qed.

Lemma live_delete ts e rf rv s target i : live_ok ts e rf rv s target -> live_ok (delete i ts) e rf rv s target.
Proof.
  intros [l1 l2 l3]. constructor.
  - intros j x r [? Hj]%lookup_delete_Some. by eapply l1.
  - intros j x [? Hj]%lookup_delete_Some. by eapply l2.
  - intros j x p [? Hj]%lookup_delete_Some. by eapply l3.
Qed.

Lemma quiet_insert ts e i t : quiet ts e -> observed_of t <> Some e -> quiet (<[i:=t]> ts) e.
Proof. intros Hq Ht j u [[<- <-]|[? Hu]]%lookup_insert_Some; [done | by eapply Hq]. Qed.

Lemma quiet_delete ts e i : quiet ts e -> quiet (delete i ts) e.
Proof. intros Hq j u [? Hu]%lookup_delete_Some. by eapply Hq. Qed.

Lemma live_spawn ts n e rf rv s target t :
  quiet ts e ->
  match t with
  | refreshing o x _ => o = e -> rf = Some n /\ session s = Some x /\ phase s = phase_refreshing
  | revoking o x | purging o x _ => o = e -> rv = Some n /\ target = x /\ phase s = phase_revoking
  | _ => True
  end -> live_ok (<[n:=t]> ts) e rf rv s target.
Proof.
  intros Hq Ht. constructor; intros i x; [intros r | | intros p];
    (intros [[<- ->]|[? Hj]]%lookup_insert_Some; [by apply Ht | by destruct (Hq _ _ Hj)]).
Qed.

(** ** Steps of the view *)
Definition without_session (p : SessionRuntimePhase) : Prop := p <> phase_active /\ p <> phase_refreshing.

Lemma view_closed s target timer timer' p r e :
  view_ok s target timer -> without_session p -> timer' = timer \/ timer' = None -> view_ok (closed p r e) target timer'.
Proof.
  intros [v1 v2 v3 v4 v5 v6] [Hp Hp'] Ht. constructor; cbn; try done.
  - split; [by intros [? ?] | by intros []].
  - destruct Ht as [->| ->]; [done | by intros ?].
  - destruct Ht as [->| ->]; [|by intros ?]. intros t Hx. destruct (v6 t Hx) as (d & ? & _). exists d. split; [done|]. intros. done.
Qed.

Lemma view_no_timer s target timer : view_ok s target timer -> view_ok s target None.
Proof. intros []. by constructor. Qed.

Lemma view_target s target timer x :
  view_ok s target timer -> sound x -> session s = None -> view_ok s (Some x) timer.
Proof. intros [] Hx Hs. constructor; try done; [intros y; by rewrite Hs | by intros y [= <-]]. Qed.

Lemma view_forget s target timer : view_ok s target timer -> session s = None -> view_ok s None timer.
Proof. intros [] Hs. constructor; try done. intros y. by rewrite Hs. Qed.

(** A timer that runs out by [x], where that is a date after [now]. *)
Definition timer_at now (d : Z) : Timer :=
  {| delay := Some (Z.min MAX_PLATFORM_TIMER_DELAY_MS (Z.max 0 (d - now))); deadline := Some d; timer_reason := scheduled_refresh |}.

Lemma view_open s x now d timer e :
  sound x -> stationUrl x <> EmptyString -> expiry x = Some e -> d <= e ->
  phase s = phase_active \/ phase s = phase_refreshing -> session s = Some x -> (writesAllowed s = true -> phase s = phase_active) ->
  timer = Some (timer_at now d) \/ timer = None -> view_ok s (Some x) timer.
Proof.
  intros Hx Hu He Hd Hp Hs Hw Ht. constructor; try done.
  - rewrite Hs. intros y [= <-]. rewrite He. split_and!; [done | done | by eexists].
  - by intros y [= <-].
  - intros t ->. destruct Ht as [[= ->]|]; [|done]. split; [done|]. eexists. split; [done|]. unfold MAX_PLATFORM_TIMER_DELAY_MS. lia.
  - intros t ->. destruct Ht as [[= ->]|]; [|done]. exists d. split; [done|]. intros _ y e'. rewrite Hs. intros [= <-]. rewrite He. by intros [= <-].
Qed.

(** ** The operations, run to their end *)
Lemma scheduleAt_run now d r c :
  scheduleAt now (Some d) r c = (set_timer (Some {| delay := Some (Z.min MAX_PLATFORM_TIMER_DELAY_MS (Z.max 0 (now + Z.max 0 d - now)));
    deadline := Some (now + Z.max 0 d); timer_reason := r |}) c, Ok tt).
Proof. done. Qed.

Definition activated_view now s e c : Controller :=
  set_timer (Some (timer_at now (now + Z.max 0 (e - now - REFRESH_WINDOW_MS))))
    (add_event flag_cleared (add_event (session_changed (Some s))
      (set_snapshot {| phase := phase_active; session := Some s; writesAllowed := true; refreshReason := None; errorKey := None |}
        (set_retry 0 (set_target (Some s) c))))).

Definition expired_view s c : Controller :=
  add_event (session_changed None) (set_snapshot (closed phase_expired None (Some "mobile.auth.sessionExpired"%string)) (set_target (Some s) c)).

Lemma activate_run now s c :
  activate now s c =
    (if valid_session s now then match expiry s with Some e => activated_view now s e c | None => c end else expired_view s c, Ok tt).
Proof.
  unfold activate. destruct (valid_session s now) eqn:Hv; [|done].
  destruct (valid_spec s now Hv) as (_ & e & He & _). rewrite He.
  unfold mbind, AsyncOp.op_bind, modify, publish, note, scheduleRefresh. cbn. rewrite He.
  unfold valid_session in Hv. repeat match goal with H : _ && _ = true |- _ => apply andb_prop in H as [? ?] end.
  match goal with H : truthy (default "" (expiresAt s)) = true |- _ => rewrite H end. done.
Qed.

Definition revoked_view c : Controller :=
  set_revokeInFlight (Some (next c)) (set_tasks (<[next c:=revoking (S (admissionEpoch c)) (owned c)]> (tasks c)) (set_next (S (next c))
    (add_event (native_revoke (scopeFor <$> owned c)) (add_event (session_changed None) (set_snapshot (closed phase_revoking None None)
      (set_retry 0 (set_timer None (next_epoch c)))))))).

Lemma revoke_run c :
  revoke c = match revokeInFlight c with Some p => (c, Ok p) | None => (revoked_view c, Ok (next c)) end.
Proof. unfold revoke. unfold mbind, AsyncOp.op_bind, gets. destruct (revokeInFlight c); [done|]. reflexivity. Qed.

Lemma revokeExpired_run id error c :
  revokeExpiredSession id error c =
    (let c1 := match revokeInFlight c with Some p => c | None => revoked_view c end in
     set_tasks (<[id:=expiring (default (next c) (revokeInFlight c)) (admissionEpoch c1) error]> (tasks c1)) c1, Ok tt).
Proof.
  unfold revokeExpiredSession; unfold mbind, AsyncOp.op_bind. rewrite revoke_run. by destruct (revokeInFlight c).
Qed.

Definition refreshing_view c current reason : Controller :=
  set_refreshInFlight (Some (next c)) (set_tasks (<[next c:=refreshing (S (admissionEpoch c)) current reason]> (tasks c)) (set_next (S (next c))
    (add_event (native_refresh (scopeFor current)) (add_event (session_changed (Some current))
      (set_snapshot {| phase := phase_refreshing; session := Some current; writesAllowed := false; refreshReason := Some reason; errorKey := None |}
        (set_timer None (next_epoch c))))))).

(** A refresh of an expired session, before it asks for its revocation. *)
Definition overdue_view c current reason : Controller :=
  set_tasks (<[next c:=refresh_done (Err "mobile.auth.sessionExpired"%string)]> (tasks c)) (set_next (S (next c))
    (add_event (session_changed None) (set_snapshot (closed phase_expired (Some reason) (Some "mobile.auth.sessionExpired"%string))
      (set_target (Some current) (next_epoch c))))).

Lemma refresh_run now reason c :
  refresh now reason c =
    match refreshInFlight c, owned c with
    | Some p, _ => (c, Ok p)
    | None, None =>
        (set_promises (<[next c:=refreshed (Err "mobile.auth.nativeSessionRequired"%string)]> (promises c))
          (set_tasks (delete (next c) (tasks c)) (set_next (S (next c)) c)), Ok (next c))
    | None, Some current =>
        if valid_session current now then (refreshing_view c current reason, Ok (next c))
        else (set_refreshInFlight (Some (next c)) (revokeExpiredSession (next c) "mobile.auth.sessionExpired" (overdue_view c current reason)).1, Ok (next c))
    end.
Proof.
  unfold refresh. unfold mbind, AsyncOp.op_bind, gets at 1. destruct (refreshInFlight c); [done|].
  change (gets owned c) with (c, Ok (owned c)). destruct (owned c) as [current|]; [|done].
  change (invalidateAdmission c) with (next_epoch c, Ok (S (admissionEpoch c))). cbv beta iota.
  destruct (valid_session current now); [done|].
  transitivity (match revokeExpiredSession (next c) "mobile.auth.sessionExpired" (overdue_view c current reason) with
    | (s, Ok _) => (set_refreshInFlight (Some (next c)) s, Ok (next c)) | (s, Err e) => (s, Err e) end); [reflexivity|].
  by rewrite revokeExpired_run.
Qed.

(** ** The operations keep the invariant *)
Lemma inv_quiet c : view_inv c -> books_inv c -> quiet (tasks c) (admissionEpoch c) -> inv c.
Proof. intros. constructor; [done | done |]. by apply live_quiet. Qed.

Lemma new_inv : inv new_controller.
Proof. constructor; [|constructor; by intros ? | by apply live_quiet; intros ?]. constructor; cbn; try done. split; [by intros [? ?] | by intros []]. Qed.

Lemma bump_inv c : inv c -> view_inv (next_epoch c) /\ books_inv (next_epoch c) /\ quiet (tasks c) (S (admissionEpoch c)).
Proof. intros [V B L]. split_and!; [done | by eapply books_bump | by eapply quiet_bump]. Qed.

Lemma activate_view now s c : view_inv c -> sound s -> view_inv (activate now s c).1.
Proof.
  intros V Hs. rewrite activate_run. cbn [fst]. destruct (valid_session s now) eqn:Hv.
  - destruct (valid_spec s now Hv) as (Hu & e & He & Hlt). rewrite He.
    eapply (view_open _ s now (now + Z.max 0 (e - now - REFRESH_WINDOW_MS)) _ e); try done; [unfold REFRESH_WINDOW_MS; lia | by left | by left].
  - apply (view_target (closed phase_expired None (Some "mobile.auth.sessionExpired"%string)) (revocationTarget c) (refreshTimer c) s); [|done|done].
    eapply view_closed; [exact V | done | by left].
Qed.

Lemma activate_books now s c :
  let c' := (activate now s c).1 in
  tasks c' = tasks c /\ promises c' = promises c /\ next c' = next c /\ admissionEpoch c' = admissionEpoch c
  /\ refreshInFlight c' = refreshInFlight c /\ revokeInFlight c' = revokeInFlight c.
Proof. intros c'. unfold c'. rewrite activate_run. cbn [fst]. destruct (valid_session s now); [destruct (expiry s)|]; done. Qed.

Lemma revoked_view_inv c : inv c -> inv (revoked_view c).
Proof.
  intros Hi. destruct (bump_inv c Hi) as (V & B & Q). destruct Hi as [V0 _ _]. constructor.
  - eapply view_closed; [exact V | done | by right].
  - eapply books_revoke; [|by apply has_here]. apply (books_spawn B); [done|]. intros o [= <-]. done.
  - apply live_spawn; [done|]. intros _. split_and!; [done | by rewrite owned_target | done].
Qed.

Lemma spawn_keeps c i t u : inv c -> tasks c !! i = Some t -> <[next c:=u]> (tasks c) !! i = Some t.
Proof. intros Hi Ht. rewrite lookup_insert_ne; [done|]. intros Heq. exact (fresh_task (iv_books _ Hi) i t Ht (eq_sym Heq)). Qed.

(** The promise of a revocation. *)
Lemma revoke_inv c : inv c -> exists p, (revoke c).2 = Ok p /\ inv (revoke c).1 /\ has revoke_kind (tasks (revoke c).1) p
  /\ (forall i t, tasks c !! i = Some t -> tasks (revoke c).1 !! i = Some t).
Proof.
  intros Hi. rewrite revoke_run. destruct (revokeInFlight c) as [p|] eqn:Hp.
  - exists p. split_and!; [done | done | | done]. by eapply bo_revoke; [apply Hi|].
  - exists (next c). split_and!; [done | by apply revoked_view_inv | by apply has_here |].
    intros i t Ht. by apply spawn_keeps.
Qed.

Lemma refresh_kind_refreshing o x r : refresh_kind (refreshing o x r) = true.
Proof. done. Qed.

Definition no_live_refresh c : Prop := forall i x r, tasks c !! i <> Some (refreshing (admissionEpoch c) x r).

Lemma revokeExpired_inv id error c t :
  refresh_kind t = true -> inv c -> tasks c !! id = Some t ->
  (forall i x r, tasks c !! i = Some (refreshing (admissionEpoch c) x r) -> i = id) ->
  let c' := (revokeExpiredSession id error c).1 in
  inv c' /\ has refresh_kind (tasks c') id /\ no_live_refresh c' /\ (forall i u, i <> id -> tasks c !! i = Some u -> tasks c' !! i = Some u).
Proof.
  intros Hk. assert (Hg : forall c1 p, inv c1 -> has revoke_kind (tasks c1) p -> tasks c1 !! id = Some t ->
    (forall i x r, tasks c1 !! i = Some (refreshing (admissionEpoch c1) x r) -> i = id) ->
    let c' := set_tasks (<[id:=expiring p (admissionEpoch c1) error]> (tasks c1)) c1 in
    inv c' /\ has refresh_kind (tasks c') id /\ no_live_refresh c').
  { intros c1 p [V B L] Hp Ht Hl c'. 
    split_and!; [|by apply has_here|].
    - constructor; [exact V | | apply live_insert; [exact L | done]].
      eapply (books_become B); [exact Ht | by destruct t | by destruct t | by left | | done | done].
      intros p' o m [= <- <- _]. split; [done | by left].
    - intros i x r. cbn. intros [[? [=]]|[Hne Hx]]%lookup_insert_Some. apply Hne. symmetry. by eapply Hl. }
  intros Hi Ht Hl c'. unfold c'. rewrite revokeExpired_run. cbn [fst].
  destruct (revoke_inv c Hi) as (p & Hp & Hi' & Hh & Hkeep). rewrite revoke_run in Hp, Hi', Hh, Hkeep.
  rewrite !(assoc and). split.
  { rewrite <- !(assoc and). destruct (revokeInFlight c); cbn in Hp; injection Hp as <-; apply Hg; auto.
  intros i x r. cbn. intros [[? [=]]|[_ Hx]]%lookup_insert_Some. destruct (quiet_bump (iv_books _ Hi) i _ Hx). done. }
  intros i u Hne Hu. specialize (Hkeep i u Hu). destruct (revokeInFlight c); cbn; by rewrite lookup_insert_ne.
Qed.

Lemma overdue_inv c current reason : inv c -> owned c = Some current -> inv (overdue_view c current reason).
Proof.
  intros Hi Ho. destruct (bump_inv c Hi) as (V & B & Q). apply inv_quiet.
  - eapply view_target; [|by eapply vo_target; [exact V | rewrite <- owned_target; [exact Ho | apply Hi]] | done].
    eapply view_closed; [exact V | done | by left].
  - by apply (books_spawn B).
  - by apply quiet_insert.
Qed.

Lemma refreshing_inv c current reason now :
  inv c -> owned c = Some current -> valid_session current now = true -> inv (refreshing_view c current reason).
Proof.
  intros Hi Ho Hv. destruct (bump_inv c Hi) as (V & B & Q). destruct (valid_spec current now Hv) as (Hu & e & He & Hlt).
  assert (Ht : revocationTarget c = Some current) by (rewrite <- owned_target; [done | apply Hi]).
  constructor.
  - cbn. rewrite Ht. eapply (view_open _ current now e); try done; [| by right | by right].
    by eapply vo_target; [exact V|].
  - cbn. eapply books_refresh; [|by apply has_here]. apply (books_spawn B); [done|]. intros o [= <-]. done.
  - apply live_spawn; [done|]. done.
Qed.

(** The promise of a refresh. *)
Lemma refresh_inv now reason c : inv c -> exists p, (refresh now reason c).2 = Ok p /\ inv (refresh now reason c).1
  /\ owes refresh_kind is_refreshed (tasks (refresh now reason c).1) (promises (refresh now reason c).1) p
  /\ (forall i t, tasks c !! i = Some t -> tasks (refresh now reason c).1 !! i = Some t).
Proof.
  intros Hi. rewrite refresh_run. pose proof (iv_books _ Hi) as B. pose proof (fresh_task B) as Hfresh.
  destruct (refreshInFlight c) as [p|] eqn:Hp.
  { exists p. split_and!; [done | done | | done]. left. by eapply bo_refresh. }
  destruct (owned c) as [current|] eqn:Ho; [destruct (valid_session current now) eqn:Hv|]; exists (next c).
  - split_and!; [done | by eapply refreshing_inv | left; by apply has_here |].
    intros i t Ht. by apply spawn_keeps.
  - pose proof (overdue_inv c current reason Hi Ho) as Hi1.
    destruct (revokeExpired_inv (next c) "mobile.auth.sessionExpired" (overdue_view c current reason) (refresh_done (Err "mobile.auth.sessionExpired"%string)))
      as ([V1 B1 L1] & Hh & Hn & Hkeep); [done | done | cbn; by rewrite lookup_insert_eq | |].
    { cbn. intros i x r [[? [=]]|[_ Hx]]%lookup_insert_Some. by destruct (proj2 (proj2 (bump_inv c Hi)) i _ Hx). }
    split_and!; [done | | by left |].
    + constructor; [exact V1 | by eapply books_refresh|]. destruct L1 as [_ l2 l3]. constructor; [|exact l2 | exact l3].
      intros i x r Hx. by destruct (Hn i x r).
    + intros i t Ht. apply Hkeep; [by eapply Hfresh | exact (spawn_keeps c i t _ Hi Ht)].
  - split_and!; [done | | right; eexists; split; [apply lookup_insert_eq | done] |].
    + destruct Hi as [V B' L]. constructor; [exact V | exact (books_settled B' _) | by apply live_delete].
    + intros i t Ht. cbn. rewrite lookup_delete_ne; [done|]. intros Heq. by apply (Hfresh i t).
Qed.

(** ** Tasks move on *)
Definition plain (t : Task) : Prop := refresh_kind t = false /\ revoke_kind t = false.

Lemma settle_inv id s c t :
  inv c -> tasks c !! id = Some t -> (refresh_kind t = true -> is_refreshed s = true) -> (revoke_kind t = true -> is_revoked s = true) ->
  refreshInFlight c <> Some id -> revokeInFlight c <> Some id -> inv (settle id s c).1.
Proof. intros [V B L] Ht Hr Hv H1 H2. constructor; [exact V | by eapply (books_settle B) | by apply live_delete]. Qed.

Lemma in_flight c id t : inv c -> tasks c !! id = Some t ->
  (refresh_kind t = false -> refreshInFlight c <> Some id) /\ (revoke_kind t = false -> revokeInFlight c <> Some id).
Proof.
  intros Hi Ht. pose proof (iv_books _ Hi) as B. split; intros Hk Hp.
  - destruct (bo_refresh _ _ _ _ _ _ B id Hp) as (u & Hu & ?). congruence.
  - destruct (bo_revoke _ _ _ _ _ _ B id Hp) as (u & Hu & ?). congruence.
Qed.

Lemma settle_plain id s c t : inv c -> tasks c !! id = Some t -> plain t -> inv (settle id s c).1.
Proof.
  intros Hi Ht [Hr Hv]. destruct (in_flight c id t Hi Ht). eapply settle_inv; [done | exact Ht | congruence | congruence | auto | auto].
Qed.

Lemma become_inv id t t' c :
  inv c -> tasks c !! id = Some t -> refresh_kind t = refresh_kind t' -> revoke_kind t = revoke_kind t' ->
  match t' with
  | refresh_done _ | revoke_done _ | requesting _ | retrying => True
  | recovering p _ => owes refresh_kind is_refreshed (tasks c) (promises c) p
  | _ => False
  end -> inv (become id t' c).1.
Proof.
  intros [V B L] Ht Hr Hv Hs. constructor; [exact V | | apply live_insert; [exact L | by destruct t']].
  eapply (books_become B); [exact Ht | done | done | left; by destruct t' | | |]; intros; subst; done.
Qed.

(** The last task of the epoch ends. *)
Lemma become_last id t t' c :
  view_inv c -> books_inv c -> tasks c !! id = Some t -> observed_of t = Some (admissionEpoch c) ->
  refresh_kind t = refresh_kind t' -> revoke_kind t = revoke_kind t' ->
  match t' with refresh_done _ | revoke_done _ => True | _ => False end -> inv (become id t' c).1.
Proof.
  intros V B Ht Ho Hr Hv Hs. apply inv_quiet; [exact V | |].
  - eapply (books_become B); [exact Ht | done | done | left; by destruct t' | | |]; intros; subst; done.
  - apply (quiet_done B id t t' Ht Ho). by destruct t'.
Qed.

Lemma settle_last id s c t :
  view_inv c -> books_inv c -> tasks c !! id = Some t -> observed_of t = Some (admissionEpoch c) -> plain t -> inv (settle id s c).1.
Proof.
  intros V B Ht Ho [Hr Hv]. apply inv_quiet; [exact V | |].
  - eapply (books_settle B); [exact Ht | congruence | congruence | |]; intros Hp.
    + destruct (bo_refresh _ _ _ _ _ _ B id Hp) as (u & Hu & ?). congruence.
    + destruct (bo_revoke _ _ _ _ _ _ B id Hp) as (u & Hu & ?). congruence.
  - intros j u. change (tasks (settle id s c).1) with (delete id (tasks c)). intros [Hne Hu]%lookup_delete_Some Hou. apply Hne. exact (bo_unique _ _ _ _ _ _ B id j t u _ Ht Hu Ho Hou).
Qed.

Lemma settled_inv s c : inv c -> inv (settled s c).1.
Proof. intros [V B L]. constructor; [exact V | exact (books_settled B s) | by apply live_delete]. Qed.

Lemma spawn_inv t c :
  inv c -> match t with requesting _ | retrying | purging_native => True | _ => False end -> inv (spawn t c).1.
Proof.
  intros [V B L] Ht. constructor; [exact V | | apply live_insert; [exact L | by destruct t]].
  apply (books_spawn B); [by destruct t|]. by destruct t.
Qed.

(** What the answer of a refresh leads to. *)
Lemma take_refreshed_run now o x a c :
  let m := take_refreshed now o x a c in
  (exists e, m = (c, Err e)) \/
  exists n s, a = Ok n /\ o = admissionEpoch c /\ projectNative n {| st_peer := stationPeerId x; st_url := stationUrl x |} = Ok s
    /\ actorPtid s = actorPtid x /\ m = ((activate now s c).1, Ok s).
Proof.
  unfold take_refreshed, mbind, AsyncOp.op_bind, lift, gets. cbv beta iota zeta. destruct a as [n|e]; [|by left; eexists].
  destruct (decide (o <> admissionEpoch c)) as [|Ho%dec_stable]; [by left; eexists|].
  destruct (projectNative n _) as [s|e] eqn:Hs; [|by left; eexists].
  destruct (decide (actorPtid s <> actorPtid x)) as [|Hp%dec_stable]; [by left; eexists|].
  right. exists n, s. split_and!; [done..|]. rewrite activate_run. done.
Qed.

Definition retry_view now x e c : Controller :=
  let d := now + Z.max 0 (match retryDelaysMs !! refreshRetryIndex c with Some r => Z.min r (Z.max 0 (e - now)) | None => Z.max 0 (e - now) end) in
  set_timer (Some (timer_at now d)) (add_event (session_changed (Some x))
    (set_snapshot {| phase := phase_active; session := Some x; writesAllowed := true; refreshReason := None; errorKey := Some "mobile.auth.sessionRefreshRetrying"%string |}
      (set_retry (S (refreshRetryIndex c)) c))).

Lemma retry_run now x e c : expiry x = Some e -> retry_later retryDelaysMs now x c = (retry_view now x e c, Ok tt).
Proof.
  intros He. unfold retry_later, mbind, AsyncOp.op_bind, gets, modify, publish, note. cbv beta iota. unfold retry_view. rewrite He.
  by destruct (retryDelaysMs !! refreshRetryIndex c).
Qed.

Lemma answer_refresh_inv now id o x r a c :
  inv c -> tasks c !! id = Some (refreshing o x r) -> inv (answer_refresh retryDelaysMs now id o x r a c).1.
Proof.
  intros Hi Ht. unfold answer_refresh, attempt, mbind, AsyncOp.op_bind. pose proof (take_refreshed_run now o x a c) as Hm. cbn zeta in Hm.
  destruct Hm as [[e ->]|(n & s & -> & -> & Hs & Hp & ->)].
  - unfold gets. cbv beta iota. destruct (decide (o <> admissionEpoch c)) as [|Ho%dec_stable]; [by eapply become_inv|]. subst o.
    destruct (li_refresh _ _ _ _ _ _ (iv_live _ Hi) id x r Ht) as (Hf & Hse & Hph).
    destruct (vo_owner _ _ _ (iv_view _ Hi) x Hse) as (Hta & Hu & _).
    destruct (_ || negb (valid_session x now)) eqn:Hterm.
    + unfold modify. cbv beta iota.
      eapply (revokeExpired_inv id e (set_target (Some x) c)); [by apply (refresh_kind_refreshing (admissionEpoch c) x r) | | exact Ht |].
      * destruct Hi as [V B L]. constructor; [rewrite <- Hta; exact V | exact B | rewrite <- Hta; exact L].
      * intros i y r' Hi'. exact (bo_unique _ _ _ _ _ _ (iv_books _ Hi) i id _ _ _ Hi' Ht eq_refl eq_refl).
    + apply orb_false_elim in Hterm as [_ Hv]. apply negb_false_iff in Hv. destruct (valid_spec x now Hv) as (_ & e' & He' & Hlt).
      rewrite (retry_run now x e' c He'). eapply become_last; [| apply Hi | exact Ht | done..].
      cbn. rewrite Hta. eapply view_open; [by eapply vo_target; [apply Hi|] | done | exact He' | | by left | done | done | by left].
      cbn. destruct (retryDelaysMs !! _); lia.
  - rewrite activate_run. cbn [fst].
    assert (Hb := activate_books now s c). rewrite activate_run in Hb. cbn [fst] in Hb. cbn zeta in Hb.
    destruct Hb as (B1 & B2 & B3 & B4 & B5 & B6).
    assert (V : view_inv (activate now s c).1) by (apply activate_view; [apply Hi | exact (proj1 (projected_sound _ _ _ Hs))]).
    rewrite activate_run in V. cbn [fst] in V. destruct Hi as [_ B _].
    eapply become_last; [exact V | by rewrite B1, B2, B3, B4, B5, B6 | by rewrite B1 | by rewrite B4 | done..].
Qed.

Lemma read_inv now id o st a c : inv c -> tasks c !! id = Some (reading o st) -> inv (answer_read now id o st a c).1.
Proof.
  intros Hi Ht. unfold answer_read, attempt. unfold mbind at 1. unfold AsyncOp.op_bind.
  assert (Hm : (take_read now o st a c).1 = c \/ o = admissionEpoch c /\ ((take_read now o st a c).1 = (publish inactiveSnapshot c).1
    \/ exists s, sound s /\ (take_read now o st a c).1 = (activate now s c).1)).
  { unfold take_read, mbind, AsyncOp.op_bind, lift, gets. cbv beta iota zeta. destruct a as [n|e]; [|by left].
    destruct (decide (o <> admissionEpoch c)) as [|Ho%dec_stable]; [by left|]. destruct n as [n|]; [|by right; split; [|left]].
    destruct (projectNative n st) as [s|e] eqn:Hs; [|by left]. right. split; [done|]. right. exists s.
    split; [exact (proj1 (projected_sound _ _ _ Hs))|]. by rewrite activate_run. }
  destruct (take_read now o st a c) as [c' r]. cbn [fst] in Hm. destruct Hm as [->|(-> & [->|(s & Hs & ->)])].
  - by eapply settle_plain.
  - eapply settle_last; [| apply Hi | exact Ht | done..]. eapply view_closed; [apply Hi | done | by left].
  - destruct (activate_books now s c) as (B1 & B2 & B3 & B4 & B5 & B6). pose proof (iv_books _ Hi) as B.
    eapply settle_last; [apply activate_view; [apply Hi | done] | by rewrite B1, B2, B3, B4, B5, B6 | by rewrite B1 | by rewrite B4 | done..].
Qed.

Lemma complete_inv id o purge t c :
  inv c -> tasks c !! id = Some t -> t = revoking o (revocationTarget c) \/ (exists x, t = revoking o x) \/ (exists x p, t = purging o x p) ->
  inv (revoke_complete id o purge c).1.
Proof.
  intros Hi Ht Hk. assert (Hkind : refresh_kind t = false /\ revoke_kind t = true /\ observed_of t = Some o).
  { by destruct Hk as [->|[[x ->]|(x & p & ->)]]. }
  destruct Hkind as (K1 & K2 & K3). unfold revoke_complete, mbind, AsyncOp.op_bind, gets. cbv beta iota.
  destruct (decide (o = admissionEpoch c)) as [->|]; [|by eapply become_inv].
  assert (Hp : phase (snapshot c) = phase_revoking).
  { destruct Hk as [->|[[x ->]|(x & p & ->)]]; [by eapply li_revoking; [apply Hi|] .. | by eapply li_purging; [apply Hi|]]. }
  eapply become_last; [| apply Hi | exact Ht | exact K3 | by rewrite K1 | by rewrite K2 | done].
  eapply view_forget; [|done]. eapply view_closed; [apply Hi | done | by left].
Qed.

Lemma failed_inv id o e t c :
  inv c -> tasks c !! id = Some t -> observed_of t = Some o -> revoke_kind t = true -> inv (revoke_failed id o e c).1.
Proof.
  intros Hi Ht Ho Hk. assert (Hr : refresh_kind t = false) by by destruct t. unfold revoke_failed, mbind, AsyncOp.op_bind, gets. cbv beta iota.
  destruct (decide (o = admissionEpoch c)) as [->|]; [|by eapply become_inv].
  eapply become_last; [| apply Hi | exact Ht | done..]. eapply view_closed; [apply Hi | done | by left].
Qed.

Lemma answer_revoke_inv id o x a c : inv c -> tasks c !! id = Some (revoking o x) -> inv (answer_revoke id o x a c).1.
Proof.
  intros Hi Ht. unfold answer_revoke. destruct a as [purge|e]; [|by eapply failed_inv].
  destruct (nativeStorageIsEmpty (secureStorage purge)) eqn:He; [|by eapply failed_inv]. destruct x as [t|].
  - change (inv (set_tasks (<[id:=purging o (Some t) purge]> (tasks c)) (add_event (purge_preferences (stationPeerId t) (actorPtid t)) c))).
    pose proof Hi as [V B L]. constructor; [exact V | |].
    + eapply (books_become B); [exact Ht | done | done | by right | done | done |]. by intros ? ? ? [= <- <- <-].
    + destruct L as [l1 l2 l3]. constructor; cbn.
      * intros i y r [[<- [=]]|[? Hj]]%lookup_insert_Some. by eapply l1.
      * intros i y [[<- [=]]|[? Hj]]%lookup_insert_Some. by eapply l2.
      * intros i y p [[<- [= -> <- <-]]|[? Hj]]%lookup_insert_Some; [by apply l2 | by eapply l3].
  - eapply complete_inv; [done | exact Ht | right; left; by eexists].
Qed.

Lemma fence_inv c : inv c -> inv (fenceSessionRuntimeProjection c).1.
Proof.
  intros Hi. destruct (bump_inv c Hi) as (V & B & Q). apply inv_quiet; [|exact B | exact Q].
  change (view_ok (closed phase_inactive None None) (owned c) None). rewrite owned_target by apply Hi.
  eapply view_closed; [exact V | done | by right].
Qed.

Lemma purge_inv id a c : inv c -> tasks c !! id = Some purging_native -> inv (answer_purge id a c).1.
Proof.
  intros Hi Ht. unfold answer_purge. destruct a as [r|e]; [|by eapply settle_plain].
  destruct (nativeStorageIsEmpty _); [|by eapply settle_plain]. eapply settle_plain; [by apply fence_inv | exact Ht | done].
Qed.

Lemma request_inv now id adm a b c :
  inv c -> tasks c !! id = Some (requesting adm) -> inv (answer_request now id adm a b c).1.
Proof.
  intros Hi Ht. unfold answer_request. destruct a as [v|e]; [by eapply settle_plain|]. destruct b; [|by eapply settle_plain]. cbn [negb].
  destruct (refresh_inv now authenticated_401 c Hi) as (p & Hp & Hi' & Ho & Hk). unfold mbind, AsyncOp.op_bind.
  destruct (refresh now authenticated_401 c) as [c' r]. cbn [fst snd] in *. rewrite Hp. by eapply become_inv; [| by apply Hk | ..].
Qed.

Lemma view_rearm s target t now :
  view_ok s target (Some t) -> (forall d, deadline t = Some d -> view_ok s target (Some
    {| delay := Some (Z.min MAX_PLATFORM_TIMER_DELAY_MS (Z.max 0 (d - now))); deadline := Some d; timer_reason := timer_reason t |})).
Proof.
  intros [v1 v2 v3 v4 v5 v6] d Hd. destruct (v6 t eq_refl) as (d' & Hd' & Hb). destruct (v5 t eq_refl) as [Hr _].
  constructor; try done; intros x [= <-]; cbn.
  - split; [done|]. eexists. split; [done|]. unfold MAX_PLATFORM_TIMER_DELAY_MS. lia.
  - exists d. split; [done|]. by assert (d' = d) as <- by congruence.
Qed.

Lemma timer_inv now c : inv c -> inv (fire_timer now c).1.
Proof.
  intros Hi. unfold fire_timer, mbind, AsyncOp.op_bind, gets. cbv beta iota. destruct (refreshTimer c) as [t|] eqn:Ht; [|done].
  assert (Hn : inv (set_timer None c)). { destruct Hi as [V B L]. constructor; [by eapply view_no_timer | exact B | exact L]. }
  destruct (match deadline t with Some d => now <? d | None => false end) eqn:Hd.
  - destruct (deadline t) as [d|] eqn:Hdl; [|done]. destruct Hi as [V B L]. constructor; [| exact B | exact L].
    cbn. rewrite Ht in V. by eapply view_rearm.
  - destruct (refresh_inv now (timer_reason t) (set_timer None c) Hn) as (p & Hp & Hi' & _).
    change (clearRefreshTimer c) with (set_timer None c, @Ok unit tt). cbv beta iota.
    destruct (refresh now (timer_reason t) (set_timer None c)) as [c' r]. cbn [fst snd] in *. by rewrite Hp.
Qed.

Lemma resume_inv now id c : inv c -> inv (resume now id c).1.
Proof.
  intros Hi. unfold resume, mbind, AsyncOp.op_bind, gets. cbv beta iota. destruct (tasks c !! id) as [t|] eqn:Ht; [|done].
  destruct t as [ | | | |p o e| | | |p adm| | ]; try done.
  - destruct (promises c !! p) as [[ | |[r|e']| | ]|]; try done.
    + destruct (decide _); [|by eapply become_inv]. eapply (become_inv id _ _ (add_event flag_reported c)); [|exact Ht | done..].
      destruct Hi as [V B L]. by constructor.
    + by eapply become_inv.
  - destruct (promises c !! p) as [[ |[r|e']| | | ]|]; try done.
    + destruct (assertSessionAdmission _ _ _); [|by eapply settle_plain].
      eapply (become_inv id _ _ (add_event request_sent c)); [|exact Ht | done..]. destruct Hi as [V B L]. by constructor.
    + by eapply settle_plain.
Qed.

Lemma finishes_inv id c : inv c -> inv (finish id c).1.
Proof.
  intros Hi. unfold finish, mbind, AsyncOp.op_bind, gets. cbv beta iota. destruct (tasks c !! id) as [t|] eqn:Ht; [|done].
  destruct (in_flight c id t Hi Ht) as [F1 F2]. pose proof Hi as [V B L]. destruct t as [ | | | | |r|r| | | | ]; try done.
  - destruct (decide (refreshInFlight c = Some id)) as [He|Hne]; [|eapply settle_inv; [exact Hi | exact Ht | done..| by apply F2]].
    unfold modify. cbv beta iota. eapply (settle_inv id _ (set_refreshInFlight None c)); [| exact Ht | done | done | done | by apply F2].
    constructor; [exact V | by eapply books_no_refresh|]. destruct L as [l1 l2 l3]. constructor; [|exact l2 | exact l3].
    intros i x r'. cbn. intros Hx. destruct (l1 i x r' Hx) as [Hq _]. congruence.
  - destruct (decide (revokeInFlight c = Some id)) as [He|Hne]; [|eapply settle_inv; [exact Hi | exact Ht | done | done | by apply F1 | done]].
    unfold modify. cbv beta iota. eapply (settle_inv id _ (set_revokeInFlight None c)); [| exact Ht | done | done | by apply F1 | done].
    constructor; [exact V | by eapply books_no_revoke|]. destruct L as [l1 l2 l3]. constructor; [exact l1 | |].
    + cbn. intros i x Hx. destruct (l2 i x Hx) as [Hq _]. congruence.
    + cbn. intros i x p Hx. destruct (l3 i x p Hx) as [Hq _]. congruence.
Qed.

Lemma restore_inv st d c : inv c -> inv (restore st d c).1.
Proof.
  intros Hi. destruct (bump_inv c Hi) as (V & B & Q). unfold restore.
  assert (Hc : inv (publish inactiveSnapshot (set_timer None (next_epoch c))).1).
  { apply inv_quiet; [|exact B | exact Q]. eapply view_closed; [exact V | done | by right]. }
  destruct st as [st|]; [destruct (isAccessGranted d)|]; try exact (settled_inv (restored (Ok None)) _ Hc).
  constructor; [by eapply view_no_timer | | by apply live_spawn].
  apply (books_spawn B); [done|]. intros o [= <-]. done.
Qed.

Lemma observe_inv now p st d c : inv c -> inv (observeOAuthProjection now p st d c).1.
Proof.
  intros Hi. destruct (bump_inv c Hi) as (V & B & Q). unfold observeOAuthProjection. unfold mbind at 1, AsyncOp.op_bind at 1.
  change (invalidateAdmission c) with (next_epoch c, Ok (S (admissionEpoch c))). cbv beta iota.
  assert (Hn : inv (next_epoch c)) by by apply inv_quiet.
  assert (Hc : inv (publish inactiveSnapshot (next_epoch c)).1).
  { apply inv_quiet; [|exact B | exact Q]. eapply view_closed; [exact V | done | by left]. }
  destruct st as [st|]; [destruct (isAccessGranted d)|]; try done.
  destruct (oauth_active p); [|done]. destruct (oauth_session p) as [n|]; [|done].
  unfold mbind, AsyncOp.op_bind, lift. destruct (projectNative (oauth_native p n) st) as [s|e] eqn:Hs; [|done].
  destruct (activate_books now s (next_epoch c)) as (B1 & B2 & B3 & B4 & B5 & B6).
  apply inv_quiet; [apply activate_view; [exact V | exact (proj1 (projected_sound _ _ _ Hs))] | by rewrite B1, B2, B3, B4, B5, B6 | by rewrite B1, B4].
Qed.

Lemma with_promise {A} (m : Op Controller A) c : (exists p, (m c).2 = Ok p) -> (void m c).1 = (m c).1.
Proof. intros [p Hp]. unfold void, mbind, AsyncOp.op_bind. destruct (m c) as [c' r]. cbn in Hp. by rewrite Hp. Qed.

Lemma perform_inv now i c : inv c -> inv (perform retryDelaysMs now i c).1.
Proof.
  intros Hi. destruct i as [st d|p st d|r| | | |e|a|st| |id a|id a|id a|id a|id a b|id|id]; cbn [perform].
  - rewrite with_promise; [by apply restore_inv|]. unfold restore. destruct st as [st|]; [destruct (isAccessGranted d)|]; by eexists.
  - by apply observe_inv.
  - destruct (refresh_inv now r c Hi) as (p & Hp & Hi' & _). rewrite with_promise; [done | by exists p].
  - destruct (revoke_inv c Hi) as (p & Hp & Hi' & _). rewrite with_promise; [done | by exists p].
  - by apply fence_inv.
  - destruct (bump_inv c Hi) as (V & B & Q). apply inv_quiet; [by eapply view_no_timer | exact B | exact Q].
  - destruct (bump_inv c Hi) as (V & B & Q). apply inv_quiet; [|exact B | exact Q].
    change (view_ok (closed phase_failed None (Some (sessionErrorKey e))) (owned c) None). rewrite owned_target by apply Hi.
    eapply view_closed; [exact V | done | by right].
  - unfold void, runAfterAuthenticated401, mbind, AsyncOp.op_bind, gets. cbv beta iota.
    destruct (assertSessionAdmission (snapshot c) a now).
    + apply (spawn_inv (requesting a) (add_event request_sent c)); [|done]. destruct Hi as [V B L]. by constructor.
    + by apply (settled_inv (responded (Err message))).
  - apply (spawn_inv purging_native (add_event (native_revoke (scope_of <$> st)) c)); [|done]. destruct Hi as [V B L]. by constructor.
  - by apply timer_inv.
  - unfold deliver, mbind, AsyncOp.op_bind, gets. cbv beta iota. destruct (tasks c !! id) as [[]|] eqn:Ht; try done. by eapply read_inv.
  - unfold deliver, mbind, AsyncOp.op_bind, gets. cbv beta iota. destruct (tasks c !! id) as [[]|] eqn:Ht; try done. by eapply answer_refresh_inv.
  - unfold deliver, mbind, AsyncOp.op_bind, gets. cbv beta iota. destruct (tasks c !! id) as [[]|] eqn:Ht; try done;
      [by eapply answer_revoke_inv | by eapply purge_inv].
  - unfold deliver, mbind, AsyncOp.op_bind, gets. cbv beta iota. destruct (tasks c !! id) as [[]|] eqn:Ht; try done.
    destruct a; [eapply complete_inv; [done | exact Ht | right; right; eauto] | by eapply failed_inv].
  - unfold deliver, mbind, AsyncOp.op_bind, gets. cbv beta iota. destruct (tasks c !! id) as [[]|] eqn:Ht; try done;
      [by eapply request_inv | by eapply settle_plain].
  - by apply resume_inv.
  - by apply finishes_inv.
Qed.

Lemma run_inv l c : inv c -> inv (run retryDelaysMs c l).
Proof. unfold run. revert c. induction l as [|i l IH]; intros c Hi; [done|]. by apply IH, perform_inv. Qed.

Lemma reachable_inv l : inv (run retryDelaysMs new_controller l).
Proof. apply run_inv, new_inv. Qed.
End facts.
