(* ===== verification/SessionSafety.v ===== *)
(** * The session runtime: properties

    The properties of [SessionRuntime] proved on the invariant of [SessionFacts], and the
    runs in which the controller does what it should not. *)
From Stdlib Require Import Ascii Lia ZArith.
From stdpp Require Import base numbers relations strings list gmap sets.
From S2P Require Import Prelude JsString AsyncOp KeyedSort EventIngress MutationAdmission SessionRuntime SessionFacts.

Open Scope Z_scope.

Section safety.
Context `{Locale} (retryDelaysMs : list Z).
Implicit Types (c : Controller) (now : Z).

Abbreviation reached l := (run retryDelaysMs new_controller l).

(** ** Late answers *)

(** What arrives without a new call: answers, resumptions and timers. *)
Definition late_input (i : Input) : Prop :=
  match i with
  | read_answered _ _ | refresh_answered _ _ | revoke_answered _ _ | preferences_purged _ _ | request_answered _ _ _
  | resumes _ | finishes _ | timer_fires => True
  | _ => False
  end.

(** The 401 that the station answers to a request still under way, while an owner is
    remembered: the one late input that starts a refresh. *)
Definition late_401 c (i : Input) : Prop :=
  exists id e adm x, i = request_answered id (Err e) true /\ tasks c !! id = Some (requesting adm) /\ owned c = Some x.

(** The late inputs but for a 401. *)
Definition only_answers (i : Input) : Prop :=
  match i with
  | read_answered _ _ | refresh_answered _ _ | revoke_answered _ _ | preferences_purged _ _ | resumes _ | finishes _ | timer_fires => True
  | request_answered _ _ is401 => is401 = false
  | _ => False
  end.

(** What may still be noted: nothing is asked of the native side, no session appears. *)
Definition harmless (e : Event) : Prop :=
  match e with session_changed None | projection_hidden | purge_preferences _ _ | request_sent => True | _ => False end.

(** The epoch a task compares with. *)
Definition epoch_of (t : Task) : option nat := match t with expiring _ o _ => Some o | _ => observed_of t end.

(** No task can act on the snapshot [s] any more. *)
Record settled_down (s : SessionRuntimeSnapshot) (target : option MobileSessionProjection) (l0 : list Event) c : Prop := {
  sd_snapshot : snapshot c = s \/ snapshot c = inactiveSnapshot;
  sd_owner : owned c = target;
  sd_timer : refreshTimer c = None;
  sd_tasks : forall i t o, tasks c !! i = Some t -> epoch_of t = Some o -> (o < admissionEpoch c)%nat;
  sd_log : exists l, log c = l0 ++ l /\ Forall harmless l
}.

Section late.
Context (s : SessionRuntimeSnapshot) (target : option MobileSessionProjection) (l0 : list Event).
Abbreviation down := (settled_down s target l0).

Lemma down_tasks c ts ps : down c -> (forall i t o, ts !! i = Some t -> epoch_of t = Some o -> (o < admissionEpoch c)%nat) ->
  down (set_promises ps (set_tasks ts c)).
Proof. intros [d1 d2 d3 d4 d5] Ht. by constructor. Qed.

Lemma down_become id t c : down c -> (forall o, epoch_of t = Some o -> (o < admissionEpoch c)%nat) -> down (become id t c).1.
Proof.
  intros D Ht. change (down (set_promises (promises c) (set_tasks (<[id:=t]> (tasks c)) c))).
  apply down_tasks; [done|]. intros i u o [[<- <-]|[_ Hu]]%lookup_insert_Some Ho; [by apply Ht | by eapply (sd_tasks _ _ _ _ D)].
Qed.

Lemma down_settle id x c : down c -> down (settle id x c).1.
Proof.
  intros D. change (down (set_promises (<[id:=x]> (promises c)) (set_tasks (delete id (tasks c)) c))).
  apply down_tasks; [done|]. intros i u o [_ Hu]%lookup_delete_Some Ho. by eapply (sd_tasks _ _ _ _ D).
Qed.

Lemma down_note e c : harmless e -> down c -> down (add_event e c).
Proof.
  intros He [d1 d2 d3 d4 (l & Hl & Hh)]. constructor; try done. exists (l ++ [e]). split; [cbn; by rewrite Hl, (assoc_L (++))|].
  apply Forall_app. split; [done | by constructor].
Qed.

Lemma down_fence c : inv c -> down c -> down (fenceSessionRuntimeProjection c).1.
Proof.
  intros Hi D. pose proof D as [d1 d2 d3 d4 d5]. apply down_note; [done|]. constructor; cbn; try done.
  - by right.
  - intros i t o Ht Ho. specialize (d4 i t o Ht Ho). lia.
  - destruct d5 as (l & Hl & Hh). exists (l ++ [session_changed None]). split; [by rewrite Hl, (assoc_L (++))|].
    apply Forall_app. split; [done | by constructor].
Qed.

Lemma down_step c i : inv c -> down c -> only_answers i.2 -> down (step retryDelaysMs c i).
Proof.
  intros Hi D Ho. unfold step. destruct i as [now i]. cbn [fst snd] in *.
  assert (Hd : forall id k, (forall t, tasks c !! id = Some t -> down (k t c).1) -> down (deliver id k c).1).
  { intros id k Hk. unfold deliver, mbind, AsyncOp.op_bind, gets. cbv beta iota. destruct (tasks c !! id) as [t|] eqn:Ht; [by apply Hk | done]. }
  assert (Hlate : forall id t o, tasks c !! id = Some t -> epoch_of t = Some o -> o <> admissionEpoch c).
  { intros id t o Ht He. pose proof (sd_tasks _ _ _ _ D id t o Ht He). lia. }
  destruct i as [ | | | | | | | | | |id a|id a|id a|id a|id a b|id|id]; try done; cbn [perform].
  - unfold fire_timer, mbind, AsyncOp.op_bind, gets. cbv beta iota. by rewrite (sd_timer _ _ _ _ D).
  - apply Hd. intros [o st| | | | | | | | | | ] Ht; try done. specialize (Hlate id _ o Ht eq_refl).
    unfold answer_read, attempt, take_read, mbind, AsyncOp.op_bind, lift, gets. cbv beta iota.
    destruct a; [rewrite decide_True by done|]; by apply down_settle.
  - apply Hd. intros [ |o x r| | | | | | | | | ] Ht; try done. specialize (Hlate id _ o Ht eq_refl).
    unfold answer_refresh, attempt, take_refreshed, mbind, AsyncOp.op_bind, lift, gets. cbv beta iota.
    destruct a; [rewrite decide_True by done; unfold throw, lift; cbv beta iota|]; rewrite decide_True by done; by apply down_become.
  - apply Hd. intros [ | |o x| | | | | | | | ] Ht; try done.
    + specialize (Hlate id _ o Ht eq_refl). pose proof (sd_tasks _ _ _ _ D id _ o Ht eq_refl) as Hlt.
      assert (Hf : forall e, down (revoke_failed id o e c).1).
      { intros e. unfold revoke_failed, mbind, AsyncOp.op_bind, gets. cbv beta iota. rewrite decide_False by done. by apply down_become. }
      unfold answer_revoke. destruct a as [p|]; [|apply Hf]. destruct (negb _); [apply Hf|]. destruct x as [t|].
      * apply (down_become id _ (add_event (purge_preferences (stationPeerId t) (actorPtid t)) c)); [by apply down_note|]. by intros ? [= <-].
      * unfold revoke_complete, mbind, AsyncOp.op_bind, gets. cbv beta iota. rewrite decide_False by done. by apply down_become.
    + unfold answer_purge. destruct a as [p|]; [|by apply down_settle]. destruct (negb _); [by apply down_settle|].
      apply (down_settle id _ (fenceSessionRuntimeProjection c).1). by apply down_fence.
  - apply Hd. intros [ | | |o x p| | | | | | | ] Ht; try done. specialize (Hlate id _ o Ht eq_refl).
    destruct a; [unfold revoke_complete | unfold revoke_failed]; unfold mbind, AsyncOp.op_bind, gets; cbv beta iota;
      rewrite decide_False by done; by apply down_become.
  - cbn in Ho. subst b. apply Hd. intros [ | | | | | | |adm| | | ] Ht; try done; [|by apply down_settle].
    destruct a; by apply down_settle.
  - unfold resume, mbind, AsyncOp.op_bind, gets. cbv beta iota. destruct (tasks c !! id) as [t|] eqn:Ht; [|done].
    destruct t as [ | | | |p o e| | | |p adm| | ]; try done.
    + specialize (Hlate id _ o Ht eq_refl). destruct (promises c !! p) as [[ | |[r|e']| | ]|]; try done; [rewrite decide_False by done|]; by apply down_become.
    + destruct (promises c !! p) as [[ |[r|e']| | | ]|]; try done; [|by apply down_settle].
      destruct (assertSessionAdmission _ _ _); [|by apply down_settle].
      apply (down_become id _ (add_event request_sent c)); [by apply down_note | done].
  - unfold finish, mbind, AsyncOp.op_bind, gets. cbv beta iota. destruct (tasks c !! id) as [t|] eqn:Ht; [|done].
    assert (H1 : down (set_refreshInFlight None c)) by (destruct D; by constructor).
    assert (H2 : down (set_revokeInFlight None c)) by (destruct D; by constructor).
    destruct t as [ | | | | |r|r| | | | ]; try done; destruct (decide _); by apply down_settle.
Qed.

Lemma down_run l c : inv c -> down c -> Forall (fun i => only_answers i.2) l -> inv (run retryDelaysMs c l) /\ down (run retryDelaysMs c l).
Proof.
  unfold run. revert c. induction l as [|i l IH]; intros c Hi D Hl; [done|]. apply Forall_cons in Hl as [H1 Hl].
  apply IH; [by apply perform_inv | by apply down_step | done].
Qed.

(** Late inputs leave an ended runtime alone up to the first 401 of an earlier request. *)
Lemma down_late c i : inv c -> down c -> late_input i.2 -> down (step retryDelaysMs c i) \/ late_401 c i.2.
Proof.
  intros Hi D Hl. destruct i as [now i]. cbn [snd] in *.
  destruct i as [ | | | | | | | | | | | | | |id a [|]| | ]; try (left; by apply down_step).
  unfold step, late_401. cbn [fst snd perform]. unfold deliver, mbind, AsyncOp.op_bind, gets. cbv beta iota.
  destruct (tasks c !! id) as [[ | | | | | | |adm| | | ]|] eqn:Ht; try (left; done); [|left; by apply down_settle].
  destruct a as [v|e]; [left; by apply down_settle|].
  destruct (owned c) as [x|] eqn:Ho; [right; by exists id, e, adm, x|left].
  unfold answer_request, refresh, settled, settle, modify, mbind, AsyncOp.op_bind, gets. cbv beta iota. cbn [negb].
  destruct (refreshInFlight c) as [p|]; [by apply down_become|]. rewrite Ho.
  apply down_become; [|done]. apply (down_tasks (set_next (S (next c)) c)).
  - by destruct D.
  - intros j t o [_ Hj]%lookup_delete_Some Hto. by apply (sd_tasks _ _ _ _ D j t o).
Qed.

Lemma down_late_run l c : inv c -> down c -> Forall (fun i => late_input i.2) l ->
  down (run retryDelaysMs c l)
  \/ exists before i after, l = before ++ i :: after /\ down (run retryDelaysMs c before) /\ late_401 (run retryDelaysMs c before) i.2.
Proof.
  unfold run. revert c. induction l as [|i l IH]; intros c Hi D Hl; [by left|]. apply Forall_cons in Hl as [H1 Hl].
  destruct (down_late c i Hi D H1) as [D'|Hx]; [|right; by exists [], i, l].
  destruct (IH _ ltac:(by apply perform_inv) D' Hl) as [?|(before & j & after & -> & Hb & Hj)]; [by left|].
  right. by exists (i :: before), j, after.
Qed.
End late.

(** The calls that end a session without the native side. *)
Definition ends_now (i : Input) : Prop := match i with do_fence | do_suspend | do_fail _ => True | _ => False end.

Lemma ends_down c i : inv c -> ends_now i.2 ->
  let c' := step retryDelaysMs c i in settled_down (snapshot c') (owned c) (log c') c' /\ inv c'.
Proof.
  intros Hi He c'. assert (Hi' : inv c') by by apply perform_inv. split; [|done]. destruct i as [now i].
  assert (Ho : owned c' = owned c).
  { rewrite (owned_target c') by apply Hi'. unfold c', step. pose proof (owned_target c (iv_view _ Hi)).
    destruct i; try done. }
  constructor; [by left | done | by destruct i | | exists []; by rewrite app_nil_r].
  intros j t o Ht Hq. assert (Hts : tasks c' = tasks c /\ admissionEpoch c' = S (admissionEpoch c)) by by destruct i.
  destruct Hts as [Hts ->]. rewrite Hts in Ht. destruct Hi as [_ B _].
  destruct t; try done; cbn in Hq; simplify_eq.
  1-4: (pose proof (bo_observed _ _ _ _ _ _ B j _ o Ht eq_refl); lia).
  destruct (bo_expiring _ _ _ _ _ _ B j _ _ _ Ht). lia.
Qed.

(** ** Whose session it is *)
Definition same_owner (x y : MobileSessionProjection) : Prop :=
  stationPeerId y = stationPeerId x /\ actorPtid y = actorPtid x /\ stationUrl y = stationUrl x.

(** The owner stays, goes, or has its session replaced. *)
Definition owner_step (t t' : option MobileSessionProjection) : Prop :=
  t' = None \/ t' = t \/ exists x y, t = Some x /\ t' = Some y /\ same_owner x y.

Definition reads (i : Input) : Prop := match i with do_restore _ _ | do_observe _ _ _ | read_answered _ _ => True | _ => False end.

Lemma revokeExpired_target id e c : revocationTarget (revokeExpiredSession id e c).1 = revocationTarget c.
Proof. rewrite revokeExpired_run. cbn [fst]. by destruct (revokeInFlight c). Qed.

Lemma refresh_target now r c : inv c -> revocationTarget (refresh now r c).1 = revocationTarget c.
Proof.
  intros Hi. rewrite refresh_run. destruct (refreshInFlight c); [done|]. pose proof (owned_target c (iv_view _ Hi)) as Ho.
  destruct (owned c) as [x|]; [|done]. destruct (valid_session x now); [done|].
  change (revocationTarget (revokeExpiredSession (next c) "mobile.auth.sessionExpired" (overdue_view c x r)).1 = revocationTarget c).
  rewrite revokeExpired_target. by rewrite <- Ho.
Qed.

Lemma activate_target now s c : revocationTarget (activate now s c).1 = Some s.
Proof.
  rewrite activate_run. cbn [fst]. destruct (valid_session s now) eqn:Hv; [|done].
  destruct (valid_spec s now Hv) as (_ & e & -> & _). done.
Qed.

Lemma answer_refresh_target now id o x r a c :
  inv c -> tasks c !! id = Some (refreshing o x r) ->
  owner_step (revocationTarget c) (revocationTarget (answer_refresh retryDelaysMs now id o x r a c).1).
Proof.
  intros Hi Ht. unfold answer_refresh, attempt, mbind, AsyncOp.op_bind. pose proof (take_refreshed_run now o x a c) as Hm. cbn zeta in Hm.
  assert (Hx : o = admissionEpoch c -> revocationTarget c = Some x).
  { intros ->. destruct (li_refresh _ _ _ _ _ _ (iv_live _ Hi) id x r Ht) as (_ & Hse & _). by destruct (vo_owner _ _ _ (iv_view _ Hi) x Hse). }
  destruct Hm as [[e ->]|(n & s & -> & Ho & Hs & Hp & ->)].
  - unfold gets. cbv beta iota. destruct (decide (o <> admissionEpoch c)) as [|Ho%dec_stable]; [by right; left|].
    right. left. destruct (_ || negb (valid_session x now)) eqn:Hterm.
    + unfold modify. cbv beta iota. rewrite revokeExpired_target. by rewrite Hx.
    + apply orb_false_elim in Hterm as [_ Hv]. apply negb_false_iff in Hv. destruct (valid_spec x now Hv) as (_ & e' & He' & _).
      by rewrite (retry_run retryDelaysMs now x e' c He').
  - right. right. exists x, s. split_and!; [by apply Hx | exact (activate_target now s c) |].
    destruct (projected_sound _ _ _ Hs) as (_ & H1 & H2). split_and!; [done | done |]. rewrite H2. cbn.
    eapply so_url, vo_target; [apply (iv_view _ Hi) | by apply Hx].
Qed.

Lemma target_step c i : inv c -> ~ reads i.2 -> owner_step (revocationTarget c) (revocationTarget (step retryDelaysMs c i)).
Proof.
  intros Hi Hr. destruct i as [now i]. unfold step. cbn [fst snd] in *. pose proof (owned_target c (iv_view _ Hi)) as Ho.
  assert (Hd : forall id k, (forall t, tasks c !! id = Some t -> owner_step (revocationTarget c) (revocationTarget (k t c).1)) ->
    owner_step (revocationTarget c) (revocationTarget (deliver id k c).1)).
  { intros id k Hk. unfold deliver, mbind, AsyncOp.op_bind, gets. cbv beta iota. destruct (tasks c !! id) as [t|] eqn:Ht; [by apply Hk | by right; left]. }
  assert (Hc : forall id o p, owner_step (revocationTarget c) (revocationTarget (revoke_complete id o p c).1)).
  { intros id o p. unfold revoke_complete, mbind, AsyncOp.op_bind, gets. cbv beta iota. destruct (decide _); [by left | by right; left]. }
  assert (Hf : forall id o e, owner_step (revocationTarget c) (revocationTarget (revoke_failed id o e c).1)).
  { intros id o e. unfold revoke_failed, mbind, AsyncOp.op_bind, gets. cbv beta iota. destruct (decide _); by right; left. }
  destruct i as [ | |r| | | |e|a|st| | |id a|id a|id a|id a b|id|id]; try (by destruct Hr); cbn [perform].
  - destruct (refresh_inv now r c Hi) as (p & Hp & _). rewrite with_promise by eauto. right. left. by apply refresh_target.
  - destruct (revoke_inv c Hi) as (p & Hp & _). rewrite with_promise by eauto. right. left. rewrite revoke_run. by destruct (revokeInFlight c).
  - right. left. exact Ho.
  - by right; left.
  - right. left. exact Ho.
  - right. left. unfold void, runAfterAuthenticated401, mbind, AsyncOp.op_bind, gets. cbv beta iota. by destruct (assertSessionAdmission _ _ _).
  - by right; left.
  - right. left. unfold fire_timer, mbind, AsyncOp.op_bind, gets. cbv beta iota. destruct (refreshTimer c) as [t|] eqn:Ht; [|done].
    destruct (match deadline t with Some d => now <? d | None => false end); [done|].
    assert (Hn : inv (set_timer None c)). { destruct Hi as [V B L]. constructor; [by eapply view_no_timer | exact B | exact L]. }
    change (clearRefreshTimer c) with (set_timer None c, @Ok unit tt). cbv beta iota.
    destruct (refresh_inv now (timer_reason t) _ Hn) as (p & Hp & _). pose proof (refresh_target now (timer_reason t) _ Hn) as Hq.
    destruct (refresh now (timer_reason t) (set_timer None c)) as [c' r]. cbn [fst snd] in *. rewrite Hp. done.
  - apply Hd. intros [] Ht; try (by right; left). by eapply answer_refresh_target.
  - apply Hd. intros [] Ht; try (by right; left).
    + unfold answer_revoke. destruct a as [p|]; [|apply Hf]. destruct (negb _); [apply Hf|]. destruct target; [by right; left | apply Hc].
    + unfold answer_purge. destruct a as [p|]; [|by right; left]. destruct (negb _); [by right; left|]. right. left. exact Ho.
  - apply Hd. intros [] Ht; try (by right; left). destruct a; [apply Hc | apply Hf].
  - apply Hd. intros [] Ht; try (by right; left). unfold answer_request. destruct a; [by right; left|]. destruct (negb b); [by right; left|].
    right. left. unfold mbind, AsyncOp.op_bind. destruct (refresh_inv now authenticated_401 c Hi) as (p & Hp & _).
    pose proof (refresh_target now authenticated_401 c Hi) as Hq.
    destruct (refresh now authenticated_401 c) as [c' r]. cbn [fst snd] in *. by rewrite Hp.
  - right. left. unfold resume, mbind, AsyncOp.op_bind, gets. cbv beta iota. destruct (tasks c !! id) as [[]|]; try done.
    + destruct (promises c !! pending) as [[ | |[]| | ]|]; try done. by destruct (decide _).
    + destruct (promises c !! pending) as [[ |[]| | | ]|]; try done. by destruct (assertSessionAdmission _ _ _).
  - right. left. unfold finish, mbind, AsyncOp.op_bind, gets. cbv beta iota. destruct (tasks c !! id) as [[]|]; try done; by destruct (decide _).
Qed.

(** ** Operations come to an end *)

(** How many answers and resumptions a task may still take, with those of the operations it
    may start. *)
Definition weight (t : Task) : nat :=
  match t with
  | requesting _ => 9 | refreshing _ _ _ => 6 | revoking _ _ => 3 | purging _ _ _ | expiring _ _ _ | recovering _ _ => 2 | _ => 1
  end%nat.

Definition rank (ts : gmap nat Task) : nat := map_fold (fun _ t n => weight t + n)%nat 0%nat ts.

Lemma rank_insert ts i t : ts !! i = None -> rank (<[i:=t]> ts) = (weight t + rank ts)%nat.
Proof. intros Hi. unfold rank. rewrite map_fold_insert_L; [done | | done]. intros. lia. Qed.

Lemma rank_lookup ts i t : ts !! i = Some t -> rank ts = (weight t + rank (delete i ts))%nat.
Proof. intros Hi. rewrite <- (insert_delete_id ts i t Hi) at 1. apply rank_insert, lookup_delete_eq. Qed.

Lemma rank_become ts i t t' : ts !! i = Some t -> (rank (<[i:=t']> ts) + weight t = rank ts + weight t')%nat.
Proof.
  intros Hi. rewrite (rank_lookup (<[i:=t']> ts) i t') by apply lookup_insert_eq. rewrite delete_insert_eq, (rank_lookup ts i t Hi). lia.
Qed.

Lemma fresh_none c : inv c -> tasks c !! next c = None.
Proof. intros Hi. destruct (tasks c !! next c) as [t|] eqn:Ht; [|done]. by destruct (fresh_task (iv_books _ Hi) _ t Ht). Qed.

Lemma rank_revokeExpired id e c t :
  inv c -> tasks c !! id = Some t -> (rank (tasks (revokeExpiredSession id e c).1) + weight t <= rank (tasks c) + 5)%nat.
Proof.
  intros Hi Ht. rewrite revokeExpired_run. cbn [fst]. destruct (revokeInFlight c) as [p|]; cbn.
  - pose proof (rank_become (tasks c) id t (expiring p (admissionEpoch c) e) Ht) as Hr. cbn [weight] in Hr. lia.
  - pose proof (spawn_keeps c id t (revoking (S (admissionEpoch c)) (owned c)) Hi Ht) as Ht'.
    pose proof (rank_become _ id t (expiring (next c) (S (admissionEpoch c)) e) Ht') as Hr.
    rewrite (rank_insert (tasks c)) in Hr by by apply fresh_none. cbn [weight] in Hr. lia.
Qed.

Lemma rank_refresh now r c : inv c -> (rank (tasks (refresh now r c).1) <= rank (tasks c) + 6)%nat.
Proof.
  intros Hi. rewrite refresh_run. pose proof (fresh_none c Hi) as Hn. destruct (refreshInFlight c); [cbn; lia|].
  destruct (owned c) as [x|] eqn:Ho; [|cbn; rewrite delete_id by done; lia]. destruct (valid_session x now).
  - cbn. rewrite rank_insert by done. cbn. lia.
  - cbn [fst]. pose proof (rank_revokeExpired (next c) "mobile.auth.sessionExpired" (overdue_view c x r)
      (refresh_done (Err "mobile.auth.sessionExpired"%string)) (overdue_inv c x r Hi Ho) (lookup_insert_eq _ _ _)) as Hr.
    pose proof (rank_insert (tasks c) (next c) (refresh_done (Err "mobile.auth.sessionExpired"%string)) Hn) as Hw.
    change (<[next c:=refresh_done (Err "mobile.auth.sessionExpired"%string)]> (tasks c)) with (tasks (overdue_view c x r)) in Hw.
    cbn [weight] in Hr, Hw. change (tasks (set_refreshInFlight ?p ?x)) with (tasks x). lia.
Qed.

(** The input is one that some task waits for. *)
Definition advances c (i : Input) : Prop :=
  match i with
  | read_answered id _ => exists o st, tasks c !! id = Some (reading o st)
  | refresh_answered id _ => exists o x r, tasks c !! id = Some (refreshing o x r)
  | revoke_answered id _ => (exists o x, tasks c !! id = Some (revoking o x)) \/ tasks c !! id = Some purging_native
  | preferences_purged id _ => exists o x p, tasks c !! id = Some (purging o x p)
  | request_answered id _ _ => (exists a, tasks c !! id = Some (requesting a)) \/ tasks c !! id = Some retrying
  | resumes id => exists p, is_Some (promises c !! p) /\ ((exists o e, tasks c !! id = Some (expiring p o e)) \/ exists a, tasks c !! id = Some (recovering p a))
  | finishes id => (exists r, tasks c !! id = Some (refresh_done r)) \/ exists r, tasks c !! id = Some (revoke_done r)
  | _ => False
  end.

Fixpoint advancing c (l : list (Z * Input)) : Prop :=
  match l with [] => True | i :: l => advances c i.2 /\ advancing (step retryDelaysMs c i) l end.

Lemma rank_settle id x c t : tasks c !! id = Some t -> (rank (tasks (settle id x c).1) < rank (tasks c))%nat.
Proof. intros Ht. cbn. rewrite (rank_lookup _ _ _ Ht). assert (0 < weight t)%nat by (destruct t; cbn; lia). change (tasks (settle id x c).1) with (delete id (tasks c)). lia. Qed.

Lemma rank_move id t t' c : tasks c !! id = Some t -> (weight t' < weight t)%nat -> (rank (<[id:=t']> (tasks c)) < rank (tasks c))%nat.
Proof. intros Ht Hw. pose proof (rank_become _ _ _ t' Ht). lia. Qed.

Lemma rank_complete id o p t c : tasks c !! id = Some t -> (1 < weight t)%nat -> (rank (tasks (revoke_complete id o p c).1) < rank (tasks c))%nat.
Proof.
  intros Ht Hw. unfold revoke_complete, mbind, AsyncOp.op_bind, gets. cbv beta iota. destruct (decide _); exact (rank_move id t (revoke_done _) c Ht Hw).
Qed.

Lemma rank_failed id o e t c : tasks c !! id = Some t -> (1 < weight t)%nat -> (rank (tasks (revoke_failed id o e c).1) < rank (tasks c))%nat.
Proof.
  intros Ht Hw. unfold revoke_failed, mbind, AsyncOp.op_bind, gets. cbv beta iota. destruct (decide _); exact (rank_move id t (revoke_done _) c Ht Hw).
Qed.

Lemma rank_answer_refresh now id o x r a c :
  inv c -> tasks c !! id = Some (refreshing o x r) -> (rank (tasks (answer_refresh retryDelaysMs now id o x r a c).1) < rank (tasks c))%nat.
Proof.
  intros Hi Ht. unfold answer_refresh, attempt, mbind, AsyncOp.op_bind. pose proof (take_refreshed_run now o x a c) as Hm. cbn zeta in Hm.
  destruct Hm as [[e ->]|(n & s & -> & Ho & Hs & Hp & ->)].
  - unfold gets. cbv beta iota. destruct (decide (o <> admissionEpoch c)) as [|Ho%dec_stable]; [exact (rank_move id _ (refresh_done (Err e)) c Ht ltac:(cbn; lia))|].
    assert (Hx : revocationTarget c = Some x).
    { subst o. destruct (li_refresh _ _ _ _ _ _ (iv_live _ Hi) id x r Ht) as (_ & Hse & _). by destruct (vo_owner _ _ _ (iv_view _ Hi) x Hse). }
    destruct (_ || negb (valid_session x now)) eqn:Hterm.
    + unfold modify. cbv beta iota. assert (Hi' : inv (set_target (Some x) c)).
      { destruct Hi as [V B L]. constructor; [rewrite <- Hx; exact V | exact B | rewrite <- Hx; exact L]. }
      pose proof (rank_revokeExpired id e _ _ Hi' Ht) as Hr. cbn [weight] in Hr. change (tasks (set_target (Some x) c)) with (tasks c) in Hr. lia.
    + apply orb_false_elim in Hterm as [_ Hv]. apply negb_false_iff in Hv. destruct (valid_spec x now Hv) as (_ & e' & He' & _).
      rewrite (retry_run retryDelaysMs now x e' c He'). exact (rank_move id _ (refresh_done (Err e)) c Ht ltac:(cbn; lia)).
  - destruct (activate_books now s c) as (B1 & _). rewrite <- B1 in Ht |- *. exact (rank_move id _ (refresh_done (Ok s)) _ Ht ltac:(cbn; lia)).
Qed.

Lemma advances_rank c i : inv c -> advances c i.2 -> (rank (tasks (step retryDelaysMs c i)) < rank (tasks c))%nat.
Proof.
  intros Hi Ha. destruct i as [now i]. unfold step. cbn [fst snd] in *.
  destruct i as [ | | | | | | | | | |id a|id a|id a|id a|id a b|id|id]; try done; cbn [perform advances] in *;
    unfold deliver, resume, finish, mbind, AsyncOp.op_bind, gets; cbv beta iota.
  - destruct Ha as (o & st & Ht). rewrite Ht. unfold answer_read, attempt, mbind, AsyncOp.op_bind.
    assert (Hm : tasks (take_read now o st a c).1 = tasks c).
    { unfold take_read, mbind, AsyncOp.op_bind, lift, gets. cbv beta iota. destruct a as [n|]; [|done]. destruct (decide _); [done|].
      destruct n as [n|]; [|done]. destruct (projectNative n st) as [s|]; [|done]. destruct (activate_books now s c) as (B1 & _).
      destruct (activate now s c) as [c' []]; done. }
    destruct (take_read now o st a c) as [c' r]. cbn [fst] in Hm. rewrite <- Hm in Ht |- *. by eapply rank_settle.
  - destruct Ha as (o & x & r & Ht). rewrite Ht. by apply rank_answer_refresh.
  - destruct Ha as [(o & x & Ht)|Ht]; rewrite Ht.
    + unfold answer_revoke. destruct a as [p|]; [|apply (rank_failed _ _ _ _ _ Ht); cbn; lia]. destruct (negb _); [apply (rank_failed _ _ _ _ _ Ht); cbn; lia|].
      destruct x as [t|]; [|apply (rank_complete _ _ _ _ _ Ht); cbn; lia].
      exact (rank_move id _ (purging o (Some t) p) c Ht ltac:(cbn; lia)).
    + unfold answer_purge. destruct a as [p|]; [|by eapply rank_settle]. destruct (negb _); [by eapply rank_settle|].
      exact (rank_settle id _ (fenceSessionRuntimeProjection c).1 _ Ht).
  - destruct Ha as (o & x & p & Ht). rewrite Ht. destruct a; [apply (rank_complete _ _ _ _ _ Ht) | apply (rank_failed _ _ _ _ _ Ht)]; cbn; lia.
  - destruct Ha as [(adm & Ht)|Ht]; rewrite Ht; [|by eapply rank_settle]. unfold answer_request.
    destruct a; [by eapply rank_settle|]. destruct b; [|by eapply rank_settle]. cbn [negb]. unfold mbind, AsyncOp.op_bind.
    destruct (refresh_inv now authenticated_401 c Hi) as (p & Hp & _ & _ & Hk). pose proof (rank_refresh now authenticated_401 c Hi) as Hr.
    destruct (refresh now authenticated_401 c) as [c' r]. cbn [fst snd] in *. rewrite Hp.
    pose proof (rank_become _ id _ (recovering p adm) (Hk id _ Ht)) as Hq. change (tasks (become id (recovering p adm) c').1) with (<[id:=recovering p adm]> (tasks c')).
    cbn [weight] in Hq. lia.
  - destruct Ha as (p & [x Hx] & [(o & e & Ht)|(adm & Ht)]); rewrite Ht, Hx.
    + destruct (bo_expiring _ _ _ _ _ _ (iv_books _ Hi) id p o e Ht) as (_ & [(u & Hu & _)|(y & Hy & Hk)]);
        [destruct (bo_task _ _ _ _ _ _ (iv_books _ Hi) p u Hu); congruence|]. assert (y = x) as -> by congruence. destruct x as [ | |[]| | ]; try done.
      * destruct (decide _); exact (rank_move id _ (refresh_done (Err e)) c Ht ltac:(cbn; lia)).
      * exact (rank_move id _ (refresh_done (Err message)) c Ht ltac:(cbn; lia)).
    + destruct (bo_recovering _ _ _ _ _ _ (iv_books _ Hi) id p adm Ht) as [(u & Hu & _)|(y & Hy & Hk)];
        [destruct (bo_task _ _ _ _ _ _ (iv_books _ Hi) p u Hu); congruence|]. assert (y = x) as -> by congruence. destruct x as [ |[]| | | ]; try done.
      * destruct (assertSessionAdmission _ _ _); [exact (rank_move id _ retrying c Ht ltac:(cbn; lia)) | by eapply rank_settle].
      * by eapply rank_settle.
  - destruct Ha as [[r Ht]|[r Ht]]; rewrite Ht; [pose proof (rank_settle id (refreshed r) c _ Ht) | pose proof (rank_settle id (revoked r) c _ Ht)];
      by destruct (decide _).
Qed.

(** Some task can always go on. *)
Lemma some_advances c : inv c -> tasks c <> ∅ -> exists i, advances c i.
Proof.
  intros Hi Hne. apply map_choose in Hne as (id & t & Ht).
  assert (Hv : forall p u, tasks c !! p = Some u -> revoke_kind u = true -> exists i, advances c i).
  { intros p u Hu Hk. destruct u as [ | |o x|o x pu| | |r| | | | ]; try done.
    - exists (revoke_answered p (Err EmptyString)). left. eauto.
    - exists (preferences_purged p (Ok tt)). cbn. eauto.
    - exists (finishes p). right. eauto. }
  assert (Hx : forall j p o e, tasks c !! j = Some (expiring p o e) -> exists i, advances c i).
  { intros j p o e Hj. destruct (bo_expiring _ _ _ _ _ _ (iv_books _ Hi) j p o e Hj) as (_ & [(u & Hu & Hk)|(y & Hy & _)]); [by eapply Hv|].
    exists (resumes j). exists p. split; [by eexists | left; eauto]. }
  assert (Hf : forall p u, tasks c !! p = Some u -> refresh_kind u = true -> exists i, advances c i).
  { intros p u Hu Hk. destruct u as [ |o x r| | |q o e|r| | | | | ]; try done.
    - exists (refresh_answered p (Err EmptyString)). cbn. eauto.
    - by eapply Hx.
    - exists (finishes p). left. eauto. }
  destruct t as [o st|o x r|o x|o x p|p o e|r|r|a|p a| | ]; [| by eapply Hf | by eapply Hv | by eapply Hv | by eapply Hx | by eapply Hf | by eapply Hv | | | | ].
  - exists (read_answered id (Ok None)). cbn. eauto.
  - exists (request_answered id (Ok 0%nat) false). left. eauto.
  - destruct (bo_recovering _ _ _ _ _ _ (iv_books _ Hi) id p a Ht) as [(u & Hu & Hk)|(y & Hy & _)]; [by eapply Hf|].
    exists (resumes id). exists p. split; [by eexists | right; eauto].
  - exists (request_answered id (Ok 0%nat) false). by right.
  - exists (revoke_answered id (Err EmptyString)). by right.
Qed.

(** ** The properties *)

(** C10: Whatever calls, answers and timers come in whatever order, the snapshot is
    consistent: writes are allowed only in the phase active; a session is shown exactly in
    the phases active and refreshing, and it is the one the controller owns, with all its
    texts present, a safe generation and a date of expiry; the refresh timer waits between
    zero and the longest delay the platform knows, and while a session is active it is set
    to run out no later than that session expires. *)
Theorem session_consistent l :
  let c := reached l in
  let s := snapshot c in
  (writesAllowed s = true -> phase s = phase_active)
  /\ (is_Some (session s) <-> phase s = phase_active \/ phase s = phase_refreshing)
  /\ (forall x, session s = Some x -> owned c = Some x /\ sound x /\ stationUrl x <> EmptyString /\ is_Some (expiry x))
  /\ (forall t, refreshTimer c = Some t -> timer_reason t = scheduled_refresh
       /\ (exists m, delay t = Some m /\ 0 <= m <= 2147483647)
       /\ exists d, deadline t = Some d /\ (phase s = phase_active -> forall x e, session s = Some x -> expiry x = Some e -> d <= e)).
Proof.
  intros c s. pose proof (reachable_inv retryDelaysMs l) as Hi. fold c in Hi. pose proof (iv_view _ Hi) as V.
  split_and!; [apply V | apply V | |].
  - intros x Hx. destruct (vo_owner _ _ _ V x Hx) as (Ht & Hu & He). split_and!; [|by eapply vo_target | done | done].
    by rewrite owned_target.
  - intros t Ht. destruct (vo_timer _ _ _ V t Ht). split_and!; [done | done | by apply (vo_deadline _ _ _ V)].
Qed.

(** The controller [c'] shows what [c] showed or nothing, without a timer, remembers the
    owner, and has asked nothing of the native side since [c]. *)
Definition still_ended (c c' : Controller) : Prop :=
  (snapshot c' = snapshot c \/ snapshot c' = inactiveSnapshot) /\ refreshTimer c' = None /\ owned c' = owned c
  /\ exists noted, log c' = log c ++ noted /\ Forall harmless noted.

Lemma down_still_ended c c' : settled_down (snapshot c) (owned c) (log c) c' -> still_ended c c'.
Proof. intros [d1 d2 d3 _ d5]. done. Qed.

(** C8: Fencing, suspending or failing keeps the owner, and what arrives afterwards without
    a new call (native answers, answers to requests, settled promises, timers) leaves the
    runtime ended: the snapshot stays as it was or becomes the inactive one, no timer is
    set, the owner is remembered for its revocation, and nothing is asked of the native
    side. The one exception is stated with it: a 401 answered to a request that was under
    way, while an owner is remembered, and up to the first such answer the runtime was still
    ended. *)
Theorem late_answers_change_nothing l i l' :
  ends_now i.2 -> Forall (fun j => late_input j.2) l' ->
  let c := step retryDelaysMs (reached l) i in
  owned c = owned (reached l)
  /\ (still_ended c (run retryDelaysMs c l')
      \/ exists before j after, l' = before ++ j :: after
           /\ still_ended c (run retryDelaysMs c before) /\ late_401 (run retryDelaysMs c before) j.2).
Proof.
  intros He Hl c. destruct (ends_down (reached l) i (reachable_inv _ l) He) as [D Hi].
  pose proof (sd_owner _ _ _ _ D) as Ho. split; [done|]. fold c in D, Hi, Ho. rewrite <- Ho in D.
  destruct (down_late_run _ _ _ l' c Hi D Hl) as [D'|(before & j & after & ? & D' & ?)]; [left | right].
  - by apply down_still_ended.
  - exists before, j, after. split; [done|]. split; [by apply down_still_ended | done].
Qed.

(** C7: The session of an actor on a station changes hands only through a restore or a
    completed sign-in: by refreshing, timers, requests, revocations and fencing, and
    whatever the native side answers to them, the controller comes to own the same actor on
    the same station and origin, or nothing. *)
Theorem session_owner_kept l l' x :
  owned (reached l) = Some x -> Forall (fun i => ~ reads i.2) l' ->
  match owned (run retryDelaysMs (reached l) l') with None => True | Some y => same_owner x y end.
Proof.
  intros Ho Hl. assert (Hi := reachable_inv retryDelaysMs l). rewrite (owned_target _ (iv_view _ Hi)) in Ho.
  set (c := reached l) in *. clearbody c.
  enough (inv (run retryDelaysMs c l') /\ match revocationTarget (run retryDelaysMs c l') with None => True | Some y => same_owner x y end) as [Hi' Hg].
  { by rewrite (owned_target _ (iv_view _ Hi')). }
  assert (Hc : match revocationTarget c with None => True | Some y => same_owner x y end) by by rewrite Ho.
  clear Ho. revert c Hi Hc. unfold run. induction l' as [|i l' IH]; intros c Hi Hc; [done|]. apply Forall_cons in Hl as [Hn Hl].
  apply (IH Hl); [by apply perform_inv|]. destruct (target_step c i Hi Hn) as [->|[->|(y & z & Hy & -> & Hs)]]; [done | done |].
  rewrite Hy in Hc. destruct Hc as (? & ? & ?), Hs as (? & ? & ?). split_and!; congruence.
Qed.

(** C12: Every operation of the session runtime ends. As long as a task is left, one of them
    can go on by an answer or a settled promise, so that none waits for a promise that
    nobody settles; and each such input lowers a rank, so that the operations started so far
    take no more answers than it, whatever the answers are. *)
Theorem session_operations_end l :
  let c := reached l in
  (tasks c <> ∅ -> exists i, advances c i)
  /\ forall l', advancing c l' -> (length l' + rank (tasks (run retryDelaysMs c l')) <= rank (tasks c))%nat.
Proof.
  intros c. assert (Hi : inv c) by apply reachable_inv. split; [by apply some_advances|]. clearbody c.
  intros l'. revert c Hi. unfold run. induction l' as [|i l' IH]; intros c Hi Ha; cbn [fold_left length]; [lia|].
  destruct Ha as [Ha Hl]. pose proof (advances_rank c i Hi Ha). specialize (IH _ (perform_inv retryDelaysMs i.1 i.2 c Hi) Hl).
  change (perform retryDelaysMs i.1 i.2 c).1 with (step retryDelaysMs c i) in IH. lia.
Qed.

(** *** Reaching the phase revoked *)
Definition not_into_revoked : relation Controller := fun c c' => phase (snapshot c') = phase_revoked -> phase (snapshot c) = phase_revoked.

#[local] Instance not_into_revoked_preorder : PreOrder not_into_revoked.
Proof. split; [by intros c Hc|]. intros c1 c2 c3 H12 H23 Hc. auto. Qed.

Lemma calm_publish s : phase s <> phase_revoked -> steps not_into_revoked (publish s).
Proof. by intros Hs c Hc. Qed.

Lemma calm_note e : steps not_into_revoked (note e).
Proof. by intros c Hc. Qed.

Lemma calm_attempt {A} (m : Op Controller A) : steps not_into_revoked m -> steps not_into_revoked (attempt m).
Proof. intros Hm c. specialize (Hm c). unfold attempt. by destruct (m c). Qed.

Ltac calm :=
  op_steps; repeat first [ by intros ? | apply calm_publish; done | apply calm_note | apply calm_attempt; op_steps ].

Lemma calm_spawn t : steps not_into_revoked (spawn t).
Proof. unfold spawn. by calm. Qed.
Lemma calm_become id t : steps not_into_revoked (become id t).
Proof. by intros c Hc. Qed.
Lemma calm_settle id x : steps not_into_revoked (settle id x).
Proof. by intros c Hc. Qed.
Lemma calm_settled x : steps not_into_revoked (settled x).
Proof. by intros c Hc. Qed.
#[local] Hint Resolve calm_spawn calm_become calm_settle calm_settled calm_note : steps.

Lemma calm_invalidate : steps not_into_revoked invalidateAdmission.
Proof. by intros c Hc. Qed.
Lemma calm_clear : steps not_into_revoked clearRefreshTimer.
Proof. by intros c Hc. Qed.
Lemma calm_schedule now d r : steps not_into_revoked (scheduleAt now d r).
Proof. by intros c Hc. Qed.
#[local] Hint Resolve calm_invalidate calm_clear calm_schedule : steps.

Lemma calm_activate now s : steps not_into_revoked (activate now s).
Proof. unfold activate, scheduleRefresh. calm. Qed.
Lemma calm_revoke : steps not_into_revoked revoke.
Proof. unfold revoke. calm. Qed.
#[local] Hint Resolve calm_activate calm_revoke : steps.

Lemma calm_revokeExpired id e : steps not_into_revoked (revokeExpiredSession id e).
Proof. unfold revokeExpiredSession. calm. Qed.
#[local] Hint Resolve calm_revokeExpired : steps.
Lemma calm_refresh now r : steps not_into_revoked (refresh now r).
Proof. unfold refresh. calm. Qed.
Lemma calm_failed id o e : steps not_into_revoked (revoke_failed id o e).
Proof. unfold revoke_failed. calm. Qed.
Lemma calm_fence : steps not_into_revoked fenceSessionRuntimeProjection.
Proof. by intros c Hc. Qed.
#[local] Hint Resolve calm_refresh calm_failed calm_fence : steps.

Lemma calm_answer_refresh now id o x r a : steps not_into_revoked (answer_refresh retryDelaysMs now id o x r a).
Proof. unfold answer_refresh, take_refreshed, retry_later. calm. Qed.
Lemma calm_answer_read now id o st a : steps not_into_revoked (answer_read now id o st a).
Proof. unfold answer_read, take_read. calm. Qed.
Lemma calm_answer_request now id adm a b : steps not_into_revoked (answer_request now id adm a b).
Proof. unfold answer_request. calm. Qed.
Lemma calm_timer now : steps not_into_revoked (fire_timer now).
Proof. unfold fire_timer, armTimer. calm. Qed.
Lemma calm_resume now id : steps not_into_revoked (resume now id).
Proof. unfold resume. calm. Qed.
Lemma calm_finish id : steps not_into_revoked (finish id).
Proof. unfold finish. calm. Qed.
Lemma calm_restore st d : steps not_into_revoked (restore st d).
Proof. unfold restore. calm. Qed.
Lemma calm_observe now p st d : steps not_into_revoked (observeOAuthProjection now p st d).
Proof. unfold observeOAuthProjection. calm. Qed.
Lemma calm_fail e : steps not_into_revoked (fail e).
Proof. by intros c Hc. Qed.
#[local] Hint Resolve calm_answer_refresh calm_answer_read calm_answer_request calm_timer calm_resume calm_finish calm_restore calm_observe calm_fail : steps.

Lemma revoked_by c i :
  inv c -> phase (snapshot c) <> phase_revoked -> phase (snapshot (step retryDelaysMs c i)) = phase_revoked ->
  exists id purge, nativeStorageIsEmpty (secureStorage purge) = true /\
    ((i.2 = revoke_answered id (Ok purge) /\ tasks c !! id = Some (revoking (admissionEpoch c) None))
     \/ exists x, i.2 = preferences_purged id (Ok tt) /\ tasks c !! id = Some (purging (admissionEpoch c) x purge)).
Proof.
  intros Hi Hn. destruct i as [now i]. unfold step. cbn [fst snd]. intros Hp.
  assert (Hcalm : forall m : Op Controller unit, steps not_into_revoked m -> phase (snapshot (m c).1) = phase_revoked -> False).
  { intros m Hm Hx. by apply Hn, (Hm c). }
  assert (Hdone : forall id o p, phase (snapshot (revoke_complete id o p c).1) = phase_revoked -> o = admissionEpoch c).
  { intros id o p. unfold revoke_complete, mbind, AsyncOp.op_bind, gets. cbv beta iota. by destruct (decide _). }
  destruct i as [st d|p st d|r| | | |e|a|st| |id a|id a|id a|id a|id a b|id|id]; cbn [perform] in Hp.
  1-12, 15-17: exfalso; eapply Hcalm; [|exact Hp]; unfold void, suspend, runAfterAuthenticated401, purgeNativeSessionState, deliver; by calm.
  - unfold deliver, mbind, AsyncOp.op_bind, gets in Hp. cbv beta iota in Hp. destruct (tasks c !! id) as [t|] eqn:Ht; [|done].
    destruct t as [ | |o x| | | | | | | | ]; try done.
    + unfold answer_revoke in Hp. destruct a as [purge|e]; [|by destruct (Hcalm _ (calm_failed id o e))].
      destruct (nativeStorageIsEmpty (secureStorage purge)) eqn:He; [|by destruct (Hcalm _ (calm_failed id o _) Hp)].
      destruct x as [x|]; [done|]. cbn [negb] in Hp. apply Hdone in Hp as ->. exists id, purge. split; [done | by left].
    + exfalso. eapply Hcalm; [|exact Hp]. unfold answer_purge. by calm.
  - unfold deliver, mbind, AsyncOp.op_bind, gets in Hp. cbv beta iota in Hp. destruct (tasks c !! id) as [t|] eqn:Ht; [|done].
    destruct t as [ | | |o x purge| | | | | | | ]; try done. destruct a as [[]|e]; [|by destruct (Hcalm _ (calm_failed id o e))].
    apply Hdone in Hp as ->. exists id, purge. split; [by eapply bo_purging; [apply (iv_books _ Hi)|] | right; by exists x].
Qed.

(** C9: The session counts as revoked only when the native side confirmed that none of the
    five secure records is left and, where an actor was signed in, after the preferences of
    that actor were purged too; from then on no session is owned. A revocation whose purge
    is incomplete or fails ends in the phase failed and keeps the owner, so that the next
    attempt asks for the same scope. *)
Theorem revoked_means_purged l i :
  let c := reached l in
  let c' := step retryDelaysMs c i in
  (phase (snapshot c) <> phase_revoked -> phase (snapshot c') = phase_revoked ->
     owned c' = None /\ exists id purge, nativeStorageIsEmpty (secureStorage purge) = true /\
       ((i.2 = revoke_answered id (Ok purge) /\ tasks c !! id = Some (revoking (admissionEpoch c) None) /\ owned c = None)
        \/ i.2 = preferences_purged id (Ok tt) /\ tasks c !! id = Some (purging (admissionEpoch c) (owned c) purge)))
  /\ (forall id x a, tasks c !! id = Some (revoking (admissionEpoch c) x) -> i.2 = revoke_answered id a ->
        (forall purge, a = Ok purge -> nativeStorageIsEmpty (secureStorage purge) = false) ->
        phase (snapshot c') = phase_failed /\ owned c' = owned c /\ owned c = x).
Proof.
  intros c c'. pose proof (reachable_inv retryDelaysMs l) as Hi. fold c in Hi.
  assert (Hi' : inv c') by by apply perform_inv. rewrite (owned_target c') by apply Hi'. rewrite (owned_target c) by apply Hi. split.
  - intros Hn Hp. destruct (revoked_by c i Hi Hn Hp) as (id & purge & He & Hc). destruct i as [now i]. cbn [snd] in *.
    assert (Hg : forall o p, o = admissionEpoch c -> revocationTarget (revoke_complete id o p c).1 = None).
    { intros o p ->. unfold revoke_complete, mbind, AsyncOp.op_bind, gets. cbv beta iota. by rewrite decide_True. }
    destruct Hc as [[-> Ht]|(x & -> & Ht)]; (split; [|exists id, purge; split; [done|]]).
    + unfold c', step. cbn [fst snd perform]. unfold deliver, mbind, AsyncOp.op_bind, gets. cbv beta iota. rewrite Ht. unfold answer_revoke.
      rewrite He. by apply Hg.
    + left. split_and!; [done | done |]. by apply (li_revoking _ _ _ _ _ _ (iv_live _ Hi) id None Ht).
    + unfold c', step. cbn [fst snd perform]. unfold deliver, mbind, AsyncOp.op_bind, gets. cbv beta iota. rewrite Ht. by apply Hg.
    + right. split; [done|]. by destruct (li_purging _ _ _ _ _ _ (iv_live _ Hi) id x purge Ht) as (_ & -> & _).
  - intros id x a Ht Hia Hpa. destruct (li_revoking _ _ _ _ _ _ (iv_live _ Hi) id x Ht) as (_ & Hx & _).
    destruct i as [now i]. cbn [snd] in Hia. subst i. unfold c', step. cbn [fst snd perform]. unfold deliver.
    unfold mbind, AsyncOp.op_bind, gets. cbv beta iota. rewrite Ht.
    assert (Hf : forall e, let c1 := (revoke_failed id (admissionEpoch c) e c).1 in
      phase (snapshot c1) = phase_failed /\ revocationTarget c1 = revocationTarget c /\ revocationTarget c = x).
    { intros e. unfold revoke_failed, mbind, AsyncOp.op_bind, gets. cbv beta iota. by rewrite decide_True. }
    unfold answer_revoke. destruct a as [purge|e]; [|apply Hf]. rewrite Hpa by done. apply Hf.
Qed.

(** ** Expiry *)
Definition writes_closed c : Prop := assertWritesAllowed (snapshot c) <> Ok tt.

Lemma closed_writes c : phase (snapshot c) <> phase_active -> writes_closed c.
Proof. intros Hp. unfold writes_closed, assertWritesAllowed. by rewrite decide_True. Qed.

(** When the timer of an active session fires and no other operation is under way, it
    is set again if its deadline was not reached; if it was and the session is still valid,
    the session is refreshed, with writes closed meanwhile; and if the session has expired,
    it is taken away and its revocation is asked for. As the deadline never lies after the
    expiry, a session whose timer fires does not outlive it. *)
Theorem timer_drives_session l now x t d e :
  let c := reached l in
  phase (snapshot c) = phase_active -> session (snapshot c) = Some x -> refreshTimer c = Some t -> deadline t = Some d -> expiry x = Some e ->
  refreshInFlight c = None -> revokeInFlight c = None ->
  let c' := step retryDelaysMs c (now, timer_fires) in
  d <= e
  /\ (now < d -> snapshot c' = snapshot c /\ exists t', refreshTimer c' = Some t' /\ deadline t' = Some d)
  /\ (d <= now < e -> phase (snapshot c') = phase_refreshing /\ session (snapshot c') = Some x /\ writes_closed c'
       /\ log c' = log c ++ [session_changed (Some x); native_refresh (scopeFor x)])
  /\ (e <= now -> phase (snapshot c') = phase_revoking /\ session (snapshot c') = None /\ writes_closed c' /\ owned c' = Some x
       /\ log c' = log c ++ [session_changed None; session_changed None; native_revoke (Some (scopeFor x))]).
Proof.
  intros c Hp Hx Ht Hd He Hrf Hrv c'. pose proof (reachable_inv retryDelaysMs l) as Hi. fold c in Hi. pose proof (iv_view _ Hi) as V.
  assert (Hde : d <= e). { destruct (vo_deadline _ _ _ V t Ht) as (d' & Hd' & Hb). specialize (Hb Hp x e Hx He). congruence. }
  split; [done|]. assert (Ho : owned c = Some x) by (unfold owned; by rewrite Hx).
  destruct (vo_owner _ _ _ V x Hx) as (Hta & Hu & _). pose proof (sound_valid x now (vo_target _ _ _ V x Hta) Hu) as Hval. rewrite He in Hval.
  assert (Hc' : c' = (fire_timer now c).1) by done. clearbody c'. subst c'.
  unfold fire_timer, mbind, AsyncOp.op_bind, gets. cbv beta iota. rewrite Ht. change (clearRefreshTimer c) with (set_timer None c, @Ok unit tt).
  cbv beta iota. rewrite Hd. split_and!; intros Hn.
  - rewrite (proj2 (Z.ltb_lt _ _)) by done. split; [done | eexists; split; [reflexivity | done]].
  - rewrite (proj2 (Z.ltb_ge _ _)) by lia. rewrite refresh_run. change (refreshInFlight (set_timer None c)) with (refreshInFlight c).
    change (owned (set_timer None c)) with (owned c). rewrite Hrf, Ho, Hval, (proj2 (Z.ltb_lt _ _)) by lia.
    split_and!; [done | done | by apply closed_writes | by cbn; rewrite <- (assoc_L (++))].
  - rewrite (proj2 (Z.ltb_ge _ _)) by lia. rewrite refresh_run. change (refreshInFlight (set_timer None c)) with (refreshInFlight c).
    change (owned (set_timer None c)) with (owned c). rewrite Hrf, Ho, Hval, (proj2 (Z.ltb_ge _ _)) by lia. rewrite revokeExpired_run.
    change (revokeInFlight (overdue_view (set_timer None c) x (timer_reason t))) with (revokeInFlight c). rewrite Hrv.
    split_and!; [done | done | by apply closed_writes | done | by cbn; rewrite <- !(assoc_L (++))].
Qed.

(** A refresh that fails for a passing reason gives the session back, with writes
    allowed, and tries again after the next of the delays but no later than the expiry;
    one that fails after a 401, for good, or on a session that expired meanwhile closes
    writes and asks for the revocation of the session. *)
Theorem refresh_failure l now id x r e m :
  let c := reached l in
  tasks c !! id = Some (refreshing (admissionEpoch c) x r) -> expiry x = Some e -> revokeInFlight c = None ->
  let c' := step retryDelaysMs c (now, refresh_answered id (Err m)) in
  if bool_decide (r = authenticated_401) || isTerminalSessionRefreshError m || (e <=? now)
  then phase (snapshot c') = phase_revoking /\ session (snapshot c') = None /\ writes_closed c'
       /\ owned c' = Some x /\ log c' = log c ++ [session_changed None; native_revoke (Some (scopeFor x))]
  else assertWritesAllowed (snapshot c') = Ok tt /\ session (snapshot c') = Some x /\ refreshRetryIndex c' = S (refreshRetryIndex c)
       /\ exists t, refreshTimer c' = Some t
            /\ deadline t = Some (now + Z.max 0 (match retryDelaysMs !! refreshRetryIndex c with Some k => Z.min k (e - now) | None => e - now end)).
Proof.
  intros c Ht He Hrv c'. pose proof (reachable_inv retryDelaysMs l) as Hi. fold c in Hi. pose proof (iv_view _ Hi) as V.
  destruct (li_refresh _ _ _ _ _ _ (iv_live _ Hi) id x r Ht) as (_ & Hse & _). destruct (vo_owner _ _ _ V x Hse) as (Hta & Hu & _).
  pose proof (sound_valid x now (vo_target _ _ _ V x Hta) Hu) as Hval. rewrite He in Hval.
  assert (Hc' : c' = (answer_refresh retryDelaysMs now id (admissionEpoch c) x r (Err m) c).1).
  { unfold c', step. cbn [fst snd perform]. unfold deliver, mbind, AsyncOp.op_bind, gets. cbv beta iota. by rewrite Ht. }
  clearbody c'. subst c'. unfold answer_refresh, attempt, take_refreshed, mbind, AsyncOp.op_bind, lift, gets. cbv beta iota.
  rewrite decide_False by (intros Hn; by apply Hn). assert (Hb : negb (valid_session x now) = (e <=? now)).
  { rewrite Hval. by rewrite Z.leb_antisym. }
  rewrite Hb. destruct (_ || (e <=? now)) eqn:Hterm.
  - unfold modify. cbv beta iota. rewrite revokeExpired_run. change (revokeInFlight (set_target (Some x) c)) with (revokeInFlight c). rewrite Hrv.
    assert (Ho : owned (set_target (Some x) c) = Some x) by (unfold owned; cbn; by rewrite Hse).
    split_and!; [done | done | by apply closed_writes | done |]. cbn. rewrite Ho. by rewrite <- (assoc_L (++)).
  - apply orb_false_elim in Hterm as [_ Hlt]. apply Z.leb_gt in Hlt. rewrite (retry_run retryDelaysMs now x e c He).
    split_and!; [done | done | done |]. eexists. split; [reflexivity|]. cbn. do 2 f_equal.
    destruct (retryDelaysMs !! refreshRetryIndex c); lia.
Qed.

(** ** Mutations *)

(** The reader that the session runtime binds. *)
Definition session_reader c : MutationAdmission.SessionAdmission :=
  match session_admission c with
  | Ok a => a
  | Err e => {| sa_scopeKey := None; sa_open := false; sa_reason := e |}
  end.

(** The key of a sound session exists, so the reader never throws. *)
Lemma session_admission_ok c : view_ok (snapshot c) (revocationTarget c) (refreshTimer c) -> exists a, session_admission c = Ok a
  /\ sa_open a = bool_decide (phase (snapshot c) = phase_active) && writesAllowed (snapshot c)
  /\ (forall k, sa_scopeKey a = Some k -> exists x, session (snapshot c) = Some x
       /\ mobileMutationScopeKey (stationPeerId x) (actorPtid x) (deviceId x) (lifecycleGeneration x) = Ok k).
Proof.
  intros V. unfold session_admission. destruct (session (snapshot c)) as [x|] eqn:Hx; [|by eexists].
  destruct (vo_owner _ _ _ V x Hx) as (Ht & _). destruct (vo_target _ _ _ V x Ht) as [[? T1] _ _ [? T2] [? T3] [G1 G2] _].
  assert (Hk : exists k, mobileMutationScopeKey (stationPeerId x) (actorPtid x) (deviceId x) (lifecycleGeneration x) = Ok k).
  { unfold mobileMutationScopeKey. rewrite T1, T2, T3, !truthy_true by done. cbn.
    rewrite (proj2 (Z.leb_le _ _)) by (unfold MAX_SAFE_INTEGER in *; lia). rewrite (proj2 (Z.leb_le _ MAX_SAFE_INTEGER)) by done.
    rewrite (proj2 (Z.leb_gt _ _)) by done. by eexists. }
  destruct Hk as [k Hk]. rewrite Hk. eexists. split; [reflexivity|]. split; [done|]. cbn. intros k' [= <-]. by exists x.
Qed.

(** What a mutation that passes the reader of the session needs. *)
Lemma admitted_session c (a : admission Controller) recovery scopeKey domain :
  inv c -> activeSessionReader a = Some session_reader ->
  requireMobileMutationAdmission a recovery c scopeKey domain = Ok tt ->
  assertWritesAllowed (snapshot c) = Ok tt /\ exists x, session (snapshot c) = Some x
    /\ mobileMutationScopeKey (stationPeerId x) (actorPtid x) (deviceId x) (lifecycleGeneration x) = Ok scopeKey.
Proof.
  intros Hi Ha Hr. apply admitted_spec in Hr as ((read & Hread & Hk & Hopen) & _). rewrite Ha in Hread. injection Hread as <-.
  destruct (session_admission_ok c (iv_view _ Hi)) as (ad & Hs & Ho & Hkey). unfold session_reader in Hk, Hopen. rewrite Hs in Hk, Hopen.
  destruct (Hkey _ Hk) as (x & Hx & Hkx). split; [|by exists x]. rewrite Ho in Hopen. reflect_bool.
  unfold assertWritesAllowed. rewrite decide_False by (intros Hn; by apply Hn). rewrite bool_decide_false by by rewrite Hx.
  match goal with H : writesAllowed _ = true |- _ => by rewrite H end.
Qed.

(** With the session runtime bound to it, the admission of mutations lets a mutation
    through only while a session is active with writes allowed, and only for the scope of
    that very session; once the runtime was fenced or failed, no answer that is still on
    its way opens it again, for any scope. *)
Theorem mutation_needs_session l (a : admission Controller) recovery scopeKey domain :
  activeSessionReader a = Some session_reader ->
  (requireMobileMutationAdmission a recovery (reached l) scopeKey domain = Ok tt ->
     assertWritesAllowed (snapshot (reached l)) = Ok tt
     /\ exists x, session (snapshot (reached l)) = Some x
          /\ mobileMutationScopeKey (stationPeerId x) (actorPtid x) (deviceId x) (lifecycleGeneration x) = Ok scopeKey)
  /\ forall i l', i.2 = do_fence \/ (exists m, i.2 = do_fail m) -> Forall (fun j => only_answers j.2) l' ->
       is_ok (requireMobileMutationAdmission a recovery (run retryDelaysMs (step retryDelaysMs (reached l) i) l') scopeKey domain) = false.
Proof.
  intros Ha. pose proof (fun c Hi => admitted_session c a recovery scopeKey domain Hi Ha) as Hg.
  split; [apply Hg, reachable_inv|]. intros i l' Hi Hl.
  assert (He : ends_now i.2) by by destruct Hi as [->|[m ->]].
  destruct (ends_down (reached l) i (reachable_inv _ l) He) as [D Hinv].
  destruct (down_run _ _ _ l' _ Hinv D Hl) as [Hinv' D'].
  destruct (requireMobileMutationAdmission _ _ _ _ _) as [[]|] eqn:Hr; [|done]. apply Hg in Hr as (_ & x & Hx & _); [|done].
  destruct (sd_snapshot _ _ _ _ D') as [Hs|Hs]; rewrite Hs in Hx; [|done].
  destruct i as [now i]. cbn [snd] in Hi. by destruct Hi as [->|[m ->]].
Qed.
End safety.

(** ** Concrete runs *)
Module SessionDemo.

(** Three dates; no other text is one. *)
Definition demo_parse (s : string) : option Z :=
  if decide (s = "noon"%string) then Some 1000000 else if decide (s = "evening"%string) then Some 5000000
  else if decide (s = "dawn"%string) then Some 1000 else None.

#[local] Instance demo_locale : Locale := {| Date_parse := demo_parse; localeCompare := fun _ _ => 0 |}.

Definition native (peer ptid expires : string) (generation : Z) : NativeSessionProjection := {|
  n_stationPeerId := Some peer; n_sessionId := Some "s1"%string; n_actorPtid := Some ptid; n_deviceId := Some "phone"%string;
  n_lifecycleGeneration := generation; n_expiresAt := Some expires |}.
Definition alice := native "st" "alice" "noon" 1.
Definition st : MobileStationEntry := {| st_peer := "st"; st_url := "https://st.example/" |}.
Definition granted := Some (access_number 3).
Definition alice_session : MobileSessionProjection := {|
  stationPeerId := "st"; stationUrl := "https://st.example"; sessionId := "s1"; actorPtid := "alice"; deviceId := "phone";
  lifecycleGeneration := 1; expiresAt := Some "noon"%string |}.
Definition empty_storage : NativeSessionSecureStorageAbsence := {|
  activeAttemptIndexAbsent := true; attemptSecretRecordAbsent := true; currentSessionIndexAbsent := true;
  credentialRecordAbsent := true; publicProjectionAbsent := true |}.
Definition confirmed : NativeSessionRevocation := {| stationRevocation := revocation_confirmed; secureStorage := empty_storage |}.
Definition oauth (n : option NativeSessionProjection) : OAuthPublicProjection :=
  {| oauth_active := bool_decide (is_Some n); oauth_peer := Some "st"%string; oauth_session := n |}.

Abbreviation demo l := (run REFRESH_RETRY_DELAYS_MS new_controller l).

(** Alice signs in at time 100: the restore is promise 0. *)
Definition signed_in : list (Z * Input) := [(100, do_restore (Some st) granted); (100, read_answered 0 (Ok (Some alice)))].

Definition shown (c : Controller) : SessionRuntimePhase * option string * bool :=
  (phase (snapshot c), sessionId <$> session (snapshot c), writesAllowed (snapshot c)).

Example signed_in_active :
  shown (demo signed_in) = (phase_active, Some "s1"%string, true)
  /\ delay <$> refreshTimer (demo signed_in) = Some (Some 879900).
Proof. vm_compute. done. Qed.

Definition moved_on : list (Z * Input) :=
  [(200, do_refresh scheduled_refresh); (300, refresh_answered 1 (Ok (native "st" "alice" "evening" 2))); (300, finishes 1)].

Lemma session_owner_kept_witness :
  match owned (run REFRESH_RETRY_DELAYS_MS (demo signed_in) moved_on) with None => True | Some y => same_owner alice_session y end.
Proof.
  apply (session_owner_kept REFRESH_RETRY_DELAYS_MS signed_in moved_on alice_session); [vm_compute; reflexivity|].
  repeat (constructor; [cbn; tauto|]). constructor.
Defined.

Definition fenced : Z * Input := (200, do_fence).
Definition too_late : list (Z * Input) := [(300, read_answered 0 (Ok (Some alice))); (300, timer_fires)].

Lemma late_answers_witness :
  owned (step REFRESH_RETRY_DELAYS_MS (demo [(100, do_restore (Some st) granted)]) fenced) = owned (demo [(100, do_restore (Some st) granted)]).
Proof.
  apply (late_answers_change_nothing REFRESH_RETRY_DELAYS_MS [(100, do_restore (Some st) granted)] fenced too_late); [exact I|].
  repeat (constructor; [exact I|]). constructor.
Defined.

Definition active_timer : Timer := {| delay := Some 879900; deadline := Some 880000; timer_reason := scheduled_refresh |}.

Lemma timer_drives_witness :
  phase (snapshot (step REFRESH_RETRY_DELAYS_MS (demo (signed_in ++ [])) (2000000, timer_fires))) = phase_revoking.
Proof.
  refine (proj1 (proj2 (proj2 (proj2 (timer_drives_session REFRESH_RETRY_DELAYS_MS (signed_in ++ []) 2000000 alice_session active_timer 880000 1000000
    _ _ _ _ _ _ _))) _)); [vm_compute; reflexivity.. | lia].
Defined.

Definition refreshing_alice : list (Z * Input) := signed_in ++ [(880000, timer_fires)].

Lemma refresh_failure_witness :
  assertWritesAllowed (snapshot (step REFRESH_RETRY_DELAYS_MS (demo refreshing_alice)
    (880100, refresh_answered 1 (Err "mobile.auth.oauthTransportUnavailable"%string)))) = Ok tt.
Proof.
  refine (proj1 (refresh_failure REFRESH_RETRY_DELAYS_MS refreshing_alice 880100 1%nat alice_session scheduled_refresh 1000000
    "mobile.auth.oauthTransportUnavailable" _ _ _)); vm_compute; reflexivity.
Defined.

Definition bound : admission Controller :=
  binding_run [op_bind_session session_reader] unbound.

Lemma mutation_needs_session_witness :
  is_ok (requireMobileMutationAdmission bound None
    (run REFRESH_RETRY_DELAYS_MS (step REFRESH_RETRY_DELAYS_MS (demo signed_in) fenced) too_late) "st|alice|phone|1" None) = false.
Proof.
  apply (proj2 (mutation_needs_session REFRESH_RETRY_DELAYS_MS signed_in bound None "st|alice|phone|1" None eq_refl) fenced too_late); [by left|].
  repeat (constructor; [exact I|]). constructor.
Defined.

(** ** Runs that go wrong *)

(** A request is under way when the runtime is fenced; the station answers it with a 401.
    The refresh takes the session kept for revocation, and the fenced session is active
    again, writes included. *)
Definition fenced_then_401 : list (Z * Input) := signed_in ++
  [(200, do_request admit_write); (210, do_fence); (220, request_answered 1 (Err "401"%string) true);
   (230, refresh_answered 2 (Ok (native "st" "alice" "evening" 1)))].

Theorem late_401_revives_session :
  shown (demo (signed_in ++ [(200, do_request admit_write); (210, do_fence)])) = (phase_inactive, None, false)
  /\ shown (demo fenced_then_401) = (phase_active, Some "s1"%string, true).
Proof. vm_compute. done. Qed.

(** The same during a logout: the session is active again while the revocation of its
    credentials completes and reports success. *)
Definition logout_then_401 : list (Z * Input) := signed_in ++
  [(200, do_request admit_write); (210, do_revoke); (220, request_answered 1 (Err "401"%string) true);
   (230, refresh_answered 3 (Ok (native "st" "alice" "evening" 1))); (240, revoke_answered 2 (Ok confirmed));
   (250, preferences_purged 2 (Ok tt)); (250, finishes 2)].

Theorem logout_is_undone :
  shown (demo logout_then_401) = (phase_active, Some "s1"%string, true)
  /\ promises (demo logout_then_401) !! 2%nat = Some (revoked (Ok {| remoteRevocation := revocation_confirmed; nativePurge := confirmed |})).
Proof. vm_compute. done. Qed.

(** Any notification of the auth runtime that carries no session orphans a refresh under
    way: its answer is refused, and the runtime stays in refreshing, with writes closed and
    without a timer. *)
Definition notified_while_refreshing : list (Z * Input) := refreshing_alice ++
  [(880010, do_observe (oauth None) (Some st) granted); (880020, refresh_answered 1 (Ok (native "st" "alice" "evening" 1))); (880020, finishes 1)].

Theorem refresh_is_orphaned :
  shown (demo notified_while_refreshing) = (phase_refreshing, Some "s1"%string, false)
  /\ refreshTimer (demo notified_while_refreshing) = None /\ tasks (demo notified_while_refreshing) = ∅.
Proof. vm_compute. done. Qed.

(** When access is withdrawn the session is hidden but its timer stays, and brings it back. *)
Definition access_withdrawn : list (Z * Input) := signed_in ++ [(200, do_observe (oauth None) (Some st) None)].
Definition access_withdrawn_later : list (Z * Input) := access_withdrawn ++
  [(880000, timer_fires); (880100, refresh_answered 1 (Ok (native "st" "alice" "evening" 1)))].

Theorem withdrawn_session_returns :
  shown (demo access_withdrawn) = (phase_inactive, None, false)
  /\ shown (demo access_withdrawn_later) = (phase_active, Some "s1"%string, true).
Proof. vm_compute. done. Qed.

(** A logout during the revocation of an earlier session returns the promise of that one;
    the session of Bob stays active and is never revoked. *)
Definition second_logout : list (Z * Input) := signed_in ++
  [(200, do_revoke); (210, do_restore (Some st) granted); (220, read_answered 2 (Ok (Some (native "st" "bob" "noon" 1)))); (230, do_revoke);
   (240, revoke_answered 1 (Ok confirmed)); (250, preferences_purged 1 (Ok tt)); (250, finishes 1)].

Theorem second_logout_does_nothing :
  actorPtid <$> session (snapshot (demo second_logout)) = Some "bob"%string
  /\ assertWritesAllowed (snapshot (demo second_logout)) = Ok tt /\ tasks (demo second_logout) = ∅.
Proof. vm_compute. done. Qed.

(** Restoring an expired session succeeds with that session although it is not admitted. *)
Definition expired_restore : list (Z * Input) :=
  [(2000, do_restore (Some st) granted); (2000, read_answered 0 (Ok (Some (native "st" "alice" "dawn" 1))))].

Theorem expired_session_is_returned :
  shown (demo expired_restore) = (phase_expired, None, false)
  /\ exists x, promises (demo expired_restore) !! 0%nat = Some (restored (Ok (Some x))) /\ activated (Ok (Some x)) = Ok x.
Proof. vm_compute. split; [done|]. eexists. done. Qed.

(** Until a late timer fires, an expired session is refused for reading but admitted for
    writing. *)
Theorem expired_session_writes :
  assertSessionAdmission (snapshot (demo signed_in)) admit_read 2000000 = Err "mobile.auth.sessionUnavailable"%string
  /\ assertSessionAdmission (snapshot (demo signed_in)) admit_write 2000000 = Ok tt.
Proof. vm_compute. done. Qed.

(** A restore that fails leaves an active session without its timer. *)
Definition failed_restore : list (Z * Input) := signed_in ++
  [(200, do_restore (Some st) granted); (210, read_answered 1 (Err "storage"%string))].

Theorem failed_restore_stops_refreshing :
  shown (demo failed_restore) = (phase_active, Some "s1"%string, true)
  /\ refreshTimer (demo failed_restore) = None /\ tasks (demo failed_restore) = ∅.
Proof. vm_compute. done. Qed.
End SessionDemo.
