(* ===== verification/SessionDescriptor.v ===== *)
(** * The session runtime as a runtime of the kernel

    Models [createSessionRuntimeDescriptor] of [runtimes/sessionRuntime.ts]: the hooks that
    the lifecycle kernel calls, over the controller of [SessionRuntime] and the mutation
    admission. A hook that awaits the station registry, a purge or a restore is a task
    here; the answers of the registry come with what the auth runtime and the auth store
    show at that moment. *)
From Stdlib Require Import Ascii Lia ZArith.
From stdpp Require Import base numbers relations strings list gmap sets.
From S2P Require Import Prelude JsString AsyncOp KeyedSort EventIngress MutationAdmission SessionRuntime SessionFacts SessionSafety.

Open Scope Z_scope.

(** The hook that waits for [restoreOwnedSession]; [bootstrap] keeps its epoch. *)
Inductive Hook : Set := in_bootstrap (observed : nat) | in_resume.

Inductive HookTask : Set :=
| observing (observed : nat)
| owned_station (observed : nat) (hook : Hook)
| owned_purge (promise observed : nat) (decision : option AccessState) (hook : Hook)
| owned_restore (promise : nat) (hook : Hook).

(** [unsubscribeAuth] is set while [subscribed]; [releaseMutationAdmission] is the release of
    the owner in [bound]. *)
Record Descriptor : Type := {
  controller : Controller;
  mutations : admission Controller;
  running : bool;
  lifecycleEpoch : nat;
  subscribed : bool;
  bound : option nat;
  hooks : gmap nat HookTask;
  ended : gmap nat (result unit);
  fresh : nat
}.

Definition set_controller c (d : Descriptor) : Descriptor := {| controller := c; mutations := mutations d; running := running d; lifecycleEpoch := lifecycleEpoch d; subscribed := subscribed d; bound := bound d; hooks := hooks d; ended := ended d; fresh := fresh d |}.
Definition set_mutations a o (d : Descriptor) : Descriptor := {| controller := controller d; mutations := a; running := running d; lifecycleEpoch := lifecycleEpoch d; subscribed := subscribed d; bound := o; hooks := hooks d; ended := ended d; fresh := fresh d |}.
Definition set_subscribed b (d : Descriptor) : Descriptor := {| controller := controller d; mutations := mutations d; running := running d; lifecycleEpoch := lifecycleEpoch d; subscribed := b; bound := bound d; hooks := hooks d; ended := ended d; fresh := fresh d |}.
(** [running = b; lifecycleEpoch += 1] *)
Definition set_running b (d : Descriptor) : Descriptor := {| controller := controller d; mutations := mutations d; running := b; lifecycleEpoch := S (lifecycleEpoch d); subscribed := subscribed d; bound := bound d; hooks := hooks d; ended := ended d; fresh := fresh d |}.
Definition set_hook (id : nat) (h : HookTask) (d : Descriptor) : Descriptor := {| controller := controller d; mutations := mutations d; running := running d; lifecycleEpoch := lifecycleEpoch d; subscribed := subscribed d; bound := bound d; hooks := <[id:=h]> (hooks d); ended := ended d; fresh := fresh d |}.
Definition end_hook (id : nat) (r : result unit) (d : Descriptor) : Descriptor := {| controller := controller d; mutations := mutations d; running := running d; lifecycleEpoch := lifecycleEpoch d; subscribed := subscribed d; bound := bound d; hooks := delete id (hooks d); ended := <[id:=r]> (ended d); fresh := fresh d |}.
Definition start_hook (h : HookTask) (d : Descriptor) : Descriptor := {| controller := controller d; mutations := mutations d; running := running d; lifecycleEpoch := lifecycleEpoch d; subscribed := subscribed d; bound := bound d; hooks := <[fresh d:=h]> (hooks d); ended := ended d; fresh := S (fresh d) |}.

Definition createSessionRuntimeDescriptor (c : Controller) (a : admission Controller) : Descriptor := {|
  controller := c; mutations := a; running := false; lifecycleEpoch := 0; subscribed := false; bound := None; hooks := ∅; ended := ∅; fresh := 0 |}.

Section descriptor.
Context `{Locale} (retryDelaysMs : list Z).
Implicit Types (d : Descriptor) (now : Z).

(** Is what the task saw still current? *)
Definition current d (observed : nat) : bool := running d && bool_decide (observed = lifecycleEpoch d).

(** A call of the controller, with the promise it returns. *)
Definition control {A} (m : Op Controller A) d : Descriptor * result A := let (c, r) := m (controller d) in (set_controller c d, r).

(** ** The hooks *)
Definition bootstrap d : Descriptor :=
  let d := set_running true d in start_hook (owned_station (lifecycleEpoch d) (in_bootstrap (lifecycleEpoch d))) d.

Definition resume_hook d : Descriptor :=
  let d := set_running true d in start_hook (owned_station (lifecycleEpoch d) in_resume) d.

Definition suspend_hook d : Descriptor := (control suspend (set_running false d)).1.

Definition teardown d : Descriptor :=
  let d := set_subscribed false (set_running false d) in
  let d := match bound d with Some o => set_mutations (releaseSession o (mutations d)) None d | None => d end in
  (control fenceSessionRuntimeProjection d).1.

(** The listener that [bootstrap] subscribed to the auth runtime: [void observeOAuth()]. *)
Definition auth_changed d : Descriptor :=
  if negb (subscribed d) then d else if negb (running d) then d else start_hook (observing (lifecycleEpoch d)) d.

(** What follows [await restoreOwnedSession()] in the hook that called it. *)
Definition after_restore (id : nat) (hook : Hook) (r : result unit) d : Descriptor :=
  match r, hook with
  | Err e, _ => end_hook id (Err e) d
  | Ok _, in_resume => end_hook id (Ok tt) d
  | Ok _, in_bootstrap observed =>
      if negb (current d observed) then end_hook id (Ok tt) d
      else match bindMobileSessionMutationAdmission session_reader (mutations d) with
           | Err e => end_hook id (Err e) d
           | Ok (o, a) => end_hook id (Ok tt) (set_subscribed true (set_mutations a (Some o) d))
           end
  end.

(** [await sessionRuntime.restore(station, decision)] *)
Definition restore_owned (id : nat) (hook : Hook) (station : option MobileStationEntry) (decision : option AccessState) d : Descriptor :=
  match control (restore station decision) d with
  | (d, Ok p) => set_hook id (owned_restore p hook) d
  | (d, Err e) => after_restore id hook (Err e) d
  end.

(** The answer of [readStationRegistryProjection]. *)
Definition station_answered now (id : nat) (answer : result (option MobileStationEntry)) (auth : OAuthPublicProjection)
  (decision : option AccessState) d : Descriptor :=
  match hooks d !! id with
  | Some (observing observed) =>
      match answer with
      | Ok station =>
          if negb (current d observed) then end_hook id (Ok tt) d
          else match control (observeOAuthProjection now auth station decision) d with
               | (d, Ok _) => end_hook id (Ok tt) d
               | (d, Err e) => end_hook id (Ok tt) (if current d observed then (control (fail e) d).1 else d)
               end
      | Err e => end_hook id (Ok tt) (if current d observed then (control (fail e) d).1 else d)
      end
  | Some (owned_station observed hook) =>
      match answer with
      | Err e => after_restore id hook (Err e) d
      | Ok station =>
          if negb (current d observed) then after_restore id hook (Ok tt) d
          else match station with
               | None =>
                   match control (purgeNativeSessionState None) d with
                   | (d, Ok p) => set_hook id (owned_purge p observed decision hook) d
                   | (d, Err e) => after_restore id hook (Err e) d
                   end
               | Some station => restore_owned id hook (Some station) decision d
               end
      end
  | _ => d
  end.

(** A promise of the controller settled. *)
Definition hook_resumes (id : nat) d : Descriptor :=
  match hooks d !! id with
  | Some (owned_purge p observed decision hook) =>
      match promises (controller d) !! p with
      | Some (purged (Ok _)) =>
          if negb (current d observed) then after_restore id hook (Ok tt) d
          else restore_owned id hook None decision (control (note projection_hidden) d).1
      | Some (purged (Err e)) => after_restore id hook (Err e) d
      | _ => d
      end
  | Some (owned_restore p hook) =>
      match promises (controller d) !! p with
      | Some (restored (Ok _)) => after_restore id hook (Ok tt) d
      | Some (restored (Err e)) => after_restore id hook (Err e) d
      | _ => d
      end
  | _ => d
  end.

(** The event ingress binds its own reader to the same admission. *)
Inductive HookInput : Type :=
| do_bootstrap | do_hook_suspend | do_hook_resume | do_teardown | auth_notifies
| registry_answers (id : nat) (answer : result (option MobileStationEntry)) (auth : OAuthPublicProjection) (decision : option AccessState)
| settles (id : nat)
| session_input (i : Input)
| ingress_binds (scopeKey : string) (read : Controller -> MutationAdmissionState)
| ingress_releases (owner : nat).

Definition hook_step d (i : Z * HookInput) : Descriptor :=
  match i.2 with
  | do_bootstrap => bootstrap d
  | do_hook_suspend => suspend_hook d
  | do_hook_resume => resume_hook d
  | do_teardown => teardown d
  | auth_notifies => auth_changed d
  | registry_answers id a auth dec => station_answered i.1 id a auth dec d
  | settles id => hook_resumes id d
  | session_input j => set_controller (step retryDelaysMs (controller d) (i.1, j)) d
  | ingress_binds k read => set_mutations (binding_step (mutations d) (op_bind k read)) (bound d) d
  | ingress_releases o => set_mutations (binding_step (mutations d) (op_release o)) (bound d) d
  end.

Definition hook_run d (l : list (Z * HookInput)) : Descriptor := fold_left hook_step l d.

(** ** What holds of every run *)

(** The descriptor is subscribed exactly while its reader is bound, and its owner is the one
    that the mutation admission knows. *)
Record hook_inv d : Prop := {
  hi_controller : inv (controller d);
  hi_admission : binding_inv (mutations d);
  hi_subscribed : subscribed d = true <-> is_Some (bound d);
  hi_bound : match bound d with
    | Some o => activeSessionOwner (mutations d) = Some o /\ activeSessionReader (mutations d) = Some session_reader
    | None => activeSessionReader (mutations d) = None
    end
}.

Lemma control_inv {A} (m : Op Controller A) d : hook_inv d -> inv (m (controller d)).1 -> hook_inv (control m d).1.
Proof. intros [h1 h2 h3 h4] Hi. unfold control. destruct (m (controller d)). by constructor. Qed.

Lemma hooks_inv h e f d : hook_inv d -> hook_inv {| controller := controller d; mutations := mutations d; running := running d;
  lifecycleEpoch := lifecycleEpoch d; subscribed := subscribed d; bound := bound d; hooks := h; ended := e; fresh := f |}.
Proof. intros []. by constructor. Qed.

Lemma after_restore_inv id hook r d : hook_inv d -> hook_inv (after_restore id hook r d).
Proof.
  intros Hh. unfold after_restore. destruct r as [[]|e]; [|by apply hooks_inv]. destruct hook as [o|]; [|by apply hooks_inv].
  destruct (current d o); [|by apply hooks_inv]. cbn [negb].
  pose proof (binding_step_inv (mutations d) (op_bind_session session_reader) (hi_admission _ Hh)) as Hb. cbn in Hb.
  unfold bindMobileSessionMutationAdmission in *. destruct (bool_decide _) eqn:Hx; [by apply hooks_inv|].
  destruct Hh as [h1 h2 h3 h4]. apply hooks_inv. constructor; cbn in *; [done | done | | done]. by split; [eexists|].
Qed.

Lemma restore_owned_inv id hook st dec d : hook_inv d -> hook_inv (restore_owned id hook st dec d).
Proof.
  intros Hh. unfold restore_owned. pose proof (control_inv (restore st dec) d Hh (restore_inv st dec _ (hi_controller _ Hh))) as Hc.
  destruct (control (restore st dec) d) as [d' [p|e]]; [by apply hooks_inv | by apply after_restore_inv].
Qed.

Lemma fail_inv e c : inv c -> inv (fail e c).1.
Proof. intros Hi. exact (perform_inv retryDelaysMs 0 (do_fail e) c Hi). Qed.

Lemma session_side (a : admission Controller) op : (exists k r, op = op_bind k r) \/ (exists o, op = op_release o) ->
  activeSessionOwner (binding_step a op) = activeSessionOwner a /\ activeSessionReader (binding_step a op) = activeSessionReader a.
Proof.
  intros [(k & r & ->)|(o & ->)]; cbn.
  - unfold bindMobileMutationAdmission. destruct (negb _); [done|]. by destruct (_ || _).
  - unfold release. by case_decide.
Qed.

Lemma ingress_inv d op : hook_inv d -> (exists k r, op = op_bind k r) \/ (exists o, op = op_release o) ->
  hook_inv (set_mutations (binding_step (mutations d) op) (bound d) d).
Proof.
  intros [h1 h2 h3 h4] Hop. destruct (session_side (mutations d) op Hop) as [H1 H2].
  constructor; cbn; [done | by apply binding_step_inv | done | by rewrite H1, H2].
Qed.

Lemma hook_step_inv d i : hook_inv d -> hook_inv (hook_step d i).
Proof.
  intros Hh. pose proof (hi_controller _ Hh) as Hi. destruct i as [now []]; cbn [hook_step fst snd].
  - unfold bootstrap. destruct Hh. by constructor.
  - apply (control_inv suspend (set_running false d)); [destruct Hh; by constructor|]. exact (perform_inv retryDelaysMs 0 do_suspend _ Hi).
  - unfold resume_hook. destruct Hh. by constructor.
  - unfold teardown. assert (Hr : hook_inv (match bound d with
        | Some o => set_mutations (releaseSession o (mutations d)) None (set_subscribed false (set_running false d))
        | None => set_subscribed false (set_running false d) end)).
    { pose proof (fun o => binding_step_inv (mutations d) (op_release_session o) (hi_admission _ Hh)) as Hb.
      destruct Hh as [h1 h2 h3 h4]. destruct (bound d) as [o|] eqn:Hbd; constructor; cbn; try done.
      - apply (Hb o).
      - unfold releaseSession. rewrite decide_False; [done|]. intros Hn. apply Hn. by destruct h4.
      - rewrite Hbd. by split; [|intros []].
      - by rewrite Hbd. }
    change (bound (set_subscribed false (set_running false d))) with (bound d).
    change (mutations (set_subscribed false (set_running false d))) with (mutations d).
    apply control_inv; [done|]. apply fence_inv, Hr.
  - unfold auth_changed. destruct (negb _); [done|]. destruct (negb _); [done|]. by apply hooks_inv.
  - unfold station_answered. destruct (hooks d !! id) as [[o|o hook|p o dec hook|p hook]|]; try done.
    + assert (Hf : forall e d', hook_inv d' -> hook_inv (end_hook id (Ok tt) (if current d' o then (control (fail e) d').1 else d'))).
      { intros e d' Hd. apply hooks_inv. destruct (current d' o); [|done]. apply control_inv; [done|]. apply fail_inv, Hd. }
      destruct answer as [st|e]; [|by apply Hf]. destruct (negb _); [by apply hooks_inv|].
      pose proof (control_inv (observeOAuthProjection now auth st decision) d Hh (observe_inv now auth st decision _ Hi)) as Hc.
      destruct (control _ d) as [d' [|]]; [by apply hooks_inv | by apply Hf].
    + destruct answer as [st|e]; [|by apply after_restore_inv]. destruct (negb _); [by apply after_restore_inv|].
      destruct st as [st|]; [by apply restore_owned_inv|].
      pose proof (control_inv (purgeNativeSessionState None) d Hh) as Hc. unfold control in *. cbn in *.
      apply hooks_inv, Hc. apply (spawn_inv purging_native (add_event (native_revoke None) (controller d))); [|done].
      destruct Hi as [V B L]. by constructor.
  - unfold hook_resumes. destruct (hooks d !! id) as [[o|o hook|p o dec hook|p hook]|]; try done.
    + destruct (promises (controller d) !! p) as [[ | | | |[]]|]; try done; [|by apply after_restore_inv].
      destruct (negb _); [by apply after_restore_inv|]. apply restore_owned_inv. apply (control_inv (note projection_hidden)); [done|].
      destruct Hi as [V B L]. by constructor.
    + destruct (promises (controller d) !! p) as [[[]| | | | ]|]; try done; by apply after_restore_inv.
  - pose proof (perform_inv retryDelaysMs now i _ Hi). destruct Hh. by constructor.
  - apply ingress_inv; [done|]. left. by eexists _, _.
  - apply ingress_inv; [done|]. right. by eexists.
Qed.

Lemma hook_run_inv l d : hook_inv d -> hook_inv (hook_run d l).
Proof. unfold hook_run. revert d. induction l as [|i l IH]; intros d Hh; [done|]. by apply IH, hook_step_inv. Qed.

(** ** Stopped *)
Definition stopped d : Prop := running d = false /\ bound d = None.
Definition starts (i : HookInput) : Prop := match i with do_bootstrap | do_hook_resume => True | _ => False end.

Lemma stopped_current d o : stopped d -> current d o = false.
Proof. intros [Hr _]. unfold current. by rewrite Hr. Qed.

Lemma stopped_restore id hook r d : stopped d -> let d' := after_restore id hook r d in stopped d' /\ controller d' = controller d.
Proof.
  intros Hs d'. unfold d', after_restore. destruct r; [|done]. destruct hook; [|done]. by rewrite stopped_current.
Qed.

(** Answers that reach a stopped runtime leave its controller alone. *)
Lemma stopped_answers now id a auth dec d : stopped d ->
  let d' := station_answered now id a auth dec d in stopped d' /\ controller d' = controller d.
Proof.
  intros Hs d'. unfold d', station_answered. destruct (hooks d !! id) as [[o|o hook|p o q hook|p hook]|]; try done.
  - destruct a; by rewrite !(stopped_current _ _ Hs).
  - destruct a; [rewrite (stopped_current _ _ Hs)|]; by apply stopped_restore.
Qed.

Lemma stopped_settles id d : stopped d -> let d' := hook_resumes id d in stopped d' /\ controller d' = controller d.
Proof.
  intros Hs d'. unfold d', hook_resumes. destruct (hooks d !! id) as [[o|o hook|p o q hook|p hook]|]; try done.
  - destruct (promises (controller d) !! p) as [[ | | | |[]]|]; try done. rewrite (stopped_current _ _ Hs). by apply stopped_restore.
  - destruct (promises (controller d) !! p) as [[[]| | | | ]|]; try done; by apply stopped_restore.
Qed.

Lemma stopped_step d i : stopped d -> ~ starts i.2 -> stopped (hook_step d i).
Proof.
  intros Hs Hn. destruct i as [now []]; try (by destruct Hn); cbn [hook_step fst snd].
  - by destruct Hs.
  - destruct Hs as [Hr Hb]. unfold teardown. change (bound (set_subscribed false (set_running false d))) with (bound d). by rewrite Hb.
  - unfold auth_changed. destruct (negb _); [done|]. by rewrite (proj1 Hs).
  - by apply stopped_answers.
  - by apply stopped_settles.
  - done.
  - done.
  - done.
Qed.

(** C11: Mutations are possible only while the session runtime runs. Whatever hooks, answers
    and session calls happened, a mutation passes the admission only when the runtime bound
    its reader and the session shown is active for just that scope; and after teardown,
    until the runtime is started again, every mutation of every scope is refused, and no
    answer that a hook still waits for reaches the controller or binds the reader again. *)
Theorem mutations_only_while_running l now l' recovery scopeKey domain :
  let d := hook_run (createSessionRuntimeDescriptor new_controller unbound) l in
  (requireMobileMutationAdmission (mutations d) recovery (controller d) scopeKey domain = Ok tt ->
     is_Some (bound d) /\ subscribed d = true /\ assertWritesAllowed (snapshot (controller d)) = Ok tt
     /\ exists x, session (snapshot (controller d)) = Some x
          /\ mobileMutationScopeKey (stationPeerId x) (actorPtid x) (deviceId x) (lifecycleGeneration x) = Ok scopeKey)
  /\ let d' := hook_run (hook_step d (now, do_teardown)) l' in
     (Forall (fun i => ~ starts i.2) l' ->
        requireMobileMutationAdmission (mutations d') recovery (controller d') scopeKey domain = Err "session_runtime_unavailable"%string
        /\ (forall id a auth dec, controller (hook_step d' (now, registry_answers id a auth dec)) = controller d')
        /\ forall id, controller (hook_step d' (now, settles id)) = controller d').
Proof.
  intros d. assert (Hh : hook_inv d). { apply hook_run_inv. constructor; cbn; [apply new_inv | apply unbound_inv | | done]. by split; [|intros []]. }
  clearbody d. split.
  - intros Hr. pose proof (fun Ha => admitted_session _ _ recovery scopeKey domain (hi_controller _ Hh) Ha Hr) as Hg. destruct (bound d) as [o|] eqn:Hb.
    + pose proof (hi_bound _ Hh) as Hbd. rewrite Hb in Hbd. destruct (Hg (proj2 Hbd)) as [Hw Hx].
      split_and!; [by eexists | | done | done]. apply (hi_subscribed _ Hh). by rewrite Hb.
    + pose proof (hi_bound _ Hh) as Hbd. rewrite Hb in Hbd. unfold requireMobileMutationAdmission in Hr. by rewrite Hbd in Hr.
  - intros d' Hl. assert (Hs : hook_inv d' /\ stopped d').
    { unfold d'. split; [by apply hook_run_inv, hook_step_inv|]. assert (H0 : stopped (hook_step d (now, do_teardown))).
      { unfold hook_step, teardown. cbn [snd]. change (bound (set_subscribed false (set_running false d))) with (bound d). by destruct (bound d) eqn:Hb. }
      revert H0. generalize (hook_step d (now, do_teardown)). clear -Hl. unfold hook_run. induction l' as [|i l' IH]; intros d0 Hd; [done|].
      apply Forall_cons in Hl as [Hi Hl]. apply (IH Hl). by apply stopped_step. }
    destruct Hs as [Hd Hs]. split_and!.
    + pose proof (hi_bound _ Hd) as Hbd. rewrite (proj2 Hs) in Hbd. unfold requireMobileMutationAdmission. by rewrite Hbd.
    + intros id a auth dec. by apply stopped_answers.
    + intros id. by apply stopped_settles.
Qed.
End descriptor.

(** ** A run from bootstrap to teardown *)
Module DescriptorDemo.
#[local] Existing Instance SessionDemo.demo_locale.

Definition open_ingress (c : Controller) : MutationAdmissionState :=
  {| ma_lifecycle := active; ma_staleness := fun _ => EventIngress.fresh; ma_writeAdmission := admission_open |}.

Definition no_auth := SessionDemo.oauth None.

Definition life : list (Z * HookInput) := [
  (100, do_bootstrap);
  (110, registry_answers 0 (Ok (Some SessionDemo.st)) no_auth SessionDemo.granted);
  (120, session_input (read_answered 0 (Ok (Some SessionDemo.alice))));
  (130, settles 0);
  (140, ingress_binds "st|alice|phone|1" open_ingress)].

Abbreviation lived l := (hook_run REFRESH_RETRY_DELAYS_MS (createSessionRuntimeDescriptor new_controller unbound) l).
Abbreviation tried d := (requireMobileMutationAdmission (mutations d) None (controller d) "st|alice|phone|1" None).

Example admitted_after_bootstrap : tried (lived life) = Ok tt.
Proof. vm_compute. reflexivity. Qed.

Example refused_while_refreshing : tried (lived (life ++ [(880000, session_input timer_fires)])) = Err "session_refreshing"%string.
Proof. vm_compute. reflexivity. Qed.

Example refused_after_teardown : tried (lived (life ++ [(200, do_teardown)])) = Err "session_runtime_unavailable"%string.
Proof. vm_compute. reflexivity. Qed.
End DescriptorDemo.
